(* ===== verification/_CoqProject ===== *)
-Q . S2P
Prelude.v
Traced.v
Attempt.v
Fueled.v
Watchdog.v
ShmLayout.v
ShmSnapshot.v
ShmFacts.v
ShmPublication.v
ShmSafety.v
ShmReader.v
PluginGraph.v
Config.v
PipelineTypes.v
TaskControl.v
PluginOrder.v
PluginRun.v
Pipeline.v
Finalize.v
FinalizeSpec.v
Subprocess.v
SubprocessSpec.v
SubprocessBounds.v
CaptureSpawn.v
CaptureIsolation.v
CaptureHelperSpec.v
Capture.v
Worker.v
WorkerSpec.v
Finalizers.v
WorkerThreads.v
EventLoop.v
RateLimiter.v
Artifact.v
ArtifactSpec.v
ArtifactMemory.v
ArtifactRecovery.v
Retention.v
RetentionSpec.v
ArtifactProtocol.v
Sanitizer.v
Duplicate.v
ChildProcess.v
TaskLookup.v
ChildOutput.v
ChildSpawn.v
MachMessage.v
EventSource.v
EventSourceSpec.v
EventWakeups.v
MachListener.v
Startup.v
Paths.v
PathsSpec.v
PathsPublish.v
PluginFiles.v
MoveToSent.v
SessionLog.v
SessionLogSpec.v
SessionRecordSpec.v
Terminal.v
TargetAccess.v
Threads.v
Images.v
ImageRanges.v
Memory.v
Symbols.v
Fingerprint.v
Attachment.v
Archive.v
Guardian.v
Supervisor.v
SupervisorSpec.v
SupervisorSafety.v
SupervisorBounds.v
