(* ===== verification/Prelude.v ===== *)
(** * Crash monitor: verification library

    A shallow embedding of the out-of-process crash monitor under src/src/ (the
    Rust crate) with the schema src/schema/crash_shm.h it shares with monitored
    programs. Definitions keep the source's names; each follows the lines of the
    function it models, guards, early returns and order of effects included.

    ** The program and its model

    A monitor process owns a child. It maps a shared memory region the child
    writes, listens for Mach exceptions, watches a heartbeat, and turns crashes,
    hangs, snapshots and abnormal terminations into report directories.
    Names in brackets are Modules; each is in the file of its name, and a Module [XSpec]
    without a file of its own is in the file of [X] ([SubprocessReader] in Subprocess.v).

    - Shared memory (src/shm/): [ShmLayout] computes the C layout and the list of
      live atomic words; [ShmSnapshot] is the copy of the live mapping into owned
      bytes under a privacy policy and a deadline, with the seqlock checks;
      [ShmReader] holds the parsers of the owned bytes. The live memory is a
      function of time and the clock advances at every access, so the producer
      may write between any two of them. [ShmFacts], [ShmPublication] and
      [ShmSafety] prove the snapshot properties.
    - Watchdog (src/watchdog.rs): [Watchdog], a pure state machine and its runs.
    - Configuration (src/config.rs): [PluginGraph] (dependency graphs and their
      diagnosis, closure of enablement) and [Config] (records, validation,
      privacy boundary).
    - Pipeline (src/pipeline/): [PipelineTypes] (data), [PluginOrder]
      (registration order), [PluginRun] (guarded invocations), [Pipeline]
      (assembly), [Finalize] and [FinalizeSpec] (finalization of captured and
      termination events), [Capture] (live capture under task suspension), with
      [TaskControl] (src/platform/task_control.rs) for the suspension guard.
    - Artifact store (src/pipeline/artifact.rs): [Artifact] holds transactions,
      commit, final diagnostics, recovery and scavenging; [ArtifactSpec] the laws
      of the file system and the logic of computations that leave visible reports
      alone; [ArtifactMemory] a file system in memory with those laws;
      [ArtifactRecovery] the same logic for recovery and scavenging;
      [ArtifactProtocol] whole histories with crashes.
    - Collectors that read the target (src/collectors/, src/platform/macos/ffi/):
      [TargetAccess] has the Mach calls as operations of a class [TargetOps], partial
      reads and the walk over the regions of a task (memory.rs), [TargetAccessSpec] its
      exactness. [Threads] and [ThreadsSpec] (thread.rs) inspect threads under the budgets
      and give their ports back; [Images], [ImagesSpec] and [ImageRanges] (dylib.rs)
      enumerate the loaded images and parse their load commands; [Memory] (memory.rs)
      builds the memory map and the summary of the heap.
    - Pre-processors over a report: [Symbols] and [SymbolsSpec] (symbolicate.rs) resolve
      addresses against Mach-O symbol tables read from disk; [Fingerprint]
      (fingerprint.rs) computes the crash signature.
    - Filters, pre-processors, post-processors: [RateLimiter] and
      [RateLimiterSpec] (src/filters/rate_limiter.rs); [Sanitizer] and
      [SanitizerSpec] (src/preprocessors/sanitizer.rs); [Duplicate]
      (src/preprocessors/duplicate.rs); [Retention] and [RetentionSpec]
      (src/postprocessors/retention.rs).
    - Capture helper (src/platform/macos/ffi/capture_spawn.rs,
      src/pipeline/capture_isolation.rs): [CaptureSpawn] is the process that runs
      the task-facing collectors, its spawn, hand-off and wait; [CaptureIsolation]
      the request, the helper's run and its supervision; [CaptureHelperSpec] proves
      termination of the supervisor, its verdicts and the wire round trip.
    - Workers (src/pipeline/worker.rs): [Worker] is the bounded capture of the
      event loop, over the helper or over a thread, and [WorkerSpec] its protocol;
      [Finalizers] finalizes fatal events and terminated children;
      [WorkerThreads] interleaves the two worker threads with the event loop.
    - Plugin subprocesses (src/pipeline/safety.rs): [Subprocess] is the runner of
      a plugin in its own process group, [SubprocessReader] the reader of one pipe;
      [SubprocessSpec] and [SubprocessBounds] prove the life of the child and the
      time a run takes.
    - Event loop (src/event_loop.rs): [EventLoop] and [EventLoopSpec].
    - Event source (src/event_source.rs): [EventSource] with its pipes, its
      construction and its waits; [EventSourceSpec] what a wait delivers and what a
      session conserves; [EventWakeups] interleaves the source with signal
      handlers, the bridge thread and the child.
    - Mach exceptions (src/platform/macos/exceptions.rs, ffi/exceptions.rs):
      [MachMessage] parses requests, [MachMessageSpec] is the packed layout as an
      encoder; [MachListener] is the listener thread with the owner of a received
      message, [MachListenerSpec] the account of its rights.
    - Supervisor (src/main.rs): [ChildProcess] (wait statuses, escalation, the
      owner of the process group), [TaskLookup] (the task-port lookup thread),
      [Startup] (settings of the child), [Supervisor] (the run of the monitor), with
      [SupervisorSpec], [SupervisorSafety] and [SupervisorBounds]. The child's
      spawn is [ChildSpawn] and [ChildSpawnSpec] (src/platform/macos/ffi/spawn.rs),
      its guardian process [Guardian], its output tail [ChildOutput]
      (src/platform/macos/child_output.rs).
    - Private paths (src/utils/paths.rs): [Paths] opens, creates and publishes
      private directories and files; [PathsSpec] what backs a handle,
      [PathsPublish] what a publication ends with.
    - Plugins that work on files: [PluginFiles] has their checkpoints and the calls of
      std::fs, [PluginFilesSpec] the logic of their deeds. [Attachment] and
      [AttachmentSpec] (src/collectors/attachment.rs) copy registered attachments;
      [Archive] and [ArchiveSpec] (src/postprocessors/zip_archiver.rs, raw_cleanup.rs)
      bundle a report and remove what it replaces; [MoveToSent] and [MoveToSentSpec]
      (src/postprocessors/move_to_sent.rs) relocate it; [SessionLog] with
      [SessionRecordSpec] and [SessionLogSpec] (session_recorder.rs, log_rotator.rs)
      records sessions and rotates their log. [Terminal] escapes what reaches a terminal
      (crates/crash-report-core).

    ** How code is represented

    [result] is Rust's [Result] with [?] as its bind. Machine integers are [Z]
    with wrap-around, saturation and overflow checks written out (u64, i64
    nanosecond instants with their overflow bound). [Traced.traced S T] is a
    state monad over an environment [S] that records the steps the code takes;
    [Traced.emits] is its program logic. [Attempt.attempt S] is state with
    failure, where the state keeps what was done before the error, as Rust
    methods with [?] do; [Attempt.yields] is its program logic. [Fueled.fueled] is a
    traced computation whose loops take fuel, with [ends] and [leaves] for its steps
    and [answers] and [settles] for its answer. Calls that leave
    the modelled code (Mach and file system calls, serde, clocks, plugins as
    trait objects) are operations of type classes over the environment, and every
    theorem quantifies over all their implementations; where a law is needed it is
    named in a class of its own and a concrete instance is given.

    ** What the theorems show

    - Safety of the snapshot: whatever the producer does under the protocol, each
      unit of the copy is one consistent value or is cleared and reported
      ([snapshot_consistent_cut]); nothing withheld by the policy reaches it
      ([snapshot_private]); parsers only return clean, bounded data.
    - Watchdog: no false alarm, detection of real hangs, spacing of reports.
    - Privacy and configuration: fail-closed consent, the kill switch, exactness of
      validation and of the enabled plugin set.
    - Task suspension: one use of the guard refines its release policy, histories
      never over-resume, failures are reported once.
    - Capture, finalization and event loop: the traces of the real entry points
      belong to protocol grammars ([capture_protocol], [finalization_trace],
      [looped]) for all plugins, platforms and event sources.
    - Capture helper and workers: the supervisor answers within a bounded number
      of polls and says "unproven" exactly when it saw no end of a helper it
      started; the helper's result arrives unchanged; a capture resumes the target
      only after every helper it started was seen to end, and contains it
      otherwise ([capture_never_resumes_over_helper]); a fatal event is finalized
      once, in the last resort without plugins; under every interleaving at most
      one collector starts after a cancellation and the background queue finalizes
      what it accepted in order.
    - Artifact store: over any history of transactions, recoveries, removals and
      crashes, with any failing operation, every disk the history goes through
      shows only complete reports ([published_reports_complete]).
    - Rate limiter: both modes refine one contract and bound every window.
    - Supervisor: a spawned child is followed until its end was seen, until the system
      refused to wait for it or to signal it, or until SIGKILL was delivered, and its
      exception port goes exactly once ([child_never_abandoned]); a fatal report is completed before the monitor ends;
      the whole run answers within the graces it names.
    - Event source: no wakeup is lost under any interleaving, one wait delivers in the
      order of the priorities, and nothing is reported twice or dropped.
    - Mach exceptions: the parser accepts exactly the packed layout; every reply right
      that was received is given up exactly once.
    - Plugin subprocesses: every run answers within the polls that fit before its deadline
      and drives one automaton of child and readers; the group is killed before the child
      is reaped and never after, and a refused kill is recorded.
    - Private paths: a handle is backed by a walk of trusted directories and by checks
      on the descriptor itself; a publication is verified or undone.
    - Files of plugins: an attachment is copied from below an allowed root, and a failed
      copy publishes nothing, but for a rename that could be neither verified nor undone; files of a
      report go only behind a complete archive of the files opened under their paths, or a
      complete copy, that was published before; the session's lock goes only behind its
      synced record; a rotation keeps exactly the newest half of those lines of the log
      that have at most 64 KiB.
    - Collectors that read the target: every thread port that was received is in the
      capture or released, exactly once; an encoded Mach-O header is parsed back to the
      image it describes; every range of an image is well formed; the memory map is the
      list of the regions within the walk's limit and the heap summary their exact sums.
    - Symbols and fingerprints: what a resolved frame names is the nearest function at
      or below its address in the regular file opened under the path of its image, within
      the caps on reads; the fingerprint is the hash of exactly the first application
      frames of the crashed thread.
    - Sanitizer: no visited string of a processed report holds the path of the home
      directory or of the user's directory, or is the user's name, unless a directory
      overlaps itself or ends in a slash, which [Sanitizer.overlapping_home_is_missed] and
      [Sanitizer.trailing_slash_is_missed] exhibit.
    - Duplicate detector: a report is marked exactly when the same fingerprint
      came within the window.
    - Retention: the entries that go are the oldest ones, whatever the answer; their
      directories are gone and their files unlinked, every other report is unchanged, and
      success means that what is left of the inventory is within every quota.

    ** Bounds and fuel

    Fuel occurs only where Rust loops without a static bound: [EventLoop.iterate]
    counts events, which the source does not bound, and its theorems hold for
    every amount; searches and closures over plugin graphs recurse on the number
    of plugins, and their theorems prove that amount sufficient. Polling for the
    retention lock takes fuel where the source polls until the deadline, and the
    theorems hold for every amount. The supervisor's polls of 100 ms take fuel: 31 of
    them exceed the three seconds of grace and 21 of 50 ms the second of the task-port
    lookup. Loops that an environment may prolong (interrupted calls, bytes of a pipe,
    entries of an access control list) are bounded by a budget of that environment,
    which the law class of the theorem names; the retry of a refused directory is
    bounded by its 10 ms, since a yield takes time, and the waits for a plugin process
    by their two seconds. Copies of attachments, archive members and moved files take
    fuel above their size limits, since every chunk has a byte, and the session log its
    rotation limit. The walk over regions takes more turns than its limit of 8000
    queries; the walk over load commands the length of their buffer and one, since each
    command has eight bytes or more; the read of a symbol file more than its 256 MiB. The polls of a capture helper take fuel too:
    with sleeps that advance the clock 1001 polls of 5 ms exceed the capture budget
    of five seconds ([supervisor_always_answers]), and safety holds for every
    amount; [retries] bounds the waits a signal may interrupt in a row. Replacing every occurrence of a needle takes the
    length of the text, which [replace_loop_total] proves sufficient.

    ** Not modelled, and why

    The Mach calls themselves are operations of [TargetOps] and of the platform classes.
    Screenshots, terminal output, serde encodings, the encodings of images and ZIP
    members, the feedback dialog, the command-line front ends and the stand-alone crates
    are input/output or formatting without state the monitor's decisions depend on; they
    appear as operations of the interface classes or as arbitrary plugins. The assembly
    of the report text is listed as not modelled in the manifest. *)

From stdpp Require Export base tactics numbers list option strings gmap sets sorting.

#[global] Open Scope Z_scope.

(** ** Errors as values

    Rust's [Result<A, E>] with the [?] operator is the error monad below; it
    reuses stdpp's [x ← e; k] notation. *)

Inductive result (E A : Type) : Type :=
| Ok (a : A)
| Err (e : E).
Arguments Ok {E A} a.
Arguments Err {E A} e.

#[export] Instance result_ret (E : Type) : MRet (result E) := λ A a, Ok a.
#[export] Instance result_bind (E : Type) : MBind (result E) :=
  λ A B f r, match r with Ok a => f a | Err e => Err e end.
#[export] Instance result_fmap (E : Type) : FMap (result E) :=
  λ A B f r, match r with Ok a => Ok (f a) | Err e => Err e end.

Definition map_err {E F A : Type} (f : E → F) (r : result E A) : result F A :=
  match r with Ok a => Ok a | Err e => Err (f e) end.

Definition ok_or {E A : Type} (o : option A) (e : E) : result E A :=
  match o with Some a => Ok a | None => Err e end.

Definition is_ok {E A : Type} (r : result E A) : bool :=
  match r with Ok _ => true | Err _ => false end.

(** ** Machine-width integers

    Unsigned machine integers are values of [Z] with their wrap-around,
    saturation or overflow check written out. *)

Definition U32_MAX : Z := 2 ^ 32 - 1.
Definition U64_MAX : Z := 2 ^ 64 - 1.

(** [usize] on the supported 64-bit targets. *)
Definition USIZE_MAX : Z := 2 ^ 64 - 1.

Definition u64_saturating_add (a b : Z) : Z := Z.min U64_MAX (a + b).
Definition u64_saturating_sub (a b : Z) : Z := Z.max 0 (a - b).

Definition usize_checked_add (a b : Z) : option Z :=
  if decide (a + b ≤ USIZE_MAX) then Some (a + b) else None.
Definition usize_checked_mul (a b : Z) : option Z :=
  if decide (a * b ≤ USIZE_MAX) then Some (a * b) else None.

Definition in_u64 (z : Z) : Prop := 0 ≤ z ≤ U64_MAX.

(** Saturating accumulation is the exact sum cut off at the type's maximum. *)
Lemma u64_saturating_add_cut (a b : Z) :
  0 ≤ b → u64_saturating_add (Z.min U64_MAX a) b = Z.min U64_MAX (a + b).
Proof. unfold u64_saturating_add. lia. Qed.

(** ** Instants

    [std::time::Instant] is a monotonic point in time. It is modelled as a
    number of nanoseconds; the platform representation is a [timespec] whose
    seconds are an [i64], which gives [checked_add] its overflow bound. *)

Definition INSTANT_MAX : Z := 2 ^ 63 * 1000000000 - 1.
Definition NANOS_PER_MILLI : Z := 1000000.

Definition saturating_duration_since (later earlier : Z) : Z := Z.max 0 (later - earlier).
Definition instant_checked_add (i d : Z) : option Z :=
  if decide (i + d ≤ INSTANT_MAX) then Some (i + d) else None.

(** [Duration::as_millis] truncates to whole milliseconds. *)
Definition as_millis (d : Z) : Z := d / NANOS_PER_MILLI.

(** ** Automation *)

Create HintDb cm.
Create Rewrite HintDb cm_rw.

(** Split a goal on the innermost conditional, closing arithmetic leaves. *)
Ltac split_cases :=
  repeat (case_match || case_decide); simplify_eq/=; try done; try lia.

(** Linear arithmetic with divisions and remainders by constants. *)
Ltac mod_lia := Z.div_mod_to_equations; lia.

(** ** Lists *)

(** Where a list holds one element with a property, there is one way to split
    it there. *)
Lemma split_unique {A : Type} (P : A → Prop) l1 l2 l1' l2' x x' :
  Forall (λ y, ¬ P y) l1 → Forall (λ y, ¬ P y) l2 → P x' → l1 ++ x :: l2 = l1' ++ x' :: l2' →
  l1 = l1' ∧ x = x' ∧ l2 = l2'.
Proof.
  intros H1 H2 Hx. revert l1' H1. induction l1 as [|y l1 IH]; intros [|z l1'] H1 Heq; simplify_eq/=.
  - done.
  - exfalso. rewrite Forall_app, Forall_cons in H2. naive_solver.
  - exfalso. rewrite Forall_cons in H1. naive_solver.
  - rewrite Forall_cons in H1. destruct (IH l1') as (-> & -> & ->); naive_solver.
Qed.

Lemma Forall_snoc {A : Type} (P : A → Prop) (l : list A) (x : A) :
  Forall P (l ++ [x]) ↔ Forall P l ∧ P x.
Proof. rewrite Forall_app. split; intros [? H]; split; try done; [by inversion H | by constructor]. Qed.


Lemma StronglySorted_weaken {A : Type} (R S : A → A → Prop) (l : list A) :
  (∀ x y, R x y → S x y) → StronglySorted R l → StronglySorted S l.
Proof.
  intros HRS. induction 1 as [|x l Hl IH Hx]; constructor; [done|].
  eapply Forall_impl; [exact Hx|]. auto.
Qed.

(** ** Stable sorting

    [slice::sort_by_key] and [slice::sort_by] are stable sorts; the insertion
    sort below is one. [le] is the total preorder the source compares with. *)

Section StableSort.
Context {A : Type} (le : A → A → bool).

Fixpoint stable_insert (x : A) (l : list A) : list A :=
  match l with
  | [] => [x]
  | y :: l => if le x y then x :: y :: l else y :: stable_insert x l
  end.

Definition stable_sort (l : list A) : list A := foldr stable_insert [] l.

Lemma stable_insert_perm x l : stable_insert x l ≡ₚ x :: l.
Proof.
  induction l as [|y l IH]; simpl; [done|]. destruct (le x y); [done|].
  by rewrite IH, Permutation_swap.
Qed.

Lemma stable_sort_perm l : stable_sort l ≡ₚ l.
Proof. induction l as [|x l IH]; simpl; [done|]. by rewrite stable_insert_perm, IH. Qed.

Lemma elem_of_stable_sort x l : x ∈ stable_sort l ↔ x ∈ l.
Proof. by rewrite stable_sort_perm. Qed.

Context (Htotal : ∀ x y, le x y = true ∨ le y x = true).
Context (Htrans : ∀ x y z, le x y = true → le y z = true → le x z = true).

Lemma stable_insert_sorted x l :
  StronglySorted (λ x y, le x y = true) l → StronglySorted (λ x y, le x y = true) (stable_insert x l).
Proof.
  induction 1 as [|y l Hl IH Hy]; simpl; [by repeat constructor|].
  destruct (le x y) eqn:Hxy.
  - constructor; [by constructor|]. constructor; [done|].
    eapply Forall_impl; [exact Hy|]. intros z Hz. by eapply Htrans.
  - constructor; [done|]. rewrite stable_insert_perm. constructor; [|done].
    destruct (Htotal x y); [congruence|done].
Qed.

Lemma stable_sort_sorted l : StronglySorted (λ x y, le x y = true) (stable_sort l).
Proof. induction l as [|x l IH]; simpl; [constructor|by apply stable_insert_sorted]. Qed.

(** Stability: among the elements equivalent to any [x] the order is kept. *)
Definition equivalent (x y : A) : bool := le x y && le y x.

Lemma stable_insert_stable k x l :
  StronglySorted (λ x y, le x y = true) l →
  List.filter (equivalent k) (stable_insert x l) = List.filter (equivalent k) (x :: l).
Proof.
  intros Hl. induction Hl as [|y l Hl IH Hy]; [done|]. simpl.
  destruct (le x y) eqn:Hxy; [done|]. simpl. rewrite IH. simpl.
  destruct (equivalent k x) eqn:Hx, (equivalent k y) eqn:Hey; try done. exfalso.
  unfold equivalent in Hx, Hey. apply andb_true_iff in Hx as [Hkx Hxk].
  apply andb_true_iff in Hey as [Hky Hyk]. rewrite (Htrans x k y) in Hxy; congruence.
Qed.

Lemma stable_sort_stable k l :
  List.filter (equivalent k) (stable_sort l) = List.filter (equivalent k) l.
Proof.
  induction l as [|x l IH]; [done|]. cbn [stable_sort foldr]. fold (stable_sort l).
  rewrite stable_insert_stable by apply stable_sort_sorted. simpl. by rewrite IH.
Qed.

End StableSort.
