(* ===== verification/Traced.v ===== *)
(** * Traced computations

    The state monad shared by the pipeline and the event loop: a computation
    changes an environment [S] and appends steps of type [T] to a trace of what
    it did. [emits] is the program logic for traces: [emits P m] says that,
    whatever the world, [m] appends steps that satisfy [P]. *)

From S2P Require Import Prelude.

Module Traced.

Record World (S T : Type) := mkWorld { env : S; trace : list T }.
Arguments mkWorld {S T}.
Arguments env {S T}.
Arguments trace {S T}.

Definition traced (S T A : Type) : Type := World S T → A * World S T.

#[export] Instance traced_ret (S T : Type) : MRet (traced S T) := λ A a w, (a, w).
#[export] Instance traced_bind (S T : Type) : MBind (traced S T) := λ A B f m w, let '(a, w) := m w in f a w.

Section Operations.
Context {S T : Type}.

(** An operation of the environment, a read of it, and a step. *)
Definition lift {A : Type} (f : S → A * S) : traced S T A :=
  λ w, let '(a, e) := f (env w) in (a, mkWorld e (trace w)).
Definition effect (f : S → S) : traced S T unit := lift (λ e, (tt, f e)).
Definition look {A : Type} (f : S → A) : traced S T A := λ w, (f (env w), w).
Definition emit (s : T) : traced S T unit := λ w, (tt, mkWorld (env w) (trace w ++ [s])).
(** An operation that is itself a step. *)
Definition act (s : T) (f : S → S) : traced S T unit := λ w, (tt, mkWorld (f (env w)) (trace w ++ [s])).

(** ** Reasoning about traces *)

Definition emits {A : Type} (P : list T → A → Prop) (m : traced S T A) : Prop :=
  ∀ w, ∃ l, trace (m w).2 = trace w ++ l ∧ P l (m w).1.

Definition silent {A : Type} (m : traced S T A) : Prop := emits (λ l _, l = []) m.

Lemma emits_ret {A : Type} (P : list T → A → Prop) a : P [] a → emits P (mret a : traced S T A).
Proof. intros H w. exists []. rewrite app_nil_r. done. Qed.

Lemma emits_bind {A B : Type} (P : list T → A → Prop) (Q : list T → B → Prop)
    (m : traced S T A) (f : A → traced S T B) :
  emits P m → (∀ l a, P l a → emits (λ l' b, Q (l ++ l') b) (f a)) → emits Q (m ≫= f).
Proof.
  intros Hm Hf w. destruct (Hm w) as (l & Hl & HP). unfold mbind, traced_bind in *.
  destruct (m w) as [a w'] eqn:Hw. simpl in *. destruct (Hf l a HP w') as (l' & Hl' & HQ).
  exists (l ++ l'). rewrite Hl', Hl, app_assoc. done.
Qed.

Lemma emits_impl {A : Type} (P Q : list T → A → Prop) (m : traced S T A) :
  emits P m → (∀ l a, P l a → Q l a) → emits Q m.
Proof. intros Hm H w. destruct (Hm w) as (l & Hl & HP). exists l. auto. Qed.

Lemma emits_silent {A B : Type} (Q : list T → B → Prop) (m : traced S T A) (f : A → traced S T B) :
  silent m → (∀ a, emits Q (f a)) → emits Q (m ≫= f).
Proof. intros Hm Hf. eapply emits_bind; [exact Hm|]. intros l a ->. apply Hf. Qed.

Lemma emits_step {B : Type} (Q : list T → B → Prop) (s : T) (f : unit → traced S T B) :
  emits (λ l b, Q (s :: l) b) (f tt) → emits Q (emit s ≫= f).
Proof.
  intros Hf. apply (emits_bind (λ l _, l = [s])); [intros w; exists [s]; done|]. intros l [] ->. exact Hf.
Qed.

Lemma emits_act {B : Type} (Q : list T → B → Prop) (s : T) (g : S → S) (f : unit → traced S T B) :
  emits (λ l b, Q (s :: l) b) (f tt) → emits Q (act s g ≫= f).
Proof.
  intros Hf. apply (emits_bind (λ l _, l = [s])); [intros w; exists [s]; done|]. intros l [] ->. exact Hf.
Qed.

Lemma act_emits (P : list T → unit → Prop) (s : T) (g : S → S) : P [s] tt → emits P (act s g).
Proof. intros H w. by exists [s]. Qed.

Lemma emit_emits (P : list T → unit → Prop) (s : T) : P [s] tt → emits P (emit s).
Proof. intros H w. by exists [s]. Qed.

Lemma silent_lift {A : Type} (f : S → A * S) : silent (lift f).
Proof. intros w. exists []. unfold lift. rewrite app_nil_r. by destruct (f (env w)). Qed.
Lemma silent_effect (f : S → S) : silent (effect f).
Proof. apply silent_lift. Qed.
Lemma silent_look {A : Type} (f : S → A) : silent (look f).
Proof. intros w. exists []. by rewrite app_nil_r. Qed.
Lemma silent_ret {A : Type} (a : A) : silent (mret a : traced S T A).
Proof. by apply emits_ret. Qed.

End Operations.

#[export] Hint Resolve silent_lift silent_effect silent_look silent_ret : cm.

End Traced.
