(* ===== verification/Attempt.v ===== *)
(** * Fallible computations over a state

    Rust methods that mutate shared state and leave early with [?]: the state
    keeps what was done before the error. [yields] is their program logic. *)

From S2P Require Import Prelude.

Module Attempt.

Definition attempt (S A : Type) : Type := S → result string A * S.

#[export] Instance attempt_ret (S : Type) : MRet (attempt S) := λ A a s, (Ok a, s).
#[export] Instance attempt_bind (S : Type) : MBind (attempt S) := λ A B f m s,
  let '(r, s) := m s in match r with Ok a => f a s | Err error => (Err error, s) end.

Definition fail {S A : Type} (error : string) : attempt S A := λ s, (Err error, s).
Definition get {S A : Type} (f : S → A) : attempt S A := λ s, (Ok (f s), s).
Definition modify {S : Type} (f : S → S) : attempt S unit := λ s, (Ok tt, f s).
Definition of_result {S A : Type} (r : result string A) : attempt S A := λ s, (r, s).

Section Logic.
Context {S : Type}.

(** From a state that satisfies [P], the result and the state satisfy [Q]. *)
Definition yields {A : Type} (P : S → Prop) (m : attempt S A) (Q : result string A → S → Prop) : Prop :=
  ∀ s, P s → Q (m s).1 (m s).2.

Lemma yields_ret {A : Type} (P : S → Prop) (a : A) (Q : result string A → S → Prop) :
  (∀ s, P s → Q (Ok a) s) → yields P (mret a) Q.
Proof. intros H s Hs. by apply H. Qed.

Lemma yields_bind {A B : Type} (P : S → Prop) (m : attempt S A) (f : A → attempt S B)
    (M : A → S → Prop) (Q : result string B → S → Prop) :
  yields P m (λ r s, match r with Ok a => M a s | Err error => Q (Err error) s end) →
  (∀ a, yields (M a) (f a) Q) → yields P (m ≫= f) Q.
Proof.
  intros Hm Hf s Hs. specialize (Hm s Hs). unfold mbind, attempt_bind.
  destruct (m s) as [[a|error] s']; simpl in *; [by apply Hf|done].
Qed.

Lemma yields_fail {A : Type} (P : S → Prop) error (Q : result string A → S → Prop) :
  (∀ s, P s → Q (Err error) s) → yields P (fail error) Q.
Proof. intros H s Hs. by apply H. Qed.

Lemma yields_get {A : Type} (P : S → Prop) (f : S → A) (Q : result string A → S → Prop) :
  (∀ s, P s → Q (Ok (f s)) s) → yields P (get f) Q.
Proof. intros H s Hs. by apply H. Qed.

Lemma yields_modify (P : S → Prop) (f : S → S) (Q : result string unit → S → Prop) :
  (∀ s, P s → Q (Ok tt) (f s)) → yields P (modify f) Q.
Proof. intros H s Hs. by apply H. Qed.

Lemma yields_impl {A : Type} (P P' : S → Prop) (m : attempt S A) (Q Q' : result string A → S → Prop) :
  yields P' m Q' → (∀ s, P s → P' s) → (∀ r s, Q' r s → Q r s) → yields P m Q.
Proof. intros H HP HQ s Hs. apply HQ, H, HP, Hs. Qed.

End Logic.
End Attempt.
