(* ===== verification/Fueled.v ===== *)
(** * Traced computations with fuel

    Traced computations whose loops take fuel: the answer is [None] when the fuel
    did not suffice. [ends P m] says that [m] appends steps, and that the steps
    satisfy [P] together with its answer if there is one; [answers Q m w] says that
    [m] does answer from the world [w], and in a world that satisfies [Q]. *)

From S2P Require Import Prelude.
From S2P Require Import Traced.

Module Fueled.
Export Traced.

Definition fueled (S T A : Type) : Type := World S T → option A * World S T.

#[export] Instance fueled_ret (S T : Type) : MRet (fueled S T) := λ A a w, (Some a, w).
#[export] Instance fueled_bind (S T : Type) : MBind (fueled S T) := λ A B f m w,
  let '(o, w) := m w in match o with Some a => f a w | None => (None, w) end.

(** [?] on a result inside a computation. *)
Notation "x ←? m ; k" := (m ≫= λ r, match r with Ok x => k | Err error => mret (Err error) end)
  (at level 20, m at level 100, k at level 200, only parsing) : stdpp_scope.
Notation "' x ←? m ; k" := (m ≫= λ r, match r with Ok a => (λ x, k) a | Err error => mret (Err error) end)
  (at level 20, x pattern, m at level 100, k at level 200, only parsing) : stdpp_scope.

Section Operations.
Context {S T : Type}.

(** Out of fuel, and a traced computation, which needs none. *)
Definition starved {A : Type} : fueled S T A := λ w, (None, w).
Definition of_traced {A : Type} (m : traced S T A) : fueled S T A := λ w, let '(a, w) := m w in (Some a, w).

(** An operation of the environment that returns no value, and one that does. *)
Definition ask {A : Type} (f : S → A * S) : fueled S T A := of_traced (lift f).
Definition step (s : T) : fueled S T unit := of_traced (emit s).

Lemma bind_assoc {A B C : Type} (m : fueled S T A) (f : A → fueled S T B) (g : B → fueled S T C) w :
  (m ≫= λ a, f a ≫= g) w = ((m ≫= f) ≫= g) w.
Proof. unfold mbind, fueled_bind. by destruct (m w) as [[]]. Qed.

(** ** Steps of a computation *)

Definition ends {A : Type} (P : list T → A → Prop) (m : fueled S T A) : Prop :=
  ∀ w, ∃ l, trace (m w).2 = trace w ++ l ∧ ∀ a, (m w).1 = Some a → P l a.

Definition quiet {A : Type} (m : fueled S T A) : Prop :=
  ∀ w, trace (m w).2 = trace w.

Lemma ends_ret {A : Type} (P : list T → A → Prop) a : P [] a → ends P (mret a : fueled S T A).
Proof. intros H w. exists []. rewrite app_nil_r. split; [done|]. by intros ? [= <-]. Qed.

Lemma ends_starved {A : Type} (P : list T → A → Prop) : ends P (starved : fueled S T A).
Proof. intros w. exists []. by rewrite app_nil_r. Qed.

Lemma ends_bind {A B : Type} (P : list T → A → Prop) (Q : list T → B → Prop)
    (m : fueled S T A) (f : A → fueled S T B) :
  ends P m → (∀ l a, P l a → ends (λ l' b, Q (l ++ l') b) (f a)) → ends Q (m ≫= f).
Proof.
  intros Hm Hf w. destruct (Hm w) as (l & Hl & HP). unfold mbind, fueled_bind.
  destruct (m w) as [[a|] w']; simpl in *; [|by exists l].
  destruct (Hf l a (HP a eq_refl) w') as (l' & Hl' & HQ).
  exists (l ++ l'). rewrite Hl', Hl, app_assoc. done.
Qed.

Lemma ends_impl {A : Type} (P Q : list T → A → Prop) (m : fueled S T A) :
  ends P m → (∀ l a, P l a → Q l a) → ends Q m.
Proof. intros Hm H w. destruct (Hm w) as (l & Hl & HP). exists l. auto. Qed.

Lemma ends_of_traced {A : Type} (P : list T → A → Prop) (m : traced S T A) :
  emits P m → ends P (of_traced m).
Proof.
  intros Hm w. destruct (Hm w) as (l & Hl & HP). exists l. unfold of_traced. destruct (m w) as [a w'].
  split; [done|]. by intros ? [= <-].
Qed.

Lemma ends_quiet {A B : Type} (Q : list T → B → Prop) (m : fueled S T A) (f : A → fueled S T B) :
  quiet m → (∀ a, ends Q (f a)) → ends Q (m ≫= f).
Proof.
  intros Hm Hf. apply (ends_bind (λ l _, l = [])).
  - intros w. exists []. by rewrite app_nil_r, Hm.
  - intros l a ->. apply Hf.
Qed.

Lemma ends_step {B : Type} (Q : list T → B → Prop) (s : T) (f : unit → fueled S T B) :
  ends (λ l b, Q (s :: l) b) (f tt) → ends Q (step s ≫= f).
Proof.
  intros Hf. apply (ends_bind (λ l _, l = [s])).
  - by apply ends_of_traced, emit_emits.
  - intros l [] ->. exact Hf.
Qed.

Lemma quiet_ask {A : Type} (f : S → A * S) : quiet (ask f).
Proof. intros w. unfold ask, of_traced, lift. by destruct (f (env w)). Qed.
Lemma fueled_quiet_ret {A : Type} (a : A) : quiet (mret a : fueled S T A).
Proof. done. Qed.
Lemma quiet_starved {A : Type} : quiet (starved : fueled S T A).
Proof. done. Qed.
Lemma fueled_quiet_bind {A B : Type} (m : fueled S T A) (f : A → fueled S T B) :
  quiet m → (∀ a, quiet (f a)) → quiet (m ≫= f).
Proof.
  intros Hm Hf w. specialize (Hm w). unfold mbind, fueled_bind. destruct (m w) as [[a|] w']; [|done].
  by rewrite Hf.
Qed.
Lemma quiet_look {A : Type} (f : S → A) : quiet (of_traced (look f) : fueled S T A).
Proof. done. Qed.

Lemma quiet_ends {A : Type} (P : list T → A → Prop) (m : fueled S T A) :
  quiet m → (∀ a, P [] a) → ends P m.
Proof. intros Hm HP w. exists []. rewrite app_nil_r, Hm. auto. Qed.

(** ** Answers *)

Definition answers {A : Type} (Q : A → World S T → Prop) (m : fueled S T A) (w : World S T) : Prop :=
  ∃ a w', m w = (Some a, w') ∧ Q a w'.

Lemma answers_ret {A : Type} (Q : A → World S T → Prop) a w : Q a w → answers Q (mret a) w.
Proof. intros H. by exists a, w. Qed.

Lemma answers_bind {A B : Type} (P : A → World S T → Prop) (Q : B → World S T → Prop)
    (m : fueled S T A) (f : A → fueled S T B) w :
  answers P m w → (∀ a w', P a w' → answers Q (f a) w') → answers Q (m ≫= f) w.
Proof. intros (a & w' & Hm & HP) Hf. unfold answers, mbind, fueled_bind. rewrite Hm. by apply Hf. Qed.

Lemma answers_impl {A : Type} (P Q : A → World S T → Prop) (m : fueled S T A) w :
  answers P m w → (∀ a w', P a w' → Q a w') → answers Q m w.
Proof. intros (a & w' & Hm & HP) H. exists a, w'. auto. Qed.

Lemma answers_assoc {A B C : Type} (Q : C → World S T → Prop) (m : fueled S T A) (f : A → fueled S T B)
    (g : B → fueled S T C) w :
  answers Q (m ≫= λ a, f a ≫= g) w → answers Q ((m ≫= f) ≫= g) w.
Proof. unfold answers. by rewrite bind_assoc. Qed.

Lemma answers_ask {A : Type} (Q : A → World S T → Prop) (f : S → A * S) w :
  Q (f (env w)).1 (mkWorld (f (env w)).2 (trace w)) → answers Q (ask f) w.
Proof. intros H. unfold answers, ask, of_traced, lift. destruct (f (env w)) as [a e]. by exists a, (mkWorld e (trace w)). Qed.

Lemma answers_step (Q : unit → World S T → Prop) (s : T) w :
  Q tt (mkWorld (env w) (trace w ++ [s])) → answers Q (step s) w.
Proof. intros H. by exists tt, (mkWorld (env w) (trace w ++ [s])). Qed.

(** ** A budget of the environment

    [budget] is how often the environment may still make a computation try again; no
    operation of a computation that [settles] raises it. *)

Definition calm {A : Type} (budget : S → nat) (f : S → A * S) : Prop := ∀ e, (budget (f e).2 ≤ budget e)%nat.

Definition settles {A : Type} (budget : S → nat) (n : nat) (m : fueled S T A) : Prop :=
  ∀ w, (budget (env w) < n)%nat → answers (λ _ w', budget (env w') ≤ budget (env w))%nat m w.

Context {budget : S → nat}.

Lemma settles_then {A B : Type} n (m : fueled S T A) (f : A → fueled S T B) :
  settles budget n m → (∀ a, settles budget n (f a)) → settles budget n (m ≫= f).
Proof.
  intros Hm Hf w Hw. eapply answers_bind; [by apply Hm|]. intros a w' H'. simpl in H'.
  eapply answers_impl; [apply Hf; lia|]. simpl. intros. lia.
Qed.

Lemma settles_answer {A : Type} n (a : A) : settles budget n (mret a).
Proof. intros w _. by apply answers_ret. Qed.
Lemma settles_call {A : Type} n (f : S → A * S) : calm budget f → settles budget n (ask f).
Proof. intros H w _. apply answers_ask. simpl. apply H. Qed.
Lemma settles_look {A : Type} n (f : S → A) : settles budget n (of_traced (look f)).
Proof. intros w _. by exists (f (env w)), w. Qed.
Lemma settles_emit n s : settles budget n (step s).
Proof. intros w _. by apply answers_step. Qed.
Lemma settles_less {A : Type} n n' (m : fueled S T A) : (n' ≤ n)%nat → settles budget n m → settles budget n' m.
Proof. intros Hn Hm w Hw. apply Hm. lia. Qed.

(** An operation whose repetition costs budget. *)
Lemma settles_again {A B : Type} n (f : S → A * S) (again : A → Prop) (k : A → fueled S T B) :
  (∀ e, (budget (f e).2 ≤ budget e)%nat ∧ (again (f e).1 → budget (f e).2 < budget e)%nat) →
  (∀ a, ¬ again a → settles budget (Datatypes.S n) (k a)) → (∀ a, again a → settles budget n (k a)) →
  (∀ a, again a ∨ ¬ again a) →
  settles budget (Datatypes.S n) (ask f ≫= k).
Proof.
  intros Hf Hdone Hagain Hdec w Hw. eapply (answers_bind (λ a w', a = (f (env w)).1 ∧ env w' = (f (env w)).2)).
  { by apply answers_ask. }
  intros a w' [-> Hw']. destruct (Hf (env w)) as [Hle Hlt].
  destruct (Hdec (f (env w)).1) as [H|H]; (eapply answers_impl; [first [apply Hagain; [exact H|] | apply Hdone; [exact H|]]|]);
    rewrite ?Hw'; try (simpl; intros; rewrite Hw' in *; lia); try lia.
  specialize (Hlt H). lia.
Qed.

(** A computation that has an answer within the budget, and steps that satisfy [P]. *)
Lemma settled_ends {A : Type} n (P : list T → A → Prop) (m : fueled S T A) w :
  settles budget n m → ends P m → (budget (env w) < n)%nat →
  ∃ a w' l, m w = (Some a, w') ∧ trace w' = trace w ++ l ∧ P l a.
Proof.
  intros Hs He Hw. destruct (Hs w Hw) as (a & w' & Hm & _). destruct (He w) as (l & Hl & HP).
  rewrite Hm in Hl, HP. exists a, w', l. split_and!; [exact Hm|exact Hl|by apply HP].
Qed.

(** ** Steps of a computation that may run out of fuel *)

Definition leaves {A : Type} (P : list T → Prop) (m : fueled S T A) : Prop :=
  ∀ w, ∃ l, trace (m w).2 = trace w ++ l ∧ P l.

(** A computation that always answers. *)
Definition total {A : Type} (m : fueled S T A) : Prop := settles (λ _, 0%nat) 1 m.

Lemma calm_zero {A : Type} (f : S → A * S) : calm (λ _, 0%nat) f.
Proof. intros e. lia. Qed.

Lemma leaves_total {A : Type} (P : list T → Prop) (m : fueled S T A) : total m → ends (λ l _, P l) m → leaves P m.
Proof.
  intros Ht He w. destruct (Ht w) as (a & w' & Hm & _); [lia|]. destruct (He w) as (l & Hl & HP). exists l.
  rewrite Hm in Hl, HP |- *. split; [done|by apply (HP a)].
Qed.

Lemma leaves_starved {A : Type} (P : list T → Prop) : P [] → leaves P (starved : fueled S T A).
Proof. intros H w. exists []. by rewrite app_nil_r. Qed.

Lemma leaves_bind {A B : Type} (P : list T → A → Prop) (Q : list T → Prop) (m : fueled S T A) (f : A → fueled S T B) :
  total m → ends P m → (∀ l a, P l a → leaves (λ l', Q (l ++ l')) (f a)) → leaves Q (m ≫= f).
Proof.
  intros Ht He Hf w. destruct (Ht w) as (a & w' & Hm & _); [lia|]. destruct (He w) as (l & Hl & HP).
  rewrite Hm in Hl, HP. unfold mbind, fueled_bind. rewrite Hm. destruct (Hf l a (HP a eq_refl) w') as (l' & Hl' & HQ).
  exists (l ++ l'). simpl in *. by rewrite Hl', Hl, app_assoc.
Qed.

Lemma leaves_impl {A : Type} (P Q : list T → Prop) (m : fueled S T A) : leaves P m → (∀ l, P l → Q l) → leaves Q m.
Proof. intros Hm H w. destruct (Hm w) as (l & Hl & HP). exists l. auto. Qed.

End Operations.

#[export] Hint Resolve settles_answer settles_look settles_emit calm_zero : cm.

(** ** A computation of a component inside another one

    [embed f m] runs [m] and keeps its steps under [f]. *)

Section Embed.
Context {S T' T : Type}.

Definition embed {A : Type} (f : T' → T) (m : fueled S T' A) : fueled S T A := λ w,
  let '(o, w') := m (mkWorld (env w) []) in (o, mkWorld (env w') (trace w ++ map f (trace w'))).

Lemma ends_embed {A : Type} (f : T' → T) (P : list T' → A → Prop) (m : fueled S T' A) :
  ends P m → ends (λ l a, ∃ l', l = map f l' ∧ P l' a) (embed f m).
Proof.
  intros Hm w. unfold embed. destruct (Hm (mkWorld (env w) [])) as (l & Hl & HP).
  destruct (m (mkWorld (env w) [])) as [o w']. simpl in *. exists (map f l). rewrite Hl. split; [done|].
  intros a ->. exists l. auto.
Qed.

Lemma settles_embed {budget : S → nat} {A : Type} (f : T' → T) n (m : fueled S T' A) :
  settles budget n m → settles budget n (embed f m).
Proof.
  intros Hm w Hw. destruct (Hm (mkWorld (env w) [])) as (a & w' & Hr & Hb); [done|].
  unfold embed. exists a, (mkWorld (env w') (trace w ++ map f (trace w'))). by rewrite Hr.
Qed.

End Embed.

#[export] Hint Resolve quiet_ask fueled_quiet_ret quiet_starved quiet_look fueled_quiet_bind ends_starved : cm.

End Fueled.
