(* ===== verification/Watchdog.v ===== *)
(** * The ANR watchdog (src/watchdog.rs)

    The pure state machine that decides, from the heartbeat values sampled by
    the event loop and the application-running time between samples, when the
    monitored application is not responding; and the clock adjustment that
    removes monitor-owned time from its baseline.

    The first part is the code; [action], [step] and [run] close it under the
    two entry points the event loop uses ([update_watchdog_state] on a tick,
    [rebase_after_monitor_work] after a capture), so that the theorems speak of
    every interleaving of ticks and captures. *)

From S2P Require Import Prelude.

Module Watchdog.

(** [WatchdogState]: all times are [u64] milliseconds. *)
Record WatchdogState := mkWatchdogState {
  initial_warmup_ms : Z;
  warmup_remaining_ms : Z;
  prev_heartbeat : option Z;
  hang_accumulated_ms : Z;
  cooldown_remaining_ms : Z
}.

Inductive MonitorWorkRebase : Type := PreserveElapsed | ResetElapsed.

#[export] Instance MonitorWorkRebase_eq_dec : EqDecision MonitorWorkRebase.
Proof. solve_decision. Defined.

#[export] Instance WatchdogState_eq_dec : EqDecision WatchdogState.
Proof. solve_decision. Defined.

Definition exclude_monitor_work_from_anr_clock
    (last_check monitor_work_started monitor_work_finished : Z) : Z :=
  let excluded := saturating_duration_since monitor_work_finished monitor_work_started in
  match instant_checked_add last_check excluded with
  | None => monitor_work_finished
  | Some adjusted =>
      if decide (monitor_work_finished < adjusted) then monitor_work_finished else adjusted
  end.

Definition new (warmup_ms : Z) (initial_heartbeat : option Z) : WatchdogState :=
  {| initial_warmup_ms := warmup_ms;
     warmup_remaining_ms := warmup_ms;
     prev_heartbeat := initial_heartbeat;
     hang_accumulated_ms := 0;
     cooldown_remaining_ms := 0 |}.

Definition disarm (s : WatchdogState) : WatchdogState :=
  {| initial_warmup_ms := initial_warmup_ms s;
     warmup_remaining_ms := initial_warmup_ms s;
     prev_heartbeat := None;
     hang_accumulated_ms := 0;
     cooldown_remaining_ms := 0 |}.

Definition consume_active_grace (s : WatchdogState) (elapsed_ms : Z) : WatchdogState :=
  if decide (0 < warmup_remaining_ms s) then
    {| initial_warmup_ms := initial_warmup_ms s;
       warmup_remaining_ms := u64_saturating_sub (warmup_remaining_ms s) elapsed_ms;
       prev_heartbeat := prev_heartbeat s;
       hang_accumulated_ms := hang_accumulated_ms s;
       cooldown_remaining_ms := cooldown_remaining_ms s |}
  else if decide (0 < cooldown_remaining_ms s) then
    {| initial_warmup_ms := initial_warmup_ms s;
       warmup_remaining_ms := warmup_remaining_ms s;
       prev_heartbeat := prev_heartbeat s;
       hang_accumulated_ms := hang_accumulated_ms s;
       cooldown_remaining_ms := u64_saturating_sub (cooldown_remaining_ms s) elapsed_ms |}
  else s.

(** Field updates of the mutable state. *)
Definition set_prev (s : WatchdogState) (h : Z) : WatchdogState :=
  {| initial_warmup_ms := initial_warmup_ms s;
     warmup_remaining_ms := warmup_remaining_ms s;
     prev_heartbeat := Some h;
     hang_accumulated_ms := hang_accumulated_ms s;
     cooldown_remaining_ms := cooldown_remaining_ms s |}.

Definition set_hang (s : WatchdogState) (ms : Z) : WatchdogState :=
  {| initial_warmup_ms := initial_warmup_ms s;
     warmup_remaining_ms := warmup_remaining_ms s;
     prev_heartbeat := prev_heartbeat s;
     hang_accumulated_ms := ms;
     cooldown_remaining_ms := cooldown_remaining_ms s |}.

Definition set_cooldown (s : WatchdogState) (ms : Z) : WatchdogState :=
  {| initial_warmup_ms := initial_warmup_ms s;
     warmup_remaining_ms := warmup_remaining_ms s;
     prev_heartbeat := prev_heartbeat s;
     hang_accumulated_ms := hang_accumulated_ms s;
     cooldown_remaining_ms := ms |}.

Definition set_warmup (s : WatchdogState) (ms : Z) : WatchdogState :=
  {| initial_warmup_ms := initial_warmup_ms s;
     warmup_remaining_ms := ms;
     prev_heartbeat := prev_heartbeat s;
     hang_accumulated_ms := hang_accumulated_ms s;
     cooldown_remaining_ms := cooldown_remaining_ms s |}.

Definition rebase_after_monitor_work (s : WatchdogState) (current_heartbeat : option Z)
    (application_elapsed_before_monitor_ms : Z) : WatchdogState * MonitorWorkRebase :=
  match current_heartbeat with
  | None => (disarm s, ResetElapsed)
  | Some current =>
      match prev_heartbeat s with
      | None => (set_prev s current, ResetElapsed)
      | Some previous =>
          if decide (previous = current) then (s, PreserveElapsed)
          else
            let s := consume_active_grace s application_elapsed_before_monitor_ms in
            (set_hang (set_prev s current) 0, ResetElapsed)
      end
  end.

Definition update_watchdog_state (s : WatchdogState) (current_heartbeat : option Z)
    (elapsed_ms threshold_ms cooldown_ms : Z) : WatchdogState * option Z :=
  match current_heartbeat with
  | None => (disarm s, None)
  | Some current =>
      match prev_heartbeat s with
      | None => (set_prev s current, None)
      | Some previous =>
          if decide (0 < warmup_remaining_ms s) then
            let s := set_warmup s (u64_saturating_sub (warmup_remaining_ms s) elapsed_ms) in
            (set_hang (set_prev s current) 0, None)
          else if decide (0 < cooldown_remaining_ms s) then
            let s := set_cooldown s (u64_saturating_sub (cooldown_remaining_ms s) elapsed_ms) in
            (set_hang (set_prev s current) 0, None)
          else if decide (current = previous) then
            let s := set_hang s (u64_saturating_add (hang_accumulated_ms s) elapsed_ms) in
            if decide (threshold_ms ≤ hang_accumulated_ms s) then
              let duration := hang_accumulated_ms s in
              (set_prev (set_hang (set_cooldown s cooldown_ms) 0) current, Some duration)
            else (set_prev s current, None)
          else (set_prev (set_hang s 0) current, None)
      end
  end.

(** ** Runs of the watchdog *)

(** What the event loop does to the watchdog: a tick after [elapsed_ms] of
    application-running time, or the rebase that ends a capture. Both observe
    the shared-memory heartbeat ([None] when the producer is not ready). *)
Inductive action : Type :=
| Tick (heartbeat : option Z) (elapsed_ms : Z)
| Rebase (heartbeat : option Z) (application_elapsed_before_monitor_ms : Z).

Definition observed (a : action) : option Z :=
  match a with Tick h _ => h | Rebase h _ => h end.

(** Application time that a tick charges to the heartbeat it observed. *)
Definition ticked (a : action) : Z := match a with Tick _ e => e | Rebase _ _ => 0 end.

Definition action_elapsed (a : action) : Z := match a with Tick _ e => e | Rebase _ e => e end.

Section Runs.
Context (threshold_ms cooldown_ms : Z).

Definition step (s : WatchdogState) (a : action) : WatchdogState * option Z :=
  match a with
  | Tick h e => update_watchdog_state s h e threshold_ms cooldown_ms
  | Rebase h e => ((rebase_after_monitor_work s h e).1, None)
  end.

Fixpoint run (s : WatchdogState) (acts : list action) : WatchdogState * list (option Z) :=
  match acts with
  | [] => (s, [])
  | a :: acts =>
      let '(s1, out) := step s a in
      let '(s2, outs) := run s1 acts in (s2, out :: outs)
  end.

End Runs.

Definition total (f : action → Z) (acts : list action) : Z := foldr (λ a n, f a + n) 0 acts.

(** ** State invariant *)

(** Every field is a [u64]; a disarmed watchdog has nothing accumulated and its
    whole warmup ahead; no hang time is accumulated during a grace period, and
    warmup and cooldown are never active together. *)
Definition watchdog_wf (s : WatchdogState) : Prop :=
  in_u64 (initial_warmup_ms s) ∧ 0 ≤ warmup_remaining_ms s ≤ initial_warmup_ms s ∧
  in_u64 (hang_accumulated_ms s) ∧ in_u64 (cooldown_remaining_ms s) ∧
  (prev_heartbeat s = None → warmup_remaining_ms s = initial_warmup_ms s ∧
    hang_accumulated_ms s = 0 ∧ cooldown_remaining_ms s = 0) ∧
  (0 < warmup_remaining_ms s → hang_accumulated_ms s = 0 ∧ cooldown_remaining_ms s = 0) ∧
  (0 < cooldown_remaining_ms s → hang_accumulated_ms s = 0).

(** ** Lemmas *)

Lemma total_app (f : action → Z) (l1 l2 : list action) :
  total f (l1 ++ l2) = total f l1 + total f l2.
Proof. unfold total. induction l1; simpl; lia. Qed.

Lemma total_nonneg (f : action → Z) (l : list action) :
  Forall (λ a, 0 ≤ f a) l → 0 ≤ total f l.
Proof. unfold total. induction 1; simpl; lia. Qed.

Lemma run_cons th cd s a acts :
  run th cd s (a :: acts) =
    ((run th cd (step th cd s a).1 acts).1, (step th cd s a).2 :: (run th cd (step th cd s a).1 acts).2).
Proof. simpl. destruct (step th cd s a) as [s1 o]. simpl. by destruct (run th cd s1 acts). Qed.

Lemma run_app th cd s (l1 l2 : list action) :
  run th cd s (l1 ++ l2) =
    ((run th cd (run th cd s l1).1 l2).1, (run th cd s l1).2 ++ (run th cd (run th cd s l1).1 l2).2).
Proof.
  revert s. induction l1 as [|a l1 IH]; intros s; simpl.
  - by destruct (run th cd s l2).
  - destruct (step th cd s a) as [s1 o]. rewrite IH.
    by destruct (run th cd s1 l1) as [s2 os].
Qed.

Lemma run_snoc th cd s (l : list action) (a : action) :
  run th cd s (l ++ [a]) =
    ((step th cd (run th cd s l).1 a).1, (run th cd s l).2 ++ [(step th cd (run th cd s l).1 a).2]).
Proof.
  rewrite run_app. simpl. by destruct (step th cd (run th cd s l).1 a).
Qed.

#[export] Hint Rewrite run_snoc total_app : cm_rw.

Lemma new_wf w init : in_u64 w → watchdog_wf (new w init).
Proof. unfold watchdog_wf, in_u64, U64_MAX. simpl. intros. repeat split; intros; simpl; lia. Qed.

Ltac unfold_watchdog :=
  unfold step, update_watchdog_state, rebase_after_monitor_work, consume_active_grace,
    set_prev, set_hang, set_cooldown, set_warmup, disarm,
    u64_saturating_add, u64_saturating_sub in *.

Lemma step_wf th cd s a :
  in_u64 cd → 0 ≤ action_elapsed a → watchdog_wf s → watchdog_wf (step th cd s a).1.
Proof.
  intros Hcd He Hs. destruct s as [iw w p hg c]. unfold watchdog_wf, in_u64, U64_MAX in *.
  unfold_watchdog. destruct a as [h e|h e], h as [h|], p as [p|]; simpl in *;
    repeat case_decide; simpl in *; destruct_and?;
    repeat split; intros; try done; unfold U64_MAX in *; lia.
Qed.

Lemma run_wf th cd s acts :
  in_u64 cd → Forall (λ a, 0 ≤ action_elapsed a) acts → watchdog_wf s →
  watchdog_wf (run th cd s acts).1.
Proof.
  intros Hcd Hacts. revert s. induction Hacts as [|a acts Ha _ IH]; intros s Hs; [done|].
  simpl. pose proof (step_wf th cd s a Hcd Ha Hs) as Hs1.
  destruct (step th cd s a) as [s1 o]. specialize (IH s1 Hs1).
  by destruct (run th cd s1 acts).
Qed.

(** *** Hang time is always attributed to one unchanged heartbeat *)

(** [stale_since init acts h mid]: the history [acts] ends with the actions
    [mid], all of which observed the heartbeat [h], and [h] had already been
    observed right before them. *)
Definition stale_since (init : option Z) (acts : list action) (h : Z) (mid : list action) : Prop :=
  ∃ pre, acts = pre ++ mid ∧ Forall (λ a, observed a = Some h) mid ∧
    match last pre with None => init = Some h | Some a => observed a = Some h end.

Lemma stale_since_reset init acts a h :
  observed a = Some h → stale_since init (acts ++ [a]) h [].
Proof. intros Ha. exists (acts ++ [a]). rewrite app_nil_r, last_snoc. done. Qed.

Lemma stale_since_extend init acts mid a h :
  stale_since init acts h mid → observed a = Some h →
  stale_since init (acts ++ [a]) h (mid ++ [a]).
Proof.
  intros (pre & -> & Hmid & Hpre) Ha. exists pre. split_and!; [by rewrite app_assoc| |done].
  apply Forall_app; auto.
Qed.

(** The accumulated hang time is exactly the (saturated) time of the ticks
    since the previous heartbeat was first observed. *)
Definition hang_explained (init : option Z) (acts : list action) (s : WatchdogState) : Prop :=
  match prev_heartbeat s with
  | None => True
  | Some h => ∃ mid, stale_since init acts h mid ∧
      hang_accumulated_ms s = Z.min U64_MAX (total ticked mid)
  end.

Lemma hang_explained_reset init acts a h s :
  observed a = Some h → prev_heartbeat s = Some h → hang_accumulated_ms s = 0 →
  hang_explained init (acts ++ [a]) s.
Proof.
  intros Ha Hp Hs. unfold hang_explained. rewrite Hp. exists [].
  split; [by apply stale_since_reset | rewrite Hs; done].
Qed.

Lemma hang_explained_extend init acts a h s s' :
  hang_explained init acts s → prev_heartbeat s = Some h → observed a = Some h →
  0 ≤ ticked a → prev_heartbeat s' = Some h →
  hang_accumulated_ms s' = u64_saturating_add (hang_accumulated_ms s) (ticked a) →
  hang_explained init (acts ++ [a]) s'.
Proof.
  unfold hang_explained. intros Hs Hp Ha H0 Hp' Hs'. rewrite Hp in Hs. rewrite Hp'.
  destruct Hs as (mid & Hmid & Hsum). exists (mid ++ [a]).
  split; [by apply stale_since_extend |].
  rewrite Hs', Hsum, u64_saturating_add_cut, total_app by done. simpl. f_equal. lia.
Qed.

Lemma step_hang_explained th cd init acts s a :
  0 ≤ action_elapsed a → watchdog_wf s → hang_explained init acts s →
  hang_explained init (acts ++ [a]) (step th cd s a).1.
Proof.
  intros Ha Hwf Hs.
  assert (Hdis : prev_heartbeat s = None → hang_accumulated_ms s = 0)
    by (unfold watchdog_wf in Hwf; tauto).
  assert (Hid : hang_accumulated_ms s = u64_saturating_add (hang_accumulated_ms s) 0)
    by (unfold watchdog_wf, in_u64, u64_saturating_add in *; lia).
  destruct s as [iw w p hg c]. destruct a as [oh e|oh e]; unfold_watchdog;
    destruct oh as [h|]; simpl in *; try done; destruct p as [p|]; simpl in *;
    repeat case_decide; simpl in *; subst;
    try (eapply hang_explained_reset; simpl; auto; done);
    eapply hang_explained_extend; try done; simpl; try done.
Qed.

Lemma run_hang_explained th cd w init acts :
  in_u64 w → in_u64 cd → Forall (λ a, 0 ≤ action_elapsed a) acts →
  hang_explained init acts (run th cd (new w init) acts).1.
Proof.
  intros Hw Hcd. induction acts as [|a acts IH] using rev_ind; intros Hacts.
  - unfold hang_explained. simpl. destruct init as [h|]; [|done]. exists []. split; [|done].
    by exists [].
  - apply Forall_snoc in Hacts as [Hacts Ha].
    rewrite run_snoc. simpl. apply step_hang_explained; auto.
    apply run_wf; auto using new_wf.
Qed.

(** A tick reports a hang only for the heartbeat it observed, charging its own
    elapsed time, and only at the threshold. *)
Lemma step_fires th cd s a d :
  (step th cd s a).2 = Some d →
  ∃ h e, a = Tick (Some h) e ∧ prev_heartbeat s = Some h ∧
    d = u64_saturating_add (hang_accumulated_ms s) e ∧ th ≤ d ∧
    warmup_remaining_ms s ≤ 0 ∧ cooldown_remaining_ms s ≤ 0.
Proof.
  destruct a as [[h|] e|h e]; simpl; try done. unfold update_watchdog_state.
  destruct (prev_heartbeat s) as [p|]; simpl; [|done].
  repeat case_decide; simpl in *; intros; simplify_eq.
  exists p, e. split_and!; try done; lia.
Qed.

(** C3. No false alarm: whenever the watchdog reports a hang of [d] ms at some
    point of any history of ticks and captures, the history ends with a stretch
    of samples that all show one and the same heartbeat, already seen before
    the stretch, and [d] is exactly the application-running time of the ticks
    of that stretch (cut off at [u64::MAX]), at least the threshold. *)
Theorem watchdog_no_false_alarm th cd w init acts h e d :
  in_u64 w → in_u64 cd → Forall (λ a, 0 ≤ action_elapsed a) (acts ++ [Tick h e]) →
  last (run th cd (new w init) (acts ++ [Tick h e])).2 = Some (Some d) →
  ∃ hb mid, h = Some hb ∧ stale_since init acts hb mid ∧
    d = Z.min U64_MAX (total ticked mid + e) ∧ th ≤ d.
Proof.
  intros Hw Hcd [Hacts He]%Forall_snoc. rewrite run_snoc. simpl.
  rewrite last_snoc. intros [= Hfire].
  apply (step_fires th cd _ (Tick h e)) in Hfire
    as (hb & e' & [= -> <-] & Hprev & -> & Hth & _).
  pose proof (run_hang_explained th cd w init acts Hw Hcd Hacts) as Hex.
  unfold hang_explained in Hex. rewrite Hprev in Hex. destruct Hex as (mid & Hmid & Hsum).
  exists hb, mid. split_and!; try done. by rewrite Hsum, u64_saturating_add_cut.
Qed.

Lemma watchdog_no_false_alarm_witness :
  ∃ hb mid, Some 7 = Some hb ∧
    stale_since None [Tick (Some 7) 1; Tick (Some 7) 9; Tick (Some 7) 3; Rebase (Some 7) 50] hb mid ∧
    5 = Z.min U64_MAX (total ticked mid + 2) ∧ 5 ≤ 5.
Proof.
  destruct (watchdog_no_false_alarm 5 60 4 None
    [Tick (Some 7) 1; Tick (Some 7) 9; Tick (Some 7) 3; Rebase (Some 7) 50] (Some 7) 2 5)
    as (hb & mid & H1 & H2 & H3 & H4).
  - by vm_compute.
  - by vm_compute.
  - repeat constructor; vm_compute; discriminate.
  - vm_compute. reflexivity.
  - exists hb, mid. done.
Defined.

(** *** A frozen heartbeat is detected in bounded time *)

(** Time that must still pass before hang time is accumulated, counting the
    tick (of at most [interval] ms) that crosses the end of a grace period. *)
Definition grace_left (interval : Z) (s : WatchdogState) : Z :=
  if decide (0 < warmup_remaining_ms s) then warmup_remaining_ms s + interval
  else if decide (0 < cooldown_remaining_ms s) then cooldown_remaining_ms s + interval
  else 0.

Lemma step_frozen th cd I s h e :
  watchdog_wf s → prev_heartbeat s = Some h → 0 ≤ e ≤ I → th ≤ U64_MAX →
  hang_accumulated_ms s < th →
  (step th cd s (Tick (Some h) e)).2 = None →
  let s' := (step th cd s (Tick (Some h) e)).1 in
  prev_heartbeat s' = Some h ∧ hang_accumulated_ms s' < th ∧
  grace_left I s' - hang_accumulated_ms s' ≤ grace_left I s - hang_accumulated_ms s - e.
Proof.
  destruct s as [iw w p hg c]. unfold watchdog_wf, in_u64, grace_left, U64_MAX. unfold_watchdog.
  simpl. intros Hwf Hp He Hth Hhg. subst p.
  repeat (case_decide; simpl in *; try done); intros; split_and!; auto; unfold U64_MAX in *; lia.
Qed.

(** C26. Bounded detection: from any well-formed state that has a heartbeat
    baseline, if every following tick (each of at most [interval] ms) shows the
    same heartbeat and the ticks add up to the remaining grace period plus one
    interval plus the threshold, then a hang is reported. *)
Theorem watchdog_detects_hang th cd I s h es :
  in_u64 cd → 0 ≤ I → watchdog_wf s → prev_heartbeat s = Some h → th ≤ U64_MAX →
  hang_accumulated_ms s < th → Forall (λ e, 0 ≤ e ≤ I) es →
  grace_left I s + th - hang_accumulated_ms s ≤ foldr Z.add 0 es →
  ∃ d, Some d ∈ (run th cd s (Tick (Some h) <$> es)).2 ∧ th ≤ d.
Proof.
  intros Hcd HI Hwf Hp Hth Hhg Hes. revert s Hwf Hp Hhg.
  induction Hes as [|e es He _ IH]; intros s Hwf Hp Hhg Hsum; simpl in Hsum.
  - unfold grace_left in Hsum. unfold watchdog_wf in Hwf. repeat case_decide; lia.
  - change (Tick (Some h) <$> e :: es) with (Tick (Some h) e :: (Tick (Some h) <$> es)).
    rewrite run_cons. cbn [fst snd].
    pose proof (step_frozen th cd I s h e Hwf Hp He Hth Hhg) as Hf.
    pose proof (step_wf th cd s (Tick (Some h) e) Hcd ltac:(simpl; lia) Hwf) as Hwf1.
    destruct (step th cd s (Tick (Some h) e)) as [s1 [d|]] eqn:Hstep; cbn [fst snd] in *.
    + exists d. split; [by left|].
      destruct (step_fires th cd s (Tick (Some h) e) d) as (?&?&?&?&?&?&?); [by rewrite Hstep|done].
    + destruct (Hf eq_refl) as (Hp1 & Hhg1 & Hle).
      destruct (IH s1 Hwf1 Hp1 Hhg1 ltac:(lia)) as (d & Hd & Hthd).
      exists d. split; [by right|done].
Qed.

Lemma watchdog_detects_hang_witness :
  ∃ d, Some d ∈ (run 5 60 (new 4 (Some 1)) (Tick (Some 1) <$> [2; 2; 2; 2; 2; 2])).2 ∧ 5 ≤ d.
Proof.
  apply (watchdog_detects_hang 5 60 2 (new 4 (Some 1)) 1).
  - by vm_compute.
  - by vm_compute.
  - apply new_wf. by vm_compute.
  - reflexivity.
  - by vm_compute.
  - by vm_compute.
  - repeat constructor; vm_compute; discriminate.
  - vm_compute. discriminate.
Defined.

(** *** Reports are spaced by the grace periods *)

(** Application time a step hands to the watchdog: a rebase that preserves the
    elapsed time leaves it to the next tick. *)
Definition charged (s : WatchdogState) (a : action) : Z :=
  match a with
  | Tick _ e => e
  | Rebase h e =>
      match (rebase_after_monitor_work s h e).2 with PreserveElapsed => 0 | ResetElapsed => e end
  end.

Fixpoint charged_run (th cd : Z) (s : WatchdogState) (acts : list action) : Z :=
  match acts with
  | [] => 0
  | a :: acts => charged s a + charged_run th cd (step th cd s a).1 acts
  end.

(** A lower bound on the time still needed before a report. *)
Definition need (th : Z) (s : WatchdogState) : Z :=
  match prev_heartbeat s with
  | None => initial_warmup_ms s + th
  | Some _ =>
      if decide (0 < warmup_remaining_ms s) then warmup_remaining_ms s + th
      else if decide (0 < cooldown_remaining_ms s) then
        Z.min (cooldown_remaining_ms s) (initial_warmup_ms s) + th
      else th - hang_accumulated_ms s
  end.

Lemma step_need th cd s a :
  0 ≤ th → in_u64 cd → watchdog_wf s → 0 ≤ action_elapsed a →
  need th s ≤ charged s a + Z.max 0 (need th (step th cd s a).1).
Proof.
  destruct s as [iw w p hg c]. unfold watchdog_wf, in_u64, need, charged, U64_MAX.
  unfold_watchdog. intros Hth Hcd Hwf Ha.
  destruct a as [[h|] e|[h|] e]; simpl in *; destruct p as [p|]; simpl in *;
    repeat (case_decide; simpl in *; try done); unfold U64_MAX in *; try lia;
    destruct_and?; repeat match goal with H : ?x = ?x → _ |- _ => specialize (H eq_refl) end; lia.
Qed.

Lemma step_fire_need th cd s a d :
  in_u64 cd → watchdog_wf s → (step th cd s a).2 = Some d →
  need th s ≤ charged s a ∧
  need th (step th cd s a).1 = Z.min cd (initial_warmup_ms s) + th.
Proof.
  intros Hcd Hwf Hfire.
  destruct (step_fires th cd s a d Hfire) as (h & e & -> & Hp & -> & Hth & Hw & Hc).
  destruct s as [iw w p hg c]. simpl in *. subst p. unfold watchdog_wf, in_u64, U64_MAX in *.
  revert Hfire. unfold need, charged. unfold_watchdog. simpl in *.
  repeat (case_decide; simpl in *; try done); unfold U64_MAX in *; intros; split; lia.
Qed.

Lemma run_need th cd s acts :
  0 ≤ th → in_u64 cd → watchdog_wf s → Forall (λ a, 0 ≤ action_elapsed a) acts →
  need th s ≤ charged_run th cd s acts + Z.max 0 (need th (run th cd s acts).1) ∧
  0 ≤ charged_run th cd s acts.
Proof.
  intros Hth Hcd Hwf Hacts. revert s Hwf.
  induction Hacts as [|a acts Ha _ IH]; intros s Hwf; simpl; [lia|].
  pose proof (step_need th cd s a Hth Hcd Hwf Ha) as H1.
  destruct (IH _ (step_wf th cd s a Hcd Ha Hwf)) as [H2 H2'].
  assert (0 ≤ charged s a) by (destruct a as [|h e]; simpl in *; [done|];
    destruct (rebase_after_monitor_work s h e).2; lia).
  destruct (step th cd s a) as [s1 o]. simpl in *.
  destruct (run th cd s1 acts) as [s2 os]. simpl in *. lia.
Qed.

(** Spacing: between a report and the next one, whatever the heartbeats,
    captures and losses of producer readiness in between, at least the
    threshold plus the smaller of the cooldown and the warmup of
    application-running time is charged to the watchdog. *)
Theorem watchdog_reports_spaced th cd s a d acts h e d' :
  0 ≤ th → in_u64 cd → watchdog_wf s →
  Forall (λ a, 0 ≤ action_elapsed a) (a :: acts ++ [Tick h e]) →
  (step th cd s a).2 = Some d →
  (step th cd (run th cd (step th cd s a).1 acts).1 (Tick h e)).2 = Some d' →
  Z.min cd (initial_warmup_ms s) + th ≤ charged_run th cd (step th cd s a).1 acts + e.
Proof.
  intros Hth Hcd Hwf [Ha [Hacts He]%Forall_snoc]%Forall_cons Hf1 Hf2.
  destruct (step_fire_need th cd s a d Hcd Hwf Hf1) as [_ Hneed].
  pose proof (step_wf th cd s a Hcd Ha Hwf) as Hwf1.
  destruct (run_need th cd _ acts Hth Hcd Hwf1 Hacts) as [Hrun H0].
  pose proof (run_wf th cd _ acts Hcd Hacts Hwf1) as Hwf2.
  destruct (step_fire_need th cd _ (Tick h e) d' Hcd Hwf2 Hf2) as [Hle _].
  simpl in Hle, He. rewrite Hneed in Hrun. lia.
Qed.

Lemma watchdog_reports_spaced_witness :
  Z.min 6 4 + 5 ≤
    charged_run 5 6 (step 5 6 (mkWatchdogState 4 0 (Some 1) 3 0) (Tick (Some 1) 2)).1
      [Tick None 7; Tick (Some 2) 1; Tick (Some 2) 5] + 9.
Proof.
  apply (watchdog_reports_spaced 5 6 (mkWatchdogState 4 0 (Some 1) 3 0) (Tick (Some 1) 2) 5
    [Tick None 7; Tick (Some 2) 1; Tick (Some 2) 5] (Some 2) 9 9).
  - lia.
  - by vm_compute.
  - unfold watchdog_wf, in_u64, U64_MAX. simpl. repeat split; try lia; discriminate.
  - repeat constructor; vm_compute; discriminate.
  - reflexivity.
  - reflexivity.
Defined.

(** The clock adjustment: for ordered timestamps the new baseline charges
    to the application exactly the time before and after the monitor-owned
    interval; for any timestamps whatsoever it never lies after the end of that
    interval, so no later elapsed time can be negative. *)
Theorem exclude_monitor_work_exact last started finished now :
  exclude_monitor_work_from_anr_clock last started finished ≤ finished ∧
  (last ≤ started ≤ finished → finished ≤ now → finished ≤ INSTANT_MAX →
   saturating_duration_since now (exclude_monitor_work_from_anr_clock last started finished) =
     (started - last) + (now - finished)).
Proof.
  unfold exclude_monitor_work_from_anr_clock, instant_checked_add, saturating_duration_since.
  split; [|intros ???]; repeat case_decide; lia.
Qed.

End Watchdog.
