(* ===== verification/ShmLayout.v ===== *)
(** * The shared-memory layout (schema/crash_shm.h, src/shm/types.rs, src/shm/reader.rs)

    The C structures of the schema, the layout rules that give their sizes and
    offsets, the section table and the list of live atomic words. The offsets
    used by the other files are computed from the structures, as [offset_of!]
    and [size_of] compute them in the source; [layout_assertions] are the
    compile-time assertions of the source. *)

From S2P Require Import Prelude.

(** ** C layout *)

Inductive ctype : Type :=
| CU8 | CU16 | CU32 | CI32 | CU64
| CArray (elem : ctype) (n : Z)
| CStruct (fields : list (string * ctype)).

Fixpoint calign (t : ctype) : Z :=
  match t with
  | CU8 => 1 | CU16 => 2 | CU32 | CI32 => 4 | CU64 => 8
  | CArray e _ => calign e
  | CStruct fs =>
      (fix go (l : list (string * ctype)) : Z :=
         match l with [] => 1 | (_, t) :: l => Z.max (calign t) (go l) end) fs
  end.

Definition round_up (x a : Z) : Z := (x + a - 1) / a * a.

Fixpoint csize (t : ctype) : Z :=
  match t with
  | CU8 => 1 | CU16 => 2 | CU32 | CI32 => 4 | CU64 => 8
  | CArray e n => csize e * n
  | CStruct fs =>
      round_up
        ((fix go (l : list (string * ctype)) (off : Z) : Z :=
            match l with
            | [] => off
            | (_, t) :: l => go l (round_up off (calign t) + csize t)
            end) fs 0)
        (calign (CStruct fs))
  end.

Fixpoint field_offset (l : list (string * ctype)) (name : string) (off : Z) : Z :=
  match l with
  | [] => -1
  | (n, t) :: l =>
      let start := round_up off (calign t) in
      if String.eqb n name then start else field_offset l name (start + csize t)
  end.

Definition offset_of (t : ctype) (name : string) : Z :=
  match t with CStruct fs => field_offset fs name 0 | _ => -1 end.

(** ** The schema *)

Definition SHM_MAGIC : Z := 0x434D4F4E.
Definition SHM_VERSION : Z := 5.
Definition SHM_CANARY : Z := 0xDEADBEEF.
Definition SHM_TOTAL_SIZE : Z := 50033364.
Definition SHM_PRODUCER_NOT_READY : Z := 0.
Definition SHM_PRODUCER_READY : Z := 1.
Definition CRUMB_CATEGORY_MAX : Z := 10.
Definition CRUMB_SEVERITY_MAX : Z := 2.
Definition CRUMB_RING_CAPACITY : Z := 512.
Definition CRUMB_MAX_THREADS : Z := 8.
Definition MAX_ANNOTATIONS : Z := 16.
Definition SUT_PRODUCER_EXTENSION_VERSION : Z := 1.
Definition SUT_PRODUCER_EXTENSION_MAX_ENTRIES : Z := 4.
Definition MAX_ATTACHMENTS : Z := 4.
Definition SCREENSHOT_SLOTS : Z := 96.
Definition SCREENSHOT_WIDTH : Z := 480.
Definition SCREENSHOT_HEIGHT : Z := 270.
Definition SCREENSHOT_BYTES_PER_SLOT : Z :=
  Eval vm_compute in SCREENSHOT_WIDTH * SCREENSHOT_HEIGHT * 4.

Definition ShmHeader : ctype := CStruct [
  ("magic", CU32); ("version", CU32); ("ring_capacity_per_thread", CU32);
  ("max_threads", CU32); ("breadcrumb_registry_generation", CU32);
  ("screenshot_slots", CU32); ("screenshot_width", CU32); ("screenshot_height", CU32);
  ("context_generation", CU32); ("settings_generation", CU32);
  ("attachments_generation", CU32); ("producer_ready", CU32); ("reserved", CArray CU8 16)]%string.

Definition SutBreadcrumb : ctype := CStruct [
  ("timestamp_ns", CU64); ("thread_id", CU32); ("category", CU16); ("severity", CU16);
  ("file", CArray CU8 16); ("line", CU16); ("_pad", CU16); ("message", CArray CU8 28)]%string.

Definition SutCrumbRing : ctype := CStruct [
  ("buf", CArray SutBreadcrumb CRUMB_RING_CAPACITY);
  ("write_idx", CU32); ("count", CU32); ("tid", CU32); ("generation", CU32)]%string.

Definition SutCrumbState : ctype := CStruct [
  ("rings", CArray SutCrumbRing CRUMB_MAX_THREADS); ("ring_count", CU32)]%string.

Definition SutCrashAnnotation : ctype := CStruct [
  ("key", CArray CU8 32); ("value", CArray CU8 64)]%string.

Definition SutCrashContext : ctype := CStruct [
  ("heartbeat_counter", CU64); ("session_start_ns", CU64); ("session_id", CArray CU8 37);
  ("app_version", CArray CU8 16); ("build_number", CU32); ("git_hash", CArray CU8 16);
  ("git_dirty", CU8); ("build_type", CArray CU8 16); ("build_preset", CArray CU8 16);
  ("build_timestamp", CArray CU8 24); ("compiler", CArray CU8 32);
  ("os_version", CArray CU8 32); ("annotation_count", CI32);
  ("annotations", CArray SutCrashAnnotation MAX_ANNOTATIONS)]%string.

Definition SutProducerExtensionEntry : ctype := CStruct [
  ("key", CArray CU8 16); ("value", CArray CU8 20)]%string.

Definition SutCrashSettingsSnapshot : ctype := CStruct [
  ("schema_version", CU32); ("entry_count", CU32);
  ("entries", CArray SutProducerExtensionEntry SUT_PRODUCER_EXTENSION_MAX_ENTRIES);
  ("reserved", CArray CU8 8)]%string.

Definition ShmAttachmentSlot : ctype := CStruct [
  ("label", CArray CU8 32); ("path", CArray CU8 256)]%string.

Definition ShmAttachmentSection : ctype := CStruct [
  ("count", CU32); ("_pad", CU32); ("slots", CArray ShmAttachmentSlot MAX_ATTACHMENTS)]%string.

Definition SutScreenshotSection : ctype := CStruct [
  ("valid", CArray CU32 SCREENSHOT_SLOTS); ("timestamp", CArray CU64 SCREENSHOT_SLOTS);
  ("tier", CArray CU32 SCREENSHOT_SLOTS);
  ("data", CArray (CArray CU8 SCREENSHOT_BYTES_PER_SLOT) SCREENSHOT_SLOTS)]%string.

Definition SutShmRegion : ctype := CStruct [
  ("header", ShmHeader); ("breadcrumbs", SutCrumbState); ("context", SutCrashContext);
  ("settings", SutCrashSettingsSnapshot); ("attachments", ShmAttachmentSection);
  ("screenshots", SutScreenshotSection)]%string.

(** ** Section table (types.rs) *)

Definition SECTION1_OFFSET : Z := Eval vm_compute in offset_of SutShmRegion "header".
Definition SECTION1_SIZE : Z := Eval vm_compute in csize ShmHeader.
Definition SECTION2_OFFSET : Z := Eval vm_compute in offset_of SutShmRegion "breadcrumbs".
Definition SECTION2_SIZE : Z := Eval vm_compute in csize SutCrumbState.
Definition CONTEXT_OFFSET : Z := Eval vm_compute in offset_of SutShmRegion "context".
Definition SETTINGS_OFFSET : Z := Eval vm_compute in offset_of SutShmRegion "settings".
Definition ATTACHMENT_OFFSET : Z := Eval vm_compute in offset_of SutShmRegion "attachments".
Definition SECTION4_OFFSET : Z := Eval vm_compute in offset_of SutShmRegion "screenshots".
Definition FOOTER_OFFSET : Z := Eval vm_compute in csize SutShmRegion.

(** ** Offsets of the reader (reader.rs) *)

Definition SNAPSHOT_COPY_CHUNK_SIZE : Z := 1048576.
Definition REGISTRY_GENERATION_OFFSET : Z :=
  Eval vm_compute in SECTION1_OFFSET + offset_of ShmHeader "breadcrumb_registry_generation".
Definition CONTEXT_GENERATION_OFFSET : Z :=
  Eval vm_compute in SECTION1_OFFSET + offset_of ShmHeader "context_generation".
Definition SETTINGS_GENERATION_OFFSET : Z :=
  Eval vm_compute in SECTION1_OFFSET + offset_of ShmHeader "settings_generation".
Definition ATTACHMENTS_GENERATION_OFFSET : Z :=
  Eval vm_compute in SECTION1_OFFSET + offset_of ShmHeader "attachments_generation".
Definition PRODUCER_READY_OFFSET : Z :=
  Eval vm_compute in SECTION1_OFFSET + offset_of ShmHeader "producer_ready".
Definition RING_COUNT_OFFSET : Z :=
  Eval vm_compute in SECTION2_OFFSET + offset_of SutCrumbState "ring_count".
Definition RINGS_OFFSET : Z := Eval vm_compute in SECTION2_OFFSET + offset_of SutCrumbState "rings".
Definition RING_SIZE : Z := Eval vm_compute in csize SutCrumbRing.
Definition RING_GENERATION_OFFSET : Z := Eval vm_compute in offset_of SutCrumbRing "generation".
Definition SCREENSHOT_GENERATIONS_OFFSET : Z :=
  Eval vm_compute in SECTION4_OFFSET + offset_of SutScreenshotSection "valid".
Definition SCREENSHOT_TIMESTAMPS_OFFSET : Z :=
  Eval vm_compute in SECTION4_OFFSET + offset_of SutScreenshotSection "timestamp".
Definition SCREENSHOT_TIERS_OFFSET : Z :=
  Eval vm_compute in SECTION4_OFFSET + offset_of SutScreenshotSection "tier".
Definition SCREENSHOT_DATA_OFFSET : Z :=
  Eval vm_compute in SECTION4_OFFSET + offset_of SutScreenshotSection "data".
Definition HEARTBEAT_OFFSET : Z :=
  Eval vm_compute in CONTEXT_OFFSET + offset_of SutCrashContext "heartbeat_counter".
Definition MIN_VARIABLE_SNAPSHOT_SIZE : Z := Eval vm_compute in SCREENSHOT_DATA_OFFSET + 4.
Definition CONTEXT_SIZE : Z := Eval vm_compute in csize SutCrashContext.
Definition SETTINGS_SIZE : Z := Eval vm_compute in csize SutCrashSettingsSnapshot.
Definition ATTACHMENTS_SIZE : Z := Eval vm_compute in csize ShmAttachmentSection.
Definition REGION_ALIGN : Z := Eval vm_compute in calign SutShmRegion.

(** ** Live atomic words *)

Inductive LiveAtomicWord : Type := WordU32 (offset : Z) | WordU64 (offset : Z).

Definition word_offset (w : LiveAtomicWord) : Z :=
  match w with WordU32 o | WordU64 o => o end.

Definition word_width (w : LiveAtomicWord) : Z :=
  match w with WordU32 _ => 4 | WordU64 _ => 8 end.

(** [live_atomic_words], in the order the source fills the array. *)
Definition LIVE_ATOMIC_WORDS : list LiveAtomicWord :=
  [WordU32 REGISTRY_GENERATION_OFFSET; WordU32 CONTEXT_GENERATION_OFFSET;
   WordU32 SETTINGS_GENERATION_OFFSET; WordU32 ATTACHMENTS_GENERATION_OFFSET;
   WordU32 PRODUCER_READY_OFFSET] ++
  ((λ i, WordU32 (RINGS_OFFSET + i * RING_SIZE + RING_GENERATION_OFFSET))
     <$> seqZ 0 CRUMB_MAX_THREADS) ++
  [WordU32 RING_COUNT_OFFSET; WordU64 HEARTBEAT_OFFSET] ++
  ((λ i, WordU32 (SCREENSHOT_GENERATIONS_OFFSET + i * 4)) <$> seqZ 0 SCREENSHOT_SLOTS).

(** ** Privacy selection of sections *)

Record ShmSnapshotPolicy := mkShmSnapshotPolicy {
  breadcrumbs : bool;
  context : bool;
  attachments : bool;
  screenshots : bool
}.

Definition POLICY_ALL : ShmSnapshotPolicy := mkShmSnapshotPolicy true true true true.

Definition in_range (lo hi x : Z) : bool := bool_decide (lo ≤ x < hi).

Definition allows_atomic (p : ShmSnapshotPolicy) (offset : Z) : bool :=
  if bool_decide (offset = REGISTRY_GENERATION_OFFSET) || bool_decide (offset = RING_COUNT_OFFSET)
  then breadcrumbs p
  else if bool_decide (offset = CONTEXT_GENERATION_OFFSET)
          || bool_decide (offset = SETTINGS_GENERATION_OFFSET)
          || bool_decide (offset = HEARTBEAT_OFFSET)
  then context p
  else if bool_decide (offset = ATTACHMENTS_GENERATION_OFFSET) then attachments p
  else if bool_decide (offset = PRODUCER_READY_OFFSET) then true
  else if in_range RINGS_OFFSET (SECTION2_OFFSET + SECTION2_SIZE) offset then breadcrumbs p
  else if in_range SCREENSHOT_GENERATIONS_OFFSET SCREENSHOT_TIMESTAMPS_OFFSET offset
  then screenshots p
  else false.

(** The section table of [copy_selected_non_atomic_range]. *)
Definition selected_sections (p : ShmSnapshotPolicy) : list (Z * Z * bool) :=
  [(SECTION1_OFFSET, SECTION1_OFFSET + SECTION1_SIZE, true);
   (SECTION2_OFFSET, SECTION2_OFFSET + SECTION2_SIZE, breadcrumbs p);
   (CONTEXT_OFFSET, ATTACHMENT_OFFSET, context p);
   (ATTACHMENT_OFFSET, SECTION4_OFFSET, attachments p);
   (SECTION4_OFFSET, FOOTER_OFFSET, screenshots p);
   (FOOTER_OFFSET, SHM_TOTAL_SIZE, true)].

(** Whether the policy lets the byte at [a] leave the live mapping. *)
Definition section_enabled (p : ShmSnapshotPolicy) (a : Z) : bool :=
  existsb (λ '(lo, hi, on), on && in_range lo hi a) (selected_sections p).

(** ** The compile-time assertions of the source *)

(** The words are listed in address order, without overlap, inside the mapping
    and aligned for their atomic type; this is the [const] block of reader.rs. *)
Fixpoint words_from (cursor : Z) (ws : list LiveAtomicWord) : bool :=
  match ws with
  | [] => bool_decide (cursor ≤ SHM_TOTAL_SIZE)
  | w :: ws =>
      bool_decide (cursor ≤ word_offset w) &&
      bool_decide (word_offset w + word_width w ≤ SHM_TOTAL_SIZE) &&
      bool_decide (word_offset w `mod` word_width w = 0) &&
      words_from (word_offset w + word_width w) ws
  end.

Definition layout_assertions : bool :=
  bool_decide (csize ShmHeader = 64) && bool_decide (csize SutBreadcrumb = 64) &&
  bool_decide (csize SutCrumbRing = 32784) && bool_decide (csize SutCrumbState = 262280) &&
  bool_decide (csize SutCrashAnnotation = 96) && bool_decide (csize SutCrashContext = 1760) &&
  bool_decide (csize SutCrashSettingsSnapshot = 160) && bool_decide (csize ShmAttachmentSlot = 288) &&
  bool_decide (csize ShmAttachmentSection = 1160) &&
  bool_decide (csize SutScreenshotSection = 49767936) &&
  bool_decide (offset_of SutCrashContext "session_id" = 16) &&
  bool_decide (offset_of SutCrashContext "app_version" = 53) &&
  bool_decide (offset_of SutCrashContext "git_dirty" = 92) &&
  bool_decide (offset_of SutCrashContext "os_version" = 181) &&
  bool_decide (offset_of SutCrashContext "annotation_count" = 216) &&
  bool_decide (offset_of SutCrashContext "annotations" = 220) &&
  bool_decide (offset_of SutScreenshotSection "data" = 1536) &&
  bool_decide (CONTEXT_OFFSET = 262344) && bool_decide (SETTINGS_OFFSET = 264104) &&
  bool_decide (ATTACHMENT_OFFSET = 264264) && bool_decide (SECTION4_OFFSET = 265424) &&
  bool_decide (FOOTER_OFFSET = 50033360) && bool_decide (SHM_TOTAL_SIZE = FOOTER_OFFSET + 4) &&
  words_from 0 LIVE_ATOMIC_WORDS.

(** Unfold every layout constant to its numeral, for [lia]. *)
Ltac unfold_layout :=
  unfold MIN_VARIABLE_SNAPSHOT_SIZE, SHM_TOTAL_SIZE, FOOTER_OFFSET, SECTION1_OFFSET, SECTION1_SIZE,
    SECTION2_OFFSET, SECTION2_SIZE, CONTEXT_OFFSET, SETTINGS_OFFSET, ATTACHMENT_OFFSET,
    SECTION4_OFFSET, REGISTRY_GENERATION_OFFSET, CONTEXT_GENERATION_OFFSET,
    SETTINGS_GENERATION_OFFSET, ATTACHMENTS_GENERATION_OFFSET, PRODUCER_READY_OFFSET,
    RING_COUNT_OFFSET, RINGS_OFFSET, RING_SIZE, RING_GENERATION_OFFSET,
    SCREENSHOT_GENERATIONS_OFFSET, SCREENSHOT_TIMESTAMPS_OFFSET, SCREENSHOT_TIERS_OFFSET,
    SCREENSHOT_DATA_OFFSET, HEARTBEAT_OFFSET, CONTEXT_SIZE, SETTINGS_SIZE, ATTACHMENTS_SIZE,
    SCREENSHOT_BYTES_PER_SLOT, SCREENSHOT_SLOTS, CRUMB_MAX_THREADS, CRUMB_RING_CAPACITY in *.

(** ** Lemmas *)

Lemma layout_assertions_hold : layout_assertions = true.
Proof. vm_compute. reflexivity. Qed.

Lemma words_from_0 : words_from 0 LIVE_ATOMIC_WORDS = true.
Proof. vm_compute. reflexivity. Qed.

Lemma words_from_mono c c' ws : c' ≤ c → words_from c ws = true → words_from c' ws = true.
Proof.
  destruct ws as [|w ws]; simpl; rewrite ?andb_true_iff, ?bool_decide_eq_true; [lia|].
  intros ? [[[? ?] ?] ?]. split_and!; try done. lia.
Qed.

(** Every word belongs to one of the places the schema publishes. *)
Lemma elem_of_words (w : LiveAtomicWord) :
  w ∈ LIVE_ATOMIC_WORDS →
  w = WordU32 REGISTRY_GENERATION_OFFSET ∨ w = WordU32 CONTEXT_GENERATION_OFFSET ∨
  w = WordU32 SETTINGS_GENERATION_OFFSET ∨ w = WordU32 ATTACHMENTS_GENERATION_OFFSET ∨
  w = WordU32 PRODUCER_READY_OFFSET ∨
  (∃ i, 0 ≤ i < CRUMB_MAX_THREADS ∧
        w = WordU32 (RINGS_OFFSET + i * RING_SIZE + RING_GENERATION_OFFSET)) ∨
  w = WordU32 RING_COUNT_OFFSET ∨ w = WordU64 HEARTBEAT_OFFSET ∨
  (∃ i, 0 ≤ i < SCREENSHOT_SLOTS ∧ w = WordU32 (SCREENSHOT_GENERATIONS_OFFSET + i * 4)).
Proof.
  unfold LIVE_ATOMIC_WORDS. rewrite !elem_of_app, !list_elem_of_fmap. setoid_rewrite elem_of_seqZ.
  rewrite !elem_of_cons, elem_of_nil.
  intros [H|[(i & -> & Hi)|[H|(i & -> & Hi)]]].
  - tauto.
  - do 5 right. left. exists i. split; [lia|done].
  - tauto.
  - do 8 right. exists i. split; [lia|done].
Qed.

Lemma section_enabled_spec p a :
  section_enabled p a = true ↔
  (SECTION1_OFFSET ≤ a < SECTION2_OFFSET) ∨ (FOOTER_OFFSET ≤ a < SHM_TOTAL_SIZE) ∨
  (breadcrumbs p = true ∧ SECTION2_OFFSET ≤ a < CONTEXT_OFFSET) ∨
  (context p = true ∧ CONTEXT_OFFSET ≤ a < ATTACHMENT_OFFSET) ∨
  (attachments p = true ∧ ATTACHMENT_OFFSET ≤ a < SECTION4_OFFSET) ∨
  (screenshots p = true ∧ SECTION4_OFFSET ≤ a < FOOTER_OFFSET).
Proof.
  unfold section_enabled, selected_sections, in_range. simpl.
  rewrite !orb_true_iff, !andb_true_iff, !bool_decide_eq_true. unfold_layout.
  split; intros H; naive_solver lia.
Qed.

(** An atomic word is read only when the policy lets its section out. *)
Lemma allows_atomic_enabled p w :
  w ∈ LIVE_ATOMIC_WORDS → allows_atomic p (word_offset w) = true →
  ∀ a, word_offset w ≤ a < word_offset w + word_width w → section_enabled p a = true.
Proof.
  intros Hw Hallow a Ha. apply section_enabled_spec.
  apply elem_of_words in Hw. unfold allows_atomic, in_range in Hallow. unfold_layout.
  destruct Hw as [->|[->|[->|[->|[->|[(i & Hi & ->)|[->|[->|(i & Hi & ->)]]]]]]]];
    simpl in *; try lia.
  - repeat (rewrite bool_decide_eq_false_2 in Hallow by lia). simpl in Hallow.
    rewrite bool_decide_eq_true_2 in Hallow by lia. right. right. left. split; [done|lia].
  - right; right; left; split; [done|lia].
  - do 3 right. left. split; [done|lia].
  - repeat (rewrite bool_decide_eq_false_2 in Hallow by lia). simpl in Hallow.
    rewrite bool_decide_eq_true_2 in Hallow by lia. do 5 right. split; [done|lia].
Qed.
