(* ===== verification/ShmSnapshot.v ===== *)
(** * Owned snapshots of the live shared memory (src/shm/reader.rs)

    The monitor copies the policy-authorized sections of a live mapping, which
    a producer may be writing at the same time, into an owned buffer, and
    sanitizes every publication unit whose seqlock generation was odd or
    changed during the copy.

    The live mapping is an environment: [obs t a] is the byte the monitor sees
    at address [a] in its [t]-th access, and [clock t] the instant it reads in
    its [t]-th access. Nothing relates two accesses, so every interleaving with
    the producer is covered. Byte buffers are functions with a length, compared
    pointwise ([buffer_equiv]). *)

From S2P Require Import Prelude ShmLayout.

(** ** Byte buffers *)

Record buffer := mkBuffer { buf_len : Z; buf_at : Z → Z }.

(** Equal length and equal bytes. *)
#[export] Instance buffer_equiv : Equiv buffer := λ b1 b2,
  buf_len b1 = buf_len b2 ∧ ∀ a, buf_at b1 a = buf_at b2 a.

(** The [n] bytes at [off]. *)
Definition read_bytes (f : Z → Z) (off n : Z) : list Z := f <$> seqZ off n.

(** Native-endian integers on the supported target (little endian). *)
Fixpoint from_ne_bytes (l : list Z) : Z :=
  match l with [] => 0 | b :: l => b + 256 * from_ne_bytes l end.

Fixpoint to_ne_bytes (n : nat) (z : Z) : list Z :=
  match n with O => [] | S n => z `mod` 256 :: to_ne_bytes n (z / 256) end.

(** [bytes[offset..offset + encoded.len()].copy_from_slice(&encoded)] *)
Definition store_bytes (b : buffer) (off : Z) (l : list Z) : buffer :=
  mkBuffer (buf_len b) (λ a,
    if decide (off ≤ a < off + Z.of_nat (length l)) then nth (Z.to_nat (a - off)) l 0 else buf_at b a).

(** [bytes.get(off..off + len)]: in range or nothing. *)
Definition get_range (b : buffer) (off len : Z) : option (list Z) :=
  if decide (off + len ≤ buf_len b) then Some (read_bytes (buf_at b) off len) else None.

Definition zero_owned_range (b : buffer) (off len : Z) : buffer :=
  match usize_checked_add off len with
  | None => b
  | Some e =>
      if decide (e ≤ buf_len b) then
        mkBuffer (buf_len b) (λ a, if decide (off ≤ a < e) then 0 else buf_at b a)
      else b
  end.

Definition write_owned_u32 (b : buffer) (off v : Z) : buffer :=
  match usize_checked_add off 4 with
  | None => b
  | Some e => if decide (e ≤ buf_len b) then store_bytes b off (to_ne_bytes 4 v) else b
  end.

Definition write_owned_u64 (b : buffer) (off v : Z) : buffer :=
  match usize_checked_add off 8 with
  | None => b
  | Some e => if decide (e ≤ buf_len b) then store_bytes b off (to_ne_bytes 8 v) else b
  end.

Definition indexed_offset (base index stride : Z) : option Z :=
  i ← usize_checked_mul index stride; usize_checked_add base i.

(** ** Errors *)

Inductive ShmValidationError : Type :=
| MappingTooSmall (mapped required : Z)
| MisalignedMapping (address required : Z)
| InvalidMagic (found : Z)
| UnsupportedVersion (found : Z)
| InvalidCanary (found : Z)
| InvalidSnapshotLength (found minimum maximum : Z).

Inductive ShmSnapshotError : Type :=
| Validation (e : ShmValidationError)
| DeadlineExceeded
| AllocationFailed (requested : Z).

Inductive ShmConsistencyIssue : Type :=
| IssueBreadcrumbRegistry (generation_before generation_after ring_count_before ring_count_after : Z)
| IssueBreadcrumbRing (index generation_before generation_after : Z)
| IssueContext (generation_before generation_after : Z)
| IssueSettings (generation_before generation_after : Z)
| IssueAttachments (generation_before generation_after : Z)
| IssueScreenshotSlot (index generation_before generation_after : Z).

(** ** The live environment and its monad *)

Record live := mkLive {
  map_addr : Z;            (* base address of the mapping *)
  map_len : Z;             (* length of the mapping *)
  alloc_ok : bool;         (* whether the owned destination can be allocated *)
  obs : nat → Z → Z;       (* the byte seen at an address in an access *)
  clock : nat → Z          (* the instant read in an access *)
}.

(** A computation over the live mapping: it counts its accesses and may fail. *)
Definition liveM (A : Type) : Type := live → nat → result ShmSnapshotError A * nat.

#[export] Instance liveM_ret : MRet liveM := λ A a L t, (Ok a, t).
#[export] Instance liveM_bind : MBind liveM := λ A B f m L t,
  match m L t with
  | (Ok a, t') => f a L t'
  | (Err e, t') => (Err e, t')
  end.

Definition fail {A : Type} (e : ShmSnapshotError) : liveM A := λ L t, (Err e, t).
Definition lift {A : Type} (r : result ShmValidationError A) : liveM A :=
  λ L t, (map_err Validation r, t).
Definition ask : liveM live := λ L t, (Ok L, t).
Definition now : liveM Z := λ L t, (Ok (clock L t), S t).

(** [deadline.is_some_and(|deadline| Instant::now() >= deadline)] *)
Definition deadline_passed (deadline : option Z) : liveM bool :=
  match deadline with
  | None => mret false
  | Some d => n ← now; mret (bool_decide (d ≤ n))
  end.

Definition check_snapshot_deadline (deadline : option Z) : liveM unit :=
  late ← deadline_passed deadline;
  if late : bool then fail DeadlineExceeded else mret tt.

Definition validate_mapping_shape (address mapped : Z) : result ShmValidationError unit :=
  if decide (mapped < SHM_TOTAL_SIZE) then Err (MappingTooSmall mapped SHM_TOTAL_SIZE)
  else if decide (address `mod` REGION_ALIGN = 0) then Ok tt
  else Err (MisalignedMapping address REGION_ALIGN).

(** [load_atomic_u32_at], [load_atomic_u64_at]: one access each; [None] without
    an access when the word is outside the mapping or misaligned. *)
Definition load_atomic_at (width offset : Z) : liveM (option Z) := λ L t,
  match usize_checked_add offset width with
  | None => (Ok None, t)
  | Some e =>
      if decide (map_len L < e) then (Ok None, t)
      else if decide (offset `mod` width = 0) then
        (Ok (Some (from_ne_bytes (read_bytes (obs L t) offset width))), S t)
      else (Ok None, t)
  end.

Definition load_atomic_u32_at : Z → liveM (option Z) := load_atomic_at 4.
Definition load_atomic_u64_at : Z → liveM (option Z) := load_atomic_at 8.

(** [unwrap_or_default] *)
Definition or_default (o : option Z) : Z := default 0 o.

(** One [ptr::copy_nonoverlapping] of the chunk [copied, copied + len). *)
Definition copy_chunk (b : buffer) (copied len : Z) : liveM buffer := λ L t,
  (Ok (mkBuffer (buf_len b)
         (λ a, if decide (copied ≤ a < copied + len) then obs L t a else buf_at b a)), S t).

(** The chunk loop of [copy_non_atomic_range]; [fuel] bounds the number of
    chunks, [copy_fuel] is enough. *)
Fixpoint copy_loop (fuel : nat) (b : buffer) (copied end_ : Z) (deadline : option Z) : liveM buffer :=
  match fuel with
  | O => mret b
  | S fuel =>
      if decide (copied < end_) then
        _ ← check_snapshot_deadline deadline;
        let chunk_len := Z.min (end_ - copied) SNAPSHOT_COPY_CHUNK_SIZE in
        b ← copy_chunk b copied chunk_len;
        copy_loop fuel b (copied + chunk_len) end_ deadline
      else mret b
  end.

Definition copy_fuel (start end_ : Z) : nat :=
  S (Z.to_nat ((end_ - start) / SNAPSHOT_COPY_CHUNK_SIZE + 1)).

Definition copy_non_atomic_range (b : buffer) (start end_ : Z) (deadline : option Z) : liveM buffer :=
  copy_loop (copy_fuel start end_) b start end_ deadline.

Fixpoint copy_sections (sections : list (Z * Z * bool)) (b : buffer) (start end_ : Z)
    (deadline : option Z) : liveM buffer :=
  match sections with
  | [] => mret b
  | (section_start, section_end, enabled) :: rest =>
      if negb enabled then copy_sections rest b start end_ deadline
      else
        let copy_start := Z.max start section_start in
        let copy_end := Z.min end_ section_end in
        b ← (if decide (copy_start < copy_end)
             then copy_non_atomic_range b copy_start copy_end deadline else mret b);
        copy_sections rest b start end_ deadline
  end.

Definition copy_selected_non_atomic_range (b : buffer) (start end_ : Z) (deadline : option Z)
    (policy : ShmSnapshotPolicy) : liveM buffer :=
  copy_sections (selected_sections policy) b start end_ deadline.

Definition copy_atomic_word (b : buffer) (w : LiveAtomicWord) : liveM buffer :=
  match w with
  | WordU32 o => v ← load_atomic_u32_at o; mret (store_bytes b o (to_ne_bytes 4 (or_default v)))
  | WordU64 o => v ← load_atomic_u64_at o; mret (store_bytes b o (to_ne_bytes 8 (or_default v)))
  end.

(** ** Publication state *)

Record LivePublicationState := mkPublications {
  registry_generation : Z;
  ring_count : Z;
  ring_generations : list Z;
  context_generation : Z;
  settings_generation : Z;
  attachments_generation : Z;
  producer_ready : Z;
  screenshot_generations : list Z
}.

Fixpoint load_each (offsets : list (option Z)) : liveM (list Z) :=
  match offsets with
  | [] => mret []
  | o :: rest =>
      v ← (match o with Some o => x ← load_atomic_u32_at o; mret (or_default x) | None => mret 0 end);
      vs ← load_each rest;
      mret (v :: vs)
  end.

Definition ring_offset (i : Z) : option Z := indexed_offset RINGS_OFFSET i RING_SIZE.
Definition ring_generation_offset (i : Z) : option Z :=
  r ← ring_offset i; usize_checked_add r RING_GENERATION_OFFSET.
Definition screenshot_generation_offset (i : Z) : option Z :=
  indexed_offset SCREENSHOT_GENERATIONS_OFFSET i 4.

Definition load_u32_if (enabled : bool) (offset : Z) : liveM Z :=
  if enabled then v ← load_atomic_u32_at offset; mret (or_default v) else mret 0.

Definition load_publication_state (policy : ShmSnapshotPolicy) : liveM LivePublicationState :=
  rings ← (if breadcrumbs policy then load_each (ring_generation_offset <$> seqZ 0 CRUMB_MAX_THREADS)
           else mret (replicate (Z.to_nat CRUMB_MAX_THREADS) 0));
  shots ← (if screenshots policy then load_each (screenshot_generation_offset <$> seqZ 0 SCREENSHOT_SLOTS)
           else mret (replicate (Z.to_nat SCREENSHOT_SLOTS) 0));
  registry ← load_u32_if (breadcrumbs policy) REGISTRY_GENERATION_OFFSET;
  count ← load_u32_if (breadcrumbs policy) RING_COUNT_OFFSET;
  ctx ← load_u32_if (context policy) CONTEXT_GENERATION_OFFSET;
  settings ← load_u32_if (context policy) SETTINGS_GENERATION_OFFSET;
  atts ← load_u32_if (attachments policy) ATTACHMENTS_GENERATION_OFFSET;
  ready ← load_atomic_u32_at PRODUCER_READY_OFFSET;
  mret {| registry_generation := registry; ring_count := count; ring_generations := rings;
          context_generation := ctx; settings_generation := settings;
          attachments_generation := atts;
          producer_ready := default SHM_PRODUCER_NOT_READY ready;
          screenshot_generations := shots |}.

(** ** Sanitizing *)

Definition stable_generation (before after : Z) : bool :=
  bool_decide (before = after) && bool_decide (before `mod` 2 = 0).

(** [array[index]] *)
Definition at_index (l : list Z) (i : Z) : Z := nth (Z.to_nat i) l 0.

Definition sanitize_ring (before after : LivePublicationState)
    (acc : buffer * list ShmConsistencyIssue) (index : Z) : buffer * list ShmConsistencyIssue :=
  let '(b, issues) := acc in
  let generation_before := at_index (ring_generations before) index in
  let generation_after := at_index (ring_generations after) index in
  match ring_offset index with
  | None => (b, issues)
  | Some ring_offset =>
      if stable_generation generation_before generation_after then
        match usize_checked_add ring_offset RING_GENERATION_OFFSET with
        | Some generation_offset => (write_owned_u32 b generation_offset generation_after, issues)
        | None => (b, issues)
        end
      else
        (zero_owned_range b ring_offset RING_SIZE,
         issues ++ [IssueBreadcrumbRing index generation_before generation_after])
  end.

Definition registry_is_stable (before after : LivePublicationState) : bool :=
  stable_generation (registry_generation before) (registry_generation after)
  && bool_decide (ring_count before = ring_count after).

Definition sanitize_breadcrumbs (b : buffer) (before after : LivePublicationState)
    (issues : list ShmConsistencyIssue) : buffer * list ShmConsistencyIssue :=
  if registry_is_stable before after then
    let b := write_owned_u32 b RING_COUNT_OFFSET (ring_count after) in
    foldl (sanitize_ring before after) (b, issues) (seqZ 0 CRUMB_MAX_THREADS)
  else
    (zero_owned_range b SECTION2_OFFSET SECTION2_SIZE,
     issues ++ [IssueBreadcrumbRegistry (registry_generation before) (registry_generation after)
                  (ring_count before) (ring_count after)]).

Definition sanitize_context_settings_attachments (b : buffer) (before after : LivePublicationState)
    (policy : ShmSnapshotPolicy) (issues : list ShmConsistencyIssue)
    : buffer * list ShmConsistencyIssue :=
  let '(b, issues) :=
    if context policy && negb (stable_generation (context_generation before) (context_generation after))
    then (zero_owned_range b CONTEXT_OFFSET CONTEXT_SIZE,
          issues ++ [IssueContext (context_generation before) (context_generation after)])
    else (b, issues) in
  let '(b, issues) :=
    if context policy && negb (stable_generation (settings_generation before) (settings_generation after))
    then (zero_owned_range b SETTINGS_OFFSET SETTINGS_SIZE,
          issues ++ [IssueSettings (settings_generation before) (settings_generation after)])
    else (b, issues) in
  if attachments policy
     && negb (stable_generation (attachments_generation before) (attachments_generation after))
  then (zero_owned_range b ATTACHMENT_OFFSET ATTACHMENTS_SIZE,
        issues ++ [IssueAttachments (attachments_generation before) (attachments_generation after)])
  else (b, issues).

Definition zero_if (b : buffer) (off : option Z) (len : Z) : buffer :=
  match off with Some off => zero_owned_range b off len | None => b end.

Definition sanitize_screenshot (before after : LivePublicationState)
    (acc : buffer * list ShmConsistencyIssue) (index : Z) : buffer * list ShmConsistencyIssue :=
  let '(b, issues) := acc in
  let generation_before := at_index (screenshot_generations before) index in
  let generation_after := at_index (screenshot_generations after) index in
  match screenshot_generation_offset index with
  | None => (b, issues)
  | Some generation_offset =>
      if stable_generation generation_before generation_after then
        (write_owned_u32 b generation_offset generation_after, issues)
      else
        let b := write_owned_u32 b generation_offset 0 in
        let b := zero_if b (indexed_offset SCREENSHOT_TIMESTAMPS_OFFSET index 8) 8 in
        let b := zero_if b (indexed_offset SCREENSHOT_TIERS_OFFSET index 4) 4 in
        let b := zero_if b (indexed_offset SCREENSHOT_DATA_OFFSET index SCREENSHOT_BYTES_PER_SLOT)
                   SCREENSHOT_BYTES_PER_SLOT in
        (b, issues ++ [IssueScreenshotSlot index generation_before generation_after])
  end.

Fixpoint sanitize_screenshots (indexes : list Z) (before after : LivePublicationState)
    (acc : buffer * list ShmConsistencyIssue) (deadline : option Z)
    : liveM (buffer * list ShmConsistencyIssue) :=
  match indexes with
  | [] => _ ← check_snapshot_deadline deadline; mret acc
  | index :: rest =>
      _ ← check_snapshot_deadline deadline;
      sanitize_screenshots rest before after (sanitize_screenshot before after acc index) deadline
  end.

Definition publish_header (b : buffer) (after : LivePublicationState) (policy : ShmSnapshotPolicy)
    : buffer :=
  let b := if breadcrumbs policy
           then write_owned_u32 b REGISTRY_GENERATION_OFFSET (registry_generation after) else b in
  let b := if context policy
           then write_owned_u32
                  (write_owned_u32 b CONTEXT_GENERATION_OFFSET (context_generation after))
                  SETTINGS_GENERATION_OFFSET (settings_generation after)
           else b in
  let b := if attachments policy
           then write_owned_u32 b ATTACHMENTS_GENERATION_OFFSET (attachments_generation after) else b in
  write_owned_u32 b PRODUCER_READY_OFFSET (producer_ready after).

Definition sanitize_publications (b : buffer) (before after : LivePublicationState)
    (heartbeat : Z) (deadline : option Z) (policy : ShmSnapshotPolicy)
    : liveM (buffer * list ShmConsistencyIssue) :=
  let b := publish_header b after policy in
  acc ← (if breadcrumbs policy
         then _ ← check_snapshot_deadline deadline; mret (sanitize_breadcrumbs b before after [])
         else mret (b, []));
  _ ← check_snapshot_deadline deadline;
  let acc := sanitize_context_settings_attachments acc.1 before after policy acc.2 in
  acc ← (if screenshots policy
         then _ ← check_snapshot_deadline deadline;
              sanitize_screenshots (seqZ 0 SCREENSHOT_SLOTS) before after acc deadline
         else mret acc);
  mret (if context policy then (write_owned_u64 acc.1 HEARTBEAT_OFFSET heartbeat, acc.2) else acc).

(** ** Owned snapshots *)

Record OwnedShmSnapshot := mkSnapshot {
  bytes : buffer;
  payload_len : Z;
  consistency_issues : list ShmConsistencyIssue
}.

(** [range]: a checked view of the payload. *)
Definition range (s : OwnedShmSnapshot) (offset len : Z) : option (list Z) :=
  e ← usize_checked_add offset len;
  if decide (payload_len s < e) then None else get_range (bytes s) offset len.

Definition read_uint (width : Z) (s : OwnedShmSnapshot) (offset : Z) : option Z :=
  from_ne_bytes <$> range s offset width.

Definition read_u8 := read_uint 1.
Definition read_u16 := read_uint 2.
Definition read_u32 := read_uint 4.
Definition read_u64 := read_uint 8.

Definition validate (s : OwnedShmSnapshot) : result ShmValidationError unit :=
  if negb (bool_decide (MIN_VARIABLE_SNAPSHOT_SIZE ≤ buf_len (bytes s) ≤ SHM_TOTAL_SIZE)) then
    Err (InvalidSnapshotLength (buf_len (bytes s)) MIN_VARIABLE_SNAPSHOT_SIZE SHM_TOTAL_SIZE)
  else
    let magic := or_default (read_u32 s SECTION1_OFFSET) in
    if negb (bool_decide (magic = SHM_MAGIC)) then Err (InvalidMagic magic) else
    let version := or_default (read_u32 s (SECTION1_OFFSET + 4)) in
    if negb (bool_decide (version = SHM_VERSION)) then Err (UnsupportedVersion version) else
    let canary := or_default (from_ne_bytes <$> get_range (bytes s) (payload_len s) 4) in
    if negb (bool_decide (canary = SHM_CANARY)) then Err (InvalidCanary canary) else Ok tt.

Definition from_owned_bytes (b : buffer) (issues : list ShmConsistencyIssue)
    : result ShmValidationError OwnedShmSnapshot :=
  let payload_len :=
    if decide (buf_len b = SHM_TOTAL_SIZE) then FOOTER_OFFSET
    else Z.max 0 (buf_len b - 4) in
  let snapshot := mkSnapshot b payload_len issues in
  _ ← validate snapshot; Ok snapshot.

(** The word-by-word copy loop. *)
Fixpoint copy_words (words : list LiveAtomicWord) (b : buffer) (cursor : Z) (deadline : option Z)
    (policy : ShmSnapshotPolicy) : liveM (buffer * Z) :=
  match words with
  | [] => mret (b, cursor)
  | word :: rest =>
      b ← copy_selected_non_atomic_range b cursor (word_offset word) deadline policy;
      _ ← check_snapshot_deadline deadline;
      b ← (if allows_atomic policy (word_offset word) then copy_atomic_word b word else mret b);
      copy_words rest b (word_offset word + word_width word) deadline policy
  end.

Definition copy_payload (deadline : option Z) (policy : ShmSnapshotPolicy) : liveM buffer :=
  '(b, cursor) ← copy_words LIVE_ATOMIC_WORDS (mkBuffer SHM_TOTAL_SIZE (λ _, 0)) 0 deadline policy;
  copy_selected_non_atomic_range b cursor SHM_TOTAL_SIZE deadline policy.

Definition snapshot_owned_until_with_policy (deadline : option Z) (policy : ShmSnapshotPolicy)
    : liveM OwnedShmSnapshot :=
  L ← ask;
  _ ← lift (validate_mapping_shape (map_addr L) (map_len L));
  _ ← check_snapshot_deadline deadline;
  _ ← (if alloc_ok L then mret tt else fail (AllocationFailed SHM_TOTAL_SIZE));
  publication_before ← load_publication_state policy;
  b ← copy_payload deadline policy;
  publication_after ← load_publication_state policy;
  heartbeat ← (if context policy
               then v ← load_atomic_u64_at HEARTBEAT_OFFSET; mret (or_default v) else mret 0);
  _ ← check_snapshot_deadline deadline;
  '(b, issues) ← sanitize_publications b publication_before publication_after heartbeat deadline policy;
  snapshot ← lift (from_owned_bytes b issues);
  _ ← check_snapshot_deadline deadline;
  mret snapshot.

Definition snapshot_owned_until (deadline : option Z) : liveM OwnedShmSnapshot :=
  snapshot_owned_until_with_policy deadline POLICY_ALL.

(** The watchdog's live read: readiness first, then the heartbeat. *)
Definition read_live_anr_heartbeat : liveM (option Z) :=
  ready ← load_atomic_u32_at PRODUCER_READY_OFFSET;
  match ready with
  | None => mret None
  | Some r => if decide (r = SHM_PRODUCER_READY) then load_atomic_u64_at HEARTBEAT_OFFSET else mret None
  end.
