(* ===== verification/ShmFacts.v ===== *)
(** * What a snapshot of the live shared memory contains

    A partial-correctness calculus for the monad of ShmSnapshot, then, phase by
    phase, the contents of the owned buffer in terms of the live accesses: the
    copy, the publication words, the sanitized units. *)

From S2P Require Import Prelude ShmLayout ShmSnapshot.

(** ** Bytes and integers *)

Definition bytes_ok (f : Z → Z) : Prop := ∀ a, 0 ≤ f a < 256.

(** The word a single atomic access at [off] sees. *)
Definition word_at (f : Z → Z) (off width : Z) : Z := from_ne_bytes (read_bytes f off width).

Lemma length_to_ne_bytes n z : length (to_ne_bytes n z) = n.
Proof. revert z. induction n; simpl; auto. Qed.

Lemma to_from_ne_bytes l :
  Forall (λ b, 0 ≤ b < 256) l → to_ne_bytes (length l) (from_ne_bytes l) = l.
Proof.
  induction 1 as [|b l Hb _ IH]; [done|]. simpl.
  by rewrite (Z.mul_comm 256), Z_mod_plus_full, Z.div_add, (Z.mod_small b), (Z.div_small b),
    Z.add_0_l, IH by lia.
Qed.

Lemma from_to_ne_bytes n z : from_ne_bytes (to_ne_bytes n z) = z `mod` 256 ^ Z.of_nat n.
Proof.
  revert z. induction n as [|n IH]; intros z; [by rewrite Z.mod_1_r|].
  cbn [to_ne_bytes from_ne_bytes]. rewrite IH, Nat2Z.inj_succ, Z.pow_succ_r by lia.
  rewrite Z.rem_mul_r by lia. lia.
Qed.

Lemma from_ne_bytes_range l :
  Forall (λ b, 0 ≤ b < 256) l → 0 ≤ from_ne_bytes l < 256 ^ Z.of_nat (length l).
Proof.
  induction 1 as [|b l Hb _ IH]; [simpl; lia|].
  cbn [from_ne_bytes length]. rewrite Nat2Z.inj_succ, Z.pow_succ_r by lia. lia.
Qed.

Lemma length_read_bytes f off n : length (read_bytes f off n) = Z.to_nat n.
Proof. unfold read_bytes. by rewrite length_fmap, length_seqZ. Qed.

Lemma read_bytes_ok f off n : bytes_ok f → Forall (λ b, 0 ≤ b < 256) (read_bytes f off n).
Proof. intros Hf. unfold read_bytes. rewrite Forall_fmap. apply Forall_true. intros; apply Hf. Qed.

Lemma nth_read_bytes f off n i d :
  0 ≤ i < n → nth (Z.to_nat i) (read_bytes f off n) d = f (off + i).
Proof.
  intros Hi. apply nth_lookup_Some. unfold read_bytes. rewrite list_lookup_fmap.
  rewrite lookup_seqZ_lt by lia. simpl. f_equal. f_equal. lia.
Qed.

Lemma read_bytes_ext f g off n :
  (∀ a, off ≤ a < off + n → f a = g a) → read_bytes f off n = read_bytes g off n.
Proof.
  intros H. unfold read_bytes. apply list_fmap_ext. intros i x Hx.
  apply lookup_seqZ in Hx. apply H. lia.
Qed.

Lemma to_ne_word f off n :
  bytes_ok f → to_ne_bytes n (word_at f off (Z.of_nat n)) = read_bytes f off (Z.of_nat n).
Proof.
  intros Hf. pose proof (to_from_ne_bytes _ (read_bytes_ok f off (Z.of_nat n) Hf)) as H.
  by rewrite length_read_bytes, Nat2Z.id in H.
Qed.

(** ** Partial correctness *)

Definition wp {A : Type} (L : live) (t : nat) (m : liveM A)
    (Q : A → nat → Prop) (E : ShmSnapshotError → Prop) : Prop :=
  match m L t with
  | (Ok a, t') => (t ≤ t')%nat ∧ Q a t'
  | (Err e, _) => E e
  end.

Lemma wp_ret {A} L t (a : A) (Q : A → nat → Prop) E : Q a t → wp L t (mret a) Q E.
Proof. unfold wp. simpl. auto. Qed.

Lemma wp_bind {A B} L t (m : liveM A) (f : A → liveM B) Q R E :
  wp L t m R E → (∀ a t', (t ≤ t')%nat → R a t' → wp L t' (f a) Q E) → wp L t (m ≫= f) Q E.
Proof.
  unfold wp, mbind, liveM_bind. destruct (m L t) as [[a|e] t']; [|done].
  intros [Hle Ha] Hf. specialize (Hf a t' Hle Ha).
  destruct (f a L t') as [[b|e'] t'']; [|done]. destruct Hf. split; [lia|done].
Qed.

Lemma wp_conseq {A} L t (m : liveM A) (Q R : A → nat → Prop) (E F : ShmSnapshotError → Prop) :
  wp L t m R F → (∀ a t', (t ≤ t')%nat → R a t' → Q a t') → (∀ e, F e → E e) → wp L t m Q E.
Proof. unfold wp. destruct (m L t) as [[a|e] t']; naive_solver. Qed.

Lemma wp_ask L t (Q : live → nat → Prop) E : Q L t → wp L t ask Q E.
Proof. unfold wp. simpl. auto. Qed.

Lemma wp_lift {A} L t (r : result ShmValidationError A) (Q : A → nat → Prop) E :
  (∀ a, r = Ok a → Q a t) → (∀ e, r = Err e → E (Validation e)) → wp L t (lift r) Q E.
Proof. unfold wp, lift. destruct r; simpl; auto. Qed.

(** The only error a deadline check can produce needs a deadline. *)
Definition deadline_error (deadline : option Z) (e : ShmSnapshotError) : Prop :=
  e = DeadlineExceeded ∧ deadline ≠ None.

Lemma wp_check L t deadline : wp L t (check_snapshot_deadline deadline) (λ _ _, True) (deadline_error deadline).
Proof.
  unfold wp, check_snapshot_deadline, deadline_passed, deadline_error.
  destruct deadline as [d|]; simpl; [|split; [lia|done]].
  unfold mbind, liveM_bind, now, mret, liveM_ret. simpl.
  destruct (bool_decide (d ≤ clock L t)); simpl; [done | split; [lia|done]].
Qed.

(** ** The copy *)

(** Between the accesses [t] and [t'], the bytes of [b] selected by [S] were
    overwritten with bytes seen live; the others are untouched. *)
Definition copied_over (L : live) (t t' : nat) (b b' : buffer) (S : Z → bool) : Prop :=
  buf_len b' = buf_len b ∧
  ∀ a, if S a then ∃ s, (t ≤ s < t')%nat ∧ buf_at b' a = obs L s a else buf_at b' a = buf_at b a.

Lemma copied_over_refl L t t' b S : (∀ a, S a = false) → copied_over L t t' b b S.
Proof. intros H. split; [done|]. intros a. by rewrite H. Qed.

Lemma copied_over_weaken L t1 t1' t2 t2' b b' S S' :
  copied_over L t1 t2 b b' S → (t1' ≤ t1)%nat → (t2 ≤ t2')%nat → (∀ a, S a = S' a) →
  copied_over L t1' t2' b b' S'.
Proof.
  intros [Hl H] H1 H2 HS. split; [done|]. intros a. specialize (H a). rewrite <- HS.
  destruct (S a); [|done]. destruct H as (s & Hs & ->). exists s. split; [lia|done].
Qed.

Lemma copied_over_trans L t1 t2 t3 b0 b1 b2 S1 S2 S :
  copied_over L t1 t2 b0 b1 S1 → copied_over L t2 t3 b1 b2 S2 → (t1 ≤ t2 ≤ t3)%nat →
  (∀ a, S a = S1 a || S2 a) → copied_over L t1 t3 b0 b2 S.
Proof.
  intros [Hl1 H1] [Hl2 H2] Ht HS. split; [congruence|]. intros a.
  specialize (H1 a). specialize (H2 a). rewrite HS.
  destruct (S2 a).
  - rewrite orb_true_r. destruct H2 as (s & Hs & ->). exists s. split; [lia|done].
  - rewrite orb_false_r, H2. destruct (S1 a); [|done].
    destruct H1 as (s & Hs & ->). exists s. split; [lia|done].
Qed.

Lemma in_range_true lo hi a : in_range lo hi a = true ↔ lo ≤ a < hi.
Proof. apply bool_decide_eq_true. Qed.

Lemma in_range_false lo hi a : in_range lo hi a = false ↔ a < lo ∨ hi ≤ a.
Proof. unfold in_range. rewrite bool_decide_eq_false. lia. Qed.

(** Evaluate the range tests that arithmetic decides. *)
Ltac decide_ranges :=
  repeat match goal with
  | |- context [in_range ?lo ?hi ?a] =>
      first [ rewrite (proj2 (in_range_true lo hi a)) by lia
            | rewrite (proj2 (in_range_false lo hi a)) by lia ]
  end.

(** Equality of two selections of addresses, by arithmetic. *)
Ltac solve_selection :=
  intros; apply eq_true_iff_eq;
  rewrite ?orb_true_iff, ?andb_true_iff, ?orb_true_iff, ?negb_true_iff, ?in_range_true;
  repeat match goal with
    |- context [existsb ?f ?l = true] => generalize (existsb f l = true); intros
  end; try (intuition lia).

Lemma wp_copy_chunk L t b copied len E :
  wp L t (copy_chunk b copied len)
    (λ b' t', copied_over L t t' b b' (in_range copied (copied + len))) E.
Proof.
  unfold wp, copy_chunk. split; [lia|]. split; [done|]. intros a. simpl.
  destruct (in_range copied (copied + len) a) eqn:Ha.
  - apply in_range_true in Ha. rewrite decide_True by done. exists t. split; [lia|done].
  - apply bool_decide_eq_false in Ha. by rewrite decide_False.
Qed.

Lemma wp_copy_loop fuel L t b copied end_ deadline :
  end_ - copied ≤ Z.of_nat fuel * SNAPSHOT_COPY_CHUNK_SIZE →
  wp L t (copy_loop fuel b copied end_ deadline)
    (λ b' t', copied_over L t t' b b' (in_range copied end_)) (deadline_error deadline).
Proof.
  revert t b copied. induction fuel as [|fuel IH]; intros t b copied Hfuel; simpl.
  - apply wp_ret, copied_over_refl. intros a. apply bool_decide_eq_false. lia.
  - case_decide; [|apply wp_ret, copied_over_refl; intros a; apply bool_decide_eq_false; lia].
    eapply wp_bind; [apply wp_check|]. intros _ t1 Ht1 _.
    eapply wp_bind; [apply wp_copy_chunk|]. intros b1 t2 Ht2 Hb1.
    unfold SNAPSHOT_COPY_CHUNK_SIZE in *.
    eapply wp_conseq; [apply IH; lia| |done].
    intros b2 t3 Ht3 Hb2.
    eapply copied_over_weaken with (S := in_range copied end_);
      [eapply copied_over_trans; [exact Hb1|exact Hb2|lia|]|done..].
    solve_selection.
Qed.

Lemma wp_copy_non_atomic_range L t b start end_ deadline :
  wp L t (copy_non_atomic_range b start end_ deadline)
    (λ b' t', copied_over L t t' b b' (in_range start end_)) (deadline_error deadline).
Proof.
  apply wp_copy_loop. unfold copy_fuel.
  pose proof (Z.div_mod (end_ - start) SNAPSHOT_COPY_CHUNK_SIZE).
  pose proof (Z.mod_pos_bound (end_ - start) SNAPSHOT_COPY_CHUNK_SIZE).
  unfold SNAPSHOT_COPY_CHUNK_SIZE in *. lia.
Qed.

Lemma wp_copy_sections sections L t b start end_ deadline :
  wp L t (copy_sections sections b start end_ deadline)
    (λ b' t', copied_over L t t' b b'
      (λ a, in_range start end_ a && existsb (λ '(lo, hi, on), on && in_range lo hi a) sections))
    (deadline_error deadline).
Proof.
  revert t b. induction sections as [|[[lo hi] on] rest IH]; intros t b; simpl.
  - apply wp_ret, copied_over_refl. intros a. apply andb_false_r.
  - destruct on; simpl; [|apply IH].
    eapply wp_bind with (R := λ b' t', copied_over L t t' b b'
      (in_range (Z.max start lo) (Z.min end_ hi))).
    { case_decide; [apply wp_copy_non_atomic_range|].
      apply wp_ret, copied_over_refl. intros a. apply bool_decide_eq_false. lia. }
    intros b1 t1 Ht1 Hb1. eapply wp_conseq; [apply IH| |done].
    intros b2 t2 Ht2 Hb2. eapply copied_over_trans; [exact Hb1|exact Hb2|lia|].
    solve_selection.
Qed.

Lemma wp_copy_selected L t b start end_ deadline p :
  wp L t (copy_selected_non_atomic_range b start end_ deadline p)
    (λ b' t', copied_over L t t' b b' (λ a, in_range start end_ a && section_enabled p a))
    (deadline_error deadline).
Proof. apply wp_copy_sections. Qed.

Definition word_bytes (w : LiveAtomicWord) : Z → bool :=
  in_range (word_offset w) (word_offset w + word_width w).

(** The bytes of [lo, hi) the policy lets out: its sections less the atomic
    words it withholds. *)
Definition authorized_in (p : ShmSnapshotPolicy) (ws : list LiveAtomicWord) (lo hi a : Z) : bool :=
  in_range lo hi a && section_enabled p a &&
  negb (existsb (λ w, word_bytes w a && negb (allows_atomic p (word_offset w))) ws).

Lemma authorized_in_cons p w ws lo hi a :
  authorized_in p (w :: ws) lo hi a =
    in_range lo hi a && section_enabled p a &&
    negb (word_bytes w a && negb (allows_atomic p (word_offset w)) ||
          existsb (λ w, word_bytes w a && negb (allows_atomic p (word_offset w))) ws).
Proof. done. Qed.

Definition authorized (p : ShmSnapshotPolicy) : Z → bool :=
  authorized_in p LIVE_ATOMIC_WORDS 0 SHM_TOTAL_SIZE.

Lemma buf_at_store b off l a :
  buf_at (store_bytes b off l) a =
    if in_range off (off + Z.of_nat (length l)) a then nth (Z.to_nat (a - off)) l 0 else buf_at b a.
Proof.
  simpl. unfold in_range. destruct (decide (off ≤ a < off + Z.of_nat (length l))).
  - by rewrite bool_decide_eq_true_2.
  - by rewrite bool_decide_eq_false_2.
Qed.

(** What the monitor needs of the environment: the whole region is mapped and
    memory holds bytes. *)
Definition mapped_ok (L : live) : Prop :=
  SHM_TOTAL_SIZE ≤ map_len L ∧ ∀ t, bytes_ok (obs L t).

Section Copy.
Context (L : live) (HL : mapped_ok L).

Lemma wp_load_atomic t width off E :
  off + width ≤ SHM_TOTAL_SIZE → off `mod` width = 0 →
  wp L t (load_atomic_at width off)
    (λ o t', t' = S t ∧ o = Some (word_at (obs L t) off width)) E.
Proof.
  intros Hb Ha. destruct HL as [Hlen _]. unfold wp, load_atomic_at, usize_checked_add, USIZE_MAX.
  unfold SHM_TOTAL_SIZE in *. rewrite decide_True by lia.
  rewrite decide_False by lia. rewrite decide_True by done. split; [lia|done].
Qed.

Lemma store_word_copies t b off n v :
  v = word_at (obs L t) off (Z.of_nat n) →
  copied_over L t (S t) b (store_bytes b off (to_ne_bytes n v)) (in_range off (off + Z.of_nat n)).
Proof.
  intros ->. split; [done|]. intros a. rewrite buf_at_store, length_to_ne_bytes.
  destruct (in_range off (off + Z.of_nat n) a) eqn:Ha; [|done].
  exists t. split; [lia|]. apply in_range_true in Ha.
  destruct HL as [_ Hbytes].
  rewrite to_ne_word by done. rewrite nth_read_bytes by lia. f_equal. lia.
Qed.

Lemma wp_copy_atomic_word t b w E :
  word_offset w + word_width w ≤ SHM_TOTAL_SIZE → word_offset w `mod` word_width w = 0 →
  wp L t (copy_atomic_word b w) (λ b' t', copied_over L t t' b b' (word_bytes w)) E.
Proof.
  intros Hb Ha. destruct w as [o|o]; cbn [copy_atomic_word word_offset word_width] in *;
    (eapply wp_bind; [by apply wp_load_atomic|]);
    intros v t' _ [-> ->]; apply wp_ret; [apply (store_word_copies t b o 4)|apply (store_word_copies t b o 8)];
    done.
Qed.

(** Within the list, an address below the next word is in no later word. *)
Lemma words_from_before ws c a (f : LiveAtomicWord → bool) :
  words_from c ws = true → a < c → existsb (λ w, word_bytes w a && f w) ws = false.
Proof.
  revert c. induction ws as [|w ws IH]; intros c; simpl; [done|].
  rewrite !andb_true_iff, !bool_decide_eq_true. intros [[[Hc Hw] _] Hrest] Ha.
  rewrite (IH _ Hrest); [|destruct w; simpl in *; lia].
  rewrite orb_false_r. apply andb_false_intro1, bool_decide_eq_false. lia.
Qed.

Lemma words_from_total ws c : words_from c ws = true → c ≤ SHM_TOTAL_SIZE.
Proof.
  revert c. induction ws as [|w ws IH]; intros c; simpl; [apply bool_decide_eq_true|].
  rewrite !andb_true_iff, !bool_decide_eq_true. intros [[[Hc Hw] _] Hrest].
  destruct w; simpl in *; lia.
Qed.

(** The end of the last word, where the source's loop leaves its cursor. *)
Fixpoint words_end (cursor : Z) (ws : list LiveAtomicWord) : Z :=
  match ws with [] => cursor | w :: ws => words_end (word_offset w + word_width w) ws end.

Lemma words_end_bounds c ws : words_from c ws = true → c ≤ words_end c ws ≤ SHM_TOTAL_SIZE.
Proof.
  revert c. induction ws as [|w ws IH]; intros c; simpl; [rewrite bool_decide_eq_true; lia|].
  rewrite !andb_true_iff, !bool_decide_eq_true. intros [[[Hc Hw] _] Hrest].
  specialize (IH _ Hrest). destruct w; simpl in *; lia.
Qed.

(** An address past the last word is in no word. *)
Lemma words_from_after ws c a (f : LiveAtomicWord → bool) :
  words_from c ws = true → words_end c ws ≤ a → existsb (λ w, word_bytes w a && f w) ws = false.
Proof.
  revert c. induction ws as [|w ws IH]; intros c; simpl; [done|].
  rewrite !andb_true_iff, !bool_decide_eq_true. intros [[[Hc Hw] _] Hrest] Ha.
  rewrite (IH _ Hrest) by done. pose proof (words_end_bounds _ _ Hrest).
  rewrite orb_false_r. apply andb_false_intro1, bool_decide_eq_false. lia.
Qed.

Lemma existsb_past_end a (f : LiveAtomicWord → bool) :
  words_end 0 LIVE_ATOMIC_WORDS ≤ a →
  existsb (λ w, word_bytes w a && f w) LIVE_ATOMIC_WORDS = false.
Proof. apply words_from_after, words_from_0. Qed.

Lemma wp_copy_words ws t b c deadline p :
  (∀ w, w ∈ ws → w ∈ LIVE_ATOMIC_WORDS) → words_from c ws = true →
  wp L t (copy_words ws b c deadline p)
    (λ r t', r.2 = words_end c ws ∧
             copied_over L t t' b r.1 (authorized_in p ws c (words_end c ws)))
    (deadline_error deadline).
Proof.
  revert t b c. induction ws as [|w ws IH]; intros t b c Hin Hws; cbn [copy_words words_end].
  { apply wp_ret. split; [done|]. apply copied_over_refl. intros a. unfold authorized_in.
    rewrite !andb_false_iff. left; left. apply bool_decide_eq_false. lia. }
  pose proof Hws as Hws'. cbn [words_from] in Hws.
  rewrite !andb_true_iff, !bool_decide_eq_true in Hws. destruct Hws as [[[Hc Hw] Hal] Hrest].
  eapply wp_bind; [apply wp_copy_selected|]. intros b1 t1 Ht1 Hb1. cbn beta in Hb1.
  eapply wp_bind; [apply wp_check|]. intros _ t2 Ht2 _.
  eapply wp_bind with (R := λ b2 t3, copied_over L t2 t3 b1 b2
    (λ a, word_bytes w a && allows_atomic p (word_offset w))).
  { destruct (allows_atomic p (word_offset w)).
    - eapply wp_conseq; [by apply wp_copy_atomic_word| |done].
      intros b2 t3 _ H. eapply copied_over_weaken; [exact H|lia|lia|].
      intros a. by rewrite andb_true_r.
    - apply wp_ret, copied_over_refl. intros a. apply andb_false_r. }
  intros b2 t3 Ht3 Hb2.
  eapply wp_conseq; [apply IH; [set_solver|done]| |done].
  intros [b3 c3] t4 Ht4 [-> Hb3]. split; [done|]. cbn [fst snd] in *.
  pose proof (words_end_bounds _ _ Hrest) as Hend.
  assert (Hwidth : 0 < word_width w) by (destruct w; simpl; lia).
  assert (Hen := allows_atomic_enabled p w (Hin w (list_elem_of_here _ _))).
  eapply copied_over_trans; [exact Hb1| |lia|].
  { eapply copied_over_weaken;
      [eapply copied_over_trans; [exact Hb2|exact Hb3|lia|reflexivity]|lia..|reflexivity]. }
  intros a.
  rewrite authorized_in_cons. unfold authorized_in, word_bytes.
  destruct (decide (a < word_offset w)); [|destruct (decide (a < word_offset w + word_width w))].
  - rewrite (words_from_before _ _ a _ Hrest) by lia. decide_ranges. simpl.
    by destruct (in_range c _ a) eqn:Hca, (in_range c (word_offset w) a) eqn:Hca';
      rewrite ?in_range_true, ?in_range_false in *; try lia; destruct (section_enabled p a).
  - rewrite (words_from_before _ _ a _ Hrest) by lia. decide_ranges. simpl.
    destruct (allows_atomic p (word_offset w)); simpl; [|by rewrite andb_false_r].
    by rewrite Hen by (try done; lia).
  - decide_ranges. simpl.
    destruct (in_range c _ a) eqn:Hca;
      destruct (in_range (word_offset w + word_width w) (words_end _ ws) a) eqn:Hca';
      rewrite ?in_range_true, ?in_range_false in *; try lia; done.
Qed.

Lemma wp_copy_payload t deadline p :
  wp L t (copy_payload deadline p)
    (λ b t', buf_len b = SHM_TOTAL_SIZE ∧
       copied_over L t t' (mkBuffer SHM_TOTAL_SIZE (λ _, 0)) b (authorized p))
    (deadline_error deadline).
Proof.
  unfold copy_payload. eapply wp_bind; [apply wp_copy_words; [done|apply words_from_0]|].
  intros [b c] t1 Ht1 [Hc Hb]. cbn [fst snd] in *. subst c.
  eapply wp_conseq; [apply wp_copy_selected| |done]. intros b2 t2 Ht2 Hb2. cbn beta in Hb2.
  pose proof (words_end_bounds _ _ words_from_0) as Hend.
  assert (Hall : copied_over L t t2 (mkBuffer SHM_TOTAL_SIZE (λ _, 0)) b2 (authorized p)).
  { eapply copied_over_trans; [exact Hb|exact Hb2|lia|]. intros a.
    unfold authorized, authorized_in. set (E := words_end 0 LIVE_ATOMIC_WORDS) in *.
    destruct (decide (a < E)) as [Hlt|Hge];
      [|rewrite existsb_past_end by (unfold E in Hge; lia)];
      destruct (in_range 0 SHM_TOTAL_SIZE a) eqn:H1, (in_range 0 E a) eqn:H2,
        (in_range E SHM_TOTAL_SIZE a) eqn:H3; rewrite ?in_range_true, ?in_range_false in *; try lia;
      simpl; by rewrite ?orb_false_r, ?andb_true_r. }
  split; [by destruct Hall|done].
Qed.

End Copy.
