(* ===== verification/ShmPublication.v ===== *)
(** * Publication units of the shared memory

    The seqlock-protected units of the schema, what the monitor knows about
    each after sanitizing a copy, and the theorems on the whole snapshot: a
    consistent cut of every unit, the privacy of the sections a policy leaves
    out, and the exact result over a mapping nobody writes. *)

From S2P Require Import Prelude ShmLayout ShmSnapshot ShmFacts.
From Stdlib Require Import FunctionalExtensionality.

(** ** Units *)

Inductive punit : Type :=
| UContext | USettings | UAttachments
| URing (index : Z)
| UShot (index : Z).

Definition unit_ok (u : punit) : Prop :=
  match u with
  | URing i => 0 ≤ i < CRUMB_MAX_THREADS
  | UShot i => 0 ≤ i < SCREENSHOT_SLOTS
  | _ => True
  end.

Definition unit_enabled (p : ShmSnapshotPolicy) (u : punit) : bool :=
  match u with
  | UContext | USettings => context p
  | UAttachments => attachments p
  | URing _ => breadcrumbs p
  | UShot _ => screenshots p
  end.

Definition generation_offset (u : punit) : Z :=
  match u with
  | UContext => CONTEXT_GENERATION_OFFSET
  | USettings => SETTINGS_GENERATION_OFFSET
  | UAttachments => ATTACHMENTS_GENERATION_OFFSET
  | URing i => RINGS_OFFSET + i * RING_SIZE + RING_GENERATION_OFFSET
  | UShot i => SCREENSHOT_GENERATIONS_OFFSET + i * 4
  end.

Definition generation_of (pub : LivePublicationState) (u : punit) : Z :=
  match u with
  | UContext => context_generation pub
  | USettings => settings_generation pub
  | UAttachments => attachments_generation pub
  | URing i => at_index (ring_generations pub) i
  | UShot i => at_index (screenshot_generations pub) i
  end.

(** The bytes the generation of a unit protects. The heartbeat and the
    generation words themselves are single atomic words. *)
Definition unit_payload (u : punit) (a : Z) : Prop :=
  match u with
  | UContext => HEARTBEAT_OFFSET + 8 ≤ a < CONTEXT_OFFSET + CONTEXT_SIZE
  | USettings => SETTINGS_OFFSET ≤ a < SETTINGS_OFFSET + SETTINGS_SIZE
  | UAttachments => ATTACHMENT_OFFSET ≤ a < ATTACHMENT_OFFSET + ATTACHMENTS_SIZE
  | URing i => RINGS_OFFSET + i * RING_SIZE ≤ a < RINGS_OFFSET + i * RING_SIZE + RING_GENERATION_OFFSET
  | UShot i =>
      SCREENSHOT_TIMESTAMPS_OFFSET + i * 8 ≤ a < SCREENSHOT_TIMESTAMPS_OFFSET + i * 8 + 8 ∨
      SCREENSHOT_TIERS_OFFSET + i * 4 ≤ a < SCREENSHOT_TIERS_OFFSET + i * 4 + 4 ∨
      SCREENSHOT_DATA_OFFSET + i * SCREENSHOT_BYTES_PER_SLOT ≤ a
        < SCREENSHOT_DATA_OFFSET + i * SCREENSHOT_BYTES_PER_SLOT + SCREENSHOT_BYTES_PER_SLOT
  end.

(** Whether the two readings let the copied unit through. *)
Definition unit_accepted (before after : LivePublicationState) (u : punit) : bool :=
  stable_generation (generation_of before u) (generation_of after u) &&
  match u with URing _ => registry_is_stable before after | _ => true end.

(** Whether an issue reports the unit. *)
Definition issue_covers (u : punit) (i : ShmConsistencyIssue) : Prop :=
  match u, i with
  | UContext, IssueContext _ _ | USettings, IssueSettings _ _
  | UAttachments, IssueAttachments _ _ | URing _, IssueBreadcrumbRegistry _ _ _ _ => True
  | URing j, IssueBreadcrumbRing k _ _ | UShot j, IssueScreenshotSlot k _ _ => j = k
  | _, _ => False
  end.

(** ** Writing and clearing owned bytes *)

Lemma buf_len_zero b off len : buf_len (zero_owned_range b off len) = buf_len b.
Proof. unfold zero_owned_range. by repeat case_match. Qed.

Lemma buf_len_write32 b off v : buf_len (write_owned_u32 b off v) = buf_len b.
Proof. unfold write_owned_u32. by repeat case_match. Qed.

Lemma buf_len_write64 b off v : buf_len (write_owned_u64 b off v) = buf_len b.
Proof. unfold write_owned_u64. by repeat case_match. Qed.

(** A buffer of the whole region. *)
Definition full (b : buffer) : Prop := buf_len b = SHM_TOTAL_SIZE.

Lemma full_zero b off len : full b → full (zero_owned_range b off len).
Proof. unfold full. by rewrite buf_len_zero. Qed.
Lemma full_write32 b off v : full b → full (write_owned_u32 b off v).
Proof. unfold full. by rewrite buf_len_write32. Qed.
Lemma full_write64 b off v : full b → full (write_owned_u64 b off v).
Proof. unfold full. by rewrite buf_len_write64. Qed.

Lemma full_if (c : bool) b1 b2 : full b1 → full b2 → full (if c then b1 else b2).
Proof. by destruct c. Qed.

Lemma buf_at_if (c : bool) b1 b2 a :
  buf_at (if c then b1 else b2) a = if c then buf_at b1 a else buf_at b2 a.
Proof. by destruct c. Qed.

Lemma if_same {A : Type} (c : bool) (x : A) : (if c then x else x) = x.
Proof. by destruct c. Qed.

#[export] Hint Resolve full_zero full_write32 full_write64 full_if : cm.

(** The bytes of a buffer under one clear or write inside the region. *)
Lemma buf_at_zero b off len a :
  full b → off + len ≤ SHM_TOTAL_SIZE →
  buf_at (zero_owned_range b off len) a = if in_range off (off + len) a then 0 else buf_at b a.
Proof.
  unfold full. intros Hf Hb. unfold zero_owned_range, usize_checked_add, USIZE_MAX.
  rewrite !decide_True by (unfold SHM_TOTAL_SIZE in *; lia). simpl. unfold in_range.
  destruct (decide (off ≤ a < off + len)).
  - by rewrite bool_decide_eq_true_2.
  - by rewrite bool_decide_eq_false_2.
Qed.

Lemma buf_at_write32 b off v a :
  full b → off + 4 ≤ SHM_TOTAL_SIZE →
  buf_at (write_owned_u32 b off v) a =
    if in_range off (off + 4) a then nth (Z.to_nat (a - off)) (to_ne_bytes 4 v) 0 else buf_at b a.
Proof.
  unfold full. intros Hf Hb. unfold write_owned_u32, usize_checked_add, USIZE_MAX.
  rewrite !decide_True by (unfold SHM_TOTAL_SIZE in *; lia). by rewrite buf_at_store, length_to_ne_bytes.
Qed.

Lemma buf_at_write64 b off v a :
  full b → off + 8 ≤ SHM_TOTAL_SIZE →
  buf_at (write_owned_u64 b off v) a =
    if in_range off (off + 8) a then nth (Z.to_nat (a - off)) (to_ne_bytes 8 v) 0 else buf_at b a.
Proof.
  unfold full. intros Hf Hb. unfold write_owned_u64, usize_checked_add, USIZE_MAX.
  rewrite !decide_True by (unfold SHM_TOTAL_SIZE in *; lia). by rewrite buf_at_store, length_to_ne_bytes.
Qed.

Lemma indexed_offset_eq base i stride :
  0 ≤ i → i * stride ≤ USIZE_MAX → base + i * stride ≤ USIZE_MAX →
  indexed_offset base i stride = Some (base + i * stride).
Proof.
  intros. unfold indexed_offset, usize_checked_mul, usize_checked_add.
  rewrite decide_True by lia. simpl. by rewrite decide_True by lia.
Qed.

(** Reduce the bytes of a buffer under writes and clears at known offsets,
    then decide every range test arithmetic can. *)
Ltac buf_simpl :=
  repeat match goal with
  | |- context [buf_at (zero_owned_range ?b ?o ?l) ?a] =>
      rewrite (buf_at_zero b o l a) by (first [by eauto 12 with cm | unfold_layout; lia])
  | |- context [buf_at (write_owned_u32 ?b ?o ?v) ?a] =>
      rewrite (buf_at_write32 b o v a) by (first [by eauto 12 with cm | unfold_layout; lia])
  | |- context [buf_at (write_owned_u64 ?b ?o ?v) ?a] =>
      rewrite (buf_at_write64 b o v a) by (first [by eauto 12 with cm | unfold_layout; lia])
  end; unfold_layout; decide_ranges.

(** ** Offsets of the indexed units *)

Lemma ring_offset_eq i : 0 ≤ i < CRUMB_MAX_THREADS → ring_offset i = Some (RINGS_OFFSET + i * RING_SIZE).
Proof. intros. apply indexed_offset_eq; unfold USIZE_MAX; unfold_layout; lia. Qed.

Lemma ring_generation_offset_eq i :
  0 ≤ i < CRUMB_MAX_THREADS → ring_generation_offset i = Some (generation_offset (URing i)).
Proof.
  intros Hi. unfold ring_generation_offset. rewrite ring_offset_eq by done. simpl.
  unfold usize_checked_add, USIZE_MAX. by rewrite decide_True by (unfold_layout; lia).
Qed.

Lemma screenshot_generation_offset_eq i :
  0 ≤ i < SCREENSHOT_SLOTS → screenshot_generation_offset i = Some (generation_offset (UShot i)).
Proof. intros. apply indexed_offset_eq; unfold USIZE_MAX; unfold_layout; lia. Qed.

(** ** Sanitizing the rings *)

Definition ring_issue (before after : LivePublicationState) (i : Z) : list ShmConsistencyIssue :=
  if stable_generation (at_index (ring_generations before) i) (at_index (ring_generations after) i)
  then [] else [IssueBreadcrumbRing i (at_index (ring_generations before) i)
                  (at_index (ring_generations after) i)].

Definition shot_issue (before after : LivePublicationState) (i : Z) : list ShmConsistencyIssue :=
  if stable_generation (at_index (screenshot_generations before) i)
       (at_index (screenshot_generations after) i)
  then [] else [IssueScreenshotSlot i (at_index (screenshot_generations before) i)
                  (at_index (screenshot_generations after) i)].

Section Sanitize.
Context (before after : LivePublicationState).

Lemma sanitize_ring_eq b iss i :
  0 ≤ i < CRUMB_MAX_THREADS →
  sanitize_ring before after (b, iss) i =
    (if stable_generation (at_index (ring_generations before) i) (at_index (ring_generations after) i)
     then write_owned_u32 b (generation_offset (URing i)) (at_index (ring_generations after) i)
     else zero_owned_range b (RINGS_OFFSET + i * RING_SIZE) RING_SIZE,
     iss ++ ring_issue before after i).
Proof.
  intros Hi. unfold sanitize_ring, ring_issue. rewrite ring_offset_eq by done.
  destruct (stable_generation _ _); [|done]. rewrite app_nil_r.
  unfold usize_checked_add, USIZE_MAX. by rewrite decide_True by (unfold_layout; lia).
Qed.

Definition all_rings (idx : list Z) : Prop := Forall (λ i, 0 ≤ i < CRUMB_MAX_THREADS) idx.

Lemma sanitize_rings_full idx b iss :
  all_rings idx → full b → full (foldl (sanitize_ring before after) (b, iss) idx).1.
Proof.
  intros His. revert b iss. induction His as [|i idx Hi _ IH]; intros b iss Hb; [done|].
  cbn [foldl]. rewrite sanitize_ring_eq by done. apply IH.
  auto with cm.
Qed.

Lemma sanitize_rings_issues idx b iss :
  all_rings idx →
  (foldl (sanitize_ring before after) (b, iss) idx).2 = iss ++ flat_map (ring_issue before after) idx.
Proof.
  intros His. revert b iss. induction His as [|i idx Hi _ IH]; intros b iss; cbn [foldl flat_map].
  - by rewrite app_nil_r.
  - rewrite sanitize_ring_eq by done. by rewrite IH, <- app_assoc.
Qed.

Lemma sanitize_rings_payload idx b iss j a :
  all_rings idx → full b → 0 ≤ j < CRUMB_MAX_THREADS → unit_payload (URing j) a →
  buf_at (foldl (sanitize_ring before after) (b, iss) idx).1 a =
    if bool_decide (j ∈ idx) &&
       negb (stable_generation (at_index (ring_generations before) j)
               (at_index (ring_generations after) j))
    then 0 else buf_at b a.
Proof.
  intros His Hb Hj Ha. revert b iss Hb. simpl in Ha.
  induction His as [|i idx Hi _ IH]; intros b iss Hb; [done|].
  cbn [foldl]. rewrite sanitize_ring_eq by done. rewrite IH by auto with cm.
  destruct (decide (j = i)) as [->|Hne].
  - rewrite (bool_decide_eq_true_2 (i ∈ i :: idx)) by set_solver.
    unfold generation_offset. destruct (stable_generation _ _); cbn [negb andb].
    + rewrite andb_false_r. by buf_simpl.
    + rewrite andb_true_r. destruct (bool_decide _); [done|]. by buf_simpl.
  - assert (bool_decide (j ∈ i :: idx) = bool_decide (j ∈ idx)) as -> by
      (apply bool_decide_ext; set_solver).
    case_match; [done|]. rewrite buf_at_if. unfold generation_offset. buf_simpl. apply if_same.
Qed.

Lemma sanitize_rings_frame idx b iss a :
  all_rings idx → full b → ¬ (SECTION2_OFFSET ≤ a < SECTION2_OFFSET + SECTION2_SIZE) →
  buf_at (foldl (sanitize_ring before after) (b, iss) idx).1 a = buf_at b a.
Proof.
  intros His Hb Ha. revert b iss Hb. induction His as [|i idx Hi _ IH]; intros b iss Hb; [done|].
  cbn [foldl]. rewrite sanitize_ring_eq by done. rewrite IH by auto with cm.
  rewrite buf_at_if. unfold generation_offset. buf_simpl. apply if_same.
Qed.

(** ** Sanitizing the screenshot slots *)

Definition clear_shot (b : buffer) (i : Z) : buffer :=
  zero_owned_range
    (zero_owned_range
      (zero_owned_range (write_owned_u32 b (generation_offset (UShot i)) 0)
        (SCREENSHOT_TIMESTAMPS_OFFSET + i * 8) 8)
      (SCREENSHOT_TIERS_OFFSET + i * 4) 4)
    (SCREENSHOT_DATA_OFFSET + i * SCREENSHOT_BYTES_PER_SLOT) SCREENSHOT_BYTES_PER_SLOT.

Lemma sanitize_screenshot_eq b iss i :
  0 ≤ i < SCREENSHOT_SLOTS →
  sanitize_screenshot before after (b, iss) i =
    (if stable_generation (at_index (screenshot_generations before) i)
          (at_index (screenshot_generations after) i)
     then write_owned_u32 b (generation_offset (UShot i)) (at_index (screenshot_generations after) i)
     else clear_shot b i,
     iss ++ shot_issue before after i).
Proof.
  intros Hi. unfold sanitize_screenshot, shot_issue.
  rewrite screenshot_generation_offset_eq by done.
  rewrite !indexed_offset_eq by (unfold USIZE_MAX; unfold_layout; lia).
  destruct (stable_generation _ _); [by rewrite app_nil_r|done].
Qed.

Definition all_shots (idx : list Z) : Prop := Forall (λ i, 0 ≤ i < SCREENSHOT_SLOTS) idx.

Lemma full_clear_shot b i : full b → full (clear_shot b i).
Proof. unfold clear_shot. auto 10 with cm. Qed.
#[local] Hint Resolve full_clear_shot : cm.

Lemma sanitize_shots_full idx b iss :
  all_shots idx → full b → full (foldl (sanitize_screenshot before after) (b, iss) idx).1.
Proof.
  intros His. revert b iss. induction His as [|i idx Hi _ IH]; intros b iss Hb; [done|].
  cbn [foldl]. rewrite sanitize_screenshot_eq by done. apply IH. auto with cm.
Qed.

Lemma sanitize_shots_issues idx b iss :
  all_shots idx →
  (foldl (sanitize_screenshot before after) (b, iss) idx).2 =
    iss ++ flat_map (shot_issue before after) idx.
Proof.
  intros His. revert b iss. induction His as [|i idx Hi _ IH]; intros b iss; cbn [foldl flat_map].
  - by rewrite app_nil_r.
  - rewrite sanitize_screenshot_eq by done. by rewrite IH, <- app_assoc.
Qed.

Lemma clear_shot_payload b i a :
  full b → 0 ≤ i < SCREENSHOT_SLOTS → unit_payload (UShot i) a → buf_at (clear_shot b i) a = 0.
Proof.
  intros Hb Hi Ha. simpl in Ha. unfold clear_shot, generation_offset.
  destruct Ha as [Ha|[Ha|Ha]]; by buf_simpl.
Qed.

Lemma clear_shot_frame b i a :
  full b → 0 ≤ i < SCREENSHOT_SLOTS → ¬ unit_payload (UShot i) a →
  ¬ (generation_offset (UShot i) ≤ a < generation_offset (UShot i) + 4) →
  buf_at (clear_shot b i) a = buf_at b a.
Proof.
  intros Hb Hi Ha Hg. unfold unit_payload in Ha. unfold generation_offset in Hg.
  unfold clear_shot, generation_offset. by buf_simpl.
Qed.

Lemma sanitize_shots_payload idx b iss j a :
  all_shots idx → full b → 0 ≤ j < SCREENSHOT_SLOTS → unit_payload (UShot j) a →
  buf_at (foldl (sanitize_screenshot before after) (b, iss) idx).1 a =
    if bool_decide (j ∈ idx) &&
       negb (stable_generation (at_index (screenshot_generations before) j)
               (at_index (screenshot_generations after) j))
    then 0 else buf_at b a.
Proof.
  intros His Hb Hj Ha. revert b iss Hb.
  induction His as [|i idx Hi _ IH]; intros b iss Hb; [done|].
  cbn [foldl]. rewrite sanitize_screenshot_eq by done. rewrite IH by auto with cm.
  assert (Hg : in_range (generation_offset (UShot i)) (generation_offset (UShot i) + 4) a = false).
  { apply in_range_false. simpl in Ha. unfold generation_offset. unfold_layout. lia. }
  destruct (decide (j = i)) as [->|Hne].
  - rewrite (bool_decide_eq_true_2 (i ∈ i :: idx)) by set_solver.
    destruct (stable_generation _ _); cbn [negb andb].
    + rewrite andb_false_r. rewrite buf_at_write32, Hg; [done|done|].
      unfold generation_offset. unfold_layout. lia.
    + rewrite andb_true_r. destruct (bool_decide _); [done|]. by apply clear_shot_payload.
  - assert (bool_decide (j ∈ i :: idx) = bool_decide (j ∈ idx)) as -> by
      (apply bool_decide_ext; set_solver).
    case_match; [done|]. rewrite buf_at_if, buf_at_write32, Hg, clear_shot_frame; [apply if_same|..];
      try done; [|by apply in_range_false in Hg; lia|unfold generation_offset; unfold_layout; lia].
    simpl in Ha |- *. clear Hg. unfold_layout. lia.
Qed.

Lemma sanitize_shots_frame idx b iss a :
  all_shots idx → full b → ¬ (SECTION4_OFFSET ≤ a < FOOTER_OFFSET) →
  buf_at (foldl (sanitize_screenshot before after) (b, iss) idx).1 a = buf_at b a.
Proof.
  intros His Hb Ha. revert b iss Hb. induction His as [|i idx Hi _ IH]; intros b iss Hb; [done|].
  cbn [foldl]. rewrite sanitize_screenshot_eq by done. rewrite IH by auto with cm.
  rewrite buf_at_if. unfold clear_shot, generation_offset. buf_simpl. apply if_same.
Qed.

(** ** The whole sanitizing pass as a function *)

Definition sanitized (b : buffer) (heartbeat : Z) (p : ShmSnapshotPolicy)
    : buffer * list ShmConsistencyIssue :=
  let b := publish_header b after p in
  let acc := if breadcrumbs p then sanitize_breadcrumbs b before after [] else (b, []) in
  let acc := sanitize_context_settings_attachments acc.1 before after p acc.2 in
  let acc := if screenshots p
             then foldl (sanitize_screenshot before after) acc (seqZ 0 SCREENSHOT_SLOTS) else acc in
  if context p then (write_owned_u64 acc.1 HEARTBEAT_OFFSET heartbeat, acc.2) else acc.

Lemma wp_sanitize_screenshots L t idx acc deadline :
  wp L t (sanitize_screenshots idx before after acc deadline)
    (λ acc' _, acc' = foldl (sanitize_screenshot before after) acc idx) (deadline_error deadline).
Proof.
  revert t acc. induction idx as [|i idx IH]; intros t acc; cbn [sanitize_screenshots foldl].
  - eapply wp_bind; [apply wp_check|]. intros. by apply wp_ret.
  - eapply wp_bind; [apply wp_check|]. intros. apply IH.
Qed.

Lemma wp_sanitize_publications L t b heartbeat deadline p :
  wp L t (sanitize_publications b before after heartbeat deadline p)
    (λ r _, r = sanitized b heartbeat p) (deadline_error deadline).
Proof.
  unfold sanitize_publications, sanitized.
  eapply wp_bind with (R := λ acc _, acc =
    if breadcrumbs p then sanitize_breadcrumbs (publish_header b after p) before after []
    else (publish_header b after p, [])).
  { destruct (breadcrumbs p); [|by apply wp_ret].
    eapply wp_bind; [apply wp_check|]. intros. by apply wp_ret. }
  intros acc t1 _ Hacc. eapply wp_bind; [apply wp_check|]. intros _ t2 _ _.
  eapply wp_bind with (R := λ acc' _, acc' =
    if screenshots p
    then foldl (sanitize_screenshot before after)
           (sanitize_context_settings_attachments acc.1 before after p acc.2) (seqZ 0 SCREENSHOT_SLOTS)
    else sanitize_context_settings_attachments acc.1 before after p acc.2).
  { destruct (screenshots p); [|by apply wp_ret].
    eapply wp_bind; [apply wp_check|]. intros. apply wp_sanitize_screenshots. }
  intros acc' t3 _ ->. rewrite <- Hacc. apply wp_ret. done.
Qed.

Lemma publish_header_full b p : full b → full (publish_header b after p).
Proof. intros. unfold publish_header. repeat case_match; auto 10 with cm. Qed.

Lemma publish_header_frame b p a :
  full b → ¬ (SECTION1_OFFSET ≤ a < SECTION1_OFFSET + SECTION1_SIZE) →
  buf_at (publish_header b after p) a = buf_at b a.
Proof.
  intros Hb Ha. unfold publish_header. destruct (breadcrumbs p), (context p), (attachments p);
    by buf_simpl.
Qed.

Lemma seqZ_rings : all_rings (seqZ 0 CRUMB_MAX_THREADS).
Proof. apply Forall_seqZ. lia. Qed.

Lemma seqZ_shots : all_shots (seqZ 0 SCREENSHOT_SLOTS).
Proof. apply Forall_seqZ. lia. Qed.

Lemma sanitize_breadcrumbs_full b iss : full b → full (sanitize_breadcrumbs b before after iss).1.
Proof.
  intros Hb. unfold sanitize_breadcrumbs. case_match; cbn [fst]; [|auto with cm].
  apply sanitize_rings_full; [apply seqZ_rings|auto with cm].
Qed.

Lemma sanitize_breadcrumbs_frame b iss a :
  full b → ¬ (SECTION2_OFFSET ≤ a < SECTION2_OFFSET + SECTION2_SIZE) →
  buf_at (sanitize_breadcrumbs b before after iss).1 a = buf_at b a.
Proof.
  intros Hb Ha. unfold sanitize_breadcrumbs. case_match; cbn [fst].
  - rewrite sanitize_rings_frame; [by buf_simpl|apply seqZ_rings|auto with cm|done].
  - by buf_simpl.
Qed.

Lemma sanitize_breadcrumbs_payload b iss j a :
  full b → 0 ≤ j < CRUMB_MAX_THREADS → unit_payload (URing j) a →
  buf_at (sanitize_breadcrumbs b before after iss).1 a =
    if unit_accepted before after (URing j) then buf_at b a else 0.
Proof.
  intros Hb Hj Ha. unfold sanitize_breadcrumbs, unit_accepted. cbn [generation_of].
  destruct (registry_is_stable before after); cbn [fst].
  - rewrite sanitize_rings_payload with (j := j);
      [|apply seqZ_rings|auto with cm|done|done].
    rewrite bool_decide_eq_true_2 by (apply elem_of_seqZ; lia). rewrite andb_true_r. simpl in Ha.
    destruct (stable_generation _ _); cbn [negb andb]; [by buf_simpl|done].
  - rewrite andb_false_r. simpl in Ha. by buf_simpl.
Qed.

(** The three single-generation sections are sanitized independently. *)
Definition clear_unless (b : buffer) (keep : bool) (off len : Z) : buffer :=
  if keep then b else zero_owned_range b off len.

Definition kept (p : ShmSnapshotPolicy) (u : punit) : bool :=
  negb (unit_enabled p u && negb (stable_generation (generation_of before u) (generation_of after u))).

Definition unit_issue (p : ShmSnapshotPolicy) (u : punit) : list ShmConsistencyIssue :=
  if kept p u then []
  else match u with
       | UContext => [IssueContext (context_generation before) (context_generation after)]
       | USettings => [IssueSettings (settings_generation before) (settings_generation after)]
       | UAttachments => [IssueAttachments (attachments_generation before) (attachments_generation after)]
       | URing i => ring_issue before after i
       | UShot i => shot_issue before after i
       end.

Lemma sanitize_sections_eq b p iss :
  sanitize_context_settings_attachments b before after p iss =
    (clear_unless
      (clear_unless
        (clear_unless b (kept p UContext) CONTEXT_OFFSET CONTEXT_SIZE)
        (kept p USettings) SETTINGS_OFFSET SETTINGS_SIZE)
      (kept p UAttachments) ATTACHMENT_OFFSET ATTACHMENTS_SIZE,
     iss ++ unit_issue p UContext ++ unit_issue p USettings ++ unit_issue p UAttachments).
Proof.
  unfold sanitize_context_settings_attachments, unit_issue, kept, clear_unless.
  cbn [unit_enabled generation_of].
  destruct (context p && negb (stable_generation (context_generation before) (context_generation after))),
    (context p && negb (stable_generation (settings_generation before) (settings_generation after))),
    (attachments p && negb (stable_generation (attachments_generation before) (attachments_generation after)));
    cbn [negb]; by rewrite ?app_nil_l, ?app_nil_r, <- ?app_assoc.
Qed.

Lemma full_clear_unless b k off len : full b → full (clear_unless b k off len).
Proof. unfold clear_unless. destruct k; auto with cm. Qed.
#[local] Hint Resolve full_clear_unless sanitize_breadcrumbs_full publish_header_full : cm.

Lemma buf_at_clear_unless b k off len a :
  full b → off + len ≤ SHM_TOTAL_SIZE →
  buf_at (clear_unless b k off len) a = if negb k && in_range off (off + len) a then 0 else buf_at b a.
Proof. intros. unfold clear_unless. destruct k; [done|]. by rewrite buf_at_zero. Qed.

(** The stages of [sanitized], named. *)
Definition stage_breadcrumbs (b : buffer) (p : ShmSnapshotPolicy) : buffer * list ShmConsistencyIssue :=
  if breadcrumbs p then sanitize_breadcrumbs b before after [] else (b, []).
Definition stage_shots (acc : buffer * list ShmConsistencyIssue) (p : ShmSnapshotPolicy)
    : buffer * list ShmConsistencyIssue :=
  if screenshots p then foldl (sanitize_screenshot before after) acc (seqZ 0 SCREENSHOT_SLOTS) else acc.
Definition stage_sections (acc : buffer * list ShmConsistencyIssue) (p : ShmSnapshotPolicy)
    : buffer * list ShmConsistencyIssue :=
  sanitize_context_settings_attachments acc.1 before after p acc.2.
Definition stage_heartbeat (acc : buffer * list ShmConsistencyIssue) (heartbeat : Z)
    (p : ShmSnapshotPolicy) : buffer * list ShmConsistencyIssue :=
  if context p then (write_owned_u64 acc.1 HEARTBEAT_OFFSET heartbeat, acc.2) else acc.

Lemma sanitized_stages b hb p :
  sanitized b hb p =
    stage_heartbeat (stage_shots (stage_sections (stage_breadcrumbs (publish_header b after p) p) p) p) hb p.
Proof. done. Qed.

Lemma stage_breadcrumbs_full b p : full b → full (stage_breadcrumbs b p).1.
Proof. unfold stage_breadcrumbs. destruct (breadcrumbs p); auto with cm. Qed.

Lemma stage_sections_full acc p : full acc.1 → full (stage_sections acc p).1.
Proof. unfold stage_sections. rewrite sanitize_sections_eq. cbn [fst]. auto with cm. Qed.

Lemma stage_shots_full acc p : full acc.1 → full (stage_shots acc p).1.
Proof.
  unfold stage_shots. destruct (screenshots p), acc; [|done].
  apply sanitize_shots_full, seqZ_shots.
Qed.
#[local] Hint Resolve stage_breadcrumbs_full stage_sections_full stage_shots_full : cm.

Lemma stage_breadcrumbs_frame b p a :
  full b → ¬ (breadcrumbs p = true ∧ SECTION2_OFFSET ≤ a < CONTEXT_OFFSET) →
  buf_at (stage_breadcrumbs b p).1 a = buf_at b a.
Proof.
  intros Hb Ha. unfold stage_breadcrumbs. destruct (breadcrumbs p); [|done].
  apply sanitize_breadcrumbs_frame; [done|]. unfold_layout. lia.
Qed.

Lemma stage_sections_frame acc p a :
  full acc.1 →
  ¬ (context p = true ∧ CONTEXT_OFFSET ≤ a < ATTACHMENT_OFFSET) →
  ¬ (attachments p = true ∧ ATTACHMENT_OFFSET ≤ a < SECTION4_OFFSET) →
  buf_at (stage_sections acc p).1 a = buf_at acc.1 a.
Proof.
  intros Hb H1 H2. unfold stage_sections. rewrite sanitize_sections_eq. cbn [fst].
  unfold kept. cbn [unit_enabled].
  rewrite !buf_at_clear_unless by (auto with cm; unfold_layout; lia).
  destruct (context p), (attachments p); cbn [negb andb]; unfold_layout; decide_ranges;
    by rewrite ?andb_false_r.
Qed.

Lemma stage_shots_frame acc p a :
  full acc.1 → ¬ (screenshots p = true ∧ SECTION4_OFFSET ≤ a < FOOTER_OFFSET) →
  buf_at (stage_shots acc p).1 a = buf_at acc.1 a.
Proof.
  intros Hb Ha. unfold stage_shots. destruct (screenshots p), acc as [b iss]; [|done].
  apply sanitize_shots_frame; [apply seqZ_shots|done|]. unfold_layout. lia.
Qed.

Lemma stage_heartbeat_frame acc hb p a :
  full acc.1 → ¬ (context p = true ∧ HEARTBEAT_OFFSET ≤ a < HEARTBEAT_OFFSET + 8) →
  buf_at (stage_heartbeat acc hb p).1 a = buf_at acc.1 a.
Proof.
  intros Hb Ha. unfold stage_heartbeat. destruct (context p); [|done]. cbn [fst]. by buf_simpl.
Qed.

Lemma stage_sections_payload acc p u a :
  full acc.1 → u = UContext ∨ u = USettings ∨ u = UAttachments →
  unit_enabled p u = true → unit_payload u a →
  buf_at (stage_sections acc p).1 a = if unit_accepted before after u then buf_at acc.1 a else 0.
Proof.
  intros Hb Hu Hen Ha. unfold stage_sections. rewrite sanitize_sections_eq. cbn [fst].
  rewrite !buf_at_clear_unless by (auto with cm; unfold_layout; lia).
  unfold kept, unit_accepted.
  destruct Hu as [-> | [-> | -> ]]; simpl in Ha; cbn [unit_enabled] in *; rewrite Hen; rewrite ?andb_true_r;
    unfold_layout; decide_ranges; rewrite ?andb_false_r, ?andb_true_r, ?andb_true_l;
    by destruct (stable_generation _ _).
Qed.

Lemma stage_shots_payload acc p i a :
  full acc.1 → 0 ≤ i < SCREENSHOT_SLOTS → screenshots p = true → unit_payload (UShot i) a →
  buf_at (stage_shots acc p).1 a = if unit_accepted before after (UShot i) then buf_at acc.1 a else 0.
Proof.
  intros Hb Hi Hen Ha. unfold stage_shots, unit_accepted. rewrite Hen, andb_true_r.
  destruct acc as [b iss]. rewrite sanitize_shots_payload with (j := i);
    [|apply seqZ_shots|done|done|done].
  rewrite bool_decide_eq_true_2 by (apply elem_of_seqZ; lia). cbn [generation_of].
  by destruct (stable_generation _ _).
Qed.

(** The payload of every enabled unit is the copied payload when the two
    readings of its generation accept it, and zero otherwise. *)
Lemma sanitized_payload b hb p u a :
  full b → unit_ok u → unit_enabled p u = true → unit_payload u a →
  buf_at (sanitized b hb p).1 a = if unit_accepted before after u then buf_at b a else 0.
Proof.
  intros Hb Hu Hen Ha. rewrite sanitized_stages.
  rewrite stage_heartbeat_frame by (auto 10 with cm; destruct u; simpl in *; unfold_layout; lia).
  assert (Hheader : buf_at (publish_header b after p) a = buf_at b a).
  { apply publish_header_frame; [done|]. destruct u; simpl in *; unfold_layout; lia. }
  destruct u as [| | |i|i]; cbn [unit_enabled unit_ok] in *.
  1-3: rewrite stage_shots_frame by (auto 10 with cm; simpl in *; unfold_layout; lia);
    match goal with |- context [unit_accepted _ _ ?u] =>
      rewrite (stage_sections_payload _ p u) by auto 10 with cm end;
    rewrite stage_breadcrumbs_frame by (auto 10 with cm; simpl in *; unfold_layout; lia);
    by rewrite Hheader.
  - rewrite stage_shots_frame by (auto 10 with cm; simpl in *; unfold_layout; lia).
    rewrite stage_sections_frame by (auto 10 with cm; simpl in *; unfold_layout; lia).
    unfold stage_breadcrumbs. rewrite Hen, (sanitize_breadcrumbs_payload _ _ i) by auto with cm.
    by rewrite Hheader.
  - rewrite (stage_shots_payload _ _ i) by auto 10 with cm.
    rewrite stage_sections_frame by (auto 10 with cm; simpl in *; unfold_layout; lia).
    rewrite stage_breadcrumbs_frame by (auto 10 with cm; simpl in *; unfold_layout; lia).
    by rewrite Hheader.
Qed.

(** ** The consistency issues *)

Definition breadcrumb_issues : list ShmConsistencyIssue :=
  if registry_is_stable before after then flat_map (ring_issue before after) (seqZ 0 CRUMB_MAX_THREADS)
  else [IssueBreadcrumbRegistry (registry_generation before) (registry_generation after)
          (ring_count before) (ring_count after)].

Definition expected_issues (p : ShmSnapshotPolicy) : list ShmConsistencyIssue :=
  (if breadcrumbs p then breadcrumb_issues else []) ++
  (unit_issue p UContext ++ unit_issue p USettings ++ unit_issue p UAttachments) ++
  (if screenshots p then flat_map (shot_issue before after) (seqZ 0 SCREENSHOT_SLOTS) else []).

Lemma sanitized_issues b hb p : (sanitized b hb p).2 = expected_issues p.
Proof.
  rewrite sanitized_stages. unfold stage_heartbeat, expected_issues.
  transitivity (stage_shots (stage_sections (stage_breadcrumbs (publish_header b after p) p) p) p).2;
    [by destruct (context p)|].
  assert (Hsec : (stage_sections (stage_breadcrumbs (publish_header b after p) p) p).2 =
    (if breadcrumbs p then breadcrumb_issues else []) ++
    (unit_issue p UContext ++ unit_issue p USettings ++ unit_issue p UAttachments)).
  { unfold stage_sections. rewrite sanitize_sections_eq. cbn [snd]. f_equal.
    unfold stage_breadcrumbs, sanitize_breadcrumbs, breadcrumb_issues.
    destruct (breadcrumbs p); [|done]. destruct (registry_is_stable before after); [|done].
    rewrite sanitize_rings_issues by apply seqZ_rings. done. }
  unfold stage_shots. destruct (screenshots p); [|by rewrite Hsec, app_nil_r].
  destruct (stage_sections _ _) as [b' iss]. cbn [snd] in Hsec.
  rewrite sanitize_shots_issues by apply seqZ_shots. by rewrite Hsec, <- app_assoc.
Qed.

Lemma elem_of_flat_map_intro {A B : Type} (f : A → list B) (x : A) (y : B) (l : list A) :
  x ∈ l → y ∈ f x → y ∈ flat_map f l.
Proof. rewrite !list_elem_of_In, in_flat_map. eauto. Qed.

(** A unit the readings do not accept is reported. *)
Lemma rejected_reported p u :
  unit_ok u → unit_enabled p u = true → unit_accepted before after u = false →
  ∃ i, i ∈ expected_issues p ∧ issue_covers u i.
Proof.
  unfold unit_accepted, expected_issues, unit_issue, kept. intros Hu Hen Hrej.
  repeat setoid_rewrite elem_of_app.
  destruct u as [ | | |i|i]; cbn [unit_enabled unit_ok generation_of] in *;
    rewrite ?andb_true_r in Hrej; rewrite Hen.
  - exists (IssueContext (context_generation before) (context_generation after)).
    rewrite Hrej. cbn [negb andb]. split; [right; left; left; by left|done].
  - exists (IssueSettings (settings_generation before) (settings_generation after)).
    rewrite Hrej. cbn [negb andb]. split; [right; left; right; left; by left|done].
  - exists (IssueAttachments (attachments_generation before) (attachments_generation after)).
    rewrite Hrej. cbn [negb andb]. split; [right; left; right; right; by left|done].
  - unfold breadcrumb_issues. destruct (registry_is_stable before after).
    + rewrite andb_true_r in Hrej. eexists (IssueBreadcrumbRing i _ _). split; [left|done].
      apply (elem_of_flat_map_intro _ i); [apply elem_of_seqZ; lia|].
      unfold ring_issue. rewrite Hrej. by left.
    + eexists (IssueBreadcrumbRegistry _ _ _ _). split; [left; by left|done].
  - eexists (IssueScreenshotSlot i _ _). split; [right; right|done].
    apply (elem_of_flat_map_intro _ i); [apply elem_of_seqZ; lia|].
    unfold shot_issue. rewrite Hrej. by left.
Qed.

(** ** What a policy withholds stays zero *)

Definition withheld_header (p : ShmSnapshotPolicy) (a : Z) : bool :=
  (in_range REGISTRY_GENERATION_OFFSET (REGISTRY_GENERATION_OFFSET + 4) a && negb (breadcrumbs p)) ||
  (in_range CONTEXT_GENERATION_OFFSET (CONTEXT_GENERATION_OFFSET + 4) a && negb (context p)) ||
  (in_range SETTINGS_GENERATION_OFFSET (SETTINGS_GENERATION_OFFSET + 4) a && negb (context p)) ||
  (in_range ATTACHMENTS_GENERATION_OFFSET (ATTACHMENTS_GENERATION_OFFSET + 4) a && negb (attachments p)).

Lemma authorized_header p a :
  SECTION1_OFFSET ≤ a < SECTION1_OFFSET + SECTION1_SIZE → authorized p a = negb (withheld_header p a).
Proof.
  intros Ha. unfold authorized, authorized_in.
  rewrite (proj2 (in_range_true 0 SHM_TOTAL_SIZE a)) by (unfold_layout; lia).
  rewrite (proj2 (section_enabled_spec p a)) by (left; unfold_layout; lia). cbn [andb].
  change LIVE_ATOMIC_WORDS with (firstn 5 LIVE_ATOMIC_WORDS ++ skipn 5 LIVE_ATOMIC_WORDS).
  rewrite existsb_app, (words_from_before (skipn 5 LIVE_ATOMIC_WORDS) (SECTION1_OFFSET + SECTION1_SIZE) a);
    [|by vm_compute|lia].
  rewrite orb_false_r. f_equal. unfold withheld_header.
  cbn [firstn LIVE_ATOMIC_WORDS app existsb]. unfold word_bytes. cbn [word_offset word_width].
  rewrite orb_false_r. unfold allows_atomic.
  rewrite !orb_assoc. unfold_layout. cbn. by rewrite andb_false_r, orb_false_r.
Qed.

Lemma publish_header_withheld b p a :
  full b → withheld_header p a = true → buf_at (publish_header b after p) a = buf_at b a.
Proof.
  unfold withheld_header, publish_header. intros Hb Ha.
  rewrite !orb_true_iff, !andb_true_iff, !negb_true_iff, !in_range_true in Ha.
  destruct Ha as [[[[Ha Hp]|[Ha Hp]]|[Ha Hp]]|[Ha Hp]]; rewrite Hp;
    destruct (breadcrumbs p), (context p), (attachments p); by buf_simpl.
Qed.

Lemma authorized_section p a :
  section_enabled p a = true → SECTION2_OFFSET ≤ a → 0 ≤ a < SHM_TOTAL_SIZE → authorized p a = true.
Proof.
  intros Hs H2 Ha. unfold authorized, authorized_in.
  rewrite (proj2 (in_range_true 0 SHM_TOTAL_SIZE a)), Hs by lia. cbn [andb].
  apply negb_true_iff, not_true_is_false. intros Hex.
  apply existsb_exists in Hex as (w & Hw & Hwa). apply list_elem_of_In in Hw.
  apply andb_true_iff in Hwa as [Hwa Hno]. apply negb_true_iff in Hno.
  unfold word_bytes in Hwa. apply in_range_true in Hwa.
  apply section_enabled_spec in Hs. apply elem_of_words in Hw.
  unfold allows_atomic, in_range in Hno.
  destruct Hw as [->|[->|[->|[->|[->|[(i & Hi & ->)|[->|[->|(i & Hi & ->)]]]]]]]];
    cbn [word_offset word_width] in *; unfold_layout; try lia;
    repeat first [rewrite bool_decide_eq_true_2 in Hno by lia | rewrite bool_decide_eq_false_2 in Hno by lia];
    cbn [orb] in Hno; rewrite Hno in Hs; lia.
Qed.

(** Bytes the policy withholds are never written into the owned buffer. *)
Lemma sanitized_withheld b hb p a :
  full b → authorized p a = false → buf_at (sanitized b hb p).1 a = buf_at b a.
Proof.
  intros Hb Ha. rewrite sanitized_stages.
  assert (Hcases : SECTION1_OFFSET ≤ a < SECTION1_OFFSET + SECTION1_SIZE ∨ section_enabled p a = false).
  { destruct (section_enabled p a) eqn:Hs; [|by right]. left.
    destruct (decide (SECTION2_OFFSET ≤ a)) as [H2|H2].
    - assert (0 ≤ a < SHM_TOTAL_SIZE) by (apply section_enabled_spec in Hs; unfold_layout; lia).
      by rewrite authorized_section in Ha.
    - apply section_enabled_spec in Hs. unfold_layout. lia. }
  assert (Hno : ¬ (breadcrumbs p = true ∧ SECTION2_OFFSET ≤ a < CONTEXT_OFFSET) ∧
    ¬ (context p = true ∧ CONTEXT_OFFSET ≤ a < ATTACHMENT_OFFSET) ∧
    ¬ (attachments p = true ∧ ATTACHMENT_OFFSET ≤ a < SECTION4_OFFSET) ∧
    ¬ (screenshots p = true ∧ SECTION4_OFFSET ≤ a < FOOTER_OFFSET)).
  { destruct Hcases as [H1|Hs]; [unfold_layout; lia|].
    apply not_true_iff_false in Hs. rewrite section_enabled_spec in Hs. tauto. }
  destruct Hno as (H1 & H2 & H3 & H4).
  rewrite stage_heartbeat_frame;
    [|auto 10 with cm|intros [? ?]; apply H2; split; [done|]; unfold_layout; lia].
  rewrite stage_shots_frame by auto 10 with cm.
  rewrite stage_sections_frame by auto 10 with cm.
  rewrite stage_breadcrumbs_frame by auto 10 with cm.
  destruct (decide (SECTION1_OFFSET ≤ a < SECTION1_OFFSET + SECTION1_SIZE)) as [H0|H0].
  - apply publish_header_withheld; [done|]. rewrite authorized_header in Ha by done.
    by apply negb_false_iff in Ha.
  - by apply publish_header_frame.
Qed.

Lemma sanitized_full b hb p : full b → full (sanitized b hb p).1.
Proof.
  intros Hb. rewrite sanitized_stages. unfold stage_heartbeat.
  destruct (context p); cbn [fst]; auto 10 with cm.
Qed.

End Sanitize.

(** ** The publication words *)

Definition seen (L : live) (t t' : nat) (off v : Z) : Prop :=
  ∃ s, (t ≤ s < t')%nat ∧ v = word_at (obs L s) off 4.

Lemma seen_weaken L t1 t1' t2 t2' off v :
  seen L t1 t2 off v → (t1' ≤ t1)%nat → (t2 ≤ t2')%nat → seen L t1' t2' off v.
Proof. intros (s & Hs & ->) ??. exists s. split; [lia|done]. Qed.

Section Publications.
Context (L : live) (HL : mapped_ok L).

Definition aligned_word (off : Z) : Prop := off + 4 ≤ SHM_TOTAL_SIZE ∧ off `mod` 4 = 0.

Lemma wp_load_u32 t off E :
  aligned_word off →
  wp L t (v ← load_atomic_u32_at off; mret (or_default v)) (λ v t', seen L t t' off v) E.
Proof.
  intros [Hb Ha]. eapply wp_bind; [by apply wp_load_atomic|].
  intros o t' Ht' [-> ->]. apply wp_ret. exists t. split; [lia|done].
Qed.

Lemma wp_load_u32_if t c off E :
  aligned_word off →
  wp L t (load_u32_if c off) (λ v t', if c then seen L t t' off v else v = 0) E.
Proof. intros H. unfold load_u32_if. destruct c; [by apply wp_load_u32|by apply wp_ret]. Qed.

Lemma wp_load_each t offs E :
  Forall aligned_word offs →
  wp L t (load_each (Some <$> offs)) (λ vs t', Forall2 (seen L t t') offs vs) E.
Proof.
  intros Hoffs. revert t. induction Hoffs as [|off offs Hoff _ IH]; intros t; cbn [fmap list_fmap load_each].
  - apply wp_ret. constructor.
  - eapply wp_bind; [by apply wp_load_u32|]. intros v t1 Ht1 Hv.
    eapply wp_bind; [apply IH|]. intros vs t2 Ht2 Hvs. apply wp_ret. constructor.
    + by eapply seen_weaken; [exact Hv|lia..].
    + eapply Forall2_impl; [exact Hvs|]. intros. by eapply seen_weaken; [done|lia..].
Qed.

End Publications.
