(* ===== verification/ShmSafety.v ===== *)
(** * Theorems on owned snapshots

    The whole of [snapshot_owned_until_with_policy] in terms of what the
    monitor saw, and its properties: every seqlock unit is one consistent cut of
    the producer's memory or is reported and cleared; nothing a policy withholds
    reaches the snapshot, in its bytes or otherwise; over a mapping that holds
    still the result is determined. *)

From S2P Require Import Prelude ShmLayout ShmSnapshot ShmFacts ShmPublication.
From Stdlib Require Import FunctionalExtensionality.

(** ** The producer's protocol

    [mem T a] is the byte at address [a] after the [T]-th store of the history
    of the mapping. The schema's protocol for a unit: its generation word
    is a counter of [u32] that only advances, its payload changes only while the
    counter is odd, and it does not wrap all the way round during one snapshot. *)
Definition seqlock_protocol (mem : nat → Z → Z) (T0 T1 : nat) (u : punit) : Prop :=
  ∃ G : nat → Z,
    (∀ T, (T0 ≤ T < T1)%nat → G T ≤ G (S T)) ∧ G T1 - G T0 < 2 ^ 32 ∧
    (∀ T, (T0 ≤ T ≤ T1)%nat → word_at (mem T) (generation_offset u) 4 = G T `mod` 2 ^ 32) ∧
    (∀ T, (T0 ≤ T < T1)%nat → G T `mod` 2 = 0 → ∀ a, unit_payload u a → mem (S T) a = mem T a).

(** The monitor's accesses observe that history in order: an access may see
    its bytes at different points of the history (a copy tears), but a later
    access sees later points, and an atomic word is seen at one point. [tau s a]
    is the point at which the [s]-th access sees the address [a]. *)
Definition observes (L : live) (mem : nat → Z → Z) (tau : nat → Z → nat) : Prop :=
  (∀ s s' a a', (s < s')%nat → (tau s a ≤ tau s' a')%nat) ∧
  (∀ s a, obs L s a = mem (tau s a) a) ∧
  (∀ s w a, w ∈ LIVE_ATOMIC_WORDS → word_offset w ≤ a < word_offset w + word_width w →
     tau s a = tau s (word_offset w)).

Definition pub_seen (L : live) (t t' : nat) (p : ShmSnapshotPolicy) (pub : LivePublicationState) : Prop :=
  (∀ u, unit_ok u → unit_enabled p u = true → seen L t t' (generation_offset u) (generation_of pub u)) ∧
  (breadcrumbs p = true →
     seen L t t' REGISTRY_GENERATION_OFFSET (registry_generation pub) ∧
     seen L t t' RING_COUNT_OFFSET (ring_count pub)) ∧
  seen L t t' PRODUCER_READY_OFFSET (producer_ready pub).

Lemma pub_seen_weaken L t1 t1' t2 t2' p pub :
  pub_seen L t1 t2 p pub → (t1' ≤ t1)%nat → (t2 ≤ t2')%nat → pub_seen L t1' t2' p pub.
Proof.
  intros (H1 & H2 & H3) ??. split_and!.
  - intros u Hu Hen. by eapply seen_weaken; [apply H1|..].
  - intros Hb. destruct (H2 Hb). split; by eapply seen_weaken.
  - by eapply seen_weaken.
Qed.

Lemma ring_generation_offsets :
  ring_generation_offset <$> seqZ 0 CRUMB_MAX_THREADS =
    Some <$> ((λ i, generation_offset (URing i)) <$> seqZ 0 CRUMB_MAX_THREADS).
Proof.
  rewrite <- list_fmap_compose. apply list_fmap_ext. intros k i Hi.
  apply lookup_seqZ in Hi. apply ring_generation_offset_eq. lia.
Qed.

Lemma screenshot_generation_offsets :
  screenshot_generation_offset <$> seqZ 0 SCREENSHOT_SLOTS =
    Some <$> ((λ i, generation_offset (UShot i)) <$> seqZ 0 SCREENSHOT_SLOTS).
Proof.
  rewrite <- list_fmap_compose. apply list_fmap_ext. intros k i Hi.
  apply lookup_seqZ in Hi. apply screenshot_generation_offset_eq. lia.
Qed.

Lemma Forall2_at_index (P : Z → Z → Prop) (f : Z → Z) n vs i :
  Forall2 P (f <$> seqZ 0 n) vs → 0 ≤ i < n → P (f i) (at_index vs i).
Proof.
  intros H Hi. assert (Hl : (f <$> seqZ 0 n) !! Z.to_nat i = Some (f i)).
  { rewrite list_lookup_fmap, lookup_seqZ_lt by lia. simpl. f_equal. f_equal. lia. }
  destruct (Forall2_lookup_l _ _ _ _ _ H Hl) as (v & Hv & HP).
  unfold at_index. by rewrite (nth_lookup_Some _ _ _ _ Hv).
Qed.

Lemma unit_generation_aligned u : unit_ok u → aligned_word (generation_offset u).
Proof.
  unfold aligned_word. destruct u as [ | | |i|i]; intros Hu; simpl in *; unfold_layout; split; try lia; try done.
  - replace (64 + i * 32784 + 32780) with ((8211 + i * 8196) * 4) by lia. apply Z_mod_mult.
  - replace (265424 + i * 4) with ((66356 + i) * 4) by lia. apply Z_mod_mult.
Qed.

Section Snapshot.
Context (L : live) (HL : mapped_ok L).

Lemma wp_load_publication t p E :
  wp L t (load_publication_state p) (λ pub t', pub_seen L t t' p pub) E.
Proof.
  assert (Hcond : ∀ (c : bool) offs n t, (c = true → Forall aligned_word offs) →
    wp L t (if c then load_each (Some <$> offs) else mret (replicate n 0))
      (λ vs t', c = true → Forall2 (seen L t t') offs vs) E).
  { intros [] offs n t0 Ho; [|by apply wp_ret].
    eapply wp_conseq; [apply wp_load_each; [done|auto]|done|done]. }
  assert (Hload : ∀ (c : bool) off t, aligned_word off →
    wp L t (load_u32_if c off) (λ v t', c = true → seen L t t' off v) E).
  { intros c off t0 Ho. eapply wp_conseq; [by apply wp_load_u32_if| |done].
    intros v t' _ H ->. done. }
  unfold load_publication_state. rewrite ring_generation_offsets, screenshot_generation_offsets.
  eapply wp_bind.
  { apply Hcond. intros _. apply Forall_fmap. eapply Forall_impl; [apply seqZ_rings|].
    intros i Hi. by apply unit_generation_aligned. }
  intros rings t1 Ht1 Hrings. eapply wp_bind.
  { apply Hcond. intros _. apply Forall_fmap. eapply Forall_impl; [apply seqZ_shots|].
    intros i Hi. by apply unit_generation_aligned. }
  intros shots t2 Ht2 Hshots.
  eapply wp_bind; [by apply Hload|]. intros registry t3 Ht3 Hregistry.
  eapply wp_bind; [by apply Hload|]. intros count t4 Ht4 Hcount.
  eapply wp_bind; [by apply Hload|]. intros ctx t5 Ht5 Hctx.
  eapply wp_bind; [by apply Hload|]. intros settings t6 Ht6 Hsettings.
  eapply wp_bind; [by apply Hload|]. intros atts t7 Ht7 Hatts.
  eapply wp_bind; [by apply wp_load_atomic|]. intros ready t8 Ht8 [-> ->].
  apply wp_ret. unfold pub_seen. cbn [registry_generation ring_count producer_ready].
  split_and!.
  - intros [ | | |i|i] Hu Hen; cbn [unit_ok unit_enabled generation_of generation_offset ring_generations
      screenshot_generations context_generation settings_generation attachments_generation] in *.
    + eapply seen_weaken; [by apply Hctx|lia..].
    + eapply seen_weaken; [by apply Hsettings|lia..].
    + eapply seen_weaken; [by apply Hatts|lia..].
    + eapply seen_weaken;
        [exact (Forall2_at_index _ (λ i, generation_offset (URing i)) _ _ _ (Hrings Hen) Hu)|lia..].
    + eapply seen_weaken;
        [exact (Forall2_at_index _ (λ i, generation_offset (UShot i)) _ _ _ (Hshots Hen) Hu)|lia..].
  - intros Hb. split; (eapply seen_weaken; [by auto|lia..]).
  - exists t7. split; [lia|done].
Qed.

(** What the owned bytes are made of before they are validated. *)
Definition snapshot_raw (t t' : nat) (p : ShmSnapshotPolicy) (s : OwnedShmSnapshot) : Prop :=
  ∃ t1 t2 before after copied heartbeat,
    (t ≤ t1 ≤ t2)%nat ∧ (t2 ≤ t')%nat ∧
    pub_seen L t t1 p before ∧
    copied_over L t1 t2 (mkBuffer SHM_TOTAL_SIZE (λ _, 0)) copied (authorized p) ∧
    pub_seen L t2 t' p after ∧
    (context p = true → ∃ k, (t2 ≤ k < t')%nat ∧ heartbeat = word_at (obs L k) HEARTBEAT_OFFSET 8) ∧
    bytes s = (sanitized before after copied heartbeat p).1 ∧
    payload_len s = FOOTER_OFFSET ∧
    consistency_issues s = expected_issues before after p.

(** The only failures of a snapshot over a readable mapping. *)
Definition snapshot_error (t : nat) (p : ShmSnapshotPolicy) (deadline : option Z)
    (e : ShmSnapshotError) : Prop :=
  deadline_error deadline e ∨
  (e = AllocationFailed SHM_TOTAL_SIZE ∧ alloc_ok L = false) ∨
  (∃ v, e = Validation v ∧
     (validate_mapping_shape (map_addr L) (map_len L) = Err v ∨
      ∃ s t', snapshot_raw t t' p s ∧ validate s = Err v)).

Lemma wp_snapshot t deadline p :
  wp L t (snapshot_owned_until_with_policy deadline p) (λ s t', snapshot_raw t t' p s ∧ validate s = Ok tt)
    (snapshot_error t p deadline).
Proof.
  assert (Hdl : ∀ e, deadline_error deadline e → snapshot_error t p deadline e) by (by left).
  assert (Hcheck : ∀ t0, wp L t0 (check_snapshot_deadline deadline) (λ _ _, True) (snapshot_error t p deadline)).
  { intros t0. eapply wp_conseq; [apply wp_check|done|done]. }
  unfold snapshot_owned_until_with_policy.
  eapply wp_bind; [apply wp_ask with (Q := λ L' _, L' = L); done|]. intros L' t1 Ht1 ->.
  eapply wp_bind with (R := λ _ _, True); [apply wp_lift; [done|]; intros e He; right; right; eauto|].
  intros _ t2 Ht2 _. eapply wp_bind; [apply Hcheck|]. intros _ t3 Ht3 _.
  eapply wp_bind with (R := λ _ _, True).
  { destruct (alloc_ok L) eqn:Ha; [by apply wp_ret|]. right. left. done. }
  intros _ t4 Ht4 _. eapply wp_bind; [apply wp_load_publication|]. intros before t5 Ht5 Hbefore.
  eapply wp_bind; [eapply wp_conseq; [by apply wp_copy_payload|intros ? ? _ H; exact H|done]|].
  intros copied t6 Ht6 [Hfull Hcopied].
  eapply wp_bind; [apply wp_load_publication|]. intros after t7 Ht7 Hafter.
  eapply wp_bind with (R := λ h t', context p = true →
    ∃ k, (t7 ≤ k < t')%nat ∧ h = word_at (obs L k) HEARTBEAT_OFFSET 8).
  { destruct (context p); [|by apply wp_ret].
    eapply wp_bind; [by apply wp_load_atomic|]. intros o t' Ht' [-> ->]. apply wp_ret.
    intros _. exists t7. split; [lia|done]. }
  intros hb t8 Ht8 Hhb. eapply wp_bind; [apply Hcheck|]. intros _ t9 Ht9 _.
  eapply wp_bind; [eapply wp_conseq; [by apply wp_sanitize_publications|intros ? ? _ H; exact H|done]|].
  intros [b issues] t10 Ht10 Hsan.
  assert (Hb : full b) by (replace b with (sanitized before after copied hb p).1 by (by rewrite <- Hsan);
    by apply sanitized_full).
  assert (Hraw : ∀ t', (t10 ≤ t')%nat → snapshot_raw t t' p (mkSnapshot b FOOTER_OFFSET issues)).
  { intros t' Ht'. exists t5, t6, before, after, copied, hb.
    cbn [bytes payload_len consistency_issues]. split_and!; try done; try lia.
    - eapply pub_seen_weaken; [exact Hbefore|lia..].
    - eapply pub_seen_weaken; [exact Hafter|lia..].
    - intros Hc. destruct (Hhb Hc) as (k & Hk & ->). exists k. split; [lia|done].
    - by rewrite <- Hsan.
    - rewrite <- (sanitized_issues _ _ copied hb), <- Hsan. done. }
  eapply wp_bind with (R := λ s _, s = mkSnapshot b FOOTER_OFFSET issues ∧ validate s = Ok tt).
  { unfold from_owned_bytes. unfold full in Hb. rewrite decide_True by done.
    apply wp_lift; intros x; destruct (validate _) as [[]|e] eqn:Hv; intros [= <-]; [by split|].
    right. right. exists e. split; [done|]. right. eexists _, t10. split; [by apply Hraw|done]. }
  intros s t11 Ht11 [-> Hvalid]. eapply wp_bind; [apply Hcheck|]. intros _ t12 Ht12 _.
  apply wp_ret. split; [apply Hraw; lia|done].
Qed.

End Snapshot.

(** ** Consistent cuts *)

(** Two equal readings of the generation pin the counter, hence the payload,
    over everything in between. *)
Lemma seqlock_pinned mem T0 T1 u Ta Tb :
  seqlock_protocol mem T0 T1 u → (T0 ≤ Ta ≤ Tb)%nat → (Tb ≤ T1)%nat →
  word_at (mem Ta) (generation_offset u) 4 = word_at (mem Tb) (generation_offset u) 4 →
  word_at (mem Ta) (generation_offset u) 4 `mod` 2 = 0 →
  ∀ T a, (Ta ≤ T ≤ Tb)%nat → unit_payload u a → mem T a = mem Ta a.
Proof.
  intros (G & Hmono & Hwrap & Hword & Hstill) Ha Hb Heq Heven.
  assert (Hle : ∀ n T, (T0 ≤ T)%nat → (T + n ≤ T1)%nat → G T ≤ G (T + n)%nat).
  { induction n as [|n IH]; intros T H1 H2; [rewrite Nat.add_0_r; lia|].
    specialize (IH T H1 ltac:(lia)). specialize (Hmono (T + n)%nat ltac:(lia)).
    rewrite Nat.add_succ_r. lia. }
  assert (Hle' : ∀ T T', (T0 ≤ T ≤ T')%nat → (T' ≤ T1)%nat → G T ≤ G T').
  { intros T T' H1 H2. specialize (Hle (T' - T)%nat T ltac:(lia) ltac:(lia)).
    by replace (T + (T' - T))%nat with T' in Hle by lia. }
  rewrite (Hword Ta), ?(Hword Tb) in Heq by lia. rewrite (Hword Ta) in Heven by lia. change (2 ^ 32) with 4294967296 in *.
  assert (HG : G Ta = G Tb).
  { pose proof (Hle' T0 Ta ltac:(lia) ltac:(lia)). pose proof (Hle' Ta Tb ltac:(lia) ltac:(lia)).
    pose proof (Hle' Tb T1 ltac:(lia) ltac:(lia)). mod_lia. }
  assert (Heven' : G Ta `mod` 2 = 0) by (clear Hword Hstill; mod_lia).
  assert (Hn : ∀ n a, (Ta + n ≤ Tb)%nat → unit_payload u a → mem (Ta + n)%nat a = mem Ta a).
  { induction n as [|n IH]; intros a Hn Hpa; [by rewrite Nat.add_0_r|].
    rewrite Nat.add_succ_r, Hstill; [apply IH; [lia|done]|lia| |done].
    pose proof (Hle' Ta (Ta + n)%nat ltac:(lia) ltac:(lia)).
    pose proof (Hle' (Ta + n)%nat Tb ltac:(lia) ltac:(lia)). by replace (G (Ta + n)%nat) with (G Ta) by lia. }
  intros T a HT Hpa. replace T with (Ta + (T - Ta))%nat by lia. apply Hn; [lia|done].
Qed.

Lemma unit_payload_authorized p u a :
  unit_ok u → unit_enabled p u = true → unit_payload u a → authorized p a = true.
Proof.
  intros Hu Hen Ha. apply authorized_section; [apply section_enabled_spec|..];
    destruct u as [ | | |i|i]; simpl in *; rewrite ?Hen; unfold_layout; lia.
Qed.

Lemma raw_unit_bytes L t t' p s u :
  snapshot_raw L t t' p s → unit_ok u → unit_enabled p u = true →
  ∃ s1 s2 before after, (t ≤ s1 ≤ s2)%nat ∧ (s2 < t')%nat ∧
    before = word_at (obs L s1) (generation_offset u) 4 ∧
    after = word_at (obs L s2) (generation_offset u) 4 ∧
    ((stable_generation before after = true ∧
      ∀ a, unit_payload u a → ∃ k, (s1 < k < s2)%nat ∧ buf_at (bytes s) a = obs L k a) ∨
     ((∀ a, unit_payload u a → buf_at (bytes s) a = 0) ∧
      ∃ i, i ∈ consistency_issues s ∧ issue_covers u i)).
Proof.
  intros (t1 & t2 & before & after & copied & hb & Ht & Ht' & Hbefore & Hcopied & Hafter & _ & Hbytes & _ & Hiss)
    Hu Hen.
  assert (Hfull : full copied) by (by destruct Hcopied).
  destruct Hbefore as [Hbefore _], Hafter as [Hafter _].
  destruct (Hbefore u Hu Hen) as (s1 & Hs1 & Hw1), (Hafter u Hu Hen) as (s2 & Hs2 & Hw2).
  exists s1, s2, (generation_of before u), (generation_of after u).
  split_and!; [lia..|done|done|].
  destruct (unit_accepted before after u) eqn:Hacc.
  - left. split; [by apply andb_true_iff in Hacc as [? _]|].
    intros a Ha. rewrite Hbytes, (sanitized_payload _ _ _ _ _ u), Hacc by done.
    destruct Hcopied as [_ Hc]. specialize (Hc a).
    rewrite (unit_payload_authorized p u a) in Hc by done.
    destruct Hc as (k & Hk & ->). exists k. split; [lia|done].
  - right. split.
    + intros a Ha. by rewrite Hbytes, (sanitized_payload _ _ _ _ _ u), Hacc.
    + rewrite Hiss. by apply rejected_reported.
Qed.

Lemma unit_generation_word u : unit_ok u → WordU32 (generation_offset u) ∈ LIVE_ATOMIC_WORDS.
Proof.
  unfold LIVE_ATOMIC_WORDS. rewrite !elem_of_app, !elem_of_cons, !list_elem_of_fmap.
  destruct u as [ | | |i|i]; cbn [generation_offset unit_ok]; intros Hu; try tauto.
  - right. left. exists i. split; [done|]. apply elem_of_seqZ. lia.
  - do 3 right. exists i. split; [done|]. apply elem_of_seqZ. lia.
Qed.

(** C1. Consistent cut. Whatever the producer does while the monitor copies, as
    long as it follows the seqlock protocol of the schema, every enabled unit of
    a successful snapshot either holds the payload the memory had at one single
    moment of the copy, or is all zero and reported as inconsistent. *)
Theorem snapshot_consistent_cut L mem tau T0 T1 t t' deadline p s u :
  mapped_ok L → observes L mem tau →
  (∀ k a, (t ≤ k < t')%nat → (T0 ≤ tau k a ≤ T1)%nat) →
  snapshot_owned_until_with_policy deadline p L t = (Ok s, t') →
  unit_ok u → unit_enabled p u = true → seqlock_protocol mem T0 T1 u →
  (∃ T, (T0 ≤ T ≤ T1)%nat ∧ ∀ a, unit_payload u a → buf_at (bytes s) a = mem T a) ∨
  ((∀ a, unit_payload u a → buf_at (bytes s) a = 0) ∧
   ∃ i, i ∈ consistency_issues s ∧ issue_covers u i).
Proof.
  intros HL (Htau & Hobs & Hatomic) Hwin Hrun Hu Hen Hproto.
  pose proof (wp_snapshot L HL t deadline p) as Hwp. unfold wp in Hwp. rewrite Hrun in Hwp.
  destruct Hwp as (_ & Hraw & _).
  destruct (raw_unit_bytes L t t' p s u Hraw Hu Hen)
    as (s1 & s2 & g1 & g2 & H1 & H2 & -> & -> & [[Hstable Hbytes]|Hzero]); [left|by right].
  unfold stable_generation in Hstable. rewrite andb_true_iff, !bool_decide_eq_true in Hstable.
  destruct Hstable as [Heq Heven]. set (o := generation_offset u) in *.
  assert (Hword : ∀ k, word_at (obs L k) o 4 = word_at (mem (tau k o)) o 4).
  { intros k. unfold word_at. f_equal. apply read_bytes_ext. intros a Ha. rewrite Hobs.
    by rewrite (Hatomic k (WordU32 o) a (unit_generation_word u Hu) Ha). }
  rewrite (Hword s1), ?(Hword s2) in Heq. rewrite (Hword s1) in Heven.
  pose proof (Hwin s1 o ltac:(lia)). pose proof (Hwin s2 o ltac:(lia)).
  exists (tau s1 o). split; [lia|]. intros a Ha.
  destruct (Hbytes a Ha) as (k & Hk & ->). rewrite Hobs.
  pose proof (Htau s1 k o a ltac:(lia)). pose proof (Htau k s2 a o ltac:(lia)).
  apply (seqlock_pinned mem T0 T1 u (tau s1 o) (tau s2 o)); first [done | lia].
Qed.

(** A mapping nobody writes, of all-zero sections under a valid header. *)
Definition idle_memory (a : Z) : Z :=
  if decide (0 ≤ a < 4) then nth (Z.to_nat a) (to_ne_bytes 4 SHM_MAGIC) 0
  else if decide (4 ≤ a < 8) then nth (Z.to_nat (a - 4)) (to_ne_bytes 4 SHM_VERSION) 0
  else if decide (FOOTER_OFFSET ≤ a < FOOTER_OFFSET + 4)
       then nth (Z.to_nat (a - FOOTER_OFFSET)) (to_ne_bytes 4 SHM_CANARY) 0
  else if decide (a = PRODUCER_READY_OFFSET) then 1 else 0.

Definition idle_live : live := mkLive 0 SHM_TOTAL_SIZE true (λ _, idle_memory) (λ _, 0).

Lemma nth_to_ne_bytes n z i : 0 ≤ nth i (to_ne_bytes n z) 0 < 256.
Proof.
  revert z i. induction n as [|n IH]; intros z [|i]; cbn [to_ne_bytes nth]; try lia; [|apply IH].
  apply Z.mod_pos_bound. lia.
Qed.

Lemma idle_live_ok : mapped_ok idle_live.
Proof.
  split; [done|]. intros t a. unfold idle_live, idle_memory. cbn [obs].
  repeat case_decide; try lia; apply nth_to_ne_bytes.
Qed.

Lemma snapshot_consistent_cut_witness :
  ∃ s t', snapshot_owned_until_with_policy None POLICY_ALL idle_live 0%nat = (Ok s, t') ∧
    ((∃ T, (0 ≤ T ≤ 0)%nat ∧ ∀ a, unit_payload (URing 3) a → buf_at (bytes s) a = idle_memory a) ∨
     ((∀ a, unit_payload (URing 3) a → buf_at (bytes s) a = 0) ∧
      ∃ i, i ∈ consistency_issues s ∧ issue_covers (URing 3) i)).
Proof.
  assert (Hok : is_ok (snapshot_owned_until_with_policy None POLICY_ALL idle_live 0%nat).1 = true)
    by (vm_compute; reflexivity).
  destruct (snapshot_owned_until_with_policy None POLICY_ALL idle_live 0%nat) as [[s|e] t'] eqn:Hrun;
    [|discriminate Hok].
  exists s, t'. split; [reflexivity|].
  apply (snapshot_consistent_cut idle_live (λ _, idle_memory) (λ _ _, 0%nat) 0%nat 0%nat 0%nat t' None
           POLICY_ALL s (URing 3) idle_live_ok);
    [split; [lia|split; reflexivity]|lia|exact Hrun| |reflexivity|].
  - unfold unit_ok, CRUMB_MAX_THREADS. lia.
  - exists (λ _, 0). split; [lia|]. split; [lia|]. split; [|lia].
    intros T _. vm_compute. reflexivity.
Defined.

(** ** Privacy *)

Lemma copy_words_cursor ws L t b c deadline p b' c' t' :
  copy_words ws b c deadline p L t = (Ok (b', c'), t') → c' = words_end c ws.
Proof.
  revert t b c. induction ws as [|w ws IH]; intros t b c; cbn [copy_words words_end].
  - intros [= _ <- _]. done.
  - unfold mbind, liveM_bind.
    destruct (copy_selected_non_atomic_range _ _ _ _ _ L t) as [[b1|e] t1]; [|done].
    destruct (check_snapshot_deadline deadline L t1) as [[u|e] t2]; [|done].
    destruct ((if allows_atomic p (word_offset w) then copy_atomic_word b1 w else mret b1) L t2)
      as [[b2|e] t3]; [|done].
    apply IH.
Qed.

(** Two environments the policy [p] cannot tell apart: same mapping shape, same
    clock, same bytes where the policy authorizes a read. *)
Record same_authorized (p : ShmSnapshotPolicy) (L1 L2 : live) : Prop := {
  sa_addr : map_addr L1 = map_addr L2;
  sa_len : map_len L1 = map_len L2;
  sa_alloc : alloc_ok L1 = alloc_ok L2;
  sa_clock : ∀ t, clock L1 t = clock L2 t;
  sa_obs : ∀ t a, authorized p a = true → obs L1 t a = obs L2 t a
}.

Section Privacy.
Context (p : ShmSnapshotPolicy) (L1 L2 : live) (HL : same_authorized p L1 L2).

(** A computation that cannot tell the two environments apart. *)
Definition insensitive {A : Type} (m : liveM A) : Prop := ∀ t, m L1 t = m L2 t.

Lemma insensitive_ret {A : Type} (a : A) : insensitive (mret a).
Proof. done. Qed.
Lemma insensitive_fail {A : Type} e : insensitive (fail (A:=A) e).
Proof. done. Qed.
Lemma insensitive_lift {A : Type} (r : result ShmValidationError A) : insensitive (lift r).
Proof. done. Qed.
Lemma insensitive_bind {A B : Type} (m : liveM A) (f : A → liveM B) :
  insensitive m → (∀ a, insensitive (f a)) → insensitive (m ≫= f).
Proof.
  intros Hm Hf t. unfold mbind, liveM_bind. rewrite Hm.
  destruct (m L2 t) as [[a|e] t']; [apply Hf|done].
Qed.
Lemma insensitive_ask {B : Type} (f : live → liveM B) :
  f L1 = f L2 → insensitive (f L2) → insensitive (ask ≫= f).
Proof. intros Hf H t. unfold mbind, liveM_bind, ask. rewrite Hf. apply H. Qed.
Lemma insensitive_if {A : Type} (c : bool) (m1 m2 : liveM A) :
  (c = true → insensitive m1) → (c = false → insensitive m2) → insensitive (if c then m1 else m2).
Proof. destruct c; auto. Qed.
#[local] Hint Resolve insensitive_ret insensitive_fail insensitive_lift insensitive_bind insensitive_if : cm.

Lemma insensitive_check deadline : insensitive (check_snapshot_deadline deadline).
Proof.
  apply insensitive_bind; [|intros []; auto with cm].
  destruct deadline as [d|]; [|done]. apply insensitive_bind; [|done].
  intros t. unfold now. by rewrite (sa_clock _ _ _ HL).
Qed.
#[local] Hint Resolve insensitive_check : cm.

Lemma insensitive_load width off :
  (∀ a, off ≤ a < off + width → authorized p a = true) → insensitive (load_atomic_at width off).
Proof.
  intros Ha t. unfold load_atomic_at. rewrite (sa_len _ _ _ HL).
  rewrite (read_bytes_ext (obs L1 t) (obs L2 t)); [done|].
  intros a Hoff. apply (sa_obs _ _ _ HL). auto.
Qed.

Lemma insensitive_copy_loop fuel b copied end_ deadline :
  (∀ a, copied ≤ a < end_ → authorized p a = true) →
  insensitive (copy_loop fuel b copied end_ deadline).
Proof.
  revert b copied. induction fuel as [|fuel IH]; intros b copied Ha; [done|]. cbn [copy_loop].
  case_decide; [|done]. apply insensitive_bind; [auto with cm|]. intros _.
  unfold SNAPSHOT_COPY_CHUNK_SIZE.
  apply insensitive_bind; [|intros b'; apply IH; intros; apply Ha; lia].
  intros t. unfold copy_chunk. do 3 f_equal. apply functional_extensionality. intros a.
  case_decide; [|done]. apply (sa_obs _ _ _ HL), Ha. lia.
Qed.

Lemma insensitive_copy_sections sections b start end_ deadline :
  (∀ a, start ≤ a < end_ → existsb (λ '(lo, hi, on), on && in_range lo hi a) sections = true →
     authorized p a = true) →
  insensitive (copy_sections sections b start end_ deadline).
Proof.
  revert b. induction sections as [|[[lo hi] on] rest IH]; intros b Ha; cbn [copy_sections]; [done|].
  cbn [existsb] in Ha. apply insensitive_if; intros Hon.
  - apply IH. intros a Hr Hex. apply Ha; [done|]. by rewrite Hex, orb_true_r.
  - apply negb_false_iff in Hon. subst on. apply insensitive_bind.
    + case_decide; [|done]. apply insensitive_copy_loop. intros a Hr. apply Ha; [lia|].
      by rewrite (proj2 (in_range_true lo hi a)) by lia.
    + intros b'. apply IH. intros a Hr Hex. apply Ha; [done|]. by rewrite Hex, orb_true_r.
Qed.

Lemma allowed_word_authorized w a :
  w ∈ LIVE_ATOMIC_WORDS → allows_atomic p (word_offset w) = true →
  word_offset w ≤ a < word_offset w + word_width w → authorized p a = true.
Proof.
  intros Hw Hal Ha. pose proof (allows_atomic_enabled p w Hw Hal a Ha) as Hs.
  destruct (decide (SECTION2_OFFSET ≤ a)).
  { apply authorized_section; [done..|]. apply section_enabled_spec in Hs. unfold_layout. lia. }
  rewrite authorized_header by (apply section_enabled_spec in Hs; unfold_layout; lia).
  apply negb_true_iff, not_true_is_false. unfold withheld_header.
  rewrite !orb_true_iff, !andb_true_iff, !negb_true_iff, !in_range_true.
  apply elem_of_words in Hw.
  destruct Hw as [->|[->|[->|[->|[->|[(i & Hi & ->)|[->|[->|(i & Hi & ->)]]]]]]]];
    cbn [word_offset word_width] in *; unfold_layout; try lia;
    first [change (breadcrumbs p = true) in Hal | change (context p = true) in Hal
          |change (attachments p = true) in Hal | idtac];
    intuition (congruence || lia).
Qed.

Lemma insensitive_copy_word b w :
  w ∈ LIVE_ATOMIC_WORDS →
  insensitive (if allows_atomic p (word_offset w) then copy_atomic_word b w else mret b).
Proof.
  intros Hw. apply insensitive_if; [|done]. intros Hal.
  destruct w as [o|o]; cbn [copy_atomic_word];
    (apply insensitive_bind; [|done]); apply insensitive_load; intros a Ha;
    by eapply allowed_word_authorized; [exact Hw|..].
Qed.

Lemma insensitive_copy_words ws b c deadline :
  (∀ w, w ∈ ws → w ∈ LIVE_ATOMIC_WORDS) → words_from c ws = true →
  (∀ a, c ≤ a < SHM_TOTAL_SIZE → section_enabled p a = true →
     existsb (λ w, word_bytes w a && negb (allows_atomic p (word_offset w))) ws = false →
     authorized p a = true) →
  insensitive (copy_words ws b c deadline p).
Proof.
  revert b c. induction ws as [|w ws IH]; intros b c Hin Hws Ha; cbn [copy_words]; [done|].
  cbn [words_from existsb] in Hws, Ha.
  rewrite !andb_true_iff, !bool_decide_eq_true in Hws. destruct Hws as [[[Hc Hw] Hal] Hrest].
  assert (Hwidth : 0 < word_width w) by (destruct w; simpl; lia).
  apply insensitive_bind; [apply insensitive_copy_sections|intros b1; apply insensitive_bind].
  - intros a Hr Hs. apply Ha; [lia|exact Hs|].
    rewrite (words_from_before ws _ a _ Hrest) by lia. unfold word_bytes. by decide_ranges.
  - apply insensitive_check.
  - intros _. apply insensitive_bind; [apply insensitive_copy_word, Hin; by left|]. intros b2.
    apply IH; [intros w' Hw'; apply Hin; by right|done|].
    intros a Hr Hs Hex. apply Ha; [lia|done|]. rewrite Hex, orb_false_r. unfold word_bytes.
    by decide_ranges.
Qed.

Lemma insensitive_copy_payload deadline : insensitive (copy_payload deadline p).
Proof.
  unfold copy_payload.
  assert (Hwords : insensitive (copy_words LIVE_ATOMIC_WORDS (mkBuffer SHM_TOTAL_SIZE (λ _, 0)) 0 deadline p)).
  { apply insensitive_copy_words; [done|apply words_from_0|].
    intros a Hr Hs Hex. unfold authorized, authorized_in. rewrite Hs, Hex.
    by rewrite (proj2 (in_range_true 0 SHM_TOTAL_SIZE a)) by lia. }
  intros t. unfold mbind, liveM_bind. rewrite <- Hwords.
  pose proof (copy_words_cursor LIVE_ATOMIC_WORDS L1 t (mkBuffer SHM_TOTAL_SIZE (λ _, 0)) 0 deadline p) as Hc.
  destruct (copy_words LIVE_ATOMIC_WORDS _ 0 deadline p L1 t) as [[[b c]|e] t']; [|done].
  specialize (Hc b c t' eq_refl). subst c. apply insensitive_copy_sections.
  intros a Hr Hs. pose proof (words_end_bounds _ _ words_from_0).
  unfold authorized, authorized_in. change (section_enabled p a = true) in Hs.
  rewrite Hs, existsb_past_end by lia.
  by rewrite (proj2 (in_range_true 0 SHM_TOTAL_SIZE a)) by lia.
Qed.

Lemma insensitive_load_each offs :
  Forall (λ o, ∀ a, o ≤ a < o + 4 → authorized p a = true) offs →
  insensitive (load_each (Some <$> offs)).
Proof.
  induction 1 as [|o offs Ho _ IH]; cbn [fmap list_fmap load_each]; [done|].
  apply insensitive_bind; [|intros v; by apply insensitive_bind].
  apply insensitive_bind; [by apply insensitive_load|done].
Qed.

Lemma insensitive_load_if c off :
  (c = true → ∀ a, off ≤ a < off + 4 → authorized p a = true) → insensitive (load_u32_if c off).
Proof.
  intros Ha. apply insensitive_if; [|done]. intros Hc.
  apply insensitive_bind; [by apply insensitive_load, Ha|done].
Qed.

Lemma unit_generation_authorized u a :
  unit_ok u → unit_enabled p u = true → generation_offset u ≤ a < generation_offset u + 4 →
  authorized p a = true.
Proof.
  intros Hu Hen Ha. destruct u as [ | | |i|i]; cbn [unit_ok unit_enabled generation_offset] in *.
  1: apply (allowed_word_authorized (WordU32 CONTEXT_GENERATION_OFFSET)); [|exact Hen|exact Ha].
  2: apply (allowed_word_authorized (WordU32 SETTINGS_GENERATION_OFFSET)); [|exact Hen|exact Ha].
  3: apply (allowed_word_authorized (WordU32 ATTACHMENTS_GENERATION_OFFSET)); [|exact Hen|exact Ha].
  1-3: unfold LIVE_ATOMIC_WORDS; rewrite !elem_of_app, !elem_of_cons; tauto.
  - apply authorized_section; [apply section_enabled_spec; rewrite Hen|..]; unfold_layout; lia.
  - apply authorized_section; [apply section_enabled_spec; rewrite Hen|..]; unfold_layout; lia.
Qed.

Lemma insensitive_load_publication : insensitive (load_publication_state p).
Proof.
  unfold load_publication_state. rewrite ring_generation_offsets, screenshot_generation_offsets.
  assert (Hheader : ∀ o, WordU32 o ∈ LIVE_ATOMIC_WORDS → allows_atomic p o = true →
    ∀ a, o ≤ a < o + 4 → authorized p a = true).
  { intros o Ho Hal a Ha. by apply (allowed_word_authorized (WordU32 o)). }
  assert (Hwords : ∀ o, o ∈ [REGISTRY_GENERATION_OFFSET; CONTEXT_GENERATION_OFFSET;
    SETTINGS_GENERATION_OFFSET; ATTACHMENTS_GENERATION_OFFSET; PRODUCER_READY_OFFSET; RING_COUNT_OFFSET] →
    WordU32 o ∈ LIVE_ATOMIC_WORDS).
  { intros o Ho. rewrite !elem_of_cons, elem_of_nil in Ho. unfold LIVE_ATOMIC_WORDS.
    rewrite !elem_of_app, !elem_of_cons. destruct_or?; subst; try done; tauto. }
  apply insensitive_bind; [apply insensitive_if; [|done]; intros Hc|intros rings].
  { apply insensitive_load_each, Forall_fmap. eapply Forall_impl; [apply seqZ_rings|].
    intros i Hi a Ha. by apply (unit_generation_authorized (URing i)). }
  apply insensitive_bind; [apply insensitive_if; [|done]; intros Hc|intros shots].
  { apply insensitive_load_each, Forall_fmap. eapply Forall_impl; [apply seqZ_shots|].
    intros i Hi a Ha. by apply (unit_generation_authorized (UShot i)). }
  repeat (apply insensitive_bind;
    [first [apply insensitive_load_if; intros Hc; apply Hheader; [apply Hwords; by auto 10 using list_elem_of_here, list_elem_of_further|exact Hc]
           |apply insensitive_load; apply Hheader; [apply Hwords; by auto 10 using list_elem_of_here, list_elem_of_further|done]]|intros ?]).
  apply insensitive_ret.
Qed.

Lemma insensitive_sanitize b before after hb deadline :
  insensitive (sanitize_publications b before after hb deadline p).
Proof.
  unfold sanitize_publications.
  assert (Hshots : ∀ idx acc, insensitive (sanitize_screenshots idx before after acc deadline)).
  { induction idx as [|i idx IH]; intros acc; cbn [sanitize_screenshots];
      (apply insensitive_bind; [apply insensitive_check|intros _; auto using insensitive_ret]). }
  apply insensitive_bind.
  { apply insensitive_if; [|done]. intros _. apply insensitive_bind; [apply insensitive_check|done]. }
  intros acc. apply insensitive_bind; [apply insensitive_check|intros _].
  apply insensitive_bind; [|done].
  apply insensitive_if; [|done]. intros _. apply insensitive_bind; [apply insensitive_check|auto].
Qed.

Lemma insensitive_snapshot deadline : insensitive (snapshot_owned_until_with_policy deadline p).
Proof.
  apply insensitive_ask; [by rewrite (sa_addr _ _ _ HL), (sa_len _ _ _ HL), (sa_alloc _ _ _ HL)|].
  apply insensitive_bind; [apply insensitive_lift|intros _].
  apply insensitive_bind; [apply insensitive_check|intros _].
  apply insensitive_bind; [by destruct (alloc_ok L2)|intros _].
  apply insensitive_bind; [apply insensitive_load_publication|intros before].
  apply insensitive_bind; [apply insensitive_copy_payload|intros b].
  apply insensitive_bind; [apply insensitive_load_publication|intros after].
  apply insensitive_bind.
  { apply insensitive_if; [|done]. intros Hc. apply insensitive_bind; [|done].
    apply insensitive_load. intros a Ha.
    apply (allowed_word_authorized (WordU64 HEARTBEAT_OFFSET)); [|exact Hc|exact Ha].
    unfold LIVE_ATOMIC_WORDS. rewrite !elem_of_app, !elem_of_cons. tauto. }
  intros hb. apply insensitive_bind; [apply insensitive_check|intros _].
  apply insensitive_bind; [apply insensitive_sanitize|intros [b' issues]].
  apply insensitive_bind; [apply insensitive_lift|intros s].
  apply insensitive_bind; [apply insensitive_check|intros _; apply insensitive_ret].
Qed.

End Privacy.

(** ** What a policy releases, by the sections of the region *)

Definition within (off len a : Z) : Prop := off ≤ a < off + len.

(** The header goes out without the generations of withheld sections, the footer always,
    and each of the other sections with its own flag; nothing lies beyond. *)
Definition released (p : ShmSnapshotPolicy) (a : Z) : Prop :=
  (SECTION1_OFFSET ≤ a < SECTION2_OFFSET ∧
     (within REGISTRY_GENERATION_OFFSET 4 a → breadcrumbs p = true) ∧
     (within CONTEXT_GENERATION_OFFSET 4 a ∨ within SETTINGS_GENERATION_OFFSET 4 a → context p = true) ∧
     (within ATTACHMENTS_GENERATION_OFFSET 4 a → attachments p = true)) ∨
  (breadcrumbs p = true ∧ SECTION2_OFFSET ≤ a < CONTEXT_OFFSET) ∨
  (context p = true ∧ CONTEXT_OFFSET ≤ a < ATTACHMENT_OFFSET) ∨
  (attachments p = true ∧ ATTACHMENT_OFFSET ≤ a < SECTION4_OFFSET) ∨
  (screenshots p = true ∧ SECTION4_OFFSET ≤ a < FOOTER_OFFSET) ∨
  FOOTER_OFFSET ≤ a < SHM_TOTAL_SIZE.

Lemma authorized_enabled p a : authorized p a = true → section_enabled p a = true ∧ 0 ≤ a < SHM_TOTAL_SIZE.
Proof. unfold authorized, authorized_in. rewrite !andb_true_iff, in_range_true. tauto. Qed.

(** The section table and the list of atomic words let out exactly that. *)
Lemma authorized_released p a : authorized p a = true ↔ released p a.
Proof.
  assert (SECTION1_OFFSET + SECTION1_SIZE = SECTION2_OFFSET) as Hgap by reflexivity.
  destruct (decide (SECTION1_OFFSET ≤ a < SECTION1_OFFSET + SECTION1_SIZE)) as [H|H].
  - rewrite authorized_header by done. unfold withheld_header, released, within.
    rewrite negb_true_iff, !orb_false_iff, !andb_false_iff, !negb_false_iff, !in_range_false.
    assert (¬ SECTION2_OFFSET ≤ a) by lia. assert (SECTION2_OFFSET ≤ CONTEXT_OFFSET ≤ ATTACHMENT_OFFSET) by (unfold_layout; lia).
    assert (ATTACHMENT_OFFSET ≤ SECTION4_OFFSET ≤ FOOTER_OFFSET) by (unfold_layout; lia).
    assert (∀ off (b : bool), (a < off ∨ off + 4 ≤ a) ∨ b = true ↔ (off ≤ a < off + 4 → b = true)) as Hin.
    { intros off b. destruct (decide (off ≤ a < off + 4)); intuition lia. }
    rewrite !Hin. split; [intros Hw; left; split; [lia|]|intros [[_ Hw]|Hw]; [|lia]]; tauto.
  - assert (authorized p a = true ↔ section_enabled p a = true ∧ SECTION2_OFFSET ≤ a) as ->.
    { split.
      - intros Ha. destruct (authorized_enabled _ _ Ha) as [Hs Hr]. split; [done|]. unfold_layout. lia.
      - intros [Hs Ha]. apply authorized_section; [done..|]. apply section_enabled_spec in Hs. unfold_layout. lia. }
    rewrite section_enabled_spec. unfold released. unfold_layout. intuition lia.
Qed.

(** Two environments that differ at most in what the policy withholds: same mapping shape,
    same clock, same bytes where they are released. *)
Record same_released (p : ShmSnapshotPolicy) (L1 L2 : live) : Prop := {
  sr_addr : map_addr L1 = map_addr L2;
  sr_len : map_len L1 = map_len L2;
  sr_alloc : alloc_ok L1 = alloc_ok L2;
  sr_clock : ∀ t, clock L1 t = clock L2 t;
  sr_obs : ∀ t a, released p a → obs L1 t a = obs L2 t a
}.

(** C2. Privacy of the snapshot. The bytes a policy withholds are zero in every
    snapshot, and the outcome of taking one, success or failure, issues and
    timing included, is the same whatever the live memory holds there. Withheld is
    every byte but those of the header, of the footer and of the sections whose flags
    are set; the generation counters of a section without its flag are withheld too. *)
Theorem snapshot_private p L1 L2 deadline t :
  mapped_ok L1 → same_released p L1 L2 →
  snapshot_owned_until_with_policy deadline p L1 t = snapshot_owned_until_with_policy deadline p L2 t ∧
  ∀ s t', snapshot_owned_until_with_policy deadline p L1 t = (Ok s, t') →
    ∀ a, ¬ released p a → buf_at (bytes s) a = 0.
Proof.
  intros HL [H1 H2 H3 H4 H5]. split.
  { apply insensitive_snapshot. split; [done..|]. intros t' a Ha. by apply H5, authorized_released. }
  intros s t' Hrun a Ha. pose proof (wp_snapshot L1 HL t deadline p) as Hwp.
  unfold wp in Hwp. rewrite Hrun in Hwp. destruct Hwp as (_ & Hraw & _).
  destruct Hraw as (t1 & t2 & before & after & copied & hb & _ & _ & _ & Hcopied & _ & _ & -> & _).
  assert (Hfull : full copied) by (by destruct Hcopied).
  rewrite <-authorized_released in Ha. apply not_true_is_false in Ha.
  rewrite sanitized_withheld by done. destruct Hcopied as [_ Hc]. specialize (Hc a).
  by rewrite Ha in Hc.
Qed.

(** Breadcrumbs only: the screenshots of the second environment are all ones. *)
Definition POLICY_BREADCRUMBS : ShmSnapshotPolicy := mkShmSnapshotPolicy true false false false.

Definition noisy_live : live :=
  mkLive 0 SHM_TOTAL_SIZE true
    (λ _ a, if authorized POLICY_BREADCRUMBS a then idle_memory a else 1) (λ _, 0).

Lemma snapshot_private_witness :
  obs noisy_live 0%nat SCREENSHOT_DATA_OFFSET = 1 ∧ obs idle_live 0%nat SCREENSHOT_DATA_OFFSET = 0 ∧
  snapshot_owned_until_with_policy None POLICY_BREADCRUMBS idle_live 0%nat =
    snapshot_owned_until_with_policy None POLICY_BREADCRUMBS noisy_live 0%nat.
Proof.
  split; [vm_compute; reflexivity|]. split; [vm_compute; reflexivity|].
  apply (snapshot_private POLICY_BREADCRUMBS idle_live noisy_live None 0%nat idle_live_ok).
  split; [reflexivity..|]. intros t a Ha. unfold noisy_live. cbn [obs].
  apply authorized_released in Ha. rewrite Ha. reflexivity.
Defined.

(** ** A mapping that holds still *)

Section Quiescent.
Context (L : live) (m : Z → Z) (p : ShmSnapshotPolicy).
Context (HL : mapped_ok L) (Hm : ∀ s a, obs L s a = m a).
Context (Hunits : ∀ u, unit_ok u → unit_enabled p u = true → word_at m (generation_offset u) 4 `mod` 2 = 0).
Context (Hregistry : breadcrumbs p = true → word_at m REGISTRY_GENERATION_OFFSET 4 `mod` 2 = 0).

Definition agrees (b : buffer) : Prop :=
  full b ∧ ∀ a, buf_at b a = if authorized p a then m a else 0.

Lemma still_bytes : bytes_ok m.
Proof. intros a. destruct HL as [_ H]. rewrite <- (Hm 0%nat). apply H. Qed.

Lemma still_seen t t' off v : seen L t t' off v → v = word_at m off 4.
Proof. intros (s & _ & ->). unfold word_at. f_equal. by apply read_bytes_ext. Qed.

Lemma agrees_write32 b off :
  agrees b → off + 4 ≤ SHM_TOTAL_SIZE → (∀ a, off ≤ a < off + 4 → authorized p a = true) →
  agrees (write_owned_u32 b off (word_at m off 4)).
Proof.
  intros [Hf Hb] Hoff Ha. split; [auto with cm|]. intros a. rewrite buf_at_write32 by done.
  destruct (in_range off (off + 4) a) eqn:Hr; [|done]. apply in_range_true in Hr.
  rewrite Ha by done. rewrite (to_ne_word m off 4 still_bytes : to_ne_bytes 4 (word_at m off 4) = _), nth_read_bytes by lia. f_equal. lia.
Qed.

Lemma agrees_write64 b off :
  agrees b → off + 8 ≤ SHM_TOTAL_SIZE → (∀ a, off ≤ a < off + 8 → authorized p a = true) →
  agrees (write_owned_u64 b off (word_at m off 8)).
Proof.
  intros [Hf Hb] Hoff Ha. split; [auto with cm|]. intros a. rewrite buf_at_write64 by done.
  destruct (in_range off (off + 8) a) eqn:Hr; [|done]. apply in_range_true in Hr.
  rewrite Ha by done. rewrite (to_ne_word m off 8 still_bytes : to_ne_bytes 8 (word_at m off 8) = _), nth_read_bytes by lia. f_equal. lia.
Qed.

Lemma still_stable before after u :
  (∀ u, unit_ok u → unit_enabled p u = true → generation_of before u = word_at m (generation_offset u) 4) →
  (∀ u, unit_ok u → unit_enabled p u = true → generation_of after u = word_at m (generation_offset u) 4) →
  unit_ok u → unit_enabled p u = true →
  stable_generation (generation_of before u) (generation_of after u) = true.
Proof.
  intros Hb Ha Hu Hen. rewrite Hb, Ha by done. unfold stable_generation.
  by rewrite !bool_decide_eq_true_2 by auto.
Qed.

Lemma agrees_words b o :
  agrees b → WordU32 o ∈ LIVE_ATOMIC_WORDS → allows_atomic p o = true → o + 4 ≤ SHM_TOTAL_SIZE →
  agrees (write_owned_u32 b o (word_at m o 4)).
Proof.
  intros Hb Ho Hal Hsize. apply agrees_write32; [done..|].
  intros a Ha. by apply (allowed_word_authorized p (WordU32 o)).
Qed.

Lemma words_member o :
  o ∈ [REGISTRY_GENERATION_OFFSET; CONTEXT_GENERATION_OFFSET; SETTINGS_GENERATION_OFFSET;
       ATTACHMENTS_GENERATION_OFFSET; PRODUCER_READY_OFFSET; RING_COUNT_OFFSET] →
  WordU32 o ∈ LIVE_ATOMIC_WORDS ∧ o + 4 ≤ SHM_TOTAL_SIZE.
Proof.
  rewrite !elem_of_cons, elem_of_nil. unfold LIVE_ATOMIC_WORDS. rewrite !elem_of_app, !elem_of_cons.
  intros Ho. split; [destruct_or?; subst; try done; tauto|].
  destruct_or?; subst; try done; unfold_layout; lia.
Qed.

Lemma agrees_header b o :
  agrees b →
  o ∈ [REGISTRY_GENERATION_OFFSET; CONTEXT_GENERATION_OFFSET; SETTINGS_GENERATION_OFFSET;
       ATTACHMENTS_GENERATION_OFFSET; PRODUCER_READY_OFFSET; RING_COUNT_OFFSET] →
  allows_atomic p o = true → agrees (write_owned_u32 b o (word_at m o 4)).
Proof. intros Hb Ho Hal. destruct (words_member o Ho). by apply agrees_words. Qed.

Lemma agrees_unit b u :
  agrees b → unit_ok u → unit_enabled p u = true →
  agrees (write_owned_u32 b (generation_offset u) (word_at m (generation_offset u) 4)).
Proof.
  intros Hb Hu Hen. apply agrees_write32; [done|apply unit_generation_aligned, Hu|].
  intros a Ha. by apply (unit_generation_authorized p u).
Qed.

Section Readings.
Context (before after : LivePublicationState) (t1 t2 t3 t4 : nat).
Context (Hbefore : pub_seen L t1 t2 p before) (Hafter : pub_seen L t3 t4 p after).

Lemma still_before u :
  unit_ok u → unit_enabled p u = true → generation_of before u = word_at m (generation_offset u) 4.
Proof. intros ??. destruct Hbefore as [Hs _]. by eapply still_seen, Hs. Qed.

Lemma still_after u :
  unit_ok u → unit_enabled p u = true → generation_of after u = word_at m (generation_offset u) 4.
Proof. intros ??. destruct Hafter as [Hs _]. by eapply still_seen, Hs. Qed.

Lemma unit_stable u :
  unit_ok u → unit_enabled p u = true →
  stable_generation (generation_of before u) (generation_of after u) = true.
Proof. apply still_stable; [apply still_before|apply still_after]. Qed.

Lemma registry_stable : breadcrumbs p = true →
  registry_is_stable before after = true ∧
  registry_generation after = word_at m REGISTRY_GENERATION_OFFSET 4 ∧
  ring_count after = word_at m RING_COUNT_OFFSET 4.
Proof.
  intros Hc. destruct Hbefore as (_ & Hb & _), Hafter as (_ & Ha & _).
  destruct (Hb Hc) as [Hg1 Hc1], (Ha Hc) as [Hg2 Hc2].
  apply still_seen in Hg1, Hg2, Hc1, Hc2. unfold registry_is_stable, stable_generation.
  rewrite Hg1, Hg2, Hc1, Hc2. by rewrite !bool_decide_eq_true_2 by auto.
Qed.

Lemma publish_agrees b : agrees b → agrees (publish_header b after p).
Proof.
  pose proof registry_stable as Hrs.
  intros Hb. unfold publish_header. destruct Hafter as (_ & _ & Hready).
  apply still_seen in Hready. rewrite Hready.
  assert (Hunit := still_after). cbn beta in Hunit.
  pose proof (Hunit UContext I) as Hctx. pose proof (Hunit USettings I) as Hset.
  pose proof (Hunit UAttachments I) as Hatt.
  cbn [unit_enabled generation_of generation_offset] in Hctx, Hset, Hatt.
  apply agrees_header; [|by auto 10 using list_elem_of_here, list_elem_of_further|done].
  assert (Hb1 : agrees (if breadcrumbs p
    then write_owned_u32 b REGISTRY_GENERATION_OFFSET (registry_generation after) else b)).
  { destruct (breadcrumbs p) eqn:Hc; [|done]. destruct (Hrs eq_refl) as (_ & -> & _).
    apply agrees_header; [done|by auto 10 using list_elem_of_here, list_elem_of_further|done]. }
  set (b1 := if breadcrumbs p then _ else b) in *.
  assert (Hb2 : agrees (if context p then write_owned_u32
      (write_owned_u32 b1 CONTEXT_GENERATION_OFFSET (context_generation after))
      SETTINGS_GENERATION_OFFSET (settings_generation after) else b1)).
  { destruct (context p) eqn:Hc; [|done]. rewrite Hctx, Hset by done.
    apply (agrees_unit _ USettings); [|done..]. by apply (agrees_unit _ UContext). }
  set (b2 := if context p then _ else b1) in *.
  destruct (attachments p) eqn:Hc; [|done]. rewrite Hatt by done. by apply (agrees_unit _ UAttachments).
Qed.

Lemma rings_agree idx b iss :
  breadcrumbs p = true → all_rings idx → agrees b →
  agrees (foldl (sanitize_ring before after) (b, iss) idx).1.
Proof.
  intros Hc Hidx. revert b iss. induction Hidx as [|i idx Hi _ IH]; intros b iss Hb; [done|].
  cbn [foldl]. rewrite sanitize_ring_eq by done. apply IH.
  pose proof (unit_stable (URing i) Hi Hc) as Hst. cbn [generation_of] in Hst. rewrite Hst.
  pose proof (still_after (URing i) Hi Hc) as Hw. cbn [generation_of] in Hw. rewrite Hw.
  by apply agrees_unit.
Qed.

Lemma shots_agree idx b iss :
  screenshots p = true → all_shots idx → agrees b →
  agrees (foldl (sanitize_screenshot before after) (b, iss) idx).1.
Proof.
  intros Hc Hidx. revert b iss. induction Hidx as [|i idx Hi _ IH]; intros b iss Hb; [done|].
  cbn [foldl]. rewrite sanitize_screenshot_eq by done. apply IH.
  pose proof (unit_stable (UShot i) Hi Hc) as Hst. cbn [generation_of] in Hst. rewrite Hst.
  pose proof (still_after (UShot i) Hi Hc) as Hw. cbn [generation_of] in Hw. rewrite Hw.
  by apply agrees_unit.
Qed.

Lemma kept_all u : unit_ok u → kept before after p u = true.
Proof.
  intros Hu. unfold kept. destruct (unit_enabled p u) eqn:Hen; [|done].
  by rewrite unit_stable by done.
Qed.

Lemma sanitized_agrees copied hb :
  agrees copied → (context p = true → hb = word_at m HEARTBEAT_OFFSET 8) →
  agrees (sanitized before after copied hb p).1.
Proof.
  pose proof registry_stable as Hrs.
  intros Hcopied Hhb. rewrite sanitized_stages.
  assert (Hbread : agrees (stage_breadcrumbs before after (publish_header copied after p) p).1).
  { unfold stage_breadcrumbs, sanitize_breadcrumbs. apply publish_agrees in Hcopied.
    destruct (breadcrumbs p) eqn:Hc; [|done]. destruct (Hrs eq_refl) as (-> & _ & ->).
    apply rings_agree; [done|apply seqZ_rings|].
    apply agrees_header; [done|by auto 10 using list_elem_of_here, list_elem_of_further|done]. }
  assert (Hsec : agrees (stage_sections before after
    (stage_breadcrumbs before after (publish_header copied after p) p) p).1).
  { unfold stage_sections. rewrite sanitize_sections_eq, !kept_all by done. done. }
  assert (Hshot : agrees (stage_shots before after (stage_sections before after
    (stage_breadcrumbs before after (publish_header copied after p) p) p) p).1).
  { unfold stage_shots. destruct (screenshots p) eqn:Hc; [|done].
    destruct (stage_sections _ _ _ _). apply shots_agree; [done|apply seqZ_shots|done]. }
  unfold stage_heartbeat. destruct (context p) eqn:Hc; [|done]. cbn [fst]. rewrite Hhb by done.
  apply agrees_write64; [done|unfold_layout; lia|]. intros a Ha.
  apply (allowed_word_authorized p (WordU64 HEARTBEAT_OFFSET)); [|exact Hc|exact Ha].
  unfold LIVE_ATOMIC_WORDS. rewrite !elem_of_app, !elem_of_cons. tauto.
Qed.

Lemma flat_map_nil {A B : Type} (f : A → list B) (l : list A) :
  Forall (λ x, f x = []) l → flat_map f l = [].
Proof. induction 1 as [|x l Hx _ IH]; [done|]. simpl. by rewrite Hx. Qed.

Lemma no_issues : expected_issues before after p = [].
Proof.
  pose proof registry_stable as Hrs.
  unfold expected_issues, unit_issue. rewrite !kept_all by done. cbn [app].
  assert (Hr : (if breadcrumbs p then breadcrumb_issues before after else []) = []).
  { destruct (breadcrumbs p) eqn:Hc; [|done]. unfold breadcrumb_issues.
    destruct (Hrs eq_refl) as (-> & _ & _). apply flat_map_nil.
    eapply Forall_impl; [apply seqZ_rings|]. intros i Hi. unfold ring_issue.
    pose proof (unit_stable (URing i) Hi Hc) as Hst. cbn [generation_of] in Hst. by rewrite Hst. }
  rewrite Hr. destruct (screenshots p) eqn:Hc; [|done]. apply flat_map_nil.
  eapply Forall_impl; [apply seqZ_shots|]. intros i Hi. unfold shot_issue.
  pose proof (unit_stable (UShot i) Hi Hc) as Hst. cbn [generation_of] in Hst. by rewrite Hst.
Qed.

End Readings.

Lemma raw_agrees t t' s :
  snapshot_raw L t t' p s →
  agrees (bytes s) ∧ payload_len s = FOOTER_OFFSET ∧ consistency_issues s = [].
Proof.
  intros (t1 & t2 & before & after & copied & hb & _ & _ & Hb & [Hf Hc] & Ha & Hhb & -> & -> & ->).
  split_and!; [|done|by eapply no_issues].
  eapply sanitized_agrees; [exact Hb|exact Ha| |].
  - split; [done|]. intros a. specialize (Hc a). destruct (authorized p a); [|done].
    destruct Hc as (k & _ & ->). apply Hm.
  - intros Hctx. destruct (Hhb Hctx) as (k & _ & ->). unfold word_at. f_equal. by apply read_bytes_ext.
Qed.

Lemma agrees_validates s :
  agrees (bytes s) → payload_len s = FOOTER_OFFSET →
  word_at m SECTION1_OFFSET 4 = SHM_MAGIC → word_at m (SECTION1_OFFSET + 4) 4 = SHM_VERSION →
  word_at m FOOTER_OFFSET 4 = SHM_CANARY → validate s = Ok tt.
Proof.
  intros [Hf Hb] Hpl Hmagic Hversion Hcanary. unfold full in Hf.
  assert (Hread : ∀ o, 0 ≤ o → o + 4 ≤ SHM_TOTAL_SIZE → (∀ a, o ≤ a < o + 4 → authorized p a = true) →
    get_range (bytes s) o 4 = Some (read_bytes m o 4)).
  { intros o H0 H1 H2. unfold get_range. rewrite decide_True by lia. f_equal.
    apply read_bytes_ext. intros a Ha. by rewrite Hb, H2. }
  assert (Hau : ∀ a, FOOTER_OFFSET ≤ a < FOOTER_OFFSET + 4 ∨ 0 ≤ a < 8 → authorized p a = true).
  { intros a [Ha|Ha].
    - apply authorized_section; [apply section_enabled_spec|..]; unfold_layout; lia.
    - rewrite authorized_header by (unfold_layout; lia). apply negb_true_iff. unfold withheld_header.
      unfold_layout. by decide_ranges. }
  unfold validate. rewrite bool_decide_eq_true_2 by (rewrite Hf; unfold_layout; lia). cbn [negb].
  assert (Hu32 : ∀ o, 0 ≤ o ≤ 4 → or_default (read_u32 s o) = word_at m o 4).
  { intros o Ho. unfold read_u32, read_uint, range, usize_checked_add, USIZE_MAX.
    rewrite decide_True by lia. cbn [mbind option_bind]. rewrite Hpl.
    rewrite decide_False by (unfold_layout; lia).
    rewrite Hread; [done|lia|unfold_layout; lia|]. intros a Ha. apply Hau. right. lia. }
  rewrite !Hu32 by (unfold_layout; lia). rewrite Hmagic, Hversion. rewrite !bool_decide_eq_true_2 by done.
  cbn [negb]. rewrite Hpl, Hread; [|unfold_layout; lia|unfold_layout; lia|intros a Ha; apply Hau; by left].
  change (or_default (from_ne_bytes <$> Some (read_bytes m FOOTER_OFFSET 4))) with (word_at m FOOTER_OFFSET 4).
  rewrite Hcanary. by rewrite bool_decide_eq_true_2 by done.
Qed.

End Quiescent.

(** A valid region that nobody writes to, every enabled unit published. *)
Definition quiescent (L : live) (m : Z → Z) (p : ShmSnapshotPolicy) : Prop :=
  (∀ s a, obs L s a = m a) ∧
  word_at m SECTION1_OFFSET 4 = SHM_MAGIC ∧ word_at m (SECTION1_OFFSET + 4) 4 = SHM_VERSION ∧
  word_at m FOOTER_OFFSET 4 = SHM_CANARY ∧
  (∀ u, unit_ok u → unit_enabled p u = true → word_at m (generation_offset u) 4 `mod` 2 = 0) ∧
  (breadcrumbs p = true → word_at m REGISTRY_GENERATION_OFFSET 4 `mod` 2 = 0).

(** Exact snapshot. Over a readable mapping nobody writes, with a valid
    header and every enabled generation even, a snapshot without a deadline
    always succeeds, reports nothing, and holds exactly the live byte at every
    address the policy authorizes and zero everywhere else. *)
Theorem snapshot_quiescent_exact L m p t :
  mapped_ok L → alloc_ok L = true → map_addr L `mod` REGION_ALIGN = 0 → quiescent L m p →
  ∃ s t', snapshot_owned_until_with_policy None p L t = (Ok s, t') ∧
    consistency_issues s = [] ∧ payload_len s = FOOTER_OFFSET ∧ buf_len (bytes s) = SHM_TOTAL_SIZE ∧
    ∀ a, buf_at (bytes s) a = if authorized p a then m a else 0.
Proof.
  intros HL Halloc Halign (Hm & Hmagic & Hversion & Hcanary & Hunits & Hregistry).
  pose proof (wp_snapshot L HL t None p) as Hwp. unfold wp in Hwp.
  assert (Hraw := raw_agrees L m p HL Hm Hunits Hregistry).
  destruct (snapshot_owned_until_with_policy None p L t) as [[s|e] t'].
  - destruct Hwp as (_ & Hs & _). destruct (Hraw _ _ _ Hs) as ([Hf Hb] & Hpl & Hiss).
    exists s, t'. split_and!; done.
  - exfalso. destruct Hwp as [[_ Hd]|[[_ Ha]|(v & _ & [Hv|(s & t'' & Hs & Hv)])]].
    + done.
    + congruence.
    + unfold validate_mapping_shape in Hv. destruct HL as [Hlen _].
      by rewrite decide_False, decide_True in Hv by lia.
    + destruct (Hraw _ _ _ Hs) as (Hag & Hpl & _).
      by rewrite (agrees_validates m p s) in Hv.
Qed.

Lemma idle_word o : 64 ≤ o → o + 4 ≤ FOOTER_OFFSET → word_at idle_memory o 4 = 0.
Proof.
  intros H1 H2. unfold word_at. rewrite (read_bytes_ext _ (λ _, 0)).
  - unfold read_bytes. done.
  - intros a Ha. unfold idle_memory. repeat (rewrite decide_False by (unfold_layout; lia)). done.
Qed.

Lemma snapshot_quiescent_exact_witness :
  ∃ s t', snapshot_owned_until_with_policy None POLICY_ALL idle_live 0%nat = (Ok s, t') ∧
    consistency_issues s = [] ∧ payload_len s = FOOTER_OFFSET ∧ buf_len (bytes s) = SHM_TOTAL_SIZE ∧
    ∀ a, buf_at (bytes s) a = if authorized POLICY_ALL a then idle_memory a else 0.
Proof.
  apply (snapshot_quiescent_exact idle_live idle_memory POLICY_ALL 0%nat idle_live_ok);
    [reflexivity|reflexivity|].
  split; [reflexivity|]. do 3 (split; [vm_compute; reflexivity|]). split.
  - intros u Hu _. destruct (decide (generation_offset u < 64)) as [Hlt|Hge].
    + destruct u as [ | | |i|i]; [vm_compute; reflexivity..| |];
        exfalso; revert Hlt Hu; unfold unit_ok, generation_offset; unfold_layout; lia.
    + rewrite (idle_word (generation_offset u)); [reflexivity|lia|].
      destruct u as [ | | |i|i]; revert Hu; unfold unit_ok, generation_offset; unfold_layout; lia.
  - intros _. vm_compute. reflexivity.
Defined.
