(* ===== verification/ShmReader.v ===== *)
(** * Parsing an owned snapshot (src/shm/reader.rs, [OwnedShmSnapshot])

    The checked parsers of the sections of an owned snapshot: bounded C strings,
    breadcrumb rings, crash context, producer extension, attachments and
    screenshots. The bytes are untrusted: nothing here assumes them valid.
    Strings are the lists of their UTF-8 bytes. *)

From S2P Require Import Prelude ShmLayout ShmSnapshot ShmFacts.

(** ** UTF-8 and bounded C strings *)

Definition is_continuation (b : Z) : bool := in_range 0x80 0xC0 b.

Definition is_surrogate (c : Z) : bool := in_range 0xD800 0xE000 c.

(** [std::str::from_utf8] with the scalar values it recognizes: overlong forms,
    surrogates and values above U+10FFFF are rejected. *)
Fixpoint utf8_decode (l : list Z) : option (list Z) :=
  match l with
  | [] => Some []
  | b0 :: l1 =>
      if in_range 0 0x80 b0 then cs ← utf8_decode l1; Some (b0 :: cs)
      else match l1 with
      | [] => None
      | b1 :: l2 =>
          if in_range 0xC0 0xE0 b0 then
            let c := (b0 - 0xC0) * 64 + (b1 - 0x80) in
            if is_continuation b1 && bool_decide (0x80 ≤ c)
            then cs ← utf8_decode l2; Some (c :: cs) else None
          else match l2 with
          | [] => None
          | b2 :: l3 =>
              if in_range 0xE0 0xF0 b0 then
                let c := (b0 - 0xE0) * 4096 + (b1 - 0x80) * 64 + (b2 - 0x80) in
                if is_continuation b1 && is_continuation b2 && bool_decide (0x800 ≤ c)
                   && negb (is_surrogate c)
                then cs ← utf8_decode l3; Some (c :: cs) else None
              else match l3 with
              | [] => None
              | b3 :: l4 =>
                  let c := (b0 - 0xF0) * 262144 + (b1 - 0x80) * 4096 + (b2 - 0x80) * 64 + (b3 - 0x80) in
                  if in_range 0xF0 0xF8 b0 && is_continuation b1 && is_continuation b2
                     && is_continuation b3 && in_range 0x10000 0x110000 c
                  then cs ← utf8_decode l4; Some (c :: cs) else None
              end
          end
      end
  end.

(** [char::is_control]: the Unicode category Cc. *)
Definition is_control (c : Z) : bool := in_range 0 0x20 c || in_range 0x7F 0xA0 c.

(** [bytes.iter().position(|byte| *byte == 0)] and the prefix before it. *)
Fixpoint before_nul (bytes : list Z) : option (list Z) :=
  match bytes with
  | [] => None
  | b :: bytes => if decide (b = 0) then Some [] else l ← before_nul bytes; Some (b :: l)
  end.

Definition decode_bounded_c_string (bytes : list Z) : option (list Z) :=
  value ← before_nul bytes;
  chars ← utf8_decode value;
  if existsb is_control chars then None else Some value.

Definition read_string (s : OwnedShmSnapshot) (offset len : Z) : option (list Z) :=
  bytes ← range s offset len; decode_bounded_c_string bytes.

Definition read_i32 (s : OwnedShmSnapshot) (offset : Z) : option Z :=
  z ← read_u32 s offset; Some (if decide (z < 2 ^ 31) then z else z - 2 ^ 32).

(** ** Field lengths and offsets *)

Definition BREADCRUMB_FILE_LEN : Z := 16.
Definition BREADCRUMB_MESSAGE_LEN : Z := 28.
Definition CONTEXT_SESSION_ID_LEN : Z := 37.
Definition CONTEXT_APP_VERSION_LEN : Z := 16.
Definition CONTEXT_GIT_HASH_LEN : Z := 16.
Definition CONTEXT_BUILD_TYPE_LEN : Z := 16.
Definition CONTEXT_BUILD_PRESET_LEN : Z := 16.
Definition CONTEXT_BUILD_TIMESTAMP_LEN : Z := 24.
Definition CONTEXT_COMPILER_LEN : Z := 32.
Definition CONTEXT_OS_VERSION_LEN : Z := 32.
Definition ANNOTATION_KEY_LEN : Z := 32.
Definition ANNOTATION_VALUE_LEN : Z := 64.
Definition EXTENSION_KEY_LEN : Z := 16.
Definition EXTENSION_VALUE_LEN : Z := 20.
Definition ATTACHMENT_LABEL_LEN : Z := 32.
Definition ATTACHMENT_PATH_LEN : Z := 256.

Definition breadcrumb_field (name : string) : Z := offset_of SutBreadcrumb name.
Definition context_field (name : string) : option Z :=
  usize_checked_add CONTEXT_OFFSET (offset_of SutCrashContext name).
Definition settings_field (name : string) : option Z :=
  usize_checked_add SETTINGS_OFFSET (offset_of SutCrashSettingsSnapshot name).

Definition BREADCRUMB_SIZE : Z := Eval vm_compute in csize SutBreadcrumb.
Definition RING_COUNT_FIELD : Z := Eval vm_compute in offset_of SutCrumbRing "count".
Definition RING_WRITE_IDX_FIELD : Z := Eval vm_compute in offset_of SutCrumbRing "write_idx".
Definition RING_BUF_FIELD : Z := Eval vm_compute in offset_of SutCrumbRing "buf".

(** ** Breadcrumbs *)

Record RawBreadcrumb := mkRawBreadcrumb {
  timestamp_ns : Z;
  thread_id : Z;
  category : Z;
  severity : Z;
  file : list Z;
  line : Z;
  message : list Z
}.

Definition read_breadcrumb (s : OwnedShmSnapshot) (base : Z) : option RawBreadcrumb :=
  o ← usize_checked_add base (breadcrumb_field "category"); category ← read_u16 s o;
  o ← usize_checked_add base (breadcrumb_field "severity"); severity ← read_u16 s o;
  if decide (CRUMB_CATEGORY_MAX < category ∨ CRUMB_SEVERITY_MAX < severity) then None else
  o ← usize_checked_add base (breadcrumb_field "timestamp_ns"); timestamp_ns ← read_u64 s o;
  o ← usize_checked_add base (breadcrumb_field "thread_id"); thread_id ← read_u32 s o;
  o ← usize_checked_add base (breadcrumb_field "file"); file ← read_string s o BREADCRUMB_FILE_LEN;
  o ← usize_checked_add base (breadcrumb_field "line"); line ← read_u16 s o;
  o ← usize_checked_add base (breadcrumb_field "message");
  message ← read_string s o BREADCRUMB_MESSAGE_LEN;
  Some (mkRawBreadcrumb timestamp_ns thread_id category severity file line message).

(** The slot visited [reverse_index] steps back from the write index. *)
Definition ring_slot (write_idx reverse_index : Z) : Z :=
  (if decide (reverse_index < write_idx) then write_idx - reverse_index - 1
   else CRUMB_RING_CAPACITY + write_idx - reverse_index - 1) `mod` CRUMB_RING_CAPACITY.

(** One iteration of the inner loop: the entry it pushes, if any. *)
Definition ring_entry (s : OwnedShmSnapshot) (ring_offset write_idx reverse_index : Z)
    : option RawBreadcrumb :=
  buffer_offset ← usize_checked_add ring_offset RING_BUF_FIELD;
  entry_offset ← indexed_offset buffer_offset (ring_slot write_idx reverse_index) BREADCRUMB_SIZE;
  entry ← read_breadcrumb s entry_offset;
  if decide (timestamp_ns entry = 0) then None else Some entry.

Definition ring_entries (s : OwnedShmSnapshot) (ring_offset : Z) : option (list RawBreadcrumb) :=
  count_offset ← usize_checked_add ring_offset RING_COUNT_FIELD;
  write_idx_offset ← usize_checked_add ring_offset RING_WRITE_IDX_FIELD;
  count ← read_u32 s count_offset;
  write_idx ← read_u32 s write_idx_offset;
  let valid_count := Z.min count CRUMB_RING_CAPACITY in
  Some (omap (ring_entry s ring_offset write_idx) (seqZ 0 valid_count)).

(** The outer loop: [break] on the first ring whose header cannot be read. *)
Fixpoint collect_rings (s : OwnedShmSnapshot) (rings : list Z) : list RawBreadcrumb :=
  match rings with
  | [] => []
  | ring_index :: rings =>
      match ring_offset ring_index ≫= ring_entries s with
      | None => []
      | Some entries => entries ++ collect_rings s rings
      end
  end.

Definition by_timestamp (x y : RawBreadcrumb) : bool := bool_decide (timestamp_ns x ≤ timestamp_ns y).

Definition read_breadcrumbs (s : OwnedShmSnapshot) : list RawBreadcrumb :=
  match read_u32 s RING_COUNT_OFFSET with
  | None => []
  | Some ring_count =>
      if decide (CRUMB_MAX_THREADS < ring_count) then []
      else stable_sort by_timestamp (collect_rings s (seqZ 0 ring_count))
  end.

(** ** Crash context *)

Record RawCrashContext := mkRawCrashContext {
  heartbeat_counter : Z;
  session_start_ns : Z;
  session_id : list Z;
  annotations : list (list Z * list Z);
  app_version : list Z;
  build_number : Z;
  git_hash : list Z;
  git_dirty : bool;
  build_type : list Z;
  build_preset : list Z;
  build_timestamp : list Z;
  compiler : list Z;
  os_version : list Z
}.

Definition is_context_issue (i : ShmConsistencyIssue) : bool :=
  match i with IssueContext _ _ => true | _ => false end.
Definition is_settings_issue (i : ShmConsistencyIssue) : bool :=
  match i with IssueSettings _ _ => true | _ => false end.
Definition is_attachments_issue (i : ShmConsistencyIssue) : bool :=
  match i with IssueAttachments _ _ => true | _ => false end.

Definition read_annotation (s : OwnedShmSnapshot) (annotations_offset index : Z)
    : option (list Z * list Z) :=
  annotation_offset ← indexed_offset annotations_offset index (csize SutCrashAnnotation);
  o ← usize_checked_add annotation_offset (offset_of SutCrashAnnotation "key");
  key ← read_string s o ANNOTATION_KEY_LEN;
  o ← usize_checked_add annotation_offset (offset_of SutCrashAnnotation "value");
  value ← read_string s o ANNOTATION_VALUE_LEN;
  Some (key, value).

Definition read_context (s : OwnedShmSnapshot) : option RawCrashContext :=
  if existsb is_context_issue (consistency_issues s) then None else
  o ← context_field "heartbeat_counter"; heartbeat_counter ← read_u64 s o;
  o ← context_field "session_start_ns"; session_start_ns ← read_u64 s o;
  o ← context_field "session_id"; session_id ← read_string s o CONTEXT_SESSION_ID_LEN;
  o ← context_field "app_version"; app_version ← read_string s o CONTEXT_APP_VERSION_LEN;
  o ← context_field "build_number"; build_number ← read_u32 s o;
  o ← context_field "git_hash"; git_hash ← read_string s o CONTEXT_GIT_HASH_LEN;
  o ← context_field "git_dirty"; git_dirty ← read_u8 s o;
  o ← context_field "build_type"; build_type ← read_string s o CONTEXT_BUILD_TYPE_LEN;
  o ← context_field "build_preset"; build_preset ← read_string s o CONTEXT_BUILD_PRESET_LEN;
  o ← context_field "build_timestamp"; build_timestamp ← read_string s o CONTEXT_BUILD_TIMESTAMP_LEN;
  o ← context_field "compiler"; compiler ← read_string s o CONTEXT_COMPILER_LEN;
  o ← context_field "os_version"; os_version ← read_string s o CONTEXT_OS_VERSION_LEN;
  o ← context_field "annotation_count"; annotation_count ← read_i32 s o;
  if decide (annotation_count < 0 ∨ MAX_ANNOTATIONS < annotation_count) then None else
  annotations_offset ← context_field "annotations";
  annotations ← mapM (read_annotation s annotations_offset) (seqZ 0 annotation_count);
  Some (mkRawCrashContext heartbeat_counter session_start_ns session_id annotations app_version
          build_number git_hash (bool_decide (git_dirty ≠ 0)) build_type build_preset
          build_timestamp compiler os_version).

(** ** Producer extension *)

Record RawSettingsSnapshot := mkRawSettings { schema_version : Z; values : list (list Z * list Z) }.

Definition read_extension_entry (s : OwnedShmSnapshot) (entries_offset index : Z)
    : option (list Z * list Z) :=
  base ← indexed_offset entries_offset index (csize SutProducerExtensionEntry);
  key ← read_string s base EXTENSION_KEY_LEN;
  o ← usize_checked_add base EXTENSION_KEY_LEN;
  value ← read_string s o EXTENSION_VALUE_LEN;
  match key with [] => None | _ => Some (key, value) end.

Definition read_settings (s : OwnedShmSnapshot) : option RawSettingsSnapshot :=
  if existsb is_settings_issue (consistency_issues s) then None else
  o ← settings_field "schema_version"; schema_version ← read_u32 s o;
  if decide (schema_version ≠ SUT_PRODUCER_EXTENSION_VERSION) then None else
  o ← settings_field "entry_count"; entry_count ← read_u32 s o;
  if decide (SUT_PRODUCER_EXTENSION_MAX_ENTRIES < entry_count) then None else
  entries_offset ← settings_field "entries";
  values ← mapM (read_extension_entry s entries_offset) (seqZ 0 entry_count);
  Some (mkRawSettings schema_version values).

(** ** Attachments *)

Record RawAttachment := mkRawAttachment { label : list Z; path : list Z }.

Definition ATTACHMENT_COUNT_OFFSET : Z :=
  Eval vm_compute in ATTACHMENT_OFFSET + offset_of ShmAttachmentSection "count".
Definition ATTACHMENT_SLOTS_OFFSET : Z :=
  Eval vm_compute in ATTACHMENT_OFFSET + offset_of ShmAttachmentSection "slots".

Fixpoint attachment_slots (s : OwnedShmSnapshot) (indexes : list Z) : list RawAttachment :=
  match indexes with
  | [] => []
  | index :: rest =>
      match (slot_offset ← indexed_offset ATTACHMENT_SLOTS_OFFSET index (csize ShmAttachmentSlot);
             label_offset ← usize_checked_add slot_offset (offset_of ShmAttachmentSlot "label");
             path_offset ← usize_checked_add slot_offset (offset_of ShmAttachmentSlot "path");
             Some (label_offset, path_offset)) with
      | None => []
      | Some (label_offset, path_offset) =>
          match read_string s label_offset ATTACHMENT_LABEL_LEN,
                read_string s path_offset ATTACHMENT_PATH_LEN with
          | Some label, Some ((_ :: _) as path) =>
              mkRawAttachment label path :: attachment_slots s rest
          | _, _ => attachment_slots s rest
          end
      end
  end.

Definition read_attachments (s : OwnedShmSnapshot) : list RawAttachment :=
  if existsb is_attachments_issue (consistency_issues s) then []
  else match read_u32 s ATTACHMENT_COUNT_OFFSET with
  | None => []
  | Some count =>
      if decide (MAX_ATTACHMENTS < count) then [] else attachment_slots s (seqZ 0 count)
  end.

(** ** Screenshots *)

Record RawScreenshot := mkRawScreenshot {
  shot_timestamp_ns : Z;
  shot_tier : Z;
  width : Z;
  height : Z;
  rgba : list Z
}.

Inductive ScreenshotBudgetExhaustion : Type := FrameLimit | ByteLimit | Deadline.

Record ScreenshotReadOutcome := mkOutcome {
  screenshots_read : list RawScreenshot;
  budget_exhaustion : option ScreenshotBudgetExhaustion;
  unreadable_slots : list Z
}.

(** A candidate: slot index, timestamp, tier. *)
Definition candidate : Type := Z * Z * Z.

(** The scan of the slot table; [break] when a generation word is out of range. *)
Fixpoint scan_slots (s : OwnedShmSnapshot) (indexes : list Z)
    (acc : list candidate * list Z) : list candidate * list Z :=
  match indexes with
  | [] => acc
  | index :: rest =>
      let '(candidates, unreadable) := acc in
      match indexed_offset SCREENSHOT_GENERATIONS_OFFSET index 4 ≫= read_u32 s with
      | None => acc
      | Some valid =>
          if bool_decide (valid = 0) || negb (bool_decide (valid `mod` 2 = 0))
          then scan_slots s rest acc
          else match indexed_offset SCREENSHOT_TIMESTAMPS_OFFSET index 8 ≫= read_u64 s with
          | None => scan_slots s rest (candidates, unreadable ++ [index])
          | Some timestamp_ns =>
              match indexed_offset SCREENSHOT_TIERS_OFFSET index 4 ≫= read_u32 s with
              | None => scan_slots s rest (candidates, unreadable ++ [index])
              | Some tier => scan_slots s rest (candidates ++ [(index, timestamp_ns, tier)], unreadable)
              end
          end
      end
  end.

(** Lower tier first, then newer timestamp, then lower slot. *)
Definition candidate_le (l r : candidate) : bool :=
  let '(li, lt, ltier) := l in
  let '(ri, rt, rtier) := r in
  bool_decide (ltier < rtier ∨ (ltier = rtier ∧ (rt < lt ∨ (rt = lt ∧ li ≤ ri)))).

(** The copy loop. [should_continue n] is the answer of the [n]-th call of the
    caller's deadline closure. *)
Fixpoint copy_shots (s : OwnedShmSnapshot) (max_frames max_bytes : Z) (should_continue : nat → bool)
    (calls : nat) (candidates : list candidate) (shots : list RawScreenshot) (copied_bytes : Z)
    (unreadable : list Z) : ScreenshotReadOutcome :=
  match candidates with
  | [] => mkOutcome shots None unreadable
  | (index, timestamp_ns, tier) :: rest =>
      if decide (max_frames ≤ Z.of_nat (length shots)) then mkOutcome shots (Some FrameLimit) unreadable
      else if match usize_checked_add copied_bytes SCREENSHOT_BYTES_PER_SLOT with
              | None => true
              | Some next => bool_decide (max_bytes < next)
              end then mkOutcome shots (Some ByteLimit) unreadable
      else if negb (should_continue calls) then mkOutcome shots (Some Deadline) unreadable
      else match indexed_offset SCREENSHOT_DATA_OFFSET index SCREENSHOT_BYTES_PER_SLOT
                 ≫= λ offset, range s offset SCREENSHOT_BYTES_PER_SLOT with
      | None =>
          copy_shots s max_frames max_bytes should_continue (S calls) rest shots copied_bytes
            (unreadable ++ [index])
      | Some bytes =>
          copy_shots s max_frames max_bytes should_continue (S calls) rest
            (shots ++ [mkRawScreenshot timestamp_ns tier SCREENSHOT_WIDTH SCREENSHOT_HEIGHT bytes])
            (copied_bytes + SCREENSHOT_BYTES_PER_SLOT) unreadable
      end
  end.

Definition read_screenshots_bounded (s : OwnedShmSnapshot) (max_frames max_bytes : Z)
    (should_continue : nat → bool) : ScreenshotReadOutcome :=
  let '(candidates, unreadable) := scan_slots s (seqZ 0 SCREENSHOT_SLOTS) ([], []) in
  copy_shots s max_frames max_bytes should_continue 0 (stable_sort candidate_le candidates) [] 0 unreadable.

Definition read_screenshots (s : OwnedShmSnapshot) : list RawScreenshot :=
  screenshots_read (read_screenshots_bounded s USIZE_MAX USIZE_MAX (λ _, true)).

(** ** Raw sections persisted by stage 1 *)

Definition raw_breadcrumb_bytes_owned (s : OwnedShmSnapshot) : list Z :=
  default [] (range s SECTION2_OFFSET SECTION2_SIZE).
Definition raw_context_bytes_owned (s : OwnedShmSnapshot) : list Z :=
  default [] (range s CONTEXT_OFFSET (CONTEXT_SIZE + SETTINGS_SIZE)).

(** ** Specification of the strings *)

(** The Unicode scalar values. *)
Definition is_scalar (c : Z) : bool := in_range 0 0x110000 c && negb (is_surrogate c).

Definition utf8_encode_char (c : Z) : list Z :=
  if decide (c < 0x80) then [c]
  else if decide (c < 0x800) then [0xC0 + c / 64; 0x80 + c `mod` 64]
  else if decide (c < 0x10000) then
    [0xE0 + c / 4096; 0x80 + (c / 64) `mod` 64; 0x80 + c `mod` 64]
  else
    [0xF0 + c / 262144; 0x80 + (c / 4096) `mod` 64; 0x80 + (c / 64) `mod` 64; 0x80 + c `mod` 64].

Definition utf8_encode (cs : list Z) : list Z := flat_map utf8_encode_char cs.

(** A string that is safe to put in a report: UTF-8 without control characters. *)
Definition clean_string (v : list Z) : Prop :=
  ∃ cs, Forall (λ c, is_scalar c = true ∧ is_control c = false) cs ∧ v = utf8_encode cs.

Ltac decide_scalars :=
  repeat match goal with
  | |- context [bool_decide (?a ≤ ?b)] => rewrite (bool_decide_eq_true_2 (a ≤ b)) by lia
  end.

Lemma utf8_decode_encode_char c l :
  is_scalar c = true → utf8_decode (utf8_encode_char c ++ l) = cs ← utf8_decode l; Some (c :: cs).
Proof.
  unfold is_scalar, is_surrogate. rewrite andb_true_iff, negb_true_iff, in_range_true, in_range_false.
  intros [Hc Hs]. unfold utf8_encode_char. unfold is_continuation, is_surrogate in *.
  pose proof (Z.div_mod c 64 ltac:(lia)). pose proof (Z.mod_pos_bound c 64 ltac:(lia)).
  pose proof (Z.div_mod (c / 64) 64 ltac:(lia)). pose proof (Z.mod_pos_bound (c / 64) 64 ltac:(lia)).
  pose proof (Z.div_mod (c / 64 / 64) 64 ltac:(lia)). pose proof (Z.mod_pos_bound (c / 64 / 64) 64 ltac:(lia)).
  assert (Hd2 : c / 4096 = c / 64 / 64) by (rewrite Z.div_div by lia; done).
  assert (Hd3 : c / 262144 = c / 64 / 64 / 64) by (rewrite !Z.div_div by lia; done).
  rewrite ?Hd2, ?Hd3. clear Hd2 Hd3. set (q1 := c / 64) in *. set (r1 := c `mod` 64) in *.
  set (q2 := q1 / 64) in *. set (r2 := q1 `mod` 64) in *.
  set (q3 := q2 / 64) in *. set (r3 := q2 `mod` 64) in *. clearbody q1 r1 q2 r2 q3 r3.
  repeat case_decide; cbn [app utf8_decode]; unfold is_continuation, is_surrogate.
  - by decide_ranges.
  - decide_ranges. decide_scalars. cbn [andb].
    replace ((192 + q1 - 192) * 64 + (128 + r1 - 128)) with c by lia. done.
  - replace ((224 + q2 - 224) * 4096 + (128 + r2 - 128) * 64 + (128 + r1 - 128)) with c by lia.
    decide_ranges. decide_scalars. done.
  - replace ((240 + q3 - 240) * 262144 + (128 + r3 - 128) * 4096 + (128 + r2 - 128) * 64 + (128 + r1 - 128))
      with c by lia.
    decide_ranges. done.
Qed.

Lemma utf8_decode_encode cs :
  Forall (λ c, is_scalar c = true) cs → utf8_decode (utf8_encode cs) = Some cs.
Proof.
  induction 1 as [|c cs Hc _ IH]; [done|]. cbn [utf8_encode flat_map].
  rewrite utf8_decode_encode_char by done. change (flat_map utf8_encode_char cs) with (utf8_encode cs).
  by rewrite IH.
Qed.

Lemma encode_char_1 c : c < 0x80 → utf8_encode_char c = [c].
Proof. intros. unfold utf8_encode_char. by rewrite decide_True. Qed.

Lemma div_digit q r : 0 ≤ r < 64 → (q * 64 + r) / 64 = q.
Proof. intros. symmetry. apply (Z.div_unique _ _ _ r); lia. Qed.

Lemma mod_digit q r : 0 ≤ r < 64 → (q * 64 + r) `mod` 64 = r.
Proof. intros. symmetry. apply (Z.mod_unique _ _ q); lia. Qed.

Lemma encode_char_2 a b :
  0 ≤ b < 64 → 0x80 ≤ a * 64 + b < 0x800 → utf8_encode_char (a * 64 + b) = [0xC0 + a; 0x80 + b].
Proof.
  intros. unfold utf8_encode_char. rewrite decide_False, decide_True by lia.
  by rewrite div_digit, mod_digit by lia.
Qed.

Lemma encode_char_3 a b c :
  0 ≤ b < 64 → 0 ≤ c < 64 → 0x800 ≤ a * 4096 + b * 64 + c < 0x10000 →
  utf8_encode_char (a * 4096 + b * 64 + c) = [0xE0 + a; 0x80 + b; 0x80 + c].
Proof.
  intros. unfold utf8_encode_char. rewrite decide_False, decide_False, decide_True by lia.
  replace (a * 4096 + b * 64 + c) with ((a * 64 + b) * 64 + c) by lia.
  change 4096 with (64 * 64). rewrite <- Z.div_div by lia.
  by rewrite !div_digit, !mod_digit by lia.
Qed.

Lemma encode_char_4 a b c d :
  0 ≤ b < 64 → 0 ≤ c < 64 → 0 ≤ d < 64 → 0x10000 ≤ a * 262144 + b * 4096 + c * 64 + d →
  utf8_encode_char (a * 262144 + b * 4096 + c * 64 + d) = [0xF0 + a; 0x80 + b; 0x80 + c; 0x80 + d].
Proof.
  intros. unfold utf8_encode_char. rewrite !decide_False by lia.
  replace (a * 262144 + b * 4096 + c * 64 + d) with (((a * 64 + b) * 64 + c) * 64 + d) by lia.
  change 262144 with (64 * (64 * 64)). change 4096 with (64 * 64). rewrite <- !Z.div_div by lia.
  by rewrite !div_digit, !mod_digit by lia.
Qed.

Lemma utf8_encode_decode l cs :
  utf8_decode l = Some cs → Forall (λ c, is_scalar c = true) cs ∧ l = utf8_encode cs.
Proof.
  remember (length l) as n eqn:Hn. revert l cs Hn.
  induction (lt_wf n) as [n _ IH]. intros l cs -> Hdec.
  assert (Hstep : ∀ l' c rest, (length l' < length l)%nat → is_scalar c = true →
    utf8_encode_char c ++ l' = l → (cs ← utf8_decode l'; Some (c :: cs)) = Some rest →
    Forall (λ c, is_scalar c = true) rest ∧ l = utf8_encode rest).
  { intros l' c rest Hlen Hc Hl Hr. destruct (utf8_decode l') as [cs'|] eqn:Hl'; [|done].
    injection Hr as <-. destruct (IH _ Hlen l' cs' eq_refl Hl') as [Hcs ->].
    split; [by constructor|]. by rewrite <- Hl. }
  destruct l as [|b0 l1]; [injection Hdec as <-; done|]. cbn [utf8_decode] in Hdec.
  destruct (in_range 0 0x80 b0) eqn:H0.
  { apply in_range_true in H0. apply (Hstep l1 b0); [simpl; lia| |by rewrite encode_char_1 by lia|done].
    unfold is_scalar, is_surrogate. by decide_ranges. }
  destruct l1 as [|b1 l2]; [done|]. destruct (in_range 0xC0 0xE0 b0) eqn:H1.
  { case_match eqn:Hif; [|done]. unfold is_continuation in Hif.
    rewrite andb_true_iff, in_range_true, bool_decide_eq_true in Hif. apply in_range_true in H1.
    eapply (Hstep l2); [simpl; lia| | |exact Hdec].
    - unfold is_scalar, is_surrogate. by decide_ranges.
    - rewrite encode_char_2 by lia. simpl. repeat f_equal; lia. }
  destruct l2 as [|b2 l3]; [done|]. destruct (in_range 0xE0 0xF0 b0) eqn:H2.
  { case_match eqn:Hif; [|done]. unfold is_continuation, is_surrogate in Hif.
    rewrite !andb_true_iff, !in_range_true, bool_decide_eq_true, negb_true_iff, in_range_false in Hif.
    apply in_range_true in H2. eapply (Hstep l3); [simpl; lia| | |exact Hdec].
    - unfold is_scalar, is_surrogate. rewrite andb_true_iff, negb_true_iff, in_range_true, in_range_false. lia.
    - rewrite encode_char_3 by lia. simpl. repeat f_equal; lia. }
  destruct l3 as [|b3 l4]; [done|]. case_match eqn:Hif; [|done]. unfold is_continuation in Hif.
  rewrite !andb_true_iff, !in_range_true in Hif. eapply (Hstep l4); [simpl; lia| | |exact Hdec].
  - unfold is_scalar, is_surrogate. rewrite andb_true_iff, negb_true_iff, in_range_true, in_range_false. lia.
  - rewrite encode_char_4 by lia. simpl. repeat f_equal; lia.
Qed.

Lemma before_nul_spec bytes v :
  before_nul bytes = Some v ↔ Forall (λ b, b ≠ 0) v ∧ ∃ rest, bytes = v ++ 0 :: rest.
Proof.
  revert v. induction bytes as [|b bytes IH]; intros v; simpl.
  - split; [done|]. intros [_ (rest & H)]. by destruct v.
  - case_decide as Hb.
    + subst b. split.
      * intros [= <-]. split; [done|]. by exists bytes.
      * intros [Hv (rest & Heq)]. destruct v as [|x v]; [done|]. simplify_eq/=. by inversion Hv.
    + split.
      * destruct (before_nul bytes) as [l|]; [|done]. intros [= <-].
        destruct (proj1 (IH l) eq_refl) as [Hl (rest & ->)]. split; [by constructor|]. by exists rest.
      * intros [Hv (rest & Heq)]. destruct v as [|x v]; simplify_eq/=.
        inversion Hv; subst. by rewrite (proj2 (IH v)) by eauto.
Qed.

Lemma utf8_encode_no_nul cs :
  Forall (λ c, is_scalar c = true ∧ is_control c = false) cs → Forall (λ b, b ≠ 0) (utf8_encode cs).
Proof.
  induction 1 as [|c cs [Hc Hctl] _ IH]; [constructor|]. apply Forall_app. split; [|exact IH].
  unfold is_scalar, is_control, is_surrogate in *.
  rewrite andb_true_iff, negb_true_iff, in_range_true, in_range_false in Hc.
  rewrite orb_false_iff, !in_range_false in Hctl.
  unfold utf8_encode_char. repeat case_decide; repeat constructor; mod_lia.
Qed.

Lemma decode_bounded_spec bytes v :
  decode_bounded_c_string bytes = Some v ↔ clean_string v ∧ ∃ rest, bytes = v ++ 0 :: rest.
Proof.
  unfold decode_bounded_c_string, clean_string. split.
  - destruct (before_nul bytes) as [w|] eqn:Hnul; [|done]. simpl.
    apply before_nul_spec in Hnul as [_ Hrest].
    destruct (utf8_decode w) as [cs|] eqn:Hdec; [|done]. simpl.
    destruct (existsb is_control cs) eqn:Hctl; [done|]. intros [= <-].
    apply utf8_encode_decode in Hdec as [Hcs ->]. split; [|done]. exists cs. split; [|done].
    rewrite Forall_forall in Hcs |- *. intros c Hc. split; [by apply Hcs|].
    apply not_true_is_false. intros Hc'. apply not_true_iff_false in Hctl. apply Hctl.
    apply existsb_exists. exists c. by rewrite <- list_elem_of_In.
  - intros [(cs & Hcs & ->) Hrest].
    assert (Hscalar : Forall (λ c, is_scalar c = true) cs) by (eapply Forall_impl; [exact Hcs|]; by intros ? []).
    rewrite (proj2 (before_nul_spec bytes (utf8_encode cs))) by eauto using utf8_encode_no_nul. simpl.
    rewrite utf8_decode_encode by done. simpl.
    destruct (existsb is_control cs) eqn:Hctl; [|done].
    apply existsb_exists in Hctl as (c & Hc & Hctl). rewrite <- list_elem_of_In in Hc.
    rewrite Forall_forall in Hcs. destruct (Hcs c Hc). congruence.
Qed.

(** A bounded C string decodes exactly when the bytes before the first NUL
    are the UTF-8 encoding of scalar values none of which is a control
    character, and the result is those bytes: nothing unterminated, malformed,
    overlong, surrogate or carrying terminal control codes gets through. *)
Theorem decode_bounded_c_string_exact bytes v :
  decode_bounded_c_string bytes = Some v ↔ clean_string v ∧ ∃ rest, bytes = v ++ 0 :: rest.
Proof. apply decode_bounded_spec. Qed.

Lemma read_string_clean s o n v : read_string s o n = Some v → clean_string v.
Proof.
  unfold read_string. destruct (range s o n) as [bytes|]; [|done]. simpl.
  intros H. by apply decode_bounded_spec in H as [Hv _].
Qed.

(** Peel the binds of a successful parse. *)
Ltac peel H :=
  repeat match type of H with
  | (?m ≫= _) = Some _ =>
      let x := fresh "v" in let E := fresh "E" in
      destruct m as [x|] eqn:E; [cbn [mbind option_bind] in H | discriminate H]
  | (if ?c then _ else _) = Some _ => destruct c eqn:?; [try discriminate H | try discriminate H]
  end.

(** ** Breadcrumbs *)

Lemma read_breadcrumb_valid s base b :
  read_breadcrumb s base = Some b →
  category b ≤ CRUMB_CATEGORY_MAX ∧ severity b ≤ CRUMB_SEVERITY_MAX ∧
  clean_string (file b) ∧ clean_string (message b).
Proof.
  unfold read_breadcrumb. intros H. peel H. injection H as <-. cbn [category severity file message].
  split_and!; [lia|lia|by eapply read_string_clean..].
Qed.

(** The shape every live snapshot has: the whole region was copied. *)
Definition complete (s : OwnedShmSnapshot) : Prop :=
  payload_len s = FOOTER_OFFSET ∧ buf_len (bytes s) = SHM_TOTAL_SIZE.

Lemma range_complete s o n :
  complete s → 0 ≤ n → o + n ≤ FOOTER_OFFSET → range s o n = Some (read_bytes (buf_at (bytes s)) o n).
Proof.
  intros [Hp Hb] Hn Ho. unfold range, usize_checked_add, USIZE_MAX.
  rewrite decide_True by (unfold_layout; lia). cbn [mbind option_bind].
  rewrite Hp, decide_False by lia. unfold get_range. by rewrite decide_True by (unfold_layout; lia).
Qed.

Lemma read_uint_complete s o n :
  complete s → 0 ≤ n → o + n ≤ FOOTER_OFFSET →
  read_uint n s o = Some (word_at (buf_at (bytes s)) o n).
Proof. intros. unfold read_uint. by rewrite range_complete. Qed.

Definition ring_word (s : OwnedShmSnapshot) (r f : Z) : Z :=
  word_at (buf_at (bytes s)) (RINGS_OFFSET + r * RING_SIZE + f) 4.

(** The address of the entry written [k] entries before the newest one. *)
Definition entry_address (s : OwnedShmSnapshot) (r k : Z) : Z :=
  RINGS_OFFSET + r * RING_SIZE + RING_BUF_FIELD +
  ((ring_word s r RING_WRITE_IDX_FIELD - 1 - k) `mod` CRUMB_RING_CAPACITY) * BREADCRUMB_SIZE.

Definition live_entry (s : OwnedShmSnapshot) (a : Z) : option RawBreadcrumb :=
  entry ← read_breadcrumb s a; if decide (timestamp_ns entry = 0) then None else Some entry.

Definition live_count (s : OwnedShmSnapshot) (r : Z) : Z :=
  Z.min (ring_word s r RING_COUNT_FIELD) CRUMB_RING_CAPACITY.

Lemma ring_slot_mod w k : ring_slot w k = (w - 1 - k) `mod` CRUMB_RING_CAPACITY.
Proof.
  unfold ring_slot. case_decide.
  - f_equal. lia.
  - replace (CRUMB_RING_CAPACITY + w - k - 1) with (w - 1 - k + 1 * CRUMB_RING_CAPACITY) by lia.
    apply Z_mod_plus_full.
Qed.

Lemma ring_entry_complete s r w k :
  0 ≤ r < CRUMB_MAX_THREADS → w = ring_word s r RING_WRITE_IDX_FIELD →
  ring_entry s (RINGS_OFFSET + r * RING_SIZE) w k = live_entry s (entry_address s r k).
Proof.
  intros Hr ->. unfold ring_entry, live_entry, entry_address, usize_checked_add, USIZE_MAX.
  rewrite decide_True by (unfold RING_BUF_FIELD; unfold_layout; lia). cbn [mbind option_bind].
  pose proof (Z.mod_pos_bound (ring_word s r RING_WRITE_IDX_FIELD - 1 - k) CRUMB_RING_CAPACITY
    ltac:(unfold_layout; lia)).
  rewrite ring_slot_mod. set (j := _ `mod` CRUMB_RING_CAPACITY) in *. clearbody j.
  unfold indexed_offset, usize_checked_mul, usize_checked_add, USIZE_MAX.
  unfold RING_BUF_FIELD, BREADCRUMB_SIZE. unfold_layout.
  rewrite decide_True by lia. cbn [mbind option_bind]. by rewrite decide_True by lia.
Qed.

Lemma omap_ext_in {A B : Type} (f g : A → option B) (l : list A) :
  Forall (λ x, f x = g x) l → omap f l = omap g l.
Proof. induction 1 as [|x l Hx _ IH]; [done|]. unfold omap in *. simpl. by rewrite Hx, IH. Qed.

Lemma ring_entries_complete s r :
  complete s → 0 ≤ r < CRUMB_MAX_THREADS →
  ring_offset r ≫= ring_entries s =
    Some (omap (λ k, live_entry s (entry_address s r k)) (seqZ 0 (live_count s r))).
Proof.
  intros Hs Hr. unfold ring_offset. unfold indexed_offset, usize_checked_mul, usize_checked_add, USIZE_MAX.
  rewrite decide_True by (unfold_layout; lia). cbn [mbind option_bind].
  rewrite decide_True by (unfold_layout; lia). cbn [mbind option_bind].
  unfold ring_entries, usize_checked_add, USIZE_MAX, RING_COUNT_FIELD, RING_WRITE_IDX_FIELD.
  rewrite !decide_True by (unfold_layout; lia). cbn [mbind option_bind].
  unfold read_u32. rewrite !read_uint_complete by (try done; unfold_layout; lia). cbn [mbind option_bind].
  f_equal. apply omap_ext_in. apply Forall_forall. intros k _. by apply ring_entry_complete.
Qed.

Lemma collect_rings_complete s rings :
  complete s → Forall (λ r, 0 ≤ r < CRUMB_MAX_THREADS) rings →
  collect_rings s rings =
    flat_map (λ r, omap (λ k, live_entry s (entry_address s r k)) (seqZ 0 (live_count s r))) rings.
Proof.
  intros Hs. induction 1 as [|r rings Hr _ IH]; [done|]. cbn [collect_rings flat_map].
  by rewrite ring_entries_complete, IH by done.
Qed.

Lemma entry_address_inj s r k k' :
  0 ≤ k < CRUMB_RING_CAPACITY → 0 ≤ k' < CRUMB_RING_CAPACITY →
  entry_address s r k = entry_address s r k' → k = k'.
Proof.
  unfold entry_address, BREADCRUMB_SIZE. intros Hk Hk' Heq.
  set (w := ring_word s r RING_WRITE_IDX_FIELD) in *. clearbody w. unfold CRUMB_RING_CAPACITY in *.
  assert (Hm : (w - 1 - k) `mod` 512 = (w - 1 - k') `mod` 512) by lia. clear Heq. mod_lia.
Qed.

Lemma by_timestamp_total x y : by_timestamp x y = true ∨ by_timestamp y x = true.
Proof. unfold by_timestamp. rewrite !bool_decide_eq_true. lia. Qed.

Lemma by_timestamp_trans x y z :
  by_timestamp x y = true → by_timestamp y z = true → by_timestamp x z = true.
Proof. unfold by_timestamp. rewrite !bool_decide_eq_true. lia. Qed.

(** Breadcrumbs of a live snapshot. With at most the schema's number of
    registered rings, the result holds exactly the decodable entries with a
    timestamp among the newest [min(count, capacity)] slots of every registered
    ring, each slot once, newest first within a ring, stably sorted by
    timestamp; with a corrupt ring count it is empty. *)
Theorem read_breadcrumbs_exact s :
  complete s →
  let n := word_at (buf_at (bytes s)) RING_COUNT_OFFSET 4 in
  let live := flat_map (λ r, omap (λ k, live_entry s (entry_address s r k)) (seqZ 0 (live_count s r)))
                (seqZ 0 n) in
  (CRUMB_MAX_THREADS < n → read_breadcrumbs s = []) ∧
  (n ≤ CRUMB_MAX_THREADS →
     StronglySorted (λ x y, timestamp_ns x ≤ timestamp_ns y) (read_breadcrumbs s) ∧
     read_breadcrumbs s ≡ₚ live ∧
     (∀ b, List.filter (equivalent by_timestamp b) (read_breadcrumbs s) =
           List.filter (equivalent by_timestamp b) live) ∧
     ∀ r, NoDup (entry_address s r <$> seqZ 0 (live_count s r))).
Proof.
  intros Hs n live. unfold read_breadcrumbs. unfold read_u32.
  rewrite read_uint_complete by (try done; unfold_layout; lia). fold n. split; intros Hn.
  { by rewrite decide_True. }
  rewrite decide_False by lia.
  rewrite collect_rings_complete; [|done|apply Forall_forall; intros r Hr; apply elem_of_seqZ in Hr; lia].
  fold live. split_and!.
  - eapply StronglySorted_weaken;
      [|apply stable_sort_sorted; [apply by_timestamp_total|apply by_timestamp_trans]].
    intros x y H. by apply bool_decide_eq_true in H.
  - apply stable_sort_perm.
  - intros b. apply stable_sort_stable; [apply by_timestamp_total|apply by_timestamp_trans].
  - intros r. apply NoDup_fmap_2_strong; [|apply NoDup_seqZ]. intros k k' Hk Hk'.
    apply elem_of_seqZ in Hk, Hk'. unfold live_count in *. apply entry_address_inj; lia.
Qed.

(** ** Screenshots *)

Definition shot_word (s : OwnedShmSnapshot) (base stride i : Z) : Z :=
  word_at (buf_at (bytes s)) (base + i * stride) stride.

(** A slot's generation: zero is empty, odd is being written. *)
Definition published (s : OwnedShmSnapshot) (i : Z) : bool :=
  let g := shot_word s SCREENSHOT_GENERATIONS_OFFSET 4 i in
  negb (bool_decide (g = 0)) && bool_decide (g `mod` 2 = 0).

Definition candidate_of (s : OwnedShmSnapshot) (i : Z) : candidate :=
  (i, shot_word s SCREENSHOT_TIMESTAMPS_OFFSET 8 i, shot_word s SCREENSHOT_TIERS_OFFSET 4 i).

(** Every published slot, in capture priority order. *)
Definition priority_order (s : OwnedShmSnapshot) : list candidate :=
  stable_sort candidate_le
    (candidate_of s <$> List.filter (published s) (seqZ 0 SCREENSHOT_SLOTS)).

Definition shot_of (s : OwnedShmSnapshot) (c : candidate) : RawScreenshot :=
  let '(i, ts, tier) := c in
  mkRawScreenshot ts tier SCREENSHOT_WIDTH SCREENSHOT_HEIGHT
    (read_bytes (buf_at (bytes s)) (SCREENSHOT_DATA_OFFSET + i * SCREENSHOT_BYTES_PER_SLOT)
       SCREENSHOT_BYTES_PER_SLOT).

Lemma indexed_offset_small base i stride :
  0 ≤ i < SCREENSHOT_SLOTS → 0 ≤ stride ≤ SCREENSHOT_BYTES_PER_SLOT → 0 ≤ base ≤ FOOTER_OFFSET →
  indexed_offset base i stride = Some (base + i * stride).
Proof.
  intros. unfold indexed_offset, usize_checked_mul, usize_checked_add, USIZE_MAX. unfold_layout.
  rewrite decide_True by nia. cbn [mbind option_bind]. by rewrite decide_True by nia.
Qed.

Lemma scan_slots_complete s idx cs us :
  complete s → Forall (λ i, 0 ≤ i < SCREENSHOT_SLOTS) idx →
  scan_slots s idx (cs, us) = (cs ++ (candidate_of s <$> List.filter (published s) idx), us).
Proof.
  intros Hs Hidx. revert cs. induction Hidx as [|i idx Hi _ IH]; intros cs.
  { cbn. by rewrite app_nil_r. }
  cbn [scan_slots]. rewrite !indexed_offset_small by (unfold_layout; lia). cbn [mbind option_bind].
  unfold read_u32, read_u64. rewrite !read_uint_complete by (try done; unfold_layout; lia).
  cbn [List.filter]. unfold published at 1. fold (shot_word s SCREENSHOT_GENERATIONS_OFFSET 4 i).
  destruct (bool_decide (shot_word s SCREENSHOT_GENERATIONS_OFFSET 4 i = 0)); cbn [orb negb andb]; [apply IH|].
  destruct (bool_decide _); cbn [negb]; [|apply IH]. rewrite IH, <- app_assoc. done.
Qed.

Definition taken_spec (s : OwnedShmSnapshot) (max_frames max_bytes : Z) (should_continue : nat → bool)
    (total : nat) (stop : option ScreenshotBudgetExhaustion) (n : nat) : Prop :=
  (n ≤ total)%nat ∧ (∀ k, (k < n)%nat → should_continue k = true) ∧
  (0 ≤ max_frames → Z.of_nat n ≤ max_frames) ∧
  (0 ≤ max_bytes → Z.of_nat n * SCREENSHOT_BYTES_PER_SLOT ≤ max_bytes) ∧
  match stop with
  | None => n = total
  | Some FrameLimit => (n < total)%nat ∧ max_frames ≤ Z.of_nat n
  | Some ByteLimit => (n < total)%nat ∧ max_bytes < (Z.of_nat n + 1) * SCREENSHOT_BYTES_PER_SLOT
  | Some Deadline => (n < total)%nat ∧ should_continue n = false
  end.

Lemma copy_shots_complete s mf mb sc l j shots us :
  complete s → Forall (λ c, 0 ≤ c.1.1 < SCREENSHOT_SLOTS) l →
  Z.of_nat (j + length l) ≤ SCREENSHOT_SLOTS → length shots = j →
  (∀ k, (k < j)%nat → sc k = true) → (0 ≤ mf → Z.of_nat j ≤ mf) →
  (0 ≤ mb → Z.of_nat j * SCREENSHOT_BYTES_PER_SLOT ≤ mb) →
  ∃ stop n,
    copy_shots s mf mb sc j l shots (Z.of_nat j * SCREENSHOT_BYTES_PER_SLOT) us =
      mkOutcome (shots ++ (shot_of s <$> take n l)) stop us ∧
    taken_spec s mf mb sc (j + length l) stop (j + n).
Proof.
  intros Hs Hl. revert j shots. induction Hl as [|[[i ts] tier] l Hi _ IH];
    intros j shots Hj Hlen Hsc Hmf Hmb; cbn [copy_shots].
  { exists None, 0%nat. cbn [take fmap list_fmap length]. rewrite app_nil_r. split; [done|].
    unfold taken_spec. rewrite Nat.add_0_r. auto. }
  assert (Hstop : ∀ stop, match stop with
      | None => False
      | Some FrameLimit => mf ≤ Z.of_nat j
      | Some ByteLimit => mb < (Z.of_nat j + 1) * SCREENSHOT_BYTES_PER_SLOT
      | Some Deadline => sc j = false
      end → ∃ stop' n, mkOutcome shots stop us =
        mkOutcome (shots ++ (shot_of s <$> take n ((i, ts, tier) :: l))) stop' us ∧
        taken_spec s mf mb sc (j + length ((i, ts, tier) :: l)) stop' (j + n)).
  { intros stop Hst. exists stop, 0%nat. cbn [take fmap list_fmap]. rewrite app_nil_r. split; [done|].
    unfold taken_spec. rewrite Nat.add_0_r. cbn [length] in *.
    split_and!; [lia|done..|]. destruct stop as [[]|]; [split; [lia|done]..|done]. }
  cbn [length fst] in *. rewrite Hlen. case_decide; [by apply Hstop|].
  unfold usize_checked_add, USIZE_MAX. rewrite decide_True by (unfold_layout; lia).
  case_bool_decide as Hbytes; [apply Hstop; lia|].
  destruct (sc j) eqn:Hcont; cbn [negb]; [|by apply Hstop].
  rewrite indexed_offset_small by (unfold_layout; lia). cbn [mbind option_bind].
  rewrite range_complete by (try done; unfold_layout; lia).
  replace (Z.of_nat j * SCREENSHOT_BYTES_PER_SLOT + SCREENSHOT_BYTES_PER_SLOT)
    with (Z.of_nat (S j) * SCREENSHOT_BYTES_PER_SLOT) by lia.
  destruct (IH (S j) (shots ++ [shot_of s (i, ts, tier)])) as (stop & n & Heq & Hspec).
  - lia.
  - rewrite length_app, Hlen. simpl. lia.
  - intros k Hk. destruct (decide (k = j)) as [->|]; [done|]. apply Hsc. lia.
  - lia.
  - lia.
  - exists stop, (S n). split.
    { etransitivity; [exact Heq|]. cbn [take fmap list_fmap]. by rewrite <- app_assoc. }
    by replace (j + S (length l))%nat with (S j + length l)%nat by lia;
       replace (j + S n)%nat with (S j + n)%nat by lia.
Qed.

Lemma candidate_le_total x y : candidate_le x y = true ∨ candidate_le y x = true.
Proof. destruct x as [[? ?] ?], y as [[? ?] ?]. unfold candidate_le. rewrite !bool_decide_eq_true. lia. Qed.

Lemma candidate_le_trans x y z :
  candidate_le x y = true → candidate_le y z = true → candidate_le x z = true.
Proof.
  destruct x as [[? ?] ?], y as [[? ?] ?], z as [[? ?] ?]. unfold candidate_le.
  rewrite !bool_decide_eq_true. lia.
Qed.

Lemma read_screenshots_bounded_order s mf mb sc :
  complete s → read_screenshots_bounded s mf mb sc = copy_shots s mf mb sc 0 (priority_order s) [] 0 [].
Proof.
  intros Hs. unfold read_screenshots_bounded, priority_order.
  assert (Hidx : Forall (λ i, 0 ≤ i < SCREENSHOT_SLOTS) (seqZ 0 SCREENSHOT_SLOTS)) by (apply Forall_seqZ; lia).
  revert Hidx. generalize (seqZ 0 SCREENSHOT_SLOTS). intros idx Hidx.
  by rewrite scan_slots_complete.
Qed.

Lemma length_priority_order s : Z.of_nat (length (priority_order s)) ≤ SCREENSHOT_SLOTS.
Proof.
  unfold priority_order. rewrite stable_sort_perm, length_fmap.
  assert (Hlen : Z.of_nat (length (seqZ 0 SCREENSHOT_SLOTS)) = SCREENSHOT_SLOTS) by (by rewrite length_seqZ).
  revert Hlen. generalize (seqZ 0 SCREENSHOT_SLOTS). intros idx Hlen.
  pose proof (filter_length_le (published s) idx). lia.
Qed.

Lemma elem_of_priority_order s c :
  c ∈ priority_order s ↔ ∃ i, 0 ≤ i < SCREENSHOT_SLOTS ∧ published s i = true ∧ c = candidate_of s i.
Proof.
  unfold priority_order. rewrite elem_of_stable_sort, list_elem_of_fmap.
  setoid_rewrite list_elem_of_In. setoid_rewrite filter_In. setoid_rewrite <- list_elem_of_In.
  setoid_rewrite elem_of_seqZ. split.
  - intros (i & -> & Hi & Hp). exists i. split_and!; [lia|lia|done|done].
  - intros (i & Hi & Hp & ->). exists i. split_and!; [done|lia|lia|done].
Qed.

(** Screenshot selection of a live snapshot. The frames returned are the
    best [n] of the published slots in capture priority order (lower tier, then
    newer, then lower slot), where [n] respects the frame budget, the byte
    budget and the deadline, and is cut short only for the reason reported;
    no slot is ever called unreadable. *)
Theorem read_screenshots_bounded_exact s max_frames max_bytes should_continue :
  complete s →
  StronglySorted (λ x y, candidate_le x y = true) (priority_order s) ∧
  (∀ c, c ∈ priority_order s ↔
     ∃ i, 0 ≤ i < SCREENSHOT_SLOTS ∧ published s i = true ∧ c = candidate_of s i) ∧
  ∃ stop n,
    read_screenshots_bounded s max_frames max_bytes should_continue =
      mkOutcome (shot_of s <$> take n (priority_order s)) stop [] ∧
    (n ≤ length (priority_order s))%nat ∧
    (∀ k, (k < n)%nat → should_continue k = true) ∧
    (0 ≤ max_frames → Z.of_nat n ≤ max_frames) ∧
    (0 ≤ max_bytes → Z.of_nat n * SCREENSHOT_BYTES_PER_SLOT ≤ max_bytes) ∧
    match stop with
    | None => n = length (priority_order s)
    | Some FrameLimit => (n < length (priority_order s))%nat ∧ max_frames ≤ Z.of_nat n
    | Some ByteLimit => (n < length (priority_order s))%nat ∧
        max_bytes < (Z.of_nat n + 1) * SCREENSHOT_BYTES_PER_SLOT
    | Some Deadline => (n < length (priority_order s))%nat ∧ should_continue n = false
    end.
Proof.
  intros Hs. split; [apply stable_sort_sorted; [apply candidate_le_total|apply candidate_le_trans]|].
  split; [apply elem_of_priority_order|]. rewrite read_screenshots_bounded_order by done.
  assert (Hrange : Forall (λ c : candidate, 0 ≤ c.1.1 < SCREENSHOT_SLOTS) (priority_order s)).
  { apply Forall_forall. intros c Hc. by apply elem_of_priority_order in Hc as (i & Hi & _ & ->). }
  pose proof (length_priority_order s) as Hlen. revert Hlen Hrange.
  generalize (priority_order s). intros order Hlen Hrange.
  destruct (copy_shots_complete s max_frames max_bytes should_continue order 0 [] [] Hs Hrange)
    as (stop & n & Heq & Hspec); [exact Hlen|reflexivity|intros k Hk; inversion Hk
    |lia|unfold_layout; lia|].
  exists stop, n. split; [exact Heq|exact Hspec].
Qed.

(** ** Everything a parser returns is clean *)

Lemma mapM_seqZ_length {A : Type} (f : Z → option A) n l :
  mapM f (seqZ 0 n) = Some l → Z.of_nat (length l) = Z.max 0 n.
Proof. intros H. apply length_mapM in H. rewrite length_seqZ in H. lia. Qed.

Definition clean_pair (kv : list Z * list Z) : Prop := clean_string kv.1 ∧ clean_string kv.2.

Lemma read_annotation_clean s o i kv : read_annotation s o i = Some kv → clean_pair kv.
Proof.
  unfold read_annotation. intros H. peel H. injection H as <-.
  split; by eapply read_string_clean.
Qed.

Lemma read_extension_entry_clean s o i kv :
  read_extension_entry s o i = Some kv → clean_pair kv ∧ kv.1 ≠ [].
Proof.
  unfold read_extension_entry. intros H. peel H.
  injection H as <-. split; [split; by eapply read_string_clean|done].
Qed.

Lemma mapM_Forall {A B : Type} (f : A → option B) (P : B → Prop) l k :
  (∀ x y, f x = Some y → P y) → mapM f l = Some k → Forall P k.
Proof.
  intros Hf H. apply mapM_Some in H. induction H as [|x y l k Hxy _ IH]; constructor; eauto.
Qed.

Lemma read_context_clean s c :
  read_context s = Some c →
  Forall clean_string [session_id c; app_version c; git_hash c; build_type c; build_preset c;
                       build_timestamp c; compiler c; os_version c] ∧
  Forall clean_pair (annotations c) ∧ Z.of_nat (length (annotations c)) ≤ MAX_ANNOTATIONS ∧
  existsb is_context_issue (consistency_issues s) = false.
Proof.
  unfold read_context. intros H. peel H. injection H as <-.
  cbn [session_id app_version git_hash build_type build_preset build_timestamp compiler os_version annotations].
  split_and!; [|by eapply mapM_Forall; [apply read_annotation_clean|eassumption]| |done].
  - repeat (constructor; [by eapply read_string_clean|]). constructor.
  - match goal with H : mapM _ _ = Some _ |- _ => apply mapM_seqZ_length in H end.
    unfold MAX_ANNOTATIONS in *. lia.
Qed.

Lemma read_settings_clean s c :
  read_settings s = Some c →
  schema_version c = SUT_PRODUCER_EXTENSION_VERSION ∧
  Forall (λ kv, clean_pair kv ∧ kv.1 ≠ []) (values c) ∧
  Z.of_nat (length (values c)) ≤ SUT_PRODUCER_EXTENSION_MAX_ENTRIES ∧
  existsb is_settings_issue (consistency_issues s) = false.
Proof.
  unfold read_settings. intros H. peel H. injection H as <-. cbn [schema_version values].
  split_and!; [by apply dec_stable|by eapply mapM_Forall; [apply read_extension_entry_clean|eassumption]| |done].
  match goal with H : mapM _ _ = Some _ |- _ => apply mapM_seqZ_length in H end.
  unfold SUT_PRODUCER_EXTENSION_MAX_ENTRIES in *. lia.
Qed.

Lemma attachment_slots_clean s idx :
  Forall (λ a, clean_string (label a) ∧ clean_string (path a) ∧ path a ≠ []) (attachment_slots s idx) ∧
  (length (attachment_slots s idx) ≤ length idx)%nat.
Proof.
  induction idx as [|i idx [IH1 IH2]]; cbn [attachment_slots]; [by split|].
  destruct (indexed_offset _ _ _ ≫= _) as [[lo po]|]; [|cbn; split; [constructor|lia]].
  destruct (read_string s lo _) as [lb|] eqn:Hl; [|cbn [length]; split; [done|lia]].
  destruct (read_string s po _) as [[|b pa]|] eqn:Hp; [cbn [length]; split; [done|lia]| |
    cbn [length]; split; [done|lia]].
  split; [|cbn [length]; lia]. constructor; [|done]. cbn [label path].
  split_and!; [by eapply read_string_clean..|done].
Qed.

Lemma collect_rings_valid s rings :
  Forall (λ b, timestamp_ns b ≠ 0 ∧ ∃ a, read_breadcrumb s a = Some b) (collect_rings s rings).
Proof.
  induction rings as [|r rings IH]; cbn [collect_rings]; [constructor|].
  destruct (ring_offset r ≫= ring_entries s) as [es|] eqn:He; [|constructor].
  apply Forall_app. split; [|exact IH].
  peel He. unfold ring_entries in He. peel He. injection He as <-. apply Forall_forall.
  intros b Hb. apply list_elem_of_omap in Hb as (k & _ & Hk). unfold ring_entry in Hk. peel Hk.
  injection Hk as <-. eauto.
Qed.

(** C29. Nothing unclean gets out. Every string any parser returns, for any owned
    bytes, is NUL-free UTF-8 without control characters; every breadcrumb has a
    schema category and severity and a timestamp; counts stay within the
    schema; and a section whose copy was inconsistent is not parsed at all. *)
Theorem parsers_are_clean s :
  Forall (λ b, timestamp_ns b ≠ 0 ∧ category b ≤ CRUMB_CATEGORY_MAX ∧ severity b ≤ CRUMB_SEVERITY_MAX ∧
               clean_string (file b) ∧ clean_string (message b)) (read_breadcrumbs s) ∧
  (∀ c, read_context s = Some c →
     Forall clean_string [session_id c; app_version c; git_hash c; build_type c; build_preset c;
                          build_timestamp c; compiler c; os_version c] ∧
     Forall clean_pair (annotations c) ∧ Z.of_nat (length (annotations c)) ≤ MAX_ANNOTATIONS ∧
     existsb is_context_issue (consistency_issues s) = false) ∧
  (∀ c, read_settings s = Some c →
     schema_version c = SUT_PRODUCER_EXTENSION_VERSION ∧
     Forall (λ kv, clean_pair kv ∧ kv.1 ≠ []) (values c) ∧
     Z.of_nat (length (values c)) ≤ SUT_PRODUCER_EXTENSION_MAX_ENTRIES ∧
     existsb is_settings_issue (consistency_issues s) = false) ∧
  Forall (λ a, clean_string (label a) ∧ clean_string (path a) ∧ path a ≠ []) (read_attachments s) ∧
  Z.of_nat (length (read_attachments s)) ≤ MAX_ATTACHMENTS ∧
  (existsb is_attachments_issue (consistency_issues s) = true → read_attachments s = []).
Proof.
  split_and!; [|apply read_context_clean|apply read_settings_clean|..].
  - unfold read_breadcrumbs. case_match; [|constructor]. case_decide; [constructor|].
    apply Forall_forall. intros b Hb. apply (proj1 (elem_of_stable_sort _ _ _)) in Hb.
    pose proof (collect_rings_valid s (seqZ 0 z)) as Hv. rewrite Forall_forall in Hv.
    destruct (Hv b Hb) as (Hts & a & Ha). by apply read_breadcrumb_valid in Ha.
  - unfold read_attachments. repeat case_match; try constructor. apply attachment_slots_clean.
  - unfold read_attachments. repeat case_match; try (cbn; unfold MAX_ATTACHMENTS; lia).
    match goal with |- context [attachment_slots s ?l] =>
      pose proof (proj2 (attachment_slots_clean s l)) as Hlen end.
    rewrite length_seqZ in Hlen. unfold MAX_ATTACHMENTS in *. lia.
  - intros H. unfold read_attachments. by rewrite H.
Qed.

(** ** An example: one ring that has wrapped, two live entries *)

Definition put (off : Z) (n : nat) (v : Z) (f : Z → Z) (a : Z) : Z :=
  if in_range off (off + Z.of_nat n) a then nth (Z.to_nat (a - off)) (to_ne_bytes n v) 0 else f a.

Definition demo_bytes : Z → Z :=
  put RING_COUNT_OFFSET 4 1
    (put (RINGS_OFFSET + RING_COUNT_FIELD) 4 2
       (put (RINGS_OFFSET + RING_WRITE_IDX_FIELD) 4 1
          (put (RINGS_OFFSET + 0 * BREADCRUMB_SIZE) 8 7
             (put (RINGS_OFFSET + 511 * BREADCRUMB_SIZE) 8 5
                (put (SCREENSHOT_GENERATIONS_OFFSET + 4 * 9) 4 2 (λ _, 0)))))).

Definition demo : OwnedShmSnapshot := mkSnapshot (mkBuffer SHM_TOTAL_SIZE demo_bytes) FOOTER_OFFSET [].

Lemma read_breadcrumbs_exact_witness :
  timestamp_ns <$> read_breadcrumbs demo = [5; 7] ∧
  StronglySorted (λ x y, timestamp_ns x ≤ timestamp_ns y) (read_breadcrumbs demo).
Proof.
  split; [vm_compute; reflexivity|].
  assert (Hc : complete demo) by (split; reflexivity).
  destruct (read_breadcrumbs_exact demo Hc) as [_ H].
  apply H. vm_compute. discriminate.
Defined.

Lemma read_screenshots_bounded_exact_witness :
  priority_order demo = [(9, 0, 0)] ∧
  StronglySorted (λ x y, candidate_le x y = true) (priority_order demo).
Proof.
  split; [vm_compute; reflexivity|].
  assert (Hc : complete demo) by (split; reflexivity).
  apply (read_screenshots_bounded_exact demo 1 SCREENSHOT_BYTES_PER_SLOT (λ _, true) Hc).
Defined.

Lemma parsers_are_clean_witness :
  is_Some (read_context demo) ∧ Z.of_nat (length (read_attachments demo)) ≤ MAX_ATTACHMENTS.
Proof.
  split; [vm_compute; eexists; reflexivity|].
  destruct (parsers_are_clean demo) as (_ & _ & _ & _ & H & _). exact H.
Defined.
