(* ===== verification/PluginGraph.v ===== *)
(** * The plugin dependency graph (src/config.rs, src/pipeline/types.rs)

    Validation of the dependency graph of one plugin category, of the registry
    of all categories, the depth-first search for a cycle, and the closure of
    an enabled set under hard dependencies. Plugin ids are strings; the source's
    [HashMap<&str, usize>] is a [gmap]. *)

From S2P Require Import Prelude.

(** ** Identities and errors *)

Inductive PluginCategory : Type := Filter | Collector | PreProcessor | PostProcessor | Notifier.
Inductive DependencyKind : Type := Hard | OrderOnly.

#[export] Instance PluginCategory_eq_dec : EqDecision PluginCategory.
Proof. solve_decision. Defined.
#[export] Instance DependencyKind_eq_dec : EqDecision DependencyKind.
Proof. solve_decision. Defined.

Record PluginGraphNode := mkNode {
  id : string;
  hard_dependencies : list string;
  order_dependencies : list string
}.

Inductive ConfigValidationError : Type :=
| ApplicationEncryptionUnavailable
| RetentionMaxReportsZero
| InvalidNumericRange (field requirement : string)
| DuplicatePluginId (plugin_id : string) (first_category second_category : PluginCategory)
| MissingDependency (category : PluginCategory) (plugin_id dependency : string) (kind : DependencyKind)
| DependencyCycle (category : PluginCategory) (cycle : list string)
| InvalidDependencyOrder (category : PluginCategory) (plugin_id dependency : string)
    (kind : DependencyKind).

(** [hard_dependencies.iter().chain(&order_dependencies)] *)
Definition all_dependencies (n : PluginGraphNode) : list string :=
  hard_dependencies n ++ order_dependencies n.

(** ** Depth-first search for a cycle

    The source's [states] array holds 0 (unvisited), 1 (on the stack) or 2
    (finished). [fuel] bounds the depth of the recursion: [None] is running out
    of it, which [find_dependency_cycle_total] excludes for the fuel used. *)

Definition dfs_state : Type := list nat * list nat.

Section Dfs.
Context (nodes : list PluginGraphNode) (indexes : gmap string nat).

Definition node_id (index : nat) : string := default ""%string (id <$> nodes !! index).

(** [stack.iter().position(|candidate| *candidate == x).unwrap_or(0)] *)
Definition position_or_0 (x : nat) (stack : list nat) : nat :=
  default 0%nat (fst <$> list_find (x =.) stack).

(** The loop over the dependencies of [index], with the recursive call as a
    parameter. *)
Fixpoint visit_dependencies
    (visit : nat → dfs_state → option (option (list string) * dfs_state))
    (index : nat) (deps : list string) (st : dfs_state) : option (option (list string) * dfs_state) :=
  match deps with
  | [] =>
      (* stack.pop(); states[index] = 2 *)
      Some (None, (<[index := 2%nat]> st.1, removelast st.2))
  | dep :: deps =>
      match indexes !! dep with
      | None => visit_dependencies visit index deps st
      | Some dependency_index =>
          match st.1 !! dependency_index with
          | Some 0%nat =>
              match visit dependency_index st with
              | None => None
              | Some (Some cycle, st) => Some (Some cycle, st)
              | Some (None, st) => visit_dependencies visit index deps st
              end
          | Some 1%nat =>
              let start := position_or_0 dependency_index st.2 in
              Some (Some ((node_id <$> drop start st.2) ++ [node_id dependency_index]), st)
          | _ => visit_dependencies visit index deps st
          end
      end
  end.

Fixpoint visit (fuel : nat) (index : nat) (st : dfs_state)
    : option (option (list string) * dfs_state) :=
  match fuel with
  | O => None
  | S fuel =>
      (* states[index] = 1; stack.push(index) *)
      visit_dependencies (visit fuel) index (default [] (all_dependencies <$> nodes !! index))
        (<[index := 1%nat]> st.1, st.2 ++ [index])
  end.

Fixpoint visit_all (fuel : nat) (roots : list nat) (st : dfs_state) : option (option (list string)) :=
  match roots with
  | [] => Some None
  | index :: roots =>
      match st.1 !! index with
      | Some 0%nat =>
          match visit fuel index st with
          | None => None
          | Some (Some cycle, _) => Some (Some cycle)
          | Some (None, st) => visit_all fuel roots st
          end
      | _ => visit_all fuel roots st
      end
  end.

(** With the fuel the recursion needs at most. *)
Definition find_dependency_cycle_opt : option (option (list string)) :=
  visit_all (S (length nodes)) (seq 0 (length nodes)) (replicate (length nodes) 0%nat, []).

Definition find_dependency_cycle : option (list string) := default None find_dependency_cycle_opt.

End Dfs.

(** ** Graph validation *)

(** The index map, or the first duplicated id. *)
Fixpoint build_indexes (category : PluginCategory) (nodes : list PluginGraphNode) (index : nat)
    (indexes : gmap string nat) : result ConfigValidationError (gmap string nat) :=
  match nodes with
  | [] => Ok indexes
  | node :: nodes =>
      match indexes !! id node with
      | Some _ => Err (DuplicatePluginId (id node) category category)
      | None => build_indexes category nodes (S index) (<[id node := index]> indexes)
      end
  end.

Fixpoint check_all {A : Type} (f : A → result ConfigValidationError unit) (l : list A)
    : result ConfigValidationError unit :=
  match l with [] => Ok tt | x :: l => _ ← f x; check_all f l end.

Definition check_present (category : PluginCategory) (indexes : gmap string nat)
    (node : PluginGraphNode) (kind : DependencyKind) (dependency : string)
    : result ConfigValidationError unit :=
  match indexes !! dependency with
  | Some _ => Ok tt
  | None => Err (MissingDependency category (id node) dependency kind)
  end.

Definition check_node_present (category : PluginCategory) (indexes : gmap string nat)
    (require_order_dependencies : bool) (node : PluginGraphNode) : result ConfigValidationError unit :=
  _ ← check_all (check_present category indexes node Hard) (hard_dependencies node);
  if require_order_dependencies
  then check_all (check_present category indexes node OrderOnly) (order_dependencies node)
  else Ok tt.

(** The dependencies of a node with their kinds, hard ones first. *)
Definition typed_dependencies (n : PluginGraphNode) : list (string * DependencyKind) :=
  ((λ d, (d, Hard)) <$> hard_dependencies n) ++ ((λ d, (d, OrderOnly)) <$> order_dependencies n).

Definition check_order (category : PluginCategory) (indexes : gmap string nat) (plugin_index : nat)
    (node : PluginGraphNode) (dep : string * DependencyKind) : result ConfigValidationError unit :=
  match indexes !! dep.1 with
  | None => Ok tt
  | Some dependency_index =>
      if decide (plugin_index ≤ dependency_index)%nat
      then Err (InvalidDependencyOrder category (id node) dep.1 dep.2) else Ok tt
  end.

Fixpoint check_orders (category : PluginCategory) (indexes : gmap string nat) (plugin_index : nat)
    (nodes : list PluginGraphNode) : result ConfigValidationError unit :=
  match nodes with
  | [] => Ok tt
  | node :: nodes =>
      _ ← check_all (check_order category indexes plugin_index node) (typed_dependencies node);
      check_orders category indexes (S plugin_index) nodes
  end.

Definition validate_plugin_graph_with_policy (category : PluginCategory)
    (nodes : list PluginGraphNode) (require_order_dependencies : bool)
    : result ConfigValidationError unit :=
  indexes ← build_indexes category nodes 0 ∅;
  _ ← check_all (check_node_present category indexes require_order_dependencies) nodes;
  match find_dependency_cycle nodes indexes with
  | Some cycle => Err (DependencyCycle category cycle)
  | None => check_orders category indexes 0 nodes
  end.

Definition validate_plugin_graph (category : PluginCategory) (nodes : list PluginGraphNode)
    : result ConfigValidationError unit :=
  validate_plugin_graph_with_policy category nodes true.

Definition validate_runtime_plugin_graph (category : PluginCategory) (nodes : list PluginGraphNode)
    : result ConfigValidationError unit :=
  validate_plugin_graph_with_policy category nodes false.

(** ** Registry validation *)

(** Every node with its category, in registry order. *)
Definition registry_nodes (categories : list (PluginCategory * list PluginGraphNode))
    : list (PluginCategory * PluginGraphNode) :=
  flat_map (λ '(category, nodes), (λ n, (category, n)) <$> nodes) categories.

Fixpoint build_ids (l : list (PluginCategory * PluginGraphNode)) (ids : gmap string PluginCategory)
    : result ConfigValidationError (gmap string PluginCategory) :=
  match l with
  | [] => Ok ids
  | (category, node) :: l =>
      match ids !! id node with
      | Some first_category => Err (DuplicatePluginId (id node) first_category category)
      | None => build_ids l (<[id node := category]> ids)
      end
  end.

Definition check_category (ids : gmap string PluginCategory) (category : PluginCategory)
    (node : PluginGraphNode) (dep : string * DependencyKind) : result ConfigValidationError unit :=
  match ids !! dep.1 with
  | Some dependency_category =>
      if decide (dependency_category = category) then Ok tt
      else Err (MissingDependency category (id node) dep.1 dep.2)
  | None => Ok tt
  end.

Definition validate_plugin_registry_with_policy
    (categories : list (PluginCategory * list PluginGraphNode)) (require_order_dependencies : bool)
    : result ConfigValidationError unit :=
  ids ← build_ids (registry_nodes categories) ∅;
  check_all (λ '(category, nodes),
    _ ← check_all (λ node, check_all (check_category ids category node) (typed_dependencies node)) nodes;
    if require_order_dependencies then validate_plugin_graph category nodes
    else validate_runtime_plugin_graph category nodes) categories.

Definition validate_plugin_registry (categories : list (PluginCategory * list PluginGraphNode))
    : result ConfigValidationError unit := validate_plugin_registry_with_policy categories true.

Definition validate_runtime_plugin_registry (categories : list (PluginCategory * list PluginGraphNode))
    : result ConfigValidationError unit := validate_plugin_registry_with_policy categories false.

(** ** Closure under hard dependencies *)

Record PluginSpec := mkSpec {
  spec_category : PluginCategory;
  spec_id : string;
  spec_hard : list string;
  spec_order : list string
}.

(** A removal recorded by the closure: the plugin and the disabled dependency. *)
Record DependentDisabled := mkDependentDisabled {
  dd_category : PluginCategory;
  dd_plugin_id : string;
  dd_dependency : string
}.

Definition missing_dependency (enabled : gset string) (spec : PluginSpec) : option string :=
  snd <$> list_find (λ d, d ∉ enabled) (spec_hard spec).

(** The inner [for]: the first enabled plugin with a disabled dependency. *)
Fixpoint first_unsatisfied (specs : list PluginSpec) (enabled : gset string)
    : option (PluginSpec * string) :=
  match specs with
  | [] => None
  | spec :: specs =>
      if decide (spec_id spec ∈ enabled) then
        match missing_dependency enabled spec with
        | Some dependency => Some (spec, dependency)
        | None => first_unsatisfied specs enabled
        end
      else first_unsatisfied specs enabled
  end.

(** The outer [loop]; [None] is running out of fuel. *)
Fixpoint close_loop (fuel : nat) (specs : list PluginSpec) (enabled : gset string)
    (diagnostics : list DependentDisabled) : option (gset string * list DependentDisabled) :=
  match fuel with
  | O => None
  | S fuel =>
      match first_unsatisfied specs enabled with
      | None => Some (enabled, diagnostics)
      | Some (spec, dependency) =>
          close_loop fuel specs (enabled ∖ {[spec_id spec]})
            (diagnostics ++ [mkDependentDisabled (spec_category spec) (spec_id spec) dependency])
      end
  end.

Definition close_plugin_enablement (specs : list PluginSpec) (enabled : gset string)
    : gset string * list DependentDisabled :=
  default (enabled, []) (close_loop (S (size enabled)) specs enabled []).

(** ** What the search finds *)

Section DfsSpec.
Context (nodes : list PluginGraphNode) (indexes : gmap string nat).
Context (Hindexes : ∀ d j, indexes !! d = Some j → (j < length nodes)%nat).

Definition dependencies_at (i : nat) : list string := default [] (all_dependencies <$> nodes !! i).

(** [i] depends on [j]. *)
Definition edge (i j : nat) : Prop := ∃ d, d ∈ dependencies_at i ∧ indexes !! d = Some j.

Definition is_path (l : list nat) : Prop :=
  ∀ k x y, l !! k = Some x → l !! S k = Some y → edge x y.

(** A genuine cycle, as the error reports it: the ids along a path of
    dependencies that ends where it starts. *)
Definition genuine_cycle (cycle : list string) : Prop :=
  ∃ x p, is_path (x :: p ++ [x]) ∧ cycle = node_id nodes <$> (x :: p ++ [x]).

(** Every element comes after everything it depends on. *)
Definition topological (order : list nat) : Prop :=
  ∀ k x y, order !! k = Some x → edge x y → y ∈ take k order.

Record dfs_inv (st : dfs_state) (order : list nat) : Prop := {
  inv_len : length st.1 = length nodes;
  inv_values : ∀ i v, st.1 !! i = Some v → (v ≤ 2)%nat;
  inv_black : ∀ i, st.1 !! i = Some 2%nat ↔ i ∈ order;
  inv_grey : ∀ i, st.1 !! i = Some 1%nat ↔ i ∈ st.2;
  inv_nodup : NoDup st.2;
  inv_order_nodup : NoDup order;
  inv_topological : topological order;
  inv_path : is_path st.2
}.

Definition count_white (states : list nat) : nat := length (List.filter (Nat.eqb 0) states).

Lemma count_white_insert states i v w :
  states !! i = Some v → w ≠ 0%nat →
  (count_white (<[i := w]> states) + (if decide (v = 0%nat) then 1 else 0))%nat = count_white states.
Proof.
  intros Hi Hw. revert i Hi. unfold count_white.
  induction states as [|s states IH]; intros [|i] Hi; simplify_eq/=.
  - destruct w, v; simpl; try done; lia.
  - specialize (IH i Hi). destruct s; simpl; lia.
Qed.

Lemma is_path_snoc l x : is_path l → (∀ y, last l = Some y → edge y x) → is_path (l ++ [x]).
Proof.
  intros Hl Hlast k a b Ha Hb.
  pose proof (lookup_lt_Some _ _ _ Hb) as Hlen. rewrite length_app in Hlen. simpl in Hlen.
  destruct (decide (S k = length l)) as [Hk|Hk].
  - rewrite lookup_app_r in Hb by lia. rewrite Hk, Nat.sub_diag in Hb. injection Hb as <-.
    apply Hlast. rewrite last_lookup, <- Hk. simpl. by rewrite lookup_app_l in Ha by lia.
  - rewrite lookup_app_l in Ha, Hb by lia. by eapply Hl.
Qed.

Lemma is_path_prefix l1 l2 : is_path (l1 ++ l2) → is_path l1.
Proof. intros H k x y Hx Hy. apply (H k); by apply lookup_app_l_Some. Qed.

Lemma is_path_suffix l1 l2 : is_path (l1 ++ l2) → is_path l2.
Proof.
  intros H k x y Hx Hy. apply (H (length l1 + k)%nat).
  - rewrite lookup_app_r by lia. by replace (length l1 + k - length l1)%nat with k by lia.
  - rewrite lookup_app_r by lia. by replace (S (length l1 + k) - length l1)%nat with (S k) by lia.
Qed.

Lemma topological_snoc order x :
  topological order → (∀ y, edge x y → y ∈ order) → topological (order ++ [x]).
Proof.
  intros Ht Hx k a b Ha Hab. pose proof (lookup_lt_Some _ _ _ Ha) as Hlen.
  rewrite length_app in Hlen. simpl in Hlen.
  destruct (decide (k = length order)) as [->|Hk].
  - rewrite lookup_app_r, Nat.sub_diag in Ha by lia. injection Ha as <-.
    rewrite take_app_le, take_ge by lia. by apply Hx.
  - rewrite lookup_app_l in Ha by lia. rewrite take_app_le by lia. by eapply Ht.
Qed.

(** What a visit promises. *)
Definition visit_post (st : dfs_state) (order : list nat) (index : nat)
    (r : option (list string) * dfs_state) : Prop :=
  match r.1 with
  | Some cycle => genuine_cycle cycle
  | None => ∃ more, dfs_inv r.2 (order ++ more) ∧ r.2.2 = st.2 ∧ index ∈ order ++ more ∧
      (count_white r.2.1 < count_white st.1)%nat
  end.

Lemma cycle_found stack y :
  is_path (stack ++ [y]) → y ∈ stack →
  genuine_cycle ((node_id nodes <$> drop (position_or_0 y stack) stack) ++ [node_id nodes y]).
Proof.
  intros Hpath Hy. unfold position_or_0.
  destruct (list_find (y =.) stack) as [[k z]|] eqn:Hfind.
  - apply list_find_Some in Hfind as (Hk & <- & _). simpl.
    pose proof (drop_S _ _ _ Hk) as Hdrop. rewrite Hdrop.
    exists y, (drop (S k) stack). split; [|by rewrite app_comm_cons, fmap_app].
    apply (is_path_suffix (take k stack)).
    change (y :: drop (S k) stack ++ [y]) with ((y :: drop (S k) stack) ++ [y]).
    by rewrite <- Hdrop, app_assoc, take_drop.
  - apply list_find_None in Hfind. rewrite Forall_forall in Hfind. by destruct (Hfind y Hy).
Qed.

(** Popping a finished node. *)
Lemma finish_inv states stack order index :
  dfs_inv (states, stack ++ [index]) order →
  (∀ y, edge index y → y ∈ order) →
  dfs_inv (<[index := 2%nat]> states, stack) (order ++ [index]).
Proof.
  intros [Hlen Hval Hblack Hgrey Hnd Hond Htop Hpath] Hdeps. cbn [fst snd] in *.
  assert (Hidx : states !! index = Some 1%nat) by (apply Hgrey; set_solver).
  assert (Hno : index ∉ order) by (intros Hin; apply Hblack in Hin; congruence).
  assert (Hns : index ∉ stack).
  { intros Hin. apply NoDup_app in Hnd as (_ & Hdis & _). apply (Hdis index); set_solver. }
  pose proof (lookup_lt_Some _ _ _ Hidx) as Hlt.
  split; cbn [fst snd].
  - by rewrite length_insert.
  - intros i v Hi. apply list_lookup_insert_Some in Hi as [(-> & -> & _)|[_ Hi]]; [lia|by eapply Hval].
  - intros i. rewrite list_lookup_insert_Some, elem_of_app, list_elem_of_singleton, <- Hblack.
    split; [intuition|]. intros [Hi| ->]; [|by left]. right. split; [|done]. intros ->. congruence.
  - intros i. rewrite list_lookup_insert_Some. split.
    + intros [(_ & ? & _)|[Hne Hi]]; [done|]. apply Hgrey in Hi. set_solver.
    + intros Hi. right. split; [by intros ->|]. apply Hgrey. set_solver.
  - by apply NoDup_app in Hnd as (? & _ & _).
  - apply NoDup_app. split_and!; [done|set_solver|apply NoDup_singleton].
  - by apply topological_snoc.
  - by eapply is_path_prefix.
Qed.

(** Pushing an unvisited node. *)
Lemma push_inv states stack order index :
  dfs_inv (states, stack) order → states !! index = Some 0%nat →
  (∀ y, last stack = Some y → edge y index) →
  dfs_inv (<[index := 1%nat]> states, stack ++ [index]) order.
Proof.
  intros [Hlen Hval Hblack Hgrey Hnd Hond Htop Hpath] Hidx Hlast. cbn [fst snd] in *.
  pose proof (lookup_lt_Some _ _ _ Hidx) as Hlt.
  split; cbn [fst snd]; try done.
  - by rewrite length_insert.
  - intros i v Hi. apply list_lookup_insert_Some in Hi as [(-> & -> & _)|[_ Hi]]; [lia|by eapply Hval].
  - intros i. rewrite list_lookup_insert_Some, <- Hblack. split.
    + intros [(_ & ? & _)|[_ Hi]]; done.
    + intros Hi. right. split; [intros ->; congruence|done].
  - intros i. rewrite list_lookup_insert_Some, elem_of_app, list_elem_of_singleton, <- Hgrey.
    split; [intuition|]. intros [Hi| ->]; [|by left]. right. split; [intros ->; congruence|done].
  - apply NoDup_app. split_and!; [done| |apply NoDup_singleton].
    intros i Hi Hi'. apply list_elem_of_singleton in Hi' as ->. apply Hgrey in Hi. congruence.
  - by apply is_path_snoc.
Qed.

Lemma visit_dependencies_spec visit_rec bound index deps stack states order :
  (∀ st order j, dfs_inv st order → st.1 !! j = Some 0%nat →
     (∀ y, last st.2 = Some y → edge y j) → (count_white st.1 ≤ bound)%nat →
     ∃ r, visit_rec j st = Some r ∧ visit_post st order j r) →
  dfs_inv (states, stack ++ [index]) order → (count_white states ≤ bound)%nat →
  (∀ d, d ∈ dependencies_at index → d ∈ deps ∨ ∀ j, indexes !! d = Some j → j ∈ order) →
  (∀ d, d ∈ deps → d ∈ dependencies_at index) →
  ∃ r, visit_dependencies nodes indexes visit_rec index deps (states, stack ++ [index]) = Some r ∧
    match r.1 with
    | Some cycle => genuine_cycle cycle
    | None => ∃ more, dfs_inv r.2 (order ++ more) ∧ r.2.2 = stack ∧ index ∈ order ++ more ∧
        (count_white r.2.1 ≤ count_white states)%nat
    end.
Proof.
  intros Hrec. revert states order.
  induction deps as [|d deps IH]; intros states order Hinv Hw Hdone Hsub; cbn [visit_dependencies].
  { eexists. split; [done|]. cbn [fst snd]. rewrite removelast_last. exists [index]. split_and!.
    - apply finish_inv; [done|]. intros y (d & Hd & Hy). destruct (Hdone d Hd) as [H|H]; [set_solver|auto].
    - done.
    - set_solver.
    - assert (Hidx : states !! index = Some 1%nat) by (apply (inv_grey _ _ Hinv); cbn; set_solver).
      pose proof (count_white_insert states index 1 2 Hidx ltac:(lia)) as Hc. simpl in Hc. lia. }
  assert (Hskip : (∀ j, indexes !! d = Some j → j ∈ order) →
    ∃ r, visit_dependencies nodes indexes visit_rec index deps (states, stack ++ [index]) = Some r ∧
      match r.1 with
      | Some cycle => genuine_cycle cycle
      | None => ∃ more, dfs_inv r.2 (order ++ more) ∧ r.2.2 = stack ∧ index ∈ order ++ more ∧
          (count_white r.2.1 ≤ count_white states)%nat
      end).
  { intros Hd. apply IH; [done|done| |set_solver].
    intros d' Hd'. destruct (Hdone d' Hd') as [H|H]; [|by right].
    apply elem_of_cons in H as [->|H]; [by right|by left]. }
  destruct (indexes !! d) as [j|] eqn:Hj; [|by apply Hskip].
  assert (Hedge : edge index j) by (exists d; split; [apply Hsub; by left|done]).
  pose proof (Hindexes d j Hj) as Hjn. rewrite <- (inv_len _ _ Hinv) in Hjn. cbn [fst] in *.
  destruct (lookup_lt_is_Some_2 _ _ Hjn) as [v Hv]. rewrite Hv.
  pose proof (inv_values _ _ Hinv j v Hv) as Hv2.
  destruct v as [|[|[|v]]]; [| | |lia].
  - destruct (Hrec (states, stack ++ [index]) order j Hinv Hv) as ([[cycle|] st] & Hvis & Hpost).
    + intros y Hy. cbn in Hy. rewrite last_snoc in Hy. by injection Hy as <-.
    + done.
    + rewrite Hvis. eexists. split; [done|]. exact Hpost.
    + rewrite Hvis. destruct Hpost as (more & Hinv' & Hstack & Hin & Hlt). cbn [fst snd] in *.
      destruct st as [states' stack']. cbn [fst snd] in *. subst stack'.
      destruct (IH states' (order ++ more) Hinv') as (r & Hr & Hr').
      * lia.
      * intros d' Hd'. destruct (Hdone d' Hd') as [H|H].
        -- apply elem_of_cons in H as [->|H]; [|by left]. right. intros j' Hj'.
           rewrite Hj in Hj'. by injection Hj' as <-.
        -- right. intros j' Hj'. apply elem_of_app. left. by apply H.
      * set_solver.
      * exists r. split; [done|]. destruct r.1; [done|].
        destruct Hr' as (more' & ? & ? & ? & ?). exists (more ++ more'). rewrite app_assoc.
        split_and!; [done..|lia].
  - eexists. split; [done|]. cbn [fst snd]. apply cycle_found.
    + apply is_path_snoc; [apply (inv_path _ _ Hinv)|]. intros y Hy. rewrite last_snoc in Hy.
      by injection Hy as <-.
    + by apply (inv_grey _ _ Hinv).
  - apply Hskip. intros j' [= <-]. by apply (inv_black _ _ Hinv).
Qed.

Lemma visit_spec fuel st order index :
  dfs_inv st order → st.1 !! index = Some 0%nat → (∀ y, last st.2 = Some y → edge y index) →
  (count_white st.1 < fuel)%nat →
  ∃ r, visit nodes indexes fuel index st = Some r ∧ visit_post st order index r.
Proof.
  revert st order index. induction fuel as [|fuel IH]; intros [states stack] order index Hinv Hidx Hlast Hf;
    [lia|]. cbn [visit fst snd] in *.
  pose proof (count_white_insert states index 0 1 Hidx ltac:(lia)) as Hc. simpl in Hc.
  destruct (visit_dependencies_spec (visit nodes indexes fuel) (fuel - 1) index
    (dependencies_at index) stack (<[index := 1%nat]> states) order) as (r & Hr & Hpost).
  - intros st' order' j Hinv' Hj Hlast' Hbound. apply IH; [done..|lia].
  - by apply push_inv.
  - lia.
  - intros d Hd. by left.
  - done.
  - exists r. split; [exact Hr|]. unfold visit_post. cbn [fst snd].
    destruct r.1; [done|]. destruct Hpost as (more & ? & ? & ? & ?). exists more. split_and!; [done..|lia].
Qed.

Lemma visit_all_spec fuel roots st order :
  dfs_inv st order → st.2 = [] → (count_white st.1 < fuel)%nat → (∀ i, i ∈ roots → (i < length nodes)%nat) →
  ∃ r, visit_all nodes indexes fuel roots st = Some r ∧
    match r with
    | Some cycle => genuine_cycle cycle
    | None => ∃ order', topological order' ∧ NoDup order' ∧ (∀ i, i ∈ order' → (i < length nodes)%nat) ∧
        (∀ i, i ∈ order ∨ i ∈ roots → i ∈ order')
    end.
Proof.
  revert st order. induction roots as [|i roots IH]; intros [states stack] order Hinv Hst Hf Hroots;
    cbn [visit_all fst snd] in *; subst stack.
  { eexists. split; [done|]. exists order. split_and!; [apply (inv_topological _ _ Hinv)|
      apply (inv_order_nodup _ _ Hinv)| |].
    - intros i Hi. apply (inv_black _ _ Hinv) in Hi. rewrite <- (inv_len _ _ Hinv). by eapply lookup_lt_Some.
    - intros i [?|?]; [done|set_solver]. }
  pose proof (Hroots i (list_elem_of_here _ _)) as Hi. rewrite <- (inv_len _ _ Hinv) in Hi. cbn [fst] in Hi.
  destruct (lookup_lt_is_Some_2 _ _ Hi) as [v Hv]. rewrite Hv.
  pose proof (inv_values _ _ Hinv i v Hv) as Hv2.
  assert (Hskip : i ∈ order →
    ∃ r, visit_all nodes indexes fuel roots (states, []) = Some r ∧
    match r with
    | Some cycle => genuine_cycle cycle
    | None => ∃ order', topological order' ∧ NoDup order' ∧ (∀ i, i ∈ order' → (i < length nodes)%nat) ∧
        (∀ k, k ∈ order ∨ k ∈ i :: roots → k ∈ order')
    end).
  { intros Hin. destruct (IH (states, []) order Hinv eq_refl Hf) as (r & Hr & Hr'); [set_solver|].
    exists r. split; [done|]. destruct r; [done|]. destruct Hr' as (order' & ? & ? & ? & Hall).
    exists order'. split_and!; [done..|]. intros k Hk. apply Hall. set_solver. }
  destruct v as [|[|[|v]]]; [| | |lia].
  - destruct (visit_spec fuel (states, []) order i Hinv Hv) as ([[cycle|] st] & Hvis & Hpost); [done|done|..].
    + rewrite Hvis. eexists. split; [done|]. exact Hpost.
    + rewrite Hvis. destruct Hpost as (more & Hinv' & Hstack & Hin & Hlt). cbn [fst snd] in *.
      destruct (IH st (order ++ more) Hinv' Hstack) as (r & Hr & Hr'); [lia|set_solver|].
      exists r. split; [done|]. destruct r; [done|]. destruct Hr' as (order' & ? & ? & ? & Hall).
      exists order'. split_and!; [done..|]. intros k [Hk|Hk].
      * apply Hall. left. set_solver.
      * apply elem_of_cons in Hk as [->|Hk]; apply Hall; [by left|by right].
  - exfalso. apply (inv_grey _ _ Hinv) in Hv. cbn in Hv. set_solver.
  - apply Hskip. by apply (inv_black _ _ Hinv).
Qed.

Lemma find_dependency_cycle_spec :
  ∃ r, find_dependency_cycle_opt nodes indexes = Some r ∧
    match r with
    | Some cycle => genuine_cycle cycle
    | None => ∃ order, topological order ∧ NoDup order ∧ ∀ i, (i < length nodes)%nat ↔ i ∈ order
    end.
Proof.
  destruct (visit_all_spec (S (length nodes)) (seq 0 (length nodes)) (replicate (length nodes) 0%nat, []) [])
    as (r & Hr & Hpost); cbn [fst snd].
  - split; cbn [fst snd].
    + apply length_replicate.
    + intros i v Hv. apply lookup_replicate in Hv as [-> _]. lia.
    + intros i. split; [|set_solver]. intros Hv. by apply lookup_replicate in Hv as [? _].
    + intros i. split; [|set_solver]. intros Hv. by apply lookup_replicate in Hv as [? _].
    + constructor.
    + constructor.
    + intros k x y Hk. done.
    + intros k x y Hk. done.
  - done.
  - unfold count_white. apply Nat.lt_succ_r. etransitivity; [apply filter_length_le|].
    by rewrite length_replicate.
  - intros i Hi. apply elem_of_seq in Hi. lia.
  - exists r. split; [exact Hr|]. destruct r; [done|]. destruct Hpost as (order & ? & ? & Hlt & Hall).
    exists order. split_and!; [done..|]. intros i. split; [|apply Hlt].
    intros Hi. apply Hall. right. apply elem_of_seq. lia.
Qed.

(** No genuine cycle can exist when every dependency points backwards. *)
Lemma backwards_acyclic cycle :
  (∀ i j, edge i j → (j < i)%nat) → ¬ genuine_cycle cycle.
Proof.
  intros Hback (x & p & Hpath & _).
  assert (Hdec : ∀ l a, is_path (a :: l) → ∀ y, y ∈ l → (y < a)%nat).
  { induction l as [|b l IH]; intros a Ha y Hy; [set_solver|].
    assert (Hab : edge a b) by (by apply (Ha 0%nat)). pose proof (Hback _ _ Hab).
    apply elem_of_cons in Hy as [->|Hy]; [done|].
    assert (Hbl : is_path (b :: l)) by (apply (is_path_suffix [a]); exact Ha).
    pose proof (IH b Hbl y Hy). lia. }
  specialize (Hdec (p ++ [x]) x Hpath x). lapply Hdec; [lia|set_solver].
Qed.

End DfsSpec.

(** ** Validation of a graph *)

Lemma check_all_Ok {A : Type} (f : A → result ConfigValidationError unit) (l : list A) :
  check_all f l = Ok tt ↔ ∀ x, x ∈ l → f x = Ok tt.
Proof.
  induction l as [|x l IH]; simpl; [set_solver|]. unfold mbind, result_bind.
  destruct (f x) as [[]|e] eqn:Hx.
  - rewrite IH. split; [intros H y Hy; apply elem_of_cons in Hy as [->|Hy]; auto|set_solver].
  - split; [done|]. intros H. specialize (H x (list_elem_of_here _ _)). congruence.
Qed.

Lemma check_all_Err {A : Type} (f : A → result ConfigValidationError unit) (l : list A) e :
  check_all f l = Err e → ∃ x, x ∈ l ∧ f x = Err e.
Proof.
  induction l as [|x l IH]; simpl; [done|]. unfold mbind, result_bind.
  destruct (f x) as [[]|e'] eqn:Hx.
  - intros H. destruct (IH H) as (y & ? & ?). exists y. split; [by right|done].
  - intros [= ->]. exists x. split; [by left|done].
Qed.

Lemma build_indexes_lookup category nodes k m idx :
  build_indexes category nodes k m = Ok idx →
  (∀ d j, idx !! d = Some j ↔
     m !! d = Some j ∨ ∃ i n, nodes !! i = Some n ∧ id n = d ∧ j = (k + i)%nat) ∧
  NoDup (id <$> nodes) ∧ (∀ d, d ∈ id <$> nodes → m !! d = None).
Proof.
  revert k m. induction nodes as [|n nodes IH]; intros k m; simpl.
  { intros [= <-]. split_and!; [|constructor|set_solver]. intros d j. split; [by left|].
    intros [?|(i & n & Hn & _)]; [done|]. by rewrite lookup_nil in Hn. }
  destruct (m !! id n) as [c|] eqn:Hm; [done|]. intros H. apply IH in H as (Hlook & Hnd & Hfresh).
  split_and!.
  - intros d j. rewrite Hlook, lookup_insert_Some. split.
    + intros [[[<- <-]|[_ H]]|(i & n' & Hi & Hid & ->)].
      * right. exists 0%nat, n. split_and!; [done..|lia].
      * by left.
      * right. exists (S i), n'. split_and!; [done..|lia].
    + intros [H|(i & n' & Hi & <- & ->)].
      * left. right. split; [intros <-; congruence|done].
      * destruct i as [|i]; simplify_eq/=; [left; left; split; [done|lia]|].
        right. exists i, n'. split_and!; [done..|lia].
  - constructor; [|done]. intros Hin. apply Hfresh in Hin. by rewrite lookup_insert_eq in Hin.
  - intros d Hd. apply elem_of_cons in Hd as [->|Hd]; [done|].
    apply Hfresh in Hd. by apply lookup_insert_None in Hd as [? _].
Qed.

Lemma build_indexes_nodup category nodes k m :
  NoDup (id <$> nodes) → (∀ d, d ∈ id <$> nodes → m !! d = None) →
  ∃ idx, build_indexes category nodes k m = Ok idx.
Proof.
  revert k m. induction nodes as [|n nodes IH]; intros k m Hnd Hm; simpl; [eauto|].
  apply NoDup_cons in Hnd as [Hn Hnd].
  rewrite Hm by (by left). apply IH; [done|]. intros d Hd. rewrite lookup_insert_ne; [apply Hm; by right|].
  intros <-. by apply Hn.
Qed.

(** The position of a dependency. *)
Definition provided_before (nodes : list PluginGraphNode) (i : nat) (d : string) : Prop :=
  ∃ j m, (j < i)%nat ∧ nodes !! j = Some m ∧ id m = d.

(** What a well-formed, well-ordered graph is. *)
Definition graph_ok (nodes : list PluginGraphNode) (require_order : bool) : Prop :=
  NoDup (id <$> nodes) ∧
  ∀ i n, nodes !! i = Some n →
    (∀ d, d ∈ hard_dependencies n → provided_before nodes i d) ∧
    (∀ d, d ∈ order_dependencies n →
       provided_before nodes i d ∨ (require_order = false ∧ d ∉ id <$> nodes)).

Section Graph.
Context (category : PluginCategory) (nodes : list PluginGraphNode) (require : bool).
Context (indexes : gmap string nat) (Hidx : build_indexes category nodes 0 ∅ = Ok indexes).

Lemma indexes_lookup d j :
  indexes !! d = Some j ↔ ∃ n, nodes !! j = Some n ∧ id n = d.
Proof.
  destruct (build_indexes_lookup _ _ _ _ _ Hidx) as (Hlook & _ & _). rewrite Hlook, lookup_empty. split.
  - intros [?|(i & n & Hn & Hid & ->)]; [done|]. exists n. by rewrite Nat.add_0_l.
  - intros (n & Hn & Hid). right. exists j, n. split_and!; [done..|lia].
Qed.

Lemma indexes_bound d j : indexes !! d = Some j → (j < length nodes)%nat.
Proof. rewrite indexes_lookup. intros (n & Hn & _). by eapply lookup_lt_Some. Qed.

Lemma indexes_None d : indexes !! d = None ↔ d ∉ id <$> nodes.
Proof.
  rewrite eq_None_not_Some. apply not_iff_compat. split.
  - intros [j Hj]. apply indexes_lookup in Hj as (n & Hn & <-). apply list_elem_of_fmap.
    exists n. split; [done|]. by eapply list_elem_of_lookup_2.
  - intros Hd. apply list_elem_of_fmap in Hd as (n & -> & Hn). apply list_elem_of_lookup in Hn as [j Hj].
    exists j. apply indexes_lookup. eauto.
Qed.

Lemma check_orders_Ok k ns :
  check_orders category indexes k ns = Ok tt ↔
  ∀ i n, ns !! i = Some n → ∀ d j, d ∈ all_dependencies n → indexes !! d = Some j → (j < k + i)%nat.
Proof.
  revert k. induction ns as [|n ns IH]; intros k; cbn [check_orders].
  { split; [|done]. intros _ i n Hn. by rewrite lookup_nil in Hn. }
  unfold mbind, result_bind. destruct (check_all _ (typed_dependencies n)) as [[]|e] eqn:Hc.
  - rewrite IH. rewrite check_all_Ok in Hc. split.
    + intros H [|i] n' Hn' d j Hd Hj; simplify_eq/=.
      * assert (Hdk : ∃ kind, (d, kind) ∈ typed_dependencies n').
        { unfold all_dependencies in Hd. unfold typed_dependencies.
          apply elem_of_app in Hd as [Hd|Hd]; [exists Hard|exists OrderOnly]; rewrite elem_of_app, !list_elem_of_fmap;
            eauto. }
        destruct Hdk as [kind Hdk]. specialize (Hc _ Hdk). unfold check_order in Hc. cbn [fst snd] in Hc.
        rewrite Hj in Hc. case_decide; [done|lia].
      * specialize (H i n' Hn' d j Hd Hj). lia.
    + intros H i n' Hn' d j Hd Hj. specialize (H (S i) n' Hn' d j Hd Hj). lia.
  - split; [done|]. intros H. exfalso. apply check_all_Err in Hc as ([d kind] & Hd & Hc).
    unfold check_order in Hc. cbn [fst snd] in Hc. destruct (indexes !! d) as [j|] eqn:Hj; [|done].
    case_decide; [|done]. assert (Hd' : d ∈ all_dependencies n).
    { unfold typed_dependencies in Hd. unfold all_dependencies.
      rewrite elem_of_app, !list_elem_of_fmap in Hd. rewrite elem_of_app.
      destruct Hd as [(? & [= -> _] & ?)|(? & [= -> _] & ?)]; auto. }
    specialize (H 0%nat n eq_refl d j Hd' Hj). lia.
Qed.

Lemma check_present_Ok :
  check_all (check_node_present category indexes require) nodes = Ok tt ↔
  ∀ n, n ∈ nodes → (∀ d, d ∈ hard_dependencies n → is_Some (indexes !! d)) ∧
    (require = true → ∀ d, d ∈ order_dependencies n → is_Some (indexes !! d)).
Proof.
  rewrite check_all_Ok. apply forall_proper. intros n. apply forall_proper. intros Hn.
  assert (Hp : ∀ kind l, check_all (check_present category indexes n kind) l = Ok tt ↔
    ∀ d, d ∈ l → is_Some (indexes !! d)).
  { intros kind l. rewrite check_all_Ok. apply forall_proper. intros d. apply forall_proper. intros _.
    unfold check_present. destruct (indexes !! d); [|by split; [|intros [? ?]]]. by split. }
  unfold check_node_present, mbind, result_bind.
  destruct (check_all (check_present category indexes n Hard) (hard_dependencies n)) as [[]|e] eqn:Hh.
  - pose proof (proj1 (Hp Hard _) Hh). destruct require; [rewrite Hp; naive_solver|naive_solver].
  - split; [done|]. intros [H _]. pose proof (proj2 (Hp Hard _) H). congruence.
Qed.

Lemma edge_index i j :
  edge nodes indexes i j ↔ ∃ n d, nodes !! i = Some n ∧ d ∈ all_dependencies n ∧ indexes !! d = Some j.
Proof.
  unfold edge, dependencies_at. destruct (nodes !! i) as [n|]; simpl.
  - split; [intros (d & ? & ?); eauto|intros (n' & d & [= <-] & ? & ?); eauto].
  - split; [set_solver|intros (n' & d & ? & _); done].
Qed.

Lemma find_dependency_cycle_eq r :
  find_dependency_cycle_opt nodes indexes = Some r → find_dependency_cycle nodes indexes = r.
Proof. unfold find_dependency_cycle. by intros ->. Qed.

Lemma graph_ok_iff :
  graph_ok nodes require ↔
  check_all (check_node_present category indexes require) nodes = Ok tt ∧
  check_orders category indexes 0 nodes = Ok tt.
Proof.
  rewrite check_present_Ok, check_orders_Ok. unfold graph_ok, provided_before, all_dependencies.
  destruct (build_indexes_lookup _ _ _ _ _ Hidx) as (_ & Hnd & _).
  assert (Huniq : ∀ d j m, nodes !! j = Some m → id m = d → indexes !! d = Some j).
  { intros d j m Hm Hid. apply indexes_lookup. eauto. }
  split.
  - intros [_ H]. split.
    + intros n Hn. apply list_elem_of_lookup in Hn as [i Hi]. destruct (H i n Hi) as [Hh Ho]. split.
      * intros d Hd. destruct (Hh d Hd) as (j & m & _ & Hm & Hid). eauto.
      * intros -> d Hd. destruct (Ho d Hd) as [(j & m & _ & Hm & Hid)|[? _]]; [eauto|done].
    + intros i n Hi d j Hd Hj. destruct (H i n Hi) as [Hh Ho].
      assert (Hb : (∃ j' m, (j' < i)%nat ∧ nodes !! j' = Some m ∧ id m = d) ∨ d ∉ id <$> nodes).
      { apply elem_of_app in Hd as [Hd|Hd]; [left; by apply Hh|]. destruct (Ho d Hd) as [?|[_ ?]]; auto. }
      destruct Hb as [(j' & m & Hlt & Hm & Hid)|Hno].
      * rewrite (Huniq d j' m) in Hj by done. injection Hj as <-. lia.
      * apply indexes_None in Hno. congruence.
  - intros [Hp Ho]. split; [done|]. intros i n Hi.
    destruct (Hp n (list_elem_of_lookup_2 _ _ _ Hi)) as [Hh Hr]. split.
    + intros d Hd. destruct (Hh d Hd) as [j Hj]. pose proof (Ho i n Hi d j) as Hlt.
      rewrite elem_of_app in Hlt. specialize (Hlt (or_introl Hd) Hj).
      apply indexes_lookup in Hj as (m & Hm & Hid). exists j, m. split_and!; [lia|done|done].
    + intros d Hd. destruct (indexes !! d) as [j|] eqn:Hj.
      * left. pose proof (Ho i n Hi d j) as Hlt. rewrite elem_of_app in Hlt.
        specialize (Hlt (or_intror Hd) Hj). apply indexes_lookup in Hj as (m & Hm & Hid).
        exists j, m. split_and!; [lia|done|done].
      * right. split; [|by apply indexes_None]. destruct require; [|done].
        destruct (Hr eq_refl d Hd) as [? Hs]. congruence.
Qed.

Lemma graph_ok_no_cycle : graph_ok nodes require → find_dependency_cycle nodes indexes = None.
Proof.
  intros Hok. apply graph_ok_iff in Hok as [_ Ho]. rewrite check_orders_Ok in Ho.
  destruct (find_dependency_cycle_spec nodes indexes indexes_bound) as (r & Hr & Hpost).
  rewrite (find_dependency_cycle_eq r Hr). destruct r as [cycle|]; [|done]. exfalso.
  revert Hpost. apply (backwards_acyclic nodes indexes indexes_bound). intros i j He. apply edge_index in He as (n & d & Hn & Hd & Hj).
  by specialize (Ho i n Hn d j Hd Hj).
Qed.

End Graph.

Lemma validate_iff category nodes require :
  validate_plugin_graph_with_policy category nodes require = Ok tt ↔ graph_ok nodes require.
Proof.
  unfold validate_plugin_graph_with_policy, mbind, result_bind.
  destruct (build_indexes category nodes 0 ∅) as [idx|e] eqn:Hidx.
  - rewrite (graph_ok_iff category nodes require idx Hidx).
    destruct (check_all _ nodes) as [[]|e] eqn:Hp; [|naive_solver].
    destruct (find_dependency_cycle nodes idx) as [cycle|] eqn:Hc; [|naive_solver].
    split; [done|]. intros Ho. exfalso.
    assert (Hok : graph_ok nodes require) by (apply (graph_ok_iff category nodes require idx Hidx); by rewrite Hp).
    apply (graph_ok_no_cycle category nodes require idx Hidx) in Hok. congruence.
  - split; [done|]. intros [Hnd _].
    destruct (build_indexes_nodup category nodes 0 ∅ Hnd) as [idx Hidx']; [intros; apply lookup_empty|].
    congruence.
Qed.

(** ** The whole registry *)

Lemma build_ids_spec l ids :
  match build_ids l ids with
  | Ok ids' => NoDup ((λ x, id x.2) <$> l) ∧ (∀ x, x ∈ l → ids !! id x.2 = None) ∧
      ∀ d c, ids' !! d = Some c ↔ ids !! d = Some c ∨ ∃ n, (c, n) ∈ l ∧ id n = d
  | Err _ => ¬ (NoDup ((λ x, id x.2) <$> l) ∧ ∀ x, x ∈ l → ids !! id x.2 = None)
  end.
Proof.
  revert ids. induction l as [|[c n] l IH]; intros ids; simpl.
  { split; [constructor|]. set_solver. }
  destruct (ids !! id n) as [c'|] eqn:Hn.
  { intros [_ H]. specialize (H (c, n) (list_elem_of_here _ _)). simpl in H. congruence. }
  specialize (IH (<[id n:=c]> ids)). destruct (build_ids l _) as [ids'|e].
  - destruct IH as (Hnd & Hfree & Hlook). assert (id n ∉ (λ x, id x.2) <$> l) as Hnl.
    { intros Hin. apply list_elem_of_fmap in Hin as (x & Hx & Hin). specialize (Hfree x Hin).
      rewrite <- Hx, lookup_insert_eq in Hfree. done. }
    split; [by constructor|]. split.
    + intros x [->|Hx]%elem_of_cons; [done|]. specialize (Hfree x Hx).
      rewrite lookup_insert_ne in Hfree; [done|]. intros E. apply Hnl. rewrite E.
      by apply (list_elem_of_fmap_2 (λ x, id x.2)).
    + intros d c'. rewrite Hlook. destruct (decide (d = id n)) as [->|Hne].
      * rewrite lookup_insert_eq. setoid_rewrite elem_of_cons. split.
        -- intros [[= <-]|(m & Hm & Hid)]; [right; exists n; auto|]. right; exists m; auto.
        -- intros [?|(m & [[= <- <-]|Hm] & Hid)]; [congruence|by left|]. right; eauto.
      * rewrite lookup_insert_ne by done. setoid_rewrite elem_of_cons. split.
        -- intros [?|(m & Hm & Hid)]; [by left|right; eauto].
        -- intros [?|(m & [[= -> ->]|Hm] & Hid)]; [by left|congruence|right; eauto].
  - intros [Hnd Hfree]. apply IH. simpl in Hnd. apply NoDup_cons in Hnd as [Hnl Hnd]. split; [done|].
    intros x Hx. rewrite lookup_insert_ne; [apply Hfree; by right|]. intros E. apply Hnl. rewrite E.
    by apply (list_elem_of_fmap_2 (λ x, id x.2)).
Qed.

(** No plugin depends on a plugin of another category. *)
Definition categories_separate (categories : list (PluginCategory * list PluginGraphNode)) : Prop :=
  ∀ c ns c' ns' n n', (c, ns) ∈ categories → (c', ns') ∈ categories → n ∈ ns → n' ∈ ns' →
    id n' ∈ all_dependencies n → c' = c.

Lemma registry_nodes_elem categories c n :
  (c, n) ∈ registry_nodes categories ↔ ∃ ns, (c, ns) ∈ categories ∧ n ∈ ns.
Proof.
  unfold registry_nodes. rewrite list_elem_of_In, in_flat_map. split.
  - intros ([c' ns] & Hin & Hn). apply list_elem_of_In in Hin, Hn. apply list_elem_of_fmap in Hn as (m & [= -> ->] & Hm).
    eauto.
  - intros (ns & Hin & Hn). exists (c, ns). split; [by apply list_elem_of_In|]. apply list_elem_of_In.
    by apply (list_elem_of_fmap_2 (λ n, (c, n))).
Qed.

Lemma typed_dependencies_elem n d : d ∈ all_dependencies n ↔ ∃ k, (d, k) ∈ typed_dependencies n.
Proof.
  unfold all_dependencies, typed_dependencies. setoid_rewrite elem_of_app. setoid_rewrite list_elem_of_fmap.
  split; [intros [?|?]; [exists Hard|exists OrderOnly]; eauto|].
  intros (k & [(x & [= -> ->] & ?)|(x & [= -> ->] & ?)]); auto.
Qed.

Lemma validate_registry_iff categories require :
  validate_plugin_registry_with_policy categories require = Ok tt ↔
  NoDup ((λ x, id x.2) <$> registry_nodes categories) ∧ categories_separate categories ∧
  ∀ c ns, (c, ns) ∈ categories → graph_ok ns require.
Proof.
  unfold validate_plugin_registry_with_policy, mbind, result_bind.
  pose proof (build_ids_spec (registry_nodes categories) ∅) as Hids.
  destruct (build_ids _ _) as [ids|e].
  2:{ split; [done|]. intros (Hnd & _). destruct Hids. split; [done|]. intros. apply lookup_empty. }
  destruct Hids as (Hnd & _ & Hlook). rewrite check_all_Ok. split.
  - intros H. split; [done|].
    assert (∀ c ns, (c, ns) ∈ categories →
      check_all (λ node, check_all (check_category ids c node) (typed_dependencies node)) ns = Ok tt ∧
      graph_ok ns require) as H'.
    { intros c ns Hc. specialize (H (c, ns) Hc). simpl in H. destruct (check_all _ ns) as [[]|]; [|done].
      split; [done|]. apply (validate_iff c). by destruct require. }
    split; [|intros c ns Hc; by apply (H' c ns Hc)].
    intros c ns c' ns' n n' Hc Hc' Hn Hn' Hd. destruct (H' c ns Hc) as [Hcheck _].
    rewrite check_all_Ok in Hcheck. specialize (Hcheck n Hn). rewrite check_all_Ok in Hcheck.
    apply typed_dependencies_elem in Hd as [k Hk]. specialize (Hcheck _ Hk). unfold check_category in Hcheck.
    simpl in Hcheck. assert (ids !! id n' = Some c') as Hl.
    { apply Hlook. right. exists n'. split; [|done]. apply registry_nodes_elem. eauto. }
    rewrite Hl in Hcheck. by case_decide.
  - intros (_ & Hsep & Hok) [c ns] Hc.
    assert (check_all (λ node, check_all (check_category ids c node) (typed_dependencies node)) ns = Ok tt) as ->.
    { apply check_all_Ok. intros n Hn. apply check_all_Ok. intros [d k] Hk. unfold check_category. simpl.
      destruct (ids !! d) as [c'|] eqn:Hl; [|done]. apply Hlook in Hl as [Hl|(n' & Hn' & <-)].
      { by rewrite lookup_empty in Hl. }
      apply registry_nodes_elem in Hn' as (ns' & Hc' & Hn').
      rewrite decide_True; [done|]. eapply (Hsep c ns c' ns' n n'); [done..|].
      apply typed_dependencies_elem. eauto. }
    specialize (Hok c ns Hc). apply (validate_iff c) in Hok. by destruct require.
Qed.

(** Validation of a plugin graph is exact: it succeeds if and only if the
    ids are distinct, every hard dependency (and, for the static registry, every
    order dependency) is present, and everything present that a plugin depends
    on comes before it. *)
Theorem validate_plugin_graph_exact category nodes require :
  validate_plugin_graph_with_policy category nodes require = Ok tt ↔ graph_ok nodes require.
Proof. apply validate_iff. Qed.

(** ** Diagnosis of the failures *)

(** A cycle by ids: at least one step, ending where it starts, each step a
    declared dependency. *)
Definition dependency_cycle (nodes : list PluginGraphNode) (cycle : list string) : Prop :=
  (2 ≤ length cycle)%nat ∧ head cycle = last cycle ∧
  ∀ k a b, cycle !! k = Some a → cycle !! S k = Some b →
    ∃ n, n ∈ nodes ∧ id n = a ∧ b ∈ all_dependencies n.

Lemma genuine_cycle_ids category nodes idx cycle :
  build_indexes category nodes 0 ∅ = Ok idx → genuine_cycle nodes idx cycle → dependency_cycle nodes cycle.
Proof.
  intros Hidx (x & p & Hpath & ->). split_and!.
  - rewrite length_fmap. simpl. rewrite length_app. simpl. lia.
  - change (x :: p ++ [x]) with ((x :: p) ++ [x]). by rewrite fmap_last, last_snoc.
  - intros k a b Ha Hb. rewrite list_lookup_fmap in Ha, Hb.
    apply fmap_Some in Ha as (i & Hi & ->). apply fmap_Some in Hb as (j & Hj & ->).
    specialize (Hpath k i j Hi Hj). apply (edge_index category nodes idx Hidx) in Hpath as (n & d & Hn & Hd & Hdj).
    exists n. split_and!; [by eapply list_elem_of_lookup_2| |].
    + unfold node_id. by rewrite Hn.
    + apply (indexes_lookup category nodes idx Hidx) in Hdj as (m & Hm & <-).
      unfold node_id. by rewrite Hm.
Qed.

(** A cycle survives reordering, and forbids validation. *)
Lemma dependency_cycle_perm nodes nodes' cycle :
  nodes ≡ₚ nodes' → dependency_cycle nodes cycle → dependency_cycle nodes' cycle.
Proof.
  intros Hp (H1 & H2 & H3). split_and!; [done..|]. intros k a b Ha Hb.
  destruct (H3 k a b Ha Hb) as (n & Hn & ?). exists n. by rewrite <- Hp.
Qed.

Lemma in_cycle_present nodes cycle :
  dependency_cycle nodes cycle → ∀ a, a ∈ cycle → a ∈ id <$> nodes.
Proof.
  intros (Hlen & Hends & Hstep) a Ha. apply list_elem_of_lookup in Ha as [k Hk].
  destruct (cycle !! S k) as [b|] eqn:Hb.
  - destruct (Hstep k a b Hk Hb) as (n & Hn & <- & _). by apply list_elem_of_fmap_2.
  - apply lookup_ge_None in Hb. pose proof (lookup_lt_Some _ _ _ Hk).
    assert (Hlast : last cycle = Some a) by (rewrite last_lookup, <- Hk; f_equal; lia).
    destruct cycle as [|c [|c' cycle]]; simpl in Hlen; [lia|lia|].
    rewrite Hlast in Hends. injection Hends as ->.
    destruct (Hstep 0%nat a c' eq_refl eq_refl) as (n & Hn & <- & _). by apply list_elem_of_fmap_2.
Qed.

Lemma graph_ok_acyclic nodes require cycle : graph_ok nodes require → ¬ dependency_cycle nodes cycle.
Proof.
  intros [Hnd Hok] Hcycle. pose proof (in_cycle_present nodes cycle Hcycle) as Hpresent.
  destruct Hcycle as (Hlen & Hends & Hstep).
  (* the position of an id decreases along the cycle *)
  assert (Hdec : ∀ k a b, cycle !! k = Some a → cycle !! S k = Some b →
    ∀ i j n m, nodes !! i = Some n → id n = a → nodes !! j = Some m → id m = b → (j < i)%nat).
  { intros k a b Ha Hb i j n m Hi Hn Hj Hm.
    destruct (Hstep k a b Ha Hb) as (n' & Hn' & Hida & Hdep).
    apply list_elem_of_lookup in Hn' as [i' Hi'].
    assert (Hpos : ∀ x y u v, nodes !! x = Some u → nodes !! y = Some v → id u = id v → x = y).
    { intros x y u v Hu Hv Huv. eapply (NoDup_lookup (id <$> nodes)); [done| |];
        rewrite list_lookup_fmap; [by rewrite Hu|rewrite Hv; simpl; by rewrite Huv]. }
    assert (i' = i) as -> by (eapply Hpos; [done..|congruence]). rewrite Hi in Hi'. injection Hi' as <-.
    destruct (Hok i n Hi) as [Hh Ho]. unfold all_dependencies in Hdep.
    assert (Hb' : provided_before nodes i b).
    { apply elem_of_app in Hdep as [Hd|Hd]; [by apply Hh|]. destruct (Ho b Hd) as [?|[_ Hno]]; [done|].
      destruct Hno. rewrite <- Hm. apply list_elem_of_fmap_2. by eapply list_elem_of_lookup_2. }
    destruct Hb' as (j' & m' & Hlt & Hm' & Hid'). assert (j' = j) as <- by (eapply Hpos; [done..|congruence]).
    done. }
  assert (Hat : ∀ a, a ∈ cycle → ∃ i n, nodes !! i = Some n ∧ id n = a).
  { intros a Ha. apply Hpresent, list_elem_of_fmap in Ha as (n & -> & Hn).
    apply list_elem_of_lookup in Hn as [i Hi]. eauto. }
  assert (Hall : ∀ k a, cycle !! k = Some a → (0 < k)%nat → ∀ c i j n m, cycle !! 0%nat = Some c →
    nodes !! i = Some n → id n = c → nodes !! j = Some m → id m = a → (j < i)%nat).
  { induction k as [|k IH]; intros a Ha Hk c i j n m Hc Hi Hn Hj Hm; [lia|].
    destruct (decide (k = 0%nat)) as [->|Hk0]; [by eapply (Hdec 0%nat c a)|].
    destruct (cycle !! k) as [a'|] eqn:Ha'; [|apply lookup_ge_None in Ha'; apply lookup_lt_Some in Ha; lia].
    destruct (Hat a' (list_elem_of_lookup_2 _ _ _ Ha')) as (i' & n' & Hi' & Hn').
    pose proof (IH a' eq_refl ltac:(lia) c i i' n n' Hc Hi Hn Hi' Hn').
    pose proof (Hdec k a' a Ha' Ha i' j n' m Hi' Hn' Hj Hm). lia. }
  destruct (cycle !! 0%nat) as [c|] eqn:Hc; [|apply lookup_ge_None in Hc; lia].
  destruct (Hat c (list_elem_of_lookup_2 _ _ _ Hc)) as (i & n & Hi & Hn).
  assert (Hl : cycle !! pred (length cycle) = Some c).
  { rewrite <- last_lookup, <- Hends. by rewrite head_lookup. }
  pose proof (Hall _ c Hl ltac:(lia) c i i n n eq_refl Hi Hn Hi Hn). lia.
Qed.

(** ** A topological order of the indices is an order that validates *)

Lemma omap_lookup_total {A B : Type} (f : A → option B) (l : list A) :
  (∀ x, x ∈ l → is_Some (f x)) → ∀ k, omap f l !! k = l !! k ≫= f.
Proof.
  induction l as [|x l IH]; intros Hf k; [by rewrite !lookup_nil|].
  destruct (Hf x (list_elem_of_here _ _)) as [y Hy]. unfold omap in *. simpl. rewrite Hy.
  destruct k as [|k]; simpl; [done|]. apply IH. intros z Hz. apply Hf. by right.
Qed.

Lemma omap_lookup_seq {A : Type} (l : list A) : omap (λ i, l !! i) (seq 0 (length l)) = l.
Proof.
  apply list_eq. intros k. rewrite omap_lookup_total.
  - destruct (decide (k < length l)%nat) as [Hk|Hk].
    + by rewrite lookup_seq_lt by done.
    + rewrite lookup_seq_ge, lookup_ge_None_2 by lia. done.
  - intros i Hi. apply elem_of_seq in Hi. apply lookup_lt_is_Some. lia.
Qed.

Lemma topological_reorder category nodes require idx :
  build_indexes category nodes 0 ∅ = Ok idx →
  check_all (check_node_present category idx require) nodes = Ok tt →
  find_dependency_cycle nodes idx = None →
  ∃ nodes', nodes' ≡ₚ nodes ∧ graph_ok nodes' require.
Proof.
  intros Hidx Hpresent Hnone.
  destruct (find_dependency_cycle_spec nodes idx (indexes_bound category nodes idx Hidx)) as (r & Hr & Hpost).
  rewrite (find_dependency_cycle_eq nodes idx r Hr) in Hnone. subst r.
  destruct Hpost as (order & Htop & Hnd & Hall).
  assert (Hsome : ∀ i, i ∈ order → is_Some (nodes !! i)) by (intros i Hi; by apply lookup_lt_is_Some, Hall).
  assert (Hperm : omap (λ i, nodes !! i) order ≡ₚ nodes).
  { transitivity (omap (λ i, nodes !! i) (seq 0 (length nodes))); [|by rewrite omap_lookup_seq].
    apply omap_Permutation. apply NoDup_Permutation; [done|apply NoDup_seq|].
    intros i. rewrite <- Hall, elem_of_seq. lia. }
  exists (omap (λ i, nodes !! i) order). split; [done|].
  destruct (build_indexes_lookup _ _ _ _ _ Hidx) as (_ & Hndid & _).
  rewrite (check_present_Ok category nodes require idx) in Hpresent.
  assert (Hids : ∀ d, d ∈ id <$> omap (λ i, nodes !! i) order ↔ d ∈ id <$> nodes) by (intros d; by rewrite Hperm).
  split; [by rewrite Hperm|]. intros k n Hk. rewrite omap_lookup_total in Hk by done.
  destruct (order !! k) as [i|] eqn:Hi; [|done]. cbn [mbind option_bind] in Hk.
  assert (Hbefore : ∀ d j, d ∈ all_dependencies n → idx !! d = Some j →
    provided_before (omap (λ i, nodes !! i) order) k d).
  { intros d j Hd Hj. assert (Hin : j ∈ take k order).
    { apply (Htop k i j Hi). apply (edge_index category nodes idx Hidx). eauto. }
    apply list_elem_of_lookup in Hin as [k' Hk']. apply lookup_take_Some in Hk' as [Hk' Hlt].
    apply (indexes_lookup category nodes idx Hidx) in Hj as (m & Hm & Hid).
    exists k', m. split_and!; [done| |done]. rewrite omap_lookup_total by done. by rewrite Hk'. }
  destruct (Hpresent n (list_elem_of_lookup_2 _ _ _ Hk)) as [Hh Ho]. unfold all_dependencies in Hbefore.
  split.
  - intros d Hd. destruct (Hh d Hd) as [j Hj]. apply (Hbefore d j); [apply elem_of_app; by left|done].
  - intros d Hd. destruct (idx !! d) as [j|] eqn:Hj.
    + left. apply (Hbefore d j); [apply elem_of_app; by right|done].
    + right. split; [destruct require; [destruct (Ho eq_refl d Hd); congruence|done]|].
      rewrite Hids. by apply (indexes_None category nodes idx Hidx).
Qed.

(** The error names the first id that occurs a second time. *)
Lemma build_indexes_Err category nodes k m e :
  build_indexes category nodes k m = Err e →
  ∃ pre n post, nodes = pre ++ n :: post ∧ e = DuplicatePluginId (id n) category category ∧
    (is_Some (m !! id n) ∨ id n ∈ id <$> pre) ∧ NoDup (id <$> pre) ∧ (∀ d, d ∈ id <$> pre → m !! d = None).
Proof.
  revert k m. induction nodes as [|n nodes IH]; intros k m; cbn [build_indexes]; [done|].
  destruct (m !! id n) as [j|] eqn:Hm.
  { intros [= <-]. exists [], n, nodes. split_and!; [done|done|left; eauto|constructor|by intros d ?%elem_of_nil]. }
  intros He. destruct (IH _ _ He) as (pre & n' & post & -> & -> & Hdup & Hnd & Hfresh).
  assert (id n ∉ id <$> pre) as Hn.
  { intros Hin. apply Hfresh in Hin. by rewrite lookup_insert_eq in Hin. }
  exists (n :: pre), n', post. split_and!; [done|done| |by constructor|].
  - destruct Hdup as [Hdup|Hdup]; [|right; by right].
    destruct (decide (id n = id n')) as [Heq|Hne]; [right; rewrite <-Heq; by left|].
    left. by rewrite lookup_insert_ne in Hdup.
  - intros d [->|Hd]%elem_of_cons; [done|]. apply Hfresh in Hd. by apply lookup_insert_None in Hd as [? _].
Qed.

(** An order violation names a dependency on a node that does not come before. *)
Lemma check_orders_Err category idx nodes k e :
  check_orders category idx k nodes = Err e →
  ∃ pre n post d kind j, nodes = pre ++ n :: post ∧ (d, kind) ∈ typed_dependencies n ∧
    idx !! d = Some j ∧ (k + length pre ≤ j)%nat ∧ e = InvalidDependencyOrder category (id n) d kind.
Proof.
  revert k. induction nodes as [|n ns IH]; intros k; cbn [check_orders]; [done|].
  unfold mbind, result_bind. destruct (check_all _ _) as [[]|e'] eqn:Hc.
  - intros H. destruct (IH _ H) as (pre & n' & post & d & kind & j & -> & Hd & Hj & Hle & ->).
    exists (n :: pre), n', post, d, kind, j. split_and!; [done..| |done]. simpl. lia.
  - intros [= ->]. apply check_all_Err in Hc as ([d kind] & Hd & Hc). unfold check_order in Hc.
    cbn [fst snd] in Hc. destruct (idx !! d) as [j|] eqn:Hj; [|done]. case_decide; [|done]. injection Hc as <-.
    exists [], n, ns, d, kind, j. split_and!; [done..| |done]. simpl. lia.
Qed.

Definition dependencies_of (kind : DependencyKind) (n : PluginGraphNode) : list string :=
  match kind with Hard => hard_dependencies n | OrderOnly => order_dependencies n end.

Lemma typed_dependency n d kind : (d, kind) ∈ typed_dependencies n → d ∈ dependencies_of kind n.
Proof.
  unfold typed_dependencies. rewrite elem_of_app, !list_elem_of_fmap.
  by intros [(? & [= -> ->] & ?)|(? & [= -> ->] & ?)].
Qed.

Lemma self_dependency_cycle nodes n kind : n ∈ nodes → id n ∈ dependencies_of kind n → dependency_cycle nodes [id n; id n].
Proof.
  intros Hn Hd. split_and!; [simpl; lia|done|]. intros [|k] a b Ha Hb; [|by destruct k]. simplify_eq/=.
  exists n. split_and!; [done|done|]. unfold all_dependencies. rewrite elem_of_app. destruct kind; tauto.
Qed.

Lemma presence_Err category idx nodes require e :
  build_indexes category nodes 0 ∅ = Ok idx →
  check_all (check_node_present category idx require) nodes = Err e →
  ∃ n d kind, n ∈ nodes ∧ d ∈ dependencies_of kind n ∧ d ∉ id <$> nodes ∧ (kind = OrderOnly → require = true) ∧
    e = MissingDependency category (id n) d kind.
Proof.
  intros Hidx Hp. apply check_all_Err in Hp as (n & Hn & Hp).
  assert (Hmiss : ∀ kind l, check_all (check_present category idx n kind) l = Err e →
    ∃ d, d ∈ l ∧ d ∉ id <$> nodes ∧ e = MissingDependency category (id n) d kind).
  { intros kind l H. apply check_all_Err in H as (d & Hd & H). unfold check_present in H.
    destruct (idx !! d) eqn:Hi; [done|]. injection H as <-. exists d. split_and!; [done| |done].
    by apply (indexes_None category nodes idx Hidx). }
  unfold check_node_present, mbind, result_bind in Hp.
  destruct (check_all _ (hard_dependencies n)) as [[]|e'] eqn:Hh.
  - destruct require; [|done]. apply Hmiss in Hp as (d & ? & ? & ->). by exists n, d, OrderOnly.
  - injection Hp as ->. apply Hmiss in Hh as (d & ? & ? & ->). by exists n, d, Hard.
Qed.

(** C30. Every validation failure is a true diagnosis: a duplicate is the first id that an
    earlier node has already; a missing dependency is declared by the named node and is the
    id of no node, and an order-only one is missed only where those are required; a reported
    cycle is a cycle of declared dependencies that no reordering can repair; and an order
    violation names a dependency, declared by the named node, on a node behind it, in a
    graph that some reordering repairs. *)
Theorem validate_plugin_graph_diagnosis category nodes require e :
  validate_plugin_graph_with_policy category nodes require = Err e →
  match e with
  | DuplicatePluginId i c1 c2 => c1 = category ∧ c2 = category ∧
      ∃ pre n post, nodes = pre ++ n :: post ∧ id n = i ∧ i ∈ id <$> pre ∧ NoDup (id <$> pre)
  | MissingDependency c p d kind => c = category ∧ d ∉ id <$> nodes ∧ (kind = OrderOnly → require = true) ∧
      ∃ n, n ∈ nodes ∧ id n = p ∧
        d ∈ match kind with Hard => hard_dependencies n | OrderOnly => order_dependencies n end
  | DependencyCycle c cycle => c = category ∧ dependency_cycle nodes cycle ∧
      ∀ nodes', nodes' ≡ₚ nodes → validate_plugin_graph_with_policy category nodes' require ≠ Ok tt
  | InvalidDependencyOrder c p d kind => c = category ∧
      (∃ pre n post, nodes = pre ++ n :: post ∧ id n = p ∧ d ∈ id <$> post ∧
        d ∈ match kind with Hard => hard_dependencies n | OrderOnly => order_dependencies n end) ∧
      ∃ nodes', nodes' ≡ₚ nodes ∧ validate_plugin_graph_with_policy category nodes' require = Ok tt
  | _ => False
  end.
Proof.
  unfold validate_plugin_graph_with_policy at 1. unfold mbind, result_bind.
  destruct (build_indexes category nodes 0 ∅) as [idx|e'] eqn:Hidx.
  2:{ intros [= ->]. apply build_indexes_Err in Hidx as (pre & n & post & -> & -> & Hdup & Hnd & _).
      rewrite lookup_empty in Hdup. destruct Hdup as [[? [=]]|Hdup]. split_and!; [done..|]. by exists pre, n, post. }
  destruct (check_all (check_node_present category idx require) nodes) as [[]|e'] eqn:Hp.
  2:{ intros [= ->]. destruct (presence_Err _ _ _ _ _ Hidx Hp) as (n & d & kind & Hn & Hd & Hno & Hreq & ->).
      split_and!; [done..|]. by exists n. }
  destruct (find_dependency_cycle nodes idx) as [cycle|] eqn:Hc.
  { intros [= <-]. 
    destruct (find_dependency_cycle_spec nodes idx (indexes_bound category nodes idx Hidx)) as (r & Hr & Hpost).
    rewrite (find_dependency_cycle_eq nodes idx r Hr) in Hc. subst r.
    pose proof (genuine_cycle_ids category nodes idx cycle Hidx Hpost) as Hcycle. split_and!; [done..|].
    intros nodes' Hperm Hok. apply validate_iff in Hok. eapply graph_ok_acyclic; [exact Hok|].
    eapply dependency_cycle_perm; [symmetry; exact Hperm|exact Hcycle]. }
  intros Ho. destruct (topological_reorder category nodes require idx Hidx Hp Hc) as (nodes' & Hperm & Hok).
  apply check_orders_Err in Ho as (pre & n & post & d & kind & j & Heq & Hd%typed_dependency & Hj & Hle & ->).
  split_and!; [done| |exists nodes'; split; [done|by apply validate_iff]].
  exists pre, n, post. split_and!; [done|done| |exact Hd].
  destruct (build_indexes_lookup _ _ _ _ _ Hidx) as (Hlook & _ & _).
  apply Hlook in Hj as [Hj|(i & m & Hi & <- & ->)]; [by rewrite lookup_empty in Hj|].
  subst nodes. rewrite lookup_app_r in Hi by lia. apply lookup_cons_Some in Hi as [[_ ->]|[_ Hi]].
  - exfalso. eapply graph_ok_acyclic; [exact Hok|]. eapply dependency_cycle_perm; [symmetry; exact Hperm|].
    eapply self_dependency_cycle; [|exact Hd]. apply elem_of_app. right. by left.
  - apply list_elem_of_fmap_2. by eapply list_elem_of_lookup_2.
Qed.

Lemma validate_plugin_graph_diagnosis_witness :
  ∃ c nodes, validate_plugin_graph_with_policy Collector nodes true = Err (DependencyCycle Collector c) ∧
    dependency_cycle nodes c.
Proof.
  set (nodes := [mkNode "a" ["b"] []; mkNode "b" [] ["c"]; mkNode "c" ["a"] []]%string).
  assert (H : validate_plugin_graph_with_policy Collector nodes true =
    Err (DependencyCycle Collector ["a"; "b"; "c"; "a"]%string)) by (vm_compute; reflexivity).
  exists ["a"; "b"; "c"; "a"]%string, nodes. split; [exact H|].
  pose proof (validate_plugin_graph_diagnosis Collector nodes true _ H) as Hd. cbn iota beta in Hd. apply Hd.
Defined.

(** ** The closure is the greatest closed subset *)

Definition hard_closed (specs : list PluginSpec) (enabled : gset string) : Prop :=
  ∀ spec, spec ∈ specs → spec_id spec ∈ enabled → ∀ d, d ∈ spec_hard spec → d ∈ enabled.

Lemma missing_dependency_Some enabled spec d :
  missing_dependency enabled spec = Some d → d ∈ spec_hard spec ∧ d ∉ enabled.
Proof.
  unfold missing_dependency. intros H. apply fmap_Some in H as ([k d'] & H & ->).
  apply list_find_Some in H as (Hk & Hd & _). split; [by eapply list_elem_of_lookup_2|done].
Qed.

Lemma missing_dependency_None enabled spec :
  missing_dependency enabled spec = None → ∀ d, d ∈ spec_hard spec → d ∈ enabled.
Proof.
  unfold missing_dependency. intros H d Hd. apply fmap_None, list_find_None in H.
  rewrite Forall_forall in H. specialize (H d Hd). by apply dec_stable.
Qed.

Lemma first_unsatisfied_Some specs enabled spec d :
  first_unsatisfied specs enabled = Some (spec, d) →
  spec ∈ specs ∧ spec_id spec ∈ enabled ∧ d ∈ spec_hard spec ∧ d ∉ enabled.
Proof.
  induction specs as [|s specs IH]; simpl; [done|]. case_decide as Hs.
  - destruct (missing_dependency enabled s) eqn:Hm.
    + intros [= -> ->]. apply missing_dependency_Some in Hm as [? ?]. split_and!; [by left|done..].
    + intros H. destruct (IH H) as (? & ? & ? & ?). split_and!; [by right|done..].
  - intros H. destruct (IH H) as (? & ? & ? & ?). split_and!; [by right|done..].
Qed.

Lemma first_unsatisfied_None specs enabled : first_unsatisfied specs enabled = None → hard_closed specs enabled.
Proof.
  induction specs as [|s specs IH]; simpl; [intros _ spec Hs; set_solver|]. case_decide as Hs.
  - destruct (missing_dependency enabled s) eqn:Hm; [done|]. intros H spec Hspec Hin.
    apply elem_of_cons in Hspec as [->|Hspec]; [by apply missing_dependency_None|by apply IH].
  - intros H spec Hspec Hin. apply elem_of_cons in Hspec as [->|Hspec]; [done|by apply IH].
Qed.

Definition removals_ok (specs : list PluginSpec) (closed : gset string) (ds : list DependentDisabled) : Prop :=
  ∀ d, d ∈ ds → ∃ spec, spec ∈ specs ∧ spec_id spec = dd_plugin_id d ∧
    spec_category spec = dd_category d ∧ dd_dependency d ∈ spec_hard spec ∧ dd_dependency d ∉ closed.

Lemma close_loop_spec specs fuel enabled ds :
  (size enabled < fuel)%nat →
  ∃ closed new, close_loop fuel specs enabled ds = Some (closed, ds ++ new) ∧
    closed ⊆ enabled ∧ hard_closed specs closed ∧
    (∀ T, T ⊆ enabled → hard_closed specs T → T ⊆ closed) ∧
    enabled ∖ closed = list_to_set (dd_plugin_id <$> new) ∧ NoDup (dd_plugin_id <$> new) ∧
    removals_ok specs closed new.
Proof.
  revert enabled ds. induction fuel as [|fuel IH]; intros enabled ds Hf; [lia|]. cbn [close_loop].
  destruct (first_unsatisfied specs enabled) as [[spec d]|] eqn:Hu.
  - apply first_unsatisfied_Some in Hu as (Hspec & Hin & Hd & Hno).
    destruct (IH (enabled ∖ {[spec_id spec]}) (ds ++ [mkDependentDisabled (spec_category spec) (spec_id spec) d]))
      as (closed & new & Heq & Hsub & Hclosed & Hgreatest & Hdiff & Hnd & Hrem).
    { assert (size (enabled ∖ {[spec_id spec]}) < size enabled)%nat; [|lia].
      apply subset_size. set_solver. }
    exists closed, (mkDependentDisabled (spec_category spec) (spec_id spec) d :: new).
    rewrite Heq. split_and!.
    + by rewrite <- app_assoc.
    + set_solver.
    + done.
    + intros T HT HTc. apply Hgreatest; [|done]. intros x Hx. apply elem_of_difference. split; [by apply HT|].
      intros Hxs. apply elem_of_singleton in Hxs as ->. pose proof (HTc spec Hspec Hx d Hd). set_solver.
    + rewrite fmap_cons, list_to_set_cons, <- Hdiff. cbn [dd_plugin_id].
      apply leibniz_equiv. intros x. rewrite elem_of_union, !elem_of_difference, elem_of_singleton.
      destruct (decide (x = spec_id spec)) as [->|]; [|set_solver].
      split; [by left|]. intros _. split; [done|]. intros Hx. apply Hsub in Hx. set_solver.
    + rewrite fmap_cons. constructor; [|done]. cbn [dd_plugin_id]. intros Hx.
      apply (elem_of_list_to_set (C:=gset string)) in Hx. rewrite <- Hdiff in Hx. set_solver.
    + intros r Hr. apply elem_of_cons in Hr as [->|Hr]; [|by apply Hrem].
      exists spec. cbn. split_and!; [done..|]. set_solver.
  - exists enabled, []. rewrite app_nil_r. split_and!; try done.
    + by apply first_unsatisfied_None.
    + set_solver.
    + constructor.
    + intros r Hr. set_solver.
Qed.

Lemma close_plugin_enablement_spec specs requested :
  (close_plugin_enablement specs requested).1 ⊆ requested ∧
  hard_closed specs (close_plugin_enablement specs requested).1 ∧
  (∀ T, T ⊆ requested → hard_closed specs T → T ⊆ (close_plugin_enablement specs requested).1) ∧
  requested ∖ (close_plugin_enablement specs requested).1 =
    list_to_set (dd_plugin_id <$> (close_plugin_enablement specs requested).2) ∧
  NoDup (dd_plugin_id <$> (close_plugin_enablement specs requested).2) ∧
  removals_ok specs (close_plugin_enablement specs requested).1 (close_plugin_enablement specs requested).2 ∧
  close_loop (S (size requested)) specs requested [] = Some (close_plugin_enablement specs requested).
Proof.
  destruct (close_loop_spec specs (S (size requested)) requested []) as (closed & new & Heq & H); [lia|].
  unfold close_plugin_enablement. rewrite Heq. cbn [default from_option id fst snd] in *.
  rewrite app_nil_l. tauto.
Qed.

(** Resolving enablement terminates within one round per requested plugin
    and yields the greatest subset of the requested plugins that is closed
    under hard dependencies: no opt-out is reversed, nothing more than necessary
    is disabled, and each removed plugin is reported exactly once, with a hard
    dependency that is indeed disabled. *)
Theorem close_plugin_enablement_greatest specs requested closed ds :
  close_plugin_enablement specs requested = (closed, ds) →
  close_loop (S (size requested)) specs requested [] = Some (closed, ds) ∧
  closed ⊆ requested ∧ hard_closed specs closed ∧
  (∀ T, T ⊆ requested → hard_closed specs T → T ⊆ closed) ∧
  requested ∖ closed = list_to_set (dd_plugin_id <$> ds) ∧ NoDup (dd_plugin_id <$> ds) ∧
  (∀ d, d ∈ ds → ∃ spec, spec ∈ specs ∧ spec_id spec = dd_plugin_id d ∧
     spec_category spec = dd_category d ∧ dd_dependency d ∈ spec_hard spec ∧ dd_dependency d ∉ closed).
Proof.
  intros Heq. pose proof (close_plugin_enablement_spec specs requested) as H. rewrite Heq in H.
  cbn [fst snd] in H. unfold removals_ok in H. tauto.
Qed.

Lemma close_plugin_enablement_greatest_witness :
  let specs := [mkSpec Collector "a" ["b"] []; mkSpec Collector "b" ["c"] []; mkSpec Collector "d" [] []]%string in
  let requested := {["a"; "b"; "d"]}%string : gset string in
  (close_plugin_enablement specs requested).1 = {["d"%string]} ∧
  hard_closed specs (close_plugin_enablement specs requested).1.
Proof.
  intros specs requested. split; [vm_compute; reflexivity|].
  apply (close_plugin_enablement_greatest specs requested _ (close_plugin_enablement specs requested).2).
  apply surjective_pairing.
Defined.
