(* ===== verification/Config.v ===== *)
(** * Runtime configuration (src/config.rs)

    The configuration records with their defaults, the resolution of global,
    category and plugin switches into a validated configuration, and the privacy
    boundary. Reading and parsing the JSON file is I/O and serde; the model
    starts from the parsed [CrashReporterConfig]. *)

From S2P Require Import Prelude PluginGraph.

(** ** The configuration records *)

Record PluginToggle := mkToggle { toggle_enabled : bool }.
Definition toggle_disabled : PluginToggle := mkToggle false.
Definition toggle_default : PluginToggle := mkToggle true.

Inductive PrivacyLevel : Type := Minimal | Diagnostic | Full.
Inductive ConsentState : Type := NotGranted | Granted.
Inductive EncryptionPolicy : Type := EncryptionNone | EncryptionRequired.

#[export] Instance PrivacyLevel_eq_dec : EqDecision PrivacyLevel.
Proof. solve_decision. Defined.
#[export] Instance ConsentState_eq_dec : EqDecision ConsentState.
Proof. solve_decision. Defined.
#[export] Instance EncryptionPolicy_eq_dec : EqDecision EncryptionPolicy.
Proof. solve_decision. Defined.

Record PrivacyConfig := mkPrivacy {
  level : PrivacyLevel;
  consent : ConsentState;
  encryption : EncryptionPolicy;
  raw_shm : bool
}.
Definition privacy_default : PrivacyConfig := mkPrivacy Minimal NotGranted EncryptionNone false.

Record CollectionPolicy := mkCollectionPolicy {
  capture_stack_memory : bool;
  capture_shm_screenshots : bool;
  capture_shm_attachments : bool;
  persist_raw_shm : bool
}.
Definition POLICY_MINIMAL : CollectionPolicy := mkCollectionPolicy false false false false.
Definition POLICY_FULL : CollectionPolicy := mkCollectionPolicy true true true true.

Record TriggersConfig := mkTriggers {
  triggers_enabled : bool;
  crash : PluginToggle;
  exit_failure : PluginToggle;
  signal_failure : PluginToggle;
  oom_detection : PluginToggle;
  anr : PluginToggle;
  snapshot : PluginToggle
}.
Definition triggers_default : TriggersConfig :=
  mkTriggers true toggle_default toggle_default toggle_default toggle_disabled toggle_default
    toggle_default.

Record WatchdogConfig := mkWatchdogConfig {
  warmup_ms : Z;
  threshold_ms : Z;
  check_interval_ms : Z;
  cooldown_ms : Z
}.
Definition watchdog_default : WatchdogConfig := mkWatchdogConfig 10000 5000 2000 60000.

Record DiskSpaceConfig := mkDiskSpace { disk_space_enabled : bool; min_free_mb : Z }.
Definition disk_space_default : DiskSpaceConfig := mkDiskSpace true 100.

Record RateLimiterConfig := mkRateLimiter {
  rate_limiter_enabled : bool; max_events : Z; rate_window_secs : Z }.
Definition rate_limiter_default : RateLimiterConfig := mkRateLimiter true 3 60.

Record FilterConfig := mkFilters {
  filters_enabled : bool; disk_space : DiskSpaceConfig; rate_limiter : RateLimiterConfig }.
Definition filters_default : FilterConfig := mkFilters true disk_space_default rate_limiter_default.

Record ThreadCollectorConfig := mkThread { thread_enabled : bool; stack_memory : bool }.
Definition thread_default : ThreadCollectorConfig := mkThread true false.

Record CollectorConfig := mkCollectors {
  collectors_enabled : bool;
  thread : ThreadCollectorConfig;
  breadcrumb : PluginToggle;
  context : PluginToggle;
  memory : PluginToggle;
  dylib : PluginToggle;
  screenshot : PluginToggle;
  attachment : PluginToggle;
  environment : PluginToggle;
  process_output : PluginToggle
}.
Definition collectors_default : CollectorConfig :=
  mkCollectors true thread_default toggle_default toggle_default toggle_disabled toggle_default
    toggle_disabled toggle_disabled toggle_disabled toggle_disabled.

Record FingerprintConfig := mkFingerprint { fingerprint_enabled : bool; top_frames : Z }.
Definition fingerprint_default : FingerprintConfig := mkFingerprint true 8.

Record DuplicateConfig := mkDuplicate { duplicate_enabled : bool; duplicate_window_secs : Z }.
Definition duplicate_default : DuplicateConfig := mkDuplicate true 60.

Record PreProcessorConfig := mkPreProcessors {
  pre_processors_enabled : bool;
  session : PluginToggle;
  symbolizer : PluginToggle;
  fingerprint : FingerprintConfig;
  build_info : PluginToggle;
  duplicate : DuplicateConfig;
  sanitizer : PluginToggle
}.
Definition pre_processors_default : PreProcessorConfig :=
  mkPreProcessors true toggle_default toggle_default fingerprint_default toggle_default
    duplicate_default toggle_default.

Record LogRotatorConfig := mkLogRotator { log_rotator_enabled : bool; log_max_size_mb : Z }.
Definition log_rotator_default : LogRotatorConfig := mkLogRotator true 1.

Record RetentionConfig := mkRetention {
  retention_enabled : bool; max_reports : Z; retention_max_size_mb : Z; max_age_days : Z }.
Definition retention_default : RetentionConfig := mkRetention true 16 64 7.

Record PostProcessorConfig := mkPostProcessors {
  post_processors_enabled : bool;
  raw_cleanup : PluginToggle;
  session_recorder : PluginToggle;
  png_converter : PluginToggle;
  feedback_dialog : PluginToggle;
  zip_archiver : PluginToggle;
  move_to_sent : PluginToggle;
  log_rotator : LogRotatorConfig;
  retention : RetentionConfig
}.
Definition post_processors_default : PostProcessorConfig :=
  mkPostProcessors true toggle_default toggle_default toggle_default toggle_default toggle_default
    toggle_default log_rotator_default retention_default.

Record SystemNotificationConfig := mkSystemNotification { system_notification_enabled : bool }.

Record NotifierConfig := mkNotifiers {
  notifiers_enabled : bool; console : PluginToggle; system_notification : SystemNotificationConfig }.
Definition notifiers_default : NotifierConfig :=
  mkNotifiers true toggle_default (mkSystemNotification false).

Record CrashReporterConfig := mkConfig {
  enabled : bool;
  report_dir : option string;
  privacy : PrivacyConfig;
  triggers : TriggersConfig;
  watchdog : WatchdogConfig;
  filters : FilterConfig;
  collectors : CollectorConfig;
  pre_processors : PreProcessorConfig;
  post_processors : PostProcessorConfig;
  notifiers : NotifierConfig
}.
Definition config_default : CrashReporterConfig :=
  mkConfig true None privacy_default triggers_default watchdog_default filters_default
    collectors_default pre_processors_default post_processors_default notifiers_default.

(** ** The built-in plugin registry *)

Definition PLUGIN_SPECS : list PluginSpec :=
  [
  mkSpec Filter "DiskSpaceFilter" [] [];
  mkSpec Filter "RateLimiter" [] ["DiskSpaceFilter"];
  mkSpec Collector "ThreadCollector" [] [];
  mkSpec Collector "BreadcrumbCollector" [] [];
  mkSpec Collector "ContextCollector" [] [];
  mkSpec Collector "MemoryCollector" [] [];
  mkSpec Collector "DylibCollector" [] [];
  mkSpec Collector "ScreenshotCollector" [] [];
  mkSpec Collector "AttachmentCollector" [] [];
  mkSpec Collector "EnvironmentCollector" [] [];
  mkSpec Collector "ProcessOutputCollector" [] [];
  mkSpec PreProcessor "SessionEnricher" [] [];
  mkSpec PreProcessor "SymbolResolver" [] [];
  mkSpec PreProcessor "Fingerprinter" [] ["SymbolResolver"];
  mkSpec PreProcessor "BuildInfoEnricher" [] [];
  mkSpec PreProcessor "DuplicateDetector" ["Fingerprinter"] [];
  mkSpec PreProcessor "Sanitizer" [] ["Fingerprinter"];
  mkSpec PostProcessor "RawCleanup" [] [];
  mkSpec PostProcessor "SessionRecorder" [] [];
  mkSpec PostProcessor "PNGConverter" [] [];
  mkSpec PostProcessor "FeedbackDialog" [] ["PNGConverter"];
  mkSpec PostProcessor "ZIPArchiver" [] ["RawCleanup"; "PNGConverter"; "FeedbackDialog"];
  mkSpec PostProcessor "MoveToSent" [] ["ZIPArchiver"];
  mkSpec PostProcessor "LogRotator" [] ["SessionRecorder"];
  mkSpec PostProcessor "RetentionManager" [] ["ZIPArchiver"; "MoveToSent"];
  mkSpec Notifier "ConsoleNotifier" [] [];
  mkSpec Notifier "SystemNotification" [] []]%string.

Definition node_of_spec (s : PluginSpec) : PluginGraphNode := mkNode (spec_id s) (spec_hard s) (spec_order s).

Definition builtin_categories : list (PluginCategory * list PluginGraphNode) :=
  (λ category, (category,
     node_of_spec <$> List.filter (λ s, bool_decide (spec_category s = category)) PLUGIN_SPECS))
    <$> [Filter; Collector; PreProcessor; PostProcessor; Notifier].

(** ** Validation results *)

Inductive ConfigValidationDiagnostic : Type :=
| DiagDependentDisabled (d : DependentDisabled)
| SensitiveCollectorDisabled (plugin_id : string) (level : PrivacyLevel) (consent : ConsentState)
| SensitiveEvidenceDenied (evidence : string) (level : PrivacyLevel) (consent : ConsentState).

Record ValidatedTriggersConfig := mkValidatedTriggers {
  v_crash : bool;
  v_exit_failure : bool;
  v_signal_failure : bool;
  v_probable_oom : bool;
  v_anr : bool;
  v_snapshot : bool
}.

Record ValidatedConfig := mkValidated {
  v_enabled : bool;
  v_triggers : ValidatedTriggersConfig;
  diagnostics : list ConfigValidationDiagnostic;
  enabled_plugins : gset string;
  collection_policy : CollectionPolicy;
  config : CrashReporterConfig
}.

Definition plugin_enabled (v : ValidatedConfig) (plugin_id : string) : bool :=
  v_enabled v && bool_decide (plugin_id ∈ enabled_plugins v).

(** ** Privacy *)

Definition is_enabled (global category plugin : bool) : bool := global && category && plugin.

Definition SENSITIVE_COLLECTORS : list string :=
  ["MemoryCollector"; "ScreenshotCollector"; "AttachmentCollector"; "EnvironmentCollector";
   "ProcessOutputCollector"]%string.

Definition sensitive_collector_toggle (c : CollectorConfig) (plugin_id : string) : bool :=
  if bool_decide (plugin_id = "MemoryCollector"%string) then toggle_enabled (memory c)
  else if bool_decide (plugin_id = "ScreenshotCollector"%string) then toggle_enabled (screenshot c)
  else if bool_decide (plugin_id = "AttachmentCollector"%string) then toggle_enabled (attachment c)
  else if bool_decide (plugin_id = "EnvironmentCollector"%string) then toggle_enabled (environment c)
  else if bool_decide (plugin_id = "ProcessOutputCollector"%string) then toggle_enabled (process_output c)
  else false.

Definition privacy_allows_collector (p : PrivacyConfig) (plugin_id : string) : bool :=
  if negb (bool_decide (consent p = Granted)) then false
  else match level p with
  | Minimal => false
  | Diagnostic => bool_decide (plugin_id = "MemoryCollector"%string)
  | Full => bool_decide (plugin_id ∈ SENSITIVE_COLLECTORS)
  end.

Definition privacy_allows_diagnostic_evidence (p : PrivacyConfig) : bool :=
  bool_decide (consent p = Granted) && match level p with Diagnostic | Full => true | Minimal => false end.

Definition privacy_allows_full_evidence (p : PrivacyConfig) : bool :=
  bool_decide (consent p = Granted) && bool_decide (level p = Full).

Definition sensitive_collector_enabled (c : CrashReporterConfig) (plugin_id : string) (toggle : bool) : bool :=
  is_enabled (enabled c) (collectors_enabled (collectors c)) toggle
  && privacy_allows_collector (privacy c) plugin_id.

Definition sensitive_collector_diagnostics (c : CrashReporterConfig) : list ConfigValidationDiagnostic :=
  if negb (collectors_enabled (collectors c)) then []
  else (λ plugin_id, SensitiveCollectorDisabled plugin_id (level (privacy c)) (consent (privacy c))) <$>
    List.filter (λ plugin_id, sensitive_collector_toggle (collectors c) plugin_id
                   && negb (privacy_allows_collector (privacy c) plugin_id)) SENSITIVE_COLLECTORS.

Definition sensitive_evidence_diagnostics (c : CrashReporterConfig) : list ConfigValidationDiagnostic :=
  if negb (enabled c) then []
  else
    (if collectors_enabled (collectors c) && thread_enabled (thread (collectors c))
        && stack_memory (thread (collectors c)) && negb (privacy_allows_diagnostic_evidence (privacy c))
     then [SensitiveEvidenceDenied "thread stack memory" (level (privacy c)) (consent (privacy c))]
     else []) ++
    (if raw_shm (privacy c) && negb (privacy_allows_full_evidence (privacy c))
     then [SensitiveEvidenceDenied "raw shared-memory breadcrumbs/context" (level (privacy c))
             (consent (privacy c))]
     else []).

Definition resolve_collection_policy (c : CrashReporterConfig) (plugins : gset string) : CollectionPolicy :=
  if negb (enabled c) then POLICY_MINIMAL
  else {|
    capture_stack_memory :=
      collectors_enabled (collectors c) && thread_enabled (thread (collectors c))
      && stack_memory (thread (collectors c)) && privacy_allows_diagnostic_evidence (privacy c);
    capture_shm_screenshots := bool_decide ("ScreenshotCollector"%string ∈ plugins);
    capture_shm_attachments := bool_decide ("AttachmentCollector"%string ∈ plugins);
    persist_raw_shm := raw_shm (privacy c) && privacy_allows_full_evidence (privacy c)
  |}.

(** ** Enablement *)

Definition configured_plugin_toggles (c : CrashReporterConfig) : list (string * bool) :=
  let f := filters c in let k := collectors c in let pre := pre_processors c in
  let post := post_processors c in let n := notifiers c in
  [("DiskSpaceFilter", filters_enabled f && disk_space_enabled (disk_space f));
   ("RateLimiter", filters_enabled f && rate_limiter_enabled (rate_limiter f));
   ("ThreadCollector", collectors_enabled k && thread_enabled (thread k));
   ("BreadcrumbCollector", collectors_enabled k && toggle_enabled (breadcrumb k));
   ("ContextCollector", collectors_enabled k && toggle_enabled (context k));
   ("MemoryCollector", sensitive_collector_enabled c "MemoryCollector" (toggle_enabled (memory k)));
   ("DylibCollector", collectors_enabled k && toggle_enabled (dylib k));
   ("ScreenshotCollector",
      sensitive_collector_enabled c "ScreenshotCollector" (toggle_enabled (screenshot k)));
   ("AttachmentCollector",
      sensitive_collector_enabled c "AttachmentCollector" (toggle_enabled (attachment k)));
   ("EnvironmentCollector",
      sensitive_collector_enabled c "EnvironmentCollector" (toggle_enabled (environment k)));
   ("ProcessOutputCollector",
      sensitive_collector_enabled c "ProcessOutputCollector" (toggle_enabled (process_output k)));
   ("SessionEnricher", pre_processors_enabled pre && toggle_enabled (session pre));
   ("SymbolResolver", pre_processors_enabled pre && toggle_enabled (symbolizer pre));
   ("Fingerprinter", pre_processors_enabled pre && fingerprint_enabled (fingerprint pre));
   ("BuildInfoEnricher", pre_processors_enabled pre && toggle_enabled (build_info pre));
   ("DuplicateDetector", pre_processors_enabled pre && duplicate_enabled (duplicate pre));
   ("Sanitizer", pre_processors_enabled pre && toggle_enabled (sanitizer pre));
   ("RawCleanup", post_processors_enabled post && toggle_enabled (raw_cleanup post));
   ("SessionRecorder", post_processors_enabled post && toggle_enabled (session_recorder post));
   ("PNGConverter", post_processors_enabled post && toggle_enabled (png_converter post));
   ("FeedbackDialog", post_processors_enabled post && toggle_enabled (feedback_dialog post));
   ("ZIPArchiver", post_processors_enabled post && toggle_enabled (zip_archiver post));
   ("MoveToSent", post_processors_enabled post && toggle_enabled (move_to_sent post));
   ("LogRotator", post_processors_enabled post && log_rotator_enabled (log_rotator post));
   ("RetentionManager", post_processors_enabled post && retention_enabled (retention post));
   ("ConsoleNotifier", notifiers_enabled n && toggle_enabled (console n));
   ("SystemNotification", notifiers_enabled n && system_notification_enabled (system_notification n))
  ]%string.

Definition requested_plugins (c : CrashReporterConfig) : gset string :=
  list_to_set (fst <$> List.filter snd (configured_plugin_toggles c)).

Definition resolve_plugin_enablement (c : CrashReporterConfig)
    : result ConfigValidationError (gset string * list ConfigValidationDiagnostic) :=
  _ ← validate_plugin_registry builtin_categories;
  if negb (enabled c) then Ok (∅, [])
  else
    let '(closed, removed) := close_plugin_enablement PLUGIN_SPECS (requested_plugins c) in
    Ok (closed, sensitive_collector_diagnostics c ++ (DiagDependentDisabled <$> removed)).

(** ** Validation *)

(** The first entry whose test holds decides the error. *)
Fixpoint check_ranges (requirement : string) (l : list (bool * string)) : result ConfigValidationError unit :=
  match l with
  | [] => Ok tt
  | (invalid, field) :: l =>
      if invalid : bool then Err (InvalidNumericRange field requirement) else check_ranges requirement l
  end.

Definition watchdog_validate (w : WatchdogConfig) : result ConfigValidationError WatchdogConfig :=
  _ ← check_ranges "must be greater than zero"
        [(bool_decide (warmup_ms w = 0), "watchdog.warmup_ms");
         (bool_decide (threshold_ms w = 0), "watchdog.threshold_ms");
         (bool_decide (check_interval_ms w = 0), "watchdog.check_interval_ms");
         (bool_decide (cooldown_ms w = 0), "watchdog.cooldown_ms")]%string;
  if decide (threshold_ms w < check_interval_ms w)
  then Err (InvalidNumericRange "watchdog.check_interval_ms" "must not exceed watchdog.threshold_ms")
  else Ok w.

(** Every trigger bit with the trigger category resolved, and not the global
    switch. *)
Definition resolve_triggers (t : TriggersConfig) : ValidatedTriggersConfig :=
  mkValidatedTriggers
    (triggers_enabled t && toggle_enabled (crash t))
    (triggers_enabled t && toggle_enabled (exit_failure t))
    (triggers_enabled t && toggle_enabled (signal_failure t))
    (triggers_enabled t && toggle_enabled (oom_detection t))
    (triggers_enabled t && toggle_enabled (anr t))
    (triggers_enabled t && toggle_enabled (snapshot t)).

Definition validate (c : CrashReporterConfig) : result ConfigValidationError ValidatedConfig :=
  if enabled c && bool_decide (encryption (privacy c) = EncryptionRequired)
  then Err ApplicationEncryptionUnavailable else
  let post := post_processors c in
  if retention_enabled (retention post) && bool_decide (max_reports (retention post) = 0)
  then Err RetentionMaxReportsZero else
  let limiter := rate_limiter (filters c) in
  let fp := fingerprint (pre_processors c) in
  let dup := duplicate (pre_processors c) in
  let rot := log_rotator post in
  _ ← check_ranges "must be greater than zero when enabled"
        [(rate_limiter_enabled limiter && bool_decide (rate_window_secs limiter = 0),
            "filters.rate_limiter.window_secs");
         (fingerprint_enabled fp && bool_decide (top_frames fp = 0),
            "pre_processors.fingerprint.top_frames");
         (duplicate_enabled dup && bool_decide (duplicate_window_secs dup = 0),
            "pre_processors.duplicate.window_secs");
         (log_rotator_enabled rot && bool_decide (log_max_size_mb rot = 0),
            "post_processors.log_rotator.max_size_mb")]%string;
  _ ← watchdog_validate (watchdog c);
  '(plugins, diags) ← resolve_plugin_enablement c;
  Ok (mkValidated (enabled c) (resolve_triggers (triggers c)) (diags ++ sensitive_evidence_diagnostics c) plugins
        (resolve_collection_policy c plugins) c).

(** ** Lemmas *)

Lemma builtin_registry_valid : validate_plugin_registry builtin_categories = Ok tt.
Proof. vm_compute. reflexivity. Qed.

Lemma resolve_plugin_enablement_eq c :
  resolve_plugin_enablement c =
    Ok (if enabled c
        then ((close_plugin_enablement PLUGIN_SPECS (requested_plugins c)).1,
              sensitive_collector_diagnostics c ++
              (DiagDependentDisabled <$> (close_plugin_enablement PLUGIN_SPECS (requested_plugins c)).2))
        else (∅, [])).
Proof.
  unfold resolve_plugin_enablement. rewrite builtin_registry_valid. cbn [mbind result_bind].
  destruct (enabled c); cbn [negb]; [|done]. by destruct (close_plugin_enablement _ _).
Qed.

(** The numeric constraints, as the error messages state them. *)
Definition ranges_ok (c : CrashReporterConfig) : Prop :=
  (rate_limiter_enabled (rate_limiter (filters c)) = true → rate_window_secs (rate_limiter (filters c)) ≠ 0) ∧
  (fingerprint_enabled (fingerprint (pre_processors c)) = true →
     top_frames (fingerprint (pre_processors c)) ≠ 0) ∧
  (duplicate_enabled (duplicate (pre_processors c)) = true →
     duplicate_window_secs (duplicate (pre_processors c)) ≠ 0) ∧
  (log_rotator_enabled (log_rotator (post_processors c)) = true →
     log_max_size_mb (log_rotator (post_processors c)) ≠ 0).

Definition watchdog_ok (w : WatchdogConfig) : Prop :=
  warmup_ms w ≠ 0 ∧ threshold_ms w ≠ 0 ∧ check_interval_ms w ≠ 0 ∧ cooldown_ms w ≠ 0 ∧
  check_interval_ms w ≤ threshold_ms w.

Lemma check_ranges_spec req l :
  (check_ranges req l = Ok tt ∧ Forall (λ x, x.1 = false) l) ∨
  (∃ field, check_ranges req l = Err (InvalidNumericRange field req) ∧ ¬ Forall (λ x, x.1 = false) l).
Proof.
  induction l as [|[[] f] l IH]; cbn [check_ranges].
  - left. split; [done|constructor].
  - right. exists f. split; [done|]. intros H. by inversion H.
  - destruct IH as [[Hok Hl]|(field & Hf & Hl)].
    + left. split; [done|by constructor].
    + right. exists field. split; [done|]. intros H. by inversion H.
Qed.

Lemma guard_false (b : bool) (P : Prop) `{Decision P} :
  b && bool_decide P = false ↔ (b = true → ¬ P).
Proof. rewrite andb_false_iff, bool_decide_eq_false. destruct b; naive_solver. Qed.

Lemma watchdog_validate_spec w :
  (watchdog_validate w = Ok w ∧ watchdog_ok w) ∨
  (∃ field req, watchdog_validate w = Err (InvalidNumericRange field req) ∧ ¬ watchdog_ok w).
Proof.
  unfold watchdog_validate, watchdog_ok.
  destruct (check_ranges_spec "must be greater than zero"
    [(bool_decide (warmup_ms w = 0), "watchdog.warmup_ms");
     (bool_decide (threshold_ms w = 0), "watchdog.threshold_ms");
     (bool_decide (check_interval_ms w = 0), "watchdog.check_interval_ms");
     (bool_decide (cooldown_ms w = 0), "watchdog.cooldown_ms")]%string) as [[-> Hl]|(field & -> & Hl)];
    rewrite !Forall_cons, Forall_nil in Hl; cbn [fst] in Hl; rewrite !bool_decide_eq_false in Hl;
    cbn [mbind result_bind].
  - case_decide; [right; do 2 eexists; split; [done|lia]|left; split; [done|lia]].
  - right. do 2 eexists. split; [done|]. tauto.
Qed.

(** The shape of every outcome. *)
Lemma validate_cases c :
  (validate c = Err ApplicationEncryptionUnavailable ∧
     enabled c = true ∧ encryption (privacy c) = EncryptionRequired) ∨
  (validate c = Err RetentionMaxReportsZero ∧
     retention_enabled (retention (post_processors c)) = true ∧
     max_reports (retention (post_processors c)) = 0) ∨
  (∃ field req, validate c = Err (InvalidNumericRange field req) ∧
     ¬ (ranges_ok c ∧ watchdog_ok (watchdog c))) ∨
  ((enabled c = true → encryption (privacy c) ≠ EncryptionRequired) ∧
   (retention_enabled (retention (post_processors c)) = true →
      max_reports (retention (post_processors c)) ≠ 0) ∧
   ranges_ok c ∧ watchdog_ok (watchdog c) ∧
   ∃ v, validate c = Ok v ∧ v_enabled v = enabled c ∧ config v = c ∧
     enabled_plugins v =
       (if enabled c then (close_plugin_enablement PLUGIN_SPECS (requested_plugins c)).1 else ∅) ∧
     diagnostics v =
       (if enabled c
        then sensitive_collector_diagnostics c ++
             (DiagDependentDisabled <$> (close_plugin_enablement PLUGIN_SPECS (requested_plugins c)).2)
        else []) ++ sensitive_evidence_diagnostics c ∧
     collection_policy v = resolve_collection_policy c (enabled_plugins v) ∧
     v_triggers v = resolve_triggers (triggers c)).
Proof.
  unfold validate.
  destruct (enabled c && bool_decide (encryption (privacy c) = EncryptionRequired)) eqn:Henc.
  { left. apply andb_true_iff in Henc as [? ?%bool_decide_eq_true]. done. }
  destruct (retention_enabled (retention (post_processors c)) &&
            bool_decide (max_reports (retention (post_processors c)) = 0)) eqn:Hret.
  { right. left. apply andb_true_iff in Hret as [? ?%bool_decide_eq_true]. done. }
  right. right. rewrite guard_false in Henc, Hret.
  set (l := [(_, "filters.rate_limiter.window_secs"%string); _; _; _]).
  assert (Hl : Forall (λ x : bool * string, x.1 = false) l ↔ ranges_ok c).
  { unfold l, ranges_ok. rewrite !Forall_cons, Forall_nil. cbn [fst]. rewrite !guard_false. tauto. }
  destruct (check_ranges_spec "must be greater than zero when enabled" l) as [[-> Hr]|(field & -> & Hr)];
    rewrite Hl in Hr; cbn [mbind result_bind].
  2:{ left. do 2 eexists. split; [done|tauto]. }
  destruct (watchdog_validate_spec (watchdog c)) as [[-> Hw]|(field & req & -> & Hw)]; cbn [mbind result_bind].
  2:{ left. do 2 eexists. split; [done|tauto]. }
  right. split_and!; [done..|]. rewrite resolve_plugin_enablement_eq. cbn [mbind result_bind].
  match goal with |- context [if enabled c then (?x1, ?x2) else (∅, [])] =>
    assert (Hpair : (if enabled c then (x1, x2) else (∅, [])) =
      (if enabled c then x1 else ∅, if enabled c then x2 else []))
      by (by destruct (enabled c)); rewrite Hpair; clear Hpair end.
  eexists. split; [reflexivity|]. cbn [v_enabled config enabled_plugins diagnostics collection_policy v_triggers fst snd].
  done.
Qed.

(** Validation is exact: it succeeds precisely when the encryption
    requirement can be met (or reporting is off), retention keeps at least one
    report, no enabled window, frame count or size is zero and the watchdog
    timings are positive with the polling interval within the threshold; and it
    never fails because of the built-in plugin registry. *)
Theorem validate_exact c :
  (is_ok (validate c) = true ↔
     (enabled c = true → encryption (privacy c) ≠ EncryptionRequired) ∧
     (retention_enabled (retention (post_processors c)) = true →
        max_reports (retention (post_processors c)) ≠ 0) ∧
     ranges_ok c ∧ watchdog_ok (watchdog c)) ∧
  match validate c with
  | Ok _ | Err ApplicationEncryptionUnavailable | Err RetentionMaxReportsZero
  | Err (InvalidNumericRange _ _) => True
  | Err _ => False
  end.
Proof.
  destruct (validate_cases c) as [(-> & ? & ?)|[(-> & ? & ?)|[(f & r & -> & ?)|(? & ? & ? & ? & v & -> & _)]]];
    (split; [|done]); cbn [is_ok]; split; try done; try tauto; intros (? & ? & ? & ?); naive_solver.
Qed.

(** The hard dependencies of the registry have no hard dependencies. *)
Lemma registry_depth_one spec d spec' :
  spec ∈ PLUGIN_SPECS → d ∈ spec_hard spec → spec' ∈ PLUGIN_SPECS → spec_id spec' = d → spec_hard spec' = [].
Proof.
  assert (H : Forall (λ s, Forall (λ d, Forall (λ s', spec_id s' ≠ d ∨ spec_hard s' = []) PLUGIN_SPECS)
    (spec_hard s)) PLUGIN_SPECS) by (apply (bool_decide_unpack _); vm_compute; exact I).
  intros Hs Hd Hs' Hid. rewrite Forall_forall in H. specialize (H _ Hs). rewrite Forall_forall in H.
  specialize (H _ Hd). rewrite Forall_forall in H. by destruct (H _ Hs').
Qed.

Lemma elem_of_requested c x : x ∈ requested_plugins c ↔ (x, true) ∈ configured_plugin_toggles c.
Proof.
  unfold requested_plugins. rewrite elem_of_list_to_set, list_elem_of_fmap. split.
  - intros ([y b] & -> & Hy). rewrite list_elem_of_In, filter_In in Hy. destruct Hy as [Hy Hb].
    cbn in *. subst b. by apply list_elem_of_In.
  - intros Hx. exists (x, true). split; [done|]. rewrite list_elem_of_In, filter_In.
    split; [by apply list_elem_of_In|done].
Qed.

Lemma closed_requested c x :
  x ∈ (close_plugin_enablement PLUGIN_SPECS (requested_plugins c)).1 ↔
  x ∈ requested_plugins c ∧
  ∀ spec, spec ∈ PLUGIN_SPECS → spec_id spec = x → ∀ d, d ∈ spec_hard spec → d ∈ requested_plugins c.
Proof.
  destruct (close_plugin_enablement_spec PLUGIN_SPECS (requested_plugins c)) as (Hsub & Hcl & Hgr & _).
  set (closed := (close_plugin_enablement _ _).1) in *. split.
  - intros Hx. split; [by apply Hsub|]. intros spec Hspec <- d Hd. apply Hsub. by apply (Hcl spec).
  - intros [Hx Hdeps].
    set (T := {[x]} ∪ list_to_set (flat_map (λ s, if decide (spec_id s = x) then spec_hard s else []) PLUGIN_SPECS)
      : gset string).
    assert (HT : ∀ y, y ∈ T ↔ y = x ∨ ∃ s, s ∈ PLUGIN_SPECS ∧ spec_id s = x ∧ y ∈ spec_hard s).
    { intros y. unfold T. rewrite elem_of_union, elem_of_singleton, elem_of_list_to_set, list_elem_of_In, in_flat_map.
      split; [|].
      - intros [->|(s & Hs & Hy)]; [by left|]. case_decide; [|done]. right. exists s.
        rewrite !list_elem_of_In. done.
      - intros [->|(s & Hs & Hid & Hy)]; [by left|]. right. exists s. rewrite list_elem_of_In in Hs.
        split; [done|]. rewrite decide_True by done. by apply list_elem_of_In. }
    apply (Hgr T); [| |apply HT; by left].
    + intros y Hy. apply HT in Hy as [->|(s & Hs & Hid & Hy)]; [done|by apply (Hdeps s)].
    + intros s Hs Hin d Hd. apply HT in Hin as [Hid|(s' & Hs' & Hid & Hin)].
      * apply HT. right. eauto.
      * rewrite (registry_depth_one s' _ s Hs' Hin Hs eq_refl) in Hd. by apply not_elem_of_nil in Hd.
Qed.

(** Effective enablement. In a validated configuration a plugin runs exactly
    when reporting is on globally, its own category, plugin and privacy switches
    are on, and so are those of every plugin it has a hard dependency on. *)
Theorem plugin_enabled_exact c v plugin_id :
  validate c = Ok v →
  plugin_enabled v plugin_id = true ↔
    enabled c = true ∧ (plugin_id, true) ∈ configured_plugin_toggles c ∧
    ∀ spec, spec ∈ PLUGIN_SPECS → spec_id spec = plugin_id →
      ∀ d, d ∈ spec_hard spec → (d, true) ∈ configured_plugin_toggles c.
Proof.
  intros Hv. destruct (validate_cases c) as [(? & _)|[(? & _)|[(? & ? & ? & _)|(_ & _ & _ & _ & v' & Hv' & Hen & _ & Hpl & _)]]];
    try congruence. rewrite Hv in Hv'. injection Hv' as <-.
  unfold plugin_enabled. rewrite andb_true_iff, bool_decide_eq_true, Hen, Hpl.
  destruct (enabled c); [|split; [by intros [? _]|by intros [? _]]].
  rewrite closed_requested, elem_of_requested. setoid_rewrite elem_of_requested. tauto.
Qed.

Lemma plugin_enabled_exact_witness :
  ∃ v, validate config_default = Ok v ∧
    (plugin_enabled v "DuplicateDetector" = true ↔
      enabled config_default = true ∧ ("DuplicateDetector"%string, true) ∈ configured_plugin_toggles config_default ∧
      ∀ spec, spec ∈ PLUGIN_SPECS → spec_id spec = "DuplicateDetector"%string →
        ∀ d, d ∈ spec_hard spec → (d, true) ∈ configured_plugin_toggles config_default).
Proof.
  assert (Hok : is_ok (validate config_default) = true) by (vm_compute; reflexivity).
  destruct (validate config_default) as [v|e] eqn:Hv; [|discriminate Hok].
  exists v. split; [reflexivity|]. apply (plugin_enabled_exact config_default v "DuplicateDetector" Hv).
Defined.

(** ** Privacy of the validated configuration *)

(** What authorizes a sensitive collector: the global switch, granted consent,
    the collector category, its own toggle, and a level that covers it. *)
Definition sensitive_authorized (c : CrashReporterConfig) (plugin_id : string) : Prop :=
  enabled c = true ∧ consent (privacy c) = Granted ∧ collectors_enabled (collectors c) = true ∧
  sensitive_collector_toggle (collectors c) plugin_id = true ∧
  (level (privacy c) = Full ∨ (level (privacy c) = Diagnostic ∧ plugin_id = "MemoryCollector"%string)).

Lemma toggles_sensitive c plugin_id :
  plugin_id ∈ SENSITIVE_COLLECTORS → (plugin_id, true) ∈ configured_plugin_toggles c →
  sensitive_collector_enabled c plugin_id (sensitive_collector_toggle (collectors c) plugin_id) = true.
Proof.
  intros Hs Hin.
  assert (Hf : List.filter (λ e, String.eqb plugin_id e.1) (configured_plugin_toggles c) =
    [(plugin_id, sensitive_collector_enabled c plugin_id
                   (sensitive_collector_toggle (collectors c) plugin_id))]).
  { unfold SENSITIVE_COLLECTORS in Hs. rewrite !elem_of_cons, elem_of_nil in Hs.
    destruct Hs as [->|[->|[->|[->|[->|[]]]]]]; reflexivity. }
  assert (Hin' : (plugin_id, true) ∈ List.filter (λ e, String.eqb plugin_id e.1) (configured_plugin_toggles c)).
  { apply list_elem_of_In, filter_In. split; [by apply list_elem_of_In|]. apply String.eqb_refl. }
  rewrite Hf in Hin'. apply list_elem_of_singleton in Hin'. by injection Hin' as <-.
Qed.

Lemma sensitive_enabled_authorized c plugin_id :
  sensitive_collector_enabled c plugin_id (sensitive_collector_toggle (collectors c) plugin_id) = true →
  sensitive_authorized c plugin_id.
Proof.
  unfold sensitive_collector_enabled, is_enabled, privacy_allows_collector, sensitive_authorized.
  rewrite !andb_true_iff. intros [[[He Hc] Ht] Hp].
  destruct (bool_decide (consent (privacy c) = Granted)) eqn:Hcons; [|done]. cbn [negb] in Hp.
  apply bool_decide_eq_true in Hcons. split_and!; [done..|].
  destruct (level (privacy c)); [done| |by left]. apply bool_decide_eq_true in Hp. by right.
Qed.

Lemma validated_plugins c v :
  validate c = Ok v →
  v_enabled v = enabled c ∧
  (∀ x, x ∈ enabled_plugins v → enabled c = true ∧ (x, true) ∈ configured_plugin_toggles c) ∧
  collection_policy v = resolve_collection_policy c (enabled_plugins v) ∧
  diagnostics v =
    (if enabled c
     then sensitive_collector_diagnostics c ++
          (DiagDependentDisabled <$> (close_plugin_enablement PLUGIN_SPECS (requested_plugins c)).2)
     else []) ++ sensitive_evidence_diagnostics c ∧
  v_triggers v = resolve_triggers (triggers c).
Proof.
  intros Hv. destruct (validate_cases c)
    as [(? & _)|[(? & _)|[(? & ? & ? & _)|(_ & _ & _ & _ & v' & Hv' & Hen & _ & Hpl & Hd & Hpol & Htr)]]];
    try congruence. rewrite Hv in Hv'. injection Hv' as <-. split_and!; [done| |done..].
  intros x Hx. rewrite Hpl in Hx. destruct (enabled c); [|by apply not_elem_of_empty in Hx].
  split; [done|]. apply elem_of_requested. by apply closed_requested in Hx as [? _].
Qed.

(** C23. The privacy boundary fails closed. In a validated configuration a
    sensitive collector runs, or sensitive evidence is captured or persisted,
    only under granted consent, a level that covers it, the global switch and
    its own explicit toggle; in particular the minimal level or missing consent
    yield the minimal collection policy and no sensitive collector. *)
Theorem privacy_fails_closed c v :
  validate c = Ok v →
  (∀ plugin_id, plugin_id ∈ SENSITIVE_COLLECTORS → plugin_enabled v plugin_id = true →
     sensitive_authorized c plugin_id) ∧
  (capture_stack_memory (collection_policy v) = true →
     enabled c = true ∧ consent (privacy c) = Granted ∧ level (privacy c) ≠ Minimal ∧
     collectors_enabled (collectors c) = true ∧ thread_enabled (thread (collectors c)) = true ∧
     stack_memory (thread (collectors c)) = true) ∧
  (capture_shm_screenshots (collection_policy v) = true → sensitive_authorized c "ScreenshotCollector") ∧
  (capture_shm_attachments (collection_policy v) = true → sensitive_authorized c "AttachmentCollector") ∧
  (persist_raw_shm (collection_policy v) = true →
     enabled c = true ∧ consent (privacy c) = Granted ∧ level (privacy c) = Full ∧
     raw_shm (privacy c) = true) ∧
  (consent (privacy c) ≠ Granted ∨ level (privacy c) = Minimal →
     collection_policy v = POLICY_MINIMAL ∧
     ∀ plugin_id, plugin_id ∈ SENSITIVE_COLLECTORS → plugin_enabled v plugin_id = false).
Proof.
  intros Hv. destruct (validated_plugins c v Hv) as (Hen & Hpl & Hpol & _).
  assert (Hsens : ∀ x, x ∈ SENSITIVE_COLLECTORS → x ∈ enabled_plugins v → sensitive_authorized c x).
  { intros x Hs Hx. apply Hpl in Hx as [He Hx]. by apply sensitive_enabled_authorized, toggles_sensitive. }
  assert (Hplug : ∀ x, x ∈ SENSITIVE_COLLECTORS → plugin_enabled v x = true → sensitive_authorized c x).
  { intros x Hs Hx. unfold plugin_enabled in Hx.
    apply andb_true_iff in Hx as [_ Hx%bool_decide_eq_true]. by apply Hsens. }
  assert (Hshot : "ScreenshotCollector"%string ∈ SENSITIVE_COLLECTORS) by (right; by left).
  assert (Hatt : "AttachmentCollector"%string ∈ SENSITIVE_COLLECTORS) by (right; right; by left).
  assert (Hbits : (capture_stack_memory (collection_policy v) = true →
     enabled c = true ∧ consent (privacy c) = Granted ∧ level (privacy c) ≠ Minimal ∧
     collectors_enabled (collectors c) = true ∧ thread_enabled (thread (collectors c)) = true ∧
     stack_memory (thread (collectors c)) = true) ∧
    (capture_shm_screenshots (collection_policy v) = true → sensitive_authorized c "ScreenshotCollector") ∧
    (capture_shm_attachments (collection_policy v) = true → sensitive_authorized c "AttachmentCollector") ∧
    (persist_raw_shm (collection_policy v) = true →
      enabled c = true ∧ consent (privacy c) = Granted ∧ level (privacy c) = Full ∧
      raw_shm (privacy c) = true)).
  { rewrite Hpol. unfold resolve_collection_policy, privacy_allows_diagnostic_evidence,
      privacy_allows_full_evidence.
    destruct (enabled c) eqn:He; cbn [negb]; [|by cbn]. cbn. split_and!.
    - rewrite !andb_true_iff, bool_decide_eq_true. intros [[[? ?] ?] [? Hl]]. split_and!; try done.
      by destruct (level (privacy c)).
    - rewrite bool_decide_eq_true. by apply Hsens.
    - rewrite bool_decide_eq_true. by apply Hsens.
    - rewrite !andb_true_iff, !bool_decide_eq_true. by intros (? & ? & ?). }
  destruct Hbits as (H1 & H2 & H3 & H4). split_and!; [done..|].
  intros Hdeny.
  assert (Hno : ∀ x, ¬ sensitive_authorized c x).
  { intros x (_ & Hcons & _ & _ & Hl). destruct Hdeny as [?|Hl']; [done|].
    destruct Hl as [Hl|[Hl _]]; congruence. }
  split.
  - destruct (collection_policy v) as [a b d e]. cbn in *. unfold POLICY_MINIMAL. f_equal;
      apply not_true_is_false; intros ->.
    + destruct (H1 eq_refl) as (_ & ? & ? & _). by destruct Hdeny.
    + by apply (Hno "ScreenshotCollector"%string), H2.
    + by apply (Hno "AttachmentCollector"%string), H3.
    + destruct (H4 eq_refl) as (_ & ? & ? & _). destruct Hdeny; congruence.
  - intros x Hx. apply not_true_is_false. intros Hp. by apply (Hno x), Hplug.
Qed.

Lemma privacy_fails_closed_witness :
  ∃ v, validate config_default = Ok v ∧ collection_policy v = POLICY_MINIMAL ∧
    plugin_enabled v "MemoryCollector" = false.
Proof.
  assert (Hok : is_ok (validate config_default) = true) by (vm_compute; reflexivity).
  destruct (validate config_default) as [v|e] eqn:Hv; [|discriminate Hok].
  exists v. split; [reflexivity|].
  destruct (privacy_fails_closed config_default v Hv) as (_ & _ & _ & _ & _ & H).
  destruct (H (or_intror eq_refl)) as [Hp Hs]. split; [exact Hp|]. apply Hs. left.
Defined.

(** The global kill switch. With reporting off a validated configuration
    enables no plugin at all, allows no sensitive evidence and reports no
    policy decision, whatever else is configured; the trigger bits stay
    independent of it. *)
Theorem kill_switch c v :
  validate c = Ok v → enabled c = false →
  (∀ plugin_id, plugin_enabled v plugin_id = false) ∧ enabled_plugins v = ∅ ∧
  collection_policy v = POLICY_MINIMAL ∧ diagnostics v = [] ∧
  v_triggers v = resolve_triggers (triggers c).
Proof.
  intros Hv He. destruct (validated_plugins c v Hv) as (Hen & Hpl & Hpol & Hd & Htr).
  split_and!.
  - intros x. unfold plugin_enabled. by rewrite Hen, He.
  - apply leibniz_equiv, elem_of_equiv_empty. intros x Hx. apply Hpl in Hx as [? _]. congruence.
  - rewrite Hpol. unfold resolve_collection_policy. by rewrite He.
  - rewrite Hd. unfold sensitive_evidence_diagnostics. by rewrite He.
  - by rewrite Htr.
Qed.

Definition config_off : CrashReporterConfig :=
  mkConfig false None privacy_default triggers_default watchdog_default filters_default
    collectors_default pre_processors_default post_processors_default notifiers_default.

Lemma kill_switch_witness :
  ∃ v, validate config_off = Ok v ∧ enabled_plugins v = ∅ ∧ v_crash (v_triggers v) = true.
Proof.
  assert (Hok : is_ok (validate config_off) = true) by (vm_compute; reflexivity).
  destruct (validate config_off) as [v|e] eqn:Hv; [|discriminate Hok].
  exists v. split; [reflexivity|].
  destruct (kill_switch config_off v Hv eq_refl) as (_ & Hp & _ & _ & Ht). split; [exact Hp|]. rewrite Ht. reflexivity.
Defined.

(** No silent denial. With reporting on, a sensitive collector that is
    requested but not authorized is reported in the startup diagnostics, and
    every such diagnostic is about a requested, unauthorized collector. *)
Theorem denied_collectors_reported c v plugin_id :
  validate c = Ok v → enabled c = true →
  SensitiveCollectorDisabled plugin_id (level (privacy c)) (consent (privacy c)) ∈ diagnostics v ↔
  plugin_id ∈ SENSITIVE_COLLECTORS ∧ collectors_enabled (collectors c) = true ∧
  sensitive_collector_toggle (collectors c) plugin_id = true ∧ ¬ sensitive_authorized c plugin_id.
Proof.
  intros Hv He. destruct (validated_plugins c v Hv) as (_ & _ & _ & Hd & _). rewrite Hd, He.
  rewrite !elem_of_app. unfold sensitive_collector_diagnostics, sensitive_evidence_diagnostics. rewrite He.
  cbn [negb].
  assert (Hallow : ∀ x, x ∈ SENSITIVE_COLLECTORS → collectors_enabled (collectors c) = true →
    sensitive_collector_toggle (collectors c) x = true →
    privacy_allows_collector (privacy c) x = true ↔ sensitive_authorized c x).
  { intros x Hx Hc Ht. unfold sensitive_authorized, privacy_allows_collector.
    destruct (bool_decide (consent (privacy c) = Granted)) eqn:Hcons; cbn [negb].
    - apply bool_decide_eq_true in Hcons. destruct (level (privacy c)); rewrite ?bool_decide_eq_true;
        naive_solver.
    - apply bool_decide_eq_false in Hcons. naive_solver. }
  split.
  - intros [[Hin|Hin]|Hin].
    + destruct (collectors_enabled (collectors c)) eqn:Hc; cbn [negb] in Hin; [|by apply not_elem_of_nil in Hin].
      apply list_elem_of_fmap in Hin as (x & [= <-] & Hx). rewrite list_elem_of_In, filter_In in Hx.
      destruct Hx as [Hx Hb]. apply andb_true_iff in Hb as [Ht Hn]. apply list_elem_of_In in Hx.
      split_and!; [done..|]. intros Ha. apply (Hallow plugin_id) in Ha; [|done..]. by rewrite Ha in Hn.
    + by apply list_elem_of_fmap in Hin as (x & ? & _).
    + apply elem_of_app in Hin as [Hin|Hin]; case_match; try (by apply not_elem_of_nil in Hin);
        by apply list_elem_of_singleton in Hin.
  - intros (Hs & Hc & Ht & Hno). left. left. rewrite Hc. cbn [negb]. apply list_elem_of_fmap.
    exists plugin_id. split; [done|]. rewrite list_elem_of_In, filter_In. split; [by apply list_elem_of_In|].
    rewrite Ht. cbn [andb]. apply negb_true_iff, not_true_is_false. by rewrite Hallow.
Qed.

Definition config_memory_minimal : CrashReporterConfig :=
  mkConfig true None privacy_default triggers_default watchdog_default filters_default
    (mkCollectors true thread_default toggle_default toggle_default toggle_default toggle_default
       toggle_disabled toggle_disabled toggle_disabled toggle_disabled)
    pre_processors_default post_processors_default notifiers_default.

Lemma denied_collectors_reported_witness :
  ∃ v, validate config_memory_minimal = Ok v ∧
    SensitiveCollectorDisabled "MemoryCollector" Minimal NotGranted ∈ diagnostics v.
Proof.
  assert (Hok : is_ok (validate config_memory_minimal) = true) by (vm_compute; reflexivity).
  destruct (validate config_memory_minimal) as [v|e] eqn:Hv; [|discriminate Hok].
  exists v. split; [reflexivity|].
  apply (denied_collectors_reported config_memory_minimal v "MemoryCollector" Hv eq_refl).
  split; [left|]. split; [reflexivity|]. split; [reflexivity|].
  intros (_ & Hcons & _). discriminate Hcons.
Defined.
