(* ===== verification/PipelineTypes.v ===== *)
(** * The data of the plugin pipeline (src/pipeline/types.rs)

    Plugin identities and timeouts, the event that starts a report, the
    diagnostics that every stage appends to, the data the collectors gather and
    the values handed from capture to finalization. The records of the
    collectors' own payloads (collectors/*.rs, platform/macos/*.rs) are only
    carried by the pipeline. *)

From S2P Require Import Prelude.
From S2P Require Import ShmLayout.
From S2P Require Import ShmSnapshot.
From S2P Require Import ShmReader.
From S2P Require Import PluginGraph.

Module Types.

(** [mach_port_t] is a [u32] name; [MACH_PORT_NULL] is 0. *)
Definition mach_port_t : Type := Z.
Definition MACH_PORT_NULL : mach_port_t := 0.

(** A [PathBuf] is the sequence of its components. *)
Definition PathBuf : Type := list string.

(** ** Plugin metadata *)

Definition PluginId : Type := string.

Record PluginDependency := mkDependency { plugin : PluginId; kind : DependencyKind }.

#[export] Instance PluginDependency_eq_dec : EqDecision PluginDependency.
Proof. solve_decision. Defined.

Inductive Priority : Type := Critical | High | Medium | Low.

#[export] Instance Priority_eq_dec : EqDecision Priority.
Proof. solve_decision. Defined.

(** The derived [Ord] compares the constructors in declaration order. *)
Definition priority_rank (p : Priority) : Z :=
  match p with Critical => 0 | High => 1 | Medium => 2 | Low => 3 end.

Inductive PluginTimeout : Type :=
| CategoryDefault
| Disabled
| Override (timeout : Z).

Definition resolve (t : PluginTimeout) (category_default : Z) : option Z :=
  match t with
  | CategoryDefault => Some category_default
  | Disabled => None
  | Override timeout => Some timeout
  end.

(** ** Events *)

Inductive ReportType : Type := Crash | Snapshot | Anr | Oom | ExitFailure | SignalFailure.

#[export] Instance ReportType_eq_dec : EqDecision ReportType.
Proof. solve_decision. Defined.

Definition as_str (t : ReportType) : string :=
  match t with
  | Crash => "crash"
  | Snapshot => "snapshot"
  | Anr => "anr"
  | Oom => "oom"
  | ExitFailure => "exit_failure"
  | SignalFailure => "signal_failure"
  end.

Inductive TerminationEvidence : Type := PossibleOom | UnknownSigkill.

Inductive TerminationReason : Type :=
| Exited (exit_code runtime_ms : Z)
| Signaled (signal : Z) (core_dumped : bool) (runtime_ms : Z).

Record CrashEvent := mkCrashEvent {
  report_id : string;
  report_type : ReportType;
  termination : option TerminationReason;
  exception_type : option Z;
  exception_code : option Z;
  exception_subcode : option Z;
  exception_codes : list Z;
  crashed_thread : option mach_port_t;
  bail_on_suspend_failure : bool;
  event_pid : Z;
  process_name : string;
  hang_duration_ms : option Z
}.

Definition is_crash (e : CrashEvent) : bool := bool_decide (report_type e = Crash).

(** ** Collected data *)

Record RawStackCapture := mkStackCapture { sp : Z; stack_bytes : list Z; stack_truncated : bool }.

Record RawThreadData := mkThreadData {
  thread_port : Z;
  raw_thread_id : Z;
  thread_name : option string;
  crashed : bool;
  registers : option (gmap string Z);
  backtrace : list Z;
  stack_capture : option RawStackCapture
}.

Record RawImageSegment := mkImageSegment { segment_name : string; segment_start : Z; segment_end : Z }.

Record RawImageData := mkImageData {
  image_path : string;
  base_address : Z;
  slide : option Z;
  uuid : option string;
  architecture : option string;
  text_start : option Z;
  text_end : option Z;
  segments : list RawImageSegment
}.

Record VmRegionInfo := mkVmRegion {
  region_address : Z;
  region_size : Z;
  protection : Z;
  user_tag : Z;
  share_mode : Z;
  pages_resident : Z;
  pages_swapped_out : Z
}.

Record TaskVmSummary := mkVmSummary {
  virtual_size : Z;
  resident_size : Z;
  phys_footprint : Z;
  internal : Z;
  compressed : Z
}.

Record RawMallocZone := mkMallocZone {
  zone_name : string; region_count : Z; total_size : Z; resident_pages : Z }.

Record RawHeapData := mkHeapData { vm_summary : option TaskVmSummary; malloc_zones : list RawMallocZone }.

Record RawCopiedAttachment := mkCopiedAttachment {
  copied_label : string; original_path : string; copied_path : PathBuf; copied_size : Z }.

Record RawEnvironment := mkEnvironment {
  kernel_release : string;
  kernel_version : string;
  arch : string;
  hostname : string;
  variables_source : string;
  env_vars : list (string * string)
}.

Record ChildStreamTail := mkStreamTail { tail : string; tail_truncated : bool; read_error : option string }.
Record ChildOutputSnapshot := mkChildOutput { stdout : ChildStreamTail; stderr : ChildStreamTail }.

Record RawData := mkRawData {
  threads : list RawThreadData;
  images : list RawImageData;
  memory_map : list VmRegionInfo;
  heap : RawHeapData;
  breadcrumbs : list RawBreadcrumb;
  crash_context : option RawCrashContext;
  settings_snapshot : option RawSettingsSnapshot;
  attachments : list RawCopiedAttachment;
  attachment_registrations : list RawAttachment;
  screenshots : list RawScreenshot;
  symbols : gmap Z string;
  environment : option RawEnvironment;
  process_output : option ChildOutputSnapshot
}.

Definition raw_default : RawData :=
  mkRawData [] [] [] (mkHeapData None []) [] None None [] [] [] ∅ None None.

Record SessionReport := mkSession { session_report_id : string; start : string; duration_s : Z }.

Record BuildInfo := mkBuildInfo {
  build_app_version : string;
  build_info_number : Z;
  build_git_hash : string;
  build_info_type : string;
  build_info_preset : string;
  build_annotations : list (string * string)
}.

Record CollectedData := mkCollected {
  raw : RawData;
  session : option SessionReport;
  fingerprint : option string;
  build_info : option BuildInfo;
  duplicate_detected : bool
}.

Definition collected_default : CollectedData := mkCollected raw_default None None None false.

(** ** Diagnostics *)

Inductive PluginStatus : Type :=
| StatusOk
| Partial (why : string)
| Rejected (why : string)
| Error (why : string)
| Panic (why : string)
| TimedOut
| Skipped (why : string).

#[export] Instance PluginStatus_eq_dec : EqDecision PluginStatus.
Proof. solve_decision. Defined.

Record RawShmSnapshot := mkRawShm { shm_breadcrumbs : list Z; shm_context : list Z }.

Record EmergencySnapshot := mkEmergency {
  emergency_report_id : string;
  emergency_report_type : ReportType;
  emergency_termination : option TerminationReason;
  emergency_pid : Z;
  captured_unix_ms : Z;
  raw_breadcrumb_bytes : Z;
  raw_context_bytes : Z
}.

(** [unix_now] is the time since the epoch, absent when the system clock is
    set before it. *)
Definition emergency_new (event : CrashEvent) (raw_shm : option RawShmSnapshot) (unix_now : option Z)
    : EmergencySnapshot :=
  mkEmergency (report_id event) (report_type event) (termination event) (event_pid event)
    (match unix_now with
     | None => 0
     | Some d => if decide (as_millis d ≤ U64_MAX) then as_millis d else U64_MAX
     end)
    (match raw_shm with None => 0 | Some raw => Z.of_nat (length (shm_breadcrumbs raw)) end)
    (match raw_shm with None => 0 | Some raw => Z.of_nat (length (shm_context raw)) end).

Record PluginDiagnostic := mkDiagnostic {
  diagnostic_name : string;
  status : PluginStatus;
  duration_ms : Z;
  diagnostic_report_id : option string;
  started_offset_ms : Z;
  finished_offset_ms : Z
}.

Record Diagnostics := mkDiagnostics {
  plugins : list PluginDiagnostic;
  emergency_snapshot : option EmergencySnapshot;
  report_path : option PathBuf;
  diagnostics_start : Z
}.

Definition diagnostics_new (now : Z) : Diagnostics := mkDiagnostics [] None None now.

(** [as u64] keeps the low 64 bits. *)
Definition millis_u64 (d : Z) : Z := as_millis d `mod` 2 ^ 64.

(** [now] is the instant at which [self.start.elapsed()] is read. *)
Definition record (d : Diagnostics) (name : string) (st : PluginStatus) (duration now : Z) : Diagnostics :=
  let duration_ms := millis_u64 duration in
  let finished := millis_u64 (saturating_duration_since now (diagnostics_start d)) in
  mkDiagnostics
    (plugins d ++
     [mkDiagnostic name st duration_ms (emergency_report_id <$> emergency_snapshot d)
        (u64_saturating_sub finished duration_ms) finished])
    (emergency_snapshot d) (report_path d) (diagnostics_start d).

Definition record_immediate (d : Diagnostics) (name : string) (st : PluginStatus) (now : Z) : Diagnostics :=
  record d name st 0 now.

Definition ensure_emergency_snapshot (d : Diagnostics) (event : CrashEvent)
    (raw_shm : option RawShmSnapshot) (unix_now : option Z) : Diagnostics :=
  match emergency_snapshot d with
  | Some _ => d
  | None => mkDiagnostics (plugins d) (Some (emergency_new event raw_shm unix_now)) (report_path d)
              (diagnostics_start d)
  end.

Definition is_success (st : PluginStatus) : bool :=
  match st with StatusOk | Partial _ => true | _ => false end.

Definition succeeded (d : Diagnostics) (name : string) : bool :=
  existsb (λ p, bool_decide (diagnostic_name p = name) && is_success (status p)) (plugins d).

(** [diagnostics.plugins.append(&mut other.plugins)]. *)
Definition append_plugins (d : Diagnostics) (l : list PluginDiagnostic) : Diagnostics :=
  mkDiagnostics (plugins d ++ l) (emergency_snapshot d) (report_path d) (diagnostics_start d).

Definition set_report_path (d : Diagnostics) (p : option PathBuf) : Diagnostics :=
  mkDiagnostics (plugins d) (emergency_snapshot d) p (diagnostics_start d).

(** ** Report results and the capture hand-off *)

Record ReportResult := mkReportResult {
  artifact_paths : list PathBuf;
  raw_path : option PathBuf;
  json_path : option PathBuf;
  result_session : option SessionReport
}.

Record CapturePayload := mkPayload {
  payload_data : CollectedData;
  payload_raw_shm : option RawShmSnapshot;
  payload_diagnostics : Diagnostics
}.

(** [Ctx] stands for the report context (src/pipeline/artifact.rs). *)
Record CapturedEvent (Ctx : Type) := mkCaptured {
  captured_event : CrashEvent;
  report_context : option Ctx;
  captured_data : CollectedData;
  captured_raw_shm : option RawShmSnapshot;
  owned_shm_snapshot : option OwnedShmSnapshot;
  owned_collectors_deferred : bool;
  captured_diagnostics : Diagnostics
}.
Arguments mkCaptured {Ctx}.
Arguments captured_event {Ctx}.
Arguments report_context {Ctx}.
Arguments captured_data {Ctx}.
Arguments captured_raw_shm {Ctx}.
Arguments owned_shm_snapshot {Ctx}.
Arguments owned_collectors_deferred {Ctx}.
Arguments captured_diagnostics {Ctx}.

(** The event with its live capabilities removed. *)
Definition strip_live (event : CrashEvent) : CrashEvent :=
  mkCrashEvent (report_id event) (report_type event) (termination event) (exception_type event)
    (exception_code event) (exception_subcode event) (exception_codes event)
    None false (event_pid event) (process_name event) (hang_duration_ms event).

Definition captured_new {Ctx : Type} (event : CrashEvent) (payload : CapturePayload)
    (unix_now : option Z) : CapturedEvent Ctx :=
  mkCaptured (strip_live event) None (payload_data payload) (payload_raw_shm payload) None false
    (ensure_emergency_snapshot (payload_diagnostics payload) event (payload_raw_shm payload) unix_now).

Definition with_report_context {Ctx : Type} (event : CrashEvent) (context : Ctx)
    (payload : CapturePayload) (unix_now : option Z) : CapturedEvent Ctx :=
  mkCaptured (strip_live event) (Some context) (payload_data payload) (payload_raw_shm payload) None false
    (ensure_emergency_snapshot (payload_diagnostics payload) event (payload_raw_shm payload) unix_now).

Definition attach_owned_shm_snapshot {Ctx : Type} (c : CapturedEvent Ctx)
    (snapshot : option OwnedShmSnapshot) : CapturedEvent Ctx :=
  mkCaptured (captured_event c) (report_context c) (captured_data c) (captured_raw_shm c) snapshot true
    (captured_diagnostics c).

Definition set_termination {Ctx : Type} (c : CapturedEvent Ctx) (reason : option TerminationReason)
    : CapturedEvent Ctx :=
  let e := captured_event c in
  mkCaptured
    (mkCrashEvent (report_id e) (report_type e) reason (exception_type e) (exception_code e)
       (exception_subcode e) (exception_codes e) (crashed_thread e) (bail_on_suspend_failure e)
       (event_pid e) (process_name e) (hang_duration_ms e))
    (report_context c) (captured_data c) (captured_raw_shm c) (owned_shm_snapshot c)
    (owned_collectors_deferred c) (captured_diagnostics c).

Inductive CaptureOutcome (Ctx : Type) : Type :=
| Captured (c : CapturedEvent Ctx)
| CaptureSkipped (d : Diagnostics).
Arguments Captured {Ctx}.
Arguments CaptureSkipped {Ctx}.

(** ** Facts about the diagnostics *)

Lemma succeeded_record d name st duration now n :
  succeeded (record d name st duration now) n =
  succeeded d n || (bool_decide (name = n) && is_success st).
Proof. unfold succeeded, record. simpl. rewrite existsb_app. simpl. by rewrite orb_false_r. Qed.

Lemma record_snapshot d name st duration now :
  emergency_snapshot (record d name st duration now) = emergency_snapshot d.
Proof. done. Qed.

End Types.
