(* ===== verification/TaskControl.v ===== *)
(** * Owned task suspension (src/platform/task_control.rs)

    The guard that owns one successful [suspend_task], its bounded release
    policy and the fail-closed containment of a task whose helpers may still be
    running. The platform is a parameter: every reply may depend on all the
    calls made before it, and a call may also panic, in which case the guard is
    dropped while unwinding.

    [use_guard] and [run_uses] compose the operations as a client does (acquire,
    then exactly one of finish, containment or drop), so that the theorems
    speak of whole histories of captures. *)

From stdpp Require Import pretty.
From S2P Require Import Prelude.
From S2P Require Import PipelineTypes.

Module TaskControl.
Export Types.

Definition RESUME_ATTEMPT_LIMIT : nat := 3.

Inductive SuspendFailurePolicy : Type := SkipCapture | BestEffort.

Inductive TaskRecoveryAction : Type := Resumed | Terminated | EscalationRequired.

#[export] Instance TaskRecoveryAction_eq_dec : EqDecision TaskRecoveryAction.
Proof. solve_decision. Defined.

Record TaskControlFailure := mkFailure {
  failed_task : mach_port_t;
  resume_attempts : Z;
  resume_errors : list string;
  recovery : TaskRecoveryAction;
  termination_error : option string
}.

Definition requires_escalation (f : TaskControlFailure) : bool :=
  bool_decide (recovery f = EscalationRequired).

Definition prevents_continued_monitoring (f : TaskControlFailure) : bool :=
  match recovery f with Terminated | EscalationRequired => true | Resumed => false end.

Definition debug_recovery (r : TaskRecoveryAction) : string :=
  match r with
  | Resumed => "Resumed"
  | Terminated => "Terminated"
  | EscalationRequired => "EscalationRequired"
  end.

(** [impl fmt::Display for TaskControlFailure]. *)
Definition failure_to_string (f : TaskControlFailure) : string :=
  (("task " +:+ pretty (failed_task f) +:+ " resume attempted " +:+ pretty (resume_attempts f) +:+
   " time(s); recovery=" +:+ debug_recovery (recovery f)) +:+
  (match last (resume_errors f) with
   | Some error => "; last resume error: " +:+ error
   | None => ""
   end) +:+
  (match termination_error f with
   | Some error => "; termination failed: " +:+ error
   | None => ""
   end))%string.

Record SupervisorHealth := mkHealth { task_control_failures : list TaskControlFailure }.

Definition health_record (h : SupervisorHealth) (f : TaskControlFailure) : SupervisorHealth :=
  mkHealth (task_control_failures h ++ [f]).

Definition health_requires_escalation (h : SupervisorHealth) : bool :=
  existsb requires_escalation (task_control_failures h).

(** ** The platform *)

Inductive Reply : Type := ROk | RErr (error : string) | RPanic.

#[export] Instance Reply_eq_dec : EqDecision Reply.
Proof. solve_decision. Defined.

Inductive PlatformCall : Type :=
| Suspend (task : mach_port_t) (reply : Reply)
| Resume (task : mach_port_t) (reply : Reply)
| Terminate (task : mach_port_t) (reply : Reply)
| RecordFailure (f : TaskControlFailure).

Class PlatformOps := {
  suspend_task : list PlatformCall → mach_port_t → Reply;
  resume_task : list PlatformCall → mach_port_t → Reply;
  terminate_task : list PlatformCall → mach_port_t → Reply
}.

(** [calls] is the history of platform calls, oldest first; [failure_sink] is
    the vector shared by the guard and its caller. *)
Record World := mkWorld { calls : list PlatformCall; failure_sink : list TaskControlFailure }.

Inductive completion (A : Type) : Type := Returned (a : A) | Unwinding.
Arguments Returned {A} a.
Arguments Unwinding {A}.

Section Guard.
Context {platform : PlatformOps}.

Definition push_call (w : World) (c : PlatformCall) : World := mkWorld (calls w ++ [c]) (failure_sink w).

Definition call_suspend (task : mach_port_t) (w : World) : World * Reply :=
  let r := suspend_task (calls w) task in (push_call w (Suspend task r), r).
Definition call_resume (task : mach_port_t) (w : World) : World * Reply :=
  let r := resume_task (calls w) task in (push_call w (Resume task r), r).
Definition call_terminate (task : mach_port_t) (w : World) : World * Reply :=
  let r := terminate_task (calls w) task in (push_call w (Terminate task r), r).

(** [TaskControlFailureSink::record]: a poisoned lock is recovered, so the
    failure is always kept. *)
Definition sink_record (w : World) (f : TaskControlFailure) : World :=
  mkWorld (calls w) (failure_sink w ++ [f]).

Definition contain_task_without_resume (task : mach_port_t) (reason : string) (w : World)
    : World * completion unit :=
  let '(w, r) := call_terminate task w in
  match r with
  | RPanic => (w, Unwinding)
  | ROk =>
      let failure := mkFailure task 0 [reason] Terminated None in
      (push_call (sink_record w failure) (RecordFailure failure), Returned tt)
  | RErr error =>
      let failure := mkFailure task 0 [reason] EscalationRequired (Some error) in
      (push_call (sink_record w failure) (RecordFailure failure), Returned tt)
  end.

Record TaskSuspendGuard := mkGuard { guard_task : mach_port_t; active : bool }.

Definition acquire (task : mach_port_t) (w : World)
    : World * completion (result string TaskSuspendGuard) :=
  let '(w, r) := call_suspend task w in
  match r with
  | RPanic => (w, Unwinding)
  | RErr error => (w, Returned (Err error))
  | ROk => (w, Returned (Ok (mkGuard task true)))
  end.

Definition record_failure (g : TaskSuspendGuard) (attempts : Z) (errors : list string)
    (action : TaskRecoveryAction) (error : option string) (w : World) : World :=
  let failure := mkFailure (guard_task g) attempts errors action error in
  push_call (sink_record w failure) (RecordFailure failure).

(** The retry loop: the outcome is the number of calls made and the errors
    collected, with [true] when a call succeeded. *)
Fixpoint resume_loop (limit : nat) (task : mach_port_t) (attempts : Z) (errors : list string) (w : World)
    : World * completion (bool * Z * list string) :=
  match limit with
  | O => (w, Returned (false, attempts, errors))
  | S limit =>
      let '(w, r) := call_resume task w in
      match r with
      | RPanic => (w, Unwinding)
      | ROk => (w, Returned (true, attempts + 1, errors))
      | RErr error => resume_loop limit task (attempts + 1) (errors ++ [error]) w
      end
  end.

(** [release]: ownership ends before the first platform call. *)
Definition release (g : TaskSuspendGuard) (w : World) : TaskSuspendGuard * World * completion unit :=
  if negb (active g) then (g, w, Returned tt) else
  let g := mkGuard (guard_task g) false in
  let '(w, c) := resume_loop RESUME_ATTEMPT_LIMIT (guard_task g) 0 [] w in
  match c with
  | Unwinding => (g, w, Unwinding)
  | Returned (true, attempts, errors) =>
      match errors with
      | [] => (g, w, Returned tt)
      | _ :: _ => (g, record_failure g attempts errors Resumed None w, Returned tt)
      end
  | Returned (false, attempts, errors) =>
      let '(w, r) := call_terminate (guard_task g) w in
      match r with
      | RPanic => (g, w, Unwinding)
      | ROk => (g, record_failure g attempts errors Terminated None w, Returned tt)
      | RErr error => (g, record_failure g attempts errors EscalationRequired (Some error) w, Returned tt)
      end
  end.

(** [Drop::drop] runs when a guard leaves scope, also while unwinding; the
    unwinding started by the body continues after it. *)
Definition drop_guard (g : TaskSuspendGuard) (w : World) : World * completion unit :=
  let '(_, w, c) := release g w in (w, c).

Definition and_then_drop (g : TaskSuspendGuard) (w : World) (c : completion unit) : World * completion unit :=
  let '(w, c') := drop_guard g w in
  (w, match c with Unwinding => Unwinding | Returned _ => c' end).

Definition finish (g : TaskSuspendGuard) (w : World) : World * completion unit :=
  let '(g, w, c) := release g w in and_then_drop g w c.

Definition contain_without_resume (g : TaskSuspendGuard) (reason : string) (w : World)
    : World * completion unit :=
  let g := mkGuard (guard_task g) false in
  let '(w, c) := contain_task_without_resume (guard_task g) reason w in
  and_then_drop g w c.

End Guard.

(** [drain_into]: [clock i] is the instant read for the [i]-th record. *)
Fixpoint drain_failures (failures : list TaskControlFailure) (clock : nat → Z) (d : Diagnostics) : Diagnostics :=
  match failures with
  | [] => d
  | f :: failures =>
      drain_failures failures (λ i, clock (S i))
        (record_immediate d "TaskResume" (Error (failure_to_string f)) (clock O))
  end.

Definition drain_into (w : World) (clock : nat → Z) (d : Diagnostics) : World * Diagnostics :=
  (mkWorld (calls w) [], drain_failures (failure_sink w) clock d).

(** ** Clients of the guard *)

(** What an owner does with its guard: release it, contain the task, or let
    the guard fall out of scope (a normal return or an unwinding panic). *)
Inductive Disposition : Type := Finish | Contain (reason : string) | Drop.

Section Clients.
Context {platform : PlatformOps}.

Definition dispose (g : TaskSuspendGuard) (d : Disposition) (w : World) : World * completion unit :=
  match d with
  | Finish => finish g w
  | Contain reason => contain_without_resume g reason w
  | Drop => drop_guard g w
  end.

Definition use_guard (task : mach_port_t) (d : Disposition) (w : World) : World * completion unit :=
  let '(w, c) := acquire task w in
  match c with
  | Unwinding => (w, Unwinding)
  | Returned (Err _) => (w, Returned tt)
  | Returned (Ok g) => dispose g d w
  end.

(** A history of captures; a panicking capture is caught by its worker and the
    monitor goes on. *)
Fixpoint run_uses (uses : list (mach_port_t * Disposition)) (w : World) : World :=
  match uses with
  | [] => w
  | (task, d) :: uses => run_uses uses (use_guard task d w).1
  end.

End Clients.

(** ** Specification *)

(** The calls one release may make, with how it completes and the failure it
    reports: at most [RESUME_ATTEMPT_LIMIT] resumes, a termination only when all
    of them failed, and a report exactly when the first resume failed. *)
Inductive release_trace (task : mach_port_t)
    : list PlatformCall → completion unit → option TaskControlFailure → Prop :=
| released_at_once :
    release_trace task [Resume task ROk] (Returned tt) None
| released_after errors :
    errors ≠ [] → (length errors < RESUME_ATTEMPT_LIMIT)%nat →
    let f := mkFailure task (Z.of_nat (length errors) + 1) errors Resumed None in
    release_trace task (map (λ e, Resume task (RErr e)) errors ++ [Resume task ROk; RecordFailure f])
      (Returned tt) (Some f)
| resume_panicked errors :
    (length errors < RESUME_ATTEMPT_LIMIT)%nat →
    release_trace task (map (λ e, Resume task (RErr e)) errors ++ [Resume task RPanic]) Unwinding None
| terminated_after errors :
    length errors = RESUME_ATTEMPT_LIMIT →
    let f := mkFailure task (Z.of_nat RESUME_ATTEMPT_LIMIT) errors Terminated None in
    release_trace task (map (λ e, Resume task (RErr e)) errors ++ [Terminate task ROk; RecordFailure f])
      (Returned tt) (Some f)
| escalated_after errors error :
    length errors = RESUME_ATTEMPT_LIMIT →
    let f := mkFailure task (Z.of_nat RESUME_ATTEMPT_LIMIT) errors EscalationRequired (Some error) in
    release_trace task (map (λ e, Resume task (RErr e)) errors ++ [Terminate task (RErr error); RecordFailure f])
      (Returned tt) (Some f)
| terminate_panicked errors :
    length errors = RESUME_ATTEMPT_LIMIT →
    release_trace task (map (λ e, Resume task (RErr e)) errors ++ [Terminate task RPanic]) Unwinding None.

(** The calls of a containment: no resume at all. *)
Inductive contain_trace (task : mach_port_t) (reason : string)
    : list PlatformCall → completion unit → option TaskControlFailure → Prop :=
| contained :
    let f := mkFailure task 0 [reason] Terminated None in
    contain_trace task reason [Terminate task ROk; RecordFailure f] (Returned tt) (Some f)
| contain_escalated error :
    let f := mkFailure task 0 [reason] EscalationRequired (Some error) in
    contain_trace task reason [Terminate task (RErr error); RecordFailure f] (Returned tt) (Some f)
| contain_panicked :
    contain_trace task reason [Terminate task RPanic] Unwinding None.

Definition dispose_trace (task : mach_port_t) (d : Disposition) :=
  match d with Finish | Drop => release_trace task | Contain reason => contain_trace task reason end.

(** One whole use: nothing after a failed suspend, and the disposition's own
    trace after a successful one. *)
Inductive use_trace (task : mach_port_t) (d : Disposition)
    : list PlatformCall → completion unit → option TaskControlFailure → Prop :=
| not_suspended error : use_trace task d [Suspend task (RErr error)] (Returned tt) None
| suspend_panicked : use_trace task d [Suspend task RPanic] Unwinding None
| suspended l c f : dispose_trace task d l c f → use_trace task d (Suspend task ROk :: l) c f.

(** The suspension counts of [task] that the calls leave with the monitor. *)
Definition call_weight (task : mach_port_t) (c : PlatformCall) : Z :=
  match c with
  | Suspend t ROk => if decide (t = task) then 1 else 0
  | Resume t ROk => if decide (t = task) then -1 else 0
  | _ => 0
  end.

Fixpoint owned_count (task : mach_port_t) (l : list PlatformCall) : Z :=
  match l with [] => 0 | c :: l => call_weight task c + owned_count task l end.

Definition is_resume (c : PlatformCall) : bool := match c with Resume _ _ => true | _ => false end.
Definition is_terminate (c : PlatformCall) : bool := match c with Terminate _ _ => true | _ => false end.
Definition count_calls (p : PlatformCall → bool) (l : list PlatformCall) : nat := length (List.filter p l).

(** ** The release policy meets its specification *)

Definition extends (w w' : World) (l : list PlatformCall) (f : option TaskControlFailure) : Prop :=
  calls w' = calls w ++ l ∧ failure_sink w' = failure_sink w ++ option_list f.

Lemma owned_count_app task l1 l2 : owned_count task (l1 ++ l2) = owned_count task l1 + owned_count task l2.
Proof. induction l1 as [|c l1 IH]; simpl; lia. Qed.

Section Proofs.
Context {platform : PlatformOps}.

Lemma resume_loop_spec limit task attempts errors w :
  let '(w', c) := resume_loop limit task attempts errors w in
  ∃ more, (length more ≤ limit)%nat ∧ failure_sink w' = failure_sink w ∧
  match c with
  | Returned (true, a, es) =>
      (length more < limit)%nat ∧ a = attempts + Z.of_nat (length more) + 1 ∧ es = errors ++ more ∧
      calls w' = calls w ++ map (λ e, Resume task (RErr e)) more ++ [Resume task ROk]
  | Returned (false, a, es) =>
      length more = limit ∧ a = attempts + Z.of_nat (length more) ∧ es = errors ++ more ∧
      calls w' = calls w ++ map (λ e, Resume task (RErr e)) more
  | Unwinding =>
      (length more < limit)%nat ∧
      calls w' = calls w ++ map (λ e, Resume task (RErr e)) more ++ [Resume task RPanic]
  end.
Proof.
  revert attempts errors w. induction limit as [|limit IH]; intros attempts errors w; simpl.
  - exists []. rewrite !app_nil_r. simpl. repeat split; lia || done.
  - destruct (resume_task (calls w) task) as [|error|] eqn:Hr; simpl.
    + exists []. rewrite app_nil_r. simpl. repeat split; lia || done.
    + specialize (IH (attempts + 1) (errors ++ [error]) (push_call w (Resume task (RErr error)))).
      destruct (resume_loop _ _ _ _ _) as [w' c]. destruct IH as (more & Hlen & Hsink & Hc).
      exists (error :: more). simpl in *. split; [lia|]. split; [done|].
      destruct c as [[[[] a] es]|].
      * destruct Hc as (? & ? & -> & ->). rewrite <- !app_assoc. simpl. repeat split; lia || done.
      * destruct Hc as (? & ? & -> & ->). rewrite <- !app_assoc. simpl. repeat split; lia || done.
      * destruct Hc as (? & ->). rewrite <- !app_assoc. simpl. repeat split; lia || done.
    + exists []. simpl. repeat split; lia || done.
Qed.

Lemma release_inactive g w : active g = false → release g w = (g, w, Returned tt).
Proof. intros H. unfold release. by rewrite H. Qed.

Lemma release_deactivates g w : active ((release g w).1.1) = false.
Proof.
  unfold release. destruct (active g) eqn:Ha; cbn [negb]; [|done].
  destruct (resume_loop RESUME_ATTEMPT_LIMIT _ _ _ _) as [w' [[[[] a] [|]]|]]; simpl; try done;
    destruct (terminate_task _ _); done.
Qed.

Lemma release_spec g w :
  active g = true →
  let '(_, w', c) := release g w in
  ∃ l f, release_trace (guard_task g) l c f ∧ extends w w' l f.
Proof.
  intros Ha. unfold release. rewrite Ha. cbn [negb guard_task].
  pose proof (resume_loop_spec RESUME_ATTEMPT_LIMIT (guard_task g) 0 [] w) as Hloop.
  destruct (resume_loop RESUME_ATTEMPT_LIMIT (guard_task g) 0 [] w) as [w' c]. destruct Hloop as (more & Hlen & Hsink & Hc).
  unfold extends. destruct c as [[[[] a] es]|].
  - destruct Hc as (Hlt & -> & -> & Hcalls). rewrite Z.add_0_l, !app_nil_l. destruct more as [|e more].
    + exists [Resume (guard_task g) ROk], None. rewrite Hcalls, Hsink, app_nil_r. split; [constructor|done].
    + eexists _, (Some _). split; [apply (released_after _ (e :: more)); [discriminate|exact Hlt]|]. simpl.
      rewrite Hcalls, Hsink, <- app_assoc. simpl. by rewrite <- app_assoc.
  - destruct Hc as (Hlt & -> & -> & Hcalls). rewrite Z.add_0_l, !app_nil_l. unfold call_terminate.
    destruct (terminate_task (calls w') (guard_task g)) as [|error|] eqn:Ht; cbn [fst snd].
    + eexists _, (Some _). split; [by apply (terminated_after _ more)|]. simpl.
      rewrite Hcalls, Hsink, Hlt, <- !app_assoc. done.
    + eexists _, (Some _). split; [by apply (escalated_after _ more)|]. simpl.
      rewrite Hcalls, Hsink, Hlt, <- !app_assoc. done.
    + eexists _, None. split; [by apply (terminate_panicked _ more)|]. simpl.
      rewrite Hcalls, Hsink, app_nil_r, <- !app_assoc. done.
  - destruct Hc as (Hlt & Hcalls). eexists _, None. split; [by apply (resume_panicked _ more)|].
    rewrite Hcalls, Hsink, app_nil_r. done.
Qed.

(** A second release of the same guard, by its [Drop], does nothing. *)
Lemma finish_release g w : finish g w = let '(_, w', c) := release g w in (w', c).
Proof.
  unfold finish. pose proof (release_deactivates g w) as Hd. destruct (release g w) as [[g' w'] c].
  simpl in Hd. unfold and_then_drop, drop_guard. rewrite release_inactive by done.
  by destruct c as [[]|].
Qed.

Lemma contain_spec g reason w :
  let '(w', c) := contain_without_resume g reason w in
  ∃ l f, contain_trace (guard_task g) reason l c f ∧ extends w w' l f.
Proof.
  unfold contain_without_resume, contain_task_without_resume, extends. simpl.
  destruct (terminate_task (calls w) (guard_task g)) as [|error|]; simpl.
  - eexists _, (Some _). split; [apply contained|]. simpl. by rewrite <- app_assoc.
  - eexists _, (Some _). split; [apply contain_escalated|]. simpl. by rewrite <- app_assoc.
  - eexists _, None. split; [apply contain_panicked|]. simpl. by rewrite app_nil_r.
Qed.

Lemma use_guard_spec task d w :
  let '(w', c) := use_guard task d w in ∃ l f, use_trace task d l c f ∧ extends w w' l f.
Proof.
  unfold use_guard, acquire. simpl. destruct (suspend_task (calls w) task) as [|error|] eqn:Hs; simpl.
  - set (w1 := push_call w (Suspend task ROk)).
    assert (let '(w', c) := dispose (mkGuard task true) d w1 in
            ∃ l f, dispose_trace task d l c f ∧ extends w1 w' l f) as H.
    { destruct d as [|reason|]; cbn [dispose].
      - rewrite finish_release. pose proof (release_spec (mkGuard task true) w1 eq_refl) as H.
        by destruct (release _ _) as [[? ?] ?].
      - pose proof (contain_spec (mkGuard task true) reason w1) as H. by destruct (contain_without_resume _ _ _).
      - unfold drop_guard. pose proof (release_spec (mkGuard task true) w1 eq_refl) as H.
        by destruct (release _ _) as [[? ?] ?]. }
    destruct (dispose _ _ _) as [w' c]. destruct H as (l & f & Hl & Hcalls & Hsink).
    exists (Suspend task ROk :: l), f. split; [by constructor|]. unfold extends.
    rewrite Hcalls, Hsink. simpl. by rewrite <- app_assoc.
  - exists [Suspend task (RErr error)], None. split; [constructor|]. unfold extends. by rewrite app_nil_r.
  - exists [Suspend task RPanic], None. split; [constructor|]. unfold extends. by rewrite app_nil_r.
Qed.

End Proofs.

(** ** Suspension accounting *)

(** The calls after which a count stays with the monitor on purpose: the task
    is being terminated, or the platform panicked inside a resume. *)
Definition abandons (task : mach_port_t) (c : PlatformCall) : bool :=
  match c with
  | Terminate t _ => bool_decide (t = task)
  | Resume t RPanic => bool_decide (t = task)
  | _ => false
  end.

(** The failures handed to the platform. *)
Definition recorded (l : list PlatformCall) : list TaskControlFailure :=
  omap (λ c, match c with RecordFailure f => Some f | _ => None end) l.

(** From [n] owned counts, no prefix of [l] drops below zero. *)
Fixpoint safe_from (task : mach_port_t) (n : Z) (l : list PlatformCall) : Prop :=
  match l with
  | [] => True
  | c :: l => 0 ≤ n + call_weight task c ∧ safe_from task (n + call_weight task c) l
  end.

Lemma safe_from_app task n l1 l2 :
  safe_from task n (l1 ++ l2) ↔ safe_from task n l1 ∧ safe_from task (n + owned_count task l1) l2.
Proof.
  revert n. induction l1 as [|c l1 IH]; intros n; simpl; [rewrite Z.add_0_r; tauto|].
  rewrite IH. rewrite Z.add_assoc. tauto.
Qed.

Lemma safe_from_prefix task n l k : 0 ≤ n → safe_from task n l → k `prefix_of` l → 0 ≤ n + owned_count task k.
Proof.
  intros Hn Hl [l' ->]. apply safe_from_app in Hl as [Hl _]. revert n Hn Hl.
  induction k as [|c k IH]; intros n Hn Hl; simpl in *; [lia|]. destruct Hl as [H1 H2].
  specialize (IH _ H1 H2). lia.
Qed.

Lemma safe_from_weaken task n m l : n ≤ m → safe_from task n l → safe_from task m l.
Proof.
  revert n m. induction l as [|c l IH]; intros n m Hnm; simpl; [done|]. intros [H1 H2].
  split; [lia|]. eapply IH; [|exact H2]. lia.
Qed.

Lemma count_calls_app p l1 l2 : count_calls p (l1 ++ l2) = (count_calls p l1 + count_calls p l2)%nat.
Proof. unfold count_calls. by rewrite List.filter_app, length_app. Qed.

(** What a trace that starts with [own] counts of each task owes: every count
    is given back or abandoned, and at no point are there fewer than none. *)
Definition accounts (task : mach_port_t) (own : Z) (l : list PlatformCall) : Prop :=
  own + owned_count task l = Z.of_nat (count_calls (abandons task) l) ∧
  ∀ n, 0 ≤ n → safe_from task (n + own) l.

Definition own (t task : mach_port_t) : Z := if decide (t = task) then 1 else 0.

Lemma after_failed_resumes task t errors tail :
  accounts task (own t task) tail →
  accounts task (own t task) (map (λ e, Resume t (RErr e)) errors ++ tail).
Proof.
  intros H. induction errors as [|e errors [IH1 IH2]]; simpl; [done|]. split.
  - unfold count_calls in *. simpl. lia.
  - intros n Hn. simpl. rewrite Z.add_0_r. split; [|by apply IH2]. unfold own. case_decide; lia.
Qed.

Lemma recorded_failed_resumes t errors tail :
  recorded (map (λ e, Resume t (RErr e)) errors ++ tail) = recorded tail.
Proof. unfold recorded. rewrite omap_app. by induction errors. Qed.

Ltac account_calls :=
  unfold accounts, own, count_calls; simpl; unfold bool_decide; repeat case_decide; simpl;
  (split; [lia|intros; repeat split; lia]).

Lemma release_trace_account task t l c f :
  release_trace t l c f → accounts task (own t task) l ∧ recorded l = option_list f.
Proof.
  intros [|errors|errors|errors|errors|errors].
  all: rewrite ?recorded_failed_resumes; split; [|done]; try apply after_failed_resumes; account_calls.
Qed.

Lemma contain_trace_account task t reason l c f :
  contain_trace t reason l c f → accounts task (own t task) l ∧ recorded l = option_list f.
Proof. intros []; (split; [|done]); account_calls. Qed.

Lemma use_trace_account task t d l c f :
  use_trace t d l c f → accounts task 0 l ∧ recorded l = option_list f.
Proof.
  intros [error| |l' c' f' Hl]; [split; [account_calls|done]..|].
  assert (accounts task (own t task) l' ∧ recorded l' = option_list f') as [[H1 H2] H3].
  { destruct d; simpl in Hl; eauto using release_trace_account, contain_trace_account. }
  split; [|done]. unfold accounts, own, count_calls in *. simpl. split; [case_decide; lia|].
  intros n Hn. rewrite Z.add_0_r. split; [case_decide; lia|]. by apply H2.
Qed.

Lemma accounts_app task l1 l2 : accounts task 0 l1 → accounts task 0 l2 → accounts task 0 (l1 ++ l2).
Proof.
  intros [H1 H2] [H3 H4]. split.
  - rewrite owned_count_app, count_calls_app. lia.
  - intros n Hn. apply safe_from_app. split; [by apply H2|].
    replace (n + 0 + owned_count task l1) with (n + Z.of_nat (count_calls (abandons task) l1) + 0) by lia.
    apply H4. lia.
Qed.

Lemma run_uses_account {platform : PlatformOps} uses w :
  ∃ l, calls (run_uses uses w) = calls w ++ l ∧
       failure_sink (run_uses uses w) = failure_sink w ++ recorded l ∧ ∀ task, accounts task 0 l.
Proof.
  revert w. induction uses as [|[t d] uses IH]; intros w; simpl.
  - exists []. rewrite !app_nil_r. split; [done|]. split; [done|]. intros task. account_calls.
  - pose proof (use_guard_spec t d w) as H. destruct (use_guard t d w) as [w' c].
    destruct H as (l & f & Hl & Hcalls & Hsink). destruct (IH w') as (l' & Hc' & Hs' & Hl'). simpl.
    exists (l ++ l'). rewrite Hc', Hs', Hcalls, Hsink, <- !app_assoc. unfold recorded at 2.
    rewrite omap_app. destruct (use_trace_account 0 _ _ _ _ _ Hl) as [_ Hr]. unfold recorded in *.
    rewrite Hr. split; [done|]. split; [done|]. intros task.
    apply accounts_app; [|done]. by destruct (use_trace_account task _ _ _ _ _ Hl).
Qed.

Lemma drain_failures_plugins failures clock d :
  map (λ p, (diagnostic_name p, status p)) (plugins (drain_failures failures clock d)) =
  map (λ p, (diagnostic_name p, status p)) (plugins d) ++
  map (λ f, ("TaskResume"%string, Error (failure_to_string f))) failures.
Proof.
  revert clock d. induction failures as [|f failures IH]; intros clock d; simpl; [by rewrite app_nil_r|].
  rewrite IH. simpl. by rewrite map_app, <- app_assoc.
Qed.

(** ** Properties *)

(** One use of a suspension guard, for every platform (each reply may
    depend on all earlier calls and any call may panic) and every way of
    disposing of the guard: a failed suspend is followed by no task call; a
    release makes at most three resumes, stops at the first success, terminates
    only after three failures and reports exactly when the first resume failed;
    a containment never resumes; and the [Drop] after a release or containment
    adds nothing, not even after a panic. *)
Theorem guard_use_refines (platform : PlatformOps) (task : mach_port_t) (d : Disposition) (w : World) :
  let '(w', c) := use_guard task d w in
  ∃ l f, use_trace task d l c f ∧
    calls w' = calls w ++ l ∧ failure_sink w' = failure_sink w ++ option_list f.
Proof. exact (use_guard_spec task d w). Qed.

(** C24. Over any history of captures, no prefix of the platform calls has
    resumed a task more often than the monitor suspended it, and the counts it
    still holds at the end are exactly those abandoned on purpose (a termination
    attempt, or a panic inside a resume). *)
Theorem suspensions_balanced (platform : PlatformOps) (uses : list (mach_port_t * Disposition))
    (task : mach_port_t) :
  let l := calls (run_uses uses (mkWorld [] [])) in
  (∀ k, k `prefix_of` l → 0 ≤ owned_count task k) ∧
  owned_count task l = Z.of_nat (count_calls (abandons task) l).
Proof.
  simpl. destruct (run_uses_account uses (mkWorld [] [])) as (l & Hl & _ & Hacc). simpl in Hl. rewrite Hl.
  destruct (Hacc task) as [H1 H2]. split; [|lia]. intros k Hk.
  apply (safe_from_prefix task 0 l k); [lia| |done]. apply (H2 0). lia.
Qed.

(** Every task-control failure reaches both the platform's health record
    and, when the sink is drained, the event's diagnostics, once and in order;
    a second drain adds nothing. *)
Theorem failures_drained_once (platform : PlatformOps) (uses : list (mach_port_t * Disposition))
    (w : World) (clock clock' : nat → Z) (d : Diagnostics) :
  failure_sink w = [] →
  let w1 := run_uses uses w in
  let '(w2, d2) := drain_into w1 clock d in
  ∃ l, calls w1 = calls w ++ l ∧
    map (λ p, (diagnostic_name p, status p)) (plugins d2) =
      map (λ p, (diagnostic_name p, status p)) (plugins d) ++
      map (λ f, ("TaskResume"%string, Error (failure_to_string f))) (recorded l) ∧
    drain_into w2 clock' d2 = (w2, d2).
Proof.
  intros Hs. simpl. destruct (run_uses_account uses w) as (l & Hl & Hsink & _).
  exists l. split; [done|]. split; [|done]. by rewrite drain_failures_plugins, Hsink, Hs.
Qed.

(** A platform that refuses the first two resumes of a suspension and accepts
    the third. *)
Definition flaky_platform : PlatformOps := {|
  suspend_task _ _ := ROk;
  resume_task l _ := if decide (count_calls is_resume l < 2)%nat then RErr "busy" else ROk;
  terminate_task _ _ := ROk
|}.

Example flaky_release :
  use_guard (platform := flaky_platform) 42 Finish (mkWorld [] []) =
  (let f := mkFailure 42 3 ["busy"; "busy"]%string Resumed None in
   mkWorld [Suspend 42 ROk; Resume 42 (RErr "busy"); Resume 42 (RErr "busy"); Resume 42 ROk; RecordFailure f] [f],
   Returned tt).
Proof. vm_compute. reflexivity. Qed.

Lemma failures_drained_once_witness :
  let w1 := run_uses (platform := flaky_platform) [(42, Finish)] (mkWorld [] []) in
  let '(w2, d2) := drain_into w1 (λ _, 0) (diagnostics_new 0) in
  map status (plugins d2) =
    [Error "task 42 resume attempted 3 time(s); recovery=Resumed; last resume error: busy"] ∧
  drain_into w2 (λ _, 0) d2 = (w2, d2).
Proof.
  pose proof (failures_drained_once flaky_platform [(42, Finish)] (mkWorld [] []) (λ _, 0) (λ _, 0)
                (diagnostics_new 0) eq_refl) as H.
  cbv zeta in *. destruct (drain_into _ _ _) as [w2 d2] eqn:E. destruct H as (l & _ & _ & H).
  split; [|exact H]. apply (f_equal snd) in E. simpl in E. rewrite <- E. vm_compute. reflexivity.
Defined.

End TaskControl.
