(* ===== verification/PluginOrder.v ===== *)
(** * Plugin registration (src/pipeline/traits.rs, src/pipeline/mod.rs)

    Plugin metadata, the stable dependency-aware execution order that
    [finish_registration] gives every stage, and the validation of the
    assembled registry. The order is computed by the greedy scheduling loop of
    the source; [greedy] specifies it and the theorems relate it to the graph
    validation of [PluginGraph]. *)

From S2P Require Import Prelude.
From S2P Require Import PluginGraph.
From S2P Require Import PipelineTypes.

Module PluginOrder.
Export Types.

Inductive PluginExecution : Type := Cooperative | Subprocess.

#[export] Instance PluginExecution_eq_dec : EqDecision PluginExecution.
Proof. solve_decision. Defined.

Inductive CollectorAccess : Type := IsolatedTask | OwnedSnapshot.

#[export] Instance CollectorAccess_eq_dec : EqDecision CollectorAccess.
Proof. solve_decision. Defined.

Inductive PostProcessorPhase : Type := BeforeCommit | AfterCommit | AfterNotify | FinalCleanup.

#[export] Instance PostProcessorPhase_eq_dec : EqDecision PostProcessorPhase.
Proof. solve_decision. Defined.

(** The metadata of a plugin. [is_available] is a runtime check: it may depend
    on the state [E] of the environment. *)
Record Plugin (E : Type) := mkPlugin {
  name : string;
  id : PluginId;
  execution : PluginExecution;
  priority : Priority;
  hard_dependencies : list string;
  order_after : list string;
  is_available : E → bool;
  timeout : PluginTimeout
}.
Arguments mkPlugin {E}.
Arguments name {E}.
Arguments id {E}.
Arguments execution {E}.
Arguments priority {E}.
Arguments hard_dependencies {E}.
Arguments order_after {E}.
Arguments is_available {E}.
Arguments timeout {E}.

Definition dependencies {E : Type} (p : Plugin E) : list PluginDependency :=
  map (λ d, mkDependency d Hard) (hard_dependencies p) ++
  map (λ d, mkDependency d OrderOnly) (order_after p).

Definition post_processor_phase_rank (phase : PostProcessorPhase) : Z :=
  match phase with BeforeCommit => 0 | AfterCommit => 1 | AfterNotify => 2 | FinalCleanup => 3 end.

Definition plugin_graph_node {E : Type} (p : Plugin E) : PluginGraphNode :=
  mkNode (id p)
    (map plugin (List.filter (λ d, bool_decide (kind d = Hard)) (dependencies p)))
    (map plugin (List.filter (λ d, bool_decide (kind d = OrderOnly)) (dependencies p))).

(** ** The execution order *)

Section Order.
Context {E T : Type} (meta : T → Plugin E) (phase_rank : T → Z).

Definition plugin_graph_nodes (plugins : list T) : list PluginGraphNode :=
  map (λ p, plugin_graph_node (meta p)) plugins.

(** [(phase_rank, priority, insertion_index)], compared lexicographically. *)
Definition sort_key (p : nat * T) : Z * Z * Z :=
  (phase_rank p.2, priority_rank (priority (meta p.2)), Z.of_nat p.1).

Definition key_ltb (a b : Z * Z * Z) : bool :=
  let '(a1, a2, a3) := a in
  let '(b1, b2, b3) := b in
  (a1 <? b1) || ((a1 =? b1) && ((a2 <? b2) || ((a2 =? b2) && (a3 <? b3)))).

(** No dependency of [p] is still pending. *)
Definition ready (remaining : list (nat * T)) (p : T) : bool :=
  forallb (λ d, negb (existsb (λ q, bool_decide (id (meta q.2) = plugin d)) remaining))
    (dependencies (meta p)).

(** [Iterator::min_by_key]: the first of the smallest elements. *)
Definition keep_smaller (best : option (nat * (nat * T))) (c : nat * (nat * T)) : option (nat * (nat * T)) :=
  match best with
  | None => Some c
  | Some b => if key_ltb (sort_key c.2) (sort_key b.2) then Some c else Some b
  end.

Definition candidate (remaining : list (nat * T)) : option nat :=
  fst <$> foldl keep_smaller None
            (List.filter (λ c, ready remaining c.2.2) (imap pair remaining)).

(** One round of the [while] loop per unit of fuel; [length remaining] rounds
    are enough. *)
Fixpoint order_loop (fuel : nat) (remaining plugins : list (nat * T)) : list (nat * T) :=
  match fuel, remaining with
  | O, _ | _, [] => plugins
  | S fuel, _ =>
      match candidate remaining with
      | None => plugins ++ remaining
      | Some index =>
          match remaining !! index with
          | None => plugins
          | Some p => order_loop fuel (delete index remaining) (plugins ++ [p])
          end
      end
  end.

Definition stable_plugin_order_indexed (plugins : list T) : list (nat * T) :=
  order_loop (length plugins) (imap pair plugins) [].

Definition stable_plugin_order (plugins : list T) : list T :=
  map snd (stable_plugin_order_indexed plugins).

(** ** Specification of the order *)

Definition key_le (a b : Z * Z * Z) : Prop := key_ltb b a = false.

(** At every position the plugin chosen is the smallest of the pending plugins
    that have no pending dependency; when there is none, the pending plugins
    keep their insertion order. *)
Inductive greedy : list (nat * T) → Prop :=
| greedy_stuck l : (∀ x, x ∈ l → ready l x.2 = false) → StronglySorted (λ x y, (x.1 < y.1)%nat) l → greedy l
| greedy_pick x l :
    ready (x :: l) x.2 = true →
    (∀ y, y ∈ x :: l → ready (x :: l) y.2 = true → key_le (sort_key x) (sort_key y)) →
    greedy l → greedy (x :: l).

Lemma key_ltb_trans a b c : key_ltb a b = true → key_ltb b c = true → key_ltb a c = true.
Proof. destruct a as [[? ?] ?], b as [[? ?] ?], c as [[? ?] ?]. simpl. lia. Qed.

Lemma key_le_refl a : key_le a a.
Proof. destruct a as [[? ?] ?]. unfold key_le. simpl. lia. Qed.

Lemma key_le_trans a b c : key_le a b → key_le b c → key_le a c.
Proof. destruct a as [[? ?] ?], b as [[? ?] ?], c as [[? ?] ?]. unfold key_le. simpl. lia. Qed.

Lemma key_ltb_le a b : key_ltb a b = true → key_le a b.
Proof. destruct a as [[? ?] ?], b as [[? ?] ?]. unfold key_le. simpl. lia. Qed.

Lemma foldl_keep_smaller l best :
  match foldl keep_smaller best l with
  | None => best = None ∧ l = []
  | Some m => (best = Some m ∨ m ∈ l) ∧
      (∀ b, best = Some b → key_le (sort_key m.2) (sort_key b.2)) ∧
      (∀ c, c ∈ l → key_le (sort_key m.2) (sort_key c.2))
  end.
Proof.
  revert best. induction l as [|c l IH]; intros best; simpl.
  { destruct best; [|done]. split; [by left|]. split; [|set_solver]. intros ? [= ->]. apply key_le_refl. }
  specialize (IH (keep_smaller best c)). destruct (foldl _ _ l) as [m|].
  2:{ destruct IH as [IH _]. unfold keep_smaller in IH. destruct best; [case_match|]; done. }
  destruct IH as (H1 & H2 & H3). unfold keep_smaller in *. destruct best as [b|].
  - destruct (key_ltb (sort_key c.2) (sort_key b.2)) eqn:Hk; split_and!.
    + right. destruct H1 as [[= ->]|?]; [by left|by right].
    + intros ? [= <-]. eapply key_le_trans; [by apply H2|]. by apply key_ltb_le.
    + intros c' [->|Hc']%elem_of_cons; [by apply H2|by apply H3].
    + destruct H1 as [[= ->]|?]; [by left|by right; right].
    + intros ? [= <-]. by apply H2.
    + intros c' [->|Hc']%elem_of_cons; [|by apply H3]. eapply key_le_trans; [by apply H2|done].
  - split_and!; [|done|].
    + right. destruct H1 as [[= ->]|?]; [by left|by right].
    + intros c' [->|Hc']%elem_of_cons; [by apply H2|by apply H3].
Qed.

Lemma elem_of_imap_pair {A : Type} (l : list A) i x : (i, x) ∈ imap pair l ↔ l !! i = Some x.
Proof.
  rewrite list_elem_of_lookup. split.
  - intros [k Hk]. rewrite list_lookup_imap in Hk. apply fmap_Some in Hk as (y & Hy & [= <- ->]). done.
  - intros Hx. exists i. by rewrite list_lookup_imap, Hx.
Qed.

Lemma candidate_spec remaining :
  match candidate remaining with
  | None => ∀ x, x ∈ remaining → ready remaining x.2 = false
  | Some i => ∃ x, remaining !! i = Some x ∧ ready remaining x.2 = true ∧
      ∀ y, y ∈ remaining → ready remaining y.2 = true → key_le (sort_key x) (sort_key y)
  end.
Proof.
  unfold candidate.
  set (l := List.filter (λ c : nat * (nat * T), ready remaining c.2.2) (imap pair remaining)).
  assert (∀ i x, (i, x) ∈ l ↔ remaining !! i = Some x ∧ ready remaining x.2 = true) as Hl.
  { intros i x. unfold l. rewrite list_elem_of_In, List.filter_In, <- list_elem_of_In, elem_of_imap_pair. done. }
  pose proof (foldl_keep_smaller l None) as H. destruct (foldl _ _ l) as [[i x]|]; simpl.
  - destruct H as ([?|Hx] & _ & Hmin); [done|]. apply Hl in Hx as [Hx Hr]. exists x. split_and!; [done..|].
    intros y Hy Hry. apply list_elem_of_lookup in Hy as [j Hj]. apply (Hmin (j, y)). by apply Hl.
  - destruct H as [_ Hnil]. intros x Hx. apply list_elem_of_lookup in Hx as [j Hj].
    destruct (ready remaining x.2) eqn:Hr; [|done]. assert ((j, x) ∈ l) as Hin by by apply Hl.
    rewrite Hnil in Hin. set_solver.
Qed.

Lemma existsb_perm {A : Type} (f : A → bool) l l' : l ≡ₚ l' → existsb f l = existsb f l'.
Proof. induction 1; simpl; try congruence. by destruct (f x), (f y). Qed.

Lemma ready_perm l l' x : l ≡ₚ l' → ready l x = ready l' x.
Proof.
  intros Hp. unfold ready. induction (dependencies (meta x)) as [|d ds IH]; simpl; [done|].
  by rewrite IH, (existsb_perm _ _ _ Hp).
Qed.

Lemma delete_sorted {A : Type} (R : A → A → Prop) l i : StronglySorted R l → StronglySorted R (delete i l).
Proof.
  intros H. revert i. induction H as [|x l Hl IH Hx]; intros [|i]; simpl; [constructor..| |].
  - done.
  - constructor; [apply IH|]. rewrite Forall_forall in *. intros y Hy. apply Hx.
    apply list_elem_of_lookup in Hy as [j Hj]. eapply list_elem_of_lookup.
    destruct (decide (j < i)%nat).
    + rewrite list_lookup_delete_lt in Hj by done. eauto.
    + rewrite list_lookup_delete_ge in Hj by lia. eauto.
Qed.

(** The loop returns the whole remainder, greedily ordered, with any fuel that
    covers it. *)
Lemma order_loop_spec fuel remaining plugins :
  (length remaining ≤ fuel)%nat → StronglySorted (λ x y, (x.1 < y.1)%nat) remaining →
  ∃ out, order_loop fuel remaining plugins = plugins ++ out ∧ out ≡ₚ remaining ∧ greedy out.
Proof.
  revert remaining plugins. induction fuel as [|fuel IH]; intros remaining plugins Hlen Hs.
  { destruct remaining; [|simpl in Hlen; lia]. exists []. rewrite app_nil_r. split_and!; [done..|].
    apply greedy_stuck; [set_solver|constructor]. }
  destruct remaining as [|r rest].
  { exists []. simpl. rewrite app_nil_r. split_and!; [done..|]. apply greedy_stuck; [set_solver|constructor]. }
  pose proof (candidate_spec (r :: rest)) as Hc. cbn [order_loop].
  destruct (candidate (r :: rest)) as [i|].
  - destruct Hc as (x & Hx & Hr & Hmin). rewrite Hx.
    destruct (IH (delete i (r :: rest)) (plugins ++ [x])) as (out & Heq & Hp & Hg).
    + rewrite length_delete by (by eexists). simpl in *. lia.
    + by apply delete_sorted.
    + exists (x :: out). rewrite Heq, <- app_assoc. split; [done|].
      assert (x :: out ≡ₚ r :: rest) as Hperm by (rewrite Hp; symmetry; by apply delete_Permutation).
      split; [done|]. apply greedy_pick; [by rewrite (ready_perm _ _ _ Hperm)| |done].
      intros y Hy Hry. rewrite (ready_perm _ _ _ Hperm) in Hry. apply Hmin; [by rewrite <- Hperm|done].
  - exists (r :: rest). split_and!; [done..|]. by apply greedy_stuck.
Qed.

Lemma imap_pair_sorted (l : list T) : StronglySorted (λ x y, (x.1 < y.1)%nat) (imap pair l).
Proof.
  assert (∀ k, StronglySorted (λ x y : nat * T, (x.1 < y.1)%nat) (imap (λ i, pair (k + i)%nat) l)) as H; [|apply (H 0%nat)].
  induction l as [|x l IH]; intros k; [constructor|]. simpl. constructor.
  - rewrite (imap_ext _ (λ i, pair (S k + i)%nat)); [apply IH|]. intros i y _. simpl. f_equal. lia.
  - rewrite Forall_forall. intros [j y] Hy. simpl. apply list_elem_of_lookup in Hy as [n Hn].
    rewrite list_lookup_imap in Hn. apply fmap_Some in Hn as (z & _ & [= -> ->]). simpl. lia.
Qed.

Lemma map_snd_imap_pair (l : list T) : map snd (imap pair l) = l.
Proof.
  assert (∀ k, map snd (imap (λ i, pair (k + i)%nat) l) = l) as H; [|apply (H 0%nat)].
  induction l as [|x l IH]; intros k; simpl; [done|]. f_equal.
  rewrite (imap_ext _ (λ i, pair (S k + i)%nat)); [apply IH|]. intros i y _. simpl. f_equal. lia.
Qed.

Lemma stable_plugin_order_spec (plugins : list T) :
  stable_plugin_order_indexed plugins ≡ₚ imap pair plugins ∧ greedy (stable_plugin_order_indexed plugins).
Proof.
  unfold stable_plugin_order_indexed.
  destruct (order_loop_spec (length plugins) (imap pair plugins) []) as (out & Heq & Hp & Hg).
  - by rewrite length_imap.
  - apply imap_pair_sorted.
  - rewrite Heq. done.
Qed.

Lemma stable_plugin_order_perm (plugins : list T) : stable_plugin_order plugins ≡ₚ plugins.
Proof.
  unfold stable_plugin_order. destruct (stable_plugin_order_spec plugins) as [Hp _].
  etransitivity; [apply Permutation_map, Hp|]. by rewrite map_snd_imap_pair.
Qed.

(** ** The order repairs every repairable registry *)

Lemma node_dependencies (p : T) :
  PluginGraph.id (plugin_graph_node (meta p)) = id (meta p) ∧
  PluginGraph.hard_dependencies (plugin_graph_node (meta p)) = hard_dependencies (meta p) ∧
  PluginGraph.order_dependencies (plugin_graph_node (meta p)) = order_after (meta p).
Proof.
  unfold plugin_graph_node, dependencies. simpl. split; [done|].
  assert (∀ k k' l, map plugin (List.filter (λ d, bool_decide (kind d = k)) (map (λ d, mkDependency d k') l)) =
    if decide (k' = k) then l else []) as Hf.
  { intros k k' l. induction l as [|d l IH]; simpl; [by case_decide|].
    destruct (decide (k' = k)); [rewrite bool_decide_true by done; simpl; by f_equal|].
    by rewrite bool_decide_false. }
  rewrite !List.filter_app, !map_app, !Hf. simpl. by rewrite app_nil_r.
Qed.

Lemma nodes_lookup plugins i n :
  plugin_graph_nodes plugins !! i = Some n ↔ ∃ p, plugins !! i = Some p ∧ n = plugin_graph_node (meta p).
Proof.
  unfold plugin_graph_nodes. change (map ?f ?l) with (f <$> l). rewrite list_lookup_fmap, fmap_Some. done.
Qed.

Lemma nodes_ids plugins : PluginGraph.id <$> plugin_graph_nodes plugins = (λ p, id (meta p)) <$> plugins.
Proof. unfold plugin_graph_nodes. by rewrite <- list_fmap_compose. Qed.

(** A pending plugin is ready when no pending plugin has an id it depends on. *)
Lemma ready_true remaining p :
  ready remaining p = true ↔
  ∀ q d, q ∈ remaining → d ∈ hard_dependencies (meta p) ++ order_after (meta p) → id (meta q.2) ≠ d.
Proof.
  unfold ready. rewrite forallb_forall. split.
  - intros H q d Hq Hd Hid.
    assert (∃ k, mkDependency d k ∈ dependencies (meta p)) as [k Hk].
    { unfold dependencies. setoid_rewrite elem_of_app.
      apply elem_of_app in Hd as [Hd|Hd]; [exists Hard; left|exists OrderOnly; right];
        change (map ?f ?l) with (f <$> l); apply list_elem_of_fmap; eauto. }
    apply list_elem_of_In, H in Hk. apply negb_true_iff in Hk.
    apply not_true_iff_false in Hk. apply Hk, existsb_exists. exists q.
    split; [by apply list_elem_of_In|]. by apply bool_decide_eq_true.
  - intros H d Hd. apply negb_true_iff, not_true_iff_false. rewrite existsb_exists.
    intros (q & Hq & Hid). apply bool_decide_eq_true in Hid. apply list_elem_of_In in Hq, Hd.
    apply (H q (plugin d)); [done| |done]. unfold dependencies in Hd.
    apply elem_of_app in Hd as [Hd|Hd]; change (map ?f ?l) with (f <$> l) in Hd;
      apply list_elem_of_fmap in Hd as (x & -> & Hx); apply elem_of_app; simpl; auto.
Qed.

(** In a registry that some order validates, every nonempty set of pending
    plugins has a ready one. *)
Lemma some_ready (arranged : list T) (pending : list (nat * T)) :
  graph_ok (plugin_graph_nodes arranged) false →
  (∀ x, x ∈ pending → x.2 ∈ arranged) → pending ≠ [] → ∃ x, x ∈ pending ∧ ready pending x.2 = true.
Proof.
  intros [Hnd Hok] Hsub Hne. rewrite nodes_ids in Hnd.
  assert (∀ n x, x ∈ pending → arranged !! n = Some x.2 → ∃ x, x ∈ pending ∧ ready pending x.2 = true) as Hind.
  2:{ destruct pending as [|x l]; [done|]. pose proof (Hsub x (list_elem_of_here _ _)) as Hx.
      apply list_elem_of_lookup in Hx as [n Hn]. apply (Hind n x); [left|done]. }
  induction n as [n IH] using lt_wf_ind. intros x Hx Hn.
  destruct (ready pending x.2) eqn:Hr; [eauto|].
  apply not_true_iff_false in Hr. rewrite ready_true in Hr.
  destruct (decide (Exists (λ q, id (meta q.2) ∈ hard_dependencies (meta x.2) ++ order_after (meta x.2)) pending))
    as [He|Hno].
  2:{ destruct Hr. intros q d Hq Hd Hid. apply Hno, List.Exists_exists. exists q.
      split; [by apply list_elem_of_In|]. by rewrite Hid. }
  apply List.Exists_exists in He as (q & Hq & Hd). apply list_elem_of_In in Hq.
  destruct (Hok n (plugin_graph_node (meta x.2))) as [Hh Ho]; [apply nodes_lookup; eauto|].
  destruct (node_dependencies x.2) as (_ & E1 & E2). rewrite E1 in Hh. rewrite E2 in Ho.
  assert (provided_before (plugin_graph_nodes arranged) n (id (meta q.2))) as (j & m & Hj & Hm & Hid).
  { apply elem_of_app in Hd as [Hd|Hd]; [by apply Hh|]. destruct (Ho _ Hd) as [?|[_ Hout]]; [done|].
    destruct Hout. rewrite nodes_ids. apply list_elem_of_fmap. exists q.2. split; [done|by apply Hsub]. }
  apply nodes_lookup in Hm as (p & Hp & ->).
  assert (p = q.2) as ->.
  { pose proof (Hsub q Hq) as Hqa. apply list_elem_of_lookup in Hqa as [jq Hjq].
    assert (j = jq) as ->; [|congruence]. eapply (NoDup_lookup _ _ _ _ Hnd); rewrite list_lookup_fmap.
    - by rewrite Hp.
    - rewrite Hjq. simpl. f_equal. symmetry. exact Hid. }
  by apply (IH j Hj q).
Qed.

Lemma greedy_dependencies (arranged : list T) (out : list (nat * T)) :
  graph_ok (plugin_graph_nodes arranged) false → (∀ x, x ∈ out → x.2 ∈ arranged) → greedy out →
  ∀ k x, out !! k = Some x → ready (drop k out) x.2 = true.
Proof.
  intros Hok Hsub Hg. induction Hg as [l Hstuck _|x l Hr _ Hg IH]; intros k y Hy.
  - destruct l as [|x l]; [by rewrite lookup_nil in Hy|].
    destruct (some_ready arranged (x :: l) Hok Hsub) as (z & Hz & Hrz); [done|].
    rewrite (Hstuck z Hz) in Hrz. done.
  - destruct k as [|k]; simpl in *; [by injection Hy as <-|]. apply IH; [|done].
    intros z Hz. apply Hsub. by right.
Qed.

Lemma stable_plugin_order_repairs (plugins arranged : list T) :
  arranged ≡ₚ plugins → graph_ok (plugin_graph_nodes arranged) false →
  graph_ok (plugin_graph_nodes (stable_plugin_order plugins)) false.
Proof.
  intros Hperm Hok. destruct (stable_plugin_order_spec plugins) as [Hp Hg].
  assert (∀ x, x ∈ stable_plugin_order_indexed plugins → x.2 ∈ arranged) as Hsub.
  { intros x Hx. rewrite Hperm, <- (map_snd_imap_pair plugins). change (map ?f ?l) with (f <$> l).
    apply list_elem_of_fmap. exists x. split; [done|]. by rewrite <- Hp. }
  pose proof (greedy_dependencies arranged _ Hok Hsub Hg) as Hready.
  destruct Hok as [Hnd Hdeps]. rewrite nodes_ids in Hnd.
  assert (stable_plugin_order plugins ≡ₚ arranged) as Hsp by (by rewrite stable_plugin_order_perm).
  split. { rewrite nodes_ids. by rewrite Hsp. }
  intros i n Hn. apply nodes_lookup in Hn as (p & Hpi & ->).
  destruct (node_dependencies p) as (_ & -> & ->).
  assert (p ∈ arranged) as Hpa by (rewrite <- Hsp; by eapply list_elem_of_lookup_2).
  apply list_elem_of_lookup in Hpa as [ia Hia].
  destruct (Hdeps ia (plugin_graph_node (meta p))) as [Hh Ho]; [apply nodes_lookup; eauto|].
  destruct (node_dependencies p) as (_ & E1 & E2). rewrite E1 in Hh. rewrite E2 in Ho.
  assert (∀ d, d ∈ hard_dependencies (meta p) ++ order_after (meta p) → d ∈ (λ p, id (meta p)) <$> arranged →
    provided_before (plugin_graph_nodes (stable_plugin_order plugins)) i d) as Hbefore.
  { intros d Hd Hda. rewrite <- Hsp in Hda. apply list_elem_of_fmap in Hda as (q & -> & Hq).
    apply list_elem_of_lookup in Hq as [j Hj]. exists j, (plugin_graph_node (meta q)).
    split_and!; [|apply nodes_lookup; eauto|apply node_dependencies].
    unfold stable_plugin_order in Hpi, Hj. change (map ?f ?l) with (f <$> l) in Hpi, Hj.
    rewrite list_lookup_fmap in Hpi, Hj. apply fmap_Some in Hpi as (x & Hx & ->), Hj as (y & Hy & ->).
    destruct (decide (j < i)%nat) as [|Hge]; [done|]. exfalso.
    pose proof (Hready i x Hx) as Hr. rewrite ready_true in Hr. apply (Hr y (id (meta y.2))); [|done..].
    apply list_elem_of_lookup. exists (j - i)%nat. rewrite lookup_drop. rewrite <- Hy. f_equal. lia. }
  split.
  - intros d Hd. apply Hbefore; [apply elem_of_app; by left|]. destruct (Hh d Hd) as (j & m & _ & Hm & Hid).
    rewrite <- nodes_ids, <- Hid. apply list_elem_of_fmap_2. by eapply list_elem_of_lookup_2.
  - intros d Hd. destruct (Ho d Hd) as [(j & m & _ & Hm & Hid)|[_ Hout]].
    + left. apply Hbefore; [apply elem_of_app; by right|].
      rewrite <- nodes_ids, <- Hid. apply list_elem_of_fmap_2. by eapply list_elem_of_lookup_2.
    + right. split; [done|]. rewrite nodes_ids in *. by rewrite Hsp.
Qed.

(** The execution order is a permutation of the registered plugins in which
    every choice is greedy (among the pending plugins whose dependencies have
    all run, the one with the smallest phase, priority and insertion index
    runs next), and it puts dependencies first whenever any arrangement of the
    same plugins does. *)
Theorem stable_plugin_order_schedule (plugins : list T) :
  stable_plugin_order_indexed plugins ≡ₚ imap pair plugins ∧
  greedy (stable_plugin_order_indexed plugins) ∧
  ∀ arranged, arranged ≡ₚ plugins → graph_ok (plugin_graph_nodes arranged) false →
    graph_ok (plugin_graph_nodes (stable_plugin_order plugins)) false.
Proof.
  destruct (stable_plugin_order_spec plugins) as [H1 H2]. split; [done|]. split; [done|].
  intros arranged. apply stable_plugin_order_repairs.
Qed.

End Order.

(** A dependency wins over priority, priority over insertion, and equal
    priorities keep their insertion order. *)
Example order_example :
  let p n pr deps := mkPlugin (E := unit) n n Cooperative pr deps [] (λ _, true) CategoryDefault in
  map id (stable_plugin_order (λ x, x) (λ _, 0)
    [p "c" Critical ["b"]; p "x" Low []; p "b" Low []; p "a" High []])%string = ["a"; "x"; "b"; "c"]%string.
Proof. vm_compute. reflexivity. Qed.

End PluginOrder.
