(* ===== verification/PluginRun.v ===== *)
(** * Guarded plugin invocations (src/pipeline/safety.rs, src/pipeline/mod.rs)

    The per-invocation deadline and cancellation context, the in-process runner
    that classifies what a plugin did (value, error, panic, expiry), the check
    that a subprocess plugin really crossed the process boundary, and the status
    recorded for the outcome.

    A plugin is a trait object: a function from the context, the cells it shares
    with the runner, the data it may mutate and the environment, to their new
    values and a returned value or a panic. The environment [E] is everything
    else the process can observe or change, the clock included. *)

From S2P Require Import Prelude.
From S2P Require Import ShmSnapshot.
From S2P Require Import PipelineTypes.
From S2P Require Import PluginOrder.

Module PluginRun.
Export PluginOrder.

(** [Instant::now()]: reading the clock may advance it. *)
Class Clock (E : Type) := instant_now : E → Z * E.

(** [SystemTime::now().duration_since(UNIX_EPOCH)], in nanoseconds; [None] before
    the epoch. *)
Class WallClock (E : Type) := unix_now : E → option Z * E.

(** How a call returns to [catch_unwind]. *)
Inductive call (A : Type) : Type := Value (a : A) | Panicking (message : string).
Arguments Value {A} a.
Arguments Panicking {A} message.

Definition SUBPROCESS_UNUSED : Z := 0.
Definition SUBPROCESS_STARTED : Z := 1.
Definition SUBPROCESS_NOT_REQUIRED : Z := 2.

(** The shared cells of a context: the cancellation flag, the subprocess
    boundary and the two write-once diagnostics. *)
Record Cells := mkCells {
  cancelled : bool;
  subprocess_boundary : Z;
  subprocess_cleanup_failure : option string;
  subprocess_timeout_diagnostic : option string
}.

Definition fresh_cells (cancellation : bool) : Cells := mkCells cancellation SUBPROCESS_UNUSED None None.

Definition cancel (c : Cells) : Cells :=
  mkCells true (subprocess_boundary c) (subprocess_cleanup_failure c) (subprocess_timeout_diagnostic c).
Definition mark_subprocess_started (c : Cells) : Cells :=
  mkCells (cancelled c) SUBPROCESS_STARTED (subprocess_cleanup_failure c) (subprocess_timeout_diagnostic c).
Definition mark_subprocess_not_required (c : Cells) : Cells :=
  mkCells (cancelled c) SUBPROCESS_NOT_REQUIRED (subprocess_cleanup_failure c) (subprocess_timeout_diagnostic c).
Definition subprocess_boundary_satisfied (c : Cells) : bool :=
  negb (subprocess_boundary c =? SUBPROCESS_UNUSED).

(** [OnceLock::set]: only the first value is kept. *)
Definition record_subprocess_cleanup_failure (c : Cells) (error : string) : Cells :=
  match subprocess_cleanup_failure c with
  | Some _ => c
  | None => mkCells (cancelled c) (subprocess_boundary c) (Some error) (subprocess_timeout_diagnostic c)
  end.

(** [Txn] and [Ctx] stand for the artifact transaction and the report context
    (src/pipeline/artifact.rs). *)
Record PluginContext (Txn Ctx : Type) := mkContext {
  deadline : option Z;
  shm_snapshot : option OwnedShmSnapshot;
  artifact_transaction : option Txn;
  context_report : option Ctx
}.
Arguments mkContext {Txn Ctx}.
Arguments deadline {Txn Ctx}.
Arguments shm_snapshot {Txn Ctx}.
Arguments artifact_transaction {Txn Ctx}.
Arguments context_report {Txn Ctx}.

Inductive PluginRunResult (T : Type) : Type :=
| Completed (value : T)
| Failed (error : string)
| Panicked (message : string)
| RunTimedOut.
Arguments Completed {T} value.
Arguments Failed {T} error.
Arguments Panicked {T} message.
Arguments RunTimedOut {T}.

Definition into_option {T : Type} (r : PluginRunResult T) : option T :=
  match r with Completed value => Some value | _ => None end.

(** [Display] of a [PluginError] (src/errors.rs). *)
Definition plugin_error_to_string (message : string) : string := ("plugin: " +:+ message)%string.

Definition plugin_status {T : Type} (r : PluginRunResult T) : PluginStatus :=
  match r with
  | Completed _ => StatusOk
  | Failed error => Error (plugin_error_to_string error)
  | Panicked message => Panic message
  | RunTimedOut => TimedOut
  end.

Definition filter_status (name : string) (r : PluginRunResult bool) : PluginStatus :=
  match r with
  | Completed true => StatusOk
  | Completed false => Rejected (name +:+ " rejected the event")
  | Failed error => Error (plugin_error_to_string error)
  | Panicked message => Panic message
  | RunTimedOut => TimedOut
  end.

Section Run.
Context {E : Type} {clock : Clock E} {Txn Ctx : Type}.
Notation PluginContext := (PluginContext Txn Ctx).

(** ** Contexts *)

Definition without_deadline : PluginContext := mkContext None None None None.

(** An unrepresentable deadline is an expired one. *)
Definition deadline_after (timeout : Z) (env : E) : Z * E :=
  let '(now, env) := instant_now env in
  (default now (instant_checked_add now timeout), env).

Definition with_timeout (timeout : Z) (env : E) : PluginContext * E :=
  let '(d, env) := deadline_after timeout env in (mkContext (Some d) None None None, env).

Definition from_timeout (timeout : option Z) (env : E) : PluginContext * E :=
  match timeout with None => (without_deadline, env) | Some timeout => with_timeout timeout env end.

(** Reads the clock whether or not there is a timeout. *)
Definition from_timeout_and_cancellation (timeout : option Z) (env : E) : PluginContext * E :=
  let '(now, env) := instant_now env in
  (mkContext ((λ t, default now (instant_checked_add now t)) <$> timeout) None None None, env).

Definition with_shm_snapshot (c : PluginContext) (s : option OwnedShmSnapshot) : PluginContext :=
  mkContext (deadline c) s (artifact_transaction c) (context_report c).

(** The context takes the transaction's own report context. *)
Definition with_artifact_transaction (report_context_of : Txn → Ctx) (c : PluginContext) (t : Txn) : PluginContext :=
  mkContext (deadline c) (shm_snapshot c) (Some t) (Some (report_context_of t)).

Definition with_report_context (c : PluginContext) (r : Ctx) : PluginContext :=
  mkContext (deadline c) (shm_snapshot c) (artifact_transaction c) (Some r).

Definition bounded_by (c : PluginContext) (timeout : Z) (env : E) : PluginContext * E :=
  let '(local_deadline, env) := deadline_after timeout env in
  (mkContext
     (Some match deadline c with None => local_deadline | Some d => Z.min d local_deadline end)
     (shm_snapshot c) (artifact_transaction c) (context_report c), env).

(** The clock is read only when the flag is clear and there is a deadline. *)
Definition is_timed_out (c : PluginContext) (cells : Cells) (env : E) : bool * E :=
  if cancelled cells then (true, env) else
  match deadline c with
  | None => (false, env)
  | Some d => let '(now, env) := instant_now env in (d <=? now, env)
  end.

Definition remaining (c : PluginContext) (env : E) : option Z * E :=
  match deadline c with
  | None => (None, env)
  | Some d => let '(now, env) := instant_now env in (Some (saturating_duration_since d now), env)
  end.

Definition checkpoint (c : PluginContext) (cells : Cells) (env : E) : result string unit * E :=
  let '(expired, env) := is_timed_out c cells env in
  ((if expired then Err "plugin deadline reached" else Ok tt)%string, env).

(** ** The runner *)

(** What an invocation works on: the data it may mutate, the shared cells and
    the environment. *)
Definition Scope (S : Type) : Type := S * Cells * E.
Definition stage_fn (S T : Type) : Type := PluginContext → Scope S → Scope S * call (result string T).

Definition run_plugin_cooperative {S T : Type} (context : PluginContext) (f : stage_fn S T) (st : Scope S)
    : Scope S * PluginRunResult T :=
  let '(data, cells, env) := st in
  let '(expired, env) := is_timed_out context cells env in
  if expired then ((data, cells, env), RunTimedOut) else
  let '((data, cells, env), r) := f context (data, cells, env) in
  match subprocess_cleanup_failure cells with
  | Some error => ((data, cells, env), Failed error)
  | None =>
      let '(expired, env) := is_timed_out context cells env in
      if expired then ((data, cells, env), RunTimedOut) else
      ((data, cells, env),
       match r with
       | Value (Ok value) => Completed value
       | Value (Err error) => Failed error
       | Panicking message => Panicked message
       end)
  end.

Definition enforce_execution_boundary {T : Type} (name : string) (execution : PluginExecution)
    (cells : Cells) (r : PluginRunResult T) : PluginRunResult T :=
  if bool_decide (execution = Subprocess) && negb (subprocess_boundary_satisfied cells) &&
     match r with Completed _ | Failed _ => true | _ => false end
  then Failed ("plugin " +:+ name +:+ " declared Subprocess but did not use the subprocess supervisor")
  else r.

(** [run_transaction_stage]: a fresh context bound to the transaction. *)
Definition run_transaction_stage {S T : Type} (report_context_of : Txn → Ctx) (transaction : Txn)
    (name : string) (execution : PluginExecution) (timeout : option Z) (f : stage_fn S T)
    (data : S) (env : E) : S * E * PluginRunResult T :=
  let '(context, env) := from_timeout timeout env in
  let context := with_artifact_transaction report_context_of context transaction in
  let '((data, cells, env), r) := run_plugin_cooperative context f (data, fresh_cells false, env) in
  (data, env, enforce_execution_boundary name execution cells r).

(** [run_cancellable_stage]: the cancellation flag outlives the invocation. *)
Definition run_cancellable_stage {S T : Type} (name : string) (execution : PluginExecution)
    (timeout : option Z) (cancellation : bool) (snapshot : option OwnedShmSnapshot) (report : Ctx)
    (f : stage_fn S T) (data : S) (env : E) : S * bool * E * PluginRunResult T :=
  let '(context, env) := from_timeout_and_cancellation timeout env in
  let context := with_report_context (with_shm_snapshot context snapshot) report in
  let '((data, cells, env), r) := run_plugin_cooperative context f (data, fresh_cells cancellation, env) in
  (data, cancelled cells, env, enforce_execution_boundary name execution cells r).

(** ** What an outcome means *)

(** A plugin's outcome is [Completed] exactly when it ran inside its
    deadline, returned that value before the deadline was seen to have passed,
    left no cleanup failure and, if it is declared [Subprocess], crossed or
    waived the process boundary; a panic never becomes a value or an error. *)
Theorem completed_exact {S T : Type} (name : string) (execution : PluginExecution) (context : PluginContext)
    (f : stage_fn S T) (data : S) (cells : Cells) (env : E) (v : T) :
  let '((_, cells1, _), r) := run_plugin_cooperative context f (data, cells, env) in
  enforce_execution_boundary name execution cells1 r = Completed v ↔
  ∃ env1 data2 cells2 env2 env3,
    is_timed_out context cells env = (false, env1) ∧
    f context (data, cells, env1) = ((data2, cells2, env2), Value (Ok v)) ∧
    subprocess_cleanup_failure cells2 = None ∧
    is_timed_out context cells2 env2 = (false, env3) ∧
    (execution = Subprocess → subprocess_boundary cells2 ≠ SUBPROCESS_UNUSED).
Proof.
  unfold run_plugin_cooperative, enforce_execution_boundary.
  destruct (is_timed_out context cells env) as [[] env1] eqn:H1; simpl.
  { split; [destruct (_ && _); done|]. intros (? & ? & ? & ? & ? & ? & _). congruence. }
  destruct (f context (data, cells, env1)) as [[[data2 cells2] env2] r] eqn:H2.
  destruct (subprocess_cleanup_failure cells2) as [error|] eqn:H3.
  { split; [destruct (_ && _); done|]. intros (? & ? & ? & ? & ? & Ha & Hb & Hc & _). simplify_eq. congruence. }
  destruct (is_timed_out context cells2 env2) as [[] env3] eqn:H4.
  { split; [destruct (_ && _); done|]. intros (? & ? & ? & ? & ? & Ha & Hb & Hc & Hd & _). simplify_eq; congruence. }
  destruct r as [[value|error]|message].
  - rewrite andb_true_r. unfold subprocess_boundary_satisfied. rewrite negb_involutive.
    destruct (bool_decide (execution = Subprocess) && (subprocess_boundary cells2 =? SUBPROCESS_UNUSED)) eqn:Hb.
    + split; [done|]. intros (x1 & x2 & x3 & x4 & x5 & Ha & Hb' & Hc & Hd & He).
      assert (env1 = x1) as <- by congruence. assert (cells2 = x3) as <- by congruence.
      apply andb_true_iff in Hb as [Hs Hu]. apply bool_decide_eq_true in Hs. apply Z.eqb_eq in Hu.
      by destruct (He Hs Hu).
    + split.
      * intros [= ->]. do 5 eexists. split_and!; try done. intros -> Hu.
        rewrite Hu, bool_decide_true in Hb by done. done.
      * intros (? & ? & ? & ? & ? & Ha & Hb' & Hc & Hd & He). simplify_eq; congruence.
  - split; [destruct (_ && _); done|]. intros (? & ? & ? & ? & ? & Ha & Hb & _). simplify_eq; congruence.
  - rewrite andb_false_r. split; [done|]. intros (? & ? & ? & ? & ? & Ha & Hb & _). simplify_eq; congruence.
Qed.

(** A successful status is a completed invocation. *)
Lemma plugin_status_success {T : Type} (r : PluginRunResult T) :
  is_success (plugin_status r) = true ↔ is_Some (into_option r).
Proof. destruct r; simpl; split; try done; intros [? ?]; done. Qed.

End Run.
End PluginRun.
