(* ===== verification/Pipeline.v ===== *)
(** * Pipeline assembly (src/pipeline/mod.rs)

    The plugin traits as records of operations, the pipeline with its switches
    and stages, and the registration step that orders and validates them. *)

From S2P Require Import Prelude.
From S2P Require Import ShmLayout.
From S2P Require Import ShmSnapshot.
From S2P Require Import PluginGraph.
From S2P Require Import Config.
From S2P Require Import PipelineTypes.
From S2P Require Import PluginOrder.
From S2P Require Import PluginRun.

Module Pipeline.
Export PluginRun.

(** ** Triggers *)

Record TriggerPolicy := mkTriggerPolicy {
  trigger_crash : bool;
  trigger_exit_failure : bool;
  trigger_signal_failure : bool;
  trigger_probable_oom : bool;
  trigger_anr : bool;
  trigger_snapshot : bool
}.

Definition ALL_ENABLED : TriggerPolicy := mkTriggerPolicy true true true true true true.

Definition allows (t : TriggerPolicy) (r : ReportType) : bool :=
  match r with
  | Crash => trigger_crash t
  | Snapshot => trigger_snapshot t
  | Anr => trigger_anr t
  | Oom => trigger_probable_oom t
  | ExitFailure => trigger_exit_failure t
  | SignalFailure => trigger_signal_failure t
  end.

Definition trigger_policy_from (c : ValidatedTriggersConfig) : TriggerPolicy :=
  mkTriggerPolicy (v_crash c) (v_exit_failure c) (v_signal_failure c) (v_probable_oom c)
    (v_anr c) (v_snapshot c).

(** ** Report contexts (src/pipeline/artifact.rs) *)

Definition NANOS_PER_SEC : Z := 1000000000.

Record ReportPolicy := mkReportPolicy {
  policy_privacy : CollectionPolicy;
  byte_budget : Z;
  capture_deadline : Z;
  finalize_deadline : Z
}.

Definition CAPTURE_DEADLINE : Z := 5 * NANOS_PER_SEC.
Definition CRASH_FINALIZE_WAIT : Z := 310 * NANOS_PER_SEC.

Definition report_policy_default : ReportPolicy :=
  mkReportPolicy POLICY_MINIMAL (1024 * 1024 * 1024) CAPTURE_DEADLINE CRASH_FINALIZE_WAIT.

Definition MANIFEST_SCHEMA_VERSION : Z := 1.
Definition STAGING_PREFIX : string := ".report-".
Definition STAGING_SUFFIX : string := ".pending".

Record ReportContext := mkReportContext {
  context_report_id : string;
  output_root : PathBuf;
  staging_dir : PathBuf;
  context_report_type : ReportType;
  context_pid : Z;
  context_process_name : string;
  manifest_schema_version : Z;
  context_policy : ReportPolicy
}.

Definition context_with_policy (event : CrashEvent) (root : PathBuf) (policy : ReportPolicy) : ReportContext :=
  mkReportContext (report_id event) root
    (root ++ [(STAGING_PREFIX +:+ report_id event +:+ STAGING_SUFFIX)%string])
    (report_type event) (event_pid event) (process_name event) MANIFEST_SCHEMA_VERSION policy.

Definition context_new (event : CrashEvent) (root : PathBuf) : ReportContext :=
  context_with_policy event root report_policy_default.

(** ** The plugin traits and the pipeline *)

Section Traits.
Context (E Txn : Type).
Notation stage_fn := (@stage_fn E Txn ReportContext).

Record Filter := mkFilter {
  filter_plugin : Plugin E;
  should_process : CrashEvent → stage_fn unit bool
}.

Record Collector := mkCollector {
  collector_plugin : Plugin E;
  access : CollectorAccess;
  collect : CrashEvent → mach_port_t → stage_fn CollectedData unit
}.

Record PreProcessor := mkPreProcessor {
  pre_plugin : Plugin E;
  pre_process : CrashEvent → stage_fn CollectedData unit
}.

Record PostProcessor := mkPostProcessor {
  post_plugin : Plugin E;
  phase : PostProcessorPhase;
  post_process : CrashEvent → stage_fn ReportResult unit
}.

Record Notifier := mkNotifier {
  notifier_plugin : Plugin E;
  notify : PathBuf → stage_fn unit unit
}.

(** A mapping is used through its snapshot operation only. *)
Definition SharedMemory : Type := option Z → ShmSnapshotPolicy → E → result string OwnedShmSnapshot * E.

Record Pipeline := mkPipeline {
  enabled : bool;
  triggers : TriggerPolicy;
  collection_policy : CollectionPolicy;
  filters : list Filter;
  collectors : list Collector;
  pre_processors : list PreProcessor;
  post_processors : list PostProcessor;
  notifiers : list Notifier;
  shm : option SharedMemory;
  output_dir : option PathBuf
}.

End Traits.
Arguments mkFilter {E Txn}.
Arguments filter_plugin {E Txn}.
Arguments should_process {E Txn}.
Arguments mkCollector {E Txn}.
Arguments collector_plugin {E Txn}.
Arguments access {E Txn}.
Arguments collect {E Txn}.
Arguments mkPreProcessor {E Txn}.
Arguments pre_plugin {E Txn}.
Arguments pre_process {E Txn}.
Arguments mkPostProcessor {E Txn}.
Arguments post_plugin {E Txn}.
Arguments phase {E Txn}.
Arguments post_process {E Txn}.
Arguments mkNotifier {E Txn}.
Arguments notifier_plugin {E Txn}.
Arguments notify {E Txn}.
Arguments mkPipeline {E Txn}.
Arguments enabled {E Txn}.
Arguments triggers {E Txn}.
Arguments collection_policy {E Txn}.
Arguments filters {E Txn}.
Arguments collectors {E Txn}.
Arguments pre_processors {E Txn}.
Arguments post_processors {E Txn}.
Arguments notifiers {E Txn}.
Arguments shm {E Txn}.
Arguments output_dir {E Txn}.

Section Registration.
Context {E Txn : Type}.
Notation Pipeline := (Pipeline E Txn).

Definition report_enabled (p : Pipeline) (t : ReportType) : bool := enabled p && allows (triggers p) t.

(** ** Registration *)

Definition runtime_categories (p : Pipeline) : list (PluginCategory * list PluginGraphNode) :=
  [ (PluginGraph.Filter, plugin_graph_nodes filter_plugin (filters p));
    (PluginGraph.Collector, plugin_graph_nodes collector_plugin (collectors p));
    (PluginGraph.PreProcessor, plugin_graph_nodes pre_plugin (pre_processors p));
    (PluginGraph.PostProcessor, plugin_graph_nodes post_plugin (post_processors p));
    (PluginGraph.Notifier, plugin_graph_nodes notifier_plugin (notifiers p)) ].

(** [collect::<BTreeMap<_, _>>()]: the last entry of an id wins. *)
Definition phases (l : list (PostProcessor E Txn)) : gmap string PostProcessorPhase :=
  list_to_map (reverse (map (λ p, (id (post_plugin p), phase p)) l)).

Definition check_phase (ps : gmap string PostProcessorPhase) (p : PostProcessor E Txn)
    (d : PluginDependency) : result ConfigValidationError unit :=
  match ps !! plugin d with
  | Some dependency_phase =>
      if decide (post_processor_phase_rank (phase p) < post_processor_phase_rank dependency_phase)
      then Err (InvalidDependencyOrder PluginGraph.PostProcessor (id (post_plugin p)) (plugin d) (kind d))
      else Ok tt
  | None => Ok tt
  end.

Definition validate_dependencies (p : Pipeline) : result ConfigValidationError unit :=
  _ ← validate_runtime_plugin_registry (runtime_categories p);
  check_all (λ q, check_all (check_phase (phases (post_processors p)) q) (dependencies (post_plugin q)))
    (post_processors p).

Definition order_stages (p : Pipeline) : Pipeline :=
  mkPipeline (enabled p) (triggers p) (collection_policy p)
    (stable_plugin_order filter_plugin (λ _, 0) (filters p))
    (stable_plugin_order collector_plugin (λ _, 0) (collectors p))
    (stable_plugin_order pre_plugin (λ _, 0) (pre_processors p))
    (stable_plugin_order post_plugin (λ q, post_processor_phase_rank (phase q)) (post_processors p))
    (stable_plugin_order notifier_plugin (λ _, 0) (notifiers p))
    (shm p) (output_dir p).

Definition finish_registration (p : Pipeline) : result ConfigValidationError Pipeline :=
  let p := order_stages p in
  _ ← validate_dependencies p;
  Ok p.

(** ** Staging paths *)

Fixpoint strip_prefix (path prefix : PathBuf) : option PathBuf :=
  match prefix, path with
  | [], _ => Some path
  | _ :: _, [] => None
  | a :: prefix, b :: path => if decide (a = b) then strip_prefix path prefix else None
  end.

Definition remap_committed_path (path staging committed : PathBuf) : option PathBuf :=
  relative ← strip_prefix path staging;
  if decide (length relative = 1%nat) then Some (committed ++ relative) else None.

End Registration.

(** ** Facts *)

Lemma strip_prefix_Some path prefix relative :
  strip_prefix path prefix = Some relative ↔ path = prefix ++ relative.
Proof.
  revert path. induction prefix as [|a prefix IH]; intros path.
  { destruct path; simpl; naive_solver. }
  destruct path as [|b path]; simpl; [naive_solver|]. case_decide; [|naive_solver]. rewrite IH. naive_solver.
Qed.

Lemma remap_committed_path_Some path staging committed p :
  remap_committed_path path staging committed = Some p ↔
  ∃ file, path = staging ++ [file] ∧ p = committed ++ [file].
Proof.
  unfold remap_committed_path. destruct (strip_prefix path staging) as [relative|] eqn:H; simpl.
  - apply strip_prefix_Some in H as ->. case_decide as Hl.
    + destruct relative as [|file [|]]; simpl in Hl; [lia| |lia]. split.
      * intros [= <-]. eauto.
      * intros (f & Hf & ->). apply app_inv_head in Hf as [= ->]. done.
    + split; [done|]. intros (f & Hf & _). apply app_inv_head in Hf as ->. done.
  - split; [done|]. intros (f & -> & _).
    rewrite (proj2 (strip_prefix_Some (staging ++ [f]) staging [f]) eq_refl) in H. done.
Qed.

Section RegistrationSpec.
Context {E Txn : Type}.
Notation Pipeline := (Pipeline E Txn).

(** Some arrangement of a stage has every present dependency (and every hard
    one) before its dependent. *)
Definition arrangeable {T : Type} (meta : T → Plugin E) (l : list T) : Prop :=
  ∃ arranged, arranged ≡ₚ l ∧ graph_ok (plugin_graph_nodes meta arranged) false.

(** The registries that can be registered, whatever their insertion order. *)
Record registrable (p : Pipeline) : Prop := {
  ids_distinct : NoDup ((λ x, PluginGraph.id x.2) <$> registry_nodes (runtime_categories p));
  categories_ok : categories_separate (runtime_categories p);
  filters_ok : arrangeable filter_plugin (filters p);
  collectors_ok : arrangeable collector_plugin (collectors p);
  pre_ok : arrangeable pre_plugin (pre_processors p);
  post_ok : arrangeable post_plugin (post_processors p);
  notifiers_ok : arrangeable notifier_plugin (notifiers p);
  phases_ok : ∀ q q' d, q ∈ post_processors p → q' ∈ post_processors p →
    d ∈ dependencies (post_plugin q) → plugin d = id (post_plugin q') →
    post_processor_phase_rank (phase q') ≤ post_processor_phase_rank (phase q)
}.

Lemma arrangeable_order {T : Type} (meta : T → Plugin E) (rank : T → Z) (l : list T) :
  arrangeable meta l ↔ graph_ok (plugin_graph_nodes meta (stable_plugin_order meta rank l)) false.
Proof.
  split.
  - intros (arranged & Hp & Hok). by eapply stable_plugin_order_repairs.
  - intros Hok. exists (stable_plugin_order meta rank l). split; [apply stable_plugin_order_perm|done].
Qed.

Lemma nodes_perm {T : Type} (meta : T → Plugin E) (rank : T → Z) (l : list T) :
  plugin_graph_nodes meta (stable_plugin_order meta rank l) ≡ₚ plugin_graph_nodes meta l.
Proof. apply Permutation_map, stable_plugin_order_perm. Qed.

Lemma categories_order (p : Pipeline) :
  Forall2 (λ a b, a.1 = b.1 ∧ a.2 ≡ₚ b.2) (runtime_categories (order_stages p)) (runtime_categories p).
Proof. repeat constructor; simpl; apply nodes_perm. Qed.

Lemma registry_nodes_perm l l' :
  Forall2 (λ a b : PluginCategory * list PluginGraphNode, a.1 = b.1 ∧ a.2 ≡ₚ b.2) l l' →
  registry_nodes l ≡ₚ registry_nodes l'.
Proof.
  induction 1 as [|[c ns] [c' ns'] l l' [Hc Hns] Hl IH]; simpl in *; [done|]. subst c'.
  apply Permutation_app; [by apply fmap_Permutation|done].
Qed.

Lemma categories_separate_perm l l' :
  Forall2 (λ a b : PluginCategory * list PluginGraphNode, a.1 = b.1 ∧ a.2 ≡ₚ b.2) l l' →
  categories_separate l → categories_separate l'.
Proof.
  intros Hl Hsep c ns c' ns' n n' Hc Hc' Hn Hn' Hd.
  apply list_elem_of_lookup in Hc as [i Hi], Hc' as [j Hj].
  destruct (Forall2_lookup_r _ _ _ _ _ Hl Hi) as ([c1 ns1] & Hi' & Hc1 & Hns1).
  destruct (Forall2_lookup_r _ _ _ _ _ Hl Hj) as ([c2 ns2] & Hj' & Hc2 & Hns2). simpl in *. subst.
  eapply (Hsep c ns1 c' ns2 n n'); eauto using list_elem_of_lookup_2; by rewrite ?Hns1, ?Hns2.
Qed.

Lemma phases_lookup (l : list (PostProcessor E Txn)) i ph :
  NoDup ((λ q, id (post_plugin q)) <$> l) →
  phases l !! i = Some ph ↔ ∃ q, q ∈ l ∧ id (post_plugin q) = i ∧ phase q = ph.
Proof.
  intros Hnd. unfold phases. rewrite <- elem_of_list_to_map.
  - rewrite elem_of_reverse. change (map ?f ?x) with (f <$> x). rewrite list_elem_of_fmap.
    split; [intros (q & [= -> ->] & Hq); eauto|intros (q & Hq & <- & <-); eauto].
  - rewrite fmap_reverse, reverse_Permutation. change (map ?f ?x) with (f <$> x).
    by rewrite <- list_fmap_compose.
Qed.

Lemma check_phases_iff (l : list (PostProcessor E Txn)) :
  NoDup ((λ q, id (post_plugin q)) <$> l) →
  check_all (λ q, check_all (check_phase (phases l) q) (dependencies (post_plugin q))) l = Ok tt ↔
  ∀ q q' d, q ∈ l → q' ∈ l → d ∈ dependencies (post_plugin q) → plugin d = id (post_plugin q') →
    post_processor_phase_rank (phase q') ≤ post_processor_phase_rank (phase q).
Proof.
  intros Hnd. rewrite check_all_Ok. setoid_rewrite check_all_Ok. unfold check_phase. split.
  - intros H q q' d Hq Hq' Hd Hid. specialize (H q Hq d Hd).
    rewrite (proj2 (phases_lookup l (plugin d) (phase q') Hnd)) in H by eauto. case_decide; [done|lia].
  - intros H q Hq d Hd. destruct (phases l !! plugin d) as [ph|] eqn:Hl; [|done].
    apply phases_lookup in Hl as (q' & Hq' & Hid & <-); [|done]. rewrite decide_False; [done|].
    specialize (H q q' d Hq Hq' Hd (eq_sym Hid)). lia.
Qed.

Lemma post_ids_nodup (p : Pipeline) :
  NoDup ((λ x, PluginGraph.id x.2) <$> registry_nodes (runtime_categories p)) →
  NoDup ((λ q, id (post_plugin q)) <$> post_processors p).
Proof.
  unfold registry_nodes, runtime_categories. cbn [flat_map]. rewrite !fmap_app. intros Hnd.
  do 3 apply NoDup_app in Hnd as (_ & _ & Hnd). apply NoDup_app in Hnd as (Hnd & _ & _).
  revert Hnd. rewrite <- list_fmap_compose. unfold plugin_graph_nodes. change (map ?f ?x) with (f <$> x).
  by rewrite <- list_fmap_compose.
Qed.

(** C25. Registration does not depend on the order in which plugins were added:
    it succeeds exactly for the registries whose ids are globally distinct, whose
    dependencies stay inside their category, whose stages can be arranged with
    dependencies first, and whose post-processors never depend on a later
    phase; and then it returns that very arrangement of every stage. *)
Theorem finish_registration_exact (p p' : Pipeline) :
  finish_registration p = Ok p' ↔ registrable p ∧ p' = order_stages p.
Proof.
  assert (validate_dependencies (order_stages p) = Ok tt ↔ registrable p) as H.
  { unfold validate_dependencies, mbind, result_bind.
    pose proof (validate_registry_iff (runtime_categories (order_stages p)) false) as Hreg.
    unfold validate_runtime_plugin_registry. pose proof (categories_order p) as Hcat.
    assert (Forall2 (λ a b, a.1 = b.1 ∧ a.2 ≡ₚ b.2) (runtime_categories p) (runtime_categories (order_stages p)))
      as Hcat'. { eapply Forall2_flip, Forall2_impl; [exact Hcat|]. intros a b [? ?]. by split. }
    pose proof (registry_nodes_perm _ _ Hcat) as Hnodes.
    assert (NoDup ((λ x, PluginGraph.id x.2) <$> registry_nodes (runtime_categories (order_stages p))) ↔
            NoDup ((λ x, PluginGraph.id x.2) <$> registry_nodes (runtime_categories p))) as Hids
      by (by rewrite Hnodes).
    assert ((∀ c ns, (c, ns) ∈ runtime_categories (order_stages p) → graph_ok ns false) ↔
      arrangeable filter_plugin (filters p) ∧ arrangeable collector_plugin (collectors p) ∧
      arrangeable pre_plugin (pre_processors p) ∧ arrangeable post_plugin (post_processors p) ∧
      arrangeable notifier_plugin (notifiers p)) as Harr.
    { rewrite (arrangeable_order filter_plugin (λ _, 0)), (arrangeable_order collector_plugin (λ _, 0)),
        (arrangeable_order pre_plugin (λ _, 0)), (arrangeable_order notifier_plugin (λ _, 0)),
        (arrangeable_order post_plugin (λ q, post_processor_phase_rank (phase q))).
      unfold runtime_categories, order_stages. cbn. split.
      - intros Ha. split_and!; eapply Ha; rewrite !elem_of_cons; intuition reflexivity.
      - intros (H1 & H2 & H3 & H4 & H5) c ns Hin. rewrite !elem_of_cons in Hin.
        repeat destruct Hin as [[= -> ->]|Hin]; try done. set_solver. }
    assert (∀ q, q ∈ post_processors (order_stages p) ↔ q ∈ post_processors p) as Hpost
      by (intros q; unfold order_stages; cbn; by rewrite stable_plugin_order_perm).
    destruct (validate_plugin_registry_with_policy _ false) as [[]|e].
    - destruct Hreg as [Hreg _]. destruct (Hreg eq_refl) as (Hnd & Hsep & Hgraph).
      rewrite check_phases_iff by by apply post_ids_nodup. setoid_rewrite Hpost.
      apply Harr in Hgraph as (? & ? & ? & ? & ?). split.
      + intros Hph. split; try done; [by apply Hids|by eapply categories_separate_perm].
      + intros []. done.
    - split; [done|]. intros []. destruct Hreg as [_ Hreg]. apply Hreg.
      split; [by apply Hids|]. split; [by eapply categories_separate_perm|]. by apply Harr. }
  unfold finish_registration, mbind, result_bind. cbv zeta.
  destruct (validate_dependencies (order_stages p)) as [[]|e].
  - split; [intros [= <-]; split; [by apply H|done]|by intros [_ ->]].
  - split; [done|]. intros [Hr _]. apply H in Hr. done.
Qed.

End RegistrationSpec.

End Pipeline.
