(* ===== verification/Finalize.v ===== *)
(** * Report finalization (src/pipeline/mod.rs)

    [finalize_captured] and [finalize_termination_event]: the stages that turn
    owned capture data into a published report after the target was resumed.
    The artifact transaction (src/pipeline/artifact.rs) is used through the
    interface [ArtifactOps]; plugins are arbitrary, and may fail, panic, expire
    or change the environment.

    The model threads a [World]: the environment and the trace of the stages
    executed so far, in order. *)

From S2P Require Import Prelude.
From S2P Require Import Traced.
From S2P Require Import ShmSnapshot.
From S2P Require Import ShmReader.
From S2P Require Import Config.
From S2P Require Import PipelineTypes.
From S2P Require Import PluginOrder.
From S2P Require Import PluginRun.
From S2P Require Import Pipeline.

Module Finalize.
Export Pipeline.
Export Traced.

Record CommittedReport := mkCommitted {
  committed_report_id : string;
  report_dir : PathBuf;
  manifest_path : PathBuf;
  durability_warnings : list string
}.

(** What finalization uses of the artifact transaction. [write_full_report] is
    the formatting, building and writing of the report; [persist_final] is
    [None] when there are no diagnostics to persist; [pending_dir] also creates
    the directory that [pending_dir_path] names (src/utils/paths.rs). *)
Class ArtifactOps (E Txn : Type) := {
  pending_dir : E → result string PathBuf * E;
  pending_dir_path : E → result string PathBuf * E;
  begin_shared : ReportContext → E → result string Txn * E;
  report_context_arc : Txn → ReportContext;
  write_raw_stage1 : Txn → list RawThreadData → E → E * call (result string PathBuf);
  write_raw_shm_stage1 : Txn → RawShmSnapshot → E → E * call (result string unit);
  write_full_report : Txn → CrashEvent → CollectedData → Diagnostics → list RawScreenshot → E →
    E * call (result string PathBuf);
  transaction_artifact_paths : Txn → E → list PathBuf;
  commit : Txn → E → result string CommittedReport * E;
  persist_final : CommittedReport → Diagnostics → E → option (result string unit) * E;
  release_publication_lease : Txn → E → E;
  drop_transaction : Txn → E → E
}.

Definition FILTER_TIMEOUT : Z := 1 * NANOS_PER_SEC.
Definition COLLECTOR_TIMEOUT : Z := 5 * NANOS_PER_SEC.
Definition PREPROC_TIMEOUT : Z := 2 * NANOS_PER_SEC.
Definition POSTPROC_TIMEOUT : Z := 30 * NANOS_PER_SEC.
Definition NOTIFIER_TIMEOUT : Z := 5 * NANOS_PER_SEC.
Definition STAGE_TIMEOUT : option Z := Some (5 * NANOS_PER_SEC).

(** ** The world *)

Inductive Step : Type :=
| Collected (plugin : string)
| ReleasedThreadPorts (ports : list mach_port_t)
| Begun (transaction : bool)
| WroteRaw
| WroteShm
| Filtered (plugin : string) (pass : bool)
| PreProcessed (plugin : string)
| CheckedDuplicate (duplicate : bool)
| CopiedAttachments (plugin : string)
| WroteReport
| PostProcessed (ph : PostProcessorPhase) (plugin : string)
| Committed (r : result string CommittedReport)
| Notified (plugin : string) (path : PathBuf)
| PersistedDiagnostics
| ReleasedLease
| Dropped.

Notation World E := (Traced.World E Step).
Notation pipe E := (traced E Step).

Section Finalization.
Context {E Txn : Type} {clock : Clock E} {ops : ArtifactOps E Txn}.
Notation pipe := (traced E Step).
Notation Pipeline := (Pipeline E Txn).

Definition now : pipe Z := lift instant_now.

(** ** Diagnostics *)

(** [diagnostics.record(name, status, start.elapsed())]. *)
Definition record_elapsed (d : Diagnostics) (n : string) (st : PluginStatus) (start : Z) : pipe Diagnostics :=
  t ← now;
  finished ← now;
  mret (record d n st (saturating_duration_since t start) finished).

Definition record_now (d : Diagnostics) (n : string) (st : PluginStatus) : pipe Diagnostics :=
  t ← now;
  mret (record_immediate d n st t).

Definition deps_satisfied (deps : list string) (d : Diagnostics) : bool := forallb (succeeded d) deps.

(** Why a plugin does not run now: the two [continue]s that open every loop. *)
Definition skip_reason (p : Plugin E) (unmet : string) (d : Diagnostics) : pipe (option string) :=
  available ← look (is_available p);
  mret (if negb available then Some "not available"%string
        else if negb (deps_satisfied (hard_dependencies p) d) then Some unmet else None).

Definition HARD_UNMET : string := "hard dependency not met".

(** One invocation bound to the transaction. *)
Definition run_plugin {S T : Type} (txn : Txn) (p : Plugin E) (category_timeout : Z)
    (f : stage_fn S T) (data : S) : pipe (S * PluginRunResult T) :=
  lift (λ e, let '(data, e, r) := run_transaction_stage report_context_arc txn (name p) (execution p)
                                    (resolve (timeout p) category_timeout) f data e in
             ((data, r), e)).

(** A fixed stage of the pipeline itself, without diagnostics. *)
Definition run_fixed_stage {T : Type} (txn : Txn) (n : string) (f : E → E * call (result string T))
    : pipe (option T) :=
  lift (λ e, let '(_, e, r) := run_transaction_stage report_context_arc txn n Cooperative STAGE_TIMEOUT
                                 (λ _ st, let '(u, c, e) := (st : Scope unit) in let '(e, r) := f e in ((u, c, e), r)) tt e in
             (into_option r, e)).

(** ** Filters *)

(** [true] when no filter rejected the event; a filter that fails, panics or
    expires lets it pass. *)
Fixpoint run_filters (event : CrashEvent) (txn : Txn) (fs : list (Filter E Txn)) (d : Diagnostics)
    : pipe (Diagnostics * bool) :=
  match fs with
  | [] => mret (d, true)
  | f :: fs =>
      let p := filter_plugin f in
      skip ← skip_reason p HARD_UNMET d;
      match skip with
      | Some why =>
          d ← record_now d (name p) (Skipped why);
          run_filters event txn fs d
      | None =>
          start ← now;
          '(_, outcome) ← run_plugin txn p FILTER_TIMEOUT (should_process f event) tt;
          let pass := default true (into_option outcome) in
          _ ← emit (Filtered (name p) pass);
          d ← record_elapsed d (name p) (filter_status (name p) outcome) start;
          if pass then run_filters event txn fs d else mret (d, false)
      end
  end.

(** ** Pre-processors *)

Definition ATTACHMENT_COPIER : string := "AttachmentCopier".

Fixpoint run_pre_processors (event : CrashEvent) (txn : Txn) (ps : list (PreProcessor E Txn))
    (data : CollectedData) (d : Diagnostics) : pipe (CollectedData * Diagnostics) :=
  match ps with
  | [] => mret (data, d)
  | q :: ps =>
      let p := pre_plugin q in
      if decide (name p = ATTACHMENT_COPIER) then run_pre_processors event txn ps data d else
      skip ← skip_reason p "dependency not met" d;
      match skip with
      | Some why =>
          d ← record_now d (name p) (Skipped why);
          run_pre_processors event txn ps data d
      | None =>
          start ← now;
          '(data, outcome) ← run_plugin txn p PREPROC_TIMEOUT (pre_process q event) data;
          _ ← emit (PreProcessed (name p));
          d ← record_elapsed d (name p) (plugin_status outcome) start;
          run_pre_processors event txn ps data d
      end
  end.

(** The attachment copiers, after the duplicate check. *)
Fixpoint run_attachment_copiers (event : CrashEvent) (txn : Txn) (ps : list (PreProcessor E Txn))
    (data : CollectedData) (d : Diagnostics) : pipe (CollectedData * Diagnostics) :=
  match ps with
  | [] => mret (data, d)
  | q :: ps =>
      let p := pre_plugin q in
      if decide (name p = ATTACHMENT_COPIER) then
        start ← now;
        '(data, outcome) ← run_plugin txn p PREPROC_TIMEOUT (pre_process q event) data;
        _ ← emit (CopiedAttachments (name p));
        d ← record_elapsed d (name p) (plugin_status outcome) start;
        run_attachment_copiers event txn ps data d
      else run_attachment_copiers event txn ps data d
  end.

(** ** Post-processors and notifiers *)

Fixpoint run_post_processors (ph : PostProcessorPhase) (event : CrashEvent) (txn : Txn)
    (ps : list (PostProcessor E Txn)) (result : ReportResult) (d : Diagnostics)
    : pipe (ReportResult * Diagnostics) :=
  match ps with
  | [] => mret (result, d)
  | q :: ps =>
      let p := post_plugin q in
      if decide (phase q ≠ ph) then run_post_processors ph event txn ps result d else
      skip ← skip_reason p HARD_UNMET d;
      match skip with
      | Some why =>
          d ← record_now d (name p) (Skipped why);
          run_post_processors ph event txn ps result d
      | None =>
          start ← now;
          '(result, outcome) ← run_plugin txn p POSTPROC_TIMEOUT (post_process q event) result;
          _ ← emit (PostProcessed ph (name p));
          d ← record_elapsed d (name p) (plugin_status outcome) start;
          run_post_processors ph event txn ps result d
      end
  end.

Fixpoint run_notifiers (txn : Txn) (path : PathBuf) (ns : list (Notifier E Txn)) (d : Diagnostics)
    : pipe Diagnostics :=
  match ns with
  | [] => mret d
  | n :: ns =>
      let p := notifier_plugin n in
      skip ← skip_reason p HARD_UNMET d;
      match skip with
      | Some why =>
          d ← record_now d (name p) (Skipped why);
          run_notifiers txn path ns d
      | None =>
          start ← now;
          '(_, outcome) ← run_plugin txn p NOTIFIER_TIMEOUT (notify n path) tt;
          _ ← emit (Notified (name p) path);
          d ← record_elapsed d (name p) (plugin_status outcome) start;
          run_notifiers txn path ns d
      end
  end.

(** One [Skipped] record per plugin name. *)
Fixpoint skip_all (names : list string) (why : string) (d : Diagnostics) : pipe Diagnostics :=
  match names with
  | [] => mret d
  | n :: names => d ← record_now d n (Skipped why); skip_all names why d
  end.

Fixpoint record_warnings (warnings : list string) (d : Diagnostics) : pipe Diagnostics :=
  match warnings with
  | [] => mret d
  | w :: warnings => d ← record_now d "ArtifactDurability" (Error w); record_warnings warnings d
  end.

Definition persist_final_diagnostics (committed : CommittedReport) (d : Diagnostics) : pipe Diagnostics :=
  r ← lift (persist_final committed d);
  match r with
  | None => mret d
  | Some (Ok _) => _ ← emit PersistedDiagnostics; mret d
  | Some (Err error) => record_now d "FinalDiagnostics" (Error error)
  end.

(** ** After a successful commit *)

Definition txn_staging_dir (txn : Txn) : PathBuf := staging_dir (report_context_arc txn).

Definition remap_result (txn : Txn) (committed : CommittedReport) (r : ReportResult) : ReportResult :=
  let remap path := remap_committed_path path (txn_staging_dir txn) (report_dir committed) in
  mkReportResult (omap remap (artifact_paths r)) (raw_path r ≫= remap) (json_path r ≫= remap) (result_session r).

Definition run_late_phases (p : Pipeline) (event : CrashEvent) (txn : Txn) (committed : CommittedReport)
    (result : ReportResult) (d : Diagnostics) : pipe Diagnostics :=
  '(result, d) ← run_post_processors AfterNotify event txn (post_processors p) result d;
  '(result, d) ← run_post_processors FinalCleanup event txn (post_processors p) result d;
  d ← persist_final_diagnostics committed d;
  _ ← effect (release_publication_lease txn);
  _ ← emit ReleasedLease;
  mret (set_report_path d (json_path result)).

(** [skip_notifiers]: without a report artifact the capture path records every
    notifier as skipped and the termination path records nothing. *)
Definition publish (skip_notifiers : bool) (p : Pipeline) (event : CrashEvent) (txn : Txn)
    (committed : CommittedReport) (result : ReportResult) (d : Diagnostics) : pipe Diagnostics :=
  d ← record_warnings (durability_warnings committed) d;
  '(result, d) ← run_post_processors AfterCommit event txn (post_processors p)
                   (remap_result txn committed result) d;
  d ← match json_path result with
      | Some path => run_notifiers txn path (notifiers p) d
      | None => if skip_notifiers
                then skip_all (map (λ n, name (notifier_plugin n)) (notifiers p)) "no final report artifact" d
                else mret d
      end;
  run_late_phases p event txn committed result d.

(** Post-processors before the commit, the commit, and publication. *)
Definition seal (skip_notifiers : bool) (p : Pipeline) (event : CrashEvent) (txn : Txn)
    (result : ReportResult) (d : Diagnostics) : pipe Diagnostics :=
  '(result, d) ← run_post_processors BeforeCommit event txn (post_processors p) result d;
  r ← lift (commit txn);
  _ ← emit (Committed r);
  match r with
  | Err error => record_now d "ArtifactCommit" (Error error)
  | Ok committed => publish skip_notifiers p event txn committed result d
  end.

(** ** Captured events *)

Definition take_screenshots (data : CollectedData) : CollectedData * list RawScreenshot :=
  let r := raw data in
  (mkCollected
     (mkRawData (threads r) (images r) (memory_map r) (heap r) (breadcrumbs r) (crash_context r)
        (settings_snapshot r) (attachments r) (attachment_registrations r) [] (symbols r)
        (environment r) (process_output r))
     (session data) (fingerprint data) (build_info data) (duplicate_detected data),
   screenshots r).

(** From the raw stage to the end, inside an open transaction. *)
Definition finalize_in_transaction (p : Pipeline) (event : CrashEvent) (raw_shm : option RawShmSnapshot)
    (txn : Txn) (data : CollectedData) (d : Diagnostics) : pipe Diagnostics :=
  raw_path ← run_fixed_stage txn "Stage1Raw" (write_raw_stage1 txn (threads (raw data)));
  _ ← emit WroteRaw;
  _ ← match raw_shm with
      | None => mret tt
      | Some s => _ ← run_fixed_stage txn "Stage1Shm" (write_raw_shm_stage1 txn s); emit WroteShm
      end;
  '(d, pass) ← run_filters event txn (filters p) d;
  if negb pass then mret d else
  '(data, d) ← run_pre_processors event txn (pre_processors p) data d;
  _ ← emit (CheckedDuplicate (duplicate_detected data));
  if duplicate_detected data then mret d else
  '(data, d) ← run_attachment_copiers event txn (pre_processors p) data d;
  let '(data, shots) := take_screenshots data in
  json_path ← run_fixed_stage txn "Stage2Json" (write_full_report txn event data d shots);
  _ ← emit WroteReport;
  paths ← look (transaction_artifact_paths txn);
  seal true p event txn (mkReportResult paths raw_path json_path (session data)) d.

(** Open the transaction, work in it, and drop it on every way out. *)
Definition in_transaction (show_error : string → string) (context : ReportContext) (d : Diagnostics)
    (body : Txn → pipe Diagnostics) : pipe Diagnostics :=
  r ← lift (begin_shared context);
  match r with
  | Err error => _ ← emit (Begun false); record_now d "ArtifactBegin" (Error (show_error error))
  | Ok txn =>
      _ ← emit (Begun true);
      d ← body txn;
      _ ← effect (drop_transaction txn);
      _ ← emit Dropped;
      mret d
  end.

(** [None] when there is no directory to report to. *)
Definition resolve_context (p : Pipeline) (event : CrashEvent) (context : option ReportContext)
    : pipe (option ReportContext) :=
  match context with
  | Some c => mret (Some c)
  | None =>
      match output_dir p with
      | Some dir => mret (Some (context_new event dir))
      | None =>
          r ← lift pending_dir;
          mret (match r with Ok dir => Some (context_new event dir) | Err _ => None end)
      end
  end.

(** ** Collectors *)

(** The shared cancellation flag as loaded now: set earlier by an invocation, or
    by another thread ([requested]). *)
Definition load_cancelled (requested : E → bool) (flag : bool) : pipe bool := look (λ e, flag || requested e).

Definition access_excluded (wanted : option CollectorAccess) (c : Collector E Txn) : bool :=
  match wanted with Some a => bool_decide (access c ≠ a) | None => false end.

Fixpoint run_collectors (event : CrashEvent) (task : mach_port_t) (snapshot : option OwnedShmSnapshot)
    (context : ReportContext) (wanted : option CollectorAccess) (requested : E → bool)
    (cs : list (Collector E Txn)) (flag : bool) (data : CollectedData) (d : Diagnostics) : pipe (bool * CollectedData * Diagnostics) :=
  match cs with
  | [] => mret (flag, data, d)
  | c :: cs =>
      let p := collector_plugin c in
      if access_excluded wanted c then run_collectors event task snapshot context wanted requested cs flag data d else
      flag ← load_cancelled requested flag;
      if (flag : bool) then
        d ← record_now d "CaptureDeadline" TimedOut;
        mret (flag, data, d)
      else
      skip ← skip_reason p "dependency not met" d;
      match skip with
      | Some why =>
          d ← record_now d (name p) (Skipped why);
          run_collectors event task snapshot context wanted requested cs flag data d
      | None =>
          start ← now;
          '(data, flag, outcome) ← lift (λ e,
            let '(data, flag, e, r) := run_cancellable_stage (name p) (execution p)
                  (resolve (timeout p) COLLECTOR_TIMEOUT) flag snapshot context (collect c event task) data e in
            ((data, flag, r), e));
          _ ← emit (Collected (name p));
          d ← record_elapsed d (name p) (plugin_status outcome) start;
          run_collectors event task snapshot context wanted requested cs flag data d
      end
  end.

Definition collect_snapshot_by_access (p : Pipeline) (event : CrashEvent) (task : mach_port_t)
    (requested : E → bool) (flag : bool) (snapshot : option OwnedShmSnapshot) (context : ReportContext)
    (wanted : option CollectorAccess) : pipe CapturePayload :=
  if negb (report_enabled p (report_type event)) then
    t ← now; mret (mkPayload collected_default None (diagnostics_new t))
  else
  t ← now;
  '(flag, data, d) ← run_collectors event task snapshot context wanted requested (collectors p) flag collected_default
                       (diagnostics_new t);
  flag ← load_cancelled requested flag;
  let raw_shm :=
    if flag || negb (persist_raw_shm (collection_policy p)) then None
    else (λ s, mkRawShm (raw_breadcrumb_bytes_owned s) (raw_context_bytes_owned s)) <$> snapshot in
  _ ← emit (ReleasedThreadPorts (map thread_port (threads (raw data))));
  mret (mkPayload data raw_shm d).

Definition collect_owned_snapshot_for_worker (p : Pipeline) (event : CrashEvent) (flag : bool)
    (snapshot : option OwnedShmSnapshot) (context : ReportContext) : pipe CapturePayload :=
  collect_snapshot_by_access p event MACH_PORT_NULL (λ _, false) flag snapshot context (Some OwnedSnapshot).

Definition or_take {A : Type} (target owned : option A) : option A :=
  match target with None => owned | Some x => Some x end.

Definition merge_owned_collected_data (target owned : CollectedData) : CollectedData :=
  let t := raw target in
  let o := raw owned in
  mkCollected
    (mkRawData (threads t) (images t) (memory_map t) (heap t)
       (breadcrumbs t ++ breadcrumbs o)
       (or_take (crash_context t) (crash_context o))
       (or_take (settings_snapshot t) (settings_snapshot o))
       (attachments t ++ attachments o)
       (attachment_registrations t ++ attachment_registrations o)
       (screenshots t ++ screenshots o)
       (symbols t)
       (or_take (environment t) (environment o))
       (or_take (process_output t) (process_output o)))
    (session target) (fingerprint target) (build_info target) (duplicate_detected target).

(** ** The two entry points *)

Definition finalize_captured (p : Pipeline) (captured : CapturedEvent ReportContext) : pipe Diagnostics :=
  let event := captured_event captured in
  if negb (report_enabled p (report_type event)) then t ← now; mret (diagnostics_new t) else
  context ← resolve_context p event (report_context captured);
  match context with
  | None => mret (captured_diagnostics captured)
  | Some context =>
      '(data, d) ←
        (if owned_collectors_deferred captured then
           owned ← collect_owned_snapshot_for_worker p event false (owned_shm_snapshot captured) context;
           mret (merge_owned_collected_data (captured_data captured) (payload_data owned),
                 append_plugins (captured_diagnostics captured) (plugins (payload_diagnostics owned)))
         else mret (captured_data captured, captured_diagnostics captured));
      in_transaction (λ error, error) context d (λ txn,
        finalize_in_transaction p event (captured_raw_shm captured) txn data d)
  end.

(** [Display] of an [ArtifactError] (src/errors.rs). *)
Definition artifact_error_to_string (message : string) : string := ("artifact: " +:+ message)%string.

Definition TERMINATED_WHY : string := "child already terminated".

Definition finalize_termination_in_transaction (p : Pipeline) (event : CrashEvent) (txn : Txn)
    (d : Diagnostics) : pipe Diagnostics :=
  '(d, pass) ← run_filters event txn (filters p) d;
  if negb pass then mret d else
  d ← skip_all (map (λ c, name (collector_plugin c)) (collectors p)) TERMINATED_WHY d;
  d ← skip_all (map (λ q, name (pre_plugin q)) (pre_processors p)) TERMINATED_WHY d;
  json_path ← run_fixed_stage txn "Stage2Json" (write_full_report txn event collected_default d []);
  _ ← emit WroteReport;
  paths ← look (transaction_artifact_paths txn);
  seal false p event txn (mkReportResult paths None json_path None) d.

Definition finalize_termination_event (p : Pipeline) (event : CrashEvent) : pipe Diagnostics :=
  t ← now;
  if negb (report_enabled p (report_type event)) then mret (diagnostics_new t) else
  context ← resolve_context p event None;
  match context with
  | None => mret (diagnostics_new t)
  | Some context =>
      in_transaction artifact_error_to_string context (diagnostics_new t)
        (λ txn, finalize_termination_in_transaction p event txn (diagnostics_new t))
  end.

Definition handle_termination_event (p : Pipeline) (event : CrashEvent) : pipe Diagnostics :=
  if negb (report_enabled p (report_type event)) then t ← now; mret (diagnostics_new t) else
  finalize_termination_event p event.

End Finalization.
End Finalize.
