(* ===== verification/FinalizeSpec.v ===== *)
(** * Correctness of report finalization

    The publication protocol of [Finalize] as a grammar of stage traces
    ([finalization_trace], [termination_trace]) with the theorems that both
    entry points follow it for arbitrary plugins, and the record-keeping of
    every stage ([stage_run]). *)

From S2P Require Import Prelude.
From S2P Require Import Traced.
From S2P Require Import ShmSnapshot.
From S2P Require Import Config.
From S2P Require Import PipelineTypes.
From S2P Require Import PluginOrder.
From S2P Require Import PluginRun.
From S2P Require Import Pipeline.
From S2P Require Import Finalize.

Module FinalizeSpec.
Export Finalize.

(** ** The protocol *)

Definition is_collect (s : Step) : Prop := match s with Collected _ | ReleasedThreadPorts _ => True | _ => False end.
Definition is_raw (s : Step) : Prop := match s with WroteRaw | WroteShm => True | _ => False end.
Definition is_pass (s : Step) : Prop := match s with Filtered _ true => True | _ => False end.
Definition is_pre (s : Step) : Prop := match s with PreProcessed _ => True | _ => False end.
Definition is_copy (s : Step) : Prop := match s with CopiedAttachments _ => True | _ => False end.
Definition is_post (ph : PostProcessorPhase) (s : Step) : Prop :=
  match s with PostProcessed ph' _ => ph' = ph | _ => False end.
Definition is_notify (s : Step) : Prop := match s with Notified _ _ => True | _ => False end.
Definition is_persist (s : Step) : Prop := match s with PersistedDiagnostics => True | _ => False end.

(** Before-commit processors, one commit attempt, and only if it succeeded:
    after-commit processors, notifiers, after-notify processors, final cleanup,
    the final diagnostics and the end of the publication lease. *)
Inductive sealed_trace : list Step → option CommittedReport → Prop :=
| commit_failed before error :
    Forall (is_post BeforeCommit) before →
    sealed_trace (before ++ [Committed (Err error)]) None
| commit_succeeded before committed after notified late final persisted :
    Forall (is_post BeforeCommit) before → Forall (is_post AfterCommit) after → Forall is_notify notified →
    Forall (is_post AfterNotify) late → Forall (is_post FinalCleanup) final → Forall is_persist persisted →
    sealed_trace (before ++ [Committed (Ok committed)] ++ after ++ notified ++ late ++ final ++ persisted ++ [ReleasedLease])
      (Some committed).

(** The stages of a captured event inside its transaction. *)
Inductive captured_trace : list Step → option CommittedReport → Prop :=
| captured_rejected raw passed filter :
    Forall is_raw raw → Forall is_pass passed →
    captured_trace (raw ++ passed ++ [Filtered filter false]) None
| captured_duplicate raw passed pre :
    Forall is_raw raw → Forall is_pass passed → Forall is_pre pre →
    captured_trace (raw ++ passed ++ pre ++ [CheckedDuplicate true]) None
| captured_sealed raw passed pre copied rest c :
    Forall is_raw raw → Forall is_pass passed → Forall is_pre pre → Forall is_copy copied → sealed_trace rest c →
    captured_trace (raw ++ passed ++ pre ++ [CheckedDuplicate false] ++ copied ++ [WroteReport] ++ rest) c.

(** The stages of a termination event: no raw data, no collectors, no
    pre-processors. *)
Inductive terminated_trace : list Step → option CommittedReport → Prop :=
| terminated_rejected passed filter :
    Forall is_pass passed → terminated_trace (passed ++ [Filtered filter false]) None
| terminated_sealed passed rest c :
    Forall is_pass passed → sealed_trace rest c → terminated_trace (passed ++ [WroteReport] ++ rest) c.

(** A transaction that could be opened is always dropped, last. *)
Inductive transaction_trace (body : list Step → option CommittedReport → Prop)
    : list Step → option CommittedReport → Prop :=
| begin_failed : transaction_trace body [Begun false] None
| in_transaction_trace l c : body l c → transaction_trace body ([Begun true] ++ l ++ [Dropped]) c.

Inductive finalization_trace : list Step → option CommittedReport → Prop :=
| finalization_skipped : finalization_trace [] None
| finalization_run collected l c :
    Forall is_collect collected → transaction_trace captured_trace l c → finalization_trace (collected ++ l) c.

Inductive termination_trace : list Step → option CommittedReport → Prop :=
| termination_skipped : termination_trace [] None
| termination_run l c : transaction_trace terminated_trace l c → termination_trace l c.

(** ** The stages *)

Lemma silent_now {E : Type} {clock : Clock E} : silent (now : pipe E Z).
Proof. apply silent_lift. Qed.

#[export] Hint Resolve silent_now : cm.

Section Spec.
Context {E Txn : Type} {clock : Clock E} {ops : ArtifactOps E Txn}.
Notation Pipeline := (Pipeline E Txn).

(** [d'] is [d] with one more record. *)
Definition one_more (d : Diagnostics) (n : string) (st : PluginStatus) (d' : Diagnostics) : Prop :=
  ∃ r, plugins d' = plugins d ++ [r] ∧ diagnostic_name r = n ∧ status r = st.

(** Records keep the report path. *)
Lemma emits_record_now {B : Type} (Q : list Step → B → Prop) d n st (f : Diagnostics → pipe E B) :
  (∀ d', report_path d' = report_path d → one_more d n st d' → emits Q (f d')) → emits Q (record_now d n st ≫= f).
Proof.
  intros Hf. unfold record_now.
  apply (emits_bind (λ (l : list Step) (d' : Diagnostics), l = [] ∧ report_path d' = report_path d ∧ one_more d n st d')).
  - apply emits_silent; [auto with cm|]. intros t. apply emits_ret. split_and!; [done..|]. by eexists.
  - intros l d' (-> & Hd & Hm). by apply Hf.
Qed.

Lemma emits_record_elapsed {B : Type} (Q : list Step → B → Prop) d n st start (f : Diagnostics → pipe E B) :
  (∀ d', report_path d' = report_path d → one_more d n st d' → emits Q (f d')) →
  emits Q (record_elapsed d n st start ≫= f).
Proof.
  intros Hf. unfold record_elapsed.
  apply (emits_bind (λ (l : list Step) (d' : Diagnostics), l = [] ∧ report_path d' = report_path d ∧ one_more d n st d')).
  - do 2 (apply emits_silent; [auto with cm|]; intros ?). apply emits_ret. split_and!; [done..|]. by eexists.
  - intros l d' (-> & Hd & Hm). by apply Hf.
Qed.

Lemma record_now_emits (P : list Step → Diagnostics → Prop) d n st :
  (∀ d', report_path d' = report_path d → P [] d') → emits P (record_now d n st : pipe E Diagnostics).
Proof. intros H. unfold record_now. apply emits_silent; [auto with cm|]. intros t. by apply emits_ret, H. Qed.

(** Why a plugin is skipped, if it is. *)
Definition skip_justified (p : Plugin E) (unmet : string) (d : Diagnostics) (o : option string) : Prop :=
  match o with
  | Some why => why = "not available"%string ∨ (why = unmet ∧ deps_satisfied (hard_dependencies p) d = false)
  | None => deps_satisfied (hard_dependencies p) d = true
  end.

Lemma emits_skip_reason {B : Type} (Q : list Step → B → Prop) p why d (f : option string → pipe E B) :
  (∀ o, skip_justified p why d o → emits Q (f o)) → emits Q (skip_reason p why d ≫= f).
Proof.
  intros Hf. unfold skip_reason.
  apply (emits_bind (λ (l : list Step) (o : option string), l = [] ∧ skip_justified p why d o)).
  - apply emits_silent; [auto with cm|]. intros []; apply emits_ret; simpl; (split; [done|]); [|by left].
    destruct (deps_satisfied _ _) eqn:Hdeps; simpl; auto.
  - intros l o [-> Ho]. by apply Hf.
Qed.

Lemma silent_run_plugin {S T : Type} txn p t (f : stage_fn S T) data : silent (run_plugin txn p t f data).
Proof. apply silent_lift. Qed.

Lemma silent_run_fixed_stage {T : Type} txn n (f : E → E * call (result string T)) :
  silent (run_fixed_stage txn n f).
Proof. apply silent_lift. Qed.

#[local] Hint Resolve silent_run_plugin silent_run_fixed_stage : cm.

(** Symbolic execution of one loop round. *)
Ltac step :=
  first
  [ apply emits_skip_reason; intros [?|] ?
  | apply emits_record_now; intros ? ? ?
  | apply emits_record_elapsed; intros ? ? ?
  | apply emits_step
  | apply emits_silent; [solve [auto with cm]|]; intros ?
  | match goal with |- emits _ (match ?x with pair _ _ => _ end) => destruct x end ].

Lemma run_filters_emits event txn fs d :
  emits (λ (l : list Step) (r : Diagnostics * bool), report_path r.1 = report_path d ∧
    if r.2 then Forall is_pass l else ∃ l' n, l = l' ++ [Filtered n false] ∧ Forall is_pass l')
    (run_filters event txn fs d).
Proof.
  revert d. induction fs as [|f fs IH]; intros d; cbn [run_filters]; [by apply emits_ret; repeat constructor|]. step.
  - step. eapply emits_impl; [apply IH|]. intros l [d'' []]; simpl; intros [-> ?]; auto.
  - do 2 step. step. destruct (default true _).
    + do 2 step. eapply emits_impl; [apply IH|]. intros l [d'' []]; simpl; intros [-> Hl]; (split; [done|]).
      * by constructor.
      * destruct Hl as (l' & n & -> & Hl). exists (Filtered (name (filter_plugin f)) true :: l'), n.
        split; [done|]. by constructor.
    + do 2 step. apply emits_ret. simpl. split; [done|]. by exists [], (name (filter_plugin f)).
Qed.

Lemma run_pre_processors_emits event txn ps data d :
  emits (λ (l : list Step) (r : CollectedData * Diagnostics), report_path r.2 = report_path d ∧ Forall is_pre l) (run_pre_processors event txn ps data d).
Proof.
  revert data d. induction ps as [|q ps IH]; intros data d; cbn [run_pre_processors]; [by apply emits_ret; repeat constructor|].
  case_decide; [apply IH|]. step.
  - step. eapply emits_impl; [apply IH|]. simpl. intros ? ? [-> ?]. done.
  - do 5 step. eapply emits_impl; [apply IH|]. simpl. intros ? ? [-> ?]. split; [done|]. by constructor.
Qed.

Lemma run_attachment_copiers_emits event txn ps data d :
  emits (λ (l : list Step) (r : CollectedData * Diagnostics), report_path r.2 = report_path d ∧ Forall is_copy l) (run_attachment_copiers event txn ps data d).
Proof.
  revert data d. induction ps as [|q ps IH]; intros data d; cbn [run_attachment_copiers]; [by apply emits_ret; repeat constructor|].
  case_decide; [|apply IH]. do 5 step. eapply emits_impl; [apply IH|]. simpl.
  intros ? ? [-> ?]. split; [done|]. by constructor.
Qed.

Lemma run_post_processors_emits ph event txn ps result d :
  emits (λ (l : list Step) (r : ReportResult * Diagnostics), report_path r.2 = report_path d ∧ Forall (is_post ph) l)
    (run_post_processors ph event txn ps result d).
Proof.
  revert result d. induction ps as [|q ps IH]; intros result d; cbn [run_post_processors]; [by apply emits_ret; repeat constructor|].
  case_decide; [apply IH|]. step.
  - step. eapply emits_impl; [apply IH|]. simpl. intros ? ? [-> ?]. done.
  - do 5 step. eapply emits_impl; [apply IH|]. simpl. intros ? ? [-> ?]. split; [done|]. by constructor.
Qed.

Lemma run_notifiers_emits txn path ns d :
  emits (λ (l : list Step) (d' : Diagnostics), report_path d' = report_path d ∧ Forall is_notify l) (run_notifiers txn path ns d).
Proof.
  revert d. induction ns as [|n ns IH]; intros d; cbn [run_notifiers]; [by apply emits_ret; repeat constructor|]. step.
  - step. eapply emits_impl; [apply IH|]. simpl. intros ? ? [-> ?]. done.
  - do 5 step. eapply emits_impl; [apply IH|]. simpl. intros ? ? [-> ?]. split; [done|]. by constructor.
Qed.

Lemma skip_all_emits names why d :
  emits (λ (l : list Step) (d' : Diagnostics), report_path d' = report_path d ∧ l = []) (skip_all names why d : pipe E Diagnostics).
Proof.
  revert d. induction names as [|n names IH]; intros d; cbn [skip_all]; [by apply emits_ret; repeat constructor|]. step.
  eapply emits_impl; [apply IH|]. simpl. intros ? ? [-> ?]. done.
Qed.

Lemma record_warnings_emits warnings d :
  emits (λ (l : list Step) (d' : Diagnostics), report_path d' = report_path d ∧ l = []) (record_warnings warnings d : pipe E Diagnostics).
Proof.
  revert d. induction warnings as [|n warnings IH]; intros d; cbn [record_warnings]; [by apply emits_ret; repeat constructor|]. step.
  eapply emits_impl; [apply IH|]. simpl. intros ? ? [-> ?]. done.
Qed.

Lemma persist_final_diagnostics_emits committed d :
  emits (λ (l : list Step) (d' : Diagnostics), report_path d' = report_path d ∧ Forall is_persist l) (persist_final_diagnostics committed d).
Proof.
  unfold persist_final_diagnostics. step. destruct a as [[[]|error]|].
  - step. apply emits_ret. split; [done|]. by constructor.
  - by apply record_now_emits.
  - by apply emits_ret.
Qed.

Lemma run_collectors_emits event task snapshot context wanted requested (cs : list (Collector E Txn)) flag data d :
  emits (λ (l : list Step) (r : bool * CollectedData * Diagnostics), report_path r.2 = report_path d ∧ Forall is_collect l)
    (run_collectors event task snapshot context wanted requested cs flag data d).
Proof.
  revert flag data d. induction cs as [|c cs IH]; intros flag data d; cbn [run_collectors]; [by apply emits_ret; repeat constructor|].
  destruct (access_excluded wanted c); [apply IH|].
  apply emits_silent; [apply silent_look|]. intros [].
  { step. by apply emits_ret. }
  step.
  - step. eapply emits_impl; [apply IH|]. simpl. intros ? ? [-> ?]. done.
  - do 2 step. destruct a0 as [[data' flag'] outcome]. do 2 step.
    eapply emits_impl; [apply IH|]. simpl. intros ? ? [-> ?]. split; [done|]. by constructor.
Qed.

Lemma collect_snapshot_emits (p : Pipeline) event task requested flag snapshot context wanted :
  emits (λ l _, Forall is_collect l)
    (collect_snapshot_by_access p event task requested flag snapshot context wanted).
Proof.
  unfold collect_snapshot_by_access. destruct (negb _).
  { step. by apply emits_ret. }
  step. eapply emits_bind; [apply run_collectors_emits|]. intros l [[flag' data] d] [_ Hl].
  apply emits_silent; [apply silent_look|]. intros flag2. step. apply emits_ret.
  apply Forall_app. split; [done|]. by repeat constructor.
Qed.

(** ** The protocol holds *)

Definition post_commit (committed : CommittedReport) (l : list Step) : Prop :=
  ∃ after notified late final persisted,
    l = after ++ notified ++ late ++ final ++ persisted ++ [ReleasedLease] ∧
    Forall (is_post AfterCommit) after ∧ Forall is_notify notified ∧ Forall (is_post AfterNotify) late ∧
    Forall (is_post FinalCleanup) final ∧ Forall is_persist persisted.

Lemma run_late_phases_emits p event txn committed result d :
  emits (λ l _, ∃ late final persisted, l = late ++ final ++ persisted ++ [ReleasedLease] ∧
    Forall (is_post AfterNotify) late ∧ Forall (is_post FinalCleanup) final ∧ Forall is_persist persisted)
    (run_late_phases p event txn committed result d).
Proof.
  unfold run_late_phases. eapply emits_bind; [apply run_post_processors_emits|]. intros late [result1 d1] [_ Hlate].
  eapply emits_bind; [apply run_post_processors_emits|]. intros final [result2 d2] [_ Hfinal].
  eapply emits_bind; [apply persist_final_diagnostics_emits|]. intros persisted d3 [_ Hpersisted].
  do 2 step. apply emits_ret. eauto 10.
Qed.

Lemma publish_emits skip p event txn committed result d :
  emits (λ l _, post_commit committed l) (publish skip p event txn committed result d).
Proof.
  unfold publish. eapply emits_bind; [apply record_warnings_emits|]. intros ? d1 [_ ->].
  eapply emits_bind; [apply run_post_processors_emits|]. intros after [result1 d2] [_ Hafter].
  apply (emits_bind (λ (l : list Step) (d' : Diagnostics), Forall is_notify l)).
  - destruct (json_path result1) as [path|].
    + eapply emits_impl; [apply run_notifiers_emits|]. by intros ? ? [_ ?].
    + destruct skip; [|by apply emits_ret].
      eapply emits_impl; [apply skip_all_emits|]. by intros ? ? [_ ->].
  - intros notified d3 Hnotified. eapply emits_impl; [apply run_late_phases_emits|].
    intros ? _ (late & final & persisted & -> & ? & ? & ?). exists after, notified, late, final, persisted.
    split; [|done]. simpl. done.
Qed.

(** The outcome of a commit attempt, with the report path of the result. *)
Lemma seal_emits skip p event txn result d :
  emits (λ (l : list Step) (d' : Diagnostics), ∃ c, sealed_trace l c ∧ (c = None → report_path d' = report_path d))
    (seal skip p event txn result d).
Proof.
  unfold seal. eapply emits_bind; [apply run_post_processors_emits|]. intros before [result1 d1] [Hd Hbefore].
  simpl in Hd. step. step. destruct a as [committed|error].
  - eapply emits_impl; [apply publish_emits|]. intros ? d' (after & notified & late & final & persisted & -> & ? & ? & ? & ? & ?).
    exists (Some committed). split; [|done]. by apply (commit_succeeded before committed after notified late final persisted).
  - apply record_now_emits. intros d' Hd'. exists None. split; [by apply commit_failed|]. congruence.
Qed.

Lemma finalize_in_transaction_emits p event raw_shm txn data d :
  emits (λ (l : list Step) (d' : Diagnostics), ∃ c, captured_trace l c ∧ (c = None → report_path d' = report_path d))
    (finalize_in_transaction p event raw_shm txn data d).
Proof.
  unfold finalize_in_transaction. step. step.
  apply (emits_bind (λ l _, Forall is_raw l)).
  { destruct raw_shm; [|by apply emits_ret]. step. intros w. exists [WroteShm]. split; [done|]. by repeat constructor. }
  intros raw0 _ Hraw. set (raw := WroteRaw :: raw0). assert (Forall is_raw raw) as Hraw' by by constructor. clearbody raw.
  eapply emits_bind; [apply run_filters_emits|]. intros passed [d1 pass] [Hd1 Hpass]. simpl in Hd1, Hpass.
  destruct pass; simpl negb; cbv iota.
  2:{ destruct Hpass as (l & n & -> & Hl). apply emits_ret. exists None. rewrite app_nil_r.
      split; [by apply (captured_rejected (WroteRaw :: raw0)); [constructor|]|done]. }
  eapply emits_bind; [apply run_pre_processors_emits|]. intros pre [data1 d2] [Hd2 Hpre]. simpl in Hd2.
  step. destruct (duplicate_detected data1).
  { apply emits_ret. exists None. split; [|intros; congruence].
    apply (captured_duplicate (WroteRaw :: raw0)); [by constructor|done..]. }
  eapply emits_bind; [apply run_attachment_copiers_emits|]. intros copied [data2 d3] [Hd3 Hcopied]. simpl in Hd3.
  destruct (take_screenshots data2) as [data3 shots]. step. step. step.
  eapply emits_impl; [apply seal_emits|]. intros rest d' (c & Hrest & Hc). exists c. split.
  - by apply (captured_sealed (WroteRaw :: raw0) passed pre copied rest c); [constructor|..].
  - intros Hnone. rewrite Hc by done. congruence.
Qed.

Lemma in_transaction_emits show context d body (tr : list Step → option CommittedReport → Prop) :
  (∀ txn, emits (λ (l : list Step) (d' : Diagnostics), ∃ c, tr l c ∧ (c = None → report_path d' = report_path d)) (body txn)) →
  emits (λ (l : list Step) (d' : Diagnostics), ∃ c, transaction_trace tr l c ∧ (c = None → report_path d' = report_path d))
    (in_transaction show context d body).
Proof.
  intros Hbody. unfold in_transaction. step. destruct a as [txn|error].
  - step. eapply emits_bind; [apply Hbody|]. intros l d1 (c & Hl & Hd1). do 2 step. apply emits_ret.
    exists c. split; [|done]. by apply in_transaction_trace.
  - step. apply record_now_emits. intros d' Hd'. exists None. split; [constructor|done].
Qed.

Lemma resolve_context_silent p event context : silent (resolve_context p event context).
Proof.
  unfold resolve_context. destruct context; [apply silent_ret|]. destruct (output_dir p); [apply silent_ret|].
  apply emits_silent; [apply silent_lift|]. intros a. apply silent_ret.
Qed.

Lemma finalize_captured_emits p captured :
  emits (λ (l : list Step) (d' : Diagnostics), ∃ c, finalization_trace l c ∧
      (c = None → report_path d' = None ∨ report_path d' = report_path (captured_diagnostics captured)))
    (finalize_captured p captured).
Proof.
  unfold finalize_captured. destruct (negb _).
  { step. apply emits_ret. exists None. split; [constructor|]. by left. }
  apply emits_silent; [apply resolve_context_silent|]. intros [context|].
  2:{ apply emits_ret. exists None. split; [constructor|]. by right. }
  apply (emits_bind (λ (l : list Step) (r : CollectedData * Diagnostics), Forall is_collect l ∧
           report_path r.2 = report_path (captured_diagnostics captured))).
  - destruct (owned_collectors_deferred captured); [|by apply emits_ret].
    eapply emits_bind; [apply collect_snapshot_emits|]. intros l owned Hl. apply emits_ret.
    by rewrite app_nil_r.
  - intros collected [data d] [Hcollected Hd]. simpl in Hd. eapply emits_impl.
    + apply in_transaction_emits. intros txn. apply finalize_in_transaction_emits.
    + intros l d' (c & Hl & Hc). exists c. split; [by apply finalization_run|]. intros ->. right. rewrite Hc; done.
Qed.

Lemma finalize_termination_emits p event :
  emits (λ (l : list Step) (d' : Diagnostics), ∃ c, termination_trace l c ∧ (c = None → report_path d' = None))
    (finalize_termination_event p event).
Proof.
  unfold finalize_termination_event. step. destruct (negb _).
  { apply emits_ret. exists None. split; [constructor|done]. }
  apply emits_silent; [apply resolve_context_silent|]. intros [context|].
  2:{ apply emits_ret. exists None. split; [constructor|done]. }
  eapply emits_impl; [apply (in_transaction_emits _ _ _ _ terminated_trace)|].
  2:{ intros l d' (c & Hl & Hc). exists c. split; [by apply termination_run|]. intros Hn. by rewrite Hc. }
  intros txn. unfold finalize_termination_in_transaction.
  eapply emits_bind; [apply run_filters_emits|]. intros passed [d1 pass] [Hd1 Hpass]. simpl in Hd1, Hpass.
  destruct pass; simpl negb; cbv iota.
  2:{ destruct Hpass as (l & n & -> & Hl). apply emits_ret. exists None. rewrite app_nil_r.
      split; [by apply terminated_rejected|done]. }
  eapply emits_bind; [apply skip_all_emits|]. intros ? d2 [Hd2 ->].
  eapply emits_bind; [apply skip_all_emits|]. intros ? d3 [Hd3 ->]. step. step. step.
  eapply emits_impl; [apply seal_emits|]. intros rest d' (c & Hrest & Hc). exists c. split.
  - by apply (terminated_sealed passed rest c).
  - intros Hnone. rewrite Hc by done. simpl; congruence.
Qed.

(** ** Every stage accounts for its plugins *)

(** The dependencies [deps] have each a successful record in [ds]. *)
Definition all_succeeded (deps : list string) (ds : list PluginDiagnostic) : Prop :=
  ∀ h, h ∈ deps → ∃ q, q ∈ ds ∧ diagnostic_name q = h ∧ is_success (status q) = true.

(** Starting from the records [ds], the plugins are visited in order and leave
    one record each: a plugin is skipped only when it is not available or a hard
    dependency has not succeeded, and runs only when all of them have. *)
Inductive visited (unmet : string) : list PluginDiagnostic → list (Plugin E) → list PluginDiagnostic → Prop :=
| visited_nil ds : visited unmet ds [] ds
| visited_skip ds p ps r ds' :
    diagnostic_name r = name p →
    status r = Skipped "not available" ∨
      (status r = Skipped unmet ∧ ¬ all_succeeded (hard_dependencies p) ds) →
    visited unmet (ds ++ [r]) ps ds' → visited unmet ds (p :: ps) ds'
| visited_run ds p ps r ds' :
    diagnostic_name r = name p → (∀ why, status r ≠ Skipped why) →
    all_succeeded (hard_dependencies p) ds →
    visited unmet (ds ++ [r]) ps ds' → visited unmet ds (p :: ps) ds'.

Lemma deps_satisfied_true deps d : deps_satisfied deps d = true ↔ all_succeeded deps (plugins d).
Proof.
  unfold deps_satisfied, all_succeeded, succeeded. rewrite forallb_forall. setoid_rewrite existsb_exists.
  setoid_rewrite list_elem_of_In. setoid_rewrite andb_true_iff. setoid_rewrite bool_decide_eq_true. done.
Qed.

Lemma visit_skip unmet p ps d d1 why l :
  skip_justified p unmet d (Some why) → one_more d (name p) (Skipped why) d1 →
  visited unmet (plugins d1) ps l → visited unmet (plugins d) (p :: ps) l.
Proof.
  intros Hskip (r & Hd1 & Hn & Hst) Hl. rewrite Hd1 in Hl. eapply visited_skip; [done| |exact Hl].
  destruct Hskip as [->|[-> Hdeps]]; [by left|]. right. split; [done|].
  rewrite <- deps_satisfied_true, Hdeps. done.
Qed.

Lemma visit_run unmet p ps d d1 st l :
  skip_justified p unmet d None → one_more d (name p) st d1 → (∀ why, st ≠ Skipped why) →
  visited unmet (plugins d1) ps l → visited unmet (plugins d) (p :: ps) l.
Proof.
  intros Hskip (r & Hd1 & Hn & Hst) Hne Hl. rewrite Hd1 in Hl.
  eapply visited_run; [done| |by apply deps_satisfied_true|exact Hl]. by rewrite Hst.
Qed.

Lemma plugin_status_ran {T : Type} (r : PluginRunResult T) why : plugin_status r ≠ Skipped why.
Proof. by destruct r. Qed.
Lemma filter_status_ran n (r : PluginRunResult bool) why : filter_status n r ≠ Skipped why.
Proof. by destruct r as [[]| | |]. Qed.

Lemma run_filters_visited event txn fs d :
  emits (λ (_ : list Step) (r : Diagnostics * bool), ∃ finished rest, fs = finished ++ rest ∧
      visited HARD_UNMET (plugins d) (map filter_plugin finished) (plugins r.1) ∧
      if r.2 then rest = []
      else ∃ x why, last (plugins r.1) = Some x ∧ status x = Rejected why)
    (run_filters event txn fs d).
Proof.
  revert d. induction fs as [|f fs IH]; intros d; cbn [run_filters].
  { apply emits_ret. exists [], []. split_and!; [done|constructor|done]. }
  step.
  - step. eapply emits_impl; [apply IH|]. intros _ r (fin & rest & -> & Hv & Hr).
    exists (f :: fin), rest. split_and!; [done| |done]. by eapply visit_skip.
  - do 2 step. step. destruct (default true (into_option _)) eqn:Hpass.
    + do 2 step. eapply emits_impl; [apply IH|]. intros _ r' (fin & rest & -> & Hv & Hr).
      exists (f :: fin), rest. split_and!; [done| |done].
      eapply visit_run; [done..|apply filter_status_ran|done].
    + do 2 step. apply emits_ret. exists [f], fs. simpl. split_and!; [done| |].
      * eapply visit_run; [done..|apply filter_status_ran|constructor].
      * match goal with H : one_more _ _ _ _ |- _ => destruct H as (x & -> & _ & Hst) end.
        rewrite last_snoc. exists x.
        match type of Hpass with default _ (into_option ?o) = _ => destruct o as [[]| | |] end; simpl in *; eauto; done.
Qed.

Lemma run_pre_processors_visited event txn ps data d :
  emits (λ (_ : list Step) (r : CollectedData * Diagnostics),
      visited "dependency not met" (plugins d)
        (List.filter (λ p, bool_decide (name p ≠ ATTACHMENT_COPIER)) (map pre_plugin ps)) (plugins r.2))
    (run_pre_processors event txn ps data d).
Proof.
  revert data d. induction ps as [|q ps IH]; intros data d; cbn [run_pre_processors].
  { apply emits_ret. constructor. }
  cbn [map List.filter]. case_decide as Hn.
  { rewrite bool_decide_false by naive_solver. apply IH. }
  rewrite bool_decide_true by done. step.
  - step. eapply emits_impl; [apply IH|]. intros ? r Hv. by eapply visit_skip.
  - do 5 step. eapply emits_impl; [apply IH|]. intros ? r' Hv.
    eapply visit_run; [done..|apply plugin_status_ran|done].
Qed.

Lemma run_post_processors_visited ph event txn ps result d :
  emits (λ (_ : list Step) (r : ReportResult * Diagnostics),
      visited HARD_UNMET (plugins d)
        (map post_plugin (List.filter (λ q, bool_decide (phase q = ph)) ps)) (plugins r.2))
    (run_post_processors ph event txn ps result d).
Proof.
  revert result d. induction ps as [|q ps IH]; intros result d; cbn [run_post_processors].
  { apply emits_ret. constructor. }
  cbn [List.filter]. case_decide as Hn.
  { rewrite bool_decide_false by done. apply IH. }
  rewrite bool_decide_true by (by destruct (decide (phase q = ph))). cbn [map]. step.
  - step. eapply emits_impl; [apply IH|]. intros ? r Hv. by eapply visit_skip.
  - do 5 step. eapply emits_impl; [apply IH|]. intros ? r' Hv.
    eapply visit_run; [done..|apply plugin_status_ran|done].
Qed.

Lemma run_notifiers_visited txn path ns d :
  emits (λ (_ : list Step) (d' : Diagnostics),
      visited HARD_UNMET (plugins d) (map notifier_plugin ns) (plugins d')) (run_notifiers txn path ns d).
Proof.
  revert d. induction ns as [|n ns IH]; intros d; cbn [run_notifiers]; [apply emits_ret; constructor|]. step.
  - step. eapply emits_impl; [apply IH|]. intros ? r Hv. by eapply visit_skip.
  - do 5 step. eapply emits_impl; [apply IH|]. intros ? r' Hv.
    eapply visit_run; [done..|apply plugin_status_ran|done].
Qed.

Lemma run_collectors_visited event task snapshot context wanted requested (cs : list (Collector E Txn)) flag data d :
  emits (λ (_ : list Step) (r : bool * CollectedData * Diagnostics), ∃ finished rest ds,
      map collector_plugin (List.filter (λ c, negb (access_excluded wanted c)) cs) = finished ++ rest ∧
      visited "dependency not met" (plugins d) finished ds ∧
      ((rest = [] ∧ plugins r.2 = ds) ∨
       (rest ≠ [] ∧ r.1.1 = true ∧
        ∃ x, plugins r.2 = ds ++ [x] ∧ diagnostic_name x = "CaptureDeadline"%string ∧ status x = TimedOut)))
    (run_collectors event task snapshot context wanted requested cs flag data d).
Proof.
  revert flag data d. induction cs as [|c cs IH]; intros flag data d; cbn [run_collectors].
  { apply emits_ret. exists [], [], (plugins d). split_and!; [done|constructor|by left]. }
  cbn [List.filter]. destruct (access_excluded wanted c); [apply IH|]. cbn [negb map].
  apply emits_silent; [apply silent_look|]. intros [].
  { step. apply emits_ret. eexists [], _, (plugins d). split_and!; [done|constructor|]. right.
    split_and!; [done..|]. match goal with H : one_more _ _ _ _ |- _ => destruct H as (x & ? & ? & ?) end. eauto. }
  step.
  - step. eapply emits_impl; [apply IH|]. intros ? r (fin & rest & ds & Heq & Hv & Hr).
    exists (collector_plugin c :: fin), rest, ds. rewrite Heq. split_and!; [done| |done]. by eapply visit_skip.
  - do 2 step. destruct a0 as [[data' flag'] outcome]. do 2 step.
    eapply emits_impl; [apply IH|]. intros ? r (fin & rest & ds & Heq & Hv & Hr).
    exists (collector_plugin c :: fin), rest, ds. rewrite Heq. split_and!; [done| |done].
    eapply visit_run; [done..|apply plugin_status_ran|done].
Qed.

End Spec.

(** ** Consequences of the protocol *)

Definition rank (s : Step) : Z :=
  match s with
  | Collected _ | ReleasedThreadPorts _ => 0
  | Begun _ => 1
  | WroteRaw | WroteShm => 2
  | Filtered _ _ => 3
  | PreProcessed _ => 4
  | CheckedDuplicate _ => 5
  | CopiedAttachments _ => 6
  | WroteReport => 7
  | PostProcessed BeforeCommit _ => 8
  | Committed _ => 9
  | PostProcessed AfterCommit _ => 10
  | Notified _ _ => 11
  | PostProcessed AfterNotify _ => 12
  | PostProcessed FinalCleanup _ => 13
  | PersistedDiagnostics => 14
  | ReleasedLease => 15
  | Dropped => 16
  end.

(** Non-decreasing ranks, all within bounds. *)
Definition ranked (lo hi : Z) (l : list Step) : Prop :=
  StronglySorted (λ a b, rank a ≤ rank b) l ∧ Forall (λ s, lo ≤ rank s ≤ hi) l.

Lemma ranked_app lo hi lo' hi' l1 l2 :
  ranked lo hi l1 → ranked lo' hi' l2 → hi ≤ lo' → lo ≤ lo' → hi ≤ hi' → ranked lo hi' (l1 ++ l2).
Proof.
  intros [S1 F1] [S2 F2] H1 H2 H3. split.
  - induction S1 as [|x l1 S1 IH Hx]; simpl; [done|]. apply Forall_cons in F1 as [Hr F1].
    constructor; [by apply IH|]. apply Forall_app. split; [done|].
    eapply Forall_impl; [exact F2|]. simpl. lia.
  - apply Forall_app. split; eapply Forall_impl; [exact F1| |exact F2|]; simpl; lia.
Qed.

Lemma ranked_segment (P : Step → Prop) k l : (∀ s, P s → rank s = k) → Forall P l → ranked k k l.
Proof.
  intros HP Hl. split.
  - induction Hl as [|x l Hx Hl IH]; constructor; [done|]. eapply Forall_impl; [exact Hl|].
    simpl. intros y Hy. apply HP in Hx, Hy. lia.
  - eapply Forall_impl; [exact Hl|]. simpl. intros y Hy. apply HP in Hy. lia.
Qed.

Lemma ranked_one s : ranked (rank s) (rank s) [s].
Proof. split; repeat constructor; lia. Qed.

Lemma ranked_weaken lo hi lo' hi' l : ranked lo hi l → lo' ≤ lo → hi ≤ hi' → ranked lo' hi' l.
Proof. intros [H1 H2] ? ?. split; [done|]. eapply Forall_impl; [exact H2|]. simpl. lia. Qed.

Definition rank_of_phase (ph : PostProcessorPhase) : Z := rank (PostProcessed ph "").

Lemma ranked_collect l : Forall is_collect l → ranked 0 0 l.
Proof. apply ranked_segment. by intros []. Qed.
Lemma ranked_raw l : Forall is_raw l → ranked 2 2 l.
Proof. apply ranked_segment. by intros []. Qed.
Lemma ranked_pass l : Forall is_pass l → ranked 3 3 l.
Proof. apply ranked_segment. by intros []. Qed.
Lemma ranked_pre l : Forall is_pre l → ranked 4 4 l.
Proof. apply ranked_segment. by intros []. Qed.
Lemma ranked_copy l : Forall is_copy l → ranked 6 6 l.
Proof. apply ranked_segment. by intros []. Qed.
Lemma ranked_post ph l : Forall (is_post ph) l → ranked (rank_of_phase ph) (rank_of_phase ph) l.
Proof. apply ranked_segment. intros []; simpl; try done. by intros ->. Qed.
Lemma ranked_notify l : Forall is_notify l → ranked 11 11 l.
Proof. apply ranked_segment. by intros []. Qed.
Lemma ranked_persist l : Forall is_persist l → ranked 14 14 l.
Proof. apply ranked_segment. by intros []. Qed.

#[local] Hint Resolve ranked_collect ranked_raw ranked_pass ranked_pre ranked_copy ranked_post ranked_notify
  ranked_persist ranked_one : ranked.

(** Cut a trace into segments of known rank. *)
Ltac rank_segment := solve [eauto with ranked].
Ltac ranks :=
  lazymatch goal with
  | |- ranked _ _ (_ ++ _) => eapply ranked_app; [rank_segment|ranks|cbn; lia..]
  | _ => rank_segment
  end.

Lemma sealed_ranked l c : sealed_trace l c → ranked 8 15 l.
Proof.
  intros []; (eapply ranked_weaken; [ranks|cbn; lia..]).
Qed.

Lemma captured_ranked l c : captured_trace l c → ranked 2 15 l.
Proof.
  intros [raw passed f|raw passed pre|raw passed pre copied rest c' ? ? ? ? Hrest%sealed_ranked];
    (eapply ranked_weaken; [ranks|cbn; lia..]).
Qed.

Lemma terminated_ranked l c : terminated_trace l c → ranked 2 15 l.
Proof.
  intros [passed f|passed rest c' ? Hrest%sealed_ranked]; (eapply ranked_weaken; [ranks|cbn; lia..]).
Qed.

Lemma ranked_elem lo hi l s : ranked lo hi l → s ∈ l → lo ≤ rank s ≤ hi.
Proof. intros [_ H] Hs. rewrite Forall_forall in H. by apply H. Qed.

(** What the protocol guarantees about the steps [l] of one finalization that
    published [c]. *)
Record publication_safe (l : list Step) (c : option CommittedReport) : Prop := {
  stages_in_order : StronglySorted (λ a b, rank a ≤ rank b) l;
  commit_exactly_when :
    (∃ r, Committed r ∈ l) ↔
    Begun true ∈ l ∧ (∀ filter, Filtered filter false ∉ l) ∧ CheckedDuplicate true ∉ l;
  published : ∀ r, Committed (Ok r) ∈ l ↔ c = Some r;
  nothing_after_failure : c = None → ∀ s, s ∈ l → rank (Committed (Err "")) < rank s → s = Dropped;
  lease_released : ReleasedLease ∈ l ↔ c ≠ None;
  always_dropped : Begun true ∈ l ↔ Dropped ∈ l
}.

(** The same inside the transaction. *)
Record body_safe (l : list Step) (c : option CommittedReport) : Prop := {
  body_ranked : ranked 2 15 l;
  body_commit : (∃ r, Committed r ∈ l) ↔ (∀ filter, Filtered filter false ∉ l) ∧ CheckedDuplicate true ∉ l;
  body_published : ∀ r, Committed (Ok r) ∈ l ↔ c = Some r;
  body_failure : c = None → ∀ s, s ∈ l → rank s ≤ 9;
  body_lease : ReleasedLease ∈ l ↔ c ≠ None
}.

(** No step of a segment has a rank outside the segment's. *)
Ltac wrong_segment :=
  match goal with
  | H : ?s ∈ ?l, F : Forall _ ?l |- _ =>
      exfalso; eapply (ranked_elem _ _ l s) in H; [|by eauto with ranked]; cbn in H; lia
  | H : ?s ∈ ?l, F : ranked _ _ ?l |- _ =>
      exfalso; apply (ranked_elem _ _ l s F) in H; cbn in H; lia
  end.

(** Cases of a membership in a concatenation of segments. *)
Ltac in_cases Hin :=
  rewrite ?elem_of_app, ?list_elem_of_singleton in Hin;
  repeat match type of Hin with _ ∨ _ => destruct Hin as [Hin|Hin] end;
  try wrong_segment; try discriminate Hin.

Ltac in_goal := rewrite ?elem_of_app, ?list_elem_of_singleton; tauto.

(** No step of a trace of higher segments precedes the commit's rank. *)
Lemma ranked_bound k lo hi l : ranked lo hi l → hi ≤ k → ∀ s, s ∈ l → rank s ≤ k.
Proof. intros Hl ? s Hs. pose proof (ranked_elem _ _ _ _ Hl Hs). lia. Qed.

Lemma sealed_safe l c : sealed_trace l c →
  (∃ r, Committed r ∈ l) ∧ (∀ r, Committed (Ok r) ∈ l ↔ c = Some r) ∧
  (c = None → ∀ s, s ∈ l → rank s ≤ 9) ∧ (ReleasedLease ∈ l ↔ c ≠ None).
Proof.
  intros [before error Hb|before committed after notified late final persisted Hb Ha Hn Hl Hf Hp].
  - split_and!.
    + exists (Err error). in_goal.
    + intros r. split; [intros Hin; by in_cases Hin|done].
    + intros _. eapply ranked_bound; [ranks|done].
    + split; [intros Hin; by in_cases Hin|done].
  - split_and!.
    + exists (Ok committed). in_goal.
    + intros r. split; [intros Hin; in_cases Hin; by injection Hin as ->|]. intros [= ->]. in_goal.
    + done.
    + split; [done|]. intros _. in_goal.
Qed.

Lemma captured_safe l c : captured_trace l c → body_safe l c.
Proof.
  intros H. pose proof (captured_ranked l c H) as Hranked. destruct H as
    [raw passed f Hr Hp|raw passed pre Hr Hp Hpre|raw passed pre copied rest c Hr Hp Hpre Hc Hrest].
  - split; [done|..].
    + split; [intros [r Hin]; by in_cases Hin|]. intros [Hno _]. destruct (Hno f). in_goal.
    + intros r. split; [intros Hin; by in_cases Hin|done].
    + intros _. eapply ranked_bound; [ranks|done].
    + split; [intros Hin; by in_cases Hin|done].
  - split; [done|..].
    + split; [intros [r Hin]; by in_cases Hin|]. intros [_ Hno]. destruct Hno. in_goal.
    + intros r. split; [intros Hin; by in_cases Hin|done].
    + intros _. eapply ranked_bound; [ranks|done].
    + split; [intros Hin; by in_cases Hin|done].
  - pose proof (sealed_ranked _ _ Hrest) as Hrr. destruct (sealed_safe _ _ Hrest) as ([r Hcom] & Hpub & Hfail & Hlease).
    split; [done|..].
    + split; [intros _|intros _; exists r; in_goal]. split.
      * intros f Hin. in_cases Hin. rewrite Forall_forall in Hp. by apply (Hp _ Hin).
      * intros Hin. by in_cases Hin.
    + intros r'. rewrite <- Hpub. split; [intros Hin; by in_cases Hin|intros; in_goal].
    + intros -> s Hin. in_cases Hin; [..|by apply Hfail]; subst; cbn; try lia.
      all: eapply (ranked_bound 9); [| |exact Hin]; [eauto with ranked|lia].
    + rewrite <- Hlease. split; [intros Hin; by in_cases Hin|intros; in_goal].
Qed.

Lemma terminated_safe l c : terminated_trace l c → body_safe l c.
Proof.
  intros H. pose proof (terminated_ranked l c H) as Hranked. destruct H as [passed f Hp|passed rest c Hp Hrest].
  - split; [done|..].
    + split; [intros [r Hin]; by in_cases Hin|]. intros [Hno _]. destruct (Hno f). in_goal.
    + intros r. split; [intros Hin; by in_cases Hin|done].
    + intros _. eapply ranked_bound; [ranks|done].
    + split; [intros Hin; by in_cases Hin|done].
  - pose proof (sealed_ranked _ _ Hrest) as Hrr. destruct (sealed_safe _ _ Hrest) as ([r Hcom] & Hpub & Hfail & Hlease).
    split; [done|..].
    + split; [intros _|intros _; exists r; in_goal]. split.
      * intros f Hin. in_cases Hin. rewrite Forall_forall in Hp. by apply (Hp _ Hin).
      * intros Hin. by in_cases Hin.
    + intros r'. rewrite <- Hpub. split; [intros Hin; by in_cases Hin|intros; in_goal].
    + intros -> s Hin. in_cases Hin; [..|by apply Hfail]; subst; cbn; try lia.
      eapply (ranked_bound 9); [| |exact Hin]; [eauto with ranked|lia].
    + rewrite <- Hlease. split; [intros Hin; by in_cases Hin|intros; in_goal].
Qed.

(** The transaction around a safe body, with collectors before it. *)
Lemma transaction_safe body collected l c :
  (∀ l c, body l c → body_safe l c) → Forall is_collect collected → transaction_trace body l c →
  publication_safe (collected ++ l) c.
Proof.
  intros Hbody Hc [|l' c' Hl].
  - split.
    + assert (ranked 0 1 (collected ++ [Begun false])) as [H _]; [eapply ranked_weaken; [ranks|cbn; lia..]|done].
    + split; [intros [r Hin]; by in_cases Hin|]. intros [Hin _]. in_cases Hin.
    + intros r. split; [intros Hin; by in_cases Hin|done].
    + intros _ s Hin Hr. cbn in Hr. in_cases Hin. subst. cbn in Hr. lia.
    + split; [intros Hin; by in_cases Hin|done].
    + split; intros Hin; by in_cases Hin.
  - destruct (Hbody _ _ Hl) as [Hr Hcom Hpub Hfail Hlease]. split.
    + assert (ranked 0 16 (collected ++ [Begun true] ++ l' ++ [Dropped])) as [H _]; [eapply ranked_weaken; [ranks|cbn; lia..]|done].
    + split.
      * intros [r Hin]. in_cases Hin. destruct Hcom as [Hcom _]. destruct Hcom as [Hno Hdup]; [eauto|].
        split; [in_goal|]. split; [intros f Hf; in_cases Hf; by apply (Hno f)|intros Hd; in_cases Hd; by apply Hdup].
      * intros (_ & Hno & Hdup). destruct Hcom as [_ Hcom]. destruct Hcom as [r Hin]; [|exists r; in_goal].
        split; [intros f Hf; apply (Hno f); in_goal|intros Hd; apply Hdup; in_goal].
    + intros r. rewrite <- Hpub. split; [intros Hin; by in_cases Hin|intros; in_goal].
    + intros Hn s Hin Hrank. cbn in Hrank. in_cases Hin; [|by specialize (Hfail Hn s Hin); lia|done].
      subst. cbn in Hrank. lia.
    + rewrite <- Hlease. split; [intros Hin; by in_cases Hin|intros; in_goal].
    + split; intros _; in_goal.
Qed.

Lemma empty_safe : publication_safe [] None.
Proof. split; try set_solver; constructor. Qed.

Lemma finalization_safe l c : finalization_trace l c → publication_safe l c.
Proof.
  intros [|collected l' c' Hc Hl]; [apply empty_safe|]. by eapply transaction_safe; [apply captured_safe|..].
Qed.

Lemma termination_safe l c : termination_trace l c → publication_safe l c.
Proof.
  intros [|l' c' Hl]; [apply empty_safe|].
  by apply (transaction_safe terminated_trace []); [apply terminated_safe|constructor|].
Qed.

(** ** Properties *)

Section Properties.
Context {E Txn : Type} {clock : Clock E} {ops : ArtifactOps E Txn}.

(** C14. Finalization of a captured event follows the publication protocol for
    every pipeline, plugin behaviour and environment: stages run in order; the
    commit is attempted exactly when the transaction opened, no filter rejected
    the event and it is not a duplicate; after-commit work, notification and the
    publication lease exist only for a committed report; an opened transaction
    is always dropped; and only a committed report changes the report path. *)
Theorem finalize_captured_safe (p : Pipeline E Txn) (captured : CapturedEvent ReportContext) (w : World E) :
  let '(d, w') := finalize_captured p captured w in
  ∃ l c, trace w' = trace w ++ l ∧ finalization_trace l c ∧ publication_safe l c ∧
    (c = None → report_path d = None ∨ report_path d = report_path (captured_diagnostics captured)).
Proof.
  destruct (finalize_captured_emits p captured w) as (l & Hl & c & Hc & Hd).
  destruct (finalize_captured p captured w) as [d w']. exists l, c. auto using finalization_safe.
Qed.

(** A termination report follows the same protocol without touching the
    dead task: no collector, raw stage or pre-processor ever runs. *)
Theorem finalize_termination_safe (p : Pipeline E Txn) (event : CrashEvent) (w : World E) :
  let '(d, w') := finalize_termination_event p event w in
  ∃ l c, trace w' = trace w ++ l ∧ termination_trace l c ∧ publication_safe l c ∧
    (c = None → report_path d = None) ∧
    ∀ s, s ∈ l → ¬ (is_collect s ∨ is_raw s ∨ is_pre s ∨ is_copy s).
Proof.
  destruct (finalize_termination_emits p event w) as (l & Hl & c & Hc & Hd).
  destruct (finalize_termination_event p event w) as [d w']. exists l, c.
  split; [done|]. split; [done|]. split; [by apply termination_safe|]. split; [done|].
  intros s Hs. destruct Hc as [|l c [|l' c' Hbody]]; [set_solver|..].
  - apply list_elem_of_singleton in Hs as ->. simpl. tauto.
  - in_cases Hs; [by subst; simpl; tauto| |by subst; simpl; tauto].
    destruct Hbody as [passed f Hp|passed rest c'' Hp Hrest].
    + in_cases Hs; [|by subst; simpl; tauto]. rewrite Forall_forall in Hp. apply Hp in Hs. destruct s; simpl in *; tauto.
    + in_cases Hs; [|by subst; simpl; tauto|].
      * rewrite Forall_forall in Hp. apply Hp in Hs. destruct s; simpl in *; tauto.
      * apply (ranked_elem _ _ _ _ (sealed_ranked _ _ Hrest)) in Hs. destruct s; simpl in *; tauto || lia.
Qed.

(** Every stage visits its plugins in order and leaves exactly one
    diagnostic for each: a plugin runs only when all its hard dependencies have
    succeeded before it, and is skipped only when it is unavailable or one of
    them has not. The filters stop after the first rejection, the collectors at
    the capture deadline. *)
Theorem stages_account_for_plugins (event : CrashEvent) (txn : Txn) (d : Diagnostics) (w : World E) :
  (∀ fs, let '((d', pass), _) := run_filters event txn fs d w in
    ∃ finished rest, fs = finished ++ rest ∧
      visited HARD_UNMET (plugins d) (map filter_plugin finished) (plugins d') ∧
      if pass then rest = [] else ∃ x why, last (plugins d') = Some x ∧ status x = Rejected why) ∧
  (∀ ps data, let '((_, d'), _) := run_pre_processors event txn ps data d w in
    visited "dependency not met" (plugins d)
      (List.filter (λ p, bool_decide (name p ≠ ATTACHMENT_COPIER)) (map pre_plugin ps)) (plugins d')) ∧
  (∀ ph ps result, let '((_, d'), _) := run_post_processors ph event txn ps result d w in
    visited HARD_UNMET (plugins d)
      (map post_plugin (List.filter (λ q, bool_decide (phase q = ph)) ps)) (plugins d')) ∧
  (∀ path ns, let '(d', _) := run_notifiers txn path ns d w in
    visited HARD_UNMET (plugins d) (map notifier_plugin ns) (plugins d')) ∧
  (∀ task snapshot context wanted requested (cs : list (Collector E Txn)) flag data,
    let '((flag', _, d'), _) := run_collectors event task snapshot context wanted requested cs flag data d w in
    ∃ finished rest ds,
      map collector_plugin (List.filter (λ c, negb (access_excluded wanted c)) cs) = finished ++ rest ∧
      visited "dependency not met" (plugins d) finished ds ∧
      ((rest = [] ∧ plugins d' = ds) ∨
       (rest ≠ [] ∧ flag' = true ∧
        ∃ x, plugins d' = ds ++ [x] ∧ diagnostic_name x = "CaptureDeadline"%string ∧ status x = TimedOut))).
Proof.
  split_and!.
  - intros fs. destruct (run_filters_visited event txn fs d w) as (_ & _ & H).
    by destruct (run_filters event txn fs d w) as [[d' pass] w'].
  - intros ps data. destruct (run_pre_processors_visited event txn ps data d w) as (_ & _ & H).
    by destruct (run_pre_processors event txn ps data d w) as [[data' d'] w'].
  - intros ph ps result. destruct (run_post_processors_visited ph event txn ps result d w) as (_ & _ & H).
    by destruct (run_post_processors ph event txn ps result d w) as [[result' d'] w'].
  - intros path ns. destruct (run_notifiers_visited txn path ns d w) as (_ & _ & H).
    by destruct (run_notifiers txn path ns d w) as [d' w'].
  - intros task snapshot context wanted requested cs flag data.
    destruct (run_collectors_visited event task snapshot context wanted requested cs flag data d w) as (_ & _ & H).
    by destruct (run_collectors event task snapshot context wanted requested cs flag data d w) as [[[flag' data'] d'] w'].
Qed.

End Properties.
End FinalizeSpec.
