(* ===== verification/Subprocess.v ===== *)
(** * Plugins in a process of their own (src/pipeline/safety.rs)

    [run_plugin_subprocess]: the command is spawned in its own process group, its output is
    drained by two reader threads, and the group is killed and the child reaped on every
    way out. Processes, threads and pipes are operations of [SubprocessOps]; the trace has
    what was done to the child, the readers and the shared cells of the context. [fuel]
    bounds each of the polling loops. *)

From stdpp Require Import pretty.
From S2P Require Import Prelude.
From S2P Require Import Traced.
From S2P Require Import Fueled.
From S2P Require Import PipelineTypes.
From S2P Require Import PluginRun.
From S2P Require Import Pipeline.

Module Subprocess.
Export Types.
Export Fueled.
Export PluginRun.
#[local] Open Scope Z_scope.

Definition SUBPROCESS_POLL_INTERVAL : Z := 10 * NANOS_PER_MILLI.
Definition OUTPUT_READER_POLL_INTERVAL : Z := 5 * NANOS_PER_MILLI.
Definition OUTPUT_DRAIN_GRACE : Z := 2 * Pipeline.NANOS_PER_SEC.
Definition PROCESS_EXIT_GRACE : Z := 2 * Pipeline.NANOS_PER_SEC.
Definition MAX_SUBPROCESS_STREAM_BYTES : Z := 1024 * 1024.
Definition READ_BUFFER_BYTES : Z := 8192.
Definition MAX_STOP_DRAIN_READS : Z := MAX_SUBPROCESS_STREAM_BYTES / READ_BUFFER_BYTES.
Definition DIAGNOSTIC_TAIL_BYTES : Z := 4096.
Definition I32_MAX : Z := 2 ^ 31 - 1.

Definition ESRCH : Z := 3.
Definition EPERM : Z := 1.
Definition O_NONBLOCK : Z := 4.

Notation Byte := Init.Byte.byte.

Inductive Stream : Type := Stdout | Stderr.

#[export] Instance Stream_eq_dec : EqDecision Stream.
Proof. solve_decision. Defined.

Definition stream_name (s : Stream) : string := match s with Stdout => "stdout" | Stderr => "stderr" end.

(** An [io::Error]: whether it is [Interrupted] or [WouldBlock], or its text. *)
Inductive IoError : Type :=
| IoInterrupted
| IoWouldBlock
| IoOther (text : string).

Definition io_text (e : IoError) : string :=
  match e with
  | IoInterrupted => "Interrupted system call (os error 4)"
  | IoWouldBlock => "Resource temporarily unavailable (os error 35)"
  | IoOther text => text
  end.

Record StreamCapture := mkCapture { capture_bytes : list Byte; capture_truncated : bool; capture_error : option string }.

Record SubprocessOutput (X : Type) := mkOutput {
  status : X;
  stdout : list Byte;
  stderr : list Byte;
  stdout_truncated : bool;
  stderr_truncated : bool
}.
Arguments mkOutput {X}.
Arguments status {X}.
Arguments stdout {X}.
Arguments stderr {X}.
Arguments stdout_truncated {X}.
Arguments stderr_truncated {X}.

(** [X] is [ExitStatus]. [cancel_loaded] reads the flag that other threads may set,
    [child_wait] blocks, [waitid_unreaped] tells whether the child has exited and leaves
    it waitable, [reader_join] answers with an error for a reader that panicked. *)
Class SubprocessOps (E X : Type) := {
  errno_text : Z → string;
  debug_lossy : list Byte → string;
  cancel_loaded : E → bool * E;
  command_spawn : E → result string Z * E;
  take_pipe : Stream → E → bool * E;
  get_flags : Stream → E → result string Z * E;
  set_flags : Stream → Z → E → result string unit * E;
  child_kill : E → E;
  child_wait : E → result IoError X * E;
  child_try_wait : E → result IoError (option X) * E;
  killpg_sigkill : Z → E → option Z * E;
  waitid_unreaped : Z → E → result IoError bool * E;
  spawn_reaper : Z → E → result string unit * E;
  spawn_reader : Stream → E → result string unit * E;
  reader_finished : Stream → E → bool * E;
  reader_join : Stream → E → option StreamCapture * E;
  thread_sleep : Z → E → E
}.

Inductive SubprocessStep (X : Type) : Type :=
| BoundaryStarted
| Spawned (id : Z)
| GroupKilled (pgid : Z) (error : option Z)
| ChildKilled
| Reaped (s : X)
| LateReaper (started : bool)
| ReaderStarted (s : Stream)
| StopRequested (s : Stream)
| ReaderJoined (s : Stream) (c : StreamCapture)
| CleanupRecorded (error : string)
| DiagnosticRecorded (text : string).
Arguments BoundaryStarted {X}.
Arguments Spawned {X}.
Arguments GroupKilled {X}.
Arguments ChildKilled {X}.
Arguments Reaped {X}.
Arguments LateReaper {X}.
Arguments ReaderStarted {X}.
Arguments StopRequested {X}.
Arguments ReaderJoined {X}.
Arguments CleanupRecorded {X}.
Arguments DiagnosticRecorded {X}.

Section Subprocess.
Context {E X : Type} {clock : Clock E} {ops : SubprocessOps E X} {Txn Ctx : Type}.
#[local] Notation sp := (fueled E (SubprocessStep X)).
#[local] Notation PluginContext := (PluginContext Txn Ctx).
#[local] Notation output := (SubprocessOutput X).

Definition now : sp Z := ask instant_now.
Definition sleep (d : Z) : sp unit := ask (λ e, (tt, thread_sleep d e)).

(** [PluginContext::is_timed_out], the flag loaded anew each time. *)
Definition timed_out (context : PluginContext) : sp bool :=
  is_cancelled ← ask cancel_loaded;
  if (is_cancelled : bool) then mret true else
  match deadline context with
  | None => mret false
  | Some d => t ← now; mret (bool_decide (d ≤ t))
  end.

Definition time_left (context : PluginContext) : sp (option Z) :=
  match deadline context with
  | None => mret None
  | Some d => t ← now; mret (Some (saturating_duration_since d t))
  end.

(** [Instant::now().checked_add(grace)], or now once more. *)
Definition grace_deadline (grace : Z) : sp Z :=
  t ← now;
  match instant_checked_add t grace with Some d => mret d | None => now end.

Definition record_cleanup_failure (error : string) : sp unit := step (CleanupRecorded error).

Definition tail (bytes : list Byte) : list Byte := drop (length bytes - Z.to_nat DIAGNOSTIC_TAIL_BYTES) bytes.

Definition record_subprocess_timeout_output (out err : StreamCapture) : sp unit :=
  let mark c := if capture_truncated c then " (truncated)"%string else EmptyString in
  step (DiagnosticRecorded
    ("partial stdout=" +:+ debug_lossy (tail (capture_bytes out)) +:+ mark out +:+
     "; partial stderr=" +:+ debug_lossy (tail (capture_bytes err)) +:+ mark err)%string).

(** ** Output *)

Definition set_nonblocking (s : Stream) : sp (result string unit) :=
  flags ←? ask (get_flags s);
  ask (set_flags s (Z.lor flags O_NONBLOCK)).

Fixpoint wait_finished (fuel : nat) (s : Stream) (d : Z) : sp unit :=
  match fuel with
  | O => starved
  | S fuel =>
      finished ← ask (reader_finished s);
      if (finished : bool) then mret tt else
      t ← now;
      if decide (t < d) then _ ← sleep OUTPUT_READER_POLL_INTERVAL; wait_finished fuel s d else mret tt
  end.

Definition join_capture (fuel : nat) (s : Stream) (drain_deadline : option Z) : sp StreamCapture :=
  _ ← match drain_deadline with Some d => wait_finished fuel s d | None => mret tt end;
  finished ← ask (reader_finished s);
  _ ← (if (finished : bool) then mret tt else step (StopRequested s));
  joined ← ask (reader_join s);
  let c := default (mkCapture [] false (Some "reader panicked"%string)) joined in
  _ ← step (ReaderJoined s c);
  mret c.

(** ** The child *)

(** A late reaper keeps the wait of a child that did not exit within the grace. *)
Definition hand_to_reaper (pid : Z) : sp string :=
  let message := ("plugin process " +:+ pretty pid +:+ " did not exit within cleanup grace")%string in
  r ← ask (spawn_reaper pid);
  _ ← step (LateReaper (is_ok r));
  mret match r with
       | Ok _ => (message +:+ "; direct-child reaping was handed to a background waiter")%string
       | Err error => (message +:+ "; could not retain reaping ownership: failed to spawn delayed plugin reaper: " +:+ error)%string
       end.

Fixpoint wait_exit_loop (fuel : nat) (pid d : Z) : sp (result string X) :=
  match fuel with
  | O => starved
  | S fuel =>
      r ← ask child_try_wait;
      match r with
      | Ok (Some s) => _ ← step (Reaped s); mret (Ok s)
      | Err IoWouldBlock | Err (IoOther _) =>
          mret (Err ("failed to poll plugin process " +:+ pretty pid +:+ ": " +:+
                       match r with Err e => io_text e | _ => EmptyString end)%string)
      | Ok None | Err IoInterrupted =>
          t ← now;
          if decide (d ≤ t) then message ← hand_to_reaper pid; mret (Err message)
          else _ ← sleep SUBPROCESS_POLL_INTERVAL; wait_exit_loop fuel pid d
      end
  end.

Definition wait_for_child_exit (fuel : nat) (pid grace : Z) : sp (result string X) :=
  d ← grace_deadline grace;
  wait_exit_loop fuel pid d.

Fixpoint wait_loop (fuel : nat) (pid d : Z) : sp (result string X) :=
  match fuel with
  | O => starved
  | S fuel =>
      r ← ask child_wait;
      match r with
      | Ok s => _ ← step (Reaped s); mret (Ok s)
      | Err e =>
          again ← match e with IoInterrupted => t ← now; mret (bool_decide (t < d)) | _ => mret false end;
          if (again : bool) then wait_loop fuel pid d
          else mret (Err ("failed to reap plugin process " +:+ pretty pid +:+ ": " +:+ io_text e)%string)
      end
  end.

Definition wait_for_child (fuel : nat) (pid grace : Z) : sp (result string X) :=
  d ← grace_deadline grace;
  wait_loop fuel pid d.

Definition kill_group (pgid : Z) : sp (option Z) :=
  r ← ask (killpg_sigkill pgid);
  _ ← step (GroupKilled pgid r);
  mret r.

Definition kill_child : sp unit :=
  _ ← ask (λ e, (tt, child_kill e));
  step ChildKilled.

Definition kill_and_reap_process_group (fuel : nat) (pgid : Z) : sp (result string unit) :=
  r ← kill_group pgid;
  let group_error :=
    match r with
    | None => None
    | Some errno =>
        if decide (errno = ESRCH) then None
        else Some ("failed to kill plugin process group " +:+ pretty pgid +:+ ": " +:+ errno_text errno)%string
    end in
  _ ← kill_child;
  _ ←? wait_for_child_exit fuel pgid PROCESS_EXIT_GRACE;
  mret match group_error with Some error => Err error | None => Ok tt end.

Definition child_exited_unreaped (raw_pid : Z) : sp (result string bool) :=
  if decide (raw_pid < 0) then mret (Err "plugin pid does not fit id_t: out of range integral type conversion attempted"%string) else
  r ← ask (waitid_unreaped raw_pid);
  mret match r with
       | Ok exited => Ok exited
       | Err IoInterrupted => Ok false
       | Err e => Err ("failed to poll isolated plugin: " +:+ io_text e)%string
       end.

Definition kill_remaining_process_group (pgid : Z) : sp (result string unit) :=
  r ← kill_group pgid;
  mret match r with
       | None => Ok tt
       | Some errno =>
           if decide (errno = ESRCH ∨ errno = EPERM) then Ok tt
           else Err ("failed to clean plugin process group " +:+ pretty pgid +:+ ": " +:+ errno_text errno)%string
       end.

Definition failed_for_context {A : Type} (context : PluginContext) (message : string) : sp (PluginRunResult A) :=
  expired ← timed_out context;
  mret (if (expired : bool) then RunTimedOut else Failed message).

Definition failed_with_cleanup {A : Type} (context : PluginContext) (message : string) (cleanup : result string unit)
    : sp (PluginRunResult A) :=
  match cleanup with
  | Ok _ => failed_for_context context message
  | Err cleanup_error =>
      let failure := (message +:+ "; cleanup failed: " +:+ cleanup_error)%string in
      _ ← record_cleanup_failure failure;
      mret (Failed failure)
  end.

(** A failed preparation: the child goes before the answer. *)
Definition abandon {A : Type} (fuel : nat) (context : PluginContext) (pgid : Z) (message : string) : sp (PluginRunResult A) :=
  cleanup ← kill_and_reap_process_group fuel pgid;
  failed_with_cleanup context message cleanup.

(** ** The poll loop *)

(** The child has exited and is not reaped: its group goes, then it is reaped. *)
Definition finish_exited (fuel : nat) (pgid : Z) : sp (result (PluginRunResult output) X) :=
  cleanup ← kill_remaining_process_group pgid;
  reaped ← wait_for_child fuel pgid PROCESS_EXIT_GRACE;
  let failing failure := _ ← record_cleanup_failure failure; mret (Err (Failed failure)) in
  match cleanup, reaped with
  | Ok _, Ok s => mret (Ok s)
  | Err cleanup_error, Ok _ => failing cleanup_error
  | Ok _, Err reap_error => failing reap_error
  | Err cleanup_error, Err reap_error => failing (cleanup_error +:+ "; " +:+ reap_error)%string
  end.

Definition finish_timed_out (fuel : nat) (pgid : Z) : sp (result (PluginRunResult output) X) :=
  cleanup ← kill_and_reap_process_group fuel pgid;
  match cleanup with
  | Ok _ => mret (Err RunTimedOut)
  | Err error =>
      let failure := ("plugin timed out but cleanup failed: " +:+ error)%string in
      _ ← record_cleanup_failure failure;
      mret (Err (Failed failure))
  end.

(** [loops] bounds the polls and [fuel] the loops inside one of them. *)
Fixpoint poll_loop (loops fuel : nat) (context : PluginContext) (pgid : Z) : sp (result (PluginRunResult output) X) :=
  match loops with
  | O => starved
  | S loops =>
      expired ← timed_out context;
      if (expired : bool) then finish_timed_out fuel pgid else
      exited ← child_exited_unreaped pgid;
      match exited with
      | Ok true => finish_exited fuel pgid
      | Err error => r ← abandon fuel context pgid error; mret (Err r)
      | Ok false =>
          left ← time_left context;
          let sleep_for := match left with None => SUBPROCESS_POLL_INTERVAL | Some d => Z.min d SUBPROCESS_POLL_INTERVAL end in
          _ ← (if decide (sleep_for = 0) then mret tt else sleep sleep_for);
          poll_loop loops fuel context pgid
      end
  end.

(** ** The run *)

Definition start_reader (s : Stream) : sp (result string unit) :=
  r ← ask (spawn_reader s);
  match r with
  | Ok _ => _ ← step (ReaderStarted s); mret (Ok tt)
  | Err error => mret (Err error)
  end.

(** What follows the poll loop: the readers are joined and the outcome is completed. *)
Definition conclude (fuel : nat) (context : PluginContext) (outcome : result (PluginRunResult output) X)
    : sp (PluginRunResult output) :=
  let allow_drain := is_ok outcome in
  _ ← (if allow_drain then mret tt else _ ← step (StopRequested Stdout); step (StopRequested Stderr));
  drain_deadline ← (if allow_drain then t ← now; mret (Some (t + OUTPUT_DRAIN_GRACE)) else mret None);
  out ← join_capture fuel Stdout drain_deadline;
  err ← join_capture fuel Stderr drain_deadline;
  match outcome with
  | Err result =>
      _ ← match result with RunTimedOut => record_subprocess_timeout_output out err | _ => mret tt end;
      mret result
  | Ok s =>
      expired ← timed_out context;
      if (expired : bool) then mret RunTimedOut else
      mret match (match capture_error out with Some error => Some error | None => capture_error err end) with
           | Some error => Failed ("isolated plugin output capture was incomplete: " +:+ error)%string
           | None => Completed (mkOutput s (capture_bytes out) (capture_bytes err) (capture_truncated out) (capture_truncated err))
           end
  end.

(** The readers are running. *)
Definition run_with_readers (loops fuel : nat) (context : PluginContext) (pgid : Z) : sp (PluginRunResult output) :=
  outcome ← poll_loop loops fuel context pgid;
  conclude fuel context outcome.

Definition start_readers (loops fuel : nat) (context : PluginContext) (pgid : Z) : sp (PluginRunResult output) :=
  first ← start_reader Stdout;
  match first with
  | Err error => abandon fuel context pgid ("failed to spawn stdout reader: " +:+ error)%string
  | Ok _ =>
      second ← start_reader Stderr;
      match second with
      | Ok _ => run_with_readers loops fuel context pgid
      | Err error =>
          _ ← step (StopRequested Stdout);
          cleanup ← kill_and_reap_process_group fuel pgid;
          _ ← join_capture fuel Stdout None;
          failed_with_cleanup context ("failed to spawn stderr reader: " +:+ error)%string cleanup
      end
  end.

(** The pipes of a spawned child, then its readers. *)
Definition run_spawned (loops fuel : nat) (context : PluginContext) (pgid : Z) : sp (PluginRunResult output) :=
  out ← ask (take_pipe Stdout);
  if negb (out : bool) then abandon fuel context pgid "isolated plugin stdout pipe missing"%string else
  err ← ask (take_pipe Stderr);
  if negb (err : bool) then abandon fuel context pgid "isolated plugin stderr pipe missing"%string else
  nonblocking_out ← set_nonblocking Stdout;
  match nonblocking_out with
  | Err error => abandon fuel context pgid ("failed to make isolated plugin stdout nonblocking: " +:+ error)%string
  | Ok _ =>
      nonblocking_err ← set_nonblocking Stderr;
      match nonblocking_err with
      | Err error => abandon fuel context pgid ("failed to make isolated plugin stderr nonblocking: " +:+ error)%string
      | Ok _ => start_readers loops fuel context pgid
      end
  end.

Definition run_plugin_subprocess (loops fuel : nat) (context : PluginContext) : sp (PluginRunResult output) :=
  _ ← step BoundaryStarted;
  expired ← timed_out context;
  if (expired : bool) then mret RunTimedOut else
  spawned ← ask command_spawn;
  match spawned with
  | Err error => failed_for_context context ("failed to spawn isolated plugin: " +:+ error)%string
  | Ok id =>
      _ ← step (Spawned id);
      if decide (I32_MAX < id) then
        _ ← kill_child;
        r ← ask child_wait;
        _ ← match r with Ok s => step (Reaped s) | Err _ => mret tt end;
        mret (Failed "plugin pid does not fit pid_t: out of range integral type conversion attempted"%string)
      else run_spawned loops fuel context id
  end.

End Subprocess.
End Subprocess.

(** ** The readers of a plugin process (src/pipeline/safety.rs)

    [read_capped] drains one pipe: it retains the first bytes up to the limit, and after a
    requested stop it reads only a bounded number of chunks more. *)

Module SubprocessReader.
Export Subprocess.
#[local] Open Scope Z_scope.

(** A read fills at most the buffer of 8 KiB; the empty chunk is the end of the pipe. *)
Class ReaderOps (E : Type) := {
  reader_read : E → result IoError (list Byte) * E;
  stop_loaded : E → bool * E;
  reader_sleep : Z → E → E
}.

Inductive ReaderStep : Type := Chunk (stopping : bool) (b : list Byte).

Section Reader.
Context {E : Type} {ops : ReaderOps E}.
#[local] Notation rd := (fueled E ReaderStep).

Definition STOPPED : string := "output capture stopped before EOF".

(** [MAX_SUBPROCESS_STREAM_BYTES.saturating_sub(bytes.len()).min(count)] bytes. *)
Definition retain (bytes chunk : list Byte) : list Byte :=
  take (Z.to_nat (Z.max 0 (MAX_SUBPROCESS_STREAM_BYTES - Z.of_nat (length bytes)))) chunk.

Fixpoint read_capped (fuel : nat) (bytes : list Byte) (truncated : bool) (reads_after_stop : Z) : rd StreamCapture :=
  match fuel with
  | O => starved
  | S fuel =>
      stopping ← ask stop_loaded;
      r ← ask reader_read;
      match r with
      | Ok [] => mret (mkCapture bytes truncated None)
      | Ok chunk =>
          _ ← step (Chunk stopping chunk);
          let retained := retain bytes chunk in
          let bytes := bytes ++ retained in
          let truncated := truncated || bool_decide (length retained < length chunk)%nat in
          let reads_after_stop := if (stopping : bool) then reads_after_stop + 1 else reads_after_stop in
          if decide (MAX_STOP_DRAIN_READS ≤ reads_after_stop) then mret (mkCapture bytes truncated (Some STOPPED))
          else read_capped fuel bytes truncated reads_after_stop
      | Err IoInterrupted => read_capped fuel bytes truncated reads_after_stop
      | Err IoWouldBlock =>
          stop ← ask stop_loaded;
          if (stop : bool) then mret (mkCapture bytes truncated (Some STOPPED)) else
          _ ← ask (λ e, (tt, reader_sleep OUTPUT_READER_POLL_INTERVAL e));
          read_capped fuel bytes truncated reads_after_stop
      | Err error => mret (mkCapture bytes truncated (Some (io_text error)))
      end
  end.

(** ** What it retains *)

Definition LIMIT : nat := Z.to_nat MAX_SUBPROCESS_STREAM_BYTES.

Definition drained (l : list ReaderStep) : list Byte := concat (map (λ '(Chunk _ b), b) l).
Definition stopping_reads (l : list ReaderStep) : nat := foldr (λ '(Chunk stopping _) n, if stopping then S n else n) 0%nat l.

Lemma retain_spec bytes chunk : retain bytes chunk = take (LIMIT - length bytes) chunk.
Proof. unfold retain, LIMIT. f_equal. lia. Qed.

(** What a reader has after the bytes [b] came through the pipe. *)
Definition holds (b bytes : list Byte) (truncated : bool) : Prop :=
  bytes = take LIMIT b ∧ truncated = bool_decide (LIMIT < length b)%nat.

Lemma holds_chunk b bytes truncated chunk :
  holds b bytes truncated →
  holds (b ++ chunk) (bytes ++ retain bytes chunk) (truncated || bool_decide (length (retain bytes chunk) < length chunk)%nat).
Proof.
  intros [-> ->]. rewrite retain_spec. split.
  - destruct (decide (LIMIT ≤ length b)%nat) as [Hb|Hb].
    + rewrite take_app_le by done. rewrite length_take_le by done. by rewrite Nat.sub_diag, take_0, app_nil_r.
    + rewrite (take_ge b) by lia. rewrite take_app_ge by lia. done.
  - rewrite !length_take, length_app. apply Bool.eq_iff_eq_true.
    rewrite orb_true_iff, !bool_decide_eq_true. lia.
Qed.

Lemma read_capped_holds fuel b bytes truncated n :
  holds b bytes truncated → 0 ≤ n < MAX_STOP_DRAIN_READS →
  ends (λ l c, holds (b ++ drained l) (capture_bytes c) (capture_truncated c) ∧
               n + Z.of_nat (stopping_reads l) ≤ MAX_STOP_DRAIN_READS)
    (read_capped fuel bytes truncated n).
Proof.
  revert b bytes truncated n. induction fuel as [|fuel IH]; intros b bytes truncated n Hb Hn; [apply ends_starved|].
  assert (∀ error, ends (λ l c, holds (b ++ drained l) (capture_bytes c) (capture_truncated c) ∧
    n + Z.of_nat (stopping_reads l) ≤ MAX_STOP_DRAIN_READS) (mret (mkCapture bytes truncated error) : rd StreamCapture)) as Hend.
  { intros error. apply ends_ret. cbn. rewrite app_nil_r. split; [done|lia]. }
  cbn [read_capped]. apply ends_quiet; [auto with cm|]. intros stopping. apply ends_quiet; [auto with cm|].
  intros [[|x chunk]|[| |text]]; [apply Hend| |by apply IH| |apply Hend].
  - apply ends_step. apply (holds_chunk _ _ _ (x :: chunk)) in Hb.
    set (n' := if stopping then n + 1 else n). assert (n ≤ n' ≤ n + 1) as Hn' by (subst n'; destruct stopping; lia).
    assert (∀ l, stopping_reads (Chunk stopping (x :: chunk) :: l) = (Z.to_nat (n' - n) + stopping_reads l)%nat) as Hreads.
    { intros l. subst n'. destruct stopping; cbn [stopping_reads foldr]; fold (stopping_reads l); [|rewrite Z.sub_diag]; lia. }
    destruct (decide (MAX_STOP_DRAIN_READS ≤ n')).
    + apply ends_ret. rewrite Hreads. change (stopping_reads []) with 0%nat.
      split; [cbn; by rewrite app_nil_r|lia].
    + eapply ends_impl; [apply (IH _ _ _ n' Hb); lia|]. intros l c [H1 H2]. rewrite Hreads.
      split; [by rewrite <-app_assoc in H1|lia].
  - apply ends_quiet; [auto with cm|]. intros []; [apply Hend|]. apply ends_quiet; [auto with cm|]. intros []. by apply IH.
Qed.

(** A reader's capture is the first mebibyte of what came through the pipe, marked as
    truncated exactly when there was more; after a stop was seen it reads at most 128
    chunks. *)
Lemma read_capped_exact (fuel : nat) (w : World E ReaderStep) c w' :
  read_capped fuel [] false 0 w = (Some c, w') →
  ∃ l, trace w' = trace w ++ l ∧ capture_bytes c = take LIMIT (drained l) ∧
    capture_truncated c = bool_decide (LIMIT < length (drained l))%nat ∧ Z.of_nat (stopping_reads l) ≤ MAX_STOP_DRAIN_READS.
Proof.
  intros H. destruct (read_capped_holds fuel [] [] false 0) with (w := w) as (l & Hl & Hc); [by split|done|].
  rewrite H in Hl, Hc. destruct (Hc c eq_refl) as [[H1 H2] H3]. by exists l.
Qed.

End Reader.
End SubprocessReader.
