(* ===== verification/SubprocessSpec.v ===== *)
(** * The life of a plugin process

    Every run of [run_plugin_subprocess] drives one automaton: the child is spawned, its
    group is killed while the child is not reaped, it is reaped at most once, and each
    reader that was started is joined. The theorem states in which state the automaton is
    for each outcome. *)

From S2P Require Import Prelude.
From S2P Require Import Traced.
From S2P Require Import Fueled.
From S2P Require Import PluginRun.
From S2P Require Import Subprocess.

Module SubprocessSpec.
Export Subprocess.
#[local] Open Scope Z_scope.

(** ** The automaton *)

(** What became of the [SIGKILL] to the child's group: not asked for, delivered, or refused. *)
Inductive group_kill : Type := NotAsked | Delivered | Refused (errno : Z).

Definition asked (k : group_kill) : Prop := k ≠ NotAsked.
Definition answered (error : option Z) : group_kill := match error with None => Delivered | Some errno => Refused errno end.

(** No process of the group can run on: the signal was delivered, there was no group left
    ([ESRCH]), or only processes that had exited ([EPERM], which is what Darwin answers). *)
Definition settled (k : group_kill) : Prop := k = Delivered ∨ k = Refused ESRCH ∨ k = Refused EPERM.

(** [kill] is the last one before the child was reaped. *)
Inductive child : Type :=
| Unspawned
| Live (id : Z) (kill : group_kill)
| Gone (id : Z) (kill : group_kill).

Record life := mkLife { child_of : child; running : list Stream; cleanup_failed : bool }.

Definition born : life := mkLife Unspawned [] false.

Definition with_child (c : child) (s : life) : life := mkLife c (running s) (cleanup_failed s).

(** [None] is a step that must not happen: a signal or a wait without a child to take it,
    a reader that is started twice, or stopped or joined without being there. *)
Definition observe {X : Type} (s : life) (o : SubprocessStep X) : option life :=
  match o, child_of s with
  | BoundaryStarted, _ | DiagnosticRecorded _, _ => Some s
  | CleanupRecorded _, _ => Some (mkLife (child_of s) (running s) true)
  | Spawned id, Unspawned => Some (with_child (Live id NotAsked) s)
  | GroupKilled pgid error, Live id _ => if decide (pgid = id) then Some (with_child (Live id (answered error)) s) else None
  | ChildKilled, Live _ _ | LateReaper _, Live _ _ => Some s
  | Reaped _, Live id kill => Some (with_child (Gone id kill) s)
  | ReaderStarted r, _ => if decide (r ∈ running s) then None else Some (mkLife (child_of s) (r :: running s) (cleanup_failed s))
  | StopRequested r, _ => if decide (r ∈ running s) then Some s else None
  | ReaderJoined r _, _ =>
      if decide (r ∈ running s) then Some (mkLife (child_of s) (filter (λ x, x ≠ r) (running s)) (cleanup_failed s)) else None
  | _, _ => None
  end.

Fixpoint observe_all {X : Type} (s : life) (l : list (SubprocessStep X)) : option life :=
  match l with
  | [] => Some s
  | o :: l => s ← observe s o; observe_all s l
  end.

Lemma observe_all_app {X : Type} (s : life) (l l' : list (SubprocessStep X)) :
  observe_all s (l ++ l') = s ← observe_all s l; observe_all s l'.
Proof. revert s. induction l as [|o l IH]; intros s; [done|]. cbn. destruct (observe s o); [apply IH|done]. Qed.

Section Spec.
Context {E X : Type} {clock : Clock E} {ops : SubprocessOps E X} {Txn Ctx : Type}.
#[local] Notation step := (SubprocessStep X).
#[local] Notation sp := (fueled E (SubprocessStep X)).
#[local] Notation PluginContext := (PluginContext Txn Ctx).
#[local] Notation output := (SubprocessOutput X).

(** [m] takes the automaton from [s] to a state that satisfies [Q] with its steps and answer. *)
Definition drives {A : Type} (s : life) (m : sp A) (Q : life → list step → A → Prop) : Prop :=
  ends (λ l a, ∃ s', observe_all s l = Some s' ∧ Q s' l a) m.

Lemma drives_bind {A B : Type} s (m : sp A) (f : A → sp B) P Q :
  drives s m P → (∀ s' l a, P s' l a → drives s' (f a) (λ s'' l' b, Q s'' (l ++ l') b)) → drives s (m ≫= f) Q.
Proof.
  intros Hm Hf. eapply ends_bind; [exact Hm|]. intros l a (s' & Hs & HP).
  eapply ends_impl; [by apply (Hf s' l a)|]. intros l' b (s'' & Hs' & HQ). exists s''.
  by rewrite observe_all_app, Hs.
Qed.

Lemma drives_impl {A : Type} s (m : sp A) P Q : drives s m P → (∀ s' l a, P s' l a → Q s' l a) → drives s m Q.
Proof. intros Hm H. eapply ends_impl; [exact Hm|]. intros l a (s' & Hs & HP). exists s'. auto. Qed.

Lemma drives_ret {A : Type} s (a : A) (Q : life → list step → A → Prop) : Q s [] a → drives s (mret a) Q.
Proof. intros H. apply ends_ret. by exists s. Qed.

Lemma drives_starved {A : Type} s (Q : life → list step → A → Prop) : drives s (starved : sp A) Q.
Proof. apply ends_starved. Qed.

Lemma drives_quiet {A B : Type} s (m : sp A) (f : A → sp B) Q : quiet m → (∀ a, drives s (f a) Q) → drives s (m ≫= f) Q.
Proof. apply ends_quiet. Qed.

Lemma drives_silent {A : Type} s (m : sp A) (Q : life → list step → A → Prop) : quiet m → (∀ a, Q s [] a) → drives s m Q.
Proof. intros Hm HQ. apply quiet_ends; [done|]. intros a. by exists s. Qed.

Lemma drives_step {B : Type} s s' (o : step) (f : unit → sp B) Q :
  observe s o = Some s' → drives s' (f tt) (λ s'' l b, Q s'' (o :: l) b) → drives s (Fueled.step o ≫= f) Q.
Proof.
  intros Ho Hf. apply ends_step. eapply ends_impl; [exact Hf|]. intros l b (s'' & Hs & HQ). exists s''.
  cbn. by rewrite Ho.
Qed.

(** ** What is quiet *)

Lemma quiet_clock : quiet (now : sp Z).
Proof. apply quiet_ask. Qed.
Lemma quiet_sleep d : quiet (sleep d : sp unit).
Proof. apply quiet_ask. Qed.
#[local] Hint Resolve quiet_clock quiet_sleep : cm.
Ltac solve_quiet := repeat (intros; first [solve [auto with cm] | case_match | apply fueled_quiet_bind]).

Lemma quiet_timed_out (context : PluginContext) : quiet (timed_out context : sp bool).
Proof. unfold timed_out. solve_quiet. Qed.
Lemma quiet_time_left (context : PluginContext) : quiet (time_left context : sp (option Z)).
Proof. unfold time_left. solve_quiet. Qed.
Lemma quiet_grace_deadline grace : quiet (grace_deadline grace : sp Z).
Proof. unfold grace_deadline. solve_quiet. Qed.
Lemma quiet_set_nonblocking s : quiet (set_nonblocking s : sp (result string unit)).
Proof. unfold set_nonblocking. solve_quiet. Qed.
Lemma quiet_wait_finished fuel s d : quiet (wait_finished fuel s d : sp unit).
Proof. induction fuel; cbn [wait_finished]; solve_quiet. Qed.
Lemma quiet_exited pid : quiet (child_exited_unreaped pid : sp (result string bool)).
Proof. unfold child_exited_unreaped. solve_quiet. Qed.

(** ** Readers *)

Lemma drives_join fuel r d s :
  r ∈ running s →
  drives s (join_capture fuel r d) (λ s' l c,
    s' = mkLife (child_of s) (filter (λ x, x ≠ r) (running s)) (cleanup_failed s) ∧ ReaderJoined r c ∈ l).
Proof.
  intros Hr. apply drives_quiet; [destruct d; [apply quiet_wait_finished|auto with cm]|]. intros _.
  apply drives_quiet; [auto with cm|]. intros finished.
  assert (∀ l0 : list step, drives s (joined ← ask (reader_join r); _ ← Fueled.step (ReaderJoined r
      (default (mkCapture [] false (Some "reader panicked"%string)) joined)); mret (default (mkCapture [] false (Some "reader panicked"%string)) joined))
    (λ s' l c, s' = mkLife (child_of s) (filter (λ x, x ≠ r) (running s)) (cleanup_failed s) ∧ ReaderJoined r c ∈ l0 ++ l)) as H.
  { intros l0. apply drives_quiet; [auto with cm|]. intros joined. eapply drives_step; [cbn; by rewrite decide_True|].
    apply drives_ret. split; [done|]. apply elem_of_app. right. by left. }
  destruct finished.
  - eapply drives_quiet; [auto with cm|]. intros _. apply (H []).
  - eapply drives_step; [cbn; by rewrite decide_True|]. apply (H [StopRequested r]).
Qed.

(** ** The child *)

Lemma drives_hand id k s : child_of s = Live id k → drives s (hand_to_reaper id : sp string) (λ s' _ _, s' = s).
Proof.
  intros Hc. apply drives_quiet; [auto with cm|]. intros r. eapply drives_step; [cbn; by rewrite Hc|]. by apply drives_ret.
Qed.

(** A wait reaps the child, or leaves it. *)
Definition waited (s : life) (id : Z) (k : group_kill) (s' : life) (l : list step) (r : result string X) : Prop :=
  match r with Ok x => s' = with_child (Gone id k) s ∧ Reaped x ∈ l | Err _ => s' = s end.

Lemma drives_wait_exit fuel id k d s :
  child_of s = Live id k → drives s (wait_exit_loop fuel id d : sp _) (waited s id k).
Proof.
  intros Hc. induction fuel as [|fuel IH]; [apply drives_starved|]. cbn [wait_exit_loop].
  assert (∀ A (m : A → sp _), (∀ t, drives s (m t) (waited s id k)) → ∀ q : sp A, quiet q → drives s (q ≫= m) (waited s id k)) as Hq.
  { intros A m Hm q Hquiet. by apply drives_quiet. }
  assert (drives s (t ← now; if decide (d ≤ t) then message ← hand_to_reaper id; mret (Err message)
                  else _ ← sleep SUBPROCESS_POLL_INTERVAL; wait_exit_loop fuel id d) (waited s id k)) as Hagain.
  { apply Hq; [|auto with cm]. intros t. case_decide; [|apply Hq; [done|auto with cm]].
    eapply drives_bind; [by eapply drives_hand|]. intros s' l message ->. by apply drives_ret. }
  apply drives_quiet; [auto with cm|]. intros [[x|]|[| |text]]; [|exact Hagain|exact Hagain|by apply drives_ret..].
  eapply drives_step; [cbn; by rewrite Hc|]. apply drives_ret. split; [done|by left].
Qed.

Lemma drives_wait_loop fuel id k d s :
  child_of s = Live id k → drives s (wait_loop fuel id d : sp _) (waited s id k).
Proof.
  intros Hc. induction fuel as [|fuel IH]; [apply drives_starved|]. cbn [wait_loop].
  apply drives_quiet; [auto with cm|]. intros [x|e].
  - eapply drives_step; [cbn; by rewrite Hc|]. apply drives_ret. split; [done|by left].
  - apply drives_quiet; [solve_quiet|]. intros []; [exact IH|by apply drives_ret].
Qed.

Lemma drives_wait_for_child fuel id k grace s :
  child_of s = Live id k → drives s (wait_for_child fuel id grace : sp _) (waited s id k).
Proof. intros Hc. apply drives_quiet; [apply quiet_grace_deadline|]. intros d. by apply drives_wait_loop. Qed.

Lemma drives_kill_group id k s :
  child_of s = Live id k → drives s (kill_group id : sp _) (λ s' _ r, s' = with_child (Live id (answered r)) s).
Proof.
  intros Hc. apply drives_quiet; [auto with cm|]. intros r. eapply drives_step; [cbn; rewrite Hc; by rewrite decide_True|].
  by apply drives_ret.
Qed.

Lemma drives_kill_child id k s : child_of s = Live id k → drives s (kill_child : sp unit) (λ s' _ _, s' = s).
Proof.
  intros Hc. apply drives_quiet; [auto with cm|]. intros []. apply ends_of_traced, emit_emits. exists s. cbn. by rewrite Hc.
Qed.

(** A cleanup has killed the group and reaped the child, or says that it has failed. *)
Definition taken (s : life) (id : Z) (cleanup : result string unit) : Prop :=
  ∃ k, asked k ∧ (child_of s = Gone id k ∧ (cleanup = Ok tt → settled k) ∨ child_of s = Live id k ∧ cleanup ≠ Ok tt).

Definition kept (s s' : life) : Prop := running s' = running s ∧ cleanup_failed s' = cleanup_failed s.

Lemma asked_answered error : asked (answered error).
Proof. by destruct error. Qed.

Lemma drives_kill_and_reap fuel id k s :
  child_of s = Live id k →
  drives s (kill_and_reap_process_group fuel id : sp _) (λ s' _ r, kept s s' ∧ taken s' id r).
Proof.
  intros Hc. eapply drives_bind; [by eapply drives_kill_group|]. intros s1 l1 error ->.
  eapply drives_bind; [by eapply (drives_kill_child id (answered error))|]. intros s2 l2 [] ->.
  eapply drives_bind.
  { apply drives_quiet; [apply quiet_grace_deadline|]. intros d. by eapply (drives_wait_exit _ id (answered error)). }
  intros s3 l3 [x|text] Hw.
  - destruct Hw as [-> _]. apply drives_ret. split; [done|]. exists (answered error). split; [apply asked_answered|]. left.
    split; [done|]. destruct error as [errno|]; [|by left]. case_decide as He; [subst; right; by left|done].
  - rewrite Hw. apply drives_ret. split; [done|]. exists (answered error). split; [apply asked_answered|]. by right.
Qed.

(** ** Failures *)

(** An answer of a run that lost its child: it is reaped and its group is gone, or the
    failed cleanup is recorded. *)
Definition lost {A : Type} (s : life) (id : Z) (s' : life) (r : PluginRunResult A) : Prop :=
  running s' = running s ∧
  match r with
  | RunTimedOut => (∃ k, settled k ∧ child_of s' = Gone id k) ∧ cleanup_failed s' = cleanup_failed s
  | Failed _ => ∃ k, asked k ∧ (child_of s' = Gone id k ∧ (settled k ∨ cleanup_failed s' = true) ∨
                                child_of s' = Live id k ∧ cleanup_failed s' = true)
  | _ => False
  end.

Lemma drives_failed_with_cleanup {A : Type} (context : PluginContext) message cleanup s0 id s :
  kept s0 s → taken s id cleanup →
  drives s (failed_with_cleanup context message cleanup : sp (PluginRunResult A)) (λ s' _ r, lost s0 id s' r).
Proof.
  intros [Hr Hf] (k & Hk & Hc). destruct cleanup as [[]|error].
  - destruct Hc as [[Hc Hs]|[_ Hc]]; [|done]. specialize (Hs eq_refl). apply drives_quiet; [apply quiet_timed_out|].
    intros []; apply drives_ret; (split; [done|]); [split; [by exists k|done]|]. exists k. split; [done|]. left. auto.
  - eapply drives_step; [done|]. apply drives_ret. split; [done|]. exists k. split; [done|]. cbn.
    destruct Hc as [[Hc _]|[Hc _]]; [left; auto|by right].
Qed.

Lemma drives_abandon {A : Type} fuel (context : PluginContext) id k message s :
  child_of s = Live id k → drives s (abandon fuel context id message : sp (PluginRunResult A)) (λ s' _ r, lost s id s' r).
Proof.
  intros Hc. eapply drives_bind; [by eapply drives_kill_and_reap|]. intros s1 l1 cleanup [H1 H2].
  by apply drives_failed_with_cleanup.
Qed.

(** ** The loop *)

Definition polled (s : life) (id : Z) (s' : life) (l : list step) (r : result (PluginRunResult output) X) : Prop :=
  match r with
  | Ok x => (∃ k, settled k ∧ s' = with_child (Gone id k) s) ∧ Reaped x ∈ l
  | Err result => lost s id s' result
  end.

Lemma drives_kill_remaining id k s :
  child_of s = Live id k →
  drives s (kill_remaining_process_group id : sp _) (λ s' _ r, ∃ k', s' = with_child (Live id k') s ∧ asked k' ∧ (r = Ok tt → settled k')).
Proof.
  intros Hc. eapply drives_bind; [by eapply drives_kill_group|]. intros s1 l1 error ->. apply drives_ret.
  exists (answered error). split; [done|]. split; [apply asked_answered|]. destruct error as [errno|]; [|by left].
  case_decide as He; [|done]. intros _. destruct He as [-> | ->]; unfold settled; auto.
Qed.

Lemma drives_exited fuel id k s :
  child_of s = Live id k → drives s (finish_exited fuel id : sp _) (polled s id).
Proof.
  intros Hc. eapply drives_bind; [by eapply drives_kill_remaining|]. intros s1 l1 cleanup (k' & -> & Hk & Hsettled).
  eapply drives_bind; [by eapply (drives_wait_for_child _ id k')|]. intros s2 l2 reaped Hw.
  assert (∀ l3 failure, drives s2 (_ ← record_cleanup_failure failure; mret (Err (Failed failure)) : sp _)
    (λ s' l r, polled s id s' (l3 ++ l) r)) as Hfail.
  { intros l3 failure. eapply drives_step; [done|]. apply drives_ret. destruct reaped as [x|];
      [destruct Hw as [-> _]|rewrite Hw]; (split; [done|]); exists k'; (split; [done|]); cbn; auto. }
  destruct cleanup as [[]|ce], reaped as [x|re].
  - apply drives_ret. destruct Hw as [-> Hx]. split; [exists k'; auto|]. rewrite app_nil_r. apply elem_of_app. by right.
  - eapply drives_impl; [apply (Hfail (l1 ++ l2))|]. intros s' l r. cbn beta. by rewrite <-app_assoc.
  - eapply drives_impl; [apply (Hfail (l1 ++ l2))|]. intros s' l r. cbn beta. by rewrite <-app_assoc.
  - eapply drives_impl; [apply (Hfail (l1 ++ l2))|]. intros s' l r. cbn beta. by rewrite <-app_assoc.
Qed.

Lemma drives_timed_out fuel id k s :
  child_of s = Live id k → drives s (finish_timed_out fuel id : sp _) (polled s id).
Proof.
  intros Hc. eapply drives_bind; [by eapply drives_kill_and_reap|]. intros s1 l1 [[]|error] [[Hr Hf] (k' & Hk & H)].
  - destruct H as [[H Hs]|[_ H]]; [|done]. apply drives_ret. split; [done|]. split; [|done]. exists k'. auto.
  - eapply drives_step; [done|]. apply drives_ret. split; [done|]. exists k'. split; [done|]. cbn. destruct H as [[H _]|[H _]]; auto.
Qed.

Lemma drives_poll loops fuel (context : PluginContext) id k s :
  child_of s = Live id k → drives s (poll_loop loops fuel context id : sp _) (polled s id).
Proof.
  intros Hc. induction loops as [|loops IH]; [apply drives_starved|]. cbn [poll_loop].
  apply drives_quiet; [apply quiet_timed_out|]. intros []; [by eapply drives_timed_out|].
  apply drives_quiet; [apply quiet_exited|]. intros [[]|error]; [by eapply drives_exited| |].
  - apply drives_quiet; [apply quiet_time_left|]. intros left. apply drives_quiet; [solve_quiet|]. intros []. exact IH.
  - eapply drives_bind; [by eapply drives_abandon|]. intros s1 l1 r H. by apply drives_ret.
Qed.

(** ** The whole run *)

(** The state of the automaton for each outcome. *)
Definition final (s : life) (l : list step) (r : PluginRunResult output) : Prop :=
  running s = [] ∧
  match r with
  | Completed out =>
      (∃ id k, settled k ∧ child_of s = Gone id k) ∧ cleanup_failed s = false ∧ Reaped (status out) ∈ l ∧
      ∃ c1 c2, ReaderJoined Stdout c1 ∈ l ∧ ReaderJoined Stderr c2 ∈ l ∧ capture_error c1 = None ∧ capture_error c2 = None ∧
        stdout out = capture_bytes c1 ∧ stderr out = capture_bytes c2 ∧
        stdout_truncated out = capture_truncated c1 ∧ stderr_truncated out = capture_truncated c2
  | RunTimedOut => cleanup_failed s = false ∧ (child_of s = Unspawned ∨ ∃ id k, settled k ∧ child_of s = Gone id k)
  | Failed _ =>
      match child_of s with
      | Unspawned => True
      | Gone id k => asked k ∧ (settled k ∨ cleanup_failed s = true) ∨ I32_MAX < id
      | Live id k => asked k ∧ cleanup_failed s = true ∨ I32_MAX < id
      end
  | Panicked _ => False
  end.

Lemma lost_final s id s' s'' l r :
  cleanup_failed s = false → lost s id s' r → s'' = mkLife (child_of s') [] (cleanup_failed s') → final s'' l r.
Proof.
  intros Hf [_ H] ->. split; [done|]. destruct r as [out|error|message|]; cbn; try done.
  - destruct H as (k & Hk & [[-> Hc] | [-> Hc]]); by left.
  - destruct H as [(k & Hk & ->) Hc]. rewrite Hc. split; [done|]. right. by exists id, k.
Qed.

Lemma drives_conclude fuel (context : PluginContext) s0 s id l0 outcome :
  running s0 = [Stderr; Stdout] → cleanup_failed s0 = false → polled s0 id s l0 outcome →
  drives s (conclude fuel context outcome) (λ s' l r, final s' (l0 ++ l) r).
Proof.
  intros Hrun Hf Hp.
  assert (running s = [Stderr; Stdout]) as Hrs.
  { destruct outcome as [x|r]; [destruct Hp as [(k & _ & ->) _]; done|]. destruct Hp as [-> _]. done. }
  assert (drives s ((if is_ok outcome then mret tt else _ ← Fueled.step (StopRequested Stdout); Fueled.step (StopRequested Stderr)) : sp unit)
    (λ s' _ _, s' = s)) as Hstop.
  { destruct (is_ok outcome); [by apply drives_ret|].
    eapply drives_step; [cbn; rewrite decide_True; [done|rewrite Hrs; set_solver]|].
    apply ends_of_traced, emit_emits. exists s. cbn. rewrite decide_True; [done|rewrite Hrs; set_solver]. }
  eapply drives_bind; [exact Hstop|]. intros s1 l1 [] ->. apply drives_quiet; [solve_quiet|]. intros d.
  eapply drives_bind; [apply drives_join; rewrite Hrs; set_solver|]. intros s2 l2 c1 [-> H1].
  eapply drives_bind; [apply drives_join; cbn; rewrite Hrs; set_solver|]. intros s3 l3 c2 [-> H2]. cbn.
  assert (filter (λ x, x ≠ Stderr) (filter (λ x, x ≠ Stdout) (running s)) = []) as Hnone by (by rewrite Hrs).
  rewrite Hnone. destruct outcome as [x|r].
  - destruct Hp as [(k & Hk & ->) Hx]. apply drives_quiet; [apply quiet_timed_out|].
    assert (asked k) as Ha by (by destruct Hk as [->|[->| ->]]). intros []; apply drives_ret.
    + split; [done|]. split; [done|]. right. by exists id, k.
    + destruct (capture_error c1) eqn:E1; [split; [done|]; cbn; auto|]. destruct (capture_error c2) eqn:E2; [split; [done|]; cbn; auto|].
      split; [done|]. cbn. split_and!; [by exists id, k|done|by apply elem_of_app; left|]. exists c1, c2. rewrite !elem_of_app.
      split_and!; auto.
  - assert (∀ l, final (mkLife (child_of s) [] (cleanup_failed s)) l r) as Hfinal by (intros l; by eapply lost_final).
    destruct r; [..|eapply drives_step; [done|]; by apply drives_ret];
      (apply drives_quiet; [auto with cm|]; intros []; by apply drives_ret).
Qed.

Lemma drives_lost s (m : sp (PluginRunResult output)) id l0 :
  running s = [] → cleanup_failed s = false → drives s m (λ s' _ r, lost s id s' r) →
  drives s m (λ s' l r, final s' (l0 ++ l) r).
Proof.
  intros Hr Hf Hm. eapply drives_impl; [exact Hm|]. intros s' l r H. eapply lost_final; [exact Hf|exact H|].
  destruct H as [Hrun _]. rewrite Hr in Hrun. destruct s'; cbn in *; congruence.
Qed.

Lemma drives_start r s :
  r ∉ running s →
  drives s (start_reader r : sp _) (λ s' _ a, s' = if is_ok a then mkLife (child_of s) (r :: running s) (cleanup_failed s) else s).
Proof.
  intros Hr. apply drives_quiet; [auto with cm|]. intros [[]|error]; [|by apply drives_ret].
  eapply drives_step; [cbn; by rewrite decide_False|]. by apply drives_ret.
Qed.

Lemma polled_more l0 s id s' l r : polled s id s' l r → polled s id s' (l0 ++ l) r.
Proof. destruct r; [|done]. intros [Hs H]. split; [done|]. apply elem_of_app. by right. Qed.

Lemma drives_readers loops fuel (context : PluginContext) id s l0 :
  child_of s = Live id NotAsked → running s = [] → cleanup_failed s = false →
  drives s (start_readers loops fuel context id) (λ s' l r, final s' (l0 ++ l) r).
Proof.
  intros Hc Hr Hf. eapply drives_bind; [apply drives_start; rewrite Hr; set_solver|]. intros s1 l1 [[]|error] ->.
  2: { eapply drives_impl; [eapply (drives_lost _ _ id (l0 ++ l1)); [done|done|by eapply drives_abandon]|].
       intros s' l r. cbn beta. by rewrite <-app_assoc. }
  cbn [is_ok]. eapply drives_bind; [apply drives_start; cbn; rewrite Hr; set_solver|]. intros s2 l2 [[]|error] ->; cbn [is_ok].
  - eapply drives_bind; [by eapply drives_poll|]. intros s3 l3 outcome Hp.
    apply (polled_more (l0 ++ l1 ++ l2)) in Hp. eapply drives_impl; [eapply drives_conclude; [| |exact Hp]|].
    + cbn. by rewrite Hr.
    + done.
    + intros s' l r. cbn beta. by rewrite <-!app_assoc.
  - eapply drives_step; [cbn; rewrite decide_True; [done|by left]|].
    eapply drives_bind; [by eapply drives_kill_and_reap|]. intros s3 l3 cleanup [[Hrun Hcl] H]. cbn in Hrun, Hcl. rewrite Hr in Hrun.
    eapply drives_bind; [apply drives_join; rewrite Hrun; by left|]. intros s4 l4 c [-> _].
    eapply drives_impl; [apply (drives_failed_with_cleanup _ _ _ s id)|].
    + split; [by rewrite Hrun, Hr|by cbn].
    + exact H.
    + intros s' l r Hl. eapply lost_final; [exact Hf|exact Hl|]. destruct Hl as [Hrun' _]. rewrite Hr in Hrun'. destruct s'; cbn in *; congruence.
Qed.

Lemma drives_run_spawned loops fuel (context : PluginContext) id s l0 :
  child_of s = Live id NotAsked → running s = [] → cleanup_failed s = false →
  drives s (run_spawned loops fuel context id) (λ s' l r, final s' (l0 ++ l) r).
Proof.
  intros Hc Hr Hf.
  assert (∀ message, drives s (abandon fuel context id message : sp (PluginRunResult output)) (λ s' l r, final s' (l0 ++ l) r)) as Habandon.
  { intros message. eapply drives_lost; [done|done|by eapply drives_abandon]. }
  unfold run_spawned. apply drives_quiet; [auto with cm|]. intros []; [|apply Habandon].
  apply drives_quiet; [auto with cm|]. intros []; [|apply Habandon]. cbn [negb].
  apply drives_quiet; [apply quiet_set_nonblocking|]. intros [[]|]; [|apply Habandon].
  apply drives_quiet; [apply quiet_set_nonblocking|]. intros [[]|]; [|apply Habandon].
  by apply drives_readers.
Qed.

Lemma drives_run loops fuel (context : PluginContext) :
  drives born (run_plugin_subprocess loops fuel context : sp _) final.
Proof.
  eapply drives_step; [done|]. apply drives_quiet; [apply quiet_timed_out|].
  intros []; [apply drives_ret; split; [done|by split; [|left]]|].
  apply drives_quiet; [auto with cm|]. intros [id|error].
  - eapply drives_step; [done|]. case_decide as Hid.
    + eapply drives_bind; [by eapply drives_kill_child|]. intros s1 l1 [] ->. apply drives_quiet; [auto with cm|]. intros [x|e].
      * eapply drives_step; [done|]. apply drives_ret. split; [done|by right].
      * apply drives_quiet; [auto with cm|]. intros []. apply drives_ret. split; [done|by right].
    + apply (drives_run_spawned _ _ _ _ _ [BoundaryStarted; Spawned id]); done.
  - apply drives_quiet; [apply quiet_timed_out|]. intros []; apply drives_ret; (split; [done|]); [by split; [|left]|done].
Qed.

End Spec.
End SubprocessSpec.
