(* ===== verification/SubprocessBounds.v ===== *)
(** * A plugin process ends in time

    For a context with a deadline every loop of [run_plugin_subprocess] is bounded by the
    clock: the poll loop by the deadline, the waits and the drains by their graces. *)

From S2P Require Import Prelude.
From S2P Require Import Traced.
From S2P Require Import Fueled.
From S2P Require Import PluginRun.
From S2P Require Import Pipeline.
From S2P Require Import Subprocess.
From S2P Require Import SubprocessSpec.

Module SubprocessBounds.
Export SubprocessSpec.
#[local] Open Scope Z_scope.

(** Time does not go back, a sleep takes its time, and an interrupted wait some of it. *)
Class SubprocessTime (E X : Type) {clock : Clock E} {ops : SubprocessOps E X} (elapsed : E → Z) : Prop := {
  now_elapsed e : elapsed e ≤ (instant_now e).1 ≤ elapsed (instant_now e).2;
  cancel_elapsed e : elapsed e ≤ elapsed (cancel_loaded e).2;
  spawn_elapsed e : elapsed e ≤ elapsed (command_spawn e).2;
  pipe_elapsed s e : elapsed e ≤ elapsed (take_pipe s e).2;
  get_elapsed s e : elapsed e ≤ elapsed (get_flags s e).2;
  set_elapsed s flags e : elapsed e ≤ elapsed (set_flags s flags e).2;
  kill_elapsed e : elapsed e ≤ elapsed (child_kill e);
  wait_elapsed e : elapsed e ≤ elapsed (child_wait e).2;
  wait_interrupted e : (child_wait e).1 = Err IoInterrupted → elapsed e < elapsed (child_wait e).2;
  try_elapsed e : elapsed e ≤ elapsed (child_try_wait e).2;
  group_elapsed pgid e : elapsed e ≤ elapsed (killpg_sigkill pgid e).2;
  exited_elapsed pid e : elapsed e ≤ elapsed (waitid_unreaped pid e).2;
  reaper_elapsed pid e : elapsed e ≤ elapsed (spawn_reaper pid e).2;
  reader_elapsed s e : elapsed e ≤ elapsed (spawn_reader s e).2;
  finished_elapsed s e : elapsed e ≤ elapsed (reader_finished s e).2;
  join_elapsed s e : elapsed e ≤ elapsed (reader_join s e).2;
  sleep_elapsed d e : elapsed e + Z.max 0 d ≤ elapsed (thread_sleep d e)
}.

Section Bounds.
Context {E X : Type} {clock : Clock E} {ops : SubprocessOps E X} {elapsed : E → Z} {laws : SubprocessTime E X elapsed}.
Context {Txn Ctx : Type}.
#[local] Notation sp := (fueled E (SubprocessStep X)).
#[local] Notation PluginContext := (PluginContext Txn Ctx).
#[local] Notation output := (SubprocessOutput X).
#[local] Notation age w := (elapsed (env w)).

(** It answers from [w], and not before [t]. *)
Definition until {A : Type} (t : Z) (m : sp A) (w : World E (SubprocessStep X)) : Prop := answers (λ _ w', t ≤ age w') m w.

(** It answers from everywhere, and time does not go back. *)
Definition older {A : Type} (m : sp A) : Prop := ∀ w, until (age w) m w.

Lemma older_bind {A B : Type} (m : sp A) (f : A → sp B) : older m → (∀ a, older (f a)) → older (m ≫= f).
Proof.
  intros Hm Hf w. eapply answers_bind; [apply Hm|]. intros a w' Hw. simpl in Hw.
  eapply answers_impl; [apply Hf|]. simpl. intros. lia.
Qed.
Lemma older_ret {A : Type} (a : A) : older (mret a).
Proof. intros w. by apply answers_ret. Qed.
Lemma older_ask {A : Type} (f : E → A * E) : (∀ e, elapsed e ≤ elapsed (f e).2) → older (ask f).
Proof. intros H w. by apply answers_ask. Qed.
Lemma older_step s : older (step s).
Proof. intros w. by apply answers_step. Qed.
Lemma older_now : older (now : sp Z).
Proof. intros w. apply answers_ask. pose proof (now_elapsed (env w)). simpl. lia. Qed.
Lemma older_sleep d : older (sleep d : sp unit).
Proof. intros w. apply answers_ask. pose proof (sleep_elapsed d (env w)). simpl. lia. Qed.
Lemma older_kill : older (kill_child : sp unit).
Proof. apply older_bind; [apply older_ask; intros; apply kill_elapsed|]. intros. apply older_step. Qed.

#[local] Hint Resolve older_ret older_ask older_step older_now older_sleep older_kill cancel_elapsed spawn_elapsed pipe_elapsed
  get_elapsed set_elapsed wait_elapsed try_elapsed group_elapsed exited_elapsed reaper_elapsed reader_elapsed
  finished_elapsed join_elapsed : cm.
Ltac solve_older := repeat (intros; first [solve [eauto with cm] | case_match | apply older_bind]).

Lemma older_timed_out (context : PluginContext) : older (timed_out context : sp bool).
Proof. unfold timed_out. solve_older. Qed.
Lemma older_time_left (context : PluginContext) : older (time_left context : sp (option Z)).
Proof. unfold time_left. solve_older. Qed.
Lemma older_hand pid : older (hand_to_reaper pid : sp string).
Proof. unfold hand_to_reaper. solve_older. Qed.
Lemma older_exited pid : older (child_exited_unreaped pid : sp _).
Proof. unfold child_exited_unreaped. solve_older. Qed.
Lemma older_remaining pid : older (kill_remaining_process_group pid : sp _).
Proof. unfold kill_remaining_process_group, kill_group. solve_older. Qed.
Lemma older_set_nonblocking s : older (set_nonblocking s : sp _).
Proof. unfold set_nonblocking. solve_older. Qed.
#[local] Hint Resolve older_timed_out older_time_left older_hand older_exited older_remaining older_set_nonblocking : cm.

Lemma until_bind {A B : Type} t (m : sp A) (f : A → sp B) w :
  older m → (∀ a w', age w ≤ age w' → until t (f a) w') → until t (m ≫= f) w.
Proof. intros Hm Hf. eapply answers_bind; [apply Hm|]. intros a w' Hw. by apply Hf. Qed.

Lemma until_older {A : Type} t (m : sp A) w : older m → t ≤ age w → until t m w.
Proof. intros Hm Ht. eapply answers_impl; [apply Hm|]. simpl. intros. lia. Qed.

(** *** Loops until a deadline *)

Lemma wait_finished_answers (n fuel : nat) s d w :
  (n < fuel)%nat → d ≤ age w + Z.of_nat n * OUTPUT_READER_POLL_INTERVAL → until (age w) (wait_finished fuel s d : sp unit) w.
Proof.
  revert n w. induction fuel as [|fuel IH]; intros n w Hn Hd; [lia|]. cbn [wait_finished].
  apply until_bind; [solve_older|]. intros [] w1 H1; [by apply until_older; [solve_older|]|].
  eapply answers_bind; [apply (answers_ask (λ t w', t = (instant_now (env w1)).1 ∧ age w1 ≤ t ≤ age w')); split; [done|apply now_elapsed]|].
  intros t w2 [_ [H2 H3]]. case_decide as Ht; [|apply until_older; [solve_older|lia]].
  destruct n as [|n]; [lia|].
  eapply answers_bind; [apply (answers_ask (λ _ w', age w2 + Z.max 0 OUTPUT_READER_POLL_INTERVAL ≤ age w')); apply sleep_elapsed|].
  intros [] w3 H4. eapply answers_impl; [apply (IH n); [lia|]|simpl; intros].
  all: unfold OUTPUT_READER_POLL_INTERVAL, NANOS_PER_MILLI in *; simpl in *; lia.
Qed.

(** The clock is read between the ages before and after it. *)
Lemma until_now {B : Type} t (f : Z → sp B) w :
  (∀ x w', age w ≤ x ≤ age w' → until t (f x) w') → until t (x ← now; f x) w.
Proof.
  intros Hf. eapply (answers_bind (λ x w', age w ≤ x ≤ age w')); [apply answers_ask; apply now_elapsed|]. intros x w' H. by apply Hf.
Qed.

Lemma until_sleep {B : Type} t d (f : unit → sp B) w :
  (∀ w', age w + Z.max 0 d ≤ age w' → until t (f tt) w') → until t (sleep d ≫= f) w.
Proof.
  intros Hf. eapply (answers_bind (λ _ w', age w + Z.max 0 d ≤ age w')); [apply answers_ask, sleep_elapsed|]. intros [] w' H. by apply Hf.
Qed.

Lemma until_le {A : Type} t t' (m : sp A) w : t ≤ t' → until t' m w → until t m w.
Proof. intros Ht Hm. eapply answers_impl; [exact Hm|]. simpl. intros. lia. Qed.

Lemma wait_exit_answers (n fuel : nat) pid d w :
  (n < fuel)%nat → d ≤ age w + Z.of_nat n * SUBPROCESS_POLL_INTERVAL → until (age w) (wait_exit_loop fuel pid d : sp _) w.
Proof.
  revert n w. induction fuel as [|fuel IH]; intros n w Hn Hd; [lia|]. cbn [wait_exit_loop].
  assert (∀ w1, age w ≤ age w1 → until (age w) (t ← now; if decide (d ≤ t) then message ← hand_to_reaper pid; mret (Err message)
    else _ ← sleep SUBPROCESS_POLL_INTERVAL; wait_exit_loop fuel pid d) w1) as Hagain.
  { intros w1 H1. apply until_now. intros t w2 H2. case_decide as Ht; [apply until_older; [solve_older|lia]|].
    destruct n as [|n]; [lia|]. apply until_sleep. intros w3 H3. unfold SUBPROCESS_POLL_INTERVAL, NANOS_PER_MILLI in *.
    eapply until_le; [|apply (IH n); [lia|]]; lia. }
  apply until_bind; [solve_older|]. intros [[x|]|[]] w1 H1; try (by apply Hagain); apply until_older; try done; solve_older.
Qed.

Lemma wait_loop_answers fuel pid d w :
  Z.max 0 (d - age w) < Z.of_nat fuel → until (age w) (wait_loop fuel pid d : sp _) w.
Proof.
  revert w. induction fuel as [|fuel IH]; intros w Hfuel; [lia|]. cbn [wait_loop].
  eapply (answers_bind (λ r w', age w ≤ age w' ∧ (r = Err IoInterrupted → age w < age w'))).
  { apply answers_ask. split; [apply wait_elapsed|apply wait_interrupted]. }
  intros [x|e] w1 [H1 H2]; [apply until_older; [solve_older|done]|].
  eapply (answers_bind (λ again w', age w1 ≤ age w' ∧ (again = true → e = IoInterrupted ∧ age w1 < d))).
  { destruct e; try by apply answers_ret.
    eapply (answers_bind (λ x w', age w1 ≤ x ≤ age w')); [apply answers_ask; apply now_elapsed|].
    intros x w2 H3. apply answers_ret. split; [lia|]. intros H4%bool_decide_eq_true. split; [done|lia]. }
  intros [] w2 [H3 H4]; [|apply until_older; [solve_older|lia]]. destruct (H4 eq_refl) as [-> H5]. specialize (H2 eq_refl).
  eapply until_le; [|apply IH]; lia.
Qed.

Lemma grace_answers {B : Type} t grace (f : Z → sp B) w :
  0 ≤ grace → (∀ d w', age w ≤ age w' → d ≤ age w' + grace → until t (f d) w') → until t (d ← grace_deadline grace; f d) w.
Proof.
  intros Hg Hf. eapply (answers_bind (λ d w', age w ≤ age w' ∧ d ≤ age w' + grace)); [|intros d w' []; by apply Hf].
  eapply (answers_bind (λ x w', age w ≤ x ≤ age w')); [apply answers_ask; apply now_elapsed|]. intros x w1 H1.
  unfold instant_checked_add. case_decide; [apply answers_ret; lia|].
  apply answers_ask. pose proof (now_elapsed (env w1)). simpl. lia.
Qed.

Context {fuel : nat} (Hfuel : PROCESS_EXIT_GRACE < Z.of_nat fuel).

Lemma fuel_polls : (400 < fuel)%nat.
Proof. unfold PROCESS_EXIT_GRACE, Pipeline.NANOS_PER_SEC in Hfuel. lia. Qed.

Lemma older_wait_exit pid : older (wait_for_child_exit fuel pid PROCESS_EXIT_GRACE : sp _).
Proof.
  pose proof fuel_polls. intros w. apply grace_answers; [done|]. intros d w1 H1 H2. eapply until_le; [exact H1|].
  apply (wait_exit_answers 200); [lia|]. unfold PROCESS_EXIT_GRACE, Pipeline.NANOS_PER_SEC, SUBPROCESS_POLL_INTERVAL, NANOS_PER_MILLI in *. lia.
Qed.

Lemma older_wait pid : older (wait_for_child fuel pid PROCESS_EXIT_GRACE : sp _).
Proof.
  intros w. apply grace_answers; [done|]. intros d w1 H1 H2. eapply until_le; [exact H1|]. apply wait_loop_answers.
  unfold PROCESS_EXIT_GRACE, Pipeline.NANOS_PER_SEC in *. lia.
Qed.
#[local] Hint Resolve older_wait_exit older_wait : cm.

Lemma older_kill_and_reap pid : older (kill_and_reap_process_group fuel pid : sp _).
Proof. unfold kill_and_reap_process_group, kill_group. solve_older. Qed.
#[local] Hint Resolve older_kill_and_reap : cm.
Lemma older_failed {A : Type} (context : PluginContext) message cleanup : older (failed_with_cleanup context message cleanup : sp (PluginRunResult A)).
Proof. unfold failed_with_cleanup, failed_for_context, record_cleanup_failure. solve_older. Qed.
#[local] Hint Resolve older_failed : cm.
Lemma older_abandon {A : Type} (context : PluginContext) pid message : older (abandon fuel context pid message : sp (PluginRunResult A)).
Proof. unfold abandon. solve_older. Qed.
#[local] Hint Resolve older_abandon : cm.
Lemma older_finish_exited pid : older (finish_exited fuel pid : sp (result (PluginRunResult output) X)).
Proof. unfold finish_exited, record_cleanup_failure. solve_older. Qed.
Lemma older_finish_timed_out pid : older (finish_timed_out fuel pid : sp (result (PluginRunResult output) X)).
Proof. unfold finish_timed_out, record_cleanup_failure. solve_older. Qed.

#[local] Hint Resolve older_finish_exited older_finish_timed_out : cm.

Lemma join_answers s d w :
  (∀ x, d = Some x → x ≤ age w + OUTPUT_DRAIN_GRACE) → until (age w) (join_capture fuel s d : sp StreamCapture) w.
Proof.
  pose proof fuel_polls. intros Hd. eapply (answers_bind (λ _ w', age w ≤ age w')).
  - destruct d as [x|]; [|apply answers_ret; lia]. apply (wait_finished_answers 400); [lia|]. specialize (Hd x eq_refl).
    unfold OUTPUT_DRAIN_GRACE, Pipeline.NANOS_PER_SEC, OUTPUT_READER_POLL_INTERVAL, NANOS_PER_MILLI in *. lia.
  - intros [] w1 H1. apply until_older; [solve_older|done].
Qed.

Lemma older_join_now s : older (join_capture fuel s None : sp StreamCapture).
Proof. intros w. by apply join_answers. Qed.
#[local] Hint Resolve older_join_now : cm.

Lemma older_conclude (context : PluginContext) outcome : older (conclude fuel context outcome : sp (PluginRunResult output)).
Proof.
  intros w. apply until_bind; [solve_older|]. intros [] w1 H1.
  eapply (answers_bind (λ d w', age w1 ≤ age w' ∧ ∀ x, d = Some x → x ≤ age w' + OUTPUT_DRAIN_GRACE)).
  { destruct (is_ok outcome); [|by apply answers_ret].
    eapply (answers_bind (λ x w', age w1 ≤ x ≤ age w')); [apply answers_ask; apply now_elapsed|]. intros t w2 H2.
    apply answers_ret. split; [lia|]. intros x [= <-]. lia. }
  intros d w2 [H2 Hd]. eapply (answers_bind (λ _ w', age w2 ≤ age w')); [by apply join_answers|]. intros c1 w3 H3.
  eapply (answers_bind (λ _ w', age w3 ≤ age w')); [apply join_answers; intros x Hx; specialize (Hd x Hx); simpl in H3; lia|].
  intros c2 w4 H4. apply until_older; [|simpl in *; lia]. unfold record_subprocess_timeout_output. solve_older.
Qed.

(** A context past its deadline is timed out. *)
Lemma until_timed_out {B : Type} t D (context : PluginContext) (f : bool → sp B) w :
  deadline context = Some D →
  (∀ expired w', age w ≤ age w' → (expired = false → age w < D) → until t (f expired) w') →
  until t (expired ← timed_out context; f expired) w.
Proof.
  intros HD Hf. eapply (answers_bind (λ expired w', age w ≤ age w' ∧ (expired = false → age w < D))); [|intros expired w' []; by apply Hf].
  eapply (answers_bind (λ _ w', age w ≤ age w')); [apply answers_ask, cancel_elapsed|]. intros [] w1 H1; [by apply answers_ret|].
  rewrite HD. eapply (answers_bind (λ x w', age w1 ≤ x ≤ age w')); [apply answers_ask; apply now_elapsed|]. intros x w2 H2.
  apply answers_ret. simpl in H1. split; [lia|]. intros H3%bool_decide_eq_false. lia.
Qed.

Lemma poll_loop_answers (n loops : nat) D (context : PluginContext) pid w :
  deadline context = Some D → (n < loops)%nat → D ≤ age w + Z.of_nat n * SUBPROCESS_POLL_INTERVAL →
  until (age w) (poll_loop loops fuel context pid : sp _) w.
Proof.
  intros HD. revert n w. induction loops as [|loops IH]; intros n w Hn Hd; [lia|]. cbn [poll_loop].
  eapply until_timed_out; [done|]. intros [] w1 H1 Hexp; [apply until_older; [solve_older|done]|]. specialize (Hexp eq_refl).
  apply until_bind; [solve_older|]. intros [[]|error] w2 H2; [apply until_older; [solve_older|lia]| |apply until_older; [solve_older|lia]].
  destruct n as [|n]; [lia|]. unfold time_left. rewrite HD.
  eapply (answers_bind (λ left w', age w2 ≤ age w' ∧ ∃ t, age w2 ≤ t ≤ age w' ∧ left = Some (saturating_duration_since D t))).
  { eapply (answers_bind (λ x w', age w2 ≤ x ≤ age w')); [apply answers_ask; apply now_elapsed|]. intros t w3 H3.
    apply answers_ret. split; [lia|]. by exists t. }
  intros left w3 [H3 (t & H4 & ->)]. unfold saturating_duration_since, SUBPROCESS_POLL_INTERVAL, NANOS_PER_MILLI in *.
  eapply (answers_bind (λ _ w', age w3 + Z.min (Z.max 0 (D - t)) (10 * 1000000) ≤ age w')).
  { case_decide as Hz; [apply answers_ret; lia|]. apply answers_ask.
    pose proof (sleep_elapsed (Z.min (Z.max 0 (D - t)) (10 * 1000000)) (env w3)). simpl. lia. }
  intros [] w4 H5. eapply until_le; [|apply (IH n); [lia|]]; simpl in *; lia.
Qed.

#[local] Hint Resolve older_conclude : cm.

Lemma older_start s : older (start_reader s : sp _).
Proof. unfold start_reader. solve_older. Qed.
#[local] Hint Resolve older_start : cm.

Lemma run_answers (n loops : nat) D (context : PluginContext) w :
  deadline context = Some D → (n < loops)%nat → D ≤ age w + Z.of_nat n * SUBPROCESS_POLL_INTERVAL →
  until (age w) (run_plugin_subprocess loops fuel context : sp (PluginRunResult output)) w.
Proof.
  intros HD Hn Hd. apply until_bind; [solve_older|]. intros [] w0 H0.
  apply until_bind; [solve_older|]. intros [] w1 H1; [apply until_older; [solve_older|lia]|].
  apply until_bind; [solve_older|]. intros [id|error] w2 H2; [|apply until_older; [unfold failed_for_context; solve_older|lia]].
  apply until_bind; [solve_older|]. intros [] w3 H3. case_decide; [apply until_older; [solve_older|lia]|].
  unfold run_spawned, start_readers.
  apply until_bind; [solve_older|]. intros [] w4 H4; cbn [negb]; [|apply until_older; [solve_older|lia]].
  apply until_bind; [solve_older|]. intros [] w5 H5; cbn [negb]; [|apply until_older; [solve_older|lia]].
  apply until_bind; [solve_older|]. intros [[]|] w6 H6; [|apply until_older; [solve_older|lia]].
  apply until_bind; [solve_older|]. intros [[]|] w7 H7; [|apply until_older; [solve_older|lia]].
  apply until_bind; [solve_older|]. intros [[]|] w8 H8; [|apply until_older; [solve_older|lia]].
  apply until_bind; [solve_older|]. intros [[]|] w9 H9; [|apply until_older; [solve_older|lia]].
  eapply (answers_bind (λ _ w', age w9 ≤ age w')); [eapply poll_loop_answers; [done|exact Hn|lia]|].
  intros outcome w10 H10. simpl in H10. apply until_older; [solve_older|lia].
Qed.

End Bounds.

(** C12. For a context with a deadline [run_plugin_subprocess] answers after at most as many
    polls as fit before the deadline, whatever the processes, the readers and the other
    threads do, and its steps are a run of the automaton: no signal and no wait after the
    child was reaped, and every reader that was started is joined. How long the calls
    themselves take is not bounded. A completed run has the status of the reaped child and
    the complete output of both readers; it and a timed-out one have no child left, and the
    child's group had been sent [SIGKILL] before the reaping, with the signal delivered or
    refused because there was no process left to take it. A failed run had asked for that
    kill too: it has reaped the child, or recorded the failed cleanup in the context, and a
    kill that was refused otherwise is always recorded so (a process identifier beyond
    [i32] apart, whose group is not addressed). *)
Theorem subprocess_contained {E X : Type} {clock : Clock E} {ops : SubprocessOps E X} {elapsed : E → Z}
    {laws : SubprocessTime E X elapsed} {Txn Ctx : Type} (n loops fuel : nat) (D : Z) (context : PluginContext Txn Ctx)
    (w : World E (SubprocessStep X)) :
  deadline context = Some D → PROCESS_EXIT_GRACE < Z.of_nat fuel →
  (n < loops)%nat → D ≤ elapsed (env w) + Z.of_nat n * SUBPROCESS_POLL_INTERVAL →
  ∃ r w' l s, run_plugin_subprocess loops fuel context w = (Some r, w') ∧ trace w' = trace w ++ l ∧
    observe_all born l = Some s ∧ final s l r.
Proof.
  intros HD Hfuel Hn Hd. destruct (run_answers Hfuel n loops D context w HD Hn Hd) as (r & w' & Hrun & _).
  destruct (drives_run loops fuel context w) as (l & Hl & Hfinal). rewrite Hrun in Hl, Hfinal.
  destruct (Hfinal r eq_refl) as (s & Hs & Hr). by exists r, w', l, s.
Qed.

(** A plugin that writes a byte and exits after 20 ms, and one that never does. *)
Module Example.

Record process := mkProcess { ticks : Z; exits_at : option Z }.
Definition later (d : Z) (p : process) : process := mkProcess (ticks p + Z.max 0 d) (exits_at p).
Definition exited (p : process) : bool := match exits_at p with Some t => bool_decide (t ≤ ticks p) | None => false end.

#[export] Instance clock : Clock process := λ p, (ticks p, p).

#[export] Instance ops : SubprocessOps process Z := {|
  errno_text _ := EmptyString;
  debug_lossy _ := EmptyString;
  cancel_loaded p := (false, p);
  command_spawn p := (Ok 77, p);
  take_pipe _ p := (true, p);
  get_flags _ p := (Ok 0, p);
  set_flags _ _ p := (Ok tt, p);
  child_kill p := mkProcess (ticks p) (Some (ticks p));
  child_wait p := (Ok 0, p);
  child_try_wait p := (Ok (if exited p then Some 9 else None), p);
  killpg_sigkill _ p := (None, p);
  waitid_unreaped _ p := (Ok (exited p), p);
  spawn_reaper _ p := (Ok tt, p);
  spawn_reader _ p := (Ok tt, p);
  reader_finished _ p := (true, p);
  reader_join s p := (Some (mkCapture [Byte.x2a] false None), p);
  thread_sleep := later
|}.

#[export] Instance laws : SubprocessTime process Z ticks.
Proof. split; intros; cbn; try lia. done. Qed.

Definition within (ms : Z) : PluginContext unit unit := mkContext (Some (ms * NANOS_PER_MILLI)) None None None.
Definition start (exit : option Z) : World process (SubprocessStep Z) := mkWorld (mkProcess 0 exit) [].

Lemma enough_fuel : ∃ fuel, PROCESS_EXIT_GRACE < Z.of_nat fuel.
Proof. exists (Z.to_nat (PROCESS_EXIT_GRACE + 1)). rewrite Z2Nat.id; unfold PROCESS_EXIT_GRACE, Pipeline.NANOS_PER_SEC; lia. Qed.

End Example.
Import Example.

Lemma subprocess_contained_witness :
  (run_plugin_subprocess 6 2 (within 50) (start (Some 20000000))).1 = Some (Completed (mkOutput 0 [Byte.x2a] [Byte.x2a] false false)) ∧
  (run_plugin_subprocess 6 2 (within 50) (start None)).1 = Some RunTimedOut ∧
  ∃ fuel r w l s, run_plugin_subprocess 6 fuel (within 50) (start None) = (Some r, w) ∧ trace w = l ∧
    observe_all born l = Some s ∧ final s l r.
Proof.
  split; [vm_compute; reflexivity|]. split; [vm_compute; reflexivity|]. destruct enough_fuel as [fuel Hfuel]. exists fuel.
  apply (subprocess_contained (elapsed := ticks) 5 6 fuel (50 * NANOS_PER_MILLI) (within 50) (start None)); [done|done|lia|done].
Defined.

End SubprocessBounds.
