(* ===== verification/CaptureSpawn.v ===== *)
(** * The capture-helper process (src/platform/macos/ffi/capture_spawn.rs)

    The process that runs the task-facing collectors: its spawn, the two-message
    hand-off of the task and thread rights over Mach ports, and the value that
    owns the right to wait for it. System calls are operations of [SpawnOps];
    every one may change the environment and fail. Error texts keep their fixed
    part. The release of ports is modelled where the code drops their owners;
    descriptors and libc objects close on drop without further effect.

    [fuel] bounds the polls of a helper that was killed, [retries] the waits
    interrupted in a row; the source has no such bounds. *)

From stdpp Require Import pretty.
From S2P Require Import Prelude.
From S2P Require Import Traced.
From S2P Require Import Attempt.
From S2P Require Import PipelineTypes.
From S2P Require Import PluginRun.

Module CaptureSpawn.
Export Types.
Export Traced.
Export Attempt.
Export PluginRun.

Definition CAPTURE_HELPER_RESULT_FD : Z := 3.
Definition MAX_CAPTURE_HELPER_REQUEST_BYTES : Z := 64 * 1024.
Definition CAPABILITY_HANDOFF_TIMEOUT_MS : Z := 1000.
Definition FAILED_HANDOFF_REAP_GRACE : Z := 2000 * NANOS_PER_MILLI.
Definition FAILED_HANDOFF_POLL_INTERVAL : Z := 5 * NANOS_PER_MILLI.
Definition CAPABILITY_HANDSHAKE_MESSAGE_ID : Z := 0x43485001.
Definition CAPABILITY_TRANSFER_MESSAGE_ID : Z := 0x43485002.
Definition CAPABILITY_WIRE_VERSION : Z := 1.

Definition EINTR : Z := 4.
Definition ECHILD : Z := 10.
Definition ESRCH : Z := 3.

(** A spawn failure says whether a child may still be running. *)
Record CaptureHelperSpawnError := mkSpawnError { spawn_message : string; cleanup_unproven : bool }.

(** [impl From<String>]. *)
Definition spawn_error_from (message : string) : CaptureHelperSpawnError := mkSpawnError message false.

Inductive CaptureHelperReap : Type :=
| StillRunning
| ReapExited (exit_status : Z)
| ReapSignaled (signal : Z) (core_dumped : bool)
| OwnershipLost.

(** The one owner of the wait for a helper. *)
Record CaptureHelperProcess := mkProcess { pid : Z; terminal_consumed : bool }.

Definition process_new (pid : Z) : CaptureHelperProcess := mkProcess pid false.

Inductive WaitStatus : Type :=
| WaitExited (exit_status : Z)
| WaitSignaled (signal : Z) (core_dumped : bool)
| WaitStillAlive
| WaitStopped
| WaitContinued.

(** ** Messages *)

Definition MACH_MSG_PORT_DESCRIPTOR : Z := 0.

Record PortDescriptor := mkDescriptor { descriptor_name : mach_port_t; descriptor_type : Z }.

Definition descriptor_new (port : mach_port_t) : PortDescriptor := mkDescriptor port MACH_MSG_PORT_DESCRIPTOR.
Definition descriptor_default : PortDescriptor := mkDescriptor MACH_PORT_NULL 0.

(** The fields of a Mach message the code writes or checks; [msg_complex] is the
    bit [MACH_MSGH_BITS_COMPLEX]. *)
Record MachMessage := mkMessage {
  msgh_id : Z;
  msgh_size : Z;
  msg_complex : bool;
  descriptor_count : Z;
  ports : list PortDescriptor;
  wire_version : Z;
  port_count : Z
}.

(** [size_of]: a header of 24 bytes, a body of 4, descriptors of 12 and two words. *)
Definition ONE_PORT_SIZE : Z := 24 + 4 + 12 + 8.
Definition TWO_PORT_SIZE : Z := 24 + 4 + 24 + 8.

Definition one_port_message (port : mach_port_t) : MachMessage :=
  mkMessage CAPABILITY_HANDSHAKE_MESSAGE_ID ONE_PORT_SIZE true 1 [descriptor_new port] CAPABILITY_WIRE_VERSION 1.

Definition two_port_message (task : mach_port_t) (crashed_thread : option mach_port_t) : MachMessage :=
  match crashed_thread with
  | Some thread =>
      mkMessage CAPABILITY_TRANSFER_MESSAGE_ID TWO_PORT_SIZE true 2 [descriptor_new task; descriptor_new thread]
        CAPABILITY_WIRE_VERSION 2
  | None =>
      mkMessage CAPABILITY_TRANSFER_MESSAGE_ID TWO_PORT_SIZE true 1 [descriptor_new task; descriptor_default]
        CAPABILITY_WIRE_VERSION 1
  end.

(** The descriptor at an index; the buffer behind a short message is zero. *)
Definition nth_port (m : MachMessage) (i : nat) : PortDescriptor := default descriptor_default (ports m !! i).

Definition valid_port (d : PortDescriptor) : bool :=
  (descriptor_type d =? MACH_MSG_PORT_DESCRIPTOR) && negb (descriptor_name d =? MACH_PORT_NULL).

Definition valid_handshake (m : MachMessage) : bool :=
  (msgh_id m =? CAPABILITY_HANDSHAKE_MESSAGE_ID) && (ONE_PORT_SIZE <=? msgh_size m) && msg_complex m &&
  (descriptor_count m =? 1) && valid_port (nth_port m 0) && (wire_version m =? CAPABILITY_WIRE_VERSION) &&
  (port_count m =? 1).

Definition valid_transfer (m : MachMessage) (expect_crashed_thread : bool) : bool :=
  let expected_count := if expect_crashed_thread then 2 else 1 in
  (msgh_id m =? CAPABILITY_TRANSFER_MESSAGE_ID) && (TWO_PORT_SIZE <=? msgh_size m) && msg_complex m &&
  (descriptor_count m =? expected_count) && (port_count m =? expected_count) &&
  (wire_version m =? CAPABILITY_WIRE_VERSION) && valid_port (nth_port m 0) &&
  (negb expect_crashed_thread || valid_port (nth_port m 1)).

(** ** System calls *)

(** Calls that only answer with a return code. *)
Inductive LibcCall : Type :=
| FileActionsInit
| AddDup2 (source target : Z)
| AddClose (fd : Z)
| SpawnAttrInit
| SetFlags
| SetExceptionPort (port : mach_port_t)
| InsertSendRight (port : mach_port_t)
| ClearExceptionPort.

(** [waitpid] is the non-blocking wait, [kill] sends SIGKILL; both answer with an
    errno on failure. [posix_spawn] answers a return code and a pid.
    [exception_port] is [task_get_exception_ports] for one mask. *)
Class SpawnOps (E : Type) := {
  waitpid : Z → E → result Z WaitStatus * E;
  kill : Z → E → option Z * E;
  thread_sleep : Z → E → E;
  errno_display : Z → string;
  libc_call : LibcCall → E → Z * E;
  environment_has_nul : E → bool;
  duplicate_fd : Z → E → result string Z * E;
  mach_port_allocate : E → Z * mach_port_t * E;
  mach_port_release : mach_port_t → E → E;
  mach_send : mach_port_t → MachMessage → Z → E → Z * E;
  mach_receive : mach_port_t → Z → E → result Z MachMessage * E;
  mach_msg_destroy : MachMessage → E → E;
  posix_spawn : string → string → E → Z * Z * E;
  exception_port : E → result Z (Z * bool * mach_port_t) * E;
  result_fd_flags : E → result string bool * E;
  result_fd_taken : E → bool;
  take_result_fd : E → E
}.

(** What the spawning process does with helper processes. *)
Inductive HelperStep : Type :=
| Spawned (pid : Z)
| Waited (pid : Z) (reply : result Z WaitStatus)
| Killed (pid : Z) (error : option Z).

Notation World E := (Traced.World E HelperStep).
Notation pipe E := (traced E HelperStep).
Notation fallible E := (attempt (World E)).

Section Spawn.
Context {E : Type} {clock : Clock E} {ops : SpawnOps E}.
Context (fuel retries : nat).
#[local] Notation pipe := (traced E HelperStep).
#[local] Notation fallible := (attempt (World E)).

Definition now : pipe Z := lift instant_now.

(** A traced computation with an error as its value is a fallible one. *)
Definition try {A : Type} (m : pipe (result string A)) : fallible A := m.
Definition run {A : Type} (m : pipe A) : fallible A := λ w, let '(a, w) := m w in (Ok a, w).
Definition settle {A : Type} (m : fallible A) : fallible (result string A) := λ w, let '(r, w) := m w in (Ok r, w).
Definition outcome_of {A : Type} (m : fallible A) : pipe (result string A) := m.

(** ** Waiting *)

(** One [waitpid], and again while a signal interrupts it. *)
Fixpoint wait_loop (retries : nat) (h : CaptureHelperProcess)
    : pipe (option (CaptureHelperProcess * result string CaptureHelperReap)) :=
  match retries with
  | O => mret None
  | S retries =>
      r ← lift (waitpid (pid h));
      _ ← emit (Waited (pid h) r);
      match r with
      | Ok (WaitExited exit_status) => mret (Some (mkProcess (pid h) true, Ok (ReapExited exit_status)))
      | Ok (WaitSignaled signal core_dumped) =>
          mret (Some (mkProcess (pid h) true, Ok (ReapSignaled signal core_dumped)))
      | Ok (WaitStillAlive | WaitStopped | WaitContinued) => mret (Some (h, Ok StillRunning))
      | Err errno =>
          if decide (errno = EINTR) then wait_loop retries h
          else if decide (errno = ECHILD) then mret (Some (mkProcess (pid h) true, Ok OwnershipLost))
          else mret (Some (h, Err ("cannot wait for capture helper " +:+ pretty (pid h) +:+ ": " +:+ errno_display errno)%string))
      end
  end.

Definition poll_reap (h : CaptureHelperProcess)
    : pipe (option (CaptureHelperProcess * result string CaptureHelperReap)) :=
  if terminal_consumed h then mret (Some (h, Ok OwnershipLost)) else wait_loop retries h.

Definition send_kill (h : CaptureHelperProcess) : pipe (option Z) :=
  r ← lift (kill (pid h));
  _ ← emit (Killed (pid h) r);
  mret r.

Definition ownership_lost (h : CaptureHelperProcess) : string :=
  ("capture helper " +:+ pretty (pid h) +:+ " wait ownership was lost (ECHILD)")%string.

Fixpoint reap_failed_handoff (fuel : nat) (h : CaptureHelperProcess) (deadline : Z)
    : pipe (option (result string unit)) :=
  match fuel with
  | O => mret None
  | S fuel =>
      polled ← poll_reap h;
      match polled with
      | None => mret None
      | Some (_, Err error) => mret (Some (Err error))
      | Some (_, Ok (ReapExited _ | ReapSignaled _ _)) => mret (Some (Ok tt))
      | Some (h, Ok OwnershipLost) => mret (Some (Err (ownership_lost h)))
      | Some (h, Ok StillRunning) =>
          t ← now;
          if decide (deadline ≤ t)
          then mret (Some (Err ("helper " +:+ pretty (pid h) +:+ " was not reaped after SIGKILL")%string))
          else _ ← effect (thread_sleep FAILED_HANDOFF_POLL_INTERVAL); reap_failed_handoff fuel h deadline
      end
  end.

Definition kill_and_reap_failed_handoff (h : CaptureHelperProcess) : pipe (option (result string unit)) :=
  r ← send_kill h;
  match r with
  | Some errno =>
      if decide (errno ≠ ESRCH)
      then mret (Some (Err ("cannot kill helper " +:+ pretty (pid h) +:+ ": " +:+ errno_display errno)%string))
      else t ← now; reap_failed_handoff fuel h (t + FAILED_HANDOFF_REAP_GRACE)
  | None => t ← now; reap_failed_handoff fuel h (t + FAILED_HANDOFF_REAP_GRACE)
  end.

(** ** The hand-off *)

Definition errno_style_error (operation : string) (rc : Z) : string :=
  (operation +:+ " failed: rc=" +:+ pretty rc)%string.

Definition libc (operation : string) (c : LibcCall) : fallible unit :=
  rc ← run (lift (libc_call c));
  if decide (rc ≠ 0) then fail (errno_style_error operation rc) else mret tt.

Definition release_port (port : mach_port_t) : pipe unit := effect (mach_port_release port).

Definition allocate_receive_right : fallible mach_port_t :=
  '(kr, port) ← run (lift (λ e, let '(kr, port, e) := mach_port_allocate e in ((kr, port), e)));
  if decide (kr ≠ 0) then fail "mach_port_allocate(capture handoff) failed" else
  insert ← run (lift (libc_call (InsertSendRight port)));
  if decide (insert ≠ 0) then
    _ ← run (release_port port);
    fail "mach_port_insert_right(capture handoff) failed"
  else mret port.

Definition send_one_port (remote port : mach_port_t) : fallible unit :=
  kr ← run (lift (mach_send remote (one_port_message port) CAPABILITY_HANDOFF_TIMEOUT_MS));
  if decide (kr = 0) then mret tt else fail "capture capability handshake send failed".

Definition send_capabilities (remote task : mach_port_t) (crashed_thread : option mach_port_t)
    (timeout_ms : Z) : fallible unit :=
  kr ← run (lift (mach_send remote (two_port_message task crashed_thread) timeout_ms));
  if decide (kr = 0) then mret tt else fail "capture capability transfer failed".

Definition receive_message (port : mach_port_t) (timeout_ms : Z) : fallible MachMessage :=
  r ← run (lift (mach_receive port timeout_ms));
  match r with
  | Ok m => mret m
  | Err _ => fail "capture capability receive failed"
  end.

Definition receive_one_port (port : mach_port_t) (timeout_ms : Z) : fallible mach_port_t :=
  m ← receive_message port timeout_ms;
  if valid_handshake m then mret (descriptor_name (nth_port m 0)) else
  _ ← run (effect (mach_msg_destroy m));
  fail "invalid capture capability handshake message".

Definition receive_capabilities (port : mach_port_t) (expect_crashed_thread : bool)
    : fallible (mach_port_t * option mach_port_t) :=
  m ← receive_message port CAPABILITY_HANDOFF_TIMEOUT_MS;
  if valid_transfer m expect_crashed_thread then
    mret (descriptor_name (nth_port m 0),
          if expect_crashed_thread then Some (descriptor_name (nth_port m 1)) else None)
  else
  _ ← run (effect (mach_msg_destroy m));
  fail "invalid capture capability transfer message".

(** ** The spawn *)

Definition contains_nul (s : string) : bool := existsb (λ c, Ascii.eqb c Ascii.zero) (String.list_ascii_of_string s).
Definition byte_len (s : string) : Z := Z.of_nat (String.length s).

Definition validate_capture_helper_spawn (executable request_json : string) (result_fd : Z)
    (task : mach_port_t) (crashed_thread : option mach_port_t) : result string unit :=
  (if decide (executable = "") then Err "capture-helper executable path is empty"
   else if contains_nul executable then Err "capture-helper executable path contains a null byte"
   else if decide (request_json = "") then Err "capture-helper request JSON is empty"
   else if decide (MAX_CAPTURE_HELPER_REQUEST_BYTES < byte_len request_json) then
     Err "capture-helper request exceeds its limit"
   else if contains_nul request_json then Err "capture-helper request JSON contains a null byte"
   else if decide (result_fd < 0) then Err "capture-helper result descriptor is invalid"
   else if decide (task = MACH_PORT_NULL) then Err "capture-helper target task port is null"
   else if decide (crashed_thread = Some MACH_PORT_NULL) then Err "capture-helper crashed-thread port is null"
   else Ok tt)%string.

Definition inherited_environment : fallible unit :=
  nul ← run (look environment_has_nul);
  if (nul : bool) then fail "capture-helper environment contains a null byte" else mret tt.

(** File actions and attributes. *)
Definition prepare_spawn (duplicated_fd : Z) (handoff : mach_port_t) : fallible unit :=
  _ ← libc "posix_spawn_file_actions_init" FileActionsInit;
  _ ← libc "posix_spawn_file_actions_adddup2" (AddDup2 duplicated_fd CAPTURE_HELPER_RESULT_FD);
  _ ← libc "posix_spawn_file_actions_addclose" (AddClose duplicated_fd);
  _ ← libc "posix_spawnattr_init" SpawnAttrInit;
  _ ← libc "posix_spawnattr_setflags" SetFlags;
  libc "posix_spawnattr_setexceptionports_np" (SetExceptionPort handoff).

Definition timeout_millis_until (deadline : Z) : pipe Z :=
  t ← now;
  mret (Z.min U32_MAX (Z.max 1 (as_millis (saturating_duration_since deadline t)))).

(** The two messages with the new child; the control right is dropped after. *)
Definition transfer (handoff task : mach_port_t) (crashed_thread : option mach_port_t) (handoff_deadline : Z)
    : fallible unit :=
  timeout ← run (timeout_millis_until handoff_deadline);
  control ← receive_one_port handoff timeout;
  timeout ← run (timeout_millis_until handoff_deadline);
  sent ← settle (send_capabilities control task crashed_thread timeout);
  _ ← run (release_port control);
  of_result sent.

(** From [posix_spawn] on; the child exists when it answers 0. *)
Definition spawn_and_transfer (executable request_json : string) (handoff task : mach_port_t)
    (crashed_thread : option mach_port_t) (handoff_timeout : Z)
    : pipe (option (result CaptureHelperSpawnError CaptureHelperProcess)) :=
  '(rc, child_pid) ← lift (λ e, let '(rc, p, e) := posix_spawn executable request_json e in ((rc, p), e));
  if decide (rc ≠ 0) then mret (Some (Err (spawn_error_from (errno_style_error "posix_spawn(capture-helper)" rc)))) else
  _ ← emit (Spawned child_pid);
  if decide (child_pid ≤ 0) then
    mret (Some (Err (mkSpawnError "posix_spawn(capture-helper) returned invalid child pid" true)))
  else
  let child := process_new child_pid in
  t ← now;
  let handoff_deadline := t + Z.min handoff_timeout (1000 * NANOS_PER_MILLI) in
  transferred ← outcome_of (transfer handoff task crashed_thread handoff_deadline);
  match transferred with
  | Ok _ => mret (Some (Ok child))
  | Err error =>
      let message := ("capture-helper capability handoff failed: " +:+ error)%string in
      cleanup ← kill_and_reap_failed_handoff child;
      mret (match cleanup with
            | None => None
            | Some (Ok _) => Some (Err (mkSpawnError message false))
            | Some (Err cleanup_error) =>
                Some (Err (mkSpawnError (message +:+ "; cleanup failed: " +:+ cleanup_error)%string true))
            end)
  end.

(** Everything that fails before a child exists, with the hand-off right. *)
Definition spawn_resources (executable request_json : string) (result_fd : Z) (task : mach_port_t)
    (crashed_thread : option mach_port_t) : fallible (Z * mach_port_t) :=
  _ ← of_result (validate_capture_helper_spawn executable request_json result_fd task crashed_thread);
  _ ← inherited_environment;
  duplicated_fd ← try (lift (duplicate_fd result_fd));
  handoff ← allocate_receive_right;
  mret (duplicated_fd, handoff).

Definition spawn_capture_helper (executable request_json : string) (result_fd : Z) (task : mach_port_t)
    (crashed_thread : option mach_port_t) (handoff_timeout : Z)
    : pipe (option (result CaptureHelperSpawnError CaptureHelperProcess)) :=
  resources ← outcome_of (spawn_resources executable request_json result_fd task crashed_thread);
  match resources with
  | Err error => mret (Some (Err (spawn_error_from error)))
  | Ok (duplicated_fd, handoff) =>
      prepared ← outcome_of (prepare_spawn duplicated_fd handoff);
      spawned ← match prepared with
                | Err error => mret (Some (Err (spawn_error_from error)))
                | Ok _ => spawn_and_transfer executable request_json handoff task crashed_thread handoff_timeout
                end;
      _ ← release_port handoff;
      mret spawned
  end.

(** ** The helper's side *)

(** The transport is cleared before any collector runs. *)
Definition inherited_transport_port : fallible mach_port_t :=
  r ← run (lift exception_port);
  match r with
  | Err _ => fail "task_get_exception_ports failed"
  | Ok (count, matches, port) =>
      if negb (count =? 1) || negb matches then fail "task_get_exception_ports returned no matching handler" else
      if decide (port = MACH_PORT_NULL) then fail "task_get_exception_ports returned a null port" else
      clear ← run (lift (libc_call ClearExceptionPort));
      if decide (clear ≠ 0) then
        _ ← run (release_port port);
        fail "task_set_exception_ports(clear) failed"
      else mret port
  end.

Definition inherited_capture_ports (expect_crashed_thread : bool) : fallible (mach_port_t * option mach_port_t) :=
  parent_handoff ← inherited_transport_port;
  received ← settle (
    control ← allocate_receive_right;
    r ← settle (_ ← send_one_port parent_handoff control; receive_capabilities control expect_crashed_thread);
    _ ← run (release_port control);
    of_result r);
  _ ← run (release_port parent_handoff);
  of_result received.

(** Descriptor 3, taken once. [result_fd_flags] tells whether it can be written. *)
Definition capture_result_file : fallible unit :=
  r ← run (lift result_fd_flags);
  match r with
  | Err _ => fail "capture-helper result descriptor is unavailable"
  | Ok false => fail "capture-helper result descriptor is read-only"
  | Ok true =>
      taken ← run (look result_fd_taken);
      if (taken : bool) then fail "capture-helper result descriptor was already taken"
      else run (effect take_result_fd)
  end.

End Spawn.
End CaptureSpawn.
