(* ===== verification/CaptureIsolation.v ===== *)
(** * Killable process boundary for collectors (src/pipeline/capture_isolation.rs)

    The request that names the task-facing collectors, the helper that runs them
    and writes one framed result, and the supervisor that polls the helper until
    it is reaped or its deadline passes. Serialization is a pair of functions of
    the interface [WireOps], with the law that decoding undoes encoding where a
    theorem needs it. *)

From stdpp Require Import pretty.
From S2P Require Import Prelude.
From S2P Require Import Traced.
From S2P Require Import Attempt.
From S2P Require Import Config.
From S2P Require Import PipelineTypes.
From S2P Require Import PluginRun.
From S2P Require Import Pipeline.
From S2P Require Import CaptureSpawn.

Module CaptureIsolation.
Export Pipeline.
Export CaptureSpawn.

Definition CAPTURE_WIRE_VERSION : Z := 2.
Definition MAX_CAPTURE_WIRE_BYTES : Z := 64 * 1024 * 1024.
Definition HELPER_POLL_INTERVAL : Z := 5 * NANOS_PER_MILLI.
Definition HELPER_REAP_GRACE : Z := 2 * NANOS_PER_SEC.
Definition DEFAULT_COLLECTOR_TIMEOUT : Z := 5 * NANOS_PER_SEC.

Inductive TaskCollectorKind : Type := ThreadKind | MemoryKind | DylibKind.

#[export] Instance TaskCollectorKind_eq_dec : EqDecision TaskCollectorKind.
Proof. solve_decision. Defined.

Record TaskCollectorSpec := mkSpec { spec_kind : TaskCollectorKind; spec_timeout : option Z }.

Record TaskCaptureRequest := mkRequest {
  request_version : Z;
  request_event : CrashEvent;
  request_stack_memory : bool;
  request_collectors : list TaskCollectorSpec;
  expect_crashed_thread : bool
}.

Record TaskCaptureData := mkCaptureData {
  data_threads : list RawThreadData;
  data_images : list RawImageData;
  data_memory_map : list VmRegionInfo;
  data_heap : RawHeapData
}.

Definition capture_data_default : TaskCaptureData := mkCaptureData [] [] [] (mkHeapData None []).

Record TaskCaptureDiagnostic := mkWireDiagnostic {
  wire_name : string;
  wire_status : PluginStatus;
  wire_duration_ms : Z;
  wire_report_id : option string;
  wire_started_offset_ms : Z;
  wire_finished_offset_ms : Z
}.

Record TaskCaptureResult := mkCaptureResult {
  result_version : Z;
  result_data : TaskCaptureData;
  result_diagnostics : list TaskCaptureDiagnostic
}.

(** The two [From] conversions. *)
Definition to_wire (d : PluginDiagnostic) : TaskCaptureDiagnostic :=
  mkWireDiagnostic (diagnostic_name d) (status d) (duration_ms d) (diagnostic_report_id d)
    (started_offset_ms d) (finished_offset_ms d).

Definition from_wire (d : TaskCaptureDiagnostic) : PluginDiagnostic :=
  mkDiagnostic (wire_name d) (wire_status d) (wire_duration_ms d) (wire_report_id d)
    (wire_started_offset_ms d) (wire_finished_offset_ms d).

Inductive IsolatedCaptureOutcome : Type :=
| CaptureCompleted (data : TaskCaptureData) (plugins : list PluginDiagnostic)
| CaptureTimedOut
| CaptureFailed (error : string)
| CleanupUnproven (error : string).

(** ** Interfaces *)

(** [Bytes] are encoded results and [F] an open file. [decode_message] also tells
    how many bytes it consumed. [new_collector] constructs the collector of a
    kind (src/collectors/). *)
Class WireOps (E Txn Bytes F : Type) := {
  encode_request : TaskCaptureRequest → result string string;
  decode_request : string → result string TaskCaptureRequest;
  encode_result : TaskCaptureResult → result string Bytes;
  decode_message : Bytes → result string TaskCaptureResult * Z;
  byte_length : Bytes → Z;
  current_exe : E → result string string * E;
  tempfile : E → result string F * E;
  as_raw_fd : F → Z;
  file_length : F → E → result string Z * E;
  file_rewind : F → E → result string unit * E;
  file_read_to_end : F → E → result string Bytes * E;
  write_result : Bytes → E → result string unit * E;
  sync_result : E → result string unit * E;
  deallocate_ports : list mach_port_t → E → E;
  new_collector : TaskCollectorKind → bool → Collector E Txn
}.

Section Isolation.
Context {E Txn Bytes F : Type} {clock : Clock E} {spawn : SpawnOps E} {wire : WireOps E Txn Bytes F}.
Context (fuel retries : nat).
#[local] Notation pipe := (traced E HelperStep).
#[local] Notation fallible := (attempt (World E)).
Notation Pipeline := (Pipeline E Txn).

(** ** The request *)

Definition collector_kind (n : string) : option TaskCollectorKind :=
  if decide (n = "ThreadCollector"%string) then Some ThreadKind
  else if decide (n = "MemoryCollector"%string) then Some MemoryKind
  else if decide (n = "DylibCollector"%string) then Some DylibKind else None.

Fixpoint collector_specs (cs : list (Collector E Txn)) : result string (list TaskCollectorSpec) :=
  match cs with
  | [] => Ok []
  | c :: cs =>
      if decide (access c ≠ IsolatedTask) then collector_specs cs else
      kind ← ok_or (collector_kind (name (collector_plugin c)))
        ("task-facing collector '" +:+ name (collector_plugin c) +:+ "' has no capture-helper implementation")%string;
      specs ← collector_specs cs;
      Ok (mkSpec kind (resolve (timeout (collector_plugin c)) DEFAULT_COLLECTOR_TIMEOUT) :: specs)
  end.

Definition from_pipeline (p : Pipeline) (event : CrashEvent) : result string (option TaskCaptureRequest) :=
  specs ← collector_specs (collectors p);
  Ok (match specs with
      | [] => None
      | _ =>
          Some (mkRequest CAPTURE_WIRE_VERSION event (capture_stack_memory (collection_policy p)) specs
                  (bool_decide (is_Some (crashed_thread event))))
      end).

(** ** The helper *)

(** One collector in its own context, recorded with its status. *)
Definition run_spec (event : CrashEvent) (stack_memory : bool) (task : mach_port_t) (spec : TaskCollectorSpec)
    (data : CollectedData) (d : Diagnostics) : pipe (CollectedData * Diagnostics) :=
  let c := new_collector (spec_kind spec) stack_memory in
  context ← lift (from_timeout (spec_timeout spec));
  started ← now;
  '(data, outcome) ← lift (λ e, let '((data, _, e), r) :=
      run_plugin_cooperative context (collect c event task) (data, fresh_cells false, e) in ((data, r), e));
  t ← now;
  finished ← now;
  mret (data, record d (name (collector_plugin c)) (plugin_status (outcome : PluginRunResult unit))
                (saturating_duration_since t started) finished).

Fixpoint run_specs (event : CrashEvent) (stack_memory : bool) (task : mach_port_t) (specs : list TaskCollectorSpec)
    (data : CollectedData) (d : Diagnostics) : pipe (CollectedData * Diagnostics) :=
  match specs with
  | [] => mret (data, d)
  | spec :: specs =>
      '(data, d) ← run_spec event stack_memory task spec data d;
      run_specs event stack_memory task specs data d
  end.

Definition with_crashed_thread (event : CrashEvent) (thread : option mach_port_t) : CrashEvent :=
  mkCrashEvent (report_id event) (report_type event) (termination event) (exception_type event)
    (exception_code event) (exception_subcode event) (exception_codes event) thread
    (bail_on_suspend_failure event) (event_pid event) (process_name event) (hang_duration_ms event).

Definition capture_result (data : CollectedData) (d : Diagnostics) : TaskCaptureResult :=
  mkCaptureResult CAPTURE_WIRE_VERSION
    (mkCaptureData (threads (raw data)) (images (raw data)) (memory_map (raw data)) (heap (raw data)))
    (to_wire <$> plugins d).

(** What the collectors gather, once the ports are there; the thread ports are
    released before the result is written. *)
Definition collect_in_helper (request : TaskCaptureRequest) (task : mach_port_t) (thread : option mach_port_t)
    : pipe TaskCaptureResult :=
  t ← now;
  '(data, d) ← run_specs (with_crashed_thread (request_event request) thread) (request_stack_memory request) task
                 (request_collectors request) collected_default (diagnostics_new t);
  _ ← effect (deallocate_ports (thread_port <$> threads (raw data)));
  mret (capture_result data d).

Definition write_capture_result (r : TaskCaptureResult) : fallible unit :=
  _ ← capture_result_file;
  encoded ← of_result (encode_result r);
  if decide (MAX_CAPTURE_WIRE_BYTES < byte_length encoded) then fail "capture-helper result exceeds its limit" else
  _ ← try (lift (write_result encoded));
  try (lift sync_result).

Definition run_capture_helper (request_json : string) : fallible unit :=
  request ← of_result (decode_request request_json);
  if decide (request_version request ≠ CAPTURE_WIRE_VERSION) then fail "unsupported capture-helper wire version" else
  '(task, thread) ← inherited_capture_ports (expect_crashed_thread request);
  r ← run (collect_in_helper request task thread);
  written ← settle (write_capture_result r);
  _ ← run (effect (λ e, let e := match thread with Some port => mach_port_release port e | None => e end in
                        mach_port_release task e));
  of_result written.

(** ** The supervisor *)

Definition decode_bytes (length : Z) (encoded : Bytes) : IsolatedCaptureOutcome :=
  match decode_message encoded with
  | (Err _, _) => CaptureFailed "cannot decode capture-helper result"
  | (Ok r, consumed) =>
      if decide (consumed ≠ byte_length encoded) then CaptureFailed "capture-helper decoder left bytes over" else
      if decide (result_version r ≠ CAPTURE_WIRE_VERSION) then
        CaptureFailed "unsupported capture-helper result version"
      else CaptureCompleted (result_data r) (from_wire <$> result_diagnostics r)
  end.

Definition decode_result (f : F) : pipe IsolatedCaptureOutcome :=
  length ← lift (file_length f);
  match length with
  | Err _ => mret (CaptureFailed "cannot inspect capture-helper result")
  | Ok length =>
      if decide (length = 0 ∨ MAX_CAPTURE_WIRE_BYTES < length) then
        mret (CaptureFailed "capture-helper result size is invalid")
      else
      rewound ← lift (file_rewind f);
      match rewound with
      | Err _ => mret (CaptureFailed "cannot rewind capture-helper result")
      | Ok _ =>
          encoded ← lift (file_read_to_end f);
          match encoded with
          | Err _ => mret (CaptureFailed "cannot read capture-helper result")
          | Ok encoded => mret (decode_bytes length encoded)
          end
      end
  end.

Fixpoint reap_timed_out (fuel : nat) (h : CaptureHelperProcess) (cleanup_deadline : Z)
    : pipe (option IsolatedCaptureOutcome) :=
  match fuel with
  | O => mret None
  | S fuel =>
      polled ← poll_reap retries h;
      match polled with
      | None => mret None
      | Some (_, Ok (ReapExited _ | ReapSignaled _ _)) => mret (Some CaptureTimedOut)
      | Some (h, Ok OwnershipLost) => mret (Some (CleanupUnproven ("timed-out " +:+ ownership_lost h)%string))
      | Some (h, Err error) =>
          mret (Some (CleanupUnproven ("cannot reap timed-out capture helper " +:+ pretty (pid h) +:+ ": " +:+ error)%string))
      | Some (h, Ok StillRunning) =>
          t ← now;
          if decide (cleanup_deadline ≤ t) then
            mret (Some (CleanupUnproven ("capture helper " +:+ pretty (pid h) +:+ " was not reaped after SIGKILL")%string))
          else _ ← effect (thread_sleep HELPER_POLL_INTERVAL); reap_timed_out fuel h cleanup_deadline
      end
  end.

Definition kill_and_reap_timed_out_helper (h : CaptureHelperProcess) : pipe (option IsolatedCaptureOutcome) :=
  r ← send_kill h;
  match r with
  | Some errno =>
      if decide (errno ≠ ESRCH) then
        mret (Some (CleanupUnproven ("cannot kill timed-out capture helper " +:+ pretty (pid h) +:+ ": " +:+ errno_display errno)%string))
      else t ← now; reap_timed_out fuel h (t + HELPER_REAP_GRACE)
  | None => t ← now; reap_timed_out fuel h (t + HELPER_REAP_GRACE)
  end.

Fixpoint supervise (polls : nat) (h : CaptureHelperProcess) (f : F) (deadline : Z)
    : pipe (option IsolatedCaptureOutcome) :=
  match polls with
  | O => mret None
  | S polls =>
      polled ← poll_reap retries h;
      match polled with
      | None => mret None
      | Some (_, Ok (ReapExited exit_status)) =>
          if decide (exit_status = 0) then outcome ← decode_result f; mret (Some outcome)
          else mret (Some (CaptureFailed ("capture helper exited with status " +:+ pretty exit_status)%string))
      | Some (_, Ok (ReapSignaled signal _)) =>
          mret (Some (CaptureFailed ("capture helper terminated by signal " +:+ pretty signal)%string))
      | Some (h, Ok OwnershipLost) => mret (Some (CleanupUnproven (ownership_lost h)))
      | Some (_, Err error) => mret (Some (CleanupUnproven error))
      | Some (h, Ok StillRunning) =>
          t ← now;
          if decide (deadline ≤ t) then kill_and_reap_timed_out_helper h else
          t ← now;
          _ ← effect (thread_sleep (Z.min HELPER_POLL_INTERVAL (saturating_duration_since deadline t)));
          supervise polls h f deadline
      end
  end.

Definition run_isolated_capture (request : TaskCaptureRequest) (f : F) (task : mach_port_t) (deadline : Z)
    : pipe (option IsolatedCaptureOutcome) :=
  t ← now;
  if decide (deadline ≤ t) then mret (Some CaptureTimedOut) else
  executable ← lift current_exe;
  match executable with
  | Err _ => mret (Some (CaptureFailed "cannot locate capture-helper executable"))
  | Ok executable =>
      match encode_request request with
      | Err error => mret (Some (CaptureFailed ("cannot encode capture-helper request: " +:+ error)%string))
      | Ok request_json =>
          t ← now;
          helper ← spawn_capture_helper fuel retries executable request_json (as_raw_fd f) task
                     (crashed_thread (request_event request)) (saturating_duration_since deadline t);
          match helper with
          | None => mret None
          | Some (Err error) =>
              mret (Some (if cleanup_unproven error then CleanupUnproven (spawn_message error)
                          else CaptureFailed (spawn_message error)))
          | Some (Ok h) => supervise fuel h f deadline
          end
      end
  end.

End Isolation.
End CaptureIsolation.
