(* ===== verification/CaptureHelperSpec.v ===== *)
(** * What the capture helper promises

    Three contracts of [CaptureSpawn] and [CaptureIsolation]: the supervisor's
    verdict tells whether every helper it started was seen to end; it always
    comes, within a number of polls fixed by the deadline; and the data it hands
    over is exactly what the collectors recorded in the helper. *)

From S2P Require Import Prelude.
From S2P Require Import Traced.
From S2P Require Import Attempt.
From S2P Require Import Config.
From S2P Require Import PipelineTypes.
From S2P Require Import PluginRun.
From S2P Require Import Pipeline.
From S2P Require Import CaptureSpawn.
From S2P Require Import CaptureIsolation.

Module CaptureHelperSpec.
Export CaptureIsolation.

(** ** Verdicts *)

(** A reply that proves the helper's end. *)
Definition terminal (r : result Z WaitStatus) : bool :=
  match r with Ok (WaitExited _ | WaitSignaled _ _) => true | _ => false end.

(** A step that proves nothing. *)
Definition pending (p : Z) (s : HelperStep) : Prop :=
  match s with
  | Waited q r => q = p ∧ terminal r = false
  | Killed q _ => q = p
  | Spawned _ => False
  end.

Definition is_kill (s : HelperStep) : bool := match s with Killed _ _ => true | _ => false end.

(** The steps of a supervised helper with the verdict on it. *)
Inductive helper_run : list HelperStep → IsolatedCaptureOutcome → Prop :=
| no_helper_late : helper_run [] CaptureTimedOut
| no_helper_failed error : helper_run [] (CaptureFailed error)
| helper_completed p polls data plugins :
    Forall (pending p) polls → existsb is_kill polls = false →
    helper_run (Spawned p :: polls ++ [Waited p (Ok (WaitExited 0))]) (CaptureCompleted data plugins)
| helper_failed p polls r error :
    Forall (pending p) polls → terminal r = true →
    helper_run (Spawned p :: polls ++ [Waited p r]) (CaptureFailed error)
| helper_killed p polls r :
    Forall (pending p) polls → existsb is_kill polls = true → terminal r = true →
    helper_run (Spawned p :: polls ++ [Waited p r]) CaptureTimedOut
| helper_unproven p polls error :
    Forall (pending p) polls → helper_run (Spawned p :: polls) (CleanupUnproven error).

(** An unproven cleanup is a helper that was started and not seen to end. *)
Lemma unproven_exact l out :
  helper_run l out →
  (∃ error, out = CleanupUnproven error) ↔ ∃ p, Spawned p ∈ l ∧ ∀ r, terminal r = true → Waited p r ∉ l.
Proof.
  assert (∀ p q polls, Forall (pending p) polls → Spawned q ∉ polls) as Hspawn.
  { intros p q polls Hp Hq. rewrite Forall_forall in Hp. by destruct (Hp _ Hq). }
  assert (∀ p polls r, Forall (pending p) polls → terminal r = true → Waited p r ∉ polls) as Hwait.
  { intros p polls r Hp Hr Hq. rewrite Forall_forall in Hp. destruct (Hp _ Hq). congruence. }
  assert (∀ p polls r out, Forall (pending p) polls → terminal r = true → (∀ error, out ≠ CleanupUnproven error) →
    (∃ error, out = CleanupUnproven error) ↔
    ∃ q, Spawned q ∈ Spawned p :: polls ++ [Waited p r] ∧ ∀ r', terminal r' = true → Waited q r' ∉ Spawned p :: polls ++ [Waited p r])
    as Hproven.
  { intros p polls r o Hp Hr Ho. split; [intros [e He]; by destruct (Ho e)|]. intros (q & Hq & Hw). exfalso.
    apply elem_of_cons in Hq as [[= ->]|Hq].
    - apply (Hw r Hr). set_solver.
    - apply elem_of_app in Hq as [Hq|Hq]; [by apply (Hspawn p q polls)|]. set_solver. }
  destruct 1; try (by eapply Hproven);
    try (split; [by intros [? ?]|]; intros (p & Hp & _); by apply not_elem_of_nil in Hp).
  split; [|by eauto]. intros _. exists p. split; [left|]. intros r Hr Hin.
  apply elem_of_cons in Hin as [?|Hin]; [done|]. by eapply Hwait.
Qed.

(** What one poll adds. *)
Definition polled (p : Z) (l : list HelperStep) (r : result string CaptureHelperReap) : Prop :=
  existsb is_kill l = false ∧
  match r with
  | Ok (ReapExited exit_status) => ∃ polls, Forall (pending p) polls ∧ l = polls ++ [Waited p (Ok (WaitExited exit_status))]
  | Ok (ReapSignaled signal core) => ∃ polls, Forall (pending p) polls ∧ l = polls ++ [Waited p (Ok (WaitSignaled signal core))]
  | _ => Forall (pending p) l
  end.

Section Verdicts.
Context {E Txn Bytes F : Type} {clock : Clock E} {spawn : SpawnOps E} {wire : WireOps E Txn Bytes F}.
Context (fuel retries : nat).
#[local] Notation pipe := (traced E HelperStep).
#[local] Notation fallible := (attempt (World E)).

Definition polls_of (h : CaptureHelperProcess) (l : list HelperStep)
    (o : option (CaptureHelperProcess * result string CaptureHelperReap)) : Prop :=
  ∀ h' r, o = Some (h', r) → pid h' = pid h ∧ polled (pid h) l r ∧ (r = Ok StillRunning → h' = h).

Lemma polled_cons p q r l o : q = p → terminal r = false → polled p l o → polled p (Waited q r :: l) o.
Proof.
  intros -> Hr [Hk Ho]. split; [done|]. unfold polled in *.
  destruct o as [[]|]; try (constructor; [done|exact Ho]);
    destruct Ho as (polls & Hp & ->); exists (Waited p r :: polls); by split; [constructor|].
Qed.

Lemma wait_loop_polls n h : emits (polls_of h) (wait_loop n h).
Proof.
  induction n as [|n IH]; cbn [wait_loop]; [by apply emits_ret|].
  apply emits_silent; [apply silent_lift|]. intros r. apply emits_step.
  destruct r as [[]|errno]; repeat case_decide;
    try (apply emits_ret; intros h' r' [= <- <-]; split; [done|]; split; [split; [done|]|done];
         first [by repeat constructor | by exists []]).
  eapply emits_impl; [exact IH|]. intros l o Ho h' r' ->. destruct (Ho _ _ eq_refl) as (H1 & H2 & H3).
  split; [done|]. split; [by apply polled_cons|done].
Qed.

Lemma poll_reap_polls h : terminal_consumed h = false → emits (polls_of h) (poll_reap retries h).
Proof. intros Hh. unfold poll_reap. rewrite Hh. apply wait_loop_polls. Qed.

Lemma pending_app p l1 l2 : Forall (pending p) l1 → Forall (pending p) l2 → Forall (pending p) (l1 ++ l2).
Proof. by intros; apply Forall_app. Qed.

(** A kill and the polls after it: the helper is reaped, or it is not. *)
Definition reaped_after (p : Z) (ok : bool) (l : list HelperStep) : Prop :=
  if ok then ∃ polls r, Forall (pending p) polls ∧ terminal r = true ∧ l = polls ++ [Waited p r]
  else Forall (pending p) l.

Lemma reaped_after_app p ok l1 l2 : Forall (pending p) l1 → reaped_after p ok l2 → reaped_after p ok (l1 ++ l2).
Proof.
  intros H1. destruct ok; simpl; [|by apply pending_app].
  intros (polls & r & Hp & Hr & ->). exists (l1 ++ polls), r. rewrite app_assoc. split; [by apply pending_app|done].
Qed.

(** The two cleanup loops, with the verdict each draws. *)
Definition handoff_verdict (r : result string unit) : bool := is_ok r.

Definition timeout_verdict (o : IsolatedCaptureOutcome) : option bool :=
  match o with CaptureTimedOut => Some true | CleanupUnproven _ => Some false | _ => None end.

Definition reaps (p : Z) (A : Type) (verdict : A → option bool) (l : list HelperStep) (o : option A) : Prop :=
  ∀ a, o = Some a → ∃ ok, verdict a = Some ok ∧ reaped_after p ok l.

Lemma poll_reaps (A : Type) (verdict : A → option bool) (h : CaptureHelperProcess)
    (k : option (CaptureHelperProcess * result string CaptureHelperReap) → pipe (option A)) :
  terminal_consumed h = false →
  (∀ o, (∀ l, polls_of h l o → emits (λ l' b, reaps (pid h) A verdict (l ++ l') b) (k o))) →
  emits (reaps (pid h) A verdict) (poll_reap retries h ≫= k).
Proof. intros Hh Hk. eapply emits_bind; [by apply poll_reap_polls|]. intros l o Ho. by apply Hk. Qed.

Lemma reaps_ret (A : Type) (verdict : A → option bool) p l a ok :
  verdict a = Some ok → reaped_after p ok l → emits (λ l' b, reaps p A verdict (l ++ l') b) (mret (Some a) : pipe (option A)).
Proof. intros Hv Hl. apply emits_ret. rewrite app_nil_r. intros ? [= <-]. eauto. Qed.

Lemma reaps_more (A : Type) (verdict : A → option bool) p l (m : pipe (option A)) :
  Forall (pending p) l → emits (reaps p A verdict) m → emits (λ l' b, reaps p A verdict (l ++ l') b) m.
Proof.
  intros Hl Hm. eapply emits_impl; [exact Hm|]. intros l' o Ho a Ha. destruct (Ho a Ha) as (ok & Hv & Hok).
  exists ok. split; [done|]. by apply reaped_after_app.
Qed.

Lemma reap_failed_handoff_reaps n h deadline :
  terminal_consumed h = false →
  emits (reaps (pid h) _ (λ r, Some (handoff_verdict r))) (reap_failed_handoff retries n h deadline).
Proof.
  intros Hh. induction n as [|n IH]; cbn [reap_failed_handoff]; [by apply emits_ret|].
  apply poll_reaps; [done|]. intros [[h' r]|] l Ho; [|by apply emits_ret].
  destruct (Ho _ _ eq_refl) as (Hp & [_ Hl] & Hs).
  destruct r as [[| | |]|]; try by eapply reaps_ret.
  - rewrite (Hs eq_refl). apply emits_silent; [apply silent_lift|]. intros t. case_decide; [by eapply reaps_ret|].
    apply emits_silent; [apply silent_effect|]. intros []. by apply reaps_more.
  - apply (reaps_ret _ _ _ _ _ true); [done|]. destruct Hl as (polls & ? & ->). by repeat eexists.
  - apply (reaps_ret _ _ _ _ _ true); [done|]. destruct Hl as (polls & ? & ->). by repeat eexists.
Qed.

Lemma reap_timed_out_reaps n h deadline :
  terminal_consumed h = false →
  emits (reaps (pid h) _ timeout_verdict) (reap_timed_out retries n h deadline).
Proof.
  intros Hh. induction n as [|n IH]; cbn [reap_timed_out]; [by apply emits_ret|].
  apply poll_reaps; [done|]. intros [[h' r]|] l Ho; [|by apply emits_ret].
  destruct (Ho _ _ eq_refl) as (Hp & [_ Hl] & Hs).
  destruct r as [[| | |]|]; try by eapply reaps_ret.
  - rewrite (Hs eq_refl). apply emits_silent; [apply silent_lift|]. intros t. case_decide; [by eapply reaps_ret|].
    apply emits_silent; [apply silent_effect|]. intros []. by apply reaps_more.
  - apply (reaps_ret _ _ _ _ _ true); [done|]. destruct Hl as (polls & ? & ->). by repeat eexists.
  - apply (reaps_ret _ _ _ _ _ true); [done|]. destruct Hl as (polls & ? & ->). by repeat eexists.
Qed.

(** The steps begin with the kill. *)
Definition kills (p : Z) (A : Type) (verdict : A → option bool) (l : list HelperStep) (o : option A) : Prop :=
  ∃ k l', l = Killed p k :: l' ∧ reaps p A verdict l o.

Lemma kill_then (A : Type) (verdict : A → option bool) (h : CaptureHelperProcess) (f : option Z → pipe (option A)) :
  (∀ k, emits (reaps (pid h) A verdict) (f k)) → emits (kills (pid h) A verdict) (send_kill h ≫= f).
Proof.
  intros Hf. unfold send_kill. intros w.
  assert (emits (λ l _, ∃ k, l = [Killed (pid h) k]) (send_kill h)) as Hk.
  { unfold send_kill. apply emits_silent; [apply silent_lift|]. intros r. apply emits_step, emits_ret. eauto. }
  revert w. eapply emits_bind; [exact Hk|]. intros l k [k' ->].
  eapply emits_impl; [apply Hf|]. intros l' o Ho. exists k', l'. split; [done|].
  intros a Ha. destruct (Ho a Ha) as (ok & Hv & Hok). exists ok. split; [done|].
  by apply (reaped_after_app _ _ [Killed (pid h) k']); [repeat constructor|].
Qed.

Lemma kill_and_reap_failed_handoff_kills h :
  terminal_consumed h = false →
  emits (kills (pid h) _ (λ r, Some (handoff_verdict r))) (kill_and_reap_failed_handoff fuel retries h).
Proof.
  intros Hh. unfold kill_and_reap_failed_handoff. apply kill_then. intros k.
  assert (∀ t, emits (reaps (pid h) _ (λ r, Some (handoff_verdict r)))
            (reap_failed_handoff retries fuel h (t + FAILED_HANDOFF_REAP_GRACE))) as Hr
    by (intros t; by apply reap_failed_handoff_reaps).
  destruct k as [errno|]; [case_decide|].
  - eapply emits_ret. intros ? [= <-]. exists false. by split; [|constructor].
  - apply emits_silent; [apply silent_lift|done].
  - apply emits_silent; [apply silent_lift|done].
Qed.

Lemma kill_and_reap_timed_out_kills h :
  terminal_consumed h = false →
  emits (kills (pid h) _ timeout_verdict) (kill_and_reap_timed_out_helper fuel retries h).
Proof.
  intros Hh. unfold kill_and_reap_timed_out_helper. apply kill_then. intros k.
  assert (∀ t, emits (reaps (pid h) _ timeout_verdict) (reap_timed_out retries fuel h (t + HELPER_REAP_GRACE))) as Hr
    by (intros t; by apply reap_timed_out_reaps).
  destruct k as [errno|]; [case_decide|].
  - eapply emits_ret. intros ? [= <-]. exists false. by split; [|constructor].
  - apply emits_silent; [apply silent_lift|done].
  - apply emits_silent; [apply silent_lift|done].
Qed.

(** *** The spawn *)

Lemma silent_run {A : Type} (m : pipe A) : silent m → silent (outcome_of (run m)).
Proof.
  intros Hm w. destruct (Hm w) as (l & Hl & ->). unfold outcome_of, run. destruct (m w) as [a w'].
  exists []. by rewrite app_nil_r in *.
Qed.

Lemma silent_settle {A : Type} (m : fallible A) : silent (outcome_of m) → silent (outcome_of (settle m)).
Proof.
  intros Hm w. destruct (Hm w) as (l & Hl & ->). unfold outcome_of, settle in *. destruct (m w) as [a w'].
  exists []. by rewrite app_nil_r in *.
Qed.

Lemma silent_fallible {A B : Type} (m : fallible A) (f : A → fallible B) :
  silent (outcome_of m) → (∀ a, silent (outcome_of (f a))) → silent (outcome_of (m ≫= f)).
Proof.
  intros Hm Hf w. destruct (Hm w) as (l & Hl & ->). unfold outcome_of, mbind, attempt_bind in *.
  destruct (m w) as [[a|error] w'].
  - destruct (Hf a w') as (l' & Hl' & ->). exists []. simpl in Hl |- *. by rewrite Hl', Hl, !app_nil_r.
  - by exists [].
Qed.

Lemma silent_of_result {A : Type} (r : result string A) : silent (outcome_of (of_result r : fallible A)).
Proof. intros w. exists []. by rewrite app_nil_r. Qed.
Lemma silent_fail {A : Type} error : silent (outcome_of (fail error : fallible A)).
Proof. apply (silent_of_result (Err error)). Qed.
Lemma silent_mret {A : Type} (a : A) : silent (outcome_of (mret a : fallible A)).
Proof. apply (silent_of_result (Ok a)). Qed.

(** System calls and their error checks leave no step. *)
Ltac silent_calls :=
  repeat first
    [ apply silent_of_result | apply silent_fail | apply silent_mret
    | apply silent_run; first [apply silent_lift | apply silent_effect | apply silent_look]
    | apply silent_settle | apply silent_fallible; [|intros ?]
    | case_match | case_decide ].

Lemma silent_allocate : silent (outcome_of allocate_receive_right).
Proof. unfold allocate_receive_right, release_port. silent_calls. Qed.

Lemma silent_libc operation c : silent (outcome_of (libc operation c)).
Proof. unfold libc. silent_calls. Qed.

Lemma silent_resources executable request_json result_fd task thread :
  silent (outcome_of (spawn_resources executable request_json result_fd task thread)).
Proof.
  unfold spawn_resources, inherited_environment. silent_calls.
  apply (silent_lift (duplicate_fd result_fd)).
Qed.

Lemma silent_prepare fd handoff : silent (outcome_of (prepare_spawn fd handoff)).
Proof. unfold prepare_spawn. repeat (apply silent_fallible; [apply silent_libc|intros ?]). apply silent_libc. Qed.

Lemma silent_timeout deadline : silent (timeout_millis_until deadline).
Proof. apply emits_silent; [apply silent_lift|]. intros t. apply silent_ret. Qed.

Lemma silent_transfer handoff task thread deadline : silent (outcome_of (transfer handoff task thread deadline)).
Proof.
  unfold transfer, receive_one_port, receive_message, send_capabilities, release_port.
  silent_calls; apply silent_run, silent_timeout.
Qed.

(** A spawn that fails left nothing behind, or says that it may have. *)
Definition spawn_run (l : list HelperStep) (o : option (result CaptureHelperSpawnError CaptureHelperProcess)) : Prop :=
  ∀ r, o = Some r →
  match r with
  | Ok h => terminal_consumed h = false ∧ l = [Spawned (pid h)]
  | Err error =>
      if cleanup_unproven error then ∃ p polls, l = Spawned p :: polls ∧ Forall (pending p) polls
      else l = [] ∨ ∃ p polls r, l = Spawned p :: polls ++ [Waited p r] ∧ Forall (pending p) polls ∧ terminal r = true
  end.

Lemma spawn_and_transfer_run executable request_json handoff task thread timeout :
  emits spawn_run (spawn_and_transfer fuel retries executable request_json handoff task thread timeout).
Proof.
  unfold spawn_and_transfer. apply emits_silent; [apply silent_lift|]. intros [rc child_pid].
  case_decide; [apply emits_ret; intros ? [= <-]; by left|].
  apply emits_step. case_decide; [apply emits_ret; intros ? [= <-]; by exists child_pid, []|].
  apply emits_silent; [apply silent_lift|]. intros t.
  apply emits_silent; [apply silent_transfer|]. intros [[]|error]; [apply emits_ret; by intros ? [= <-]|].
  eapply emits_bind; [by apply kill_and_reap_failed_handoff_kills|].
  intros l cleanup (k & l' & -> & Hr). apply emits_ret. rewrite app_nil_r. intros r Hr'.
  destruct cleanup as [[[]|cleanup_error]|]; [| |done]; destruct (Hr _ eq_refl) as (ok & [= <-] & Hok);
    injection Hr' as <-; simpl in Hok |- *.
  - right. destruct Hok as (polls & r & Hp & Hr'' & Hl). exists child_pid, polls, r. by rewrite Hl.
  - eexists _, _. split; [done|exact Hok].
Qed.

Lemma spawn_capture_helper_run executable request_json result_fd task thread timeout :
  emits spawn_run (spawn_capture_helper fuel retries executable request_json result_fd task thread timeout).
Proof.
  unfold spawn_capture_helper. apply emits_silent; [apply silent_resources|].
  assert (∀ error, spawn_run [] (Some (Err (spawn_error_from error)))) as Herr by (intros error ? [= <-]; by left).
  intros [[fd handoff]|error]; [|by apply emits_ret].
  apply emits_silent; [apply silent_prepare|]. intros prepared.
  eapply (emits_bind spawn_run).
  - destruct prepared; [apply spawn_and_transfer_run|]. by apply emits_ret.
  - intros l o Ho. apply emits_silent; [apply silent_effect|]. intros []. apply emits_ret. by rewrite app_nil_r.
Qed.

(** *** The supervisor *)

Lemma silent_decode (f : F) : silent (decode_result f).
Proof.
  unfold decode_result. apply emits_silent; [apply silent_lift|]. intros length.
  repeat first [apply silent_ret | case_match | case_decide | apply emits_silent; [apply silent_lift|intros ?]].
Qed.

(** What the supervisor adds to [Spawned], after polls [l0] without a kill. *)
Definition supervised (p : Z) (l : list HelperStep) (o : option IsolatedCaptureOutcome) : Prop :=
  ∀ out l0, o = Some out → Forall (pending p) l0 → existsb is_kill l0 = false → helper_run (Spawned p :: l0 ++ l) out.

Lemma supervise_run polls h f deadline :
  terminal_consumed h = false → emits (supervised (pid h)) (supervise fuel retries polls h f deadline).
Proof.
  intros Hh. induction polls as [|n IH]; cbn [supervise]; [by apply emits_ret|].
  eapply emits_bind; [by apply poll_reap_polls|]. intros l [[h' r]|] Ho; [|by apply emits_ret].
  destruct (Ho _ _ eq_refl) as (_ & [Hk Hl] & Hs). destruct r as [[|exit_status|signal core|]|error].
  - rewrite (Hs eq_refl). apply emits_silent; [apply silent_lift|]. intros t. case_decide.
    + eapply emits_impl; [by apply kill_and_reap_timed_out_kills|].
      intros l' o (k & l1 & Hl1 & Hr) out l0 -> Hl0 Hk0. destruct (Hr _ eq_refl) as (ok & Hv & Hok).
      assert (Forall (pending (pid h)) (l0 ++ l)) as Hl' by by apply pending_app.
      rewrite app_assoc. destruct out; try discriminate Hv; injection Hv as <-; simpl in Hok.
      * destruct Hok as (polls & r & Hp & Hr' & Hl2). rewrite Hl2, app_assoc. apply helper_killed; [by apply pending_app| |done].
        rewrite existsb_app, orb_true_iff. right. destruct polls; [by simplify_list_eq|]. by simplify_list_eq.
      * apply helper_unproven. by apply pending_app.
    + apply emits_silent; [apply silent_lift|]. intros t'. apply emits_silent; [apply silent_effect|]. intros [].
      eapply emits_impl; [exact IH|]. intros l' o H' out l0 -> Hl0 Hk0. rewrite app_assoc.
      apply H'; [done|by apply pending_app|]. by rewrite existsb_app, Hk0, Hk.
  - destruct Hl as (polls & Hp & ->).
    assert (∀ out l0, Forall (pending (pid h)) l0 → existsb is_kill l0 = false →
      (∃ e, out = CaptureFailed e) ∨ exit_status = 0 ∧ (∃ d ps, out = CaptureCompleted d ps) →
      helper_run (Spawned (pid h) :: l0 ++ polls ++ [Waited (pid h) (Ok (WaitExited exit_status))]) out) as Hrun.
    { intros out l0 Hl0 Hk0 Hout. rewrite app_assoc. destruct Hout as [[e ->]|[-> (d & ps & ->)]].
      - apply helper_failed; [by apply pending_app|done].
      - apply helper_completed; [by apply pending_app|]. rewrite existsb_app, Hk0. rewrite existsb_app in Hk.
        by apply orb_false_iff in Hk as [-> _]. }
    case_decide as Hz.
    + apply (emits_bind (λ l o, l = [] ∧ ((∃ e, o = CaptureFailed e) ∨ (∃ d ps, o = CaptureCompleted d ps)))).
      * intros w. destruct (silent_decode f w) as (l & Hl & ->). exists []. split; [done|]. split; [done|].
        unfold decode_result, decode_bytes, mbind, traced_bind, mret, traced_ret.
        repeat (case_match; simpl); eauto.
      * intros l' o [-> Hcase]. apply emits_ret. rewrite app_nil_r. intros out l0 [= <-] Hl0 Hk0.
        apply Hrun; [done..|]. destruct Hcase; auto.
    + apply emits_ret. rewrite app_nil_r. intros out l0 [= <-] Hl0 Hk0. apply Hrun; eauto.
  - destruct Hl as (polls & Hp & ->). apply emits_ret. rewrite app_nil_r. intros out l0 [= <-] Hl0 Hk0.
    rewrite app_assoc. apply helper_failed; [by apply pending_app|done].
  - apply emits_ret. rewrite app_nil_r. intros out l0 [= <-] Hl0 Hk0. apply helper_unproven. by apply pending_app.
  - apply emits_ret. rewrite app_nil_r. intros out l0 [= <-] Hl0 Hk0. apply helper_unproven. by apply pending_app.
Qed.

Lemma run_isolated_capture_run request f task deadline :
  emits (λ l o, ∀ out, o = Some out → helper_run l out) (run_isolated_capture fuel retries request f task deadline).
Proof.
  unfold run_isolated_capture. apply emits_silent; [apply silent_lift|]. intros t.
  case_decide; [apply emits_ret; intros ? [= <-]; constructor|].
  apply emits_silent; [apply silent_lift|]. intros [executable|error]; [|apply emits_ret; intros ? [= <-]; constructor].
  destruct (encode_request request) as [request_json|error]; [|apply emits_ret; intros ? [= <-]; constructor].
  apply emits_silent; [apply silent_lift|]. intros t'.
  eapply emits_bind; [apply spawn_capture_helper_run|]. intros l [[h|error]|] Hl; [| |by apply emits_ret].
  - destruct (Hl _ eq_refl) as [Hh ->]. eapply emits_impl; [by apply supervise_run|].
    intros l' o Ho out ->. by apply (Ho out []).
  - specialize (Hl _ eq_refl). simpl in Hl. apply emits_ret. rewrite app_nil_r. intros out [= <-].
    destruct (cleanup_unproven error).
    + destruct Hl as (p & polls & -> & Hp). by apply helper_unproven.
    + destruct Hl as [->|(p & polls & r & -> & Hp & Hr)]; [constructor|by apply helper_failed].
Qed.

End Verdicts.
(** ** Termination *)

(** Documented behaviour of the clock and the wait: no operation turns the clock
    back, a sleep lasts at least as long as asked, and a wait that does not block
    is not interrupted [retries] times in a row. *)
Class HelperLaws (E Txn Bytes F : Type) {clock : Clock E} {spawn : SpawnOps E} {wire : WireOps E Txn Bytes F}
    (elapsed : E → Z) (retries : nat) := {
  clock_law e : elapsed e ≤ (instant_now e).1 ≤ elapsed (instant_now e).2;
  sleep_law d e : 0 ≤ d → elapsed e + d ≤ elapsed (thread_sleep d e);
  waitpid_law p e : elapsed e ≤ elapsed (waitpid p e).2;
  kill_law p e : elapsed e ≤ elapsed (kill p e).2;
  libc_law c e : elapsed e ≤ elapsed (libc_call c e).2;
  duplicate_law fd e : elapsed e ≤ elapsed (duplicate_fd fd e).2;
  allocate_law e : elapsed e ≤ elapsed (mach_port_allocate e).2;
  release_law port e : elapsed e ≤ elapsed (mach_port_release port e);
  send_law port m timeout e : elapsed e ≤ elapsed (mach_send port m timeout e).2;
  receive_law port timeout e : elapsed e ≤ elapsed (mach_receive port timeout e).2;
  destroy_law m e : elapsed e ≤ elapsed (mach_msg_destroy m e);
  posix_spawn_law x r e : elapsed e ≤ elapsed (posix_spawn x r e).2;
  current_exe_law e : elapsed e ≤ elapsed (current_exe e).2;
  interrupted_law h w : (wait_loop retries h w).1 ≠ None
}.

Section Termination.
Context {E Txn Bytes F : Type} {clock : Clock E} {spawn : SpawnOps E} {wire : WireOps E Txn Bytes F}.
Context (elapsed : E → Z) (retries : nat) {laws : HelperLaws E Txn Bytes F elapsed retries}.
#[local] Notation pipe := (traced E HelperStep).
#[local] Notation fallible := (attempt (World E)).

(** [m] does not turn the clock back. *)
Definition later {A : Type} (m : pipe A) : Prop := ∀ w, elapsed (env w) ≤ elapsed (env (m w).2).

Lemma later_ret {A : Type} (a : A) : later (mret a).
Proof. intros w. simpl. lia. Qed.

Lemma later_bind {A B : Type} (m : pipe A) (f : A → pipe B) : later m → (∀ a, later (f a)) → later (m ≫= f).
Proof.
  intros Hm Hf w. specialize (Hm w). unfold mbind, traced_bind. destruct (m w) as [a w'].
  specialize (Hf a w'). simpl in *. lia.
Qed.

Lemma later_lift {A : Type} (f : E → A * E) : (∀ e, elapsed e ≤ elapsed (f e).2) → later (lift f).
Proof. intros Hf w. specialize (Hf (env w)). unfold lift. by destruct (f (env w)). Qed.

Lemma later_effect (f : E → E) : (∀ e, elapsed e ≤ elapsed (f e)) → later (effect f).
Proof. intros Hf. by apply later_lift. Qed.

Lemma later_emit s : later (emit s).
Proof. intros w. simpl. lia. Qed.

Lemma later_now : later now.
Proof. apply later_lift. intros e. pose proof (clock_law e). lia. Qed.

Lemma later_run {A : Type} (m : pipe A) : later m → later (outcome_of (run m)).
Proof. intros Hm w. specialize (Hm w). unfold outcome_of, run. by destruct (m w). Qed.

Lemma later_settle {A : Type} (m : fallible A) : later (outcome_of m) → later (outcome_of (settle m)).
Proof. intros Hm w. specialize (Hm w). unfold outcome_of, settle in *. by destruct (m w). Qed.

Lemma later_fallible {A B : Type} (m : fallible A) (f : A → fallible B) :
  later (outcome_of m) → (∀ a, later (outcome_of (f a))) → later (outcome_of (m ≫= f)).
Proof.
  intros Hm Hf w. specialize (Hm w). unfold outcome_of, mbind, attempt_bind in *.
  destruct (m w) as [[a|error] w']; [|done]. specialize (Hf a w'). simpl in *. lia.
Qed.

Lemma later_of_result {A : Type} (r : result string A) : later (outcome_of (of_result r : fallible A)).
Proof. intros w. simpl. lia. Qed.
Lemma later_fail {A : Type} error : later (outcome_of (fail error : fallible A)).
Proof. apply (later_of_result (Err error)). Qed.
Lemma later_mret {A : Type} (a : A) : later (outcome_of (mret a : fallible A)).
Proof. apply (later_of_result (Ok a)). Qed.

(** System calls, by their laws. *)
Ltac later_calls :=
  repeat first
    [ apply later_lift, libc_law | apply later_effect, release_law | apply later_of_result | apply later_fail | apply later_mret | apply later_ret | apply later_now
    | apply later_emit
    | apply later_run | apply later_settle | apply later_fallible; [|intros ?]
    | apply later_bind; [|intros ?]
    | case_match | case_decide ].

Lemma later_libc operation c : later (outcome_of (libc operation c)).
Proof. unfold libc. later_calls. Qed.

Lemma later_allocate : later (lift (λ e, let '(kr, port, e) := mach_port_allocate e in ((kr, port), e))).
Proof. apply later_lift. intros e. pose proof (allocate_law e) as H. by destruct (mach_port_allocate e) as [[]]. Qed.

Lemma later_resources executable request_json result_fd task thread :
  later (outcome_of (spawn_resources executable request_json result_fd task thread)).
Proof.
  unfold spawn_resources, inherited_environment. later_calls.
  - apply (later_lift (λ e, (environment_has_nul e, e))). simpl. lia.
  - apply (later_lift (duplicate_fd result_fd)), duplicate_law.
  - apply later_allocate.
Qed.

Lemma later_prepare fd handoff : later (outcome_of (prepare_spawn fd handoff)).
Proof. unfold prepare_spawn. repeat (apply later_fallible; [apply later_libc|intros ?]). apply later_libc. Qed.

Lemma later_transfer handoff task thread deadline : later (outcome_of (transfer handoff task thread deadline)).
Proof.
  unfold transfer, receive_one_port, receive_message, send_capabilities, timeout_millis_until, release_port.
  later_calls.
  - apply later_lift, receive_law.
  - apply later_effect, destroy_law.
  - apply later_lift, send_law.
Qed.

Lemma later_wait_loop n h : later (wait_loop n h).
Proof.
  induction n as [|n IH]; cbn [wait_loop]; [apply later_ret|]. apply later_bind; [apply later_lift, waitpid_law|].
  intros r. apply later_bind; [apply later_emit|]. intros []. by later_calls.
Qed.

Lemma later_poll h : later (poll_reap retries h).
Proof. unfold poll_reap. case_match; [apply later_ret|apply later_wait_loop]. Qed.

Lemma later_kill h : later (send_kill h).
Proof. unfold send_kill. later_calls. apply later_lift, kill_law. Qed.

Lemma poll_answers h w : (poll_reap retries h w).1 ≠ None.
Proof. unfold poll_reap. case_match; [done|apply interrupted_law]. Qed.

Lemma bind_answers {A B : Type} (m : pipe A) (f : A → pipe (option B)) w :
  (∀ a w', m w = (a, w') → (f a w').1 ≠ None) → ((m ≫= f) w).1 ≠ None.
Proof. intros H. unfold mbind, traced_bind. destruct (m w) as [a w'] eqn:Hm. by apply H. Qed.

Lemma now_reads (w : World E) t w' : now w = (t, w') → elapsed (env w) ≤ t ≤ elapsed (env w').
Proof. unfold now, lift. pose proof (clock_law (env w)) as H. destruct (instant_now (env w)). by intros [= -> <-]. Qed.

Lemma sleep_reads d (w : World E) r w' : 0 ≤ d → effect (thread_sleep d) w = (r, w') → elapsed (env w) + d ≤ elapsed (env w').
Proof. intros Hd. unfold effect, lift. intros [= <- <-]. by apply sleep_law. Qed.

(** One round of a polling loop, down to the state after its poll. *)
Ltac poll_round h w :=
  let Hpoll := fresh "Hpoll" in let Ho := fresh "Ho" in let Hlate := fresh "Hlate" in
  apply bind_answers; intros polled w1 Hpoll;
  pose proof (poll_answers h w) as Ho; pose proof (later_poll h w) as Hlate; rewrite Hpoll in Ho, Hlate;
  destruct polled as [[? [[]|]]|]; try done; simpl in Hlate.

Lemma reap_failed_handoff_answers n k h deadline w :
  deadline - elapsed (env w) ≤ k * FAILED_HANDOFF_POLL_INTERVAL → 0 ≤ k → (Z.to_nat k < n)%nat →
  (reap_failed_handoff retries n h deadline w).1 ≠ None.
Proof.
  revert k h w. induction n as [|n IH]; intros k h w Hk Hk0 Hn; [lia|]. cbn [reap_failed_handoff].
  poll_round h w.
  apply bind_answers. intros t w2 Ht. apply now_reads in Ht. case_decide; [done|].
  apply bind_answers. intros [] w3 Hs. apply sleep_reads in Hs; [|done].
  apply (IH (k - 1)); unfold FAILED_HANDOFF_POLL_INTERVAL, NANOS_PER_MILLI in *; nia.
Qed.

Lemma reap_timed_out_answers n k h deadline w :
  deadline - elapsed (env w) ≤ k * HELPER_POLL_INTERVAL → 0 ≤ k → (Z.to_nat k < n)%nat →
  (reap_timed_out retries n h deadline w).1 ≠ None.
Proof.
  revert k h w. induction n as [|n IH]; intros k h w Hk Hk0 Hn; [lia|]. cbn [reap_timed_out].
  poll_round h w.
  apply bind_answers. intros t w2 Ht. apply now_reads in Ht. case_decide; [done|].
  apply bind_answers. intros [] w3 Hs. apply sleep_reads in Hs; [|done].
  apply (IH (k - 1)); unfold HELPER_POLL_INTERVAL, NANOS_PER_MILLI in *; nia.
Qed.

Context (fuel : nat) (Hfuel : (400 < fuel)%nat).

Lemma kill_and_reap_failed_handoff_answers h w : (kill_and_reap_failed_handoff fuel retries h w).1 ≠ None.
Proof.
  unfold kill_and_reap_failed_handoff. apply bind_answers. intros k w1 _.
  assert (∀ w, ((t ← now; reap_failed_handoff retries fuel h (t + FAILED_HANDOFF_REAP_GRACE)) w).1 ≠ None) as H.
  { intros w0. apply bind_answers. intros t w2 Ht. apply now_reads in Ht.
    apply (reap_failed_handoff_answers _ 400); [|done|lia].
    unfold FAILED_HANDOFF_REAP_GRACE, FAILED_HANDOFF_POLL_INTERVAL, NANOS_PER_MILLI. lia. }
  destruct k as [errno|]; [case_decide; [done|]|]; apply H.
Qed.

Lemma kill_and_reap_timed_out_answers h w : (kill_and_reap_timed_out_helper fuel retries h w).1 ≠ None.
Proof.
  unfold kill_and_reap_timed_out_helper. apply bind_answers. intros k w1 _.
  assert (∀ w, ((t ← now; reap_timed_out retries fuel h (t + HELPER_REAP_GRACE)) w).1 ≠ None) as H.
  { intros w0. apply bind_answers. intros t w2 Ht. apply now_reads in Ht.
    apply (reap_timed_out_answers _ 400); [|done|lia].
    unfold HELPER_REAP_GRACE, HELPER_POLL_INTERVAL, NANOS_PER_MILLI, NANOS_PER_SEC. lia. }
  destruct k as [errno|]; [case_decide; [done|]|]; apply H.
Qed.

Lemma supervise_answers n k h (f : F) deadline w :
  deadline - elapsed (env w) ≤ k * HELPER_POLL_INTERVAL → 0 ≤ k → (Z.to_nat k < n)%nat →
  (supervise fuel retries n h f deadline w).1 ≠ None.
Proof.
  revert k h w. induction n as [|n IH]; intros k h w Hk Hk0 Hn; [lia|]. cbn [supervise].
  poll_round h w.
  - apply bind_answers. intros t w2 Ht. apply now_reads in Ht.
    case_decide; [apply kill_and_reap_timed_out_answers|].
    apply bind_answers. intros t' w3 Ht'. apply now_reads in Ht'.
    apply bind_answers. intros [] w4 Hs.
    apply sleep_reads in Hs; [|unfold HELPER_POLL_INTERVAL, NANOS_PER_MILLI, saturating_duration_since; lia].
    apply (IH (k - 1)); unfold HELPER_POLL_INTERVAL, NANOS_PER_MILLI, saturating_duration_since in *; nia.
  - case_decide; [|done]. by apply bind_answers.
Qed.

Lemma spawn_capture_helper_answers executable request_json result_fd task thread timeout w :
  (spawn_capture_helper fuel retries executable request_json result_fd task thread timeout w).1 ≠ None.
Proof.
  unfold spawn_capture_helper. apply bind_answers. intros [[fd handoff]|error] w1 _; [|done].
  apply bind_answers. intros prepared w2 _.
  assert (∀ w, (spawn_and_transfer fuel retries executable request_json handoff task thread timeout w).1 ≠ None) as H.
  { intros w0. unfold spawn_and_transfer. apply bind_answers. intros [rc p] w3 _. case_decide; [done|].
    apply bind_answers. intros _ w4 _. case_decide; [done|]. apply bind_answers. intros t w5 _.
    apply bind_answers. intros [[]|error] w6 _; [done|]. apply bind_answers. intros cleanup w7 Hc.
    pose proof (kill_and_reap_failed_handoff_answers (process_new p) w6) as Ha. rewrite Hc in Ha.
    by destruct cleanup as [[]|]. }
  apply bind_answers. intros spawned w3 Hs. apply bind_answers. intros [] w4 _.
  destruct prepared as [[]|error]; [|by injection Hs as <- <-].
  specialize (H w2). by rewrite Hs in H.
Qed.

Lemma later_reap n h deadline : later (reap_failed_handoff retries n h deadline).
Proof.
  revert h. induction n as [|n IH]; intros h; cbn [reap_failed_handoff]; [apply later_ret|].
  apply later_bind; [apply later_poll|]. intros [[h' [[]|]]|]; try apply later_ret.
  apply later_bind; [apply later_now|]. intros t. case_decide; [apply later_ret|].
  apply later_bind; [|intros []; apply IH]. apply later_effect. intros e.
  pose proof (sleep_law FAILED_HANDOFF_POLL_INTERVAL e) as Hsl. unfold FAILED_HANDOFF_POLL_INTERVAL, NANOS_PER_MILLI in *. lia.
Qed.

Lemma later_cleanup h : later (kill_and_reap_failed_handoff fuel retries h).
Proof.
  unfold kill_and_reap_failed_handoff. apply later_bind; [apply later_kill|].
  intros [errno|]; [case_decide; [apply later_ret|]|]; (apply later_bind; [apply later_now|intros t; apply later_reap]).
Qed.

Lemma later_spawn_and_transfer executable request_json handoff task thread timeout :
  later (spawn_and_transfer fuel retries executable request_json handoff task thread timeout).
Proof.
  unfold spawn_and_transfer. apply later_bind.
  - apply later_lift. intros e. pose proof (posix_spawn_law executable request_json e) as Hps.
    by destruct (posix_spawn _ _ _) as [[]].
  - intros [rc p]. case_decide; [apply later_ret|]. apply later_bind; [apply later_emit|]. intros [].
    case_decide; [apply later_ret|]. apply later_bind; [apply later_now|]. intros t.
    apply later_bind; [apply later_transfer|]. intros []; [apply later_ret|].
    apply later_bind; [apply later_cleanup|]. intros cleanup. apply later_ret.
Qed.

Lemma later_spawn executable request_json result_fd task thread timeout :
  later (spawn_capture_helper fuel retries executable request_json result_fd task thread timeout).
Proof.
  unfold spawn_capture_helper. apply later_bind; [apply later_resources|].
  intros [[fd handoff]|]; [|apply later_ret]. apply later_bind; [apply later_prepare|]. intros prepared.
  apply later_bind; [destruct prepared; [apply later_spawn_and_transfer|apply later_ret]|]. intros spawned.
  apply later_bind; [apply later_effect, release_law|]. intros []. apply later_ret.
Qed.

Lemma run_isolated_capture_answers request f task deadline w :
  deadline - elapsed (env w) ≤ (Z.of_nat fuel - 1) * HELPER_POLL_INTERVAL →
  (run_isolated_capture fuel retries request f task deadline w).1 ≠ None.
Proof.
  intros Hd. unfold run_isolated_capture. apply bind_answers. intros t w1 Ht. apply now_reads in Ht. case_decide; [done|].
  apply bind_answers. intros executable w2 Hx. assert (elapsed (env w1) ≤ elapsed (env w2)) as H2.
  { pose proof (current_exe_law (env w1)) as H'. unfold lift in Hx. destruct (current_exe _). by injection Hx as <- <-. }
  destruct executable as [executable|]; [|done]. destruct (encode_request request) as [request_json|]; [|done].
  apply bind_answers. intros t' w3 Ht'. apply now_reads in Ht'.
  apply bind_answers. intros helper w4 Hs.
  pose proof (spawn_capture_helper_answers executable request_json (as_raw_fd f) task
    (crashed_thread (request_event request)) (saturating_duration_since deadline t') w3) as Ha.
  pose proof (later_spawn executable request_json (as_raw_fd f) task
    (crashed_thread (request_event request)) (saturating_duration_since deadline t') w3) as Hl.
  rewrite Hs in Ha, Hl. simpl in Ha, Hl. destruct helper as [[h|error]|]; [|done|done].
  apply (supervise_answers _ (Z.of_nat fuel - 1)); unfold HELPER_POLL_INTERVAL, NANOS_PER_MILLI in *; lia.
Qed.

End Termination.
(** The supervisor of a helper always answers: with a deadline at most the
    capture budget of five seconds away, 1001 polls are enough, whatever the
    helper does and whichever system call fails. Its verdict is exact: it reports
    an unproven cleanup if and only if it started a helper whose end it did not
    see; it hands over data only after the helper was reaped with status 0 and
    without having killed it. *)
Theorem supervisor_always_answers {E Txn Bytes F : Type} {clock : Clock E} {spawn : SpawnOps E}
    {wire : WireOps E Txn Bytes F} (elapsed : E → Z) (retries fuel : nat)
    (request : TaskCaptureRequest) (f : F) (task : mach_port_t) (deadline : Z) (w : World E) :
  HelperLaws E Txn Bytes F elapsed retries →
  deadline ≤ elapsed (env w) + CAPTURE_DEADLINE → (1001 ≤ fuel)%nat →
  let '(o, w') := run_isolated_capture fuel retries request f task deadline w in
  ∃ out l, o = Some out ∧ trace w' = trace w ++ l ∧ helper_run l out ∧
    ((∃ error, out = CleanupUnproven error) ↔
     ∃ p, Spawned p ∈ l ∧ ∀ r, terminal r = true → Waited p r ∉ l).
Proof.
  intros laws Hd Hfuel.
  pose proof (run_isolated_capture_answers elapsed retries fuel) as Ha. specialize (Ha ltac:(lia) request f task deadline w).
  destruct (run_isolated_capture_run fuel retries request f task deadline w) as (l & Hl & Hrun).
  destruct (run_isolated_capture _ _ _ _ _ _ w) as [[out|] w']; simpl in *.
  2:{ destruct Ha; [|done]. unfold CAPTURE_DEADLINE, HELPER_POLL_INTERVAL, NANOS_PER_SEC, NANOS_PER_MILLI in *. lia. }
  exists out, l. split; [done|]. split; [done|]. specialize (Hrun out eq_refl). split; [done|]. by apply unproven_exact.
Qed.

(** ** The wire *)

(** Serialization is undone by deserialization, which consumes the message and
    nothing else; what was written is what a successful read returns; and the
    collector built for a kind carries its name. [content] is what descriptor 3
    holds, which is the file of the supervisor. *)
Class WireLaws (E Txn Bytes F : Type) {spawn : SpawnOps E} {wire : WireOps E Txn Bytes F}
    (content : E → option Bytes) := {
  request_law r s : encode_request r = Ok s → decode_request s = Ok r;
  message_law r b : encode_result r = Ok b → decode_message b = (Ok r, byte_length b) ∧ 0 < byte_length b;
  write_law b e : (write_result b e).1 = Ok tt → content (write_result b e).2 = Some b;
  sync_keeps e : content (sync_result e).2 = content e;
  release_keeps port e : content (mach_port_release port e) = content e;
  length_reads f b e : content e = Some b →
    content (file_length f e).2 = Some b ∧ ∀ n, (file_length f e).1 = Ok n → n = byte_length b;
  rewind_keeps f b e : content e = Some b → content (file_rewind f e).2 = Some b;
  read_reads f b e : content e = Some b → ∀ b', (file_read_to_end f e).1 = Ok b' → b' = b;
  collector_law k m : collector_kind (name (collector_plugin (new_collector k m))) = Some k
}.

Section Wire.
Context {E Txn Bytes F : Type} {clock : Clock E} {spawn : SpawnOps E} {wire : WireOps E Txn Bytes F}.
Context (content : E → option Bytes) {laws : WireLaws E Txn Bytes F content}.
#[local] Notation pipe := (traced E HelperStep).

Lemma collector_kind_inj n1 n2 k : collector_kind n1 = Some k → collector_kind n2 = Some k → n1 = n2.
Proof. unfold collector_kind. repeat case_decide; intros [=] [=]; by subst. Qed.

(** The names of the collectors a request stands for. *)
Definition isolated_names (p : Pipeline E Txn) : list string :=
  map (λ c, name (collector_plugin c)) (List.filter (λ c, bool_decide (access c = IsolatedTask)) (collectors p)).

Lemma collector_specs_names (cs : list (Collector E Txn)) specs :
  collector_specs cs = Ok specs →
  Forall2 (λ c spec, collector_kind (name (collector_plugin c)) = Some (spec_kind spec))
    (List.filter (λ c, bool_decide (access c = IsolatedTask)) cs) specs.
Proof.
  revert specs. induction cs as [|c cs IH]; intros specs; simpl; [by intros [= <-]|].
  case_decide as Ha; [rewrite bool_decide_false by done; apply IH|].
  rewrite bool_decide_true by (destruct (decide (access c = IsolatedTask)); done). unfold mbind, result_bind, ok_or.
  destruct (collector_kind _) as [k|] eqn:Hk; [|done]. destruct (collector_specs cs) as [rest|]; [|done].
  intros [= <-]. constructor; [exact Hk|]. by apply IH.
Qed.

Lemma run_specs_names event stack task specs data d w :
  let '((_, d'), _) := run_specs event stack task specs data d w in
  ∃ more, plugins d' = plugins d ++ more ∧
    Forall2 (λ spec diagnostic, collector_kind (diagnostic_name diagnostic) = Some (spec_kind spec)) specs more.
Proof.
  revert data d w. induction specs as [|spec specs IH]; intros data d w; cbn [run_specs].
  { exists []. by rewrite app_nil_r. }
  unfold mbind at 1, traced_bind at 1. destruct (run_spec event stack task spec data d w) as [[data1 d1] w1] eqn:Hs.
  specialize (IH data1 d1 w1). destruct (run_specs _ _ _ specs data1 d1 w1) as [[data2 d2] w2].
  destruct IH as (more & Hd2 & Hmore).
  unfold run_spec, mbind, traced_bind, mret, traced_ret in Hs.
  repeat match type of Hs with context [let '(_, _) := ?m in _] => destruct m as [? ?] end.
  injection Hs as <- <- <-. simpl in Hd2. rewrite <- app_assoc in Hd2. eexists. split; [exact Hd2|].
  constructor; [|done]. apply collector_law.
Qed.

Lemma same_names (cs : list (Collector E Txn)) specs more :
  Forall2 (λ c spec, collector_kind (name (collector_plugin c)) = Some (spec_kind spec)) cs specs →
  Forall2 (λ spec diagnostic, collector_kind (diagnostic_name diagnostic) = Some (spec_kind spec)) specs more →
  diagnostic_name <$> more = map (λ c, name (collector_plugin c)) cs.
Proof.
  intros Hsp. revert more. induction Hsp as [|c spec cs specs Hk Hsp IH]; intros more Hmore;
    inversion Hmore as [|? diagnostic ? more' Hd Hrest]; [done|].
  simpl. f_equal; [by eapply collector_kind_inj|by apply IH].
Qed.

Lemma from_to_wire (l : list PluginDiagnostic) : from_wire <$> (to_wire <$> l) = l.
Proof. rewrite <- list_fmap_compose. rewrite <- (list_fmap_id l) at 2. apply list_fmap_ext. by intros ? [] ?. Qed.

Lemma write_capture_result_content r (w w' : World E) :
  write_capture_result r w = (Ok tt, w') →
  ∃ b, encode_result r = Ok b ∧ byte_length b ≤ MAX_CAPTURE_WIRE_BYTES ∧ content (env w') = Some b.
Proof.
  unfold write_capture_result, mbind, attempt_bind, of_result. destruct (capture_result_file w) as [[[]|] w1]; [|done].
  destruct (encode_result r) as [b|] eqn:Hb; [|done]. case_decide; [done|].
  unfold try, lift. pose proof (write_law b (env w1)) as Hw. destruct (write_result b (env w1)) as [[[]|] e]; [|done].
  pose proof (sync_keeps e) as Hs. simpl in Hw |- *. destruct (sync_result e) as [sr e2]. simpl in Hs |- *.
  intros [= _ <-]. simpl. exists b. split; [done|]. split; [lia|]. rewrite Hs. by apply Hw.
Qed.

(** A failure of the supervisor's own file operations. *)
Definition io_failure (o : IsolatedCaptureOutcome) : Prop :=
  o ∈ [CaptureFailed "cannot inspect capture-helper result"; CaptureFailed "cannot rewind capture-helper result";
       CaptureFailed "cannot read capture-helper result"].

Lemma decode_result_reads f b r (w : World E) :
  content (env w) = Some b → encode_result r = Ok b → byte_length b ≤ MAX_CAPTURE_WIRE_BYTES →
  result_version r = CAPTURE_WIRE_VERSION →
  io_failure (decode_result f w).1 ∨
  (decode_result f w).1 = CaptureCompleted (result_data r) (from_wire <$> result_diagnostics r).
Proof.
  intros Hc Hb Hlen Hv. destruct (message_law r b Hb) as [Hm Hpos].
  unfold decode_result, mbind, traced_bind, lift, io_failure.
  destruct (length_reads f b (env w) Hc) as [Hc1 Hn]. destruct (file_length f (env w)) as [[n|] e1]; [|left; set_solver].
  rewrite (Hn n eq_refl). simpl in Hc1. case_decide as Hsize; [lia|]. simpl.
  pose proof (rewind_keeps f b e1 Hc1) as Hc2. destruct (file_rewind f e1) as [[[]|] e2]; [|left; set_solver]. simpl in Hc2 |- *.
  pose proof (read_reads f b e2 Hc2) as Hread. destruct (file_read_to_end f e2) as [[b'|] e3]; [|left; set_solver].
  rewrite (Hread b' eq_refl). right. simpl. unfold decode_bytes. rewrite Hm. by rewrite !decide_False by (by intros []).
Qed.

(** What the helper of a pipeline gathers reaches the supervisor unchanged:
    if a helper started on the pipeline's own request succeeds, then the
    supervisor, unless its own file operations fail, receives exactly the data and
    diagnostics that the collectors left in the helper, with one diagnostic for
    each task-facing collector of the pipeline, in the pipeline's order. *)
Theorem helper_result_arrives (p : Pipeline E Txn) (event : CrashEvent) (request : TaskCaptureRequest)
    (request_json : string) (f : F) (w w' : World E) :
  from_pipeline p event = Ok (Some request) → encode_request request = Ok request_json →
  run_capture_helper request_json w = (Ok tt, w') →
  ∃ task thread w1 w2 data d,
    inherited_capture_ports (expect_crashed_thread request) w = (Ok (task, thread), w1) ∧
    (t ← now; run_specs (with_crashed_thread event thread) (capture_stack_memory (collection_policy p)) task
       (request_collectors request) collected_default (diagnostics_new t)) w1 = ((data, d), w2) ∧
    diagnostic_name <$> plugins d = isolated_names p ∧
    let out := (decode_result f w').1 in
    io_failure out ∨
    out = CaptureCompleted (mkCaptureData (threads (raw data)) (images (raw data)) (memory_map (raw data)) (heap (raw data)))
            (plugins d).
Proof.
  intros Hp Hjson Hrun. unfold from_pipeline, mbind, result_bind in Hp.
  destruct (collector_specs (collectors p)) as [specs|] eqn:Hspecs; [|done].
  assert (request = mkRequest CAPTURE_WIRE_VERSION event (capture_stack_memory (collection_policy p)) specs
            (bool_decide (is_Some (crashed_thread event)))) as -> by (by destruct specs; [|injection Hp as <-]).
  unfold run_capture_helper, mbind, attempt_bind, of_result in Hrun. rewrite (request_law _ _ Hjson) in Hrun.
  rewrite decide_False in Hrun by (by intros []).
  destruct (inherited_capture_ports _ w) as [[[task thread]|] w1] eqn:Hports; [|done].
  unfold run in Hrun. destruct (collect_in_helper _ task thread w1) as [r w2] eqn:Hcollect.
  unfold settle in Hrun. destruct (write_capture_result r w2) as [written w3] eqn:Hwrite.
  destruct written as [[]|]; [|done]. destruct (write_capture_result_content _ _ _ Hwrite) as (b & Hb & Hlen & Hc).
  unfold collect_in_helper, mbind, traced_bind in Hcollect. simpl in Hcollect.
  destruct (now w1) as [t w11] eqn:Ht.
  pose proof (run_specs_names (with_crashed_thread event thread) (capture_stack_memory (collection_policy p)) task specs
    collected_default (diagnostics_new t) w11) as Hnames.
  destruct (run_specs _ _ task specs _ _ w11) as [[data d] w12] eqn:Hspec. injection Hcollect as <- <-.
  exists task, thread, w1, w12, data, d. split; [done|].
  split; [unfold mbind, traced_bind; rewrite Ht; exact Hspec|]. split.
  - destruct Hnames as (more & -> & Hmore). eapply same_names; [by apply collector_specs_names|done].
  - simpl. assert (content (env w') = Some b) as Hc'.
    { injection Hrun as <-. simpl. rewrite release_keeps. destruct thread; by rewrite ?release_keeps. }
    destruct (decode_result_reads f b _ w' Hc' Hb Hlen eq_refl) as [?|Hout]; [by left|right].
    rewrite Hout. simpl. by rewrite from_to_wire.
Qed.

End Wire.
(** ** A concrete helper *)

#[export] Instance TerminationReason_eq_dec : EqDecision TerminationReason.
Proof. solve_decision. Defined.
#[export] Instance CrashEvent_eq_dec : EqDecision CrashEvent.
Proof. solve_decision. Defined.
#[export] Instance TaskCollectorSpec_eq_dec : EqDecision TaskCollectorSpec.
Proof. solve_decision. Defined.
#[export] Instance TaskCaptureRequest_eq_dec : EqDecision TaskCaptureRequest.
Proof. solve_decision. Defined.

(** A system where time passes with every clock read and sleep, where the helper
    ends after [polls_left] more waits, and where the result file holds at most
    one message. *)
Module Example.

Record Sim := mkSim { sim_time : Z; polls_left : nat; taken : bool; sim_file : option TaskCaptureResult }.

Definition tick (d : Z) (e : Sim) : Sim := mkSim (sim_time e + d) (polls_left e) (taken e) (sim_file e).

#[export] Instance sim_clock : Clock Sim := λ e, (sim_time e, tick 1000 e).

Definition sim_waitpid (_ : Z) (e : Sim) : result Z WaitStatus * Sim :=
  match polls_left e with
  | O => (Ok (WaitExited 0), e)
  | S n => (Ok WaitStillAlive, mkSim (sim_time e) n (taken e) (sim_file e))
  end.

#[export] Instance sim_spawn : SpawnOps Sim := {|
  waitpid := sim_waitpid;
  kill := λ _ e, (None, e);
  thread_sleep := λ d e, tick (Z.max 0 d) e;
  errno_display := λ _, "error"%string;
  libc_call := λ _ e, (0, e);
  environment_has_nul := λ _, false;
  duplicate_fd := λ fd e, (Ok (fd + 1), e);
  mach_port_allocate := λ e, (0, 17, e);
  mach_port_release := λ _ e, e;
  mach_send := λ _ _ _ e, (0, e);
  mach_receive := λ _ timeout_ms e,
    (Ok (if timeout_ms =? CAPABILITY_HANDOFF_TIMEOUT_MS then two_port_message 21 None else one_port_message 23), e);
  mach_msg_destroy := λ _ e, e;
  posix_spawn := λ _ _ e, (0, 99, e);
  exception_port := λ e, (Ok (1, true, 13), e);
  result_fd_flags := λ e, (Ok true, e);
  result_fd_taken := taken;
  take_result_fd := λ e, mkSim (sim_time e) (polls_left e) true (sim_file e)
|}.

Definition event : CrashEvent :=
  mkCrashEvent "0123" Crash None (Some 1) (Some 1) (Some 0) [] None false 42 "target" None.

Definition thread_name_of (k : TaskCollectorKind) : string :=
  match k with ThreadKind => "ThreadCollector" | MemoryKind => "MemoryCollector" | DylibKind => "DylibCollector" end.

(** A thread collector finds one thread; the others find nothing. *)
Definition sim_collector (k : TaskCollectorKind) : Collector Sim unit :=
  mkCollector (mkPlugin (thread_name_of k) (thread_name_of k) Cooperative Critical [] [] (λ _, true) CategoryDefault) IsolatedTask
    (λ _ _ _ s, let '(data, cells, e) := s in
       let r := raw data in
       let found := match k with ThreadKind => [mkThreadData 7 1 None true None [] None] | _ => [] end in
       ((mkCollected (mkRawData (threads r ++ found) (images r) (memory_map r) (heap r) (breadcrumbs r) (crash_context r)
          (settings_snapshot r) (attachments r) (attachment_registrations r) (screenshots r) (symbols r)
          (environment r) (process_output r)) None None None false, cells, e), PluginRun.Value (Ok tt))).

Definition pipeline : Pipeline Sim unit :=
  mkPipeline true ALL_ENABLED POLICY_MINIMAL [] [sim_collector ThreadKind; sim_collector DylibKind] [] [] [] None None.

Definition request : TaskCaptureRequest :=
  mkRequest CAPTURE_WIRE_VERSION event false
    [mkSpec ThreadKind (Some DEFAULT_COLLECTOR_TIMEOUT); mkSpec DylibKind (Some DEFAULT_COLLECTOR_TIMEOUT)] false.

#[export] Instance sim_wire : WireOps Sim unit TaskCaptureResult unit := {|
  encode_request := λ r, if decide (r = request) then Ok "request"%string else Err "too large"%string;
  decode_request := λ _, Ok request;
  encode_result := Ok;
  decode_message := λ b, (Ok b, 1);
  byte_length := λ _, 1;
  current_exe := λ e, (Ok "/monitor"%string, e);
  tempfile := λ e, (Ok tt, e);
  as_raw_fd := λ _, 5;
  file_length := λ _ e, (Ok (match sim_file e with Some _ => 1 | None => 0 end), e);
  file_rewind := λ _ e, (Ok tt, e);
  file_read_to_end := λ _ e, (ok_or (sim_file e) "empty"%string, e);
  write_result := λ b e, (Ok tt, mkSim (sim_time e) (polls_left e) (taken e) (Some b));
  sync_result := λ e, (Ok tt, e);
  deallocate_ports := λ _ e, e;
  new_collector := λ k _, sim_collector k
|}.

Lemma sim_laws : HelperLaws Sim unit TaskCaptureResult unit sim_time 2.
Proof.
  constructor; intros; simpl; try lia.
  - unfold sim_waitpid. by destruct (polls_left e).
  - destruct (polls_left (env w)) eqn:Hn; unfold mbind, traced_bind, lift; simpl; unfold sim_waitpid; by rewrite Hn.
Qed.

Lemma sim_wire_laws : WireLaws Sim unit TaskCaptureResult unit sim_file.
Proof.
  constructor; simpl; try done.
  - intros r s H. case_decide; [by subst|done].
  - by intros r b [= ->].
  - intros f b e ->. split; [done|]. by intros n [= <-].
  - intros f b e ->. by intros b' [= <-].
  - by intros [].
Qed.

Definition start_world : World Sim := mkWorld (mkSim 0 3 false None) [].

(** The helper has written its result. *)
Definition written_world : World Sim :=
  mkWorld (mkSim 0 3 false (Some (mkCaptureResult CAPTURE_WIRE_VERSION capture_data_default []))) [].

End Example.
Import Example.

Lemma supervisor_always_answers_witness :
  let '(o, w') := run_isolated_capture (Txn := unit) (Bytes := TaskCaptureResult) (F := unit) 1001 2 request tt 5
                    CAPTURE_DEADLINE written_world in
  o = Some (CaptureCompleted capture_data_default []) ∧ helper_run (trace w') (CaptureCompleted capture_data_default []).
Proof.
  pose proof (supervisor_always_answers (Txn := unit) (Bytes := TaskCaptureResult) (F := unit) sim_time 2 1001 request tt 5
    CAPTURE_DEADLINE written_world sim_laws ltac:(vm_compute; discriminate) ltac:(lia)) as H.
  assert ((run_isolated_capture (Txn := unit) (Bytes := TaskCaptureResult) (F := unit) 1001 2 request tt 5
             CAPTURE_DEADLINE written_world).1 = Some (CaptureCompleted capture_data_default [])) as Ho by (vm_compute; reflexivity).
  destruct (run_isolated_capture _ _ _ _ _ _ _) as [o w']. destruct H as (out & l & Hout & Hl & Hrun & _).
  simpl in Ho. rewrite Ho in Hout. injection Hout as <-. split; [exact Ho|]. rewrite Hl. exact Hrun.
Defined.

Lemma helper_result_arrives_witness :
  ∃ d, diagnostic_name <$> plugins d = ["ThreadCollector"; "DylibCollector"]%string.
Proof.
  destruct (helper_result_arrives Example.sim_file (laws := Example.sim_wire_laws) Example.pipeline Example.event Example.request
    "request" tt Example.start_world _ ltac:(reflexivity) ltac:(reflexivity) ltac:(vm_compute; reflexivity))
    as (task & thread & w1 & w2 & data & d & _ & _ & Hd & _).
  exists d. exact Hd.
Defined.
End CaptureHelperSpec.
