(* ===== verification/Capture.v ===== *)
(** * Live capture (src/pipeline/mod.rs)

    [capture_event] and [handle_event]: suspend the target, copy the shared
    memory, run the collectors, release the suspension, and hand the owned data
    to finalization. The model threads the environment, the platform calls and
    one trace that interleaves them with the collector stages. The steps of the
    helper process and of the in-process worker thread belong to the captures of
    [Worker]. *)

From stdpp Require Import pretty.
From S2P Require Import Prelude.
From S2P Require Import Traced.
From S2P Require Import ShmLayout.
From S2P Require Import ShmSnapshot.
From S2P Require Import Config.
From S2P Require Import PipelineTypes.
From S2P Require Import TaskControl.
From S2P Require Import CaptureSpawn.
From S2P Require Import PluginOrder.
From S2P Require Import PluginRun.
From S2P Require Import Pipeline.
From S2P Require Import Finalize.
From S2P Require Import FinalizeSpec.

Module Capture.
Export FinalizeSpec.

Inductive CaptureStep : Type :=
| Platform (c : TaskControl.PlatformCall)
| TookShmSnapshot (policy : ShmSnapshotPolicy)
| Stage (s : Step)
| Helper (s : CaptureSpawn.HelperStep)
| HandedOver
| CancelRequested.

Record CaptureWorld (E : Type) := mkCaptureWorld {
  capture_env : E;
  tasks : TaskControl.World;
  capture_trace : list CaptureStep
}.
Arguments mkCaptureWorld {E}.
Arguments capture_env {E}.
Arguments tasks {E}.
Arguments capture_trace {E}.

Definition suspend_failure_policy (event : CrashEvent) : TaskControl.SuspendFailurePolicy :=
  if bail_on_suspend_failure event then TaskControl.SkipCapture else TaskControl.BestEffort.

Section Capture.
Context {E Txn : Type} {clock : Clock E} {wall : WallClock E} {ops : ArtifactOps E Txn}.
Context {platform : TaskControl.PlatformOps}.
(** The derived [Debug] text of a consistency issue, and another thread's view
    of the collectors' cancellation flag. *)
Context (debug_issue : ShmConsistencyIssue → string).
Notation Pipeline := (Pipeline E Txn).
Notation World := (CaptureWorld E).

(** Run a stage computation, or a platform computation, and log its steps. *)
Definition stage {A : Type} (m : pipe E A) (w : World) : A * World :=
  let '(a, w') := m (mkWorld (capture_env w) []) in
  (a, mkCaptureWorld (env w') (tasks w) (capture_trace w ++ map Stage (trace w'))).

Definition on_platform {A : Type} (m : TaskControl.World → TaskControl.World * A) (w : World) : A * World :=
  let '(t, a) := m (tasks w) in
  (a, mkCaptureWorld (capture_env w) t
        (capture_trace w ++
         map Platform (drop (length (TaskControl.calls (tasks w))) (TaskControl.calls t)))).

(** ** Preparation *)

Definition resolved_output_root (p : Pipeline) : pipe E (result string PathBuf) :=
  match output_dir p with Some path => mret (Ok path) | None => lift pending_dir_path end.

Definition create_report_context (p : Pipeline) (event : CrashEvent) : pipe E (result string ReportContext) :=
  root ← resolved_output_root p;
  mret (match root with
        | Err error => Err error
        | Ok root =>
            Ok (context_with_policy event root
                  (mkReportPolicy (collection_policy p) (byte_budget report_policy_default)
                     (capture_deadline report_policy_default) (finalize_deadline report_policy_default)))
        end).

Definition has_collector (p : Pipeline) (n : string) : bool :=
  existsb (λ c, bool_decide (name (collector_plugin c) = n)) (collectors p).

Definition snapshot_policy (p : Pipeline) : ShmSnapshotPolicy :=
  let raw_shm := persist_raw_shm (collection_policy p) in
  mkShmSnapshotPolicy
    (raw_shm || has_collector p "BreadcrumbCollector")
    (raw_shm || has_collector p "ContextCollector")
    (capture_shm_attachments (collection_policy p) && has_collector p "AttachmentCollector")
    (capture_shm_screenshots (collection_policy p) && has_collector p "ScreenshotCollector").

Definition snapshot_shm_while_suspended (p : Pipeline) (deadline : option Z) (w : World)
    : result string (option OwnedShmSnapshot) * World :=
  match shm p with
  | None => (Ok None, w)
  | Some mapping =>
      let '(r, e) := mapping deadline (snapshot_policy p) (capture_env w) in
      (match r with
       | Ok s => Ok (Some s)
       | Err error => Err ("shared-memory snapshot failed: " +:+ error)%string
       end,
       mkCaptureWorld e (tasks w) (capture_trace w ++ [TookShmSnapshot (snapshot_policy p)]))
  end.

Definition snapshot_consistency_error (snapshot : option OwnedShmSnapshot) : option string :=
  s ← snapshot;
  first ← head (consistency_issues s);
  Some ("shared-memory snapshot contained " +:+ pretty (Z.of_nat (length (consistency_issues s))) +:+
        " unstable publication unit(s); affected bytes were sanitized; first issue: " +:+ debug_issue first)%string.

(** The snapshot taken under suspension, with its diagnostics. *)
Definition take_snapshot (p : Pipeline) (d : Diagnostics) (w : World)
    : Diagnostics * option OwnedShmSnapshot * World :=
  let '(r, w) := snapshot_shm_while_suspended p None w in
  match r with
  | Ok snapshot =>
      match snapshot_consistency_error snapshot with
      | Some error => let '(d, w) := stage (record_now d "ShmSnapshot" (Error error)) w in (d, snapshot, w)
      | None => (d, snapshot, w)
      end
  | Err error => let '(d, w) := stage (record_now d "ShmSnapshot" (Error error)) w in (d, None, w)
  end.

(** [failure_sink.drain_into(&mut payload.diagnostics)]. *)
Fixpoint drain_sink (failures : list TaskControl.TaskControlFailure) (d : Diagnostics) : pipe E Diagnostics :=
  match failures with
  | [] => mret d
  | f :: failures =>
      d ← record_now d "TaskResume" (Error (TaskControl.failure_to_string f));
      drain_sink failures d
  end.

(** An empty failure sink: each capture has its own, and draining empties it. *)
Definition new_sink (w : World) : World :=
  mkCaptureWorld (capture_env w) (TaskControl.mkWorld (TaskControl.calls (tasks w)) []) (capture_trace w).

(** ** The capture *)

(** From the collectors to the hand-off; [guard] is the owned suspension, if
    there is one. *)
Definition collect_and_release (p : Pipeline) (event : CrashEvent) (task : mach_port_t)
    (context : ReportContext) (guard : option TaskControl.TaskSuspendGuard)
    (snapshot : option OwnedShmSnapshot) (d : Diagnostics) (w : World)
    : TaskControl.completion (CaptureOutcome ReportContext) * World :=
  let '(payload, w) :=
    stage (collect_snapshot_by_access p event task (λ _, false) false snapshot context None) w in
  let '(released, w) :=
    match guard with
    | Some g => on_platform (TaskControl.finish g) w
    | None => (TaskControl.Returned tt, w)
    end in
  match released with
  | TaskControl.Unwinding => (TaskControl.Unwinding, w)
  | TaskControl.Returned _ =>
      let '(collected, w) :=
        stage (drain_sink (TaskControl.failure_sink (tasks w)) (payload_diagnostics payload)) w in
      let w := new_sink w in
      let d := append_plugins d (plugins collected) in
      let '(unix, w) := stage (lift unix_now) w in
      (TaskControl.Returned (Captured (Types.with_report_context event context
         (mkPayload (payload_data payload) (payload_raw_shm payload) d) unix)), w)
  end.

Definition new_diagnostics (w : World) : Diagnostics * World :=
  let '(t, w) := stage now w in (diagnostics_new t, w).

Definition capture_event (p : Pipeline) (event : CrashEvent) (task : mach_port_t) (w : World)
    : TaskControl.completion (CaptureOutcome ReportContext) * World :=
  if negb (report_enabled p (report_type event)) then
    let '(d, w) := new_diagnostics w in (TaskControl.Returned (CaptureSkipped d), w)
  else
  let '(context, w) := stage (create_report_context p event) w in
  match context with
  | Err error =>
      let '(d, w) := new_diagnostics w in
      let '(d, w) := stage (record_now d "ReportContext" (Error error)) w in
      (TaskControl.Returned (CaptureSkipped d), w)
  | Ok context =>
      let '(d, w) := new_diagnostics w in
      let '(unix, w) := stage (lift unix_now) w in
      let d := ensure_emergency_snapshot d event None unix in
      let w := new_sink w in
      let '(acquired, w) := on_platform (TaskControl.acquire task) w in
      match acquired with
      | TaskControl.Unwinding => (TaskControl.Unwinding, w)
      | TaskControl.Returned (Ok guard) =>
          let '(d, snapshot, w) := take_snapshot p d w in
          collect_and_release p event task context (Some guard) snapshot d w
      | TaskControl.Returned (Err error) =>
          let '(d, w) := stage (record_now d "CaptureSuspend" (Error error)) w in
          match suspend_failure_policy event with
          | TaskControl.SkipCapture => (TaskControl.Returned (CaptureSkipped d), w)
          | TaskControl.BestEffort => collect_and_release p event task context None None d w
          end
      end
  end.

Definition handle_event (p : Pipeline) (event : CrashEvent) (task : mach_port_t) (w : World)
    : TaskControl.completion Diagnostics * World :=
  if negb (report_enabled p (report_type event)) then
    let '(d, w) := new_diagnostics w in (TaskControl.Returned d, w)
  else
  let '(outcome, w) := capture_event p event task w in
  match outcome with
  | TaskControl.Unwinding => (TaskControl.Unwinding, w)
  | TaskControl.Returned (CaptureSkipped d) => (TaskControl.Returned d, w)
  | TaskControl.Returned (Captured c) =>
      let '(d, w) := stage (finalize_captured p c) w in (TaskControl.Returned d, w)
  end.

End Capture.

(** ** The capture protocol *)

(** What a capture does, with the suspension it used: nothing when disabled or
    without a report directory; a failed suspend is never followed by a shared
    memory snapshot, and a mandatory one not even by collectors; under an owned
    suspension the snapshot and the collectors come before the release, which
    is the last thing done to the task and follows the release policy. *)
Inductive capture_protocol (task : mach_port_t) (event : CrashEvent) (policy : ShmSnapshotPolicy)
    : list CaptureStep → Prop :=
| not_started : capture_protocol task event policy []
| suspend_unwound : capture_protocol task event policy [Platform (TaskControl.Suspend task TaskControl.RPanic)]
| mandatory_suspend_failed error :
    bail_on_suspend_failure event = true →
    capture_protocol task event policy [Platform (TaskControl.Suspend task (TaskControl.RErr error))]
| best_effort error collected :
    bail_on_suspend_failure event = false → Forall is_collect collected →
    capture_protocol task event policy
      (Platform (TaskControl.Suspend task (TaskControl.RErr error)) :: map Stage collected)
| under_suspension snapshot collected released completion failure :
    snapshot = [] ∨ snapshot = [TookShmSnapshot policy] → Forall is_collect collected →
    TaskControl.release_trace task released completion failure →
    capture_protocol task event policy
      (Platform (TaskControl.Suspend task TaskControl.ROk) :: snapshot ++ map Stage collected ++ map Platform released).

Section Spec.
Context {E Txn : Type} {clock : Clock E} {wall : WallClock E} {ops : ArtifactOps E Txn}.
Context {platform : TaskControl.PlatformOps}.
Context (debug_issue : ShmConsistencyIssue → string).
Notation Pipeline := (Pipeline E Txn).
Notation World := (CaptureWorld E).

(** [w'] extends the capture trace of [w] by [l] and the platform calls
    accordingly. *)
Definition appends (w w' : World) (l : list CaptureStep) : Prop :=
  capture_trace w' = capture_trace w ++ l ∧
  TaskControl.calls (tasks w') =
    TaskControl.calls (tasks w) ++ omap (λ s, match s with Platform c => Some c | _ => None end) l.

Lemma appends_refl w : appends w w [].
Proof. split; by rewrite app_nil_r. Qed.

Lemma appends_trans w1 w2 w3 l1 l2 : appends w1 w2 l1 → appends w2 w3 l2 → appends w1 w3 (l1 ++ l2).
Proof. intros [H1 H2] [H3 H4]. split; [by rewrite H3, H1, app_assoc|]. by rewrite H4, H2, omap_app, app_assoc. Qed.

Lemma appends_new_sink w w' l : appends w w' l → appends (new_sink w) w' l.
Proof. done. Qed.

Lemma omap_stage l : omap (λ s, match s with Platform c => Some c | _ => None end) (map Stage l) = [].
Proof. by induction l. Qed.

Lemma omap_platform l : omap (λ s, match s with Platform c => Some c | _ => None end) (map Platform l) = l.
Proof. induction l as [|c l IH]; [done|]. unfold omap in *. simpl. by rewrite IH. Qed.

Lemma stage_appends {A : Type} (P : list Step → A → Prop) (m : pipe E A) (w : World) :
  emits P m → let '(a, w') := stage m w in
  ∃ l, appends w w' (map Stage l) ∧ P l a ∧ tasks w' = tasks w.
Proof.
  intros Hm. unfold stage. destruct (Hm (mkWorld (capture_env w) [])) as (l & Hl & HP).
  destruct (m _) as [a w']. simpl in *. exists l. unfold appends. simpl.
  rewrite Hl, omap_stage, app_nil_r. done.
Qed.

Lemma stage_silent {A : Type} (m : pipe E A) (w : World) :
  silent m → let '(a, w') := stage m w in appends w w' [] ∧ tasks w' = tasks w.
Proof.
  intros Hm. pose proof (stage_appends _ m w Hm) as H. destruct (stage m w) as [a w'].
  destruct H as (l & Hl & -> & Ht). done.
Qed.

Lemma on_platform_appends {A : Type} (m : TaskControl.World → TaskControl.World * A) (w : World) l :
  TaskControl.calls (m (tasks w)).1 = TaskControl.calls (tasks w) ++ l →
  let '(a, w') := on_platform m w in appends w w' (map Platform l) ∧ a = (m (tasks w)).2 ∧ tasks w' = (m (tasks w)).1.
Proof.
  intros Hl. unfold on_platform. destruct (m (tasks w)) as [t a]. simpl in *. split; [|done].
  unfold appends. simpl. by rewrite Hl, drop_app_length, omap_platform.
Qed.

Lemma record_now_silent d n st : silent (record_now d n st : pipe E Diagnostics).
Proof. unfold record_now. apply emits_silent; [apply silent_now|]. intros t. apply silent_ret. Qed.

Lemma drain_sink_silent fs d : silent (drain_sink fs d : pipe E Diagnostics).
Proof.
  revert d. induction fs as [|f fs IH]; intros d; cbn [drain_sink]; [apply silent_ret|].
  apply emits_silent; [apply record_now_silent|]. apply IH.
Qed.

Lemma create_report_context_silent (p : Pipeline) event : silent (create_report_context p event).
Proof.
  unfold create_report_context. apply emits_silent; [|intros; apply silent_ret].
  unfold resolved_output_root. destruct (output_dir p); [apply silent_ret|apply silent_lift].
Qed.

Lemma take_snapshot_appends (p : Pipeline) d w :
  let '(_, _, w') := take_snapshot debug_issue p d w in
  ∃ s, (s = [] ∨ s = [TookShmSnapshot (snapshot_policy p)]) ∧ appends w w' s ∧ tasks w' = tasks w.
Proof.
  unfold take_snapshot, snapshot_shm_while_suspended.
  assert (∀ w1 s n st, (s = [] ∨ s = [TookShmSnapshot (snapshot_policy p)]) → appends w w1 s → tasks w1 = tasks w →
    let '(_, w') := stage (record_now d n st) w1 in
    ∃ s, (s = [] ∨ s = [TookShmSnapshot (snapshot_policy p)]) ∧ appends w w' s ∧ tasks w' = tasks w) as Hrec.
  { intros w1 s n st Hs Hw1 Ht1. pose proof (stage_silent (record_now d n st) w1 (record_now_silent d n st)) as H.
    destruct (stage _ w1) as [d' w']. destruct H as [Hw' Ht']. exists s.
    split; [done|]. split; [|congruence]. rewrite <- (app_nil_r s). by eapply appends_trans. }
  destruct (shm p) as [mapping|].
  - destruct (mapping None (snapshot_policy p) (capture_env w)) as [r e].
    set (w1 := mkCaptureWorld e (tasks w) (capture_trace w ++ [TookShmSnapshot (snapshot_policy p)])).
    assert (appends w w1 [TookShmSnapshot (snapshot_policy p)]) as Hw1.
    { split; [done|]. simpl. by rewrite app_nil_r. }
    destruct r as [s|error].
    + destruct (snapshot_consistency_error debug_issue (Some s)) as [error|].
      * pose proof (Hrec w1 _ "ShmSnapshot"%string (Error error) (or_intror eq_refl) Hw1 eq_refl) as H.
        by destruct (stage _ w1) as [d' w'].
      * exists [TookShmSnapshot (snapshot_policy p)]. auto.
    + pose proof (Hrec w1 _ "ShmSnapshot"%string (Error ("shared-memory snapshot failed: " +:+ error)%string)
                    (or_intror eq_refl) Hw1 eq_refl) as H. by destruct (stage _ w1) as [d' w'].
  - exists []. split; [by left|]. split; [apply appends_refl|done].
Qed.

(** The tail of a capture: collectors, then the release of the owned guard. *)
Lemma collect_and_release_appends (p : Pipeline) event task context guard snapshot d w :
  (∀ g, guard = Some g → g = TaskControl.mkGuard task true) →
  let '(_, w') := collect_and_release p event task context guard snapshot d w in
  ∃ collected released, Forall is_collect collected ∧
    appends w w' (map Stage collected ++ map Platform released) ∧
    match guard with
    | None => released = []
    | Some _ => ∃ completion failure, TaskControl.release_trace task released completion failure
    end.
Proof.
  intros Hguard. unfold collect_and_release.
  pose proof (stage_appends _ _ w (collect_snapshot_emits p event task (λ _, false) false snapshot context None)) as H1.
  destruct (stage _ w) as [payload w1]. destruct H1 as (collected & Ha1 & Hc & Ht1).
  assert (let '(released, w2) :=
      match guard with
      | Some g => on_platform (TaskControl.finish g) w1
      | None => (TaskControl.Returned tt, w1)
      end in
    ∃ l, appends w1 w2 (map Platform l) ∧
      match guard with
      | None => l = []
      | Some _ => ∃ completion failure, TaskControl.release_trace task l completion failure
      end) as H2.
  { destruct guard as [g|]; [|exists []; split; [apply appends_refl|done]].
    rewrite (Hguard g eq_refl).
    pose proof (TaskControl.finish_release (TaskControl.mkGuard task true) (tasks w1)) as Hf.
    pose proof (TaskControl.release_spec (TaskControl.mkGuard task true) (tasks w1) eq_refl) as Hr.
    destruct (TaskControl.release _ _) as [[g' t'] c]. destruct Hr as (l & f & Hl & Hcalls & _).
    pose proof (on_platform_appends (TaskControl.finish (TaskControl.mkGuard task true)) w1 l) as Hp.
    rewrite Hf in Hp. specialize (Hp Hcalls). destruct (on_platform _ _) as [a w2]. destruct Hp as (Hp & _ & _).
    exists l. split; [done|]. eauto. }
  destruct (match guard with Some _ => _ | None => _ end) as [released w2]. destruct H2 as (l & Ha2 & Hl).
  pose proof (appends_trans _ _ _ _ _ Ha1 Ha2) as Ha. destruct released as [[]|]; [|by eauto].
  pose proof (stage_silent _ w2 (drain_sink_silent (TaskControl.failure_sink (tasks w2)) (payload_diagnostics payload))) as H3.
  destruct (stage _ w2) as [d' w3]. destruct H3 as [Ha3 _].
  pose proof (stage_silent (lift unix_now) (new_sink w3) (silent_lift _)) as H4.
  destruct (stage _ (new_sink w3)) as [unix w4]. destruct H4 as [Ha4 _].
  exists collected, l. split; [done|]. split; [|done].
  rewrite <- (app_nil_r (_ ++ _)). eapply appends_trans; [exact Ha|].
  rewrite <- (app_nil_r []). eapply appends_trans; [exact Ha3|]. exact Ha4.
Qed.

Lemma capture_event_appends (p : Pipeline) event task w :
  let '(_, w') := capture_event debug_issue p event task w in
  ∃ l, capture_protocol task event (snapshot_policy p) l ∧ appends w w' l ∧
    (report_enabled p (report_type event) = false → l = []).
Proof.
  unfold capture_event, new_diagnostics. destruct (report_enabled p (report_type event)); simpl negb; cbv iota.
  2:{ pose proof (stage_silent now w silent_now) as H. destruct (stage now w) as [t w1]. destruct H as [Ha _].
      exists []. split; [constructor|]. done. }
  pose proof (stage_silent _ w (create_report_context_silent p event)) as H1.
  destruct (stage _ w) as [[context|error] w1]; destruct H1 as [Ha1 _].
  2:{ pose proof (stage_silent now w1 silent_now) as H2. destruct (stage now w1) as [t w2]. destruct H2 as [Ha2 _].
      pose proof (stage_silent _ w2 (record_now_silent (diagnostics_new t) "ReportContext" (Error error))) as H3.
      destruct (stage _ w2) as [d w3]. destruct H3 as [Ha3 _]. exists []. split; [constructor|]. split; [|done].
      apply (appends_trans _ _ _ [] [] Ha1), (appends_trans _ _ _ [] [] Ha2 Ha3). }
  pose proof (stage_silent now w1 silent_now) as H2. destruct (stage now w1) as [t w2]. destruct H2 as [Ha2 _].
  pose proof (stage_silent (lift unix_now) w2 (silent_lift _)) as H3. destruct (stage _ w2) as [unix w3].
  destruct H3 as [Ha3 _].
  pose proof (appends_trans _ _ _ [] [] Ha1 (appends_trans _ _ _ [] [] Ha2 Ha3)) as Ha.
  set (d := ensure_emergency_snapshot _ _ _ _). clearbody d.
  set (w4 := new_sink w3). assert (appends w w4 []) as Ha4 by exact Ha. clearbody w4.
  pose proof (on_platform_appends (TaskControl.acquire task) w4
    [TaskControl.Suspend task (TaskControl.suspend_task (TaskControl.calls (tasks w4)) task)]) as Hacq.
  unfold TaskControl.acquire at 1 3 4, TaskControl.call_suspend in Hacq.
  destruct (TaskControl.suspend_task (TaskControl.calls (tasks w4)) task) as [|error|] eqn:Hs;
    cbn in Hacq; specialize (Hacq eq_refl); destruct (on_platform _ w4) as [acquired w5];
    destruct Hacq as (Ha5 & -> & _); pose proof (appends_trans _ _ _ _ _ Ha4 Ha5) as Ha6; cbn in Ha6.
  - pose proof (take_snapshot_appends p d w5) as H6.
    destruct (take_snapshot _ p d w5) as [[d' snapshot] w6]. destruct H6 as (s & Hsnap & Ha7 & _).
    pose proof (collect_and_release_appends p event task context (Some (TaskControl.mkGuard task true)) snapshot d' w6) as H7.
    destruct (collect_and_release _ _ _ _ _ _ _ w6) as [r w7].
    destruct H7 as (collected & released & Hc & Ha8 & completion & failure & Hr); [by intros g [= <-]|].
    eexists. split; [by eapply under_suspension|]. split; [|done].
    exact (appends_trans _ _ _ _ _ Ha6 (appends_trans _ _ _ _ _ Ha7 Ha8)).
  - pose proof (stage_silent _ w5 (record_now_silent d "CaptureSuspend" (Error error))) as H6.
    destruct (stage _ w5) as [d' w6]. destruct H6 as [Ha7 _].
    pose proof (appends_trans _ _ _ _ _ Ha6 Ha7) as Ha8. cbn in Ha8.
    unfold suspend_failure_policy. destruct (bail_on_suspend_failure event) eqn:Hb.
    + eexists. split; [by apply mandatory_suspend_failed|]. split; [exact Ha8|done].
    + pose proof (collect_and_release_appends p event task context None None d' w6) as H7.
      destruct (collect_and_release _ _ _ _ _ _ _ w6) as [r w7].
      destruct H7 as (collected & released & Hc & Ha9 & ->); [done|]. cbn in Ha9. rewrite app_nil_r in Ha9.
      eexists. split; [by eapply (best_effort _ _ _ error collected)|]. split; [|done].
      exact (appends_trans _ _ _ _ _ Ha8 Ha9).
  - eexists. split; [apply suspend_unwound|]. split; [exact Ha6|done].
Qed.

(** C4. Every capture follows its protocol, for every pipeline, platform reply
    and collector: the kill switch is checked before the target is touched; a
    snapshot of the shared memory is taken only under an owned suspension and
    only with the sections the privacy policy and the collectors call for; and
    an owned suspension outlives the collectors and is then released exactly
    once by the bounded policy. *)
Theorem capture_follows_protocol (p : Pipeline) (event : CrashEvent) (task : mach_port_t) (w : World) :
  let '(_, w') := capture_event debug_issue p event task w in
  ∃ l, capture_protocol task event (snapshot_policy p) l ∧
    capture_trace w' = capture_trace w ++ l ∧
    TaskControl.calls (tasks w') =
      TaskControl.calls (tasks w) ++ omap (λ s, match s with Platform c => Some c | _ => None end) l ∧
    (report_enabled p (report_type event) = false → l = []).
Proof.
  pose proof (capture_event_appends p event task w) as H.
  destruct (capture_event _ p event task w) as [r w']. destruct H as (l & Hl & [H1 H2] & H3). eauto.
Qed.

End Spec.
End Capture.
