(* ===== verification/Worker.v ===== *)
(** * The capture worker (src/pipeline/worker.rs)

    The boundary between live-task capture and report finalization: [capture]
    suspends the target, copies the shared memory and lets either a killable
    helper process ([CaptureIsolation]) or the in-process worker thread run the
    collectors, under one absolute deadline. It releases the target only when no
    helper can still hold rights to it, and contains it otherwise.

    A capture is a [flow]: it may finish, unwind, or (for want of fuel) still be
    polling its helper. What another thread does between a hand-over and its
    answer is an operation of [WorkerOps]; [WorkerThreads] treats the two threads
    as interleaved steps. *)

From S2P Require Import Prelude.
From S2P Require Import Traced.
From S2P Require Import ShmSnapshot.
From S2P Require Import ShmReader.
From S2P Require Import Config.
From S2P Require Import PipelineTypes.
From S2P Require Import TaskControl.
From S2P Require Import PluginRun.
From S2P Require Import Pipeline.
From S2P Require Import Finalize.
From S2P Require Import FinalizeSpec.
From S2P Require Import CaptureSpawn.
From S2P Require Import CaptureIsolation.
From S2P Require Import CaptureHelperSpec.
From S2P Require Import Capture.

Module Worker.
Export Capture.

(** [None]: still polling the helper. *)
Definition flow (E A : Type) : Type := CaptureWorld E → option (TaskControl.completion A) * CaptureWorld E.

#[export] Instance flow_ret (E : Type) : MRet (flow E) := λ A a w, (Some (TaskControl.Returned a), w).
#[export] Instance flow_bind (E : Type) : MBind (flow E) := λ A B f m w,
  let '(r, w) := m w in
  match r with
  | Some (TaskControl.Returned a) => f a w
  | Some TaskControl.Unwinding => (Some TaskControl.Unwinding, w)
  | None => (None, w)
  end.

(** How the wait for the worker thread ends. *)
Inductive Exchange : Type := Received | RecvTimeout | RecvDisconnected.

(** [try_send] tells whether the job was queued. [recv_timeout] answers for the
    bounded wait; its change of the environment is what the thread did so far
    when it did not answer in time. *)
Class WorkerOps (E : Type) := {
  supports_capture_isolation : E → bool;
  retain_task : mach_port_t → E → result string unit * E;
  spawn_capture_thread : E → result string unit * E;
  try_send_job : E → bool * E;
  recv_timeout : Z → E → Exchange * E;
  finish_thread : Z → E → E
}.

(** [sender] and [handle] tell whether the option holds a value. *)
Record CaptureWorker := mkCaptureWorker {
  isolated : bool;
  sender : bool;
  handle : bool;
  unavailable_reason : option string
}.

Section Worker.
Context {E Txn Bytes F : Type} {clock : Clock E} {wall : WallClock E} {aops : ArtifactOps E Txn}.
Context {platform : TaskControl.PlatformOps}.
Context {spawn : CaptureSpawn.SpawnOps E} {wire : CaptureIsolation.WireOps E Txn Bytes F} {wops : WorkerOps E}.
Context (debug_issue : ShmConsistencyIssue → string) (fuel retries : nat).
Notation Pipeline := (Pipeline E Txn).
Notation flow := (flow E).
Notation Outcome := (CaptureOutcome ReportContext).

(** ** Steps of a capture *)

Definition on_stage {A : Type} (m : traced E Step A) : flow A :=
  λ w, let '(a, w) := stage m w in (Some (TaskControl.Returned a), w).

Definition on_tasks {A : Type} (m : TaskControl.World → TaskControl.World * TaskControl.completion A) : flow A :=
  λ w, let '(c, w) := on_platform m w in (Some c, w).

Definition on_helper {A : Type} (m : traced E CaptureSpawn.HelperStep (option A)) : flow A :=
  λ w, let '(r, w') := m (mkWorld (capture_env w) []) in
    (TaskControl.Returned <$> r,
     mkCaptureWorld (env w') (tasks w) (capture_trace w ++ map Helper (trace w'))).

Definition log (s : CaptureStep) : flow unit := λ w,
  (Some (TaskControl.Returned tt), mkCaptureWorld (capture_env w) (tasks w) (capture_trace w ++ [s])).

Definition change_world {A : Type} (f : CaptureWorld E → A * CaptureWorld E) : flow A :=
  λ w, let '(a, w) := f w in (Some (TaskControl.Returned a), w).

(** ** Outcomes *)

Definition finish_suspend (guard : option TaskControl.TaskSuspendGuard) : flow unit :=
  match guard with Some g => on_tasks (TaskControl.finish g) | None => mret tt end.

Definition attach_owned_snapshot (outcome : Outcome) (snapshot : option OwnedShmSnapshot) : Outcome :=
  match outcome with
  | Captured c => Captured (attach_owned_shm_snapshot c snapshot)
  | CaptureSkipped d => CaptureSkipped d
  end.

Definition defer_owned_if_isolated (outcome : Outcome) (isolated : bool) (snapshot : option OwnedShmSnapshot) : Outcome :=
  if isolated then attach_owned_snapshot outcome snapshot else outcome.

Definition outcome_diagnostics (outcome : Outcome) : Diagnostics :=
  match outcome with Captured c => captured_diagnostics c | CaptureSkipped d => d end.

Definition set_diagnostics (outcome : Outcome) (d : Diagnostics) : Outcome :=
  match outcome with
  | Captured c =>
      Captured (mkCaptured (captured_event c) (report_context c) (captured_data c) (captured_raw_shm c)
                  (owned_shm_snapshot c) (owned_collectors_deferred c) d)
  | CaptureSkipped _ => CaptureSkipped d
  end.

Definition record_error (name : string) (error : option string) (d : Diagnostics) : traced E Step Diagnostics :=
  match error with Some error => record_now d name (Error error) | None => mret d end.

(** The failures of the sink are drained into the outcome last. *)
Definition with_task_control_diagnostics (outcome : Outcome) (suspend_error snapshot_error : option string) : flow Outcome :=
  d ← on_stage (record_error "CaptureSuspend" suspend_error (outcome_diagnostics outcome));
  d ← on_stage (record_error "ShmSnapshot" snapshot_error d);
  failures ← change_world (λ w, (TaskControl.failure_sink (tasks w), new_sink w));
  d ← on_stage (drain_sink failures d);
  mret (set_diagnostics outcome d).

Definition minimal_capture (event : CrashEvent) (context : ReportContext) (st : PluginStatus)
    (raw_shm : option RawShmSnapshot) : flow Outcome :=
  t ← on_stage now;
  d ← on_stage (record_now (diagnostics_new t) "CaptureWorker" st);
  unix ← on_stage (lift unix_now);
  mret (Captured (Types.with_report_context event context (mkPayload collected_default raw_shm d) unix)).

Definition timed_out_capture (event : CrashEvent) (context : ReportContext) (raw_shm : option RawShmSnapshot) : flow Outcome :=
  minimal_capture event context TimedOut raw_shm.

Definition failed_capture (event : CrashEvent) (context : ReportContext) (reason : string)
    (raw_shm : option RawShmSnapshot) : flow Outcome :=
  minimal_capture event context (Error reason) raw_shm.

Definition raw_shm_from_snapshot (snapshot : option OwnedShmSnapshot) (persist_raw_shm : bool) : option RawShmSnapshot :=
  if negb persist_raw_shm then None
  else (λ s, mkRawShm (raw_breadcrumb_bytes_owned s) (raw_context_bytes_owned s)) <$> snapshot.

(** ** The life of the worker *)

Definition start (p : Pipeline) (task : mach_port_t) (e : E) : CaptureWorker * E :=
  if negb (enabled p) then (mkCaptureWorker false false false None, e)
  else if supports_capture_isolation e then (mkCaptureWorker true false false None, e)
  else
  let '(retained, e) := retain_task task e in
  match retained with
  | Err error =>
      (mkCaptureWorker false false false
         (Some ("failed to retain task port for capture worker: " +:+ error)%string), e)
  | Ok _ =>
      let '(spawned, e) := spawn_capture_thread e in
      match spawned with
      | Ok _ => (mkCaptureWorker false true true None, e)
      | Err error =>
          (mkCaptureWorker false false false (Some ("failed to start capture worker: " +:+ error)%string), e)
      end
  end.

Definition retire (cw : CaptureWorker) (reason : string) : CaptureWorker :=
  mkCaptureWorker (isolated cw) false (handle cw) (Some reason).

(** The sender is dropped first, so that the thread's queue ends. *)
Definition shutdown (cw : CaptureWorker) (timeout : Z) (e : E) : E := finish_thread timeout e.

(** ** The capture *)

(** The locals of one capture once its report has a place. *)
Record Attempted := mkAttempted {
  at_event : CrashEvent;
  at_context : ReportContext;
  at_guard : option TaskControl.TaskSuspendGuard;
  at_suspend_error : option string;
  at_snapshot : option OwnedShmSnapshot;
  at_snapshot_error : option string
}.

Definition at_raw_shm (p : Pipeline) (a : Attempted) : option RawShmSnapshot :=
  raw_shm_from_snapshot (at_snapshot a) (persist_raw_shm (collection_policy p)).

Definition close (a : Attempted) (outcome : Outcome) : flow Outcome :=
  with_task_control_diagnostics outcome (at_suspend_error a) (at_snapshot_error a).

(** The request and the file of its result, before the target is suspended;
    an error is reported at once. *)
Definition isolated_job (p : Pipeline) (event : CrashEvent)
    : flow (result string (option (CaptureIsolation.TaskCaptureRequest * F))) :=
  match CaptureIsolation.from_pipeline p event with
  | Err error => mret (Err error)
  | Ok None => mret (Ok None)
  | Ok (Some request) =>
      file ← on_stage (lift CaptureIsolation.tempfile);
      mret (match file with
            | Ok f => Ok (Some (request, f))
            | Err error => Err ("cannot create capture-helper result file: " +:+ error)%string
            end)
  end.

(** No collectors for the task: nothing to run, and nothing went wrong. *)
Definition run_job (job : option (CaptureIsolation.TaskCaptureRequest * F)) (task : mach_port_t) (deadline : Z)
    : flow CaptureIsolation.IsolatedCaptureOutcome :=
  match job with
  | Some (request, f) => on_helper (CaptureIsolation.run_isolated_capture fuel retries request f task deadline)
  | None => mret (CaptureIsolation.CaptureCompleted CaptureIsolation.capture_data_default [])
  end.

Definition collected_from (data : CaptureIsolation.TaskCaptureData) : CollectedData :=
  let r := raw_default in
  mkCollected
    (mkRawData (CaptureIsolation.data_threads data) (CaptureIsolation.data_images data)
       (CaptureIsolation.data_memory_map data) (CaptureIsolation.data_heap data)
       (breadcrumbs r) (crash_context r) (settings_snapshot r) (attachments r) (attachment_registrations r)
       (screenshots r) (symbols r) (environment r) (process_output r))
    None None None false.

Definition contain (guard : option TaskControl.TaskSuspendGuard) (task : mach_port_t) (reason : string) : flow unit :=
  on_tasks (match guard with
            | Some g => TaskControl.contain_without_resume g reason
            | None => TaskControl.contain_task_without_resume task reason
            end).

(** The killable helper, then release or containment. *)
Definition capture_isolated (p : Pipeline) (task : mach_port_t) (deadline : Z)
    (job : option (CaptureIsolation.TaskCaptureRequest * F)) (a : Attempted) : flow Outcome :=
  o ← run_job job task deadline;
  outcome ← match o with
    | CaptureIsolation.CaptureCompleted data diagnostics =>
        _ ← finish_suspend (at_guard a);
        t ← on_stage now;
        unix ← on_stage (lift unix_now);
        mret (Captured (Types.with_report_context (at_event a) (at_context a)
               (mkPayload (collected_from data) (at_raw_shm p a) (append_plugins (diagnostics_new t) diagnostics)) unix))
    | CaptureIsolation.CaptureTimedOut =>
        _ ← finish_suspend (at_guard a); timed_out_capture (at_event a) (at_context a) (at_raw_shm p a)
    | CaptureIsolation.CaptureFailed error =>
        _ ← finish_suspend (at_guard a); failed_capture (at_event a) (at_context a) error (at_raw_shm p a)
    | CaptureIsolation.CleanupUnproven error =>
        let reason := ("capture-helper cleanup could not be proven; refusing to resume: " +:+ error)%string in
        _ ← contain (at_guard a) task reason;
        failed_capture (at_event a) (at_context a) reason (at_raw_shm p a)
    end;
  close a (attach_owned_snapshot outcome (at_snapshot a)).

(** The worker thread: hand the job over, wait for the rest of the budget, and
    publish the cancellation before the target runs again. *)
Definition capture_in_process (p : Pipeline) (cw : CaptureWorker) (task : mach_port_t) (deadline : Z) (a : Attempted)
    : flow (CaptureWorker * Outcome) :=
  let fall_back cw reason :=
    outcome ← failed_capture (at_event a) (at_context a) reason (at_raw_shm p a);
    outcome ← close a outcome;
    mret (cw, outcome) in
  if negb (sender cw) then
    _ ← finish_suspend (at_guard a);
    fall_back cw "capture worker is unavailable"%string
  else
  queued ← on_stage (lift try_send_job);
  if negb queued then
    _ ← finish_suspend (at_guard a);
    fall_back (retire cw "capture worker queue unavailable") "capture worker queue unavailable"%string
  else
  _ ← log HandedOver;
  t ← on_stage now;
  answer ← on_stage (lift (recv_timeout (saturating_duration_since deadline t)));
  match answer with
  | Received =>
      payload ← on_stage (collect_snapshot_by_access p (at_event a) task (λ _, false) false (at_snapshot a) (at_context a) None);
      _ ← finish_suspend (at_guard a);
      unix ← on_stage (lift unix_now);
      outcome ← close a (Captured (Types.with_report_context (at_event a) (at_context a) payload unix));
      mret (cw, outcome)
  | RecvTimeout =>
      _ ← log CancelRequested;
      _ ← finish_suspend (at_guard a);
      outcome ← timed_out_capture (at_event a) (at_context a) (at_raw_shm p a);
      outcome ← close a outcome;
      mret (retire cw "capture worker exceeded absolute deadline", outcome)
  | RecvDisconnected =>
      _ ← log CancelRequested;
      _ ← finish_suspend (at_guard a);
      fall_back (retire cw "capture worker disconnected") "capture worker disconnected"%string
  end.

(** The deadline passed: release the target and keep what there is. *)
Definition give_up_late (p : Pipeline) (cw : CaptureWorker) (a : Attempted) : flow (CaptureWorker * Outcome) :=
  _ ← finish_suspend (at_guard a);
  outcome ← timed_out_capture (at_event a) (at_context a) (at_raw_shm p a);
  outcome ← close a (defer_owned_if_isolated outcome (isolated cw) (at_snapshot a));
  mret (cw, outcome).

(** The snapshot under an owned suspension, and the error to report with it. *)
Definition snapshot_for (p : Pipeline) (deadline : Z) (a : Attempted) : flow Attempted :=
  match at_guard a with
  | None => mret a
  | Some _ =>
      r ← change_world (snapshot_shm_while_suspended p (Some deadline));
      mret (match r with
            | Ok snapshot =>
                mkAttempted (at_event a) (at_context a) (at_guard a) (at_suspend_error a) snapshot
                  (snapshot_consistency_error debug_issue snapshot)
            | Err error =>
                mkAttempted (at_event a) (at_context a) (at_guard a) (at_suspend_error a) None (Some error)
            end)
  end.

(** From the suspension on; [job] is there for an isolated worker. *)
Definition capture_suspended (p : Pipeline) (cw : CaptureWorker) (task : mach_port_t) (deadline : Z)
    (job : option (CaptureIsolation.TaskCaptureRequest * F)) (a : Attempted) : flow (CaptureWorker * Outcome) :=
  t ← on_stage now;
  if decide (deadline ≤ t) then give_up_late p cw a else
  a ← snapshot_for p deadline a;
  t ← on_stage now;
  if decide (deadline ≤ t) then give_up_late p cw a else
  if isolated cw then
    outcome ← capture_isolated p task deadline job a;
    mret (cw, outcome)
  else capture_in_process p cw task deadline a.

Definition capture_prepared (p : Pipeline) (cw : CaptureWorker) (event : CrashEvent) (context : ReportContext)
    (task : mach_port_t) (deadline : Z) (job : option (CaptureIsolation.TaskCaptureRequest * F))
    : flow (CaptureWorker * Outcome) :=
  _ ← change_world (λ w, (tt, new_sink w));
  acquired ← on_tasks (TaskControl.acquire task);
  match acquired with
  | Ok guard => capture_suspended p cw task deadline job (mkAttempted event context (Some guard) None None None)
  | Err error =>
      match suspend_failure_policy event with
      | TaskControl.SkipCapture =>
          t ← on_stage now;
          d ← on_stage (record_now (diagnostics_new t) "CaptureSuspend" (Error error));
          mret (cw, CaptureSkipped d)
      | TaskControl.BestEffort =>
          capture_suspended p cw task deadline job (mkAttempted event context None (Some error) None None)
      end
  end.

Definition capture (p : Pipeline) (cw : CaptureWorker) (event : CrashEvent) (task : mach_port_t) (deadline : Z)
    : flow (CaptureWorker * Outcome) :=
  if negb (report_enabled p (report_type event)) then
    t ← on_stage now; mret (cw, CaptureSkipped (diagnostics_new t))
  else
  context ← on_stage (create_report_context p event);
  match context with
  | Err error =>
      t ← on_stage now;
      d ← on_stage (record_now (diagnostics_new t) "ReportContext" (Error error));
      mret (cw, CaptureSkipped d)
  | Ok context =>
      t ← on_stage now;
      if decide (deadline ≤ t) then
        outcome ← timed_out_capture event context None;
        mret (cw, defer_owned_if_isolated outcome (isolated cw) None)
      else
      match unavailable_reason cw with
      | Some reason => outcome ← failed_capture event context reason None; mret (cw, outcome)
      | None =>
          if isolated cw then
            job ← isolated_job p event;
            match job with
            | Err error =>
                outcome ← failed_capture event context error None;
                mret (cw, defer_owned_if_isolated outcome true None)
            | Ok job => capture_prepared p cw event context task deadline job
            end
          else capture_prepared p cw event context task deadline None
      end
  end.

End Worker.
End Worker.
