(* ===== verification/WorkerSpec.v ===== *)
(** * The capture worker never resumes over a live helper

    [worker_protocol] is the grammar of what one [Worker.capture] does to the
    target and to helper processes, in order. The theorem holds for every
    pipeline, platform, helper and worker thread, errors and panics included. *)

From S2P Require Import Prelude.
From S2P Require Import Traced.
From S2P Require Import ShmLayout.
From S2P Require Import ShmSnapshot.
From S2P Require Import Config.
From S2P Require Import PipelineTypes.
From S2P Require Import TaskControl.
From S2P Require Import PluginRun.
From S2P Require Import Pipeline.
From S2P Require Import Finalize.
From S2P Require Import FinalizeSpec.
From S2P Require Import CaptureSpawn.
From S2P Require Import CaptureIsolation.
From S2P Require Import CaptureHelperSpec.
From S2P Require Import Capture.
From S2P Require Import Worker.

Module WorkerSpec.
Export Worker.

(** ** The protocol *)

Definition proven (o : CaptureIsolation.IsolatedCaptureOutcome) : bool :=
  match o with CaptureIsolation.CleanupUnproven _ => false | _ => true end.

(** What happens between the suspension and the release, with whether the end of
    every helper was seen. *)
Inductive worker_body : list CaptureStep → bool → Prop :=
| body_nothing : worker_body [] true
| body_helper l o : CaptureHelperSpec.helper_run l o → worker_body (map Helper l) (proven o)
| body_thread collected : Forall is_collect collected → worker_body (HandedOver :: map Stage collected) true
| body_cancelled : worker_body [HandedOver; CancelRequested] true.

Inductive worker_protocol (task : mach_port_t) (event : CrashEvent) (policy : ShmSnapshotPolicy)
    : list CaptureStep → Prop :=
| worker_idle : worker_protocol task event policy []
| worker_unwound : worker_protocol task event policy [Platform (TaskControl.Suspend task TaskControl.RPanic)]
| worker_skipped error :
    bail_on_suspend_failure event = true →
    worker_protocol task event policy [Platform (TaskControl.Suspend task (TaskControl.RErr error))]
| worker_unsuspended error body :
    bail_on_suspend_failure event = false → worker_body body true →
    worker_protocol task event policy (Platform (TaskControl.Suspend task (TaskControl.RErr error)) :: body)
| worker_unsuspended_contained error body reason calls completion failure :
    bail_on_suspend_failure event = false → worker_body body false →
    TaskControl.contain_trace task reason calls completion failure →
    worker_protocol task event policy
      (Platform (TaskControl.Suspend task (TaskControl.RErr error)) :: body ++ map Platform calls)
| worker_released snapshot body calls completion failure :
    snapshot = [] ∨ snapshot = [TookShmSnapshot policy] → worker_body body true →
    TaskControl.release_trace task calls completion failure →
    worker_protocol task event policy
      (Platform (TaskControl.Suspend task TaskControl.ROk) :: snapshot ++ body ++ map Platform calls)
| worker_contained snapshot body reason calls completion failure :
    snapshot = [] ∨ snapshot = [TookShmSnapshot policy] → worker_body body false →
    TaskControl.contain_trace task reason calls completion failure →
    worker_protocol task event policy
      (Platform (TaskControl.Suspend task TaskControl.ROk) :: snapshot ++ body ++ map Platform calls).

(** While a helper is still polled: one suspension attempt and nothing after it
    but the snapshot and the helper's own steps. *)
Inductive worker_polling (task : mach_port_t) (policy : ShmSnapshotPolicy) : list CaptureStep → Prop :=
| polling reply snapshot l :
    snapshot = [] ∨ snapshot = [TookShmSnapshot policy] →
    worker_polling task policy (Platform (TaskControl.Suspend task reply) :: snapshot ++ map Helper l).

(** ** Reasoning about flows *)

Section Logic.
Context {E Txn Bytes F : Type} {clock : Clock E} {wall : WallClock E} {aops : ArtifactOps E Txn}.
Context {platform : TaskControl.PlatformOps}.
Context {spawn : CaptureSpawn.SpawnOps E} {wire : CaptureIsolation.WireOps E Txn Bytes F} {wops : WorkerOps E}.
Context (debug_issue : ShmConsistencyIssue → string) (fuel retries : nat).
Notation Pipeline := (Pipeline E Txn).
Notation flow := (flow E).
Notation Outcome := (CaptureOutcome ReportContext).
Notation Verdict A := (option (TaskControl.completion A)).

(** [m] appends steps that satisfy [P] with the way it ends. *)
Definition flows {A : Type} (P : list CaptureStep → Verdict A → Prop) (m : flow A) : Prop :=
  ∀ w, ∃ l, appends w (m w).2 l ∧ P l (m w).1.

(** [m] appends nothing and finishes. *)
Definition quiet {A : Type} (m : flow A) : Prop := flows (λ l r, l = [] ∧ ∃ a, r = Some (TaskControl.Returned a)) m.

Lemma flows_impl {A : Type} (P Q : list CaptureStep → Verdict A → Prop) (m : flow A) :
  flows P m → (∀ l r, P l r → Q l r) → flows Q m.
Proof. intros Hm H w. destruct (Hm w) as (l & Hl & HP). eauto. Qed.

Lemma flows_ret {A : Type} (P : list CaptureStep → Verdict A → Prop) (a : A) :
  P [] (Some (TaskControl.Returned a)) → flows P (mret a : flow A).
Proof. intros HP w. exists []. split; [apply appends_refl|done]. Qed.

Lemma flows_bind {A B : Type} (P : list CaptureStep → Verdict A → Prop) (Q : list CaptureStep → Verdict B → Prop)
    (m : flow A) (f : A → flow B) :
  flows P m →
  (∀ l a, P l (Some (TaskControl.Returned a)) → flows (λ l' r, Q (l ++ l') r) (f a)) →
  (∀ l, P l None → Q l None) →
  (∀ l, P l (Some TaskControl.Unwinding) → Q l (Some TaskControl.Unwinding)) →
  flows Q (m ≫= f).
Proof.
  intros Hm Hf Hnone Hunw w. destruct (Hm w) as (l & Hl & HP). unfold mbind, flow_bind.
  destruct (m w) as [[[a|]|] w']; simpl in *; [|by eauto..].
  destruct (Hf l a HP w') as (l' & Hl' & HQ). exists (l ++ l'). split; [by eapply appends_trans|done].
Qed.

Lemma flows_quiet {A B : Type} (Q : list CaptureStep → Verdict B → Prop) (m : flow A) (f : A → flow B) :
  quiet m → (∀ a, flows Q (f a)) → flows Q (m ≫= f).
Proof.
  intros Hm Hf. eapply flows_bind; [exact Hm|..].
  - intros l a [-> _]. apply Hf.
  - by intros l [_ [a ?]].
  - by intros l [_ [a ?]].
Qed.

Lemma quiet_ret {A : Type} (a : A) : quiet (mret a).
Proof. apply flows_ret. eauto. Qed.

Lemma quiet_bind {A B : Type} (m : flow A) (f : A → flow B) : quiet m → (∀ a, quiet (f a)) → quiet (m ≫= f).
Proof. intros. by apply flows_quiet. Qed.

Lemma flows_stage {A : Type} (P : list Step → A → Prop) (m : traced E Step A) :
  emits P m → flows (λ l r, ∃ l' a, l = map Stage l' ∧ r = Some (TaskControl.Returned a) ∧ P l' a) (on_stage m).
Proof.
  intros Hm w. unfold on_stage. pose proof (stage_appends P m w Hm) as H. destruct (stage m w) as [a w'].
  destruct H as (l & Hl & HP & _). exists (map Stage l). split; [done|]. by exists l, a.
Qed.

Lemma quiet_stage {A : Type} (m : traced E Step A) : silent m → quiet (on_stage m).
Proof. intros Hm. eapply flows_impl; [by apply flows_stage|]. intros l r (l' & a & -> & -> & ->). eauto. Qed.

Lemma quiet_now : quiet (on_stage now).
Proof. apply quiet_stage, silent_lift. Qed.

Lemma quiet_record d n st : quiet (on_stage (record_now d n st)).
Proof. apply quiet_stage, record_now_silent. Qed.

Lemma flows_log s :
  (∀ c, s ≠ Platform c) → flows (λ l r, l = [s] ∧ r = Some (TaskControl.Returned tt)) (log s).
Proof.
  intros Hs w. exists [s]. split; [|done]. split; [done|]. simpl.
  destruct s as [c| | | | |]; [by destruct (Hs c)|..]; by rewrite app_nil_r.
Qed.

Lemma flows_tasks {A : Type} (P : list TaskControl.PlatformCall → TaskControl.completion A → Prop)
    (m : TaskControl.World → TaskControl.World * TaskControl.completion A) :
  (∀ w, ∃ l, TaskControl.calls (m w).1 = TaskControl.calls w ++ l ∧ P l (m w).2) →
  flows (λ l r, ∃ l' c, l = map Platform l' ∧ r = Some c ∧ P l' c) (on_tasks m).
Proof.
  intros Hm w. unfold on_tasks. destruct (Hm (tasks w)) as (l & Hl & HP).
  pose proof (on_platform_appends m w l Hl) as H. destruct (on_platform m w) as [c w'].
  destruct H as (Ha & -> & _). exists (map Platform l). split; [done|]. by exists l, (m (tasks w)).2.
Qed.

Lemma omap_helper l : omap (λ s, match s with Platform c => Some c | _ => None end) (map Helper l) = [].
Proof. by induction l. Qed.

Lemma flows_helper {A : Type} (P : list CaptureSpawn.HelperStep → option A → Prop)
    (m : traced E CaptureSpawn.HelperStep (option A)) :
  emits P m → flows (λ l r, ∃ l' o, l = map Helper l' ∧ r = TaskControl.Returned <$> o ∧ P l' o) (on_helper m).
Proof.
  intros Hm w. unfold on_helper. destruct (Hm (mkWorld (capture_env w) [])) as (l & Hl & HP).
  destruct (m _) as [o w'] eqn:Ho. simpl in *. exists (map Helper l). rewrite Hl. split.
  - split; [done|]. simpl. by rewrite omap_helper, app_nil_r.
  - by exists l, o.
Qed.

(** ** Outcomes are assembled without touching the target *)

Lemma quiet_close (a : Attempted) (outcome : Outcome) : quiet (close a outcome).
Proof.
  unfold close, with_task_control_diagnostics, record_error.
  assert (∀ n e d, quiet (on_stage match e with Some error => record_now d n (Error error) | None => mret d end)) as Hrec.
  { intros n [e|] d; [apply quiet_record|apply quiet_stage, silent_ret]. }
  apply quiet_bind; [apply Hrec|]. intros d. apply quiet_bind; [apply Hrec|]. intros d'.
  apply quiet_bind.
  - intros w. exists []. split; [|by eauto]. unfold change_world, appends. simpl. by rewrite !app_nil_r.
  - intros failures. apply quiet_bind; [apply quiet_stage, drain_sink_silent|]. intros d''. apply quiet_ret.
Qed.

Lemma quiet_minimal event context st raw_shm : quiet (minimal_capture event context st raw_shm).
Proof.
  unfold minimal_capture. apply quiet_bind; [apply quiet_now|]. intros t.
  apply quiet_bind; [apply quiet_record|]. intros d.
  apply quiet_bind; [apply quiet_stage, silent_lift|]. intros unix. apply quiet_ret.
Qed.

Lemma quiet_after {A B : Type} (P : list CaptureStep → Verdict B → Prop) (m : flow A) (f : A → flow B) l :
  quiet m → (∀ a, flows (λ l' r, P (l ++ l') r) (f a)) → flows (λ l' r, P (l ++ l') r) (m ≫= f).
Proof. intros Hm Hf. by apply flows_quiet. Qed.

(** ** Endings *)

Definition guard_of (suspended : bool) (task : mach_port_t) : option TaskControl.TaskSuspendGuard :=
  if suspended then Some (TaskControl.mkGuard task true) else None.

(** The release of the target, or its containment. *)
Definition ending (suspended : bool) (task : mach_port_t) (ok : bool) (l : list CaptureStep) : Prop :=
  if ok then
    if suspended then ∃ calls completion failure, l = map Platform calls ∧ TaskControl.release_trace task calls completion failure
    else l = []
  else ∃ reason calls completion failure, l = map Platform calls ∧ TaskControl.contain_trace task reason calls completion failure.

(** A finished or unwinding part of a capture has ended; a polling one has only
    the helper's steps. *)
Definition ends {A : Type} (P : list CaptureStep → Prop) (l : list CaptureStep) (r : Verdict A) : Prop :=
  match r with Some _ => P l | None => ∃ h, l = map Helper h end.

Lemma then_quiet {A B : Type} (P : list CaptureStep → Prop) (m : flow A) (f : A → flow B) l :
  flows (λ l' r, ends P (l ++ l') r) m → (∀ a, quiet (f a)) → flows (λ l' r, ends P (l ++ l') r) (m ≫= f).
Proof.
  intros Hm Hf. eapply flows_bind; [exact Hm|..]; try done.
  intros l' a HP. eapply flows_impl; [apply Hf|]. intros l'' r [-> [b ->]]. by rewrite app_nil_r.
Qed.

(** Never still polling. *)
Definition settles {A : Type} (P : list CaptureStep → Prop) (l : list CaptureStep) (r : Verdict A) : Prop := r ≠ None ∧ P l.

Lemma finish_suspend_settles suspended task : flows (settles (ending suspended task true)) (finish_suspend (guard_of suspended task)).
Proof.
  destruct suspended; simpl; [|apply flows_ret; by split].
  eapply flows_impl; [apply (flows_tasks (λ l c, ∃ f, TaskControl.release_trace task l c f))|].
  - intros w. pose proof (TaskControl.finish_release (TaskControl.mkGuard task true) w) as Hf.
    pose proof (TaskControl.release_spec (TaskControl.mkGuard task true) w eq_refl) as Hr.
    destruct (TaskControl.release _ _) as [[g' t'] c]. destruct Hr as (l & f & Hl & Hcalls & _).
    rewrite Hf. eauto.
  - intros l r (l' & c & -> & -> & f & Hf). split; [done|]. simpl. eauto.
Qed.

Lemma contain_settles suspended task reason : flows (settles (ending suspended task false)) (contain (guard_of suspended task) task reason).
Proof.
  assert (∀ w, let '(w', c) := TaskControl.contain_task_without_resume task reason w in
    ∃ l f, TaskControl.calls w' = TaskControl.calls w ++ l ∧ TaskControl.contain_trace task reason l c f) as Hc.
  { intros w. unfold TaskControl.contain_task_without_resume, TaskControl.call_terminate, TaskControl.push_call, TaskControl.sink_record.
    destruct (TaskControl.terminate_task _ _) as [|error|]; simpl; rewrite <- ?app_assoc; eexists _, _;
      (split; [reflexivity|constructor]). }
  eapply flows_impl; [apply (flows_tasks (λ l c, ∃ f, TaskControl.contain_trace task reason l c f))|].
  - intros w. specialize (Hc w). destruct suspended; simpl.
    + unfold TaskControl.contain_without_resume. simpl.
      destruct (TaskControl.contain_task_without_resume task reason w) as [w' c]. destruct Hc as (l & f & Hl & Ht).
      unfold TaskControl.and_then_drop, TaskControl.drop_guard, TaskControl.release. simpl.
      exists l. split; [done|]. destruct c as [[]|]; eauto.
    + destruct (TaskControl.contain_task_without_resume task reason w) as [w' c]. destruct Hc as (l & f & Hl & Ht). eauto.
  - intros l r (l' & c & -> & -> & f & Hf). split; [done|]. unfold ending. eauto 6.
Qed.

Definition body_then_end (suspended : bool) (task : mach_port_t) (l : list CaptureStep) : Prop :=
  ∃ body ok after, l = body ++ after ∧ worker_body body ok ∧ ending suspended task ok after.

(** A body, its ending, and then nothing but bookkeeping. *)
Lemma end_body {A B : Type} suspended task ok l (m : flow A) (f : A → flow B) :
  worker_body l ok → flows (settles (ending suspended task ok)) m → (∀ a, quiet (f a)) →
  flows (λ l' r, ends (body_then_end suspended task) (l ++ l') r) (m ≫= f).
Proof.
  intros Hl Hm Hf. assert (∀ l', ending suspended task ok l' → body_then_end suspended task (l ++ l')) as Hend
    by (intros l' Hl'; by exists l, ok, l').
  eapply flows_bind; [exact Hm|..].
  - intros l' a [_ Hl']. eapply flows_impl; [apply Hf|]. intros l'' r [-> [b ->]]. rewrite app_nil_r. by apply Hend.
  - by intros l' [? _].
  - intros l' [_ Hl']. by apply Hend.
Qed.

Lemma release_body {B : Type} suspended task l (f : unit → flow B) :
  worker_body l true → (∀ a, quiet (f a)) →
  flows (λ l' r, ends (body_then_end suspended task) (l ++ l') r) (finish_suspend (guard_of suspended task) ≫= f).
Proof. intros Hl Hf. eapply end_body; [exact Hl|apply finish_suspend_settles|exact Hf]. Qed.

(** ** The two backends *)

Lemma capture_isolated_ends (p : Pipeline) task deadline job a suspended :
  at_guard a = guard_of suspended task →
  flows (ends (body_then_end suspended task)) (capture_isolated fuel retries p task deadline job a).
Proof.
  intros Hg. unfold capture_isolated. rewrite Hg.
  eapply (flows_bind (λ l r, match r with
            | Some (TaskControl.Returned o) => worker_body l (proven o)
            | Some TaskControl.Unwinding => False
            | None => ∃ h, l = map Helper h
            end)).
  - unfold run_job. destruct job as [[request f]|]; [|apply flows_ret; constructor].
    eapply flows_impl; [apply flows_helper, CaptureHelperSpec.run_isolated_capture_run|].
    intros l r (l' & [o|] & -> & -> & Ho); simpl; [by apply body_helper, Ho|eauto].
  - intros l o Hbody. apply then_quiet; [|intros outcome; apply quiet_close].
    destruct o as [data plugins| |error|error]; simpl in Hbody;
      try (apply release_body; [done|intros []; try apply quiet_minimal]).
    + apply quiet_bind; [apply quiet_now|]. intros t. apply quiet_bind; [apply quiet_stage, silent_lift|].
      intros unix. apply quiet_ret.
    + eapply end_body; [exact Hbody|apply contain_settles|]. intros []. apply quiet_minimal.
  - intros l [h ->]. by exists h.
  - done.
Qed.

Lemma capture_in_process_ends (p : Pipeline) cw task deadline a suspended :
  at_guard a = guard_of suspended task →
  flows (ends (body_then_end suspended task)) (capture_in_process p cw task deadline a).
Proof.
  intros Hg. unfold capture_in_process. rewrite Hg.
  assert (∀ st raw (cw : CaptureWorker), quiet (outcome ← minimal_capture (at_event a) (at_context a) st raw;
            outcome ← close a outcome; mret (cw, outcome))) as Hgive.
  { intros st raw cw'. apply quiet_bind; [apply quiet_minimal|]. intros outcome.
    apply quiet_bind; [apply quiet_close|]. intros ?. apply quiet_ret. }
  assert (∀ (f : unit → flow (CaptureWorker * Outcome)) l, worker_body l true → (∀ u, quiet (f u)) →
    flows (λ l' r, ends (body_then_end suspended task) (l ++ l') r) (finish_suspend (guard_of suspended task) ≫= f)) as Hrel
    by (intros; by apply release_body).
  case_match; [apply (Hrel _ []); [apply body_nothing|intros []; apply Hgive]|].
  apply flows_quiet; [apply quiet_stage, silent_lift|]. intros queued.
  case_match; [apply (Hrel _ []); [apply body_nothing|intros []; apply Hgive]|].
  eapply flows_bind; [by apply flows_log|..]; [|by intros l [_ ?]|by intros l [_ ?]].
  intros l0 [] [-> _]. apply flows_quiet; [apply quiet_now|]. intros t.
  apply flows_quiet; [apply quiet_stage, silent_lift|]. intros [].
  - eapply flows_bind; [apply flows_stage, collect_snapshot_emits|..].
    + intros l payload (collected & payload' & -> & _ & Hc). simpl.
      apply (Hrel _ (HandedOver :: map Stage collected)); [by constructor|]. intros [].
      apply quiet_bind; [apply quiet_stage, silent_lift|]. intros unix.
      apply quiet_bind; [apply quiet_close|]. intros outcome. apply quiet_ret.
    + by intros l (? & ? & ? & ? & ?).
    + by intros l (? & ? & ? & ? & ?).
  - eapply flows_bind; [by apply flows_log|..]; [|by intros l [_ ?]|by intros l [_ ?]].
    intros l1 [] [-> _]. apply (Hrel _ [HandedOver; CancelRequested]); [apply body_cancelled|intros []; apply Hgive].
  - eapply flows_bind; [by apply flows_log|..]; [|by intros l [_ ?]|by intros l [_ ?]].
    intros l1 [] [-> _]. apply (Hrel _ [HandedOver; CancelRequested]); [apply body_cancelled|intros []; apply Hgive].
Qed.

Lemma capture_isolated_only cw (p : Pipeline) task deadline job a suspended :
  at_guard a = guard_of suspended task →
  flows (ends (body_then_end suspended task))
    (outcome ← capture_isolated fuel retries p task deadline job a; mret (cw, outcome) : flow (CaptureWorker * Outcome)).
Proof.
  intros Hg. apply (then_quiet _ _ _ []); [by apply capture_isolated_ends|]. intros outcome. apply quiet_ret.
Qed.

(** ** From the suspension on *)

Definition snapshot_ok (suspended : bool) (policy : ShmSnapshotPolicy) (l : list CaptureStep) : Prop :=
  l = [] ∨ suspended = true ∧ l = [TookShmSnapshot policy].

Lemma snapshot_for_flows (p : Pipeline) deadline a suspended task :
  at_guard a = guard_of suspended task →
  flows (λ l r, snapshot_ok suspended (snapshot_policy p) l ∧
           ∃ a', r = Some (TaskControl.Returned a') ∧ at_guard a' = at_guard a) (snapshot_for debug_issue p deadline a).
Proof.
  intros Hg. unfold snapshot_for. rewrite Hg. destruct suspended; simpl.
  2:{ apply flows_ret. split; [by left|]. by exists a. }
  intros w. unfold mbind, flow_bind, change_world, snapshot_shm_while_suspended.
  destruct (shm p) as [mapping|].
  - destruct (mapping _ _ _) as [r e]. exists [TookShmSnapshot (snapshot_policy p)].
    split; [by destruct r; split; simpl; rewrite ?app_nil_r|]. split; [by right|]. destruct r; by eexists.
  - exists []. split; [apply appends_refl|]. split; [by left|]. by eexists.
Qed.

Definition after_suspend (suspended : bool) (task : mach_port_t) (policy : ShmSnapshotPolicy)
    {A : Type} (l : list CaptureStep) (r : Verdict A) : Prop :=
  ∃ snapshot l', l = snapshot ++ l' ∧ snapshot_ok suspended policy snapshot ∧ ends (body_then_end suspended task) l' r.

Lemma give_up_late_ends (p : Pipeline) cw a suspended task :
  at_guard a = guard_of suspended task → flows (ends (body_then_end suspended task)) (give_up_late p cw a).
Proof.
  intros Hg. unfold give_up_late. rewrite Hg. apply (release_body _ _ []); [apply body_nothing|]. intros [].
  apply quiet_bind; [apply quiet_minimal|]. intros outcome. apply quiet_bind; [apply quiet_close|]. intros ?. apply quiet_ret.
Qed.

Lemma capture_suspended_flows (p : Pipeline) cw task deadline job a suspended :
  at_guard a = guard_of suspended task →
  flows (after_suspend suspended task (snapshot_policy p)) (capture_suspended debug_issue fuel retries p cw task deadline job a).
Proof.
  intros Hg. unfold capture_suspended. apply flows_quiet; [apply quiet_now|]. intros t.
  case_decide.
  { eapply flows_impl; [by eapply give_up_late_ends|]. intros l r Hl. exists [], l. split; [done|]. split; [by left|done]. }
  eapply flows_bind; [by eapply snapshot_for_flows|..].
  - intros l a' [Hs (a'' & [= <-] & Hg')]. rewrite Hg in Hg'.
    assert (∀ m : flow (CaptureWorker * Outcome), flows (ends (body_then_end suspended task)) m →
      flows (λ l' r, after_suspend suspended task (snapshot_policy p) (l ++ l') r) m) as Hthen.
    { intros m Hm. eapply flows_impl; [exact Hm|]. intros l' r Hl'. by exists l, l'. }
    apply flows_quiet; [apply quiet_now|]. intros t'. apply Hthen.
    case_decide; [by eapply give_up_late_ends|]. destruct (isolated cw).
    + by apply capture_isolated_only.
    + by apply capture_in_process_ends.
  - by intros l [_ (? & ? & _)].
  - by intros l [_ (? & ? & _)].
Qed.

(** ** The whole capture *)

Definition capture_verdict (task : mach_port_t) (event : CrashEvent) (policy : ShmSnapshotPolicy)
    {A : Type} (l : list CaptureStep) (r : Verdict A) : Prop :=
  match r with Some _ => worker_protocol task event policy l | None => worker_polling task policy l end.

Lemma after_suspend_verdict {A : Type} task event policy (suspended : bool) reply l (r : Verdict A) :
  reply = (if suspended then Some TaskControl.ROk else None) →
  (suspended = false → bail_on_suspend_failure event = false) →
  after_suspend suspended task policy l r →
  ∀ error, capture_verdict task event policy
    (Platform (TaskControl.Suspend task (default (TaskControl.RErr error) reply)) :: l) r.
Proof.
  intros -> Hb (snapshot & l' & -> & Hs & Hl') error.
  assert (snapshot = [] ∨ snapshot = [TookShmSnapshot policy]) as Hs' by (destruct Hs as [?|[_ ?]]; auto).
  destruct r as [c|]; simpl in Hl' |- *; [|destruct Hl' as [h ->]; by constructor].
  destruct Hl' as (body & ok & after & -> & Hbody & Hend). unfold ending in Hend.
  destruct suspended; simpl.
  - destruct ok; [destruct Hend as (calls & c' & f & -> & Ht)|destruct Hend as (reason & calls & c' & f & -> & Ht)];
      by econstructor.
  - destruct Hs as [->|[? _]]; [|done]. destruct ok.
    + subst after. rewrite app_nil_r. by apply worker_unsuspended; [apply Hb|].
    + destruct Hend as (reason & calls & c' & f & -> & Ht). by eapply worker_unsuspended_contained; [apply Hb|..].
Qed.

Lemma quiet_verdict {A : Type} task event policy (m : flow A) : quiet m → flows (capture_verdict task event policy) m.
Proof. intros Hm. eapply flows_impl; [exact Hm|]. intros l r [-> [a ->]]. constructor. Qed.

Lemma acquire_flows task :
  flows (λ l (r : Verdict (result string TaskControl.TaskSuspendGuard)),
           ∃ reply, l = [Platform (TaskControl.Suspend task reply)] ∧
           r = Some match reply with
               | TaskControl.RPanic => TaskControl.Unwinding
               | TaskControl.RErr error => TaskControl.Returned (Err error)
               | TaskControl.ROk => TaskControl.Returned (Ok (TaskControl.mkGuard task true))
               end) (on_tasks (TaskControl.acquire task)).
Proof.
  eapply flows_impl; [apply (flows_tasks (λ l c, ∃ reply, l = [TaskControl.Suspend task reply] ∧
           c = match reply with
               | TaskControl.RPanic => TaskControl.Unwinding
               | TaskControl.RErr error => TaskControl.Returned (Err error)
               | TaskControl.ROk => TaskControl.Returned (Ok (TaskControl.mkGuard task true))
               end))|].
  - intros w. unfold TaskControl.acquire, TaskControl.call_suspend.
    exists [TaskControl.Suspend task (TaskControl.suspend_task (TaskControl.calls w) task)].
    destruct (TaskControl.suspend_task _ _) as [|error|] eqn:Hr; (split; [done|]); eexists; (split; [done|done]).
  - intros l r (l' & c & -> & -> & reply & -> & ->). by exists reply.
Qed.

Lemma capture_prepared_flows (p : Pipeline) cw event context task deadline job :
  flows (capture_verdict task event (snapshot_policy p))
    (capture_prepared debug_issue fuel retries p cw event context task deadline job).
Proof.
  unfold capture_prepared. apply flows_quiet.
  { intros w. exists []. split; [split; simpl; by rewrite app_nil_r|]. by eauto. }
  intros []. eapply flows_bind; [apply acquire_flows|..].
  - intros l acquired (reply & -> & Hr). destruct reply as [|error|]; [..|done]; injection Hr as ->.
    + eapply flows_impl; [by eapply (capture_suspended_flows _ _ _ _ _ _ true)|]. intros l r Hl.
      by apply (after_suspend_verdict _ _ _ true _ l r eq_refl (λ H, False_ind _ (diff_true_false H)) Hl EmptyString).
    + unfold suspend_failure_policy. destruct (bail_on_suspend_failure event) eqn:Hb.
      * apply flows_quiet; [apply quiet_now|]. intros t. apply flows_quiet; [apply quiet_record|]. intros d.
        apply flows_ret. by eapply worker_skipped.
      * eapply flows_impl; [by eapply (capture_suspended_flows _ _ _ _ _ _ false)|]. intros l r Hl.
        by apply (after_suspend_verdict _ _ _ false _ l r eq_refl (λ _, Hb) Hl error).
  - by intros l (reply & _ & ?).
  - intros l (reply & -> & Hr). destruct reply; try done. constructor.
Qed.

Lemma capture_flows (p : Pipeline) cw event task deadline :
  flows (λ l r, capture_verdict task event (snapshot_policy p) l r ∧
           (report_enabled p (report_type event) = false → l = []))
    (capture debug_issue fuel retries p cw event task deadline).
Proof.
  unfold capture. destruct (report_enabled p (report_type event)); simpl negb; cbv iota.
  2:{ eapply flows_impl; [apply quiet_bind; [apply quiet_now|intros t; apply quiet_ret]|].
      intros l r [-> [a ->]]. split; [constructor|done]. }
  eapply (flows_impl (capture_verdict task event (snapshot_policy p))); [|done].
  apply flows_quiet; [apply quiet_stage, create_report_context_silent|]. intros [context|error].
  2:{ apply quiet_verdict. apply quiet_bind; [apply quiet_now|]. intros t. apply quiet_bind; [apply quiet_record|].
      intros d. apply quiet_ret. }
  apply flows_quiet; [apply quiet_now|]. intros t. case_decide.
  { apply quiet_verdict. apply quiet_bind; [apply quiet_minimal|]. intros outcome. apply quiet_ret. }
  destruct (unavailable_reason cw) as [reason|].
  { apply quiet_verdict. apply quiet_bind; [apply quiet_minimal|]. intros outcome. apply quiet_ret. }
  destruct (isolated cw); [|apply capture_prepared_flows].
  apply flows_quiet.
  - unfold isolated_job. destruct (CaptureIsolation.from_pipeline p event) as [[request|]|error]; try apply quiet_ret.
    apply quiet_bind; [apply quiet_stage, silent_lift|]. intros [f|error]; apply quiet_ret.
  - intros [job|error]; [apply capture_prepared_flows|].
    apply quiet_verdict. apply quiet_bind; [apply quiet_minimal|]. intros outcome. apply quiet_ret.
Qed.

(** ** Resumption *)

Definition is_platform (s : CaptureStep) : bool := match s with Platform _ => true | _ => false end.

(** A step that ends a front without it comes after the front. *)
Lemma behind {A : Type} (front back pre post : list A) (x : A) :
  front ++ back = pre ++ x :: post → x ∉ front → ∃ m, pre = front ++ m.
Proof.
  revert pre. induction front as [|y front IH]; intros pre H Hx; [by exists pre|].
  destruct pre as [|z pre]; simpl in H; injection H as -> H.
  - destruct Hx. left.
  - destruct (IH pre H) as [m ->]; [set_solver|]. by exists m.
Qed.

Lemma body_silent body ok : worker_body body ok → Forall (λ s, is_platform s = false) body.
Proof.
  destruct 1; repeat constructor; apply Forall_fmap, Forall_true; done.
Qed.

Lemma helper_run_reaped l o pid :
  CaptureHelperSpec.helper_run l o → proven o = true → CaptureSpawn.Spawned pid ∈ l →
  ∃ wait, CaptureHelperSpec.terminal wait = true ∧ CaptureSpawn.Waited pid wait ∈ l.
Proof.
  intros Hrun Ho Hin.
  assert (∀ p polls r, Forall (CaptureHelperSpec.pending p) polls → CaptureHelperSpec.terminal r = true →
    CaptureSpawn.Spawned pid ∈ CaptureSpawn.Spawned p :: polls ++ [CaptureSpawn.Waited p r] →
    ∃ wait, CaptureHelperSpec.terminal wait = true ∧
      CaptureSpawn.Waited pid wait ∈ CaptureSpawn.Spawned p :: polls ++ [CaptureSpawn.Waited p r]) as Hlast.
  { intros p polls r Hp Hr Hpid. exists r. split; [done|]. apply elem_of_cons in Hpid as [[= ->]|Hpid]; [set_solver|].
    apply elem_of_app in Hpid as [Hpid|Hpid]; [|set_solver]. rewrite Forall_forall in Hp. by destruct (Hp _ Hpid). }
  destruct Hrun; try done; try (by apply not_elem_of_nil in Hin); by apply Hlast.
Qed.

Lemma body_reaped body pid :
  worker_body body true → Helper (CaptureSpawn.Spawned pid) ∈ body →
  ∃ wait, CaptureHelperSpec.terminal wait = true ∧ Helper (CaptureSpawn.Waited pid wait) ∈ body.
Proof.
  intros Hb Hin. inversion Hb as [|l o Hrun Hl Ho|collected Hc Hl|]; subst.
  - by apply not_elem_of_nil in Hin.
  - apply list_elem_of_fmap in Hin as (s & [= <-] & Hin).
    destruct (helper_run_reaped l o pid Hrun Ho Hin) as (wait & Hw & Hin'). exists wait. split; [congruence|].
    by apply list_elem_of_fmap_2.
  - apply elem_of_cons in Hin as [?|Hin]; [done|]. by apply list_elem_of_fmap in Hin as (? & ? & _).
  - set_solver.
Qed.

Definition is_resume_of (task : mach_port_t) (s : CaptureStep) : Prop := ∃ reply, s = Platform (TaskControl.Resume task reply).

Lemma contain_no_resume task reason calls completion failure :
  TaskControl.contain_trace task reason calls completion failure → ∀ s, is_resume_of task s → s ∉ map Platform calls.
Proof. destruct 1; intros s [reply ->]; set_solver. Qed.

Lemma front_no_resume task policy (front body : list CaptureStep) ok reply snapshot :
  worker_body body ok → (snapshot = [] ∨ snapshot = [TookShmSnapshot policy]) →
  front = Platform (TaskControl.Suspend task reply) :: snapshot ++ body → ∀ s, is_resume_of task s → s ∉ front.
Proof.
  intros Hb Hs -> s [r ->] Hin. apply elem_of_cons in Hin as [?|Hin]; [done|].
  apply elem_of_app in Hin as [Hin|Hin].
  - destruct Hs as [-> | ->]; set_solver.
  - pose proof (body_silent _ _ Hb) as Hsilent. rewrite Forall_forall in Hsilent. by discriminate (Hsilent _ Hin).
Qed.

(** Only a release resumes, and it comes after the body. *)
Lemma protocol_resumes task event policy l pre s post pid :
  worker_protocol task event policy l → l = pre ++ s :: post → is_resume_of task s →
  Helper (CaptureSpawn.Spawned pid) ∈ l →
  ∃ wait, CaptureHelperSpec.terminal wait = true ∧ Helper (CaptureSpawn.Waited pid wait) ∈ pre.
Proof.
  intros Hl Heq Hs Hpid. assert (s ∈ l) as Hin by (rewrite Heq; set_solver).
  destruct Hl as [| |error Hb|error body Hb Hbody|error body reason calls c f Hb Hbody Ht
    |snapshot body calls c f Hsnap Hbody Ht|snapshot body reason calls c f Hsnap Hbody Ht].
  - by apply not_elem_of_nil in Hin.
  - destruct Hs as [r ->]. set_solver.
  - destruct Hs as [r ->]. set_solver.
  - destruct (front_no_resume task policy _ body true (TaskControl.RErr error) [] Hbody (or_introl eq_refl) eq_refl s Hs Hin).
  - rewrite app_comm_cons in Hin. apply elem_of_app in Hin as [Hin|Hin]; [|by destruct (contain_no_resume _ _ _ _ _ Ht s Hs)].
    destruct (front_no_resume task policy _ body false (TaskControl.RErr error) [] Hbody (or_introl eq_refl) eq_refl s Hs Hin).
  - pose proof (front_no_resume task policy _ body true TaskControl.ROk snapshot Hbody Hsnap eq_refl s Hs) as Hfront.
    rewrite app_assoc, app_comm_cons in Heq, Hpid. destruct (behind _ _ _ _ _ Heq Hfront) as [m ->].
    apply elem_of_app in Hpid as [Hpid|Hpid]; [|by apply list_elem_of_fmap in Hpid as (? & ? & _)].
    apply elem_of_cons in Hpid as [?|Hpid]; [done|]. apply elem_of_app in Hpid as [Hpid|Hpid].
    { destruct Hsnap as [-> | ->]; set_solver. }
    destruct (body_reaped body pid Hbody Hpid) as (wait & Hw & Hin'). exists wait. split; [done|]. set_solver.
  - rewrite app_assoc, app_comm_cons in Hin. apply elem_of_app in Hin as [Hin|Hin]; [|by destruct (contain_no_resume _ _ _ _ _ Ht s Hs)].
    destruct (front_no_resume task policy _ body false TaskControl.ROk snapshot Hbody Hsnap eq_refl s Hs Hin).
Qed.

Lemma polling_no_resume task policy l s : worker_polling task policy l → is_resume_of task s → s ∉ l.
Proof.
  intros [reply snapshot h Hs] [r ->] Hin. apply elem_of_cons in Hin as [?|Hin]; [done|].
  apply elem_of_app in Hin as [Hin|Hin]; [destruct Hs as [-> | ->]; set_solver|].
  by apply list_elem_of_fmap in Hin as (? & ? & _).
Qed.

(** C5. Whatever the target, the helper, the worker thread and the platform do, a
    capture follows [worker_protocol]: nothing happens to the target of a disabled
    report; collectors run at most once and between the suspension and its end; an
    owned suspension ends in exactly one release by the bounded policy or, when the
    end of a helper was not seen, in a containment that never resumes. In
    particular the target is resumed only after every helper process that the
    capture started was seen to end. *)
Theorem capture_never_resumes_over_helper (p : Pipeline) (cw : CaptureWorker) (event : CrashEvent) (task : mach_port_t)
    (deadline : Z) (w : CaptureWorld E) :
  let '(r, w') := capture debug_issue fuel retries p cw event task deadline w in
  ∃ l, capture_trace w' = capture_trace w ++ l ∧
    TaskControl.calls (tasks w') =
      TaskControl.calls (tasks w) ++ omap (λ s, match s with Platform c => Some c | _ => None end) l ∧
    capture_verdict task event (snapshot_policy p) l r ∧
    (report_enabled p (report_type event) = false → l = []) ∧
    ∀ pre reply post pid,
      l = pre ++ Platform (TaskControl.Resume task reply) :: post → Helper (CaptureSpawn.Spawned pid) ∈ l →
      ∃ wait, CaptureHelperSpec.terminal wait = true ∧ Helper (CaptureSpawn.Waited pid wait) ∈ pre.
Proof.
  destruct (capture_flows p cw event task deadline w) as (l & [Ht Hc] & Hv & Hd).
  destruct (capture _ _ _ _ _ _ _ _ w) as [r w']. simpl in *.
  exists l. split; [done|]. split; [done|]. split; [done|]. split; [done|].
  intros pre reply post pid Hl Hpid. assert (is_resume_of task (Platform (TaskControl.Resume task reply))) as Hs by by exists reply.
  destruct r as [c|]; simpl in Hv; [by eapply protocol_resumes|].
  destruct (polling_no_resume _ _ _ _ Hv Hs). rewrite Hl. set_solver.
Qed.

End Logic.
End WorkerSpec.
