(* ===== verification/Finalizers.v ===== *)
(** * The finalization workers (src/pipeline/worker.rs)

    Fatal reports are finalized by a one-shot thread that waits for the child's
    termination status; when no thread can be created twice in a row, the
    supervisor itself writes the evidence it already owns, without any plugin.
    Child terminations get a bounded thread of their own.

    The thread's work is run at the point where its result is awaited; when the
    wait gives up first, the thread stays behind and its work is not part of the
    caller's trace. *)

From S2P Require Import Prelude.
From S2P Require Import Traced.
From S2P Require Import ShmSnapshot.
From S2P Require Import Config.
From S2P Require Import PipelineTypes.
From S2P Require Import PluginRun.
From S2P Require Import Pipeline.
From S2P Require Import Finalize.
From S2P Require Import FinalizeSpec.
From S2P Require Import Capture.
From S2P Require Import Worker.

Module Finalizers.
Export FinalizeSpec.

(** [write_emergency_report] formats, builds and writes the report without
    screenshots and without any extension point. *)
Class FinalizerOps (E Txn : Type) := {
  spawn_finalizer : E → bool * E;
  await_result : Z → E → Worker.Exchange * E;
  join_finalizer : Z → E → E;
  write_emergency_report : Txn → CrashEvent → CollectedData → Diagnostics → E → E * call (result string PathBuf)
}.

(** A ticket stands for a running thread that owns its captured event. *)
Inductive CrashFinalization : Type :=
| Pending (captured : CapturedEvent ReportContext)
| Deferred (captured : CapturedEvent ReportContext).

Section Finalizers.
Context {E Txn : Type} {clock : Clock E} {ops : ArtifactOps E Txn} {fops : FinalizerOps E Txn}.
#[local] Notation pipe := (traced E Step).
Notation Pipeline := (Pipeline E Txn).

Definition set_captured_diagnostics (c : CapturedEvent ReportContext) (d : Diagnostics) : CapturedEvent ReportContext :=
  mkCaptured (captured_event c) (report_context c) (captured_data c) (captured_raw_shm c) (owned_shm_snapshot c)
    (owned_collectors_deferred c) d.

Definition record_captured (c : CapturedEvent ReportContext) (n : string) (st : PluginStatus)
    : pipe (CapturedEvent ReportContext) :=
  d ← record_now (captured_diagnostics c) n st; mret (set_captured_diagnostics c d).

(** ** Tickets *)

(** The captured event moves to the thread, or comes back. *)
Definition ticket_spawn (c : CapturedEvent ReportContext) : pipe (result (CapturedEvent ReportContext) (CapturedEvent ReportContext)) :=
  spawned ← lift spawn_finalizer;
  mret (if (spawned : bool) then Ok c else Err c).

(** The thread once the handoff arrived, or once the supervisor dropped the
    ticket without it. *)
Definition ticket_thread (p : Pipeline) (c : CapturedEvent ReportContext) (handoff : option (option TerminationReason))
    : pipe Diagnostics :=
  c ← match handoff with
      | Some reason => mret (set_termination c reason)
      | None => record_captured c "TerminationHandoff" (Error "termination handoff failed")
      end;
  finalize_captured p c.

Definition ticket_complete (p : Pipeline) (c : CapturedEvent ReportContext) (reason : option TerminationReason)
    (timeout : Z) : pipe (option Diagnostics) :=
  answer ← lift (await_result timeout);
  match answer with
  | Worker.Received =>
      d ← ticket_thread p c (Some reason);
      _ ← effect (join_finalizer (100 * NANOS_PER_MILLI));
      mret (Some d)
  | Worker.RecvTimeout | Worker.RecvDisconnected => mret None
  end.

(** ** The emergency *)

(** One write without the plugin runner: a panic unwinds through the caller. *)
Definition write_direct {A : Type} (s : Step) (f : E → E * call (result string A)) : pipe (call (result string A)) :=
  r ← lift (λ e, let '(e, r) := f e in (r, e));
  _ ← emit s;
  mret r.

Definition emergency_context (p : Pipeline) (c : CapturedEvent ReportContext) : pipe (result string ReportContext) :=
  match report_context c with
  | Some context => mret (Ok context)
  | None => Capture.create_report_context p (captured_event c)
  end.

Definition write_emergency_raw (txn : Txn) (c : CapturedEvent ReportContext) (d : Diagnostics)
    : pipe (call (Diagnostics * option PathBuf)) :=
  r ← write_direct WroteRaw (write_raw_stage1 txn (threads (raw (captured_data c))));
  match r with
  | Panicking message => mret (Panicking message)
  | Value (Ok path) => d ← record_now d "EmergencyStage1Raw" StatusOk; mret (PluginRun.Value (d, Some path))
  | Value (Err error) => d ← record_now d "EmergencyStage1Raw" (Error error); mret (PluginRun.Value (d, None))
  end.

Definition write_emergency_shm (txn : Txn) (c : CapturedEvent ReportContext) (d : Diagnostics) : pipe (call Diagnostics) :=
  match captured_raw_shm c with
  | None => mret (PluginRun.Value d)
  | Some raw_shm =>
      r ← write_direct WroteShm (write_raw_shm_stage1 txn raw_shm);
      match r with
      | Panicking message => mret (Panicking message)
      | Value (Ok _) => d ← record_now d "EmergencyStage1Shm" StatusOk; mret (PluginRun.Value d)
      | Value (Err error) => d ← record_now d "EmergencyStage1Shm" (Error error); mret (PluginRun.Value d)
      end
  end.

Definition write_emergency_json (txn : Txn) (c : CapturedEvent ReportContext) (d : Diagnostics)
    : pipe (call (Diagnostics * option PathBuf)) :=
  r ← write_direct WroteReport (write_emergency_report txn (captured_event c) (captured_data c) d);
  match r with
  | Panicking message => mret (Panicking message)
  | Value (Ok path) => mret (PluginRun.Value (d, Some path))
  | Value (Err error) => d ← record_now d "EmergencyStage2Json" (Error error); mret (PluginRun.Value (d, None))
  end.

Fixpoint record_emergency_warnings (warnings : list string) (d : Diagnostics) : pipe Diagnostics :=
  match warnings with
  | [] => mret d
  | w :: warnings => d ← record_now d "EmergencyArtifactDurability" (Error w); record_emergency_warnings warnings d
  end.

(** The path of a staged artifact in the committed report. *)
Definition committed_path (txn : Txn) (committed : CommittedReport) (staged : PathBuf) : option PathBuf :=
  relative ← strip_prefix staged (txn_staging_dir txn);
  Some (report_dir committed ++ relative).

Definition emergency_commit (txn : Txn) (raw_path json_path : option PathBuf) (d : Diagnostics) : pipe Diagnostics :=
  paths ← look (transaction_artifact_paths txn);
  match paths with
  | [] => record_now d "EmergencyArtifactCommit" (Error "no emergency artifacts could be written")
  | _ =>
      r ← lift (commit txn);
      _ ← emit (Committed r);
      match r with
      | Err error => record_now d "EmergencyArtifactCommit" (Error error)
      | Ok committed =>
          d ← record_emergency_warnings (durability_warnings committed) d;
          let path := match json_path ≫= committed_path txn committed with
                      | Some path => Some path
                      | None => raw_path ≫= committed_path txn committed
                      end in
          _ ← effect (release_publication_lease txn);
          _ ← emit ReleasedLease;
          mret (set_report_path d path)
      end
  end.

Definition emergency_in_transaction (txn : Txn) (c : CapturedEvent ReportContext) : pipe (call Diagnostics) :=
  r ← write_emergency_raw txn c (captured_diagnostics c);
  match r with
  | Panicking message => mret (Panicking message)
  | Value (d, raw_path) =>
      r ← write_emergency_shm txn c d;
      match r with
      | Panicking message => mret (Panicking message)
      | Value d =>
          r ← write_emergency_json txn c d;
          match r with
          | Panicking message => mret (Panicking message)
          | Value (d, json_path) => d ← emergency_commit txn raw_path json_path d; mret (PluginRun.Value d)
          end
      end
  end.

Definition emergency_finalize_captured (p : Pipeline) (c : CapturedEvent ReportContext) : pipe (call Diagnostics) :=
  if negb (report_enabled p (report_type (captured_event c))) then t ← now; mret (PluginRun.Value (diagnostics_new t)) else
  context ← emergency_context p c;
  match context with
  | Err error => d ← record_now (captured_diagnostics c) "EmergencyArtifactBegin" (Error error); mret (PluginRun.Value d)
  | Ok context =>
      r ← lift (begin_shared context);
      match r with
      | Err error =>
          _ ← emit (Begun false);
          d ← record_now (captured_diagnostics c) "EmergencyArtifactBegin" (Error error);
          mret (PluginRun.Value d)
      | Ok txn =>
          _ ← emit (Begun true);
          r ← emergency_in_transaction txn c;
          _ ← effect (drop_transaction txn);
          _ ← emit Dropped;
          mret r
      end
  end.

(** ** Fatal finalization *)

Definition finalization_start (c : CapturedEvent ReportContext) : pipe CrashFinalization :=
  r ← ticket_spawn c;
  mret (match r with Ok c => Pending c | Err c => Deferred c end).

Definition finalization_complete (p : Pipeline) (f : CrashFinalization) (reason : option TerminationReason) (timeout : Z)
    : pipe (call (option Diagnostics)) :=
  match f with
  | Pending c => d ← ticket_complete p c reason timeout; mret (PluginRun.Value d)
  | Deferred c =>
      c ← record_captured c "CrashFinalizer" (Error "initial worker spawn failed; retrying");
      r ← ticket_spawn c;
      match r with
      | Ok c => d ← ticket_complete p c reason timeout; mret (PluginRun.Value d)
      | Err c =>
          c ← record_captured c "CrashFinalizer" (Error "worker spawn retry failed");
          r ← emergency_finalize_captured p (set_termination c reason);
          mret (match r with PluginRun.Value d => PluginRun.Value (Some d) | Panicking message => Panicking message end)
      end
  end.

(** ** Child terminations *)

Definition finalize_terminated_child (p : Pipeline) (event : CrashEvent) (timeout : Z) : pipe (option Diagnostics) :=
  if negb (report_enabled p (report_type event)) then t ← now; mret (Some (diagnostics_new t)) else
  spawned ← lift spawn_finalizer;
  if negb spawned then mret None else
  answer ← lift (await_result timeout);
  match answer with
  | Worker.Received =>
      d ← finalize_termination_event p event;
      _ ← effect (join_finalizer 0);
      mret (Some d)
  | Worker.RecvDisconnected => _ ← effect (join_finalizer 0); mret None
  | Worker.RecvTimeout => mret None
  end.

End Finalizers.
(** ** The emergency protocol *)

Definition emergency_writes (shm : bool) : list Step := WroteRaw :: (if shm then [WroteShm] else []) ++ [WroteReport].

(** No plugin, one commit attempt at most, and only when something was written;
    an opened transaction is dropped, also when a write panics. *)
Inductive emergency_trace (shm : bool) : list Step → option CommittedReport → Prop :=
| emergency_off : emergency_trace shm [] None
| emergency_not_begun : emergency_trace shm [Begun false] None
| emergency_panicked l rest :
    emergency_writes shm = l ++ rest → emergency_trace shm (Begun true :: l ++ [Dropped]) None
| emergency_empty : emergency_trace shm (Begun true :: emergency_writes shm ++ [Dropped]) None
| emergency_failed error :
    emergency_trace shm (Begun true :: emergency_writes shm ++ [Committed (Err error); Dropped]) None
| emergency_committed committed :
    emergency_trace shm (Begun true :: emergency_writes shm ++ [Committed (Ok committed); ReleasedLease; Dropped]) (Some committed).

Section Spec.
Context {E Txn : Type} {clock : Clock E} {ops : ArtifactOps E Txn} {fops : FinalizerOps E Txn}.
#[local] Notation pipe := (traced E Step).
Notation Pipeline := (Pipeline E Txn).

(** Diagnostics only grow, and the path is kept. *)
Definition grows_to (d d' : Diagnostics) : Prop := (∃ more, plugins d' = plugins d ++ more) ∧ report_path d' = report_path d.

Lemma grows_refl d : grows_to d d.
Proof. split; [exists []; by rewrite app_nil_r|done]. Qed.

Lemma grows_to_trans d1 d2 d3 : grows_to d1 d2 → grows_to d2 d3 → grows_to d1 d3.
Proof.
  intros [[m1 H1] H2] [[m2 H3] H4]. split; [|congruence]. exists (m1 ++ m2). by rewrite H3, H1, app_assoc.
Qed.

Lemma record_now_grows d n st : emits (λ l d', l = [] ∧ grows_to d d') (record_now d n st : pipe Diagnostics).
Proof.
  unfold record_now. apply emits_silent; [apply silent_lift|]. intros t. apply emits_ret. split; [done|].
  split; [by eexists|done].
Qed.

(** A last record keeps what is known of the trace and the growth. *)
Lemma emits_record {B : Type} (Q : list Step → B → Prop) d n st (f : Diagnostics → pipe B) :
  (∀ d', grows_to d d' → emits Q (f d')) → emits Q (record_now d n st ≫= f).
Proof. intros Hf. eapply emits_bind; [apply record_now_grows|]. intros l d' [-> Hd]. by apply Hf. Qed.

(** One direct write is one step. *)
Lemma emits_direct {A B : Type} (Q : list Step → B → Prop) (s : Step) (f : E → E * call (result string A))
    (k : call (result string A) → pipe B) :
  (∀ r, emits (λ l b, Q (s :: l) b) (k r)) → emits Q (write_direct s f ≫= k).
Proof.
  intros Hk. apply (emits_bind (λ l _, l = [s])).
  - unfold write_direct. apply emits_silent; [apply silent_lift|]. intros r. apply emits_step. by apply emits_ret.
  - intros l r ->. apply Hk.
Qed.

(** What the writes leave: their steps, or a panic after some of them. *)
Definition wrote {A : Type} (before after : list Step) (growth : A → Prop) (l : list Step) (r : call A) : Prop :=
  match r with
  | PluginRun.Value a => l = before ∧ growth a
  | Panicking _ => ∃ rest, before ++ after = l ++ rest
  end.

Lemma write_emergency_raw_emits txn c d :
  emits (wrote [WroteRaw] [] (λ a, grows_to d a.1)) (write_emergency_raw txn c d).
Proof.
  unfold write_emergency_raw. apply emits_direct. intros [[path|error]|message]; simpl.
  - apply emits_record. intros d' Hd. by apply emits_ret.
  - apply emits_record. intros d' Hd. by apply emits_ret.
  - apply emits_ret. by exists [].
Qed.

Lemma write_emergency_shm_emits txn c d :
  emits (wrote (if bool_decide (is_Some (captured_raw_shm c)) then [WroteShm] else []) [] (grows_to d))
    (write_emergency_shm txn c d).
Proof.
  unfold write_emergency_shm. destruct (captured_raw_shm c) as [s|]; simpl.
  2:{ apply emits_ret. split; [done|apply grows_refl]. }
  apply emits_direct. intros [[[]|error]|message]; simpl.
  - apply emits_record. intros d' Hd. by apply emits_ret.
  - apply emits_record. intros d' Hd. by apply emits_ret.
  - apply emits_ret. by exists [].
Qed.

Lemma write_emergency_json_emits txn c d :
  emits (wrote [WroteReport] [] (λ a, grows_to d a.1)) (write_emergency_json txn c d).
Proof.
  unfold write_emergency_json. apply emits_direct. intros [[path|error]|message]; simpl.
  - apply emits_ret. split; [done|apply grows_refl].
  - apply emits_record. intros d' Hd. by apply emits_ret.
  - apply emits_ret. by exists [].
Qed.

Lemma record_emergency_warnings_emits ws d :
  emits (λ l d', l = [] ∧ grows_to d d') (record_emergency_warnings ws d : pipe Diagnostics).
Proof.
  revert d. induction ws as [|w ws IH]; intros d; cbn [record_emergency_warnings].
  - apply emits_ret. split; [done|apply grows_refl].
  - apply emits_record. intros d' Hd. eapply emits_impl; [apply IH|]. intros l d'' [-> Hd']. split; [done|].
    by eapply grows_to_trans.
Qed.

(** The result of the emergency: its records grow, and a new path lies in the
    committed report. *)
Definition published (d : Diagnostics) (c : option CommittedReport) (d' : Diagnostics) : Prop :=
  (∃ more, plugins d' = plugins d ++ more) ∧
  match c with
  | None => report_path d' = report_path d
  | Some committed => ∀ path, report_path d' = Some path → ∃ relative, path = report_dir committed ++ relative
  end.

Definition commit_steps (l : list Step) (c : option CommittedReport) : Prop :=
  match c with
  | None => l = [] ∨ ∃ error, l = [Committed (Err error)]
  | Some committed => l = [Committed (Ok committed); ReleasedLease]
  end.

Lemma committed_path_inside txn committed staged path :
  committed_path txn committed staged = Some path → ∃ relative, path = report_dir committed ++ relative.
Proof.
  unfold committed_path. destruct (strip_prefix _ _) as [relative|]; [|done]. simpl. intros [= <-]. by eexists.
Qed.

Lemma emergency_commit_emits txn raw_path json_path d :
  emits (λ l d', ∃ c, commit_steps l c ∧ published d c d') (emergency_commit txn raw_path json_path d).
Proof.
  unfold emergency_commit. apply emits_silent; [apply silent_look|]. intros paths.
  assert (∀ l error n, l = [] ∨ (∃ e, l = [Committed (Err e)]) →
    emits (λ l' d', ∃ c, commit_steps (l ++ l') c ∧ published d c d') (record_now d n (Error error) : pipe Diagnostics)) as Herr.
  { intros l error n Hl. eapply emits_impl; [apply record_now_grows|]. intros l' d' [-> [Hp Hr]].
    exists None. rewrite app_nil_r. by split. }
  destruct paths as [|path paths]; [apply (Herr []); by left|].
  apply emits_silent; [apply silent_lift|]. intros [committed|error]; apply emits_step; [|apply (Herr [_]); eauto].
  eapply emits_bind; [apply record_emergency_warnings_emits|]. intros l d' [-> [[more Hd] _]].
  apply emits_silent; [apply silent_effect|]. intros []. apply emits_step. apply emits_ret.
  exists (Some committed). split; [done|]. split; [by exists more|]. simpl. intros path' Hpath.
  destruct (json_path ≫= _) as [found|] eqn:Hj.
  - injection Hpath as <-. destruct json_path as [staged|]; [|done]. by eapply committed_path_inside.
  - destruct raw_path as [staged|]; [|done]. by eapply committed_path_inside.
Qed.

Definition has_shm (c : CapturedEvent ReportContext) : bool := bool_decide (is_Some (captured_raw_shm c)).

(** The writes and the commit, or the steps before a panic. *)
Definition emergency_body (shm : bool) (d : Diagnostics) (l : list Step) (r : call Diagnostics) : Prop :=
  match r with
  | PluginRun.Value d' => ∃ c rest, l = emergency_writes shm ++ rest ∧ commit_steps rest c ∧ published d c d'
  | Panicking _ => ∃ rest, emergency_writes shm = l ++ rest
  end.

Lemma emergency_in_transaction_emits txn c :
  emits (emergency_body (has_shm c) (captured_diagnostics c)) (emergency_in_transaction txn c).
Proof.
  unfold emergency_in_transaction. eapply emits_bind; [apply write_emergency_raw_emits|].
  intros l [[d raw_path]|message] H1; simpl in H1.
  2:{ apply emits_ret. destruct H1 as [rest H1]. rewrite app_nil_r. simpl.
      destruct l as [|x [|y l]]; simplify_list_eq; by eexists. }
  destruct H1 as [-> Hd1]. eapply emits_bind; [apply write_emergency_shm_emits|].
  intros l [d2|message] H2; simpl in H2.
  2:{ apply emits_ret. destruct H2 as [rest H2]. rewrite app_nil_r in H2. rewrite app_nil_r. simpl.
      exists (rest ++ [WroteReport]). unfold emergency_writes, has_shm. simpl. by rewrite H2, <- app_assoc. }
  destruct H2 as [-> Hd2]. eapply emits_bind; [apply write_emergency_json_emits|].
  intros l [[d3 json_path]|message] H3; simpl in H3.
  2:{ apply emits_ret. destruct H3 as [rest H3]. rewrite !app_nil_r. simpl. exists rest.
      unfold emergency_writes. fold (has_shm c). simpl. by rewrite <- app_assoc, H3. }
  destruct H3 as [-> Hd3]. eapply emits_bind; [apply emergency_commit_emits|].
  intros l d4 (committed & Hl & [[more Hp] Hpath]). apply emits_ret.
  destruct (grows_to_trans _ _ _ (grows_to_trans _ _ _ Hd1 Hd2) Hd3) as [[m Hm] Hr].
  exists committed, l. split; [|split; [done|]].
  - rewrite app_nil_r. unfold emergency_writes. fold (has_shm c). simpl. by rewrite <- app_assoc.
  - split; [exists (m ++ more); by rewrite Hp, Hm, app_assoc|]. destruct committed; [done|congruence].
Qed.

Definition emergency_result (shm : bool) (d : Diagnostics) (l : list Step) (r : call Diagnostics) : Prop :=
  ∃ c, emergency_trace shm l c ∧ ∀ d', r = PluginRun.Value d' → l ≠ [] → published d c d'.

Lemma emergency_body_trace shm d l r :
  emergency_body shm d l r → emergency_result shm d (Begun true :: l ++ [Dropped]) r.
Proof.
  destruct r as [d'|message]; cbn [emergency_body].
  - intros (c & rest & -> & Hrest & Hp). exists c. split; [|by intros ? [= <-] _].
    rewrite <- (app_assoc (emergency_writes shm)). destruct c as [committed|]; simpl in Hrest; [subst rest|destruct Hrest as [-> | [error ->]]].
    + apply emergency_committed.
    + apply emergency_empty.
    + apply emergency_failed.
  - intros [rest Hrest]. exists None. split; [by econstructor|done].
Qed.

Lemma emergency_finalize_emits p c :
  emits (emergency_result (has_shm c) (captured_diagnostics c)) (emergency_finalize_captured p c).
Proof.
  unfold emergency_finalize_captured. destruct (negb _).
  { apply emits_silent; [apply silent_lift|]. intros t. apply emits_ret. exists None. split; [constructor|done]. }
  apply emits_silent.
  { unfold emergency_context. destruct (report_context c); [apply silent_ret|apply Capture.create_report_context_silent]. }
  intros [context|error].
  2:{ apply emits_record. intros d Hd. apply emits_ret. exists None. split; [constructor|done]. }
  apply emits_silent; [apply silent_lift|]. intros [txn|error]; apply emits_step.
  2:{ apply emits_record. intros d [Hp Hr]. apply emits_ret. exists None. split; [constructor|]. by intros ? [= <-] _. }
  eapply emits_bind; [apply emergency_in_transaction_emits|]. intros l r Hl.
  apply emits_silent; [apply silent_effect|]. intros []. apply emits_step. apply emits_ret.
  by apply emergency_body_trace.
Qed.

(** ** Completion *)

Definition event_of (f : CrashFinalization) : CapturedEvent ReportContext :=
  match f with Pending c | Deferred c => c end.

Lemma emits_both {A : Type} (P Q : list Step → A → Prop) (m : pipe A) :
  emits P m → emits Q m → emits (λ l a, P l a ∧ Q l a) m.
Proof.
  intros Hp Hq w. destruct (Hp w) as (l & Hl & HP). destruct (Hq w) as (l' & Hl' & HQ).
  rewrite Hl in Hl'. apply app_inv_head in Hl' as <-. eauto.
Qed.

(** A result is what the computation returns in some world. *)
Lemma emits_result {A : Type} (m : pipe A) (H : emits (λ _ _, True) m) : emits (λ _ a, ∃ w, a = (m w).1) m.
Proof. intros w. destruct (H w) as (l & Hl & _). eauto. Qed.

(** The finalization of [c] with the handed-over reason, or nothing if it did not
    answer in time. *)
Definition thread_result (p : Pipeline) (c : CapturedEvent ReportContext) (reason : option TerminationReason)
    (l : list Step) (o : option Diagnostics) : Prop :=
  match o with
  | None => l = []
  | Some d => (∃ committed, finalization_trace l committed) ∧
      ∃ w, d = (finalize_captured p (set_termination c reason) w).1
  end.

Lemma ticket_complete_emits p c reason timeout : emits (thread_result p c reason) (ticket_complete p c reason timeout).
Proof.
  unfold ticket_complete. apply emits_silent; [apply silent_lift|]. intros []; [|by apply emits_ret..].
  unfold ticket_thread. eapply emits_bind.
  - apply emits_both; [apply (finalize_captured_emits p (set_termination c reason))|].
    apply emits_result. eapply emits_impl; [apply finalize_captured_emits|done].
  - intros l d [(committed & Hl & _) Hd]. apply emits_silent; [apply silent_effect|]. intros []. apply emits_ret.
    rewrite app_nil_r. split; [by exists committed|exact Hd].
Qed.

(** What completion may do: the whole finalization on a thread, nothing yet, or
    the emergency on the supervisor's own thread. *)
Definition some_diagnostics (r : call Diagnostics) : call (option Diagnostics) :=
  match r with PluginRun.Value d => PluginRun.Value (Some d) | Panicking message => Panicking message end.

(** [d] records [n] more failures of the finalizer than the capture did. *)
Definition retried (n : nat) (c : CapturedEvent ReportContext) (d : Diagnostics) : Prop :=
  report_path d = report_path (captured_diagnostics c) ∧
  ∃ more, plugins d = plugins (captured_diagnostics c) ++ more ∧ diagnostic_name <$> more = replicate n "CrashFinalizer"%string.

Definition completed (p : Pipeline) (f : CrashFinalization) (reason : option TerminationReason)
    (l : list Step) (r : call (option Diagnostics)) : Prop :=
  match f with
  | Pending c => ∃ o, r = PluginRun.Value o ∧ thread_result p c reason l o
  | Deferred c =>
      (∃ d o, retried 1 c d ∧ r = PluginRun.Value o ∧ thread_result p (set_captured_diagnostics c d) reason l o) ∨
      (∃ d r', retried 2 c d ∧ r = some_diagnostics r' ∧ emergency_result (has_shm c) d l r')
  end.

Lemma emits_record_captured {B : Type} (Q : list Step → B → Prop) c n st (f : CapturedEvent ReportContext → pipe B) :
  (∀ d r, plugins d = plugins (captured_diagnostics c) ++ [r] → diagnostic_name r = n →
     report_path d = report_path (captured_diagnostics c) → emits Q (f (set_captured_diagnostics c d))) →
  emits Q (record_captured c n st ≫= f).
Proof.
  intros Hf w. unfold record_captured, mbind, traced_bind, mret, traced_ret.
  destruct (record_now_grows (captured_diagnostics c) n st w) as (l & Hl & -> & _).
  assert (∃ r, plugins (record_now (captured_diagnostics c) n st w).1 = plugins (captured_diagnostics c) ++ [r] ∧
    diagnostic_name r = n ∧ report_path (record_now (captured_diagnostics c) n st w).1 = report_path (captured_diagnostics c))
    as (r & Hp & Hn & Hr).
  { unfold record_now, mbind, traced_bind. destruct (now w). simpl. eauto. }
  destruct (record_now _ _ _ w) as [d w']. simpl in *. destruct (Hf d r Hp Hn Hr w') as (l' & Hl' & HQ).
  exists l'. rewrite Hl', Hl, app_nil_r. done.
Qed.

Lemma retried_once c d r :
  plugins d = plugins (captured_diagnostics c) ++ [r] → diagnostic_name r = "CrashFinalizer"%string →
  report_path d = report_path (captured_diagnostics c) → retried 1 c d.
Proof. intros Hp Hn Hr. split; [done|]. exists [r]. split; [done|]. simpl. by rewrite Hn. Qed.

Lemma retried_again c d d' r :
  retried 1 c d → plugins d' = plugins d ++ [r] → diagnostic_name r = "CrashFinalizer"%string →
  report_path d' = report_path d → retried 2 c d'.
Proof.
  intros (Hpath & more & Hp & Hn) Hp' Hr Hpath'. split; [congruence|]. exists (more ++ [r]).
  split; [by rewrite Hp', Hp, app_assoc|]. rewrite fmap_app, Hn. simpl. by rewrite Hr.
Qed.

Lemma finalization_complete_emits p f reason timeout :
  emits (completed p f reason) (finalization_complete p f reason timeout).
Proof.
  assert (∀ c (P : list Step → call (option Diagnostics) → Prop),
    (∀ l o, thread_result p c reason l o → P l (PluginRun.Value o)) →
    emits P (d ← ticket_complete p c reason timeout; mret (PluginRun.Value d) : pipe (call (option Diagnostics)))) as Hticket.
  { intros c P HP. eapply emits_bind; [apply ticket_complete_emits|]. intros l o Ho. apply emits_ret.
    rewrite app_nil_r. by apply HP. }
  destruct f as [c|c]; cbn [finalization_complete]; [apply (Hticket c); intros l o Ho; by exists o|].
  apply emits_record_captured. intros d1 r1 Hp1 Hn1 Hr1. pose proof (retried_once c d1 r1 Hp1 Hn1 Hr1) as H1.
  set (c1 := set_captured_diagnostics c d1).
  apply (emits_bind (λ l o, l = [] ∧ (o = Ok c1 ∨ o = Err c1))).
  { unfold ticket_spawn. apply emits_silent; [apply silent_lift|]. intros []; apply emits_ret; auto. }
  intros l o [-> [-> | ->]]; [apply (Hticket c1); intros l' o' Ho; left; by exists d1, o'|].
  apply emits_record_captured. intros d2 r2 Hp2 Hn2 Hr2. pose proof (retried_again c d1 d2 r2 H1 Hp2 Hn2 Hr2) as H2.
  eapply emits_bind; [apply emergency_finalize_emits|]. intros l r Hl. apply emits_ret. rewrite app_nil_r. right.
  exists d2, r. split; [done|]. split; [by destruct r|exact Hl].
Qed.

(** Without a thread there is no event left to wait for. *)
Lemma no_thread_answers p c reason timeout (w : World E) :
  (∀ e, (spawn_finalizer e).1 = false) → (finalization_complete p (Deferred c) reason timeout w).1 ≠ PluginRun.Value None.
Proof.
  intros Hs. cbn [finalization_complete]. unfold mbind, traced_bind. destruct (record_captured _ _ _ w) as [c1 w1].
  unfold ticket_spawn, mbind, traced_bind, lift. specialize (Hs (env w1)). destruct (spawn_finalizer (env w1)) as [[] e]; [done|].
  simpl. destruct (record_captured _ _ _ _) as [c2 w2]. destruct (emergency_finalize_captured _ _ _) as [[] w3]; done.
Qed.

(** A fatal event is never lost and is finalized at most once. If a thread
    exists, completion is its whole finalization of that event with the handed
    over termination reason, or nothing yet when it does not answer in time. If no
    thread could be created twice, the failures are recorded and the supervisor
    itself writes the owned evidence: no plugin runs, the commit is attempted at
    most once, a report path lies in the committed report, an opened transaction is
    dropped even when a write panics, and the answer is never that nothing came. *)
Theorem fatal_finalization_completes (p : Pipeline) (f : CrashFinalization) (reason : option TerminationReason)
    (timeout : Z) (w : World E) :
  let '(r, w') := finalization_complete p f reason timeout w in
  ∃ l, trace w' = trace w ++ l ∧ completed p f reason l r ∧
    ((∃ c, f = Deferred c) → (∀ e, (spawn_finalizer e).1 = false) → r ≠ PluginRun.Value None).
Proof.
  destruct (finalization_complete_emits p f reason timeout w) as (l & Hl & Hc).
  assert ((∃ c, f = Deferred c) → (∀ e, (spawn_finalizer e).1 = false) →
    (finalization_complete p f reason timeout w).1 ≠ PluginRun.Value None) as Hn
    by (intros [c ->] Hs; by apply no_thread_answers).
  destruct (finalization_complete p f reason timeout w) as [r w']. eauto.
Qed.

End Spec.
End Finalizers.
