(* ===== verification/WorkerThreads.v ===== *)
(** * The worker threads, interleaved (src/pipeline/worker.rs)

    Two transition systems in which the event loop and a worker thread take turns
    in any order: the capture thread against the deadline that cancels it, and the
    background finalizer behind its bounded channel. The operations are functions
    on the shared state; a step relation says which thread may run them when. *)

From S2P Require Import Prelude.
From S2P Require Import PipelineTypes.

Module WorkerThreads.

(** ** The cancelled capture

    The capture thread loads the cancellation flag before every collector
    ([collect_snapshot_by_access], src/pipeline/mod.rs); the event loop stores it
    and then resumes the target when its bounded wait ends without an answer. *)

Inductive CaptureMark : Type :=
| Started (collector : string)
| Finished (collector : string)
| Cancelled
| Resumed.

#[export] Instance CaptureMark_eq_dec : EqDecision CaptureMark.
Proof. solve_decision. Defined.

(** Where the capture thread is: about to load the flag, past a load that said
    "go on", inside a collector, or done. *)
Inductive Position : Type :=
| Loading (collectors : list string)
| Passed (collector : string) (collectors : list string)
| Inside (collector : string) (collectors : list string)
| Done.

(** Where the event loop is: in [recv_timeout], past the store of the flag, or
    past [finish_suspend]. *)
Inductive Waiter : Type := Waiting | Stored | Released.

Record Race := mkRace { flag : bool; position : Position; waiter : Waiter; marks : list CaptureMark }.

Definition race_start (collectors : list string) : Race := mkRace false (Loading collectors) Waiting [].

Definition thread_load (r : Race) : option Race :=
  match position r with
  | Loading [] => Some (mkRace (flag r) Done (waiter r) (marks r))
  | Loading (c :: cs) =>
      Some (mkRace (flag r) (if flag r then Done else Passed c cs) (waiter r) (marks r))
  | _ => None
  end.

(** The collector is not available, or a dependency of it did not complete. *)
Definition thread_skip (r : Race) : option Race :=
  match position r with
  | Passed _ cs => Some (mkRace (flag r) (Loading cs) (waiter r) (marks r))
  | _ => None
  end.

Definition thread_enter (r : Race) : option Race :=
  match position r with
  | Passed c cs => Some (mkRace (flag r) (Inside c cs) (waiter r) (marks r ++ [Started c]))
  | _ => None
  end.

Definition thread_leave (r : Race) : option Race :=
  match position r with
  | Inside c cs => Some (mkRace (flag r) (Loading cs) (waiter r) (marks r ++ [Finished c]))
  | _ => None
  end.

(** The wait ends without an answer: the flag is stored before the resume. *)
Definition wait_fails (r : Race) : option Race :=
  match waiter r with
  | Waiting => Some (mkRace true (position r) Stored (marks r ++ [Cancelled]))
  | _ => None
  end.

(** The answer is there only when the thread is done. *)
Definition wait_answered (r : Race) : option Race :=
  match waiter r, position r with
  | Waiting, Done => Some (mkRace (flag r) (position r) Released (marks r ++ [Resumed]))
  | _, _ => None
  end.

Definition release_cancelled (r : Race) : option Race :=
  match waiter r with
  | Stored => Some (mkRace (flag r) (position r) Released (marks r ++ [Resumed]))
  | _ => None
  end.

Inductive race_step (r r' : Race) : Prop :=
| step_load : thread_load r = Some r' → race_step r r'
| step_skip : thread_skip r = Some r' → race_step r r'
| step_enter : thread_enter r = Some r' → race_step r r'
| step_leave : thread_leave r = Some r' → race_step r r'
| step_fails : wait_fails r = Some r' → race_step r r'
| step_answered : wait_answered r = Some r' → race_step r r'
| step_release : release_cancelled r = Some r' → race_step r r'.

(** *** What is still to start *)

Definition is_started (m : CaptureMark) : bool := match m with Started _ => true | _ => false end.
Definition started (l : list CaptureMark) : list CaptureMark := List.filter is_started l.

Definition is_finished (m : CaptureMark) : bool := match m with Finished _ => true | _ => false end.
Definition finished (l : list CaptureMark) : list CaptureMark := List.filter is_finished l.

(** The collectors that run at the end of [l]: none or one. *)
Definition running (l : list CaptureMark) : nat := length (started l) - length (finished l).

Definition armed (r : Race) : nat := match position r with Passed _ _ => 1 | _ => 0 end.
Definition inside (r : Race) : nat := match position r with Inside _ _ => 1 | _ => 0 end.

(** One mark [x], with a front and a tail. *)
Definition once (x : CaptureMark) (l front tail : list CaptureMark) : Prop :=
  l = front ++ x :: tail ∧ x ∉ front ∧ x ∉ tail.

(** After the cancellation, what started and what is armed is at most one, and
    nothing if a collector was running then. *)
Definition stopping (r : Race) : Prop :=
  flag r = true ∧ ∃ front tail, once Cancelled (marks r) front tail ∧
    (length (started tail) + armed r + running front ≤ 1)%nat.

Definition race_ok (r : Race) : Prop :=
  length (started (marks r)) = (length (finished (marks r)) + inside r)%nat ∧
  match waiter r with
  | Waiting => flag r = false ∧ Cancelled ∉ marks r ∧ Resumed ∉ marks r
  | Stored => stopping r ∧ Resumed ∉ marks r
  | Released =>
      (stopping r ∧ ∃ front tail, once Resumed (marks r) front tail ∧ Cancelled ∈ front) ∨
      (Cancelled ∉ marks r ∧ position r = Done ∧ ∃ front, once Resumed (marks r) front [])
  end.

Lemma started_app l1 l2 : started (l1 ++ l2) = started l1 ++ started l2.
Proof. apply List.filter_app. Qed.
Lemma finished_app l1 l2 : finished (l1 ++ l2) = finished l1 ++ finished l2.
Proof. apply List.filter_app. Qed.

Lemma once_snoc x l front tail m : once x l front tail → m ≠ x → once x (l ++ [m]) front (tail ++ [m]).
Proof. intros (-> & Hf & Ht) Hm. split; [by rewrite <- app_assoc|]. set_solver. Qed.

Lemma once_unique x l front tail pre post : once x l front tail → l = pre ++ x :: post → pre = front ∧ post = tail.
Proof.
  intros (-> & Hf & Ht). revert pre Hf. induction front as [|y front IH]; intros pre Hf H.
  - destruct pre as [|z pre]; [by simplify_eq/=|]. exfalso. simpl in H. injection H as -> ->. set_solver.
  - destruct pre as [|z pre]; simpl in H; injection H as -> H; [set_solver|].
    destruct (IH pre) as [-> ->]; [set_solver|done|done].
Qed.

(** A step of the thread that appends [m], if anything. *)
Lemma stopping_mark r r' (m : list CaptureMark) :
  stopping r → flag r' = flag r → marks r' = marks r ++ m → Cancelled ∉ m →
  (length (started m) + armed r' ≤ armed r)%nat → stopping r'.
Proof.
  intros [Hf (front & tail & (Hm & H1 & H2) & Hn)] Hf' Hm' Hc Ha. split; [congruence|].
  exists front, (tail ++ m). split; [|rewrite started_app, length_app; lia].
  split; [by rewrite Hm', Hm, <- app_assoc|]. set_solver.
Qed.

Lemma thread_ok r r' (m : list CaptureMark) :
  race_ok r → position r ≠ Done → flag r' = flag r → waiter r' = waiter r → marks r' = marks r ++ m →
  Cancelled ∉ m → Resumed ∉ m →
  (length (started m) + inside r = length (finished m) + inside r')%nat →
  (flag r = true → (length (started m) + armed r' ≤ armed r)%nat) → race_ok r'.
Proof.
  intros [Hb Hw] Hd Hf Hw' Hm Hc Hr Hi Ha. split.
  { rewrite Hm, started_app, finished_app, !length_app. lia. }
  rewrite Hw'. destruct (waiter r).
  - destruct Hw as (H1 & H2 & H3). rewrite Hf, Hm. set_solver.
  - destruct Hw as [Hs H2]. pose proof Hs as [Hflag _]. split; [by eapply stopping_mark; eauto|]. rewrite Hm. set_solver.
  - destruct Hw as [[Hs (front & tail & (Hr1 & Hr2 & Hr3) & Hr4)]|(_ & H2 & _)]; [|done]. left.
    pose proof Hs as [Hflag _]. split; [by eapply stopping_mark; eauto|]. exists front, (tail ++ m). split; [|done].
    split; [by rewrite Hm, Hr1, <- app_assoc|]. set_solver.
Qed.

Lemma race_step_ok r r' : race_ok r → race_step r r' → race_ok r'.
Proof.
  intros Hok [H|H|H|H|H|H|H].
  - unfold thread_load in H. destruct (position r) as [[|c cs]| | |] eqn:Hp; try done; injection H as <-.
    + apply (thread_ok r _ []); simpl; rewrite ?app_nil_r; unfold inside, armed; rewrite ?Hp; simpl; try done; set_solver.
    + apply (thread_ok r _ []); simpl; rewrite ?app_nil_r; unfold inside, armed; rewrite ?Hp; simpl; try done; try set_solver.
      * by destruct (flag r).
      * intros ->. simpl. lia.
  - unfold thread_skip in H. destruct (position r) as [|c cs| |] eqn:Hp; try done; injection H as <-.
    apply (thread_ok r _ []); simpl; rewrite ?app_nil_r; unfold inside, armed; rewrite ?Hp; simpl; try done; try set_solver; lia.
  - unfold thread_enter in H. destruct (position r) as [|c cs| |] eqn:Hp; try done; injection H as <-.
    apply (thread_ok r _ [Started c]); simpl; unfold inside, armed; rewrite ?Hp; simpl; try done; set_solver.
  - unfold thread_leave in H. destruct (position r) as [| |c cs|] eqn:Hp; try done; injection H as <-.
    apply (thread_ok r _ [Finished c]); simpl; unfold inside, armed; rewrite ?Hp; simpl; try done; set_solver.
  - unfold wait_fails in H. destruct Hok as [Hb Hw]. destruct (waiter r) eqn:Hwr; try done. injection H as <-.
    destruct Hw as (Hf & Hc & Hr). split; simpl.
    { rewrite started_app, finished_app, !length_app. simpl. unfold inside in *. simpl. lia. }
    split; [|set_solver]. split; [done|]. exists (marks r), []. split; [split; [done|set_solver]|].
    unfold running, armed, inside in *. simpl. destruct (position r); simpl in *; lia.
  - unfold wait_answered in H. destruct Hok as [Hb Hw]. destruct (waiter r) eqn:Hwr, (position r) eqn:Hp; try done. injection H as <-.
    destruct Hw as (Hf & Hc & Hr). split; simpl.
    { rewrite started_app, finished_app, !length_app. simpl. unfold inside in *. rewrite Hp in Hb. simpl in *. lia. }
    right. split; [set_solver|]. split; [done|]. exists (marks r). split; [done|]. set_solver.
  - unfold release_cancelled in H. destruct Hok as [Hb Hw]. destruct (waiter r) eqn:Hwr; try done. injection H as <-.
    destruct Hw as [Hs Hr]. split; simpl.
    { rewrite started_app, finished_app, !length_app. simpl. unfold inside in *. simpl. lia. }
    left. split; [eapply (stopping_mark r _ [Resumed]); simpl; try done; set_solver|].
    exists (marks r), []. split; [split; [done|set_solver]|]. destruct Hs as [_ (front & tail & (Hm & _) & _)]. rewrite Hm. set_solver.
Qed.

Lemma race_reachable collectors r : rtc race_step (race_start collectors) r → race_ok r.
Proof.
  intros H. assert (race_ok (race_start collectors)) as H0 by (split; [done|simpl; set_solver]).
  revert H0. induction H as [r|r1 r2 r3 H12 _ IH]; [done|]. intros H1. by eapply IH, race_step_ok.
Qed.

(** C28. However the event loop and the capture thread interleave: once the wait
    has failed and the cancellation is published, at most one more collector
    starts, and none if one was still running at that moment; and the target is
    resumed either after the cancellation was published or, with the answer in
    hand, after every collector has returned, and then no collector starts. *)
Theorem cancelled_capture_stops (collectors : list string) (r : Race) :
  rtc race_step (race_start collectors) r →
  (∀ pre post, marks r = pre ++ Cancelled :: post →
     (length (started post) + running pre ≤ 1)%nat) ∧
  (∀ pre post, marks r = pre ++ Resumed :: post →
     Cancelled ∈ pre ∨ (post = [] ∧ running pre = 0%nat ∧ position r = Done)).
Proof.
  intros Hr. apply race_reachable in Hr as [Hb Hw]. split; intros pre post Heq; destruct (waiter r).
  - destruct Hw as (_ & Hc & _). rewrite Heq in Hc. set_solver.
  - destruct Hw as [[_ (front & tail & Ho & Hn)] _]. destruct (once_unique _ _ _ _ _ _ Ho Heq) as [-> ->]. lia.
  - destruct Hw as [[[_ (front & tail & Ho & Hn)] _]|(Hc & _)].
    + destruct (once_unique _ _ _ _ _ _ Ho Heq) as [-> ->]. lia.
    + rewrite Heq in Hc. set_solver.
  - destruct Hw as (_ & _ & Hc). rewrite Heq in Hc. set_solver.
  - destruct Hw as [_ Hc]. rewrite Heq in Hc. set_solver.
  - destruct Hw as [[_ (front & tail & Ho & Hc)]|(_ & Hd & front & Ho)];
      destruct (once_unique _ _ _ _ _ _ Ho Heq) as [-> ->]; [by left|right].
    split; [done|]. split; [|done]. destruct Ho as (Hm & _).
    rewrite Hm, started_app, finished_app, !length_app in Hb. unfold inside in Hb. rewrite Hd in Hb. simpl in Hb. unfold running. lia.
Qed.

Lemma cancelled_capture_stops_witness :
  ∃ r, rtc race_step (race_start ["ThreadCollector"; "MemoryCollector"]%string) r ∧
    marks r = [Cancelled; Started "ThreadCollector"; Resumed] ∧
    (length (started [Started "ThreadCollector"; Resumed]) + running [] ≤ 1)%nat.
Proof.
  set (r := mkRace true (Inside "ThreadCollector"%string ["MemoryCollector"%string]) Released
              [Cancelled; Started "ThreadCollector"; Resumed]).
  assert (rtc race_step (race_start ["ThreadCollector"; "MemoryCollector"]%string) r) as H.
  { eapply rtc_l; [by apply step_load|]. eapply rtc_l; [by apply step_fails|].
    eapply rtc_l; [by apply step_enter|]. eapply rtc_l; [by apply step_release|]. apply rtc_refl. }
  exists r. split; [exact H|]. split; [reflexivity|].
  apply (proj1 (cancelled_capture_stops _ _ H) []). reflexivity.
Defined.

(** ** The background finalizer

    [sync_channel(BACKGROUND_QUEUE_CAPACITY)] is a list with a bound; the thread
    takes from its front. A panic of the thread drops the receiver with what is
    queued. [C] is a captured event; [accepted] is what [try_submit] took. *)

Definition BACKGROUND_QUEUE_CAPACITY : nat := 2.

Inductive ThreadState (C : Type) : Type :=
| Receiving
| Finalizing (captured : C)
| ThreadFinished
| ThreadPanicked (lost : list C).
Arguments Receiving {C}.
Arguments Finalizing {C}.
Arguments ThreadFinished {C}.
Arguments ThreadPanicked {C}.

Record Background (C : Type) := mkBackground {
  open : bool;
  queue : list C;
  thread : ThreadState C;
  finalized : list C;
  accepted : list C
}.
Arguments mkBackground {C}.
Arguments open {C}.
Arguments queue {C}.
Arguments thread {C}.
Arguments finalized {C}.
Arguments accepted {C}.

Section Background.
Context {C : Type}.
Notation Background := (Background C).

(** [start]: without a thread there is no sender, and the receiver is gone. *)
Definition background_start (spawned : bool) : Background :=
  mkBackground spawned [] (if spawned then Receiving else ThreadPanicked []) [] [].

Definition receiver_alive (b : Background) : bool :=
  match thread b with Receiving | Finalizing _ => true | _ => false end.

(** [try_submit]: no sender, a receiver that is gone, a full queue. *)
Definition try_submit (b : Background) (c : C) : bool * Background :=
  if negb (open b) then (false, b)
  else if negb (receiver_alive b) then (false, b)
  else if decide (BACKGROUND_QUEUE_CAPACITY ≤ length (queue b))%nat then (false, b)
  else (true, mkBackground (open b) (queue b ++ [c]) (thread b) (finalized b) (accepted b ++ [c])).

(** [receiver.recv()]: an event, or the end once the sender is gone; blocked
    otherwise. *)
Definition thread_receive (b : Background) : option Background :=
  match thread b, queue b with
  | Receiving, c :: q => Some (mkBackground (open b) q (Finalizing c) (finalized b) (accepted b))
  | Receiving, [] => if open b then None else Some (mkBackground (open b) [] ThreadFinished (finalized b) (accepted b))
  | _, _ => None
  end.

Definition thread_finalize (b : Background) : option Background :=
  match thread b with
  | Finalizing c => Some (mkBackground (open b) (queue b) Receiving (finalized b ++ [c]) (accepted b))
  | _ => None
  end.

Definition thread_panic (b : Background) : option Background :=
  match thread b with
  | Finalizing c => Some (mkBackground (open b) [] (ThreadPanicked (c :: queue b)) (finalized b) (accepted b))
  | _ => None
  end.

(** [shutdown] and [detach] drop the sender. *)
Definition close_sender (b : Background) : Background :=
  mkBackground false (queue b) (thread b) (finalized b) (accepted b).

Inductive background_step (b : Background) : Background → Prop :=
| step_submit c : background_step b (try_submit b c).2
| step_receive b' : thread_receive b = Some b' → background_step b b'
| step_finalize b' : thread_finalize b = Some b' → background_step b b'
| step_panic b' : thread_panic b = Some b' → background_step b b'
| step_close : background_step b (close_sender b).

(** What was accepted and is not finalized, oldest first. *)
Definition outstanding (b : Background) : list C :=
  match thread b with
  | Receiving => queue b
  | Finalizing c => c :: queue b
  | ThreadFinished => []
  | ThreadPanicked lost => lost
  end.

Definition background_ok (b : Background) : Prop :=
  accepted b = finalized b ++ outstanding b ∧ (length (queue b) ≤ BACKGROUND_QUEUE_CAPACITY)%nat ∧
  match thread b with
  | Receiving | Finalizing _ => True
  | ThreadFinished => open b = false ∧ queue b = []
  | ThreadPanicked lost => queue b = [] ∧ (length lost ≤ 1 + BACKGROUND_QUEUE_CAPACITY)%nat
  end.

Lemma try_submit_ok b c : background_ok b → background_ok (try_submit b c).2.
Proof.
  intros Hok. unfold try_submit. destruct (open b) eqn:Ho; simpl; [|exact Hok].
  destruct (receiver_alive b) eqn:Hl; simpl; [|exact Hok]. case_decide; simpl; [exact Hok|].
  destruct Hok as (Ha & Hq & Hr). unfold background_ok, outstanding, receiver_alive in *. simpl.
  rewrite length_app. simpl. destruct (thread b); try done; rewrite Ha; simpl; rewrite <- app_assoc;
    split_and!; try done; lia.
Qed.

Lemma background_step_ok b b' : background_ok b → background_step b b' → background_ok b'.
Proof.
  intros Hok Hs. destruct Hs as [c|b' H|b' H|b' H|]; [by apply try_submit_ok|..];
    destruct Hok as (Ha & Hq & Hr); unfold background_ok, outstanding in *.
  - unfold thread_receive in H. destruct (thread b) eqn:Ht; try done. destruct (queue b) as [|c q] eqn:Hqueue.
    + destruct (open b); [done|]. injection H as <-. simpl. auto.
    + injection H as <-. simpl in *. split_and!; [done|lia|done].
  - unfold thread_finalize in H. destruct (thread b) eqn:Ht; try done. injection H as <-. simpl in *.
    rewrite <- app_assoc. auto.
  - unfold thread_panic in H. destruct (thread b) eqn:Ht; try done. injection H as <-. simpl in *.
    split_and!; [done|lia|done|lia].
  - simpl. split_and!; [done|done|]. destruct (thread b); tauto.
Qed.

Lemma background_reachable spawned b : rtc background_step (background_start spawned) b → background_ok b.
Proof.
  intros H. assert (background_ok (background_start spawned)) as H0
    by (unfold background_start; destruct spawned; unfold background_ok; simpl; auto with lia).
  revert H0. induction H as [b|b1 b2 b3 H12 _ IH]; [done|]. intros H1. by eapply IH, background_step_ok.
Qed.

(** The background queue finalizes what it accepted, once each and in order,
    whatever the interleaving of submissions, the thread and the shutdown: at any
    time the accepted events are the finalized ones followed by those still
    outstanding, of which at most three exist; a submission is accepted exactly
    when the sender is held, the thread lives and fewer than two events wait; and a
    thread that ends by itself has finalized everything that was accepted. *)
Theorem background_finalizes_in_order (spawned : bool) (b : Background) :
  rtc background_step (background_start spawned) b →
  accepted b = finalized b ++ outstanding b ∧
  (length (outstanding b) ≤ 3)%nat ∧
  (∀ c, let '(taken, b') := try_submit b c in
     (taken = true ↔ open b = true ∧ receiver_alive b = true ∧ (length (queue b) < 2)%nat) ∧
     accepted b' = accepted b ++ (if taken then [c] else []) ∧ finalized b' = finalized b) ∧
  (thread b = ThreadFinished → finalized b = accepted b).
Proof.
  intros Hb. destruct (background_reachable _ _ Hb) as (Ha & Hq & Hr). split; [done|].
  unfold BACKGROUND_QUEUE_CAPACITY in *. split; [|split].
  - unfold outstanding. destruct (thread b); simpl; [lia..|apply Hr].
  - intros c. unfold try_submit, BACKGROUND_QUEUE_CAPACITY.
    destruct (open b), (receiver_alive b); simpl; try case_decide; simpl; rewrite ?app_nil_r;
      (split; [split; [|intros (? & ? & ?)]; try done; try lia; auto with lia|done]).
  - intros Ht. rewrite Ha. unfold outstanding. by rewrite Ht, app_nil_r.
Qed.

End Background.

Lemma background_finalizes_in_order_witness :
  ∃ b, rtc background_step (background_start (C := nat) true) b ∧ thread b = ThreadFinished ∧ finalized b = [1; 2; 3]%nat ∧
    accepted b = finalized b ++ outstanding b.
Proof.
  set (b := mkBackground false [] (ThreadFinished (C := nat)) [1; 2; 3]%nat [1; 2; 3]%nat).
  assert (rtc background_step (background_start true) b) as H.
  { eapply rtc_l; [apply (step_submit _ 1%nat)|]. eapply rtc_l; [by apply step_receive|].
    eapply rtc_l; [apply (step_submit _ 2%nat)|]. eapply rtc_l; [apply (step_submit _ 3%nat)|].
    eapply rtc_l; [apply (step_submit _ 4%nat)|]. eapply rtc_l; [by apply step_close|].
    do 3 (eapply rtc_l; [by apply step_finalize|]; eapply rtc_l; [by apply step_receive|]). apply rtc_refl. }
  exists b. split; [exact H|]. split; [reflexivity|]. split; [reflexivity|].
  exact (proj1 (background_finalizes_in_order true b H)).
Defined.

End WorkerThreads.
