(* ===== verification/EventLoop.v ===== *)
(** * The monitor event loop (src/event_loop.rs)

    One iteration per monitor event: the crash path (capture, exactly one Mach
    reply, release of the request, hand-off of fatal finalization), snapshots,
    inline ANR detection through the watchdog of [Watchdog], terminal child
    statuses, shutdown and failures; and the typed outcome with its process exit
    code.

    Event sources, workers and clocks are used through [LoopOps]; every
    operation may change the environment [S], in which the capture and
    finalization workers have been started. The loop threads the environment and
    the trace of what it did. *)

From stdpp Require Import pretty.
From S2P Require Import Prelude.
From S2P Require Import Traced.
From S2P Require Import Watchdog.
From S2P Require Import PipelineTypes.
From S2P Require Import TaskControl.
From S2P Require Import PluginRun.
From S2P Require Import Pipeline.

Module EventLoop.
Export Types.
Export Traced.

(** ** Outcomes *)

Definition EXIT_MONITOR_INTERNAL : Z := 70.
Definition EXIT_CHILD_FAILURE : Z := 80.
Definition EXIT_DETECTED_CRASH : Z := 81.
Definition SIGKILL_NUM : Z := 9.

Inductive MonitorOutcome : Type :=
| OutcomeChildTerminated (reason : TerminationReason)
| DetectedCrash (termination : option TerminationReason) (report_path : option PathBuf)
| ShutdownRequested (signal : Z) (termination : option TerminationReason)
| OutcomeMonitorFailure (message : string).

Definition exit_code (o : MonitorOutcome) : Z :=
  match o with
  | OutcomeChildTerminated (Exited 0 _) => 0
  | OutcomeChildTerminated (Signaled signal _ _)
  | DetectedCrash (Some (Signaled signal _ _)) _
  | ShutdownRequested signal _ => 128 + signal
  | DetectedCrash (Some (Exited 0 _)) _ | DetectedCrash None _ => EXIT_DETECTED_CRASH
  | OutcomeChildTerminated (Exited _ _) | DetectedCrash (Some (Exited _ _)) _ => EXIT_CHILD_FAILURE
  | OutcomeMonitorFailure _ => EXIT_MONITOR_INTERNAL
  end.

Definition with_crash_result (o : MonitorOutcome) (reason : option TerminationReason)
    (path : option PathBuf) : MonitorOutcome :=
  match o with DetectedCrash _ _ => DetectedCrash reason path | other => other end.

Definition with_shutdown_termination (o : MonitorOutcome) (reason : option TerminationReason) : MonitorOutcome :=
  match o with ShutdownRequested signal _ => ShutdownRequested signal reason | other => other end.

Definition outcome_report_path (o : MonitorOutcome) : option PathBuf :=
  match o with DetectedCrash _ (Some path) => Some path | _ => None end.

(** [termination_report_type], for a pipeline with the given [enabled] reports. *)
Definition termination_report_type (enabled : ReportType → bool) (reason : TerminationReason) : option ReportType :=
  match reason with
  | Exited 0 _ => None
  | Exited _ _ => if enabled ExitFailure then Some ExitFailure else None
  | Signaled signal _ _ =>
      if bool_decide (signal = SIGKILL_NUM) && enabled Oom then Some Oom
      else if enabled SignalFailure then Some SignalFailure
      else None
  end.

(** [exception_policy(t).subscribed] (src/platform/macos/types.rs). *)
Definition exception_subscribed (exception_type : Z) : bool :=
  bool_decide (exception_type ∈ [1; 2; 3; 6; 10; 12]).

(** ** The environment of the loop *)

Inductive MonitorEvent (R : Type) : Type :=
| CrashEvt (received_at exception_type code subcode : Z) (raw_codes : list Z) (request : R)
| SnapshotEvt
| ShutdownSignal (signal : Z)
| ChildTerminated (reason : TerminationReason)
| MonitorFailure (message : string)
| ListenerFailure (message : string).
Arguments CrashEvt {R}.
Arguments SnapshotEvt {R}.
Arguments ShutdownSignal {R}.
Arguments ChildTerminated {R}.
Arguments MonitorFailure {R}.
Arguments ListenerFailure {R}.

Record AnrConfig := mkAnrConfig {
  warmup_ms : Z;
  threshold_ms : Z;
  check_interval_ms : Z;
  cooldown_ms : Z
}.

(** [R] is the received Mach request, [C] a captured event, [F] the ticket of a
    fatal finalization. *)
Class LoopOps (S R C F : Type) := {
  wait_until : option Z → S → option (MonitorEvent R) * S;
  anr_now : S → Z * S;
  system_now : S → Z * S;
  read_live_anr_heartbeat : S → option Z * S;
  new_report_id : S → string * S;
  worker_capture : CrashEvent → mach_port_t → Z → S → option C * S;
  worker_detach : S → S;
  worker_shutdown : Z → S → S;
  background_detach : S → S;
  background_shutdown : Z → S → S;
  background_submit : C → S → S;
  request_thread_port : R → mach_port_t;
  reply_fn : R → S → result string unit * R * S;
  drop_request : R → S → S;
  health_failures : S → list TaskControl.TaskControlFailure;
  start_finalization : C → S → F * S;
  complete_finalization : F → option TerminationReason → Z → S → option Diagnostics * S;
  finalize_terminated_child : CrashEvent → Z → S → option Diagnostics * S
}.

Definition CAPTURE_DEADLINE : Z := Pipeline.CAPTURE_DEADLINE.
Definition CRASH_FINALIZE_WAIT : Z := Pipeline.CRASH_FINALIZE_WAIT.
Definition BACKGROUND_DRAIN_DEADLINE : Z := 2 * Pipeline.NANOS_PER_SEC.

(** What a wait was asked for and answered; a request is known by its thread port. *)
Inductive LoopStep : Type :=
| Waited (until : option Z) (event : option (MonitorEvent mach_port_t))
| ClockRead (now : Z)
| Watched (a : Watchdog.action) (detected : option Z)
| CaptureTried (event : CrashEvent) (captured : bool)
| Replied (ok : bool)
| RequestDropped
| HealthRead (failures : list TaskControl.TaskControlFailure)
| Submitted
| FinalizationStarted
| ContainedFinalized
| TerminationFinalized (event : CrashEvent)
| CaptureDetached
| BackgroundDetached
| CaptureShutDown
| BackgroundShutDown.

Notation World S := (Traced.World S LoopStep).
Notation loop S := (traced S LoopStep).

Record EventLoopResult (F : Type) := mkResult {
  outcome : MonitorOutcome;
  crash_finalization : option F;
  crash_cleanup_required : bool;
  listener_loss_containment_required : bool
}.
Arguments mkResult {F}.
Arguments outcome {F}.
Arguments crash_finalization {F}.
Arguments crash_cleanup_required {F}.
Arguments listener_loss_containment_required {F}.

(** The mutable locals of the loop. *)
Record LoopState := mkLoopState { anr_state : option Watchdog.WatchdogState; last_anr_check : Z }.

Inductive Flow (F : Type) : Type :=
| Continue (st : LoopState)
| Return (r : EventLoopResult F).
Arguments Continue {F}.
Arguments Return {F}.

Section Loop.
Context {S R C F : Type} {ops : LoopOps S R C F}.
(** The loop's context: enabled reports, the monitored target, whether shared
    memory is mapped, and the ANR configuration. *)
Context (enabled : ReportType → bool) (task : mach_port_t) (pid : Z) (target_name : string).
Context (shm : bool) (anr_config : option AnrConfig).

Definition monitor_event (id : string) (t : ReportType) (bail : bool) (hang : option Z) : CrashEvent :=
  mkCrashEvent id t None None None None [] None bail pid target_name hang.

Definition crash_event (id : string) (exception_type code subcode : Z) (raw_codes : list Z)
    (thread : mach_port_t) : CrashEvent :=
  mkCrashEvent id Crash None (Some exception_type) (Some code) (Some subcode) raw_codes (Some thread)
    false pid target_name None.

Definition termination_event (id : string) (t : ReportType) (reason : TerminationReason) : CrashEvent :=
  mkCrashEvent id t (Some reason) None None None [] None false pid target_name None.

(** ** The clock and the events *)

Definition clock_read : loop S Z :=
  t ← lift anr_now;
  _ ← emit (ClockRead t);
  mret t.

Definition seen (event : MonitorEvent R) : MonitorEvent mach_port_t :=
  match event with
  | CrashEvt received_at exception_type code subcode raw_codes request =>
      CrashEvt received_at exception_type code subcode raw_codes (request_thread_port request)
  | SnapshotEvt => SnapshotEvt
  | ShutdownSignal signal => ShutdownSignal signal
  | ChildTerminated reason => ChildTerminated reason
  | MonitorFailure message => MonitorFailure message
  | ListenerFailure message => ListenerFailure message
  end.

Definition wait_for_event (until : option Z) : loop S (option (MonitorEvent R)) :=
  event ← lift (wait_until until);
  _ ← emit (Waited until (seen <$> event));
  mret event.

(** ** Workers *)

Definition capture (event : CrashEvent) (deadline : Z) : loop S (option C) :=
  r ← lift (worker_capture event task deadline);
  _ ← emit (CaptureTried event (bool_decide (is_Some r)));
  mret r.

Definition detach_capture : loop S unit := act CaptureDetached worker_detach.
Definition detach_background : loop S unit := act BackgroundDetached background_detach.

Definition shutdown_workers : loop S unit :=
  _ ← act CaptureShutDown (worker_shutdown (100 * NANOS_PER_MILLI));
  act BackgroundShutDown (background_shutdown BACKGROUND_DRAIN_DEADLINE).

Definition submit (captured : option C) : loop S unit :=
  match captured with Some c => act Submitted (background_submit c) | None => mret tt end.

Definition finalize_contained_capture (captured : option C) : loop S unit :=
  match captured with
  | None => mret tt
  | Some c =>
      f ← lift (start_finalization c);
      _ ← lift (complete_finalization f None BACKGROUND_DRAIN_DEADLINE);
      emit ContainedFinalized
  end.

(** The last failure that prevents continued monitoring. *)
Definition task_control_monitor_failure : loop S (option string) :=
  failures ← look health_failures;
  _ ← emit (HealthRead failures);
  mret ((λ f, ("task-control containment activated: " +:+ TaskControl.failure_to_string f)%string) <$>
        last (List.filter TaskControl.prevents_continued_monitoring failures)).

(** ** ANR accounting *)

Definition finish_anr_monitor_work (st : LoopState) (monitor_work_started : Z) : loop S LoopState :=
  match anr_state st with
  | Some state =>
      if shm then
        let elapsed := as_millis (saturating_duration_since monitor_work_started (last_anr_check st)) in
        let application_elapsed := if decide (elapsed ≤ U64_MAX) then elapsed else U64_MAX in
        heartbeat ← lift read_live_anr_heartbeat;
        let '(state, rebase) := Watchdog.rebase_after_monitor_work state heartbeat application_elapsed in
        _ ← emit (Watched (Watchdog.Rebase heartbeat application_elapsed) None);
        monitor_work_finished ← clock_read;
        mret (mkLoopState (Some state)
          match rebase with
          | Watchdog.PreserveElapsed =>
              Watchdog.exclude_monitor_work_from_anr_clock (last_anr_check st) monitor_work_started
                monitor_work_finished
          | Watchdog.ResetElapsed => monitor_work_finished
          end)
      else mret st
  | None => mret st
  end.

(** Capture an event that stops the monitor only when the task had to be
    contained; shared by snapshots and ANRs. *)
Definition capture_and_submit (st : LoopState) (t : ReportType) (hang : option Z) (monitor_work_started : Z)
    : loop S (Flow F) :=
  id ← lift new_report_id;
  now ← lift system_now;
  captured ← capture (monitor_event id t true hang) (now + CAPTURE_DEADLINE);
  failure ← task_control_monitor_failure;
  match failure with
  | Some message =>
      _ ← detach_capture;
      _ ← finalize_contained_capture captured;
      _ ← detach_background;
      mret (Return (mkResult (OutcomeMonitorFailure message) None false false))
  | None =>
      _ ← submit captured;
      st ← finish_anr_monitor_work st monitor_work_started;
      mret (Continue st)
  end.

(** ** Event handlers *)

Definition handle_crash (st : LoopState) (received_at exception_type code subcode : Z) (raw_codes : list Z)
    (request : R) : loop S (Flow F) :=
  if negb (exception_subscribed exception_type) then
    '(reply, request) ← lift (λ s, let '(r, request, s) := reply_fn request s in ((r, request), s));
    _ ← emit (Replied (is_ok reply));
    _ ← act RequestDropped (drop_request request);
    match reply with
    | Err error =>
        _ ← detach_capture;
        _ ← detach_background;
        mret (Return (mkResult (OutcomeMonitorFailure ("failed to reject ignored Mach exception: " +:+ error)%string)
                        None true false))
    | Ok _ => mret (Continue st)
    end
  else
  captured ←
    (if enabled Crash then
       id ← lift new_report_id;
       capture (crash_event id exception_type code subcode raw_codes (request_thread_port request))
         (default received_at (instant_checked_add received_at CAPTURE_DEADLINE))
     else mret None);
  '(reply, request) ← lift (λ s, let '(r, request, s) := reply_fn request s in ((r, request), s));
  _ ← emit (Replied (is_ok reply));
  _ ← act RequestDropped (drop_request request);
  failure ← task_control_monitor_failure;
  _ ← detach_capture;
  _ ← detach_background;
  finalization ←
    (match captured with
     | Some c => f ← lift (start_finalization c); _ ← emit FinalizationStarted; mret (Some f)
     | None => mret None
     end);
  mret (Return (mkResult
    match failure, reply with
    | None, Ok _ => DetectedCrash None None
    | None, Err error =>
        OutcomeMonitorFailure ("failed to send deferred Mach exception reply: " +:+ error)%string
    | Some message, Ok _ => OutcomeMonitorFailure message
    | Some message, Err error =>
        OutcomeMonitorFailure (message +:+ "; failed to send deferred Mach exception reply: " +:+ error)%string
    end finalization true false)).

Definition handle_snapshot (st : LoopState) : loop S (Flow F) :=
  if negb (enabled Snapshot) then mret (Continue st) else
  monitor_work_started ← clock_read;
  capture_and_submit st Snapshot None monitor_work_started.

Definition handle_child_termination (reason : TerminationReason) : loop S MonitorOutcome :=
  _ ← (match termination_report_type enabled reason with
       | None => mret tt
       | Some t =>
           id ← lift new_report_id;
           let event := termination_event id t reason in
           _ ← lift (finalize_terminated_child event CRASH_FINALIZE_WAIT);
           emit (TerminationFinalized event)
       end);
  mret (OutcomeChildTerminated reason).

(** The inline ANR check, when no event is ready. *)
Definition handle_tick (st : LoopState) : loop S (Flow F) :=
  match anr_state st, shm, anr_config with
  | Some state, true, Some cfg =>
      now ← clock_read;
      let elapsed := millis_u64 (saturating_duration_since now (last_anr_check st)) in
      if decide (check_interval_ms cfg ≤ elapsed) then
        heartbeat ← lift read_live_anr_heartbeat;
        let '(state, detected) :=
          Watchdog.update_watchdog_state state heartbeat elapsed (threshold_ms cfg) (cooldown_ms cfg) in
        _ ← emit (Watched (Watchdog.Tick heartbeat elapsed) detected);
        last ← clock_read;
        let st := mkLoopState (Some state) last in
        match detected with
        | None => mret (Continue st)
        | Some hang_duration_ms => capture_and_submit st Anr (Some hang_duration_ms) last
        end
      else mret (Continue st)
  | _, _, _ => mret (Continue st)
  end.

(** ** The loop *)

Definition next_watchdog_check (st : LoopState) : option Z :=
  _ ← anr_state st;
  cfg ← anr_config;
  instant_checked_add (last_anr_check st) (check_interval_ms cfg * NANOS_PER_MILLI).

Definition loop_step (st : LoopState) : loop S (Flow F) :=
  event ← wait_for_event (next_watchdog_check st);
  match event with
  | Some (CrashEvt received_at exception_type code subcode raw_codes request) =>
      handle_crash st received_at exception_type code subcode raw_codes request
  | Some SnapshotEvt => handle_snapshot st
  | Some (ShutdownSignal signal) =>
      _ ← shutdown_workers;
      mret (Return (mkResult (ShutdownRequested signal None) None false false))
  | Some (ChildTerminated reason) =>
      o ← handle_child_termination reason;
      _ ← shutdown_workers;
      mret (Return (mkResult o None false false))
  | Some (ListenerFailure message) =>
      _ ← shutdown_workers;
      mret (Return (mkResult (OutcomeMonitorFailure message) None false true))
  | Some (MonitorFailure message) =>
      _ ← shutdown_workers;
      mret (Return (mkResult (OutcomeMonitorFailure message) None false false))
  | None => handle_tick st
  end.

(** The watchdog is armed only when ANR reports are enabled and there are a
    mapping and a configuration. *)
Definition initial_state : loop S LoopState :=
  state ←
    (match anr_config with
     | Some cfg =>
         if enabled Anr && shm then
           heartbeat ← lift read_live_anr_heartbeat;
           mret (Some (Watchdog.new (warmup_ms cfg) heartbeat))
         else mret None
     | None => mret None
     end);
  last ← clock_read;
  mret (mkLoopState state last).

(** [fuel] bounds the number of events; the loop itself has no bound. *)
Fixpoint iterate (fuel : nat) (st : LoopState) : loop S (Flow F) :=
  match fuel with
  | O => mret (Continue st)
  | Datatypes.S fuel =>
      flow ← loop_step st;
      match flow with
      | Continue st => iterate fuel st
      | Return r => mret (Return r)
      end
  end.

Definition event_loop (fuel : nat) : loop S (Flow F) :=
  st ← initial_state;
  iterate fuel st.

End Loop.
End EventLoop.

(** ** Correctness of the event loop

    The grammar of what one iteration may do ([iteration]) and of whole runs
    ([looped]), the coupling of the loop with the watchdog state machine, the
    terminal events and the exit-code contract. *)

Module EventLoopSpec.
Export EventLoop.

(** ** The protocol *)

(** The Mach exceptions that end an application: EXC_BAD_ACCESS, EXC_BAD_INSTRUCTION,
    EXC_ARITHMETIC, EXC_BREAKPOINT, EXC_CRASH and EXC_GUARD. *)
Definition fatal_exceptions : list Z := [1; 2; 3; 6; 10; 12].

Section Protocol.
Context {F : Type} (enabled : ReportType → bool) (pid : Z) (target_name : string) (shm : bool) (anr_config : option AnrConfig).

(** The report that the end of a child calls for. *)
Definition calls_for (reason : TerminationReason) (t : ReportType) : Prop :=
  enabled t = true ∧
  match reason with
  | Exited code _ => code ≠ 0 ∧ t = ExitFailure
  | Signaled signal _ _ => signal = 9 ∧ t = Oom ∨ t = SignalFailure ∧ ¬ (signal = 9 ∧ enabled Oom = true)
  end.

(** The clock and the watchdog after the monitor's own work, which began at [started]. *)
Inductive rebased (st : LoopState) (started : Z) : list LoopStep → LoopState → Prop :=
| unwatched : anr_state st = None ∨ shm = false → rebased st started [] st
| rewatched state heartbeat elapsed state' mode finished :
    anr_state st = Some state → shm = true →
    elapsed = Z.min U64_MAX (as_millis (saturating_duration_since started (last_anr_check st))) →
    Watchdog.rebase_after_monitor_work state heartbeat elapsed = (state', mode) →
    rebased st started [Watched (Watchdog.Rebase heartbeat elapsed) None; ClockRead finished]
      (mkLoopState (Some state')
         match mode with
         | Watchdog.PreserveElapsed =>
             Watchdog.exclude_monitor_work_from_anr_clock (last_anr_check st) started finished
         | Watchdog.ResetElapsed => finished
         end).

(** No failed resumption or containment of the target forbids to go on, or one that does is
    named. *)
Definition healthy (failures : list TaskControl.TaskControlFailure) : Prop :=
  ∀ f, f ∈ failures → TaskControl.prevents_continued_monitoring f = false.

Definition contained (failures : list TaskControl.TaskControlFailure) (message : string) : Prop :=
  ∃ f, f ∈ failures ∧ TaskControl.prevents_continued_monitoring f = true ∧
    message = ("task-control containment activated: " +:+ TaskControl.failure_to_string f)%string.

(** A capture on the monitor's own initiative: submission and the watchdog rebase, or,
    when the task had to be contained, the bounded finalization of this capture
    and the end of the loop. *)
Definition own_event (id : string) (t : ReportType) (hang : option Z) : CrashEvent :=
  mkCrashEvent id t None None None None [] None true pid target_name hang.

Inductive own_capture (st : LoopState) (t : ReportType) (hang : option Z) (started : Z) : list LoopStep → Flow F → Prop :=
| capture_submitted id captured failures rebase st' :
    healthy failures → rebased st started rebase st' →
    own_capture st t hang started
      (CaptureTried (own_event id t hang) captured :: HealthRead failures :: (if captured then [Submitted] else []) ++ rebase)
      (Continue st')
| capture_contained id captured failures message :
    contained failures message →
    own_capture st t hang started
      (CaptureTried (own_event id t hang) captured :: HealthRead failures :: CaptureDetached ::
       (if captured then [ContainedFinalized] else []) ++ [BackgroundDetached])
      (Return (mkResult (OutcomeMonitorFailure message) None false false)).

(** The part of a fatal crash before and after the Mach reply. *)
Inductive crash_capture (exception_type code subcode : Z) (raw_codes : list Z) (thread : mach_port_t)
    : list LoopStep → bool → Prop :=
| crash_disabled : enabled Crash = false → crash_capture exception_type code subcode raw_codes thread [] false
| crash_tried id captured :
    enabled Crash = true →
    crash_capture exception_type code subcode raw_codes thread
      [CaptureTried (mkCrashEvent id Crash None (Some exception_type) (Some code) (Some subcode) raw_codes (Some thread)
                       false pid target_name None) captured] captured.

Definition reply_and_detach (ok : bool) (health : list LoopStep) : list LoopStep :=
  [Replied ok; RequestDropped] ++ health ++ [CaptureDetached; BackgroundDetached].

(** When the loop wants to be woken for the watchdog. *)
Definition wakes_at (st : LoopState) : option Z :=
  match anr_state st, anr_config with
  | Some _, Some cfg => instant_checked_add (last_anr_check st) (check_interval_ms cfg * NANOS_PER_MILLI)
  | _, _ => None
  end.

(** What one iteration does with what the wait answered. *)
Inductive iteration (st : LoopState) : option (MonitorEvent mach_port_t) → list LoopStep → Flow F → Prop :=
| no_watchdog :
    anr_state st = None ∨ shm = false ∨ anr_config = None → iteration st None [] (Continue st)
| not_due cfg now :
    anr_config = Some cfg → millis_u64 (saturating_duration_since now (last_anr_check st)) < check_interval_ms cfg →
    iteration st None [ClockRead now] (Continue st)
| ticked cfg state now elapsed heartbeat state' last :
    anr_config = Some cfg → shm = true → anr_state st = Some state →
    elapsed = millis_u64 (saturating_duration_since now (last_anr_check st)) → check_interval_ms cfg ≤ elapsed →
    Watchdog.update_watchdog_state state heartbeat elapsed (threshold_ms cfg) (cooldown_ms cfg) = (state', None) →
    iteration st None [ClockRead now; Watched (Watchdog.Tick heartbeat elapsed) None; ClockRead last]
      (Continue (mkLoopState (Some state') last))
| hang_detected cfg state now elapsed heartbeat state' duration last l flow :
    anr_config = Some cfg → shm = true → anr_state st = Some state →
    elapsed = millis_u64 (saturating_duration_since now (last_anr_check st)) → check_interval_ms cfg ≤ elapsed →
    Watchdog.update_watchdog_state state heartbeat elapsed (threshold_ms cfg) (cooldown_ms cfg) = (state', Some duration) →
    own_capture (mkLoopState (Some state') last) Anr (Some duration) last l flow →
    iteration st None
      ([ClockRead now; Watched (Watchdog.Tick heartbeat elapsed) (Some duration); ClockRead last] ++ l) flow
| snapshot_disabled : enabled Snapshot = false → iteration st (Some SnapshotEvt) [] (Continue st)
| snapshot_taken started l flow :
    enabled Snapshot = true → own_capture st Snapshot None started l flow →
    iteration st (Some SnapshotEvt) (ClockRead started :: l) flow
| exception_ignored received_at exception_type code subcode raw_codes thread :
    exception_type ∉ fatal_exceptions →
    iteration st (Some (CrashEvt received_at exception_type code subcode raw_codes thread))
      [Replied true; RequestDropped] (Continue st)
| exception_reply_failed received_at exception_type code subcode raw_codes thread message :
    exception_type ∉ fatal_exceptions →
    iteration st (Some (CrashEvt received_at exception_type code subcode raw_codes thread))
      (reply_and_detach false []) (Return (mkResult (OutcomeMonitorFailure message) None true false))
| crash_detected received_at exception_type code subcode raw_codes thread before captured ok failures (finalization : option F) o :
    exception_type ∈ fatal_exceptions →
    crash_capture exception_type code subcode raw_codes thread before captured →
    (is_Some finalization ↔ captured = true) →
    (healthy failures ∧ ok = true ∧ o = DetectedCrash None None ∨
     ¬ (healthy failures ∧ ok = true) ∧ ∃ message, o = OutcomeMonitorFailure message) →
    iteration st (Some (CrashEvt received_at exception_type code subcode raw_codes thread))
      (before ++ reply_and_detach ok [HealthRead failures] ++ (if captured then [FinalizationStarted] else []))
      (Return (mkResult o finalization true false))
| child_reported reason t id :
    calls_for reason t →
    iteration st (Some (ChildTerminated reason))
      [TerminationFinalized (mkCrashEvent id t (Some reason) None None None [] None false pid target_name None);
       CaptureShutDown; BackgroundShutDown]
      (Return (mkResult (OutcomeChildTerminated reason) None false false))
| child_unreported reason :
    (∀ t, ¬ calls_for reason t) →
    iteration st (Some (ChildTerminated reason)) [CaptureShutDown; BackgroundShutDown]
      (Return (mkResult (OutcomeChildTerminated reason) None false false))
| shut_down signal :
    iteration st (Some (ShutdownSignal signal)) [CaptureShutDown; BackgroundShutDown]
      (Return (mkResult (ShutdownRequested signal None) None false false))
| listener_lost message :
    iteration st (Some (ListenerFailure message)) [CaptureShutDown; BackgroundShutDown]
      (Return (mkResult (OutcomeMonitorFailure message) None false true))
| monitor_failed message :
    iteration st (Some (MonitorFailure message)) [CaptureShutDown; BackgroundShutDown]
      (Return (mkResult (OutcomeMonitorFailure message) None false false)).

(** A run from a state: continuing iterations, ended by at most one that returns. *)
Inductive looped : LoopState → list LoopStep → Flow F → Prop :=
| out_of_events st : looped st [] (Continue st)
| continued st event l st' l' flow :
    iteration st event l (Continue st') → looped st' l' flow →
    looped st (Waited (wakes_at st) event :: l ++ l') flow
| returned st event l r :
    iteration st event l (Return r) → looped st (Waited (wakes_at st) event :: l) (Return r).

(** Where the watchdog starts: armed on the configured warmup exactly when hang reports are
    enabled and the memory is mapped. *)
Definition initial_watchdog (s0 : option Watchdog.WatchdogState) : Prop :=
  match anr_config with
  | Some cfg => if enabled Anr && shm then ∃ heartbeat, s0 = Some (Watchdog.new (warmup_ms cfg) heartbeat) else s0 = None
  | None => s0 = None
  end.

(** A run of the loop: it begins at a clock reading. *)
Definition ran (l : list LoopStep) (flow : Flow F) : Prop :=
  ∃ s0 start l', l = ClockRead start :: l' ∧ initial_watchdog s0 ∧ looped (mkLoopState s0 start) l' flow.

End Protocol.

(** What the watchdog was given and what it answered. *)
Definition watched (l : list LoopStep) : list (Watchdog.action * option Z) :=
  omap (λ s, match s with Watched a o => Some (a, o) | _ => None end) l.

Lemma watched_app l l' : watched (l ++ l') = watched l ++ watched l'.
Proof. apply omap_app. Qed.

(** ** The loop follows the protocol *)

Section Spec.
Context {S R C F : Type} {ops : LoopOps S R C F}.
Context (enabled : ReportType → bool) (task : mach_port_t) (pid : Z) (target_name : string).
Context (shm : bool) (anr_config : option AnrConfig).

Notation capture := (capture task).

Lemma clock_emits : emits (λ (l : list LoopStep) (t : Z), l = [ClockRead t]) clock_read.
Proof. apply emits_silent; [auto with cm|]. intros t. apply emits_step. by apply emits_ret. Qed.

Lemma emits_clock {B : Type} (Q : list LoopStep → B → Prop) (f : Z → loop S B) :
  (∀ t, emits (λ l b, Q (ClockRead t :: l) b) (f t)) → emits Q (clock_read ≫= f).
Proof. intros Hf. eapply emits_bind; [apply clock_emits|]. intros l t ->. apply Hf. Qed.

Lemma capture_emits event deadline :
  emits (λ (l : list LoopStep) (c : option C), l = [CaptureTried event (bool_decide (is_Some c))])
    (capture event deadline).
Proof.
  unfold EventLoop.capture. apply emits_silent; [auto with cm|]. intros c. apply emits_step. by apply emits_ret.
Qed.

Lemma finish_anr_monitor_work_emits st started :
  emits (rebased shm st started) (finish_anr_monitor_work shm st started).
Proof.
  unfold finish_anr_monitor_work. destruct (anr_state st) as [state|] eqn:Hst; [|apply emits_ret, unwatched; by left].
  destruct shm eqn:Hshm; [|apply emits_ret, unwatched; by right].
  apply emits_silent; [auto with cm|]. intros heartbeat. cbv zeta.
  destruct (Watchdog.rebase_after_monitor_work state heartbeat _) as [state' rebase] eqn:Hr.
  apply emits_step, emits_clock. intros finished. apply emits_ret.
  eapply rewatched; [done|done| |exact Hr]. case_decide; lia.
Qed.

Lemma submit_emits (captured : option C) :
  emits (λ (l : list LoopStep) (_ : unit), l = if bool_decide (is_Some captured) then [Submitted] else [])
    (submit captured).
Proof.
  destruct captured as [c|]; simpl.
  - by apply act_emits.
  - by apply emits_ret.
Qed.

Lemma finalize_contained_capture_emits (captured : option C) :
  emits (λ (l : list LoopStep) (_ : unit), l = if bool_decide (is_Some captured) then [ContainedFinalized] else [])
    (finalize_contained_capture captured).
Proof.
  destruct captured as [c|]; simpl.
  - do 2 (apply emits_silent; [auto with cm|]; intros ?). by apply emit_emits.
  - by apply emits_ret.
Qed.

Lemma failure_emits :
  emits (λ (l : list LoopStep) (failure : option string), ∃ failures, l = [HealthRead failures] ∧
    match failure with Some message => contained failures message | None => healthy failures end)
    (task_control_monitor_failure (S := S)).
Proof.
  unfold task_control_monitor_failure. apply emits_silent; [auto with cm|]. intros failures.
  apply emits_step, emits_ret. exists failures. split; [done|].
  destruct (last (List.filter _ failures)) as [f|] eqn:Hl; cbn.
  - apply last_Some_elem_of, list_elem_of_In, filter_In in Hl as [Hin Hp]. exists f. by rewrite list_elem_of_In.
  - apply last_None in Hl. intros f Hin. apply not_true_is_false. intros Hp.
    apply (in_nil (a := f)). rewrite <-Hl. apply filter_In. by rewrite <-list_elem_of_In.
Qed.

Lemma capture_and_submit_emits st t hang started :
  emits (own_capture (F := F) pid target_name shm st t hang started)
    (capture_and_submit task pid target_name shm st t hang started).
Proof.
  unfold capture_and_submit. do 2 (apply emits_silent; [auto with cm|]; intros ?).
  eapply emits_bind; [apply capture_emits|]. intros ? captured ->.
  eapply emits_bind; [apply failure_emits|]. intros ? [message|] (failures & -> & Hf).
  - apply emits_act. eapply emits_bind; [apply finalize_contained_capture_emits|]. intros ? [] ->.
    apply emits_act. apply emits_ret. by apply capture_contained.
  - eapply emits_bind; [apply submit_emits|]. intros ? [] ->.
    eapply emits_bind; [apply finish_anr_monitor_work_emits|]. intros l st' Hl. apply emits_ret.
    rewrite app_nil_r. by apply capture_submitted.
Qed.

Notation iterates st event := (iteration (F := F) enabled pid target_name shm anr_config st event).

Lemma subscribed exception_type : exception_subscribed exception_type = true ↔ exception_type ∈ fatal_exceptions.
Proof. apply bool_decide_eq_true. Qed.

Lemma contained_unhealthy failures message : contained failures message → ¬ healthy failures.
Proof. intros (f & Hin & Hp & _) H. specialize (H f Hin). congruence. Qed.

Lemma handle_crash_emits st received_at exception_type code subcode raw_codes (request : R) :
  emits (iterates st (Some (CrashEvt received_at exception_type code subcode raw_codes (request_thread_port request))))
    (handle_crash enabled task pid target_name st received_at exception_type code subcode raw_codes request).
Proof.
  unfold handle_crash. destruct (exception_subscribed exception_type) eqn:Hsub; cbn [negb]; cbv iota.
  - apply subscribed in Hsub. apply (emits_bind (λ (l : list LoopStep) (c : option C),
      crash_capture enabled pid target_name exception_type code subcode raw_codes (request_thread_port request) l
        (bool_decide (is_Some c)))).
    { destruct (enabled Crash) eqn:He.
      - apply emits_silent; [auto with cm|]. intros id. eapply emits_impl; [apply capture_emits|].
        intros l c ->. by apply crash_tried.
      - apply emits_ret. rewrite bool_decide_false by (intros []; done). by constructor. }
    intros before captured Hbefore. apply emits_silent; [auto with cm|]. intros [reply request'].
    apply emits_step, emits_act. eapply emits_bind; [apply failure_emits|]. intros ? failure (failures & -> & Hfailure).
    do 2 apply emits_act.
    apply (emits_bind (λ (l : list LoopStep) (f : option F),
      l = (if bool_decide (is_Some captured) then [FinalizationStarted] else []) ∧
      (is_Some f ↔ bool_decide (is_Some captured) = true))).
    { destruct captured as [c|].
      - apply emits_silent; [auto with cm|]. intros f. apply emits_step, emits_ret. split; [done|]. split; [done|eauto].
      - apply emits_ret. split; [done|]. split; [by intros []|done]. }
    intros ? finalization [-> Hf]. apply emits_ret. rewrite app_nil_r.
    apply crash_detected; [done..|]. destruct failure as [m|].
    + apply contained_unhealthy in Hfailure. right. split; [tauto|]. destruct reply; eauto.
    + destruct reply as [[]|]; [by left|]. right. split; [intros [_ [=]]|eauto].
  - assert (exception_type ∉ fatal_exceptions) as Hno by (intros Hin%subscribed; congruence).
    apply emits_silent; [auto with cm|]. intros [reply request']. apply emits_step, emits_act.
    destruct reply as [[]|error]; simpl is_ok.
    + by apply emits_ret, exception_ignored.
    + do 2 apply emits_act. by apply emits_ret, exception_reply_failed.
Qed.

Lemma handle_snapshot_emits st : emits (iterates st (Some SnapshotEvt)) (handle_snapshot enabled task pid target_name shm st).
Proof.
  unfold handle_snapshot. destruct (enabled Snapshot) eqn:He; simpl negb; cbv iota.
  - apply emits_clock. intros started. eapply emits_impl; [apply capture_and_submit_emits|].
    intros l f H. by apply snapshot_taken.
  - apply emits_ret. by constructor.
Qed.

Lemma handle_tick_emits st : emits (iterates st None) (handle_tick task pid target_name shm anr_config st).
Proof.
  unfold handle_tick. pose proof capture_and_submit_emits as Hcap.
  destruct (anr_state st) as [state|] eqn:Hst; [|apply emits_ret, no_watchdog; auto].
  destruct shm eqn:Hshm; [|apply emits_ret, no_watchdog; auto].
  destruct anr_config as [cfg|] eqn:Hcfg; [|apply emits_ret, no_watchdog; auto].
  apply emits_clock. intros now. cbv zeta. case_decide; [|apply emits_ret; eapply not_due; [done|lia]].
  apply emits_silent; [auto with cm|]. intros heartbeat.
  destruct (Watchdog.update_watchdog_state state heartbeat _ _ _) as [state' detected] eqn:Hu.
  apply emits_step, emits_clock. intros last. cbv zeta.
  destruct detected as [duration|].
  - eapply emits_impl; [apply Hcap|]. intros l f H1. by eapply hang_detected.
  - apply emits_ret. by eapply ticked.
Qed.

Lemma shutdown_workers_emits :
  emits (λ (l : list LoopStep) (_ : unit), l = [CaptureShutDown; BackgroundShutDown]) shutdown_workers.
Proof. unfold shutdown_workers. apply emits_act. by apply act_emits. Qed.

(** The code's choice of the report. *)
Lemma report_type_calls reason :
  match termination_report_type enabled reason with
  | Some t => calls_for enabled reason t
  | None => ∀ t, ¬ calls_for enabled reason t
  end.
Proof.
  unfold termination_report_type, calls_for, SIGKILL_NUM. destruct reason as [code n|signal core n].
  - destruct (decide (code = 0)) as [->|Hc]; [naive_solver|].
    assert (match code with 0 => None | _ => if enabled ExitFailure then Some ExitFailure else None end =
      if enabled ExitFailure then Some ExitFailure else None) as -> by (by destruct code).
    destruct (enabled ExitFailure) eqn:He; [done|]. intros t (Ht & _ & ->). congruence.
  - case_bool_decide as Hs; destruct (enabled Oom) eqn:Ho; cbn [andb];
      destruct (enabled SignalFailure) eqn:Hf; first [split; [done|]; intuition congruence | intros t (Ht & Hc); intuition congruence].
Qed.

Definition termination_reported (reason : TerminationReason) (l : list LoopStep) : Prop :=
  match l with
  | [] => ∀ t, ¬ calls_for enabled reason t
  | s :: l => l = [] ∧ ∃ t id, calls_for enabled reason t ∧
      s = TerminationFinalized (mkCrashEvent id t (Some reason) None None None [] None false pid target_name None)
  end.

Lemma handle_child_termination_emits reason :
  emits (λ (l : list LoopStep) (o : MonitorOutcome), o = OutcomeChildTerminated reason ∧ termination_reported reason l)
    (handle_child_termination enabled pid target_name reason).
Proof.
  unfold handle_child_termination. pose proof (report_type_calls reason) as Ht.
  apply (emits_bind (λ (l : list LoopStep) (_ : unit), termination_reported reason l)).
  - destruct (termination_report_type enabled reason) as [t|]; [|by apply emits_ret].
    apply emits_silent; [auto with cm|]. intros id. cbv zeta. apply emits_silent; [auto with cm|]. intros o.
    apply emit_emits. split; [done|]. by exists t, id.
  - intros l [] Hl. apply emits_ret. by rewrite app_nil_r.
Qed.

Lemma shutdown_then_return (r : EventLoopResult F) st event :
  (iterates st event [CaptureShutDown; BackgroundShutDown] (Return r)) →
  emits (iterates st event) (_ ← shutdown_workers; mret (Return r)).
Proof.
  intros Hi. eapply emits_bind; [apply shutdown_workers_emits|]. intros ? [] ->. by apply emits_ret.
Qed.

Lemma loop_step_emits st :
  emits (λ (l : list LoopStep) (f : Flow F), ∃ event l', l = Waited (wakes_at anr_config st) event :: l' ∧ iterates st event l' f)
    (loop_step enabled task pid target_name shm anr_config st).
Proof.
  unfold loop_step, wait_for_event.
  apply (emits_bind (λ (l : list LoopStep) event, l = [Waited (wakes_at anr_config st) (seen <$> event)])).
  { apply emits_silent; [auto with cm|]. intros event. apply emits_step, emits_ret.
    unfold next_watchdog_check, wakes_at. by destruct (anr_state st), anr_config. }
  intros ? event ->. eapply (emits_impl (iterates st (seen <$> event))); [|by eauto].
  destruct event as [[received_at exception_type code subcode raw_codes request| |signal|reason|message|message]|];
    cbn [fmap option_fmap option_map seen].
  - apply handle_crash_emits.
  - apply handle_snapshot_emits.
  - apply shutdown_then_return, shut_down.
  - eapply emits_bind; [apply handle_child_termination_emits|].
    intros l ? [-> Hl]. eapply emits_bind; [apply shutdown_workers_emits|]. intros ? [] ->. apply emits_ret.
    destruct l as [|s l]; [by apply child_unreported|]. destruct Hl as (-> & t & id & Ht & ->). by apply child_reported.
  - apply shutdown_then_return, monitor_failed.
  - apply shutdown_then_return, listener_lost.
  - apply handle_tick_emits.
Qed.

Lemma iterate_emits fuel st :
  emits (looped (F := F) enabled pid target_name shm anr_config st)
    (iterate enabled task pid target_name shm anr_config fuel st).
Proof.
  revert st. induction fuel as [|fuel IH]; intros st; cbn [iterate]; [apply emits_ret; constructor|].
  eapply emits_bind; [apply loop_step_emits|]. intros l [st'|r] (event & l' & -> & Hi).
  - eapply emits_impl; [apply IH|]. intros l f Hl. cbn [app]. by eapply continued.
  - apply emits_ret. rewrite app_nil_r. by apply returned.
Qed.

Lemma event_loop_emits fuel :
  emits (ran (F := F) enabled pid target_name shm anr_config) (event_loop enabled task pid target_name shm anr_config fuel).
Proof.
  unfold event_loop. apply (emits_bind (λ (l : list LoopStep) (st : LoopState), ∃ s0 start, l = [ClockRead start] ∧
    st = mkLoopState s0 start ∧ initial_watchdog enabled shm anr_config s0)).
  - unfold initial_state. apply (emits_bind (λ (l : list LoopStep) (s0 : option Watchdog.WatchdogState),
      l = [] ∧ initial_watchdog enabled shm anr_config s0)).
    + unfold initial_watchdog. destruct anr_config as [cfg|]; [|by apply emits_ret].
      destruct (enabled Anr && shm); [|by apply emits_ret]. apply emits_silent; [auto with cm|]. intros heartbeat.
      apply emits_ret. eauto.
    + intros ? s0 [-> Hs0]. apply emits_clock. intros start. apply emits_ret. eauto.
  - intros ? st (s0 & start & -> & -> & Hs0). eapply emits_impl; [apply iterate_emits|].
    intros l flow Hl. exists s0, start, l. by split_and!.
Qed.

End Spec.

(** ** Consequences of the protocol *)

Ltac in_list H :=
  unfold reply_and_detach in H;
  repeat first [rewrite elem_of_app in H | rewrite elem_of_cons in H | rewrite elem_of_nil in H];
  repeat match type of H with _ ∨ _ => destruct H as [H|H] end;
  try discriminate H; try contradiction H.

Section Consequences.
Context {F : Type} (enabled : ReportType → bool) (pid : Z) (target_name : string) (shm : bool) (anr_config : option AnrConfig).
Notation iterates := (iteration (F := F) enabled pid target_name shm anr_config).
Notation loops := (looped (F := F) enabled pid target_name shm anr_config).

(** A capture on the monitor's own initiative captures one event, and reports no end of the
    child. *)
Lemma own_capture_tried st t hang started l (flow : Flow F) event b :
  own_capture pid target_name shm st t hang started l flow → CaptureTried event b ∈ l → report_type event = t.
Proof.
  intros [id captured failures rebase st' _ [_|state h e state' mode finished _ _ _ _]|id captured failures message _] Hin;
    destruct captured; in_list Hin; by injection Hin as -> _.
Qed.

Lemma own_capture_unreported st t hang started l (flow : Flow F) event :
  own_capture pid target_name shm st t hang started l flow → TerminationFinalized event ∉ l.
Proof.
  intros [id captured failures rebase st' _ [_|state h e state' mode finished _ _ _ _]|id captured failures message _] Hin;
    destruct captured; in_list Hin.
Qed.

Lemma own_capture_flow st t hang started l (flow : Flow F) :
  own_capture pid target_name shm st t hang started l flow →
  (∃ st', flow = Continue st') ∨ ∃ message, flow = Return (mkResult (OutcomeMonitorFailure message) None false false).
Proof. destruct 1; eauto. Qed.

(** The watchdog stays armed or unarmed. *)
Lemma rebased_armed st started l st' : rebased shm st started l st' → anr_state st' = None ↔ anr_state st = None.
Proof. destruct 1 as [|state h e state' mode finished -> _ _ _]; [done|]. by split. Qed.
Lemma iteration_armed st event l st' : iterates st event l (Continue st') → anr_state st' = None ↔ anr_state st = None.
Proof.
  intros Hi. inversion Hi as [| |cfg state now e h s' last _ _ Hst|? state ? ? ? ? ? ? ? ? _ _ Hst _ _ _ Hc| |? ? ? _ Hc|
    | | | | | | |]; subst; try done.
  - by rewrite Hst.
  - inversion Hc as [? ? ? ? ? ? Hr|]; subst. apply rebased_armed in Hr. rewrite Hr, Hst. by split.
  - inversion Hc as [? ? ? ? ? ? Hr|]; subst. by apply rebased_armed in Hr.
Qed.

(** Only enabled report types are captured; a hang needs an armed watchdog. *)
Lemma iteration_enabled st event l flow e b :
  iterates st event l flow → CaptureTried e b ∈ l →
  (report_type e = Anr ∧ anr_state st ≠ None) ∨ enabled (report_type e) = true.
Proof.
  intros Hi Hin. destruct Hi as [| | |cfg state now el h s' d last l flow _ _ Hst _ _ _ Hc| |started l flow He Hc| | |? ? ? ? ? ? before captured ok failures fin o _ Hb _ _
    |reason t id _|reason _|signal|message|message]; try (in_list Hin; done).
  - left. rewrite Hst. split; [|done]. apply elem_of_app in Hin as [Hin|Hin]; [in_list Hin|]. by eapply own_capture_tried.
  - right. apply elem_of_cons in Hin as [?|Hin]; [done|]. by rewrite (own_capture_tried _ _ _ _ _ _ _ _ Hc Hin).
  - right. destruct Hb as [|id captured He]; [destruct fin; in_list Hin|]. destruct captured; in_list Hin; by injection Hin as -> _.
Qed.

(** The report of a child's end is one that its reason calls for, and the loop ends with it. *)
Lemma iteration_termination st event l flow e :
  iterates st event l flow → TerminationFinalized e ∈ l →
  ∃ reason, event = Some (ChildTerminated reason) ∧ calls_for enabled reason (report_type e) ∧
    ∀ e' b, CaptureTried e' b ∉ l.
Proof.
  intros Hi Hin. destruct Hi as [| | |cfg state now el h s' d last l flow _ _ Hst _ _ _ Hc| |started l flow He Hc| | |? ? ? ? ? ? before captured ok failures fin o _ Hb _ _
    |reason t id Ht|reason _|signal|message|message]; try (in_list Hin; done).
  - apply elem_of_app in Hin as [Hin|Hin]; [in_list Hin|]. by apply (own_capture_unreported _ _ _ _ _ _ _ Hc) in Hin.
  - apply elem_of_cons in Hin as [?|Hin]; [done|]. by apply (own_capture_unreported _ _ _ _ _ _ _ Hc) in Hin.
  - destruct Hb as [|id captured He]; [destruct fin|destruct captured]; in_list Hin.
  - exists reason. split; [done|]. in_list Hin. injection Hin as ->. split; [done|]. intros e' b Hc. in_list Hc.
Qed.

Lemma iteration_continues st event l st' e :
  iterates st event l (Continue st') → TerminationFinalized e ∉ l ∧ (∀ e' b, CaptureTried e' b ∈ l → report_type e' ≠ Crash).
Proof.
  intros Hi. split.
  - intros Hin. destruct (iteration_termination _ _ _ _ _ Hi Hin) as (reason & -> & _). inversion Hi.
  - intros e' b Hin. inversion Hi as [| | |cfg state now el h s' d last l' flow _ _ Hst _ _ _ Hc| |started l' flow He Hc| | | | | | | |];
      subst; try (in_list Hin; done).
    + apply elem_of_app in Hin as [Hin|Hin]; [in_list Hin|]. by rewrite (own_capture_tried _ _ _ _ _ _ _ _ Hc Hin).
    + apply elem_of_cons in Hin as [?|Hin]; [done|]. by rewrite (own_capture_tried _ _ _ _ _ _ _ _ Hc Hin).
Qed.

Lemma looped_enabled st l flow e b :
  loops st l flow → CaptureTried e b ∈ l → (report_type e = Anr ∧ anr_state st ≠ None) ∨ enabled (report_type e) = true.
Proof.
  induction 1 as [st|st event l st' l' flow Hi Hl IH|st event l r Hi]; intros Hin; [by in_list Hin| |].
  - apply elem_of_cons in Hin as [?|Hin]; [done|]. apply elem_of_app in Hin as [Hin|Hin]; [by eapply iteration_enabled|].
    destruct (IH Hin) as [[? Hs]|?]; [left|by right]. split; [done|]. by rewrite iteration_armed in Hs by done.
  - apply elem_of_cons in Hin as [?|Hin]; [done|]. by eapply iteration_enabled.
Qed.

(** A run finalizes at most one of a crash and the end of a child. *)
Lemma looped_one_incident st l flow e :
  loops st l flow → TerminationFinalized e ∈ l →
  (∃ until reason, Waited until (Some (ChildTerminated reason)) ∈ l ∧ calls_for enabled reason (report_type e)) ∧
  ∀ e' b, CaptureTried e' b ∈ l → report_type e' ≠ Crash.
Proof.
  induction 1 as [st|st event l st' l' flow Hi Hl IH|st event l r Hi]; intros Hin; [by in_list Hin| |].
  - destruct (iteration_continues _ _ _ _ e Hi) as [Hno Hnc].
    apply elem_of_cons in Hin as [?|Hin]; [done|]. apply elem_of_app in Hin as [Hin|Hin]; [done|].
    destruct (IH Hin) as [(until & reason & Hw & Hc) H2]. split.
    + exists until, reason. split; [|done]. apply elem_of_cons. right. apply elem_of_app. by right.
    + intros e' b [?|[Hb|Hb]%elem_of_app]%elem_of_cons; [done|by eapply Hnc|by eapply H2].
  - apply elem_of_cons in Hin as [?|Hin]; [done|].
    destruct (iteration_termination _ _ _ _ _ Hi Hin) as (reason & -> & H1 & H2). split.
    + exists (wakes_at anr_config st), reason. split; [by left|done].
    + intros e' b [?|Hb]%elem_of_cons; [done|]. by apply H2 in Hb.
Qed.

(** The steps drive the watchdog exactly as its state machine says, and leave the next state
    behind. *)
Definition threshold : Z := default 0 (threshold_ms <$> anr_config).
Definition cooldown : Z := default 0 (cooldown_ms <$> anr_config).

Definition flow_state (f : Flow F) : option (option Watchdog.WatchdogState) :=
  match f with Continue st => Some (anr_state st) | Return _ => None end.

Definition coupled (before : option Watchdog.WatchdogState) (l : list LoopStep)
    (after : option (option Watchdog.WatchdogState)) : Prop :=
  match before with
  | None => watched l = [] ∧ (∀ s, after = Some s → s = None)
  | Some s0 =>
      let '(s1, outs) := Watchdog.run threshold cooldown s0 (watched l).*1 in
      outs = (watched l).*2 ∧ (∀ s, after = Some s → s = Some s1)
  end.

Lemma coupled_app s l l' s1 after :
  coupled s l (Some s1) → coupled s1 l' after → coupled s (l ++ l') after.
Proof.
  unfold coupled. rewrite watched_app. destruct s as [s|].
  - destruct (Watchdog.run _ _ s (watched l).*1) as [m outs] eqn:Hr. intros [-> Hs1] H2.
    rewrite (Hs1 s1 eq_refl) in H2. rewrite !fmap_app, Watchdog.run_app, Hr. simpl.
    destruct (Watchdog.run _ _ m (watched l').*1) as [s2 outs2]. destruct H2 as [-> H2]. done.
  - intros [-> Hs1] H2. rewrite (Hs1 s1 eq_refl) in H2. done.
Qed.

(** Steps that are not about the watchdog keep its state. *)
Lemma coupled_unwatched s l after :
  watched l = [] → (∀ s', after = Some s' → s' = s) → coupled s l after.
Proof. intros Hw Ha. unfold coupled. rewrite Hw. destruct s; simpl; done. Qed.

Lemma own_capture_coupled st t hang started l (flow : Flow F) :
  own_capture pid target_name shm st t hang started l flow → coupled (anr_state st) l (flow_state flow).
Proof.
  destruct 1 as [id captured failures rebase st' _ Hr|id captured failures message _].
  - change (coupled (anr_state st) ([CaptureTried (own_event pid target_name id t hang) captured; HealthRead failures] ++
      (if captured then [Submitted] else []) ++ rebase) (Some (anr_state st'))).
    rewrite app_assoc. apply (coupled_app _ _ _ (anr_state st)).
    { apply coupled_unwatched; [by destruct captured|]. by intros ? [= <-]. }
    destruct Hr as [_|state h e state' mode finished -> _ _ Hr].
    + apply coupled_unwatched; [done|]. by intros ? [= <-].
    + unfold coupled, watched. simpl. unfold Watchdog.step. rewrite Hr. simpl. split; [done|]. by intros ? [= <-].
  - apply coupled_unwatched; [|done]. by destruct captured.
Qed.

Lemma iteration_coupled st event l flow : iterates st event l flow → coupled (anr_state st) l (flow_state flow).
Proof.
  assert (∀ l, watched l = [] → coupled (anr_state st) l (flow_state (Continue st))) as Hidle.
  { intros l' Hl'. apply coupled_unwatched; [done|]. by intros ? [= <-]. }
  assert (∀ cfg state now e h s' d last, anr_config = Some cfg → anr_state st = Some state →
    Watchdog.update_watchdog_state state h e (threshold_ms cfg) (cooldown_ms cfg) = (s', d) →
    coupled (anr_state st) [ClockRead now; Watched (Watchdog.Tick h e) d; ClockRead last] (Some (Some s'))) as Htick.
  { intros cfg state now e h s' d last Hcfg -> Hu. unfold coupled, watched, threshold, cooldown. rewrite Hcfg. simpl.
    rewrite Hu. simpl. split; [done|]. by intros ? [= <-]. }
  destruct 1 as [| |cfg state now e h s' last Hcfg _ Hst _ _ Hu|cfg state now e h s' d last l flow Hcfg _ Hst _ _ Hu Hc| |started l flow He Hc| | |? ? ? ? ? ? before captured ok failures fin o _ Hb _ _
    |reason t id Ht|reason _|signal|message|message]; try (by apply Hidle); try (by apply coupled_unwatched).
  - by eapply Htick.
  - eapply coupled_app; [by eapply Htick|]. exact (own_capture_coupled _ _ _ _ _ _ Hc).
  - apply (coupled_app _ [ClockRead started] _ (anr_state st)); [|by eapply own_capture_coupled].
    apply coupled_unwatched; [done|]. by intros ? [= <-].
  - apply coupled_unwatched; [|done]. destruct Hb; [by destruct fin|]. by destruct captured.
Qed.

Lemma looped_coupled st l flow : loops st l flow → coupled (anr_state st) l (flow_state flow).
Proof.
  induction 1 as [st|st event l st' l' flow Hi Hl IH|st event l r Hi].
  - apply coupled_unwatched; [done|]. by intros ? [= <-].
  - change (Waited (wakes_at anr_config st) event :: l ++ l') with ((Waited (wakes_at anr_config st) event :: l) ++ l').
    eapply coupled_app; [|exact IH]. exact (iteration_coupled _ _ _ _ Hi).
  - exact (iteration_coupled _ _ _ _ Hi).
Qed.

(** The loop names the end of the child only when the source reported it. *)
Lemma looped_child st l r reason :
  loops st l (Return r) → outcome r = OutcomeChildTerminated reason →
  ∃ until, Waited until (Some (ChildTerminated reason)) ∈ l.
Proof.
  remember (Return r) as flow eqn:Hf. intros H. revert r Hf.
  induction H as [st|st event l st' l' flow Hi Hl IH|st event l r' Hi]; intros r Hf Ho; [done| |].
  - destruct (IH r Hf Ho) as [until Hin]. exists until. apply elem_of_cons. right. apply elem_of_app. by right.
  - injection Hf as ->. exists (wakes_at anr_config st). apply elem_of_cons. left. f_equal.
    assert (∀ st t hang started l, own_capture pid target_name shm st t hang started l (Return r) → False) as Hno.
    { intros ? ? ? ? ? [[? [=]]|[? [= ->]]]%own_capture_flow. discriminate Ho. }
    inversion Hi as [| | |? ? ? ? ? ? ? ? ? ? ? ? ? ? ? ? Hc| |? ? ? ? Hc| | |? ? ? ? ? ? before captured ok failures fin o _ Hb _ Hx| | | | |]; subst;
      try discriminate Ho; try (by injection Ho as ->); try (by apply Hno in Hc).
    destruct Hx as [(_ & _ & ->)|[_ [? ->]]]; discriminate Ho.
Qed.

End Consequences.

(** ** Properties *)

Section Properties.
Context {S R C F : Type} {ops : LoopOps S R C F}.
Context (enabled : ReportType → bool) (task : mach_port_t) (pid : Z) (target_name : string).
Context (shm : bool) (anr_config : option AnrConfig).

(** C6. Every run of the event loop, over any number of events and for every
    event source, worker and clock, answers every event as the loop protocol says: each
    Mach request gets one reply and is then released, a fatal one with the capture of its
    event before the reply and the finalization after it; the end of the child, a shutdown,
    the loss of the listener and a failure end the loop with the outcome of that very event,
    and the report that the reason calls for; a wait that times out checks the watchdog when
    the interval is over. Behind each capture and each fatal request the recorded task-control
    failures are read: one that forbids to go on ends the loop as a failure, and nothing
    else turns a crash whose reply was sent into one. Only enabled report types are captured; a crash and a
    child termination are never both reported; and the loop drives the watchdog
    exactly as its state machine says, from the state that the configuration asks for. *)
Theorem event_loop_protocol (fuel : nat) (w : World S) :
  let '(flow, w') := event_loop enabled task pid target_name shm anr_config fuel w in
  ∃ s0 start l, trace w' = trace w ++ ClockRead start :: l ∧ initial_watchdog enabled shm anr_config s0 ∧
    looped (F := F) enabled pid target_name shm anr_config (mkLoopState s0 start) l flow ∧
    coupled anr_config s0 l (flow_state flow) ∧
    (∀ event b, CaptureTried event b ∈ l → enabled (report_type event) = true) ∧
    (∀ event, TerminationFinalized event ∈ l → ∀ event' b, CaptureTried event' b ∈ l → report_type event' ≠ Crash).
Proof.
  destruct (event_loop_emits (F := F) enabled task pid target_name shm anr_config fuel w) as (l0 & Hl & s0 & start & l & -> & Hinit & Hloop).
  destruct (event_loop _ _ _ _ _ _ fuel w) as [flow w']. simpl in *. exists s0, start, l. split_and!; try done.
  - exact (looped_coupled _ _ _ _ _ _ _ _ Hloop).
  - intros event b Hin. destruct (looped_enabled _ _ _ _ _ _ _ _ _ _ Hloop Hin) as [[-> Hs]|?]; [|done].
    unfold initial_watchdog in Hinit. simpl in Hs. destruct anr_config; [|done].
    destruct (enabled Anr); [done|]. simpl in Hinit. done.
  - intros event Hin. by destruct (looped_one_incident _ _ _ _ _ _ _ _ _ Hloop Hin).
Qed.

End Properties.
(** ** The exit-code contract *)

(** The signal an outcome reports. *)
Definition outcome_signal (o : MonitorOutcome) : option Z :=
  match o with
  | OutcomeChildTerminated (Signaled signal _ _)
  | DetectedCrash (Some (Signaled signal _ _)) _
  | ShutdownRequested signal _ => Some signal
  | _ => None
  end.

(** The exit status of the child, when an outcome carries one. *)
Definition outcome_child_exit (o : MonitorOutcome) : option Z :=
  match o with
  | OutcomeChildTerminated (Exited code _) | DetectedCrash (Some (Exited code _)) _ => Some code
  | _ => None
  end.

Definition is_detected_crash (o : MonitorOutcome) : bool :=
  match o with DetectedCrash _ _ => true | _ => false end.

(** The one-byte process status tells the classes of outcomes apart, for
    every signal number of the platform: 70 only for monitor failures, 80 only
    for a nonzero child exit, 81 only for a detected crash with neither a signal
    nor a nonzero exit, [128 + signal] exactly for that signal, and 0 only for a
    child that exited cleanly without a detected crash. *)
Theorem exit_code_contract (o : MonitorOutcome) :
  (∀ signal, outcome_signal o = Some signal → 0 < signal < 128) →
  0 ≤ exit_code o ≤ 255 ∧
  (exit_code o = 0 ↔ is_detected_crash o = false ∧ outcome_child_exit o = Some 0) ∧
  (exit_code o = EXIT_MONITOR_INTERNAL ↔ ∃ message, o = OutcomeMonitorFailure message) ∧
  (exit_code o = EXIT_CHILD_FAILURE ↔ ∃ code, outcome_child_exit o = Some code ∧ code ≠ 0) ∧
  (exit_code o = EXIT_DETECTED_CRASH ↔
    is_detected_crash o = true ∧ outcome_signal o = None ∧ default 0 (outcome_child_exit o) = 0) ∧
  (∀ signal, 0 < signal → exit_code o = 128 + signal ↔ outcome_signal o = Some signal).
Proof.
  intros Hs. destruct o as [[[|code|code]|signal]|[[[|code|code]|signal]|]|signal|message]; simpl in *.
  all: try pose proof (Hs _ eq_refl).
  all: unfold EXIT_MONITOR_INTERNAL, EXIT_CHILD_FAILURE, EXIT_DETECTED_CRASH.
  all: split_and!; try lia; intros; try split; intros; destruct_and?; simplify_eq; try lia; try done.
  all: first [naive_solver lia | eexists; split; [done|lia] | f_equal; lia].
Qed.

Lemma exit_code_contract_witness :
  outcome_signal (DetectedCrash (Some (Signaled 11 false 250)) None) = Some 11 ∧
  (0 ≤ exit_code (DetectedCrash (Some (Signaled 11 false 250)) None) ≤ 255).
Proof.
  split; [reflexivity|].
  apply (exit_code_contract (DetectedCrash (Some (Signaled 11 false 250)) None)).
  intros signal H. injection H as <-. lia.
Defined.

End EventLoopSpec.
