(* ===== verification/RateLimiter.v ===== *)
(** * The report rate limiter (src/filters/rate_limiter.rs)

    Both modes of the sliding-window filter: in memory, on the monotonic clock,
    failing open under lock contention; and persistent, on the wall clock, with
    the window kept in a state file so that a restart does not reset it.
    [limiter_step] is what both promise; the history theorems bound the admitted
    reports of every window. *)

From stdpp Require Import pretty.
From S2P Require Import Prelude.
From S2P Require Import Attempt.
From S2P Require Import PipelineTypes.
From S2P Require Import PluginRun.

Module RateLimiter.
Export PluginRun.
Export Attempt.

Definition RATE_STATE_VERSION : Z := 1.
Definition MAX_PERSISTED_EVENTS_PER_TYPE : Z := 1024.
Definition MAX_RATE_STATE_BYTES : Z := 128 * 1024.

Record PersistedRateEntry := mkEntry { entry_report_type : ReportType; timestamps_ms : list Z }.
Record PersistedRateState := mkState { version : Z; entries : list PersistedRateEntry }.

Record RateLimiter := mkRateLimiter { window : Z; max_events : Z; state_path : option PathBuf }.

Definition new (max_events window : Z) : RateLimiter := mkRateLimiter window max_events None.
Definition with_state_path (max_events window : Z) (path : PathBuf) : RateLimiter :=
  mkRateLimiter window (Z.min max_events MAX_PERSISTED_EVENTS_PER_TYPE) (Some path).

Definition report_type_index (t : ReportType) : positive :=
  match t with Crash => 1 | Snapshot => 2 | Anr => 3 | Oom => 4 | ExitFailure => 5 | SignalFailure => 6 end%positive.

#[export] Instance ReportType_countable : Countable ReportType.
Proof.
  refine (inj_countable' report_type_index
    (λ p, match p with 1 => Crash | 2 => Snapshot | 3 => Anr | 4 => Oom | 5 => ExitFailure | _ => SignalFailure end%positive)
    _).
  by intros [].
Defined.

(** [HashMap<ReportType, VecDeque<_>>]; front of the queue first. *)
Notation Recent := (gmap ReportType (list Z)).
Definition or_default (m : Recent) (t : ReportType) : list Z := default [] (m !! t).

(** The file operations the persistent mode relies on. *)
Class RateStorage (S Bytes : Type) := {
  acquire_rate_state_lock : S → result string unit * S;
  open_state : S → result string (option (result string Z * result string Bytes)) * S;
  byte_length : Bytes → Z;
  from_slice : Bytes → result string PersistedRateState;
  to_vec : PersistedRateState → result string Bytes;
  quarantine_invalid_state : S → result string unit * S;
  publish_state : Bytes → S → result string unit * S
}.

(** The limiter's mutex-protected window and the environment. *)
Record Store (S : Type) := mkStore { env : S; recent : Recent }.
Arguments mkStore {S}.
Arguments env {S}.
Arguments recent {S}.

Section Limiter.
Context {S : Type} {clock : Clock S} {wall : WallClock S} {Bytes : Type} {storage : RateStorage S Bytes}.
Context {Txn Ctx : Type}.
Notation PluginContext := (PluginContext Txn Ctx).

Definition on_env {A : Type} (f : attempt S A) : attempt (Store S) A :=
  λ st, let '(r, e) := f (env st) in (r, mkStore e (recent st)).
Definition set_entry (t : ReportType) (l : list Z) : attempt (Store S) unit :=
  modify (λ st, mkStore (env st) (<[t := l]> (recent st))).

(** ** In memory *)

(** The [while let] over the front of the queue. *)
Fixpoint expire (lim : RateLimiter) (t : ReportType) (now : Z) (context : PluginContext) (cells : Cells)
    (entry : list Z) : attempt (Store S) (list Z) :=
  match entry with
  | [] => mret []
  | front :: rest =>
      _ ← on_env (checkpoint context cells);
      if decide (window lim ≤ saturating_duration_since now front) then
        _ ← set_entry t rest;
        expire lim t now context cells rest
      else mret entry
  end.

(** [available] is the outcome of [try_lock]. *)
Definition check_and_record (lim : RateLimiter) (t : ReportType) (now : Z) (available : bool)
    (context : PluginContext) (cells : Cells) : attempt (Store S) bool :=
  _ ← on_env (checkpoint context cells);
  if negb available then mret true else
  _ ← on_env (checkpoint context cells);
  entry ← get (λ st, or_default (recent st) t);
  _ ← set_entry t entry;
  entry ← expire lim t now context cells entry;
  if decide (max_events lim ≤ Z.of_nat (length entry)) then mret false else
  _ ← set_entry t (entry ++ [now]);
  _ ← on_env (checkpoint context cells);
  mret true.

(** ** Persistent *)

Inductive StateLoadError : Type := Recoverable (error : string) | Fatal (error : string).

(** The last [n] elements, in order. *)
Definition last_n (n : Z) (l : list Z) : list Z := rev (take (Z.to_nat n) (rev l)).

Definition to_recent (p : PersistedRateState) : Recent :=
  foldl (λ m e, <[entry_report_type e := last_n MAX_PERSISTED_EVENTS_PER_TYPE (timestamps_ms e)]> m) ∅ (entries p).

Definition parse_state (file : result string Z * result string Bytes) : result StateLoadError Recent :=
  let '(length, bytes) := file in
  length ← map_err (λ error, Fatal ("cannot inspect rate-limit state: " +:+ error)%string) length;
  if decide (MAX_RATE_STATE_BYTES < length) then
    Err (Recoverable ("rate-limit state exceeds " +:+ pretty MAX_RATE_STATE_BYTES +:+ " bytes")%string)
  else
  bytes ← map_err (λ error, Fatal ("cannot read rate-limit state: " +:+ error)%string) bytes;
  if decide (MAX_RATE_STATE_BYTES < byte_length bytes) then
    Err (Recoverable ("rate-limit state grew beyond " +:+ pretty MAX_RATE_STATE_BYTES +:+ " bytes")%string)
  else
  persisted ← map_err (λ error, Recoverable ("invalid rate-limit state: " +:+ error)%string) (from_slice bytes);
  if decide (version persisted = RATE_STATE_VERSION) then Ok (to_recent persisted)
  else Err (Recoverable ("unsupported rate-limit state version " +:+ pretty (version persisted))%string).

Definition load_state (s : S) : result StateLoadError Recent * S :=
  let '(file, s) := open_state s in
  (match file with
   | Err error => Err (Fatal error)
   | Ok None => Ok ∅
   | Ok (Some file) => parse_state file
   end, s).

(** The entries sorted by their names; the iteration order of the map is not
    specified, and the names are distinct. *)
Definition to_entries (m : Recent) : list PersistedRateEntry :=
  stable_sort (λ a b, String.leb (as_str (entry_report_type a)) (as_str (entry_report_type b)))
    ((λ '(t, l), mkEntry t l) <$> map_to_list m).

Definition persist_state (m : Recent) : attempt S unit :=
  bytes ← of_result (map_err (λ error, ("cannot serialize rate-limit state: " +:+ error)%string)
            (to_vec (mkState RATE_STATE_VERSION (to_entries m))));
  if decide (MAX_RATE_STATE_BYTES < byte_length bytes) then
    fail ("serialized rate-limit state exceeds " +:+ pretty MAX_RATE_STATE_BYTES +:+ " bytes")%string
  else publish_state bytes.

(** [load_state], with quarantine of a recoverable failure. *)
Definition load_or_quarantine : attempt S (Recent * option string) :=
  λ s, let '(r, s) := load_state s in
  match r with
  | Ok m => (Ok (m, None), s)
  | Err (Recoverable error) =>
      let '(q, s) := quarantine_invalid_state s in
      (match q with Ok _ => Ok (∅, Some error) | Err e => Err e end, s)
  | Err (Fatal error) => (Err error, s)
  end.

Fixpoint pop_until (cutoff : Z) (entry : list Z) : list Z :=
  match entry with
  | [] => []
  | front :: rest => if decide (front ≤ cutoff) then pop_until cutoff rest else entry
  end.

Definition millis_u64 (d : Z) : Z := if decide (as_millis d ≤ U64_MAX) then as_millis d else U64_MAX.

Definition check_and_record_persistent (lim : RateLimiter) (t : ReportType) (now_ms : Z)
    (context : PluginContext) (cells : Cells) : attempt S bool :=
  match state_path lim with
  | None => fail "persistent rate-limit path is unavailable"
  | Some _ =>
      _ ← acquire_rate_state_lock;
      _ ← checkpoint context cells;
      '(m, recovery_reason) ← load_or_quarantine;
      let cutoff := u64_saturating_sub now_ms (millis_u64 (window lim)) in
      let entry := pop_until cutoff (or_default m t) in
      if decide (max_events lim ≤ Z.of_nat (length entry)) then mret false else
      _ ← persist_state (<[t := entry ++ [now_ms]]> m);
      _ ← checkpoint context cells;
      match recovery_reason with
      | Some reason =>
          fail (reason +:+ "; the invalid state was quarantined and reset, and the current event was recorded in the replacement state")%string
      | None => mret true
      end
  end.

(** [Filter::should_process]. *)
Definition should_process (lim : RateLimiter) (event : CrashEvent) (available : bool)
    (context : PluginContext) (cells : Cells) : attempt (Store S) bool :=
  match state_path lim with
  | Some _ =>
      on_env (
        now ← (λ s, let '(now, s) := unix_now s in
                 (ok_or now "system clock precedes Unix epoch: second time provided was later than self", s));
        check_and_record_persistent lim (report_type event) (millis_u64 now) context cells)%string
  | None =>
      now ← (λ st, let '(now, s) := instant_now (env st) in (Ok now, mkStore s (recent st)));
      check_and_record lim (report_type event) now available context cells
  end.

End Limiter.
End RateLimiter.

(** ** The windows of the rate limiter

    [limiter_step] is the contract of one invocation on the queue of one report
    type; both modes refine it, and every history that does admits at most
    [max_events] reports in any window. *)

Module RateLimiterSpec.
Export RateLimiter.

(** ** The contract of one invocation *)

Inductive outcome : Type := Untracked | Refused | Accepted.

#[export] Instance outcome_eq_dec : EqDecision outcome.
Proof. solve_decision. Defined.

(** What a result says about the window: without the lock it says nothing. *)
Definition outcome_of (available : bool) (r : result string bool) : outcome :=
  match r with
  | Ok true => if available then Accepted else Untracked
  | Ok false => Refused
  | Err _ => Untracked
  end.

Section Window.
Context (W M : Z).

Definition expired (now x : Z) : Prop := x + W ≤ now.

(** The queue without the expired events at its front. *)
Fixpoint fresh (now : Z) (l : list Z) : list Z :=
  match l with
  | [] => []
  | x :: rest => if decide (x + W ≤ now) then fresh now rest else l
  end.

Inductive limiter_step (now : Z) : list Z → outcome → list Z → Prop :=
| step_kept pre l : Forall (expired now) pre → limiter_step now (pre ++ l) Untracked l
| step_refused l l' :
    M ≤ Z.of_nat (length (fresh now l)) → l' = l ∨ l' = fresh now l → limiter_step now l Refused l'
| step_recorded l o :
    Z.of_nat (length (fresh now l)) < M → o ≠ Refused → limiter_step now l o (fresh now l ++ [now]).

(** The events of [log] in the window [(lo, lo + W]]... shifted to any start. *)
Definition in_window (lo : Z) (log : list Z) : list Z := List.filter (λ x, (lo <? x) && (x <=? lo + W)) log.

Lemma in_window_app lo l l' : in_window lo (l ++ l') = in_window lo l ++ in_window lo l'.
Proof. apply List.filter_app. Qed.

Lemma in_window_length_le lo l : (length (in_window lo l) ≤ length l)%nat.
Proof. apply List.filter_length_le. Qed.

Lemma fresh_split now l : ∃ pre, l = pre ++ fresh now l ∧ Forall (expired now) pre.
Proof.
  induction l as [|x l (pre & Hl & Hpre)]; simpl; [by exists []|]. case_decide.
  - exists (x :: pre). split; [simpl; by f_equal|by constructor].
  - by exists [].
Qed.

(** The window invariant: [log] is everything recorded so far, in time order;
    the queue is its end, and what left the queue had expired. *)
Record window_inv (log queue : list Z) (last : Z) : Prop := {
  inv_split : ∃ old, log = old ++ queue ∧ Forall (expired last) old;
  inv_sorted : StronglySorted Z.le log;
  inv_last : Forall (λ x, x ≤ last) log;
  inv_bounded : ∀ lo, Z.of_nat (length (in_window lo log)) ≤ Z.max 0 M
}.

Lemma window_inv_later log queue last now : last ≤ now → window_inv log queue last → window_inv log queue now.
Proof.
  intros Hle [(old & Hs & Ho) Hsort Hl Hb]. split; [|done| |done].
  - exists old. split; [done|]. eapply Forall_impl; [exact Ho|]. unfold expired. intros. lia.
  - eapply Forall_impl; [exact Hl|]. simpl. intros. lia.
Qed.

Lemma window_inv_drop log pre queue now :
  Forall (expired now) pre → window_inv log (pre ++ queue) now → window_inv log queue now.
Proof.
  intros Hp [(old & -> & Ho) Hsort Hl Hb]. split; [|done..]. exists (old ++ pre).
  split; [by rewrite app_assoc|]. by apply Forall_app.
Qed.

Lemma window_inv_fresh log queue now : window_inv log queue now → window_inv log (fresh now queue) now.
Proof.
  intros H. destruct (fresh_split now queue) as (pre & Hq & Hp). rewrite Hq in H.
  by eapply window_inv_drop.
Qed.

Lemma StronglySorted_snoc (l : list Z) (x : Z) :
  StronglySorted Z.le l → Forall (λ y, y ≤ x) l → StronglySorted Z.le (l ++ [x]).
Proof.
  induction 1 as [|y l Hl IH Hy]; simpl; intros Hx; [by repeat constructor|].
  inversion Hx; subst. constructor; [by apply IH|]. apply Forall_app. split; [done|]. by constructor.
Qed.

(** Nothing that left the queue is inside a window that reaches [now]. *)
Lemma in_window_old lo now old : now ≤ lo + W → Forall (expired now) old → in_window lo old = [].
Proof.
  intros Hlo. induction 1 as [|x old Hx Ho IH]; [done|]. simpl. rewrite IH. unfold expired in Hx.
  replace (lo <? x) with false; [done|]. symmetry. apply Z.ltb_ge. lia.
Qed.

Lemma window_inv_push log queue now :
  window_inv log queue now → Z.of_nat (length queue) < M → window_inv (log ++ [now]) (queue ++ [now]) now.
Proof.
  intros [(old & -> & Ho) Hsort Hl Hb] Hlt. split.
  - exists old. by rewrite app_assoc.
  - by apply StronglySorted_snoc.
  - apply Forall_app. split; [done|]. by constructor.
  - intros lo. rewrite in_window_app. destruct (decide (lo < now ∧ now ≤ lo + W)) as [[H1 H2]|Hn].
    + rewrite in_window_app, (in_window_old _ _ _ H2 Ho), !length_app.
      pose proof (in_window_length_le lo queue). pose proof (in_window_length_le lo [now]). simpl in *. lia.
    + assert (in_window lo [now] = []) as ->.
      { unfold in_window. simpl. destruct (lo <? now) eqn:H1; [|done]. destruct (now <=? lo + W) eqn:H2; [|done].
        exfalso. apply Hn. lia. }
      rewrite app_nil_r. apply Hb.
Qed.

(** The whole queue lies in the window that ends now, once the front is fresh. *)
Lemma fresh_in_window now log queue :
  window_inv log queue now → (length (fresh now queue) ≤ length (in_window (now - W) log))%nat.
Proof.
  intros H. destruct (window_inv_fresh _ _ _ H) as [(old & Hs & _) Hsort Hl _]. rewrite Hs, in_window_app, length_app.
  assert (in_window (now - W) (fresh now queue) = fresh now queue) as ->; [|lia].
  rewrite Hs in Hsort, Hl. apply Forall_app in Hl as [_ Hl].
  assert (StronglySorted Z.le (fresh now queue)) as Hq.
  { clear -Hsort. induction old as [|x old IH]; [done|]. apply IH. by inversion Hsort. }
  assert (Forall (λ x, now - W < x) (fresh now queue)) as Hlow.
  { destruct (fresh now queue) as [|x q] eqn:Hf; [constructor|]. inversion Hq as [|? ? _ Hx]; subst.
    assert (¬ x + W ≤ now) as Hx'.
    { clear -Hf. revert x q Hf. induction queue as [|y l IH]; simpl; [done|]. intros x q. case_decide; [apply IH|].
      by intros [= -> _]. }
    constructor; [lia|]. eapply Forall_impl; [exact Hx|]. simpl. intros. lia. }
  unfold in_window. clear -Hl Hlow. induction (fresh now queue) as [|x q IH]; [done|]. simpl.
  inversion Hl; inversion Hlow; subst. replace (now - W <? x) with true by lia.
  replace (x <=? now - W + W) with true by lia. simpl. f_equal. by apply IH.
Qed.

(** What one invocation adds to the log. *)
Lemma step_inv log queue last now o queue' :
  window_inv log queue last → last ≤ now → limiter_step now queue o queue' →
  ∃ more, window_inv (log ++ more) queue' now ∧ (more = [] ∨ more = [now]) ∧ (o = Accepted → more = [now]) ∧
    (o = Refused → M ≤ Z.of_nat (length (in_window (now - W) log))).
Proof.
  intros Hinv Hle Hstep. apply (window_inv_later _ _ _ _ Hle) in Hinv.
  destruct Hstep as [pre l Hp|l l' HM Hl'|l o Hlt Ho].
  - exists []. rewrite app_nil_r. split; [by eapply window_inv_drop|]. split_and!; [by left|done..].
  - exists []. rewrite app_nil_r. pose proof (fresh_in_window _ _ _ Hinv). split_and!; [|auto|done|intros; lia].
    destruct Hl' as [->| ->]; [done|by apply window_inv_fresh].
  - exists [now]. split_and!; [|auto|done|done]. by apply window_inv_push; [apply window_inv_fresh|].
Qed.

(** ** Histories *)

(** An invocation as the windows see it. *)
Definition entry : Type := ReportType * Z * outcome.

Inductive history : (ReportType → list Z) → list entry → (ReportType → list Z) → Prop :=
| history_nil q : history q [] q
| history_cons q t now o q1 es q2 :
    limiter_step now (q t) o (q1 t) → (∀ t', t' ≠ t → q1 t' = q t') →
    history q1 es q2 → history q ((t, now, o) :: es) q2.

Definition entry_times (es : list entry) : list Z := (λ '(_, now, _), now) <$> es.
Definition times (t : ReportType) (es : list entry) : list Z :=
  omap (λ '(t', now, _), if decide (t' = t) then Some now else None) es.
Definition accepted (t : ReportType) (es : list entry) : list Z :=
  omap (λ '(t', now, o), if decide (t' = t) then if decide (o = Accepted) then Some now else None else None) es.

Lemma accepted_cons t t' now o es :
  accepted t' ((t, now, o) :: es) =
    (if decide (t = t') then if decide (o = Accepted) then [now] else [] else []) ++ accepted t' es.
Proof. unfold accepted. simpl. destruct (decide (t = t')); [|done]. by destruct (decide (o = Accepted)). Qed.

Lemma times_cons t t' now o es :
  times t' ((t, now, o) :: es) = (if decide (t = t') then [now] else []) ++ times t' es.
Proof. unfold times. simpl. by destruct (decide (t = t')). Qed.

(** Rate limiting of a history: there is a log of recorded events between the
    accepted ones and the invocations, no window of length [W] holds more than
    [M] of them, and an event is refused only when that many were recorded in
    the window that ends with it. *)
Definition rate_limited (es : list entry) : Prop :=
  ∃ recorded : ReportType → list Z, ∀ t,
    accepted t es `sublist_of` recorded t ∧ recorded t `sublist_of` times t es ∧
    (∀ lo, Z.of_nat (length (in_window lo (recorded t))) ≤ Z.max 0 M) ∧
    (∀ now, (t, now, Refused) ∈ es → M ≤ Z.of_nat (length (in_window (now - W) (recorded t)))).

Lemma history_log (q q' : ReportType → list Z) es log last :
  history q es q' → (∀ t, window_inv (log t) (q t) last) →
  StronglySorted Z.le (last :: entry_times es) →
  ∃ more : ReportType → list Z, ∀ t,
    accepted t es `sublist_of` more t ∧ more t `sublist_of` times t es ∧
    (∀ lo, Z.of_nat (length (in_window lo (log t ++ more t))) ≤ Z.max 0 M) ∧
    (∀ now, (t, now, Refused) ∈ es → M ≤ Z.of_nat (length (in_window (now - W) (log t ++ more t)))).
Proof.
  intros Hh. revert log last. induction Hh as [q|q t now o q1 es q2 Hstep Hother Hh IH]; intros log last Hinv Hsort.
  - exists (λ _, []). intros t. rewrite app_nil_r. split_and!; [constructor|constructor|apply Hinv|].
    intros now Hin. by apply elem_of_nil in Hin.
  - inversion Hsort as [|? ? Hsort' Hall]; subst. assert (last ≤ now) as Hle by (by inversion Hall).
    destruct (step_inv _ _ _ _ _ _ (Hinv t) Hle Hstep) as (more1 & Hinv1 & Hmore1 & Hacc & Href).
    set (log1 := λ t', if decide (t' = t) then log t ++ more1 else log t').
    destruct (IH log1 now) as [more IH']; [|exact Hsort'|].
    { intros t'. unfold log1. case_decide as Ht; [by subst|]. rewrite Hother by done. by eapply window_inv_later. }
    exists (λ t', (if decide (t' = t) then more1 else []) ++ more t'). intros t'.
    destruct (IH' t') as (H1 & H2 & H3 & H4). unfold log1 in H3, H4.
    rewrite accepted_cons, times_cons. destruct (decide (t' = t)) as [->|Hne].
    + rewrite !(decide_True (P := t = t)) by done.
      rewrite <- app_assoc in H3, H4. split_and!; [|..|done|].
      * apply sublist_app; [|done]. destruct (decide (o = Accepted)) as [->|]; [by rewrite Hacc|apply sublist_nil_l].
      * apply sublist_app; [|done]. destruct Hmore1 as [->| ->]; [apply sublist_nil_l|done].
      * intros n Hin. apply elem_of_cons in Hin as [Heq|Hin]; [|by apply H4].
        injection Heq as -> <-. specialize (Href eq_refl). rewrite in_window_app, length_app. lia.
    + rewrite !(decide_False (P := t = t')) by done.
      split_and!; [done..|]. intros n Hin. apply elem_of_cons in Hin as [Heq|Hin]; [|by apply H4].
      by injection Heq as ? _ _.
Qed.

Lemma history_rate_limited q' es :
  history (λ _, []) es q' → StronglySorted Z.le (entry_times es) → rate_limited es.
Proof.
  intros Hh Hsort.
  set (first := match es with [] => 0 | (_, now, _) :: _ => now end).
  destruct (history_log _ _ _ (λ _, []) first Hh) as [more H].
  - intros t. split; [by exists []|constructor|constructor|]. intros lo. simpl. lia.
  - constructor; [done|]. destruct es as [|[[t now] o] es]; simpl; constructor; [simpl; lia|].
    inversion Hsort; subst. done.
  - exists more. intros t. destruct (H t) as (H1 & H2 & H3 & H4). done.
Qed.

End Window.

(** ** The in-memory mode refines the contract *)

(** [m] is [m0] with the queue [l] for [t]. *)
Definition with_queue (m0 : Recent) (t : ReportType) (l : list Z) (m : Recent) : Prop :=
  or_default m t = l ∧ ∀ t', t' ≠ t → or_default m t' = or_default m0 t'.

Lemma with_queue_insert m0 t l l' m : with_queue m0 t l m → with_queue m0 t l' (<[t := l']> m).
Proof.
  intros [_ Hm]. unfold with_queue, or_default in *. rewrite lookup_insert_eq. split; [done|].
  intros t' Ht. rewrite lookup_insert_ne by done. by apply Hm.
Qed.

Section InMemory.
Context {S : Type} {clock : Clock S} {wall : WallClock S} {Bytes : Type} {storage : RateStorage S Bytes}.
Context {Txn Ctx : Type}.
Context (lim : RateLimiter) (t : ReportType) (now : Z) (context : PluginContext Txn Ctx) (cells : Cells).
Context (Hwindow : 0 < window lim).

Notation queue m0 l := (λ st : Store S, with_queue m0 t l (recent st)).

Lemma on_env_yields {A : Type} (f : attempt S A) (P : Recent → Prop) :
  yields (λ st, P (recent st)) (on_env f) (λ _ st, P (recent st)).
Proof. intros st Hst. unfold on_env. by destruct (f (env st)). Qed.

Lemma checkpoint_yields (P : Recent → Prop) (Q : result string unit → Store S → Prop) :
  (∀ st, P (recent st) → Q (Err "plugin deadline reached"%string) st) →
  (∀ st, P (recent st) → Q (Ok tt) st) →
  yields (λ st, P (recent st)) (on_env (checkpoint context cells)) Q.
Proof.
  intros He Ho st Hst. unfold on_env, checkpoint. destruct (is_timed_out context cells (env st)) as [[] e].
  - by apply He.
  - by apply Ho.
Qed.

Lemma set_entry_yields m0 l l' (Q : result string unit → Store S → Prop) :
  (∀ st, queue m0 l' st → Q (Ok tt) st) → yields (queue m0 l) (set_entry t l') Q.
Proof. intros HQ. apply yields_modify. intros st Hst. apply HQ. by apply (with_queue_insert m0 t l). Qed.

Lemma expire_yields m0 l :
  yields (queue m0 l) (expire lim t now context cells l)
    (λ r st, match r with
             | Ok l' => l' = fresh (window lim) now l ∧ queue m0 l' st
             | Err _ => ∃ pre l', l = pre ++ l' ∧ Forall (expired (window lim) now) pre ∧ queue m0 l' st
             end).
Proof.
  induction l as [|front rest IH]; cbn [expire].
  { by apply yields_ret. }
  apply (yields_bind _ _ _ (λ _, queue m0 (front :: rest))).
  { apply (checkpoint_yields (with_queue m0 t (front :: rest))); [|done]. intros st Hst. by exists [], (front :: rest). }
  intros _. unfold saturating_duration_since. case_decide as Hexp.
  - apply (yields_bind _ _ _ (λ _, queue m0 rest)); [by apply set_entry_yields|]. intros _.
    eapply yields_impl; [exact IH|done|]. intros r st. assert (front + window lim ≤ now) as Hle by lia.
    destruct r as [l'|error].
    + cbn [fresh]. by rewrite decide_True.
    + intros (pre & l' & -> & Hpre & Hq). exists (front :: pre), l'. split; [done|]. split; [by constructor|done].
  - apply yields_ret. intros st Hst. cbn [fresh]. rewrite decide_False by lia. done.
Qed.

(** One invocation of the in-memory limiter is a step of the contract. *)
Lemma check_and_record_refines available (st : Store S) :
  let '(r, st') := check_and_record lim t now available context cells st in
  ∃ l', with_queue (recent st) t l' (recent st') ∧
    limiter_step (window lim) (max_events lim) now (or_default (recent st) t) (outcome_of available r) l'.
Proof.
  set (m0 := recent st). set (l0 := or_default m0 t).
  assert (yields (queue m0 l0) (check_and_record lim t now available context cells)
    (λ r st', ∃ l', queue m0 l' st' ∧
      limiter_step (window lim) (max_events lim) now l0 (outcome_of available r) l')) as H.
  2:{ specialize (H st). destruct (check_and_record _ _ _ _ _ _ st) as [r st']. by apply H. }
  assert (∀ st', queue m0 l0 st' → ∀ error, ∃ l', queue m0 l' st' ∧
      limiter_step (window lim) (max_events lim) now l0 (outcome_of available (Err error)) l') as Hkept.
  { intros st' Hst' error. exists l0. split; [done|]. by apply (step_kept _ _ _ []). }
  unfold check_and_record.
  apply (yields_bind _ _ _ (λ _, queue m0 l0)); [apply (checkpoint_yields (with_queue m0 t l0)); auto|]. intros _.
  destruct available; simpl negb; cbv iota.
  2:{ apply yields_ret. intros st' Hst'. exists l0. split; [done|]. by apply (step_kept _ _ _ []). }
  apply (yields_bind _ _ _ (λ _, queue m0 l0)); [apply (checkpoint_yields (with_queue m0 t l0)); auto|]. intros _.
  apply (yields_bind _ _ _ (λ l st', l = l0 ∧ queue m0 l0 st')).
  { apply yields_get. intros st' [Hl Hst']. by rewrite Hl. }
  intros l. apply (yields_bind _ _ _ (λ _ st', l = l0 ∧ queue m0 l0 st')).
  { intros st' [-> Hst']. split; [done|]. by apply (set_entry_yields m0 l0 l0 (λ _, queue m0 l0)). }
  intros _. apply (yields_bind _ _ _ (λ l' st', l' = fresh (window lim) now l0 ∧ queue m0 l' st')).
  { intros st' [-> Hst']. pose proof (expire_yields m0 l0 st' Hst') as H.
    destruct (expire _ _ _ _ _ _ st') as [[l'|error] st'']; simpl in *; [done|].
    destruct H as (pre & l' & Hl & Hpre & Hq). exists l'. split; [done|]. rewrite Hl. by apply step_kept. }
  intros l'. case_decide as Hmax.
  - apply yields_ret. intros st' [-> Hst']. eexists. split; [exact Hst'|]. apply step_refused; auto.
  - apply (yields_bind _ _ _ (λ _ st', l' = fresh (window lim) now l0 ∧ queue m0 (l' ++ [now]) st')).
    { intros st' [-> Hst']. split; [done|]. exact (with_queue_insert _ _ _ _ _ Hst'). }
    intros _. apply (yields_bind _ _ _ (λ _ st', l' = fresh (window lim) now l0 ∧ queue m0 (l' ++ [now]) st')).
    { intros st1 [-> Hst1]. revert st1 Hst1.
      apply (checkpoint_yields (with_queue m0 t (fresh (window lim) now l0 ++ [now]))
        (λ r st', match r with
                  | Ok _ => fresh (window lim) now l0 = fresh (window lim) now l0 ∧
                      queue m0 (fresh (window lim) now l0 ++ [now]) st'
                  | Err error => ∃ l', queue m0 l' st' ∧
                      limiter_step (window lim) (max_events lim) now l0 (outcome_of true (Err error)) l'
                  end)); [|done].
      intros st1 Hst1. eexists. split; [exact Hst1|]. apply step_recorded; [lia|done]. }
    intros _. apply yields_ret. intros st' [-> Hst']. eexists. split; [exact Hst'|]. apply step_recorded; [lia|done].
Qed.

End InMemory.

(** ** The persistent mode refines the contract *)

(** What the state file operations promise, on the content of the file: reads do
    not change it, a publication that succeeds replaces it and one that fails
    replaces it or not, and decoding undoes encoding. Nothing is assumed of
    [quarantine_invalid_state], which a file of the limiter's own never reaches. *)
Class RateStorageLaws (S Bytes : Type) {clock : Clock S} {storage : RateStorage S Bytes}
    (content : S → option Bytes) : Prop := {
  acquire_keeps s : content (acquire_rate_state_lock s).2 = content s;
  clock_keeps s : content (instant_now s).2 = content s;
  open_reads s :
    content (open_state s).2 = content s ∧
    match (open_state s).1 with
    | Ok None => content s = None
    | Ok (Some (length, bytes)) =>
        ∃ b, content s = Some b ∧ (length = Ok (byte_length b) ∨ ∃ error, length = Err error) ∧
          (bytes = Ok b ∨ ∃ error, bytes = Err error)
    | Err _ => True
    end;
  publish_writes b s :
    content (publish_state b s).2 = Some b ∨
    (content (publish_state b s).2 = content s ∧ ∃ error, (publish_state b s).1 = Err error);
  codec p b : to_vec p = Ok b → from_slice b = Ok p
}.

Lemma last_n_short n (l : list Z) : Z.of_nat (length l) ≤ n → last_n n l = l.
Proof. intros H. unfold last_n. rewrite take_ge by (rewrite length_rev; lia). apply rev_involutive. Qed.

Definition bounded_queues (m : Recent) : Prop :=
  map_Forall (λ _ l, Z.of_nat (length l) ≤ MAX_PERSISTED_EVENTS_PER_TYPE) m.

Lemma to_recent_fold (es : list PersistedRateEntry) (m : Recent) :
  NoDup (entry_report_type <$> es) →
  Forall (λ e, Z.of_nat (length (timestamps_ms e)) ≤ MAX_PERSISTED_EVENTS_PER_TYPE) es →
  foldl (λ m e, <[entry_report_type e := last_n MAX_PERSISTED_EVENTS_PER_TYPE (timestamps_ms e)]> m) m es =
  list_to_map ((λ e, (entry_report_type e, timestamps_ms e)) <$> es) ∪ m.
Proof.
  revert m. induction es as [|e es IH]; intros m Hnd Hall; simpl; [by rewrite map_empty_union|].
  inversion Hnd as [|? ? Hni Hnd']; inversion Hall; subst. rewrite IH by done. rewrite last_n_short by done.
  rewrite <- insert_union_l, insert_union_r; [done|]. apply not_elem_of_list_to_map_1.
  rewrite <- list_fmap_compose. exact Hni.
Qed.

(** Loading undoes persisting: the file keeps the whole window. *)
Lemma to_recent_entries (v : Z) (m : Recent) : bounded_queues m → to_recent (mkState v (to_entries m)) = m.
Proof.
  intros Hb. unfold to_recent. simpl.
  assert (to_entries m ≡ₚ (λ '(t, l), mkEntry t l) <$> map_to_list m) as Hp by apply stable_sort_perm.
  assert (NoDup (entry_report_type <$> to_entries m)) as Hnd.
  { rewrite Hp, <- list_fmap_compose. rewrite (list_fmap_ext _ fst); [apply NoDup_fst_map_to_list|].
    by intros _ [t l] _. }
  rewrite to_recent_fold; [|done|].
  - rewrite map_union_empty. rewrite (list_to_map_proper _ (map_to_list m)); [apply list_to_map_to_list| |].
    + rewrite <- list_fmap_compose. exact Hnd.
    + rewrite Hp, <- list_fmap_compose. clear Hp Hnd Hb. induction (map_to_list m) as [|[t l] es IH]; [done|].
      cbn. by apply Permutation_skip.
  - rewrite Hp. apply Forall_fmap, Forall_forall. intros [t l] Hin. simpl.
    apply elem_of_map_to_list in Hin. by apply (Hb t).
Qed.

Section Persistent.
Context {S : Type} {clock : Clock S} {wall : WallClock S} {Bytes : Type} {storage : RateStorage S Bytes}.
Context {content : S → option Bytes} {laws : RateStorageLaws S Bytes content}.
Context {Txn Ctx : Type}.

(** The file holds exactly the queues [m]. *)
Definition holds (m : Recent) (s : S) : Prop :=
  match content s with
  | None => m = ∅
  | Some b => to_vec (mkState RATE_STATE_VERSION (to_entries m)) = Ok b ∧ byte_length b ≤ MAX_RATE_STATE_BYTES
  end ∧ bounded_queues m.

Lemma holds_content m s s' : content s' = content s → holds m s → holds m s'.
Proof. unfold holds. by intros ->. Qed.

Lemma checkpoint_holds m (context : PluginContext Txn Ctx) cells s :
  holds m s → holds m (checkpoint context cells s).2.
Proof.
  intros Hs. unfold checkpoint, is_timed_out. destruct (cancelled cells); [done|].
  destruct (deadline context); [|done]. pose proof (clock_keeps s). destruct (instant_now s). by eapply holds_content.
Qed.

Lemma load_holds m s :
  holds m s → let '(r, s') := load_or_quarantine s in
  holds m s' ∧ (r = Ok (m, None) ∨ ∃ error, r = Err error).
Proof.
  intros Hs. unfold load_or_quarantine, load_state. destruct (open_reads s) as [Hc Ho].
  destruct (open_state s) as [file s']. simpl in *. apply (holds_content _ _ _ Hc) in Hs.
  destruct file as [[[length bytes]|]|error]; [| |eauto].
  2:{ split; [done|]. left. destruct Hs as [Hm _]. rewrite Hc, Ho in Hm. by subst. }
  destruct Ho as (b & Hb & Hlen & Hbytes). pose proof Hs as Hs'. destruct Hs' as [Hm Hq]. rewrite Hc, Hb in Hm.
  destruct Hm as [Henc Hsize]. unfold parse_state.
  destruct Hlen as [->|[error ->]]; [|by split; eauto]. cbn. rewrite decide_False by lia.
  destruct Hbytes as [->|[error ->]]; [|by split; eauto]. cbn. rewrite decide_False by lia.
  rewrite (codec _ _ Henc). unfold mbind, result_bind. cbn [map_err version].
  rewrite decide_True, to_recent_entries by done. auto.
Qed.

Lemma persist_holds m m' s :
  holds m s → bounded_queues m' → let '(r, s') := persist_state m' s in
  holds m' s' ∨ (holds m s' ∧ ∃ error, r = Err error).
Proof.
  intros Hs Hq. unfold persist_state, of_result, mbind, attempt_bind.
  destruct (to_vec _) as [b|error] eqn:Henc; cbn; [|eauto].
  case_decide; cbn; [eauto|]. destruct (publish_writes b s) as [Hp|[Hp [error He]]];
    destruct (publish_state b s) as [r s']; simpl in *.
  - left. split; [|done]. rewrite Hp. split; [done|lia].
  - right. split; [by eapply holds_content|eauto].
Qed.

Context (lim : RateLimiter) (t : ReportType) (now : Z) (context : PluginContext Txn Ctx) (cells : Cells).
Notation W := (millis_u64 (window lim)).
Context (Hpath : is_Some (state_path lim)) (Hmax : max_events lim ≤ MAX_PERSISTED_EVENTS_PER_TYPE).
Context (Hnow : W ≤ now).

Lemma pop_until_fresh l : pop_until (u64_saturating_sub now W) l = fresh W now l.
Proof.
  unfold u64_saturating_sub. induction l as [|x l IH]; [done|]. simpl.
  destruct (decide (x ≤ 0 `max` (now - W))), (decide (x + W ≤ now)); try lia; done.
Qed.

(** One invocation of the persistent limiter is a step of the contract on the
    queues of the file. *)
Lemma check_and_record_persistent_refines m s :
  holds m s → let '(r, s') := check_and_record_persistent lim t now context cells s in
  ∃ m' l', holds m' s' ∧ with_queue m t l' m' ∧
    limiter_step W (max_events lim) now (or_default m t) (outcome_of true r) l'.
Proof.
  intros Hs. assert (∀ error, limiter_step W (max_events lim) now (or_default m t) (outcome_of true (Err error)) (or_default m t)) as Hkept.
  { intros error. by apply (step_kept _ _ _ []). }
  assert (∀ error s', holds m s' → ∃ m' l', holds m' s' ∧ with_queue m t l' m' ∧
    limiter_step W (max_events lim) now (or_default m t) (outcome_of true (Err error)) l') as Hfail.
  { intros error s' Hs'. exists m, (or_default m t). split; [done|]. split; [by split|]. apply Hkept. }
  unfold check_and_record_persistent. destruct Hpath as [path ->]. unfold mbind, attempt_bind.
  pose proof (acquire_keeps s) as H. destruct (acquire_rate_state_lock s) as [[[]|error] s1]; simpl in H;
    apply (holds_content m _ _ H) in Hs; [|by apply Hfail].
  apply (checkpoint_holds m context cells) in Hs. destruct (checkpoint context cells s1) as [[[]|error] s2]; [|by apply Hfail].
  simpl in Hs. pose proof (load_holds m s2 Hs) as Hl. destruct (load_or_quarantine s2) as [r s3].
  destruct Hl as [Hs3 [->|[error ->]]]; [|by apply Hfail]. cbn zeta iota beta. rewrite pop_until_fresh.
  case_decide as Hfull.
  { exists m, (or_default m t). split; [done|]. split; [by split|]. apply step_refused; auto. }
  set (l' := fresh W now (or_default m t) ++ [now]). set (m' := <[t := l']> m).
  assert (with_queue m t l' m') as Hw by (apply (with_queue_insert m t (or_default m t)); by split).
  assert (bounded_queues m') as Hb.
  { apply map_Forall_insert_2; [|apply Hs3]. unfold l'. rewrite length_app. simpl. lia. }
  assert (∀ o, o ≠ Refused → limiter_step W (max_events lim) now (or_default m t) o l') as Hrec.
  { intros o Ho. apply step_recorded; [lia|done]. }
  pose proof (persist_holds m m' s3 Hs3 Hb) as Hp. destruct (persist_state m' s3) as [r s4].
  destruct Hp as [Hs4|[Hs4 [error ->]]]; [|by apply Hfail].
  destruct r as [[]|error]; [|exists m', l'; auto].
  apply (checkpoint_holds m' context cells) in Hs4. destruct (checkpoint context cells s4) as [[[]|error] s5];
    exists m', l'; split_and!; try done; by apply Hrec.
Qed.

End Persistent.

(** ** Histories of invocations *)

Record Call (Txn Ctx : Type) := mkCall {
  call_type : ReportType;
  call_now : Z;
  call_available : bool;
  call_context : PluginContext Txn Ctx;
  call_cells : Cells
}.
Arguments mkCall {Txn Ctx}.
Arguments call_type {Txn Ctx}.
Arguments call_now {Txn Ctx}.
Arguments call_available {Txn Ctx}.
Arguments call_context {Txn Ctx}.
Arguments call_cells {Txn Ctx}.

Section Runs.
Context {X Txn Ctx : Type} (f : Call Txn Ctx → attempt X bool).

(** The invocations one after the other, with what the windows see of them. *)
Fixpoint run (calls : list (Call Txn Ctx)) (x : X) : list entry :=
  match calls with
  | [] => []
  | c :: calls =>
      let '(r, x) := f c x in (call_type c, call_now c, outcome_of (call_available c) r) :: run calls x
  end.

Lemma run_times calls x : entry_times (run calls x) = call_now <$> calls.
Proof.
  revert x. induction calls as [|c calls IH]; intros x; [done|]. simpl. destruct (f c x) as [r x'].
  unfold entry_times in *. simpl. by rewrite IH.
Qed.

(** Invocations that refine the contract on the queues [queues] of an invariant
    [inv] make a history. *)
Lemma run_history (W M : Z) (inv : Recent → X → Prop) (P : Call Txn Ctx → Prop) calls m x :
  (∀ c m x, P c → inv m x → let '(r, x') := f c x in
     ∃ m' l', inv m' x' ∧ with_queue m (call_type c) l' m' ∧
       limiter_step W M (call_now c) (or_default m (call_type c)) (outcome_of (call_available c) r) l') →
  Forall P calls → inv m x → ∃ m', history W M (or_default m) (run calls x) (or_default m').
Proof.
  intros Hf. revert m x. induction calls as [|c calls IH]; intros m x Hall Hinv; simpl.
  { exists m. constructor. }
  inversion Hall; subst. pose proof (Hf c m x) as H. destruct (f c x) as [r x'].
  destruct H as (m' & l' & Hinv' & [Hl Ho] & Hstep); [done..|].
  destruct (IH m' x') as [m'' Hh]; [done..|]. exists m''. econstructor; [by rewrite Hl|exact Ho|exact Hh].
Qed.

Lemma run_rate_limited (W M : Z) (inv : Recent → X → Prop) (P : Call Txn Ctx → Prop) calls x :
  (∀ c m x, P c → inv m x → let '(r, x') := f c x in
     ∃ m' l', inv m' x' ∧ with_queue m (call_type c) l' m' ∧
       limiter_step W M (call_now c) (or_default m (call_type c)) (outcome_of (call_available c) r) l') →
  Forall P calls → inv ∅ x → StronglySorted Z.le (call_now <$> calls) → rate_limited W M (run calls x).
Proof.
  intros Hf HP Hinv Hsort. destruct (run_history W M inv P calls ∅ x Hf HP Hinv) as [m' Hh].
  eapply history_rate_limited; [exact Hh|]. by rewrite run_times.
Qed.

End Runs.

Section Properties.
Context {S : Type} {clock : Clock S} {wall : WallClock S} {Bytes : Type} {storage : RateStorage S Bytes}.
Context {Txn Ctx : Type}.

(** Over any run of invocations at nondecreasing times, whatever deadlines,
    cancellations and lock contention they meet, the in-memory limiter records
    at most [max_events] reports of a type in any window of its length, every
    report it lets through while holding the lock is recorded, and it refuses a
    report only when that many were recorded in the window ending with it. *)
Theorem memory_rate_limited (lim : RateLimiter) (calls : list (Call Txn Ctx)) (e : S) :
  0 < window lim → StronglySorted Z.le (call_now <$> calls) →
  rate_limited (window lim) (max_events lim)
    (run (λ c, check_and_record lim (call_type c) (call_now c) (call_available c) (call_context c) (call_cells c))
       calls (mkStore e ∅)).
Proof.
  intros HW. apply (run_rate_limited _ _ _ (λ m st, m = recent st) (λ _, True)); [|by apply Forall_true|done].
  intros c m st _ ->.
  pose proof (check_and_record_refines lim (call_type c) (call_now c) (call_context c) (call_cells c) HW
    (call_available c) st) as H.
  destruct (check_and_record _ _ _ _ _ _ st) as [r st']. destruct H as (l' & Hw & Hstep). eauto.
Qed.

(** The persistent limiter keeps the same bound across restarts: starting
    from no state file, over any run of invocations at nondecreasing wall-clock
    times (each later than one window after the epoch), with any lock, read,
    write or deadline failure in between, the reports recorded in the file obey
    [max_events] (at most 1024) in every window, and a report is refused only
    when the window ending with it is full. *)
Theorem persistent_rate_limited {content : S → option Bytes} {laws : RateStorageLaws S Bytes content}
    (max_events window : Z) (path : PathBuf) (calls : list (Call Txn Ctx)) (s : S) :
  content s = None →
  Forall (λ c, call_available c = true ∧ millis_u64 window ≤ call_now c) calls →
  StronglySorted Z.le (call_now <$> calls) →
  rate_limited (millis_u64 window) (Z.min max_events MAX_PERSISTED_EVENTS_PER_TYPE)
    (run (λ c, check_and_record_persistent (with_state_path max_events window path)
                 (call_type c) (call_now c) (call_context c) (call_cells c)) calls s).
Proof.
  intros Hs Hcalls. apply (run_rate_limited _ _ _ (holds (content := content)) (λ c, call_available c = true ∧ millis_u64 window ≤ call_now c)); [|done|].
  - intros c m x [Ha Hn] Hm.
    pose proof (check_and_record_persistent_refines (with_state_path max_events window path) (call_type c)
      (call_now c) (call_context c) (call_cells c)) as H.
    rewrite Ha. apply (λ H1 H2 H3, H H1 H2 H3 m x Hm); [eexists; done|simpl; lia|done].
  - unfold holds. rewrite Hs. by split; [|apply map_Forall_empty].
Qed.

End Properties.

(** ** Concrete instances *)

(** A clock that never moves and a state file that never fails. *)
#[local] Instance still_clock : Clock (option PersistedRateState) := λ s, (0, s).
#[local] Instance simple_storage : RateStorage (option PersistedRateState) PersistedRateState := {
  acquire_rate_state_lock s := (Ok tt, s);
  open_state s := (Ok ((λ b, (Ok 0, Ok b)) <$> s), s);
  byte_length _ := 0;
  from_slice b := Ok b;
  to_vec p := Ok p;
  quarantine_invalid_state s := (Ok tt, None);
  publish_state b s := (Ok tt, Some b)
}.
#[local] Instance simple_storage_laws : RateStorageLaws (option PersistedRateState) PersistedRateState (λ s, s).
Proof.
  split; [done|done| |by left|by intros p b [= ->]]. intros [b|]; simpl; [|done].
  split; [done|]. exists b. auto.
Qed.

Definition crash_at (t : Z) : Call unit unit := mkCall Crash t true without_deadline (fresh_cells false).

Definition memory_demo : list entry :=
  run (λ c, check_and_record (new 1 1000) (call_type c) (call_now c) (call_available c) (call_context c) (call_cells c))
    (crash_at <$> [5; 6; 2000]) (mkStore (None : option PersistedRateState) ∅).

Definition persistent_demo : list entry :=
  run (λ c, check_and_record_persistent (with_state_path 1 1000000000 ["state"%string]) (call_type c) (call_now c)
              (call_context c) (call_cells c))
    (crash_at <$> [5000; 5001; 7000]) None.

Lemma memory_rate_limited_witness :
  memory_demo = [(Crash, 5, Accepted); (Crash, 6, Refused); (Crash, 2000, Accepted)] ∧
  rate_limited 1000 1 memory_demo.
Proof.
  split; [vm_compute; reflexivity|].
  apply (memory_rate_limited (new 1 1000) (crash_at <$> [5; 6; 2000]) (None : option PersistedRateState)).
  - simpl. lia.
  - simpl. repeat constructor; lia.
Defined.

Lemma persistent_rate_limited_witness :
  persistent_demo = [(Crash, 5000, Accepted); (Crash, 5001, Refused); (Crash, 7000, Accepted)] ∧
  rate_limited (millis_u64 1000000000) (Z.min 1 MAX_PERSISTED_EVENTS_PER_TYPE) persistent_demo.
Proof.
  split; [vm_compute; reflexivity|].
  apply (persistent_rate_limited (content := λ s, s) 1 1000000000 ["state"%string] (crash_at <$> [5000; 5001; 7000]) None).
  - reflexivity.
  - repeat constructor; vm_compute; congruence.
  - simpl. repeat constructor; lia.
Defined.

End RateLimiterSpec.
