(* ===== verification/Artifact.v ===== *)
(** * Artifact transactions (src/pipeline/artifact.rs)

    The event-scoped artifact store: a hidden staging directory with a registry
    of artifacts, the commit that writes the manifest last and publishes the
    directory with one rename, the final diagnostics added to a published
    manifest, the recovery of prepared transactions and the removal of stale
    ones.

    The private-file primitives (src/utils/paths.rs) and the file system are used
    through [PrivateFs]; [J] is a JSON value. A transaction threads a [World]: the
    environment, its mutex-protected core and the process-wide publication
    leases. Error messages leave out the paths and sizes that the source quotes
    in them. *)

From stdpp Require Import pretty.
From S2P Require Import Prelude.
From S2P Require Import Attempt.
From S2P Require Import PipelineTypes.
From S2P Require Import PluginRun.
From S2P Require Import Pipeline.
From S2P Require Import Finalize.

Module Artifact.
Export Attempt.
Export Finalize.

(** ** Paths *)

(** [Path::parent] and [Path::file_name]; the root is the component [/]. *)
Definition parent (p : PathBuf) : option PathBuf :=
  match p with [] => None | ["/"] => None | _ => Some (removelast p) end%string.
Definition file_name (p : PathBuf) : option string :=
  match last p with Some n => if decide (n = ".." ∨ n = "/") then None else Some n | None => None end%string.

Definition slash : Ascii.ascii := Ascii.ascii_of_nat 47.

Fixpoint split_slash (s : string) (piece : string) : list string :=
  match s with
  | EmptyString => [piece]
  | String c s => if decide (c = slash) then piece :: split_slash s EmptyString
                  else split_slash s (piece +:+ String c EmptyString)
  end.

(** [Path::new(s).components()]: repeated separators and inner [.] vanish; a
    leading [.] and a leading separator count. *)
Definition components (s : string) : list string :=
  let keep := List.filter (λ p, negb (bool_decide (p = "" ∨ p = "."))) in
  match split_slash s "" with
  | "" :: rest => if decide (rest = []) then [] else "/" :: keep rest
  | "." :: rest => "." :: keep rest
  | pieces => keep pieces
  end%string.

Definition starts_with_dot (s : string) : bool := String.prefix "." s.

(** ** Data *)

Definition MANIFEST_FILE_NAME : string := "manifest.json".
Definition MAX_MANIFEST_BYTES : Z := 1024 * 1024.
Definition MAX_RECOVERY_ROOT_ENTRIES : Z := 10000.
Definition MAX_RECOVERY_ARTIFACTS : Z := 10000.
Definition MAX_RECOVERY_REPORT_ENTRIES : Z := MAX_RECOVERY_ARTIFACTS + 1.
Definition RECOVERY_DEADLINE : Z := 2 * NANOS_PER_SEC.

Inductive ArtifactKind : Type :=
| Report | ThreadRaw | BreadcrumbsRaw | ContextRaw | ScreenshotRgba | ScreenshotPng | Attachment | Archive.

Record ManifestArtifact := mkManifestArtifact { path : string; artifact_kind : ArtifactKind; size : Z }.

Inductive ManifestDestination : Type := OutputRoot | Sibling (directory : string).

Record ReportManifest (J : Type) := mkManifest {
  schema_version : Z;
  manifest_report_id : string;
  manifest_report_type : ReportType;
  pid : Z;
  process : string;
  committed_at : string;
  destination : ManifestDestination;
  manifest_artifacts : list ManifestArtifact;
  final_diagnostics : option J
}.
Arguments mkManifest {J}.
Arguments schema_version {J}.
Arguments manifest_report_id {J}.
Arguments manifest_report_type {J}.
Arguments pid {J}.
Arguments process {J}.
Arguments committed_at {J}.
Arguments destination {J}.
Arguments manifest_artifacts {J}.
Arguments final_diagnostics {J}.

Inductive ArtifactTransactionState : Type := Open | Preparing | Prepared | Committed.

#[export] Instance ArtifactTransactionState_eq_dec : EqDecision ArtifactTransactionState.
Proof. solve_decision. Defined.

(** [BTreeMap<String, ArtifactKind>]. *)
Notation Registry := (gmap string ArtifactKind).

Record TransactionCore := mkCore {
  core_artifacts : Registry;
  core_durability_warnings : list string;
  destination_root : PathBuf;
  core_state : ArtifactTransactionState;
  active_operations : Z;
  core_committed_report : option CommittedReport;
  publication_lease : option PathBuf
}.

(** Iteration in key order. *)
Definition btree_entries (m : Registry) : list (string * ArtifactKind) :=
  stable_sort (λ a b, String.leb a.1 b.1) (map_to_list m).

(** ** The file system *)

Inductive Metadata : Type := Exists | NotFound | MetadataError (error : string).
Inductive FileKind : Type := RegularFile | Directory | OtherKind.

(** A file opened for reading: its metadata and the bytes read from it. *)
Record OpenFile (Bytes : Type) := mkOpenFile {
  metadata : result string (FileKind * Z);
  read_to_end : result string Bytes
}.
Arguments mkOpenFile {Bytes}.
Arguments metadata {Bytes}.
Arguments read_to_end {Bytes}.

(** A directory entry: its name and whether it is UTF-8. *)
Definition DirEntry : Type := string * bool.

(** A file or directory handle is named by its path; [age_exceeds] compares the
    modification time of an entry with a maximal age; opening and listing tell a
    missing path from other errors. *)
Class PrivateFs (S Bytes J : Type) := {
  symlink_metadata : PathBuf → S → Metadata * S;
  path_exists : PathBuf → S → bool * S;
  ensure_private_directory : PathBuf → attempt S unit;
  create_private_directory : PathBuf → attempt S unit;
  create_private_file : PathBuf → attempt S unit;
  open_private_file_optional : PathBuf → attempt S (option (OpenFile Bytes));
  flock_directory : PathBuf → attempt S bool;
  unlock_directory : PathBuf → S → S;
  read_dir_optional : PathBuf → attempt S (option (list (result string DirEntry)));
  file_type : PathBuf → attempt S FileKind;
  age_exceeds : Z → PathBuf → attempt S bool;
  write_all : PathBuf → Bytes → attempt S unit;
  flush : PathBuf → attempt S unit;
  sync_all : PathBuf → attempt S unit;
  sync_directory : PathBuf → attempt S unit;
  publish_private_path : PathBuf → PathBuf → attempt S unit;
  rename : PathBuf → PathBuf → attempt S unit;
  remove_file : PathBuf → attempt S unit;
  remove_dir : PathBuf → attempt S unit;
  remove_dir_all : PathBuf → attempt S unit;
  new_v4 : S → string * S;
  local_now : S → string * S;
  byte_length : Bytes → Z;
  to_vec_pretty : ReportManifest J → result string Bytes;
  from_slice : Bytes → result string (ReportManifest J)
}.

Record World (S : Type) := mkWorld { fs : S; core : TransactionCore; leases : gset PathBuf }.
Arguments mkWorld {S}.
Arguments fs {S}.
Arguments core {S}.
Arguments leases {S}.

(** ** Names and destinations *)

Definition validate_artifact_name (name : string) : result string unit :=
  if bool_decide (name = "") || bool_decide (name = MANIFEST_FILE_NAME) || starts_with_dot name
     || negb (bool_decide (length (components name) = 1%nat))
  then Err ("invalid report artifact name: " +:+ name) else Ok tt.

Definition artifact_name_in (p directory : PathBuf) : result string string :=
  if decide (parent p ≠ Some directory) then Err "artifact is outside report staging directory" else
  name ← ok_or (file_name p) "artifact has no valid filename";
  _ ← validate_artifact_name name;
  Ok name.

Definition validate_directory_component (component : string) : result string unit :=
  let cs := components component in
  if bool_decide (component = "") || starts_with_dot component || negb (bool_decide (length cs = 1%nat))
     || match cs with c :: _ => bool_decide (c = "/" ∨ c = "." ∨ c = "..") | [] => true end
  then Err ("invalid report destination component: " +:+ component) else Ok tt.

Definition destination_policy (output_root destination_root : PathBuf) : result string ManifestDestination :=
  if decide (destination_root = output_root) then Ok OutputRoot else
  output_parent ← ok_or (parent output_root) "report output root has no parent";
  if decide (parent destination_root ≠ Some output_parent) then
    Err "report destination is not a sibling of output root" else
  directory ← ok_or (file_name destination_root) "report destination has no valid directory name";
  _ ← validate_directory_component directory;
  Ok (Sibling directory).

Definition destination_from_policy (output_root : PathBuf) (d : ManifestDestination) : result string PathBuf :=
  match d with
  | OutputRoot => Ok output_root
  | Sibling directory =>
      _ ← validate_directory_component directory;
      parent ← ok_or (parent output_root) "report output root has no parent";
      Ok (parent ++ [directory])
  end.

Fixpoint registry_of (artifacts : list ManifestArtifact) (registered : Registry) : result string Registry :=
  match artifacts with
  | [] => Ok registered
  | a :: artifacts =>
      _ ← validate_artifact_name (path a);
      match registered !! path a with
      | Some _ => Err ("duplicate manifest artifact: " +:+ path a)
      | None => registry_of artifacts (<[path a := artifact_kind a]> registered)
      end
  end.

Definition manifest_registry {J : Type} (m : ReportManifest J) : result string Registry :=
  registry_of (manifest_artifacts m) ∅.

(** [u8::is_ascii_hexdigit]. *)
Definition is_ascii_hexdigit (c : Ascii.ascii) : bool :=
  let n := Z.of_nat (Ascii.nat_of_ascii c) in
  (48 <=? n) && (n <=? 57) || (65 <=? n) && (n <=? 70) || (97 <=? n) && (n <=? 102).

Definition is_report_id (s : string) : bool :=
  bool_decide (String.length s = 32%nat) && forallb is_ascii_hexdigit (Stdlib.Strings.String.list_ascii_of_string s).

(** [str::strip_prefix] and [strip_suffix]. *)
Definition strip_prefix_str (prefix s : string) : option string :=
  if String.prefix prefix s
  then Some (String.substring (String.length prefix) (String.length s - String.length prefix) s) else None.
Definition strip_suffix_str (suffix s : string) : option string :=
  let n := (String.length s - String.length suffix)%nat in
  if decide (String.length suffix ≤ String.length s)%nat
  then if decide (String.substring n (String.length suffix) s = suffix) then Some (String.substring 0 n s) else None
  else None.

Definition staging_report_id (name : string) : option string :=
  id ← strip_prefix_str STAGING_PREFIX name;
  id ← strip_suffix_str STAGING_SUFFIX id;
  if is_report_id id then Some id else None.

Section Store.
Context {S Bytes J : Type} {clock : Clock S} {ops : PrivateFs S Bytes J}.
Notation World := (World S).

(** A failing operation as a value, and ignored results ([let _ = ...]). *)
Definition catch {X A : Type} (m : attempt X A) : attempt X (result string A) :=
  λ x, let '(r, x) := m x in (Ok r, x).
Definition ignore {X A : Type} (m : attempt X A) : attempt X unit := _ ← catch m; mret tt.
Definition pure {A : Type} (f : S → A * S) : attempt S A := λ s, let '(a, s) := f s in (Ok a, s).
Definition context (message : string) {X A : Type} (m : attempt X A) : attempt X A :=
  λ x, let '(r, x) := m x in (map_err (λ error, (message +:+ ": " +:+ error)%string) r, x).

Definition on_fs {A : Type} (m : attempt S A) : attempt World A :=
  λ w, let '(r, s) := m (fs w) in (r, mkWorld s (core w) (leases w)).
Definition update_core (f : TransactionCore → TransactionCore) : attempt World unit :=
  modify (λ w, mkWorld (fs w) (f (core w)) (leases w)).

Definition set_artifacts (m : Registry) (c : TransactionCore) : TransactionCore :=
  mkCore m (core_durability_warnings c) (destination_root c) (core_state c) (active_operations c)
    (core_committed_report c) (publication_lease c).
Definition push_warning (warning : string) (c : TransactionCore) : TransactionCore :=
  mkCore (core_artifacts c) (core_durability_warnings c ++ [warning]) (destination_root c) (core_state c)
    (active_operations c) (core_committed_report c) (publication_lease c).
Definition set_destination (d : PathBuf) (c : TransactionCore) : TransactionCore :=
  mkCore (core_artifacts c) (core_durability_warnings c) d (core_state c) (active_operations c)
    (core_committed_report c) (publication_lease c).
Definition set_state (s : ArtifactTransactionState) (c : TransactionCore) : TransactionCore :=
  mkCore (core_artifacts c) (core_durability_warnings c) (destination_root c) s (active_operations c)
    (core_committed_report c) (publication_lease c).
Definition set_active (n : Z) (c : TransactionCore) : TransactionCore :=
  mkCore (core_artifacts c) (core_durability_warnings c) (destination_root c) (core_state c) n
    (core_committed_report c) (publication_lease c).
Definition set_committed (r : option CommittedReport) (c : TransactionCore) : TransactionCore :=
  mkCore (core_artifacts c) (core_durability_warnings c) (destination_root c) (core_state c)
    (active_operations c) r (publication_lease c).
Definition set_lease (l : option PathBuf) (c : TransactionCore) : TransactionCore :=
  mkCore (core_artifacts c) (core_durability_warnings c) (destination_root c) (core_state c)
    (active_operations c) (core_committed_report c) l.

(** ** Reading and validating directories *)

Definition ensure_before_deadline (deadline : option Z) : attempt S unit :=
  match deadline with
  | None => mret tt
  | Some d => now ← pure instant_now;
              if decide (d ≤ now) then fail "prepared report recovery deadline elapsed" else mret tt
  end.

Definition open_private_file (p : PathBuf) : attempt S (OpenFile Bytes) :=
  f ← open_private_file_optional p;
  match f with Some f => mret f | None => fail "cannot safely open private file: not found" end.

Definition read_dir (p : PathBuf) : attempt S (list (result string DirEntry)) :=
  entries ← read_dir_optional p;
  match entries with Some entries => mret entries | None => fail "No such file or directory" end.

Inductive ManifestReadError : Type := ManifestNotFound | Unsafe (error : string).

Definition read_manifest_file (p : PathBuf) : S → result ManifestReadError Bytes * S := λ s,
  let '(f, s) := open_private_file_optional p s in
  (f ← map_err (λ error, Unsafe ("manifest cannot be opened safely: " +:+ error)%string) f;
   f ← ok_or f ManifestNotFound;
   '(kind, len) ← map_err (λ error, Unsafe ("cannot inspect manifest: " +:+ error)%string) (metadata f);
   match kind with
   | RegularFile =>
       if decide (MAX_MANIFEST_BYTES < len) then Err (Unsafe "manifest exceeds size limit") else
       bytes ← map_err (λ error, Unsafe ("cannot read manifest: " +:+ error)%string) (read_to_end f);
       if decide (MAX_MANIFEST_BYTES < byte_length bytes)
       then Err (Unsafe "manifest grew beyond size limit while reading") else Ok bytes
   | _ => Err (Unsafe "manifest is not a regular file")
   end, s).

Definition load_manifest_inner (p : PathBuf) : attempt S (ReportManifest J) := λ s,
  let '(bytes, s) := read_manifest_file p s in
  (bytes ← map_err (λ error, match error with
                             | ManifestNotFound => "cannot read report manifest: not found"
                             | Unsafe error => "cannot read report manifest: " +:+ error
                             end%string) bytes;
   map_err (λ error, ("invalid report manifest: " +:+ error)%string) (from_slice bytes), s).

(** The scan of [validate_exact_directory_bounded]: the sizes of the entries
    other than an expected manifest, and whether that was seen. *)
Fixpoint scan_directory (directory : PathBuf) (manifest_expected : bool) (max_entries : Z) (deadline : option Z)
    (inspected : Z) (entries : list (result string DirEntry)) (actual : gmap string Z) (saw_manifest : bool)
    : attempt S (gmap string Z * bool) :=
  match entries with
  | [] => mret (actual, saw_manifest)
  | entry :: entries =>
      _ ← ensure_before_deadline deadline;
      if decide (max_entries ≤ inspected) then fail "report directory contains too many entries" else
      '(name, utf8) ← context "cannot read report directory entry" (of_result entry);
      if negb utf8 then fail "report directory contains a non-UTF-8 name" else
      if manifest_expected && bool_decide (name = MANIFEST_FILE_NAME) then
        _ ← context "cannot safely inspect report manifest" (open_private_file (directory ++ [name]));
        scan_directory directory manifest_expected max_entries deadline (inspected + 1) entries actual true
      else
      file ← context "cannot safely inspect report artifact" (open_private_file (directory ++ [name]));
      '(_, len) ← context "cannot inspect report artifact" (of_result (metadata file));
      scan_directory directory manifest_expected max_entries deadline (inspected + 1) entries
        (<[name := len]> actual) saw_manifest
  end.

(** The sorted key vectors of two maps are equal exactly when their key sets are. *)
Definition validate_exact_directory_bounded (directory : PathBuf) (registered : Registry)
    (manifest_expected : bool) (max_entries : Z) (deadline : option Z) : attempt S unit :=
  entries ← context "cannot enumerate report directory" (read_dir directory);
  '(actual, saw_manifest) ← scan_directory directory manifest_expected max_entries deadline 0 entries ∅ false;
  if decide (dom registered ≠ dom actual) then fail "report artifact set differs from manifest" else
  if manifest_expected && negb saw_manifest then fail "prepared report has no manifest" else mret tt.

Definition validate_exact_directory (directory : PathBuf) (registered : Registry) (manifest_expected : bool)
    : attempt S unit :=
  validate_exact_directory_bounded directory registered manifest_expected MAX_RECOVERY_REPORT_ENTRIES None.

Fixpoint validate_sizes (directory : PathBuf) (artifacts : list ManifestArtifact) (deadline : option Z)
    : attempt S unit :=
  match artifacts with
  | [] => mret tt
  | a :: artifacts =>
      _ ← ensure_before_deadline deadline;
      file ← context "cannot safely open manifest artifact" (open_private_file (directory ++ [path a]));
      '(kind, len) ← context "cannot inspect manifest artifact" (of_result (metadata file));
      match kind with
      | RegularFile =>
          if decide (len ≠ size a) then fail "manifest size mismatch"
          else validate_sizes directory artifacts deadline
      | _ => fail "manifest artifact is not a regular file"
      end
  end.

Definition validate_manifest_sizes (directory : PathBuf) (m : ReportManifest J) (deadline : option Z)
    : attempt S unit := validate_sizes directory (manifest_artifacts m) deadline.

Context {bytes_eq : EqDecision Bytes}.

Definition revalidate_prepared_report (directory : PathBuf) (registered : Registry) (m : ReportManifest J)
    (expected_manifest_bytes : Bytes) (max_entries : Z) (deadline : option Z) : attempt S unit :=
  _ ← ensure_before_deadline deadline;
  current ← (λ s, let '(r, s) := read_manifest_file (directory ++ [MANIFEST_FILE_NAME]) s in
               (map_err (λ error, match error with
                                  | ManifestNotFound => "prepared report has no manifest"
                                  | Unsafe error => error
                                  end%string) r, s));
  if decide (current ≠ expected_manifest_bytes) then fail "prepared report manifest changed before publication" else
  _ ← validate_exact_directory_bounded directory registered true max_entries deadline;
  validate_manifest_sizes directory m deadline.

Definition ensure_real_directory (p : PathBuf) : attempt S unit :=
  existed ← (λ s : S, let '(m, s) := symlink_metadata p s in
               (match m with
                | Exists => Ok true
                | NotFound => Ok false
                | MetadataError error => Err ("cannot inspect report destination: " +:+ error)%string
                end, s));
  _ ← ensure_private_directory p;
  if (existed : bool) then mret tt else
  sync_directory (match parent p with Some [] | None => ["."%string] | Some parent => parent end).

(** [fs::symlink_metadata(destination)], which must not exist. *)
Definition ensure_absent (p : PathBuf) : attempt S unit := λ s,
  let '(m, s) := symlink_metadata p s in
  (match m with
   | Exists => Err "report destination already exists"
   | NotFound => Ok tt
   | MetadataError error => Err ("cannot inspect report destination: " +:+ error)
   end%string, s).

(** ** The transaction *)

Context (report : ReportContext).
Notation staging := (staging_dir report).

(** [begin_shared]: the lock is held until the transaction is dropped. *)
Definition begin_shared : attempt S TransactionCore :=
  _ ← ensure_real_directory (output_root report);
  _ ← create_private_directory staging;
  locked ← catch (flock_directory staging);
  match locked with
  | Ok true => mret (mkCore ∅ [] (output_root report) Open 0 None None)
  | Ok false =>
      _ ← ignore (remove_dir staging);
      fail "new report staging directory is unexpectedly locked"
  | Err error => _ ← ignore (remove_dir staging); fail error
  end.

Definition sealed_error (s : ArtifactTransactionState) (active : string) : string :=
  match s with
  | Open => active
  | Preparing => "report transaction is preparing"
  | Prepared => "report transaction is already prepared"
  | Committed => "report transaction is already committed"
  end.

(** [begin_operation] and the drop of the operation it returns. *)
Definition with_operation {A : Type} (body : attempt World A) : attempt World A := λ w,
  if decide (core_state (core w) = Open ∧ active_operations (core w) = 0) then
    let '(r, w) := body (mkWorld (fs w) (set_active 1 (core w)) (leases w)) in
    (r, mkWorld (fs w) (set_active (Z.max 0 (active_operations (core w) - 1)) (core w)) (leases w))
  else (Err (sealed_error (core_state (core w)) "another report transaction operation is active"), w).

Definition begin_commit : attempt World (Registry * PathBuf) := λ w,
  if decide (core_state (core w) = Open ∧ active_operations (core w) = 0) then
    (Ok (core_artifacts (core w), destination_root (core w)),
     mkWorld (fs w) (set_state Preparing (core w)) (leases w))
  else (Err (sealed_error (core_state (core w)) "report transaction still has an active operation"), w).

Definition set_destination_root (d : PathBuf) : attempt World unit :=
  with_operation (
    _ ← of_result (destination_policy (output_root report) d);
    update_core (set_destination d)).

Definition insert_artifact (name : string) (kind : ArtifactKind) : attempt World unit :=
  update_core (λ c, set_artifacts (<[name := kind]> (core_artifacts c)) c).

(** [write_artifact]; [write] writes to the temporary file it is given. *)
Definition write_artifact (name : string) (kind : ArtifactKind) (write : PathBuf → attempt S unit)
    : attempt World PathBuf :=
  with_operation (
    _ ← of_result (validate_artifact_name name);
    let final_path := staging ++ [name] in
    present ← on_fs (pure (path_exists final_path));
    if (present : bool) then fail "artifact already exists" else
    uuid ← on_fs (pure new_v4);
    let temporary_path := staging ++ [("." +:+ name +:+ "." +:+ uuid +:+ ".artifact.tmp")%string] in
    _ ← on_fs (context "cannot create temporary artifact" (create_private_file temporary_path));
    written ← catch (
      _ ← on_fs (write temporary_path);
      _ ← on_fs (context "cannot flush artifact" (flush temporary_path));
      _ ← on_fs (context "cannot sync artifact" (sync_all temporary_path));
      _ ← on_fs (context "cannot publish artifact" (publish_private_path temporary_path final_path));
      _ ← insert_artifact name kind;
      synced ← catch (on_fs (sync_directory staging));
      match synced with
      | Ok _ => mret tt
      | Err error =>
          update_core (push_warning
            ("artifact was published but its staging directory could not be synced: " +:+ error)%string)
      end);
    match written with
    | Ok _ => mret final_path
    | Err error => _ ← ignore (on_fs (remove_file temporary_path)); fail error
    end).

Definition write_bytes (name : string) (kind : ArtifactKind) (bytes : Bytes) : attempt World PathBuf :=
  write_artifact name kind (λ p, context "cannot write artifact" (write_all p bytes)).

Definition register_file (p : PathBuf) (kind : ArtifactKind) : attempt World unit :=
  with_operation (
    name ← of_result (artifact_name_in p staging);
    file ← on_fs (context "cannot safely open artifact" (open_private_file p));
    '(file_kind, _) ← context "cannot inspect artifact" (of_result (metadata file));
    match file_kind with
    | RegularFile => insert_artifact name kind
    | _ => fail "artifact is not a regular file"
    end).

Definition record_durability_warning (warning : string) : attempt World unit := update_core (push_warning warning).

Definition unregister_file (p : PathBuf) : attempt World unit :=
  with_operation (
    name ← of_result (artifact_name_in p staging);
    update_core (λ c, set_artifacts (delete name (core_artifacts c)) c)).

Definition artifact_paths (c : TransactionCore) : list PathBuf :=
  (λ '(name, _), staging ++ [name]) <$> btree_entries (core_artifacts c).

Definition artifacts (c : TransactionCore) : list (PathBuf * ArtifactKind) :=
  (λ '(name, kind), (staging ++ [name], kind)) <$> btree_entries (core_artifacts c).

(** ** Commit *)

(** The artifact loop of [build_manifest]. *)
Fixpoint measure_artifacts (registered : list (string * ArtifactKind)) (total_bytes : Z)
    (measured : list ManifestArtifact) : attempt S (list ManifestArtifact) :=
  match registered with
  | [] => mret measured
  | (name, kind) :: registered =>
      let p := staging ++ [name] in
      file ← context "manifest artifact is missing" (open_private_file p);
      '(_, len) ← context "cannot inspect manifest artifact" (of_result (metadata file));
      if decide (U64_MAX < total_bytes + len) then fail "artifact byte total overflowed u64" else
      let total_bytes := total_bytes + len in
      if decide (byte_budget (context_policy report) < total_bytes) then
        fail "report artifact byte budget exceeded" else
      _ ← context "cannot sync artifact" (sync_all p);
      measure_artifacts registered total_bytes (measured ++ [mkManifestArtifact name kind len])
  end.

Definition build_manifest (registered : Registry) (destination_root : PathBuf) : attempt S (ReportManifest J) :=
  _ ← validate_exact_directory staging registered false;
  measured ← measure_artifacts (btree_entries registered) 0 [];
  now ← pure local_now;
  d ← of_result (destination_policy (output_root report) destination_root);
  mret (mkManifest (manifest_schema_version report) (context_report_id report) (context_report_type report)
          (context_pid report) (context_process_name report) now d measured None).

(** From the temporary manifest to the prepared state. *)
Definition prepare (temporary_manifest : PathBuf) (manifest_json : Bytes) : attempt World unit :=
  _ ← on_fs (context "cannot write report manifest" (write_all temporary_manifest manifest_json));
  _ ← on_fs (context "cannot flush report manifest" (flush temporary_manifest));
  _ ← on_fs (context "cannot sync report manifest" (sync_all temporary_manifest));
  _ ← on_fs (context "cannot commit report manifest"
               (publish_private_path temporary_manifest (staging ++ [MANIFEST_FILE_NAME])));
  _ ← update_core (set_state Prepared);
  on_fs (sync_directory staging).

(** The directory syncs after publication become warnings. *)
Definition sync_or_warn (p : PathBuf) (warnings : list string) : attempt World (list string) :=
  synced ← catch (on_fs (sync_directory p));
  mret (match synced with Ok _ => warnings | Err error => warnings ++ [error] end).

(** From the rename on: the lease, the committed state and the syncs. *)
Definition record_publication (destination_root : PathBuf) : attempt World CommittedReport :=
  let report_dir := destination_root ++ [context_report_id report] in
  _ ← modify (λ w, mkWorld (fs w) (core w) ({[ report_dir ]} ∪ leases w));
  warnings ← get (λ w, core_durability_warnings (core w));
  let committed := mkCommitted (context_report_id report) report_dir (report_dir ++ [MANIFEST_FILE_NAME]) in
  _ ← update_core (λ c, set_lease (Some report_dir) (set_committed (Some (committed warnings)) (set_state Committed c)));
  warnings ← sync_or_warn destination_root warnings;
  warnings ← (if decide (destination_root ≠ output_root report)
              then sync_or_warn (output_root report) warnings else mret warnings);
  _ ← update_core (set_committed (Some (committed warnings)));
  mret (committed warnings).

(** From the prepared state to the rename. *)
Definition publish_prepared (registered : Registry) (destination_root : PathBuf) (manifest : ReportManifest J)
    (manifest_json : Bytes) : attempt World unit :=
  _ ← on_fs (ensure_real_directory destination_root);
  let report_dir := destination_root ++ [context_report_id report] in
  _ ← on_fs (ensure_absent report_dir);
  _ ← on_fs (revalidate_prepared_report staging registered manifest manifest_json
               MAX_RECOVERY_REPORT_ENTRIES None);
  on_fs (context "cannot publish report directory" (publish_private_path staging report_dir)).

Definition commit : attempt World CommittedReport :=
  '(registered, destination_root) ← begin_commit;
  manifest ← on_fs (build_manifest registered destination_root);
  manifest_json ← context "cannot serialize report manifest" (of_result (to_vec_pretty manifest));
  if decide (MAX_MANIFEST_BYTES < byte_length manifest_json) then fail "report manifest exceeds size limit" else
  uuid ← on_fs (pure new_v4);
  let temporary_manifest := staging ++ [("." +:+ MANIFEST_FILE_NAME +:+ "." +:+ uuid +:+ ".tmp")%string] in
  _ ← on_fs (context "cannot create temporary report manifest" (create_private_file temporary_manifest));
  prepared ← catch (prepare temporary_manifest manifest_json);
  match prepared with
  | Err error => _ ← ignore (on_fs (remove_file temporary_manifest)); fail error
  | Ok _ =>
      _ ← publish_prepared registered destination_root manifest manifest_json;
      record_publication destination_root
  end.

Definition release_publication_lease : attempt World unit := λ w,
  match publication_lease (core w) with
  | Some report_dir =>
      (Ok tt, mkWorld (fs w) (set_lease None (core w)) (leases w ∖ {[ report_dir ]}))
  | None => (Ok tt, w)
  end.

Definition is_report_publication_leased (report_dir : PathBuf) (w : World) : bool :=
  bool_decide (report_dir ∈ leases w).

(** [Drop]: the staging directory goes unless it was prepared or published; then
    the owner lock. *)
Definition drop_transaction : attempt World unit :=
  _ ← release_publication_lease;
  state ← get (λ w, core_state (core w));
  _ ← (match state with
       | Open | Preparing => ignore (on_fs (remove_dir_all staging))
       | _ => mret tt
       end);
  modify (λ w, mkWorld (unlock_directory staging (fs w)) (core w) (leases w)).

End Store.

(** ** Final diagnostics, recovery and removal of stale transactions *)

Record RecoveryLimits := mkLimits {
  root_entries : Z;
  report_entries : Z;
  limit_artifacts : Z;
  limit_deadline : Z
}.

Definition recovery_limits_default : RecoveryLimits :=
  mkLimits MAX_RECOVERY_ROOT_ENTRIES MAX_RECOVERY_REPORT_ENTRIES MAX_RECOVERY_ARTIFACTS RECOVERY_DEADLINE.

Section Recovery.
Context {S Bytes J : Type} {clock : Clock S} {ops : PrivateFs S Bytes J} {bytes_eq : EqDecision Bytes}.

Definition with_final_diagnostics (m : ReportManifest J) (final : J) : ReportManifest J :=
  mkManifest (schema_version m) (manifest_report_id m) (manifest_report_type m) (pid m) (process m)
    (committed_at m) (destination m) (manifest_artifacts m) (Some final).

Definition persist_final_diagnostics (c : CommittedReport) (final : J) : attempt S unit :=
  if decide (manifest_path c ≠ report_dir c ++ [MANIFEST_FILE_NAME]) then
    fail "committed manifest path does not match its report directory" else
  report_name ← of_result (ok_or (file_name (report_dir c)) "committed report directory has no UTF-8 name"%string);
  if decide (report_name ≠ committed_report_id c) then
    fail "committed report directory does not match its report id" else
  _ ← context "committed report directory is not private" (ensure_private_directory (report_dir c));
  m ← load_manifest_inner (manifest_path c);
  if decide (schema_version m ≠ MANIFEST_SCHEMA_VERSION ∨ manifest_report_id m ≠ committed_report_id c) then
    fail "committed manifest identity mismatch" else
  bytes ← context "cannot serialize final report diagnostics" (of_result (to_vec_pretty (with_final_diagnostics m final)));
  if decide (MAX_MANIFEST_BYTES < byte_length bytes) then fail "report manifest exceeds size limit" else
  report_root ← of_result (ok_or (parent (report_dir c)) "committed report directory has no parent"%string);
  uuid ← pure new_v4;
  let temporary_manifest :=
    report_root ++ [("." +:+ MANIFEST_FILE_NAME +:+ "." +:+ committed_report_id c +:+ "." +:+ uuid +:+ ".final.tmp")%string] in
  _ ← context "cannot create temporary final diagnostics manifest" (create_private_file temporary_manifest);
  written ← catch (
    _ ← context "cannot write final diagnostics manifest" (write_all temporary_manifest bytes);
    _ ← context "cannot flush final diagnostics manifest" (flush temporary_manifest);
    _ ← context "cannot sync final diagnostics manifest" (sync_all temporary_manifest);
    _ ← context "cannot publish final diagnostics manifest" (rename temporary_manifest (manifest_path c));
    _ ← sync_directory (report_dir c);
    sync_directory report_root);
  match written with
  | Ok _ => mret tt
  | Err error => _ ← ignore (remove_file temporary_manifest); fail error
  end.

(** Run [body] while holding the lock of a directory; [None] when another owner
    holds it. *)
Definition with_lock {A : Type} (p : PathBuf) (body : attempt S A) : attempt S (option A) :=
  locked ← flock_directory p;
  if negb locked then mret None else
  λ s, let '(r, s) := body s in
       (match r with Ok a => Ok (Some a) | Err error => Err error end, unlock_directory p s).

(** The candidate behind the lock: [false] without a manifest. *)
Definition recover_locked_entry (output_root entry : PathBuf) (report_id : string) (deadline : Z)
    (limits : RecoveryLimits) : attempt S bool :=
  bytes ← (λ s : S, let '(r, s) := read_manifest_file (entry ++ [MANIFEST_FILE_NAME]) s in
             (match r with
              | Ok bytes => Ok (Some bytes)
              | Err ManifestNotFound => Ok None
              | Err (Unsafe error) => Err error
              end, s));
  match bytes with
  | None => mret false
  | Some manifest_bytes =>
      m ← context "malformed prepared manifest" (of_result (from_slice manifest_bytes));
      if decide (schema_version m ≠ MANIFEST_SCHEMA_VERSION ∨ manifest_report_id m ≠ report_id) then
        fail "prepared manifest identity mismatch" else
      if decide (limit_artifacts limits < Z.of_nat (length (manifest_artifacts m))) then
        fail "prepared manifest contains too many artifacts" else
      registered ← of_result (manifest_registry m);
      _ ← revalidate_prepared_report entry registered m manifest_bytes (report_entries limits) (Some deadline);
      destination_root ← of_result (destination_from_policy output_root (destination m));
      _ ← ensure_real_directory destination_root;
      let destination := destination_root ++ [report_id] in
      _ ← ensure_absent destination;
      _ ← ensure_before_deadline (Some deadline);
      _ ← revalidate_prepared_report entry registered m manifest_bytes (report_entries limits) (Some deadline);
      _ ← context "cannot publish prepared directory" (publish_private_path entry destination);
      _ ← ignore (sync_directory destination_root);
      _ ← (if decide (destination_root ≠ output_root) then ignore (sync_directory output_root) else mret tt);
      mret true
  end.

Definition recover_prepared_entry (output_root : PathBuf) (name : string) (deadline : Z) (limits : RecoveryLimits)
    : attempt S bool :=
  now ← pure instant_now;
  if decide (deadline ≤ now) then mret false else
  let entry := output_root ++ [name] in
  kind ← context "cannot inspect staging entry type" (file_type entry);
  match kind with
  | Directory =>
      match staging_report_id name with
      | None => mret false
      | Some report_id =>
          r ← with_lock entry (recover_locked_entry output_root entry report_id deadline limits);
          mret (default false r)
      end
  | _ => mret false
  end.

Fixpoint recover_entries (output_root : PathBuf) (entries : list (result string DirEntry)) (inspected : Z)
    (deadline : Z) (limits : RecoveryLimits) (recovered : Z) : attempt S Z :=
  match entries with
  | [] => mret recovered
  | entry :: entries =>
      if decide (root_entries limits ≤ inspected) then mret recovered else
      now ← pure instant_now;
      if decide (deadline ≤ now) then mret recovered else
      match entry with
      | Err _ => recover_entries output_root entries (inspected + 1) deadline limits recovered
      | Ok (name, _) =>
          r ← catch (recover_prepared_entry output_root name deadline limits);
          recover_entries output_root entries (inspected + 1) deadline limits
            (match r with Ok true => Z.min USIZE_MAX (recovered + 1) | _ => recovered end)
      end
  end.

Definition recover_prepared_reports_with_limits (output_root : PathBuf) (limits : RecoveryLimits) : attempt S Z :=
  started ← pure instant_now;
  let deadline := default started (instant_checked_add started (limit_deadline limits)) in
  entries ← context "cannot scan report output root" (read_dir_optional output_root);
  match entries with
  | None => mret 0
  | Some entries => recover_entries output_root entries 0 deadline limits 0
  end.

(** The root of a scan: [false] when it does not exist. *)
Definition scan_root (output_root : PathBuf) : attempt S bool := λ s,
  let '(m, s) := symlink_metadata output_root s in
  match m with
  | Exists => (_ ← ensure_private_directory output_root; mret true) s
  | NotFound => (Ok false, s)
  | MetadataError error => (Err ("cannot inspect report output root: " +:+ error)%string, s)
  end.

Definition recover_prepared_reports (output_root : PathBuf) : attempt S Z :=
  present ← scan_root output_root;
  if (present : bool) then recover_prepared_reports_with_limits output_root recovery_limits_default else mret 0.

(** The children of a stale transaction, which must be files. *)
Fixpoint stale_children (entry : PathBuf) (children : list (result string DirEntry)) (index : Z)
    (paths : list PathBuf) : attempt S (list PathBuf) :=
  match children with
  | [] => mret paths
  | child :: children =>
      if decide (MAX_RECOVERY_REPORT_ENTRIES ≤ index) then fail "stale pending entry limit exceeded" else
      '(name, _) ← context "cannot read stale child" (of_result child);
      kind ← catch (file_type (entry ++ [name]));
      match kind with
      | Ok RegularFile => stale_children entry children (index + 1) (paths ++ [entry ++ [name]])
      | _ => fail "stale pending transaction contains a non-file entry"
      end
  end.

Fixpoint remove_files (paths : list PathBuf) : attempt S unit :=
  match paths with
  | [] => mret tt
  | p :: paths => _ ← context "cannot remove stale artifact" (remove_file p); remove_files paths
  end.

Definition remove_stale_entry (entry : PathBuf) : attempt S unit :=
  children ← context "cannot scan stale pending entry" (read_dir entry);
  paths ← stale_children entry children 0 [];
  _ ← remove_files paths;
  context "cannot remove stale pending directory" (remove_dir entry).

Fixpoint scavenge_entries (output_root : PathBuf) (max_age : Z) (entries : list (result string DirEntry))
    (index removed : Z) : attempt S Z :=
  match entries with
  | [] => mret removed
  | entry :: entries =>
      if decide (MAX_RECOVERY_ROOT_ENTRIES ≤ index) then fail "pending scavenger root entry limit exceeded" else
      '(name, _) ← context "cannot read pending entry" (of_result entry);
      let p := output_root ++ [name] in
      let next := scavenge_entries output_root max_age entries (index + 1) in
      match staging_report_id name with
      | None => next removed
      | Some _ =>
          kind ← catch (file_type p);
          match kind with
          | Ok Directory =>
              old ← context "cannot inspect pending entry" (age_exceeds max_age p);
              if negb old then next removed else
              r ← with_lock p (remove_stale_entry p);
              match r with None => next removed | Some _ => next (removed + 1) end
          | _ => next removed
          end
      end
  end.

Definition scavenge_stale_pending (output_root : PathBuf) (max_age : Z) : attempt S Z :=
  present ← scan_root output_root;
  if negb (present : bool) then mret 0 else
  entries ← context "cannot scan pending root" (read_dir output_root);
  removed ← scavenge_entries output_root max_age entries 0 0;
  _ ← sync_directory output_root;
  mret removed.

End Recovery.

End Artifact.
