(* ===== verification/ArtifactSpec.v ===== *)
(** * Published reports are always complete

    [PrivateFsLaws] states what the private-file primitives promise, on the
    disks that the environment goes through: after a crash the next process
    finds one of them. Everything before a publication leaves the visible
    reports alone ([steady]), so a report directory is absent or complete on
    every such disk, whatever fails and wherever execution stops. *)

From S2P Require Import Prelude.
From S2P Require Import Attempt.
From S2P Require Import PipelineTypes.
From S2P Require Import PluginRun.
From S2P Require Import Pipeline.
From S2P Require Import Artifact.

Module ArtifactSpec.
Export Artifact.

(** ** Disks *)

(** The files of each directory. *)
Notation Disk Bytes := (gmap PathBuf (gmap string Bytes)).

Definition hidden (p : PathBuf) : Prop := ∃ n, last p = Some n ∧ starts_with_dot n = true.

Section Relations.
Context {Bytes : Type}.
Notation Disk := (Disk Bytes).

(** Only the directories that satisfy [P] may differ. *)
Definition differs_at (P : PathBuf → Prop) (d0 d : Disk) : Prop := ∀ q, ¬ P q → d !! q = d0 !! q.

(** The publication of [src] as [dst]: the destination is as before, or it was
    free and is now the source; the source stays or goes; otherwise only the parents and hidden entries
    (where a failed publication is quarantined) may differ. *)
Definition publishes (src dst : PathBuf) (d0 d : Disk) : Prop :=
  (differs_at (λ q, q = dst ∨ q = src ∨ parent src = Some q ∨ parent dst = Some q ∨ hidden q) d0 d ∧
   (d !! src = d0 !! src ∨ d !! src = None)) ∧
  (d !! dst = d0 !! dst ∨ d0 !! dst = None ∧ d !! dst = d0 !! src).

(** The atomic replacement of a file by a file of another directory. *)
Definition replaces (ps : PathBuf) (ns : string) (pd : PathBuf) (nd : string) (d0 d : Disk) : Prop :=
  d = d0 ∨
  ∃ files b, d0 !! ps = Some files ∧ files !! ns = Some b ∧
    differs_at (λ q, q = ps ∨ q = pd) d0 d ∧ (ps ≠ pd → d !! pd = insert nd b <$> d0 !! pd).

End Relations.

(** ** Growth *)

Section Growth.
Context {S Bytes : Type} (disks : S → list (Disk Bytes)).

(** The present disk. *)
Definition disk (s : S) : Disk Bytes := default ∅ (head (disks s)).

(** From [s] to [s'] every new disk is related to the disk of [s] by [R]. *)
Definition grows (R : Disk Bytes → Disk Bytes → Prop) (s s' : S) : Prop :=
  ∃ ds, disks s' = ds ++ disks s ∧ Forall (R (disk s)) ds.

End Growth.

(** What the file system operations promise, on the disks an environment went
    through, the latest first. *)
Class PrivateFsLaws (S Bytes J : Type) {clock : Clock S} {ops : PrivateFs S Bytes J}
    (disks : S → list (Disk Bytes)) : Prop := {
  (** Reads and syncs. *)
  symlink_metadata_keeps p s : disks (symlink_metadata p s).2 = disks s;
  path_exists_keeps p s : disks (path_exists p s).2 = disks s;
  flock_keeps p s : disks (flock_directory p s).2 = disks s;
  unlock_keeps p s : disks (unlock_directory p s) = disks s;
  file_type_keeps p s : disks (file_type p s).2 = disks s;
  age_keeps n p s : disks (age_exceeds n p s).2 = disks s;
  flush_keeps p s : disks (flush p s).2 = disks s;
  sync_all_keeps p s : disks (sync_all p s).2 = disks s;
  sync_directory_keeps p s : disks (sync_directory p s).2 = disks s;
  new_v4_keeps s : disks (new_v4 s).2 = disks s;
  local_now_keeps s : disks (local_now s).2 = disks s;
  instant_now_keeps s : disks (instant_now s).2 = disks s;
  (** A file that opens exists, with the size and the bytes it reports. *)
  open_reads p n s :
    disks (open_private_file_optional (p ++ [n]) s).2 = disks s ∧
    ∀ f, (open_private_file_optional (p ++ [n]) s).1 = Ok (Some f) →
      ∃ files b, disk disks s !! p = Some files ∧ files !! n = Some b ∧
        (∀ k len, metadata f = Ok (k, len) → len = byte_length b) ∧
        (∀ x, read_to_end f = Ok x → byte_length b ≤ MAX_MANIFEST_BYTES → x = b);
  (** A listing without errors names every file. *)
  read_dir_reads p s :
    disks (read_dir_optional p s).2 = disks s ∧
    ∀ entries, (read_dir_optional p s).1 = Ok (Some entries) →
      ∃ files, disk disks s !! p = Some files ∧
        (∀ n, is_Some (files !! n) → (∃ utf8, Ok (n, utf8) ∈ entries) ∨ ∃ error, Err error ∈ entries);
  (** Writes. *)
  ensure_private_directory_grows p s :
    grows disks (λ d0 d, ∀ q, d !! q = d0 !! q ∨ d0 !! q = None ∧ d !! q = Some ∅ ∧ q `prefix_of` p)
      s (ensure_private_directory p s).2;
  create_private_directory_grows p s :
    grows disks (differs_at (λ q, q = p)) s (create_private_directory p s).2;
  create_private_file_grows p n s :
    grows disks (differs_at (λ q, q = p)) s (create_private_file (p ++ [n]) s).2;
  write_all_grows p n b s :
    grows disks (differs_at (λ q, q = p)) s (write_all (p ++ [n]) b s).2 ∧
    ((write_all (p ++ [n]) b s).1 = Ok tt →
       ∃ files, disk disks (write_all (p ++ [n]) b s).2 !! p = Some files ∧ files !! n = Some b);
  remove_file_grows p n s : grows disks (differs_at (λ q, q = p)) s (remove_file (p ++ [n]) s).2;
  remove_dir_grows p s : grows disks (differs_at (λ q, p `prefix_of` q)) s (remove_dir p s).2;
  remove_dir_all_grows p s : grows disks (differs_at (λ q, p `prefix_of` q)) s (remove_dir_all p s).2;
  publish_grows src dst s :
    grows disks (publishes src dst) s (publish_private_path src dst s).2 ∧
    ((publish_private_path src dst s).1 = Ok tt →
       disk disks s !! dst = None ∧
       disk disks (publish_private_path src dst s).2 !! dst = disk disks s !! src ∧
       disk disks (publish_private_path src dst s).2 !! src = None);
  rename_grows ps ns pd nd s :
    grows disks (replaces ps ns pd nd) s (rename (ps ++ [ns]) (pd ++ [nd]) s).2;
  codec m b : to_vec_pretty m = Ok b → from_slice b = Ok m
}.

(** ** Visible reports *)

Definition dot : Ascii.ascii := Ascii.ascii_of_nat 46.

Lemma prefix_dot s t : String.prefix ("." +:+ s) t = true → starts_with_dot t = true.
Proof.
  unfold starts_with_dot. destruct t as [|c t]; [done|]. cbn [String.prefix].
  change ("." +:+ s) with (String dot s). cbv iota. change (Ascii.Ascii false true true true false true false false) with dot.
  destruct (Ascii.ascii_dec dot c) as [e|]; [|done]. intros _. by destruct t.
Qed.

Lemma parent_Some p q : parent p = Some q → p ≠ [] ∧ q = removelast p.
Proof. destruct p as [|n p]; simpl; [done|]. intros H. split; [done|]. repeat case_match; by simplify_eq. Qed.

Lemma parent_snoc p n : p ≠ [] → parent (p ++ [n]) = Some p.
Proof.
  intros Hp. unfold parent. rewrite removelast_last. destruct p as [|m p]; [done|]. simpl.
  destruct p as [|m' p]; simpl; repeat case_match; done.
Qed.

Lemma removelast_length {A : Type} (l : list A) : l ≠ [] → length l = Datatypes.S (length (removelast l)).
Proof. intros Hl. destruct (exists_last Hl) as (l' & x & ->). rewrite removelast_last, length_app. simpl. lia. Qed.

Section Visible.
Context (root : PathBuf).

(** The roots a report may be published under: the output root and its siblings. *)
Definition is_root (r : PathBuf) : Prop := r = root ∨ ∃ p, parent r = Some p ∧ parent root = Some p.

Definition visible (q : PathBuf) : Prop := ∃ r n, q = r ++ [n] ∧ is_root r ∧ starts_with_dot n = false.

Lemma is_root_length r : is_root r → length r = length root.
Proof.
  intros [->|(p & H1 & H2)]; [done|]. apply parent_Some in H1 as [Hr ->]. apply parent_Some in H2 as [Ho H2].
  rewrite (removelast_length r), (removelast_length root) by done. by rewrite H2.
Qed.

Lemma visible_length q : visible q → length q = Datatypes.S (length root).
Proof. intros (r & n & -> & Hr & _). rewrite length_app, (is_root_length r Hr). simpl. lia. Qed.

Lemma visible_not_hidden q : visible q → ¬ hidden q.
Proof.
  intros (r & n & -> & _ & Hn) (n' & Hl & Hn'). rewrite last_snoc in Hl. injection Hl as ->. congruence.
Qed.

Lemma hidden_snoc r n : starts_with_dot n = true → hidden (r ++ [n]).
Proof. intros Hn. exists n. by rewrite last_snoc. Qed.

(** A prefix of a path no longer than the roots is not visible. *)
Lemma short_not_visible p q : (length p ≤ length root)%nat → q `prefix_of` p → ¬ visible q.
Proof. intros Hp Hq Hv. apply visible_length in Hv. apply prefix_length in Hq. lia. Qed.

(** Nothing below a hidden entry of a root is visible. *)
Lemma below_hidden_not_visible r n q :
  is_root r → starts_with_dot n = true → r ++ [n] `prefix_of` q → ¬ visible q.
Proof.
  intros Hr Hn [l ->] Hv. assert (l = []) as ->.
  { apply visible_length in Hv. rewrite !length_app, (is_root_length r Hr) in Hv. simpl in Hv.
    destruct l; [done|]. simpl in Hv. lia. }
  rewrite app_nil_r in Hv. by apply visible_not_hidden in Hv; destruct Hv; apply hidden_snoc.
Qed.

Lemma root_not_visible r : is_root r → ¬ visible r.
Proof. intros Hr Hv. apply visible_length in Hv. rewrite (is_root_length r Hr) in Hv. lia. Qed.

End Visible.

(** ** Complete reports *)

Section Complete.
Context {S Bytes J : Type} {clock : Clock S} {ops : PrivateFs S Bytes J}.

(** The files of the report [id] are its manifest and exactly the artifacts that
    it lists, each of the size it states. *)
Definition complete (id : string) (files : gmap string Bytes) : Prop :=
  ∃ b m, files !! MANIFEST_FILE_NAME = Some b ∧ from_slice b = Ok m ∧
    schema_version m = MANIFEST_SCHEMA_VERSION ∧ manifest_report_id m = id ∧
    MANIFEST_FILE_NAME ∉ path <$> manifest_artifacts m ∧
    (∀ n, is_Some (files !! n) ↔ n = MANIFEST_FILE_NAME ∨ n ∈ path <$> manifest_artifacts m) ∧
    (∀ a, a ∈ manifest_artifacts m → ∃ c, files !! path a = Some c ∧ byte_length c = size a).

(** Every visible report of a disk is complete. *)
Definition consistent (root : PathBuf) (d : Disk Bytes) : Prop :=
  ∀ r id files, is_root root r → starts_with_dot id = false → d !! (r ++ [id]) = Some files → complete id files.

Definition same_visible (root : PathBuf) (d0 d : Disk Bytes) : Prop := ∀ q, visible root q → d !! q = d0 !! q.

Lemma same_visible_consistent root d0 d : same_visible root d0 d → consistent root d0 → consistent root d.
Proof.
  intros Hs Hc r id files Hr Hid Hd. apply (Hc r id files Hr Hid). rewrite <- Hs; [done|]. by exists r, id.
Qed.

End Complete.

(** ** Steady computations *)

Section Steady.
Context {S Bytes J : Type} {clock : Clock S} {ops : PrivateFs S Bytes J} {disks : S → list (Disk Bytes)}.
Context {laws : PrivateFsLaws S Bytes J disks} (root : PathBuf).
Notation grows := (grows disks).

Lemma grows_keeps (R : Disk Bytes → Disk Bytes → Prop) s s' : disks s' = disks s → grows R s s'.
Proof. intros H. by exists []. Qed.

Lemma grows_weaken (R R' : Disk Bytes → Disk Bytes → Prop) s s' :
  (∀ d0 d, R d0 d → R' d0 d) → grows R s s' → grows R' s s'.
Proof. intros H (ds & Hd & Hds). exists ds. split; [done|]. eapply Forall_impl; [exact Hds|]. auto. Qed.

Lemma grows_weaken_at (R R' : Disk Bytes → Disk Bytes → Prop) s s' :
  (∀ d, R (disk disks s) d → R' (disk disks s) d) → grows R s s' → grows R' s s'.
Proof. intros H (ds & Hd & Hds). exists ds. split; [done|]. eapply Forall_impl; [exact Hds|]. auto. Qed.

(** The disk after growth is related to the one before. *)
Lemma grows_disk (R : Disk Bytes → Disk Bytes → Prop) s s' :
  (∀ d, R d d) → grows R s s' → R (disk disks s) (disk disks s').
Proof. intros Hr (ds & Hd & Hds). unfold disk at 2. rewrite Hd. destruct Hds; [apply Hr|done]. Qed.

Lemma grows_trans (R : Disk Bytes → Disk Bytes → Prop) s1 s2 s3 :
  (∀ d, R d d) → (∀ d1 d2 d3, R d1 d2 → R d2 d3 → R d1 d3) → grows R s1 s2 → grows R s2 s3 → grows R s1 s3.
Proof.
  intros Hr Ht H12 H23. pose proof (grows_disk R s1 s2 Hr H12) as Hd.
  destruct H12 as (ds1 & H1 & Hds1), H23 as (ds2 & H2 & Hds2). exists (ds2 ++ ds1).
  split; [by rewrite H2, H1, app_assoc|]. apply Forall_app. split; [|done].
  eapply Forall_impl; [exact Hds2|]. intros d. by apply Ht.
Qed.

(** [m] leaves the visible reports alone; [π] finds the environment. *)
Definition steady {X A : Type} (π : X → S) (m : attempt X A) : Prop :=
  ∀ x, grows (same_visible root) (π x) (π (m x).2).

Lemma steady_keeps {X A : Type} (π : X → S) (m : attempt X A) :
  (∀ x, disks (π (m x).2) = disks (π x)) → steady π m.
Proof. intros H x. by apply grows_keeps. Qed.

Lemma steady_ret {X A : Type} (π : X → S) (a : A) : steady π (mret a).
Proof. by apply steady_keeps. Qed.
Lemma steady_fail {X A : Type} (π : X → S) error : steady π (fail (A := A) error).
Proof. by apply steady_keeps. Qed.
Lemma steady_of_result {X A : Type} (π : X → S) (r : result string A) : steady π (of_result r).
Proof. by apply steady_keeps. Qed.
Lemma steady_get {X A : Type} (π : X → S) (f : X → A) : steady π (get f).
Proof. by apply steady_keeps. Qed.

Lemma steady_trans {X : Type} (π : X → S) x1 x2 x3 :
  grows (same_visible root) (π x1) (π x2) → grows (same_visible root) (π x2) (π x3) →
  grows (same_visible root) (π x1) (π x3).
Proof. apply grows_trans; unfold same_visible; [done|]. intros d1 d2 d3 H12 H23 q Hq. by rewrite H23, H12. Qed.

Lemma steady_bind {X A B : Type} (π : X → S) (m : attempt X A) (f : A → attempt X B) :
  steady π m → (∀ a, steady π (f a)) → steady π (m ≫= f).
Proof.
  intros Hm Hf x. specialize (Hm x). unfold mbind, attempt_bind. destruct (m x) as [[a|error] x']; [|done].
  by eapply steady_trans; [exact Hm|apply Hf].
Qed.

Lemma steady_catch {X A : Type} (π : X → S) (m : attempt X A) : steady π m → steady π (catch m).
Proof. intros Hm x. specialize (Hm x). unfold catch. by destruct (m x). Qed.
Lemma steady_ignore {X A : Type} (π : X → S) (m : attempt X A) : steady π m → steady π (ignore m).
Proof. intros Hm. apply steady_bind; [by apply steady_catch|]. intros. apply steady_ret. Qed.
Lemma steady_context {X A : Type} (π : X → S) message (m : attempt X A) : steady π m → steady π (context message m).
Proof. intros Hm x. specialize (Hm x). unfold context. by destruct (m x). Qed.
Lemma steady_on_fs {A : Type} (m : attempt S A) : steady (λ s, s) m → steady fs (on_fs m).
Proof. intros Hm w. specialize (Hm (fs w)). unfold on_fs. by destruct (m (fs w)). Qed.
Lemma steady_update_core f : steady fs (update_core (S := S) f).
Proof. by apply steady_keeps. Qed.
Lemma steady_pure {A : Type} (f : S → A * S) : (∀ s, disks (f s).2 = disks s) → steady (λ s, s) (pure f).
Proof. intros H. apply steady_keeps. intros s. unfold pure. specialize (H s). by destruct (f s). Qed.

(** ** The primitives *)

Lemma steady_instant_now : steady (λ s, s) (pure instant_now).
Proof. apply steady_pure, instant_now_keeps. Qed.
Lemma steady_new_v4 : steady (λ s, s) (pure new_v4).
Proof. apply steady_pure, new_v4_keeps. Qed.
Lemma steady_local_now : steady (λ s, s) (pure local_now).
Proof. apply steady_pure, local_now_keeps. Qed.
Lemma steady_path_exists p : steady (λ s, s) (pure (path_exists p)).
Proof. apply steady_pure, path_exists_keeps. Qed.
Lemma steady_flush p : steady (λ s, s) (flush p).
Proof. apply steady_keeps, flush_keeps. Qed.
Lemma steady_sync_all p : steady (λ s, s) (sync_all p).
Proof. apply steady_keeps, sync_all_keeps. Qed.
Lemma steady_sync_directory p : steady (λ s, s) (sync_directory p).
Proof. apply steady_keeps, sync_directory_keeps. Qed.
Lemma steady_flock p : steady (λ s, s) (flock_directory p).
Proof. apply steady_keeps, flock_keeps. Qed.
Lemma steady_file_type p : steady (λ s, s) (file_type p).
Proof. apply steady_keeps, file_type_keeps. Qed.
Lemma steady_age n p : steady (λ s, s) (age_exceeds n p).
Proof. apply steady_keeps. apply age_keeps. Qed.
Lemma steady_read_dir_optional p : steady (λ s, s) (read_dir_optional p).
Proof. apply steady_keeps. intros s. apply read_dir_reads. Qed.
Lemma steady_open_optional p n : steady (λ s, s) (open_private_file_optional (p ++ [n])).
Proof. apply steady_keeps. intros s. apply open_reads. Qed.
Lemma steady_read_dir p : steady (λ s, s) (read_dir p).
Proof.
  apply steady_bind; [apply steady_read_dir_optional|]. intros [entries|]; [apply steady_ret|apply steady_fail].
Qed.
Lemma steady_open p n : steady (λ s, s) (open_private_file (p ++ [n])).
Proof. apply steady_bind; [apply steady_open_optional|]. intros [f|]; [apply steady_ret|apply steady_fail]. Qed.

Lemma differs_same_visible (P : PathBuf → Prop) (d0 d : Disk Bytes) :
  (∀ q, P q → ¬ visible root q) → differs_at P d0 d → same_visible root d0 d.
Proof. intros HP Hd q Hq. apply Hd. intros HPq. by apply (HP q). Qed.

Lemma steady_differs {A : Type} (P : PathBuf → Prop) (m : attempt S A) :
  (∀ q, P q → ¬ visible root q) → (∀ s, grows (differs_at P) s (m s).2) → steady (λ s, s) m.
Proof. intros HP Hm s. eapply grows_weaken; [|apply Hm]. intros d0 d. by apply differs_same_visible. Qed.

Lemma steady_create_file p n : ¬ visible root p → steady (λ s, s) (create_private_file (p ++ [n])).
Proof. intros Hp. eapply steady_differs; [|apply create_private_file_grows]. by intros q ->. Qed.
Lemma steady_write_all p n b : ¬ visible root p → steady (λ s, s) (write_all (p ++ [n]) b).
Proof. intros Hp. eapply steady_differs; [|apply write_all_grows]. by intros q ->. Qed.
Lemma steady_remove_file p n : ¬ visible root p → steady (λ s, s) (remove_file (p ++ [n])).
Proof. intros Hp. eapply steady_differs; [|apply remove_file_grows]. by intros q ->. Qed.
Lemma steady_create_dir p : ¬ visible root p → steady (λ s, s) (create_private_directory p).
Proof. intros Hp. eapply steady_differs; [|apply create_private_directory_grows]. by intros q ->. Qed.
Lemma steady_remove_dir p : (∀ q, p `prefix_of` q → ¬ visible root q) → steady (λ s, s) (remove_dir p).
Proof. intros Hp. eapply steady_differs; [exact Hp|apply remove_dir_grows]. Qed.
Lemma steady_remove_dir_all p : (∀ q, p `prefix_of` q → ¬ visible root q) → steady (λ s, s) (remove_dir_all p).
Proof. intros Hp. eapply steady_differs; [exact Hp|apply remove_dir_all_grows]. Qed.
Lemma steady_ensure_dir p : (length p ≤ length root)%nat → steady (λ s, s) (ensure_private_directory p).
Proof.
  intros Hp s. eapply grows_weaken; [|apply ensure_private_directory_grows]. intros d0 d Hd q Hq.
  destruct (Hd q) as [?|(_ & _ & Hpre)]; [done|]. by apply (short_not_visible root p q Hp Hpre) in Hq.
Qed.

Lemma steady_before_deadline deadline : steady (λ s, s) (ensure_before_deadline deadline).
Proof.
  destruct deadline as [d|]; [|apply steady_ret]. apply steady_bind; [apply steady_instant_now|]. intros now.
  case_decide; [apply steady_fail|apply steady_ret].
Qed.

Lemma steady_ensure_absent p : steady (λ s, s) (ensure_absent p).
Proof.
  apply steady_keeps. intros s. unfold ensure_absent. pose proof (symlink_metadata_keeps p s) as H.
  by destruct (symlink_metadata p s).
Qed.

Lemma steady_ensure_real p : (length p ≤ length root)%nat → steady (λ s, s) (ensure_real_directory p).
Proof.
  intros Hp. unfold ensure_real_directory. apply steady_bind.
  { apply steady_keeps. intros s. pose proof (symlink_metadata_keeps p s) as H. by destruct (symlink_metadata p s). }
  intros existed. apply steady_bind; [by apply steady_ensure_dir|]. intros _.
  destruct (existed : bool); [apply steady_ret|apply steady_sync_directory].
Qed.

(** ** Validation *)

(** [m] only reads, and what it returns is true of the disk. *)
Definition reads {A : Type} (m : attempt S A) (Q : Disk Bytes → A → Prop) : Prop :=
  ∀ s, disks (m s).2 = disks s ∧ ∀ a, (m s).1 = Ok a → Q (disk disks s) a.

Lemma reads_bind {A B : Type} (m : attempt S A) (f : A → attempt S B) Q1 Q2 :
  reads m Q1 → (∀ a, reads (f a) (λ d b, Q1 d a → Q2 d b)) → reads (m ≫= f) Q2.
Proof.
  intros Hm Hf s. destruct (Hm s) as [Hk Hq]. unfold mbind, attempt_bind.
  destruct (m s) as [[a|error] s']; simpl in *; [|by split].
  destruct (Hf a s') as [Hk' Hq']. split; [congruence|]. intros b Hb.
  unfold disk in *. rewrite Hk in Hq'. auto.
Qed.

Lemma reads_ret {A : Type} (a : A) (Q : Disk Bytes → A → Prop) : (∀ d, Q d a) → reads (mret a) Q.
Proof. intros H s. split; [done|]. by intros ? [= <-]. Qed.
Lemma reads_fail {A : Type} (error : string) (Q : Disk Bytes → A → Prop) : reads (fail error) Q.
Proof. by intros s. Qed.
Lemma reads_of_result {A : Type} (r : result string A) : reads (of_result r) (λ _ a, r = Ok a).
Proof. intros s. split; [done|]. auto. Qed.
Lemma reads_error {A B : Type} message (error : string) (f : A → attempt S B) Q :
  reads (context message (of_result (Err error)) ≫= f) Q.
Proof. by intros s. Qed.
Lemma reads_impl {A : Type} (m : attempt S A) Q Q' : reads m Q → (∀ d a, Q d a → Q' d a) → reads m Q'.
Proof. intros Hm HQ s. destruct (Hm s). split; [done|]. auto. Qed.
Lemma reads_context {A : Type} message (m : attempt S A) Q : reads m Q → reads (context message m) Q.
Proof.
  intros Hm s. specialize (Hm s). unfold context. destruct (m s) as [[a|error] s']; simpl in *; [done|].
  split; [by apply Hm|done].
Qed.
Lemma reads_steady {A : Type} (m : attempt S A) Q : reads m Q → steady (λ s, s) m.
Proof. intros Hm. apply steady_keeps. intros s. apply Hm. Qed.

Lemma reads_before_deadline deadline : reads (ensure_before_deadline deadline) (λ _ _, True).
Proof.
  destruct deadline as [d|]; [|by apply reads_ret]. intros s. unfold ensure_before_deadline, mbind, attempt_bind, pure.
  pose proof (instant_now_keeps s) as H. destruct (instant_now s) as [now s']. simpl in *.
  case_decide; simpl; by split.
Qed.

(** The file [n] of the directory [p]. *)
Definition file_at (d : Disk Bytes) (p : PathBuf) (n : string) (b : Bytes) : Prop :=
  ∃ files, d !! p = Some files ∧ files !! n = Some b.

Lemma reads_open p n :
  reads (open_private_file (p ++ [n])) (λ d f, ∃ b, file_at d p n b ∧
    (∀ k len, metadata f = Ok (k, len) → len = byte_length b)).
Proof.
  intros s. unfold open_private_file, mbind, attempt_bind. destruct (open_reads p n s) as [Hk Hq].
  destruct (open_private_file_optional (p ++ [n]) s) as [[[f|]|error] s']; simpl in *; try by split.
  split; [done|]. intros f' [= <-]. destruct (Hq f eq_refl) as (files & b & Hp & Hn & Hm & _).
  exists b. split; [by exists files|done].
Qed.

Lemma reads_scan directory expected max_entries deadline inspected entries actual saw :
  reads (scan_directory directory expected max_entries deadline inspected entries actual saw)
    (λ d '(actual', saw'),
      (∀ error, Err error ∉ entries) ∧
      (∀ n utf8, Ok (n, utf8) ∈ entries → n ∈ dom actual' ∨ expected = true ∧ n = MANIFEST_FILE_NAME ∧ saw' = true) ∧
      (∀ n, n ∈ dom actual → n ∈ dom actual') ∧
      (∀ n, n ∈ dom actual' → n ∈ dom actual ∨ ∃ b, file_at d directory n b) ∧
      (saw = true → saw' = true)).
Proof.
  revert inspected actual saw. induction entries as [|[[name utf8]|error] entries IH]; intros inspected actual saw; cbn [scan_directory].
  - apply reads_ret. intros d. split_and!; try done; [by intros ? ?%elem_of_nil|by intros ? ? ?%elem_of_nil|auto].
  - eapply reads_bind; [apply reads_before_deadline|]. intros []. case_decide; [apply reads_fail|].
    eapply reads_bind; [apply reads_context, reads_of_result|]. intros [name' utf8'].
    destruct (negb utf8') eqn:Hutf; [apply reads_fail|].
    destruct (expected && bool_decide (name' = MANIFEST_FILE_NAME)) eqn:Hm.
    + apply andb_true_iff in Hm as [-> Hm%bool_decide_eq_true].
      eapply reads_bind; [apply reads_context, reads_open|]. intros file.
      eapply reads_impl; [apply IH|]. intros d [actual' saw'] (H1 & H2 & H3 & H4 & H5) _ Heq _.
      injection Heq as -> ->. split_and!; try done; [|intros n u|auto].
      * intros e [He|He]%elem_of_cons; [done|by apply (H1 e)].
      * intros [Hn|Hn]%elem_of_cons; [|by eapply H2]. injection Hn as -> ->. right. auto.
    + eapply reads_bind; [apply reads_context, reads_open|]. intros file.
      eapply reads_bind; [apply reads_context, reads_of_result|]. intros [k len].
      eapply reads_impl; [apply IH|]. intros d [actual' saw'] (H1 & H2 & H3 & H4 & H5) _ (b & Hb & _) Heq _.
      injection Heq as -> ->. split_and!; [|intros n u| | |done].
      * intros e [He|He]%elem_of_cons; [done|by apply (H1 e)].
      * intros [Hn|Hn]%elem_of_cons; [|by eapply H2]. injection Hn as -> ->. left. apply H3. set_solver.
      * intros n Hn. apply H3. set_solver.
      * intros n Hn. destruct (H4 n Hn) as [Hd|Hd]; [|by right]. rewrite dom_insert, elem_of_union, elem_of_singleton in Hd.
        destruct Hd as [->|Hd]; [right; by exists b|by left].
  - eapply reads_bind; [apply reads_before_deadline|]. intros []. case_decide; [apply reads_fail|].
    apply reads_error.
Qed.

Lemma reads_exact directory registered expected max_entries deadline :
  reads (validate_exact_directory_bounded directory registered expected max_entries deadline)
    (λ d _, ∃ files, d !! directory = Some files ∧ (∀ n, n ∈ dom registered → is_Some (files !! n)) ∧
      (∀ n, is_Some (files !! n) → n ∈ dom registered ∨ expected = true ∧ n = MANIFEST_FILE_NAME)).
Proof.
  unfold validate_exact_directory_bounded.
  eapply (reads_bind _ _ (λ d entries, ∃ files, d !! directory = Some files ∧
    (∀ n, is_Some (files !! n) → (∃ utf8, Ok (n, utf8) ∈ entries) ∨ ∃ error, Err error ∈ entries))).
  { apply reads_context. intros s. unfold read_dir, mbind, attempt_bind. destruct (read_dir_reads directory s) as [Hk Hq].
    destruct (read_dir_optional directory s) as [[[entries|]|error] s']; simpl in *; try by split.
    split; [done|]. intros ? [= <-]. by apply Hq. }
  intros entries. eapply reads_bind; [apply reads_scan|]. intros [actual saw].
  case_decide as Hdom; [apply reads_fail|]. destruct (expected && negb saw); [apply reads_fail|].
  apply reads_ret. intros d (H1 & H2 & _ & H4 & _) (files & Hf & Hlist). exists files. split; [done|].
  rewrite Hdom. split.
  - intros n Hn. destruct (H4 n Hn) as [He|(b & files' & Hf' & Hb)]; [by rewrite dom_empty in He; apply not_elem_of_empty in He|].
    rewrite Hf in Hf'. injection Hf' as <-. eauto.
  - intros n Hn. destruct (Hlist n Hn) as [[u Hu]|[e He]]; [|by apply H1 in He].
    destruct (H2 n u Hu) as [?|(? & ? & _)]; auto.
Qed.

Lemma reads_sizes directory l deadline :
  reads (validate_sizes directory l deadline)
    (λ d _, ∀ a, a ∈ l → ∃ b, file_at d directory (path a) b ∧ byte_length b = size a).
Proof.
  induction l as [|a l IH]; cbn [validate_sizes].
  { apply reads_ret. by intros d a ?%elem_of_nil. }
  eapply reads_bind; [apply reads_before_deadline|]. intros [].
  eapply reads_bind; [apply reads_context, reads_open|]. intros file.
  eapply reads_bind; [apply reads_context, reads_of_result|]. intros [k len].
  destruct k; try apply reads_fail. case_decide as Hlen; [apply reads_fail|].
  eapply reads_impl; [apply IH|]. intros d [] Hl Hm (b & Hb & Hmeta) _ a' [->|Ha]%elem_of_cons; [|auto].
  exists b. split; [done|]. rewrite <- (Hmeta _ _ Hm). done.
Qed.

(** A manifest is read as a whole. *)
Lemma read_manifest_reads p s :
  let '(r, s') := read_manifest_file (p ++ [MANIFEST_FILE_NAME]) s in
  disks s' = disks s ∧ ∀ b, r = Ok b → file_at (disk disks s) p MANIFEST_FILE_NAME b.
Proof.
  unfold read_manifest_file. destruct (open_reads p MANIFEST_FILE_NAME s) as [Hk Hq].
  destruct (open_private_file_optional _ s) as [[[f|]|error] s']; simpl in *; try by split.
  split; [done|]. destruct (Hq f eq_refl) as (files & b & Hp & Hn & Hm & Hr).
  destruct (metadata f) as [[k len]|error] eqn:Hmeta; cbn; [|done]. destruct k; try done.
  case_decide as Hlen; [done|]. destruct (read_to_end f) as [x|error] eqn:Hx; cbn; [|done].
  case_decide; [done|]. intros ? [= <-]. exists files. rewrite (Hm _ _ eq_refl) in Hlen.
  rewrite (Hr x eq_refl) by lia. done.
Qed.

Context {bytes_eq : EqDecision Bytes}.

Lemma reads_revalidate directory registered m expected max_entries deadline :
  reads (revalidate_prepared_report directory registered m expected max_entries deadline)
    (λ d _, ∃ files, d !! directory = Some files ∧ files !! MANIFEST_FILE_NAME = Some expected ∧
      (∀ n, is_Some (files !! n) ↔ n = MANIFEST_FILE_NAME ∨ n ∈ dom registered) ∧
      (∀ a, a ∈ manifest_artifacts m → ∃ b, files !! path a = Some b ∧ byte_length b = size a)).
Proof.
  unfold revalidate_prepared_report. eapply reads_bind; [apply reads_before_deadline|]. intros [].
  eapply (reads_bind _ _ (λ d b, file_at d directory MANIFEST_FILE_NAME b)).
  { intros s. pose proof (read_manifest_reads directory s) as H. destruct (read_manifest_file _ s) as [r s'].
    destruct H as [Hk Hr]. simpl. split; [done|]. destruct r as [b|error]; simpl; [|done]. intros ? [= <-]. by apply Hr. }
  intros current. case_decide as Hc; [apply reads_fail|]. subst current.
  eapply reads_bind; [apply reads_exact|]. intros []. eapply reads_impl; [apply reads_sizes|].
  intros d [] Hsizes (files & Hf & Hreg & Hall) (files' & Hf' & Hman) _. rewrite Hf in Hf'. injection Hf' as <-.
  exists files. split_and!; try done.
  - intros n. split.
    + intros Hn. destruct (Hall n Hn) as [?|[_ ?]]; auto.
    + intros [->|Hn]; [eauto|auto].
  - intros a Ha. destruct (Hsizes a Ha) as (b & (files' & Hf' & Hb) & Hlen). rewrite Hf in Hf'. injection Hf' as <-. eauto.
Qed.

(** ** Gentle computations *)

(** What every transaction keeps about its core: the manifest is never an
    artifact, and the destination is a root. *)
Definition core_ok (c : TransactionCore) : Prop :=
  core_artifacts c !! MANIFEST_FILE_NAME = None ∧ is_root root (destination_root c).

Definition core_step (c c' : TransactionCore) : Prop :=
  (core_ok c → core_ok c') ∧ core_committed_report c' = core_committed_report c.

(** A gentle computation is steady and keeps the core well formed and its
    committed report. *)
Definition gentle {A : Type} (m : attempt (World S) A) : Prop :=
  steady fs m ∧ ∀ w, core_step (core w) (core (m w).2).

Lemma core_step_refl c : core_step c c.
Proof. by split. Qed.
Lemma core_step_trans c1 c2 c3 : core_step c1 c2 → core_step c2 c3 → core_step c1 c3.
Proof. intros [H1 H2] [H3 H4]. split; [auto|congruence]. Qed.

Lemma gentle_ret {A : Type} (a : A) : gentle (mret a).
Proof. split; [apply steady_ret|]. intros w. apply core_step_refl. Qed.
Lemma gentle_fail {A : Type} (error : string) : gentle (fail (A := A) error).
Proof. split; [apply steady_fail|]. intros w. apply core_step_refl. Qed.
Lemma gentle_of_result {A : Type} (r : result string A) : gentle (of_result r).
Proof. split; [apply steady_of_result|]. intros w. apply core_step_refl. Qed.
Lemma gentle_get {A : Type} (f : World S → A) : gentle (get f).
Proof. split; [apply steady_get|]. intros w. apply core_step_refl. Qed.
Lemma gentle_bind {A B : Type} (m : attempt (World S) A) (f : A → attempt (World S) B) :
  gentle m → (∀ a, gentle (f a)) → gentle (m ≫= f).
Proof.
  intros [Hm Hc] Hf. split; [apply steady_bind; [done|]; intros a; apply Hf|]. intros w. specialize (Hc w).
  unfold mbind, attempt_bind. destruct (m w) as [[a|error] w']; [|done].
  eapply core_step_trans; [exact Hc|]. apply Hf.
Qed.
Lemma gentle_of_result_bind {A B : Type} (r : result string A) (f : A → attempt (World S) B) :
  (∀ a, r = Ok a → gentle (f a)) → gentle (of_result r ≫= f).
Proof. destruct r as [a|error]; intros H; [exact (H a eq_refl)|apply gentle_fail]. Qed.
Lemma gentle_catch {A : Type} (m : attempt (World S) A) : gentle m → gentle (catch m).
Proof. intros [Hm Hc]. split; [by apply steady_catch|]. intros w. specialize (Hc w). unfold catch. by destruct (m w). Qed.
Lemma gentle_ignore {A : Type} (m : attempt (World S) A) : gentle m → gentle (ignore m).
Proof. intros Hm. apply gentle_bind; [by apply gentle_catch|]. intros. apply gentle_ret. Qed.
Lemma gentle_context {A : Type} message (m : attempt (World S) A) : gentle m → gentle (context message m).
Proof.
  intros [Hm Hc]. split; [by apply steady_context|]. intros w. specialize (Hc w). unfold context. by destruct (m w).
Qed.
Lemma gentle_on_fs {A : Type} (m : attempt S A) : steady (λ s, s) m → gentle (on_fs m).
Proof.
  intros Hm. split; [by apply steady_on_fs|]. intros w. unfold on_fs. destruct (m (fs w)). apply core_step_refl.
Qed.
Lemma gentle_update_core f : (∀ c, core_step c (f c)) → gentle (update_core (S := S) f).
Proof. intros Hf. split; [apply steady_update_core|]. intros w. apply Hf. Qed.
Lemma gentle_insert name kind : name ≠ MANIFEST_FILE_NAME → gentle (insert_artifact name kind).
Proof.
  intros Hn. apply gentle_update_core. intros c. split; [|done]. intros [H1 H2]. split; [|done]. simpl.
  by rewrite lookup_insert_ne.
Qed.
Lemma gentle_warning w : gentle (update_core (push_warning w)).
Proof. by apply gentle_update_core. Qed.
Lemma gentle_with_operation {A : Type} (body : attempt (World S) A) : gentle body → gentle (with_operation body).
Proof.
  intros [Hs Hc]. split; intros w; unfold with_operation; case_decide; simpl.
  - specialize (Hs (mkWorld (fs w) (set_active 1 (core w)) (leases w))). by destruct (body _).
  - by apply grows_keeps.
  - specialize (Hc (mkWorld (fs w) (set_active 1 (core w)) (leases w))). by destruct (body _).
  - apply core_step_refl.
Qed.

Lemma validated_name name : validate_artifact_name name = Ok tt → name ≠ MANIFEST_FILE_NAME.
Proof.
  unfold validate_artifact_name. intros H ->. rewrite (bool_decide_true (_ = MANIFEST_FILE_NAME)) in H by done.
  by rewrite orb_true_r in H.
Qed.

Lemma artifact_name_in_validated p directory name :
  artifact_name_in p directory = Ok name → name ≠ MANIFEST_FILE_NAME ∧ p = directory ++ [name].
Proof.
  unfold artifact_name_in. case_decide as Hp; [done|]. unfold mbind, result_bind.
  destruct (file_name p) as [n|] eqn:Hn; [|done]. simpl. destruct (validate_artifact_name n) as [[]|] eqn:Hv; [|done].
  intros [= ->]. split; [by apply validated_name|]. apply parent_Some in Hp as [Hne ->].
  destruct (exists_last Hne) as (l & x & ->). unfold file_name in Hn. rewrite last_snoc in Hn.
  case_decide; [done|]. injection Hn as ->. by rewrite removelast_last.
Qed.

Lemma destination_policy_root d dest : destination_policy root d = Ok dest → is_root root d.
Proof.
  unfold destination_policy. case_decide as Hd; [by left|]. unfold mbind, result_bind.
  destruct (parent root) as [p|] eqn:Hp; [|done]. simpl. case_decide as Hpar; [done|]. intros _. right. eauto.
Qed.

Lemma destination_from_policy_root dest d : destination_from_policy root dest = Ok d → is_root root d.
Proof.
  destruct dest as [|directory]; simpl; [by intros [= <-]; left|]. unfold mbind, result_bind.
  destruct (validate_directory_component directory) as [[]|] eqn:Hv; [|done].
  destruct (parent root) as [p|] eqn:Hp; [|done]. simpl. intros [= <-]. right. exists p. split; [|done].
  destruct (decide (p = [])) as [->|Hne]; [|by apply parent_snoc].
  assert (directory ≠ "/"%string) as Hd by (by intros ->). simpl. repeat case_match; by simplify_eq.
Qed.
(** ** The operations of a transaction *)

Context (report : ReportContext) (staging_name : string).
Context (Hroot : output_root report = root).
Context (Hstaging : staging_dir report = root ++ [staging_name]) (Hhidden : starts_with_dot staging_name = true).

Lemma root_is_root : is_root root root.
Proof. by left. Qed.

Lemma below_staging q : staging_dir report `prefix_of` q → ¬ visible root q.
Proof. rewrite Hstaging. apply below_hidden_not_visible; [apply root_is_root|done]. Qed.

Lemma staging_not_visible : ¬ visible root (staging_dir report).
Proof. by apply below_staging. Qed.

(** Publishing inside the staging directory. *)
Lemma steady_publish_inside a b :
  steady (λ s, s) (publish_private_path (staging_dir report ++ [a]) (staging_dir report ++ [b])).
Proof.
  intros s. eapply grows_weaken; [|apply publish_grows]. intros d0 d [[Hd _] _].
  eapply differs_same_visible; [|exact Hd]. intros q. rewrite !parent_snoc by (rewrite Hstaging; by destruct root).
  intros [->|[->|[[= <-]|[[= <-]|Hh]]]].
  - apply below_staging. by exists [b].
  - apply below_staging. by exists [a].
  - apply staging_not_visible.
  - apply staging_not_visible.
  - intros Hv. by apply visible_not_hidden in Hv.
Qed.

Create HintDb steady.
#[local] Hint Resolve steady_instant_now steady_new_v4 steady_local_now steady_path_exists steady_flush steady_sync_all
  steady_sync_directory steady_flock steady_file_type steady_age steady_read_dir steady_open steady_create_file
  steady_write_all steady_remove_file steady_ensure_dir steady_before_deadline steady_ensure_absent steady_ensure_real
  steady_publish_inside staging_not_visible steady_read_dir_optional : steady.
#[local] Hint Extern 1 (le _ _) => lia : steady.

Ltac steady_step :=
  first
    [ apply steady_ret | apply steady_fail | apply steady_of_result | apply steady_get
    | solve [eauto with steady] | apply steady_bind; [|intros ?] | apply steady_catch | apply steady_ignore | apply steady_context
    | case_match | case_decide ].
Ltac steady := repeat steady_step.

Ltac gentle_step :=
  first
    [ apply gentle_ret | apply gentle_fail | apply gentle_get | apply gentle_warning
    | apply gentle_of_result_bind; intros ? ? | apply gentle_of_result
    | apply gentle_bind; [|intros ?] | apply gentle_catch | apply gentle_ignore | apply gentle_context
    | apply gentle_on_fs; steady; fail | case_match | case_decide ].
Ltac gentle := repeat gentle_step.

Lemma steady_revalidate directory registered m expected max_entries deadline :
  steady (λ s, s) (revalidate_prepared_report directory registered m expected max_entries deadline).
Proof. eapply reads_steady, reads_revalidate. Qed.

Lemma begin_shared_steady : steady (λ s, s) (begin_shared report).
Proof.
  unfold begin_shared. rewrite Hroot. steady.
  - apply steady_create_dir, staging_not_visible.
  - apply steady_remove_dir, below_staging.
  - apply steady_remove_dir, below_staging.
Qed.

(** [write] only touches the directory of the file it is given. *)
Definition harmless (write : PathBuf → attempt S unit) : Prop :=
  ∀ p n, ¬ visible root p → steady (λ s, s) (write (p ++ [n])).

Lemma write_artifact_gentle name kind write : harmless write → gentle (write_artifact report name kind write).
Proof.
  intros Hw. apply gentle_with_operation. apply gentle_of_result_bind. intros [] Hv.
  pose proof (validated_name _ Hv) as Hn. cbv zeta. gentle; try (apply Hw, staging_not_visible). by apply gentle_insert.
Qed.

Lemma register_file_gentle p kind : gentle (register_file report p kind).
Proof.
  apply gentle_with_operation. apply gentle_of_result_bind. intros name Hn.
  destruct (artifact_name_in_validated _ _ _ Hn) as [Hname ->]. gentle. by apply gentle_insert.
Qed.

Lemma unregister_file_gentle p : gentle (unregister_file report p).
Proof.
  apply gentle_with_operation. gentle. apply gentle_update_core. intros c. split; [|done]. intros [H1 H2].
  split; [|done]. simpl. rewrite lookup_delete_None. auto.
Qed.

Lemma set_destination_root_gentle d : gentle (set_destination_root report d).
Proof.
  apply gentle_with_operation. apply gentle_of_result_bind. intros dest Hd. rewrite Hroot in Hd.
  apply gentle_update_core. intros c. split; [|done]. intros [H1 H2]. split; [done|]. by eapply destination_policy_root.
Qed.

Lemma release_lease_gentle : gentle release_publication_lease.
Proof.
  unfold release_publication_lease. split; intros w; destruct (publication_lease (core w)); simpl;
    solve [by apply grows_keeps|by split].
Qed.

Lemma drop_transaction_gentle : gentle (drop_transaction report).
Proof.
  unfold drop_transaction. apply gentle_bind; [apply release_lease_gentle|]. intros _.
  apply gentle_bind; [apply gentle_get|]. intros state. apply gentle_bind.
  { gentle; apply gentle_on_fs, steady_remove_dir_all, below_staging. }
  intros _. split; intros w; simpl; [apply grows_keeps, unlock_keeps|apply core_step_refl].
Qed.

(** ** Commit *)

Notation id := (context_report_id report).
Context (Hid : starts_with_dot id = false) (Hschema : manifest_schema_version report = MANIFEST_SCHEMA_VERSION).

(** The invariant of a transaction's world: every disk it went through shows
    only complete reports, and a committed report is still there. *)
Definition winv (w : World S) : Prop :=
  Forall (consistent root) (disks (fs w)) ∧ core_ok (core w) ∧
  ∀ c, core_committed_report (core w) = Some c →
    committed_report_id c = id ∧
    ∃ r, is_root root r ∧ report_dir c = r ++ [id] ∧ is_Some (disk disks (fs w) !! report_dir c).

Lemma disk_consistent s : Forall (consistent root) (disks s) → consistent root (disk disks s).
Proof.
  unfold disk. intros [|d0 l Hd0 _]; [|done]. intros r n files _ _ Hn. simpl in Hn. by rewrite lookup_empty in Hn.
Qed.

Lemma grows_consistent s s' :
  grows (same_visible root) s s' → Forall (consistent root) (disks s) → Forall (consistent root) (disks s').
Proof.
  intros (ds & -> & Hds) Hs. apply Forall_app. split; [|done]. eapply Forall_impl; [exact Hds|].
  intros d Hd. eapply same_visible_consistent; [exact Hd|]. by apply disk_consistent.
Qed.

Lemma gentle_winv {A : Type} (m : attempt (World S) A) w : gentle m → winv w → winv (m w).2.
Proof.
  intros [Hs Hc] (H1 & H2 & H3). specialize (Hs w). destruct (Hc w) as [Hok Hcom]. split_and!.
  - by eapply grows_consistent.
  - by apply Hok.
  - intros c. rewrite Hcom. intros Hc'. destruct (H3 c Hc') as (Hcid & r & Hr & Hdir & Hdisk). split; [done|]. exists r.
    split_and!; [done..|]. eapply grows_disk in Hs; [|by intros]. rewrite Hs; [done|]. rewrite Hdir. by exists r, id.
Qed.

Lemma yields_gentle {A : Type} (m : attempt (World S) A) : gentle m → yields winv m (λ _, winv).
Proof. intros Hm w Hw. by apply gentle_winv. Qed.

(** What a computation can return. *)
Definition returns {X A : Type} (m : attempt X A) (Q : A → Prop) : Prop := ∀ x a, (m x).1 = Ok a → Q a.

Lemma returns_bind {X A B : Type} (m : attempt X A) (f : A → attempt X B) Q1 Q2 :
  returns m Q1 → (∀ a, Q1 a → returns (f a) Q2) → returns (m ≫= f) Q2.
Proof.
  intros Hm Hf x b. specialize (Hm x). unfold mbind, attempt_bind. destruct (m x) as [[a|error] x']; [|done].
  apply Hf. by apply Hm.
Qed.
Lemma returns_any {X A : Type} (m : attempt X A) : returns m (λ _, True).
Proof. done. Qed.
Lemma returns_ret {X A : Type} (a : A) (Q : A → Prop) : Q a → returns (X := X) (mret a) Q.
Proof. intros H x ? [= <-]. done. Qed.

Definition total_size (l : list ManifestArtifact) : Z := foldr (λ a n, size a + n) 0 l.
Notation budget := (byte_budget (context_policy report)).

Lemma total_size_snoc l a : total_size (l ++ [a]) = total_size l + size a.
Proof. unfold total_size. induction l as [|b l IH]; simpl; lia. Qed.

Lemma measure_artifacts_returns l total measured :
  total = total_size measured → total ≤ Z.max 0 budget →
  returns (measure_artifacts report l total measured)
    (λ l', (path <$> l') = (path <$> measured) ++ l.*1 ∧ total_size l' ≤ Z.max 0 budget).
Proof.
  revert total measured. induction l as [|[name kind] l IH]; intros total measured Ht Hb; cbn [measure_artifacts].
  { apply returns_ret. rewrite app_nil_r. split; [done|lia]. }
  eapply returns_bind; [apply returns_any|]. intros file _.
  eapply returns_bind; [apply returns_any|]. intros [k len] _. case_decide; [done|]. cbv zeta. case_decide; [done|].
  eapply returns_bind; [apply returns_any|]. intros _ _. intros s l' Hl'.
  apply IH in Hl' as [Hp Hs]; [|rewrite total_size_snoc; simpl; lia|lia].
  split; [|done]. rewrite Hp, fmap_app. simpl. by rewrite <- app_assoc.
Qed.

(** What the manifest of a commit says. *)
Definition describes (registered : Registry) (m : ReportManifest J) : Prop :=
  schema_version m = MANIFEST_SCHEMA_VERSION ∧ manifest_report_id m = id ∧
  (path <$> manifest_artifacts m) = (btree_entries registered).*1 ∧
  total_size (manifest_artifacts m) ≤ Z.max 0 budget.

Lemma build_manifest_returns registered dest : returns (build_manifest report registered dest) (describes registered).
Proof.
  unfold build_manifest. eapply returns_bind; [apply returns_any|]. intros [] _.
  eapply returns_bind; [apply measure_artifacts_returns; [done|lia]|]. intros l [Hp Hs].
  eapply returns_bind; [apply returns_any|]. intros now _. eapply returns_bind; [apply returns_any|]. intros d _.
  by apply returns_ret.
Qed.

Lemma build_manifest_steady registered dest : steady (λ s, s) (build_manifest report registered dest).
Proof.
  unfold build_manifest. apply steady_bind; [eapply reads_steady, reads_exact|]. intros _.
  apply steady_bind; [|intros measured; steady]. generalize (btree_entries registered) 0 (@nil ManifestArtifact).
  induction l as [|[name kind] l IH]; intros z m; cbn [measure_artifacts]; steady.
Qed.

Lemma btree_entries_dom (registered : Registry) n : n ∈ (btree_entries registered).*1 ↔ n ∈ dom registered.
Proof.
  unfold btree_entries. rewrite stable_sort_perm, elem_of_dom. rewrite list_elem_of_fmap. split.
  - intros ([n' k] & -> & Hin). apply elem_of_map_to_list in Hin. by exists k.
  - intros [k Hk]. exists (n, k). split; [done|]. by apply elem_of_map_to_list.
Qed.

(** A staging directory that was validated against its manifest. *)
Definition validated (registered : Registry) (d : Disk Bytes) (dir : PathBuf) (m : ReportManifest J) : Prop :=
  ∃ files b, d !! dir = Some files ∧ files !! MANIFEST_FILE_NAME = Some b ∧ from_slice b = Ok m ∧
    (∀ n, is_Some (files !! n) ↔ n = MANIFEST_FILE_NAME ∨ n ∈ dom registered) ∧
    (∀ a, a ∈ manifest_artifacts m → ∃ c, files !! path a = Some c ∧ byte_length c = size a).

Lemma validated_complete registered d dir m (report_id : string) :
  registered !! MANIFEST_FILE_NAME = None → schema_version m = MANIFEST_SCHEMA_VERSION →
  manifest_report_id m = report_id → (∀ n, n ∈ path <$> manifest_artifacts m ↔ n ∈ dom registered) →
  validated registered d dir m → ∃ files, d !! dir = Some files ∧ complete report_id files.
Proof.
  intros Hno Hv Hi Hp (files & b & Hd & Hm & Hb & Hn & Ha). exists files. split; [done|]. exists b, m.
  split_and!; try done.
  - rewrite Hp. by apply not_elem_of_dom.
  - intros n. by rewrite Hn, Hp.
Qed.

(** A publication of a hidden directory changes no other visible report, and
    replaces none. *)
Lemma publishes_visible (r0 dest : PathBuf) (src report_id : string) (d0 d : Disk Bytes) (q : PathBuf) :
  is_root root r0 → starts_with_dot src = true → is_root root dest →
  publishes (r0 ++ [src]) (dest ++ [report_id]) d0 d → visible root q → q ≠ dest ++ [report_id] → d !! q = d0 !! q.
Proof.
  intros Hr0 Hsrc Hdest [[Hdiff _] _] Hv Hne. apply Hdiff. intros [?|[->|[Hp|[Hp|Hh]]]]; [done| | | |by apply visible_not_hidden in Hv].
  - by apply visible_not_hidden in Hv; destruct Hv; apply hidden_snoc.
  - apply parent_Some in Hp as [_ ->]. rewrite removelast_last in Hv. by apply root_not_visible in Hv.
  - apply parent_Some in Hp as [_ ->]. rewrite removelast_last in Hv. by apply root_not_visible in Hv.
Qed.

Lemma publishes_keeps (r0 dest : PathBuf) (src report_id : string) (d0 d : Disk Bytes) (q : PathBuf) :
  is_root root r0 → starts_with_dot src = true → is_root root dest →
  publishes (r0 ++ [src]) (dest ++ [report_id]) d0 d → visible root q → is_Some (d0 !! q) → is_Some (d !! q).
Proof.
  intros Hr0 Hsrc Hdest Hp Hv Hq. destruct (decide (q = dest ++ [report_id])) as [->|Hne].
  - destruct Hp as [_ [Hd|[Hd _]]]; [by rewrite Hd|]. by rewrite Hd in Hq; destruct Hq.
  - by rewrite (publishes_visible r0 dest src report_id d0 d q).
Qed.

(** The publication of a complete hidden directory keeps every disk consistent. *)
Lemma publish_consistent (r0 dest : PathBuf) (src report_id : string) (d0 d : Disk Bytes) (files : gmap string Bytes) :
  is_root root r0 → starts_with_dot src = true → is_root root dest →
  d0 !! (r0 ++ [src]) = Some files → complete report_id files → consistent root d0 →
  publishes (r0 ++ [src]) (dest ++ [report_id]) d0 d → consistent root d.
Proof.
  intros Hr0 Hsrc Hdest Hfiles Hcomplete Hd0 Hpub r n files' Hr Hn Hd.
  destruct (decide (r ++ [n] = dest ++ [report_id])) as [Heq|Hne].
  - apply app_inj_tail in Heq as [-> ->]. destruct Hpub as [_ [Hdst|[_ Hdst]]].
    + eapply Hd0; [exact Hr|exact Hn|]. exact (eq_trans (eq_sym Hdst) Hd).
    + pose proof (eq_trans (eq_sym Hd) (eq_trans Hdst Hfiles)) as Heq. by injection Heq as ->.
  - apply (Hd0 r n); [done..|]. rewrite <- Hd. symmetry.
    apply (publishes_visible r0 dest src report_id); try done. by exists r, n.
Qed.

(** What a successful commit establishes. *)
Definition published (registered : Registry) (dest : PathBuf) (d : Disk Bytes) : Prop :=
  d !! staging_dir report = None ∧
  ∃ files b m, d !! (dest ++ [id]) = Some files ∧ complete id files ∧
    (∀ n, is_Some (files !! n) ↔ n = MANIFEST_FILE_NAME ∨ n ∈ dom registered) ∧
    files !! MANIFEST_FILE_NAME = Some b ∧ from_slice b = Ok m ∧ total_size (manifest_artifacts m) ≤ Z.max 0 budget.

Lemma sync_or_warn_keeps p warnings w :
  let '(_, w') := sync_or_warn p warnings w in disks (fs w') = disks (fs w) ∧ core w' = core w.
Proof.
  unfold sync_or_warn, mbind, attempt_bind, catch, on_fs. pose proof (sync_directory_keeps p (fs w)) as H.
  destruct (sync_directory p (fs w)) as [r s']. by destruct r.
Qed.

Lemma prepare_gentle uuid json :
  gentle (prepare report (staging_dir report ++ [uuid]) json).
Proof. unfold prepare. gentle. by apply gentle_update_core. Qed.

Lemma record_publication_spec dest w :
  let '(r, w') := record_publication report dest w in
  disks (fs w') = disks (fs w) ∧ ∃ warnings,
    r = Ok (mkCommitted id (dest ++ [id]) ((dest ++ [id]) ++ [MANIFEST_FILE_NAME]) warnings) ∧
    core_state (core w') = Committed ∧
    core_committed_report (core w') = Some (mkCommitted id (dest ++ [id]) ((dest ++ [id]) ++ [MANIFEST_FILE_NAME]) warnings) ∧
    core_artifacts (core w') = core_artifacts (core w) ∧ destination_root (core w') = destination_root (core w).
Proof.
  unfold record_publication, mbind, attempt_bind, modify, get, update_core. simpl.
  match goal with |- context [sync_or_warn dest ?ws ?w1] => pose proof (sync_or_warn_keeps dest ws w1) as H1;
    destruct (sync_or_warn dest ws w1) as [r1 w2] eqn:E1 end.
  destruct H1 as [Hd1 Hc1]. simpl in Hd1, Hc1. destruct r1 as [ws1|error].
  2:{ unfold sync_or_warn, mbind, attempt_bind, catch in E1. by destruct (on_fs _ _) in E1. }
  destruct (decide (dest ≠ output_root report)); simpl.
  - pose proof (sync_or_warn_keeps (output_root report) ws1 w2) as H2.
    destruct (sync_or_warn (output_root report) ws1 w2) as [r2 w3] eqn:E2. destruct H2 as [Hd2 Hc2].
    destruct r2 as [ws2|error].
    2:{ unfold sync_or_warn, mbind, attempt_bind, catch in E2. by destruct (on_fs _ _) in E2. }
    simpl. rewrite Hd2, Hc2, Hc1, Hd1. split; [done|]. exists ws2. done.
  - rewrite Hd1, Hc1. split; [done|]. exists ws1. done.
Qed.

(** The publication itself, and what it needs. *)
Lemma publish_prepared_spec registered dest m json w :
  winv w → is_root root dest → registered !! MANIFEST_FILE_NAME = None → describes registered m →
  from_slice json = Ok m →
  let '(r, w') := publish_prepared report registered dest m json w in
  winv w' ∧ core w' = core w ∧ (r = Ok tt → published registered dest (disk disks (fs w'))).
Proof.
  intros Hw Hdest Hno (Hv & Hi & Hp & Hsize) Hjson. unfold publish_prepared, mbind, attempt_bind.
  assert (∀ {A} (m : attempt S A) w, steady (λ s, s) m → winv w → winv (on_fs m w).2 ∧ core (on_fs m w).2 = core w) as Hstep.
  { intros A m' w' Hm' Hw'. split; [by apply gentle_winv, Hw'; apply gentle_on_fs|]. unfold on_fs. by destruct (m' (fs w')). }
  destruct (Hstep _ (ensure_real_directory dest) w) as [Hw1 Hc1]; [apply steady_ensure_real; by rewrite (is_root_length root dest Hdest)|done|].
  destruct (on_fs (ensure_real_directory dest) w) as [[[]|error] w1]; simpl in Hw1, Hc1; [|by split_and!].
  destruct (Hstep _ (ensure_absent (dest ++ [id])) w1) as [Hw2 Hc2]; [apply steady_ensure_absent|done|].
  destruct (on_fs (ensure_absent _) w1) as [[[]|error] w2]; simpl in Hw2, Hc2; [|split_and!; [done|congruence|done]].
  pose proof (reads_revalidate (staging_dir report) registered m json MAX_RECOVERY_REPORT_ENTRIES None (fs w2)) as [Hk Hval].
  unfold on_fs at 1. destruct (revalidate_prepared_report _ _ _ _ _ _ (fs w2)) as [[[]|error] s3]; simpl in Hk, Hval.
  2:{ split_and!; [|simpl; congruence|done]. destruct Hw2 as (H1 & H2 & H3). unfold winv, disk in *. simpl. by rewrite Hk. }
  destruct (Hval tt eq_refl) as (files & Hfiles & Hman & Hall & Hsizes).
  assert (Hpaths : ∀ n, n ∈ path <$> manifest_artifacts m ↔ n ∈ dom registered).
  { intros n. by rewrite Hp, btree_entries_dom. }
  assert (complete id files) as Hcomplete.
  { exists json, m. split_and!; try done; [rewrite Hpaths; by apply not_elem_of_dom|]. intros n. by rewrite Hall, Hpaths. }
  destruct Hw2 as (H1 & H2 & H3). unfold on_fs, context. simpl.
  destruct (publish_grows (staging_dir report) (dest ++ [id]) s3) as [Hg Hok].
  destruct (publish_private_path _ _ s3) as [r s4]. simpl in *. unfold ArtifactSpec.grows in Hg.
  assert (disk disks s3 = disk disks (fs w2)) as Hdisk by (unfold disk; by rewrite Hk). rewrite Hdisk in Hg, Hok.
  pose proof (disk_consistent _ H1) as Hcons.
  split_and!.
  - destruct Hg as (ds & Hds & Hforall). split_and!; simpl.
    + rewrite Hds, Hk. apply Forall_app. split; [|done]. eapply Forall_impl; [exact Hforall|]. intros d Hd.
      rewrite Hstaging in Hd, Hfiles. eapply (publish_consistent root dest staging_name id); [apply root_is_root|..]; done.
    + done.
    + intros c Hc. destruct (H3 c Hc) as (Hcid & r0 & Hr0 & Hdir & Hsome). split; [done|]. exists r0. split_and!; [done..|].
      unfold disk. simpl. rewrite Hds, Hk. destruct Hforall as [|d ds Hd _]; [exact Hsome|]. simpl.
      rewrite Hstaging in Hd. eapply publishes_keeps; [apply root_is_root| | |exact Hd| |exact Hsome]; [done..|].
      rewrite Hdir. by exists r0, id.
  - simpl. congruence.
  - intros Hr. destruct r as [[]|]; [|done]. destruct (Hok eq_refl) as (_ & Hdst & Hsrc). split; [exact Hsrc|].
    exists files, json, m. split_and!; try done. exact (eq_trans Hdst Hfiles).
Qed.

Lemma gentle_step_winv {A : Type} (m : attempt (World S) A) w :
  gentle m → winv w → let '(_, w') := m w in winv w'.
Proof. intros Hm Hw. pose proof (gentle_winv m w Hm Hw). by destruct (m w). Qed.

(** The outcome of a commit of [w]. *)
Definition committed_as (w : World S) (c : CommittedReport) (w' : World S) : Prop :=
  core_state (core w) = Open ∧ active_operations (core w) = 0 ∧
  report_dir c = destination_root (core w) ++ [id] ∧ manifest_path c = report_dir c ++ [MANIFEST_FILE_NAME] ∧
  core_state (core w') = Committed ∧ core_committed_report (core w') = Some c ∧
  published (core_artifacts (core w)) (destination_root (core w)) (disk disks (fs w')).

Lemma commit_spec w :
  winv w → let '(r, w') := commit report w in winv w' ∧ ∀ c, r = Ok c → committed_as w c w'.
Proof.
  intros Hw. pose proof Hw as (_ & [Hno Hdest] & _). unfold commit, committed_as.
  unfold mbind at 1, attempt_bind at 1, begin_commit at 1. case_decide as Hopen; [|by split]. destruct Hopen as [Ho Ha].
  set (registered := core_artifacts (core w)) in *. set (dest := destination_root (core w)) in *.
  set (w1 := mkWorld (fs w) (set_state Preparing (core w)) (leases w)). assert (winv w1) as Hw1 by exact Hw. clearbody w1.
  unfold mbind at 1, attempt_bind at 1.
  pose proof (gentle_step_winv (on_fs (build_manifest report registered dest)) w1
    (gentle_on_fs _ (build_manifest_steady registered dest)) Hw1) as Hw2.
  pose proof (build_manifest_returns registered dest (fs w1)) as Hdesc.
  unfold on_fs at 1. unfold on_fs in Hw2. destruct (build_manifest report registered dest (fs w1)) as [[m|error] s2]; [|by split].
  specialize (Hdesc m eq_refl). set (w2 := mkWorld s2 (core w1) (leases w1)) in *. clearbody w2.
  unfold mbind at 1, attempt_bind at 1, context at 1, of_result at 1.
  destruct (to_vec_pretty m) as [json|error] eqn:Hjson; [|by split]. cbn [map_err]. apply codec in Hjson.
  case_decide; [by split|]. unfold mbind at 1, attempt_bind at 1.
  pose proof (gentle_step_winv (on_fs (pure new_v4)) w2 (gentle_on_fs _ steady_new_v4) Hw2) as Hw3.
  destruct (on_fs (pure new_v4) w2) as [[uuid|error] w3]; [|by split]. cbv zeta.
  set (temp := ("." +:+ MANIFEST_FILE_NAME +:+ "." +:+ uuid +:+ ".tmp")%string).
  unfold mbind at 1, attempt_bind at 1.
  match goal with |- context [on_fs ?m w3] => pose proof (gentle_step_winv (on_fs m) w3) as Hw4; destruct (on_fs m w3) as [[[]|error] w4] end;
    specialize (Hw4 ltac:(apply gentle_on_fs, steady_context, steady_create_file, staging_not_visible) Hw3); [|by split].
  unfold mbind at 1, attempt_bind at 1, catch at 1.
  pose proof (gentle_step_winv (prepare report (staging_dir report ++ [temp]) json) w4 (prepare_gentle temp json) Hw4) as Hw5.
  destruct (prepare _ _ _ w4) as [[[]|error] w5].
  2:{ pose proof (gentle_step_winv (_ ← ignore (on_fs (remove_file (staging_dir report ++ [temp]))); fail (A := CommittedReport) error) w5) as H6.
      specialize (H6 ltac:(gentle) Hw5). unfold mbind, attempt_bind in *.
      destruct (ignore _ w5) as [[[]|]]; by split. }
  unfold mbind at 1, attempt_bind at 1.
  pose proof (publish_prepared_spec registered dest m json w5 Hw5 Hdest Hno Hdesc Hjson) as H6.
  destruct (publish_prepared report registered dest m json w5) as [[[]|error] w6]; destruct H6 as (Hw6 & _ & Hpub); [|by split].
  specialize (Hpub eq_refl). pose proof (record_publication_spec dest w6) as H7.
  destruct (record_publication report dest w6) as [r w7].
  destruct H7 as (Hk & warnings & -> & Hstate & Hcom & Hart & Hdr).
  assert (disk disks (fs w7) = disk disks (fs w6)) as Hd by (unfold disk; by rewrite Hk).
  destruct Hw6 as (H1 & H2 & H3). split.
  - split_and!; [by rewrite Hk|by unfold core_ok in *; rewrite Hart, Hdr|].
    intros c. rewrite Hcom. intros [= <-]. split; [done|]. exists dest. simpl. split_and!; [done..|]. rewrite Hd.
    destruct Hpub as (_ & files & b & m' & Hf & _). by exists files.
  - intros c [= <-]. by rewrite Hd.
Qed.

(** ** Final diagnostics *)

(** Consistent disks, of which the last holds the report [q] with these files. *)
Definition keeps_report (q : PathBuf) (files : gmap string Bytes) (s : S) : Prop :=
  Forall (consistent root) (disks s) ∧ disk disks s !! q = Some files.

Lemma steady_keeps_report {A : Type} (m : attempt S A) q files s :
  steady (λ s, s) m → visible root q → keeps_report q files s → keeps_report q files (m s).2.
Proof.
  intros Hm Hq [H1 H2]. specialize (Hm s). split; [by eapply grows_consistent|].
  eapply grows_disk in Hm; [|by intros]. by rewrite Hm.
Qed.

Lemma load_manifest_reads p s :
  let '(r, s') := load_manifest_inner (p ++ [MANIFEST_FILE_NAME]) s in
  disks s' = disks s ∧ ∀ m, r = Ok m → ∃ b, file_at (disk disks s) p MANIFEST_FILE_NAME b ∧ from_slice b = Ok m.
Proof.
  unfold load_manifest_inner. pose proof (read_manifest_reads p s) as H. destruct (read_manifest_file _ s) as [r s'].
  destruct H as [Hk Hr]. split; [done|]. intros m Hm. destruct r as [b|[|]]; try done. exists b. split; [by apply Hr|].
  unfold mbind, result_bind in Hm. simpl in Hm. by destruct (from_slice b); simplify_eq/=.
Qed.

(** Replacing the manifest by one with diagnostics keeps a report complete. *)
Lemma complete_with_diagnostics (report_id : string) (files : gmap string Bytes) b b' m final :
  complete report_id files → files !! MANIFEST_FILE_NAME = Some b → from_slice b = Ok m →
  from_slice b' = Ok (with_final_diagnostics m final) → complete report_id (<[MANIFEST_FILE_NAME := b']> files).
Proof.
  intros (b0 & m0 & Hb0 & Hm0 & Hv & Hi & Hno & Hn & Ha) Hb Hm Hb'. rewrite Hb in Hb0. injection Hb0 as <-.
  rewrite Hm in Hm0. injection Hm0 as <-. exists b', (with_final_diagnostics m final).
  split_and!; [by rewrite lookup_insert_eq|done..| |].
  - intros n. destruct (decide (n = MANIFEST_FILE_NAME)) as [->|Hne].
    + rewrite lookup_insert_eq. split; [by left|eauto].
    + by rewrite lookup_insert_ne.
  - intros a Hin. destruct (Ha a Hin) as (c & Hc & Hlen). exists c. split; [|done]. rewrite lookup_insert_ne; [done|].
    intros Heq. apply Hno. rewrite Heq. by apply list_elem_of_fmap_2.
Qed.

(** Some files are still there, all disks consistent. *)
Definition still_there {A : Type} (q : PathBuf) (_ : result string A) (s : S) : Prop :=
  ∃ files, keeps_report q files s.

Lemma bind_steady {A B : Type} (m : attempt S A) (f : A → attempt S B) q files :
  steady (λ s, s) m → visible root q → (∀ a, yields (keeps_report q files) (f a) (still_there q)) →
  yields (keeps_report q files) (m ≫= f) (still_there q).
Proof.
  intros Hm Hq Hf. apply (yields_bind _ _ _ (λ _, keeps_report q files)); [|done].
  intros s Hs. pose proof (steady_keeps_report m q files s Hm Hq Hs). destruct (m s) as [[a|error] s']; simpl in *; [done|].
  by exists files.
Qed.

Lemma end_steady {A : Type} (m : attempt S A) q files :
  steady (λ s, s) m → visible root q → yields (keeps_report q files) m (still_there q).
Proof. intros Hm Hq s Hs. exists files. by apply steady_keeps_report. Qed.

Lemma bind_result {A B : Type} (r : result string A) message (f : A → attempt S B) q files :
  visible root q → (∀ a, r = Ok a → yields (keeps_report q files) (f a) (still_there q)) →
  yields (keeps_report q files) (context message (of_result r) ≫= f) (still_there q).
Proof.
  intros Hq Hf s Hs. unfold context, of_result, mbind, attempt_bind. destruct r as [a|error]; simpl; [by apply Hf|].
  by exists files.
Qed.

Lemma bind_of_result {A B : Type} (r : result string A) (f : A → attempt S B) q files :
  visible root q → (∀ a, r = Ok a → yields (keeps_report q files) (f a) (still_there q)) →
  yields (keeps_report q files) (of_result r ≫= f) (still_there q).
Proof.
  intros Hq Hf s Hs. unfold of_result, mbind, attempt_bind. destruct r as [a|error]; simpl; [by apply Hf|].
  by exists files.
Qed.

Lemma yields_still_there {A : Type} (m : attempt S A) q :
  steady (λ s, s) m → visible root q → yields (λ s, ∃ files, keeps_report q files s) m (still_there q).
Proof. intros Hm Hq s [files Hs]. exists files. by apply steady_keeps_report. Qed.

(** The atomic replacement of the manifest. *)
Lemma rename_manifest r0 temp (q : PathBuf) (report_id : string) files b m final bytes :
  is_root root r0 → starts_with_dot report_id = false → q = r0 ++ [report_id] →
  files !! MANIFEST_FILE_NAME = Some b → from_slice b = Ok m →
  from_slice bytes = Ok (with_final_diagnostics m final) →
  yields (λ s, keeps_report q files s ∧ file_at (disk disks s) r0 temp bytes)
    (rename (r0 ++ [temp]) (q ++ [MANIFEST_FILE_NAME])) (still_there q).
Proof.
  intros Hr0 Hdot Hq Hb Hm Hbytes s [[Hall Hfiles] (rfiles & Hrf & Htemp)].
  destruct (rename_grows r0 temp q MANIFEST_FILE_NAME s) as (ds & Hds & Hforall).
  assert (visible root q) as Hv by (rewrite Hq; by eexists _, _).
  assert (r0 ≠ q) as Hne by (intros <-; by apply root_not_visible in Hv).
  pose proof (disk_consistent _ Hall) as Hcons.
  assert (complete report_id files) as Hcomplete by (apply (Hcons r0); [done..|by rewrite <- Hq]).
  assert (Forall (λ d, consistent root d ∧ is_Some (d !! q)) ds) as Hd.
  { eapply Forall_impl; [exact Hforall|]. intros d [->|(files' & b' & Hf' & Hb' & Hdiff & Hins)]; [by split|].
    rewrite Hrf in Hf'. injection Hf' as <-. rewrite Htemp in Hb'. injection Hb' as <-.
    specialize (Hins Hne). rewrite Hfiles in Hins. simpl in Hins. split; [|eauto].
    intros r n f Hr Hn Hf. destruct (decide (r ++ [n] = q)) as [Heq|Hneq].
    - rewrite Heq in Hf. pose proof (eq_trans (eq_sym Hf) Hins) as E. injection E as ->. rewrite Hq in Heq.
      apply app_inj_tail in Heq as [_ ->]. by eapply complete_with_diagnostics.
    - apply (Hcons r n f Hr Hn). rewrite <- Hf. symmetry. apply Hdiff. intros [Hr'|?]; [|done].
      assert (visible root (r ++ [n])) as Hv' by (by exists r, n). rewrite Hr' in Hv'. by apply root_not_visible in Hv'. }
  unfold still_there, keeps_report. unfold disk. rewrite Hds. destruct Hd as [|d ds [Hd1 Hd2] Hd].
  - exists files. by split.
  - destruct Hd2 as [f Hf]. exists f. split; [|done]. apply Forall_app. split; [|done]. constructor; [done|].
    eapply Forall_impl; [exact Hd|]. by intros ? [? _].
Qed.

(** Writing, syncing and installing the new manifest. *)
Lemma replace_manifest r0 temp (q : PathBuf) (report_id : string) files b m final bytes :
  is_root root r0 → starts_with_dot report_id = false → q = r0 ++ [report_id] →
  files !! MANIFEST_FILE_NAME = Some b → from_slice b = Ok m →
  from_slice bytes = Ok (with_final_diagnostics m final) →
  yields (keeps_report q files)
    (_ ← context "cannot write final diagnostics manifest" (write_all (r0 ++ [temp]) bytes);
     _ ← context "cannot flush final diagnostics manifest" (flush (r0 ++ [temp]));
     _ ← context "cannot sync final diagnostics manifest" (sync_all (r0 ++ [temp]));
     _ ← context "cannot publish final diagnostics manifest" (rename (r0 ++ [temp]) (q ++ [MANIFEST_FILE_NAME]));
     _ ← sync_directory q;
     sync_directory r0) (still_there q).
Proof.
  intros Hr0 Hdot Hq Hb Hm Hbytes. assert (visible root q) as Hv by (rewrite Hq; by eexists _, _).
  assert (¬ visible root r0) as Hnv by (by apply root_not_visible).
  set (both := λ s, keeps_report q files s ∧ file_at (disk disks s) r0 temp bytes).
  assert (∀ message (m : attempt S unit), (∀ s, disks (m s).2 = disks s) →
    yields both (context message m) (λ r s, match r with Ok _ => both s | Err _ => still_there q r s end)) as Hkeep.
  { intros message m' Hm' s [[H1 H2] H3]. specialize (Hm' s). unfold context. destruct (m' s) as [[[]|error] s']; simpl in *.
    - split; [split; [by rewrite Hm'|unfold disk in *; by rewrite Hm']|unfold disk in *; by rewrite Hm'].
    - exists files. split; [by rewrite Hm'|unfold disk in *; by rewrite Hm']. }
  apply (yields_bind _ _ _ (λ _, both)).
  { intros s Hs. pose proof (steady_keeps_report _ _ _ s (steady_write_all r0 temp bytes Hnv) Hv Hs) as Hk.
    destruct (write_all_grows r0 temp bytes s) as [_ Hw]. unfold context.
    destruct (write_all (r0 ++ [temp]) bytes s) as [[[]|error] s']; simpl in *; [|by exists files].
    split; [done|]. by apply Hw. }
  intros []. apply (yields_bind _ _ _ (λ _, both)); [apply Hkeep, flush_keeps|]. intros [].
  apply (yields_bind _ _ _ (λ _, both)); [apply Hkeep, sync_all_keeps|]. intros [].
  apply (yields_bind _ _ _ (λ _ s, ∃ files, keeps_report q files s)).
  { intros s Hs. pose proof (rename_manifest r0 temp q report_id files b m final bytes Hr0 Hdot Hq Hb Hm Hbytes s Hs) as H.
    unfold context. destruct (rename _ _ s) as [[[]|error] s']; exact H. }
  intros []. apply (yields_bind _ _ _ (λ _ s, ∃ files, keeps_report q files s)).
  { intros s Hs. pose proof (yields_still_there _ q (steady_sync_directory q) Hv s Hs) as H.
    destruct (sync_directory q s) as [[[]|error] s']; exact H. }
  intros []. apply yields_still_there; [apply steady_sync_directory|done].
Qed.

Lemma persist_final_diagnostics_spec c final r0 files :
  is_root root r0 → starts_with_dot (committed_report_id c) = false → report_dir c = r0 ++ [committed_report_id c] →
  yields (keeps_report (report_dir c) files) (persist_final_diagnostics c final) (still_there (report_dir c)).
Proof.
  intros Hr0 Hdot Hdir. assert (visible root (report_dir c)) as Hv by (rewrite Hdir; by eexists _, _).
  assert (∀ error s, keeps_report (report_dir c) files s → still_there (A := unit) (report_dir c) (Err error) s) as Hfail.
  { intros error s Hs. by exists files. }
  unfold persist_final_diagnostics. case_decide as Hpath; [apply yields_fail; eauto|].
  apply bind_of_result; [done|]. intros name _. case_decide; [apply yields_fail; eauto|].
  apply (yields_bind _ _ _ (λ _, keeps_report (report_dir c) files)).
  { intros s [H1 H2]. pose proof (ensure_private_directory_grows (report_dir c) s) as (ds & Hd & Hds). unfold context.
    assert (keeps_report (report_dir c) files (ensure_private_directory (report_dir c) s).2) as Hk.
    { assert (grows (same_visible root) s (ensure_private_directory (report_dir c) s).2) as Hg.
      { exists ds. split; [done|]. eapply Forall_impl; [exact Hds|].
        intros d Hd' q Hq. destruct (Hd' q) as [?|(Hnone & _ & Hpre)]; [done|]. exfalso.
        assert (q = report_dir c) as ->; [|by pose proof (eq_trans (eq_sym H2) Hnone)].
        destruct Hpre as [l Hl]. apply visible_length in Hq, Hv. rewrite Hl, length_app in Hv.
        destruct l; [by rewrite app_nil_r in Hl|simpl in Hv; lia]. }
      split; [by eapply grows_consistent|]. eapply grows_disk in Hg; [|by intros]. by rewrite Hg. }
    destruct (ensure_private_directory (report_dir c) s) as [[[]|error] s']; [done|]. by exists files. }
  intros []. rewrite Hpath. apply (yields_bind _ _ _ (λ m s, keeps_report (report_dir c) files s ∧
    ∃ b, files !! MANIFEST_FILE_NAME = Some b ∧ from_slice b = Ok m)).
  { intros s Hs. pose proof (load_manifest_reads (report_dir c) s) as Hload.
    destruct (load_manifest_inner _ s) as [r s']. destruct Hload as [Hk Hload]. simpl.
    assert (keeps_report (report_dir c) files s') as Hs'.
    { destruct Hs as [H1 H2]. split; [by rewrite Hk|]. unfold disk in *. by rewrite Hk. }
    destruct r as [m|error]; [|by exists files]. split; [done|].
    destruct (Hload m eq_refl) as (b & (files1 & Hf1 & Hb) & Hm). destruct Hs as [_ Hf]. rewrite Hf in Hf1.
    injection Hf1 as <-. eauto. }
  intros m s (Hs & b & Hb & Hm). revert s Hs.
  match goal with |- ∀ s, keeps_report _ _ s → still_there _ (?m s).1 _ => change (yields (keeps_report (report_dir c) files) m (still_there (report_dir c))) end.
  case_decide; [apply yields_fail; eauto|]. apply bind_result; [done|]. intros bytes Hbytes. apply codec in Hbytes.
  case_decide; [apply yields_fail; eauto|]. apply bind_of_result; [done|]. intros rr Hrr.
  assert (rr = r0) as ->.
  { destruct (parent (report_dir c)) as [p|] eqn:Hpar; [|done]. injection Hrr as <-.
    apply parent_Some in Hpar as [_ ->]. by rewrite Hdir, removelast_last. }
  apply bind_steady; [apply steady_new_v4|done|]. intros uuid. cbv zeta.
  set (temp := ("." +:+ MANIFEST_FILE_NAME +:+ "." +:+ committed_report_id c +:+ "." +:+ uuid +:+ ".final.tmp")%string).
  assert (¬ visible root r0) as Hnv by (by apply root_not_visible).
  apply bind_steady; [by apply steady_context, steady_create_file|done|]. intros [].
  apply (yields_bind _ _ _ (λ _ s, ∃ files, keeps_report (report_dir c) files s)).
  - intros s' Hs. unfold catch. pose proof (replace_manifest r0 temp (report_dir c) _ files b m final bytes Hr0 Hdot Hdir
      Hb Hm Hbytes s' Hs) as Hreplaced. revert Hreplaced. match goal with |- context [mbind ?f ?a s'] => by destruct (mbind f a s') end.
  - intros [[]|error].
    + by apply yields_ret.
    + apply (yields_bind _ _ _ (λ _ s, ∃ files, keeps_report (report_dir c) files s)); [|intros; by apply yields_fail].
      intros s Hs. pose proof (yields_still_there (ignore (remove_file (r0 ++ [temp]))) (report_dir c)
        (steady_ignore _ _ (steady_remove_file r0 temp Hnv)) Hv s Hs) as H'.
      by destruct (ignore _ s) as [[]].
Qed.

End Steady.

End ArtifactSpec.
