(* ===== verification/ArtifactMemory.v ===== *)
(** * A file system in memory

    An instance of the private-file primitives that keeps every disk it goes
    through, with its laws. It fails where the operating system reports a missing
    or an existing path. The witnesses run on it. *)

From stdpp Require Import pretty.
From S2P Require Import Prelude.
From S2P Require Import Attempt.
From S2P Require Import PipelineTypes.
From S2P Require Import PluginRun.
From S2P Require Import Pipeline.
From S2P Require Import Artifact.
From S2P Require Import ArtifactSpec.

Module ArtifactMemory.
Export ArtifactSpec.

(** The content of a file: a manifest or other data. *)
Inductive Content : Type := ManifestContent (m : ReportManifest unit) | Data (s : string).

#[export] Instance ArtifactKind_eq_dec : EqDecision ArtifactKind.
Proof. solve_decision. Defined.
#[export] Instance ManifestArtifact_eq_dec : EqDecision ManifestArtifact.
Proof. solve_decision. Defined.
#[export] Instance ManifestDestination_eq_dec : EqDecision ManifestDestination.
Proof. solve_decision. Defined.
#[export] Instance ReportManifest_eq_dec : EqDecision (ReportManifest unit).
Proof. solve_decision. Defined.
#[export] Instance Content_eq_dec : EqDecision Content.
Proof. solve_decision. Defined.

Notation Files := (gmap string Content).
Notation MemDisk := (gmap PathBuf Files).

Record MemFs := mkMemFs { history : list MemDisk; counter : Z }.

Definition current (s : MemFs) : MemDisk := default ∅ (head (history s)).
Definition push (d : MemDisk) (s : MemFs) : MemFs := mkMemFs (d :: history s) (counter s).
Definition tick (s : MemFs) : MemFs := mkMemFs (history s) (counter s + 1).

Definition length_of (b : Content) : Z :=
  match b with ManifestContent m => 100 * (1 + Z.of_nat (length (manifest_artifacts m))) | Data s => Z.of_nat (String.length s) end.

(** The directory and the name of a path. *)
Definition dir_name (p : PathBuf) : PathBuf * string := (removelast p, default ""%string (last p)).

Definition file_of (p : PathBuf) (d : MemDisk) : option Content :=
  let '(dir, n) := dir_name p in files ← d !! dir; (files : Files) !! n.

(** The names of the directories inside a directory. *)
Definition children (p : PathBuf) (d : MemDisk) : list string :=
  (λ q, (dir_name q).2) <$> filter (λ q, parent q = Some p) (elements (dom d)).

(** Change the files of the directory of a path. *)
Definition update (p : PathBuf) (f : string → Files → option Files) : attempt MemFs unit := λ s,
  let '(dir, n) := dir_name p in
  match current s !! dir with
  | Some files => match f n files with
                  | Some files => (Ok tt, push (<[dir := files]> (current s)) s)
                  | None => (Err "Operation not permitted"%string, s)
                  end
  | None => (Err "No such file or directory"%string, s)
  end.

Definition mem_publish (src dst : PathBuf) : attempt MemFs unit := λ s,
  let d := current s in
  match d !! src, d !! dst with
  | _, Some _ => (Err "File exists"%string, s)
  | Some files, None => (Ok tt, push (delete src (<[dst := files]> d)) s)
  | None, None =>
      match parent src, parent dst with
      | Some ps, Some pd =>
          match d !! ps, d !! pd with
          | Some from, Some to =>
              match from !! (dir_name src).2, to !! (dir_name dst).2 with
              | Some b, None =>
                  let to := if decide (ps = pd) then delete (dir_name src).2 from else to in
                  (Ok tt, push (<[pd := <[(dir_name dst).2 := b]> to]> (<[ps := delete (dir_name src).2 from]> d)) s)
              | _, _ => (Err "Operation not permitted"%string, s)
              end
          | _, _ => (Err "No such file or directory"%string, s)
          end
      | _, _ => (Err "Invalid argument"%string, s)
      end
  end.

Definition mem_rename (src dst : PathBuf) : attempt MemFs unit := λ s,
  let d := current s in
  let '(ps, ns) := dir_name src in
  let '(pd, nd) := dir_name dst in
  match d !! ps, d !! pd with
  | Some from, Some to =>
      match from !! ns with
      | Some b =>
          let to := if decide (ps = pd) then delete ns from else to in
          (Ok tt, push (<[pd := <[nd := b]> to]> (<[ps := delete ns from]> d)) s)
      | None => (Err "No such file or directory"%string, s)
      end
  | _, _ => (Err "No such file or directory"%string, s)
  end.

Definition mem_remove_dir (empty_only : bool) (p : PathBuf) : attempt MemFs unit := λ s,
  match current s !! p with
  | Some files => if empty_only && negb (bool_decide (files = ∅)) then (Err "Directory not empty"%string, s)
                  else (Ok tt, push (delete p (current s)) s)
  | None => (Err "No such file or directory"%string, s)
  end.

#[export] Instance mem_clock : Clock MemFs := λ s, (counter s, tick s).

#[export] Instance mem_fs : PrivateFs MemFs Content unit := {|
  symlink_metadata p s :=
    (if decide (is_Some (current s !! p) ∨ is_Some (file_of p (current s))) then Exists else NotFound, s);
  path_exists p s := (bool_decide (is_Some (current s !! p) ∨ is_Some (file_of p (current s))), s);
  ensure_private_directory p s :=
    match current s !! p with Some _ => (Ok tt, s) | None => (Ok tt, push (<[p := ∅]> (current s)) s) end;
  create_private_directory p s :=
    match current s !! p with Some _ => (Err "File exists"%string, s) | None => (Ok tt, push (<[p := ∅]> (current s)) s) end;
  create_private_file p := update p (λ n files, match files !! n with Some _ => None | None => Some (<[n := Data ""]> files) end);
  open_private_file_optional p s :=
    (Ok ((λ b, mkOpenFile (Ok (RegularFile, length_of b)) (Ok b)) <$> file_of p (current s)), s);
  flock_directory p s := (Ok true, s);
  unlock_directory p s := s;
  read_dir_optional p s :=
    (Ok ((λ files : Files, (λ n, Ok (n, true)) <$> elements (dom files) ++ children p (current s)) <$> current s !! p), s);
  file_type p s :=
    (if decide (is_Some (current s !! p)) then Ok Directory
     else if decide (is_Some (file_of p (current s))) then Ok RegularFile else Err "No such file or directory"%string, s);
  age_exceeds _ _ s := (Ok true, s);
  write_all p b := update p (λ n files, Some (<[n := b]> files));
  flush _ s := (Ok tt, s);
  sync_all _ s := (Ok tt, s);
  sync_directory _ s := (Ok tt, s);
  publish_private_path := mem_publish;
  rename := mem_rename;
  remove_file p := update p (λ n files, match files !! n with Some _ => Some (delete n files) | None => None end);
  remove_dir := mem_remove_dir true;
  remove_dir_all := mem_remove_dir false;
  new_v4 s := (pretty (counter s), tick s);
  local_now s := ("now"%string, tick s);
  byte_length := length_of;
  to_vec_pretty m := Ok (ManifestContent m);
  from_slice b := match b with ManifestContent m => Ok m | Data _ => Err "expected a manifest"%string end
|}.

(** ** Its laws *)

#[local] Arguments dir_name : simpl never.
#[local] Arguments file_of : simpl never.
#[local] Arguments update : simpl never.

#[local] Notation grows := (grows history).

Lemma grows_same (R : MemDisk → MemDisk → Prop) s : grows R s s.
Proof. by exists []. Qed.

Lemma grows_push (R : MemDisk → MemDisk → Prop) d s : R (current s) d → grows R s (push d s).
Proof. intros H. exists [d]. split; [done|]. constructor; [exact H|constructor]. Qed.

Lemma dir_name_snoc p n : dir_name (p ++ [n]) = (p, n).
Proof. unfold dir_name. by rewrite removelast_last, last_snoc. Qed.

Lemma update_grows p n f s : grows (differs_at (λ q, q = p)) s (update (p ++ [n]) f s).2.
Proof.
  unfold update. rewrite dir_name_snoc. destruct (current s !! p); [|apply grows_same].
  destruct (f n _); [|apply grows_same]. apply grows_push. intros q Hq. by rewrite lookup_insert_ne by congruence.
Qed.

Lemma publish_law src dst s :
  grows (publishes src dst) s (mem_publish src dst s).2 ∧
  ((mem_publish src dst s).1 = Ok tt →
     disk history s !! dst = None ∧
     disk history (mem_publish src dst s).2 !! dst = disk history s !! src ∧
     disk history (mem_publish src dst s).2 !! src = None).
Proof.
  change (disk history s) with (current s). unfold mem_publish.
  destruct (current s !! src) as [files|] eqn:Hs, (current s !! dst) as [|] eqn:Hd; try (by split; [apply grows_same|]).
  - assert (src ≠ dst) by congruence. split; [|intros _; split_and!; [done| |]].
    + apply grows_push. split; [split|].
      * intros q Hq. rewrite lookup_delete_ne, lookup_insert_ne; [done|..]; intros ->; apply Hq; auto.
      * right. apply lookup_delete_eq.
      * right. split; [done|]. rewrite lookup_delete_ne by done. by rewrite lookup_insert_eq.
    + cbn. rewrite lookup_delete_ne by done. by rewrite lookup_insert_eq.
    + cbn. by rewrite lookup_delete_eq.
  - destruct (parent src) as [ps|] eqn:Hps, (parent dst) as [pd|] eqn:Hpd; try (by split; [apply grows_same|]).
    destruct (current s !! ps) as [from|] eqn:Hfrom, (current s !! pd) as [to|] eqn:Hto; try (by split; [apply grows_same|]).
    destruct (from !! (dir_name src).2) as [b|], (to !! (dir_name dst).2); try (by split; [apply grows_same|]).
    assert (ps ≠ src ∧ ps ≠ dst ∧ pd ≠ src ∧ pd ≠ dst) as (? & ? & ? & ?) by (split_and!; congruence).
    split; [|intros _; split_and!; [done|..]; cbn; by rewrite !lookup_insert_ne].
    apply grows_push. split; [split|].
    + intros q Hq. rewrite !lookup_insert_ne; [done|..]; intros ->; apply Hq; auto.
    + left. by rewrite !lookup_insert_ne.
    + left. by rewrite !lookup_insert_ne.
Qed.

Lemma rename_law ps ns pd nd s : grows (replaces ps ns pd nd) s (mem_rename (ps ++ [ns]) (pd ++ [nd]) s).2.
Proof.
  unfold mem_rename. rewrite !dir_name_snoc.
  destruct (current s !! ps) as [from|] eqn:Hfrom, (current s !! pd) as [to|] eqn:Hto; try apply grows_same.
  destruct (from !! ns) as [b|] eqn:Hb; [|apply grows_same]. apply grows_push. right. exists from, b. split_and!; try done.
  - intros q Hq. rewrite !lookup_insert_ne; [done|..]; intros ->; apply Hq; auto.
  - intros Hne. rewrite lookup_insert_eq, decide_False by done. by rewrite Hto.
Qed.

Lemma remove_dir_law empty_only (p : PathBuf) s : grows (differs_at (λ q, p `prefix_of` q)) s (mem_remove_dir empty_only p s).2.
Proof.
  unfold mem_remove_dir. destruct (current s !! p); [|apply grows_same]. case_match; [apply grows_same|].
  apply grows_push. intros q Hq. rewrite lookup_delete_ne; [done|]. by intros ->.
Qed.

Lemma open_law (p : PathBuf) n s f :
  Ok ((λ b, mkOpenFile (Ok (RegularFile, length_of b)) (Ok b)) <$> file_of (p ++ [n]) (current s)) = Ok (E := string) (Some f) →
  ∃ files b, current s !! p = Some files ∧ files !! n = Some b ∧
    (∀ k len, metadata f = Ok (k, len) → len = length_of b) ∧
    (∀ x, read_to_end f = Ok x → length_of b ≤ MAX_MANIFEST_BYTES → x = b).
Proof.
  unfold file_of. rewrite dir_name_snoc. cbn. destruct (current s !! p) as [files|]; simpl; [|done].
  destruct (files !! n) as [b|] eqn:Hn; simpl; [|done].
  intros [= <-]. exists files, b. split_and!; [done|done|by intros ? ? [= <-]|by intros ? [= <-]].
Qed.

#[export] Instance mem_laws : PrivateFsLaws MemFs Content unit history.
Proof.
  split; try done; cbn.
  - intros p n s. split; [done|]. intros f. apply open_law.
  - intros p s. change (list string) with PathBuf in p. split; [done|]. intros entries. destruct (current s !! p) as [files|] eqn:Hp; simpl; [|done].
    intros [= <-]. exists files. split; [exact Hp|]. intros n Hn. left. exists true. apply list_elem_of_fmap.
    exists n. split; [done|]. apply elem_of_app. left. by apply elem_of_elements, elem_of_dom.
  - intros p s. change (list string) with PathBuf in p. destruct (current s !! p) eqn:Hp; [apply grows_same|]. apply grows_push. intros q.
    destruct (decide (q = p)) as [->|Hne]; [right; by rewrite lookup_insert_eq|left; by rewrite lookup_insert_ne].
  - intros p s. change (list string) with PathBuf in p. destruct (current s !! p) eqn:Hp; [apply grows_same|]. apply grows_push. intros q Hq.
    by rewrite lookup_insert_ne by congruence.
  - intros. apply update_grows.
  - intros p n b s. change (list string) with PathBuf in p. split; [apply update_grows|]. unfold update. rewrite dir_name_snoc.
    destruct (current s !! p) as [files|]; [|done]. intros _. cbn. exists (<[n := b]> files). by rewrite !lookup_insert_eq.
  - intros. apply update_grows.
  - intros. apply remove_dir_law.
  - intros. apply remove_dir_law.
  - intros. apply publish_law.
  - intros. apply rename_law.
  - by intros m b [= <-].
Qed.

End ArtifactMemory.
