(* ===== verification/ArtifactRecovery.v ===== *)
(** * Recovery and scavenging keep the reports complete

    Recovery publishes prepared transactions that it validated, and the removal of
    stale ones touches nothing visible. *)

From S2P Require Import Prelude.
From S2P Require Import Attempt.
From S2P Require Import PipelineTypes.
From S2P Require Import PluginRun.
From S2P Require Import Pipeline.
From S2P Require Import Artifact.
From S2P Require Import ArtifactSpec.

Module ArtifactRecovery.
Export ArtifactSpec.

(** ** Names *)

Lemma staging_report_id_hidden name report_id : staging_report_id name = Some report_id → starts_with_dot name = true.
Proof.
  unfold staging_report_id, strip_prefix_str, mbind, option_bind.
  destruct (String.prefix STAGING_PREFIX name) eqn:H; [|done]. intros _. by apply (prefix_dot "report-").
Qed.

Lemma registry_of_spec l registered registered' :
  registry_of l registered = Ok registered' →
  (∀ n, n ∈ dom registered' ↔ n ∈ dom registered ∨ n ∈ path <$> l) ∧
  (registered !! MANIFEST_FILE_NAME = None → registered' !! MANIFEST_FILE_NAME = None).
Proof.
  revert registered. induction l as [|a l IH]; intros registered; cbn [registry_of].
  { intros [= ->]. split; [|done]. intros n. rewrite fmap_nil, elem_of_nil. tauto. }
  unfold mbind, result_bind. destruct (validate_artifact_name (path a)) as [[]|] eqn:Hv; [|done].
  destruct (registered !! path a); [done|]. intros H. apply IH in H as [Hd Hm]. split.
  - intros n. rewrite Hd, dom_insert, elem_of_union, elem_of_singleton, fmap_cons, elem_of_cons. tauto.
  - intros Hn. apply Hm. rewrite lookup_insert_ne; [done|]. by apply validated_name.
Qed.

Lemma manifest_registry_spec {J : Type} (m : ReportManifest J) registered :
  manifest_registry m = Ok registered →
  registered !! MANIFEST_FILE_NAME = None ∧ ∀ n, n ∈ path <$> manifest_artifacts m ↔ n ∈ dom registered.
Proof.
  intros H. apply registry_of_spec in H as [Hd Hm]. split; [by apply Hm|]. intros n. rewrite Hd, dom_empty_L. set_solver.
Qed.

(** ** Recovery and scavenging *)

Section Recovery.
Context {S Bytes J : Type} {clock : Clock S} {ops : PrivateFs S Bytes J} {disks : S → list (Disk Bytes)}.
Context {laws : PrivateFsLaws S Bytes J disks} {bytes_eq : EqDecision Bytes} (root : PathBuf).

(** Every disk so far shows only complete reports. *)
Definition clean (s : S) : Prop := Forall (consistent root) (disks s).

Definition safe {A : Type} (m : attempt S A) : Prop := yields clean m (λ _, clean).

Notation steady m := (steady (disks := disks) root (λ s : S, s) m).
Notation reads := (reads (disks := disks)).

Lemma safe_steady {A : Type} (m : attempt S A) : steady m → safe m.
Proof. intros Hm s Hs. by eapply grows_consistent. Qed.
Lemma safe_bind {A B : Type} (m : attempt S A) (f : A → attempt S B) : safe m → (∀ a, safe (f a)) → safe (m ≫= f).
Proof.
  intros Hm Hf. apply (yields_bind _ _ _ (λ _, clean)); [|done]. intros s Hs. specialize (Hm s Hs). by destruct (m s) as [[]].
Qed.
Lemma safe_of_result_bind {A B : Type} (r : result string A) (f : A → attempt S B) :
  (∀ a, r = Ok a → safe (f a)) → safe (of_result r ≫= f).
Proof. destruct r as [a|error]; intros H s Hs; [exact (H a eq_refl s Hs)|done]. Qed.
Lemma safe_context_bind {A B : Type} message (r : result string A) (f : A → attempt S B) :
  (∀ a, r = Ok a → safe (f a)) → safe (context message (of_result r) ≫= f).
Proof. destruct r as [a|error]; intros H s Hs; [exact (H a eq_refl s Hs)|done]. Qed.
Lemma safe_ret {A : Type} (a : A) : safe (mret a).
Proof. by apply safe_steady, steady_ret. Qed.
Lemma safe_fail {A : Type} (error : string) : safe (fail (A := A) error).
Proof. by apply safe_steady, steady_fail. Qed.
Lemma safe_catch {A : Type} (m : attempt S A) : safe m → safe (catch m).
Proof. intros Hm s Hs. specialize (Hm s Hs). unfold catch. by destruct (m s). Qed.

Lemma reads_then {A B : Type} (m : attempt S A) (f : A → attempt S B) Q :
  reads m Q → (∀ a, yields (λ s, clean s ∧ Q (disk disks s) a) (f a) (λ _, clean)) → safe (m ≫= f).
Proof.
  intros Hm Hf. apply (yields_bind _ _ _ (λ a s, clean s ∧ Q (disk disks s) a)); [|done].
  intros s Hs. destruct (Hm s) as [Hk Hq]. unfold clean, disk in *. destruct (m s) as [[a|error] s']; simpl in *; rewrite Hk; auto.
Qed.

Lemma with_lock_safe {A : Type} p (body : attempt S A) : safe body → safe (with_lock p body).
Proof.
  intros Hb. apply safe_bind; [by apply safe_steady, steady_flock|]. intros locked. case_match; [apply safe_ret|].
  intros s Hs. specialize (Hb s Hs). unfold clean in *. destruct (body s) as [r s']. simpl in *. by rewrite unlock_keeps.
Qed.

(** The publication of a validated staging directory. *)
Lemma publish_recovered name dest (report_id : string) :
  starts_with_dot name = true → is_root root dest →
  yields (λ s, clean s ∧ ∃ files, disk disks s !! (root ++ [name]) = Some files ∧ complete report_id files)
    (publish_private_path (root ++ [name]) (dest ++ [report_id])) (λ _, clean).
Proof.
  intros Hname Hdest s (Hs & files & Hf & Hc). destruct (publish_grows (root ++ [name]) (dest ++ [report_id]) s) as [Hg _].
  destruct Hg as (ds & Hd & Hds). unfold clean. rewrite Hd. apply Forall_app. split; [|done].
  eapply Forall_impl; [exact Hds|]. intros d Hpub.
  eapply (publish_consistent root root dest name report_id); try done; [apply root_is_root|by apply disk_consistent].
Qed.

Lemma read_manifest_steady {A : Type} p (f : result ManifestReadError Bytes → result string A) :
  steady (λ s, let '(r, s) := read_manifest_file (p ++ [MANIFEST_FILE_NAME]) s in (f r, s)).
Proof.
  apply steady_keeps. intros s. pose proof (read_manifest_reads p s) as H. destruct (read_manifest_file _ s).
  by destruct H.
Qed.

Lemma steady_sync_root dest : steady (if decide (dest ≠ root) then ignore (sync_directory root) else mret tt).
Proof. case_decide; [apply steady_ignore, steady_sync_directory|apply steady_ret]. Qed.

Lemma recover_locked_entry_safe name report_id deadline limits :
  starts_with_dot name = true → safe (recover_locked_entry root (root ++ [name]) report_id deadline limits).
Proof.
  intros Hname. unfold recover_locked_entry. apply safe_bind; [apply safe_steady, read_manifest_steady|].
  intros [manifest_bytes|]; [|apply safe_ret]. apply safe_context_bind. intros m Hm.
  case_decide as Hid; [apply safe_fail|]. case_decide; [apply safe_fail|].
  apply safe_of_result_bind. intros registered Hr. apply manifest_registry_spec in Hr as [Hno Hp].
  apply safe_bind; [eapply safe_steady, reads_steady, reads_revalidate|]. intros _.
  apply safe_of_result_bind. intros dest Hdest. apply destination_from_policy_root in Hdest.
  apply safe_bind; [apply safe_steady, steady_ensure_real; by rewrite (is_root_length root dest Hdest)|]. intros _. cbv zeta.
  apply safe_bind; [apply safe_steady, steady_ensure_absent|]. intros _.
  apply safe_bind; [apply safe_steady, steady_before_deadline|]. intros _.
  eapply reads_then; [apply reads_revalidate|]. intros [].
  apply (yields_bind _ _ _ (λ _, clean)).
  - intros s (Hs & files & Hf & Hman & Hall & Hsizes).
    pose proof (publish_recovered name dest report_id Hname Hdest s) as Hpub.
    unfold context. destruct (publish_private_path _ _ s) as [[[]|error] s']; simpl in *; apply Hpub; split; try done;
      exists files; (split; [done|]); exists manifest_bytes, m; split_and!; try done;
      first [by apply dec_stable; tauto|rewrite Hp; by apply not_elem_of_dom|intros n; by rewrite Hall, Hp].
  - intros _. apply safe_bind; [apply safe_steady, steady_ignore, steady_sync_directory|]. intros _.
    apply safe_bind; [apply safe_steady, steady_sync_root|]. intros _. apply safe_ret.
Qed.

Lemma recover_prepared_entry_safe name deadline limits : safe (recover_prepared_entry root name deadline limits).
Proof.
  unfold recover_prepared_entry. apply safe_bind; [apply safe_steady, steady_instant_now|]. intros now.
  case_decide; [apply safe_ret|]. cbv zeta.
  apply safe_bind; [apply safe_steady, steady_context, steady_file_type|]. intros [| |]; try apply safe_ret.
  destruct (staging_report_id name) as [report_id|] eqn:Hid; [|apply safe_ret].
  apply safe_bind; [|intros; apply safe_ret]. by eapply with_lock_safe, recover_locked_entry_safe, staging_report_id_hidden.
Qed.

Lemma recover_entries_safe entries inspected deadline limits recovered :
  safe (recover_entries root entries inspected deadline limits recovered).
Proof.
  revert inspected recovered. induction entries as [|[[name utf8]|error] entries IH]; intros inspected recovered;
    cbn [recover_entries]; [apply safe_ret| |]; (case_decide; [apply safe_ret|]);
    (apply safe_bind; [apply safe_steady, steady_instant_now|]); intros now; (case_decide; [apply safe_ret|]); [|apply IH].
  apply safe_bind; [apply safe_catch, recover_prepared_entry_safe|]. intros r. apply IH.
Qed.

Lemma scan_root_steady : steady (scan_root root).
Proof.
  intros s. unfold scan_root. pose proof (symlink_metadata_keeps root s) as H.
  destruct (symlink_metadata root s) as [[| |error] s']; simpl in *; [|by apply grows_keeps..].
  pose proof (steady_ensure_dir root root (le_n _) s') as Hg. unfold mbind, attempt_bind.
  assert (∀ s'', grows disks (same_visible root) s' s'' → grows disks (same_visible root) s s'') as Ht.
  { intros s'' (ds & Hd & Hds). exists ds. unfold disk in *. rewrite H in Hd, Hds. by split. }
  destruct (ensure_private_directory root s') as [[[]|error] s'']; by apply Ht.
Qed.

Lemma recover_prepared_reports_safe : safe (recover_prepared_reports root).
Proof.
  unfold recover_prepared_reports. apply safe_bind; [apply safe_steady, scan_root_steady|].
  intros [|]; [|apply safe_ret]. unfold recover_prepared_reports_with_limits.
  apply safe_bind; [apply safe_steady, steady_instant_now|]. intros started. cbv zeta.
  apply safe_bind; [apply safe_steady, steady_context, steady_read_dir_optional|]. intros [entries|]; [|apply safe_ret].
  apply recover_entries_safe.
Qed.

Lemma steady_bind_returns {A B : Type} (m : attempt S A) (f : A → attempt S B) (Q : A → Prop) :
  steady m → returns m Q → (∀ a, Q a → steady (f a)) → steady (m ≫= f).
Proof.
  intros Hm Hq Hf s. specialize (Hm s). specialize (Hq s). unfold mbind, attempt_bind.
  destruct (m s) as [[a|error] s']; [|done]. apply (steady_trans root (λ s, s) s s' _ Hm). by apply Hf, Hq.
Qed.

(** Removing a stale transaction touches nothing visible. *)
Lemma stale_children_steady entry children index paths : steady (stale_children entry children index paths).
Proof.
  revert index paths. induction children as [|child children IH]; intros index paths; cbn [stale_children]; [apply steady_ret|].
  case_decide; [apply steady_fail|]. apply steady_bind; [apply steady_context, steady_of_result|]. intros [name utf8].
  apply steady_bind; [apply steady_catch, steady_file_type|]. intros [[| |]|error]; solve [apply steady_fail|apply IH].
Qed.

Lemma stale_children_returns entry children index paths :
  Forall (λ p, ∃ n, p = entry ++ [n]) paths →
  returns (stale_children (S := S) entry children index paths) (Forall (λ p : PathBuf, ∃ n, p = entry ++ [n])).
Proof.
  revert index paths. induction children as [|child children IH]; intros index paths Hp; cbn [stale_children]; [by apply returns_ret|].
  case_decide; [done|]. eapply returns_bind; [apply returns_any|]. intros [name utf8] _.
  eapply returns_bind; [apply returns_any|]. intros [[| |]|error] _; try done.
  apply IH, Forall_app. split; [done|]. constructor; [eauto|constructor].
Qed.

Lemma remove_stale_entry_steady name : starts_with_dot name = true → steady (remove_stale_entry (root ++ [name])).
Proof.
  intros Hname. assert (∀ q, root ++ [name] `prefix_of` q → ¬ visible root q) as Hbelow.
  { intros q. apply below_hidden_not_visible; [apply root_is_root|done]. }
  assert (∀ paths, Forall (λ p : PathBuf, ∃ n, p = (root ++ [name]) ++ [n]) paths → steady (remove_files paths)) as Hremove.
  { induction 1 as [|p paths [n ->] _ IH]; cbn [remove_files]; [apply steady_ret|].
    apply steady_bind; [by apply steady_context, steady_remove_file, Hbelow|done]. }
  unfold remove_stale_entry. apply steady_bind; [apply steady_context, steady_read_dir|]. intros children.
  apply (steady_bind_returns _ _ (Forall (λ p : PathBuf, ∃ n, p = (root ++ [name]) ++ [n])));
    [apply stale_children_steady|by apply stale_children_returns|]. intros paths Hpaths.
  apply steady_bind; [by apply Hremove|]. intros _. by apply steady_context, steady_remove_dir.
Qed.

Lemma with_lock_steady {A : Type} p (body : attempt S A) : steady body → steady (with_lock p body).
Proof.
  intros Hb. apply steady_bind; [apply steady_flock|]. intros locked. destruct (negb locked); [apply steady_ret|].
  intros s. destruct (Hb s) as (ds & Hd & Hds). destruct (body s) as [r s']. exists ds. simpl in *. by rewrite unlock_keeps.
Qed.

Lemma scavenge_entries_steady max_age entries index removed : steady (scavenge_entries root max_age entries index removed).
Proof.
  revert index removed. induction entries as [|entry entries IH]; intros index removed; cbn [scavenge_entries]; [apply steady_ret|].
  case_decide; [apply steady_fail|]. apply steady_bind; [apply steady_context, steady_of_result|]. intros [name utf8].
  cbv zeta. destruct (staging_report_id name) as [report_id|] eqn:Hid; [|apply IH].
  apply steady_bind; [apply steady_catch, steady_file_type|]. intros [[| |]|error]; try apply IH.
  apply steady_bind; [apply steady_context, steady_age|]. intros [|]; [|apply IH].
  apply steady_bind; [|intros [|]; apply IH].
  by eapply with_lock_steady, remove_stale_entry_steady, staging_report_id_hidden.
Qed.

Lemma scavenge_steady max_age : steady (scavenge_stale_pending root max_age).
Proof.
  unfold scavenge_stale_pending. apply steady_bind; [apply scan_root_steady|]. intros [|]; [|apply steady_ret].
  apply steady_bind; [apply steady_context, steady_read_dir|]. intros entries.
  apply steady_bind; [apply scavenge_entries_steady|]. intros removed.
  apply steady_bind; [apply steady_sync_directory|]. intros _. apply steady_ret.
Qed.

Lemma scavenge_stale_pending_safe max_age : safe (scavenge_stale_pending root max_age).
Proof. apply safe_steady, scavenge_steady. Qed.

End Recovery.

End ArtifactRecovery.
