(* ===== verification/Retention.v ===== *)
(** * Retention of published reports (src/postprocessors/retention.rs)

    The post-processor that prunes the oldest reports of a publication directory:
    its lock, the removal of tombstones, the inventory, and the three passes over
    age, count and bytes. It uses the private-file primitives of [PrivateFs] and
    those of [RetentionOps]; error messages leave out paths and sizes. *)

From S2P Require Import Prelude.
From S2P Require Import Attempt.
From S2P Require Import PipelineTypes.
From S2P Require Import PluginRun.
From S2P Require Import Pipeline.
From S2P Require Import Artifact.

Module Retention.
Export Artifact.

Definition MAX_RETENTION_SCAN_ENTRIES : Z := 10000.
Definition MAX_REPORT_ENTRIES : Z := 10000.
Definition RETENTION_LOCK_FILE_NAME : string := ".retention.lock".

Inductive EntryType : Type := FileEntry | DirEntryType | SymlinkEntry | OtherEntry.

#[export] Instance EntryType_eq_dec : EqDecision EntryType.
Proof. solve_decision. Defined.

(** What the operating system tells of a node; the modification time is absent
    where the file system has none. *)
Record Stat := mkStat { stat_type : EntryType; stat_size : Z; stat_modified : option Z; device : Z; inode : Z }.

Inductive ReportEntryKind : Type := LegacyFile | CommittedDirectory.

#[export] Instance ReportEntryKind_eq_dec : EqDecision ReportEntryKind.
Proof. solve_decision. Defined.

Record ReportEntry := mkReportEntry {
  entry_path : PathBuf;
  entry_size : Z;
  modified : Z;
  entry_kind : ReportEntryKind;
  entry_device : Z;
  entry_inode : Z
}.

Record RetentionManager := mkRetention {
  max_count : Z;
  max_total_bytes : Z;
  max_age : Z;
  dir_override : option PathBuf
}.

Definition retention_new (max_count max_size_mb max_age_days : Z) : RetentionManager :=
  mkRetention max_count (Z.min U64_MAX (max_size_mb * (1024 * 1024)))
    (Z.min U64_MAX (max_age_days * 86400) * NANOS_PER_SEC) None.

(** [stat] follows no link; [stat_open] and [stat_directory] open a private file
    or directory first. [leased] is the registry of publication leases, [sent_dir]
    the default publication directory. *)
Class RetentionOps (S : Type) := {
  stat : PathBuf → attempt S Stat;
  stat_open : PathBuf → attempt S Stat;
  stat_directory : PathBuf → attempt S Stat;
  entry_type : PathBuf → attempt S EntryType;
  system_now : S → Z * S;
  leased : PathBuf → S → bool;
  sent_dir : attempt S PathBuf;
  process_try_lock : S → bool * S;
  process_unlock : S → S;
  open_retention_lock_file : PathBuf → attempt S bool;
  file_try_lock : PathBuf → attempt S bool;
  file_unlock : PathBuf → S → S;
  sleep_poll : S → S
}.

(** [str::split_once('.')] at the first dot. *)
Fixpoint split_once_dot (s : string) : option (string * string) :=
  match s with
  | EmptyString => None
  | String c s =>
      if decide (c = Ascii.ascii_of_nat 46) then Some (EmptyString, s)
      else '(a, b) ← split_once_dot s; Some (String c a, b)
  end.

Definition is_retention_tombstone_name (name : string) : bool :=
  match (v ← strip_prefix_str ".retention-" name; strip_suffix_str ".deleting" v) with
  | None => false
  | Some value =>
      match split_once_dot value with
      | None => false
      | Some (report_id, nonce) =>
          negb (bool_decide (is_Some (split_once_dot nonce))) && is_report_id report_id && is_report_id nonce
      end
  end.

(** The name check of retention, which also refuses special components. *)
Definition validate_manifest_name (name : string) : result string unit :=
  let cs := components name in
  if bool_decide (name = ""%string) || bool_decide (name = MANIFEST_FILE_NAME) || starts_with_dot name
     || negb (bool_decide (length cs = 1%nat))
     || match cs with c :: _ => bool_decide (c = "/" ∨ c = "." ∨ c = "..")%string | [] => true end
  then Err ("invalid manifest artifact name: " +:+ name)%string else Ok tt.

Fixpoint sizes_of (artifacts : list ManifestArtifact) (expected : gmap string Z) : result string (gmap string Z) :=
  match artifacts with
  | [] => Ok expected
  | a :: artifacts =>
      _ ← validate_manifest_name (path a);
      match expected !! path a with
      | Some _ => Err "manifest contains a duplicate artifact"%string
      | None => sizes_of artifacts (<[path a := size a]> expected)
      end
  end.

(** [now.duration_since(modified).unwrap_or(ZERO)]. *)
Definition age_of (now : Z) (e : ReportEntry) : Z := Z.max 0 (now - modified e).

Definition modified_or_epoch (s : Stat) : Z := default 0 (stat_modified s).

Section Manager.
Context {S Bytes J : Type} {clock : Clock S} {ops : PrivateFs S Bytes J} {rops : RetentionOps S}.
Context {Txn Ctx : Type} (context : PluginContext Txn Ctx) (cells : Cells).

Definition check : attempt S unit := checkpoint context cells.

Definition validate_retention_root (dir : PathBuf) : attempt S unit :=
  m ← Artifact.context "cannot inspect retention root" (stat dir);
  match stat_type m with
  | DirEntryType => Artifact.context "retention root is not private" (ensure_private_directory dir)
  | _ => fail "retention root is not a real directory"
  end.

(** ** The lock *)

Fixpoint lock_process (fuel : nat) : attempt S unit :=
  match fuel with
  | O => fail "still waiting for the retention lock"
  | Datatypes.S fuel =>
      _ ← check;
      locked ← pure process_try_lock;
      if (locked : bool) then mret tt else _ ← modify sleep_poll; lock_process fuel
  end.

Fixpoint lock_file (fuel : nat) (p : PathBuf) : attempt S unit :=
  match fuel with
  | O => fail "still waiting for the retention lock"
  | Datatypes.S fuel =>
      _ ← check;
      locked ← Artifact.context "cannot acquire retention lock" (file_try_lock p);
      if (locked : bool) then mret tt else _ ← modify sleep_poll; lock_file fuel p
  end.

(** [m], then the drop of a guard. *)
Definition ensuring {A : Type} (release : S → S) (m : attempt S A) : attempt S A :=
  λ s, let '(r, s) := m s in (r, release s).

(** [acquire_retention_lock] around [body]; both locks go when it returns. The
    source polls until the deadline, the model for [fuel] rounds. *)
Definition with_retention_lock {A : Type} (fuel : nat) (dir : PathBuf) (body : attempt S A) : attempt S A :=
  let lock_path := dir ++ [RETENTION_LOCK_FILE_NAME] in
  _ ← lock_process fuel;
  ensuring process_unlock (
    created ← open_retention_lock_file lock_path;
    _ ← (if (created : bool) then Artifact.context "cannot sync retention root" (sync_directory dir) else mret tt);
    _ ← lock_file fuel lock_path;
    ensuring (file_unlock lock_path) body).

(** ** Tombstones *)

Fixpoint remove_tombstone_entries (tombstone : PathBuf) (entries : list (result string DirEntry)) (inspected : Z)
    : attempt S unit :=
  match entries with
  | [] => mret tt
  | entry :: entries =>
      _ ← check;
      if decide (MAX_REPORT_ENTRIES ≤ inspected) then fail "retention tombstone contains too many entries" else
      '(name, _) ← Artifact.context "cannot read tombstone entry" (of_result entry);
      kind ← Artifact.context "cannot inspect tombstone entry" (entry_type (tombstone ++ [name]));
      if decide (kind = DirEntryType) then fail "retention tombstone contains an unexpected directory" else
      _ ← Artifact.context "cannot remove stale tombstone entry" (remove_file (tombstone ++ [name]));
      remove_tombstone_entries tombstone entries (inspected + 1)
  end.

Definition remove_stale_tombstone (tombstone : PathBuf) : attempt S unit :=
  entries ← Artifact.context "cannot enumerate stale retention tombstone" (read_dir tombstone);
  _ ← remove_tombstone_entries tombstone entries 0;
  _ ← check;
  Artifact.context "cannot remove stale retention tombstone" (remove_dir tombstone).

Fixpoint cleanup_entries (dir : PathBuf) (entries : list (result string DirEntry)) (inspected : Z) (removed_any : bool)
    : attempt S bool :=
  match entries with
  | [] => mret removed_any
  | entry :: entries =>
      _ ← check;
      if decide (MAX_RETENTION_SCAN_ENTRIES ≤ inspected) then fail "retention tombstone scan exceeds the bounded limit" else
      '(name, utf8) ← Artifact.context "cannot read retention tombstone" (of_result entry);
      if negb (utf8 && is_retention_tombstone_name name) then cleanup_entries dir entries (inspected + 1) removed_any else
      kind ← Artifact.context "cannot inspect retention tombstone" (entry_type (dir ++ [name]));
      if decide (kind ≠ DirEntryType) then cleanup_entries dir entries (inspected + 1) removed_any else
      _ ← remove_stale_tombstone (dir ++ [name]);
      cleanup_entries dir entries (inspected + 1) true
  end.

Definition cleanup_retention_tombstones (dir : PathBuf) : attempt S unit :=
  entries ← Artifact.context "cannot scan retention tombstones" (read_dir dir);
  removed_any ← cleanup_entries dir entries 0 false;
  if (removed_any : bool) then sync_directory dir else mret tt.

(** ** Inventory *)

Definition read_manifest_no_follow (p : PathBuf) : attempt S Bytes :=
  f ← Artifact.context "cannot safely open manifest" (open_private_file p);
  '(kind, len) ← Artifact.context "cannot inspect manifest" (of_result (metadata f));
  match kind with
  | RegularFile =>
      if decide (MAX_MANIFEST_BYTES < len) then fail "manifest exceeds size limit" else
      bytes ← Artifact.context "cannot read manifest" (of_result (read_to_end f));
      if decide (MAX_MANIFEST_BYTES < byte_length bytes) then fail "manifest grew beyond its size limit while being read"
      else mret bytes
  | _ => fail "manifest is not a regular file"
  end.

Definition manifest_artifact_sizes (report_dir : PathBuf) (report_name : string) : attempt S (gmap string Z) :=
  bytes ← read_manifest_no_follow (report_dir ++ [MANIFEST_FILE_NAME]);
  m ← Artifact.context "invalid report manifest" (of_result (from_slice bytes));
  if decide (schema_version m ≠ MANIFEST_SCHEMA_VERSION) then fail "unsupported manifest schema version" else
  if decide (manifest_report_id m ≠ report_name) then fail "manifest report id does not match its directory" else
  of_result (sizes_of (manifest_artifacts m) ∅).

(** The scan of [inspect_committed_report]: what is still expected, the total and
    whether the manifest was seen. *)
Fixpoint inspect_entries (report_dir : PathBuf) (entries : list (result string DirEntry)) (inspected : Z)
    (expected : gmap string Z) (total_size : Z) (saw_manifest : bool) : attempt S (gmap string Z * Z * bool) :=
  match entries with
  | [] => mret (expected, total_size, saw_manifest)
  | entry :: entries =>
      _ ← check;
      if decide (MAX_REPORT_ENTRIES ≤ inspected) then fail "report contains too many entries" else
      '(name, utf8) ← Artifact.context "cannot read report entry" (of_result entry);
      if negb utf8 then fail "report contains a non-UTF-8 entry" else
      m ← Artifact.context "cannot validate report entry" (stat_open (report_dir ++ [name]));
      if decide (name = MANIFEST_FILE_NAME) then
        if (saw_manifest : bool) then fail "report contains duplicate manifest entries" else
        inspect_entries report_dir entries (inspected + 1) expected (u64_saturating_add total_size (stat_size m)) true
      else
      match expected !! name with
      | None => fail "unmanifested report artifact"
      | Some expected_size =>
          if decide (stat_size m ≠ expected_size) then fail "manifest size mismatch" else
          inspect_entries report_dir entries (inspected + 1) (delete name expected)
            (u64_saturating_add total_size (stat_size m)) saw_manifest
      end
  end.

Definition inspect_committed_report (report_dir : PathBuf) : attempt S ReportEntry :=
  _ ← check;
  report_name ← of_result (ok_or (file_name report_dir) "report directory has no UTF-8 name"%string);
  if negb (is_report_id report_name) || starts_with_dot report_name then
    fail "report directory name is not a canonical report id" else
  first ← Artifact.context "cannot inspect report directory" (stat report_dir);
  if decide (stat_type first ≠ DirEntryType) then fail "report path is not a real directory" else
  _ ← Artifact.context "report directory is not private" (ensure_private_directory report_dir);
  initial ← stat_directory report_dir;
  expected ← manifest_artifact_sizes report_dir report_name;
  entries ← Artifact.context "cannot enumerate report directory" (read_dir report_dir);
  '(expected, total_size, saw_manifest) ← inspect_entries report_dir entries 0 expected 0 false;
  if negb saw_manifest then fail "report has no manifest" else
  if decide (expected ≠ ∅) then fail "manifest artifacts are missing from report" else
  final ← Artifact.context "cannot re-inspect report directory" (stat report_dir);
  if decide (stat_type final ≠ DirEntryType ∨ device final ≠ device initial ∨ inode final ≠ inode initial) then
    fail "report directory changed while it was inspected" else
  mret (mkReportEntry report_dir total_size (modified_or_epoch final) CommittedDirectory (device final) (inode final)).

Fixpoint collect_loop (dir : PathBuf) (max_entries : Z) (entries : list (result string DirEntry)) (inspected : Z)
    (found : list ReportEntry) : attempt S (list ReportEntry) :=
  match entries with
  | [] => mret found
  | entry :: entries =>
      _ ← check;
      if decide (max_entries ≤ inspected) then fail "retention scan exceeds the bounded limit" else
      '(name, utf8) ← Artifact.context "cannot read retention entry" (of_result entry);
      let next := collect_loop dir max_entries entries (inspected + 1) in
      let p := dir ++ [name] in
      if negb utf8 then fail "retention root contains a non-UTF-8 entry" else
      if starts_with_dot name then next found else
      kind ← Artifact.context "cannot inspect retention entry" (entry_type p);
      match kind with
      | FileEntry =>
          m ← Artifact.context "cannot validate legacy retention entry" (stat_open p);
          next (found ++ [mkReportEntry p (stat_size m) (modified_or_epoch m) LegacyFile (device m) (inode m)])
      | DirEntryType =>
          if is_report_id name then
            e ← Artifact.context "cannot safely inventory committed report" (inspect_committed_report p);
            next (found ++ [e])
          else next found
      | SymlinkEntry => fail "retention root contains a symlink entry"
      | OtherEntry => next found
      end
  end.

Definition collect_entries_bounded (dir : PathBuf) (max_entries : Z) : attempt S (list ReportEntry) :=
  _ ← check;
  _ ← validate_retention_root dir;
  entries ← Artifact.context "cannot read retention root" (read_dir dir);
  collect_loop dir max_entries entries 0 [].

Definition collect_entries (dir : PathBuf) : attempt S (list ReportEntry) :=
  collect_entries_bounded dir MAX_RETENTION_SCAN_ENTRIES.

(** ** Removal *)

Fixpoint remove_artifacts (tombstone : PathBuf) (names : list string) : attempt S unit :=
  match names with
  | [] => mret tt
  | name :: names =>
      _ ← check;
      m ← Artifact.context "cannot inspect tombstoned artifact" (stat (tombstone ++ [name]));
      if decide (stat_type m ≠ FileEntry) then fail "tombstoned artifact is not a regular file" else
      _ ← Artifact.context "cannot remove tombstoned artifact" (remove_file (tombstone ++ [name]));
      remove_artifacts tombstone names
  end.

Definition remove_flat_tombstone (tombstone : PathBuf) (names : list string) : attempt S unit :=
  _ ← remove_artifacts tombstone names;
  _ ← check;
  m ← Artifact.context "cannot inspect tombstoned manifest" (stat (tombstone ++ [MANIFEST_FILE_NAME]));
  if decide (stat_type m ≠ FileEntry) then fail "tombstoned manifest is not a regular file" else
  _ ← Artifact.context "cannot remove tombstoned manifest" (remove_file (tombstone ++ [MANIFEST_FILE_NAME]));
  _ ← check;
  remaining ← Artifact.context "cannot verify tombstone is empty" (read_dir tombstone);
  match remaining with
  | [] => Artifact.context "cannot remove empty report tombstone" (remove_dir tombstone)
  | _ :: _ => fail "tombstone contains an unexpected entry"
  end.

(** The committed report is hidden with one rename and then deleted; a failure
    after the rename leaves a tombstone. [names] are visited in key order. *)
Definition hide_and_delete (e : ReportEntry) : attempt S unit :=
  current ← inspect_committed_report (entry_path e);
  if decide (entry_device current ≠ entry_device e ∨ entry_inode current ≠ entry_inode e) then
    fail "committed report changed before deletion" else
  parent_dir ← of_result (ok_or (parent (entry_path e)) "committed report has no parent directory"%string);
  report_name ← of_result (ok_or (file_name (entry_path e)) "committed report has no UTF-8 name"%string);
  sizes ← manifest_artifact_sizes (entry_path e) report_name;
  let names := stable_sort String.leb (map_to_list sizes).*1 in
  uuid ← pure new_v4;
  let tombstone := parent_dir ++ [(".retention-" +:+ report_name +:+ "." +:+ uuid +:+ ".deleting")%string] in
  _ ← Artifact.context "cannot atomically hide committed report before deletion"
        (publish_private_path (entry_path e) tombstone);
  _ ← ignore (sync_directory parent_dir);
  deleted ← catch (remove_flat_tombstone tombstone names);
  match deleted with
  | Err _ => mret tt
  | Ok _ => ignore (sync_directory parent_dir)
  end.

Definition remove_committed (e : ReportEntry) (current_report_dir : option PathBuf) : attempt S unit :=
  _ ← Artifact.context "committed report directory is not private" (ensure_private_directory (entry_path e));
  if decide (current_report_dir = Some (entry_path e)) then hide_and_delete e else
  r ← with_lock (entry_path e) (hide_and_delete e);
  match r with Some _ => mret tt | None => fail "committed report is owned by another live monitor" end.

Definition try_remove (e : ReportEntry) (current_report_dir : option PathBuf) : attempt S unit :=
  _ ← check;
  m ← Artifact.context "cannot re-inspect retention entry" (stat (entry_path e));
  if decide (device m ≠ entry_device e ∨ inode m ≠ entry_inode e) then fail "entry changed after retention scan" else
  match entry_kind e with
  | LegacyFile =>
      if decide (stat_type m ≠ FileEntry) then fail "legacy report is no longer a regular file" else
      _ ← Artifact.context "cannot remove legacy report" (remove_file (entry_path e));
      parent_dir ← of_result (ok_or (parent (entry_path e)) "retention entry has no parent"%string);
      sync_directory parent_dir
  | CommittedDirectory =>
      if decide (stat_type m ≠ DirEntryType) then fail "committed report is no longer a real directory" else
      remove_committed e current_report_dir
  end.

Definition remove_entry (e : ReportEntry) (current_report_dir : option PathBuf) : attempt S bool :=
  r ← catch (try_remove e current_report_dir);
  mret (is_ok r).

Definition entry_is_leased (e : ReportEntry) (current_report_dir : option PathBuf) (s : S) : bool :=
  match entry_kind e with
  | CommittedDirectory => bool_decide (current_report_dir = Some (entry_path e)) || leased (entry_path e) s
  | LegacyFile => false
  end.

(** ** The passes *)

(** Unless it is leased, remove the oldest entry. *)
Definition prune (e : ReportEntry) (current_report_dir : option PathBuf) : attempt S bool :=
  protected ← get (entry_is_leased e current_report_dir);
  if (protected : bool) then mret false else remove_entry e current_report_dir.

Section Passes.
Context (m : RetentionManager) (now : Z) (current_report_dir : option PathBuf).

Fixpoint age_pass (entries : list ReportEntry) : attempt S (list ReportEntry) :=
  match entries with
  | [] => mret []
  | e :: rest =>
      _ ← check;
      if decide (age_of now e ≤ max_age m) then mret entries else
      removed ← prune e current_report_dir;
      if (removed : bool) then age_pass rest else mret entries
  end.

Fixpoint count_pass (entries : list ReportEntry) : attempt S (list ReportEntry) :=
  match entries with
  | [] => mret []
  | e :: rest =>
      if decide (Z.of_nat (length entries) ≤ max_count m) then mret entries else
      _ ← check;
      removed ← prune e current_report_dir;
      if (removed : bool) then count_pass rest else mret entries
  end.

Fixpoint total_of (entries : list ReportEntry) (total : Z) : attempt S Z :=
  match entries with
  | [] => mret total
  | e :: entries => _ ← check; total_of entries (u64_saturating_add total (entry_size e))
  end.

Fixpoint bytes_pass (entries : list ReportEntry) (total : Z) : attempt S (list ReportEntry * Z) :=
  match entries with
  | [] => mret ([], total)
  | e :: rest =>
      if decide (total ≤ max_total_bytes m) then mret (entries, total) else
      _ ← check;
      removed ← prune e current_report_dir;
      if (removed : bool) then bytes_pass rest (u64_saturating_sub total (entry_size e)) else mret (entries, total)
  end.

(** The quotas that are still exceeded make the pass fail. *)
Definition final_check (entries : list ReportEntry) (total : Z) : attempt S unit :=
  let oldest_exceeds_age := match entries with e :: _ => bool_decide (max_age m < age_of now e) | [] => false end in
  if bool_decide (max_count m < Z.of_nat (length entries)) || bool_decide (max_total_bytes m < total) || oldest_exceeds_age
  then fail "retention quota is deferred by a live lease or failed oldest deletion" else mret tt.

(** The three passes; they return the entries that are left. *)
Definition passes (entries : list ReportEntry) : attempt S (list ReportEntry) :=
  entries ← age_pass entries;
  entries ← count_pass entries;
  total ← total_of entries 0;
  '(entries, total) ← bytes_pass entries total;
  _ ← check;
  _ ← final_check entries total;
  mret entries.
End Passes.

Definition sort_oldest_first (entries : list ReportEntry) : list ReportEntry :=
  stable_sort (λ a b, modified a <=? modified b) entries.

(** ** The post-processor *)

Context (transaction : option (ReportContext * TransactionCore)).

Definition committed_report : option CommittedReport := c ← transaction; core_committed_report c.2.

Definition target_dir (m : RetentionManager) : attempt S PathBuf :=
  match dir_override m with
  | Some p => mret p
  | None =>
      match (r ← committed_report; parent (report_dir r)) with
      | Some p => mret p
      | None => Artifact.context "sent_dir" sent_dir
      end
  end.

(** What happens under the lock. *)
Definition enforce (m : RetentionManager) (dir : PathBuf) : attempt S unit :=
  _ ← cleanup_retention_tombstones dir;
  entries ← collect_entries dir;
  match entries with
  | [] => mret tt
  | _ =>
      now ← pure system_now;
      _ ← passes m now (report_dir <$> committed_report) (sort_oldest_first entries);
      mret tt
  end.

Definition retention_process (m : RetentionManager) (fuel : nat) : attempt S unit :=
  _ ← check;
  dir ← target_dir m;
  _ ← match transaction with
      | Some (report, _) => _ ← scavenge_stale_pending (output_root report) (max_age m); mret tt
      | None => mret tt
      end;
  _ ← validate_retention_root dir;
  with_retention_lock fuel dir (enforce m dir).

End Manager.

End Retention.
