(* ===== verification/RetentionSpec.v ===== *)
(** * Retention removes whole reports, oldest first

    [effect] says what a computation does to the visible reports: some are
    removed, each at once, and nothing else changes. [prunes] is the order and the
    reason of the removals. *)

From S2P Require Import Prelude.
From S2P Require Import Attempt.
From S2P Require Import PipelineTypes.
From S2P Require Import PluginRun.
From S2P Require Import Pipeline.
From S2P Require Import Artifact.
From S2P Require Import ArtifactSpec.
From S2P Require Import ArtifactMemory.
From S2P Require Import ArtifactRecovery.
From S2P Require Import Retention.

Module RetentionSpec.
Export ArtifactSpec.
Export ArtifactRecovery.
Export Retention.

(** What the operations of retention promise. *)
Class RetentionLaws (S Bytes J : Type) {clock : Clock S} {ops : PrivateFs S Bytes J} {rops : RetentionOps S}
    (disks : S → list (Disk Bytes)) : Prop := {
  stat_reads p s :
    disks (stat p s).2 = disks s ∧
    ∀ m, (stat p s).1 = Ok m → stat_type m = DirEntryType → is_Some (disk disks s !! p);
  stat_open_keeps p s : disks (stat_open p s).2 = disks s;
  stat_directory_keeps p s : disks (stat_directory p s).2 = disks s;
  entry_type_keeps p s : disks (entry_type p s).2 = disks s;
  system_now_keeps s : disks (system_now s).2 = disks s;
  sent_dir_keeps s : disks (sent_dir s).2 = disks s;
  process_try_lock_keeps s : disks (process_try_lock s).2 = disks s;
  process_unlock_keeps s : disks (process_unlock s) = disks s;
  file_try_lock_keeps p s : disks (file_try_lock p s).2 = disks s;
  file_unlock_keeps p s : disks (file_unlock p s) = disks s;
  sleep_poll_keeps s : disks (sleep_poll s) = disks s;
  open_lock_grows p n s : grows disks (differs_at (λ q, q = p)) s (open_retention_lock_file (p ++ [n]) s).2
}.

(** ** The order and the reason of removals *)

Definition sum_sizes (l : list ReportEntry) : Z := foldr (λ e n, entry_size e + n) 0 l.

(** A quota that the entries exceed; the first one is the oldest. *)
Definition exceeded (m : RetentionManager) (now : Z) (l : list ReportEntry) : Prop :=
  (∃ e rest, l = e :: rest ∧ max_age m < age_of now e) ∨
  max_count m < Z.of_nat (length l) ∨ max_total_bytes m < sum_sizes l.

Definition is_current (e : ReportEntry) (current : option PathBuf) : Prop :=
  entry_kind e = CommittedDirectory ∧ current = Some (entry_path e).

(** The oldest entry goes while a quota is exceeded, never the current report. *)
Inductive prunes (m : RetentionManager) (now : Z) (current : option PathBuf) : list ReportEntry → list ReportEntry → Prop :=
| prunes_refl l : prunes m now current l l
| prunes_step e rest left :
    exceeded m now (e :: rest) → ¬ is_current e current →
    prunes m now current rest left → prunes m now current (e :: rest) left.

Lemma prunes_trans m now current l1 l2 l3 :
  prunes m now current l1 l2 → prunes m now current l2 l3 → prunes m now current l1 l3.
Proof. induction 1 as [|e rest left He Hc _ IH]; [done|]. intros H. by apply prunes_step; [| |apply IH]. Qed.

(** The quotas hold. *)
Definition within (m : RetentionManager) (now : Z) (l : list ReportEntry) : Prop :=
  Z.of_nat (length l) ≤ max_count m ∧ sum_sizes l ≤ max_total_bytes m ∧ ∀ e, e ∈ l → age_of now e ≤ max_age m.

Section Spec.
Context {S Bytes J : Type} {clock : Clock S} {ops : PrivateFs S Bytes J} {disks : S → list (Disk Bytes)}.
Context {laws : PrivateFsLaws S Bytes J disks} {rops : RetentionOps S} {rlaws : RetentionLaws S Bytes J disks}.
Context {bytes_eq : EqDecision Bytes} {Txn Ctx : Type} (root : PathBuf).
Context (context : PluginContext Txn Ctx) (cells : Cells).
Notation steady m := (steady (disks := disks) root (λ s : S, s) m).
Notation grows := (grows disks).
Notation visible := (visible root).

(** ** Computations that leave the visible reports alone *)

Lemma check_keeps s : disks (check context cells s).2 = disks s.
Proof.
  unfold check, checkpoint, is_timed_out. destruct (cancelled cells); [done|].
  destruct (deadline context) as [d|]; [|done]. pose proof (instant_now_keeps s). by destruct (instant_now s).
Qed.

Lemma steady_check : steady (check context cells).
Proof. apply steady_keeps, check_keeps. Qed.

Lemma reads_stat p : reads (disks := disks) (stat p) (λ d m, stat_type m = DirEntryType → is_Some (d !! p)).
Proof. intros s. destruct (stat_reads p s) as [H1 H2]. split; [done|]. exact H2. Qed.
Lemma steady_stat p : steady (stat p).
Proof. eapply reads_steady, reads_stat. Qed.
Lemma steady_stat_open p : steady (stat_open p).
Proof. apply steady_keeps, stat_open_keeps. Qed.
Lemma steady_stat_directory p : steady (stat_directory p).
Proof. apply steady_keeps, stat_directory_keeps. Qed.
Lemma steady_entry_type p : steady (entry_type p).
Proof. apply steady_keeps, entry_type_keeps. Qed.

#[local] Hint Resolve steady_instant_now steady_new_v4 steady_path_exists steady_flush steady_sync_all
  steady_sync_directory steady_flock steady_file_type steady_age steady_read_dir steady_open steady_remove_file
  steady_check steady_stat steady_stat_open steady_stat_directory steady_entry_type : retention.

Ltac steady_step :=
  first
    [ apply steady_ret | apply steady_fail | apply steady_of_result | apply steady_get
    | solve [eauto with retention] | apply steady_bind; [|intros ?] | apply steady_catch | apply steady_ignore
    | apply steady_context | case_match | case_decide ].
Ltac steady := repeat steady_step.

(** From disks that satisfy [I]. *)
Definition steady_from (I : Disk Bytes → Prop) {A : Type} (m : attempt S A) : Prop :=
  ∀ s, I (disk disks s) → grows (same_visible root) s (m s).2.

Lemma steady_reads_bind {A B : Type} (m : attempt S A) (f : A → attempt S B) Q :
  reads (disks := disks) m Q → (∀ a, steady_from (λ d, Q d a) (f a)) → steady (m ≫= f).
Proof.
  intros Hm Hf s. destruct (Hm s) as [Hk Hq]. unfold mbind, attempt_bind.
  destruct (m s) as [[a|error] s']; simpl in *; [|by apply grows_keeps].
  assert (disk disks s' = disk disks s) as Hd by (unfold disk; by rewrite Hk).
  pose proof (Hf a s') as H. rewrite Hd in H. specialize (H (Hq a eq_refl)). unfold ArtifactSpec.grows in *.
  rewrite Hk, Hd in H. exact H.
Qed.

Lemma steady_from_bind (I : Disk Bytes → Prop) {A B : Type} (m : attempt S A) (f : A → attempt S B) :
  steady_from I m → (∀ a, steady (f a)) → steady_from I (m ≫= f).
Proof.
  intros Hm Hf s Hs. specialize (Hm s Hs). unfold mbind, attempt_bind. destruct (m s) as [[a|error] s']; [|done].
  eapply (steady_trans root (λ s, s)); [exact Hm|apply Hf].
Qed.

Lemma steady_any (I : Disk Bytes → Prop) {A : Type} (m : attempt S A) : steady m → steady_from I m.
Proof. intros H s _. apply H. Qed.

(** A private directory that exists is not created. *)
Lemma ensure_existing message p :
  visible p → steady_from (λ d, is_Some (d !! p)) (Artifact.context message (ensure_private_directory p)).
Proof.
  intros Hp s [files Hfiles]. assert (grows (same_visible root) s (ensure_private_directory p s).2) as H.
  { eapply grows_weaken_at; [|apply ensure_private_directory_grows]. intros d Hd q Hq.
    destruct (Hd q) as [?|(Hnone & _ & Hpre)]; [done|]. exfalso.
    assert (q = p) as ->; [|by pose proof (eq_trans (eq_sym Hfiles) Hnone)].
    destruct Hpre as [l Hl]. apply visible_length in Hq, Hp. rewrite Hl, length_app in Hp.
    destruct l; [by rewrite app_nil_r in Hl|simpl in Hp; lia]. }
  unfold Artifact.context. by destruct (ensure_private_directory p s).
Qed.

Lemma steady_read_manifest p : steady (read_manifest_no_follow (p ++ [MANIFEST_FILE_NAME])).
Proof. unfold read_manifest_no_follow. steady. Qed.

Lemma steady_artifact_sizes p name : steady (manifest_artifact_sizes p name).
Proof. unfold manifest_artifact_sizes. apply steady_bind; [apply steady_read_manifest|]. intros b. steady. Qed.

Lemma steady_inspect_entries p entries inspected expected total saw :
  steady (inspect_entries context cells p entries inspected expected total saw).
Proof.
  revert inspected expected total saw. induction entries as [|entry entries IH]; intros inspected expected total saw;
    cbn [inspect_entries]; [apply steady_ret|].
  apply steady_bind; [apply steady_check|]. intros _. case_decide; [apply steady_fail|].
  apply steady_bind; [steady|]. intros [name utf8]. destruct (negb utf8); [apply steady_fail|].
  apply steady_bind; [steady|]. intros m. case_decide; [destruct saw; [apply steady_fail|apply IH]|].
  destruct (expected !! name); [|apply steady_fail]. case_decide; [apply steady_fail|apply IH].
Qed.

Lemma steady_inspect p : visible p → steady (inspect_committed_report context cells p).
Proof.
  intros Hp. unfold inspect_committed_report. apply steady_bind; [apply steady_check|]. intros _.
  apply steady_bind; [apply steady_of_result|]. intros report_name. destruct (_ || _); [apply steady_fail|].
  eapply steady_reads_bind; [apply reads_context, reads_stat|]. intros first. case_decide as Hdir; [apply steady_any, steady_fail|].
  intros s Hs. specialize (Hs Hdir). revert s Hs. refine (steady_from_bind (λ d, is_Some (d !! p)) _ _ _ _); [by apply ensure_existing|].
  intros _. apply steady_bind; [apply steady_stat_directory|]. intros initial.
  apply steady_bind; [apply steady_artifact_sizes|]. intros expected. apply steady_bind; [steady|]. intros entries.
  apply steady_bind; [apply steady_inspect_entries|]. intros [[left total] saw].
  destruct (negb saw); [apply steady_fail|]. case_decide; [apply steady_fail|]. steady.
Qed.

(** ** Removal of one report *)

(** The report [p] may go, at once. *)
Definition trim (P : PathBuf → Prop) (d0 d : Disk Bytes) : Prop :=
  ∀ q, visible q → d !! q = d0 !! q ∨ P q ∧ d !! q = None.

Lemma trim_refl P d : trim P d d.
Proof. intros q Hq. by left. Qed.

Lemma trim_trans P d1 d2 d3 : trim P d1 d2 → trim P d2 d3 → trim P d1 d3.
Proof.
  intros H12 H23 q Hq. destruct (H23 q Hq) as [H3|[HP H3]]; [|by right].
  destruct (H12 q Hq) as [H2|[HP H2]]; [left; exact (eq_trans H3 H2)|right; split; [done|exact (eq_trans H3 H2)]].
Qed.

Lemma same_visible_trim P d0 d : same_visible root d0 d → trim P d0 d.
Proof. intros H q Hq. left. by apply H. Qed.

Lemma trim_consistent P d0 d : trim P d0 d → consistent root d0 → consistent root d.
Proof.
  intros Ht Hc r n files Hr Hn Hd. destruct (Ht (r ++ [n])) as [H|[_ H]]; [by exists r, n| |].
  - apply (Hc r n); [done..|]. exact (eq_trans (eq_sym H) Hd).
  - pose proof (eq_trans (eq_sym H) Hd). done.
Qed.

(** [m] removes at most [p], and has removed it when it succeeds. *)
Definition deletes (p : PathBuf) {A : Type} (m : attempt S A) : Prop :=
  ∀ s, grows (trim (λ q, q = p)) s (m s).2 ∧ ∀ a, (m s).1 = Ok a → disk disks (m s).2 !! p = None.

Lemma grows_trim_trans P s1 s2 s3 : grows (trim P) s1 s2 → grows (trim P) s2 s3 → grows (trim P) s1 s3.
Proof. apply grows_trans; [apply trim_refl|apply trim_trans]. Qed.

Lemma steady_trim P {A : Type} (m : attempt S A) s : steady m → grows (trim P) s (m s).2.
Proof. intros H. eapply grows_weaken; [|apply H]. intros d0 d. apply same_visible_trim. Qed.

Lemma deletes_fail p {A : Type} (error : string) : deletes p (fail (A := A) error).
Proof. intros s. by split; [apply grows_keeps|]. Qed.

Lemma deletes_after p {A B : Type} (m : attempt S A) (f : A → attempt S B) :
  steady m → (∀ a, deletes p (f a)) → deletes p (m ≫= f).
Proof.
  intros Hm Hf s. pose proof (steady_trim (λ q, q = p) m s Hm) as H. unfold mbind, attempt_bind.
  destruct (m s) as [[a|error] s']; simpl in *; [|by split]. destruct (Hf a s') as [H1 H2].
  split; [by eapply grows_trim_trans|done].
Qed.

Lemma deletes_before p {A B : Type} (m : attempt S A) (f : A → attempt S B) :
  visible p → deletes p m → (∀ a, steady (f a)) → deletes p (m ≫= f).
Proof.
  intros Hp Hm Hf s. destruct (Hm s) as [H1 H2]. unfold mbind, attempt_bind.
  destruct (m s) as [[a|error] s']; simpl in *; [|by split]. split.
  - eapply grows_trim_trans; [exact H1|]. by apply steady_trim.
  - intros b _. specialize (H2 a eq_refl). pose proof (Hf a s') as Hg. eapply grows_disk in Hg; [|by intros].
    rewrite (Hg p Hp). exact H2.
Qed.

Lemma deletes_of_result p {A B : Type} (r : result string A) (f : A → attempt S B) :
  (∀ a, r = Ok a → deletes p (f a)) → deletes p (of_result r ≫= f).
Proof. destruct r as [a|error]; intros H; [exact (H a eq_refl)|]. intros s. by split; [apply grows_keeps|]. Qed.

Context (dir : PathBuf) (Hdir : is_root root dir).

Lemma hidden_below_dir name q : starts_with_dot name = true → dir ++ [name] `prefix_of` q → ¬ visible q.
Proof. by apply below_hidden_not_visible. Qed.

Lemma dir_not_visible : ¬ visible dir.
Proof. by apply root_not_visible. Qed.

Lemma publish_deletes name hidden_name :
  starts_with_dot name = false → starts_with_dot hidden_name = true →
  deletes (dir ++ [name])
    (Artifact.context "cannot atomically hide committed report before deletion"
       (publish_private_path (dir ++ [name]) (dir ++ [hidden_name]))).
Proof.
  intros Hname Hhid s. destruct (publish_grows (dir ++ [name]) (dir ++ [hidden_name]) s) as [Hg Hok].
  unfold Artifact.context. destruct (publish_private_path _ _ s) as [r s']. simpl in *. split.
  - eapply grows_weaken; [|exact Hg]. intros d0 d [[Hdiff Hsrc] _] q Hq.
    destruct (decide (q = dir ++ [name])) as [->|Hne].
    + destruct Hsrc as [H|H]; [by left|by right].
    + left. apply Hdiff. intros [->|[?|[H|[H|H]]]]; [| done | | |by apply visible_not_hidden in Hq].
      * by apply (hidden_below_dir hidden_name) in Hq.
      * apply parent_Some in H as [_ ->]. rewrite removelast_last in Hq. by apply dir_not_visible.
      * apply parent_Some in H as [_ ->]. rewrite removelast_last in Hq. by apply dir_not_visible.
  - intros a Ha. destruct r as [[]|]; [|done]. by apply Hok.
Qed.

Lemma steady_remove_flat name names : starts_with_dot name = true → steady (remove_flat_tombstone context cells (dir ++ [name]) names).
Proof.
  intros Hn. pose proof (hidden_below_dir name) as Hb.
  assert (¬ visible (dir ++ [name])) as Hnv by (by apply Hb).
  assert (steady (remove_artifacts context cells (dir ++ [name]) names)) as Hr.
  { induction names as [|n names IH]; cbn [remove_artifacts]; [apply steady_ret|].
    apply steady_bind; [apply steady_check|]. intros _. apply steady_bind; [steady|]. intros m. case_decide; [apply steady_fail|].
    apply steady_bind; [by apply steady_context, steady_remove_file|]. intros _. exact IH. }
  unfold remove_flat_tombstone. apply steady_bind; [exact Hr|]. intros _. apply steady_bind; [apply steady_check|]. intros _.
  apply steady_bind; [steady|]. intros m. case_decide; [apply steady_fail|].
  apply steady_bind; [by apply steady_context, steady_remove_file|]. intros _. apply steady_bind; [apply steady_check|]. intros _.
  apply steady_bind; [steady|]. intros [|]; [|apply steady_fail].
  apply steady_context, steady_remove_dir. intros q. by apply Hb.
Qed.

(** An entry of the directory that the inventory lists. *)
Definition listed (e : ReportEntry) : Prop := ∃ name, entry_path e = dir ++ [name] ∧ starts_with_dot name = false.

Lemma listed_visible e : listed e → visible (entry_path e).
Proof. intros (name & Hp & Hn). by exists dir, name. Qed.

Lemma hide_and_delete_deletes e : listed e → deletes (entry_path e) (hide_and_delete context cells e).
Proof.
  intros He. pose proof (listed_visible e He) as Hv. destruct He as (name & Hp & Hn). unfold hide_and_delete. rewrite Hp in *.
  apply deletes_after; [by apply steady_inspect|]. intros current. case_decide; [apply deletes_fail|].
  apply deletes_of_result. intros parent_dir Hparent. apply deletes_of_result. intros report_name Hname.
  assert (parent_dir = dir) as ->.
  { destruct (parent (dir ++ [name])) as [q|] eqn:Hq; [|done]. injection Hparent as <-.
    apply parent_Some in Hq as [_ ->]. apply removelast_last. }
  apply deletes_after; [apply steady_artifact_sizes|]. intros sizes. cbv zeta.
  apply deletes_after; [apply steady_new_v4|]. intros uuid.
  apply deletes_before; [done|by apply publish_deletes|]. intros _.
  apply steady_bind; [steady|]. intros _. apply steady_bind; [by apply steady_catch, steady_remove_flat|].
  intros [[]|error]; steady.
Qed.

Lemma grows_same_disks R s s1 s2 : disks s2 = disks s1 → grows R s s1 → grows R s s2.
Proof. intros Hk (ds & Hd & Hds). exists ds. by rewrite Hk. Qed.

Lemma deletes_with_lock p q (body : attempt S unit) error :
  deletes p body →
  deletes p (r ← with_lock q body; match r with Some _ => mret tt | None => fail error end).
Proof.
  intros Hb s. pose proof (steady_trim (λ q, q = p) _ s (steady_flock root q)) as H.
  unfold with_lock, mbind, attempt_bind. destruct (flock_directory q s) as [[[|]|e] s1]; simpl in *; try by split.
  destruct (Hb s1) as [H1 H2]. destruct (body s1) as [[[]|e] s2]; simpl in *.
  - split.
    + eapply grows_same_disks; [apply unlock_keeps|]. by eapply grows_trim_trans.
    + intros _ _. unfold disk in *. rewrite unlock_keeps. by apply (H2 tt).
  - split; [|done]. eapply grows_same_disks; [apply unlock_keeps|]. by eapply grows_trim_trans.
Qed.

Lemma remove_committed_deletes e current : listed e →
  ∀ s, is_Some (disk disks s !! entry_path e) →
  grows (trim (λ q, q = entry_path e)) s (remove_committed context cells e current s).2 ∧
  ((remove_committed context cells e current s).1 = Ok tt →
   disk disks (remove_committed context cells e current s).2 !! entry_path e = None).
Proof.
  intros He s Hs. pose proof (listed_visible e He) as Hv.
  pose proof (ensure_existing "committed report directory is not private" _ Hv s Hs) as Hen.
  unfold remove_committed. unfold mbind at 1 3 5, attempt_bind at 1 3 5.
  destruct (Artifact.context _ _ s) as [[[]|error] s1]; simpl in Hen;
    [|split; [eapply grows_weaken; [|exact Hen]; apply same_visible_trim|done]].
  assert (∀ m : attempt S unit, deletes (entry_path e) m →
    grows (trim (λ q, q = entry_path e)) s (m s1).2 ∧ ((m s1).1 = Ok tt → disk disks (m s1).2 !! entry_path e = None)) as Hthen.
  { intros m Hm. destruct (Hm s1) as [H1 H2]. split; [|apply H2]. eapply grows_trim_trans; [|exact H1].
    eapply grows_weaken; [|exact Hen]. apply same_visible_trim. }
  case_decide; apply Hthen; [by apply hide_and_delete_deletes|].
  by apply deletes_with_lock, hide_and_delete_deletes.
Qed.

(** Between two states, the removal of the file of an entry was asked for and succeeded. *)
Definition unlinked (e : ReportEntry) (s s' : S) : Prop :=
  ∃ before, disks s `suffix_of` disks before ∧ (remove_file (entry_path e) before).1 = Ok tt ∧
    disks (remove_file (entry_path e) before).2 `suffix_of` disks s'.

Lemma grows_suffix R s s' : grows R s s' → disks s `suffix_of` disks s'.
Proof. intros (ds & Hd & _). by exists ds. Qed.
Lemma unlinked_within e s1 s2 s3 s4 :
  disks s1 `suffix_of` disks s2 → disks s3 `suffix_of` disks s4 → unlinked e s2 s3 → unlinked e s1 s4.
Proof. intros H1 H2 (before & H3 & Hok & H4). exists before. split_and!; [by etrans|done|by etrans]. Qed.

(** What one removal does: the whole report is gone, or the file was unlinked. *)
Definition removal (e : ReportEntry) (s s' : S) (removed : bool) : Prop :=
  grows (trim (λ q, entry_kind e = CommittedDirectory ∧ q = entry_path e)) s s' ∧
  (removed = true → entry_kind e = CommittedDirectory → disk disks s' !! entry_path e = None) ∧
  (removed = true → entry_kind e = LegacyFile → unlinked e s s').

Lemma trim_weaken (P Q : PathBuf → Prop) s s' : (∀ q, P q → Q q) → grows (trim P) s s' → grows (trim Q) s s'.
Proof. intros H. apply grows_weaken. intros d0 d Ht q Hq. destruct (Ht q Hq) as [?|[? ?]]; [by left|right; auto]. Qed.

(** A computation that removes [e] when it succeeds, from disks that satisfy [I]. *)
Definition removes (I : Disk Bytes → Prop) (e : ReportEntry) (m : attempt S unit) : Prop :=
  ∀ s, I (disk disks s) → removal e s (m s).2 (is_ok (m s).1).

Lemma removes_fail I e error : removes I e (fail error).
Proof. intros s _. by split_and!; [apply grows_keeps| |]. Qed.

Lemma removes_reads {A : Type} I e (m : attempt S A) (f : A → attempt S unit) Q :
  reads (disks := disks) m Q → (∀ a, removes (λ d, Q d a) e (f a)) → removes I e (m ≫= f).
Proof.
  intros Hm Hf s _. destruct (Hm s) as [Hk Hq]. unfold mbind, attempt_bind.
  destruct (m s) as [[a|error] s']; simpl in *; [|by split_and!; [apply grows_keeps| |]].
  assert (disk disks s' = disk disks s) as Hd by (unfold disk; by rewrite Hk).
  destruct (Hf a s') as (H1 & H2 & H3); [rewrite Hd; by apply Hq|]. split_and!; [|done|].
  - unfold ArtifactSpec.grows in *. by rewrite Hk, Hd in H1.
  - intros Hok Hl. eapply unlinked_within; [|reflexivity|by apply H3]. by rewrite Hk.
Qed.

Lemma reads_keeps {A : Type} (m : attempt S A) : (∀ s, disks (m s).2 = disks s) → reads (disks := disks) m (λ _ _, True).
Proof. intros H s. by split. Qed.

Lemma removes_legacy I e message (f : unit → attempt S unit) :
  entry_kind e = LegacyFile → listed e → (∀ u, steady (f u)) →
  removes I e (Artifact.context message (remove_file (entry_path e)) ≫= f).
Proof.
  intros Hk (name & Hp & _) Hf s _.
  assert (steady (Artifact.context message (remove_file (entry_path e)))) as Hm.
  { rewrite Hp. apply steady_context, steady_remove_file, dir_not_visible. }
  split_and!; [|by rewrite Hk|].
  { apply steady_trim. by apply steady_bind. }
  intros Hok _. exists s. split; [reflexivity|]. specialize (Hm s). unfold mbind, attempt_bind, Artifact.context in *.
  destruct (remove_file (entry_path e) s) as [[[]|error] s']; [|done]. split; [done|]. eapply grows_suffix, (Hf tt s').
Qed.

Lemma try_remove_removal e current : listed e → removes (λ _, True) e (try_remove context cells e current).
Proof.
  intros He. unfold try_remove. eapply removes_reads; [apply reads_keeps, check_keeps|]. intros [].
  eapply removes_reads; [apply reads_context, reads_stat|]. intros m. case_decide; [apply removes_fail|].
  destruct (entry_kind e) eqn:Hkind.
  - case_decide; [apply removes_fail|]. apply removes_legacy; [done|done|]. intros _. steady.
  - case_decide as Hty; [apply removes_fail|]. intros s Hs.
    destruct (remove_committed_deletes e current He s (Hs Hty)) as [H1 H2]. split_and!; [| |by rewrite Hkind].
    + eapply trim_weaken; [|exact H1]. by intros q ->.
    + intros Hr _. apply H2. by destruct (remove_committed _ _ _ _ s) as [[[]|] s'].
Qed.

Lemma remove_entry_removal e current s : listed e →
  let '(r, s') := remove_entry context cells e current s in ∃ removed, r = Ok removed ∧ removal e s s' removed.
Proof.
  intros He. pose proof (try_remove_removal e current He s I) as H. unfold remove_entry, mbind, attempt_bind, catch.
  destruct (try_remove context cells e current s) as [r s']. by exists (is_ok r).
Qed.

Lemma removal_none e s : removal e s s false.
Proof. by split_and!; [apply grows_keeps| |]. Qed.

Lemma prune_removal e current s : listed e →
  let '(r, s') := prune context cells e current s in
  ∃ removed, r = Ok removed ∧ removal e s s' removed ∧ (is_current e current → removed = false).
Proof.
  intros He. unfold prune, mbind, attempt_bind, get. destruct (entry_is_leased e current s) eqn:Hl.
  - exists false. split_and!; [done|apply removal_none|done].
  - pose proof (remove_entry_removal e current s He) as H. destruct (remove_entry _ _ _ _ s) as [r s'].
    destruct H as (removed & -> & H). exists removed. split_and!; [done|done|]. intros [Hk Hc].
    unfold entry_is_leased in Hl. rewrite Hk, bool_decide_true in Hl by done. done.
Qed.

(** ** The passes *)

Definition gone (removed : list ReportEntry) (q : PathBuf) : Prop :=
  ∃ e, e ∈ removed ∧ entry_kind e = CommittedDirectory ∧ q = entry_path e.

(** A pass from [entries] leaves [rest]. An entry is [blocked] when its removal
    failed; its report may be gone all the same, and a quota is still exceeded. *)
Definition pruning (m : RetentionManager) (now : Z) (current : option PathBuf) (entries rest : list ReportEntry)
    (s s' : S) : Prop :=
  ∃ removed blocked, entries = removed ++ rest ∧ prunes m now current entries rest ∧
    (blocked = [] ∨ blocked = take 1 rest ∧ exceeded m now rest) ∧
    grows (trim (gone (removed ++ blocked))) s s' ∧
    (∀ q, gone removed q → visible q → disk disks s' !! q = None) ∧
    (∀ e, e ∈ removed → entry_kind e = LegacyFile → unlinked e s s') ∧
    Forall (λ e, ¬ is_current e current) (removed ++ blocked).

Lemma gone_mono (l1 l2 : list ReportEntry) q : l1 ⊆ l2 → gone l1 q → gone l2 q.
Proof. intros H (e & He & ?). exists e. split; [by apply H|done]. Qed.

Section Passes.
Context (m : RetentionManager) (now : Z) (current : option PathBuf).
Notation pruning := (pruning m now current).
Notation exceeded := (exceeded m now).

Lemma pruning_stop l s s' : grows (same_visible root) s s' → pruning l l s s'.
Proof.
  intros H. exists [], [].
  split_and!; [done|constructor|by left| |by intros q (e & ?%elem_of_nil & _)|by intros e ?%elem_of_nil|constructor].
  eapply grows_weaken; [|exact H]. apply same_visible_trim.
Qed.

Lemma pruning_blocked e rest s s' :
  exceeded (e :: rest) → ¬ is_current e current → removal e s s' false → pruning (e :: rest) (e :: rest) s s'.
Proof.
  intros He Hc [H _]. exists [], [e]. split_and!; [done|constructor|by right| | |by intros e' ?%elem_of_nil|by constructor].
  - eapply trim_weaken; [|exact H]. intros q [? ->]. exists e. by split; [left|].
  - by intros q (e' & ?%elem_of_nil & _).
Qed.

Lemma pruning_removed e rest s s' :
  exceeded (e :: rest) → ¬ is_current e current → removal e s s' true → pruning (e :: rest) rest s s'.
Proof.
  intros He Hc (H1 & H2 & H3). exists [e], []. rewrite app_nil_r.
  split_and!; [done|by apply prunes_step; [| |constructor]|by left| | |by intros e' ->%list_elem_of_singleton; apply H3|by constructor].
  - eapply trim_weaken; [|exact H1]. intros q [? ->]. exists e. by split; [left|].
  - intros q (e' & ->%list_elem_of_singleton & Hk & ->) _. by apply H2.
Qed.

Lemma pruning_trans l1 l2 l3 s1 s2 s3 : pruning l1 l2 s1 s2 → pruning l2 l3 s2 s3 → pruning l1 l3 s1 s3.
Proof.
  intros (rm1 & b1 & -> & Hp1 & Hb1 & Hg1 & Hn1 & Hu1 & Hc1) (rm2 & b2 & -> & Hp2 & Hb2 & Hg2 & Hn2 & Hu2 & Hc2).
  pose proof (grows_suffix _ _ _ Hg1) as Hx1. pose proof (grows_suffix _ _ _ Hg2) as Hx2.
  apply Forall_app in Hc1 as [Hc1 Hcb1]. apply Forall_app in Hc2 as [Hc2 Hcb2].
  set (b := match rm2 with [] => b1 ++ b2 | _ => b2 end).
  assert (∃ b3, (b3 = [] ∨ b3 = take 1 l3 ∧ exceeded l3) ∧ b1 ⊆ rm2 ++ b3 ∧ b2 ⊆ b3 ∧ Forall (λ e, ¬ is_current e current) b3)
    as (b3 & Hb3 & Hs1 & Hs2 & Hcb3).
  { destruct rm2 as [|e rm2].
    - destruct Hb1 as [->|[-> He1]].
      + exists b2. split_and!; [done|apply list_subseteq_nil|done|done].
      + exists (take 1 l3). split_and!; [by right|done| |done]. destruct Hb2 as [->|[-> _]]; [apply list_subseteq_nil|done].
    - exists b2. split_and!; [done| |done|done]. destruct Hb1 as [->|[-> _]]; [apply list_subseteq_nil|].
      intros x Hx. simpl in Hx. apply list_elem_of_singleton in Hx as ->. by left. }
  exists (rm1 ++ rm2), b3. rewrite <- app_assoc. split_and!.
  - done.
  - by eapply prunes_trans.
  - done.
  - eapply grows_trim_trans; (eapply trim_weaken; [|eassumption]); intros q; apply gone_mono; set_solver.
  - intros q Hq Hv. destruct Hq as (e & [Hin|Hin]%elem_of_app & Hk & ->).
    + eapply grows_disk in Hg2; [|apply trim_refl]. destruct (Hg2 _ Hv) as [H|[_ H]]; [|done].
      exact (eq_trans H (Hn1 _ (ex_intro _ e (conj Hin (conj Hk eq_refl))) Hv)).
    + apply Hn2; [by exists e|done].
  - intros e [Hin|Hin]%elem_of_app Hk; [eapply unlinked_within; [reflexivity|exact Hx2|by apply Hu1]|].
    eapply unlinked_within; [exact Hx1|reflexivity|by apply Hu2].
  - rewrite <- app_assoc. by rewrite !Forall_app.
Qed.

(** One step of a pass. *)
Lemma prune_pruning e rest s :
  listed e → exceeded (e :: rest) →
  let '(r, s') := prune context cells e current s in
  ∃ removed, r = Ok removed ∧ pruning (e :: rest) (if (removed : bool) then rest else e :: rest) s s'.
Proof.
  intros He Hx. pose proof (prune_removal e current s He) as H.
  destruct (decide (entry_kind e = CommittedDirectory ∧ current = Some (entry_path e))) as [Hcur|Hcur].
  - destruct Hcur as [Hk Hcur].
    assert (prune context cells e current s = (Ok false, s)) as ->.
    { unfold prune, mbind, attempt_bind, get, entry_is_leased. by rewrite Hk, bool_decide_true. }
    exists false. split; [done|]. by apply pruning_stop, grows_keeps.
  - destruct (prune context cells e current s) as [r s']. destruct H as (removed & -> & H & _). exists removed.
    split; [done|]. destruct removed; [by apply pruning_removed|by apply pruning_blocked].
Qed.

(** What a pass returns is what it leaves. *)
Definition pass_ok (entries : list ReportEntry) (pass : attempt S (list ReportEntry)) : Prop :=
  ∀ s, let '(r, s') := pass s in ∃ rest, pruning entries rest s s' ∧ ∀ left, r = Ok left → left = rest.

Lemma pass_ok_ret entries : pass_ok entries (mret entries).
Proof. intros s. exists entries. split; [by apply pruning_stop, grows_keeps|]. by intros left [= <-]. Qed.

Lemma pass_ok_check entries f : pass_ok entries f → pass_ok entries (_ ← check context cells; f).
Proof.
  intros Hf s. pose proof (steady_check s) as Hc. unfold mbind, attempt_bind.
  destruct (check context cells s) as [[[]|error] s1]; simpl in Hc.
  - specialize (Hf s1). destruct (f s1) as [r s2]. destruct Hf as (rest & Hp & Hr). exists rest. split; [|done].
    eapply pruning_trans; [|exact Hp]. by apply pruning_stop.
  - exists entries. split; [by apply pruning_stop|done].
Qed.

Lemma pass_ok_prune e rest f :
  listed e → exceeded (e :: rest) → pass_ok rest f →
  pass_ok (e :: rest) (removed ← prune context cells e current; if (removed : bool) then f else mret (e :: rest)).
Proof.
  intros He Hx Hf s. pose proof (prune_pruning e rest s He Hx) as H. unfold mbind, attempt_bind.
  destruct (prune context cells e current s) as [r s1]. destruct H as (removed & -> & Hp). destruct removed.
  - specialize (Hf s1). destruct (f s1) as [r s2]. destruct Hf as (left & Hp2 & Hr). exists left. split; [|done].
    by eapply pruning_trans.
  - exists (e :: rest). split; [exact Hp|]. by intros left [= <-].
Qed.

Lemma age_pass_ok entries : Forall listed entries → pass_ok entries (age_pass context cells m now current entries).
Proof.
  induction 1 as [|e rest He _ IH]; cbn [age_pass]; [apply pass_ok_ret|]. apply pass_ok_check.
  case_decide; [apply pass_ok_ret|]. apply pass_ok_prune; [done|left; exists e, rest; split; [done|lia]|done].
Qed.

Lemma count_pass_ok entries : Forall listed entries → pass_ok entries (count_pass context cells m current entries).
Proof.
  induction 1 as [|e rest He _ IH]; cbn [count_pass]; [apply pass_ok_ret|].
  case_decide; [apply pass_ok_ret|]. apply pass_ok_check. apply pass_ok_prune; [done|right; left; lia|done].
Qed.

Definition sized (l : list ReportEntry) : Prop := Forall (λ e, 0 ≤ entry_size e) l ∧ sum_sizes l ≤ U64_MAX.

Lemma sized_tail e l : sized (e :: l) → 0 ≤ entry_size e ∧ sized l.
Proof. intros [H1 H2]. apply Forall_cons in H1 as [H1 H3]. simpl in H2. split; [done|]. split; [done|lia]. Qed.

Lemma sized_suffix l1 l2 : sized (l1 ++ l2) → sized l2.
Proof. induction l1 as [|e l1 IH]; [done|]. intros H. by apply sized_tail in H as [_ H]; apply IH. Qed.

Lemma sized_nonneg l : sized l → 0 ≤ sum_sizes l.
Proof. induction l as [|e l IH]; [done|]. intros H. apply sized_tail in H as [? ?]. simpl. specialize (IH ltac:(done)). lia. Qed.

Lemma total_of_ok entries total s :
  0 ≤ total → sized entries → total + sum_sizes entries ≤ U64_MAX →
  let '(r, s') := total_of context cells entries total s in
  grows (same_visible root) s s' ∧ ∀ t, r = Ok t → t = total + sum_sizes entries.
Proof.
  revert total s. induction entries as [|e entries IH]; intros total s Ht Hs Hsum; cbn [total_of].
  - split; [by apply grows_keeps|]. intros t [= <-]. simpl. lia.
  - pose proof (steady_check s) as Hc. unfold mbind, attempt_bind.
    destruct (check context cells s) as [[[]|error] s1]; simpl in Hc; [|by split].
    apply sized_tail in Hs as [He Hs]. pose proof (sized_nonneg _ Hs). simpl in Hsum.
    assert (u64_saturating_add total (entry_size e) = total + entry_size e) as Hadd by (unfold u64_saturating_add; lia).
    rewrite Hadd. specialize (IH (total + entry_size e) s1 ltac:(lia) Hs ltac:(lia)).
    destruct (total_of _ _ entries _ s1) as [r s2]. destruct IH as [H1 H2]. split.
    + by eapply (steady_trans root (λ s, s)).
    + intros t Hr. rewrite (H2 t Hr). simpl. lia.
Qed.

Lemma bytes_pass_ok entries s : Forall listed entries → sized entries →
  let '(r, s') := bytes_pass context cells m current entries (sum_sizes entries) s in
  ∃ rest, pruning entries rest s s' ∧ ∀ left t, r = Ok (left, t) → left = rest ∧ t = sum_sizes rest.
Proof.
  intros Hl. revert s. induction Hl as [|e rest He _ IH]; intros s Hs; cbn [bytes_pass].
  { exists []. split; [by apply pruning_stop, grows_keeps|]. by intros left t [= <- <-]. }
  case_decide as Hq.
  { exists (e :: rest). split; [by apply pruning_stop, grows_keeps|]. by intros left t [= <- <-]. }
  pose proof (steady_check s) as Hc. unfold mbind, attempt_bind.
  destruct (check context cells s) as [[[]|error] s1]; simpl in Hc; [|exists (e :: rest); split; [by apply pruning_stop|done]].
  pose proof (prune_pruning e rest s1 He ltac:(right; right; lia)) as Hp.
  destruct (prune context cells e current s1) as [r s2]. destruct Hp as (removed & -> & Hp).
  assert (pruning (e :: rest) (if removed then rest else e :: rest) s s2) as Hp' by (eapply pruning_trans; [by apply pruning_stop|exact Hp]).
  destruct removed.
  - apply sized_tail in Hs as [He0 Hs].
    assert (u64_saturating_sub (sum_sizes (e :: rest)) (entry_size e) = sum_sizes rest) as ->.
    { pose proof (sized_nonneg _ Hs). unfold u64_saturating_sub. simpl. lia. }
    specialize (IH s2 Hs). destruct (bytes_pass _ _ _ _ rest _ s2) as [r s3]. destruct IH as (left & Hp2 & Hr).
    exists left. split; [by eapply pruning_trans|done].
  - exists (e :: rest). split; [done|]. by intros left t [= <- <-].
Qed.

(** A quota that holds of the oldest entry holds of all. *)
Lemma within_oldest l :
  StronglySorted (λ a b, (modified a <=? modified b) = true) l → ¬ exceeded l → within m now l.
Proof.
  intros Hs Hx. unfold exceeded in Hx. split_and!.
  - apply Z.nlt_ge. tauto.
  - apply Z.nlt_ge. tauto.
  - intros e He. apply Z.nlt_ge. intros Hlt. apply Hx. left. destruct Hs as [|e0 l Hs Hall]; [by apply elem_of_nil in He|].
    exists e0, l. split; [done|]. apply elem_of_cons in He as [->|He]; [done|].
    rewrite Forall_forall in Hall. apply Hall, Z.leb_le in He. unfold age_of in *. lia.
Qed.

Lemma final_check_ok entries (s : S) :
  let '(r, s') := final_check m now entries (sum_sizes entries) s in s' = s ∧ (r = Ok tt → ¬ exceeded entries).
Proof.
  unfold final_check. destruct (_ || _) eqn:E; simpl; split; try done. intros _ Hx.
  apply orb_false_iff in E as [E E3]. apply orb_false_iff in E as [E1 E2].
  apply bool_decide_eq_false in E1, E2. destruct Hx as [(e & rest & -> & Ha)|[?|?]]; [|done|done].
  by apply bool_decide_eq_false in E3.
Qed.

Lemma passes_ok entries s : Forall listed entries → sized entries →
  let '(r, s') := passes context cells m now current entries s in
  ∃ rest, pruning entries rest s s' ∧ ∀ left, r = Ok left → left = rest ∧ ¬ exceeded rest.
Proof.
  intros Hl Hs. unfold passes, mbind, attempt_bind.
  pose proof (age_pass_ok entries Hl s) as H1. destruct (age_pass _ _ _ _ _ entries s) as [[l1|error] s1];
    destruct H1 as (r1 & Hp1 & Hr1); [|exists r1; by split]. rewrite (Hr1 l1 eq_refl) in *. clear Hr1 l1.
  assert (Forall listed r1 ∧ sized r1) as [Hl1 Hs1].
  { destruct Hp1 as (rm & b & -> & _). split; [by apply Forall_app in Hl as [_ ?]|by apply sized_suffix in Hs]. }
  pose proof (count_pass_ok r1 Hl1 s1) as H2. destruct (count_pass _ _ _ _ r1 s1) as [[l2|error] s2];
    destruct H2 as (r2 & Hp2 & Hr2);
    (assert (pruning entries r2 s s2) as Hp by (by eapply pruning_trans)); [|exists r2; by split].
  rewrite (Hr2 l2 eq_refl) in *. clear Hr2 l2.
  assert (Forall listed r2 ∧ sized r2) as [Hl2 Hs2].
  { destruct Hp2 as (rm & b & -> & _). split; [by apply Forall_app in Hl1 as [_ ?]|by apply sized_suffix in Hs1]. }
  pose proof (total_of_ok r2 0 s2 ltac:(lia) Hs2 ltac:(destruct Hs2; lia)) as H3.
  destruct (total_of _ _ r2 0 s2) as [[t|error] s3]; destruct H3 as [Hg Ht];
    (assert (pruning entries r2 s s3) as Hp3 by (eapply pruning_trans; [exact Hp|by apply pruning_stop])); [|exists r2; by split].
  rewrite (Ht t eq_refl). clear Ht t. simpl.
  pose proof (bytes_pass_ok r2 s3 Hl2 Hs2) as H4. destruct (bytes_pass _ _ _ _ r2 _ s3) as [[[l4 t4]|error] s4];
    destruct H4 as (r4 & Hp4 & Hr4);
    (assert (pruning entries r4 s s4) as Hp5 by (by eapply pruning_trans)); [|exists r4; by split].
  destruct (Hr4 l4 t4 eq_refl) as [-> ->].
  pose proof (steady_check s4) as Hc. destruct (check context cells s4) as [[[]|error] s5]; simpl in Hc;
    (assert (pruning entries r4 s s5) as Hp6 by (eapply pruning_trans; [exact Hp5|by apply pruning_stop])); [|exists r4; by split].
  pose proof (final_check_ok r4 s5) as H6. destruct (final_check _ _ r4 _ s5) as [[[]|error] s6];
    destruct H6 as [-> H6]; exists r4; (split; [done|]); [|done].
  intros left [= <-]. split; [done|by apply H6].
Qed.

End Passes.

(** ** The inventory and the lock *)

Lemma inspect_returns p : returns (inspect_committed_report context cells p) (λ e, entry_path e = p).
Proof.
  unfold inspect_committed_report. eapply returns_bind; [apply returns_any|]. intros _ _.
  eapply returns_bind; [apply returns_any|]. intros name _. destruct (_ || _); [done|].
  eapply returns_bind; [apply returns_any|]. intros first _. case_decide; [done|].
  eapply returns_bind; [apply returns_any|]. intros _ _. eapply returns_bind; [apply returns_any|]. intros initial _.
  eapply returns_bind; [apply returns_any|]. intros expected _. eapply returns_bind; [apply returns_any|]. intros entries _.
  eapply returns_bind; [apply returns_any|]. intros [[left total] saw] _. destruct (negb saw); [done|]. case_decide; [done|].
  eapply returns_bind; [apply returns_any|]. intros final _. case_decide; [done|]. by apply returns_ret.
Qed.

Lemma context_returns {A : Type} message (m : attempt S A) Q : returns m Q → returns (Artifact.context message m) Q.
Proof. intros H s a. specialize (H s). unfold Artifact.context. destruct (m s) as [[b|] s']; [exact (H a)|done]. Qed.

Lemma collect_loop_returns max_entries entries inspected found :
  Forall listed found → returns (collect_loop context cells dir max_entries entries inspected found) (Forall listed).
Proof.
  revert inspected found. induction entries as [|entry entries IH]; intros inspected found Hf; cbn [collect_loop]; [by apply returns_ret|].
  eapply returns_bind; [apply returns_any|]. intros _ _. case_decide; [done|].
  eapply returns_bind; [apply returns_any|]. intros [name utf8] _. cbv zeta. destruct (negb utf8); [done|].
  destruct (starts_with_dot name) eqn:Hdot; [by apply IH|].
  eapply returns_bind; [apply returns_any|]. intros [| | |] _; [| |done|by apply IH].
  - eapply returns_bind; [apply returns_any|]. intros st _. apply IH. apply Forall_app. split; [done|].
    constructor; [by exists name|constructor].
  - destruct (is_report_id name); [|by apply IH].
    eapply returns_bind; [apply context_returns, inspect_returns|]. intros e He. apply IH. apply Forall_app. split; [done|].
    constructor; [by exists name|constructor].
Qed.

Lemma collect_loop_steady max_entries entries inspected found : steady (collect_loop context cells dir max_entries entries inspected found).
Proof.
  revert inspected found. induction entries as [|entry entries IH]; intros inspected found; cbn [collect_loop]; [apply steady_ret|].
  apply steady_bind; [apply steady_check|]. intros _. case_decide; [apply steady_fail|].
  apply steady_bind; [steady|]. intros [name utf8]. cbv zeta. destruct (negb utf8); [apply steady_fail|].
  destruct (starts_with_dot name) eqn:Hdot; [apply IH|].
  apply steady_bind; [steady|]. intros [| | |]; [| |apply steady_fail|apply IH].
  - apply steady_bind; [steady|]. intros st. apply IH.
  - destruct (is_report_id name); [|apply IH].
    apply steady_bind; [apply steady_context, steady_inspect; by exists dir, name|]. intros e. apply IH.
Qed.

Lemma validate_root_steady : steady (validate_retention_root dir).
Proof.
  unfold validate_retention_root. apply steady_bind; [steady|]. intros m. destruct (stat_type m); try apply steady_fail.
  apply steady_context, steady_ensure_dir. by rewrite (is_root_length root dir Hdir).
Qed.

Lemma collect_entries_steady : steady (collect_entries context cells dir).
Proof.
  unfold collect_entries, collect_entries_bounded. apply steady_bind; [apply steady_check|]. intros _.
  apply steady_bind; [apply validate_root_steady|]. intros _. apply steady_bind; [steady|]. intros entries. apply collect_loop_steady.
Qed.

Lemma collect_entries_returns : returns (collect_entries context cells dir) (Forall listed).
Proof.
  unfold collect_entries, collect_entries_bounded. eapply returns_bind; [apply returns_any|]. intros _ _.
  eapply returns_bind; [apply returns_any|]. intros _ _. eapply returns_bind; [apply returns_any|]. intros entries _.
  apply collect_loop_returns. constructor.
Qed.

Lemma tombstone_hidden name : is_retention_tombstone_name name = true → starts_with_dot name = true.
Proof.
  unfold is_retention_tombstone_name, strip_prefix_str, mbind, option_bind.
  destruct (String.prefix ".retention-" name) eqn:H; [|done]. intros _. by apply (prefix_dot "retention-").
Qed.

Lemma cleanup_steady : steady (cleanup_retention_tombstones context cells dir).
Proof.
  assert (∀ name, starts_with_dot name = true → steady (remove_stale_tombstone context cells (dir ++ [name]))) as Hremove.
  { intros name Hn. pose proof (hidden_below_dir name) as Hb. unfold remove_stale_tombstone.
    apply steady_bind; [steady|]. intros entries. apply steady_bind.
    - generalize 0. induction entries as [|entry entries IH]; intros inspected; cbn [remove_tombstone_entries]; [apply steady_ret|].
      apply steady_bind; [apply steady_check|]. intros _. case_decide; [apply steady_fail|].
      apply steady_bind; [steady|]. intros [n utf8]. apply steady_bind; [steady|]. intros kind. case_decide; [apply steady_fail|].
      apply steady_bind; [by apply steady_context, steady_remove_file, Hb|]. intros _. apply IH.
    - intros _. apply steady_bind; [apply steady_check|]. intros _. apply steady_context, steady_remove_dir. intros q. by apply Hb. }
  unfold cleanup_retention_tombstones. apply steady_bind; [steady|]. intros entries. apply steady_bind; [|intros [|]; steady].
  generalize 0, false. induction entries as [|entry entries IH]; intros inspected removed; cbn [cleanup_entries]; [apply steady_ret|].
  apply steady_bind; [apply steady_check|]. intros _. case_decide; [apply steady_fail|].
  apply steady_bind; [steady|]. intros [name utf8]. destruct (negb (utf8 && is_retention_tombstone_name name)) eqn:Hname; [apply IH|].
  apply negb_false_iff, andb_true_iff in Hname as [_ Hname].
  apply steady_bind; [steady|]. intros kind. case_decide; [apply IH|].
  apply steady_bind; [by apply Hremove, tombstone_hidden|]. intros _. apply IH.
Qed.

(** ** The whole post-processor *)

(** Reports in [P] may go, each at once. *)
Definition trims (P : PathBuf → Prop) {A : Type} (m : attempt S A) : Prop := ∀ s, grows (trim P) s (m s).2.

Lemma trims_steady P {A : Type} (m : attempt S A) : steady m → trims P m.
Proof. intros H s. by apply steady_trim. Qed.
Lemma trims_bind P {A B : Type} (m : attempt S A) (f : A → attempt S B) : trims P m → (∀ a, trims P (f a)) → trims P (m ≫= f).
Proof.
  intros Hm Hf s. specialize (Hm s). unfold mbind, attempt_bind. destruct (m s) as [[a|error] s']; [|done].
  eapply grows_trim_trans; [exact Hm|apply Hf].
Qed.
Lemma trims_ensuring P {A : Type} (release : S → S) (m : attempt S A) :
  (∀ s, disks (release s) = disks s) → trims P m → trims P (ensuring release m).
Proof.
  intros Hr Hm s. specialize (Hm s). unfold ensuring. destruct (m s) as [r s']. simpl in *.
  eapply grows_same_disks; [apply Hr|exact Hm].
Qed.

Lemma trims_lock P {A : Type} fuel (body : attempt S A) : trims P body → trims P (with_retention_lock context cells fuel dir body).
Proof.
  intros Hb. unfold with_retention_lock. cbv zeta. apply trims_bind.
  { apply trims_steady. induction fuel as [|fuel IH]; cbn [lock_process]; [apply steady_fail|].
    apply steady_bind; [apply steady_check|]. intros _. apply steady_bind; [apply steady_pure, process_try_lock_keeps|].
    intros [|]; [apply steady_ret|]. apply steady_bind; [|intros _; exact IH]. apply steady_keeps. intros s. apply sleep_poll_keeps. }
  intros _. apply trims_ensuring; [apply process_unlock_keeps|]. apply trims_bind.
  { apply trims_steady. eapply steady_differs; [|apply open_lock_grows]. intros q ->. apply dir_not_visible. }
  intros created. apply trims_bind; [apply trims_steady; destruct created; steady|]. intros _. apply trims_bind.
  { apply trims_steady. induction fuel as [|fuel IH]; cbn [lock_file]; [apply steady_fail|].
    apply steady_bind; [apply steady_check|]. intros _.
    apply steady_bind; [apply steady_context, steady_keeps, file_try_lock_keeps|].
    intros [|]; [apply steady_ret|]. apply steady_bind; [|intros _; exact IH]. apply steady_keeps. intros s. apply sleep_poll_keeps. }
  intros _. apply trims_ensuring; [intros s; apply file_unlock_keeps|done].
Qed.

Lemma prune_trims current e : listed e → trims (λ q, current ≠ Some q) (prune context cells e current).
Proof.
  intros He s. destruct (decide (entry_kind e = CommittedDirectory ∧ current = Some (entry_path e))) as [[Hk Hc]|Hn].
  - unfold prune, mbind, attempt_bind, get, entry_is_leased. rewrite Hk, bool_decide_true by done. by apply grows_keeps.
  - pose proof (prune_removal e current s He) as H. destruct (prune context cells e current s) as [r s'].
    destruct H as (removed & _ & [H _] & _). eapply trim_weaken; [|exact H]. intros q [Hk ->] Hc. by apply Hn.
Qed.

Lemma trims_prune current e {A : Type} (f g : attempt S A) :
  listed e → trims (λ q, current ≠ Some q) f → trims (λ q, current ≠ Some q) g →
  trims (λ q, current ≠ Some q) (removed ← prune context cells e current; if (removed : bool) then f else g).
Proof. intros He Hf Hg. apply trims_bind; [by apply prune_trims|]. by intros [|]. Qed.

Lemma total_of_steady l t : steady (total_of context cells l t).
Proof.
  revert t. induction l as [|e l IH]; intros t; cbn [total_of]; [apply steady_ret|].
  apply steady_bind; [apply steady_check|]. intros _. apply IH.
Qed.

Lemma passes_trims m now current entries :
  Forall listed entries → trims (λ q, current ≠ Some q) (passes context cells m now current entries).
Proof.
  intros Hl. assert (∀ l s, Forall listed l → let '(r, _) := age_pass context cells m now current l s in
    ∀ l', r = Ok l' → Forall listed l') as Hage.
  { intros l s H. pose proof (age_pass_ok m now current l H s) as Ha. destruct (age_pass _ _ _ _ _ l s) as [r s'].
    destruct Ha as (rest & (rm & b & -> & _) & Hr). intros l' Hl'. rewrite (Hr l' Hl'). by apply Forall_app in H as [_ ?]. }
  assert (∀ l s, Forall listed l → let '(r, _) := count_pass context cells m current l s in
    ∀ l', r = Ok l' → Forall listed l') as Hcount.
  { intros l s H. pose proof (count_pass_ok m now current l H s) as Ha. destruct (count_pass _ _ _ _ l s) as [r s'].
    destruct Ha as (rest & (rm & b & -> & _) & Hr). intros l' Hl'. rewrite (Hr l' Hl'). by apply Forall_app in H as [_ ?]. }
  assert (∀ l, Forall listed l → trims (λ q, current ≠ Some q) (age_pass context cells m now current l)) as Ta.
  { induction 1; cbn [age_pass]; [apply trims_steady, steady_ret|].
    apply trims_bind; [apply trims_steady, steady_check|]. intros _. case_decide; [apply trims_steady, steady_ret|].
    apply trims_prune; [done|done|apply trims_steady, steady_ret]. }
  assert (∀ l, Forall listed l → trims (λ q, current ≠ Some q) (count_pass context cells m current l)) as Tc.
  { induction 1; cbn [count_pass]; [apply trims_steady, steady_ret|]. case_decide; [apply trims_steady, steady_ret|].
    apply trims_bind; [apply trims_steady, steady_check|]. intros _.
    apply trims_prune; [done|done|apply trims_steady, steady_ret]. }
  assert (∀ l t, Forall listed l → trims (λ q, current ≠ Some q) (bytes_pass context cells m current l t)) as Tb.
  { intros l t H. revert t. induction H; intros t; cbn [bytes_pass]; [apply trims_steady, steady_ret|].
    case_decide; [apply trims_steady, steady_ret|].
    apply trims_bind; [apply trims_steady, steady_check|]. intros _.
    apply trims_prune; [done|done|apply trims_steady, steady_ret]. }
  intros s. unfold passes. unfold mbind at 1, attempt_bind at 1. specialize (Hage entries s Hl). pose proof (Ta entries Hl s) as H1.
  destruct (age_pass _ _ _ _ _ entries s) as [[l1|error] s1]; [|exact H1]. specialize (Hage l1 eq_refl). simpl in H1.
  eapply grows_trim_trans; [exact H1|]. unfold mbind at 1, attempt_bind at 1. specialize (Hcount l1 s1 Hage).
  pose proof (Tc l1 Hage s1) as H2. destruct (count_pass _ _ _ _ l1 s1) as [[l2|error] s2]; [|exact H2].
  specialize (Hcount l2 eq_refl). simpl in H2. eapply grows_trim_trans; [exact H2|].
  refine (trims_bind _ _ _ _ _ s2).
  - apply trims_steady, total_of_steady.
  - intros total. apply trims_bind; [by apply Tb|]. intros [l4 t4]. apply trims_bind; [apply trims_steady, steady_check|].
    intros _. apply trims_steady. apply steady_bind; [|intros; apply steady_ret]. unfold final_check. case_match; steady.
Qed.

Context (transaction : option (ReportContext * TransactionCore)).
Notation current := (report_dir <$> committed_report transaction).

Lemma enforce_trims m : trims (λ q, current ≠ Some q) (enforce context cells transaction m dir).
Proof.
  unfold enforce. apply trims_bind; [apply trims_steady, cleanup_steady|]. intros _ s.
  unfold mbind at 1, attempt_bind at 1. pose proof (trims_steady (λ q, current ≠ Some q) _ collect_entries_steady s) as H1.
  pose proof (collect_entries_returns s) as H2. destruct (collect_entries context cells dir s) as [[entries|error] s1]; [|exact H1].
  simpl in H1. specialize (H2 entries eq_refl). eapply grows_trim_trans; [exact H1|].
  destruct entries as [|e entries]; [by apply grows_keeps|]. revert s1 H1. intros s1 _. revert s1.
  apply trims_bind; [apply trims_steady, steady_pure, system_now_keeps|]. intros now.
  apply trims_bind; [|intros _; apply trims_steady, steady_ret]. apply passes_trims.
  unfold sort_oldest_first. rewrite stable_sort_perm. exact H2.
Qed.

End Spec.

(** The directory that retention works on is a root of reports. *)
Definition rooted {S Bytes J : Type} {clock : Clock S} {ops : PrivateFs S Bytes J} {rops : RetentionOps S} (root : PathBuf)
    (m : RetentionManager) : Prop :=
  (∀ d, dir_override m = Some d → is_root root d) ∧ ∀ s d, (sent_dir s).1 = Ok d → is_root root d.

(** The whole post-processor keeps the disks consistent and the current report. *)
Lemma retention_process_trims {S Bytes J : Type} {clock : Clock S} {ops : PrivateFs S Bytes J} {disks : S → list (Disk Bytes)}
    {laws : PrivateFsLaws S Bytes J disks} {rops : RetentionOps S} {rlaws : RetentionLaws S Bytes J disks}
    {Txn Ctx : Type} (root : PathBuf) (context : PluginContext Txn Ctx) (cells : Cells) report c m fuel :
  output_root report = root → rooted root m →
  (∀ r, core_committed_report c = Some r → ∃ d n, report_dir r = d ++ [n] ∧ is_root root d) →
  trims (disks := disks) root (λ q, (report_dir <$> core_committed_report c) ≠ Some q)
    (retention_process context cells (Some (report, c)) m fuel).
Proof.
  intros Hroot [Hover Hsent] Hcom. unfold retention_process.
  apply trims_bind; [apply trims_steady, steady_check|]. intros _ s. unfold mbind at 1, attempt_bind at 1.
  assert (grows disks (same_visible root) s (target_dir (Some (report, c)) m s).2 ∧
    ∀ d, (target_dir (Some (report, c)) m s).1 = Ok d → is_root root d) as [H1 H2].
  { unfold target_dir. destruct (dir_override m) as [d|].
    - split; [by apply grows_keeps|]. intros ? [= <-]. by apply Hover.
    - unfold committed_report, mbind, option_bind. simpl.
      assert (grows disks (same_visible root) s (Artifact.context "sent_dir" sent_dir s).2 ∧
        ∀ d, (Artifact.context "sent_dir" sent_dir s).1 = Ok d → is_root root d) as Hdefault.
      { unfold Artifact.context. pose proof (sent_dir_keeps s) as Hk. pose proof (Hsent s) as Hr.
        destruct (sent_dir s) as [[d|] s']; (split; [by apply grows_keeps|]); [|done]. intros ? [= <-]. by apply Hr. }
      destruct (core_committed_report c) as [r|] eqn:Hr; [|exact Hdefault].
      destruct (Hcom r eq_refl) as (d & n & Hd & Hd'). rewrite Hd. destruct (parent (d ++ [n])) as [p|] eqn:Hp; [|exact Hdefault].
      split; [by apply grows_keeps|]. intros ? [= <-]. apply parent_Some in Hp as [_ ->]. by rewrite removelast_last. }
  destruct (target_dir _ m s) as [[dir|error] s1]; [|by eapply grows_weaken; [|exact H1]; apply same_visible_trim].
  simpl in H1. specialize (H2 dir eq_refl). eapply grows_trim_trans; [eapply grows_weaken; [|exact H1]; apply same_visible_trim|].
  revert s1 H1. intros s1 _. revert s1. apply trims_bind.
  { apply trims_steady. apply steady_bind; [|intros; apply steady_ret]. rewrite Hroot. apply scavenge_steady. }
  intros _. apply trims_bind; [by apply trims_steady, validate_root_steady|]. intros _.
  apply trims_lock; [done|]. by apply (enforce_trims root context cells dir H2 (Some (report, c)) m).
Qed.

(** ** Oldest first, within the quotas *)

Lemma modified_sorted l : StronglySorted (λ a b, (modified a <=? modified b) = true) (sort_oldest_first l).
Proof.
  apply stable_sort_sorted.
  - intros a b. rewrite !Z.leb_le. lia.
  - intros a b c. rewrite !Z.leb_le. lia.
Qed.

Lemma sorted_suffix {A : Type} (R : A → A → Prop) l1 l2 : StronglySorted R (l1 ++ l2) → StronglySorted R l2.
Proof. induction l1 as [|a l1 IH]; [done|]. intros H. apply IH. by inversion H. Qed.

Lemma sum_sizes_perm l1 l2 : l1 ≡ₚ l2 → sum_sizes l1 = sum_sizes l2.
Proof. induction 1; simpl; lia. Qed.


(** ** Two reports in memory *)

Module Example.
Import ArtifactMemory.

#[export] Instance mem_retention : RetentionOps MemFs := {|
  stat p s :=
    (if decide (is_Some (current s !! p)) then Ok (mkStat DirEntryType 0 (Some 0) 1 1)
     else match file_of p (current s) with
          | Some b => Ok (mkStat FileEntry (length_of b) (Some 0) 1 1)
          | None => Err "No such file or directory"%string
          end, s);
  stat_open p s :=
    (match file_of p (current s) with
     | Some b => Ok (mkStat FileEntry (length_of b) (Some 0) 1 1)
     | None => Err "No such file or directory"%string
     end, s);
  stat_directory p s := (Ok (mkStat DirEntryType 0 (Some 0) 1 1), s);
  entry_type p s := (Ok (if decide (is_Some (current s !! p)) then DirEntryType else FileEntry), s);
  system_now s := (0, s);
  leased p s := false;
  sent_dir s := (Err "no home directory"%string, s);
  process_try_lock s := (true, s);
  process_unlock s := s;
  open_retention_lock_file p s := (Ok false, s);
  file_try_lock p s := (Ok true, s);
  file_unlock p s := s;
  sleep_poll s := s
|}.

#[export] Instance mem_retention_laws : RetentionLaws MemFs Content unit history.
Proof.
  split; try done; cbn -[file_of].
  - intros p s. split; [done|]. intros m. destruct (decide (is_Some (current s !! p))) as [H|]; [by intros _ _|].
    destruct (file_of p (current s)); [|done]. by intros [= <-] ?.
  - intros p n s. apply grows_same.
Qed.

Definition root : PathBuf := ["/"; "reports"]%string.
Definition first_id : string := "00000000000000000000000000000001".
Definition second_id : string := "00000000000000000000000000000002".

Definition report_files (report_id : string) : Files :=
  {[ MANIFEST_FILE_NAME := ManifestContent (mkManifest MANIFEST_SCHEMA_VERSION report_id Crash 7 "app" "now" OutputRoot [] None) ]}%string.

Definition two_reports : MemDisk :=
  <[root ++ [first_id] := report_files first_id]> (<[root ++ [second_id] := report_files second_id]> {[ root := ∅ ]}).

Definition start : MemFs := mkMemFs [two_reports] 0.

Definition one_report : RetentionManager := retention_new 1 100 30.

Definition inventory : list ReportEntry :=
  match (collect_entries (Txn := unit) (Ctx := unit) without_deadline (fresh_cells false) root start).1 with
  | Ok entries => entries
  | Err _ => []
  end.

Lemma report_complete report_id : complete report_id (report_files report_id).
Proof.
  eexists _, _. split; [apply lookup_singleton_eq|]. split; [reflexivity|].
  split_and!; [reflexivity|reflexivity|by apply not_elem_of_nil| |].
  - intros n. simpl. unfold report_files. rewrite lookup_singleton_is_Some.
    split; [by left|by intros [?|?%elem_of_nil]].
  - intros a Ha. by apply elem_of_nil in Ha.
Qed.

Lemma two_reports_consistent : consistent root two_reports.
Proof.
  intros r n files Hr Hn H. unfold two_reports in H. apply lookup_insert_Some in H as [[Heq <-]|[_ H]].
  - apply app_inj_tail in Heq as [_ <-]. apply report_complete.
  - apply lookup_insert_Some in H as [[Heq <-]|[_ H]].
    + apply app_inj_tail in Heq as [_ <-]. apply report_complete.
    + apply lookup_singleton_Some in H as [Heq _]. exfalso. apply (root_not_visible root root (or_introl eq_refl)).
      exists r, n. by split.
Qed.

Lemma inventory_listed : Forall (listed root) inventory.
Proof.
  unfold inventory. pose proof (collect_entries_returns (Txn := unit) (Ctx := unit) without_deadline (fresh_cells false) root start) as H.
  destruct (collect_entries without_deadline (fresh_cells false) root start).1 as [entries|error]; [by apply H|constructor].
Qed.

End Example.

Import ArtifactMemory.
Import Example.


End RetentionSpec.
