(* ===== verification/ArtifactProtocol.v ===== *)
(** * Whole histories of the artifact store

    [run] is a history of transactions, recoveries, scavenges and crashes over one
    output root. The theorems are about every disk such a history goes through. *)

From S2P Require Import Prelude.
From S2P Require Import Attempt.
From S2P Require Import PipelineTypes.
From S2P Require Import PluginRun.
From S2P Require Import Pipeline.
From S2P Require Import Artifact.
From S2P Require Import ArtifactSpec.
From S2P Require Import ArtifactMemory.
From S2P Require Import ArtifactRecovery.
From S2P Require Import Retention.
From S2P Require Import RetentionSpec.

Module ArtifactProtocol.
Export ArtifactSpec.
Export ArtifactRecovery.
Export RetentionSpec.
Export ArtifactMemory.

(** ** Histories *)

Section History.
Context {S Bytes J : Type} {clock : Clock S} {ops : PrivateFs S Bytes J} {bytes_eq : EqDecision Bytes} {rops : RetentionOps S}.

(** What the owner of a transaction can ask for. *)
Inductive Request : Type :=
| WriteArtifact (name : string) (kind : ArtifactKind) (write : PathBuf → attempt S unit)
| WriteBytes (name : string) (kind : ArtifactKind) (bytes : Bytes)
| RegisterFile (p : PathBuf) (kind : ArtifactKind)
| UnregisterFile (p : PathBuf)
| SetDestinationRoot (d : PathBuf)
| RecordDurabilityWarning (warning : string)
| CommitReport
| PersistFinalDiagnostics (final : J)
| RetainReports (m : RetentionManager) (context : PluginContext unit unit) (cells : Cells) (fuel : nat)
| ReleasePublicationLease.

Definition discard {X A : Type} (m : attempt X A) : attempt X unit := _ ← m; mret tt.

Definition request (report : ReportContext) (r : Request) : attempt (World S) unit :=
  match r with
  | WriteArtifact name kind write => discard (write_artifact report name kind write)
  | WriteBytes name kind bytes => discard (write_bytes report name kind bytes)
  | RegisterFile p kind => register_file report p kind
  | UnregisterFile p => unregister_file report p
  | SetDestinationRoot d => set_destination_root report d
  | RecordDurabilityWarning warning => record_durability_warning warning
  | CommitReport => discard (commit report)
  | PersistFinalDiagnostics final =>
      c ← get (λ w, core_committed_report (core w));
      match c with Some c => on_fs (persist_final_diagnostics c final) | None => mret tt end
  | RetainReports m context cells fuel =>
      c ← get (λ w, core w);
      on_fs (retention_process context cells (Some (report, c)) m fuel)
  | ReleasePublicationLease => release_publication_lease
  end.

Definition run_requests (report : ReportContext) (rs : list Request) (w : World S) : World S :=
  foldl (λ w r, (request report r w).2) w rs.

(** A transaction may be dropped or abandoned (a crash follows); [restart] is the
    environment that the next process finds. *)
Inductive Event : Type :=
| Transaction (event : CrashEvent) (policy : ReportPolicy) (requests : list Request) (dropped : bool)
| Recover
| Scavenge (max_age : Z)
| Restart (restart : S → S).

Definition begin (root : PathBuf) (event : CrashEvent) (policy : ReportPolicy) (leases : gset PathBuf) (s : S)
    : option (World S) * S :=
  let '(r, s) := begin_shared (context_with_policy event root policy) s in
  (match r with Ok c => Some (mkWorld s c leases) | Err _ => None end, s).

Definition run_event (root : PathBuf) (e : Event) (state : S * gset PathBuf) : S * gset PathBuf :=
  let '(s, leases) := state in
  match e with
  | Transaction event policy requests dropped =>
      let report := context_with_policy event root policy in
      match begin root event policy leases s with
      | (None, s) => (s, leases)
      | (Some w, _) =>
          let w := run_requests report requests w in
          let w := if dropped then (drop_transaction report w).2 else w in
          (fs w, Artifact.leases w)
      end
  | Recover => ((recover_prepared_reports root s).2, leases)
  | Scavenge max_age => ((scavenge_stale_pending root max_age s).2, leases)
  | Restart restart => (restart s, ∅)
  end.

Definition run (root : PathBuf) (events : list Event) (state : S * gset PathBuf) : S * gset PathBuf :=
  foldl (λ state e, run_event root e state) state events.

(** ** Every disk of a history *)

Context {disks : S → list (Disk Bytes)} {laws : PrivateFsLaws S Bytes J disks}.
Context {rlaws : RetentionLaws S Bytes J disks} (root : PathBuf).

(** The writer of an artifact touches the directory of the file it is given
    only; retention works on a root of reports; a restart finds a disk that the environment went through. *)
Definition request_ok (r : Request) : Prop :=
  match r with
  | WriteArtifact _ _ write => harmless (disks := disks) root write
  | RetainReports m _ _ _ => rooted root m
  | _ => True
  end.

Definition event_ok (e : Event) : Prop :=
  match e with
  | Transaction event _ requests _ => starts_with_dot (report_id event) = false ∧ Forall request_ok requests
  | Restart restart => ∀ s, ∃ ds, disks (restart s) = ds ++ disks s ∧ Forall (λ d, d ∈ disks s) ds
  | _ => True
  end.

Lemma staging_hidden event :
  starts_with_dot (STAGING_PREFIX +:+ report_id event +:+ STAGING_SUFFIX)%string = true.
Proof. done. Qed.

Section Transaction.
Context (event : CrashEvent) (policy : ReportPolicy) (Hid : starts_with_dot (report_id event) = false).
Notation report := (context_with_policy event root policy).
Notation staging_name := (STAGING_PREFIX +:+ report_id event +:+ STAGING_SUFFIX)%string.
Notation winv := (winv (disks := disks) root report).

Lemma gentle_safe {A : Type} (m : attempt (World S) A) w : gentle (disks := disks) root m → winv w → winv (m w).2.
Proof. by apply gentle_winv. Qed.

Lemma gentle_discard {A : Type} (m : attempt (World S) A) :
  gentle (disks := disks) root m → gentle (disks := disks) root (discard m).
Proof. intros Hm. apply gentle_bind; [done|]. intros. apply gentle_ret. Qed.

Lemma write_bytes_gentle name kind bytes :
  gentle (disks := disks) root (write_bytes report name kind bytes).
Proof.
  refine (write_artifact_gentle root report staging_name eq_refl eq_refl eq_refl name kind _ _).
  intros p n Hp. by apply steady_context, steady_write_all.
Qed.

Lemma begin_winv leases s w s' :
  Forall (consistent root) (disks s) → begin root event policy leases s = (Some w, s') → winv w.
Proof.
  intros Hs. unfold begin.
  pose proof (begin_shared_steady root report staging_name
    eq_refl eq_refl eq_refl s) as Hg.
  destruct (begin_shared report s) as [[c|error] s1] eqn:E; [|done]. intros [= <- <-].
  assert (c = mkCore ∅ [] root Open 0 None None) as ->.
  { revert E. unfold begin_shared, mbind, attempt_bind. destruct (ensure_real_directory _ s) as [[[]|] s2]; [|done].
    destruct (create_private_directory _ s2) as [[[]|] s3]; [|done]. destruct (catch _ s3) as [[[[]|]|] s4]; try done;
      try (by intros [= <- _]); by destruct (ignore _ s4) as [[[]|]]. }
  split_and!; simpl; [by eapply grows_consistent|by split; [|left]|done].
Qed.

Lemma persist_winv w final c :
  core_committed_report (core w) = Some c → winv w → winv (on_fs (persist_final_diagnostics c final) w).2.
Proof.
  intros Hc (H1 & H2 & H3). destruct (H3 c Hc) as (Hcid & r & Hr & Hdir & files & Hf).
  pose proof (persist_final_diagnostics_spec root report staging_name eq_refl eq_refl c final r files Hr ltac:(by rewrite Hcid) ltac:(by rewrite Hdir, Hcid)
    (fs w) (conj H1 Hf)) as (files' & Hall & Hf').
  unfold on_fs. destruct (persist_final_diagnostics c final (fs w)) as [res s']. simpl in *.
  split_and!; simpl; [done|done|]. intros c' Hc'. rewrite Hc in Hc'. injection Hc' as <-. split; [done|]. exists r.
  split_and!; [done..|by exists files'].
Qed.

(** Retention removes whole reports and spares the committed one. *)
Lemma retention_winv m (context : PluginContext unit unit) cells fuel w :
  rooted root m → winv w → winv (on_fs (retention_process context cells (Some (report, core w)) m fuel) w).2.
Proof.
  intros Hm (H1 & H2 & H3). pose proof (retention_process_trims root context cells report (core w) m fuel eq_refl Hm) as Ht.
  specialize (Ht ltac:(intros r Hr; destruct (H3 r Hr) as (_ & d & Hd & Hdir & _); by exists d, (context_report_id report)) (fs w)).
  unfold on_fs. destruct (retention_process context cells _ m fuel (fs w)) as [r s']. simpl in *. split_and!; simpl.
  - destruct Ht as (ds & Hd & Hds). rewrite Hd. apply Forall_app. split; [|done]. eapply Forall_impl; [exact Hds|].
    intros d Hd'. eapply trim_consistent; [exact Hd'|]. by apply disk_consistent.
  - done.
  - intros c Hc. destruct (H3 c Hc) as (Hcid & d & Hd & Hdir & Hsome). split; [done|]. exists d. split_and!; [done..|].
    eapply grows_disk in Ht; [|apply trim_refl]. destruct (Ht (report_dir c)) as [Heq|[Hne _]].
    + rewrite Hdir. by exists d, (context_report_id report).
    + by rewrite Heq.
    + exfalso. apply Hne. by rewrite Hc.
Qed.

Lemma request_winv r w : request_ok r → winv w → winv (request report r w).2.
Proof.
  intros Hr Hw. destruct r as [name kind write|name kind bytes|p kind|p|d|warning| |final|m context cells fuel|]; cbn [request].
  - apply gentle_safe; [|done]. apply gentle_discard.
    by apply (write_artifact_gentle root report staging_name).
  - apply gentle_safe; [|done]. apply gentle_discard, write_bytes_gentle.
  - apply gentle_safe; [|done]. by apply register_file_gentle.
  - apply gentle_safe; [|done]. apply unregister_file_gentle.
  - apply gentle_safe; [|done]. by apply set_destination_root_gentle.
  - apply gentle_safe; [|done]. apply gentle_warning.
  - pose proof (commit_spec root report staging_name
      eq_refl eq_refl eq_refl Hid eq_refl w Hw) as H.
    unfold discard, mbind, attempt_bind. destruct (commit report w) as [[c|error] w']; by destruct H.
  - unfold mbind, attempt_bind, get. destruct (core_committed_report (core w)) as [c|] eqn:Hc; [by apply persist_winv|done].
  - unfold mbind, attempt_bind, get. by apply retention_winv.
  - apply gentle_safe; [|done]. apply release_lease_gentle.
Qed.

Lemma run_requests_winv rs w : Forall request_ok rs → winv w → winv (run_requests report rs w).
Proof.
  intros Hrs. revert w. induction Hrs as [|r rs Hr _ IH]; intros w Hw; [done|]. apply IH. by apply request_winv.
Qed.

End Transaction.

Lemma run_event_consistent e s leases :
  event_ok e → Forall (consistent root) (disks s) → Forall (consistent root) (disks (run_event root e (s, leases)).1).
Proof.
  intros He Hs. destruct e as [event policy requests dropped| |max_age|restart]; cbn [run_event].
  - destruct He as [Hid Hr]. destruct (begin root event policy leases s) as [[w|] s'] eqn:E.
    + pose proof (run_requests_winv event policy Hid requests w Hr (begin_winv event policy leases s w s' Hs E)) as Hw.
      destruct dropped; [|by destruct Hw]. simpl.
      by apply (gentle_safe event policy Hid _ _ (drop_transaction_gentle root (context_with_policy event root policy)
        (STAGING_PREFIX +:+ report_id event +:+ STAGING_SUFFIX)%string eq_refl eq_refl)) in Hw as [? _].
    + simpl. unfold begin in E. pose proof (begin_shared_steady root (context_with_policy event root policy)
        (STAGING_PREFIX +:+ report_id event +:+ STAGING_SUFFIX)%string eq_refl eq_refl eq_refl s) as Hg.
      destruct (begin_shared _ s) as [r s1]. destruct r; [done|]. injection E as <-. by eapply grows_consistent.
  - by apply (recover_prepared_reports_safe root).
  - by apply (scavenge_stale_pending_safe root).
  - simpl. destruct (He s) as (ds & -> & Hds). apply Forall_app. split; [|done].
    eapply Forall_impl; [exact Hds|]. intros d Hd. rewrite Forall_forall in Hs. by apply Hs.
Qed.

(** C13. Over any history of transactions, retention runs, recoveries of prepared
    transactions, removals of stale ones and crashes, whichever operation of the file system
    fails: on every disk that the history goes through, so wherever a crash
    leaves it, every visible report directory is complete. It holds its manifest
    and exactly the artifacts the manifest lists, each of the listed size, under
    the identity of the directory. *)
Theorem published_reports_complete events s leases :
  Forall event_ok events → Forall (consistent root) (disks s) →
  Forall (consistent root) (disks (run root events (s, leases)).1).
Proof.
  intros He. revert s leases. induction He as [|e events He _ IH]; intros s leases Hs; [done|].
  cbn [run foldl]. pose proof (run_event_consistent e s leases He Hs) as H.
  destruct (run_event root e (s, leases)) as [s' leases']. by apply IH.
Qed.

(** C38. A commit that succeeds, after any requests on a fresh transaction, found
    the transaction open and idle and leaves it committed; the staging directory
    is gone, and the destination holds the manifest and exactly the registered
    artifacts, whose listed sizes stay within the byte budget of the policy. *)
Theorem commit_publishes_exactly event policy requests s leases w s' c :
  starts_with_dot (report_id event) = false → Forall request_ok requests → Forall (consistent root) (disks s) →
  begin root event policy leases s = (Some w, s') →
  let report := context_with_policy event root policy in
  let w := run_requests report requests w in
  let '(r, w') := commit report w in
  r = Ok c → committed_as (disks := disks) report w c w'.
Proof.
  intros Hid Hr Hs Hb report w0. pose proof (run_requests_winv event policy Hid requests w Hr (begin_winv event policy leases s w s' Hs Hb)) as Hw.
  pose proof (commit_spec root report (STAGING_PREFIX +:+ report_id event +:+ STAGING_SUFFIX)%string
    eq_refl eq_refl eq_refl Hid eq_refl w0 Hw) as H.
  destruct (commit report w0) as [r w']. destruct H as [_ H]. apply H.
Qed.

End History.

(** ** A history in memory *)

#[local] Existing Instance RetentionSpec.Example.mem_retention.
#[local] Existing Instance RetentionSpec.Example.mem_retention_laws.

Module Example.
Import Types.

Definition root : PathBuf := ["/"; "reports"]%string.
Definition event : CrashEvent :=
  mkCrashEvent "0123456789abcdef0123456789abcdef" Types.Crash None None None None [] None false 7 "app" None.
Definition policy : ReportPolicy := report_policy_default.
Definition requests : list (Request (S := MemFs) (Bytes := Content) (J := unit)) :=
  [WriteBytes "report.json" Report (Data "{}");
   WriteArtifact "threads.raw" ThreadRaw (λ p, write_all p (Data "0123"));
   CommitReport; RetainReports (retention_new 0 0 0) without_deadline (fresh_cells false) 1;
   PersistFinalDiagnostics tt; ReleasePublicationLease]%string.

(** A restart that loses the last [n] changes. *)
Definition lose (n : nat) (s : MemFs) : MemFs :=
  match history s !! n with Some d => push d s | None => s end.

Definition empty : MemFs := mkMemFs [] 0.

(** The report is lost by a crash after its preparation, then recovered. *)
Definition events : list (Event (S := MemFs) (Bytes := Content) (J := unit)) :=
  [Transaction event policy (take 3 requests) false; Restart (lose 1); Recover; Scavenge 0;
   Transaction event policy requests true].

Definition report_files (state : MemFs * gset PathBuf) : option (list string) :=
  (λ files : Files, elements (dom files)) <$> current state.1 !! (root ++ [report_id event]).

Example lost : report_files (run root (take 2 events) (empty, ∅)) = None.
Proof. vm_compute. reflexivity. Qed.
Example recovered : length <$> report_files (run root events (empty, ∅)) = Some 3%nat.
Proof. vm_compute. reflexivity. Qed.

Lemma lose_ok n s : ∃ ds, history (lose n s) = ds ++ history s ∧ Forall (λ d, d ∈ history s) ds.
Proof.
  unfold lose. destruct (history s !! n) as [d|] eqn:H; [|by exists []]. exists [d]. split; [done|].
  constructor; [by eapply list_elem_of_lookup_2|constructor].
Qed.

Lemma retention_rooted : rooted root (retention_new 0 0 0).
Proof. by split. Qed.

Lemma writer_harmless b : harmless (disks := history) root (λ p, write_all p b).
Proof. intros p n Hp. by apply steady_write_all. Qed.

Lemma requests_ok : Forall (request_ok (disks := history) root) requests.
Proof.
  unfold requests. rewrite !Forall_cons. split_and!;
    [done|apply writer_harmless|done|apply retention_rooted|done|done|by apply Forall_nil].
Qed.

Lemma events_ok : Forall (event_ok (disks := history) root) events.
Proof.
  unfold events. constructor; [split; [done|apply Forall_take, requests_ok]|]. constructor; [intros s; apply lose_ok|].
  constructor; [done|]. constructor; [done|]. constructor; [split; [done|apply requests_ok]|constructor].
Qed.

End Example.

Lemma published_reports_complete_witness :
  Forall (consistent Example.root) (history (run Example.root Example.events (Example.empty, ∅)).1) ∧
  length <$> Example.report_files (run Example.root Example.events (Example.empty, ∅)) = Some 3%nat.
Proof.
  split; [|exact Example.recovered]. apply (published_reports_complete Example.root); [apply Example.events_ok|constructor].
Defined.

Definition opened : option (World MemFs) * MemFs := begin Example.root Example.event Example.policy ∅ Example.empty.
Definition opened_world : World MemFs :=
  default (mkWorld Example.empty (mkCore ∅ [] [] Open 0 None None) ∅) opened.1.
Definition registered_world : World MemFs :=
  run_requests (context_with_policy Example.event Example.root Example.policy) (take 2 Example.requests) opened_world.

Lemma commit_publishes_exactly_witness : ∃ c w',
  commit (context_with_policy Example.event Example.root Example.policy) registered_world = (Ok c, w') ∧
  committed_as (disks := history) (context_with_policy Example.event Example.root Example.policy) registered_world c w'.
Proof.
  pose proof (commit_publishes_exactly Example.root Example.event Example.policy (take 2 Example.requests) Example.empty ∅
    opened_world opened.2) as H.
  change (run_requests _ (take 2 Example.requests) opened_world) with registered_world in H. cbv zeta in H.
  assert (is_ok (commit (context_with_policy Example.event Example.root Example.policy) registered_world).1 = true) as Hok
    by (vm_compute; reflexivity).
  destruct (commit _ registered_world) as [[c|error] w']; [|discriminate Hok].
  exists c, w'. split; [reflexivity|]. specialize (H c). apply H; [vm_compute; reflexivity| | |vm_compute; reflexivity|reflexivity].
  - apply Forall_take, Example.requests_ok.
  - constructor.
Defined.

End ArtifactProtocol.
