(* ===== verification/Sanitizer.v ===== *)
(** * Masking of user names and home directories (src/preprocessors/sanitizer.rs)

    The pre-processor that masks the home directory and the user name in the
    collected data, and its JSON variant for the written report. A Rust string is
    the list of its bytes; the ASCII case folding keeps every offset. *)

From S2P Require Import Prelude.
From S2P Require Import ShmReader.
From S2P Require Import PipelineTypes.
From S2P Require Import Attempt.
From S2P Require Import PluginRun.
From S2P Require Import Pipeline.

Module Sanitizer.
Import Types.
Import PluginRun.
Export Attempt.

(** ** Text *)

Definition text : Type := list Ascii.ascii.

Definition text_of (s : string) : text := String.list_ascii_of_string s.
Definition to_string (t : text) : string := String.string_of_list_ascii t.

(** The bytes of strings read from shared memory. *)
Definition of_bytes (l : list Z) : text := (λ b, Ascii.ascii_of_nat (Z.to_nat b)) <$> l.
Definition to_bytes (t : text) : list Z := (λ c, Z.of_nat (Ascii.nat_of_ascii c)) <$> t.

Definition slash : Ascii.ascii := Ascii.ascii_of_nat 47.
Definition open_bracket : Ascii.ascii := Ascii.ascii_of_nat 91.
Definition close_bracket : Ascii.ascii := Ascii.ascii_of_nat 93.

(** [u8::to_ascii_lowercase]. *)
Definition to_lower (c : Ascii.ascii) : Ascii.ascii :=
  let n := Ascii.nat_of_ascii c in if (65 <=? n)%nat && (n <=? 90)%nat then Ascii.ascii_of_nat (n + 32) else c.

Definition to_ascii_lowercase (t : text) : text := to_lower <$> t.

Fixpoint is_prefix (p t : text) : bool :=
  match p, t with
  | [], _ => true
  | _, [] => false
  | a :: p, b :: t => bool_decide (a = b) && is_prefix p t
  end.

(** [str::find]. *)
Fixpoint find (p t : text) : option nat :=
  if is_prefix p t then Some 0%nat else
  match t with [] => None | _ :: t => S <$> find p t end.

(** [&t[a..b]]. *)
Definition slice (a b : nat) (t : text) : text := take (b - a) (drop a t).

(** The end of the value, or a separator. *)
Definition component_boundary (stop : nat) (value : text) : bool :=
  bool_decide (stop = length value) || bool_decide (value !! stop = Some slash).

(** The loop of [replace_path_prefix]; [None] when the fuel runs out. *)
Fixpoint replace_loop (fuel : nat) (value prefix replacement : text) (cursor : nat) (output : text) : option text :=
  match fuel with
  | O => None
  | S fuel =>
      match find (to_ascii_lowercase prefix) (drop cursor (to_ascii_lowercase value)) with
      | Some relative =>
          let start := (cursor + relative)%nat in
          let stop := (start + length prefix)%nat in
          replace_loop fuel value prefix replacement stop
            (if component_boundary stop value then output ++ slice cursor start value ++ replacement
             else output ++ slice cursor stop value)
      | None => Some (output ++ drop cursor value)
      end
  end.

(** A prefix that is not empty consumes a byte per iteration, so the length of
    the value bounds them. *)
Definition replace_path_prefix (value prefix replacement : text) : text :=
  match prefix with
  | [] => value
  | _ => default value (replace_loop (S (length value)) value prefix replacement 0 [])
  end.

(** ** The sanitizer *)

Record Sanitizer := mkSanitizer { username : option string; home : option string }.

Definition non_empty (s : option string) : option string :=
  s ← s; if decide (s = EmptyString) then None else Some s.

(** [trim_end_matches('/')] and [rsplit('/').next()], on the reversed text. *)
Fixpoint skip_slashes (t : text) : text :=
  match t with c :: t' => if decide (c = slash) then skip_slashes t' else t | [] => [] end.
Fixpoint until_slash (t : text) : text :=
  match t with c :: t => if decide (c = slash) then [] else c :: until_slash t | [] => [] end.

Definition last_component (path : string) : string :=
  to_string (rev (until_slash (skip_slashes (rev (text_of path))))).

Definition from_identity (user home : option string) : Sanitizer :=
  let home := non_empty home in
  mkSanitizer
    (match non_empty user with
     | Some user => Some user
     | None => path ← home; non_empty (Some (last_component path))
     end) home.

Definition HOME_MASK : text := text_of "[HOME]".
Definition USERNAME_MASK : text := text_of "[USERNAME]".
Definition user_home (user : string) : text := text_of ("/Users/" +:+ user).

Definition sanitize_str (s : Sanitizer) (value : text) : text :=
  let value := match home s with
               | Some home => replace_path_prefix value (text_of home) HOME_MASK
               | None => value
               end in
  match username s with
  | Some user =>
      let value := replace_path_prefix value (user_home user) (text_of "/Users/[USERNAME]") in
      if decide (to_ascii_lowercase value = to_ascii_lowercase (text_of user)) then USERNAME_MASK else value
  | None => value
  end.

(** [serde_json::Value]; a number is its text. *)
Inductive Json : Type :=
| Null
| Bool (b : bool)
| Number (n : string)
| String (s : text)
| Array (values : list Json)
| Object (values : list (string * Json)).

Fixpoint sanitize_json_value (s : Sanitizer) (v : Json) : Json :=
  match v with
  | String t => String (sanitize_str s t)
  | Array values => Array (map (sanitize_json_value s) values)
  | Object values => Object (map (λ '(key, value), (key, sanitize_json_value s value)) values)
  | Null | Bool _ | Number _ => v
  end.

Definition sanitize_to_value (s : Sanitizer) (encoded : result string Json) : result string Json :=
  match encoded with
  | Ok json => Ok (sanitize_json_value s json)
  | Err error => Err ("privacy sanitizer encode failed: " +:+ error)%string
  end.

(** ** The pre-processor *)

Definition on_string (s : Sanitizer) (v : string) : string := to_string (sanitize_str s (text_of v)).
Definition on_bytes (s : Sanitizer) (v : list Z) : list Z := to_bytes (sanitize_str s (of_bytes v)).
Definition on_pair (s : Sanitizer) (p : list Z * list Z) : list Z * list Z := (on_bytes s p.1, on_bytes s p.2).

Definition on_thread (s : Sanitizer) (t : RawThreadData) : RawThreadData :=
  mkThreadData (thread_port t) (raw_thread_id t) (on_string s <$> thread_name t) (crashed t) (registers t)
    (backtrace t) (stack_capture t).
Definition on_image (s : Sanitizer) (i : RawImageData) : RawImageData :=
  mkImageData (on_string s (image_path i)) (base_address i) (slide i) (uuid i) (architecture i) (text_start i)
    (text_end i) (segments i).
Definition on_symbol (s : Sanitizer) (p : Z * string) : Z * string := (p.1, on_string s p.2).
Definition on_crumb (s : Sanitizer) (b : RawBreadcrumb) : RawBreadcrumb :=
  mkRawBreadcrumb (timestamp_ns b) (thread_id b) (category b) (severity b) (on_bytes s (file b)) (line b)
    (on_bytes s (message b)).
Definition with_annotations (c : RawCrashContext) (l : list (list Z * list Z)) : RawCrashContext :=
  mkRawCrashContext (heartbeat_counter c) (session_start_ns c) (session_id c) l (app_version c) (build_number c)
    (git_hash c) (git_dirty c) (build_type c) (build_preset c) (build_timestamp c) (compiler c) (os_version c).
Definition on_context (s : Sanitizer) (c : RawCrashContext) : RawCrashContext :=
  mkRawCrashContext (heartbeat_counter c) (session_start_ns c) (on_bytes s (session_id c)) (annotations c)
    (app_version c) (build_number c) (git_hash c) (git_dirty c) (on_bytes s (build_type c))
    (on_bytes s (build_preset c)) (build_timestamp c) (on_bytes s (compiler c)) (on_bytes s (os_version c)).
Definition on_settings (s : Sanitizer) (r : RawSettingsSnapshot) : RawSettingsSnapshot :=
  mkRawSettings (schema_version r) (on_pair s <$> values r).
Definition on_registration (s : Sanitizer) (a : RawAttachment) : RawAttachment :=
  mkRawAttachment (on_bytes s (label a)) (on_bytes s (path a)).
Definition on_attachment (s : Sanitizer) (a : RawCopiedAttachment) : RawCopiedAttachment :=
  mkCopiedAttachment (on_string s (copied_label a)) (on_string s (original_path a)) (copied_path a) (copied_size a).
Definition on_variable (s : Sanitizer) (p : string * string) : string * string := (p.1, on_string s p.2).
Definition with_variables (e : RawEnvironment) (l : list (string * string)) : RawEnvironment :=
  mkEnvironment (kernel_release e) (kernel_version e) (arch e) (hostname e) (variables_source e) l.
Definition on_hostname (s : Sanitizer) (e : RawEnvironment) : RawEnvironment :=
  mkEnvironment (kernel_release e) (kernel_version e) (arch e) (on_string s (hostname e)) (variables_source e) (env_vars e).
Definition on_stream (s : Sanitizer) (t : ChildStreamTail) : ChildStreamTail :=
  mkStreamTail (on_string s (tail t)) (tail_truncated t) (on_string s <$> read_error t).
Definition on_output (s : Sanitizer) (o : ChildOutputSnapshot) : ChildOutputSnapshot :=
  mkChildOutput (on_stream s (stdout o)) (on_stream s (stderr o)).

(** Assignments to the fields of the raw data. *)
Definition set_threads l r := mkRawData l (images r) (memory_map r) (heap r) (breadcrumbs r) (crash_context r)
  (settings_snapshot r) (attachments r) (attachment_registrations r) (screenshots r) (symbols r) (environment r) (process_output r).
Definition set_images l r := mkRawData (threads r) l (memory_map r) (heap r) (breadcrumbs r) (crash_context r)
  (settings_snapshot r) (attachments r) (attachment_registrations r) (screenshots r) (symbols r) (environment r) (process_output r).
Definition set_breadcrumbs l r := mkRawData (threads r) (images r) (memory_map r) (heap r) l (crash_context r)
  (settings_snapshot r) (attachments r) (attachment_registrations r) (screenshots r) (symbols r) (environment r) (process_output r).
Definition set_crash_context c r := mkRawData (threads r) (images r) (memory_map r) (heap r) (breadcrumbs r) c
  (settings_snapshot r) (attachments r) (attachment_registrations r) (screenshots r) (symbols r) (environment r) (process_output r).
Definition set_settings_snapshot x r := mkRawData (threads r) (images r) (memory_map r) (heap r) (breadcrumbs r) (crash_context r)
  x (attachments r) (attachment_registrations r) (screenshots r) (symbols r) (environment r) (process_output r).
Definition set_attachments l r := mkRawData (threads r) (images r) (memory_map r) (heap r) (breadcrumbs r) (crash_context r)
  (settings_snapshot r) l (attachment_registrations r) (screenshots r) (symbols r) (environment r) (process_output r).
Definition set_attachment_registrations l r := mkRawData (threads r) (images r) (memory_map r) (heap r) (breadcrumbs r) (crash_context r)
  (settings_snapshot r) (attachments r) l (screenshots r) (symbols r) (environment r) (process_output r).
Definition set_symbols m r := mkRawData (threads r) (images r) (memory_map r) (heap r) (breadcrumbs r) (crash_context r)
  (settings_snapshot r) (attachments r) (attachment_registrations r) (screenshots r) m (environment r) (process_output r).
Definition set_environment e r := mkRawData (threads r) (images r) (memory_map r) (heap r) (breadcrumbs r) (crash_context r)
  (settings_snapshot r) (attachments r) (attachment_registrations r) (screenshots r) (symbols r) e (process_output r).
Definition set_process_output o r := mkRawData (threads r) (images r) (memory_map r) (heap r) (breadcrumbs r) (crash_context r)
  (settings_snapshot r) (attachments r) (attachment_registrations r) (screenshots r) (symbols r) (environment r) o.

Section Process.
Context {E : Type} {clock : Clock E} {Txn Ctx : Type}.
Notation State := (Scope (E := E) CollectedData).
Context (context : PluginContext Txn Ctx) (s : Sanitizer).

Definition check : attempt State unit := λ '(data, cells, env),
  let '(r, env) := checkpoint context cells env in (r, (data, cells, env)).

Definition raw_data : attempt State RawData := get (λ '(data, _, _), raw data).
Definition edit (f : RawData → RawData) : attempt State unit := modify (λ '(data, cells, env),
  (mkCollected (f (raw data)) (session data) (fingerprint data) (build_info data) (duplicate_detected data), cells, env)).

(** [for a in &mut list { context.checkpoint()?; f(a) }]: the elements before a
    failed checkpoint stay changed. *)
Fixpoint for_each {A : Type} (f : A → A) (put : list A → RawData → RawData) (finished rest : list A)
    : attempt State unit :=
  match rest with
  | [] => mret tt
  | a :: rest =>
      _ ← check;
      _ ← edit (put (finished ++ f a :: rest));
      for_each f put (finished ++ [f a]) rest
  end.

Definition on_crash_context : attempt State unit :=
  r ← raw_data;
  match crash_context r with
  | None => mret tt
  | Some c =>
      _ ← for_each (on_pair s) (λ l, set_crash_context (Some (with_annotations c l))) [] (annotations c);
      edit (λ r, set_crash_context (on_context s <$> crash_context r) r)
  end.

Definition on_environment : attempt State unit :=
  r ← raw_data;
  match environment r with
  | None => mret tt
  | Some e =>
      _ ← for_each (on_variable s) (λ l, set_environment (Some (with_variables e l))) [] (env_vars e);
      edit (λ r, set_environment (on_hostname s <$> environment r) r)
  end.

(** The body of [process]. The values of the symbol map are visited in the order
    of its entries. *)
Definition process_body : attempt State unit :=
  _ ← check;
  match username s, home s with
  | None, None => mret tt
  | _, _ =>
      _ ← edit (λ r, set_threads (on_thread s <$> threads r) r);
      r ← raw_data;
      _ ← for_each (on_image s) set_images [] (images r);
      _ ← for_each (on_symbol s) (λ l, set_symbols (list_to_map l)) [] (map_to_list (symbols r));
      _ ← for_each (on_crumb s) set_breadcrumbs [] (breadcrumbs r);
      _ ← on_crash_context;
      _ ← edit (λ r, set_settings_snapshot (on_settings s <$> settings_snapshot r) r);
      _ ← for_each (on_registration s) set_attachment_registrations [] (attachment_registrations r);
      _ ← for_each (on_attachment s) set_attachments [] (attachments r);
      _ ← on_environment;
      _ ← edit (λ r, set_process_output (on_output s <$> process_output r) r);
      check
  end.

End Process.

(** [Sanitizer::process] as a pre-processor. *)
Definition process {E : Type} {clock : Clock E} {Txn Ctx : Type} (s : Sanitizer) (event : CrashEvent)
    : @stage_fn E Txn Ctx CollectedData unit :=
  λ context st, let '(r, st) := process_body context s st in (st, Value r).

End Sanitizer.

(** ** What the sanitizer guarantees

    [mask] is the reference: every occurrence of the prefix that ends at a
    component boundary is replaced, from left to right. The source's loop is the
    same function for a prefix that does not overlap itself, and masked text holds
    no such occurrence any more. *)

Module SanitizerSpec.
Import Types.
Import PluginRun.
Export Sanitizer.

Notation lower := to_ascii_lowercase.

(** ** The reference *)

(** [p] occurs at the head of [t] and ends at a component boundary. *)
Definition matches (p t : text) : bool :=
  is_prefix (lower p) (lower t) &&
  match drop (length p) t with [] => true | c :: _ => bool_decide (c = slash) end.

(** Nothing in [t] matches [p]. *)
Definition clean (p t : text) : Prop := ∀ i, matches p (drop i t) = false.

(** [skip] bytes belong to an occurrence that was replaced. *)
Fixpoint mask (p r : text) (skip : nat) (t : text) : text :=
  match t with
  | [] => []
  | c :: t' =>
      match skip with
      | S skip => mask p r skip t'
      | O => if matches p t then r ++ mask p r (length p - 1) t' else c :: mask p r 0 t'
      end
  end.

(** A proper suffix of [p] is also a prefix of it. *)
Definition overlaps (p : text) : bool :=
  existsb (λ k, is_prefix (drop k (lower p)) (lower p)) (seq 1 (length p - 1)).

Definition bracket_free (p : text) : bool := bool_decide (open_bracket ∉ p) && bool_decide (close_bracket ∉ p).

Definition maskable (p : text) : bool :=
  negb (bool_decide (p = [])) && negb (bool_decide (last p = Some slash)) && bracket_free p && negb (overlaps p).

(** ** Text *)

Lemma text_roundtrip t : text_of (to_string t) = t.
Proof. apply String.list_ascii_of_string_of_list_ascii. Qed.

Lemma bytes_roundtrip t : of_bytes (to_bytes t) = t.
Proof.
  induction t as [|c t IH]; [done|]. cbn. f_equal; [by rewrite Nat2Z.id, Ascii.ascii_nat_embedding|exact IH].
Qed.

Lemma is_prefix_spec p t : is_prefix p t = true ↔ ∃ u, t = p ++ u.
Proof.
  revert t. induction p as [|a p IH]; intros [|b t]; simpl; try (split; [eauto|done]).
  - split; [done|]. by intros [u Hu].
  - rewrite andb_true_iff, bool_decide_eq_true, IH. split; [intros [-> [u ->]]; by exists u|].
    intros [u [= -> ->]]. eauto.
Qed.

Lemma lower_length t : length (lower t) = length t.
Proof. apply length_fmap. Qed.
Lemma lower_app t u : lower (t ++ u) = lower t ++ lower u.
Proof. apply fmap_app. Qed.
Lemma lower_drop n t : lower (drop n t) = drop n (lower t).
Proof. apply fmap_drop. Qed.
Lemma lower_take n t : lower (take n t) = take n (lower t).
Proof. apply fmap_take. Qed.

(** The separators are not letters. *)
Definition fixed (x : Ascii.ascii) : Prop := ∀ c, to_lower c = x → c = x.

Lemma slash_fixed : fixed slash.
Proof. by intros [[] [] [] [] [] [] [] []]. Qed.
Lemma open_fixed : fixed open_bracket.
Proof. by intros [[] [] [] [] [] [] [] []]. Qed.
Lemma close_fixed : fixed close_bracket.
Proof. by intros [[] [] [] [] [] [] [] []]. Qed.

Lemma fixed_elem x t : fixed x → to_lower x = x → x ∈ lower t ↔ x ∈ t.
Proof.
  intros Hx Hl. unfold lower. rewrite list_elem_of_fmap. split; [|eauto].
  intros (c & Hc & Hin). by rewrite (Hx c) in Hin by done.
Qed.

(** Where the source finds nothing, there is no occurrence. *)
Lemma find_spec p t :
  match find p t with
  | Some n => is_prefix p (drop n t) = true ∧ (n ≤ length t)%nat ∧ ∀ m, (m < n)%nat → is_prefix p (drop m t) = false
  | None => ∀ m, is_prefix p (drop m t) = false
  end.
Proof.
  induction t as [|c t IH]; simpl.
  - destruct (is_prefix p []) eqn:H; [by split_and!; [|lia|lia]|]. intros m. by rewrite drop_nil.
  - destruct (is_prefix p (c :: t)) eqn:H; [by split_and!; [|lia|lia]|].
    destruct (find p t) as [n|]; simpl; [destruct IH as (H1 & H2 & H3); split_and!; [done|lia|]|];
      intros [|m]; simpl; try done; [intros; apply H3; lia].
Qed.

(** ** Matches *)

Lemma matches_spec p t :
  matches p t = true ↔ ∃ t1 t2, t = t1 ++ t2 ∧ lower t1 = lower p ∧ (t2 = [] ∨ ∃ t3, t2 = slash :: t3).
Proof.
  unfold matches. rewrite andb_true_iff, is_prefix_spec. split.
  - intros [[u Hu] Hb]. exists (take (length p) t), (drop (length p) t). split; [by rewrite take_drop|]. split.
    + rewrite lower_take, Hu, <- (lower_length p). apply take_app_length.
    + destruct (drop (length p) t) as [|c t3]; [by left|]. right. exists t3. apply bool_decide_eq_true in Hb. by rewrite Hb.
  - intros (t1 & t2 & -> & Ht & H2). assert (length t1 = length p) as Hlen by (by rewrite <- lower_length, Ht, lower_length).
    split; [exists (lower t2); by rewrite lower_app, Ht|]. rewrite <- Hlen, drop_app_length.
    destruct H2 as [->|[t3 ->]]; [done|]. by apply bool_decide_eq_true.
Qed.

Lemma matches_nonempty p t : p ≠ [] → matches p t = true → t ≠ [].
Proof. intros Hp H ->. apply matches_spec in H as (t1 & t2 & H & Ht & _). destruct t1; [|done]. by destruct p. Qed.

Lemma mask_skip p r k t : mask p r k t = mask p r 0 (drop k t).
Proof. revert k. by induction t as [|c t IH]; intros [|k]; simpl. Qed.

Lemma mask_match p r t : p ≠ [] → matches p t = true → mask p r 0 t = r ++ mask p r 0 (drop (length p) t).
Proof.
  intros Hp H. destruct t as [|c t]; [by apply matches_nonempty in H|]. cbn [mask]. rewrite H, mask_skip.
  destruct p as [|a p]; [done|]. simpl. by rewrite Nat.sub_0_r.
Qed.

Lemma mask_copy p r n t :
  (n ≤ length t)%nat → (∀ m, (m < n)%nat → matches p (drop m t) = false) → mask p r 0 t = take n t ++ mask p r 0 (drop n t).
Proof.
  revert t. induction n as [|n IH]; intros [|c t] Hn Hm; simpl in *; try done; try lia.
  pose proof (Hm 0%nat ltac:(lia)) as H0. simpl in H0. rewrite H0. f_equal. apply IH; [lia|].
  intros m Hlt. apply (Hm (S m)). lia.
Qed.

(** Inside an occurrence of a prefix that does not overlap itself no other begins. *)
Lemma overlaps_false p t k :
  overlaps p = false → is_prefix (lower p) t = true → (0 < k < length p)%nat → is_prefix (lower p) (drop k t) = false.
Proof.
  intros Ho Hp Hk. apply not_true_is_false. intros H. apply is_prefix_spec in Hp as [u ->], H as [w Hw].
  assert (overlaps p = true); [|congruence]. unfold overlaps. apply existsb_exists. exists k.
  split; [apply in_seq; lia|]. apply is_prefix_spec. rewrite drop_app_le in Hw by (rewrite lower_length; lia).
  exists (drop (length (drop k (lower p))) (lower p)).
  assert (take (length (drop k (lower p))) (lower p) = drop k (lower p)) as Ht.
  { rewrite <- (take_app_le (lower p) w) by (rewrite length_drop; lia). rewrite <- Hw. apply take_app_length. }
  rewrite <- Ht at 1. symmetry. apply take_drop.
Qed.

Lemma prefix_matches p t : matches p t = true → is_prefix (lower p) (lower t) = true.
Proof. unfold matches. rewrite andb_true_iff. tauto. Qed.

Lemma not_prefix_not_match p t : is_prefix (lower p) (lower t) = false → matches p t = false.
Proof. unfold matches. by intros ->. Qed.

Lemma drop_S_not_match p t m n :
  (∀ k, (k < n)%nat → is_prefix (lower p) (drop k t) = false) → (m < n)%nat → is_prefix (lower p) (drop m t) = false.
Proof. auto. Qed.

(** ** The loop is the reference *)

Lemma component_boundary_drop stop value :
  (stop ≤ length value)%nat →
  component_boundary stop value = match drop stop value with [] => true | c :: _ => bool_decide (c = slash) end.
Proof.
  intros Hstop. unfold component_boundary. destruct (drop stop value) as [|c t] eqn:E.
  - apply (f_equal length) in E. rewrite length_drop in E. simpl in E. rewrite (bool_decide_true (stop = _)); [done|lia].
  - assert (value !! stop = Some c) as Hc by (by rewrite <- (Nat.add_0_r stop), <- lookup_drop, E).
    apply (f_equal length) in E. rewrite length_drop in E. simpl in E.
    rewrite (bool_decide_false (stop = _)) by lia. simpl. apply bool_decide_ext. split.
    + intros H. pose proof (eq_trans (eq_sym Hc) H) as Heq. by injection Heq.
    + intros <-. exact Hc.
Qed.

Lemma replace_loop_mask fuel value p r cursor output :
  p ≠ [] → overlaps p = false → (cursor ≤ length value)%nat → (length value - cursor < fuel)%nat →
  replace_loop fuel value p r cursor output = Some (output ++ mask p r 0 (drop cursor value)).
Proof.
  intros Hp Ho. revert cursor output. induction fuel as [|fuel IH]; intros cursor output Hc Hf; [lia|]. cbn [replace_loop].
  pose proof (find_spec (lower p) (drop cursor (lower value))) as Hfind.
  destruct (find (lower p) (drop cursor (lower value))) as [n|].
  - destruct Hfind as (Hpre & Hn & Hbefore). rewrite length_drop, lower_length in Hn. cbv zeta.
    assert (mask p r 0 (drop cursor value) = slice cursor (cursor + n) value ++ mask p r 0 (drop (cursor + n) value)) as ->.
    { rewrite (mask_copy p r n) by (try (rewrite length_drop; lia);
        intros m Hm; apply not_prefix_not_match; rewrite !lower_drop; by apply Hbefore).
      rewrite drop_drop. unfold slice. do 2 f_equal. lia. }
    rewrite drop_drop in Hpre. set (start := (cursor + n)%nat) in *.
    assert (start + length p ≤ length value)%nat as Hstop.
    { apply is_prefix_spec in Hpre as [u Hu]. apply (f_equal length) in Hu.
      rewrite length_app, length_drop, !lower_length in Hu. destruct p; [done|]. simpl in *. lia. }
    assert (0 < length p)%nat by (destruct p; [done|simpl; lia]).
    assert (component_boundary (start + length p) value = matches p (drop start value)) as ->.
    { unfold matches. rewrite lower_drop, Hpre, drop_drop. simpl. by apply component_boundary_drop. }
    rewrite IH by lia. f_equal. destruct (matches p (drop start value)) eqn:Hm.
    + rewrite (mask_match p r (drop start value)), drop_drop by done. by rewrite <- !app_assoc.
    + rewrite (mask_copy p r (length p) (drop start value)).
      * rewrite drop_drop, <- !app_assoc. f_equal. unfold slice. rewrite app_assoc. f_equal.
        replace (start + length p - cursor)%nat with ((start - cursor) + length p)%nat by (unfold start; lia).
        rewrite <- take_take_drop, drop_drop. do 3 f_equal. unfold start. lia.
      * rewrite length_drop. lia.
      * intros [|m] Hlt; [done|]. apply not_prefix_not_match. rewrite !lower_drop.
        apply overlaps_false; [done|done|lia].
  - f_equal. f_equal. rewrite (mask_copy p r (length (drop cursor value))); [|done|].
    + by rewrite firstn_all, drop_all, app_nil_r.
    + intros m _. apply not_prefix_not_match. rewrite !lower_drop. apply Hfind.
Qed.

Lemma replace_path_prefix_mask value p r :
  p ≠ [] → overlaps p = false → replace_path_prefix value p r = mask p r 0 value.
Proof.
  intros Hp Ho. unfold replace_path_prefix. destruct p as [|a p]; [done|].
  rewrite replace_loop_mask by (try done; lia). done.
Qed.

(** ** Masked text is clean *)

(** A match before a separator that is no letter of [q] ends before it. *)
Lemma matches_before q a x t :
  fixed x → to_lower x = x → x ≠ slash → x ∉ q → matches q (a ++ x :: t) = true →
  ∃ t1 l, a = t1 ++ slash :: l ∧ lower t1 = lower q.
Proof.
  intros Hfix Hlow Hx Hq H. apply matches_spec in H as (t1 & t2 & Heq & Ht & H2).
  assert (x ∉ t1) as Hx1.
  { intros Hin. apply Hq. apply (fixed_elem x q Hfix Hlow). rewrite <- Ht. by apply (fixed_elem x t1 Hfix Hlow). }
  apply app_eq_app in Heq as (l & [[-> Hl]|[-> Hl]]).
  - destruct l as [|c l]; simpl in Hl.
    + exfalso. subst t2. destruct H2 as [?|[t3 [= ? ?]]]; done.
    + destruct H2 as [->|[t3 ->]]; [done|]. injection Hl as <- _. by exists t1, l.
  - exfalso. destruct l as [|c l]; simpl in Hl.
    + subst t2. destruct H2 as [?|[t3 [= ? ?]]]; done.
    + injection Hl as <- _. apply Hx1. apply elem_of_app. right. by left.
Qed.

Lemma bracket_free_spec q : bracket_free q = true → open_bracket ∉ q ∧ close_bracket ∉ q.
Proof. unfold bracket_free. by rewrite andb_true_iff, !bool_decide_eq_true. Qed.

(** A bracketed word without separators adds no match. *)
Lemma clean_bracketed q body t :
  bracket_free q = true → slash ∉ body → clean q t → clean q (open_bracket :: body ++ close_bracket :: t).
Proof.
  intros Hq Hbody Ht i. apply bracket_free_spec in Hq as [Ho Hc]. apply not_true_is_false. intros H.
  assert (∀ i, matches q (drop i (body ++ close_bracket :: t)) = false) as Hafter.
  { clear i H. intros i. apply not_true_is_false. intros H.
    destruct (decide (i ≤ length body)%nat) as [Hi|Hi].
    - rewrite drop_app_le in H by done.
      apply (matches_before q _ close_bracket) in H as (t1 & l & Hl & _); [|apply close_fixed|done|done|done].
      apply Hbody. rewrite <- (take_drop i body), Hl, !elem_of_app. right. right. by left.
    - rewrite drop_app_ge in H by lia. destruct (i - length body)%nat as [|k] eqn:E; [lia|]. simpl in H. by rewrite Ht in H. }
  destruct i as [|i]; simpl in H; [|by rewrite Hafter in H].
  apply (matches_before q [] open_bracket) in H as (t1 & l & Hl & _); [|apply open_fixed|done|done|done].
  by destruct t1.
Qed.

Lemma matches_cons a q c t : matches (a :: q) (c :: t) = bool_decide (to_lower a = to_lower c) && matches q t.
Proof. unfold matches. cbn. by rewrite andb_assoc. Qed.

Section Masked.
Context (p lead body : text) (Hp : p ≠ []).
Context (Hlead : take (length lead) (lower p) = lower lead) (Hlen : (length lead < length p)%nat) (Hbody : slash ∉ body).
Notation r := (lead ++ open_bracket :: body ++ [close_bracket]).

(** In a text that matches [p], what matches inside [lead] matches the text. *)
Lemma lead_matches q i t t1 l :
  matches p t = true → drop i lead = t1 ++ slash :: l → lower t1 = lower q →
  matches q (drop i t) = true ∧ (length q < length lead)%nat.
Proof.
  intros Hm Hd Ht. apply prefix_matches, is_prefix_spec in Hm as [u Hu].
  assert (length q = length t1) as Hq by (by rewrite <- (lower_length q), <- Ht, lower_length).
  assert (i + (length t1 + S (length l)) = length lead)%nat as Hi.
  { apply (f_equal length) in Hd. rewrite length_drop, length_app in Hd. simpl in Hd. lia. }
  split; [|lia].
  assert (take (length t1 + S (length l)) (drop i (lower t)) = lower t1 ++ slash :: lower l) as Hpre.
  { assert (take (length lead) (lower t) = lower lead) as Htl.
    { rewrite Hu, take_app_le by (rewrite lower_length; lia). exact Hlead. }
    rewrite <- Hi in Htl. rewrite take_drop_commute, Nat.add_comm, Nat.add_comm, Htl, <- lower_drop, Hd, lower_app. done. }
  rewrite <- lower_drop in Hpre. set (w := drop i t) in *. apply matches_spec.
  exists (take (length t1) w), (drop (length t1) w). split; [by rewrite take_drop|]. split.
  - rewrite <- Ht. rewrite lower_take.
    transitivity (take (length t1) (take (length t1 + S (length l)) (lower w))); [rewrite take_take; f_equal; lia|].
    rewrite Hpre, <- (lower_length t1). apply take_app_length.
  - right. assert (take (S (length l)) (lower (drop (length t1) w)) = slash :: lower l) as Hs.
    { rewrite lower_drop, take_drop_commute, Hpre, <- (lower_length t1). apply drop_app_length. }
    destruct (drop (length t1) w) as [|c t3]; [done|]. simpl in Hs. injection Hs as Hs _. apply slash_fixed in Hs as ->. eauto.
Qed.

(** A match at the head of the masked text was one of the text. *)
Lemma mask_head q t :
  bracket_free q = true → matches q (mask p r 0 t) = true →
  matches q t = true ∧ (matches p t = true → (length q < length lead)%nat).
Proof.
  revert q. induction t as [|c t IH]; intros q Hq H.
  { split; [done|]. intros Hm. by apply matches_nonempty in Hm. }
  pose proof (bracket_free_spec q Hq) as [Ho Hc]. destruct (matches p (c :: t)) eqn:Hm.
  - rewrite mask_match, <- app_assoc in H by done.
    apply (matches_before q lead open_bracket) in H as (t1 & l & Hl & Ht); [|apply open_fixed|done|done|done].
    apply (lead_matches q 0 (c :: t) t1 l Hm Hl) in Ht as [? ?]. by split.
  - split; [|done]. cbn [mask] in H. rewrite Hm in H. destruct q as [|a q]; [exact H|].
    rewrite matches_cons in *. apply andb_true_iff in H as [H1 H2]. rewrite H1. apply IH in H2 as [H2 _]; [done|].
    unfold bracket_free. rewrite !bool_decide_true; [done|..]; intros ?; [apply Hc|apply Ho]; by right.
Qed.

(** Masking removes the matches of [p] and adds none of other prefixes. *)
Lemma mask_clean q t :
  q ≠ [] → bracket_free q = true →
  (∀ i, matches q (drop i t) = true → (length lead ≤ length q)%nat ∧ matches p (drop i t) = true) →
  clean q (mask p r 0 t).
Proof.
  intros Hne Hq. pose proof (bracket_free_spec q Hq) as [Ho _].
  induction t as [t IH] using (induction_ltof1 _ length). unfold ltof in IH. intros Ht.
  destruct (matches p t) eqn:Hm.
  - assert (t ≠ []) as Hnt by (exact (matches_nonempty p t Hp Hm)).
    assert (clean q (mask p r 0 (drop (length p) t))) as Hrest.
    { apply IH.
      - rewrite length_drop. destruct t; [done|]. simpl. lia.
      - intros i Hi. rewrite drop_drop in *. by apply Ht. }
    rewrite mask_match, <- app_assoc by done. simpl. rewrite <- app_assoc. simpl.
    pose proof (clean_bracketed q body _ Hq Hbody Hrest) as Hafter.
    intros i. apply not_true_is_false. intros H. destruct (decide (i ≤ length lead)%nat) as [Hi|Hi].
    + rewrite drop_app_le in H by done.
      apply (matches_before q _ open_bracket) in H as (t1 & l & Hl & Hl1); [|apply open_fixed|done|done|done].
      apply (lead_matches q i t t1 l Hm Hl) in Hl1 as [Hqt Hlt]. apply Ht in Hqt as [? _]. lia.
    + rewrite drop_app_ge in H by lia. by rewrite Hafter in H.
  - intros i. apply not_true_is_false. intros H. destruct t as [|c t].
    + cbn in H. rewrite drop_nil in H. by apply matches_nonempty in H.
    + destruct i as [|i].
      * apply (mask_head q (c :: t) Hq) in H as [H _]. apply (Ht 0%nat) in H as [_ H]. simpl in H. congruence.
      * cbn [mask] in H. rewrite Hm in H. simpl in H. rewrite IH in H; [done|simpl; lia|]. intros j Hj. by apply (Ht (S j)).
Qed.

End Masked.

(** ** Sanitized strings *)

(** The home directory and the user's directory can be masked reliably. *)
Definition protected (s : Sanitizer) : bool :=
  match home s with Some home => maskable (text_of home) | None => true end &&
  match username s with
  | Some user => negb (bool_decide (user = EmptyString)) && maskable (user_home user)
  | None => true
  end.

(** No path to the home directory or the user's directory or into them, and not the user's
    name alone; the name may still be a part of the text. *)
Definition private (s : Sanitizer) (t : text) : Prop :=
  (∀ h, home s = Some h → clean (text_of h) t) ∧
  (∀ user, username s = Some user → clean (user_home user) t ∧ lower t ≠ lower (text_of user)).

Lemma maskable_spec p : maskable p = true → p ≠ [] ∧ bracket_free p = true ∧ overlaps p = false.
Proof. unfold maskable. rewrite !andb_true_iff, !negb_true_iff, bool_decide_eq_false. tauto. Qed.

Definition USERS : text := text_of "/Users/".

Lemma user_home_app user : user_home user = USERS ++ text_of user.
Proof. done. Qed.

Lemma users_lead user :
  take (length USERS) (lower (user_home user)) = lower USERS ∧
  (user ≠ EmptyString → (length USERS < length (user_home user))%nat).
Proof.
  rewrite user_home_app, lower_app, <- (lower_length USERS). split; [apply take_app_length|].
  intros Hu. rewrite lower_length, length_app. destruct user; [done|]. simpl. lia.
Qed.

Lemma mask_home_clean q h t :
  maskable h = true → q ≠ [] → bracket_free q = true →
  (∀ i, matches q (drop i t) = true → matches h (drop i t) = true) →
  clean q (replace_path_prefix t h HOME_MASK).
Proof.
  intros Hh Hq Hb Ht. apply maskable_spec in Hh as (Hne & _ & Ho). rewrite replace_path_prefix_mask by done.
  change HOME_MASK with ([] ++ open_bracket :: text_of "HOME" ++ [close_bracket]).
  apply mask_clean; [done|done|destruct h; [done|simpl; lia]| |done|done|].
  - vm_compute. set_solver.
  - intros i Hi. split; [simpl; lia|by apply Ht].
Qed.

Lemma mask_user_clean q user t :
  user ≠ EmptyString → maskable (user_home user) = true → q ≠ [] → bracket_free q = true →
  (∀ i, matches q (drop i t) = true → (length USERS ≤ length q)%nat ∧ matches (user_home user) (drop i t) = true) →
  clean q (replace_path_prefix t (user_home user) (text_of "/Users/[USERNAME]")).
Proof.
  intros Hu Hm Hq Hb Ht. apply maskable_spec in Hm as (Hne & _ & Ho). rewrite replace_path_prefix_mask by done.
  change (text_of "/Users/[USERNAME]") with (USERS ++ open_bracket :: text_of "USERNAME" ++ [close_bracket]).
  destruct (users_lead user) as [H1 H2]. apply mask_clean; [done|done|by apply H2| |done|done|done].
  vm_compute. set_solver.
Qed.

Lemma username_mask_clean q : q ≠ [] → bracket_free q = true → clean q USERNAME_MASK.
Proof.
  intros Hq Hb. change USERNAME_MASK with (open_bracket :: text_of "USERNAME" ++ close_bracket :: []).
  apply clean_bracketed; [done|vm_compute; set_solver|]. intros i. rewrite drop_nil. apply not_true_is_false.
  intros H. by apply matches_nonempty in H.
Qed.

Lemma bracket_free_app a b : bracket_free (a ++ b) = true → bracket_free b = true.
Proof.
  intros H. apply bracket_free_spec in H as [Ho Hc]. unfold bracket_free.
  rewrite !bool_decide_true; [done|..]; intros H; [apply Hc|apply Ho]; apply elem_of_app; by right.
Qed.

Lemma sanitize_str_private s t : protected s = true → private s (sanitize_str s t).
Proof.
  unfold protected. rewrite andb_true_iff. intros [Hh Hu]. unfold sanitize_str, private.
  set (t1 := match home s with Some h => _ | None => t end).
  assert (∀ h, home s = Some h → maskable (text_of h) = true ∧ clean (text_of h) t1) as H1.
  { intros h Heq. unfold t1. rewrite Heq in *. split; [done|]. pose proof (maskable_spec _ Hh) as (? & ? & _).
    by apply mask_home_clean. }
  destruct (username s) as [user|]; [|split; [|done]; intros h Heq; by apply H1].
  apply andb_true_iff in Hu as [Hu Hm]. rewrite negb_true_iff, bool_decide_eq_false in Hu.
  pose proof (maskable_spec _ Hm) as (Hne & Hb & _).
  set (t2 := replace_path_prefix t1 (user_home user) _).
  assert (∀ h, home s = Some h → clean (text_of h) t2) as H2.
  { intros h Heq. destruct (H1 h Heq) as [Hm' Hc]. apply maskable_spec in Hm' as (? & ? & _).
    apply mask_user_clean; [done..|]. intros i Hi. by rewrite Hc in Hi. }
  assert (clean (user_home user) t2) as H3.
  { apply mask_user_clean; [done..|]. intros i Hi. split; [|done]. destruct (users_lead user) as [_ Hl].
    pose proof (Hl Hu). lia. }
  case_decide as Heq; split.
  - intros h Hh'. destruct (H1 h Hh') as [Hm' _]. apply maskable_spec in Hm' as (? & ? & _). by apply username_mask_clean.
  - intros user' [= <-]. split; [by apply username_mask_clean|]. intros Heq'.
    assert (open_bracket ∈ text_of user) as Hin.
    { apply (fixed_elem _ _ open_fixed); [done|]. rewrite <- Heq'. vm_compute. by left. }
    rewrite user_home_app in Hb. apply bracket_free_app, bracket_free_spec in Hb as [Ho _]. done.
  - exact H2.
  - intros user' [= <-]. done.
Qed.

(** ** The pre-processor *)

(** The strings that the pre-processor masks. *)
Definition pair_texts (p : list Z * list Z) : list text := [of_bytes p.1; of_bytes p.2].
Definition stream_texts (t : ChildStreamTail) : list text :=
  text_of (tail t) :: from_option (λ e, [text_of e]) [] (read_error t).
Definition context_texts (c : RawCrashContext) : list text :=
  (annotations c ≫= pair_texts) ++ (of_bytes <$> [session_id c; build_type c; build_preset c; compiler c; os_version c]).
Definition environment_texts (e : RawEnvironment) : list text :=
  ((λ p, text_of p.2) <$> env_vars e) ++ [text_of (hostname e)].

Definition visited (r : RawData) : list text :=
  (threads r ≫= λ t, from_option (λ n, [text_of n]) [] (thread_name t)) ++
  ((λ i, text_of (image_path i)) <$> images r) ++
  ((λ p, text_of p.2) <$> map_to_list (symbols r)) ++
  (breadcrumbs r ≫= λ b, of_bytes <$> [file b; message b]) ++
  from_option context_texts [] (crash_context r) ++
  from_option (λ x, values x ≫= pair_texts) [] (settings_snapshot r) ++
  (attachment_registrations r ≫= λ a, of_bytes <$> [label a; path a]) ++
  (attachments r ≫= λ a, text_of <$> [copied_label a; original_path a]) ++
  from_option environment_texts [] (environment r) ++
  from_option (λ o, stream_texts (stdout o) ++ stream_texts (stderr o)) [] (process_output r).

(** Every string masked. *)
Definition sanitize_raw (s : Sanitizer) (r : RawData) : RawData :=
  mkRawData (on_thread s <$> threads r) (on_image s <$> images r) (memory_map r) (heap r) (on_crumb s <$> breadcrumbs r)
    ((λ c, on_context s (with_annotations c (on_pair s <$> annotations c))) <$> crash_context r)
    (on_settings s <$> settings_snapshot r) (on_attachment s <$> attachments r)
    (on_registration s <$> attachment_registrations r) (screenshots r)
    (list_to_map (on_symbol s <$> map_to_list (symbols r)))
    ((λ e, on_hostname s (with_variables e (on_variable s <$> env_vars e))) <$> environment r)
    (on_output s <$> process_output r).

Definition with_raw (r : RawData) (d : CollectedData) : CollectedData :=
  mkCollected r (session d) (fingerprint d) (build_info d) (duplicate_detected d).

Lemma on_string_text s v : text_of (on_string s v) = sanitize_str s (text_of v).
Proof. apply text_roundtrip. Qed.
Lemma on_bytes_text s v : of_bytes (on_bytes s v) = sanitize_str s (of_bytes v).
Proof. apply bytes_roundtrip. Qed.

Lemma visit_bind {A : Type} (f : A → A) (texts : A → list text) (g : text → text) (l : list A) :
  (∀ a, texts (f a) = g <$> texts a) → ((f <$> l) ≫= texts) = g <$> (l ≫= texts).
Proof.
  intros H. induction l as [|a l IH]; [done|]. by rewrite fmap_cons, !bind_cons, H, IH, fmap_app.
Qed.

Lemma visit_fmap {A : Type} (f : A → A) (t : A → text) (g : text → text) (l : list A) :
  (∀ a, t (f a) = g (t a)) → (t <$> (f <$> l)) = g <$> (t <$> l).
Proof. intros H. induction l as [|a l IH]; [done|]. cbn. by rewrite H; f_equal. Qed.

Lemma visit_option {A : Type} (f : A → A) (texts : A → list text) (g : text → text) (o : option A) :
  (∀ a, texts (f a) = g <$> texts a) → from_option texts [] (f <$> o) = g <$> from_option texts [] o.
Proof. intros H. by destruct o; simpl. Qed.

Lemma symbols_texts s (m : gmap Z string) :
  (λ p, text_of p.2) <$> map_to_list (list_to_map (M := gmap Z string) (on_symbol s <$> map_to_list m)) ≡ₚ
  sanitize_str s <$> ((λ p, text_of p.2) <$> map_to_list m).
Proof.
  rewrite map_to_list_to_map.
  - rewrite (visit_fmap (on_symbol s) (λ p, text_of p.2) (sanitize_str s)); [done|]. intros a. apply on_string_text.
  - assert ((on_symbol s <$> map_to_list m).*1 = (map_to_list m).*1) as ->; [|apply NoDup_fst_map_to_list].
    rewrite <- list_fmap_compose. by apply list_fmap_ext.
Qed.

Lemma visited_sanitized s r : visited (sanitize_raw s r) ≡ₚ sanitize_str s <$> visited r.
Proof.
  unfold visited. rewrite !fmap_app. cbn [threads images symbols breadcrumbs crash_context settings_snapshot
    attachment_registrations attachments environment process_output sanitize_raw].
  rewrite symbols_texts.
  rewrite (visit_bind (on_thread s) _ (sanitize_str s))
    by (intros a; simpl; destruct (thread_name a); simpl; [by rewrite on_string_text|done]).
  rewrite (visit_fmap (on_image s) _ (sanitize_str s)) by (intros a; apply on_string_text).
  rewrite (visit_bind (on_crumb s) _ (sanitize_str s)) by (intros a; simpl; by rewrite !on_bytes_text).
  rewrite (visit_option _ context_texts (sanitize_str s)).
  2:{ intros c. unfold context_texts. cbn. rewrite !on_bytes_text. rewrite fmap_app. f_equal.
      apply visit_bind. intros a. unfold pair_texts. simpl. by rewrite !on_bytes_text. }
  rewrite (visit_option (on_settings s) _ (sanitize_str s)).
  2:{ intros c. apply visit_bind. intros a. unfold pair_texts. simpl. by rewrite !on_bytes_text. }
  rewrite (visit_bind (on_registration s) _ (sanitize_str s)) by (intros a; simpl; by rewrite !on_bytes_text).
  rewrite (visit_bind (on_attachment s) _ (sanitize_str s)) by (intros a; simpl; by rewrite !on_string_text).
  rewrite (visit_option _ environment_texts (sanitize_str s)).
  2:{ intros e. unfold environment_texts. rewrite fmap_app. cbn. rewrite on_string_text. f_equal.
      apply visit_fmap. intros a. apply on_string_text. }
  rewrite (visit_option (on_output s) _ (sanitize_str s)); [done|].
  intros o. rewrite fmap_app. unfold stream_texts. simpl. rewrite !on_string_text.
  destruct (read_error (stdout o)), (read_error (stderr o)); simpl; by rewrite ?on_string_text.
Qed.

Section Process.
Context {E : Type} {clock : Clock E} {Txn Ctx : Type}.
Notation State := (Scope (E := E) CollectedData).
Context (context : PluginContext Txn Ctx) (s : Sanitizer).

(** From the data [d], if [m] succeeds the data are [d']. *)
Definition settles (d : CollectedData) (m : attempt State unit) (d' : CollectedData) : Prop :=
  ∀ cells env, (m (d, cells, env)).1 = Ok tt → (m (d, cells, env)).2.1.1 = d'.

Lemma settles_bind d m d1 (f : unit → attempt State unit) d2 :
  settles d m d1 → settles d1 (f tt) d2 → settles d (m ≫= f) d2.
Proof.
  intros Hm Hf cells env. specialize (Hm cells env). unfold mbind, attempt_bind.
  destruct (m (d, cells, env)) as [[[]|error] [[d' cells'] env']]; [|done]. simpl in Hm. rewrite Hm by done. apply Hf.
Qed.

Lemma settles_raw d (f : RawData → attempt State unit) d' : settles d (f (raw d)) d' → settles d (raw_data ≫= f) d'.
Proof. intros H cells env. apply H. Qed.

Lemma settles_ret d : settles d (mret tt) d.
Proof. done. Qed.

Lemma settles_check d : settles d (check context) d.
Proof. intros cells env. unfold check. by destruct (checkpoint context cells env). Qed.

Lemma settles_edit d f d' : with_raw (f (raw d)) d = d' → settles d (edit f) d'.
Proof. by intros <-. Qed.

Lemma settles_for_each {A : Type} (f : A → A) put (finished rest : list A) d :
  (∀ l l' r, put l (put l' r) = put l r) → put (finished ++ rest) (raw d) = raw d →
  settles d (for_each context f put finished rest) (with_raw (put (finished ++ (f <$> rest)) (raw d)) d).
Proof.
  intros Hput. revert finished d. induction rest as [|a rest IH]; intros finished d Hd; cbn [for_each].
  - assert (with_raw (put (finished ++ (f <$> [])) (raw d)) d = d) as ->; [|apply settles_ret].
    rewrite fmap_nil, Hd. by destruct d.
  - eapply settles_bind; [apply settles_check|]. eapply settles_bind; [by apply settles_edit|].
    assert (with_raw (put (finished ++ (f <$> a :: rest)) (raw d)) d =
      with_raw (put ((finished ++ [f a]) ++ (f <$> rest)) (raw (with_raw (put (finished ++ f a :: rest) (raw d)) d)))
        (with_raw (put (finished ++ f a :: rest) (raw d)) d)) as ->.
    { rewrite <- app_assoc. simpl. by rewrite Hput. }
    apply IH. rewrite <- app_assoc. simpl. apply Hput.
Qed.

Lemma settles_crash_context d :
  settles d (on_crash_context context s) (with_raw (set_crash_context
    ((λ c, on_context s (with_annotations c (on_pair s <$> annotations c))) <$> crash_context (raw d)) (raw d)) d).
Proof.
  apply settles_raw. destruct (crash_context (raw d)) as [c|] eqn:Hc.
  - eapply settles_bind; [apply settles_for_each|]; [done| |].
    + simpl. destruct d as [r ? ? ? ?], r. simpl in *. subst. by destruct c.
    + by apply settles_edit.
  - assert (with_raw (set_crash_context (_ <$> None) (raw d)) d = d) as ->; [|apply settles_ret].
    destruct d as [r ? ? ? ?], r. simpl in *. by subst.
Qed.

Lemma settles_environment d :
  settles d (on_environment context s) (with_raw (set_environment
    ((λ e, on_hostname s (with_variables e (on_variable s <$> env_vars e))) <$> environment (raw d)) (raw d)) d).
Proof.
  apply settles_raw. destruct (environment (raw d)) as [e|] eqn:He.
  - eapply settles_bind; [apply settles_for_each|]; [done| |].
    + simpl. destruct d as [r ? ? ? ?], r. simpl in *. subst. by destruct e.
    + by apply settles_edit.
  - assert (with_raw (set_environment (_ <$> None) (raw d)) d = d) as ->; [|apply settles_ret].
    destruct d as [r ? ? ? ?], r. simpl in *. by subst.
Qed.

Lemma settles_process d :
  username s ≠ None ∨ home s ≠ None → settles d (process_body context s) (with_raw (sanitize_raw s (raw d)) d).
Proof.
  intros Hs. unfold process_body. eapply settles_bind; [apply settles_check|].
  assert (∀ m1 m2 d', settles d m2 d' →
    settles d match username s, home s with None, None => m1 | _, _ => m2 end d') as Hcase.
  { intros m1 m2 d' H. destruct (username s), (home s); try done. by destruct Hs. }
  apply Hcase. destruct d as [r ? ? ? ?], r.
  eapply settles_bind; [by apply settles_edit|]. apply settles_raw.
  eapply settles_bind; [apply settles_for_each; done|].
  eapply settles_bind; [apply settles_for_each; [done|simpl; by rewrite list_to_map_to_list]|].
  eapply settles_bind; [apply settles_for_each; done|].
  eapply settles_bind; [apply settles_crash_context|].
  eapply settles_bind; [by apply settles_edit|].
  eapply settles_bind; [apply settles_for_each; done|].
  eapply settles_bind; [apply settles_for_each; done|].
  eapply settles_bind; [apply settles_environment|].
  eapply settles_bind; [by apply settles_edit|]. apply settles_check.
Qed.

End Process.

(** ** JSON reports *)

(** The string values of a report. *)
Fixpoint json_texts (v : Json) : list text :=
  match v with
  | String t => [t]
  | Array values => concat (map json_texts values)
  | Object values => concat (map (λ '(_, value), json_texts value) values)
  | Null | Bool _ | Number _ => []
  end.

Lemma json_sanitized s v : json_texts (sanitize_json_value s v) = sanitize_str s <$> json_texts v.
Proof.
  revert v. fix IH 1. intros [| | |t|values|values]; simpl; try done.
  - induction values as [|v values IHv]; simpl; [done|]. by rewrite fmap_app, IH, IHv.
  - induction values as [|[key v] values IHv]; simpl; [done|]. by rewrite fmap_app, IH, IHv.
Qed.

(** ** The fuel of the loop is enough for every prefix *)

Lemma replace_loop_total fuel value p r cursor output :
  p ≠ [] → (length value - cursor < fuel)%nat → (cursor ≤ length value)%nat →
  is_Some (replace_loop fuel value p r cursor output).
Proof.
  intros Hp. revert cursor output. induction fuel as [|fuel IH]; intros cursor output Hf Hc; [lia|]. cbn [replace_loop].
  pose proof (find_spec (lower p) (drop cursor (lower value))) as Hfind.
  destruct (find _ _) as [n|]; [|done]. destruct Hfind as (Hpre & Hn & _). rewrite drop_drop in Hpre.
  apply is_prefix_spec in Hpre as [u Hu]. apply (f_equal length) in Hu.
  rewrite length_app, length_drop, !lower_length in Hu. assert (0 < length p)%nat by (destruct p; [done|simpl; lia]).
  rewrite length_drop, lower_length in Hn. apply IH; lia.
Qed.

(** ** The guarantee *)

Lemma private_all s (l : list text) : protected s = true → Forall (private s) (sanitize_str s <$> l).
Proof. intros Hs. apply Forall_fmap, Forall_true. intros t. by apply sanitize_str_private. Qed.

(** C39. The hypothesis [protected] restricts the identity: the home directory and
    [/Users/] with the user's name must not overlap themselves, must not end in a slash and
    must hold no brackets, and the user's name must not be empty. Then a run of the
    pre-processor that reports success masks every string that it visits: in none of them,
    in any letter case, the path of either directory stands at any place where a slash or
    the end of the string follows, and none is the user's name alone. The same holds of
    every string value of a sanitized JSON report. Strings may still hold the name as a
    part. Both kinds of directory that the hypothesis rules out can indeed be missed: see
    [overlapping_home_is_missed] and [trailing_slash_is_missed]. *)
Theorem sanitizer_hides_identity {E : Type} {clock : Clock E} {Txn Ctx : Type} s event (context : PluginContext Txn Ctx)
    (d : CollectedData) (cells : Cells) (env : E) :
  protected s = true →
  (let '((d', _, _), r) := process s event context (d, cells, env) in
   r = PluginRun.Value (Ok tt) →
   visited (raw d') ≡ₚ sanitize_str s <$> visited (raw d) ∧ Forall (private s) (visited (raw d'))) ∧
  ∀ json json', sanitize_to_value s (Ok json) = Ok json' → Forall (private s) (json_texts json').
Proof.
  intros Hs. split.
  - unfold process. destruct (process_body context s (d, cells, env)) as [r [[d' cells'] env']] eqn:Hrun.
    intros [= ->]. assert (visited (raw d') ≡ₚ sanitize_str s <$> visited (raw d)) as Hv.
    { destruct (decide (username s = None ∧ home s = None)) as [[Hu Hh]|Hne].
      - assert (d' = d) as ->.
        { revert Hrun. unfold process_body, mbind, attempt_bind, check. rewrite Hu, Hh.
          destruct (checkpoint context cells env) as [[[]|] env'']; by intros [= <-]. }
        rewrite (list_fmap_ext _ (λ t, t)); [by rewrite list_fmap_id|].
        intros i t _. unfold sanitize_str. by rewrite Hh, Hu.
      - pose proof (settles_process context s d ltac:(destruct (username s), (home s); intuition congruence) cells env) as H.
        rewrite Hrun in H. specialize (H eq_refl). simpl in H. subst d'. apply visited_sanitized. }
    split; [exact Hv|]. rewrite Hv. by apply private_all.
  - intros json json' [= <-]. rewrite json_sanitized. by apply private_all.
Qed.

Definition alice : Sanitizer := from_identity (Some "alice") (Some "/Users/alice")%string.

Definition alice_data : CollectedData :=
  mkCollected (set_images [mkImageData "/Users/Alice/lib/app.dylib" 0 None None None None None []]%string raw_default)
    None None None false.

#[local] Instance unit_clock : Clock unit := λ u, (0, u).

Lemma sanitizer_hides_identity_witness :
  protected alice = true ∧
  (let '((d', _, _), r) := process (Txn := unit) (Ctx := unit) alice
     (mkCrashEvent "1" Crash None None None None [] None false 1 "app" None) without_deadline
     (alice_data, fresh_cells false, tt) in
   r = PluginRun.Value (Ok tt) ∧ visited (raw d') = [text_of "[HOME]/lib/app.dylib"]%string ∧
   Forall (private alice) (visited (raw d'))).
Proof.
  split; [vm_compute; reflexivity|].
  pose proof (sanitizer_hides_identity (Txn := unit) (Ctx := unit) alice
    (mkCrashEvent "1" Crash None None None None [] None false 1 "app" None) without_deadline alice_data (fresh_cells false)
    tt ltac:(vm_compute; reflexivity)) as [H _].
  destruct (process _ _ _ _) as [[[d' cells'] env'] r] eqn:Hrun.
  assert (r = PluginRun.Value (Ok tt) ∧ visited (raw d') = [text_of "[HOME]/lib/app.dylib"]%string) as [-> Hv].
  { revert Hrun. vm_compute. intros Hrun. injection Hrun as <- <- <- <-. by split. }
  split; [reflexivity|]. split; [exact Hv|]. by apply H.
Defined.

(** A directory that overlaps itself can be missed: here a user is named [us]. *)
Example overlapping_home_is_missed :
  let home := text_of "/Users/us" in
  let value := text_of "/Users/Users/us/secret.txt" in
  overlaps home = true ∧ matches home (drop 6 value) = true ∧
  sanitize_str (from_identity (Some "us") (Some "/Users/us")) value = value.
Proof. vm_compute. split_and!; reflexivity. Qed.

(** So is one that is given with a slash at its end. *)
Example trailing_slash_is_missed :
  let value := text_of "/Volumes/x/alice/secret.txt" in
  sanitize_str (from_identity (Some "alice") (Some "/Volumes/x/alice/")) value = value ∧
  protected (from_identity (Some "alice") (Some "/Volumes/x/alice/")) = false.
Proof. vm_compute. split; reflexivity. Qed.

End SanitizerSpec.
