(* ===== verification/Duplicate.v ===== *)
(** * Suppression of duplicate reports (src/preprocessors/duplicate.rs)

    The pre-processor that remembers recent fingerprints, and the exact set of
    events that it marks as duplicates over any history of calls. *)

From stdpp Require Import pretty.
From S2P Require Import Prelude.
From S2P Require Import ShmReader.
From S2P Require Import PipelineTypes.
From S2P Require Import Attempt.
From S2P Require Import PluginRun.

Module Duplicate.
Import Types.
Import PluginRun.
Export Attempt.

(** ** Data *)

Record DuplicateKey := mkKey {
  key_fingerprint : string;
  key_report_type : ReportType;
  severity : string;
  key_process_name : string;
  build_identity : string
}.

#[export] Instance DuplicateKey_eq_dec : EqDecision DuplicateKey.
Proof. solve_decision. Defined.

#[export] Instance ReportType_countable : Countable ReportType.
Proof.
  refine (inj_countable' (λ t, match t with Crash => 0 | Snapshot => 1 | Anr => 2 | Oom => 3 | ExitFailure => 4 | SignalFailure => 5 end)%nat
    (λ n, match n with 0 => Crash | 1 => Snapshot | 2 => Anr | 3 => Oom | 4 => ExitFailure | _ => SignalFailure end)%nat _).
  by intros [].
Defined.

#[export] Instance DuplicateKey_countable : Countable DuplicateKey.
Proof.
  refine (inj_countable' (λ k, (key_fingerprint k, key_report_type k, severity k, key_process_name k, build_identity k))
    (λ '(f, t, s, p, b), mkKey f t s p b) _). by intros [].
Defined.

Record DuplicateEntry := mkEntry { first_seen : Z; last_observed : Z; occurrences : Z }.

Notation Recent := (gmap DuplicateKey DuplicateEntry).

Definition bytes_to_string (l : list Z) : string :=
  String.string_of_list_ascii ((λ b, Ascii.ascii_of_nat (Z.to_nat b)) <$> l).

(** [format!("{}:{}:{}:{}", ..)]. *)
Definition build_key (version : string) (number : Z) (git_hash build_type : string) : string :=
  version +:+ ":" +:+ pretty number +:+ ":" +:+ git_hash +:+ ":" +:+ build_type.

Definition key (event : CrashEvent) (data : CollectedData) (fingerprint : string) : DuplicateKey :=
  mkKey fingerprint (report_type event) (if is_crash event then "fatal" else "non_fatal") (process_name event)
    (match build_info data with
     | Some b => build_key (build_app_version b) (build_info_number b) (build_git_hash b) (build_info_type b)
     | None =>
         match crash_context (raw data) with
         | Some c => build_key (bytes_to_string (app_version c)) (build_number c) (bytes_to_string (git_hash c))
                       (bytes_to_string (build_type c))
         | None => "unknown-build"
         end
     end).

(** ** The detector *)

(** Drop the entries whose window has elapsed; the window starts at the first
    occurrence. *)
Definition retain (window now : Z) (recent : Recent) : Recent :=
  filter (λ p, saturating_duration_since now (first_seen p.2) < window) recent.

Definition observe_again (now : Z) (e : DuplicateEntry) : DuplicateEntry :=
  mkEntry (first_seen e) now (Z.min U64_MAX (occurrences e + 1)).

Section Process.
Context {E : Type} {clock : Clock E} {Txn Ctx : Type}.
(** The shared history, the data and the invocation's scope. *)
Notation State := (Recent * Scope (E := E) CollectedData)%type.
Context (window : Z) (context : PluginContext Txn Ctx).

Definition check : attempt State unit := λ '(recent, (data, cells, env)),
  let '(r, env) := checkpoint context cells env in (r, (recent, (data, cells, env))).

(** Everything before the lookup: the key, or [None] without a fingerprint.
    [lock] is the outcome of [try_lock]. *)
Definition prepare (event : CrashEvent) (lock : result string unit) (now : Z) : attempt State (option DuplicateKey) :=
  _ ← check;
  data ← get (λ st : State, st.2.1.1);
  match fingerprint data with
  | None => mret None
  | Some fp =>
      _ ← of_result (map_err (λ error, "duplicate state unavailable: " +:+ error)%string lock);
      _ ← check;
      _ ← modify (λ st : State, (retain window now st.1, st.2));
      _ ← check;
      mret (Some (key event data fp))
  end.

Definition mark_duplicate (data : CollectedData) : CollectedData :=
  mkCollected (raw data) (session data) (fingerprint data) (build_info data) true.

(** The lookup: a known key marks the data, a new one is remembered. *)
Definition observe (now : Z) (k : DuplicateKey) : attempt State unit :=
  modify (λ '(recent, (data, cells, env)),
    match recent !! k with
    | Some e => (<[k := observe_again now e]> recent, (mark_duplicate data, cells, env))
    | None => (<[k := mkEntry now now 1]> recent, (data, cells, env))
    end).

Definition process_at (event : CrashEvent) (lock : result string unit) (now : Z) : attempt State unit :=
  k ← prepare event lock now;
  match k with
  | None => mret tt
  | Some k => _ ← observe now k; check
  end.

(** [process]: the clock is read before the first checkpoint. *)
Definition process (event : CrashEvent) (lock : result string unit) : attempt State unit := λ '(recent, (data, cells, env)),
  let '(now, env) := instant_now env in process_at event lock now (recent, (data, cells, env)).

End Process.

#[local] Arguments check : simpl never.

(** ** Histories *)

Section History.
Context {E : Type} {clock : Clock E} {Txn Ctx : Type} (window : Z).

(** A call and the instant it observes. *)
Record Call := mkCall {
  call_now : Z;
  call_event : CrashEvent;
  call_data : CollectedData;
  call_lock : result string unit;
  call_context : PluginContext Txn Ctx;
  call_cells : Cells;
  call_env : E
}.

Record Observation := mkObservation {
  observed_at : Z;
  observed_key : option DuplicateKey;
  suppressed : bool
}.

(** The key a call looks up, if it gets that far. *)
Definition looked_up (recent : Recent) (c : Call) : option DuplicateKey :=
  match (prepare window (call_context c) (call_event c) (call_lock c) (call_now c)
           (recent, (call_data c, call_cells c, call_env c))).1 with
  | Ok k => k
  | Err _ => None
  end.

Definition run_call (recent : Recent) (c : Call) : Recent * Observation :=
  let '(_, (recent', (data, _, _))) :=
    process_at window (call_context c) (call_event c) (call_lock c) (call_now c)
      (recent, (call_data c, call_cells c, call_env c)) in
  (recent', mkObservation (call_now c) (looked_up recent c) (duplicate_detected data)).

Fixpoint run_calls (recent : Recent) (calls : list Call) : list Observation :=
  match calls with
  | [] => []
  | c :: calls => let '(recent, o) := run_call recent c in o :: run_calls recent calls
  end.

(** The data of a new event are not marked. *)
Definition fresh (c : Call) : Prop := duplicate_detected (call_data c) = false.

(** [o] was let through under the key [k]. *)
Definition accepted (k : DuplicateKey) (o : Observation) : Prop := observed_key o = Some k ∧ suppressed o = false.

(** ** One call *)

Lemma duplicate_check_keeps (context : PluginContext Txn Ctx) (st : Recent * Scope (E := E) CollectedData) :
  (check context st).2.1 = st.1 ∧ (check context st).2.2.1.1 = st.2.1.1.
Proof. destruct st as [recent [[data cells] env]]. unfold check. by destruct (checkpoint context cells env). Qed.

(** The outcome of the next checkpoint. *)
Ltac step_check :=
  match goal with |- context [check ?c ?st] =>
    let H := fresh "H" in
    pose proof (duplicate_check_keeps c st) as H; destruct (check c st) as [[[]|?] [? [[? ?] ?]]]; simpl in H;
    destruct H; subst; simpl
  end.

Lemma prepare_spec (context : PluginContext Txn Ctx) event lock now recent data cells env :
  let '(r, (recent', (data', _, _))) := prepare window context event lock now (recent, (data, cells, env)) in
  data' = data ∧ (recent' = recent ∨ recent' = retain window now recent) ∧
  (∀ k, r = Ok (Some k) → recent' = retain window now recent).
Proof.
  unfold prepare, mbind, attempt_bind, get, modify, of_result.
  step_check; [|by split_and!; [|left|]]. destruct (fingerprint data) as [fp|]; [|by split_and!; [|left|]].
  destruct lock as [[]|error]; simpl; [|by split_and!; [|left|]].
  step_check; [|by split_and!; [|left|]]. step_check; by split_and!; [|right|].
Qed.

(** What a call does: nothing but expiry, or the lookup of one key. *)
Lemma run_call_spec recent c : fresh c →
  let '(recent', o) := run_call recent c in
  observed_at o = call_now c ∧
  match observed_key o with
  | None => suppressed o = false ∧ (recent' = recent ∨ recent' = retain window (call_now c) recent)
  | Some k =>
      let kept := retain window (call_now c) recent in
      match kept !! k with
      | Some e => suppressed o = true ∧ recent' = <[k := observe_again (call_now c) e]> kept
      | None => suppressed o = false ∧ recent' = <[k := mkEntry (call_now c) (call_now c) 1]> kept
      end
  end.
Proof.
  intros Hf. unfold run_call, looked_up, process_at, mbind, attempt_bind.
  pose proof (prepare_spec (call_context c) (call_event c) (call_lock c) (call_now c) recent (call_data c) (call_cells c) (call_env c)) as H.
  destruct (prepare _ _ _ _ _ _) as [[[k|]|error] [recent' [[data cells] env]]]; destruct H as (-> & Hr & Hk); simpl; try done.
  rewrite (Hk k eq_refl).
  destruct (retain window (call_now c) recent !! k) as [e|] eqn:He; simpl.
  - step_check; by rewrite He.
  - step_check; by rewrite He.
Qed.

(** ** Invariant *)

(** The history [os] up to the instant [t] and the table: entries are accepted
    occurrences, and an accepted occurrence stays for its window. *)
Definition table (t : Z) (os : list Observation) (recent : Recent) : Prop :=
  (∀ o, o ∈ os → observed_at o ≤ t) ∧
  (∀ k e, recent !! k = Some e → ∃ o, o ∈ os ∧ accepted k o ∧ observed_at o = first_seen e) ∧
  (∀ k o, o ∈ os → accepted k o → t - observed_at o < window → ∃ e, recent !! k = Some e ∧ first_seen e = observed_at o).

Lemma retain_lookup now recent k e :
  retain window now recent !! k = Some e ↔ recent !! k = Some e ∧ saturating_duration_since now (first_seen e) < window.
Proof. unfold retain. by rewrite map_lookup_filter_Some. Qed.

Lemma table_later t t' os recent : t ≤ t' → table t os recent → table t' os recent.
Proof.
  intros Ht (H1 & H2 & H3). split_and!; [intros o Ho; specialize (H1 o Ho); lia|done|].
  intros k o Ho Ha Hw. apply H3; [done..|lia].
Qed.

Lemma table_retain t os recent : table t os recent → table t os (retain window t recent).
Proof.
  intros (H1 & H2 & H3). split_and!; [done| |].
  - intros k e [He _]%retain_lookup. by apply (H2 k e).
  - intros k o Ho Ha Hw. destruct (H3 k o Ho Ha Hw) as (e & He & Hfirst). exists e. split; [|done].
    apply retain_lookup. split; [done|]. specialize (H1 o Ho). rewrite Hfirst. unfold saturating_duration_since. lia.
Qed.

Lemma table_snoc t os recent o :
  observed_at o = t → (∀ k, ¬ accepted k o) → table t os recent → table t (os ++ [o]) recent.
Proof.
  intros Ho Hn (H1 & H2 & H3). split_and!.
  - intros o' [Hin| ->%list_elem_of_singleton]%elem_of_app; [by apply H1|lia].
  - intros k e He. destruct (H2 k e He) as (o' & Hin & ?). exists o'. split; [apply elem_of_app; by left|done].
  - intros k o' [Hin| ->%list_elem_of_singleton]%elem_of_app Ha; [by apply H3|by apply Hn in Ha].
Qed.

(** When a key is suppressed, and the table after the call. *)
Lemma table_step t os recent c : t ≤ call_now c → fresh c → table t os recent →
  let '(recent', o) := run_call recent c in
  table (call_now c) (os ++ [o]) recent' ∧
  (suppressed o = true ↔ ∃ k, observed_key o = Some k ∧ ∃ o', o' ∈ os ∧ accepted k o' ∧ observed_at o - observed_at o' < window).
Proof.
  intros Ht Hf Htab. pose proof (run_call_spec recent c Hf) as Hspec. destruct (run_call recent c) as [recent' o].
  destruct Hspec as [Hat Hspec]. apply (table_later _ (call_now c) _ _ Ht) in Htab.
  pose proof (table_retain _ _ _ Htab) as Hkept. destruct (observed_key o) as [k|] eqn:Hk.
  2:{ destruct Hspec as [Hs Hr]. split; [|rewrite Hs; split; [done|by intros (k & ? & _)]].
      apply table_snoc; [done|intros k [? _]; congruence|]. by destruct Hr as [->| ->]. }
  cbv zeta in Hspec. set (kept := retain window (call_now c) recent) in *. destruct (kept !! k) as [e|] eqn:He.
  - destruct Hspec as [Hs ->]. split.
    + apply table_snoc; [done|intros k' [_ ?]; congruence|]. destruct Hkept as (H1 & H2 & H3). split_and!; [done| |].
      * intros k' e'. destruct (decide (k' = k)) as [->|Hne].
        -- rewrite lookup_insert_eq. intros [= <-]. exact (H2 k e He).
        -- rewrite lookup_insert_ne by done. apply H2.
      * intros k' o' Ho' Ha Hw. destruct (H3 k' o' Ho' Ha Hw) as (e' & He' & Hfirst).
        destruct (decide (k' = k)) as [->|Hne].
        -- rewrite He in He'. injection He' as <-. eexists. rewrite lookup_insert_eq. by split.
        -- exists e'. by rewrite lookup_insert_ne.
    + rewrite Hs. split; [|done]. intros _. exists k. split; [done|]. destruct Hkept as (H1 & H2 & _).
      destruct (H2 k e He) as (o' & Hin & Ha & Hfirst). exists o'. split_and!; [done|done|].
      apply retain_lookup in He as [_ Hw]. rewrite Hat, Hfirst. unfold saturating_duration_since in Hw. lia.
  - destruct Hspec as [Hs ->]. destruct Hkept as (H1 & H2 & H3).
    assert (∀ o', o' ∈ os → accepted k o' → window ≤ call_now c - observed_at o') as Hfar.
    { intros o' Hin Ha. destruct (decide (window ≤ call_now c - observed_at o')) as [?|Hlt]; [done|].
      destruct (H3 k o' Hin Ha ltac:(lia)) as (e & He' & _). congruence. }
    split.
    + split_and!.
      * intros o' [Hin| ->%list_elem_of_singleton]%elem_of_app; [by apply H1|lia].
      * intros k' e'. destruct (decide (k' = k)) as [->|Hne].
        -- rewrite lookup_insert_eq. intros [= <-]. exists o. split; [apply elem_of_app; right; by apply list_elem_of_singleton|].
           by split.
        -- rewrite lookup_insert_ne by done. intros He'. destruct (H2 k' e' He') as (o' & Hin & ?). exists o'.
           split; [apply elem_of_app; by left|done].
      * intros k' o' [Hin| ->%list_elem_of_singleton]%elem_of_app Ha Hw.
        -- destruct (decide (k' = k)) as [->|Hne]; [specialize (Hfar o' Hin Ha); lia|].
           rewrite lookup_insert_ne by done. by apply H3.
        -- destruct Ha as [Hk' _]. rewrite Hk in Hk'. injection Hk' as <-. eexists. rewrite lookup_insert_eq. by split.
    + rewrite Hs. split; [done|]. intros (k' & Hk' & o' & Hin & Ha & Hw). assert (k' = k) as -> by congruence.
      specialize (Hfar o' Hin Ha). lia.
Qed.

Lemma run_calls_exact t os recent calls :
  Forall fresh calls → StronglySorted (λ a b, call_now a ≤ call_now b) calls → Forall (λ c, t ≤ call_now c) calls →
  table t os recent →
  ∀ pre o post, run_calls recent calls = pre ++ o :: post →
  (suppressed o = true ↔ ∃ k, observed_key o = Some k ∧
    ∃ o', o' ∈ os ++ pre ∧ accepted k o' ∧ observed_at o - observed_at o' < window).
Proof.
  intros Hf Hs. revert t os recent Hf. induction Hs as [|c calls Hs IH Hc]; intros t os recent Hf Ht Htab pre o post Hrun.
  { by destruct pre. }
  apply Forall_cons in Hf as [Hfc Hf], Ht as [Htc Ht]. cbn [run_calls] in Hrun.
  pose proof (table_step t os recent c Htc Hfc Htab) as Hstep. destruct (run_call recent c) as [recent' o1].
  destruct Hstep as [Htab' Hiff]. destruct pre as [|o2 pre]; simpl in Hrun.
  - injection Hrun as <- _. by rewrite app_nil_r.
  - injection Hrun as <- Hrun. rewrite (IH (call_now c) (os ++ [o1]) recent' Hf Hc Htab' pre o post Hrun).
    by rewrite <- app_assoc.
Qed.

(** Over any history of calls with a monotone clock, whatever fails in them,
    an event is marked as a duplicate exactly when its key was let through less
    than a window before. So what is let through under one key is at least a
    window apart, and nothing else is suppressed. *)
Theorem duplicates_exact calls pre o post :
  Forall fresh calls → StronglySorted (λ a b, call_now a ≤ call_now b) calls →
  run_calls ∅ calls = pre ++ o :: post →
  (suppressed o = true ↔ ∃ k, observed_key o = Some k ∧
    ∃ o', o' ∈ pre ∧ accepted k o' ∧ observed_at o - observed_at o' < window) ∧
  (∀ k o', accepted k o → o' ∈ pre → accepted k o' → window ≤ observed_at o - observed_at o').
Proof.
  intros Hf Hs Hrun.
  assert (suppressed o = true ↔ ∃ k, observed_key o = Some k ∧
    ∃ o', o' ∈ pre ∧ accepted k o' ∧ observed_at o - observed_at o' < window) as Hiff.
  { set (t := from_option call_now 0 (head calls)).
    refine (run_calls_exact t [] ∅ calls Hf Hs _ _ pre o post Hrun); [|by split_and!; [intros ? ?%elem_of_nil|intros ? ? ?%lookup_empty_Some|intros ? ? ?%elem_of_nil]].
    unfold t. destruct Hs as [|c calls Hs Hc]; constructor; [simpl; lia|done]. }
  split; [done|]. intros k o' [Hk Hsup] Hin Ha. destruct (decide (window ≤ observed_at o - observed_at o')) as [?|Hlt]; [done|].
  assert (suppressed o = true); [|congruence]. apply Hiff. exists k. split; [done|]. exists o'. split_and!; [done|done|lia].
Qed.

End History.

(** ** Three events of one kind *)

Definition crash_event : CrashEvent := mkCrashEvent "1" Crash None None None None [] None false 1 "app" None.
Definition crash_data : CollectedData := mkCollected raw_default None (Some "abc"%string) None false.

#[local] Instance unit_clock : Clock unit := λ u, (0, u).

Definition call_at (now : Z) : Call (E := unit) (Txn := unit) (Ctx := unit) :=
  mkCall now crash_event crash_data (Ok tt) without_deadline (fresh_cells false) tt.

Lemma duplicates_exact_witness :
  suppressed <$> run_calls 60 ∅ [call_at 0; call_at 50; call_at 70] = [false; true; false] ∧
  ∀ pre o post, run_calls 60 ∅ [call_at 0; call_at 50; call_at 70] = pre ++ o :: post →
  (suppressed o = true ↔ ∃ k, observed_key o = Some k ∧
    ∃ o', o' ∈ pre ∧ accepted k o' ∧ observed_at o - observed_at o' < 60) ∧
  (∀ k o', accepted k o → o' ∈ pre → accepted k o' → 60 ≤ observed_at o - observed_at o').
Proof.
  split; [vm_compute; reflexivity|]. intros pre o post H.
  apply (duplicates_exact 60 [call_at 0; call_at 50; call_at 70] pre o post); [| |exact H].
  - repeat constructor.
  - repeat constructor; simpl; lia.
Defined.

End Duplicate.
