(* ===== verification/ChildProcess.v ===== *)
(** * The monitored child's process (src/main.rs, src/event_source.rs)

    Everything the supervisor does to the process it spawned, up to its wait
    status: normalized statuses, bounded polling, termination with escalation, the
    race between the task-port lookup and the child's exit, and the owner of the
    process group. System calls are operations of [ProcessOps]; loops take fuel.
    The closures [poll], [send_sigkill] and [acquire] of the source's generic
    functions are arguments here too; [now] and [sleep] are the clock's. *)

From stdpp Require Import pretty.
From S2P Require Import Prelude.
From S2P Require Import Traced.
From S2P Require Import Fueled.
From S2P Require Import PipelineTypes.
From S2P Require Import PluginRun.
From S2P Require Import Pipeline.
From S2P Require Import CaptureSpawn.
From S2P Require Import EventLoop.

Module ChildProcess.
Export Types.
Export Fueled.
Export PluginRun.

Definition SIGINT : Z := 2.
Definition SIGKILL : Z := 9.
Definition SIGTERM : Z := 15.
Definition SIGUSR1 : Z := 30.

Definition CRASH_REAP_GRACE_DEADLINE : Z := 3 * Pipeline.NANOS_PER_SEC.
Definition CRASH_REAP_AFTER_KILL_DEADLINE : Z := 1 * Pipeline.NANOS_PER_SEC.
Definition CRASH_REAP_POLL_INTERVAL : Z := 100 * NANOS_PER_MILLI.
Definition TASK_ACQUISITION_DEADLINE : Z := 1 * Pipeline.NANOS_PER_SEC.
Definition TASK_ACQUISITION_RETRY_INTERVAL : Z := 50 * NANOS_PER_MILLI.
Definition UNMONITORED_TERMINATION_GRACE_DEADLINE : Z := 2 * Pipeline.NANOS_PER_SEC.
Definition UNMONITORED_REAP_AFTER_KILL_DEADLINE : Z := 1 * Pipeline.NANOS_PER_SEC.

(** ** Wait statuses *)

(** [u64::try_from(d.as_millis()).unwrap_or(u64::MAX)]. *)
Definition saturating_millis (d : Z) : Z := Z.min U64_MAX (as_millis d).

Definition termination_from_wait_status (status : CaptureSpawn.WaitStatus) (runtime : Z) : option TerminationReason :=
  let runtime_ms := saturating_millis runtime in
  match status with
  | CaptureSpawn.WaitExited exit_code => Some (Exited exit_code runtime_ms)
  | CaptureSpawn.WaitSignaled signal core_dumped => Some (Signaled signal core_dumped runtime_ms)
  | CaptureSpawn.WaitStopped | CaptureSpawn.WaitContinued | CaptureSpawn.WaitStillAlive => None
  end.

(** ** System calls *)

(** How the wait for a lookup thread ends. *)
Inductive LookupAnswer : Type :=
| Looked (port : result string mach_port_t) (joined : bool)
| LookupTimedOut
| LookupDisconnected.

(** [waitpid] does not block; [killpg] and [kill] answer with an errno on failure;
    [await_lookup] waits for a lookup thread for a time. *)
Class ProcessOps (E : Type) := {
  waitpid : Z → E → result Z CaptureSpawn.WaitStatus * E;
  killpg : Z → Z → E → option Z * E;
  kill : Z → Z → E → option Z * E;
  getpgid : Z → E → Z;
  thread_sleep : Z → E → E;
  errno_display : Z → string;
  signal_debug : Z → string;
  install_guard : Z → option string → E → result string unit * E;
  disarm_guard : E → E;
  spawn_lookup : Z → E → result string unit * E;
  await_lookup : Z → E → LookupAnswer * E;
  destroy_exception_port : E → E
}.

Inductive SupervisorStep : Type :=
| ChildSpawned (pid : Z)
| ChildWaited (reply : result Z CaptureSpawn.WaitStatus)
| SentToGroup (signal : Z) (error : option Z)
| SentToPid (signal : Z) (error : option Z)
| GuardArmed
| GuardDisarmed
| PortDestroyed
| InLoop (s : EventLoop.LoopStep)
| FinalizationCompleted (reason : option TerminationReason).

Notation sup E := (fueled E SupervisorStep).

(** [CrashReapDeadlines]. *)
Record CrashReapDeadlines := mkDeadlines { before_sigkill : Z; after_sigkill : Z }.

Inductive ChildPoll : Type :=
| Running
| Interrupted
| PollTerminated (reason : TerminationReason).

Inductive TaskAcquisition : Type :=
| Acquired (task : mach_port_t)
| AcquisitionChildTerminated (reason : TerminationReason).

(** The spawned process group; [armed] is its parent-death guard's flag. *)
Record ChildProcessGroup := mkGroup { child_pid : Z; started_at : Z; reaped : bool; armed : bool }.

Section Child.
Context {E : Type} {clock : Clock E} {ops : ProcessOps E}.
#[local] Notation sup := (fueled E SupervisorStep).

Definition now : sup Z := ask instant_now.
Definition sleep (d : Z) : sup unit := ask (λ e, (tt, thread_sleep d e)).

Definition wait_child (pid : Z) : sup (result Z CaptureSpawn.WaitStatus) :=
  r ← ask (waitpid pid);
  _ ← step (ChildWaited r);
  mret r.

(** The normalized status, with the child's age as its run time. *)
Definition observed (status : CaptureSpawn.WaitStatus) (child_started_at : Z) : sup (option TerminationReason) :=
  t ← now;
  mret (termination_from_wait_status status (saturating_duration_since t child_started_at)).

(** ** Polling *)

Fixpoint poll_child_termination (retries : nat) (pid child_started_at : Z)
    : sup (result string (option TerminationReason)) :=
  match retries with
  | O => starved
  | S retries =>
      r ← wait_child pid;
      match r with
      | Ok status => reason ← observed status child_started_at; mret (Ok reason)
      | Err errno =>
          if decide (errno = CaptureSpawn.EINTR) then poll_child_termination retries pid child_started_at
          else if decide (errno = CaptureSpawn.ECHILD) then mret (Err "waitpid lost ownership of the child (ECHILD)")
          else mret (Err ("waitpid failed: " +:+ errno_display errno)%string)
      end
  end.

Definition poll_child_after_crash_once (pid child_started_at : Z) : sup (result string ChildPoll) :=
  r ← wait_child pid;
  match r with
  | Ok status =>
      reason ← observed status child_started_at;
      mret (Ok match reason with Some reason => PollTerminated reason | None => Running end)
  | Err errno =>
      if decide (errno = CaptureSpawn.EINTR) then mret (Ok Interrupted)
      else mret (Err ("waitpid after crash failed: " +:+ errno_display errno)%string)
  end.

Fixpoint poll_until_deadline (fuel : nat) (poll : sup (result string ChildPoll)) (deadline : Z)
    : sup (result string (option TerminationReason)) :=
  match fuel with
  | O => starved
  | S fuel =>
      polled ←? poll;
      match polled with
      | PollTerminated reason => mret (Ok (Some reason))
      | Running | Interrupted =>
          current ← now;
          if decide (deadline ≤ current) then mret (Ok None) else
          _ ← sleep (Z.min CRASH_REAP_POLL_INTERVAL (saturating_duration_since deadline current));
          poll_until_deadline fuel poll deadline
      end
  end.

(** ** Reaping *)

(** After SIGKILL: one more bounded poll, then the error. *)
Definition reap_killed (fuel : nat) (deadlines : CrashReapDeadlines) (poll : sup (result string ChildPoll))
    : sup (result string TerminationReason) :=
  t ← now;
  r ←? poll_until_deadline fuel poll (t + after_sigkill deadlines);
  mret match r with
       | Some reason => Ok reason
       | None => Err ("child did not terminate within " +:+ pretty (as_millis (after_sigkill deadlines)) +:+
                        "ms after SIGKILL")%string
       end.

Definition reap_after_detected_crash_with (fuel : nat) (sigkill_already_sent : bool) (deadlines : CrashReapDeadlines)
    (poll : sup (result string ChildPoll)) (send_sigkill : sup (result string unit))
    : sup (result string TerminationReason) :=
  if sigkill_already_sent then reap_killed fuel deadlines poll else
  t ← now;
  r ←? poll_until_deadline fuel poll (t + before_sigkill deadlines);
  match r with
  | Some reason => mret (Ok reason)
  | None => _ ←? send_sigkill; reap_killed fuel deadlines poll
  end.

Definition terminate_unmonitorable_child_with (fuel : nat) (deadlines : CrashReapDeadlines)
    (send_initial_signal : sup (result string unit)) (poll : sup (result string ChildPoll))
    (send_sigkill : sup (result string unit)) : sup (result string TerminationReason) :=
  _ ←? send_initial_signal;
  reap_after_detected_crash_with fuel false deadlines poll send_sigkill.

(** ** The task port *)

Fixpoint acquire_loop (fuel : nat) (deadline_after retry_interval deadline : Z)
    (acquire : Z → sup (result string mach_port_t)) (poll_child : sup (result string (option TerminationReason)))
    : sup (result string TaskAcquisition) :=
  match fuel with
  | O => starved
  | S fuel =>
      t ← now;
      r ← acquire (saturating_duration_since deadline t);
      match r with
      | Ok task => mret (Ok (Acquired task))
      | Err last_err =>
          terminated ←? poll_child;
          match terminated with
          | Some reason => mret (Ok (AcquisitionChildTerminated reason))
          | None =>
              current ← now;
              if decide (deadline ≤ current) then
                mret (Err ("task_for_pid acquisition deadline expired after " +:+ pretty (as_millis deadline_after) +:+
                             "ms: " +:+ last_err)%string)
              else
              _ ← sleep (Z.min retry_interval (saturating_duration_since deadline current));
              acquire_loop fuel deadline_after retry_interval deadline acquire poll_child
          end
      end
  end.

Definition acquire_task_port_or_termination_with (fuel : nat) (deadline_after retry_interval : Z)
    (acquire : Z → sup (result string mach_port_t)) (poll_child : sup (result string (option TerminationReason)))
    : sup (result string TaskAcquisition) :=
  t ← now;
  acquire_loop fuel deadline_after retry_interval (t + deadline_after) acquire poll_child.

(** The lookup runs on a thread of its own; a late answer is the thread's. *)
Definition task_for_pid_with_timeout (pid timeout : Z) : sup (result string mach_port_t) :=
  if decide (timeout = 0) then mret (Err "task_for_pid call deadline expired") else
  spawned ← ask (spawn_lookup pid);
  match spawned with
  | Err error => mret (Err ("spawning task_for_pid worker failed: " +:+ error)%string)
  | Ok _ =>
      answer ← ask (await_lookup timeout);
      mret match answer with
           | Looked port true => port
           | Looked _ false => Err "task_for_pid worker panicked"
           | LookupTimedOut => Err ("task_for_pid call exceeded " +:+ pretty (as_millis timeout) +:+ "ms")%string
           | LookupDisconnected => Err "task_for_pid worker disconnected"
           end
  end.

Definition acquire_task_port_or_termination (fuel retries : nat) (pid child_started_at : Z)
    : sup (result string TaskAcquisition) :=
  acquire_task_port_or_termination_with fuel TASK_ACQUISITION_DEADLINE TASK_ACQUISITION_RETRY_INTERVAL
    (task_for_pid_with_timeout pid) (poll_child_termination retries pid child_started_at).

(** ** The process group *)

Definition group_new (pid child_started_at : Z) (shm_name : option string) : sup (result string ChildProcessGroup) :=
  actual_pgid ← of_traced (look (getpgid pid));
  if decide (actual_pgid ≠ pid) then
    mret (Err ("spawned child " +:+ pretty pid +:+ " is not its process-group leader (getpgid=" +:+
                 pretty actual_pgid +:+ ")")%string)
  else
  _ ←? ask (install_guard pid shm_name);
  _ ← step GuardArmed;
  mret (Ok (mkGroup pid child_started_at false true)).

(** A group that is gone already counts as signalled. *)
Definition group_signal (g : ChildProcessGroup) (signal : Z) : sup (result string unit) :=
  r ← ask (killpg (child_pid g) signal);
  _ ← step (SentToGroup signal r);
  mret match r with
       | None => Ok tt
       | Some errno =>
           if decide (errno = CaptureSpawn.ESRCH) then Ok tt
           else Err ("failed to send " +:+ signal_debug signal +:+ " to child process group " +:+
                       pretty (child_pid g) +:+ ": " +:+ errno_display errno)%string
       end.

Definition disarm (g : ChildProcessGroup) : sup ChildProcessGroup :=
  if armed g then
    _ ← ask (λ e, (tt, disarm_guard e));
    _ ← step GuardDisarmed;
    mret (mkGroup (child_pid g) (started_at g) (reaped g) false)
  else mret g.

Definition mark_reaped (g : ChildProcessGroup) : sup ChildProcessGroup :=
  disarm (mkGroup (child_pid g) (started_at g) true (armed g)).

(** The owner after a reap, and its answer. *)
Definition reaped_if_ok (g : ChildProcessGroup) (r : result string TerminationReason)
    : sup (ChildProcessGroup * result string TerminationReason) :=
  match r with
  | Ok _ => g ← mark_reaped g; mret (g, r)
  | Err _ => mret (g, r)
  end.

Definition reap_after_crash (fuel : nat) (g : ChildProcessGroup) (sigkill_already_sent : bool)
    : sup (ChildProcessGroup * result string TerminationReason) :=
  r ← reap_after_detected_crash_with fuel sigkill_already_sent
        (mkDeadlines CRASH_REAP_GRACE_DEADLINE CRASH_REAP_AFTER_KILL_DEADLINE)
        (poll_child_after_crash_once (child_pid g) (started_at g)) (group_signal g SIGKILL);
  reaped_if_ok g r.

Definition terminate_and_reap (fuel : nat) (g : ChildProcessGroup) (signal : Z)
    : sup (ChildProcessGroup * result string TerminationReason) :=
  r ← terminate_unmonitorable_child_with fuel
        (mkDeadlines UNMONITORED_TERMINATION_GRACE_DEADLINE UNMONITORED_REAP_AFTER_KILL_DEADLINE)
        (group_signal g signal) (poll_child_after_crash_once (child_pid g) (started_at g)) (group_signal g SIGKILL);
  reaped_if_ok g r.

(** [Drop]: cleanup of a live group, then the guard's own drop. *)
Definition drop_group (fuel : nat) (g : ChildProcessGroup) : sup unit :=
  g ← (if reaped g then mret g else '(g, _) ← terminate_and_reap fuel g SIGTERM; mret g);
  _ ← disarm g;
  mret tt.

End Child.
End ChildProcess.
