(* ===== verification/TaskLookup.v ===== *)
(** * The task-port lookup behind a deadline (src/main.rs, [task_for_pid_with_timeout])

    The worker thread that looks the task port up against the supervisor that waits for
    it on a channel with one slot, step by step. A send succeeds as long as the receiver
    has not been dropped, whether or not it is still waiting. *)

From S2P Require Import Prelude.

Module TaskLookup.

Inductive worker_pc : Type :=
| LookingUp
| Sending (port : option Z)
| Releasing (port : Z)
| WorkerDone.

(** [receiver_timed_out] is between the timeout and the drop of the receiver. *)
Inductive receiver_pc : Type :=
| AwaitingAnswer
| Joining (port : option Z)
| TimedOut
| Answered (port : option Z)
| Abandoned.

Record State := mkState {
  worker : worker_pc;
  receiver : receiver_pc;
  slot : option (option Z);
  acquired : option Z;
  released : option Z;
  sent_late : bool
}.

Definition receiver_dropped (r : receiver_pc) : bool :=
  match r with Answered _ | Abandoned => true | _ => false end.

(** The lookup answers: with a port, or with an error. *)
Definition worker_step (answer : option Z) (s : State) : option State :=
  match worker s with
  | LookingUp => Some (mkState (Sending answer) (receiver s) (slot s) answer (released s) (sent_late s))
  | Sending port =>
      if receiver_dropped (receiver s) then
        Some (mkState (match port with Some port => Releasing port | None => WorkerDone end)
                (receiver s) (slot s) (acquired s) (released s) (sent_late s))
      else Some (mkState WorkerDone (receiver s) (Some port) (acquired s) (released s)
                   (match receiver s with TimedOut => true | _ => false end))
  | Releasing port => Some (mkState WorkerDone (receiver s) (slot s) (acquired s) (Some port) (sent_late s))
  | WorkerDone => None
  end.

(** [recv_timeout], then the join, or the return that drops receiver and slot. *)
Definition receiver_step (s : State) : option State :=
  match receiver s with
  | AwaitingAnswer =>
      match slot s with
      | Some port => Some (mkState (worker s) (Joining port) None (acquired s) (released s) (sent_late s))
      | None => None
      end
  | Joining port =>
      match worker s with
      | WorkerDone => Some (mkState (worker s) (Answered port) (slot s) (acquired s) (released s) (sent_late s))
      | _ => None
      end
  | TimedOut => Some (mkState (worker s) Abandoned None (acquired s) (released s) (sent_late s))
  | Answered _ | Abandoned => None
  end.

Definition receiver_times_out (s : State) : option State :=
  match receiver s, slot s with
  | AwaitingAnswer, None => Some (mkState (worker s) TimedOut None (acquired s) (released s) (sent_late s))
  | _, _ => None
  end.

Inductive move : Type := WorkerSteps (answer : option Z) | ReceiverSteps | ReceiverTimesOut.

Definition step (m : move) (s : State) : option State :=
  match m with
  | WorkerSteps answer => worker_step answer s
  | ReceiverSteps => receiver_step s
  | ReceiverTimesOut => receiver_times_out s
  end.

Fixpoint run (moves : list move) (s : State) : option State :=
  match moves with
  | [] => Some s
  | m :: moves => s ← step m s; run moves s
  end.

Definition initial : State := mkState LookingUp AwaitingAnswer None None None false.

(** Where the acquired right is. *)
Record sound (s : State) : Prop := {
  sound_worker : match worker s with
    | LookingUp => acquired s = None ∧ slot s = None ∧ released s = None ∧ sent_late s = false
    | Sending port => acquired s = port ∧ slot s = None ∧ released s = None ∧ sent_late s = false
    | Releasing port => acquired s = Some port ∧ slot s = None ∧ released s = None ∧ sent_late s = false ∧ receiver s = Abandoned
    | WorkerDone => True
    end;
  sound_receiver : match receiver s with
    | AwaitingAnswer => (worker s = WorkerDone → slot s = Some (acquired s)) ∧ released s = None ∧ sent_late s = false
    | Joining port => worker s = WorkerDone ∧ acquired s = port ∧ slot s = None ∧ released s = None ∧ sent_late s = false
    | TimedOut => released s = None ∧
        (worker s = WorkerDone → slot s = Some (acquired s) ∧ sent_late s = true)
    | Answered port => worker s = WorkerDone ∧ acquired s = port ∧ released s = None ∧ sent_late s = false
    | Abandoned => slot s = None ∧
        (worker s = WorkerDone → if sent_late s then released s = None else released s = acquired s)
    end
}.

Lemma lookup_step m s s' : sound s → step m s = Some s' → sound s'.
Proof.
  intros [H1 H2] Hs. destruct s as [w r sl a rl late]. destruct m as [answer| |]; simpl in *.
  - unfold worker_step in Hs. destruct w as [|port|port|]; simpl in *; [| | |done].
    + injection Hs as <-. destruct r; split; simpl in *; naive_solver.
    + destruct r; simpl in *; try destruct port; simplify_eq/=; split; simpl; naive_solver.
    + injection Hs as <-. destruct r; split; simpl in *; naive_solver.
  - unfold receiver_step in Hs. destruct r; simpl in *; try done.
    + destruct sl as [port|]; simplify_eq/=. destruct w; split; simpl in *; naive_solver.
    + destruct w; simplify_eq/=. split; simpl in *; naive_solver.
    + injection Hs as <-. destruct w; split; simpl in *; naive_solver.
  - unfold receiver_times_out in Hs. destruct r, sl; simplify_eq/=. destruct w; split; simpl in *; naive_solver.
Qed.

Lemma lookup_run moves s s' : sound s → run moves s = Some s' → sound s'.
Proof.
  revert s. induction moves as [|m moves IH]; intros s Hs Hrun; simpl in Hrun; [by injection Hrun as <-|].
  destruct (step m s) as [s1|] eqn:Hstep; [|done]. apply (IH s1); [by eapply lookup_step|done].
Qed.

(** Where the task right ends up when both threads are done. If the supervisor got
    the answer it is the right that was acquired, and nobody releases it; if the
    supervisor gave the wait up, the worker released what it acquired, unless it sent
    between the timeout and the drop of the receiver: then the send succeeds into the
    slot that is dropped with the receiver, and the right is neither owned nor released. *)
Theorem task_right_accounted moves s :
  run moves initial = Some s → worker s = WorkerDone →
  match receiver s with
  | Answered port => port = acquired s ∧ released s = None
  | Abandoned => released s = (if sent_late s then None else acquired s)
  | _ => True
  end.
Proof.
  intros Hrun Hdone. assert (sound initial) as H0 by (split; simpl; naive_solver).
  destruct (lookup_run moves initial s H0 Hrun) as [_ H2]. destruct (receiver s); try done.
  - destruct H2 as (_ & <- & H2 & _). done.
  - destruct H2 as [_ H2]. specialize (H2 Hdone). by destruct (sent_late s).
Qed.

(** The interleaving that loses the right. *)
Definition late_send : list move := [ReceiverTimesOut; WorkerSteps (Some 7); WorkerSteps None; ReceiverSteps].

Lemma task_right_accounted_witness :
  ∃ s, run late_send initial = Some s ∧ worker s = WorkerDone ∧ receiver s = Abandoned ∧ acquired s = Some 7 ∧
    released s = (if sent_late s then None else acquired s) ∧ released s = None.
Proof.
  destruct (run late_send initial) as [s|] eqn:Hrun; [|vm_compute in Hrun; discriminate Hrun].
  exists s. assert (worker s = WorkerDone ∧ receiver s = Abandoned ∧ acquired s = Some 7 ∧ released s = None) as (H1 & H2 & H3 & H4).
  { vm_compute in Hrun. injection Hrun as <-. vm_compute. repeat split. }
  split; [reflexivity|]. split; [exact H1|]. split; [exact H2|]. split; [exact H3|]. split; [|exact H4].
  pose proof (task_right_accounted late_send s Hrun H1) as H. rewrite H2 in H. exact H.
Defined.

End TaskLookup.
