(* ===== verification/ChildOutput.v ===== *)
(** * The bounded tails of the child's output (src/platform/macos/child_output.rs)

    One stream's state behind its lock, and the thread that drains the pipe into it.
    A reader is the list of its answers; when the list ends, the thread is blocked. *)

From S2P Require Import Prelude.

Module ChildOutput.

Definition DEFAULT_CHILD_OUTPUT_TAIL_BYTES : nat := 64 * 1024.
Definition DRAIN_BUFFER : nat := 8192.

Record StreamState (A : Type) := mkStream {
  bytes : list A;
  truncated : bool;
  read_error : option string;
  finished : bool
}.
Arguments mkStream {A}.
Arguments bytes {A}.
Arguments truncated {A}.
Arguments read_error {A}.
Arguments finished {A}.

Section Stream.
Context {A : Type}.

Definition stream_new : StreamState A := mkStream [] false None false.

(** [ChildOutputCapture::new]. *)
Definition capture_capacity (capacity : nat) : nat := Nat.max capacity 1.

Definition push (capacity : nat) (s : StreamState A) (l : list A) : StreamState A :=
  if decide (capacity ≤ length l)%nat then
    mkStream (drop (length l - capacity) l) true (read_error s) (finished s)
  else
    let overflow := (length (bytes s) + length l - capacity)%nat in
    if decide (overflow ≠ 0%nat) then mkStream (drop overflow (bytes s) ++ l) true (read_error s) (finished s)
    else mkStream (bytes s ++ l) (truncated s) (read_error s) (finished s).

Definition finish (s : StreamState A) (error : option string) : StreamState A :=
  mkStream (bytes s) (truncated s) error true.

(** An answer of [read]: bytes, of which none is the end of the file, an interruption,
    or an error. *)
Inductive answer : Type :=
| ReadBytes (l : list A)
| ReadInterrupted
| ReadFailed (error : string).

(** The drain thread. *)
Fixpoint drain (capacity : nat) (reader : list answer) (s : StreamState A) : StreamState A :=
  match reader with
  | [] => s
  | ReadBytes [] :: _ => finish s None
  | ReadBytes l :: reader => drain capacity reader (push capacity s l)
  | ReadInterrupted :: reader => drain capacity reader s
  | ReadFailed error :: _ => finish s (Some error)
  end.

(** [start_drain], where the thread may fail to start. *)
Definition start_drain (capacity : nat) (spawned : result string unit) (reader : list answer) (s : StreamState A)
    : StreamState A :=
  match spawned with
  | Ok _ => drain capacity reader s
  | Err error => finish s (Some ("failed to start drain thread: " +:+ error)%string)
  end.

(** ** The tail *)

(** What the reader delivered up to its end. *)
Fixpoint delivered (reader : list answer) : list A :=
  match reader with
  | ReadBytes [] :: _ | ReadFailed _ :: _ | [] => []
  | ReadBytes l :: reader => l ++ delivered reader
  | ReadInterrupted :: reader => delivered reader
  end.

Definition keep_last (capacity : nat) (l : list A) : list A := drop (length l - capacity) l.

Lemma keep_last_short capacity l : (length l ≤ capacity)%nat → keep_last capacity l = l.
Proof. intros H. unfold keep_last. by replace (length l - capacity)%nat with 0%nat by lia. Qed.

Lemma keep_last_length capacity l : length (keep_last capacity l) = Nat.min (length l) capacity.
Proof. unfold keep_last. rewrite length_drop. lia. Qed.

(** Keeping the last bytes of kept bytes and new ones. *)
Lemma keep_last_app capacity l1 l2 : keep_last capacity (keep_last capacity l1 ++ l2) = keep_last capacity (l1 ++ l2).
Proof.
  destruct (decide (length l1 ≤ capacity)%nat) as [H|H]; [by rewrite (keep_last_short capacity l1)|].
  unfold keep_last. rewrite !length_app, length_drop. destruct (decide (capacity ≤ length l2)%nat).
  - rewrite !drop_app_ge by (rewrite ?length_drop; lia). rewrite length_drop. f_equal. lia.
  - rewrite !drop_app_le by (rewrite ?length_drop; lia). rewrite drop_drop. do 2 f_equal. lia.
Qed.

Lemma push_keeps capacity s l :
  (length (bytes s) ≤ capacity)%nat →
  bytes (push capacity s l) = keep_last capacity (bytes s ++ l) ∧
  truncated (push capacity s l) =
    truncated s || bool_decide (capacity < length (bytes s) + length l)%nat || bool_decide (capacity ≤ length l)%nat.
Proof.
  intros Hs. unfold push, keep_last. rewrite length_app. case_decide as Hl.
  - simpl. rewrite drop_app_ge by lia. split; [f_equal; lia|]. rewrite (bool_decide_eq_true_2 _ Hl). by rewrite orb_true_r.
  - rewrite (bool_decide_eq_false_2 _ Hl), orb_false_r. case_decide as Ho; simpl.
    + rewrite drop_app_le by lia. split; [done|]. rewrite bool_decide_eq_true_2 by lia. by rewrite orb_true_r.
    + replace (length (bytes s) + length l - capacity)%nat with 0%nat by lia. split; [done|].
      rewrite bool_decide_eq_false_2 by lia. by rewrite orb_false_r.
Qed.

Lemma drain_keeps capacity reader s stream :
  bytes s = keep_last capacity stream → truncated s = bool_decide (capacity < length stream)%nat →
  Forall (λ a, match a with ReadBytes l => (length l < capacity)%nat | _ => True end) reader →
  bytes (drain capacity reader s) = keep_last capacity (stream ++ delivered reader) ∧
  truncated (drain capacity reader s) = bool_decide (capacity < length (stream ++ delivered reader))%nat.
Proof.
  revert s stream. induction reader as [|[[|b l]| |error] reader IH]; intros s stream Hb Ht HF; simpl; rewrite ?app_nil_r; try done.
  - inversion HF as [|? ? Hl HF']. subst.
    assert (length (bytes s) ≤ capacity)%nat as Hs by (rewrite Hb, keep_last_length; lia).
    destruct (push_keeps capacity s (b :: l) Hs) as [Hb' Ht'].
    change (b :: l ++ delivered reader) with ((b :: l) ++ delivered reader). rewrite app_assoc. apply IH; [| |done].
    + by rewrite Hb', Hb, keep_last_app.
    + rewrite Ht', Ht, Hb, keep_last_length, length_app, (bool_decide_eq_false_2 (capacity ≤ _)%nat) by lia.
      rewrite orb_false_r. repeat case_bool_decide; simpl; try done; lia.
  - inversion HF. by apply IH.
Qed.

(** The captured output is the end of the child's stream: with reads no longer than
    the capacity, the tail is exactly the last [capacity] bytes that the pipe delivered
    before its end, an error or now, and it is marked as truncated exactly if bytes were
    lost. The monitor's capacity of 64 KiB is above its reads of 8 KiB. *)
Theorem output_tail_exact capacity reader :
  Forall (λ a, match a with ReadBytes l => (length l < capacity)%nat | _ => True end) reader →
  bytes (start_drain capacity (Ok tt) reader stream_new) = keep_last capacity (delivered reader) ∧
  truncated (start_drain capacity (Ok tt) reader stream_new) = bool_decide (capacity < length (delivered reader))%nat ∧
  (DRAIN_BUFFER < capture_capacity DEFAULT_CHILD_OUTPUT_TAIL_BYTES)%nat.
Proof.
  intros HF. destruct (drain_keeps capacity reader stream_new [] eq_refl eq_refl HF) as [H1 H2].
  split; [exact H1|]. split; [exact H2|]. by apply Nat.ltb_lt.
Qed.

End Stream.

Lemma output_tail_exact_witness :
  Forall (λ a, match a with ReadBytes l => (length l < 5)%nat | _ => True end) [ReadBytes [0; 1; 2; 3]; ReadInterrupted; ReadBytes [4; 5]] ∧
  bytes (start_drain 5 (Ok tt) [ReadBytes [0; 1; 2; 3]; ReadInterrupted; ReadBytes [4; 5]] stream_new) = [1; 2; 3; 4; 5] ∧
  truncated (start_drain 5 (Ok tt) [ReadBytes [0; 1; 2; 3]; ReadInterrupted; ReadBytes [4; 5]] stream_new) = true.
Proof.
  assert (Forall (λ a : answer, match a with ReadBytes l => (length l < 5)%nat | _ => True end)
    [ReadBytes [0; 1; 2; 3]; ReadInterrupted; ReadBytes [4; 5]]) as HF by (repeat constructor; simpl; lia).
  split; [exact HF|]. destruct (output_tail_exact 5 _ HF) as (H1 & H2 & _). rewrite H1, H2. split; reflexivity.
Defined.

(** A first read of exactly the capacity counts as truncated, though nothing is lost. *)
Example exact_fill_is_truncated : truncated (push 3 stream_new [1; 2; 3]) = true ∧ bytes (push 3 stream_new [1; 2; 3]) = [1; 2; 3].
Proof. split; reflexivity. Qed.

End ChildOutput.
