(* ===== verification/ChildSpawn.v ===== *)
(** * Spawning the monitored child (src/platform/macos/ffi/spawn.rs)

    [spawn_with_exception_port_impl] with its spawn attributes, file actions and output
    pipes. A spawn attribute is the record of what the calls on it configured; the
    trace has every descriptor that is opened and closed and every initialized object
    that is destroyed. An [OwnedFd] that Rust drops is closed where its scope ends. *)

From stdpp Require Import pretty.
From S2P Require Import Prelude.
From S2P Require Import Traced.
From S2P Require Import Fueled.
From S2P Require Import EventLoop.

Module ChildSpawn.
Export Traced.
Export Fueled.

Definition mach_port_t : Type := Z.

(** [CRASH_EXCEPTION_MASK]: bad access, bad instruction, arithmetic, breakpoint,
    crash and guard, each the bit of its exception type. *)
Definition CRASH_EXCEPTION_MASK : Z :=
  Z.lor (Z.shiftl 1 1) (Z.lor (Z.shiftl 1 2) (Z.lor (Z.shiftl 1 3)
    (Z.lor (Z.shiftl 1 6) (Z.lor (Z.shiftl 1 10) (Z.shiftl 1 12))))).
Definition ARM_THREAD_STATE64 : Z := 6.
Definition EXCEPTION_STATE_IDENTITY : Z := 3.
Definition MACH_EXCEPTION_CODES_FLAG : Z := - 2 ^ 31.

Definition POSIX_SPAWN_SETPGROUP : Z := 2.
Definition POSIX_SPAWN_SETSIGDEF : Z := 4.
Definition POSIX_SPAWN_SETSIGMASK : Z := 8.

Definition STDOUT_FILENO : Z := 1.
Definition STDERR_FILENO : Z := 2.
Definition SIGPIPE : Z := 13.

Inductive SpawnStage : Type :=
| AttrInit
| ExceptionPorts
| OutputPipe
| FileActions
| ProcessGroup
| SignalState
| PosixSpawn.

Record SpawnError := mkError { stage : SpawnStage; rc : Z }.

Definition stage_to_string (s : SpawnStage) : string :=
  match s with
  | AttrInit => "posix_spawnattr_init"
  | ExceptionPorts => "posix_spawnattr_setexceptionports_np"
  | OutputPipe => "pipe/fcntl"
  | FileActions => "posix_spawn_file_actions"
  | ProcessGroup => "posix_spawn process-group attributes"
  | SignalState => "posix_spawn signal attributes"
  | PosixSpawn => "posix_spawn"
  end.

(** [Display]; [os_error] is the text of an errno. *)
Definition error_to_string (os_error : Z → string) (e : SpawnError) : string :=
  (stage_to_string (stage e) +:+ " failed: rc=" +:+ pretty (rc e) +:+ " (" +:+ os_error (rc e) +:+ ")")%string.

(** ** Attributes and file actions *)

Record SpawnAttr := mkAttr {
  attr_ports : option (Z * mach_port_t * Z * Z);
  attr_pgroup : option Z;
  attr_flags : Z;
  attr_sigmask : option (list Z);
  attr_sigdefault : option (list Z)
}.
Definition fresh_attr : SpawnAttr := mkAttr None None 0 None None.

Inductive FileAction : Type :=
| AddDup2 (from to : Z)
| AddClose (fd : Z).

(** Calls that answer with an errno-style code, and the sigset calls, whose failure
    is in [errno]. *)
Inductive SpawnCall : Type :=
| CallAttrInit
| CallExceptionPorts (mask port behavior flavor : Z)
| CallSetPgroup (pgroup : Z)
| CallSetFlags (flags : Z)
| CallGetFlags
| CallSetSigmask (mask : list Z)
| CallSetSigdefault (defaults : list Z)
| CallSigEmptySet
| CallSigAddSet (signal : Z)
| CallActionsInit
| CallAction (a : FileAction).

Record OutputPipes := mkPipes { stdout_read : Z; stdout_write : Z; stderr_read : Z; stderr_write : Z }.

Class SpawnOps (E : Type) := {
  spawn_call : SpawnCall → E → Z * E;
  last_errno : E → Z;
  libc_pipe : E → option (Z * Z) * E;
  dupfd_cloexec : Z → Z → E → option Z * E;
  set_cloexec : Z → E → bool * E;
  posix_spawn : string → SpawnAttr → option (list FileAction) → list string → list string → E → result Z Z * E
}.

Inductive SpawnStep : Type :=
| Opened (fd : Z)
| Closed (fd : Z)
| AttrInited
| AttrDestroyed
| ActionsInited
| ActionsDestroyed
| Spawned (attr : SpawnAttr) (actions : option (list FileAction)) (reply : result Z Z)
| AttachedStdout (fd : Z)
| AttachedStderr (fd : Z).

Section Spawn.
Context {E : Type} {ops : SpawnOps E}.
#[local] Notation sp := (traced E SpawnStep).

Definition call (c : SpawnCall) : sp Z := lift (spawn_call c).
Definition failed_with {A : Type} (s : SpawnStage) (code : Z) : result SpawnError A := Err (mkError s code).

(** The stage's error with the code of a call that failed. *)
Definition checked (s : SpawnStage) (c : SpawnCall) : sp (result SpawnError unit) :=
  code ← call c;
  mret (if decide (code = 0) then Ok tt else failed_with s code).

(** The same for a call whose failure is in [errno]. *)
Definition checked_errno (s : SpawnStage) (c : SpawnCall) : sp (result SpawnError unit) :=
  code ← call c;
  errno ← look last_errno;
  mret (if decide (code = 0) then Ok tt else failed_with s errno).

Definition configure_process_group (attr : SpawnAttr) : sp (result SpawnError SpawnAttr) :=
  _ ←? checked ProcessGroup (CallSetPgroup 0);
  _ ←? checked ProcessGroup (CallSetFlags POSIX_SPAWN_SETPGROUP);
  mret (Ok (mkAttr (attr_ports attr) (Some 0) POSIX_SPAWN_SETPGROUP (attr_sigmask attr) (attr_sigdefault attr))).

Definition configure_signal_state (attr : SpawnAttr) : sp (result SpawnError SpawnAttr) :=
  _ ←? checked_errno SignalState CallSigEmptySet;
  _ ←? checked SignalState (CallSetSigmask []);
  _ ←? checked_errno SignalState CallSigEmptySet;
  _ ←? checked_errno SignalState (CallSigAddSet SIGPIPE);
  _ ←? checked SignalState (CallSetSigdefault [SIGPIPE]);
  _ ←? checked SignalState CallGetFlags;
  let flags := Z.lor (attr_flags attr) (Z.lor POSIX_SPAWN_SETSIGMASK POSIX_SPAWN_SETSIGDEF) in
  _ ←? checked SignalState (CallSetFlags flags);
  mret (Ok (mkAttr (attr_ports attr) (attr_pgroup attr) flags (Some []) (Some [SIGPIPE]))).

(** ** Output pipes *)

Definition close_fd (fd : Z) : sp unit := emit (Closed fd).

Definition move_above_stdio (fd : Z) : sp (result SpawnError Z) :=
  if decide (STDERR_FILENO < fd) then mret (Ok fd) else
  duplicated ← lift (dupfd_cloexec fd (STDERR_FILENO + 1));
  match duplicated with
  | None => errno ← look last_errno; _ ← close_fd fd; mret (failed_with OutputPipe errno)
  | Some fd' => _ ← emit (Opened fd'); _ ← close_fd fd; mret (Ok fd')
  end.

Definition set_cloexec_or_close (fd : Z) (owned : list Z) : sp (result SpawnError unit) :=
  ok ← lift (set_cloexec fd);
  if (ok : bool) then mret (Ok tt) else
  errno ← look last_errno;
  _ ← fold_right (λ fd m, _ ← close_fd fd; m) (mret tt) owned;
  mret (failed_with OutputPipe errno).

(** The second descriptor is owned only once the first has been moved. *)
Definition cloexec_pipe : sp (result SpawnError (Z * Z)) :=
  fds ← lift libc_pipe;
  match fds with
  | None => errno ← look last_errno; mret (failed_with OutputPipe errno)
  | Some (fd0, fd1) =>
      _ ← emit (Opened fd0);
      _ ← emit (Opened fd1);
      read ←? move_above_stdio fd0;
      moved ← move_above_stdio fd1;
      match moved with
      | Err error => _ ← close_fd read; mret (Err error)
      | Ok write =>
          _ ←? set_cloexec_or_close read [write; read];
          _ ←? set_cloexec_or_close write [write; read];
          mret (Ok (read, write))
      end
  end.

Definition output_pipes : sp (result SpawnError OutputPipes) :=
  out ←? cloexec_pipe;
  err ← cloexec_pipe;
  match err with
  | Err error => _ ← close_fd out.2; _ ← close_fd out.1; mret (Err error)
  | Ok (stderr_read, stderr_write) => mret (Ok (mkPipes out.1 out.2 stderr_read stderr_write))
  end.

Definition drop_pipes (pipes : option OutputPipes) : sp unit :=
  match pipes with
  | None => mret tt
  | Some p =>
      _ ← close_fd (stdout_read p); _ ← close_fd (stdout_write p);
      _ ← close_fd (stderr_read p); close_fd (stderr_write p)
  end.

(** ** The spawn *)

Definition actions_of (p : OutputPipes) : list FileAction :=
  [AddDup2 (stdout_write p) STDOUT_FILENO; AddDup2 (stderr_write p) STDERR_FILENO;
   AddClose (stdout_read p); AddClose (stdout_write p); AddClose (stderr_read p); AddClose (stderr_write p)].

(** Every action is added; the first failure counts. *)
Fixpoint add_actions (l : list FileAction) : sp (option Z) :=
  match l with
  | [] => mret None
  | a :: l =>
      code ← call (CallAction a);
      later ← add_actions l;
      mret (if decide (code = 0) then later else Some code)
  end.

(** The attributes without their lifetime. *)
Definition configure (exc_port : mach_port_t) : sp (result SpawnError SpawnAttr) :=
  let behavior := Z.lor EXCEPTION_STATE_IDENTITY MACH_EXCEPTION_CODES_FLAG in
  _ ←? checked ExceptionPorts (CallExceptionPorts CRASH_EXCEPTION_MASK exc_port behavior ARM_THREAD_STATE64);
  attr ←? configure_process_group
    (mkAttr (Some (CRASH_EXCEPTION_MASK, exc_port, behavior, ARM_THREAD_STATE64)) None 0 None None);
  configure_signal_state attr.

Definition file_actions (pipes : option OutputPipes) : sp (result SpawnError (option (list FileAction))) :=
  match pipes with
  | None => mret (Ok None)
  | Some p =>
      _ ←? checked FileActions CallActionsInit;
      _ ← emit ActionsInited;
      failed ← add_actions (actions_of p);
      match failed with
      | Some code => _ ← emit ActionsDestroyed; mret (failed_with FileActions code)
      | None => mret (Ok (Some (actions_of p)))
      end
  end.

(** The scope of the spawn attribute. *)
Definition spawn_process (exc_port : mach_port_t) (app_path : string) (argv envp : list string)
    (pipes : option OutputPipes) : sp (result SpawnError Z) :=
  _ ←? checked AttrInit CallAttrInit;
  _ ← emit AttrInited;
  configured ← configure exc_port;
  match configured with
  | Err error => _ ← emit AttrDestroyed; mret (Err error)
  | Ok attr =>
      prepared ← file_actions pipes;
      match prepared with
      | Err error => _ ← emit AttrDestroyed; mret (Err error)
      | Ok actions =>
          reply ← lift (posix_spawn app_path attr actions argv envp);
          _ ← emit (Spawned attr actions reply);
          _ ← (match pipes with Some _ => emit ActionsDestroyed | None => mret tt end);
          _ ← emit AttrDestroyed;
          mret (map_err (mkError PosixSpawn) reply)
      end
  end.

Definition spawn_with_exception_port_impl (exc_port : mach_port_t) (app_path : string) (argv envp : list string)
    (output : bool) : sp (result SpawnError Z) :=
  pipes ←? (if output then p ← output_pipes; mret (Some <$> p) else mret (Ok None));
  spawned ← spawn_process exc_port app_path argv envp pipes;
  match spawned with
  | Err error => _ ← drop_pipes pipes; mret (Err error)
  | Ok pid =>
      _ ← (match pipes with
           | None => mret tt
           | Some p =>
               _ ← close_fd (stdout_write p); _ ← close_fd (stderr_write p);
               _ ← emit (AttachedStdout (stdout_read p)); emit (AttachedStderr (stderr_read p))
           end);
      mret (Ok pid)
  end.

Definition spawn_with_exception_port exc_port app_path argv envp : sp (result SpawnError Z) :=
  spawn_with_exception_port_impl exc_port app_path argv envp false.
Definition spawn_with_exception_port_and_output exc_port app_path argv envp : sp (result SpawnError Z) :=
  spawn_with_exception_port_impl exc_port app_path argv envp true.

End Spawn.
End ChildSpawn.

(** ** What a spawn leaves behind

    Descriptors, spawn attributes and file actions are accounted for on every path of
    [spawn_with_exception_port_impl], and the child is spawned with exactly the policy
    of the monitor: the exception port for the subscribed exceptions, a process group
    of its own, a clean signal state and, with capture, its output in the pipes. *)

Module ChildSpawnSpec.
Export ChildSpawn.

(** ** Accounts of a trace *)

Definition ind (x y : Z) : Z := if decide (x = y) then 1 else 0.

(** Descriptor [fd] was opened so many times more often than closed. *)
Fixpoint open_fds (fd : Z) (l : list SpawnStep) : Z :=
  match l with
  | [] => 0
  | Opened x :: l => ind fd x + open_fds fd l
  | Closed x :: l => open_fds fd l - ind fd x
  | _ :: l => open_fds fd l
  end.

(** The same for the spawn attribute and the file actions. *)
Fixpoint live_objects (l : list SpawnStep) : Z * Z :=
  match l with
  | [] => (0, 0)
  | AttrInited :: l => let '(a, f) := live_objects l in (a + 1, f)
  | AttrDestroyed :: l => let '(a, f) := live_objects l in (a - 1, f)
  | ActionsInited :: l => let '(a, f) := live_objects l in (a, f + 1)
  | ActionsDestroyed :: l => let '(a, f) := live_objects l in (a, f - 1)
  | _ :: l => live_objects l
  end.

(** The spawns, and the descriptors handed to the drain threads. *)
Definition spawns (l : list SpawnStep) : list (SpawnAttr * option (list FileAction) * result Z Z) :=
  omap (λ s, match s with Spawned a f r => Some (a, f, r) | _ => None end) l.
Definition attached (l : list SpawnStep) : list Z :=
  omap (λ s, match s with AttachedStdout fd | AttachedStderr fd => Some fd | _ => None end) l.

Lemma open_app fd l1 l2 : open_fds fd (l1 ++ l2) = open_fds fd l1 + open_fds fd l2.
Proof. induction l1 as [|[] l1 IH]; simpl; lia. Qed.

Lemma live_app l1 l2 :
  live_objects (l1 ++ l2) = ((live_objects l1).1 + (live_objects l2).1, (live_objects l1).2 + (live_objects l2).2).
Proof.
  induction l1 as [|[] l1 IH]; simpl; rewrite ?IH; try (destruct (live_objects l1); simpl; f_equal; lia).
  by destruct (live_objects l2).
Qed.

Lemma spawns_app l1 l2 : spawns (l1 ++ l2) = spawns l1 ++ spawns l2.
Proof. apply omap_app. Qed.
Lemma attached_app l1 l2 : attached (l1 ++ l2) = attached l1 ++ attached l2.
Proof. apply omap_app. Qed.

(** A trace that only opens and closes descriptors. *)
Definition only_fds (l : list SpawnStep) : Prop := Forall (λ s, (∃ fd, s = Opened fd) ∨ ∃ fd, s = Closed fd) l.

Lemma only_fds_account l : only_fds l → live_objects l = (0, 0) ∧ spawns l = [] ∧ attached l = [].
Proof. induction 1 as [|? ? [[fd ->]|[fd ->]] _ IH]; [done|exact IH|exact IH]. Qed.

Lemma only_fds_app l1 l2 : only_fds l1 → only_fds l2 → only_fds (l1 ++ l2).
Proof. apply Forall_app_2. Qed.

Lemma only_fds_nil : only_fds [].
Proof. constructor. Qed.
Lemma only_fds_opened fd l : only_fds l → only_fds (Opened fd :: l).
Proof. constructor; eauto. Qed.
Lemma only_fds_closed fd l : only_fds l → only_fds (Closed fd :: l).
Proof. constructor; eauto. Qed.
#[local] Hint Resolve only_fds_app only_fds_nil only_fds_opened only_fds_closed : cm.

(** ** The file table of the child *)

(** The actions of [posix_spawn], in order, on a table of open files. *)
Definition apply_action {A : Type} (table : gmap Z A) (a : FileAction) : gmap Z A :=
  match a with
  | AddDup2 from to => match table !! from with Some file => <[to := file]> table | None => delete to table end
  | AddClose fd => delete fd table
  end.

Definition child_table {A : Type} (actions : option (list FileAction)) (table : gmap Z A) : gmap Z A :=
  fold_left apply_action (default [] actions) table.

Definition above_stdio (p : OutputPipes) : Prop :=
  STDERR_FILENO < stdout_read p ∧ STDERR_FILENO < stdout_write p ∧
  STDERR_FILENO < stderr_read p ∧ STDERR_FILENO < stderr_write p.

(** Above the standard descriptors, closing the originals does not undo the
    redirection. *)
Lemma redirects {A : Type} p (table : gmap Z A) :
  above_stdio p → is_Some (table !! stdout_write p) → is_Some (table !! stderr_write p) →
  child_table (Some (actions_of p)) table !! STDOUT_FILENO = table !! stdout_write p ∧
  child_table (Some (actions_of p)) table !! STDERR_FILENO = table !! stderr_write p ∧
  Forall (λ fd, child_table (Some (actions_of p)) table !! fd = None)
    [stdout_read p; stdout_write p; stderr_read p; stderr_write p].
Proof.
  intros (H1 & H2 & H3 & H4) [f1 E1] [f2 E2]. unfold STDOUT_FILENO, STDERR_FILENO in *. unfold child_table. simpl.
  unfold STDOUT_FILENO, STDERR_FILENO in *. rewrite E1, lookup_insert_ne, E2 by lia. split_and!.
  - by rewrite !lookup_delete_ne, lookup_insert_ne, lookup_insert_eq by lia.
  - by rewrite !lookup_delete_ne, lookup_insert_eq by lia.
  - repeat constructor; rewrite !lookup_delete; repeat case_decide; congruence.
Qed.

(** ** Descriptors *)

(** [F_DUPFD_CLOEXEC] answers with a descriptor that is no smaller than its argument. *)
Class SpawnLaws (E : Type) {ops : SpawnOps E} : Prop :=
  dupfd_above fd minimum e fd' : (dupfd_cloexec fd minimum e).1 = Some fd' → minimum ≤ fd'.

Section Spawn.
Context {E : Type} {ops : SpawnOps E} {laws : SpawnLaws E}.
#[local] Notation sp := (traced E SpawnStep).

(** Steps of a question mark. *)
Lemma emits_question {A B : Type} (P : list SpawnStep → result SpawnError A → Prop)
    (Q : list SpawnStep → result SpawnError B → Prop) (m : sp (result SpawnError A)) (f : A → sp (result SpawnError B)) :
  emits P m → (∀ l e, P l (Err e) → Q l (Err e)) →
  (∀ l a, P l (Ok a) → emits (λ l' b, Q (l ++ l') b) (f a)) → emits Q (a ←? m; f a).
Proof.
  intros Hm He Hf. eapply emits_bind; [exact Hm|]. intros l [a|e] HP; [by apply Hf|].
  apply emits_ret. rewrite app_nil_r. by apply He.
Qed.

Lemma silent_checked s c : silent (checked s c : sp _).
Proof. eapply emits_silent; [apply silent_lift|]. intros. apply silent_ret. Qed.
Lemma silent_checked_errno s c : silent (checked_errno s c : sp _).
Proof. repeat (eapply emits_silent; [auto with cm; apply silent_lift|]; intros). apply silent_ret. Qed.
#[local] Hint Resolve silent_checked silent_checked_errno : cm.

Lemma emits_checked {B : Type} (Q : list SpawnStep → result SpawnError B → Prop) s c (f : unit → sp (result SpawnError B)) :
  (∀ e, stage e = s → Q [] (Err e)) → emits Q (f tt) → emits Q (a ←? checked s c; f a).
Proof.
  intros He Hf. eapply emits_bind; [apply (emits_bind (λ l _, l = []) (λ l r, l = [] ∧ ∀ e, r = Err e → stage e = s))|].
  - apply silent_lift.
  - intros l code ->. apply emits_ret. split; [done|]. case_decide; [done|]. by intros e [= <-].
  - intros l [[]|e] [-> H]; [exact Hf|]. apply emits_ret. apply He, H. done.
Qed.

Lemma emits_checked_errno {B : Type} (Q : list SpawnStep → result SpawnError B → Prop) s c (f : unit → sp (result SpawnError B)) :
  (∀ e, stage e = s → Q [] (Err e)) → emits Q (f tt) → emits Q (a ←? checked_errno s c; f a).
Proof.
  intros He Hf. eapply emits_bind; [apply (emits_bind (λ l _, l = []) (λ l r, l = [] ∧ ∀ e, r = Err e → stage e = s))|].
  - apply silent_lift.
  - intros l code ->. eapply emits_silent; [apply silent_look|]. intros errno. apply emits_ret.
    split; [done|]. case_decide; [done|]. by intros e [= <-].
  - intros l [[]|e] [-> H]; [exact Hf|]. apply emits_ret. apply He, H. done.
Qed.

(** The errors of the output pipes, with what they keep open. *)
Definition pipe_error (e : SpawnError) (l : list SpawnStep) : Prop :=
  stage e = OutputPipe ∧ ((∀ fd, open_fds fd l = 0) ∨ ∃ leaked, ∀ fd, open_fds fd l = ind fd leaked).

Lemma move_emits fd :
  emits (λ l r, only_fds l ∧ match r with
    | Ok fd' => STDERR_FILENO < fd' ∧ ∀ x, open_fds x l = ind x fd' - ind x fd
    | Err e => stage e = OutputPipe ∧ ∀ x, open_fds x l = - ind x fd
    end) (move_above_stdio fd : sp _).
Proof.
  unfold move_above_stdio. case_decide; [apply emits_ret; split; [simpl; auto 8 with cm|]; split; [done|]; simpl; intros; lia|].
  apply (emits_bind (λ l r, l = [] ∧ match r with Some fd' => STDERR_FILENO < fd' | None => True end)).
  { intros w. exists []. rewrite app_nil_r. unfold lift.
    destruct (dupfd_cloexec fd (STDERR_FILENO + 1) (env w)) as [[fd'|] e] eqn:Hd; simpl; [|done].
    split; [done|]. split; [done|]. pose proof (dupfd_above fd (STDERR_FILENO + 1) (env w) fd') as Hl.
    rewrite Hd in Hl. specialize (Hl eq_refl). lia. }
  intros l [fd'|] [-> Hfd].
  - apply emits_step, emits_step, emits_ret. split; [simpl; auto 8 with cm|]. split; [done|]. intros x. simpl. lia.
  - eapply emits_silent; [apply silent_look|]. intros errno. apply emits_step, emits_ret.
    split; [simpl; auto 8 with cm|]. split; [done|]. intros x. simpl. lia.
Qed.

Lemma set_cloexec_emits fd a b :
  emits (λ l r, only_fds l ∧ match r with
    | Ok _ => l = []
    | Err e => stage e = OutputPipe ∧ ∀ x, open_fds x l = - ind x a - ind x b
    end) (set_cloexec_or_close fd [a; b] : sp _).
Proof.
  eapply emits_silent; [apply silent_lift|]. intros [|].
  - apply emits_ret. split; [constructor|done].
  - eapply emits_silent; [apply silent_look|]. intros errno. apply (emits_bind (λ l _, l = [Closed a; Closed b])).
    + simpl. by apply emits_step, emits_step, emits_ret.
    + intros l [] ->. apply emits_ret. split; [simpl; auto 8 with cm|]. split; [done|]. intros x. simpl. lia.
Qed.

Lemma cloexec_pipe_emits :
  emits (λ l r, only_fds l ∧ match r with
    | Ok (a, b) => STDERR_FILENO < a ∧ STDERR_FILENO < b ∧ ∀ x, open_fds x l = ind x a + ind x b
    | Err e => pipe_error e l
    end) (cloexec_pipe : sp _).
Proof.
  eapply emits_silent; [apply silent_lift|]. intros [[fd0 fd1]|].
  2: { eapply emits_silent; [apply silent_look|]. intros errno. apply emits_ret. split; [simpl; auto 8 with cm|]. split; [done|by left]. }
  apply emits_step, emits_step. eapply emits_bind; [apply move_emits|]. intros l [read|e] [Hl Hr].
  2: { apply emits_ret. rewrite app_nil_r. destruct Hr as [He Hr]. split; [simpl; auto 8 with cm|].
       split; [done|]. right. exists fd1. intros x. simpl. rewrite Hr. lia. }
  destruct Hr as [Hread Hr]. eapply emits_bind; [apply move_emits|]. intros l2 [write|e] [Hl2 Hw].
  2: { apply emits_step, emits_ret. destruct Hw as [He Hw].
       split; [simpl; auto 8 with cm|].
       split; [done|]. left. intros x. simpl. rewrite !open_app, Hr, Hw. simpl. lia. }
  destruct Hw as [Hwrite Hw]. eapply emits_bind; [apply set_cloexec_emits|]. intros l3 [[]|e] [Hl3 H3].
  2: { apply emits_ret. rewrite app_nil_r. destruct H3 as [He H3].
       split; [simpl; auto 8 with cm|].
       split; [done|]. left. intros x. simpl. rewrite !open_app, Hr, Hw, H3. lia. }
  subst l3. eapply emits_bind; [apply set_cloexec_emits|]. intros l4 [[]|e] [Hl4 H4].
  2: { apply emits_ret. rewrite app_nil_r. destruct H4 as [He H4].
       split; [simpl; auto 8 with cm|].
       split; [done|]. left. intros x. simpl. rewrite !open_app, Hr, Hw, H4. simpl. lia. }
  subst l4. apply emits_ret. split; [simpl; auto 8 with cm|].
  split_and!; [done|done|]. intros x. simpl. rewrite !open_app, Hr, Hw. simpl. lia.
Qed.

Lemma output_pipes_emits :
  emits (λ l r, only_fds l ∧ match r with
    | Ok p => above_stdio p ∧
        ∀ x, open_fds x l = ind x (stdout_read p) + ind x (stdout_write p) + ind x (stderr_read p) + ind x (stderr_write p)
    | Err e => pipe_error e l
    end) (output_pipes : sp _).
Proof.
  eapply emits_bind; [apply cloexec_pipe_emits|]. intros l [[a b]|e] [Hl H].
  2: { apply emits_ret. by rewrite app_nil_r. }
  destruct H as (Ha & Hb & H). eapply emits_bind; [apply cloexec_pipe_emits|]. intros l2 [[c d]|e] [Hl2 H2].
  - destruct H2 as (Hc & Hd & H2). apply emits_ret. rewrite app_nil_r. split; [simpl; auto 8 with cm|].
    split; [done|]. intros x. rewrite open_app, H, H2. simpl. lia.
  - apply emits_step, emits_step, emits_ret. destruct H2 as [He H2].
    split; [simpl; auto 8 with cm|]. split; [done|].
    destruct H2 as [H2|[leaked H2]]; [left|right; exists leaked]; intros x; rewrite !open_app, H, H2; simpl; lia.
Qed.

(** ** The spawn *)

(** The attribute that every monitored child is spawned with. *)
Definition monitored_attr (exc_port : mach_port_t) : SpawnAttr :=
  mkAttr (Some (CRASH_EXCEPTION_MASK, exc_port, Z.lor EXCEPTION_STATE_IDENTITY MACH_EXCEPTION_CODES_FLAG, ARM_THREAD_STATE64))
    (Some 0) (Z.lor POSIX_SPAWN_SETPGROUP (Z.lor POSIX_SPAWN_SETSIGMASK POSIX_SPAWN_SETSIGDEF))
    (Some []) (Some [SIGPIPE]).

Lemma configure_emits exc_port :
  emits (λ l r, l = [] ∧ match r with
    | Ok attr => attr = monitored_attr exc_port
    | Err e => stage e ∈ [ExceptionPorts; ProcessGroup; SignalState]
    end) (configure exc_port : sp _).
Proof.
  unfold configure. apply emits_checked; [intros e ->; split; [done|set_solver]|].
  apply (emits_bind (λ l r, l = [] ∧ match r with
      | Ok attr => attr = mkAttr (Some (CRASH_EXCEPTION_MASK, exc_port,
          Z.lor EXCEPTION_STATE_IDENTITY MACH_EXCEPTION_CODES_FLAG, ARM_THREAD_STATE64)) (Some 0) POSIX_SPAWN_SETPGROUP None None
      | Err e => stage e = ProcessGroup end)).
  - do 2 (apply emits_checked; [by intros e ->|]). by apply emits_ret.
  - intros l [attr|e] [-> H]; [subst attr|apply emits_ret; split; [done|rewrite H; set_solver]].
    apply emits_checked_errno; [intros e ->; split; [done|set_solver]|].
    apply emits_checked; [intros e ->; split; [done|set_solver]|].
    do 2 (apply emits_checked_errno; [intros e ->; split; [done|set_solver]|]).
    do 3 (apply emits_checked; [intros e ->; split; [done|set_solver]|]). by apply emits_ret.
Qed.

Lemma silent_add_actions l : silent (add_actions l : sp _).
Proof.
  induction l as [|a l IH]; [apply silent_ret|]. eapply emits_silent; [apply silent_lift|]. intros code.
  eapply emits_silent; [exact IH|]. intros. apply silent_ret.
Qed.

Definition actions_inited (pipes : option OutputPipes) : list SpawnStep :=
  match pipes with Some _ => [ActionsInited] | None => [] end.

Lemma file_actions_emits pipes :
  emits (λ l r, match r with
    | Ok actions => l = actions_inited pipes ∧ actions = actions_of <$> pipes
    | Err e => stage e = FileActions ∧ (l = [] ∨ l = [ActionsInited; ActionsDestroyed])
    end) (file_actions pipes : sp _).
Proof.
  destruct pipes as [p|]; [|by apply emits_ret]. apply emits_checked; [intros e ->; by eauto|].
  apply emits_step. eapply emits_silent; [apply silent_add_actions|]. intros [code|].
  - apply emits_step, emits_ret. split; [done|by right].
  - by apply emits_ret.
Qed.

Lemma spawn_process_emits exc_port app_path argv envp pipes :
  emits (λ l r, live_objects l = (0, 0) ∧ (∀ x, open_fds x l = 0) ∧ attached l = [] ∧
     match r with
     | Ok pid => spawns l = [(monitored_attr exc_port, actions_of <$> pipes, Ok pid)]
     | Err e => stage e ≠ OutputPipe ∧ (stage e ≠ PosixSpawn ∧ spawns l = [] ∨
         stage e = PosixSpawn ∧ spawns l = [(monitored_attr exc_port, actions_of <$> pipes, Err (rc e))])
     end) (spawn_process exc_port app_path argv envp pipes : sp _).
Proof.
  apply emits_checked; [intros e ->; split_and!; try done; by left|].
  apply emits_step. eapply emits_bind; [apply configure_emits|]. intros l [attr|e] [-> H].
  2: { assert (stage e ≠ OutputPipe ∧ stage e ≠ PosixSpawn) as [H1 H2] by (split; intros Hs; rewrite Hs in H; set_solver).
       apply emits_step, emits_ret. split_and!; try done. by left. }
  subst attr. eapply emits_bind; [apply file_actions_emits|]. intros l [actions|e] H.
  2: { apply emits_step, emits_ret. destruct H as [H [-> | ->]]; split_and!; try done; rewrite ?H; try done; by left. }
  destruct H as [-> ->]. eapply emits_silent; [apply silent_lift|]. intros reply. apply emits_step.
  destruct pipes as [p|]; cbn [actions_inited app].
  - apply emits_step, emits_step, emits_ret. split_and!; try done. destruct reply; simpl; [done|]. split; [done|]. by right.
  - eapply emits_silent; [apply silent_ret|]. intros _. apply emits_step, emits_ret.
    split_and!; try done. destruct reply; simpl; [done|]. split; [done|]. by right.
Qed.

(** Handing the pipes over, or dropping them. *)
Lemma drop_pipes_emits p :
  emits (λ l _, l = [Closed (stdout_read p); Closed (stdout_write p); Closed (stderr_read p); Closed (stderr_write p)])
    (drop_pipes (Some p) : sp _).
Proof. apply emits_step, emits_step, emits_step, emit_emits. done. Qed.

Lemma hand_over_emits p :
  emits (λ l _, l = [Closed (stdout_write p); Closed (stderr_write p);
                     AttachedStdout (stdout_read p); AttachedStderr (stderr_read p)])
    (_ ← close_fd (stdout_write p); _ ← close_fd (stderr_write p);
     _ ← emit (AttachedStdout (stdout_read p)); emit (AttachedStderr (stderr_read p)) : sp unit).
Proof. apply emits_step, emits_step, emits_step, emit_emits. done. Qed.

(** What a spawn answers and leaves behind. *)
Definition spawn_outcome (exc_port : mach_port_t) (output : bool) (l : list SpawnStep) (r : result SpawnError Z) : Prop :=
  live_objects l = (0, 0) ∧
  match r with
  | Ok pid =>
      if output then
        ∃ p, above_stdio p ∧ spawns l = [(monitored_attr exc_port, Some (actions_of p), Ok pid)] ∧
          attached l = [stdout_read p; stderr_read p] ∧
          ∀ x, open_fds x l = ind x (stdout_read p) + ind x (stderr_read p)
      else spawns l = [(monitored_attr exc_port, None, Ok pid)] ∧ attached l = [] ∧ ∀ x, open_fds x l = 0
  | Err e =>
      attached l = [] ∧ (stage e ≠ PosixSpawn → spawns l = []) ∧
      ((∀ x, open_fds x l = 0) ∨ stage e = OutputPipe ∧ ∃ leaked, ∀ x, open_fds x l = ind x leaked)
  end.

Lemma spawn_emits exc_port app_path argv envp (output : bool) :
  emits (spawn_outcome exc_port output)
    (spawn_with_exception_port_impl exc_port app_path argv envp output : sp _).
Proof.
  unfold spawn_with_exception_port_impl, spawn_outcome. destruct output.
  - eapply emits_bind.
    { eapply emits_bind; [apply output_pipes_emits|]. intros l r H. apply emits_ret. rewrite app_nil_r.
      instantiate (1 := λ l r, only_fds l ∧ match r with
        | Ok p => ∃ p', p = Some p' ∧ above_stdio p' ∧ ∀ x, open_fds x l =
            ind x (stdout_read p') + ind x (stdout_write p') + ind x (stderr_read p') + ind x (stderr_write p')
        | Err e => pipe_error e l end).
      destruct H as [Hl H]. split; [done|]. destruct r as [p|e]; simpl; [by exists p|done]. }
    intros l [pipes|e] [Hl H]; destruct (only_fds_account l Hl) as (H1 & H2 & H3).
    2: { apply emits_ret. rewrite app_nil_r. destruct H as [He H]. split_and!; [done|done|done|].
         destruct H as [H|H]; [by left|by right]. }
    destruct H as (p & -> & Hp & Hopen). eapply emits_bind; [apply spawn_process_emits|].
    intros l2 r (Hlive & Hfds & Hat & Hr). destruct r as [pid|e].
    + eapply emits_bind; [apply hand_over_emits|]. intros l3 [] ->. apply emits_ret. rewrite app_nil_r.
      rewrite !live_app, H1, Hlive. split; [done|]. exists p. split; [done|].
      rewrite !spawns_app, !attached_app, H2, H3, Hr, Hat. split; [done|]. split; [done|].
      intros x. rewrite !open_app, Hopen, Hfds. simpl. lia.
    + eapply emits_bind; [apply drop_pipes_emits|]. intros l3 [] ->. apply emits_ret. rewrite app_nil_r.
      rewrite !live_app, H1, Hlive. split; [done|]. rewrite !spawns_app, !attached_app, H2, H3, Hat.
      split; [done|]. split; [destruct Hr as (_ & [[_ ->]|[? _]]); done|]. left.
      intros x. rewrite !open_app, Hopen, Hfds. simpl. lia.
  - eapply emits_bind; [by apply (emits_ret (λ l r, l = [] ∧ r = Ok None))|]. intros l r [-> ->].
    eapply emits_bind; [apply spawn_process_emits|]. intros l2 r (Hlive & Hfds & Hat & Hr). destruct r as [pid|e].
    + eapply emits_silent; [apply silent_ret|]. intros _. apply emits_ret. by rewrite app_nil_r.
    + eapply emits_silent; [apply silent_ret|]. intros _. apply emits_ret. rewrite app_nil_r. cbn [app].
      split; [done|]. split; [done|]. split; [destruct Hr as (_ & [[_ ->]|[? _]]); done|]. by left.
Qed.

(** C27. The child is spawned with the monitor's policy, and nothing is left behind. On
    success the one [posix_spawn] got the exception port for the exceptions that the
    event loop reports, a new process group, an empty signal mask and the default
    SIGPIPE; with capture, its descriptors 1 and 2 are the two pipes and it has none of
    the originals, and the monitor keeps the two read ends, handed to the drains, and
    closed the rest. On failure nothing was spawned before the spawn itself, every
    attribute and file action is destroyed, and every descriptor closed, but for the
    write end of a pipe whose read end could not be moved above the standard
    descriptors. *)
Theorem spawn_exact exc_port app_path argv envp output w :
  let '(r, w') := (spawn_with_exception_port_impl exc_port app_path argv envp output : sp _) w in
  (∃ l, trace w' = trace w ++ l ∧ spawn_outcome exc_port output l r) ∧
  (∀ t, 0 ≤ t → Z.testbit CRASH_EXCEPTION_MASK t = EventLoop.exception_subscribed t) ∧
  (∀ p (table : gmap Z Z), above_stdio p → is_Some (table !! stdout_write p) → is_Some (table !! stderr_write p) →
     child_table (Some (actions_of p)) table !! STDOUT_FILENO = table !! stdout_write p ∧
     child_table (Some (actions_of p)) table !! STDERR_FILENO = table !! stderr_write p ∧
     Forall (λ fd, child_table (Some (actions_of p)) table !! fd = None)
       [stdout_read p; stdout_write p; stderr_read p; stderr_write p]).
Proof.
  destruct (spawn_emits exc_port app_path argv envp output w) as (l & Hl & H).
  destruct (spawn_with_exception_port_impl _ _ _ _ _ _) as [r w']. split; [by exists l|]. split; [|intros; by apply redirects].
  intros t Ht. unfold EventLoop.exception_subscribed. destruct (decide (t < 13)) as [Hlt|].
  - assert (t ∈ seqZ 0 13) as Hin by (apply elem_of_seqZ; lia). clear Ht Hlt. revert t Hin.
    apply Forall_forall. vm_compute. repeat constructor.
  - rewrite bool_decide_false.
    2: { intros Hin. repeat (apply elem_of_cons in Hin as [->|Hin]; [lia|]). by apply not_elem_of_nil in Hin. }
    apply Z.bits_above_log2; [vm_compute; congruence|]. change (Z.log2 CRASH_EXCEPTION_MASK) with 12. lia.
Qed.

End Spawn.

(** ** A monitor without standard output *)

Module Example.

(** The environment is the next free descriptor; [dup_ok] says whether descriptors can
    be duplicated, [pid] what the spawn answers. *)
Definition sim (dup_ok : bool) (reply : result Z Z) : SpawnOps Z := {|
  spawn_call _ e := (0, e);
  last_errno _ := 24;
  libc_pipe e := (Some (e, e + 1), e + 2);
  dupfd_cloexec _ minimum e := if dup_ok then (Some (Z.max minimum e), Z.max minimum e + 1) else (None, e);
  set_cloexec _ e := (true, e);
  posix_spawn _ _ _ _ _ e := (reply, e)
|}.

Lemma spawn_sim_laws dup_ok reply : SpawnLaws Z (ops := sim dup_ok reply).
Proof. intros fd minimum e fd'. destruct dup_ok; simpl; [intros [= <-]; lia|done]. Qed.

Definition run (dup_ok : bool) (reply : result Z Z) : result SpawnError Z * World Z SpawnStep :=
  spawn_with_exception_port_impl (ops := sim dup_ok reply) 7 "/app" ["/app"%string] [] true (mkWorld 1 []).

(** Descriptors 1 and 2 are free: the first pipe is moved above them. *)
Example moved : (run true (Ok 4242)).1 = Ok 4242 ∧
  take 6 (trace (run true (Ok 4242)).2) = [Opened 1; Opened 2; Opened 3; Closed 1; Opened 4; Closed 2].
Proof. vm_compute. done. Qed.

(** The write end of the first pipe stays open when the read end cannot be moved. *)
Example leaked : (run false (Ok 4242)).1 = Err (mkError OutputPipe 24) ∧
  trace (run false (Ok 4242)).2 = [Opened 1; Opened 2; Closed 1].
Proof. vm_compute. done. Qed.

End Example.

Lemma spawn_exact_witness :
  (Example.run true (Err 2)).1 = Err (mkError PosixSpawn 2) ∧
  let '(r, w') := Example.run true (Err 2) in ∃ l, trace w' = [] ++ l ∧ spawn_outcome 7 true l r.
Proof.
  split; [reflexivity|].
  pose proof (spawn_exact (ops := Example.sim true (Err 2)) (laws := Example.spawn_sim_laws true (Err 2)) 7 "/app" ["/app"%string] []
    true (mkWorld 1 [])) as H.
  unfold Example.run. destruct (spawn_with_exception_port_impl _ _ _ _ _ _) as [r w']. exact (proj1 H).
Defined.

End ChildSpawnSpec.
