(* ===== verification/MachMessage.v ===== *)
(** * Mach exception requests (src/platform/macos/exceptions.rs)

    The byte-oriented parser of [mach_exception_raise_state_identity] requests and the
    failure reply. A buffer is a list of bytes and a fixed-width field the little-endian
    number of its bytes, as on every target of the monitor; offsets are numbers, so that
    the checked additions of the code are checked additions here. *)

From stdpp Require Import pretty.
From coqutil Require Import Byte Word.LittleEndianList.
From S2P Require Import Prelude.
From S2P Require Import PipelineTypes.

Module MachMessage.
Export Types.
#[local] Open Scope Z_scope.

Notation byte := Init.Byte.byte.

(** ** The values of the SDK's headers *)

Definition MACH_MSGH_BITS_COMPLEX : Z := 2 ^ 31.
Definition MACH_MSGH_BITS_REMOTE_MASK : Z := 31.
Definition MACH_MSG_TYPE_MOVE_SEND : Z := 17.
Definition MACH_MSG_TYPE_MOVE_SEND_ONCE : Z := 18.
Definition MACH_PORT_DEAD : Z := U32_MAX.
Definition KERN_FAILURE : Z := 5.
Definition MACH_MSGH_BITS (remote local : Z) : Z := Z.lor remote (Z.shiftl local 8).

Definition MACH_EXCEPTION_RAISE_STATE_IDENTITY_ID : Z := 2407.
Definition MACH_HEADER_SIZE : Z := 24.
Definition BODY_OFFSET : Z := MACH_HEADER_SIZE.
Definition PORT_DESCRIPTOR_SIZE : Z := 12.
Definition THREAD_DESCRIPTOR_OFFSET : Z := BODY_OFFSET + 4.
Definition TASK_DESCRIPTOR_OFFSET : Z := THREAD_DESCRIPTOR_OFFSET + PORT_DESCRIPTOR_SIZE.
Definition NDR_OFFSET : Z := TASK_DESCRIPTOR_OFFSET + PORT_DESCRIPTOR_SIZE.
Definition EXCEPTION_OFFSET : Z := NDR_OFFSET + 8.
Definition CODE_COUNT_OFFSET : Z := EXCEPTION_OFFSET + 4.
Definition CODE_OFFSET : Z := CODE_COUNT_OFFSET + 4.
Definition MAX_CODE_COUNT : Z := 2.
Definition MAX_THREAD_STATE_COUNT : Z := 1296.
Definition MACH_MSG_PORT_DESCRIPTOR : byte := Byte.x00.
Definition RECEIVED_SEND_RIGHT : byte := Byte.x11.
Definition NATIVE_NDR_INT_REP : byte := Byte.x01.
Definition NATIVE_NDR_RECORD : list byte :=
  [Byte.x00; Byte.x00; Byte.x00; Byte.x00; NATIVE_NDR_INT_REP; Byte.x00; Byte.x00; Byte.x00].

Record mach_msg_header_t := mkHeader {
  msgh_bits : Z;
  msgh_size : Z;
  msgh_remote_port : Z;
  msgh_local_port : Z;
  msgh_voucher_port : Z;
  msgh_id : Z
}.

Record ParsedExceptionMessage := mkParsed {
  reply_header : mach_msg_header_t;
  thread_port : Z;
  task_port : Z;
  parsed_exception_type : Z;
  parsed_codes : list Z
}.

Definition code (p : ParsedExceptionMessage) : Z := default 0 (parsed_codes p !! 0%nat).
Definition subcode (p : ParsedExceptionMessage) : Z := default 0 (parsed_codes p !! 1%nat).

Inductive ExceptionMessageError : Type :=
| Truncated (field : string) (needed actual : Z)
| HeaderSizeMismatch (declared actual : Z)
| UnexpectedMessageId (actual : Z)
| MissingComplexBit
| UnexpectedDescriptorCount (actual : Z)
| InvalidPortDescriptor (index : Z) (descriptor_type disposition : byte)
| UnsupportedNdrIntegerRepresentation (actual : byte)
| InvalidCodeCount (actual : Z)
| InvalidThreadStateCount (actual : Z)
| InvalidPackedSize (expected actual : Z)
| UnsafeReplyIdentity.

Definition fmt (e : ExceptionMessageError) : string :=
  match e with
  | Truncated field needed actual =>
      "Mach exception request is truncated at " +:+ field +:+ ": need " +:+ pretty needed +:+ " bytes, got " +:+ pretty actual
  | HeaderSizeMismatch declared actual =>
      "Mach exception msgh_size mismatch: header says " +:+ pretty declared +:+ ", received " +:+ pretty actual
  | UnexpectedMessageId actual =>
      "unexpected Mach exception message ID " +:+ pretty actual +:+ " (expected " +:+
        pretty MACH_EXCEPTION_RAISE_STATE_IDENTITY_ID +:+ ")"
  | MissingComplexBit => "Mach exception request is missing MACH_MSGH_BITS_COMPLEX"
  | UnexpectedDescriptorCount actual => "Mach exception request has " +:+ pretty actual +:+ " descriptors (expected 2)"
  | InvalidPortDescriptor index descriptor_type disposition =>
      "Mach exception descriptor " +:+ pretty index +:+ " has type " +:+ pretty (byte.unsigned descriptor_type) +:+
        " and disposition " +:+ pretty (byte.unsigned disposition) +:+ " (expected port/send)"
  | UnsupportedNdrIntegerRepresentation actual =>
      "Mach exception request uses unsupported NDR integer representation " +:+ pretty (byte.unsigned actual)
  | InvalidCodeCount actual => "Mach exception request has invalid code count " +:+ pretty actual
  | InvalidThreadStateCount actual => "Mach exception request has invalid thread-state count " +:+ pretty actual
  | InvalidPackedSize expected actual =>
      "Mach exception packed size mismatch: expected " +:+ pretty expected +:+ ", got " +:+ pretty actual
  | UnsafeReplyIdentity => "Mach request does not contain a safe reply identity"
  end%string.

(** ** Fields *)

Definition len (buf : list byte) : Z := Z.of_nat (length buf).

Definition bytes (n : nat) (buf : list byte) (offset : Z) (field : string) : result ExceptionMessageError (list byte) :=
  match usize_checked_add offset (Z.of_nat n) with
  | None => Err (Truncated field USIZE_MAX (len buf))
  | Some stop =>
      if decide (stop ≤ len buf) then Ok (take n (drop (Z.to_nat offset) buf))
      else Err (Truncated field stop (len buf))
  end.

Definition u32_at (buf : list byte) (offset : Z) (field : string) : result ExceptionMessageError Z :=
  b ← bytes 4 buf offset field; Ok (le_combine b).
Definition i32_of (z : Z) : Z := if decide (z < 2 ^ 31) then z else z - 2 ^ 32.
Definition i32_at (buf : list byte) (offset : Z) (field : string) : result ExceptionMessageError Z :=
  b ← bytes 4 buf offset field; Ok (i32_of (le_combine b)).
Definition u64_at (buf : list byte) (offset : Z) (field : string) : result ExceptionMessageError Z :=
  b ← bytes 8 buf offset field; Ok (le_combine b).

Definition message_header (buf : list byte) : result ExceptionMessageError mach_msg_header_t :=
  bits ← u32_at buf 0 "msgh_bits";
  size ← u32_at buf 4 "msgh_size";
  remote ← u32_at buf 8 "msgh_remote_port";
  local ← u32_at buf 12 "msgh_local_port";
  voucher ← u32_at buf 16 "msgh_voucher_port";
  id ← i32_at buf 20 "msgh_id";
  Ok (mkHeader bits size remote local voucher id).

Definition parse_port_descriptor (buf : list byte) (offset index : Z) : result ExceptionMessageError Z :=
  name ← u32_at buf offset "port descriptor name";
  descriptor ← bytes 12 buf offset "port descriptor";
  let disposition := nth 10 descriptor Byte.x00 in
  let descriptor_type := nth 11 descriptor Byte.x00 in
  if negb (Byte.eqb descriptor_type MACH_MSG_PORT_DESCRIPTOR) || negb (Byte.eqb disposition RECEIVED_SEND_RIGHT)
  then Err (InvalidPortDescriptor index descriptor_type disposition)
  else Ok name.

(** [i32::checked_add]. *)
Definition i32_checked_add (a b : Z) : option Z := if decide (a + b ≤ 2 ^ 31 - 1) then Some (a + b) else None.

Definition has_safe_reply_identity (h : mach_msg_header_t) : bool :=
  let reply_disposition := Z.land (msgh_bits h) MACH_MSGH_BITS_REMOTE_MASK in
  let valid_disposition :=
    (reply_disposition =? MACH_MSG_TYPE_MOVE_SEND) || (reply_disposition =? MACH_MSG_TYPE_MOVE_SEND_ONCE) in
  let valid_port := negb (msgh_remote_port h =? MACH_PORT_NULL) && negb (msgh_remote_port h =? MACH_PORT_DEAD) in
  valid_disposition && valid_port && bool_decide (is_Some (i32_checked_add (msgh_id h) 100)).

Fixpoint codes_at (buf : list byte) (index : Z) (n : nat) : result ExceptionMessageError (list Z) :=
  match n with
  | O => Ok []
  | S n =>
      let offset := CODE_OFFSET + index * 8 in
      c ← u64_at buf offset "code";
      cs ← codes_at buf (index + 1) n;
      Ok (c :: cs)
  end.

Definition parse_exception_message (buf : list byte) : result ExceptionMessageError ParsedExceptionMessage :=
  header ← message_header buf;
  let declared_size := msgh_size header in
  if negb (declared_size =? len buf) then Err (HeaderSizeMismatch declared_size (len buf))
  else if negb (msgh_id header =? MACH_EXCEPTION_RAISE_STATE_IDENTITY_ID) then Err (UnexpectedMessageId (msgh_id header))
  else if Z.land (msgh_bits header) MACH_MSGH_BITS_COMPLEX =? 0 then Err MissingComplexBit
  else if negb (has_safe_reply_identity header) then Err UnsafeReplyIdentity
  else
  descriptor_count ← u32_at buf BODY_OFFSET "msgh_descriptor_count";
  if negb (descriptor_count =? 2) then Err (UnexpectedDescriptorCount descriptor_count) else
  thread_port ← parse_port_descriptor buf THREAD_DESCRIPTOR_OFFSET 0;
  task_port ← parse_port_descriptor buf TASK_DESCRIPTOR_OFFSET 1;
  ndr ← bytes 8 buf NDR_OFFSET "NDR";
  if negb (Byte.eqb (nth 4 ndr Byte.x00) NATIVE_NDR_INT_REP)
  then Err (UnsupportedNdrIntegerRepresentation (nth 4 ndr Byte.x00)) else
  exception_type ← u32_at buf EXCEPTION_OFFSET "exception";
  code_count ← u32_at buf CODE_COUNT_OFFSET "codeCnt";
  if MAX_CODE_COUNT <? code_count then Err (InvalidCodeCount code_count) else
  raw_codes ← codes_at buf 0 (Z.to_nat code_count);
  let flavor_offset := CODE_OFFSET + code_count * 8 in
  _ ← i32_at buf flavor_offset "flavor";
  let state_count_offset := flavor_offset + 4 in
  state_count ← u32_at buf state_count_offset "old_stateCnt";
  if MAX_THREAD_STATE_COUNT <? state_count then Err (InvalidThreadStateCount state_count) else
  match (base ← usize_checked_add state_count_offset 4; usize_checked_add base (state_count * 4)) with
  | None => Err (InvalidPackedSize USIZE_MAX (len buf))
  | Some expected_size =>
      if negb (expected_size =? len buf) then Err (InvalidPackedSize expected_size (len buf))
      else Ok (mkParsed header thread_port task_port exception_type raw_codes)
  end.

(** ** The failure reply *)

Record ExceptionReply := mkReply { header : mach_msg_header_t; ndr : list byte; ret_code : Z }.

Definition EXCEPTION_REPLY_SIZE : Z := 36. (* size_of::<ExceptionReply>() *)

Definition build_exception_reply (h : mach_msg_header_t) : result ExceptionMessageError ExceptionReply :=
  let reply_disposition := Z.land (msgh_bits h) MACH_MSGH_BITS_REMOTE_MASK in
  match i32_checked_add (msgh_id h) 100 with
  | None => Err UnsafeReplyIdentity
  | Some reply_id =>
      if negb (has_safe_reply_identity h) then Err UnsafeReplyIdentity
      else Ok (mkReply
                 (mkHeader (MACH_MSGH_BITS reply_disposition 0) EXCEPTION_REPLY_SIZE (msgh_remote_port h)
                    MACH_PORT_NULL MACH_PORT_NULL reply_id)
                 NATIVE_NDR_RECORD KERN_FAILURE)
  end.

Definition failure_reply_for_message (buf : list byte) : option ExceptionReply :=
  match message_header buf with
  | Err _ => None
  | Ok h => match build_exception_reply h with Ok r => Some r | Err _ => None end
  end.

End MachMessage.

(** ** The layout of an accepted exception request

    The parser of [MachMessage] against the packed layout that MIG generates from
    [mach_exc.defs], written as an encoder: the accepted buffers are exactly the encodings
    of well-formed requests, and the parsed fields are the encoded ones. *)

Module MachMessageSpec.
Export MachMessage.
#[local] Open Scope Z_scope.

(** ** The layout *)

Record Request := mkRequest {
  rq_bits : Z; rq_remote : Z; rq_local : Z; rq_voucher : Z;
  rq_thread : Z; rq_thread_pad : list byte; rq_task : Z; rq_task_pad : list byte;
  rq_ndr_format : list byte; rq_ndr_rest : list byte;
  rq_exception : Z; rq_codes : list Z; rq_flavor : Z; rq_state : list byte
}.

Definition le (n : nat) (z : Z) : list byte := le_split n z.

Definition port_descriptor (name : Z) (pad : list byte) : list byte :=
  le 4 name ++ pad ++ [RECEIVED_SEND_RIGHT; MACH_MSG_PORT_DESCRIPTOR].

Definition request_size (r : Request) : Z := 76 + 8 * Z.of_nat (length (rq_codes r)) + len (rq_state r).

Definition encode_header (r : Request) : list byte :=
  le 4 (rq_bits r) ++ le 4 (request_size r) ++ le 4 (rq_remote r) ++ le 4 (rq_local r) ++ le 4 (rq_voucher r) ++
  le 4 MACH_EXCEPTION_RAISE_STATE_IDENTITY_ID.

Definition encode_codes (codes : list Z) : list byte := concat (le 8 <$> codes).

Definition encode_body (r : Request) : list byte :=
  le 4 2 ++ port_descriptor (rq_thread r) (rq_thread_pad r) ++ port_descriptor (rq_task r) (rq_task_pad r) ++
  (rq_ndr_format r ++ [NATIVE_NDR_INT_REP] ++ rq_ndr_rest r) ++ le 4 (rq_exception r) ++
  le 4 (Z.of_nat (length (rq_codes r))) ++ encode_codes (rq_codes r) ++ le 4 (rq_flavor r) ++
  le 4 (len (rq_state r) / 4) ++ rq_state r.

Definition encode (r : Request) : list byte := encode_header r ++ encode_body r.

Definition u32 (z : Z) : Prop := 0 ≤ z < 2 ^ 32.
Definition u64 (z : Z) : Prop := 0 ≤ z < 2 ^ 64.

Definition header_of (r : Request) : mach_msg_header_t :=
  mkHeader (rq_bits r) (request_size r) (rq_remote r) (rq_local r) (rq_voucher r) MACH_EXCEPTION_RAISE_STATE_IDENTITY_ID.

Record well_formed (r : Request) : Prop := {
  wf_bits : u32 (rq_bits r); wf_remote : u32 (rq_remote r); wf_local : u32 (rq_local r); wf_voucher : u32 (rq_voucher r);
  wf_complex : Z.land (rq_bits r) MACH_MSGH_BITS_COMPLEX ≠ 0;
  wf_reply : has_safe_reply_identity (header_of r) = true;
  wf_thread : u32 (rq_thread r); wf_thread_pad : length (rq_thread_pad r) = 6%nat;
  wf_task : u32 (rq_task r); wf_task_pad : length (rq_task_pad r) = 6%nat;
  wf_ndr_format : length (rq_ndr_format r) = 4%nat; wf_ndr_rest : length (rq_ndr_rest r) = 3%nat;
  wf_exception : u32 (rq_exception r);
  wf_count : Z.of_nat (length (rq_codes r)) ≤ MAX_CODE_COUNT; wf_codes : Forall u64 (rq_codes r);
  wf_flavor : u32 (rq_flavor r);
  wf_state : len (rq_state r) ≤ 4 * MAX_THREAD_STATE_COUNT; wf_words : (4 | len (rq_state r))
}.

Definition parsed_of (r : Request) : ParsedExceptionMessage :=
  mkParsed (header_of r) (rq_thread r) (rq_task r) (rq_exception r) (rq_codes r).

(** ** Reads *)

Definition rest_at (buf : list byte) (offset : Z) : list byte := drop (Z.to_nat offset) buf.

Definition in_reach (n : nat) (offset : Z) : Prop := (0 < n)%nat ∧ 0 ≤ offset ∧ offset + Z.of_nat n ≤ USIZE_MAX.

Lemma bytes_inv n buf offset field b :
  in_reach n offset → bytes n buf offset field = Ok b →
  length b = n ∧ rest_at buf offset = b ++ rest_at buf (offset + Z.of_nat n).
Proof.
  intros (Hn & H0 & H1). unfold bytes, usize_checked_add, rest_at, len. rewrite decide_True by lia.
  case_decide; [|done]. intros [= <-]. rewrite length_take, length_drop. split; [lia|].
  rewrite Z2Nat.inj_add, Nat2Z.id, <-drop_drop by lia. by rewrite take_drop.
Qed.

Lemma bytes_intro n buf offset field b rest :
  in_reach n offset → rest_at buf offset = b ++ rest → length b = n →
  bytes n buf offset field = Ok b ∧ rest_at buf (offset + Z.of_nat n) = rest.
Proof.
  intros (Hn & H0 & H1) H Hb. unfold bytes, usize_checked_add, rest_at, len in *. rewrite decide_True by lia.
  assert (length (drop (Z.to_nat offset) buf) = (n + length rest)%nat) as Hl by (by rewrite H, length_app, Hb).
  rewrite length_drop in Hl. rewrite decide_True by lia. rewrite H, <-Hb, take_app_length. split; [done|].
  rewrite Z2Nat.inj_add, Nat2Z.id, <-drop_drop, H by lia. by rewrite drop_app_length.
Qed.

Lemma le_length n z : length (le n z) = n.
Proof. apply length_le_split. Qed.
Lemma le_value n z : 0 ≤ z < 2 ^ (Z.of_nat n * 8) → le_combine (le n z) = z.
Proof. intros Hz. unfold le. rewrite le_combine_split. by apply Z.mod_small. Qed.
Lemma value_le n b : length b = n → le n (le_combine b) = b.
Proof. apply split_le_combine'. Qed.
Lemma value_bound n b : length b = n → 0 ≤ le_combine b < 2 ^ (8 * Z.of_nat n).
Proof. intros <-. apply le_combine_bound. Qed.

(** A number at an offset, before the rest. *)
Lemma u32_inv buf offset field z :
  in_reach 4 offset → u32_at buf offset field = Ok z → u32 z ∧ rest_at buf offset = le 4 z ++ rest_at buf (offset + 4).
Proof.
  intros Hr. unfold u32_at. destruct (bytes 4 buf offset field) as [b|] eqn:Hb; [|done]. intros [= <-].
  destruct (bytes_inv _ _ _ _ _ Hr Hb) as [Hl ->]. rewrite value_le by done. split; [|done]. exact (value_bound 4 b Hl).
Qed.

Lemma u32_intro buf offset field z rest :
  in_reach 4 offset → u32 z → rest_at buf offset = le 4 z ++ rest →
  u32_at buf offset field = Ok z ∧ rest_at buf (offset + 4) = rest.
Proof.
  intros Hr Hz H. destruct (bytes_intro 4 buf offset field (le 4 z) rest Hr H (le_length 4 z)) as [Hb Hrest].
  unfold u32_at. rewrite Hb. split; [|done]. cbn [mbind result_bind]. f_equal. by apply le_value.
Qed.

Lemma i32_inv buf offset field v :
  in_reach 4 offset → i32_at buf offset field = Ok v →
  ∃ z, v = i32_of z ∧ u32 z ∧ rest_at buf offset = le 4 z ++ rest_at buf (offset + 4).
Proof.
  intros Hr H. assert (∃ z, u32_at buf offset field = Ok z ∧ v = i32_of z) as (z & Hz & ->).
  { unfold i32_at in H. unfold u32_at. destruct (bytes 4 buf offset field) as [b|]; [|done]. exists (le_combine b).
    by injection H as <-. }
  exists z. split; [done|by eapply u32_inv].
Qed.

Lemma i32_intro buf offset field z rest :
  in_reach 4 offset → u32 z → rest_at buf offset = le 4 z ++ rest →
  i32_at buf offset field = Ok (i32_of z) ∧ rest_at buf (offset + 4) = rest.
Proof.
  intros Hr Hz H. destruct (u32_intro buf offset field z rest Hr Hz H) as [Hb Hrest]. split; [|done].
  unfold u32_at in Hb. unfold i32_at. destruct (bytes 4 buf offset field) as [b|]; [|done].
  cbn [mbind result_bind] in *. congruence.
Qed.

Lemma u64_inv buf offset field z :
  in_reach 8 offset → u64_at buf offset field = Ok z → u64 z ∧ rest_at buf offset = le 8 z ++ rest_at buf (offset + 8).
Proof.
  intros Hr. unfold u64_at. destruct (bytes 8 buf offset field) as [b|] eqn:Hb; [|done]. intros [= <-].
  destruct (bytes_inv _ _ _ _ _ Hr Hb) as [Hl ->]. rewrite value_le by done. split; [|done]. exact (value_bound 8 b Hl).
Qed.

Lemma u64_intro buf offset field z rest :
  in_reach 8 offset → u64 z → rest_at buf offset = le 8 z ++ rest →
  u64_at buf offset field = Ok z ∧ rest_at buf (offset + 8) = rest.
Proof.
  intros Hr Hz H. destruct (bytes_intro 8 buf offset field (le 8 z) rest Hr H (le_length 8 z)) as [Hb Hrest].
  unfold u64_at. rewrite Hb. split; [|done]. cbn [mbind result_bind]. f_equal. by apply le_value.
Qed.

(** ** Descriptors and codes *)

Lemma byte_eqb_eq a b : Byte.eqb a b = true ↔ a = b.
Proof. destruct (Byte.eqb a b) eqn:H; split; try done; [by intros _; apply Byte.byte_dec_bl|]. intros ->. by rewrite Byte.byte_dec_lb in H. Qed.

Lemma descriptor_inv buf offset index name :
  in_reach 12 offset → parse_port_descriptor buf offset index = Ok name →
  ∃ pad, u32 name ∧ length pad = 6%nat ∧ rest_at buf offset = port_descriptor name pad ++ rest_at buf (offset + 12).
Proof.
  intros Hr. unfold parse_port_descriptor.
  destruct (u32_at buf offset _) as [n|] eqn:Hn; [|done]. destruct (bytes 12 buf offset _) as [d|] eqn:Hd; [|done].
  cbn [mbind result_bind]. destruct (negb _ || negb _) eqn:Hg; [done|]. intros [= ->].
  apply orb_false_iff in Hg as [Ht Hs]. apply negb_false_iff, byte_eqb_eq in Ht. apply negb_false_iff, byte_eqb_eq in Hs.
  apply u32_inv in Hn as [Hn Hname]; [|unfold in_reach in *; lia]. destruct (bytes_inv _ _ _ _ _ Hr Hd) as [Hl Hbytes].
  exists (take 6 (drop 4 d)). split; [done|]. split; [rewrite length_take, length_drop, Hl; lia|].
  rewrite Hbytes. f_equal. rewrite Hbytes in Hname.
  do 12 (destruct d as [|?b d]; [done|]). destruct d; [|done]. cbn [nth] in Ht, Hs. subst.
  assert (length (le 4 name) = 4%nat) as H4 by apply le_length. unfold port_descriptor.
  remember (le 4 name) as l eqn:El. clear El Hn Hr Hd. do 4 (destruct l as [|?c l]; [done|]). destruct l; [|done].
  simpl in Hname |- *. by simplify_eq.
Qed.

Lemma descriptor_intro buf offset index name pad rest :
  in_reach 12 offset → u32 name → length pad = 6%nat → rest_at buf offset = port_descriptor name pad ++ rest →
  parse_port_descriptor buf offset index = Ok name ∧ rest_at buf (offset + 12) = rest.
Proof.
  intros Hr Hn Hp H. unfold parse_port_descriptor. unfold port_descriptor in H.
  assert (rest_at buf offset = le 4 name ++ (pad ++ [RECEIVED_SEND_RIGHT; MACH_MSG_PORT_DESCRIPTOR]) ++ rest) as H'
    by by rewrite H, <-!app_assoc.
  destruct (u32_intro buf offset "port descriptor name" name _ (ltac:(unfold in_reach in *; lia)) Hn H') as [-> _].
  cbn [mbind result_bind]. eapply (bytes_intro 12 _ _ "port descriptor") in H as [-> Hrest]; [|done|].
  - cbn [mbind result_bind]. split; [|done]. assert (length (le 4 name) = 4%nat) as H4 by apply le_length.
    rewrite app_assoc, !app_nth2; rewrite length_app, H4, Hp; [|lia..]. done.
  - rewrite !length_app, le_length, Hp. done.
Qed.

Lemma codes_inv buf index n codes :
  0 ≤ index → CODE_OFFSET + (index + Z.of_nat n) * 8 ≤ USIZE_MAX → codes_at buf index n = Ok codes →
  length codes = n ∧ Forall u64 codes ∧
  rest_at buf (CODE_OFFSET + index * 8) = encode_codes codes ++ rest_at buf (CODE_OFFSET + (index + Z.of_nat n) * 8).
Proof.
  revert index codes. induction n as [|n IH]; intros index codes Hi Hn; cbn [codes_at].
  { intros [= <-]. split_and!; [done|constructor|]. cbn. f_equal. lia. }
  destruct (u64_at _ _ _) as [c|] eqn:Hc; [|done]. destruct (codes_at _ _ _) as [cs|] eqn:Hcs; [|done].
  cbn [mbind result_bind]. intros [= <-]. apply u64_inv in Hc as [Hu Hrest]; [|unfold in_reach; change CODE_OFFSET with 68 in *; lia].
  apply IH in Hcs as (Hl & Hf & Hrest'); [|lia|lia]. split_and!; [by rewrite <-Hl|by constructor|].
  rewrite Hrest. change (encode_codes (c :: cs)) with (le 8 c ++ encode_codes cs). rewrite <-app_assoc. f_equal.
  replace (CODE_OFFSET + index * 8 + 8) with (CODE_OFFSET + (index + 1) * 8) by lia. rewrite Hrest'. do 2 f_equal. lia.
Qed.

Lemma codes_intro buf index codes rest :
  0 ≤ index → CODE_OFFSET + (index + Z.of_nat (length codes)) * 8 ≤ USIZE_MAX → Forall u64 codes →
  rest_at buf (CODE_OFFSET + index * 8) = encode_codes codes ++ rest →
  codes_at buf index (length codes) = Ok codes ∧ rest_at buf (CODE_OFFSET + (index + Z.of_nat (length codes)) * 8) = rest.
Proof.
  intros Hi Hn Hf. revert index Hi Hn. induction Hf as [|c cs Hc _ IH]; intros index Hi Hn H.
  { split; [done|]. change (encode_codes [] ++ rest) with rest in H. rewrite <-H. cbn [length]. f_equal. lia. }
  change (encode_codes (c :: cs)) with (le 8 c ++ encode_codes cs) in H. rewrite <-app_assoc in H.
  cbn [length] in Hn |- *. cbn [codes_at].
  eapply (u64_intro _ _ "code") in H as [-> Hrest]; [|unfold in_reach; change CODE_OFFSET with 68 in *; lia|done].
  destruct (IH (index + 1)) as [IH1 IH2]; [lia|lia|rewrite <-Hrest; f_equal; lia|].
  rewrite IH1. split; [done|]. rewrite <-IH2. f_equal. lia.
Qed.

(** ** Headers *)

#[local] Ltac reach := unfold in_reach, USIZE_MAX, CODE_OFFSET, CODE_COUNT_OFFSET, EXCEPTION_OFFSET, NDR_OFFSET,
  TASK_DESCRIPTOR_OFFSET, THREAD_DESCRIPTOR_OFFSET, BODY_OFFSET, PORT_DESCRIPTOR_SIZE, MACH_HEADER_SIZE; lia.


Definition header_words (bits size remote local voucher id : Z) : list byte :=
  le 4 bits ++ le 4 size ++ le 4 remote ++ le 4 local ++ le 4 voucher ++ le 4 id.

Lemma header_inv buf h :
  message_header buf = Ok h →
  ∃ id, msgh_id h = i32_of id ∧ u32 id ∧
    u32 (msgh_bits h) ∧ u32 (msgh_size h) ∧ u32 (msgh_remote_port h) ∧ u32 (msgh_local_port h) ∧ u32 (msgh_voucher_port h) ∧
    buf = header_words (msgh_bits h) (msgh_size h) (msgh_remote_port h) (msgh_local_port h) (msgh_voucher_port h) id ++
          rest_at buf 24.
Proof.
  unfold message_header.
  destruct (u32_at buf 0 _) as [bits|] eqn:H0; [|done]. destruct (u32_at buf 4 _) as [size|] eqn:H4; [|done].
  destruct (u32_at buf 8 _) as [remote|] eqn:H8; [|done]. destruct (u32_at buf 12 _) as [local|] eqn:H12; [|done].
  destruct (u32_at buf 16 _) as [voucher|] eqn:H16; [|done]. destruct (i32_at buf 20 _) as [v|] eqn:H20; [|done].
  cbn [mbind result_bind]. intros [= <-]. cbn.
  apply u32_inv in H0 as [? H0]; [|reach].
  apply u32_inv in H4 as [? H4]; [|reach].
  apply u32_inv in H8 as [? H8]; [|reach].
  apply u32_inv in H12 as [? H12]; [|reach].
  apply u32_inv in H16 as [? H16]; [|reach].
  apply i32_inv in H20 as (id & -> & ? & H20); [|reach]. exists id. split_and!; try done.
  change (0 + 4) with 4 in H0. change (4 + 4) with 8 in H4. change (8 + 4) with 12 in H8. change (12 + 4) with 16 in H12.
  change (16 + 4) with 20 in H16. change (20 + 4) with 24 in H20.
  change buf with (rest_at buf 0) at 1. unfold header_words. by rewrite H0, H4, H8, H12, H16, H20, <-!app_assoc.
Qed.

Lemma header_intro buf bits size remote local voucher id rest :
  u32 bits → u32 size → u32 remote → u32 local → u32 voucher → u32 id →
  buf = header_words bits size remote local voucher id ++ rest →
  message_header buf = Ok (mkHeader bits size remote local voucher (i32_of id)) ∧ rest_at buf 24 = rest.
Proof.
  intros ?????? H. unfold header_words in H. rewrite <-!app_assoc in H. change buf with (rest_at buf 0) in H at 1.
  unfold message_header.
  eapply (u32_intro _ 0 "msgh_bits") in H as [-> H]; [|reach|done]. change (0 + 4) with 4 in H.
  eapply (u32_intro _ _ "msgh_size") in H as [-> H]; [|reach|done]. change (4 + 4) with 8 in H.
  eapply (u32_intro _ _ "msgh_remote_port") in H as [-> H]; [|reach|done]. change (8 + 4) with 12 in H.
  eapply (u32_intro _ _ "msgh_local_port") in H as [-> H]; [|reach|done]. change (12 + 4) with 16 in H.
  eapply (u32_intro _ _ "msgh_voucher_port") in H as [-> H]; [|reach|done]. change (16 + 4) with 20 in H.
  eapply (i32_intro _ _ "msgh_id") in H as [-> H]; [|reach|done]. done.
Qed.

(** ** Requests *)

Lemma i32_of_id z : u32 z → i32_of z = MACH_EXCEPTION_RAISE_STATE_IDENTITY_ID → z = MACH_EXCEPTION_RAISE_STATE_IDENTITY_ID.
Proof. unfold u32, i32_of, MACH_EXCEPTION_RAISE_STATE_IDENTITY_ID. case_decide; lia. Qed.

Lemma ndr_split ndr : length ndr = 8%nat → nth 4 ndr Byte.x00 = NATIVE_NDR_INT_REP →
  ndr = take 4 ndr ++ [NATIVE_NDR_INT_REP] ++ drop 5 ndr.
Proof. intros Hl <-. do 8 (destruct ndr as [|? ndr]; [done|]). by destruct ndr. Qed.

(** What stands behind the header of an accepted buffer. *)
Record body_fields (buf : list byte) (thread task exception : Z) (codes : list Z) : Prop := {
  bf_fields : ∃ thread_pad task_pad ndr flavor state,
    rest_at buf 24 = le 4 2 ++ port_descriptor thread thread_pad ++ port_descriptor task task_pad ++ ndr ++
      le 4 exception ++ le 4 (Z.of_nat (length codes)) ++ encode_codes codes ++ le 4 flavor ++ le 4 (len state / 4) ++ state ∧
    u32 thread ∧ length thread_pad = 6%nat ∧ u32 task ∧ length task_pad = 6%nat ∧
    length ndr = 8%nat ∧ nth 4 ndr Byte.x00 = NATIVE_NDR_INT_REP ∧ u32 exception ∧
    Z.of_nat (length codes) ≤ MAX_CODE_COUNT ∧ Forall u64 codes ∧ u32 flavor ∧
    len state ≤ 4 * MAX_THREAD_STATE_COUNT ∧ (4 | len state)
}.

(** The state array, from its count and the packed size. *)
Lemma state_inv buf offset count :
  0 ≤ offset → u32 count → count ≤ MAX_THREAD_STATE_COUNT → offset + count * 4 = len buf →
  let state := rest_at buf offset in
  len state = count * 4 ∧ len state / 4 = count ∧ len state ≤ 4 * MAX_THREAD_STATE_COUNT ∧ (4 | len state).
Proof.
  intros H0 [Hc _] Hm Hl state.
  assert (len state = count * 4) as Hlen by (unfold state, rest_at, len in *; rewrite length_drop; lia).
  rewrite Hlen. split_and!; [done|by rewrite Z.div_mul|lia|by exists count].
Qed.

Lemma bind_ok {e A B : Type} (m : result e A) (f : A → result e B) b :
  (m ≫= f) = Ok b → ∃ a, m = Ok a ∧ f a = Ok b.
Proof. destruct m as [a|]; [|done]. by exists a. Qed.
Lemma guard_ok {e A : Type} (c : bool) (error : e) (m : result e A) b :
  (if c then Err error else m) = Ok b → c = false ∧ m = Ok b.
Proof. by destruct c. Qed.

Lemma packed_size base count : 0 ≤ base ≤ 1000 → 0 ≤ count ≤ MAX_THREAD_STATE_COUNT →
  (next ← usize_checked_add base 4; usize_checked_add next (count * 4)) = Some (base + 4 + count * 4).
Proof.
  intros Hb Hc. unfold MAX_THREAD_STATE_COUNT in Hc. unfold usize_checked_add, USIZE_MAX. rewrite decide_True by lia.
  cbn [mbind option_bind]. by rewrite decide_True by lia.
Qed.

Lemma body_inv buf h p :
  message_header buf = Ok h → parse_exception_message buf = Ok p →
  reply_header p = h ∧ body_fields buf (thread_port p) (task_port p) (parsed_exception_type p) (parsed_codes p) ∧
  msgh_size h = len buf ∧ msgh_id h = MACH_EXCEPTION_RAISE_STATE_IDENTITY_ID ∧
  Z.land (msgh_bits h) MACH_MSGH_BITS_COMPLEX ≠ 0 ∧ has_safe_reply_identity h = true.
Proof.
  intros Hh. unfold parse_exception_message. rewrite Hh. cbn [mbind result_bind].
  intros [Hsize [Hid [Hcomplex [Hreply H]%guard_ok]%guard_ok]%guard_ok]%guard_ok.
  apply bind_ok in H as (count & H24 & [Hcount H]%guard_ok).
  apply bind_ok in H as (t & H28 & H). apply bind_ok in H as (k & H40 & H).
  apply bind_ok in H as (ndr & H52 & [Hndr H]%guard_ok). apply bind_ok in H as (e & H60 & H).
  apply bind_ok in H as (n & H64 & [Hn H]%guard_ok). apply bind_ok in H as (cs & H68 & H).
  apply bind_ok in H as (v & Hflavor & H). apply bind_ok in H as (sc & Hstate & [Hsc H]%guard_ok).
  apply negb_false_iff, Z.eqb_eq in Hsize, Hid, Hcount. subst count. apply Z.eqb_neq in Hcomplex. apply negb_false_iff in Hreply.
  apply negb_false_iff, byte_eqb_eq in Hndr. apply Z.ltb_ge in Hn, Hsc.
  apply u32_inv in H24 as [_ H24]; [|reach]. apply descriptor_inv in H28 as (pad & Ht & Hpad & H28); [|reach].
  apply descriptor_inv in H40 as (pad' & Hk & Hpad' & H40); [|reach]. apply bytes_inv in H52 as [Hl H52]; [|reach].
  apply u32_inv in H60 as [He H60]; [|reach]. apply u32_inv in H64 as [Hn' H64]; [|reach].
  unfold MAX_CODE_COUNT in Hn. destruct Hn' as [Hn0 _].
  apply codes_inv in H68 as (Hcs & Hcodes & H68); [|lia|reach].
  apply i32_inv in Hflavor as (flavor & _ & Hf & Hflavor); [|reach]. apply u32_inv in Hstate as [Hs Hstate]; [|reach].
  rewrite packed_size in H; [|reach|unfold u32 in Hs; lia]. apply guard_ok in H as [Hsize' [= <-]].
  apply negb_false_iff, Z.eqb_eq in Hsize'.
  destruct (state_inv buf (CODE_OFFSET + n * 8 + 4 + 4) sc) as (_ & Hdiv & Hmax & Hwords); [reach|done|done|lia|].
  split_and!; try done. cbn. exists. exists pad, pad', ndr, flavor, (rest_at buf (CODE_OFFSET + n * 8 + 4 + 4)).
  assert (Z.of_nat (length cs) = n) as Hcount by lia. rewrite Hcount, Hdiv. split_and!; try done.
  change (rest_at buf 24) with (rest_at buf BODY_OFFSET). rewrite H24.
  change (BODY_OFFSET + 4) with THREAD_DESCRIPTOR_OFFSET. rewrite H28.
  change (THREAD_DESCRIPTOR_OFFSET + 12) with TASK_DESCRIPTOR_OFFSET. rewrite H40.
  change (TASK_DESCRIPTOR_OFFSET + 12) with NDR_OFFSET. rewrite H52.
  change (NDR_OFFSET + Z.of_nat 8) with EXCEPTION_OFFSET. rewrite H60.
  change (EXCEPTION_OFFSET + 4) with CODE_COUNT_OFFSET. rewrite H64.
  change (CODE_COUNT_OFFSET + 4) with (CODE_OFFSET + 0 * 8). rewrite H68, Z.add_0_l, Z2Nat.id, Hflavor, Hstate by lia. done.
Qed.

Lemma encode_header_words r : encode_header r = header_words (rq_bits r) (request_size r) (rq_remote r) (rq_local r) (rq_voucher r)
  MACH_EXCEPTION_RAISE_STATE_IDENTITY_ID.
Proof. done. Qed.

Lemma length_descriptor name pad : length pad = 6%nat → length (port_descriptor name pad) = 12%nat.
Proof. intros H. unfold port_descriptor. by rewrite !length_app, le_length, H. Qed.

Lemma length_codes codes : length (encode_codes codes) = (8 * length codes)%nat.
Proof.
  induction codes as [|c cs IH]; [done|]. change (encode_codes (c :: cs)) with (le 8 c ++ encode_codes cs).
  rewrite length_app, le_length, IH. cbn [length]. lia.
Qed.

Lemma len_encode r : well_formed r → len (encode r) = request_size r.
Proof.
  intros []. unfold encode, encode_header, encode_body, len, request_size.
  rewrite !length_app, !le_length, !length_descriptor, length_codes, wf_ndr_format0, wf_ndr_rest0 by done. unfold len. cbn [length]. lia.
Qed.

Lemma request_size_u32 r : well_formed r → u32 (request_size r).
Proof. intros []. unfold request_size, u32, MAX_CODE_COUNT, MAX_THREAD_STATE_COUNT, len in *. lia. Qed.

Lemma encode_inv buf p :
  parse_exception_message buf = Ok p → ∃ r, well_formed r ∧ buf = encode r ∧ p = parsed_of r.
Proof.
  intros Hp. pose proof Hp as (h & Hh & _)%bind_ok.
  destruct (body_inv buf h p Hh Hp) as (Hreply & [Hbody] & Hsize & Hid & Hcomplex & Hsafe).
  destruct Hbody as (pad & pad' & ndr & flavor & state & Hrest & Ht & Hpad & Hk & Hpad' & Hndr & Hrep & He & Hn & Hcodes & Hf & Hmax & Hw).
  apply header_inv in Hh as (id & Hidv & Hidu & Hb & Hsz & Hr & Hl & Hv & Hbuf).
  rewrite Hid in Hidv. symmetry in Hidv. apply i32_of_id in Hidv as ->; [|done].
  rewrite (ndr_split ndr Hndr Hrep) in Hrest.
  set (r := mkRequest (msgh_bits h) (msgh_remote_port h) (msgh_local_port h) (msgh_voucher_port h) (thread_port p) pad
    (task_port p) pad' (take 4 ndr) (drop 5 ndr) (parsed_exception_type p) (parsed_codes p) flavor state).
  change (rest_at buf 24 = encode_body r) in Hrest. rewrite Hrest in Hbuf.
  assert (length (encode_body r) = Z.to_nat (request_size r - 24)) as Hbody.
  { unfold encode_body, request_size. rewrite !length_app, !le_length, !length_descriptor, length_codes by done.
    cbn [r rq_ndr_format rq_ndr_rest rq_codes rq_state length]. rewrite length_take, length_drop, Hndr. unfold len. lia. }
  assert (msgh_size h = request_size r) as Hrs.
  { rewrite Hsize, Hbuf. unfold header_words, len. rewrite length_app, Hbody, !length_app, !le_length.
    unfold request_size, len. lia. }
  assert (h = header_of r) as Hhr by (destruct h; cbn in *; by rewrite Hrs, Hid).
  exists r. split; [|split].
  - split; try done; [by rewrite <-Hhr|cbn; by rewrite length_take, Hndr|cbn; by rewrite length_drop, Hndr].
  - rewrite Hbuf, Hrs. done.
  - rewrite <-Hreply in Hhr. unfold parsed_of. rewrite <-Hhr. by destruct p.
Qed.

Lemma encode_intro r : well_formed r → parse_exception_message (encode r) = Ok (parsed_of r).
Proof.
  intros Hwf. pose proof (len_encode r Hwf) as Hlen. pose proof (request_size_u32 r Hwf) as Hsz. destruct Hwf.
  destruct (header_intro (encode r) (rq_bits r) (request_size r) (rq_remote r) (rq_local r) (rq_voucher r)
    MACH_EXCEPTION_RAISE_STATE_IDENTITY_ID (encode_body r)) as [Hh H]; try done.
  unfold parse_exception_message. rewrite Hh. cbn [mbind result_bind msgh_size msgh_id msgh_bits].
  rewrite Hlen, Z.eqb_refl. cbn [negb]. change (i32_of MACH_EXCEPTION_RAISE_STATE_IDENTITY_ID) with MACH_EXCEPTION_RAISE_STATE_IDENTITY_ID.
  rewrite Z.eqb_refl. cbn [negb]. rewrite (proj2 (Z.eqb_neq _ _)) by done.
  change (mkHeader _ _ _ _ _ _) with (header_of r). rewrite wf_reply0. cbn [negb].
  change 24 with BODY_OFFSET in H. unfold encode_body in H.
  eapply (u32_intro _ _ "msgh_descriptor_count") in H as [-> H]; [|reach|done]. cbn [mbind result_bind].
  eapply (descriptor_intro _ THREAD_DESCRIPTOR_OFFSET 0) in H as [-> H]; [|reach|done|done]. cbn [mbind result_bind].
  eapply (descriptor_intro _ TASK_DESCRIPTOR_OFFSET 1) in H as [-> H]; [|reach|done|done]. cbn [mbind result_bind].
  eapply (bytes_intro 8 _ NDR_OFFSET "NDR") in H as [-> H]; [|reach|by rewrite !length_app, wf_ndr_format0, wf_ndr_rest0].
  cbn [mbind result_bind]. rewrite app_nth2, wf_ndr_format0 by lia. cbn [nth Nat.sub app].
  change (negb (2 =? 2)) with false. change (negb (Byte.eqb NATIVE_NDR_INT_REP NATIVE_NDR_INT_REP)) with false. cbn iota.
  change (NDR_OFFSET + Z.of_nat 8) with EXCEPTION_OFFSET in H. unfold MAX_CODE_COUNT in wf_count0.
  eapply (u32_intro _ EXCEPTION_OFFSET "exception") in H as [-> H]; [|reach|done].
  cbn [mbind result_bind]. change (EXCEPTION_OFFSET + 4) with CODE_COUNT_OFFSET in H.
  eapply (u32_intro _ CODE_COUNT_OFFSET "codeCnt") in H as [-> H]; [|reach|unfold u32; lia].
  cbn [mbind result_bind]. rewrite (proj2 (Z.ltb_ge _ _)), Nat2Z.id by done.
  change (CODE_COUNT_OFFSET + 4) with (CODE_OFFSET + 0 * 8) in H.
  eapply codes_intro in H as [-> H]; [|lia|reach|done]. cbn [mbind result_bind]. rewrite Z.add_0_l in H.
  eapply (i32_intro _ _ "flavor") in H as [-> H]; [|reach|done]. cbn [mbind result_bind].
  destruct wf_words0 as [words Hwords]. unfold MAX_THREAD_STATE_COUNT in wf_state0. rewrite Hwords, Z.div_mul in H by done.
  assert (0 ≤ words ≤ 1296) as Hw by (unfold len in *; lia).
  eapply (u32_intro _ _ "old_stateCnt") in H as [-> _]; [|reach|unfold u32; lia]. cbn [mbind result_bind].
  rewrite (proj2 (Z.ltb_ge _ _)) by (unfold MAX_THREAD_STATE_COUNT; lia).
  rewrite packed_size by first [reach|unfold MAX_THREAD_STATE_COUNT; lia].
  rewrite (proj2 (Z.eqb_eq _ _)); [done|]. unfold request_size. rewrite Hwords. reach.
Qed.

(** C11. The parser accepts exactly the packed layout: a buffer is accepted if and only if
    it is the encoding of a well-formed request (with the size of its own encoding, the
    registered routine, the complex bit, a usable reply right, two moved send rights, the
    native integer representation, at most two codes and a whole number of at most 1296
    words of thread state), and the answer has exactly the fields of that request. *)
Theorem accepts_exactly_the_layout (buf : list byte) (p : ParsedExceptionMessage) :
  parse_exception_message buf = Ok p ↔ ∃ r, well_formed r ∧ buf = encode r ∧ p = parsed_of r.
Proof.
  split; [apply encode_inv|]. intros (r & Hwf & -> & ->). by apply encode_intro.
Qed.

(** A bad access with two codes and two words of state, and the same with a byte less. *)
Module Example.
Definition zeros (n : nat) : list byte := replicate n Byte.x00.
Definition crash : Request :=
  mkRequest (2 ^ 31 + 18) 99 0 0 42 (zeros 6) 43 (zeros 6) (zeros 4) (zeros 3) 1 [1; 4096] 6 (zeros 8).

Example crash_parsed :
  parse_exception_message (encode crash) = Ok (mkParsed (mkHeader (2 ^ 31 + 18) 100 99 0 0 2407) 42 43 1 [1; 4096]).
Proof. vm_compute. reflexivity. Qed.
Example crash_cut : parse_exception_message (take 99 (encode crash)) = Err (HeaderSizeMismatch 100 99).
Proof. vm_compute. reflexivity. Qed.
End Example.

End MachMessageSpec.
