(* ===== verification/EventSource.v ===== *)
(** * The event source (src/event_source.rs)

    [MacEventSource] turns three channels into the events of the loop: the
    exception listener, the signals, and the child's wait status. Its system calls
    and the listener's channel are operations of [SourceOps] and [ProcessOps]; the
    fuel bounds the interruptions and the reads of a drain. Log lines are left out.
    The trace has every value that leaves a channel. *)

From stdpp Require Import pretty.
From S2P Require Import Prelude.
From S2P Require Import Traced.
From S2P Require Import Fueled.
From S2P Require Import PipelineTypes.
From S2P Require Import PluginRun.
From S2P Require Import Pipeline.
From S2P Require Import CaptureSpawn.
From S2P Require Import EventLoop.
From S2P Require Import ChildProcess.

Module EventSource.
Export ChildProcess.

Definition PENDING_SIGUSR1 : Z := Z.shiftl 1 0.
Definition PENDING_SIGTERM : Z := Z.shiftl 1 1.
Definition PENDING_SIGINT : Z := Z.shiftl 1 2.
Definition CHILD_STATUS_POLL_INTERVAL : Z := 50 * NANOS_PER_MILLI.

Definition EAGAIN : Z := 35.

(** The bit that the signal handler sets for a signal. *)
Definition pending_bit (sig : Z) : Z :=
  if decide (sig = SIGUSR1) then PENDING_SIGUSR1
  else if decide (sig = SIGTERM) then PENDING_SIGTERM
  else if decide (sig = SIGINT) then PENDING_SIGINT
  else 0.

(** The signals of a swapped word, in the order of their delivery. *)
Definition signals_of (pending : Z) : list Z :=
  (if decide (Z.land pending PENDING_SIGTERM ≠ 0) then [SIGTERM] else []) ++
  (if decide (Z.land pending PENDING_SIGINT ≠ 0) then [SIGINT] else []) ++
  (if decide (Z.land pending PENDING_SIGUSR1 ≠ 0) then [SIGUSR1] else []).

(** [ExceptionInfo] and the listener's messages. *)
Record ExceptionInfo (R : Type) := mkExceptionInfo {
  received_at : Z;
  exception_type : Z;
  code : Z;
  subcode : Z;
  raw_codes : list Z;
  request : R
}.
Arguments mkExceptionInfo {R}.
Arguments received_at {R}.
Arguments exception_type {R}.
Arguments code {R}.
Arguments subcode {R}.
Arguments raw_codes {R}.
Arguments request {R}.

Inductive ExceptionListenerEvent (R : Type) : Type :=
| Exception (info : ExceptionInfo R)
| Fatal (message : string).
Arguments Exception {R}.
Arguments Fatal {R}.

(** [Receiver::try_recv]. *)
Inductive received (R : Type) : Type :=
| Got (m : ExceptionListenerEvent R)
| QueueEmpty
| Disconnected.
Arguments Got {R}.
Arguments QueueEmpty {R}.
Arguments Disconnected {R}.

Record timespec := mkTimespec { tv_sec : Z; tv_nsec : Z }.

Inductive ChangeKind : Type := SignalPipe (fd : Z) | WakePipe (fd : Z) | ChildExit (pid : Z).

(** [read] answers with the number of bytes, [kevent_wait] with the number of
    events; failures are errnos. [known_o_flags] are the bits that
    [OFlag::from_bits_truncate] keeps. *)
Class SourceOps (E R : Type) := {
  pipe : E → result Z (Z * Z) * E;
  F_GETFD : Z → E → result Z Z * E;
  F_SETFD : Z → Z → E → result Z unit * E;
  F_GETFL : Z → E → result Z Z * E;
  F_SETFL : Z → Z → E → result Z unit * E;
  known_o_flags : Z;
  set_write_owner : Z → E → bool * E;
  sigaction : Z → E → result Z unit * E;
  publish_write_fd : Z → E → E;
  spawn_bridge : Z → E → result string unit * E;
  read : Z → E → result Z Z * E;
  swap_pending : E → Z * E;
  try_recv : E → received R * E;
  kqueue : E → result Z unit * E;
  kevent_change : list ChangeKind → E → result Z unit * E;
  kevent_wait : option timespec → E → result Z Z * E
}.

Inductive SourceStep (R : Type) : Type :=
| ListenerPolled (answer : received R)
| ChildChecked (reply : result Z CaptureSpawn.WaitStatus)
| PendingSwapped (pending : Z)
| Waited (timeout : option timespec) (reply : result Z Z).
Arguments ListenerPolled {R}.
Arguments ChildChecked {R}.
Arguments PendingSwapped {R}.
Arguments Waited {R}.

Record MacEventSource := mkSource {
  exception_wake_fd : Z;
  signal_read_fd : Z;
  source_pid : Z;
  source_started_at : Z;
  child_exit_wakeup_registered : bool;
  pending_child_termination : option TerminationReason;
  pending_signals : list Z
}.

Definition with_pending_child (s : MacEventSource) (r : option TerminationReason) : MacEventSource :=
  mkSource (exception_wake_fd s) (signal_read_fd s) (source_pid s) (source_started_at s)
    (child_exit_wakeup_registered s) r (pending_signals s).
Definition with_pending_signals (s : MacEventSource) (l : list Z) : MacEventSource :=
  mkSource (exception_wake_fd s) (signal_read_fd s) (source_pid s) (source_started_at s)
    (child_exit_wakeup_registered s) (pending_child_termination s) l.

Definition FD_CLOEXEC : Z := 1.
Definition O_NONBLOCK : Z := 4.

(** [child.or(listener)]. *)
Definition prioritize_ready_events {R : Type} (child listener : option (EventLoop.MonitorEvent R))
    : option (EventLoop.MonitorEvent R) :=
  match child with Some event => Some event | None => listener end.

Definition child_wait_deadline (deadline : option Z) (child_exit_wakeup_registered : bool) (current : Z) : option Z :=
  if child_exit_wakeup_registered then deadline else
  let child_poll := default current (instant_checked_add current CHILD_STATUS_POLL_INTERVAL) in
  Some (match deadline with Some deadline => Z.min deadline child_poll | None => child_poll end).

(** A [Duration] in nanoseconds; [time_t] is an [i64]. *)
Definition duration_to_timespec (d : Z) : timespec :=
  mkTimespec (Z.min (2 ^ 63 - 1) (d / Pipeline.NANOS_PER_SEC)) (d `mod` Pipeline.NANOS_PER_SEC).

Section Source.
Context {E R : Type} {clock : Clock E} {pops : ProcessOps E} {ops : SourceOps E R}.
#[local] Notation src := (fueled E (SourceStep R)).
#[local] Notation MonitorEvent := (EventLoop.MonitorEvent R).

Definition read_clock : src Z := ask instant_now.

(** ** Pipes and signal handlers *)

(** [map_err(|e| format!("{prefix} failed: {e}"))] on the errno of a call. *)
Definition failing {A : Type} (prefix : string) (m : src (result Z A)) : src (result string A) :=
  r ← m;
  mret (map_err (λ errno, (prefix +:+ " failed: " +:+ errno_display errno)%string) r).

Definition set_descriptor_flags (context : string) (fd : Z) : src (result string unit) :=
  descriptor_flags ←? failing (context +:+ " F_GETFD") (ask (F_GETFD fd));
  _ ←? failing (context +:+ " CLOEXEC") (ask (F_SETFD fd (Z.lor (Z.land descriptor_flags FD_CLOEXEC) FD_CLOEXEC)));
  flags ←? failing (context +:+ " F_GETFL") (ask (F_GETFL fd));
  failing (context +:+ " O_NONBLOCK") (ask (F_SETFL fd (Z.lor (Z.land flags known_o_flags) O_NONBLOCK))).

Definition nonblocking_cloexec_pipe (context : string) : src (result string (Z * Z)) :=
  fds ←? failing context (ask pipe);
  _ ←? set_descriptor_flags context fds.1;
  _ ←? set_descriptor_flags context fds.2;
  mret (Ok fds).

Definition install_signal_write_owner (write_fd : Z) : src (result string Z) :=
  installed ← ask (set_write_owner write_fd);
  mret (if (installed : bool) then Ok write_fd else Err "signal pipe is already initialized"%string).

Definition install_handler (sig : Z) : src (result string unit) :=
  failing ("sigaction(" +:+ signal_debug sig +:+ ")") (ask (sigaction sig)).

(** The write end is published only behind the installed handlers. *)
Definition setup_signal_pipe : src (result string Z) :=
  fds ←? nonblocking_cloexec_pipe "signal pipe";
  write_raw_fd ←? install_signal_write_owner fds.2;
  _ ←? install_handler SIGUSR1;
  _ ←? install_handler SIGTERM;
  _ ←? install_handler SIGINT;
  _ ← ask (λ e, (tt, publish_write_fd write_raw_fd e));
  mret (Ok fds.1).

Definition bridge_exception_listener : src (result string Z) :=
  fds ←? nonblocking_cloexec_pipe "exception wake pipe";
  spawned ← ask (spawn_bridge fds.2);
  mret match spawned with
       | Err error => Err ("spawning exception wake bridge failed: " +:+ error)%string
       | Ok _ => Ok fds.1
       end.

(** ** Drains *)

(** Read until the pipe is empty or closed; the errno of a failed read. *)
Fixpoint drain (fuel : nat) (fd : Z) : src (option Z) :=
  match fuel with
  | O => starved
  | S fuel =>
      r ← ask (read fd);
      match r with
      | Ok n => if decide (n = 0) then mret None else drain fuel fd
      | Err errno =>
          if decide (errno = EAGAIN) then mret None
          else if decide (errno = CaptureSpawn.EINTR) then drain fuel fd
          else mret (Some errno)
      end
  end.

Definition drain_signal_pipe (fuel : nat) (read_fd : Z) : src (result string (list Z)) :=
  failed ← drain fuel read_fd;
  match failed with
  | Some errno => mret (Err ("signal pipe drain failed: " +:+ errno_display errno)%string)
  | None =>
      pending ← ask swap_pending;
      _ ← step (PendingSwapped pending);
      mret (Ok (signals_of pending))
  end.

Definition drain_wake_fd (fuel : nat) (fd : Z) : src unit :=
  _ ← drain fuel fd;
  mret tt.

(** ** The child *)

Definition check_child (s : MacEventSource) : src (result Z CaptureSpawn.WaitStatus) :=
  r ← ask (waitpid (source_pid s));
  _ ← step (ChildChecked r);
  mret r.

Definition status_of (s : MacEventSource) (status : CaptureSpawn.WaitStatus) : src (option TerminationReason) :=
  t ← read_clock;
  mret (termination_from_wait_status status (saturating_duration_since t (source_started_at s))).

Fixpoint wait_for_child_event (fuel : nat) (s : MacEventSource) : src (option MonitorEvent) :=
  match fuel with
  | O => starved
  | S fuel =>
      r ← check_child s;
      match r with
      | Ok status => reason ← status_of s status; mret (EventLoop.ChildTerminated <$> reason)
      | Err errno =>
          if decide (errno = CaptureSpawn.EINTR) then wait_for_child_event fuel s
          else if decide (errno = CaptureSpawn.ECHILD) then
            mret (Some (EventLoop.MonitorFailure "waitpid lost ownership of the child (ECHILD)"))
          else mret (Some (EventLoop.MonitorFailure ("waitpid failed: " +:+ errno_display errno)%string))
      end
  end.

Fixpoint reap_child_after_registration_race (fuel : nat) (s : MacEventSource)
    : src (result string (option TerminationReason)) :=
  match fuel with
  | O => starved
  | S fuel =>
      r ← check_child s;
      match r with
      | Ok status => reason ← status_of s status; mret (Ok reason)
      | Err errno =>
          if decide (errno = CaptureSpawn.EINTR) then reap_child_after_registration_race fuel s
          else if decide (errno = CaptureSpawn.ECHILD) then
            mret (Err ("child " +:+ pretty (source_pid s) +:+
                         " disappeared before kqueue registration and waitpid ownership was lost (ECHILD)")%string)
          else mret (Err ("waitpid failed after child " +:+ pretty (source_pid s) +:+
                            " raced kqueue registration: " +:+ errno_display errno)%string)
      end
  end.

(** ** Construction *)

Definition new (fuel : nat) (signal_fd child child_started_at : Z) : src (result string MacEventSource) :=
  wake_fd ←? bridge_exception_listener;
  _ ←? failing "kqueue" (ask kqueue);
  _ ←? failing "registering kqueue descriptor sources" (ask (kevent_change [SignalPipe signal_fd; WakePipe wake_fd]));
  let s := mkSource wake_fd signal_fd child child_started_at true None [] in
  r ← ask (kevent_change [ChildExit child]);
  match r with
  | Ok _ => mret (Ok s)
  | Err errno =>
      if decide (errno = CaptureSpawn.ESRCH) then
        reason ←? reap_child_after_registration_race fuel s;
        mret (Ok (mkSource wake_fd signal_fd child child_started_at false reason []))
      else mret (Err ("registering child kqueue event source failed: " +:+ errno_display errno)%string)
  end.

(** ** Polling *)

Definition poll_exception_listener : src (received R) :=
  r ← ask try_recv;
  _ ← step (ListenerPolled r);
  mret r.

Definition listener_event (r : received R) : option MonitorEvent :=
  match r with
  | Got (Exception i) =>
      Some (EventLoop.CrashEvt (received_at i) (exception_type i) (code i) (subcode i) (raw_codes i) (request i))
  | Got (Fatal message) => Some (EventLoop.ListenerFailure message)
  | QueueEmpty => None
  | Disconnected =>
      Some (EventLoop.ListenerFailure "Mach exception listener disconnected without a terminal event")
  end.

Definition signal_event (sig : Z) : option MonitorEvent :=
  if decide (sig = SIGUSR1) then Some EventLoop.SnapshotEvt
  else if decide (sig = SIGTERM ∨ sig = SIGINT) then Some (EventLoop.ShutdownSignal sig)
  else None.

(** The pending termination, or what [waitpid] says. *)
Definition child_event (fuel : nat) (s : MacEventSource) : src (MacEventSource * option MonitorEvent) :=
  match pending_child_termination s with
  | Some reason => mret (with_pending_child s None, Some (EventLoop.ChildTerminated reason))
  | None => event ← wait_for_child_event fuel s; mret (s, event)
  end.

(** Refill the queue of signals when it is empty; take its head. *)
Definition poll_signals (fuel : nat) (s : MacEventSource) : src (MacEventSource * option MonitorEvent) :=
  refilled ← (if decide (pending_signals s = []) then drain_signal_pipe fuel (signal_read_fd s)
              else mret (Ok (pending_signals s)));
  mret match refilled with
       | Err message => (s, Some (EventLoop.MonitorFailure message))
       | Ok [] => (with_pending_signals s [], None)
       | Ok (sig :: signals) => (with_pending_signals s signals, signal_event sig)
       end.

Definition poll (fuel : nat) (s : MacEventSource) : src (MacEventSource * option MonitorEvent) :=
  _ ← drain_wake_fd fuel (exception_wake_fd s);
  answer ← poll_exception_listener;
  '(s, child) ← child_event fuel s;
  match prioritize_ready_events child (listener_event answer) with
  | Some event => mret (s, Some event)
  | None => poll_signals fuel s
  end.

(** The wait for the next event: [kevent] until it reports one, the deadline
    passes or it fails. *)
Fixpoint wait_loop (fuel : nat) (s : MacEventSource) (deadline : option Z) : src (MacEventSource * option MonitorEvent) :=
  match fuel with
  | O => starved
  | S fuel' =>
      current ← read_clock;
      timeout ← (match child_wait_deadline deadline (child_exit_wakeup_registered s) current with
                 | None => mret None
                 | Some effective =>
                     t ← read_clock;
                     mret (Some (duration_to_timespec (saturating_duration_since effective t)))
                 end);
      r ← ask (kevent_wait timeout);
      _ ← step (Waited timeout r);
      match r with
      | Ok n => if decide (n = 0) then mret (s, None) else poll fuel' s
      | Err errno =>
          if decide (errno = CaptureSpawn.EINTR) then
            late ← (match deadline with
                    | None => mret false
                    | Some deadline => t ← read_clock; mret (bool_decide (deadline ≤ t))
                    end);
            if (late : bool) then mret (s, None) else wait_loop fuel' s deadline
          else mret (s, Some (EventLoop.MonitorFailure ("kqueue wait failed: " +:+ errno_display errno)%string))
      end
  end.

Definition wait_until (fuel : nat) (s : MacEventSource) (deadline : option Z) : src (MacEventSource * option MonitorEvent) :=
  '(s, event) ← poll fuel s;
  match event with
  | Some event => mret (s, Some event)
  | None => wait_loop fuel s deadline
  end.

End Source.
End EventSource.
