(* ===== verification/EventSourceSpec.v ===== *)
(** * What the event source delivers

    [delivery s l s' ev] is the promise of one wait: what left the channels in its
    trace [l] against its event [ev] and the queues of the source before and after. A
    terminal status wins and is delivered; an event that leads to a capture of the
    live task comes only behind a check that found the child alive; signals are
    conserved in their order; and a message of the listener is dropped only in favour
    of an event of the child. *)

From S2P Require Import Prelude.
From S2P Require Import Traced.
From S2P Require Import Fueled.
From S2P Require Import PipelineTypes.
From S2P Require Import PluginRun.
From S2P Require Import Pipeline.
From S2P Require Import CaptureSpawn.
From S2P Require Import EventLoop.
From S2P Require Import ChildProcess.
From S2P Require Import EventSource.

Module EventSourceSpec.
Export EventSource.

Section Observations.
Context {R : Type}.
#[local] Notation step := (SourceStep R).
#[local] Notation event := (EventLoop.MonitorEvent R).

(** ** What leaves the channels *)

Definition checks (l : list step) : list (result Z CaptureSpawn.WaitStatus) :=
  omap (λ x, match x with ChildChecked r => Some r | _ => None end) l.

Definition terminal (status : CaptureSpawn.WaitStatus) : bool :=
  match status with CaptureSpawn.WaitExited _ | CaptureSpawn.WaitSignaled _ _ => true | _ => false end.

Definition terminal_statuses (l : list step) : list CaptureSpawn.WaitStatus :=
  omap (λ r, match r with Ok status => if terminal status then Some status else None | Err _ => None end) (checks l).

Definition messages (l : list step) : list event :=
  omap (λ x, match x with ListenerPolled answer => listener_event answer | _ => None end) l.

Definition swapped (l : list step) : list Z :=
  omap (λ x, match x with PendingSwapped pending => Some pending | _ => None end) l.

(** A status and a reason that it normalizes to. *)
Definition normalizes (status : CaptureSpawn.WaitStatus) (reason : TerminationReason) : Prop :=
  ∃ runtime, termination_from_wait_status status runtime = Some reason.

(** ** What an event delivers *)

Definition terminated (ev : option event) : list TerminationReason :=
  match ev with Some (EventLoop.ChildTerminated reason) => [reason] | _ => [] end.

Definition from_listener (ev : option event) : list event :=
  match ev with
  | Some (EventLoop.CrashEvt t ty c sc raw r) => [EventLoop.CrashEvt t ty c sc raw r]
  | Some (EventLoop.ListenerFailure message) => [EventLoop.ListenerFailure message]
  | _ => []
  end.

Definition from_signals (ev : option event) : list Z :=
  match ev with
  | Some EventLoop.SnapshotEvt => [SIGUSR1]
  | Some (EventLoop.ShutdownSignal sig) => [sig]
  | _ => []
  end.

(** Events that end the child's monitoring, and events that capture the live task. *)
Definition about_child (ev : option event) : bool :=
  match ev with Some (EventLoop.ChildTerminated _) | Some (EventLoop.MonitorFailure _) => true | _ => false end.

Definition captures_live (ev : option event) : bool :=
  match ev with Some (EventLoop.CrashEvt _ _ _ _ _ _) | Some EventLoop.SnapshotEvt => true | _ => false end.

Definition found_alive (l : list step) : Prop :=
  ∃ status, last (checks l) = Some (Ok status) ∧ terminal status = false.

Definition known_signals (s : MacEventSource) : Prop :=
  Forall (λ sig, sig ∈ [SIGTERM; SIGINT; SIGUSR1]) (pending_signals s).

Record delivery (s : MacEventSource) (l : list step) (s' : MacEventSource) (ev : option event) : Prop := {
  delivers_termination :
    ∃ reasons, Forall2 normalizes (terminal_statuses l) reasons ∧
      option_list (pending_child_termination s) ++ reasons = terminated ev ∧ pending_child_termination s' = None;
  delivers_live : captures_live ev = true → found_alive l;
  delivers_messages :
    messages l = from_listener ev ∨
    from_listener ev = [] ∧ about_child ev = true ∧ ∃ m, messages l = [m];
  delivers_signals : known_signals s →
    known_signals s' ∧
    pending_signals s ++ concat (signals_of <$> swapped l) = from_signals ev ++ pending_signals s'
}.

Lemma checks_app l1 l2 : checks (l1 ++ l2) = checks l1 ++ checks l2.
Proof. apply omap_app. Qed.
Lemma terminal_app l1 l2 : terminal_statuses (l1 ++ l2) = terminal_statuses l1 ++ terminal_statuses l2.
Proof. unfold terminal_statuses. by rewrite checks_app, omap_app. Qed.
Lemma messages_app l1 l2 : messages (l1 ++ l2) = messages l1 ++ messages l2.
Proof. apply omap_app. Qed.
Lemma swapped_app l1 l2 : swapped (l1 ++ l2) = swapped l1 ++ swapped l2.
Proof. apply omap_app. Qed.

Lemma signals_known pending : Forall (λ sig, sig ∈ [SIGTERM; SIGINT; SIGUSR1]) (signals_of pending).
Proof. unfold signals_of. repeat case_decide; repeat constructor. Qed.

(** A wait goes on behind a poll without an event. *)
Lemma delivery_trans s l1 s1 l2 s2 ev :
  delivery s l1 s1 None → delivery s1 l2 s2 ev → delivery s (l1 ++ l2) s2 ev.
Proof.
  intros [(rs1 & HF1 & Hrs1 & Hp1) _ Hm1 Hs1] [(rs2 & HF2 & Hrs2 & Hp2) Hl2 Hm2 Hs2].
  apply app_nil in Hrs1 as [Hp ->]. inversion HF1 as [Ht1|]. rewrite Hp1 in Hrs2. simpl in Hrs2.
  assert (messages l1 = []) as Hnone by (destruct Hm1 as [?|(_ & ? & _)]; done). split.
  - exists rs2. rewrite terminal_app, <-Ht1, Hp. done.
  - intros Hc. destruct (Hl2 Hc) as (st & Hst & Ht). exists st. rewrite checks_app, last_app, Hst. done.
  - by rewrite messages_app, Hnone.
  - intros Hk. destruct (Hs1 Hk) as [Hk1 E1]. destruct (Hs2 Hk1) as [Hk2 E2]. split; [done|].
    rewrite swapped_app, fmap_app, concat_app, app_assoc, E1. exact E2.
Qed.

End Observations.

Section Source.
Context {E R : Type} {clock : Clock E} {pops : ProcessOps E} {ops : SourceOps E R}.
#[local] Notation src := (fueled E (SourceStep R)).

(** ** One poll *)

Lemma quiet_drain fuel fd : quiet (drain fuel fd : src (option Z)).
Proof.
  induction fuel as [|fuel IH]; [apply quiet_starved|]. apply fueled_quiet_bind; [auto with cm|].
  intros []; repeat case_decide; auto with cm.
Qed.
#[local] Hint Resolve quiet_drain : cm.

(** How a check of the child ends, behind its interrupted attempts. *)
Definition checked (last : result Z CaptureSpawn.WaitStatus) (ev : option (EventLoop.MonitorEvent R)) : Prop :=
  match last with
  | Ok status => ∃ runtime, ev = EventLoop.ChildTerminated <$> termination_from_wait_status status runtime
  | Err _ => ∃ message, ev = Some (EventLoop.MonitorFailure message)
  end.

Definition interruptions (n : nat) : list (SourceStep R) := replicate n (ChildChecked (Err CaptureSpawn.EINTR)).

Lemma ends_check {A : Type} (Q : list (SourceStep R) → A → Prop) s (f : result Z CaptureSpawn.WaitStatus → src A) :
  (∀ r, ends (λ l a, Q (ChildChecked r :: l) a) (f r)) → ends Q (check_child s ≫= f).
Proof.
  intros Hf. apply (ends_bind (λ l r, l = [ChildChecked r])).
  - apply ends_quiet; [auto with cm|]. intros r. apply ends_step. by apply ends_ret.
  - intros l r ->. apply Hf.
Qed.

Lemma quiet_status s status : quiet (status_of s status : src _).
Proof. apply fueled_quiet_bind; [apply quiet_ask|auto with cm]. Qed.

Lemma ends_status {A : Type} (Q : list (SourceStep R) → A → Prop) s status (f : option TerminationReason → src A) :
  (∀ runtime, ends Q (f (termination_from_wait_status status runtime))) → ends Q (status_of s status ≫= f).
Proof.
  intros Hf. apply (ends_bind (λ l r, l = [] ∧ ∃ runtime, r = termination_from_wait_status status runtime)).
  - apply ends_quiet; [apply quiet_ask|]. intros t. apply ends_ret. eauto.
  - intros l r [-> [runtime ->]]. apply Hf.
Qed.

Lemma wait_for_child_ends fuel s :
  ends (λ l ev, ∃ n last, l = interruptions n ++ [ChildChecked last] ∧ checked last ev) (wait_for_child_event fuel s).
Proof.
  induction fuel as [|fuel IH]; [apply ends_starved|]. apply ends_check. intros [status|errno].
  - apply ends_status. intros runtime. apply ends_ret. exists O, (Ok status). simpl. eauto.
  - case_decide as He; [|case_decide].
    + subst errno. eapply ends_impl; [apply IH|]. intros l ev (n & last & -> & Hc). by exists (S n), last.
    + apply ends_ret. exists O, (Err errno). simpl. eauto.
    + apply ends_ret. exists O, (Err errno). simpl. eauto.
Qed.

Lemma interruptions_checks n last :
  checks (interruptions n ++ [ChildChecked last]) = replicate n (Err CaptureSpawn.EINTR) ++ [last] ∧
  terminal_statuses (interruptions n ++ [ChildChecked last]) =
    (match last with Ok status => if terminal status then [status] else [] | Err _ => [] end) ∧
  messages (interruptions n ++ [ChildChecked last]) = [] ∧ swapped (interruptions n ++ [ChildChecked last]) = [].
Proof.
  induction n as [|n (IH1 & IH2 & IH3 & IH4)].
  - split_and!; [done| |done|done]. by destruct last as [[]|].
  - split_and!; [exact (f_equal (cons _) IH1)|exact IH2|exact IH3|exact IH4].
Qed.

(** The child's part of a poll that goes on, and one that answers. *)
Definition child_part (s : MacEventSource) (l : list (SourceStep R)) (s' : MacEventSource)
    (ev : option (EventLoop.MonitorEvent R)) : Prop :=
  messages l = [] ∧ swapped l = [] ∧ s' = with_pending_child s None ∧
  (ev = None → pending_child_termination s = None ∧ terminal_statuses l = [] ∧ found_alive l) ∧
  (∀ e, ev = Some e → about_child ev = true ∧
     ∃ reasons, Forall2 normalizes (terminal_statuses l) reasons ∧
       option_list (pending_child_termination s) ++ reasons = terminated ev).

Lemma child_event_ends fuel s : ends (λ l a, child_part s l a.1 a.2) (child_event fuel s : src _).
Proof.
  unfold child_event. destruct (pending_child_termination s) as [reason|] eqn:Hp.
  - apply ends_ret. split_and!; [done|done|done|done|]. intros e _. split; [done|]. exists []. by rewrite Hp.
  - eapply ends_bind; [apply wait_for_child_ends|]. intros l ev (n & last & -> & Hc). apply ends_ret.
    rewrite app_nil_r. cbn [fst snd]. destruct (interruptions_checks n last) as (H1 & H2 & H3 & H4).
    unfold child_part, found_alive. rewrite H1, H2, H3, H4, Hp, last_snoc.
    assert (s = with_pending_child s None) as Hs by (unfold with_pending_child; rewrite <-Hp; by destruct s).
    split_and!; [done|done|exact Hs| |].
    + intros ->. destruct last as [status|errno]; [|by destruct Hc].
      destruct Hc as [runtime Hc]. symmetry in Hc. rewrite fmap_None in Hc.
      destruct status; try discriminate Hc; split_and!; try done; by eexists.
    + intros e ->. destruct last as [status|errno].
      * destruct Hc as [runtime Hc]. symmetry in Hc. apply fmap_Some in Hc as (reason & Hreason & ->).
        split; [done|]. exists [reason]. simpl.
        destruct status; try discriminate Hreason; simpl; split; try done; repeat constructor; by exists runtime.
      * destruct Hc as [message [= ->]]. split; [done|]. exists []. done.
Qed.

(** Refilling the queue moves what was swapped to its end. *)
Lemma refill_ends fuel s :
  ends (λ l r, checks l = [] ∧ messages l = [] ∧
     match r with
     | Ok signals => pending_signals s ++ concat (signals_of <$> swapped l) = signals ∧
                     (known_signals s → Forall (λ sig, sig ∈ [SIGTERM; SIGINT; SIGUSR1]) signals)
     | Err _ => swapped l = []
     end)
    (if decide (pending_signals s = []) then drain_signal_pipe fuel (signal_read_fd s)
     else mret (Ok (pending_signals s)) : src _).
Proof.
  case_decide as Hp; [|by apply ends_ret; rewrite app_nil_r].
  apply ends_quiet; [auto with cm|]. intros [errno|]; [by apply ends_ret|].
  apply ends_quiet; [auto with cm|]. intros pending. apply ends_step, ends_ret. split_and!; [done|done| |].
  - rewrite Hp. apply app_nil_r.
  - intros _. apply signals_known.
Qed.

(** A known signal is the event that delivers it. *)
Lemma signal_event_known sig : sig ∈ [SIGTERM; SIGINT; SIGUSR1] →
  ∃ ev, signal_event (R := R) sig = Some ev ∧ from_signals (Some ev) = [sig].
Proof.
  intros Hsig. repeat (apply elem_of_cons in Hsig as [->|Hsig]; [by eexists|]). by apply not_elem_of_nil in Hsig.
Qed.

Lemma signal_event_kind sig :
  from_listener (signal_event (R := R) sig) = [] ∧ terminated (signal_event (R := R) sig) = [] ∧
  about_child (signal_event (R := R) sig) = false.
Proof. unfold signal_event. by repeat case_decide. Qed.

Lemma poll_signals_ends fuel s :
  ends (λ l a, checks l = [] ∧ messages l = [] ∧ a.1 = with_pending_signals s (pending_signals a.1) ∧
     from_listener a.2 = [] ∧ terminated a.2 = [] ∧
     (known_signals s → known_signals a.1 ∧
        pending_signals s ++ concat (signals_of <$> swapped l) = from_signals a.2 ++ pending_signals a.1))
    (poll_signals fuel s : src _).
Proof.
  eapply ends_bind; [apply refill_ends|]. intros l r (Hc & Hm & Hr). apply ends_ret. rewrite app_nil_r.
  destruct r as [[|sig signals]|message]; cbn [fst snd].
  - destruct Hr as [Hr _]. split_and!; try done. intros _. split; [by constructor|done].
  - destruct Hr as [Hr Hk]. destruct (signal_event_kind sig) as (H1 & H2 & _). split_and!; try done.
    intros Hknown. apply Hk in Hknown. inversion Hknown as [|? ? Hsig Hrest]. split; [exact Hrest|].
    destruct (signal_event_known sig Hsig) as (ev & -> & ->). exact Hr.
  - split_and!; try done; [by destruct s|]. intros Hknown. split; [done|]. rewrite Hr. apply app_nil_r.
Qed.

Lemma ends_poll {A : Type} (Q : list (SourceStep R) → A → Prop) (f : received R → src A) :
  (∀ answer, ends (λ l a, Q (ListenerPolled answer :: l) a) (f answer)) → ends Q (poll_exception_listener ≫= f).
Proof.
  intros Hf. apply (ends_bind (λ l r, l = [ListenerPolled r])).
  - apply ends_quiet; [auto with cm|]. intros r. apply ends_step. by apply ends_ret.
  - intros l r ->. apply Hf.
Qed.

Lemma listener_event_kind (answer : received R) : from_listener (listener_event answer) = option_list (listener_event answer).
Proof. by destruct answer as [[]| |]. Qed.

Lemma poll_delivers fuel s : ends (λ l a, delivery s l a.1 a.2) (poll fuel s : src _).
Proof.
  apply ends_quiet; [apply fueled_quiet_bind; auto with cm|]. intros _. apply ends_poll. intros answer.
  eapply ends_bind; [apply child_event_ends|]. intros l [s1 child] (Hm & Hw & Hs1 & Hnone & Hsome). cbn [fst snd] in *.
  assert (messages (ListenerPolled answer :: l) = option_list (listener_event answer)) as Hmsg.
  { change (messages (ListenerPolled answer :: l)) with
      (match listener_event answer with Some m => m :: messages l | None => messages l end). rewrite Hm.
    by destruct (listener_event answer). }
  destruct child as [e|]; cbn [prioritize_ready_events].
  - apply ends_ret. rewrite app_nil_r. cbn [fst snd]. destruct (Hsome e eq_refl) as (Hchild & rs & HF & Hrs).
    split; cbn [fst snd].
    + exists rs. by subst s1.
    + by destruct e.
    + rewrite Hmsg. destruct (listener_event answer) as [m|]; simpl; [right|left; by destruct e].
      split_and!; [by destruct e|done|by exists m].
    + intros Hk. subst s1. split; [done|]. simpl. rewrite Hw. simpl. rewrite app_nil_r. by destruct e.
  - destruct (Hnone eq_refl) as (Hp & Ht & Hlive). destruct (listener_event answer) as [m|] eqn:Ha.
    + apply ends_ret. rewrite app_nil_r. pose proof (listener_event_kind answer) as Hkind. rewrite Ha in Hkind.
      split; cbn [fst snd].
      * exists []. change (terminal_statuses (ListenerPolled answer :: l)) with (terminal_statuses l). rewrite Ht, Hp.
        subst s1. split_and!; [done| |done]. by destruct m.
      * intros _. exact Hlive.
      * left. by rewrite Hmsg, Hkind.
      * intros Hk. subst s1. split; [done|]. change (swapped (ListenerPolled answer :: l)) with (swapped l).
        rewrite Hw. simpl. rewrite app_nil_r. by destruct m.
    + eapply ends_impl; [apply poll_signals_ends|]. intros l2 [s2 ev] (H1 & H2 & H3 & H4 & H5 & H6). cbn [fst snd] in *.
      change (ListenerPolled answer :: l ++ l2) with ((ListenerPolled answer :: l) ++ l2).
      assert (pending_signals s1 = pending_signals s) as Hps by (by subst s1). split; cbn [fst snd].
      * exists []. rewrite terminal_app. unfold terminal_statuses at 2. rewrite H1.
        change (terminal_statuses (ListenerPolled answer :: l)) with (terminal_statuses l). rewrite Ht, Hp, H5, H3.
        by subst s1.
      * intros _. unfold found_alive. rewrite checks_app, H1, app_nil_r. exact Hlive.
      * left. by rewrite messages_app, Hmsg, H2, H4.
      * intros Hk. rewrite swapped_app. change (swapped (ListenerPolled answer :: l)) with (swapped l).
        rewrite Hw, <-Hps. apply H6. unfold known_signals. by rewrite Hps.
Qed.

(** ** Every wait answers *)

(** No operation raises the budget; interruptions and the bytes of a pipe cost some. *)
Class SourceLaws (budget : E → nat) : Prop := {
  law_clock : calm budget instant_now;
  law_wait pid e : (budget (waitpid pid e).2 ≤ budget e)%nat ∧
    ((waitpid pid e).1 = Err CaptureSpawn.EINTR → budget (waitpid pid e).2 < budget e)%nat;
  law_read fd e : (budget (read fd e).2 ≤ budget e)%nat ∧
    ((read fd e).1 = Err CaptureSpawn.EINTR ∨ (∃ n, (read fd e).1 = Ok n ∧ n ≠ 0%Z) →
     budget (read fd e).2 < budget e)%nat;
  law_kevent timeout e : (budget (kevent_wait timeout e).2 ≤ budget e)%nat ∧
    ((kevent_wait timeout e).1 = Err CaptureSpawn.EINTR → budget (kevent_wait timeout e).2 < budget e)%nat;
  law_swap : calm budget swap_pending;
  law_recv : calm budget try_recv;
  law_pipe : calm budget pipe;
  law_getfd fd : calm budget (F_GETFD fd);
  law_setfd fd flags : calm budget (F_SETFD fd flags);
  law_getfl fd : calm budget (F_GETFL fd);
  law_setfl fd flags : calm budget (F_SETFL fd flags);
  law_bridge fd : calm budget (spawn_bridge fd);
  law_kqueue : calm budget kqueue;
  law_change changes : calm budget (kevent_change changes)
}.

Section Answers.
Context (budget : E → nat) {laws : SourceLaws budget}.

#[local] Hint Resolve settles_call law_clock law_swap law_recv law_pipe law_getfd law_setfd
  law_getfl law_setfl law_bridge law_kqueue law_change : cm.
Ltac solve_settles := repeat (intros; first [solve [eauto with cm] | case_match | apply settles_then]).

Lemma drain_settles fuel fd : settles budget fuel (drain fuel fd : src _).
Proof.
  induction fuel as [|fuel IH]; [intros w Hw; lia|].
  apply (settles_again fuel (read fd) (λ r, r = Err CaptureSpawn.EINTR ∨ ∃ n, r = Ok n ∧ n ≠ 0)); [apply law_read| | |].
  - intros [n|errno] Hr; repeat case_decide; auto with cm; exfalso; apply Hr; [right; eauto|left; by subst].
  - intros [n|errno] Hr; repeat case_decide; auto with cm.
  - intros [n|errno]; [destruct (decide (n = 0)); [right; by intros [?|(? & [= <-] & ?)]|left; eauto]|].
    destruct (decide (errno = CaptureSpawn.EINTR)) as [->|]; [by left; left|right; by intros [[= ?]|(? & ? & ?)]].
Qed.

Lemma status_settles n s status : settles budget n (status_of s status : src _).
Proof. unfold status_of, read_clock. solve_settles. Qed.
#[local] Hint Resolve drain_settles status_settles : cm.

(** The two loops around [waitpid] have this form. *)
Lemma check_settles {A : Type} fuel s (k : result Z CaptureSpawn.WaitStatus → src A) :
  (∀ r, r ≠ Err CaptureSpawn.EINTR → settles budget (S fuel) (k r)) → settles budget fuel (k (Err CaptureSpawn.EINTR)) →
  settles budget (S fuel) (check_child s ≫= k).
Proof.
  intros Hdone Hagain w Hw. unfold check_child. apply answers_assoc. revert w Hw.
  apply (settles_again fuel (waitpid (source_pid s)) (λ r, r = Err CaptureSpawn.EINTR)); [apply law_wait| | |].
  all: intros r.
  - intros Hr w Hw. apply answers_assoc. revert w Hw. apply settles_then; [auto with cm|]. intros []. by apply Hdone.
  - intros -> w Hw. apply answers_assoc. revert w Hw. apply settles_then; [auto with cm|]. intros []. exact Hagain.
  - destruct r as [|errno]; [by right|]. destruct (decide (errno = CaptureSpawn.EINTR)) as [->|]; [by left|right; congruence].
Qed.

Lemma wait_for_child_settles fuel s : settles budget fuel (wait_for_child_event fuel s : src _).
Proof.
  induction fuel as [|fuel IH]; [intros w Hw; lia|]. apply check_settles; [|by apply IH].
  intros [status|errno] Hr; [solve_settles|]. repeat case_decide; auto with cm. congruence.
Qed.

Lemma reap_race_settles fuel s : settles budget fuel (reap_child_after_registration_race fuel s : src _).
Proof.
  induction fuel as [|fuel IH]; [intros w Hw; lia|]. apply check_settles; [|by apply IH].
  intros [status|errno] Hr; [solve_settles|]. repeat case_decide; auto with cm. congruence.
Qed.
#[local] Hint Resolve wait_for_child_settles reap_race_settles : cm.

Lemma poll_settles fuel s : settles budget fuel (poll fuel s : src _).
Proof.
  unfold poll, drain_wake_fd, poll_exception_listener, child_event, poll_signals, drain_signal_pipe. solve_settles.
Qed.

Lemma wait_loop_settles fuel s deadline : settles budget (pred fuel) (wait_loop fuel s deadline : src _).
Proof.
  induction fuel as [|[|fuel] IH]; [intros w Hw; simpl in Hw; lia..|]. simpl pred in *.
  apply settles_then; [apply settles_call, law_clock|]. intros current.
  apply settles_then; [unfold read_clock; solve_settles|]. intros timeout.
  apply (settles_again fuel (kevent_wait timeout) (λ r, r = Err CaptureSpawn.EINTR)); [apply law_kevent| | |].
  - intros r Hr. apply settles_then; [auto with cm|]. intros _. destruct r as [n|errno].
    + case_decide; [auto with cm|]. apply poll_settles.
    + case_decide; [congruence|auto with cm].
  - intros r ->. apply settles_then; [auto with cm|]. intros _. rewrite decide_True by done.
    apply settles_then; [unfold read_clock; solve_settles|]. intros []; [auto with cm|]. exact IH.
  - intros [|errno]; [by right|]. destruct (decide (errno = CaptureSpawn.EINTR)) as [->|]; [by left|right; congruence].
Qed.

Lemma wait_settles fuel s deadline : settles budget (pred fuel) (wait_until fuel s deadline : src _).
Proof.
  apply settles_then; [apply (settles_less fuel); [lia|apply poll_settles]|].
  intros [s' []]; [auto with cm|apply wait_loop_settles].
Qed.

Lemma new_settles fuel signal_fd child started : settles budget fuel (new fuel signal_fd child started : src _).
Proof.
  unfold new, bridge_exception_listener, nonblocking_cloexec_pipe, set_descriptor_flags, failing. solve_settles.
Qed.

End Answers.

(** ** A wait *)

(** Waits in the kernel take nothing from the channels. *)
Definition only_waits (l : list (SourceStep R)) : Prop := Forall (λ x, ∃ timeout r, x = Waited timeout r) l.

Lemma only_waits_delivers l s : only_waits l → pending_child_termination s = None → delivery s l s None.
Proof.
  intros Hl Hp. assert (checks l = [] ∧ messages l = [] ∧ swapped l = []) as (H1 & H2 & H3).
  { induction Hl as [|? ? (t & r & ->) _ IH]; [done|exact IH]. }
  split.
  - exists []. unfold terminal_statuses. rewrite H1, Hp. done.
  - done.
  - by left.
  - intros Hk. rewrite H3. by rewrite app_nil_r.
Qed.

Lemma quiet_timeout (e : option Z) : quiet (match e with
    | None => mret None
    | Some effective =>
        t ← read_clock;
        mret (Some (duration_to_timespec (saturating_duration_since effective t)))
    end : src (option timespec)).
Proof. destruct e; [|auto with cm]. apply fueled_quiet_bind; [apply quiet_ask|auto with cm]. Qed.

Lemma wait_loop_delivers fuel s deadline :
  pending_child_termination s = None → ends (λ l a, delivery s l a.1 a.2) (wait_loop fuel s deadline : src _).
Proof.
  intros Hp. induction fuel as [|fuel IH]; [apply ends_starved|].
  apply ends_quiet; [apply quiet_ask|]. intros current. apply ends_quiet; [apply quiet_timeout|]. intros timeout.
  apply ends_quiet; [auto with cm|]. intros r. apply ends_step.
  assert (only_waits [Waited timeout r]) as Hw by (repeat constructor; eauto).
  assert (∀ (l : list (SourceStep R)) s' ev, delivery s l s' ev → delivery s (Waited timeout r :: l) s' ev) as Hgo.
  { intros l s' ev H. apply (delivery_trans s [Waited timeout r] s l s' ev); [by apply only_waits_delivers|done]. }
  destruct r as [n|errno].
  - case_decide; [by apply ends_ret, only_waits_delivers|]. eapply ends_impl; [apply poll_delivers|]. intros l [] Hd. by apply Hgo.
  - case_decide.
    + apply ends_quiet; [destruct deadline; [apply fueled_quiet_bind; [apply quiet_ask|auto with cm]|auto with cm]|].
      intros late. case_match; [by apply ends_ret, only_waits_delivers|]. eapply ends_impl; [apply IH|]. intros l [] Hd. by apply Hgo.
    + apply ends_ret. split; cbn [fst snd].
      * exists []. by rewrite Hp.
      * done.
      * by left.
      * intros Hk. split; [done|]. by rewrite app_nil_r.
Qed.

Lemma wait_delivers fuel s deadline : ends (λ l a, delivery s l a.1 a.2) (wait_until fuel s deadline : src _).
Proof.
  eapply ends_bind; [apply poll_delivers|]. intros l [s1 ev] Hd. cbn [fst snd] in Hd.
  destruct ev as [ev|]; [apply ends_ret; by rewrite app_nil_r|].
  destruct (delivers_termination _ _ _ _ Hd) as (_ & _ & _ & Hp).
  eapply ends_impl; [by apply wait_loop_delivers|]. intros l2 [s2 ev] H. by apply (delivery_trans s l s1).
Qed.


(** ** A session *)

Fixpoint waits (fuel : nat) (s : MacEventSource) (deadlines : list (option Z))
    : src (MacEventSource * list (option (EventLoop.MonitorEvent R))) :=
  match deadlines with
  | [] => mret (s, [])
  | deadline :: deadlines =>
      '(s, ev) ← wait_until fuel s deadline;
      '(s, evs) ← waits fuel s deadlines;
      mret (s, ev :: evs)
  end.

Definition session (fuel : nat) (signal_fd child started : Z) (deadlines : list (option Z))
    : src (result string (MacEventSource * list (option (EventLoop.MonitorEvent R)))) :=
  s ←? new fuel signal_fd child started;
  r ← waits fuel s deadlines;
  mret (Ok r).

(** What left the channels since the source was made is what was delivered, and what
    the source still holds. *)
Record conserved (s : MacEventSource) (l : list (SourceStep R)) (s' : MacEventSource)
    (evs : list (option (EventLoop.MonitorEvent R))) : Prop := {
  conserves_known : known_signals s';
  conserves_signals :
    pending_signals s ++ concat (signals_of <$> swapped l) = concat (from_signals <$> evs) ++ pending_signals s';
  conserves_terminations :
    ∃ reasons, Forall2 normalizes (terminal_statuses l) reasons ∧
      option_list (pending_child_termination s) ++ reasons =
        concat (terminated <$> evs) ++ option_list (pending_child_termination s');
  conserves_messages :
    sublist (concat (from_listener <$> evs)) (messages l) ∧
    (existsb about_child evs = false → concat (from_listener <$> evs) = messages l)
}.

Lemma conserved_cons s l1 s1 ev l2 s2 evs :
  known_signals s → delivery s l1 s1 ev → (known_signals s1 → conserved s1 l2 s2 evs) →
  conserved s (l1 ++ l2) s2 (ev :: evs).
Proof.
  intros Hk [(rs1 & HF1 & Hrs1 & Hp1) _ Hm1 Hs1] Hrest. destruct (Hs1 Hk) as [Hk1 E1].
  destruct (Hrest Hk1) as [Hk2 E2 (rs2 & HF2 & Hrs2) [Hsub Heq]]. rewrite Hp1 in Hrs2. split.
  - done.
  - rewrite swapped_app, fmap_app, concat_app, app_assoc, E1, <-app_assoc, E2. simpl. by rewrite app_assoc.
  - exists (rs1 ++ rs2). rewrite terminal_app. split; [by apply Forall2_app|].
    simpl in Hrs2 |- *. by rewrite app_assoc, Hrs1, Hrs2, app_assoc.
  - rewrite messages_app, fmap_cons. cbn [concat existsb]. split.
    + apply sublist_app; [|done]. destruct Hm1 as [->|(-> & _)]; [done|apply sublist_nil_l].
    + intros [Hev Hevs]%orb_false_iff. rewrite (Heq Hevs). destruct Hm1 as [->|(_ & ? & _)]; congruence.
Qed.

Lemma waits_conserve fuel s deadlines :
  known_signals s → ends (λ l a, conserved s l a.1 a.2) (waits fuel s deadlines).
Proof.
  revert s. induction deadlines as [|deadline deadlines IH]; intros s Hk.
  - apply ends_ret. split; cbn [fst snd]; [done|by rewrite app_nil_r| |done]. exists []. by rewrite app_nil_r.
  - assert (ends (λ l a, delivery s l a.1 a.2 ∧ known_signals a.1) (wait_until fuel s deadline : src _)) as Hwait.
    { eapply ends_impl; [apply wait_delivers|]. intros l [s1 ev] H. split; [done|]. by apply H. }
    eapply ends_bind; [exact Hwait|]. intros l [s1 ev] [Hd Hk1]. cbn [fst snd] in *.
    eapply ends_bind; [by apply IH|]. intros l2 [s2 evs] Hc. apply ends_ret. rewrite app_nil_r.
    by eapply conserved_cons.
Qed.

Lemma reap_race_ends fuel s :
  ends (λ l r, messages l = [] ∧ swapped l = [] ∧
     ∀ reason, r = Ok reason → Forall2 normalizes (terminal_statuses l) (option_list reason))
    (reap_child_after_registration_race fuel s : src _).
Proof.
  induction fuel as [|fuel IH]; [apply ends_starved|]. apply ends_check. intros [status|errno].
  - apply ends_status. intros runtime. apply ends_ret. split_and!; [done|done|]. intros reason [= <-].
    destruct status; simpl; repeat constructor; by exists runtime.
  - case_decide as He; [|case_decide; by apply ends_ret].
    eapply ends_impl; [apply IH|]. intros l r H. exact H.
Qed.

Lemma quiet_failing {A : Type} prefix (m : src (result Z A)) : quiet m → quiet (failing prefix m).
Proof. intros H. apply fueled_quiet_bind; [done|auto with cm]. Qed.
#[local] Hint Resolve quiet_failing : cm.

Lemma quiet_question {A B : Type} (m : src (result string A)) (f : A → src (result string B)) :
  quiet m → (∀ a, quiet (f a)) → quiet (a ←? m; f a).
Proof. intros Hm Hf. apply fueled_quiet_bind; [done|]. intros []; [apply Hf|auto with cm]. Qed.

Lemma quiet_pipe context : quiet (nonblocking_cloexec_pipe context : src _).
Proof. unfold nonblocking_cloexec_pipe, set_descriptor_flags. repeat (apply quiet_question; [auto with cm|intros]); auto 6 with cm. Qed.

Lemma new_ends fuel signal_fd child started :
  ends (λ l r, ∀ s, r = Ok s → known_signals s ∧ pending_signals s = [] ∧ messages l = [] ∧ swapped l = [] ∧
     Forall2 normalizes (terminal_statuses l) (option_list (pending_child_termination s)))
    (new fuel signal_fd child started : src _).
Proof.
  assert (quiet (bridge_exception_listener : src _)) as Hbridge.
  { apply quiet_question; [apply quiet_pipe|]. intros. apply fueled_quiet_bind; auto with cm. }
  assert (∀ reason registered wake, known_signals (mkSource wake signal_fd child started registered reason [])) as Hknown.
  { intros. apply Forall_nil. done. }
  apply ends_quiet; [exact Hbridge|]. intros [wake|]; [|by apply ends_ret].
  apply ends_quiet; [auto with cm|]. intros []; [|by apply ends_ret].
  apply ends_quiet; [auto with cm|]. intros []; [|by apply ends_ret].
  apply ends_quiet; [auto with cm|]. intros [[]|errno].
  - apply ends_ret. intros s [= <-]. split_and!; try done.
  - case_decide; [|by apply ends_ret]. eapply ends_bind; [apply reap_race_ends|]. intros l r (Hm & Hw & Hr).
    destruct r as [reason|]; [|by apply ends_ret]. apply ends_ret. intros s [= <-]. rewrite app_nil_r.
    split_and!; try done. by apply Hr.
Qed.

Lemma waits_settle budget {laws : SourceLaws budget} fuel s deadlines :
  settles budget (pred fuel) (waits fuel s deadlines).
Proof.
  revert s. induction deadlines as [|deadline deadlines IH]; intros s; [apply settles_answer|].
  apply settles_then; [by apply wait_settles|]. intros [s1 ev].
  apply settles_then; [apply IH|]. intros [s2 evs]. apply settles_answer.
Qed.

(** The event source is lossless and delivers nothing twice. Its construction and any
    sequence of waits answer, and if the source could be made: the signals taken from
    the pending word, in the order they are listed, are those delivered followed by
    those still queued; the terminal statuses that [waitpid] answered are those of the
    delivered terminations and of the one still held, so a child that exits before its
    exit can be watched is reported all the same; and the messages taken from the
    listener are delivered in order, all of them if no wait answered with an event of
    the child. *)
Theorem session_conserves budget (laws : SourceLaws budget) fuel signal_fd child started deadlines w :
  (S (budget (env w)) < fuel)%nat →
  ∃ r w' l, (session fuel signal_fd child started deadlines : src _) w = (Some r, w') ∧ trace w' = trace w ++ l ∧
    match r with
    | Err _ => True
    | Ok (s', evs) =>
        concat (signals_of <$> swapped l) = concat (from_signals <$> evs) ++ pending_signals s' ∧
        Forall2 normalizes (terminal_statuses l)
          (concat (terminated <$> evs) ++ option_list (pending_child_termination s')) ∧
        sublist (concat (from_listener <$> evs)) (messages l) ∧
        (existsb about_child evs = false → concat (from_listener <$> evs) = messages l)
    end.
Proof.
  intros Hfuel. apply (settled_ends (budget := budget) (pred fuel)); [| |lia].
  { apply settles_then; [apply (settles_less fuel); [lia|by apply new_settles]|].
    intros []; [|apply settles_answer]. apply settles_then; [by apply waits_settle|]. intros. apply settles_answer. }
  eapply ends_bind; [apply new_ends|]. intros l [s|error] Hnew; [|by apply ends_ret].
  destruct (Hnew s eq_refl) as (Hk & Hq & Hm & Hw & HF).
  eapply ends_bind; [by apply waits_conserve|]. intros l2 [s2 evs] [_ Hsig (rs & HF2 & Hrs) Hmsg]. cbn [fst snd] in *.
  apply ends_ret. rewrite app_nil_r, swapped_app, terminal_app, messages_app, Hm, Hw.
  rewrite Hq in Hsig. split_and!; [done| |apply Hmsg|apply Hmsg].
  rewrite <-Hrs. by apply Forall2_app.
Qed.

End Source.

(** ** A child that exits while signals arrive *)

Module Example.

Record Sim := mkSim { statuses : list (result Z CaptureSpawn.WaitStatus); inbox : list (received unit); bits : Z; bytes : nat }.

#[export] Instance sim_clock : Clock Sim := λ e, (0, e).

#[export] Instance sim_process : ProcessOps Sim := {|
  waitpid _ e := match statuses e with
                 | [] => (Ok CaptureSpawn.WaitStillAlive, e)
                 | r :: l => (r, mkSim l (inbox e) (bits e) (bytes e))
                 end;
  killpg _ _ e := (None, e);
  kill _ _ e := (None, e);
  getpgid pid _ := pid;
  thread_sleep _ e := e;
  errno_display _ := "errno"%string;
  signal_debug _ := "signal"%string;
  install_guard _ _ e := (Ok tt, e);
  disarm_guard e := e;
  spawn_lookup _ e := (Ok tt, e);
  await_lookup _ e := (LookupTimedOut, e);
  destroy_exception_port e := e
|}.

#[export] Instance sim_source : SourceOps Sim unit := {|
  pipe e := (Ok (3, 4), e);
  F_GETFD _ e := (Ok 0, e);
  F_SETFD _ _ e := (Ok tt, e);
  F_GETFL _ e := (Ok 0, e);
  F_SETFL _ _ e := (Ok tt, e);
  known_o_flags := 15;
  set_write_owner _ e := (true, e);
  sigaction _ e := (Ok tt, e);
  publish_write_fd _ e := e;
  spawn_bridge _ e := (Ok tt, e);
  read _ e := match bytes e with
              | O => (Err EAGAIN, e)
              | S n => (Ok 1, mkSim (statuses e) (inbox e) (bits e) n)
              end;
  swap_pending e := (bits e, mkSim (statuses e) (inbox e) 0 (bytes e));
  try_recv e := match inbox e with
                | [] => (QueueEmpty, e)
                | m :: l => (m, mkSim (statuses e) l (bits e) (bytes e))
                end;
  kqueue e := (Ok tt, e);
  kevent_change _ e := (Ok tt, e);
  kevent_wait _ e := (Ok 0, e)
|}.

Definition sim_budget (e : Sim) : nat := length (statuses e) + bytes e.

#[export] Instance sim_laws : SourceLaws sim_budget.
Proof.
  split; try (intros; intros e; simpl; lia); try (intros; intros []; simpl; unfold sim_budget; simpl; lia).
  - intros pid [[|r l] i b n]; unfold sim_budget; simpl; split; intros; try discriminate; lia.
  - intros fd [l i b [|n]]; unfold sim_budget; simpl; split; intros; try lia.
    destruct H as [[=]|(? & [=] & _)].
  - intros timeout e. simpl. split; [lia|discriminate].
  - intros [l [|m i] b n]; unfold sim_budget; simpl; lia.
Qed.

(** SIGUSR1 and SIGTERM are pending; the child is alive at first, then dead. *)
Definition start : Sim :=
  mkSim [Ok CaptureSpawn.WaitStillAlive; Err CaptureSpawn.EINTR; Ok CaptureSpawn.WaitStillAlive;
         Ok (CaptureSpawn.WaitSignaled 11 true)]
    [QueueEmpty; QueueEmpty; Got (Fatal "lost")] (Z.lor PENDING_SIGUSR1 PENDING_SIGTERM) 2.

Definition source : MacEventSource := mkSource 3 5 4242 0 true None [].

End Example.
Import (canonicals,coercions,hints) Example.


Lemma session_conserves_witness :
  (S (Example.sim_budget Example.start) < 20)%nat ∧
  (∃ s', (session 20 5 4242 0 [None; None; None] (mkWorld Example.start [])).1 =
    Some (Ok (s', [Some (EventLoop.ShutdownSignal SIGTERM); Some EventLoop.SnapshotEvt;
                   Some (EventLoop.ChildTerminated (Signaled 11 true 0))]))) ∧
  ∃ r w' l, session 20 5 4242 0 [None; None; None] (mkWorld Example.start []) = (Some r, w') ∧ trace w' = [] ++ l ∧
    match r with
    | Err _ => True
    | Ok (s', evs) => concat (signals_of <$> swapped l) = concat (from_signals <$> evs) ++ pending_signals s'
    end.
Proof.
  assert (S (Example.sim_budget Example.start) < 20)%nat as Hfuel by (vm_compute; lia).
  split; [exact Hfuel|]. split; [eexists; vm_compute; reflexivity|].
  destruct (session_conserves Example.sim_budget Example.sim_laws 20 5 4242 0 [None; None; None]
    (mkWorld Example.start []) Hfuel) as (r & w' & l & H1 & H2 & H3).
  exists r, w', l. split; [exact H1|]. split; [exact H2|]. destruct r as [[s' evs]|]; [|exact I]. exact (proj1 H3).
Defined.

End EventSourceSpec.
