(* ===== verification/EventWakeups.v ===== *)
(** * Wakeups of the event source (src/event_source.rs)

    The source's thread against the signal handler, the thread that bridges the
    exception listener, and the child: every access to a shared word, channel, pipe
    or to the kernel queue is a step of its own, in any interleaving. The kernel queue
    has a flag per registered source, which its [EV_CLEAR] descriptors and its one-shot
    exit filter lose when [kevent] reports them; a write into a pipe raises it, as does
    the close of the write end. A status can be waited for when the exit is reported.

    The theorem is that the source never sleeps over something that is ready: whenever
    it is blocked in [kevent], a pending signal, a message of the listener, its loss or
    the exit of the child has raised a flag already, or the thread that caused it is
    still about to. *)

From S2P Require Import Prelude.
From S2P Require Import Fueled.
From S2P Require Import PluginRun.
From S2P Require Import Pipeline.
From S2P Require Import EventLoop.
From S2P Require Import ChildProcess.
From S2P Require Import EventSource.

Module EventWakeups.
Export EventSource.

(** The thread that forwards the listener's messages, between its steps. *)
Inductive bridge_pc : Type :=
| BridgeReceiving
| BridgeWaking
| BridgeLeaving
| BridgeDropping
| BridgeClosing
| BridgeGone.

(** Whether a poll is the first of a wait or the one behind [kevent]. *)
Inductive poll_kind : Type := First | Second.

(** The source's thread, between its steps: outside a wait, in a poll, or blocked.
    [CheckChild] knows whether the listener had a message or was lost. *)
Inductive source_pc : Type :=
| SettingUp
| Registering
| Racing
| Outside
| DrainingWake (k : poll_kind)
| Receiving (k : poll_kind)
| CheckingChild (k : poll_kind) (message : bool)
| PollingSignals (k : poll_kind)
| DrainingSignals (k : poll_kind)
| Swapping (k : poll_kind)
| Blocked.

Record State := mkState {
  pending : Z;
  set_handlers : nat;
  writing_handlers : nat;
  published : bool;
  signal_bytes : nat;
  signal_ready : bool;
  incoming : nat;
  listener_closed : bool;
  bridge : bridge_pc;
  inbox : nat;
  sender_dropped : bool;
  wake_bytes : nat;
  wake_ready : bool;
  registered : bool;
  exited : bool;
  reaped : bool;
  exit_ready : bool;
  held : bool;
  queued : list Z;
  pc : source_pc
}.

Section Machine.
(** The capacity of a pipe, and what one read takes. *)
Context (capacity chunk : nat).

(** *** The signal handler: [fetch_or], the load of the descriptor, the write. *)
Definition handler_set (sig : Z) (s : State) : option State :=
  Some (mkState (Z.lor (pending s) (pending_bit sig)) (S (set_handlers s)) (writing_handlers s) (published s)
          (signal_bytes s) (signal_ready s) (incoming s) (listener_closed s) (bridge s) (inbox s) (sender_dropped s)
          (wake_bytes s) (wake_ready s) (registered s) (exited s) (reaped s) (exit_ready s) (held s) (queued s) (pc s)).

Definition handler_load (s : State) : option State :=
  match set_handlers s with
  | O => None
  | S n =>
      Some (mkState (pending s) n (if published s then S (writing_handlers s) else writing_handlers s) (published s)
              (signal_bytes s) (signal_ready s) (incoming s) (listener_closed s) (bridge s) (inbox s) (sender_dropped s)
              (wake_bytes s) (wake_ready s) (registered s) (exited s) (reaped s) (exit_ready s) (held s) (queued s) (pc s))
  end.

(** A full pipe answers EAGAIN and takes nothing. *)
Definition handler_write (s : State) : option State :=
  match writing_handlers s with
  | O => None
  | S n =>
      let fits := bool_decide (signal_bytes s < capacity)%nat in
      Some (mkState (pending s) (set_handlers s) n (published s)
              (if fits then S (signal_bytes s) else signal_bytes s) (fits || signal_ready s)
              (incoming s) (listener_closed s) (bridge s) (inbox s) (sender_dropped s)
              (wake_bytes s) (wake_ready s) (registered s) (exited s) (reaped s) (exit_ready s) (held s) (queued s) (pc s))
  end.

(** *** The listener and its bridge *)

Definition with_listener (s : State) (incoming : nat) (closed : bool) (bridge : bridge_pc) (inbox : nat)
    (dropped : bool) (wake_bytes : nat) (wake_ready : bool) : State :=
  mkState (pending s) (set_handlers s) (writing_handlers s) (published s) (signal_bytes s) (signal_ready s)
    incoming closed bridge inbox dropped wake_bytes wake_ready
    (registered s) (exited s) (reaped s) (exit_ready s) (held s) (queued s) (pc s).

Definition listener_sends (s : State) : option State :=
  if listener_closed s then None else
  Some (with_listener s (S (incoming s)) false (bridge s) (inbox s) (sender_dropped s) (wake_bytes s) (wake_ready s)).

Definition listener_closes (s : State) : option State :=
  Some (with_listener s (incoming s) true (bridge s) (inbox s) (sender_dropped s) (wake_bytes s) (wake_ready s)).

(** [incoming.recv] and [tx.send]; without a message and a sender the loop ends. *)
Definition bridge_forward (s : State) : option State :=
  match bridge s, incoming s with
  | BridgeReceiving, S n =>
      Some (with_listener s n (listener_closed s) BridgeWaking (S (inbox s)) (sender_dropped s) (wake_bytes s) (wake_ready s))
  | BridgeReceiving, O =>
      if listener_closed s then
        Some (with_listener s O true BridgeLeaving (inbox s) (sender_dropped s) (wake_bytes s) (wake_ready s))
      else None
  | _, _ => None
  end.

(** [wake_fd]; EAGAIN is ignored. *)
Definition wake_fd (s : State) (next : bridge_pc) : State :=
  let fits := bool_decide (wake_bytes s < capacity)%nat in
  with_listener s (incoming s) (listener_closed s) next (inbox s) (sender_dropped s)
    (if fits then S (wake_bytes s) else wake_bytes s) (fits || wake_ready s).

Definition bridge_wake (s : State) : option State :=
  match bridge s with
  | BridgeWaking => Some (wake_fd s BridgeReceiving)
  | BridgeLeaving => Some (wake_fd s BridgeDropping)
  | _ => None
  end.

(** The closure's captures are dropped: the sender, then the write end. *)
Definition bridge_drop (s : State) : option State :=
  match bridge s with
  | BridgeDropping =>
      Some (with_listener s (incoming s) (listener_closed s) BridgeClosing (inbox s) true (wake_bytes s) (wake_ready s))
  | BridgeClosing =>
      Some (with_listener s (incoming s) (listener_closed s) BridgeGone (inbox s) (sender_dropped s) (wake_bytes s) true)
  | _ => None
  end.

(** *** The child *)

Definition child_exits (s : State) : option State :=
  if exited s then None else
  Some (mkState (pending s) (set_handlers s) (writing_handlers s) (published s) (signal_bytes s) (signal_ready s)
          (incoming s) (listener_closed s) (bridge s) (inbox s) (sender_dropped s) (wake_bytes s) (wake_ready s)
          (registered s) true (reaped s) (registered s) (held s) (queued s) (pc s)).

(** *** The source's thread *)

Definition at_pc (s : State) (c : source_pc) : State :=
  mkState (pending s) (set_handlers s) (writing_handlers s) (published s) (signal_bytes s) (signal_ready s)
    (incoming s) (listener_closed s) (bridge s) (inbox s) (sender_dropped s) (wake_bytes s) (wake_ready s)
    (registered s) (exited s) (reaped s) (exit_ready s) (held s) (queued s) c.

(** The write end is published; then the source is made. *)
Definition publish (s : State) : State :=
  mkState (pending s) (set_handlers s) (writing_handlers s) true (signal_bytes s) (signal_ready s)
    (incoming s) (listener_closed s) (bridge s) (inbox s) (sender_dropped s) (wake_bytes s) (wake_ready s)
    (registered s) (exited s) (reaped s) (exit_ready s) (held s) (queued s) Registering.

(** The exit filter of a child that is alive. *)
Definition register (s : State) (ok : bool) : State :=
  mkState (pending s) (set_handlers s) (writing_handlers s) (published s) (signal_bytes s) (signal_ready s)
    (incoming s) (listener_closed s) (bridge s) (inbox s) (sender_dropped s) (wake_bytes s) (wake_ready s)
    ok (exited s) (reaped s) (exit_ready s) (held s) (queued s) (if ok then Outside else Racing).

(** A child that exited before: its status is held for the first poll. *)
Definition reap_race (s : State) : State :=
  mkState (pending s) (set_handlers s) (writing_handlers s) (published s) (signal_bytes s) (signal_ready s)
    (incoming s) (listener_closed s) (bridge s) (inbox s) (sender_dropped s) (wake_bytes s) (wake_ready s)
    (registered s) (exited s) (exited s) (exit_ready s) (exited s) (queued s) Outside.

(** The child's part of a poll takes the held status, or reaps the child. *)
Definition take_child (s : State) : State :=
  mkState (pending s) (set_handlers s) (writing_handlers s) (published s) (signal_bytes s) (signal_ready s)
    (incoming s) (listener_closed s) (bridge s) (inbox s) (sender_dropped s) (wake_bytes s) (wake_ready s)
    (registered s) (exited s) (exited s) (exit_ready s) false (queued s) Outside.

Definition after_poll (k : poll_kind) : source_pc := match k with First => Blocked | Second => Outside end.

(** Pop the queue of signals: an event, if there is one. *)
Definition take_signal (s : State) (k : poll_kind) (signals : list Z) (pending : Z) : State :=
  mkState pending (set_handlers s) (writing_handlers s) (published s) (signal_bytes s) (signal_ready s)
    (incoming s) (listener_closed s) (bridge s) (inbox s) (sender_dropped s) (wake_bytes s) (wake_ready s)
    (registered s) (exited s) (reaped s) (exit_ready s) (held s) (List.tl signals)
    (match signals with [] => after_poll k | _ => Outside end).

Definition source_step (s : State) : option State :=
  match pc s with
  | SettingUp => Some (publish s)
  | Registering => Some (register s (negb (exited s)))
  | Racing => Some (reap_race s)
  | Outside => Some (at_pc s (DrainingWake First))
  | DrainingWake k =>
      Some (if decide (wake_bytes s = 0%nat) then at_pc s (Receiving k)
            else with_listener s (incoming s) (listener_closed s) (bridge s) (inbox s) (sender_dropped s)
                   (wake_bytes s - chunk) (wake_ready s))
  | Receiving k =>
      Some (match inbox s with
            | S n => at_pc (with_listener s (incoming s) (listener_closed s) (bridge s) n (sender_dropped s)
                              (wake_bytes s) (wake_ready s)) (CheckingChild k true)
            | O => at_pc s (CheckingChild k (sender_dropped s))
            end)
  | CheckingChild k message =>
      Some (if held s || (exited s && negb (reaped s)) then take_child s
            else if message : bool then at_pc s Outside
            else at_pc s (PollingSignals k))
  | PollingSignals k =>
      Some (match queued s with
            | [] => at_pc s (DrainingSignals k)
            | _ => take_signal s k (queued s) (pending s)
            end)
  | DrainingSignals k =>
      Some (if decide (signal_bytes s = 0%nat) then at_pc s (Swapping k)
            else mkState (pending s) (set_handlers s) (writing_handlers s) (published s) (signal_bytes s - chunk)
                   (signal_ready s) (incoming s) (listener_closed s) (bridge s) (inbox s) (sender_dropped s)
                   (wake_bytes s) (wake_ready s) (registered s) (exited s) (reaped s) (exit_ready s) (held s) (queued s) (pc s))
  | Swapping k => Some (take_signal s k (signals_of (pending s)) 0)
  | Blocked =>
      (** [kevent] reports every flag that is raised, and lowers it. *)
      if signal_ready s || wake_ready s || exit_ready s then
        Some (mkState (pending s) (set_handlers s) (writing_handlers s) (published s) (signal_bytes s) false
                (incoming s) (listener_closed s) (bridge s) (inbox s) (sender_dropped s) (wake_bytes s) false
                (registered s) (exited s) (reaped s) false (held s) (queued s) (DrainingWake Second))
      else None
  end.

(** The filter can be refused for a child that only changes its state. *)
Definition registration_fails (s : State) : option State :=
  match pc s with Registering => Some (register s false) | _ => None end.

(** The deadline passes, or [kevent] fails. *)
Definition source_times_out (s : State) : option State :=
  match pc s with Blocked => Some (at_pc s Outside) | _ => None end.

Inductive move : Type :=
| HandlerSets (sig : Z)
| HandlerLoads
| HandlerWrites
| ListenerSends
| ListenerCloses
| BridgeForwards
| BridgeWakes
| BridgeDrops
| ChildExits
| SourceSteps
| RegistrationFails
| SourceTimesOut.

Definition step (m : move) (s : State) : option State :=
  match m with
  | HandlerSets sig => handler_set sig s
  | HandlerLoads => handler_load s
  | HandlerWrites => handler_write s
  | ListenerSends => listener_sends s
  | ListenerCloses => listener_closes s
  | BridgeForwards => bridge_forward s
  | BridgeWakes => bridge_wake s
  | BridgeDrops => bridge_drop s
  | ChildExits => child_exits s
  | SourceSteps => source_step s
  | RegistrationFails => registration_fails s
  | SourceTimesOut => source_times_out s
  end.

Fixpoint run (moves : list move) (s : State) : option State :=
  match moves with
  | [] => Some s
  | m :: moves => s ← step m s; run moves s
  end.

Definition initial : State :=
  mkState 0 0 0 false 0 false 0 false BridgeReceiving 0 false 0 false false false false false false [] SettingUp.

(** ** The source never sleeps over something that is ready *)

(** Behind the drain of the wake pipe, and behind the receive that found nothing. *)
Definition drained_wake (c : source_pc) : bool :=
  match c with
  | Receiving _ | CheckingChild _ false | PollingSignals _ | DrainingSignals _ | Swapping _ | Blocked => true
  | _ => false
  end.
Definition found_no_message (c : source_pc) : bool :=
  match c with
  | CheckingChild _ false | PollingSignals _ | DrainingSignals _ | Swapping _ | Blocked => true
  | _ => false
  end.
Definition found_alive (c : source_pc) : bool :=
  match c with PollingSignals _ | DrainingSignals _ | Swapping _ | Blocked => true | _ => false end.
Definition drained_signals (c : source_pc) : bool :=
  match c with Swapping _ | Blocked => true | _ => false end.
Definition set_up (c : source_pc) : bool :=
  match c with SettingUp | Registering | Racing => false | _ => true end.

Record sound (s : State) : Prop := {
  sound_published : pc s ≠ SettingUp → published s = true;
  sound_signals : drained_signals (pc s) = true → (0 < signal_bytes s)%nat → signal_ready s = true;
  sound_pending : pc s = Blocked → pending s ≠ 0 →
    (0 < signal_bytes s ∨ 0 < set_handlers s ∨ 0 < writing_handlers s)%nat;
  sound_queue : pc s = Blocked → queued s = [];
  sound_wake : drained_wake (pc s) = true → (0 < wake_bytes s)%nat → wake_ready s = true;
  sound_inbox : found_no_message (pc s) = true → (0 < inbox s)%nat → bridge s = BridgeWaking ∨ (0 < wake_bytes s)%nat;
  sound_dropped : sender_dropped s = true ↔ bridge s = BridgeClosing ∨ bridge s = BridgeGone;
  sound_lost : found_no_message (pc s) = true → bridge s = BridgeGone → wake_ready s = true;
  sound_exit : found_alive (pc s) = true → exited s = true → reaped s = false → registered s = true → exit_ready s = true;
  sound_held : found_alive (pc s) = true → held s = false
}.

Context (Hcapacity : (0 < capacity)%nat).

Ltac cases := repeat first [case_bool_decide | case_decide | case_match]; simplify_eq/=.
Ltac solve_sound := split; simpl in *; intros; cases; try done; try naive_solver lia.

(** The invariants of the phase the source is in. *)
Ltac focus_phase := repeat match goal with
  | H : true = true → _ |- _ => specialize (H eq_refl)
  | H : false = true → _ |- _ => clear H
  | H : ?c = ?c → _ |- _ => specialize (H eq_refl)
  end.

Lemma handlers_sound s s' m :
  m = HandlerLoads ∨ m = HandlerWrites ∨ (∃ sig, m = HandlerSets sig) → sound s → step m s = Some s' → sound s'.
Proof.
  intros Hm [H1 H2 H3 H4 H5 H6 H7 H8 H9 H10] Hs. destruct s as [p sh wh pub sb sr inc cl br ib dr wb wr rg ex rp er he q c].
  destruct Hm as [-> | [-> | [sig ->]]]; simpl in *.
  - unfold handler_load in Hs. simpl in Hs. destruct sh; [done|]. injection Hs as <-. solve_sound.
  - unfold handler_write in Hs. simpl in Hs. destruct wh; [done|]. injection Hs as <-. solve_sound.
  - injection Hs as <-. solve_sound.
Qed.

Lemma listener_sound s s' m :
  m = ListenerSends ∨ m = ListenerCloses ∨ m = BridgeForwards ∨ m = BridgeWakes ∨ m = BridgeDrops →
  sound s → step m s = Some s' → sound s'.
Proof.
  intros Hm [H1 H2 H3 H4 H5 H6 H7 H8 H9 H10] Hs. destruct s as [p sh wh pub sb sr inc cl br ib dr wb wr rg ex rp er he q c].
  destruct Hm as [-> | [-> | [-> | [-> | ->]]]]; simpl in *.
  - unfold listener_sends in Hs. simpl in Hs. destruct cl; [done|]. injection Hs as <-. solve_sound.
  - injection Hs as <-. solve_sound.
  - unfold bridge_forward in Hs. simpl in Hs. destruct br, inc, cl; simplify_eq/=; solve_sound.
  - unfold bridge_wake, wake_fd in Hs. simpl in Hs. destruct br; simplify_eq/=; solve_sound.
  - unfold bridge_drop in Hs. simpl in Hs. destruct br; simplify_eq/=; solve_sound.
Qed.

Lemma child_sound s s' : sound s → step ChildExits s = Some s' → sound s'.
Proof.
  intros [H1 H2 H3 H4 H5 H6 H7 H8 H9 H10] Hs. destruct s as [p sh wh pub sb sr inc cl br ib dr wb wr rg ex rp er he q c].
  simpl in *. unfold child_exits in Hs. simpl in Hs. destruct ex; simplify_eq/=. solve_sound.
Qed.

Lemma source_sound s s' m :
  m = SourceSteps ∨ m = RegistrationFails ∨ m = SourceTimesOut → sound s → step m s = Some s' → sound s'.
Proof.
  intros Hm [H1 H2 H3 H4 H5 H6 H7 H8 H9 H10] Hs. destruct s as [p sh wh pub sb sr inc cl br ib dr wb wr rg ex rp er he q c].
  destruct Hm as [-> | [-> | ->]]; simpl in *.
  - unfold source_step in Hs. destruct c as [| | | |k|k|k [|]|k|k|k|]; simpl in *; focus_phase.
    all: repeat first [case_decide | case_match]; simplify_eq/=.
    all: split; simpl in *; intros; try done; try (destruct k; done); try tauto; try lia.
    all: try (apply H1; done); try (destruct ex; done).
    + destruct dr; [done|]. destruct H7 as [_ H7]. by discriminate H7; right.
    + by destruct he, ex, rp.
    + by destruct he, ex, rp.
    + by destruct (signals_of p).
  - unfold registration_fails in Hs. destruct c; simplify_eq/=; solve_sound.
  - unfold source_times_out in Hs. destruct c; simplify_eq/=; solve_sound.
Qed.

Lemma wakeups_step m s s' : sound s → step m s = Some s' → sound s'.
Proof.
  destruct m; first [eapply child_sound | by eapply handlers_sound; eauto | by eapply listener_sound; eauto 7 | by eapply source_sound; eauto].
Qed.

Lemma wakeups_run moves s s' : sound s → run moves s = Some s' → sound s'.
Proof.
  revert s. induction moves as [|m moves IH]; intros s Hs Hrun; simpl in Hrun; [by injection Hrun as <-|].
  destruct (step m s) as [s1|] eqn:Hstep; [|done]. apply (IH s1); [by eapply wakeups_step|done].
Qed.

Lemma wakeups_initial : sound initial.
Proof. solve_sound. Qed.

(** C7. The source never sleeps over something that is ready. In every interleaving of
    signals, the listener, its bridge, the child's exit and the source, from before the
    handlers' descriptor is published: when the source is blocked in [kevent] with
    nothing raised for it, no signal is pending unless its handler still has to write,
    no message waits in the channel unless the bridge still has to write its wakeup, the
    listener's loss has not gone unnoticed unless the bridge still has to close the
    pipe, and a watched child has not exited unreaped. Nothing was left in the queue of
    signals, and the wait for a child that is not watched ends within 50 ms. *)
Theorem no_lost_wakeup moves s :
  run moves initial = Some s → pc s = Blocked → source_step s = None →
  queued s = [] ∧ held s = false ∧
  (pending s ≠ 0 → (0 < set_handlers s + writing_handlers s)%nat) ∧
  ((0 < inbox s)%nat → bridge s = BridgeWaking) ∧
  (sender_dropped s = true → bridge s = BridgeClosing) ∧
  (exited s = true → reaped s = false → registered s = false) ∧
  (registered s = false → ∀ deadline current,
     ∃ until, child_wait_deadline deadline (registered s) current = Some until ∧
       until ≤ current + CHILD_STATUS_POLL_INTERVAL).
Proof.
  intros Hrun Hpc Hasleep. pose proof (wakeups_run moves initial s wakeups_initial Hrun) as [H1 H2 H3 H4 H5 H6 H7 H8 H9 H10].
  unfold source_step in Hasleep. rewrite Hpc in *. simpl in *. focus_phase.
  destruct (signal_ready s), (wake_ready s), (exit_ready s); simpl in *; try discriminate Hasleep.
  split_and!; [done|done| | | | |].
  - intros Hp. destruct (H3 Hp) as [H|H]; [|lia]. discriminate (H2 H).
  - intros Hi. destruct (H6 Hi) as [H|H]; [done|]. discriminate (H5 H).
  - intros Hd. destruct (proj1 H7 Hd) as [H|H]; [done|]. discriminate (H8 H).
  - intros He Hr. destruct (registered s); [|done]. discriminate (H9 He Hr eq_refl).
  - intros -> deadline current. unfold child_wait_deadline. eexists. split; [done|].
    pose proof (eq_refl : CHILD_STATUS_POLL_INTERVAL = 50000000) as Hi.
    destruct (instant_checked_add current CHILD_STATUS_POLL_INTERVAL) as [t|] eqn:Ht; simpl.
    + unfold instant_checked_add in Ht. case_decide; simplify_eq. destruct deadline; lia.
    + destruct deadline; lia.
Qed.

End Machine.

(** SIGTERM arrives before the handlers' descriptor is published and SIGUSR1 during the
    first drain, whose byte wakes a later wait for nothing; SIGINT arrives when the
    source is blocked, and its handler has not written yet. *)
Definition example : list move :=
  [HandlerSets SIGTERM; HandlerLoads] ++ replicate 7 SourceSteps ++ [HandlerSets SIGUSR1; HandlerLoads] ++
  replicate 3 SourceSteps ++ [HandlerWrites] ++ replicate 26 SourceSteps ++ [HandlerSets SIGINT].

Definition asleep (s : State) : bool :=
  match pc s, source_step 64 s with Blocked, None => true | _, _ => false end.

Lemma no_lost_wakeup_witness :
  ∃ s, run 4 64 example initial = Some s ∧ asleep s = true ∧ pending s = PENDING_SIGINT ∧
    (pending s ≠ 0 → (0 < set_handlers s + writing_handlers s)%nat).
Proof.
  destruct (run 4 64 example initial) as [s|] eqn:Hrun; [|vm_compute in Hrun; discriminate Hrun].
  exists s. assert (asleep s = true ∧ pc s = Blocked ∧ source_step 64 s = None ∧ pending s = PENDING_SIGINT) as (H1 & H2 & H3 & H4).
  { vm_compute in Hrun. injection Hrun as <-. vm_compute. repeat split. }
  split; [reflexivity|]. split; [exact H1|]. split; [exact H4|].
  apply (no_lost_wakeup 4 64 ltac:(lia) example s Hrun H2 H3).
Defined.

End EventWakeups.
