(* ===== verification/MachListener.v ===== *)
(** * The exception listener (src/platform/macos/ffi/exceptions.rs)

    The owner of a received Mach message, the replies, and the thread that receives
    exception requests and hands them to the event source. [mach_msg] and the channel are
    operations of [ListenerOps]; the trace has the receives, the sends, the messages of
    the channel, and each [mach_msg_destroy] with the buffer it is called on. [fuel]
    bounds the messages the listener receives. *)

From stdpp Require Import pretty.
From coqutil Require Import Byte Word.LittleEndianList.
From S2P Require Import Prelude.
From S2P Require Import Traced.
From S2P Require Import Fueled.
From S2P Require Import PipelineTypes.
From S2P Require Import PluginRun.
From S2P Require Import MachMessage.
From S2P Require Import EventSource.

Module MachListener.
Export Types.
Export Fueled.
Export PluginRun.
Export MachMessage.
#[local] Open Scope Z_scope.

Definition MESSAGE_BUFFER_CAPACITY : nat := Pos.to_nat 8192.
Definition EXCEPTION_REPLY_TIMEOUT : Z := 100.
Definition MACH_SEND_MSG : Z := 1.
Definition MACH_SEND_TIMEOUT : Z := 16.
Definition EXCEPTION_REPLY_OPTIONS : Z := Z.lor MACH_SEND_MSG MACH_SEND_TIMEOUT.

(** The call answers with [kern_return_t], and a receive with the bytes it wrote. *)
Class ListenerOps (E : Type) := {
  mach_msg_receive : mach_port_t → E → result Z (list byte) * E;
  mach_msg_send : ExceptionReply → Z → Z → E → Z * E;
  channel_send : E → bool * E
}.

Record ReceivedMachMessage := mkMessage {
  buffer : list byte;
  received_size : Z;
  thread_port_of : option mach_port_t;
  task_port_of : option mach_port_t;
  armed : bool
}.

Definition message_bytes (m : ReceivedMachMessage) : list byte :=
  let declared_size := received_size m in
  if decide (MACH_HEADER_SIZE ≤ declared_size ≤ len (buffer m)) then take (Z.to_nat declared_size) (buffer m) else buffer m.

Definition all_bytes (m : ReceivedMachMessage) : list byte := buffer m.

Definition set_validated_descriptor_ports (thread_port task_port : mach_port_t) (m : ReceivedMachMessage) : ReceivedMachMessage :=
  mkMessage (buffer m) (received_size m) (Some thread_port) (Some task_port) (armed m).

(** The header without its reply right. *)
Definition consumed (b : list byte) : list byte :=
  le_split 4 (Z.land (le_combine (take 4 b)) (Z.lnot MACH_MSGH_BITS_REMOTE_MASK)) ++ take 4 (drop 4 b) ++
  le_split 4 MACH_PORT_NULL ++ drop 12 b.

Definition mark_reply_right_consumed (m : ReceivedMachMessage) : ReceivedMachMessage :=
  mkMessage (consumed (buffer m)) (received_size m) (thread_port_of m) (task_port_of m) (armed m).

Notation Event := (EventSource.ExceptionListenerEvent ReceivedMachMessage).

Inductive ListenerStep : Type :=
| Received (b : list byte)
| Replied (reply : ExceptionReply) (ok : bool)
| Destroyed (b : list byte)
| Sent (event : Event) (ok : bool).

(** The bytes of a receive in the zeroed buffer. *)
Definition received_into (b : list byte) : list byte :=
  take MESSAGE_BUFFER_CAPACITY (b ++ replicate MESSAGE_BUFFER_CAPACITY Byte.x00).

Definition mach_error (function : string) (kern_return : Z) : string :=
  (function +:+ " failed: kr=" +:+ pretty kern_return)%string.

Section Listener.
Context {E : Type} {clock : Clock E} {ops : ListenerOps E}.
#[local] Notation lm := (fueled E ListenerStep).

Definition destroy_once (m : ReceivedMachMessage) : lm ReceivedMachMessage :=
  if armed m then
    _ ← step (Destroyed (buffer m));
    mret (mkMessage (buffer m) (received_size m) (thread_port_of m) (task_port_of m) false)
  else mret m.

(** [Drop]. *)
Definition drop_message (m : ReceivedMachMessage) : lm unit := _ ← destroy_once m; mret tt.

Definition receive_message (port : mach_port_t) : lm (result string ReceivedMachMessage) :=
  r ← ask (mach_msg_receive port);
  match r with
  | Err kr => mret (Err (mach_error "mach_msg(recv)" kr))
  | Ok b =>
      let buffer := received_into b in
      _ ← step (Received buffer);
      mret (Ok (mkMessage buffer (le_combine (take 4 (drop 4 buffer))) None None true))
  end.

Definition send_built_exception_reply (reply : ExceptionReply) : lm (result string unit) :=
  kr ← ask (mach_msg_send reply EXCEPTION_REPLY_OPTIONS EXCEPTION_REPLY_TIMEOUT);
  _ ← step (Replied reply (bool_decide (kr = 0)));
  mret (if decide (kr = 0) then Ok tt else Err (mach_error "mach_msg(send)" kr)).

(** The owner goes through the call, which only a successful send changes. *)
Definition send_owned_reply (request : ReceivedMachMessage) (reply : ExceptionReply) : lm (ReceivedMachMessage * result string unit) :=
  sent ← send_built_exception_reply reply;
  mret match sent with
       | Ok _ => (mark_reply_right_consumed request, Ok tt)
       | Err error => (request, Err error)
       end.

Definition reject_malformed_message (request : ReceivedMachMessage) : lm (ReceivedMachMessage * result string bool) :=
  match failure_reply_for_message (all_bytes request) with
  | None => mret (request, Ok false)
  | Some reply =>
      '(request, sent) ← send_owned_reply request reply;
      mret (request, _ ← sent; Ok true)
  end.

Definition UNSAFE_REPLY : string := mach_error "send_deferred_reply(unsafe reply identity)" (-1).

Definition send_deferred_reply (request : ReceivedMachMessage) : lm (ReceivedMachMessage * result string unit) :=
  match (h ← message_header (all_bytes request); build_exception_reply h) with
  | Err _ => mret (request, Err UNSAFE_REPLY)
  | Ok reply => send_owned_reply request reply
  end.

(** A message of the channel; a closed channel gives it back. *)
Definition send (event : Event) : lm bool :=
  ok ← ask channel_send;
  _ ← step (Sent event ok);
  mret ok.

Definition info_of (received_at : Z) (parsed : ParsedExceptionMessage) (request : ReceivedMachMessage)
    : EventSource.ExceptionInfo ReceivedMachMessage :=
  EventSource.mkExceptionInfo received_at (parsed_exception_type parsed) (code parsed) (subcode parsed)
    (parsed_codes parsed) (set_validated_descriptor_ports (thread_port parsed) (task_port parsed) request).

(** The listener stops with a message, and the request goes with it. *)
Definition stop_with (message : string) (request : ReceivedMachMessage) : lm unit :=
  _ ← send (EventSource.Fatal message);
  drop_message request.

Fixpoint exception_listener (fuel : nat) (port : mach_port_t) : lm unit :=
  match fuel with
  | O => starved
  | S fuel =>
      received ← receive_message port;
      match received with
      | Err error => _ ← send (EventSource.Fatal ("mach_msg receive failed: " +:+ error)%string); mret tt
      | Ok request =>
          received_at ← ask instant_now;
          match parse_exception_message (message_bytes request) with
          | Err error =>
              '(request, rejected) ← reject_malformed_message request;
              match rejected with
              | Ok true => _ ← drop_message request; exception_listener fuel port
              | Ok false => stop_with ("malformed Mach exception request has no safe reply identity: " +:+ fmt error)%string request
              | Err reply_error => stop_with ("failed to reject malformed Mach exception request: " +:+ reply_error)%string request
              end
          | Ok parsed =>
              let info := info_of received_at parsed request in
              ok ← send (EventSource.Exception info);
              if (ok : bool) then exception_listener fuel port else drop_message (EventSource.request info)
          end
      end
  end.

(** The event loop's use of a request: any number of reply attempts, then its drop. *)
Fixpoint use_request (attempts : nat) (request : ReceivedMachMessage) : lm unit :=
  match attempts with
  | O => drop_message request
  | S attempts => '(request, _) ← send_deferred_reply request; use_request attempts request
  end.

End Listener.
End MachListener.

(** ** Rights of received messages

    What the exception listener does with every request, as sessions of its trace, and the
    account of the reply rights: each one that was received is given up exactly once, by a
    sent reply or by the destruction of its message. *)

Module MachListenerSpec.
Export MachListener.
Import MachMessageSpec.
#[local] Open Scope Z_scope.

(** ** Reply rights *)

(** The right in the header of a message: what [mach_msg_destroy] would give up. *)
Definition reply_right (h : mach_msg_header_t) : option mach_port_t :=
  let disposition := Z.land (msgh_bits h) MACH_MSGH_BITS_REMOTE_MASK in
  if ((disposition =? MACH_MSG_TYPE_MOVE_SEND) || (disposition =? MACH_MSG_TYPE_MOVE_SEND_ONCE)) &&
     (negb (msgh_remote_port h =? MACH_PORT_NULL) && negb (msgh_remote_port h =? MACH_PORT_DEAD))
  then Some (msgh_remote_port h) else None.

Definition right_of (b : list byte) : option mach_port_t :=
  match message_header b with Ok h => reply_right h | Err _ => None end.

(** A sent reply consumes the right, and so does the destruction of a message. *)
Definition disposal (s : ListenerStep) : option mach_port_t :=
  match s with
  | Replied reply true => Some (msgh_remote_port (header reply))
  | Destroyed b => right_of b
  | _ => None
  end.
Definition disposals (l : list ListenerStep) : list mach_port_t := omap disposal l.

Lemma disposals_app l l' : disposals (l ++ l') = disposals l ++ disposals l'.
Proof. apply omap_app. Qed.

Lemma reply_has_right h reply :
  build_exception_reply h = Ok reply → reply_right h = Some (msgh_remote_port (header reply)).
Proof.
  unfold build_exception_reply. destruct (i32_checked_add _ _); [|done]. unfold has_safe_reply_identity, reply_right.
  destruct (_ || _); [|done]. destruct (negb _ && negb _); [|done]. case_bool_decide; [|done]. by intros [= <-].
Qed.

Lemma failure_reply_right b reply :
  failure_reply_for_message b = Some reply → right_of b = Some (msgh_remote_port (header reply)).
Proof.
  unfold failure_reply_for_message, right_of. destruct (message_header b) as [h|]; [|done].
  destruct (build_exception_reply h) eqn:H; [|done]. intros [= ->]. by apply reply_has_right.
Qed.

(** ** The consumed header *)

Lemma header_complete b : 24 ≤ len b → ∃ h, message_header b = Ok h.
Proof.
  intros Hb. unfold message_header, u32_at, i32_at, bytes, usize_checked_add, USIZE_MAX.
  repeat (rewrite decide_True by lia; cbn [mbind result_bind]). eauto.
Qed.

Lemma consumed_words bits size remote local voucher id rest :
  consumed (header_words bits size remote local voucher id ++ rest) =
  header_words (Z.land (le_combine (le 4 bits)) (Z.lnot MACH_MSGH_BITS_REMOTE_MASK)) size MACH_PORT_NULL local voucher id ++ rest.
Proof. reflexivity. Qed.

Lemma land_reply_bits z : Z.land (Z.land z (Z.lnot MACH_MSGH_BITS_REMOTE_MASK)) MACH_MSGH_BITS_REMOTE_MASK = 0.
Proof. by rewrite <-Z.land_assoc, (Z.land_comm (Z.lnot _)), Z.land_lnot_diag, Z.land_0_r. Qed.

Lemma land_u32 z : u32 z → u32 (Z.land z (Z.lnot MACH_MSGH_BITS_REMOTE_MASK)).
Proof.
  intros [H0 H1]. unfold u32. rewrite <-Z.ldiff_land. change MACH_MSGH_BITS_REMOTE_MASK with (Z.ones 5).
  rewrite Z.ldiff_ones_r, Z.shiftr_div_pow2, Z.shiftl_mul_pow2 by done.
  pose proof (Z.mul_div_le z (2 ^ 5)). pose proof (Z.div_pos z (2 ^ 5)). lia.
Qed.

(** Without its right, a message keeps what stands behind the header. *)
Lemma consumed_keeps b h :
  message_header b = Ok h →
  message_header (consumed b) =
    Ok (mkHeader (Z.land (msgh_bits h) (Z.lnot MACH_MSGH_BITS_REMOTE_MASK)) (msgh_size h) MACH_PORT_NULL
          (msgh_local_port h) (msgh_voucher_port h) (msgh_id h)) ∧
  rest_at (consumed b) 24 = rest_at b 24.
Proof.
  intros (id & Hid & Hidu & Hb & Hs & Hr & Hl & Hv & Hbuf)%header_inv. rewrite Hid.
  assert (consumed b = header_words (Z.land (msgh_bits h) (Z.lnot MACH_MSGH_BITS_REMOTE_MASK)) (msgh_size h) MACH_PORT_NULL
    (msgh_local_port h) (msgh_voucher_port h) id ++ rest_at b 24) as Hc.
  { rewrite Hbuf at 1. by rewrite consumed_words, le_value by exact Hb. }
  apply header_intro; try done. by apply land_u32.
Qed.

Lemma consumed_right b h : message_header b = Ok h → right_of (consumed b) = None.
Proof.
  intros [H _]%consumed_keeps. unfold right_of. rewrite H. unfold reply_right. cbn [msgh_bits]. by rewrite land_reply_bits.
Qed.

(** ** The use of a request *)

Section Use.
Context {E : Type} {clock : Clock E} {ops : ListenerOps E}.
#[local] Notation lm := (fueled E ListenerStep).

(** The steps end with the one destruction of the message, and give up its right once. *)
Definition settled (b : list byte) (l : list ListenerStep) : Prop :=
  disposals l = option_list (right_of b) ∧
  ∃ replies b', l = replies ++ [Destroyed b'] ∧ Forall (λ s, ∃ reply ok, s = Replied reply ok) replies ∧
    rest_at b' 24 = rest_at b 24.

Lemma ends_drop m : armed m = true → ends (λ l _, l = [Destroyed (buffer m)]) (drop_message m : lm unit).
Proof.
  intros Ha. unfold drop_message, destroy_once. rewrite Ha.
  eapply (ends_bind (λ l _, l = [Destroyed (buffer m)])); [by apply ends_step, ends_ret|]. intros l m' ->. by apply ends_ret.
Qed.

Lemma ends_send_reply m reply :
  ends (λ l a, (l = [Replied reply true] ∧ a = (mark_reply_right_consumed m, Ok tt)) ∨
               (l = [Replied reply false] ∧ ∃ error, a = (m, Err error))) (send_owned_reply m reply : lm _).
Proof.
  eapply (ends_bind (λ l r, (l = [Replied reply true] ∧ r = Ok tt) ∨ (l = [Replied reply false] ∧ ∃ error, r = Err error))).
  - apply ends_quiet; [auto with cm|]. intros kr. apply ends_step, ends_ret.
    case_bool_decide; case_decide; try done; [by left|right; eauto].
  - intros l r [[-> ->]|[-> [error ->]]]; apply ends_ret; [by left|right; eauto].
Qed.

Lemma settled_right b l l' : settled b l' → Forall (λ s, ∃ reply, s = Replied reply false) l → settled b (l ++ l').
Proof.
  intros (Hd & replies & b' & -> & Hr & Hrest) Hl. split.
  - rewrite disposals_app, Hd. assert (disposals l = []) as ->; [|done].
    clear -Hl. induction Hl as [|s l [reply ->] _ IH]; [done|exact IH].
  - exists (l ++ replies), b'. rewrite app_assoc. split; [done|]. split; [|done]. apply Forall_app. split; [|done].
    eapply Forall_impl; [exact Hl|]. intros s [reply ->]. eauto.
Qed.

Lemma settled_sent b h reply l :
  message_header b = Ok h → right_of b = Some (msgh_remote_port (header reply)) → settled (consumed b) l →
  settled b (Replied reply true :: l).
Proof.
  intros Hh Hr (Hd & replies & b' & -> & Hf & Hrest). split.
  - change (disposals (?s :: ?l)) with (msgh_remote_port (header reply) :: disposals (replies ++ [Destroyed b'])).
    by rewrite Hd, (consumed_right b h), Hr.
  - exists (Replied reply true :: replies), b'. split; [done|]. split; [constructor; [eauto|done]|].
    by rewrite Hrest, (proj2 (consumed_keeps b h Hh)).
Qed.

Lemma settled_destroyed b : settled b [Destroyed b].
Proof. split; [cbn; by destruct (right_of b)|]. by exists [], b. Qed.

Lemma ends_use n m h :
  armed m = true → message_header (buffer m) = Ok h → ends (λ l _, settled (buffer m) l) (use_request n m : lm unit).
Proof.
  revert m h. induction n as [|n IH]; intros m h Ha Hh; cbn [use_request].
  { eapply ends_impl; [by apply ends_drop|]. intros l [] ->. apply settled_destroyed. }
  unfold send_deferred_reply, all_bytes. rewrite Hh. cbn [mbind result_bind].
  destruct (build_exception_reply h) as [reply|] eqn:Hb.
  - eapply ends_bind; [apply ends_send_reply|]. intros l a [[-> ->]|[-> [error ->]]].
    + destruct (consumed_keeps _ _ Hh) as [Hh' _]. eapply ends_impl; [by eapply (IH (mark_reply_right_consumed m))|].
      intros l [] Hl. eapply settled_sent; [exact Hh| |exact Hl]. unfold right_of. rewrite Hh. by apply reply_has_right.
    + eapply ends_impl; [by eapply IH|]. intros l [] Hl. apply settled_right; [done|]. by repeat econstructor.
  - eapply (ends_bind (λ l a, l = [] ∧ a = (m, Err UNSAFE_REPLY))); [by apply ends_ret|]. intros l a [-> ->].
    by eapply IH.
Qed.

(** ** Sessions of the listener *)

Definition fresh (b : list byte) : ReceivedMachMessage := mkMessage b (le_combine (take 4 (drop 4 b))) None None true.

(** What the listener does with the requests, one after another. *)
Inductive session : list ListenerStep → Prop :=
| session_open : session []
| session_receive_failed text ok : session [Sent (EventSource.Fatal text) ok]
| session_forwarded b t parsed l :
    length b = MESSAGE_BUFFER_CAPACITY → parse_exception_message (message_bytes (fresh b)) = Ok parsed → session l →
    session (Received b :: Sent (EventSource.Exception (info_of t parsed (fresh b))) true :: l)
| session_closed b t parsed :
    length b = MESSAGE_BUFFER_CAPACITY → parse_exception_message (message_bytes (fresh b)) = Ok parsed →
    session [Received b; Sent (EventSource.Exception (info_of t parsed (fresh b))) false; Destroyed b]
| session_rejected b error reply l :
    length b = MESSAGE_BUFFER_CAPACITY → parse_exception_message (message_bytes (fresh b)) = Err error →
    failure_reply_for_message b = Some reply → session l →
    session (Received b :: Replied reply true :: Destroyed (consumed b) :: l)
| session_unanswered b error reply text ok :
    length b = MESSAGE_BUFFER_CAPACITY → parse_exception_message (message_bytes (fresh b)) = Err error →
    failure_reply_for_message b = Some reply →
    session [Received b; Replied reply false; Sent (EventSource.Fatal text) ok; Destroyed b]
| session_unidentified b error text ok :
    length b = MESSAGE_BUFFER_CAPACITY → parse_exception_message (message_bytes (fresh b)) = Err error →
    failure_reply_for_message b = None →
    session [Received b; Sent (EventSource.Fatal text) ok; Destroyed b].

Lemma ends_send event : ends (λ l ok, l = [Sent event ok]) (send event : lm bool).
Proof. apply ends_quiet; [auto with cm|]. intros ok. by apply ends_step, ends_ret. Qed.

Lemma ends_stop text m : armed m = true → ends (λ l _, ∃ ok, l = [Sent (EventSource.Fatal text) ok; Destroyed (buffer m)]) (stop_with text m : lm unit).
Proof.
  intros Ha. eapply ends_bind; [apply ends_send|]. intros l ok ->. eapply ends_impl; [by apply ends_drop|].
  intros l [] ->. by exists ok.
Qed.

Lemma ends_receive port :
  ends (λ l r, match r with
               | Ok m => ∃ b, length b = MESSAGE_BUFFER_CAPACITY ∧ l = [Received b] ∧ m = fresh b
               | Err _ => l = []
               end) (receive_message port : lm _).
Proof.
  apply ends_quiet; [auto with cm|]. intros [b|kr]; [|by apply ends_ret]. apply ends_step, ends_ret.
  exists (received_into b). split; [|done]. unfold received_into. rewrite length_take, length_app, length_replicate. lia.
Qed.

Lemma ends_reject m :
  ends (λ l a,
    (∃ reply, failure_reply_for_message (buffer m) = Some reply ∧
       (l = [Replied reply true] ∧ a = (mark_reply_right_consumed m, Ok true) ∨
        l = [Replied reply false] ∧ ∃ error, a = (m, Err error))) ∨
    (failure_reply_for_message (buffer m) = None ∧ l = [] ∧ a = (m, Ok false))) (reject_malformed_message m : lm _).
Proof.
  unfold reject_malformed_message, all_bytes. destruct (failure_reply_for_message (buffer m)) as [reply|]; [|apply ends_ret; by right].
  eapply ends_bind; [apply ends_send_reply|].
  intros l a [[-> ->]|[-> [error ->]]]; apply ends_ret; left; exists reply; (split; [done|]); [by left|right; eauto].
Qed.

#[local] Hint Resolve settles_call : cm.
Ltac solve_total := unfold total; repeat (intros; first [solve [auto with cm] | case_match | apply settles_then]).

Lemma receive_total port : total (receive_message port : lm _).
Proof. unfold receive_message. solve_total. Qed.
Lemma drop_message_total m : total (drop_message m : lm _).
Proof. unfold drop_message, destroy_once. solve_total. Qed.
Lemma send_total event : total (send event : lm _).
Proof. unfold send. solve_total. Qed.
Lemma send_reply_total m reply : total (send_owned_reply m reply : lm _).
Proof. unfold send_owned_reply, send_built_exception_reply. solve_total. Qed.
Lemma reject_total m : total (reject_malformed_message m : lm _).
Proof. unfold reject_malformed_message. case_match; [|solve_total]. apply settles_then; [apply send_reply_total|solve_total]. Qed.
Lemma stop_total text m : total (stop_with text m : lm _).
Proof. unfold stop_with. apply settles_then; [apply send_total|]. intros. apply drop_message_total. Qed.
Lemma use_total n m : total (use_request n m : lm _).
Proof.
  revert m. induction n as [|n IH]; intros m; [apply drop_message_total|]. cbn [use_request].
  apply settles_then; [|intros [m' r]; apply IH]. unfold send_deferred_reply. case_match; [apply send_reply_total|solve_total].
Qed.

Lemma leaves_listener fuel port : leaves session (exception_listener fuel port : lm unit).
Proof.
  induction fuel as [|fuel IH]; [apply leaves_starved, session_open|]. cbn [exception_listener].
  eapply leaves_bind; [apply receive_total|apply ends_receive|]. intros l [m|error].
  2: { intros ->. eapply leaves_bind; [apply send_total|apply ends_send|]. intros l ok ->.
       apply leaves_total; [solve_total|]. apply ends_ret. apply session_receive_failed. }
  intros (b & Hb & -> & ->). eapply (leaves_bind (λ l _, l = [])); [solve_total|by apply quiet_ends; [auto with cm|]|].
  intros l t ->. destruct (parse_exception_message (message_bytes (fresh b))) as [parsed|error] eqn:Hparse.
  - eapply leaves_bind; [apply send_total|apply ends_send|]. intros l [] ->.
    + eapply leaves_impl; [exact IH|]. intros l Hl. by apply session_forwarded.
    + apply leaves_total; [apply drop_message_total|]. eapply ends_impl; [by apply ends_drop|]. intros l [] ->. by apply session_closed.
  - eapply leaves_bind; [apply reject_total|apply ends_reject|].
    intros l a [(reply & Hreply & [[-> ->]|[-> [text ->]]])|(Hreply & -> & ->)].
    + eapply leaves_bind; [apply drop_message_total|by apply ends_drop|]. intros l [] ->. eapply leaves_impl; [exact IH|].
      intros l Hl. by eapply session_rejected.
    + apply leaves_total; [apply stop_total|]. eapply ends_impl; [by apply ends_stop|]. intros l [] [ok ->].
      by eapply session_unanswered.
    + apply leaves_total; [apply stop_total|]. eapply ends_impl; [by apply ends_stop|]. intros l [] [ok ->].
      by eapply session_unidentified.
Qed.

End Use.

(** ** The account *)

Definition receives (l : list ListenerStep) : list (list byte) :=
  omap (λ s, match s with Received b => Some b | _ => None end) l.
Definition forwarded (l : list ListenerStep) : list ReceivedMachMessage :=
  omap (λ s, match s with Sent (EventSource.Exception info) true => Some (EventSource.request info) | _ => None end) l.

Lemma header_prefix b d h : message_header (take d b) = Ok h → message_header b = Ok h.
Proof.
  intros (id & Hid & Hidu & Hb & Hs & Hr & Hl & Hv & Hbuf)%header_inv.
  destruct (header_intro b (msgh_bits h) (msgh_size h) (msgh_remote_port h) (msgh_local_port h) (msgh_voucher_port h) id
    (rest_at (take d b) 24 ++ drop d b)) as [H _]; try done.
  { by rewrite app_assoc, <-Hbuf, take_drop. }
  rewrite H, <-Hid. by destruct h.
Qed.

Lemma parsed_right b parsed :
  parse_exception_message (message_bytes (fresh b)) = Ok parsed →
  message_header b = Ok (reply_header parsed) ∧ right_of b = Some (msgh_remote_port (reply_header parsed)).
Proof.
  intros Hp. pose proof Hp as (h & Hh & _)%bind_ok. destruct (body_inv _ _ _ Hh Hp) as (-> & _ & _ & _ & _ & Hsafe).
  assert (message_header b = Ok h) as Hb.
  { unfold message_bytes in Hh. case_decide; [by eapply header_prefix|done]. }
  split; [done|]. unfold right_of. rewrite Hb. unfold has_safe_reply_identity in Hsafe. unfold reply_right.
  destruct (_ || _); [|done]. by destruct (negb _ && negb _).
Qed.

Lemma session_account l :
  session l → omap right_of (receives l) ≡ₚ disposals l ++ omap right_of (buffer <$> forwarded l).
Proof.
  induction 1 as [|text ok|b t parsed l Hb Hp _ IH|b t parsed Hb Hp|b error reply l Hb Hp Hr _ IH|b error reply text ok Hb Hp Hr|
    b error text ok Hb Hp Hr]; try done.
  - cbn. cbn in IH. destruct (right_of b); [|done]. rewrite IH. by rewrite Permutation_middle.
  - cbn. by destruct (right_of b).
  - apply failure_reply_right in Hr as Hright. cbn. rewrite Hright.
    destruct (header_complete b) as [h Hh]; [by unfold len; rewrite Hb|]. rewrite (consumed_right b h Hh). cbn. by f_equiv.
  - cbn. by destruct (right_of b).
  - cbn. by destruct (right_of b).
Qed.

Lemma session_forwards l m :
  session l → m ∈ forwarded l →
  ∃ parsed, parse_exception_message (message_bytes m) = Ok parsed ∧ thread_port_of m = Some (thread_port parsed) ∧
    task_port_of m = Some (task_port parsed) ∧ armed m = true ∧ message_header (buffer m) = Ok (reply_header parsed) ∧
    right_of (buffer m) = Some (msgh_remote_port (reply_header parsed)).
Proof.
  induction 1 as [|text ok|b t parsed l Hb Hp _ IH|b t parsed Hb Hp|b error reply l Hb Hp Hr _ IH|b error reply text ok Hb Hp Hr|
    b error text ok Hb Hp Hr]; try by intros ?%elem_of_nil.
  - cbn. intros [->|Hm]%elem_of_cons; [|by apply IH]. exists parsed. destruct (parsed_right b parsed Hp). by split_and!.
  - exact IH.
Qed.

(** C10. Whatever the kernel delivers and however the channel and the sends answer, the
    listener goes through its requests in sessions: a well-formed request is handed on
    untouched, without a reply; a malformed one is refused with [KERN_FAILURE] whenever
    its header has a usable reply right, and only otherwise, or when that reply fails, the
    listener stops with a fatal message. Every reply right that it received is given up
    exactly once, by a sent reply or by [mach_msg_destroy], or goes on with its request;
    and a request that was handed on has its validated descriptor ports and its reply
    right, which any number of deferred replies and the drop give up exactly once, with one
    destruction that still carries the descriptors. *)
Theorem reply_rights_given_up_once {E : Type} {clock : Clock E} {ops : ListenerOps E} (fuel : nat) (port : mach_port_t)
    (w : World E ListenerStep) :
  ∃ l, trace (exception_listener fuel port w).2 = trace w ++ l ∧ session l ∧
    omap right_of (receives l) ≡ₚ disposals l ++ omap right_of (buffer <$> forwarded l) ∧
    ∀ m, m ∈ forwarded l →
      (∃ parsed, parse_exception_message (message_bytes m) = Ok parsed ∧ thread_port_of m = Some (thread_port parsed) ∧
         task_port_of m = Some (task_port parsed) ∧ is_Some (right_of (buffer m))) ∧
      ∀ attempts w', ∃ l', trace (use_request attempts m w').2 = trace w' ++ l' ∧ settled (buffer m) l'.
Proof.
  destruct (leaves_listener fuel port w) as (l & Hl & Hs). exists l. split_and!; [done|done|by apply session_account|].
  intros m Hm. destruct (session_forwards l m Hs Hm) as (parsed & Hp & Ht & Hk & Ha & Hh & Hr). split.
  { exists parsed. rewrite Hr. by split_and!. }
  intros attempts w'. apply (leaves_total (settled (buffer m)) (use_request attempts m)); [apply use_total|by eapply ends_use].
Qed.

(** A crash, then a request of another routine, then the end of the port: the crash is
    handed on, the other request is refused and destroyed without its right. *)
Module Example.
Import MachMessageSpec.Example.

Definition other : list byte := header_words 18 24 77 0 0 2405.
#[export] Instance clock : Clock (list (list byte)) := λ e, (0, e).
#[export] Instance ops : ListenerOps (list (list byte)) := {|
  mach_msg_receive _ e := match e with [] => (Err 268451842, []) | b :: e => (Ok b, e) end;
  mach_msg_send _ _ _ e := (0, e);
  channel_send e := (true, e)
|}.
Definition steps : list ListenerStep := trace (exception_listener 3 7 (mkWorld [encode crash; other] [])).2.

Example crash_handed_on : map buffer (forwarded steps) = [received_into (encode crash)] ∧ length steps = 6%nat ∧
  disposals steps = [77] ∧ disposals (trace (use_request 3 (hd (fresh []) (forwarded steps)) (mkWorld [] [])).2) = [99].
Proof. vm_compute. auto. Qed.
End Example.

End MachListenerSpec.
