(* ===== verification/Startup.v ===== *)
(** * What the supervisor settles before it spawns (src/main.rs)

    Overrides of the watchdog from the environment, the environment of the child
    with its single shared-memory capability, and the check of the debugger
    entitlement. Environment variables are byte strings; running [codesign] and
    reading a property list are operations. *)

From S2P Require Import Prelude.
From S2P Require Import PluginGraph.
From S2P Require Import Config.

Module Startup.

(** ** Numbers from the environment *)

Definition digit (c : Ascii.ascii) : option Z :=
  let n := Z.of_nat (Ascii.nat_of_ascii c) in
  if decide (48 ≤ n ≤ 57) then Some (n - 48) else None.

(** [u64::from_str]: digits with at most a leading plus, checked for overflow at
    every step. *)
Fixpoint parse_digits (s : string) (acc : Z) : option Z :=
  match s with
  | EmptyString => Some acc
  | String c s =>
      d ← digit c;
      let acc := acc * 10 + d in
      if decide (acc ≤ U64_MAX) then parse_digits s acc else None
  end.

Definition plus : Ascii.ascii := Ascii.ascii_of_nat 43.

Definition parse_u64 (s : string) : option Z :=
  match s with
  | EmptyString => None
  | String c EmptyString => digit c
  | String c rest => if decide (c = plus) then parse_digits rest 0 else parse_digits s 0
  end.

Section Environment.
(** [std::env::var]: [None] if the variable is unset or not UTF-8, and
    [std::env::var_os] of the same variables. *)
Context (var var_os : string → option string).

Definition env_u64 (key : string) (default : Z) : Z :=
  match var key with
  | None => default
  | Some val => match parse_u64 val with Some n => n | None => default end
  end.

Definition watchdog_config_with_explicit_env_overrides (c : WatchdogConfig)
    : result ConfigValidationError WatchdogConfig :=
  if bool_decide (var_os "CRASH_MONITOR_ALLOW_ENV_OVERRIDES"%string ≠ Some "1"%string) then Ok c else
  watchdog_validate
    (mkWatchdogConfig
       (env_u64 "CRASH_MONITOR_ANR_WARMUP_MS" (warmup_ms c))
       (env_u64 "CRASH_MONITOR_ANR_THRESHOLD_MS" (threshold_ms c))
       (env_u64 "CRASH_MONITOR_ANR_CHECK_INTERVAL_MS" (check_interval_ms c))
       (env_u64 "CRASH_MONITOR_ANR_COOLDOWN_MS" (cooldown_ms c))).

End Environment.

(** ** The environment of the child *)

Definition CRASH_MONITOR_SHM_ENV : string := "CRASH_MONITOR_SHM".

Definition contains_nul (s : string) : bool :=
  existsb (λ c, Ascii.eqb c Ascii.zero) (String.list_ascii_of_string s).

Fixpoint inherit (inherited : list (string * string)) : result string (list string) :=
  match inherited with
  | [] => Ok []
  | (key, value) :: inherited =>
      if decide (key = CRASH_MONITOR_SHM_ENV) then inherit inherited else
      let entry := (key +:+ "=" +:+ value)%string in
      if contains_nul entry then Err "inherited environment contains a null byte"%string else
      entries ← inherit inherited;
      Ok (entry :: entries)
  end.

Definition build_child_environment (inherited : list (string * string)) (shared_memory_name : option string)
    : result string (list string) :=
  environment ← inherit inherited;
  match shared_memory_name with
  | None => Ok environment
  | Some name =>
      let entry := (CRASH_MONITOR_SHM_ENV +:+ "=" +:+ name)%string in
      if contains_nul entry then Err "shared-memory name contains a null byte"%string
      else Ok (environment ++ [entry])
  end.

(** ** The debugger entitlement *)

Definition DEBUGGER_ENTITLEMENT : string := "com.apple.security.cs.debugger".

Inductive EntitlementCheckError : Type :=
| CurrentExecutableUnavailable (error : string)
| CodesignUnavailable (error : string)
| UnsignedBinary
| MalformedSignature (error : string)
| EntitlementExtractionFailed (error : string)
| MalformedEntitlementPlist (error : string)
| MissingDebuggerEntitlement
| DebuggerEntitlementFalse
| DebuggerEntitlementNotBoolean.

(** A value of a property list; other kinds do not matter here. *)
Inductive PlistValue : Type :=
| PlistBoolean (b : bool)
| PlistDictionary (entries : list (string * PlistValue))
| PlistOther.

(** The output of a finished [codesign], decoded. *)
Record CodesignOutput := mkOutput { success : bool; stdout : string; stderr : string }.

Definition is_ascii_whitespace (c : Ascii.ascii) : bool :=
  bool_decide (Ascii.nat_of_ascii c ∈ [9; 10; 12; 13; 32])%nat.

Fixpoint drop_whitespace (l : list Ascii.ascii) : list Ascii.ascii :=
  match l with
  | c :: l' => if is_ascii_whitespace c || Ascii.eqb c (Ascii.ascii_of_nat 11) then drop_whitespace l' else l
  | [] => []
  end.

(** [str::trim] on ASCII text. *)
Definition trim (s : string) : string :=
  String.string_of_list_ascii (rev (drop_whitespace (rev (drop_whitespace (String.list_ascii_of_string s))))).

Definition to_ascii_lowercase (s : string) : string :=
  String.string_of_list_ascii
    (map (λ c, let n := Ascii.nat_of_ascii c in
               if decide (65 ≤ n ≤ 90)%nat then Ascii.ascii_of_nat (n + 32) else c)
       (String.list_ascii_of_string s)).

Definition str_contains (s needle : string) : bool := bool_decide (is_Some (String.index 0 needle s)).

Definition codesign_error_text (output : string) : string :=
  let message := trim output in
  if decide (message = "") then "codesign returned a failure status without diagnostics" else message.

Definition classify_signature_failure (stderr : string) : EntitlementCheckError :=
  let message := codesign_error_text stderr in
  if str_contains (to_ascii_lowercase message) "code object is not signed at all" then UnsignedBinary
  else MalformedSignature message.

Section Entitlement.
(** [plist::Value::from_reader], the lookup in a dictionary, and the two runs of
    [codesign]. *)
Context (from_reader : string → result string PlistValue).
Context (current_exe : result string string).
Context (codesign_verify codesign_entitlements : string → result string CodesignOutput).

Fixpoint dictionary_get (entries : list (string * PlistValue)) (key : string) : option PlistValue :=
  match entries with
  | [] => None
  | (k, v) :: entries => if decide (k = key) then Some v else dictionary_get entries key
  end.

Definition parse_debugger_entitlement (plist_bytes : string) : result EntitlementCheckError unit :=
  if forallb is_ascii_whitespace (String.list_ascii_of_string plist_bytes) then Err MissingDebuggerEntitlement else
  value ← map_err MalformedEntitlementPlist (from_reader plist_bytes);
  match value with
  | PlistDictionary dictionary =>
      match dictionary_get dictionary DEBUGGER_ENTITLEMENT with
      | Some (PlistBoolean true) => Ok tt
      | Some (PlistBoolean false) => Err DebuggerEntitlementFalse
      | Some _ => Err DebuggerEntitlementNotBoolean
      | None => Err MissingDebuggerEntitlement
      end
  | _ => Err (MalformedEntitlementPlist "top-level plist value is not a dictionary")
  end.

Definition check_debugger_entitlement (path : string) : result EntitlementCheckError unit :=
  verification ← map_err CodesignUnavailable (codesign_verify path);
  if negb (success verification) then Err (classify_signature_failure (stderr verification)) else
  output ← map_err CodesignUnavailable (codesign_entitlements path);
  if negb (success output) then Err (EntitlementExtractionFailed (codesign_error_text (stderr output)))
  else parse_debugger_entitlement (stdout output).

Definition verify_self_entitlement : result EntitlementCheckError unit :=
  exe ← map_err CurrentExecutableUnavailable current_exe;
  check_debugger_entitlement exe.

End Entitlement.

(** ** The child's environment, exactly *)

Definition entry_of (kv : string * string) : string := (kv.1 +:+ "=" +:+ kv.2)%string.

(** The variables that are passed on. *)
Definition passed_on (inherited : list (string * string)) : list (string * string) :=
  List.filter (λ kv, negb (bool_decide (kv.1 = CRASH_MONITOR_SHM_ENV))) inherited.

Lemma inherit_exact inherited :
  match inherit inherited with
  | Ok entries => entries = map entry_of (passed_on inherited) ∧ Forall (λ e, contains_nul e = false) entries
  | Err _ => Exists (λ kv, contains_nul (entry_of kv) = true) (passed_on inherited)
  end.
Proof.
  induction inherited as [|[key value] inherited IH]; [by simpl|]. cbn [inherit passed_on List.filter fst].
  case_decide as Hk; [by rewrite bool_decide_true|]. rewrite bool_decide_false by done. cbn [negb].
  change (key +:+ "=" +:+ value)%string with (entry_of (key, value)).
  destruct (contains_nul (entry_of (key, value))) eqn:Hn; [by left|].
  destruct (inherit inherited) as [entries|error]; simpl in *.
  - destruct IH as [-> HF]. split; [done|]. by constructor.
  - by right.
Qed.

(** An environment entry with the given key. *)
Definition entry_for (key entry : string) : Prop := ∃ value, entry = (key +:+ "=" +:+ value)%string.

Definition no_equals (key : string) : Prop := ¬ In (Ascii.ascii_of_nat 61) (String.list_ascii_of_string key).

(** Keys without an equals sign are determined by the entry. *)
Lemma entry_key_unique k1 v1 k2 v2 :
  no_equals k1 → no_equals k2 → (k1 +:+ "=" +:+ v1 = k2 +:+ "=" +:+ v2)%string → k1 = k2.
Proof.
  revert k2. induction k1 as [|c1 k1 IH]; intros [|c2 k2] H1 H2; simpl; intros Heq.
  - done.
  - injection Heq as Hc _. exfalso. apply H2. left. by rewrite <-Hc.
  - injection Heq as Hc _. exfalso. apply H1. left. by rewrite Hc.
  - injection Heq as Hc H. subst c2. f_equal. apply (IH k2); [intros H'; apply H1; by right|intros H'; apply H2; by right|done].
Qed.

(** The environment of the monitored child. It is the inherited one in its order
    without the inherited [CRASH_MONITOR_SHM], followed by the one of this run if there
    is a mapping; no entry contains a NUL. So whatever the monitor inherited, the child
    sees this run's mapping name or none. It fails only when an entry has a NUL. *)
Theorem child_environment_exact inherited shm :
  Forall (λ kv, no_equals kv.1) inherited →
  match build_child_environment inherited shm with
  | Ok environment =>
      environment = map entry_of (passed_on inherited) ++
                    option_list ((λ name, entry_of (CRASH_MONITOR_SHM_ENV, name)) <$> shm) ∧
      Forall (λ entry, contains_nul entry = false) environment ∧
      (∀ entry, entry ∈ environment → entry_for CRASH_MONITOR_SHM_ENV entry →
         ∃ name, shm = Some name ∧ entry = entry_of (CRASH_MONITOR_SHM_ENV, name))
  | Err _ =>
      Exists (λ kv, contains_nul (entry_of kv) = true) (passed_on inherited) ∨
      ∃ name, shm = Some name ∧ contains_nul (entry_of (CRASH_MONITOR_SHM_ENV, name)) = true
  end.
Proof.
  intros Hkeys. pose proof (inherit_exact inherited) as Hin. unfold build_child_environment.
  destruct (inherit inherited) as [entries|error]; simpl; [|by left]. destruct Hin as [-> Hnul].
  assert (∀ entry, entry ∈ map entry_of (passed_on inherited) → entry_for CRASH_MONITOR_SHM_ENV entry → False) as Hno.
  { intros entry He [value ->]. apply list_elem_of_fmap in He as ([k v] & Hkv & Hk).
    apply list_elem_of_In, filter_In in Hk as [Hk Hne]. apply negb_true_iff, bool_decide_eq_false in Hne. simpl in Hne.
    apply Hne. apply (entry_key_unique k v CRASH_MONITOR_SHM_ENV value); [|vm_compute; naive_solver|done].
    apply list_elem_of_In in Hk. rewrite Forall_forall in Hkeys. apply (Hkeys _ Hk). }
  destruct shm as [name|]; cbn [option_list fmap option_fmap option_map].
  - change (CRASH_MONITOR_SHM_ENV +:+ "=" +:+ name)%string with (entry_of (CRASH_MONITOR_SHM_ENV, name)).
    destruct (contains_nul (entry_of (CRASH_MONITOR_SHM_ENV, name))) eqn:Hn; [right; by exists name|].
    split_and!; [done|by apply Forall_app; split; [|constructor]|].
    intros entry [He|He%list_elem_of_singleton]%elem_of_app Hfor; [by destruct (Hno entry)|by exists name].
  - rewrite app_nil_r. split_and!; [done|done|]. intros entry He Hfor. by destruct (Hno entry).
Qed.

Lemma child_environment_exact_witness :
  Forall (λ kv, no_equals kv.1) [("PATH", "/bin"); ("CRASH_MONITOR_SHM", "stale")]%string ∧
  build_child_environment [("PATH", "/bin"); ("CRASH_MONITOR_SHM", "stale")]%string (Some "fresh"%string) =
    Ok ["PATH=/bin"; "CRASH_MONITOR_SHM=fresh"]%string ∧
  ["PATH=/bin"; "CRASH_MONITOR_SHM=fresh"]%string =
    map entry_of (passed_on [("PATH", "/bin"); ("CRASH_MONITOR_SHM", "stale")]%string) ++
    [entry_of (CRASH_MONITOR_SHM_ENV, "fresh"%string)].
Proof.
  assert (Forall (λ kv : string * string, no_equals kv.1) [("PATH", "/bin"); ("CRASH_MONITOR_SHM", "stale")]%string) as Hk.
  { repeat constructor; vm_compute; intuition discriminate. }
  split; [exact Hk|]. split; [reflexivity|].
  exact (proj1 (child_environment_exact _ (Some "fresh"%string) Hk)).
Defined.

End Startup.
