(* ===== verification/Paths.v ===== *)
(** * Private path primitives (src/utils/paths.rs)

    Directories and files that are opened component by component through no-follow
    descriptors and validated on the descriptor, and the publication of a private path.
    System calls are operations of [PathOps] that answer with a value or an errno; the
    trace has what they established. A descriptor is a number; closing one is left out.
    [fuel] bounds the retries of a directory open and the entries of an ACL. *)

From stdpp Require Import pretty.
From S2P Require Import Prelude.
From S2P Require Import Traced.
From S2P Require Import Fueled.
From S2P Require Import PipelineTypes.
From S2P Require Import PluginRun.

Module Paths.
Export Types.
Export Fueled.
Export PluginRun.

Definition PRIVATE_DIRECTORY_MODE : Z := 448. (* 0o700 *)
Definition PRIVATE_FILE_MODE : Z := 384. (* 0o600 *)
Definition DATA_DIR_OVERRIDE_ENV : string := "CRASH_MONITOR_DATA_DIR".

Definition EACCES : Z := 13.
Definition ENOENT : Z := 2.
Definition EEXIST : Z := 17.
Definition EINVAL : Z := 22.

(** ** The data directory *)

(** [DEFAULT_DATA_DIR_NAME] is chosen at build time; paths here are unparsed. *)
Definition data_dir_path_from_environment (DEFAULT_DATA_DIR_NAME : string) (join : string → string → string)
    (override_path home : option string) : result string string :=
  match override_path with
  | Some path =>
      if decide (path = "") then Err (DATA_DIR_OVERRIDE_ENV +:+ " is set but empty")%string else Ok path
  | None => match home with Some home => Ok (join home DEFAULT_DATA_DIR_NAME) | None => Err "HOME not set"%string end
  end.

Definition sent_dir_for (parent_of : PathBuf → option PathBuf) (pending : PathBuf) : PathBuf :=
  match parent_of pending with Some parent => parent ++ ["sent"%string] | None => pending ++ ["sent"%string] end.

(** ** Nodes *)

Inductive node_type : Type := DirectoryNode | RegularNode | SymlinkNode | OtherNode.

#[export] Instance node_type_eq_dec : EqDecision node_type.
Proof. solve_decision. Defined.

(** What [fstat] tells; [meta_mode] is masked with [0o7777]. *)
Record Meta := mkMeta { meta_type : node_type; meta_uid : Z; meta_mode : Z; meta_dev : Z; meta_ino : Z }.

Inductive PrivateNodeKind : Type := Directory | File.

Definition kind_mode (k : PrivateNodeKind) : Z :=
  match k with Directory => PRIVATE_DIRECTORY_MODE | File => PRIVATE_FILE_MODE end.
Definition description (k : PrivateNodeKind) : string :=
  match k with Directory => "directory" | File => "file" end.
Definition node_of (k : PrivateNodeKind) : node_type :=
  match k with Directory => DirectoryNode | File => RegularNode end.

Inductive ExtendedAclAccess : Type := AclNone | DenyOnly | Allows.

#[export] Instance ExtendedAclAccess_eq_dec : EqDecision ExtendedAclAccess.
Proof. solve_decision. Defined.

(** [acl_get_entry]: an entry, -1 with an errno, or another status. *)
Inductive acl_entry : Type :=
| AclEntry (entry : Z)
| AclError (errno : Z)
| AclStatus (status : Z).

Definition ACL_FIRST_ENTRY : Z := 0.
Definition ACL_NEXT_ENTRY : Z := -1.
Definition ACL_EXTENDED_ALLOW : Z := 1.
Definition ACL_EXTENDED_DENY : Z := 2.

Definition RENAME_EXCL : Z := 4.
Definition RENAME_NOFOLLOW_ANY : Z := 16.

(** How a descriptor is opened relative to its parent: all of them [O_NOFOLLOW]. *)
Inductive open_mode : Type := OpenDirectory | OpenExisting | CreateNew.

Class PathOps (E : Type) := {
  geteuid : Z;
  errno_text : Z → string;
  shown : PathBuf → string;
  octal04 : Z → string;
  current_dir : E → result string PathBuf * E;
  open_directory_no_follow_call : PathBuf → E → result string Z * E;
  symlink_metadata : PathBuf → E → result string Meta * E;
  canonicalize : PathBuf → E → result string PathBuf * E;
  openat : Z → string → open_mode → E → result Z Z * E;
  mkdirat : Z → string → E → result Z unit * E;
  unlinkat : Z → string → bool → E → result Z unit * E;
  fstatat : Z → string → E → result Z Meta * E;
  fchmodat_private : Z → string → E → result Z unit * E;
  fstat : Z → E → result string Meta * E;
  set_permissions : Z → Z → E → result string unit * E;
  fsync : Z → E → result string unit * E;
  renameatx_np : Z → string → Z → string → Z → E → result string unit * E;
  acl_get_fd_np : Z → E → result Z Z * E;
  acl_get_entry : Z → Z → E → acl_entry * E;
  acl_get_tag_type : Z → E → result string Z * E;
  acl_free : Z → E → result string unit * E;
  pending_name : E → string * E;
  yield_now : E → E
}.

Inductive PathStep : Type :=
| RootOpened (p : PathBuf) (h : Z)
| OpenedAt (parent : Z) (name : string) (mode : open_mode) (h : Z)
| MadeAt (parent : Z) (name : string)
| UnlinkedAt (parent : Z) (name : string) (ok : bool)
| EntryInspected (parent : Z) (name : string) (r : result Z Meta)
| EntryChmod (parent : Z) (name : string)
| Inspected (h : Z) (r : result string Meta)
| AclRead (h : Z) (r : result string ExtendedAclAccess)
| ModeSet (h : Z) (mode : Z)
| Synced (h : Z)
| RenamedAt (source : Z) (source_name : string) (dest : Z) (dest_name : string) (flags : Z) (ok : bool).

Section Paths.
Context {E : Type} {clock : Clock E} {ops : PathOps E}.
#[local] Notation pm := (fueled E PathStep).

(** A call and its step on success; an error is given its text. *)
Definition call {A e : Type} (f : E → result e A * E) (note : A → list PathStep) (text : e → string) : pm (result string A) :=
  r ← ask f;
  match r with
  | Ok a => _ ← fold_right (λ s m, _ ← step s; m) (mret tt) (note a); mret (Ok a)
  | Err error => mret (Err (text error))
  end.

Definition quoted (p : PathBuf) : string := ("'" +:+ shown p +:+ "'")%string.
Definition with_errno (prefix : string) (errno : Z) : string := (prefix +:+ ": " +:+ errno_text errno)%string.
Definition with_error (prefix error : string) : string := (prefix +:+ ": " +:+ error)%string.

Definition inspect (h : Z) (prefix : string) : pm (result string Meta) :=
  r ← ask (fstat h);
  _ ← step (Inspected h r);
  mret (map_err (with_error prefix) r).

Definition inspect_entry (parent : Z) (name : string) : pm (result Z Meta) :=
  r ← ask (fstatat parent name);
  _ ← step (EntryInspected parent name r);
  mret r.

(** ** Access control lists *)

Fixpoint acl_entries (fuel : nat) (acl entry_id : Z) (access : ExtendedAclAccess) : pm (result string ExtendedAclAccess) :=
  match fuel with
  | O => starved
  | S fuel =>
      answer ← ask (acl_get_entry acl entry_id);
      match answer with
      | AclError errno =>
          if decide (errno = EINVAL) then mret (Ok access)
          else mret (Err (with_errno "cannot enumerate private path ACL" errno))
      | AclStatus status => mret (Err ("unexpected acl_get_entry status: " +:+ pretty status)%string)
      | AclEntry entry =>
          tag ← ask (acl_get_tag_type entry);
          match tag with
          | Err error => mret (Err (with_error "cannot inspect private path ACL tag" error))
          | Ok tag =>
              if decide (tag = ACL_EXTENDED_ALLOW) then acl_entries fuel acl ACL_NEXT_ENTRY Allows
              else if decide (tag = ACL_EXTENDED_DENY) then
                acl_entries fuel acl ACL_NEXT_ENTRY (if decide (access = AclNone) then DenyOnly else access)
              else mret (Err ("unsupported private path ACL tag: " +:+ pretty tag)%string)
          end
      end
  end.

Definition extended_acl_access (fuel : nat) (h : Z) : pm (result string ExtendedAclAccess) :=
  r ← (acl ← ask (acl_get_fd_np h);
       match acl with
       | Err errno =>
           if decide (errno = ENOENT) then mret (Ok AclNone)
           else mret (Err (with_errno "cannot inspect private path ACL" errno))
       | Ok acl =>
           access_result ← acl_entries fuel acl ACL_FIRST_ENTRY AclNone;
           freed ← ask (acl_free acl);
           mret match freed with
                | Err error => Err (with_error "cannot release private path ACL" error)
                | Ok _ => access_result
                end
       end);
  _ ← step (AclRead h r);
  mret r.

Definition has_extended_acl (fuel : nat) (h : Z) : pm (result string bool) :=
  access ←? extended_acl_access fuel h;
  mret (Ok (negb (bool_decide (access = AclNone)))).

Definition has_allowing_extended_acl (fuel : nat) (h : Z) : pm (result string bool) :=
  access ←? extended_acl_access fuel h;
  mret (Ok (bool_decide (access = Allows))).

(** ** Validation of descriptors *)

Definition trusted_ancestor_metadata (m : Meta) : bool :=
  if negb (bool_decide (meta_type m = DirectoryNode)) then false else
  let mode := meta_mode m in
  let owner_is_trusted := bool_decide (meta_uid m = geteuid) || bool_decide (meta_uid m = 0) in
  let owner_can_traverse := bool_decide (Z.land mode 320 = 320) in (* 0o500 *)
  let untrusted_write := negb (bool_decide (Z.land mode 18 = 0)) in (* 0o022 *)
  let root_sticky_directory := bool_decide (meta_uid m = 0) && negb (bool_decide (Z.land mode 512 = 0)) in (* 0o1000 *)
  owner_is_trusted && owner_can_traverse && (negb untrusted_write || root_sticky_directory).

Definition validate_trusted_ancestor (fuel : nat) (h : Z) (p : PathBuf) : pm (result string unit) :=
  metadata ←? inspect h ("cannot inspect trusted private path ancestor " +:+ quoted p)%string;
  if negb (trusted_ancestor_metadata metadata) then
    mret (Err ("private path ancestor is not owned and protected against untrusted writes: " +:+ quoted p)%string)
  else
  allowing ←? has_allowing_extended_acl fuel h;
  mret (if (allowing : bool) then Err ("private path ancestor " +:+ quoted p +:+ " has an extended ACL that grants access")%string
        else Ok tt).

Definition validate_trusted_output_directory (fuel : nat) (h : Z) (p : PathBuf) : pm (result string unit) :=
  metadata ←? inspect h ("cannot inspect trusted output directory " +:+ quoted p)%string;
  if negb (bool_decide (meta_type metadata = DirectoryNode)) then
    mret (Err ("trusted output path is not a directory: " +:+ quoted p)%string)
  else if negb (bool_decide (meta_uid metadata = geteuid)) && negb (bool_decide (meta_uid metadata = 0)) then
    mret (Err ("trusted output directory " +:+ quoted p +:+ " is owned by uid " +:+ pretty (meta_uid metadata) +:+
                 ", expected effective uid " +:+ pretty geteuid +:+ " or root")%string)
  else if negb (bool_decide (Z.land (meta_mode metadata) 320 = 320)) || negb (bool_decide (Z.land (meta_mode metadata) 18 = 0)) then
    mret (Err ("trusted output directory " +:+ quoted p +:+ " has unsafe mode " +:+ octal04 (meta_mode metadata))%string)
  else
  allowing ←? has_allowing_extended_acl fuel h;
  mret (if (allowing : bool) then Err ("trusted output directory " +:+ quoted p +:+ " has an extended ACL that grants access")%string
        else Ok tt).

(** The mode is corrected on the descriptor and read again. *)
Definition correct_handle_mode (h : Z) (p : PathBuf) (kind : PrivateNodeKind) : pm (result string unit) :=
  _ ←? call (set_permissions h (kind_mode kind)) (λ _, [ModeSet h (kind_mode kind)])
         (with_error ("cannot correct private " +:+ description kind +:+ " mode for " +:+ quoted p)%string);
  corrected ←? inspect h ("cannot re-inspect private " +:+ description kind +:+ " " +:+ quoted p)%string;
  mret (if decide (meta_mode corrected = kind_mode kind) then Ok tt
        else Err ("private " +:+ description kind +:+ " " +:+ quoted p +:+ " remains mode " +:+
                    octal04 (meta_mode corrected) +:+ ", expected " +:+ octal04 (kind_mode kind))%string).

Definition validate_private_handle (fuel : nat) (h : Z) (p : PathBuf) (kind : PrivateNodeKind) (correct_mode : bool)
    : pm (result string unit) :=
  metadata ←? inspect h ("cannot inspect private " +:+ description kind +:+ " " +:+ quoted p)%string;
  if negb (bool_decide (meta_type metadata = node_of kind)) then
    mret (Err ("private path is not a regular " +:+ description kind +:+ ": " +:+ quoted p)%string)
  else if negb (bool_decide (meta_uid metadata = geteuid)) then
    mret (Err ("private " +:+ description kind +:+ " " +:+ quoted p +:+ " is owned by uid " +:+ pretty (meta_uid metadata) +:+
                 ", expected effective uid " +:+ pretty geteuid)%string)
  else
  acl ←? has_extended_acl fuel h;
  if (acl : bool) then mret (Err ("private " +:+ description kind +:+ " " +:+ quoted p +:+ " has an extended ACL")%string)
  else if decide (meta_mode metadata = kind_mode kind) then mret (Ok tt)
  else if negb correct_mode then
    mret (Err ("private " +:+ description kind +:+ " " +:+ quoted p +:+ " has mode " +:+ octal04 (meta_mode metadata) +:+
                 ", expected " +:+ octal04 (kind_mode kind))%string)
  else correct_handle_mode h p kind.

Definition validate_private_file (fuel : nat) (h : Z) (p : PathBuf) : pm (result string unit) :=
  validate_private_handle fuel h p File true.

(** ** Walks *)

Definition open_directory_no_follow (p : PathBuf) : pm (result string Z) :=
  call (open_directory_no_follow_call p) (λ h, [RootOpened p h])
    (with_error ("cannot safely open private directory " +:+ quoted p)%string).

(** The only aliases that are followed are the root-owned [/var] and [/tmp]. *)
Definition rewrite_darwin_root_alias (components : list string) : pm (result string (list string)) :=
  match components with
  | first :: _ =>
      if negb (bool_decide (first = "var" ∨ first = "tmp")) then mret (Ok components) else
      let alias := ["/"; first]%string in
      metadata ←? call (symlink_metadata alias) (λ _, [])
        (with_error ("cannot inspect Darwin root alias " +:+ quoted alias)%string);
      if negb (bool_decide (meta_uid metadata = 0)) || negb (bool_decide (meta_type metadata = SymlinkNode)) then
        mret (Err ("Darwin root alias is not a root-owned symlink: " +:+ quoted alias)%string)
      else
      let expected := ["/"; "private"; first]%string in
      target ←? call (canonicalize alias) (λ _, [])
        (with_error ("cannot resolve Darwin root alias " +:+ quoted alias)%string);
      if decide (target = expected) then mret (Ok ("private"%string :: components))
      else mret (Err ("Darwin root alias " +:+ quoted alias +:+ " resolves outside " +:+ quoted expected +:+ ": " +:+
                        quoted target)%string)
  | [] => mret (Ok components)
  end.

(** Whether the path is absolute, and its names. *)
Fixpoint scan_components (p : PathBuf) (full : PathBuf) : result string (bool * list string) :=
  match p with
  | [] => Ok (false, [])
  | component :: p =>
      if decide (component = "/") then '(_, names) ← scan_components p full; Ok (true, names)
      else if decide (component = ".") then scan_components p full
      else if decide (component = "..") then Err ("private path must not contain '..': " +:+ quoted full)%string
      else '(absolute, names) ← scan_components p full; Ok (absolute, component :: names)
  end%string.

Definition path_walk (fuel : nat) (p : PathBuf) : pm (result string (Z * list string * PathBuf)) :=
  match scan_components p p with
  | Err error => mret (Err error)
  | Ok (_, []) => mret (Err ("private path must name a child directory: " +:+ quoted p)%string)
  | Ok (true, names) =>
      names ←? rewrite_darwin_root_alias names;
      handle ←? open_directory_no_follow ["/"%string];
      _ ←? validate_trusted_ancestor fuel handle ["/"%string];
      mret (Ok (handle, names, ["/"%string]))
  | Ok (false, names) =>
      current ←? call current_dir (λ _, []) (with_error "cannot resolve current directory");
      handle ←? open_directory_no_follow current;
      _ ←? validate_trusted_ancestor fuel handle current;
      mret (Ok (handle, names, current))
  end.

(** [openat] keeps its errno. *)
Definition open_at (parent : Z) (name : string) (mode : open_mode) : pm (result Z Z) :=
  r ← ask (openat parent name mode);
  match r with
  | Ok h => _ ← step (OpenedAt parent name mode h); mret (Ok h)
  | Err errno => mret (Err errno)
  end.

Definition open_directory_at (parent : Z) (name : string) : pm (result Z Z) := open_at parent name OpenDirectory.

Definition PERMISSION_RACE_DEADLINE : Z := 10 * NANOS_PER_MILLI.

Fixpoint open_retry (fuel : nat) (parent : Z) (name : string) (deadline : Z) : pm (result Z Z) :=
  match fuel with
  | O => starved
  | S fuel =>
      r ← open_directory_at parent name;
      match r with
      | Err errno =>
          if decide (errno = EACCES) then
            t ← ask instant_now;
            if decide (t < deadline) then _ ← ask (λ e, (tt, yield_now e)); open_retry fuel parent name deadline
            else mret r
          else mret r
      | Ok _ => mret r
      end
  end.

Definition open_directory_at_with_retry (fuel : nat) (parent : Z) (name : string) : pm (result Z Z) :=
  started ← ask instant_now;
  open_retry fuel parent name (default started (instant_checked_add started PERMISSION_RACE_DEADLINE)).

(** The ancestors below the start of a walk, each validated before the next. *)
Fixpoint walk_ancestors (fuel : nat) (what : string) (parent : Z) (resolved : PathBuf) (ancestors : list string)
    : pm (result string (Z * PathBuf)) :=
  match ancestors with
  | [] => mret (Ok (parent, resolved))
  | ancestor :: ancestors =>
      let resolved := resolved ++ [ancestor] in
      opened ← open_directory_at_with_retry fuel parent ancestor;
      match opened with
      | Err errno => mret (Err (with_errno ("cannot safely open " +:+ what +:+ " path ancestor " +:+ quoted resolved)%string errno))
      | Ok child =>
          _ ←? validate_trusted_ancestor fuel child resolved;
          walk_ancestors fuel what child resolved ancestors
      end
  end.

(** The walk to the parent of the last name. *)
Definition walk_to_last (fuel : nat) (what nameless : string) (p : PathBuf) : pm (result string (Z * string * PathBuf)) :=
  '(start, names, resolved) ←? path_walk fuel p;
  match last names with
  | None => mret (Err (nameless +:+ quoted p)%string)
  | Some name =>
      '(parent, resolved) ←? walk_ancestors fuel what start resolved (removelast names);
      mret (Ok (parent, name, resolved))
  end.

Definition secure_parent (fuel : nat) (p : PathBuf) : pm (result string (Z * string * PathBuf)) :=
  '(parent, name, resolved) ←? walk_to_last fuel "private" "private path has no filename: " p;
  _ ←? validate_private_handle fuel parent resolved Directory false;
  mret (Ok (parent, name, resolved ++ [name])).

(** ** Private directories *)

Definition sync (h : Z) (what : string) : pm (result string unit) :=
  call (fsync h) (λ _, [Synced h]) (with_error what).

(** An entry that is a directory of the effective user gets the private mode. *)
Definition prepare_directory_entry (parent : Z) (name : string) (p : PathBuf) : pm (result string unit) :=
  r ← inspect_entry parent name;
  match r with
  | Err errno => mret (Err (with_errno ("cannot inspect private directory entry " +:+ quoted p)%string errno))
  | Ok metadata =>
      if negb (bool_decide (meta_type metadata = DirectoryNode)) then
        mret (Err ("private directory entry is not a directory: " +:+ quoted p)%string)
      else if negb (bool_decide (meta_uid metadata = geteuid)) then
        mret (Err ("private directory " +:+ quoted p +:+ " is owned by uid " +:+ pretty (meta_uid metadata) +:+
                     ", expected effective uid " +:+ pretty geteuid)%string)
      else call (fchmodat_private parent name) (λ _, [EntryChmod parent name])
             (with_errno ("cannot set private directory mode for " +:+ quoted p)%string)
  end.

Definition create_or_join_private_directory (fuel : nat) (parent : Z) (name : string) (p : PathBuf) : pm (result string Z) :=
  made ← ask (mkdirat parent name);
  match made with
  | Err errno =>
      if decide (errno = EEXIST) then mret (Ok tt)
      else mret (Err (with_errno ("cannot create private directory " +:+ quoted p)%string errno))
  | Ok _ => _ ← step (MadeAt parent name); mret (Ok tt)
  end ≫= λ made, match made with
  | Err error => mret (Err error)
  | Ok _ =>
      _ ←? prepare_directory_entry parent name p;
      opened ← open_directory_at parent name;
      match opened with
      | Err errno => mret (Err (with_errno ("cannot open newly private directory " +:+ quoted p)%string errno))
      | Ok child =>
          _ ←? validate_private_handle fuel child p Directory true;
          _ ←? sync child ("cannot sync private directory " +:+ quoted p)%string;
          _ ←? sync parent ("cannot sync private directory parent for " +:+ quoted p)%string;
          mret (Ok child)
      end
  end.

(** A directory that could not be traversed is corrected by name, then opened. *)
Definition open_corrected (parent : Z) (name : string) (p : PathBuf) : pm (result string Z) :=
  _ ←? prepare_directory_entry parent name p;
  opened ← open_directory_at parent name;
  mret (map_err (with_errno ("cannot open corrected private directory " +:+ quoted p)%string) opened).

(** One component of [ensure_private_directory]; [creating] says whether an ancestor
    was missing. *)
Definition ensure_component (fuel : nat) (parent : Z) (name : string) (p : PathBuf) (creating is_final : bool)
    : pm (result string (Z * bool)) :=
  opened ← open_directory_at_with_retry fuel parent name;
  match opened with
  | Ok child =>
      _ ←? (if creating || is_final then validate_private_handle fuel child p Directory true
            else validate_trusted_ancestor fuel child p);
      mret (Ok (child, creating))
  | Err errno =>
      if bool_decide (errno = EACCES) && (creating || is_final) then
        child ←? open_corrected parent name p;
        _ ←? validate_private_handle fuel child p Directory true;
        mret (Ok (child, creating))
      else if decide (errno = ENOENT) then
        child ←? create_or_join_private_directory fuel parent name p;
        mret (Ok (child, true))
      else mret (Err (with_errno ("cannot safely open private directory " +:+ quoted p)%string errno))
  end.

Fixpoint ensure_walk (fuel : nat) (parent : Z) (resolved : PathBuf) (creating : bool) (names : list string)
    : pm (result string Z) :=
  match names with
  | [] => mret (Ok parent)
  | name :: names =>
      let resolved := resolved ++ [name] in
      '(child, creating) ←? ensure_component fuel parent name resolved creating (bool_decide (names = []));
      ensure_walk fuel child resolved creating names
  end.

(** The handle of the final directory is dropped; the theorems keep it. *)
Definition ensure_private_handle (fuel : nat) (p : PathBuf) : pm (result string Z) :=
  '(start, names, resolved) ←? path_walk fuel p;
  ensure_walk fuel start resolved false names.

Definition ensure_private_directory (fuel : nat) (p : PathBuf) : pm (result string unit) :=
  _ ←? ensure_private_handle fuel p;
  mret (Ok tt).

(** The report directories; the data directory is the parsed answer of
    [data_dir_path_from_environment]. *)
Definition data_dir (fuel : nat) (data_dir_path : result string PathBuf) : pm (result string PathBuf) :=
  match data_dir_path with
  | Err error => mret (Err error)
  | Ok dir => _ ←? ensure_private_directory fuel dir; mret (Ok dir)
  end.

Definition pending_dir_path (data_dir_path : result string PathBuf) : result string PathBuf :=
  data ← data_dir_path; Ok (data ++ ["crashes"; "pending"]%string).

Definition crashes_dir (fuel : nat) (data_dir_path : result string PathBuf) (name : string) : pm (result string PathBuf) :=
  data ←? data_dir fuel data_dir_path;
  let crashes := data ++ ["crashes"%string] in
  _ ←? ensure_private_directory fuel crashes;
  let dir := crashes ++ [name] in
  _ ←? ensure_private_directory fuel dir;
  mret (Ok dir).

Definition pending_dir (fuel : nat) (data_dir_path : result string PathBuf) : pm (result string PathBuf) :=
  crashes_dir fuel data_dir_path "pending".
Definition sent_dir (fuel : nat) (data_dir_path : result string PathBuf) : pm (result string PathBuf) :=
  crashes_dir fuel data_dir_path "sent".

Definition unlink_quietly (parent : Z) (name : string) (directory : bool) : pm unit :=
  r ← ask (unlinkat parent name directory);
  step (UnlinkedAt parent name (is_ok r)).

(** The part of a creation whose failure removes the entry again. *)
Definition or_unlink {A : Type} (parent : Z) (name : string) (directory : bool) (m : pm (result string A)) : pm (result string A) :=
  r ← m;
  match r with
  | Ok a => mret (Ok a)
  | Err error => _ ← unlink_quietly parent name directory; mret (Err error)
  end.

Definition create_private_directory (fuel : nat) (p : PathBuf) : pm (result string Z) :=
  '(parent, name, resolved) ←? secure_parent fuel p;
  _ ←? call (mkdirat parent name) (λ _, [MadeAt parent name])
         (with_errno ("cannot exclusively create private directory " +:+ quoted p)%string);
  directory ←? or_unlink parent name true
    (_ ←? prepare_directory_entry parent name resolved;
     opened ← open_directory_at parent name;
     match opened with
     | Err errno => mret (Err (with_errno ("cannot open new private directory " +:+ quoted p)%string errno))
     | Ok directory => _ ←? validate_private_handle fuel directory p Directory true; mret (Ok directory)
     end);
  _ ←? sync directory ("cannot sync private directory " +:+ quoted p)%string;
  _ ←? sync parent ("cannot sync private directory parent for " +:+ quoted p)%string;
  mret (Ok directory).

(** ** Private files *)

Definition create_private_file (fuel : nat) (p : PathBuf) : pm (result string Z) :=
  '(parent, name, _) ←? secure_parent fuel p;
  opened ← open_at parent name CreateNew;
  match opened with
  | Err errno => mret (Err (with_errno ("cannot create private file " +:+ quoted p)%string errno))
  | Ok file =>
      _ ←? or_unlink parent name false (validate_private_handle fuel file p File true);
      mret (Ok file)
  end.

Definition open_private_file_optional (fuel : nat) (p : PathBuf) : pm (result string (option Z)) :=
  '(parent, name, _) ←? secure_parent fuel p;
  opened ← open_at parent name OpenExisting;
  match opened with
  | Err errno =>
      if decide (errno = ENOENT) then mret (Ok None)
      else mret (Err (with_errno ("cannot safely open private file " +:+ quoted p)%string errno))
  | Ok file => _ ←? validate_private_file fuel file p; mret (Ok (Some file))
  end.

Definition open_private_file (fuel : nat) (p : PathBuf) : pm (result string Z) :=
  file ←? open_private_file_optional fuel p;
  mret match file with
       | Some file => Ok file
       | None => Err ("cannot safely open private file " +:+ quoted p +:+ ": not found")%string
       end.

Definition open_private_directory (fuel : nat) (p : PathBuf) : pm (result string Z) :=
  '(parent, name, ancestors) ←? walk_to_last fuel "private" "private directory has no name: " p;
  let resolved := ancestors ++ [name] in
  opened ← open_directory_at_with_retry fuel parent name;
  directory ←? (match opened with
                | Ok directory => mret (Ok directory)
                | Err errno =>
                    if decide (errno = EACCES) then open_corrected parent name resolved
                    else mret (Err (with_errno ("cannot safely open private directory " +:+ quoted resolved)%string errno))
                end);
  _ ←? validate_private_handle fuel directory resolved Directory true;
  mret (Ok directory).

Definition open_trusted_directory (fuel : nat) (p : PathBuf) : pm (result string Z) :=
  '(parent, name, ancestors) ←? walk_to_last fuel "trusted" "trusted directory has no name: " p;
  let resolved := ancestors ++ [name] in
  opened ← open_directory_at_with_retry fuel parent name;
  match opened with
  | Err errno => mret (Err (with_errno ("cannot safely open trusted directory " +:+ quoted resolved)%string errno))
  | Ok directory => _ ←? validate_trusted_output_directory fuel directory resolved; mret (Ok directory)
  end.

(** ** Publication *)

Definition rename_private_path_at (source : Z) (source_name : string) (dest : Z) (dest_name : string) (flags : Z)
    : pm (result string unit) :=
  r ← ask (renameatx_np source source_name dest dest_name flags);
  _ ← step (RenamedAt source source_name dest dest_name flags (is_ok r));
  mret r.

Definition publish_private_path_at source source_name dest dest_name : pm (result string unit) :=
  rename_private_path_at source source_name dest dest_name (Z.lor RENAME_EXCL RENAME_NOFOLLOW_ANY).
Definition restore_private_path_at source source_name dest dest_name : pm (result string unit) :=
  rename_private_path_at source source_name dest dest_name RENAME_EXCL.

(** Whether the name still is the node behind the descriptor. A negative device of the
    entry is an error. *)
Definition publish_entry_matches_handle (parent : Z) (name : string) (h : Z) (p : PathBuf) : pm (result string bool) :=
  named ← inspect_entry parent name;
  match named with
  | Err errno => mret (Err (with_errno "cannot inspect private publish entry" errno))
  | Ok named =>
      opened ←? inspect h ("cannot inspect opened private publish source " +:+ quoted p)%string;
      if decide (meta_dev named < 0) then mret (Err "private publish source device is negative"%string)
      else mret (Ok (bool_decide (meta_dev opened = meta_dev named) && bool_decide (meta_ino opened = meta_ino named)))
  end.

Definition open_validated_publish_source (fuel : nat) (parent : Z) (name : string) (p : PathBuf)
    : pm (result string (Z * PrivateNodeKind)) :=
  initial ← inspect_entry parent name;
  match initial with
  | Err errno => mret (Err (with_errno "cannot inspect private publish source" errno))
  | Ok initial =>
      match meta_type initial with
      | DirectoryNode => opened ← open_directory_at parent name; mret (map_err (with_errno "cannot safely open private publish source") ((λ h, (h, Directory)) <$> opened))
      | RegularNode => opened ← open_at parent name OpenExisting; mret (map_err (with_errno "cannot safely open private publish source") ((λ h, (h, File)) <$> opened))
      | _ => mret (Err ("private publish source is not a regular file or directory: " +:+ quoted p)%string)
      end ≫= λ opened, match opened with
      | Err error => mret (Err error)
      | Ok (h, kind) =>
          _ ←? validate_private_handle fuel h p kind false;
          matches ←? publish_entry_matches_handle parent name h p;
          mret (if (matches : bool) then Ok (h, kind)
                else Err ("private publish source changed during validation: " +:+ quoted p)%string)
      end
  end.

Definition remove_untrusted_publish_entry (parent : Z) (name : string) : pm (result string unit) :=
  r ← inspect_entry parent name;
  match r with
  | Err errno =>
      if decide (errno = ENOENT) then mret (Ok tt)
      else mret (Err (with_errno "cannot inspect raced publish entry" errno))
  | Ok metadata =>
      removed ← ask (unlinkat parent name (bool_decide (meta_type metadata = DirectoryNode)));
      _ ← step (UnlinkedAt parent name (is_ok removed));
      mret (map_err (with_errno "cannot unlink raced publish entry") removed)
  end.

(** A sync whose failure is only told. *)
Definition sync_told (h : Z) (what : string) : pm (result string unit) :=
  call (fsync h) (λ _, [Synced h]) (λ error, (what +:+ " (" +:+ error +:+ ")")%string).
Definition synced_or (h : Z) (what : string) : pm string :=
  r ← sync_told h what;
  mret match r with Ok _ => EmptyString | Err error => ("; " +:+ error)%string end.

(** Containment moves the entry aside, or unlinks it; the answer tells what happened. *)
Definition quarantine_publish_entry (parent : Z) (name : string) : pm string :=
  quarantine_name ← ask pending_name;
  moved ← restore_private_path_at parent name parent quarantine_name;
  match moved with
  | Ok _ =>
      sync ← synced_or parent "quarantine directory sync failed";
      mret ("; entry was contained as '" +:+ quarantine_name +:+ "'" +:+ sync)%string
  | Err quarantine_error =>
      removed ← remove_untrusted_publish_entry parent name;
      match removed with
      | Ok _ =>
          sync ← synced_or parent "containment directory sync failed";
          mret ("; quarantine rename failed (" +:+ quarantine_error +:+ "); entry was unlinked" +:+ sync)%string
      | Err remove_error =>
          mret ("; quarantine rename failed (" +:+ quarantine_error +:+ ") and containment unlink failed (" +:+
                  remove_error +:+ ")")%string
      end
  end.

Definition sync_publish_rollback_parents (current source : Z) : pm string :=
  first ← sync_told current "published-parent sync failed";
  second ← sync_told source "source-parent sync failed";
  mret match first, second with
       | Ok _, Ok _ => EmptyString
       | Err a, Ok _ | Ok _, Err a => ("; source restored but " +:+ a)%string
       | Err a, Err b => ("; source restored but " +:+ a +:+ "; " +:+ b)%string
       end.

Definition restore_validated_or_quarantine (current : Z) (current_name : string) (source : Z) (source_name : string) : pm string :=
  restored ← restore_private_path_at current current_name source source_name;
  match restored with
  | Ok _ => sync_publish_rollback_parents current source
  | Err restore_error =>
      contained ← quarantine_publish_entry current current_name;
      mret ("; source restoration failed (" +:+ restore_error +:+ ")" +:+ contained)%string
  end.

(** After a rename whose source lost its permissions: it goes back if it can be made
    private again and still is the entry, or is contained. *)
Definition contain_published (fuel : nat) (sp : Z) (sn : string) (dp : Z) (dn : string) (h : Z) (kind : PrivateNodeKind)
    (destination : PathBuf) : pm string :=
  repaired ← validate_private_handle fuel h destination kind true;
  match repaired with
  | Ok _ =>
      matches ← publish_entry_matches_handle dp dn h destination;
      match matches with
      | Ok true => restore_validated_or_quarantine dp dn sp sn
      | _ => quarantine_publish_entry dp dn
      end
  | Err repair_error =>
      contained ← quarantine_publish_entry dp dn;
      mret ("; private permission repair failed (" +:+ repair_error +:+ ")" +:+ contained)%string
  end.

(** Behind the rename: the entry is the validated source, and still private. *)
Definition verify_published (fuel : nat) (sp : Z) (sn : string) (dp : Z) (dn : string) (h : Z) (kind : PrivateNodeKind)
    (source destination : PathBuf) : pm (result string unit) :=
  matches ← publish_entry_matches_handle dp dn h destination;
  match matches with
  | Ok true =>
      private ← validate_private_handle fuel h destination kind false;
      match private with
      | Ok _ => mret (Ok tt)
      | Err error =>
          containment ← contain_published fuel sp sn dp dn h kind destination;
          mret (Err ("private publish source permissions changed during publication: " +:+ error +:+ containment)%string)
      end
  | Ok false =>
      containment ← quarantine_publish_entry dp dn;
      mret (Err ("private publish source changed after validation: " +:+ quoted source +:+ containment)%string)
  | Err error =>
      containment ← quarantine_publish_entry dp dn;
      mret (Err ("cannot verify private publish destination " +:+ quoted destination +:+ ": " +:+ error +:+ containment)%string)
  end.

Definition publish_private_path (fuel : nat) (source destination : PathBuf) : pm (result string unit) :=
  '(sp, sn, source_resolved) ←? secure_parent fuel source;
  '(dp, dn, destination_resolved) ←? secure_parent fuel destination;
  _ ←? validate_private_handle fuel sp (removelast source_resolved) Directory true;
  _ ←? validate_private_handle fuel dp (removelast destination_resolved) Directory true;
  '(h, kind) ←? open_validated_publish_source fuel sp sn source_resolved;
  renamed ← publish_private_path_at sp sn dp dn;
  match renamed with
  | Err error =>
      mret (Err ("cannot exclusively publish private path " +:+ quoted source +:+ " as " +:+ quoted destination +:+
                   ": " +:+ error)%string)
  | Ok _ => verify_published fuel sp sn dp dn h kind source destination
  end.

End Paths.
End Paths.
