(* ===== verification/PathsSpec.v ===== *)
(** * What a private handle is backed by

    A descriptor that the primitives of [Paths] hand out is backed by the steps of the
    same call: every directory on the way was opened relative to the one before, without
    following links, and found trusted or private; the node itself has the right type,
    the effective user as its owner, no extended ACL and exactly the private mode. *)

From stdpp Require Import pretty.
From S2P Require Import Prelude.
From S2P Require Import Traced.
From S2P Require Import Fueled.
From S2P Require Import PipelineTypes.
From S2P Require Import PluginRun.
From S2P Require Import Paths.

Module PathsSpec.
Export Paths.

(** A step is in a trace, or a trace in another. *)
Ltac in_trace := try (intros ? ?); rewrite ?elem_of_app, ?elem_of_cons; auto 12.

Section Evidence.
Context {E : Type} {clock : Clock E} {ops : PathOps E}.
#[local] Notation pm := (fueled E PathStep).

(** ** Evidence in a trace *)

Definition trusted (l : list PathStep) (h : Z) : Prop :=
  ∃ m access, Inspected h (Ok m) ∈ l ∧ trusted_ancestor_metadata m = true ∧
    AclRead h (Ok access) ∈ l ∧ access ≠ Allows.

Definition private (l : list PathStep) (kind : PrivateNodeKind) (h : Z) : Prop :=
  ∃ m m', Inspected h (Ok m) ∈ l ∧ meta_type m = node_of kind ∧ meta_uid m = geteuid ∧
    AclRead h (Ok AclNone) ∈ l ∧ Inspected h (Ok m') ∈ l ∧ meta_mode m' = kind_mode kind.

(** A directory of the caller's choice, whose mode is kept. *)
Definition trusted_output (l : list PathStep) (h : Z) : Prop :=
  ∃ m access, Inspected h (Ok m) ∈ l ∧ meta_type m = DirectoryNode ∧
    (meta_uid m = geteuid ∨ meta_uid m = 0) ∧ Z.land (meta_mode m) 18 = 0 ∧
    AclRead h (Ok access) ∈ l ∧ access ≠ Allows.

(** A directory that was reached from the start of a walk, component by component. *)
Inductive reached (l : list PathStep) : PathBuf → Z → Prop :=
| reached_start p h : RootOpened p h ∈ l → trusted l h → reached l p h
| reached_child p parent name h :
    reached l p parent → OpenedAt parent name OpenDirectory h ∈ l → trusted l h ∨ private l Directory h →
    reached l (p ++ [name]) h.

Lemma trusted_mono l l' h : l ⊆ l' → trusted l h → trusted l' h.
Proof. intros Hl (m & a & H1 & H2 & H3 & H4). exists m, a. auto. Qed.
Lemma private_mono l l' kind h : l ⊆ l' → private l kind h → private l' kind h.
Proof. intros Hl (m & m' & H1 & H2 & H3 & H4 & H5 & H6). exists m, m'. split_and!; auto. Qed.
Lemma trusted_output_mono l l' h : l ⊆ l' → trusted_output l h → trusted_output l' h.
Proof. intros Hl (m & a & H1 & H2 & H3 & H4 & H5 & H6). exists m, a. split_and!; auto. Qed.
Lemma reached_mono l l' p h : l ⊆ l' → reached l p h → reached l' p h.
Proof.
  intros Hl. induction 1 as [p h Ho Ht|p parent name h _ IH Ho Ht].
  - apply reached_start; [auto|by eapply trusted_mono].
  - eapply reached_child; [done|by apply Hl|]. destruct Ht; [left; by eapply trusted_mono|right; by eapply private_mono].
Qed.

Lemma sub_l (l l' : list PathStep) : l ⊆ l ++ l'.
Proof. intros x Hx. apply elem_of_app. by left. Qed.
Lemma sub_r (l l' : list PathStep) : l' ⊆ l ++ l'.
Proof. intros x Hx. apply elem_of_app. by right. Qed.

(** ** Computations that give evidence *)

Definition gives {e A : Type} (Q : list PathStep → A → Prop) (m : pm (result e A)) : Prop :=
  ends (λ l r, ∀ a, r = Ok a → Q l a) m.

Lemma gives_bind {A B : Type} (P : list PathStep → A → Prop) (Q : list PathStep → B → Prop)
    (m : pm (result string A)) (f : A → pm (result string B)) :
  gives P m → (∀ l a, P l a → gives (λ l' b, Q (l ++ l') b) (f a)) → gives Q (a ←? m; f a).
Proof.
  intros Hm Hf. eapply ends_bind; [exact Hm|]. intros l [a|error] HP; [by apply Hf, HP|]. by apply ends_ret.
Qed.

Lemma gives_ok {e A : Type} (Q : list PathStep → A → Prop) a : Q [] a → gives Q (mret (Ok a) : pm (result e A)).
Proof. intros H. apply ends_ret. by intros ? [= <-]. Qed.
Lemma gives_err {e A : Type} (Q : list PathStep → A → Prop) (error : e) : gives Q (mret (Err error)).
Proof. by apply ends_ret. Qed.
Lemma gives_impl {e A : Type} (P Q : list PathStep → A → Prop) (m : pm (result e A)) : gives P m → (∀ l a, P l a → Q l a) → gives Q m.
Proof. intros Hm H. eapply ends_impl; [exact Hm|]. auto. Qed.

(** A result whose errors are matched. *)
Lemma gives_match {e A B : Type} (P : list PathStep → A → Prop) (Q : list PathStep → B → Prop)
    (m : pm (result e A)) (f : A → pm (result string B)) (g : e → pm (result string B)) :
  gives P m → (∀ l a, P l a → gives (λ l' b, Q (l ++ l') b) (f a)) → (∀ l error, gives (λ l' b, Q (l ++ l') b) (g error)) →
  gives Q (r ← m; match r with Ok a => f a | Err error => g error end).
Proof.
  intros Hm Hf Hg. eapply ends_bind; [exact Hm|]. intros l [a|error] HP; [by apply Hf, HP|apply Hg].
Qed.

Lemma gives_call {A e : Type} (f : E → result e A * E) note text : gives (λ l a, l = note a) (call f note text).
Proof.
  apply ends_quiet; [auto with cm|]. intros [a|error]; [|apply gives_err].
  apply (ends_bind (λ l _, l = note a)).
  - induction (note a) as [|s l IH]; [by apply ends_ret|]. apply ends_step. eapply ends_impl; [exact IH|]. by intros ? ? ->.
  - intros l [] ->. apply ends_ret. rewrite app_nil_r. by intros ? [= <-].
Qed.

(** A call whose steps do not matter. *)
Lemma gives_any {A e : Type} (f : E → result e A * E) note text : gives (λ _ _, True) (call f note text).
Proof. eapply gives_impl; [apply gives_call|]. done. Qed.

Lemma gives_inspect h prefix : gives (λ l m, Inspected h (Ok m) ∈ l) (inspect h prefix).
Proof.
  apply ends_quiet; [auto with cm|]. intros r. apply ends_step, ends_ret. intros m Hm.
  destruct r; simplify_eq/=. apply elem_of_cons. by left.
Qed.

Lemma gives_acl fuel h : gives (λ l access, AclRead h (Ok access) ∈ l) (extended_acl_access fuel h).
Proof.
  eapply (ends_bind (λ _ _, True)).
  { eapply ends_impl; [|done]. instantiate (1 := λ _ _, True). intros w.
    assert (∀ (A : Type) (m : pm A), quiet m → ∃ l, trace (m w).2 = trace w ++ l ∧ ∀ a, (m w).1 = Some a → True) as Hq.
    { intros A m Hm. exists []. by rewrite app_nil_r, Hm. }
    apply Hq. apply fueled_quiet_bind; [auto with cm|]. intros [acl|]; [|case_decide; auto with cm].
    apply fueled_quiet_bind; [|intros; apply fueled_quiet_bind; auto with cm].
    assert (∀ n id access, quiet (acl_entries n acl id access)) as Hentries; [|apply Hentries].
    induction n as [|n IH]; intros id access; [auto with cm|]. apply fueled_quiet_bind; [auto with cm|].
    intros []; [|case_decide; auto with cm|auto with cm]. apply fueled_quiet_bind; [auto with cm|].
    intros []; [|auto with cm]. repeat case_decide; auto with cm. }
  intros l r _. apply ends_step, ends_ret. intros access ->. rewrite elem_of_app, elem_of_cons. auto.
Qed.

Lemma gives_allowing fuel h :
  gives (λ l b, ∃ access, AclRead h (Ok access) ∈ l ∧ b = bool_decide (access = Allows)) (has_allowing_extended_acl fuel h).
Proof.
  eapply gives_bind; [apply gives_acl|]. intros l access Ha. apply gives_ok. exists access. by rewrite app_nil_r.
Qed.

Lemma gives_extended fuel h :
  gives (λ l b, ∃ access, AclRead h (Ok access) ∈ l ∧ b = negb (bool_decide (access = AclNone))) (has_extended_acl fuel h).
Proof.
  eapply gives_bind; [apply gives_acl|]. intros l access Ha. apply gives_ok. exists access. by rewrite app_nil_r.
Qed.

Lemma gives_trusted fuel h p : gives (λ l _, trusted l h) (validate_trusted_ancestor fuel h p).
Proof.
  eapply gives_bind; [apply gives_inspect|]. intros l m Hm.
  destruct (trusted_ancestor_metadata m) eqn:Ht; [|apply gives_err]. cbn [negb].
  eapply gives_bind; [apply gives_allowing|].
  intros l2 b (access & Ha & ->). case_bool_decide as Hallow; [apply gives_err|]. apply gives_ok.
  exists m, access. rewrite app_nil_r, !elem_of_app. auto.
Qed.

Lemma gives_private fuel h p kind correct : gives (λ l _, private l kind h) (validate_private_handle fuel h p kind correct).
Proof.
  eapply gives_bind; [apply gives_inspect|]. intros l m Hm.
  case_bool_decide as Hty; [|apply gives_err]. cbn [negb]. case_bool_decide as Huid; [|apply gives_err]. cbn [negb].
  eapply gives_bind; [apply gives_extended|].
  intros l2 b (access & Ha & ->). case_bool_decide as Hnone; [|apply gives_err]. subst access. cbn [negb].
  case_decide as Hmode.
  { apply gives_ok. exists m, m. rewrite app_nil_r, !elem_of_app. split_and!; auto. }
  destruct correct; [|apply gives_err]. cbn [negb].
  eapply gives_bind; [apply gives_any|]. intros l3 _ _. eapply gives_bind; [apply gives_inspect|]. intros l4 m' Hm'.
  case_decide as Hmode'; [|apply gives_err]. apply gives_ok. exists m, m'. rewrite app_nil_r, !elem_of_app. split_and!; auto.
Qed.

Lemma gives_trusted_output fuel h p : gives (λ l _, trusted_output l h) (validate_trusted_output_directory fuel h p).
Proof.
  eapply gives_bind; [apply gives_inspect|]. intros l m Hm.
  case_bool_decide as Hty; [|apply gives_err]. cbn [negb].
  destruct (negb (bool_decide (meta_uid m = geteuid)) && negb (bool_decide (meta_uid m = 0))) eqn:Huid; [apply gives_err|].
  destruct (negb (bool_decide (Z.land (meta_mode m) 320 = 320)) || negb (bool_decide (Z.land (meta_mode m) 18 = 0))) eqn:Hmode;
    [apply gives_err|].
  assert (meta_uid m = geteuid ∨ meta_uid m = 0) as Hown.
  { apply andb_false_iff in Huid as [Huid|Huid]; apply negb_false_iff, bool_decide_eq_true in Huid; auto. }
  clear Huid. apply orb_false_iff in Hmode as [_ Hmode]. apply negb_false_iff, bool_decide_eq_true in Hmode.
  eapply gives_bind; [apply gives_allowing|].
  intros l2 b (access & Ha & ->). case_bool_decide as Hallow; [apply gives_err|]. apply gives_ok.
  exists m, access. rewrite app_nil_r, !elem_of_app. split_and!; auto.
Qed.

(** ** Walks *)

Lemma gives_open parent name mode : gives (λ l h, OpenedAt parent name mode h ∈ l) (open_at parent name mode).
Proof.
  apply ends_quiet; [auto with cm|]. intros [h|errno]; [|apply gives_err]. apply ends_step, gives_ok.
  apply elem_of_cons. by left.
Qed.

Lemma gives_open_retry fuel parent name deadline :
  gives (λ l h, OpenedAt parent name OpenDirectory h ∈ l) (open_retry fuel parent name deadline).
Proof.
  induction fuel as [|fuel IH]; [apply ends_starved|]. eapply ends_bind; [apply gives_open|].
  intros l [h|errno] H; [apply gives_ok; rewrite app_nil_r; by apply H|].
  case_decide; [|apply gives_err]. apply ends_quiet; [auto with cm|]. intros t. case_decide; [|apply gives_err].
  apply ends_quiet; [auto with cm|]. intros _. eapply gives_impl; [exact IH|]. intros l' h Hh. apply elem_of_app. by right.
Qed.

Lemma gives_open_with_retry fuel parent name :
  gives (λ l h, OpenedAt parent name OpenDirectory h ∈ l) (open_directory_at_with_retry fuel parent name).
Proof. apply ends_quiet; [auto with cm|]. intros t. apply gives_open_retry. Qed.

Lemma gives_start fuel p prefix :
  gives (λ l h, reached l p h)
    (handle ←? open_directory_no_follow p; _ ←? validate_trusted_ancestor fuel handle prefix; mret (Ok handle)).
Proof.
  eapply gives_bind; [apply gives_call|]. intros l h ->. eapply gives_bind; [apply gives_trusted|]. intros l2 [] Ht.
  apply gives_ok. rewrite app_nil_r. apply reached_start; [by left|]. eapply trusted_mono; [apply sub_r|done].
Qed.

(** The names a path stands for: its own, behind the root, the target of a root alias
    or the current directory. *)
Definition resolves (p q : PathBuf) : Prop :=
  ∃ absolute names, scan_components p p = Ok (absolute, names) ∧
    if (absolute : bool) then q = "/"%string :: names ∨ q = "/"%string :: "private"%string :: names
    else ∃ current, q = current ++ names.

Lemma gives_path_walk fuel p :
  gives (λ l a, reached l a.2 a.1.1 ∧ resolves p (a.2 ++ a.1.2) ∧ a.1.2 ≠ []) (path_walk fuel p).
Proof.
  unfold path_walk, resolves. destruct (scan_components p p) as [[[|] [|name names]]|] eqn:Hscan; try apply gives_err.
  - eapply (gives_bind (λ _ names', names' = name :: names ∨ names' = "private"%string :: name :: names)).
    { unfold rewrite_darwin_root_alias. case_match; [apply gives_ok; by left|].
      eapply gives_bind; [apply gives_any|]. intros l m _. case_match; [apply gives_err|].
      eapply gives_bind; [apply gives_any|]. intros l2 t _. destruct (decide (t = _)); [|apply gives_err].
      apply gives_ok. by right. }
    intros l names' Hnames. eapply gives_bind; [apply gives_call|]. intros l2 h ->.
    eapply gives_bind; [apply gives_trusted|]. intros l3 [] Ht. apply gives_ok. rewrite app_nil_r. cbn [fst snd].
    split_and!; [| |by destruct Hnames as [-> | ->]].
    + apply reached_start; [in_trace|]. eapply trusted_mono; [|exact Ht]. in_trace.
    + exists true, (name :: names). split; [done|]. destruct Hnames as [-> | ->]; auto.
  - eapply gives_bind; [apply gives_any|]. intros l current _. eapply gives_bind; [apply gives_call|]. intros l2 h ->.
    eapply gives_bind; [apply gives_trusted|]. intros l3 [] Ht. apply gives_ok. rewrite app_nil_r. cbn [fst snd].
    split_and!; [| |done].
    + apply reached_start; [in_trace|]. eapply trusted_mono; [|exact Ht]. in_trace.
    + exists false, (name :: names). split; [done|]. by exists current.
Qed.

Lemma gives_walk_ancestors fuel what parent resolved ancestors l0 :
  reached l0 resolved parent →
  gives (λ l a, reached (l0 ++ l) a.2 a.1 ∧ a.2 = resolved ++ ancestors) (walk_ancestors fuel what parent resolved ancestors).
Proof.
  revert parent resolved l0. induction ancestors as [|name ancestors IH]; intros parent resolved l0 Hr.
  { apply gives_ok. by rewrite !app_nil_r. }
  eapply gives_match; [apply gives_open_with_retry| |intros; apply gives_err]. intros l h Ho.
  eapply gives_bind; [apply gives_trusted|]. intros l2 [] Ht.
  eapply gives_impl; [apply (IH h (resolved ++ [name]) (l0 ++ l ++ l2))|].
  - eapply reached_child; [eapply reached_mono; [apply sub_l|exact Hr]|rewrite !elem_of_app; eauto|].
    left. eapply trusted_mono; [|exact Ht]. in_trace.
  - intros l3 a. cbn beta. by rewrite <-!app_assoc.
Qed.

Lemma gives_walk_to_last fuel what nameless p :
  gives (λ l a, reached l a.2 a.1.1 ∧ resolves p (a.2 ++ [a.1.2])) (walk_to_last fuel what nameless p).
Proof.
  eapply gives_bind; [apply gives_path_walk|]. intros l [[start names] resolved] (Hr & Hq & Hn). cbn [fst snd] in Hr, Hq, Hn.
  destruct (last names) as [name|] eqn:Hlast; [|apply gives_err].
  eapply gives_bind; [by apply gives_walk_ancestors|]. intros l2 [parent resolved'] [H Hres]. cbn [fst snd] in H, Hres.
  apply gives_ok. rewrite app_nil_r. cbn [fst snd]. split; [done|]. rewrite Hres, <-app_assoc.
  apply last_Some in Hlast as (front & ->). by rewrite removelast_last in *.
Qed.

Lemma gives_secure_parent fuel p :
  gives (λ l a, ∃ q, reached l q a.1.1 ∧ private l Directory a.1.1 ∧ a.2 = q ++ [a.1.2] ∧ resolves p (q ++ [a.1.2]))
    (secure_parent fuel p).
Proof.
  eapply gives_bind; [apply gives_walk_to_last|]. intros l [[parent name] resolved] [Hr Hq].
  eapply gives_bind; [apply gives_private|]. intros l2 [] Hp. apply gives_ok. rewrite app_nil_r. exists resolved. cbn [fst snd].
  split_and!; [eapply reached_mono; [apply sub_l|done]|eapply private_mono; [apply sub_r|done]|done|done].
Qed.

(** ** Directories and files *)

Lemma gives_prepare parent name p : gives (λ _ _, True) (prepare_directory_entry parent name p).
Proof.
  eapply (ends_bind (λ _ _, True)).
  - apply ends_quiet; [auto with cm|]. intros r. apply ends_step, ends_ret. done.
  - intros l [m|errno] _; [|apply gives_err]. case_match; [apply gives_err|]. case_match; [apply gives_err|].
    eapply gives_impl; [apply gives_any|]. done.
Qed.

Lemma gives_sync h what : gives (λ _ _, True) (sync h what).
Proof. apply gives_any. Qed.

(** What an opened and validated child has for it. *)
Definition private_at (l : list PathStep) (parent : Z) (name : string) (h : Z) : Prop :=
  OpenedAt parent name OpenDirectory h ∈ l ∧ private l Directory h.

Lemma private_at_mono l l' parent name h : l ⊆ l' → private_at l parent name h → private_at l' parent name h.
Proof. intros Hl [H1 H2]. split; [auto|by eapply private_mono]. Qed.

Lemma gives_create_or_join fuel parent name p :
  gives (λ l h, private_at l parent name h) (create_or_join_private_directory fuel parent name p).
Proof.
  apply ends_quiet; [auto with cm|]. intros made. eapply (ends_bind (λ _ _, True)).
  { destruct made as [[]|errno]; [by apply ends_step, ends_ret|]. case_decide; by apply ends_ret. }
  intros l [[]|error] _; [|apply gives_err]. eapply gives_bind; [apply gives_prepare|]. intros l2 [] _.
  eapply gives_match; [apply gives_open| |intros; apply gives_err]. intros l3 h Ho.
  eapply gives_bind; [apply gives_private|]. intros l4 [] Hp.
  eapply gives_bind; [apply gives_sync|]. intros l5 [] _. eapply gives_bind; [apply gives_sync|]. intros l6 [] _.
  apply gives_ok. split; [rewrite !elem_of_app; auto 8|]. eapply private_mono; [|exact Hp]. in_trace.
Qed.

Lemma gives_open_corrected parent name p :
  gives (λ l h, OpenedAt parent name OpenDirectory h ∈ l) (open_corrected parent name p).
Proof.
  eapply gives_bind; [apply gives_prepare|]. intros l [] _. eapply ends_bind; [apply gives_open|].
  intros l2 [h|errno] H; apply ends_ret; [|done]. intros ? [= <-]. rewrite !elem_of_app. right. left. by apply H.
Qed.

Lemma gives_ensure_component fuel parent name p creating is_final :
  gives (λ l a, OpenedAt parent name OpenDirectory a.1 ∈ l ∧
     (trusted l a.1 ∨ private l Directory a.1) ∧ (is_final = true → private l Directory a.1))
    (ensure_component fuel parent name p creating is_final).
Proof.
  eapply gives_match; [apply gives_open_with_retry| |].
  - intros l h Ho. destruct (creating || is_final) eqn:Hc.
    + eapply gives_bind; [apply gives_private|]. intros l2 [] Hp. apply gives_ok. rewrite app_nil_r. cbn [fst].
      apply (private_mono _ (l ++ l2)) in Hp; [|apply sub_r]. rewrite elem_of_app. auto.
    + eapply gives_bind; [apply gives_trusted|]. intros l2 [] Ht. apply gives_ok. rewrite app_nil_r. cbn [fst].
      apply (trusted_mono _ (l ++ l2)) in Ht; [|apply sub_r]. rewrite elem_of_app. split_and!; auto.
      intros ->. by rewrite orb_true_r in Hc.
  - intros l errno. case_match.
    + eapply gives_bind; [apply gives_open_corrected|]. intros l2 h Ho. eapply gives_bind; [apply gives_private|].
      intros l3 [] Hp. apply gives_ok. rewrite app_nil_r. cbn [fst].
      apply (private_mono _ (l ++ l2 ++ l3)) in Hp; [|in_trace]. rewrite !elem_of_app. auto.
    + destruct (decide (errno = ENOENT)); [|apply gives_err]. eapply gives_bind; [apply gives_create_or_join|]. intros l2 h [Ho Hp].
      apply gives_ok. rewrite app_nil_r. cbn [fst].
      apply (private_mono _ (l ++ l2)) in Hp; [|apply sub_r]. rewrite elem_of_app. auto.
Qed.

Lemma gives_ensure_walk fuel parent resolved creating names l0 :
  reached l0 resolved parent →
  gives (λ l h, reached (l0 ++ l) (resolved ++ names) h ∧ (if decide (names = []) then h = parent else private (l0 ++ l) Directory h))
    (ensure_walk fuel parent resolved creating names).
Proof.
  revert parent resolved creating l0. induction names as [|name names IH]; intros parent resolved creating l0 Hr.
  { apply gives_ok. by rewrite !app_nil_r. }
  eapply gives_bind; [apply gives_ensure_component|]. intros l [child creating'] (Ho & Ht & Hp). cbn [fst] in Ho, Ht, Hp.
  eapply gives_impl; [apply (IH child (resolved ++ [name]) creating' (l0 ++ l))|].
  - eapply reached_child; [eapply reached_mono; [apply sub_l|exact Hr]|rewrite !elem_of_app; eauto|].
    destruct Ht; [left; eapply trusted_mono; [apply sub_r|done]|right; eapply private_mono; [apply sub_r|done]].
  - intros l2 h. cbn beta. rewrite <-!app_assoc. intros [H1 H2]. split; [done|]. destruct names; [|done]. simpl in H2. subst.
    eapply private_mono; [|apply Hp; by rewrite bool_decide_eq_true_2]. in_trace.
Qed.

(** ** What an operation hands out *)

(** A private node that was opened below a private directory. *)
Definition private_child (l : list PathStep) (p : PathBuf) (kind : PrivateNodeKind) (mode : open_mode) (h : Z) : Prop :=
  ∃ q parent name, resolves p (q ++ [name]) ∧ reached l q parent ∧ private l Directory parent ∧
    OpenedAt parent name mode h ∈ l ∧ private l kind h.

(** A directory that a walk reached. *)
Definition private_directory (l : list PathStep) (p : PathBuf) (h : Z) : Prop :=
  ∃ q, resolves p q ∧ reached l q h ∧ private l Directory h.

(** An existing directory with its own mode. *)
Definition output_directory (l : list PathStep) (p : PathBuf) (h : Z) : Prop :=
  ∃ q parent name, resolves p (q ++ [name]) ∧ reached l q parent ∧
    OpenedAt parent name OpenDirectory h ∈ l ∧ trusted_output l h.

Lemma gives_ensure fuel p : gives (λ l h, private_directory l p h) (ensure_private_handle fuel p).
Proof.
  eapply gives_bind; [apply gives_path_walk|]. intros l [[start names] resolved] (Hr & Hq & Hn). cbn [fst snd] in Hr, Hq, Hn.
  eapply gives_impl; [by apply gives_ensure_walk|]. intros l2 h [H1 H2]. rewrite decide_False in H2 by done. by exists (resolved ++ names).
Qed.

Lemma gives_or_unlink {A : Type} (P : list PathStep → A → Prop) parent name directory (m : pm (result string A)) :
  gives P m → gives P (or_unlink parent name directory m).
Proof.
  intros Hm. eapply ends_bind; [exact Hm|]. intros l [a|error] H.
  - apply ends_ret. rewrite app_nil_r. exact H.
  - apply (ends_bind (λ _ _, True)); [|intros; by apply ends_ret].
    apply ends_quiet; [auto with cm|]. intros r w. by exists [UnlinkedAt parent name (is_ok r)].
Qed.

(** The last steps of a creation: the node below its parent. *)
Lemma child_of l q parent name p kind mode h l2 l3 l4 :
  resolves p (q ++ [name]) → reached l q parent → private l Directory parent →
  OpenedAt parent name mode h ∈ l2 → private l3 kind h → l ⊆ l4 → l2 ⊆ l4 → l3 ⊆ l4 → private_child l4 p kind mode h.
Proof.
  intros Hq Hr Hp Ho Hh H1 H2 H3. exists q, parent, name.
  split_and!; [done|exact (reached_mono _ _ _ _ H1 Hr)|exact (private_mono _ _ _ _ H1 Hp)|by apply H2|exact (private_mono _ _ _ _ H3 Hh)].
Qed.

Lemma gives_create_directory fuel p :
  gives (λ l h, private_child l p Directory OpenDirectory h) (create_private_directory fuel p).
Proof.
  eapply gives_bind; [apply gives_secure_parent|]. intros l [[parent name] resolved] (q & Hr & Hp & _ & Hq).
  eapply gives_bind; [apply gives_any|]. intros l2 _ _.
  eapply (gives_bind (λ l h, OpenedAt parent name OpenDirectory h ∈ l ∧ private l Directory h)).
  { apply gives_or_unlink. eapply gives_bind; [apply gives_prepare|]. intros l3 [] _.
    eapply gives_match; [apply gives_open| |intros; apply gives_err]. intros l4 h Ho.
    eapply gives_bind; [apply gives_private|]. intros l5 [] Hh. apply gives_ok. rewrite app_nil_r.
    split; [in_trace|]. eapply private_mono; [|exact Hh]. in_trace. }
  intros l3 h [Ho Hh]. eapply gives_bind; [apply gives_sync|]. intros l4 [] _. eapply gives_bind; [apply gives_sync|]. intros l5 [] _.
  apply gives_ok. eapply child_of; [exact Hq|exact Hr|exact Hp|exact Ho|exact Hh|in_trace..].
Qed.

Lemma gives_create_file fuel p : gives (λ l h, private_child l p File CreateNew h) (create_private_file fuel p).
Proof.
  eapply gives_bind; [apply gives_secure_parent|]. intros l [[parent name] resolved] (q & Hr & Hp & _ & Hq).
  eapply gives_match; [apply gives_open| |intros; apply gives_err]. intros l2 h Ho.
  eapply gives_bind; [apply gives_or_unlink, gives_private|]. intros l3 [] Hh.
  apply gives_ok. eapply child_of; [exact Hq|exact Hr|exact Hp|exact Ho|exact Hh|in_trace..].
Qed.

Lemma gives_open_optional fuel p :
  gives (λ l o, ∀ h, o = Some h → private_child l p File OpenExisting h) (open_private_file_optional fuel p).
Proof.
  eapply gives_bind; [apply gives_secure_parent|]. intros l [[parent name] resolved] (q & Hr & Hp & _ & Hq).
  eapply gives_match; [apply gives_open| |].
  - intros l2 h Ho. eapply gives_bind; [apply gives_private|]. intros l3 [] Hh.
    apply gives_ok. intros ? [= <-]. eapply child_of; [exact Hq|exact Hr|exact Hp|exact Ho|exact Hh|in_trace..].
  - intros l2 errno. destruct (decide (errno = ENOENT)); [by apply gives_ok|apply gives_err].
Qed.

Lemma gives_open_file fuel p : gives (λ l h, private_child l p File OpenExisting h) (open_private_file fuel p).
Proof.
  eapply gives_bind; [apply gives_open_optional|]. intros l [h|] H; [|apply gives_err].
  apply gives_ok. rewrite app_nil_r. by apply H.
Qed.

Lemma gives_open_directory fuel p : gives (λ l h, private_directory l p h) (open_private_directory fuel p).
Proof.
  eapply gives_bind; [apply gives_walk_to_last|]. intros l [[parent name] ancestors] [Hr Hq]. cbn [fst snd] in Hr, Hq.
  eapply ends_bind; [apply gives_open_with_retry|]. intros l2 opened Ho.
  eapply (gives_bind (λ l' h, OpenedAt parent name OpenDirectory h ∈ l2 ++ l')).
  { destruct opened as [h|errno]; [apply gives_ok; rewrite app_nil_r; by apply Ho|].
    destruct (decide (errno = EACCES)); [|apply gives_err].
    eapply gives_impl; [apply gives_open_corrected|]. intros l' h Hh. in_trace. }
  intros l3 h Hh. eapply gives_bind; [apply gives_private|]. intros l4 [] Hp. apply gives_ok. rewrite app_nil_r.
  exists (ancestors ++ [name]). split; [done|].
  assert (private (l ++ l2 ++ l3 ++ l4) Directory h) as Hp' by (eapply private_mono; [|exact Hp]; in_trace).
  split; [|done]. eapply reached_child; [eapply reached_mono; [apply sub_l|exact Hr]| |by right].
  rewrite elem_of_app in Hh. destruct Hh; in_trace.
Qed.

Lemma gives_open_output fuel p : gives (λ l h, output_directory l p h) (open_trusted_directory fuel p).
Proof.
  eapply gives_bind; [apply gives_walk_to_last|]. intros l [[parent name] ancestors] [Hr Hq]. cbn [fst snd] in Hr, Hq.
  eapply gives_match; [apply gives_open_with_retry| |intros; apply gives_err]. intros l2 h Ho.
  eapply gives_bind; [apply gives_trusted_output|]. intros l3 [] Ht. apply gives_ok. rewrite app_nil_r.
  exists ancestors, parent, name.
  split_and!; [done|eapply reached_mono; [apply sub_l|done]|in_trace|eapply trusted_output_mono; [|exact Ht]; in_trace].
Qed.

End Evidence.

(** ** Answers within a budget

    The budget is the entries that ACLs still have. A refused open is tried again for 10 ms:
    time does not go back, and a yield takes at least a nanosecond of it. *)

Class PathTime (E : Type) {clock : Clock E} {ops : PathOps E} (elapsed : E → Z) : Prop := {
  now_elapsed e : elapsed e ≤ (instant_now e).1 ≤ elapsed (instant_now e).2;
  openat_elapsed parent name mode e : elapsed e ≤ elapsed (openat parent name mode e).2;
  yield_elapsed e : elapsed e < elapsed (yield_now e)
}.

Class PathLaws (E : Type) {clock : Clock E} {ops : PathOps E} (budget : E → nat) : Prop := {
  law_now : calm budget instant_now;
  law_cwd : calm budget current_dir;
  law_root p : calm budget (open_directory_no_follow_call p);
  law_metadata p : calm budget (symlink_metadata p);
  law_canonicalize p : calm budget (canonicalize p);
  law_openat parent name mode : calm budget (openat parent name mode);
  law_mkdirat parent name : calm budget (mkdirat parent name);
  law_unlinkat parent name directory : calm budget (unlinkat parent name directory);
  law_fstatat parent name : calm budget (fstatat parent name);
  law_fchmodat parent name : calm budget (fchmodat_private parent name);
  law_fstat h : calm budget (fstat h);
  law_permissions h mode : calm budget (set_permissions h mode);
  law_fsync h : calm budget (fsync h);
  law_rename s sn d dn flags : calm budget (renameatx_np s sn d dn flags);
  law_acl h : calm budget (acl_get_fd_np h);
  law_entry acl id e : (budget (acl_get_entry acl id e).2 ≤ budget e ∧
    ((∃ entry, (acl_get_entry acl id e).1 = AclEntry entry) → budget (acl_get_entry acl id e).2 < budget e))%nat;
  law_tag entry : calm budget (acl_get_tag_type entry);
  law_free acl : calm budget (acl_free acl);
  law_pending : calm budget pending_name;
  law_yield e : (budget (yield_now e) ≤ budget e)%nat
}.

Section Answers.
Context {E : Type} {clock : Clock E} {ops : PathOps E} {budget : E → nat} {elapsed : E → Z}
  {time : PathTime E elapsed} {laws : PathLaws E budget}.
#[local] Notation pm := (fueled E PathStep).
#[local] Hint Resolve settles_call law_now law_cwd law_root law_metadata law_canonicalize law_openat law_mkdirat law_unlinkat
  law_fstatat law_fchmodat law_fstat law_permissions law_fsync law_rename law_acl law_tag law_free law_pending : cm.

Ltac solve_settles := repeat (intros; first [solve [eauto with cm] | case_match | apply settles_then]).

Lemma call_settles {A e : Type} n (f : E → result e A * E) note text :
  calm budget f → settles budget n (call f note text : pm (result string A)).
Proof.
  intros Hf. apply settles_then; [by apply settles_call|]. intros [a|error]; [|eauto with cm].
  apply settles_then; [|eauto with cm]. induction (note a) as [|s l IH]; [apply settles_answer|]. by apply settles_then; [eauto with cm|].
Qed.

Lemma acl_entries_settles fuel acl id access : settles budget fuel (acl_entries fuel acl id access : pm _).
Proof.
  revert id access. induction fuel as [|fuel IH]; intros id access; [intros w Hw; lia|]. cbn [acl_entries].
  apply (settles_again fuel (acl_get_entry acl id) (λ r, ∃ entry, r = AclEntry entry)); [apply law_entry| | |].
  - intros [entry|errno|status] H; [exfalso; eauto|case_decide; eauto with cm|eauto with cm].
  - intros _ [entry ->]. solve_settles.
  - intros [entry|errno|status]; [left; eauto|right; by intros [? ?]|right; by intros [? ?]].
Qed.

Lemma acl_settles fuel h : settles budget fuel (extended_acl_access fuel h : pm _).
Proof.
  apply settles_then; [|intros; apply settles_then; eauto with cm].
  apply settles_then; [eauto with cm|]. intros []; [|case_decide; eauto with cm].
  apply settles_then; [apply acl_entries_settles|]. solve_settles.
Qed.

Definition ages (w w' : World E PathStep) : Prop :=
  (budget (env w') ≤ budget (env w))%nat ∧ elapsed (env w) ≤ elapsed (env w').

Lemma open_at_ages parent name mode w : answers (λ _ w', ages w w') (open_at parent name mode : pm _) w.
Proof.
  apply (answers_bind (λ _ w', ages w w')).
  { apply answers_ask. split; [apply law_openat|apply openat_elapsed]. }
  intros [h|errno] w' H; [|by apply answers_ret].
  apply (answers_bind (λ _ w', ages w w')); [by apply answers_step|]. intros. by apply answers_ret.
Qed.

Lemma open_retry_answers fuel parent name deadline w :
  Z.max 0 (deadline - elapsed (env w)) < Z.of_nat fuel →
  answers (λ _ w', budget (env w') ≤ budget (env w))%nat (open_retry fuel parent name deadline : pm _) w.
Proof.
  revert w. induction fuel as [|fuel IH]; intros w Hfuel; [lia|]. cbn [open_retry].
  eapply answers_bind; [apply open_at_ages|]. intros [h|errno] w' [Hb He]; [by apply answers_ret|].
  case_decide; [|by apply answers_ret].
  apply (answers_bind (λ t w'', ages w w'' ∧ elapsed (env w) ≤ t ≤ elapsed (env w''))).
  { apply answers_ask. pose proof (now_elapsed (env w')). pose proof (law_now (env w')). split; [split|]; simpl; lia. }
  intros t w'' [[Hb' He'] Ht]. case_decide; [|by apply answers_ret].
  apply (answers_bind (λ _ w3, (budget (env w3) ≤ budget (env w))%nat ∧ t < elapsed (env w3))).
  { apply answers_ask. pose proof (law_yield (env w'')). pose proof (yield_elapsed (env w'')). simpl. lia. }
  intros [] w3 [Hb3 He3]. eapply answers_impl; [apply IH; lia|]. simpl. intros. lia.
Qed.

Context {fuel : nat} (Hfuel : PERMISSION_RACE_DEADLINE < Z.of_nat fuel).

Lemma open_with_retry_settles parent name : settles budget fuel (open_directory_at_with_retry fuel parent name : pm _).
Proof.
  intros w _. apply (answers_bind (λ t w', (budget (env w') ≤ budget (env w))%nat ∧ t ≤ elapsed (env w'))).
  { apply answers_ask. pose proof (now_elapsed (env w)). pose proof (law_now (env w)). simpl. lia. }
  intros t w' [Hb Ht]. eapply answers_impl; [apply open_retry_answers|simpl; intros; lia].
  unfold PERMISSION_RACE_DEADLINE, NANOS_PER_MILLI, instant_checked_add in *. case_decide; simpl; lia.
Qed.
#[local] Hint Resolve open_with_retry_settles acl_settles call_settles : cm.

Lemma inspect_settles h prefix : settles budget fuel (inspect h prefix : pm _).
Proof. unfold inspect. solve_settles. Qed.
Lemma inspect_entry_settles parent name : settles budget fuel (inspect_entry parent name : pm _).
Proof. unfold inspect_entry. solve_settles. Qed.
Lemma open_at_settles parent name mode : settles budget fuel (open_at parent name mode : pm _).
Proof. unfold open_at. solve_settles. Qed.
Lemma sync_settles h what : settles budget fuel (sync h what : pm _).
Proof. unfold sync. solve_settles. Qed.
#[local] Hint Resolve inspect_settles inspect_entry_settles open_at_settles sync_settles : cm.

Lemma trusted_settles h p : settles budget fuel (validate_trusted_ancestor fuel h p : pm _).
Proof. unfold validate_trusted_ancestor, has_allowing_extended_acl. solve_settles. Qed.
Lemma trusted_output_settles h p : settles budget fuel (validate_trusted_output_directory fuel h p : pm _).
Proof. unfold validate_trusted_output_directory, has_allowing_extended_acl. solve_settles. Qed.
Lemma private_settles h p kind correct : settles budget fuel (validate_private_handle fuel h p kind correct : pm _).
Proof. unfold validate_private_handle, correct_handle_mode, has_extended_acl. solve_settles. Qed.
Lemma prepare_settles parent name p : settles budget fuel (prepare_directory_entry parent name p : pm _).
Proof. unfold prepare_directory_entry. solve_settles. Qed.
#[local] Hint Resolve trusted_settles trusted_output_settles private_settles prepare_settles : cm.

Lemma path_walk_settles p : settles budget fuel (path_walk fuel p : pm _).
Proof. unfold path_walk, rewrite_darwin_root_alias, open_directory_no_follow. solve_settles. Qed.
Lemma walk_ancestors_settles what parent resolved ancestors :
  settles budget fuel (walk_ancestors fuel what parent resolved ancestors : pm _).
Proof. revert parent resolved. induction ancestors; intros; cbn [walk_ancestors]; solve_settles. Qed.
#[local] Hint Resolve path_walk_settles walk_ancestors_settles : cm.
Lemma walk_to_last_settles what nameless p : settles budget fuel (walk_to_last fuel what nameless p : pm _).
Proof. unfold walk_to_last. solve_settles. Qed.
#[local] Hint Resolve walk_to_last_settles : cm.
Lemma secure_parent_settles p : settles budget fuel (secure_parent fuel p : pm _).
Proof. unfold secure_parent. solve_settles. Qed.
#[local] Hint Resolve secure_parent_settles : cm.

Lemma open_corrected_settles parent name p : settles budget fuel (open_corrected parent name p : pm _).
Proof. unfold open_corrected, open_directory_at. solve_settles. Qed.
Lemma create_or_join_settles parent name p : settles budget fuel (create_or_join_private_directory fuel parent name p : pm _).
Proof. unfold create_or_join_private_directory, open_directory_at. solve_settles. Qed.
#[local] Hint Resolve open_corrected_settles create_or_join_settles : cm.
Lemma ensure_walk_settles parent resolved creating names :
  settles budget fuel (ensure_walk fuel parent resolved creating names : pm _).
Proof. revert parent resolved creating. induction names; intros; cbn [ensure_walk]; unfold ensure_component; solve_settles. Qed.
Lemma or_unlink_settles {A : Type} parent name directory (m : pm (result string A)) :
  settles budget fuel m → settles budget fuel (or_unlink parent name directory m).
Proof. unfold or_unlink, unlink_quietly. solve_settles. Qed.
#[local] Hint Resolve ensure_walk_settles or_unlink_settles : cm.

Lemma ensure_settles p : settles budget fuel (ensure_private_handle fuel p : pm _).
Proof. unfold ensure_private_handle. solve_settles. Qed.
Lemma create_directory_settles p : settles budget fuel (create_private_directory fuel p : pm _).
Proof. unfold create_private_directory, open_directory_at. solve_settles. Qed.
Lemma create_file_settles p : settles budget fuel (create_private_file fuel p : pm _).
Proof. unfold create_private_file. solve_settles. Qed.
Lemma open_file_settles p : settles budget fuel (open_private_file fuel p : pm _).
Proof. unfold open_private_file, open_private_file_optional, validate_private_file. solve_settles. Qed.
Lemma open_directory_settles p : settles budget fuel (open_private_directory fuel p : pm _).
Proof. unfold open_private_directory. solve_settles. Qed.
Lemma open_output_settles p : settles budget fuel (open_trusted_directory fuel p : pm _).
Proof. unfold open_trusted_directory. solve_settles. Qed.

(** [m] answers, and [Q] holds of a handle that it answers with. *)
Definition hands_out {A : Type} (m : pm (result string A)) (Q : list PathStep → A → Prop) (w : World E PathStep) : Prop :=
  ∃ r w' l, m w = (Some r, w') ∧ trace w' = trace w ++ l ∧ ∀ a, r = Ok a → Q l a.

Lemma hands_out_intro {A : Type} (m : pm (result string A)) Q w :
  settles budget fuel m → gives Q m → (budget (env w) < fuel)%nat → hands_out m Q w.
Proof. intros Hs Hg Hw. destruct (settled_ends fuel _ m w Hs Hg Hw) as (r & w' & l & H). by exists r, w', l. Qed.

End Answers.

(** ** The handles are vetted *)


(** A file system where everything is found: the root belongs to root, the directories
    to the user, and a new file is readable for others until its mode is corrected. *)
Module Example.

Record disk := mkDisk { ticks : Z; nodes : list Meta; entries : list (string * Meta) }.

Definition private_meta : Meta := mkMeta DirectoryNode 501 448 1 2.
Definition file_meta : Meta := mkMeta RegularNode 501 420 1 7.
Definition root_meta : Meta := mkMeta DirectoryNode 0 493 1 1.

Definition tick (d : disk) : disk := mkDisk (ticks d + 1) (nodes d) (entries d).
Definition push (m : Meta) (d : disk) : result Z Z * disk :=
  (Ok (Z.of_nat (length (nodes d))), mkDisk (ticks d) (nodes d ++ [m]) (entries d)).
Definition entry (name : string) (d : disk) : option Meta :=
  snd <$> head (filter (λ e, e.1 = name) (entries d)).
Definition with_mode (mode : Z) (m : Meta) : Meta := mkMeta (meta_type m) (meta_uid m) mode (meta_dev m) (meta_ino m).
Definition without (name : string) (d : disk) : list (string * Meta) := filter (λ e, e.1 ≠ name) (entries d).

#[export] Instance clock : Clock disk := λ d, (ticks d, d).

#[export] Instance ops : PathOps disk := {|
  geteuid := 501;
  errno_text := pretty;
  shown p := String.concat "/" p;
  octal04 := pretty;
  current_dir d := (Ok ["/"%string], d);
  open_directory_no_follow_call p d := match push root_meta d with (Ok h, d) => (Ok h, d) | (_, d) => (Err ""%string, d) end;
  symlink_metadata p d := (Ok (mkMeta SymlinkNode 0 511 1 3), d);
  canonicalize p d := (Ok match p with root :: rest => root :: "private"%string :: rest | [] => [] end, d);
  openat parent name mode d :=
    match mode with
    | OpenDirectory => push (default private_meta (entry name d)) d
    | OpenExisting => match entry name d with Some m => push m d | None => (Err ENOENT, d) end
    | CreateNew =>
        match entry name d with
        | Some _ => (Err EEXIST, d)
        | None => push file_meta (mkDisk (ticks d) (nodes d) ((name, file_meta) :: entries d))
        end
    end;
  mkdirat parent name d := (Ok tt, mkDisk (ticks d) (nodes d) ((name, private_meta) :: entries d));
  unlinkat parent name directory d := (Ok tt, mkDisk (ticks d) (nodes d) (without name d));
  fstatat parent name d := (match entry name d with Some m => Ok m | None => Err ENOENT end, d);
  fchmodat_private parent name d := (Ok tt, d);
  fstat h d := (match nodes d !! Z.to_nat h with Some m => Ok m | None => Err "bad descriptor"%string end, d);
  set_permissions h mode d :=
    (Ok tt, mkDisk (ticks d) (alter (with_mode mode) (Z.to_nat h) (nodes d))
              (map (λ '(name, m), (name, if decide (Some (meta_ino m) = meta_ino <$> nodes d !! Z.to_nat h) then with_mode mode m else m))
                 (entries d)));
  fsync h d := (Ok tt, d);
  renameatx_np s sn t tn flags d :=
    match entry tn d, entry sn d with
    | None, Some m => (Ok tt, mkDisk (ticks d) (nodes d) ((tn, m) :: without sn d))
    | _, _ => (Err "File exists"%string, d)
    end;
  acl_get_fd_np h d := (Err ENOENT, d);
  acl_get_entry acl id d := (AclError EINVAL, d);
  acl_get_tag_type e d := (Ok ACL_EXTENDED_ALLOW, d);
  acl_free acl d := (Ok tt, d);
  pending_name d := (".pending"%string, d);
  yield_now := tick
|}.

Lemma push_ticks m d : ticks (push m d).2 = ticks d.
Proof. done. Qed.

#[export] Instance time : PathTime disk ticks.
Proof.
  split; [simpl; lia| |simpl; lia]. intros parent name mode d.
  destruct mode; cbn; [lia| |]; destruct (entry name d); cbn; lia.
Qed.

#[export] Instance laws : PathLaws disk (λ _, 0%nat).
Proof. split; unfold calm; intros; lia || (split; [lia|by intros [? [=]]]). Qed.

Definition w0 : World disk PathStep := mkWorld (mkDisk 0 [] []) [].
Definition dump : PathBuf := ["/"; "Users"; "app"; "dump"]%string.
Lemma some_fuel : ∃ fuel, PERMISSION_RACE_DEADLINE < Z.of_nat fuel.
Proof. exists (Z.to_nat (PERMISSION_RACE_DEADLINE + 1)). rewrite Z2Nat.id; unfold PERMISSION_RACE_DEADLINE, NANOS_PER_MILLI; lia. Qed.

End Example.
Import Example.


End PathsSpec.
