(* ===== verification/PathsPublish.v ===== *)
(** * Publishing a private path

    [publish_private_path] renames a validated private node without replacing anything.
    The theorem states what its success stands for, and that a rename whose result is not
    the validated node, or is no longer private, is undone or contained. *)

From S2P Require Import Prelude.
From S2P Require Import Traced.
From S2P Require Import Fueled.
From S2P Require Import Paths.
From S2P Require Import PathsSpec.

Module PathsPublish.
Export PathsSpec.

Section Publish.
Context {E : Type} {clock : Clock E} {ops : PathOps E}.
#[local] Notation pm := (fueled E PathStep).

(** ** Steps that rename nothing *)

Definition renames (s : PathStep) : bool := match s with RenamedAt _ _ _ _ _ ok => ok | _ => false end.
Definition still (l : list PathStep) : Prop := Forall (λ s, renames s = false) l.
Definition stays {A : Type} (m : pm A) : Prop := ends (λ l _, still l) m.

Lemma stays_ret {A : Type} (a : A) : stays (mret a : pm A).
Proof. apply ends_ret. constructor. Qed.
Lemma stays_starved {A : Type} : stays (starved : pm A).
Proof. apply ends_starved. Qed.
Lemma stays_bind {A B : Type} (m : pm A) (f : A → pm B) : stays m → (∀ a, stays (f a)) → stays (m ≫= f).
Proof.
  intros Hm Hf. eapply ends_bind; [exact Hm|]. intros l a Hl. eapply ends_impl; [apply Hf|]. intros. by apply Forall_app.
Qed.
Lemma stays_ask {A : Type} (f : E → A * E) : stays (ask f : pm A).
Proof. apply quiet_ends; [auto with cm|constructor]. Qed.
Lemma stays_step s : renames s = false → stays (step s : pm unit).
Proof. intros Hs. apply ends_of_traced, emit_emits. by repeat constructor. Qed.

Lemma stays_call {A e : Type} (f : E → result e A * E) note text :
  (∀ a, still (note a)) → stays (call f note text : pm (result string A)).
Proof.
  intros Hn. apply stays_bind; [apply stays_ask|]. intros [a|error]; [|apply stays_ret].
  apply stays_bind; [|intros; apply stays_ret]. induction (Hn a) as [|s l Hs _ IH]; [apply stays_ret|].
  apply stays_bind; [by apply stays_step|done].
Qed.

#[local] Hint Resolve stays_ret stays_starved stays_ask stays_step stays_call : cm.
#[local] Hint Extern 1 (still _) => repeat constructor : cm.
Ltac solve_stays := repeat (intros; first [solve [auto with cm] | case_match | apply stays_bind]).

Lemma inspect_stays h prefix : stays (inspect h prefix).
Proof. unfold inspect. solve_stays. Qed.
Lemma inspect_entry_stays parent name : stays (inspect_entry parent name).
Proof. unfold inspect_entry. solve_stays. Qed.
Lemma open_at_stays parent name mode : stays (open_at parent name mode).
Proof. unfold open_at. solve_stays. Qed.
Lemma sync_told_stays h what : stays (sync_told h what).
Proof. unfold sync_told. solve_stays. Qed.
Lemma acl_entries_stays fuel acl id access : stays (acl_entries fuel acl id access).
Proof. revert id access. induction fuel; intros; cbn [acl_entries]; solve_stays. Qed.
Lemma open_retry_stays fuel parent name deadline : stays (open_retry fuel parent name deadline).
Proof. induction fuel; cbn [open_retry]; unfold open_directory_at, open_at; solve_stays. Qed.
#[local] Hint Resolve inspect_stays inspect_entry_stays open_at_stays sync_told_stays acl_entries_stays open_retry_stays : cm.

Lemma acl_stays fuel h : stays (extended_acl_access fuel h).
Proof. unfold extended_acl_access. solve_stays. Qed.
#[local] Hint Resolve acl_stays : cm.
Lemma trusted_stays fuel h p : stays (validate_trusted_ancestor fuel h p).
Proof. unfold validate_trusted_ancestor, has_allowing_extended_acl. solve_stays. Qed.
Lemma private_stays fuel h p kind correct : stays (validate_private_handle fuel h p kind correct).
Proof. unfold validate_private_handle, correct_handle_mode, has_extended_acl. solve_stays. Qed.
Lemma open_with_retry_stays fuel parent name : stays (open_directory_at_with_retry fuel parent name).
Proof. unfold open_directory_at_with_retry. solve_stays. Qed.
#[local] Hint Resolve trusted_stays private_stays open_with_retry_stays : cm.
Lemma walk_ancestors_stays fuel what parent resolved ancestors : stays (walk_ancestors fuel what parent resolved ancestors).
Proof. revert parent resolved. induction ancestors; intros; cbn [walk_ancestors]; solve_stays. Qed.
#[local] Hint Resolve walk_ancestors_stays : cm.
Lemma path_walk_stays fuel p : stays (path_walk fuel p).
Proof. unfold path_walk, rewrite_darwin_root_alias, open_directory_no_follow. solve_stays. Qed.
#[local] Hint Resolve path_walk_stays : cm.
Lemma secure_parent_stays fuel p : stays (secure_parent fuel p).
Proof. unfold secure_parent, walk_to_last. solve_stays. Qed.
Lemma entry_matches_stays parent name h p : stays (publish_entry_matches_handle parent name h p).
Proof. unfold publish_entry_matches_handle. solve_stays. Qed.
#[local] Hint Resolve secure_parent_stays entry_matches_stays : cm.
Lemma source_stays fuel parent name p : stays (open_validated_publish_source fuel parent name p).
Proof. unfold open_validated_publish_source, open_directory_at. solve_stays. Qed.
#[local] Hint Resolve source_stays : cm.

(** ** The entry and the descriptor *)

(** The name was found to be the node behind the descriptor. *)
Definition entry_is (l : list PathStep) (parent : Z) (name : string) (h : Z) : Prop :=
  ∃ named opened, EntryInspected parent name (Ok named) ∈ l ∧ Inspected h (Ok opened) ∈ l ∧
    0 ≤ meta_dev named ∧ meta_dev opened = meta_dev named ∧ meta_ino opened = meta_ino named.

Lemma entry_is_mono l l' parent name h : l ⊆ l' → entry_is l parent name h → entry_is l' parent name h.
Proof. intros Hl (m & m' & H1 & H2 & H3 & H4 & H5). exists m, m'. split_and!; auto. Qed.

Lemma ends_inspect_entry parent name : ends (λ l r, l = [EntryInspected parent name r]) (inspect_entry parent name).
Proof. apply ends_quiet; [auto with cm|]. intros r. by apply ends_step, ends_ret. Qed.

Lemma gives_matches parent name h p :
  gives (λ l b, b = true → entry_is l parent name h) (publish_entry_matches_handle parent name h p).
Proof.
  eapply ends_bind; [apply ends_inspect_entry|]. intros l [named|errno] ->; [|apply gives_err].
  eapply gives_bind; [apply gives_inspect|]. intros l opened Ho. case_decide as Hdev; [apply gives_err|].
  apply gives_ok. intros [Hd Hi]%andb_true_iff. apply bool_decide_eq_true in Hd, Hi.
  exists named, opened. rewrite app_nil_r. split_and!; [in_trace|in_trace|lia|done|done].
Qed.

Lemma gives_source fuel parent name p :
  gives (λ l a, private l a.2 a.1 ∧ entry_is l parent name a.1) (open_validated_publish_source fuel parent name p).
Proof.
  eapply ends_bind; [apply ends_inspect_entry|]. intros l [m|errno] _; [|apply gives_err].
  eapply (gives_bind (λ _ _, True)).
  { assert (∀ (kind : PrivateNodeKind) mode, gives (λ _ _, True) (opened ← open_at parent name mode;
      mret (map_err (with_errno "cannot safely open private publish source") ((λ h, (h, kind)) <$> opened)))) as H.
    { intros kind mode. eapply ends_bind; [apply gives_open|]. intros. by apply ends_ret. }
    destruct (meta_type m); [apply H|apply H|apply gives_err|apply gives_err]. }
  intros l2 [h kind] _. eapply gives_bind; [apply gives_private|]. intros l3 [] Hp.
  eapply gives_bind; [apply gives_matches|]. intros l4 [] Hm; [|apply gives_err]. apply gives_ok. cbn [fst snd].
  split; [eapply private_mono; [|exact Hp]; in_trace|eapply entry_is_mono; [|by apply Hm]; in_trace].
Qed.

(** ** Containment *)

(** An entry is moved aside, and unlinked where that fails. *)
Definition containment (l : list PathStep) (parent : Z) (name : string) : Prop :=
  ∃ q moved rest, l = RenamedAt parent name parent q RENAME_EXCL moved :: rest ∧
    (moved = false → ∃ r rest', rest = EntryInspected parent name r :: rest' ∧
       match r with
       | Ok _ => ∃ removed rest'', rest' = UnlinkedAt parent name removed :: rest''
       | Err _ => True
       end).

Lemma ends_rename s sn d dn flags :
  ends (λ l r, l = [RenamedAt s sn d dn flags (is_ok r)]) (rename_private_path_at s sn d dn flags).
Proof. apply ends_quiet; [auto with cm|]. intros r. by apply ends_step, ends_ret. Qed.

Lemma ends_any {A : Type} (m : pm A) : stays m → ends (λ _ _, True) m.
Proof. intros H. eapply ends_impl; [exact H|done]. Qed.

Lemma ends_remove parent name :
  ends (λ l _, ∃ r l', l = EntryInspected parent name r :: l' ∧
     match r with Ok _ => ∃ removed, l' = [UnlinkedAt parent name removed] | Err _ => l' = [] end)
    (remove_untrusted_publish_entry parent name).
Proof.
  eapply ends_bind; [apply ends_inspect_entry|]. intros l [m|errno] ->.
  - apply ends_quiet; [auto with cm|]. intros r. apply ends_step, ends_ret.
    exists (Ok m), [UnlinkedAt parent name (is_ok r)]. eauto.
  - case_decide; apply ends_ret; by exists (Err errno), [].
Qed.

Lemma ends_quarantine parent name : ends (λ l _, containment l parent name) (quarantine_publish_entry parent name).
Proof.
  apply ends_quiet; [auto with cm|]. intros q. eapply ends_bind; [apply ends_rename|]. intros l [[]|error] ->.
  - eapply ends_impl; [apply ends_any; unfold synced_or; solve_stays|]. intros l _ _. by exists q, true, l.
  - eapply ends_bind; [apply ends_remove|]. intros l r (x & l' & -> & Hx).
    eapply ends_impl; [apply ends_any; unfold synced_or; solve_stays|]. intros l'' _ _.
    exists q, false, ((EntryInspected parent name x :: l') ++ l''). split; [done|]. intros _.
    exists x, (l' ++ l''). split; [done|]. destruct x; [|done]. destruct Hx as [removed ->]. by exists removed, l''.
Qed.

(** What undoes a publication: the validated source goes back, or the entry is contained. *)
Definition undone (l : list PathStep) (sp : Z) (sn : string) (dp : Z) (dn : string) (h : Z) (kind : PrivateNodeKind) : Prop :=
  ∃ before after, l = before ++ after ∧ still before ∧
    (containment after dp dn ∨
     private before kind h ∧ entry_is before dp dn h ∧
     ∃ restored rest, after = RenamedAt dp dn sp sn RENAME_EXCL restored :: rest ∧ (restored = false → containment rest dp dn)).

Lemma undone_before l0 l sp sn dp dn h kind : still l0 → undone l sp sn dp dn h kind → undone (l0 ++ l) sp sn dp dn h kind.
Proof.
  intros Hl (before & after & -> & Hb & H). exists (l0 ++ before), after. split; [by rewrite app_assoc|].
  split; [by apply Forall_app|]. destruct H as [H|(Hp & He & H)]; [by left|right].
  split; [eapply private_mono; [apply sub_r|done]|]. split; [eapply entry_is_mono; [apply sub_r|done]|done].
Qed.

Lemma undone_quarantine l sp sn dp dn h kind : containment l dp dn → undone l sp sn dp dn h kind.
Proof. intros H. exists [], l. split; [done|]. split; [constructor|by left]. Qed.

Lemma ends_and {A : Type} (P Q : list PathStep → A → Prop) (m : pm A) : ends P m → ends Q m → ends (λ l a, P l a ∧ Q l a) m.
Proof.
  intros HP HQ w. destruct (HP w) as (l & Hl & H1), (HQ w) as (l' & Hl' & H2).
  rewrite Hl in Hl'. apply app_inv_head in Hl' as <-. exists l. split; [done|]. intros a Ha. auto.
Qed.

Lemma ends_restore dp dn sp sn :
  ends (λ l _, ∃ restored rest, l = RenamedAt dp dn sp sn RENAME_EXCL restored :: rest ∧ (restored = false → containment rest dp dn))
    (restore_validated_or_quarantine dp dn sp sn).
Proof.
  eapply ends_bind; [apply ends_rename|]. intros l [[]|error] ->.
  - eapply ends_impl; [apply ends_any; unfold sync_publish_rollback_parents; solve_stays|]. intros l _ _. by exists true, l.
  - eapply ends_bind; [apply ends_quarantine|]. intros l text H. apply ends_ret. exists false, (l ++ []). by rewrite app_nil_r.
Qed.

Lemma ends_contain fuel sp sn dp dn h kind p :
  ends (λ l _, undone l sp sn dp dn h kind) (contain_published fuel sp sn dp dn h kind p).
Proof.
  assert (∀ l, still l → ends (λ l' _, undone (l ++ l') sp sn dp dn h kind) (quarantine_publish_entry dp dn)) as Hq.
  { intros l Hl. eapply ends_impl; [apply ends_quarantine|]. intros. by apply undone_before, undone_quarantine. }
  eapply ends_bind; [apply ends_and; [apply private_stays|apply gives_private]|]. intros l [[]|error] [Hl Hp].
  - eapply ends_bind; [apply ends_and; [apply entry_matches_stays|apply gives_matches]|]. intros l2 matches [Hl2 Hm].
    assert (still (l ++ l2)) as Hll by by apply Forall_app.
    destruct matches as [[]|error2].
    + eapply ends_impl; [apply ends_restore|]. intros l3 ? H. rewrite app_assoc. exists (l ++ l2), l3. split; [done|].
      split; [done|]. right. split; [eapply private_mono; [apply sub_l|by apply (Hp tt)]|].
      split; [eapply entry_is_mono; [apply sub_r|by apply (Hm true)]|done].
    + eapply ends_impl; [by apply Hq|]. intros l3 ?. cbn beta. by rewrite app_assoc.
    + eapply ends_impl; [by apply Hq|]. intros l3 ?. cbn beta. by rewrite app_assoc.
  - eapply ends_bind; [by apply (Hq l)|]. intros l2 text H. apply ends_ret. by rewrite app_nil_r.
Qed.

(** What the steps behind the rename show. *)
Definition verified (l : list PathStep) (sp : Z) (sn : string) (dp : Z) (dn : string) (h : Z) (kind : PrivateNodeKind)
    (r : result string unit) : Prop :=
  match r with
  | Ok _ => still l ∧ entry_is l dp dn h ∧ private l kind h
  | Err _ => undone l sp sn dp dn h kind
  end.

Lemma ends_verify fuel sp sn dp dn h kind source destination :
  ends (λ l r, verified l sp sn dp dn h kind r) (verify_published fuel sp sn dp dn h kind source destination).
Proof.
  eapply ends_bind; [apply ends_and; [apply entry_matches_stays|apply gives_matches]|]. intros l [[]|error] [Hl Hm].
  - eapply ends_bind; [apply ends_and; [apply private_stays|apply gives_private]|]. intros l2 [[]|error] [Hl2 Hp].
    + apply ends_ret. rewrite app_nil_r. split; [by apply Forall_app|].
      split; [eapply entry_is_mono; [apply sub_l|by apply (Hm true)]|eapply private_mono; [apply sub_r|by apply (Hp tt)]].
    + eapply ends_bind; [apply ends_contain|]. intros l3 text H. apply ends_ret. rewrite app_nil_r. by repeat apply undone_before.
  - eapply ends_bind; [apply ends_quarantine|]. intros l3 text H. apply ends_ret. rewrite app_nil_r.
    by apply undone_before, undone_quarantine.
  - eapply ends_bind; [apply ends_quarantine|]. intros l3 text H. apply ends_ret. rewrite app_nil_r.
    by apply undone_before, undone_quarantine.
Qed.

(** ** The publication *)

(** One end of a rename: a name in a private directory that was reached. *)
Definition private_parent (l : list PathStep) (p : PathBuf) (parent : Z) (name : string) : Prop :=
  ∃ q, resolves p (q ++ [name]) ∧ reached l q parent ∧ private l Directory parent.

Lemma private_parent_mono l l' p parent name : l ⊆ l' → private_parent l p parent name → private_parent l' p parent name.
Proof. intros Hl (q & H1 & H2 & H3). exists q. split_and!; [done|by eapply reached_mono|by eapply private_mono]. Qed.

Definition PUBLISH_FLAGS : Z := Z.lor RENAME_EXCL RENAME_NOFOLLOW_ANY.

Definition publication (source destination : PathBuf) (l : list PathStep) (r : result string unit) : Prop :=
  (still l ∧ r ≠ Ok tt) ∨
  ∃ before sp sn dp dn after h kind, l = before ++ RenamedAt sp sn dp dn PUBLISH_FLAGS true :: after ∧ still before ∧
    private_parent before source sp sn ∧ private_parent before destination dp dn ∧
    private before kind h ∧ entry_is before sp sn h ∧ verified after sp sn dp dn h kind r.

(** A part of the publication that renames nothing. *)
Lemma ends_before {A : Type} (P : list PathStep → A → Prop) (Q : list PathStep → result string unit → Prop)
    (m : pm (result string A)) (f : A → pm (result string unit)) :
  stays m → gives P m → (∀ l error, still l → Q l (Err error)) →
  (∀ l a, still l → P l a → ends (λ l' r, Q (l ++ l') r) (f a)) → ends Q (a ←? m; f a).
Proof.
  intros Hs Hg HQ Hf. eapply ends_bind; [by apply ends_and; [exact Hs|exact Hg]|]. intros l [a|error] [Hl HP].
  - apply Hf; [done|by apply HP].
  - apply ends_ret. rewrite app_nil_r. by apply HQ.
Qed.

Lemma unpublished source destination l error : still l → publication source destination l (Err error).
Proof. by left. Qed.

Ltac solve_unpublished := intros; apply unpublished; repeat (apply Forall_app_2; [assumption|]); assumption.

Lemma ends_publish fuel source destination :
  ends (publication source destination) (publish_private_path fuel source destination).
Proof.
  unfold publish_private_path.
  eapply ends_before; [apply secure_parent_stays|apply gives_secure_parent|solve_unpublished|].
  intros l [[sp sn] sr] Hl (q & Hr & Hp & _ & Hq).
  eapply ends_before; [apply secure_parent_stays|apply gives_secure_parent|solve_unpublished|].
  intros l2 [[dp dn] dr] Hl2 (q2 & Hr2 & Hp2 & _ & Hq2).
  eapply ends_before; [apply private_stays|apply gives_private|solve_unpublished|]. intros l3 [] Hl3 _.
  eapply ends_before; [apply private_stays|apply gives_private|solve_unpublished|]. intros l4 [] Hl4 _.
  eapply ends_before; [apply source_stays|apply gives_source|solve_unpublished|]. intros l5 [h kind] Hl5 [Hh He].
  cbn [fst snd] in *. assert (still (l ++ l2 ++ l3 ++ l4 ++ l5)) as Hb by by repeat apply Forall_app_2.
  eapply ends_bind; [apply ends_rename|]. intros l6 [[]|error] ->.
  - eapply ends_impl; [apply ends_verify|]. intros l6 r Hv. right.
    exists (l ++ l2 ++ l3 ++ l4 ++ l5), sp, sn, dp, dn, l6, h, kind. split; [by rewrite <-!app_assoc|].
    split; [done|]. split; [exists q|split; [exists q2|split; [|split]]]; [| | | |exact Hv].
    + split_and!; [done|eapply reached_mono; [|exact Hr]; in_trace|eapply private_mono; [|exact Hp]; in_trace].
    + split_and!; [done|eapply reached_mono; [|exact Hr2]; in_trace|eapply private_mono; [|exact Hp2]; in_trace].
    + eapply private_mono; [|exact Hh]. in_trace.
    + eapply entry_is_mono; [|exact He]. in_trace.
  - apply ends_ret. left. split; [|done]. rewrite !app_assoc, <-!(assoc_L (++)). repeat apply Forall_app_2; try done. by repeat constructor.
Qed.

End Publish.

(** ** It answers *)

Section Answers.
Context {E : Type} {clock : Clock E} {ops : PathOps E} {budget : E → nat} {elapsed : E → Z}
  {time : PathTime E elapsed} {laws : PathLaws E budget} {fuel : nat} (Hfuel : PERMISSION_RACE_DEADLINE < Z.of_nat fuel).
#[local] Notation pm := (fueled E PathStep).
#[local] Hint Resolve settles_call law_unlinkat law_fsync law_rename law_pending law_fstatat call_settles
  inspect_settles inspect_entry_settles open_at_settles private_settles secure_parent_settles : cm.
Ltac solve_settles := repeat (intros; first [solve [eauto with cm] | case_match | apply settles_then]).

Lemma matches_settles parent name h p : settles budget fuel (publish_entry_matches_handle parent name h p : pm _).
Proof. unfold publish_entry_matches_handle. solve_settles. Qed.
Lemma rename_settles s sn d dn flags : settles budget fuel (rename_private_path_at s sn d dn flags : pm _).
Proof. unfold rename_private_path_at. solve_settles. Qed.
Lemma sync_told_settles h what : settles budget fuel (sync_told h what : pm _).
Proof. unfold sync_told. solve_settles. Qed.
#[local] Hint Resolve matches_settles rename_settles sync_told_settles : cm.
Lemma source_settles parent name p : settles budget fuel (open_validated_publish_source fuel parent name p : pm _).
Proof. unfold open_validated_publish_source, open_directory_at. solve_settles. Qed.
Lemma quarantine_settles parent name : settles budget fuel (quarantine_publish_entry parent name : pm _).
Proof. unfold quarantine_publish_entry, restore_private_path_at, synced_or, remove_untrusted_publish_entry. solve_settles. Qed.
#[local] Hint Resolve source_settles quarantine_settles : cm.
Lemma contain_published_settles sp sn dp dn h kind p : settles budget fuel (contain_published fuel sp sn dp dn h kind p : pm _).
Proof.
  unfold contain_published, restore_validated_or_quarantine, restore_private_path_at, sync_publish_rollback_parents. solve_settles.
Qed.
#[local] Hint Resolve contain_published_settles : cm.
Lemma publish_settles source destination : settles budget fuel (publish_private_path fuel source destination : pm _).
Proof. unfold publish_private_path, publish_private_path_at, verify_published. solve_settles. Qed.

End Answers.


Module PublishExample.
Import PathsSpec.Example.

Definition report : Meta := mkMeta RegularNode 501 384 1 7.
Definition w1 : World disk PathStep := mkWorld (mkDisk 0 [] [("dump"%string, report)]) [].
Definition published : PathBuf := ["/"; "Users"; "app"; "report"]%string.

End PublishExample.
Import PathsSpec.Example PublishExample.


End PathsPublish.
