(* ===== verification/PluginFiles.v ===== *)
(** * Files of cooperative plugins

    What the plugins that work on files share: the checkpoints of their context, and the
    calls of [std::fs] as operations of [FileOps]. The private path primitives are run as
    they are modelled in Paths.v, with their steps under [PathDid]; the trace has what was
    done to which path and handle. *)

From S2P Require Import Prelude.
From S2P Require Import Traced.
From S2P Require Import Fueled.
From S2P Require Import PipelineTypes.
From S2P Require Import PluginRun.
From S2P Require Finalize.
From S2P Require Artifact.
From S2P Require Paths.
From S2P Require PathsSpec.
From S2P Require PathsPublish.

Module PluginFiles.
Export Types.
Export Fueled.
Export PluginRun.
#[local] Open Scope Z_scope.
Notation parent := Artifact.Artifact.parent (only parsing).
Notation file_name := Artifact.Artifact.file_name (only parsing).
Notation quoted := Paths.Paths.quoted (only parsing).

#[local] Existing Instance Paths.Paths.node_type_eq_dec.

Notation Byte := Init.Byte.byte.
#[export] Instance Byte_eq_dec : EqDecision Byte := Strings.Byte.byte_eq_dec.

(** The kinds of an [io::Error] that the plugins tell apart; [CrossDevice] is [EXDEV]. *)
Inductive IoError : Type :=
| Interrupted
| NotFound
| WouldBlock
| CrossDevice
| OtherError (text : string).

#[export] Instance IoError_eq_dec : EqDecision IoError.
Proof. solve_decision. Defined.

(** [fs::Metadata]: what [fstat] tells of the node, and the length. *)
Record Metadata := mkMetadata { node : Paths.Paths.Meta; len : Z }.

Definition is_file (m : Metadata) : bool := bool_decide (Paths.Paths.meta_type (node m) = Paths.Paths.RegularNode).
Definition same_file (left right : Metadata) : bool :=
  bool_decide (Paths.Paths.meta_dev (node left) = Paths.Paths.meta_dev (node right)) &&
  bool_decide (Paths.Paths.meta_ino (node left) = Paths.Paths.meta_ino (node right)).

(** [cancel_loaded] reads the flag that other threads may set; a read fills at most the
    given number of bytes, and the empty chunk is the end of the file. *)
Class FileOps (E : Type) := {
  io_text : IoError → string;
  cancel_loaded : E → bool * E;
  symlink_metadata : PathBuf → E → result IoError Metadata * E;
  follow_metadata : PathBuf → E → result IoError Metadata * E;
  metadata_of : Z → E → result IoError Metadata * E;
  read_handle : Z → Z → E → result IoError (list Byte) * E;
  write_handle : Z → list Byte → E → result IoError Z * E;
  flush_handle : Z → E → result IoError unit * E;
  sync_handle : Z → E → result IoError unit * E;
  rewind_handle : Z → E → result IoError unit * E;
  remove_path : PathBuf → E → result IoError unit * E;
  rename_path : PathBuf → PathBuf → E → result IoError unit * E;
  fresh_name : E → string * E
}.

Inductive FileStep : Type :=
| PathDid (s : Paths.Paths.PathStep)
| Resolved (p : string) (canonical : PathBuf)
| Checked (expired : bool)
| Opened (p : PathBuf) (h : Z)
| Created (p : PathBuf) (h : Z)
| Statted (p : PathBuf) (r : result IoError Metadata)
| HandleStatted (h : Z) (r : result IoError Metadata)
| ReadFrom (h : Z) (b : list Byte)
| WroteTo (h : Z) (b : list Byte)
| FileSynced (h : Z)
| Rewound (h : Z)
| Published (source destination : PathBuf) (ok : bool)
| RenamedTo (source destination : PathBuf) (ok : bool)
| Removed (p : PathBuf) (ok : bool)
| Cloned (h h' : Z)
| LogLocked (h : Z)
| LogUnlocked
| Listed (inputs : list PathBuf)
| ZipStarted (name : string)
| ZipData (b : list Byte)
| ZipFinished
| Warned (text : string).

(** The artifact transaction, as far as plugins use it. *)
Class TransactionOps (E Txn : Type) := {
  transaction_output_root : Txn → PathBuf;
  transaction_staging_dir : Txn → PathBuf;
  transaction_set_destination_root : Txn → PathBuf → E → result string unit * E;
  transaction_committed : Txn → E → option Finalize.Finalize.CommittedReport * E;
  transaction_artifacts : Txn → E → list (PathBuf * Artifact.Artifact.ArtifactKind) * E;
  transaction_register_file : Txn → PathBuf → Artifact.Artifact.ArtifactKind → E → result string unit * E;
  transaction_unregister_file : Txn → PathBuf → E → result string unit * E;
  transaction_record_durability_warning : Txn → string → E → unit * E
}.

Section Files.
Context {E : Type} {clock : Clock E} {paths : Paths.Paths.PathOps E} {ops : FileOps E} {Txn Ctx : Type}.
#[local] Notation fm := (fueled E FileStep).
#[local] Notation PluginContext := (PluginContext Txn Ctx).

(** ** Checkpoints *)

Definition is_timed_out (context : PluginContext) : fm bool :=
  cancelled ← ask cancel_loaded;
  expired ← (if (cancelled : bool) then mret true else
             match deadline context with
             | None => mret false
             | Some d => t ← ask instant_now; mret (bool_decide (d ≤ t))
             end);
  _ ← step (Checked expired);
  mret expired.

Definition checkpoint (context : PluginContext) : fm (result string unit) :=
  expired ← is_timed_out context;
  mret (if (expired : bool) then Err "plugin deadline reached"%string else Ok tt).

(** ** Calls *)

(** A call with the step that it leaves on success. *)
Definition io {A : Type} (f : E → result IoError A * E) (note : A → list FileStep) : fm (result IoError A) :=
  r ← ask f;
  match r with
  | Ok a => _ ← fold_right (λ s m, _ ← step s; m) (mret tt) (note a); mret (Ok a)
  | Err error => mret (Err error)
  end.

(** [map_err(|error| format!("{prefix}: {error}"))]. *)
Definition or_error {e A : Type} (text : e → string) (prefix : string) (m : fm (result e A)) : fm (result string A) :=
  r ← m;
  mret (map_err (λ error, prefix +:+ ": " +:+ text error)%string r).
Definition io_error {A : Type} (prefix : string) (m : fm (result IoError A)) : fm (result string A) := or_error io_text prefix m.
Definition path_error {A : Type} (prefix : string) (m : fm (result string A)) : fm (result string A) := or_error (λ error, error) prefix m.

Definition warn (text : string) : fm unit := step (Warned text).

Definition stat (p : PathBuf) : fm (result IoError Metadata) :=
  r ← ask (symlink_metadata p);
  _ ← step (Statted p r);
  mret r.
Definition stat_handle (h : Z) : fm (result IoError Metadata) :=
  r ← ask (metadata_of h);
  _ ← step (HandleStatted h r);
  mret r.

Definition read (h n : Z) : fm (result IoError (list Byte)) := io (read_handle h n) (λ b, [ReadFrom h b]).
Definition flush (h : Z) : fm (result IoError unit) := ask (flush_handle h).
Definition sync_all (h : Z) : fm (result IoError unit) := io (sync_handle h) (λ _, [FileSynced h]).
Definition rewind (h : Z) : fm (result IoError unit) := io (rewind_handle h) (λ _, [Rewound h]).

Definition remove_file (p : PathBuf) : fm (result IoError unit) :=
  r ← ask (remove_path p);
  _ ← step (Removed p (is_ok r));
  mret r.
Definition rename (source destination : PathBuf) : fm (result IoError unit) :=
  r ← ask (rename_path source destination);
  _ ← step (RenamedTo source destination (is_ok r));
  mret r.

(** [Write::write]: the bytes that were taken. *)
Definition write (h : Z) (b : list Byte) : fm (result IoError Z) :=
  io (write_handle h b) (λ n, [WroteTo h (take (Z.to_nat n) b)]).

(** [Write::write_all]: an interrupted write is repeated, and a write that takes nothing
    is an error. *)
Fixpoint write_all (fuel : nat) (h : Z) (b : list Byte) : fm (result IoError unit) :=
  match fuel with
  | O => starved
  | S fuel =>
      if decide (b = []) then mret (Ok tt) else
      r ← write h b;
      match r with
      | Ok n => if decide (n ≤ 0) then mret (Err (OtherError "failed to write whole buffer")) else write_all fuel h (drop (Z.to_nat n) b)
      | Err Interrupted => write_all fuel h b
      | Err error => mret (Err error)
      end
  end.

(** ** Paths *)

Definition with_file_name (p : PathBuf) (name : string) : PathBuf := default [] (parent p) ++ [name].

(** A name at its last dot; [Path::extension] and [Path::file_stem]. *)
Definition dot : Ascii.ascii := Ascii.ascii_of_nat 46.
Fixpoint rsplit_dot (l : list Ascii.ascii) : option (list Ascii.ascii * list Ascii.ascii) :=
  match l with
  | [] => None
  | c :: l =>
      match rsplit_dot l with
      | Some (before, after) => Some (c :: before, after)
      | None => if decide (c = dot) then Some ([], l) else None
      end
  end.
Definition extension (p : PathBuf) : option string :=
  name ← file_name p;
  match rsplit_dot (String.list_ascii_of_string name) with
  | Some (_ :: _, ext) => Some (String.string_of_list_ascii ext)
  | _ => None
  end.
Definition file_stem (p : PathBuf) : option string :=
  name ← file_name p;
  Some match rsplit_dot (String.list_ascii_of_string name) with
       | Some ((_ :: _) as stem, _) => String.string_of_list_ascii stem
       | _ => name
       end.

(** [Path::strip_prefix]. *)
Fixpoint strip_prefix (prefix p : PathBuf) : option PathBuf :=
  match prefix, p with
  | [], _ => Some p
  | x :: prefix, y :: p => if decide (x = y) then strip_prefix prefix p else None
  | _ :: _, [] => None
  end.

Lemma strip_prefix_app prefix p rest : strip_prefix prefix p = Some rest → p = prefix ++ rest.
Proof.
  revert p. induction prefix as [|x prefix IH]; intros [|y p]; cbn; try (by intros [= <-]).
  case_decide as Hx; [|done]. subst. intros H. by rewrite (IH _ H).
Qed.

(** ** Private paths *)

Definition open_private_directory (fuel : nat) (p : PathBuf) : fm (result string Z) :=
  embed PathDid (Paths.Paths.open_private_directory fuel p).
Definition ensure_private_directory (fuel : nat) (p : PathBuf) : fm (result string unit) :=
  embed PathDid (Paths.Paths.ensure_private_directory fuel p).
Definition validate_private_file (fuel : nat) (h : Z) (p : PathBuf) : fm (result string unit) :=
  embed PathDid (Paths.Paths.validate_private_file fuel h p).

Definition open_private_file (fuel : nat) (p : PathBuf) : fm (result string Z) :=
  h ←? embed PathDid (Paths.Paths.open_private_file fuel p);
  _ ← step (Opened p h);
  mret (Ok h).
Definition create_private_file (fuel : nat) (p : PathBuf) : fm (result string Z) :=
  h ←? embed PathDid (Paths.Paths.create_private_file fuel p);
  _ ← step (Created p h);
  mret (Ok h).
Definition publish_private_path (fuel : nat) (source destination : PathBuf) : fm (result string unit) :=
  r ← embed PathDid (Paths.Paths.publish_private_path fuel source destination);
  _ ← step (Published source destination (is_ok r));
  mret r.

End Files.
End PluginFiles.

(** ** Reasoning about plugins that work on files

    [deeds l] are the steps of a trace that touch files or observe the context; [does P m]
    is the trace logic of Fueled.v on them. [FileLaws] bounds how often the system may
    interrupt a write. *)

Module PluginFilesSpec.
Export PluginFiles.
#[local] Open Scope Z_scope.

Definition telling (s : FileStep) : bool :=
  match s with PathDid _ | Warned _ => false | _ => true end.
Definition deeds (l : list FileStep) : list FileStep := filter (λ s, telling s = true) l.

Lemma deeds_app l l' : deeds (l ++ l') = deeds l ++ deeds l'.
Proof. apply filter_app. Qed.
Lemma deeds_paths l : deeds (map PathDid l) = [].
Proof. by induction l. Qed.

Section Logic.
Context {E : Type}.
#[local] Notation fm := (fueled E FileStep).

Definition does {A : Type} (P : list FileStep → A → Prop) (m : fm A) : Prop := ends (λ l a, P (deeds l) a) m.

(** A computation whose deeds all satisfy [P]. *)
Definition only {A : Type} (P : FileStep → Prop) (m : fm A) : Prop := does (λ l _, Forall P l) m.
#[local] Notation idle := (only (λ _, False)).

Lemma does_ret {A : Type} (P : list FileStep → A → Prop) a : P [] a → does P (mret a : fm A).
Proof. intros H. by apply (ends_ret (λ l a, P (deeds l) a)). Qed.
Lemma does_starved {A : Type} (P : list FileStep → A → Prop) : does P (starved : fm A).
Proof. apply ends_starved. Qed.
Lemma does_impl {A : Type} (P Q : list FileStep → A → Prop) (m : fm A) : does P m → (∀ l a, P l a → Q l a) → does Q m.
Proof. intros Hm H. eapply ends_impl; [exact Hm|]. auto. Qed.
Lemma does_bind {A B : Type} (P : list FileStep → A → Prop) (Q : list FileStep → B → Prop) (m : fm A) (f : A → fm B) :
  does P m → (∀ l a, P l a → does (λ l' b, Q (l ++ l') b) (f a)) → does Q (m ≫= f).
Proof.
  intros Hm Hf. eapply ends_bind; [exact Hm|]. intros l a HP. eapply ends_impl; [exact (Hf (deeds l) a HP)|].
  intros l' b H. by rewrite deeds_app.
Qed.
Lemma does_step {B : Type} (Q : list FileStep → B → Prop) s (f : unit → fm B) :
  telling s = true → does (λ l b, Q (s :: l) b) (f tt) → does Q (step s ≫= f).
Proof.
  intros Hs Hf. apply ends_step. eapply ends_impl; [exact Hf|]. intros l b H. unfold deeds. by rewrite filter_cons_True.
Qed.
Lemma does_idle {A B : Type} (Q : list FileStep → B → Prop) (m : fm A) (f : A → fm B) :
  idle m → (∀ a, does Q (f a)) → does Q (m ≫= f).
Proof. intros Hm Hf. apply (does_bind (λ l _, Forall (λ _, False) l)); [exact Hm|]. intros [|s l] a HP; [apply Hf|by inversion_clear HP]. Qed.

Lemma only_ret {A : Type} P (a : A) : only P (mret a : fm A).
Proof. apply does_ret. constructor. Qed.
Lemma only_starved {A : Type} P : only P (starved : fm A).
Proof. apply does_starved. Qed.
Lemma only_bind {A B : Type} P (m : fm A) (f : A → fm B) : only P m → (∀ a, only P (f a)) → only P (m ≫= f).
Proof.
  intros Hm Hf. apply (does_bind (λ l _, Forall P l)); [exact Hm|]. intros l a Hl. eapply does_impl; [apply Hf|]. intros. by apply Forall_app.
Qed.
Lemma only_ask {A : Type} P (f : E → A * E) : only P (ask f : fm A).
Proof. apply quiet_ends; [auto with cm|constructor]. Qed.
Lemma only_step (P : FileStep → Prop) s : (telling s = true → P s) → only P (step s : fm unit).
Proof.
  intros H. apply ends_of_traced, emit_emits. unfold deeds. destruct (telling s) eqn:Hs.
  - rewrite filter_cons_True by done. constructor; [by apply H|constructor].
  - rewrite filter_cons_False by (by rewrite Hs). constructor.
Qed.
Lemma only_impl {A : Type} (P Q : FileStep → Prop) (m : fm A) : (∀ s, P s → Q s) → only P m → only Q m.
Proof. intros H Hm. apply (does_impl (λ l _, Forall P l)); [exact Hm|]. intros l _ Hl. by eapply Forall_impl. Qed.
Lemma only_idle {A : Type} (P : FileStep → Prop) (m : fm A) : idle m → only P m.
Proof. apply only_impl. done. Qed.
Lemma idle_embed {A : Type} (m : fueled E Paths.Paths.PathStep A) : (∃ P, ends P m) → idle (embed PathDid m : fm A).
Proof.
  intros [P Hm]. eapply ends_impl; [by apply ends_embed|]. intros l a (l' & -> & _). rewrite deeds_paths. constructor.
Qed.

End Logic.

Notation idle := (only (λ _, False)).

#[export] Hint Resolve only_ret only_starved only_ask : cm.
#[export] Hint Extern 3 (only _ (step _)) => apply only_step; done : cm.

Ltac solve_only := repeat (intros; first [solve [auto with cm] | case_match | apply only_bind]).

(** ** The calls *)

Section Calls.
Context {E : Type} {clock : Clock E} {paths : Paths.Paths.PathOps E} {ops : FileOps E} {Txn Ctx : Type}.
#[local] Notation fm := (fueled E FileStep).
#[local] Notation PluginContext := (PluginContext Txn Ctx).

Lemma does_checked (context : PluginContext) : does (λ l b, l = [Checked b]) (is_timed_out context).
Proof.
  apply does_idle; [apply only_ask|]. intros cancelled. apply does_idle; [solve_only|].
  intros expired. by apply does_step, does_ret.
Qed.

(** A checkpoint that passes, or one that ends the plugin. *)
Lemma does_checkpoint {B : Type} (Q : list FileStep → result string B → Prop) (context : PluginContext) (f : unit → fm (result string B)) :
  Q [Checked true] (Err "plugin deadline reached"%string) → does (λ l r, Q (Checked false :: l) r) (f tt) →
  does Q (x ←? checkpoint context; f x).
Proof.
  intros Herr Hok. unfold checkpoint. eapply does_bind.
  { eapply does_bind; [apply does_checked|]. intros l b ->. apply does_ret.
    instantiate (1 := λ l r, (l = [Checked true] ∧ r = Err "plugin deadline reached"%string) ∨ (l = [Checked false] ∧ r = Ok tt)).
    destruct b; auto. }
  intros l r [[-> ->] | [-> ->]]; [by apply does_ret|exact Hok].
Qed.

Lemma only_checkpoint P (context : PluginContext) : (∀ b, P (Checked b)) → only P (checkpoint context).
Proof.
  intros HP. unfold checkpoint. apply only_bind; [|solve_only].
  eapply does_impl; [apply does_checked|]. intros l b ->. by repeat constructor.
Qed.

Lemma does_io {A : Type} (f : E → result IoError A * E) note :
  (∀ a, Forall (λ s, telling s = true) (note a)) →
  does (λ l r, l = match r with Ok a => note a | Err _ => [] end) (io f note).
Proof.
  intros Hn. apply does_idle; [apply only_ask|]. intros [a|error]; [|by apply does_ret]. specialize (Hn a).
  apply (does_bind (λ l _, l = note a)); [|intros l [] ->; apply does_ret; by rewrite app_nil_r].
  induction Hn as [|s l Hs _ IH]; [by apply does_ret|]. apply does_step; [done|].
  eapply does_impl; [exact IH|]. by intros ? ? ->.
Qed.

(** A failed call whose error is given a text. *)
Lemma does_or_error {e A : Type} (P : list FileStep → result e A → Prop) (text : e → string) prefix (m : fm (result e A)) :
  does P m → does (λ l r, ∃ r', P l r' ∧ r = map_err (λ error, prefix +:+ ": " +:+ text error)%string r') (or_error text prefix m).
Proof. intros Hm. eapply does_bind; [exact Hm|]. intros l r H. apply does_ret. exists r. by rewrite app_nil_r. Qed.

(** [?] on a call with deeds [P] on success and [Q] on failure. *)
Lemma does_try {A B : Type} (P : list FileStep → result string A → Prop) (Q : list FileStep → result string B → Prop)
    (m : fm (result string A)) (f : A → fm (result string B)) :
  does P m → (∀ l error, P l (Err error) → Q l (Err error)) →
  (∀ l a, P l (Ok a) → does (λ l' r, Q (l ++ l') r) (f a)) → does Q (x ←? m; f x).
Proof.
  intros Hm Herr Hok. eapply does_bind; [exact Hm|]. intros l [a|error] H; [by apply Hok|].
  apply does_ret. rewrite app_nil_r. by apply Herr.
Qed.

Lemma does_try_io {e A B : Type} (P : list FileStep → result e A → Prop) (Q : list FileStep → result string B → Prop)
    (text : e → string) prefix (m : fm (result e A)) (f : A → fm (result string B)) :
  does P m → (∀ l error error', P l (Err error) → Q l (Err error')) →
  (∀ l a, P l (Ok a) → does (λ l' r, Q (l ++ l') r) (f a)) → does Q (x ←? or_error text prefix m; f x).
Proof.
  intros Hm Herr Hok. eapply does_try; [by apply does_or_error| |].
  - intros l error ([a|error'] & H & [=]). by eapply Herr.
  - intros l a ([a'|error'] & H & [=]). subst. by apply Hok.
Qed.

Lemma does_pure {A B : Type} (Q : list FileStep → result string B → Prop) (r : result string A) (f : A → fm (result string B)) :
  (∀ error, r = Err error → Q [] (Err error)) → (∀ a, r = Ok a → does Q (f a)) → does Q (x ←? mret r; f x).
Proof. destruct r as [a|error]; intros He Ha; [exact (Ha a eq_refl)|]. apply does_ret. by apply He. Qed.

Lemma does_try_idle {A B : Type} (Q : list FileStep → result string B → Prop)
    (m : fm (result string A)) (f : A → fm (result string B)) :
  idle m → (∀ error, Q [] (Err error)) → (∀ a, does Q (f a)) → does Q (x ←? m; f x).
Proof. intros Hm Herr Hok. apply does_idle; [exact Hm|]. intros [a|error]; [apply Hok|by apply does_ret]. Qed.

Lemma does_stat p : does (λ l r, l = [Statted p r]) (stat p).
Proof. apply does_idle; [apply only_ask|]. intros r. by apply does_step, does_ret. Qed.
Lemma does_stat_handle h : does (λ l r, l = [HandleStatted h r]) (stat_handle h).
Proof. apply does_idle; [apply only_ask|]. intros r. by apply does_step, does_ret. Qed.
Lemma does_read h n : does (λ l r, l = match r with Ok b => [ReadFrom h b] | Err _ => [] end) (read h n).
Proof. apply does_io. by repeat constructor. Qed.
Lemma does_write h b : does (λ l r, l = match r with Ok n => [WroteTo h (take (Z.to_nat n) b)] | Err _ => [] end) (write h b).
Proof. apply does_io. by repeat constructor. Qed.
Lemma does_sync_all h : does (λ l r, l = match r with Ok _ => [FileSynced h] | Err _ => [] end) (sync_all h).
Proof. apply does_io. by repeat constructor. Qed.
Lemma does_rewind h : does (λ l r, l = match r with Ok _ => [Rewound h] | Err _ => [] end) (rewind h).
Proof. apply does_io. by repeat constructor. Qed.
Lemma idle_flush h : idle (flush h).
Proof. apply only_ask. Qed.
Lemma idle_warn text : idle (warn text : fm unit).
Proof. by apply only_step. Qed.
Lemma does_remove p : does (λ l r, l = [Removed p (is_ok r)]) (remove_file p).
Proof. apply does_idle; [apply only_ask|]. intros r. by apply does_step, does_ret. Qed.
Lemma does_rename p q : does (λ l r, l = [RenamedTo p q (is_ok r)]) (rename p q).
Proof. apply does_idle; [apply only_ask|]. intros r. by apply does_step, does_ret. Qed.

Lemma idle_open_directory fuel p : idle (open_private_directory fuel p).
Proof. apply idle_embed. eexists. apply PathsSpec.PathsSpec.gives_open_directory. Qed.
Lemma idle_ensure fuel p : idle (ensure_private_directory fuel p).
Proof.
  apply idle_embed. exists (λ _ _, True). eapply ends_bind; [apply PathsSpec.PathsSpec.gives_ensure|].
  intros l [|] _; by apply ends_ret.
Qed.
Lemma idle_validate fuel h p : idle (validate_private_file fuel h p).
Proof. apply idle_embed. eexists. apply PathsSpec.PathsSpec.gives_private. Qed.
Lemma does_open_file fuel p : does (λ l r, l = match r with Ok h => [Opened p h] | Err _ => [] end) (open_private_file fuel p).
Proof.
  apply does_idle; [apply idle_embed; eexists; apply PathsSpec.PathsSpec.gives_open_file|].
  intros [h|error]; [by apply does_step, does_ret|by apply does_ret].
Qed.
Lemma only_open_file P fuel p : (∀ h, P (Opened p h)) → only P (open_private_file fuel p).
Proof. intros HP. eapply does_impl; [apply does_open_file|]. intros l [] ->; by repeat constructor. Qed.
Lemma does_publish fuel p q : does (λ l r, l = [Published p q (is_ok r)]) (publish_private_path fuel p q).
Proof.
  apply does_idle; [apply idle_embed; eexists; apply PathsPublish.PathsPublish.ends_publish|].
  intros r. by apply does_step, does_ret.
Qed.
Lemma does_create fuel p : does (λ l r, l = match r with Ok h => [Created p h] | Err _ => [] end) (create_private_file fuel p).
Proof.
  apply does_idle; [apply idle_embed; eexists; apply PathsSpec.PathsSpec.gives_create_file|].
  intros [h|error]; [by apply does_step, does_ret|by apply does_ret].
Qed.

(** ** Bytes *)

Definition read_bytes (l : list FileStep) : list Byte := concat (map (λ s, match s with ReadFrom _ b => b | _ => [] end) l).
Definition written_bytes (l : list FileStep) : list Byte := concat (map (λ s, match s with WroteTo _ b => b | _ => [] end) l).

Lemma read_bytes_app l l' : read_bytes (l ++ l') = read_bytes l ++ read_bytes l'.
Proof. unfold read_bytes. by rewrite map_app, concat_app. Qed.
Lemma written_bytes_app l l' : written_bytes (l ++ l') = written_bytes l ++ written_bytes l'.
Proof. unfold written_bytes. by rewrite map_app, concat_app. Qed.

Lemma read_bytes_cons s l : read_bytes (s :: l) = match s with ReadFrom _ b => b | _ => [] end ++ read_bytes l.
Proof. done. Qed.
Lemma written_bytes_cons s l : written_bytes (s :: l) = match s with WroteTo _ b => b | _ => [] end ++ written_bytes l.
Proof. done. Qed.

(** Writes to one handle. *)
Definition writes_to (h : Z) (s : FileStep) : Prop := ∃ b, s = WroteTo h b.

(** [write_all] writes a prefix, and everything when it succeeds. *)
Lemma does_write_all fuel h b :
  does (λ l r, Forall (writes_to h) l ∧ read_bytes l = [] ∧ (r = Ok tt → written_bytes l = b)) (write_all fuel h b).
Proof.
  revert b. induction fuel as [|fuel IH]; intros b; [apply does_starved|]. cbn [write_all].
  case_decide as Hb; [subst; by apply does_ret|].
  eapply does_bind; [apply does_write|]. intros l [n|error] ->.
  - case_decide as Hn.
    + apply does_ret. split_and!; [|done|done]. constructor; [by eexists|constructor].
    + eapply does_impl; [apply IH|]. intros l r (H1 & H2 & H3). split_and!; [constructor; [by eexists|done]|by rewrite read_bytes_app, H2|].
      intros Hr. rewrite written_bytes_app, H3 by done. cbn. rewrite app_nil_r. apply take_drop.
  - destruct error; try (apply does_ret; by split_and!). eapply does_impl; [apply IH|]. done.
Qed.

End Calls.

#[export] Hint Rewrite @read_bytes_app @written_bytes_app @read_bytes_cons @written_bytes_cons @app_nil_r : bytes.
Ltac bytes := autorewrite with bytes; cbn [app].

#[export] Hint Resolve only_idle idle_flush idle_warn idle_open_directory idle_ensure idle_validate : cm.

(** ** Publications *)

Section Backs.
Context {E : Type} {clock : Clock E} {paths : Paths.Paths.PathOps E} {ops : FileOps E} {Txn Ctx : Type}.
#[local] Notation fm := (fueled E FileStep).
#[local] Notation PluginContext := (PluginContext Txn Ctx).

(** Every publication of a run is one of [publish_private_path], with the steps on paths that
    lead to its answer right before it. *)
Definition backed (l : list FileStep) : Prop :=
  ∀ before source destination ok behind, l = before ++ Published source destination ok :: behind →
    ∃ earlier steps r, before = earlier ++ map PathDid steps ∧ is_ok r = ok ∧
      PathsPublish.PathsPublish.publication source destination steps r.

Lemma backed_nil : backed [].
Proof. intros [|x before] source destination ok behind Heq; discriminate Heq. Qed.
Lemma backed_app l l' : backed l → backed l' → backed (l ++ l').
Proof.
  intros H H' before source destination ok behind Heq.
  apply app_eq_app in Heq as (k & [[-> Hk]|[-> Hk]]).
  - destruct k as [|x k]; [|injection Hk as <- Hk; by apply (H before source destination ok k)].
    rewrite app_nil_r in H. destruct (H' [] source destination ok behind) as (earlier & steps & r & Hb & Hr); [exact (eq_sym Hk)|].
    exists before, [], r. symmetry in Hb. apply app_eq_nil in Hb as [-> Hs]. apply map_eq_nil in Hs as ->.
    rewrite !app_nil_r. done.
  - destruct (H' k source destination ok behind Hk) as (earlier & steps & r & -> & Hr). exists (l ++ earlier), steps, r.
    by rewrite app_assoc.
Qed.

Definition unpublished (s : FileStep) : bool := match s with Published _ _ _ => false | _ => true end.
Lemma backed_unpublished l : Forall (λ s, unpublished s = true) l → backed l.
Proof.
  intros Hl before source destination ok behind ->. apply Forall_app in Hl as [_ Hl]. inversion Hl. done.
Qed.

Definition backs {A : Type} (m : fm A) : Prop := ends (λ l _, backed l) m.

Lemma backs_ret {A : Type} (a : A) : backs (mret a : fm A).
Proof. apply ends_ret, backed_nil. Qed.
Lemma backs_starved {A : Type} : backs (starved : fm A).
Proof. apply ends_starved. Qed.
Lemma backs_bind {A B : Type} (m : fm A) (f : A → fm B) : backs m → (∀ a, backs (f a)) → backs (m ≫= f).
Proof.
  intros Hm Hf. eapply ends_bind; [exact Hm|]. intros l a Hl. eapply ends_impl; [apply Hf|].
  intros l' b Hl'. by apply backed_app.
Qed.
Lemma backs_ask {A : Type} (f : E → A * E) : backs (ask f : fm A).
Proof. apply quiet_ends; [auto with cm|intros; apply backed_nil]. Qed.
Lemma backs_step s : unpublished s = true → backs (step s : fm unit).
Proof. intros Hs. apply ends_of_traced, emit_emits, backed_unpublished. by repeat constructor. Qed.
Lemma backs_embed {A : Type} (m : fueled E Paths.Paths.PathStep A) : (∃ P, ends P m) → backs (embed PathDid m : fm A).
Proof.
  intros [P Hm]. eapply ends_impl; [by apply ends_embed|]. intros l a (l' & -> & _).
  apply backed_unpublished, Forall_fmap, Forall_true. done.
Qed.

#[local] Hint Resolve backs_ret backs_starved backs_ask : cm.
#[local] Hint Extern 3 (backs (step _)) => apply backs_step; done : cm.
#[local] Ltac solve_backs := repeat (intros; first [solve [auto with cm] | case_match | apply backs_bind]).

Lemma backs_timed_out (context : PluginContext) : backs (is_timed_out context).
Proof. unfold is_timed_out. solve_backs. Qed.
#[local] Hint Resolve backs_timed_out : cm.
Lemma backs_checkpoint (context : PluginContext) : backs (checkpoint context).
Proof. unfold checkpoint. solve_backs. Qed.
Lemma backs_io {A : Type} (f : E → result IoError A * E) note :
  (∀ a, Forall (λ s, unpublished s = true) (note a)) → backs (io f note).
Proof.
  intros Hn. apply backs_bind; [apply backs_ask|]. intros [a|error]; [|apply backs_ret].
  apply backs_bind; [|intros; apply backs_ret].
  induction (Hn a) as [|s l Hs _ IH]; [apply backs_ret|]. apply backs_bind; [by apply backs_step|done].
Qed.
Lemma backs_or_error {e A : Type} (text : e → string) prefix (m : fm (result e A)) : backs m → backs (or_error text prefix m).
Proof. intros Hm. unfold or_error. solve_backs. Qed.
Lemma backs_io_error {A : Type} prefix (m : fm (result IoError A)) : backs m → backs (io_error prefix m).
Proof. apply backs_or_error. Qed.
Lemma backs_path_error {A : Type} prefix (m : fm (result string A)) : backs m → backs (path_error prefix m).
Proof. apply backs_or_error. Qed.
Lemma backs_warn text : backs (warn text : fm unit).
Proof. by apply backs_step. Qed.
Lemma backs_stat p : backs (stat p).
Proof. unfold stat. solve_backs. Qed.
Lemma backs_stat_handle h : backs (stat_handle h).
Proof. unfold stat_handle. solve_backs. Qed.
Lemma backs_read h n : backs (read h n).
Proof. apply backs_io. by repeat constructor. Qed.
Lemma backs_write h b : backs (write h b).
Proof. apply backs_io. by repeat constructor. Qed.
Lemma backs_sync_all h : backs (sync_all h).
Proof. apply backs_io. by repeat constructor. Qed.
Lemma backs_flush h : backs (flush h).
Proof. apply backs_ask. Qed.
Lemma backs_remove p : backs (remove_file p).
Proof. unfold remove_file. solve_backs. Qed.
#[local] Hint Resolve backs_write : cm.
Lemma backs_write_all fuel h b : backs (write_all fuel h b).
Proof. revert b. induction fuel; intros; cbn [write_all]; solve_backs. Qed.
Lemma backs_open_directory fuel p : backs (open_private_directory fuel p).
Proof. apply backs_embed. eexists. apply PathsSpec.PathsSpec.gives_open_directory. Qed.
Lemma backs_open_file fuel p : backs (open_private_file fuel p).
Proof. apply backs_bind; [apply backs_embed; eexists; apply PathsSpec.PathsSpec.gives_open_file|]. solve_backs. Qed.
Lemma backs_create fuel p : backs (create_private_file fuel p).
Proof. apply backs_bind; [apply backs_embed; eexists; apply PathsSpec.PathsSpec.gives_create_file|]. solve_backs. Qed.
Lemma backs_publish fuel p q : backs (publish_private_path fuel p q).
Proof.
  eapply ends_bind; [apply ends_embed, PathsPublish.PathsPublish.ends_publish|]. intros l r (steps & -> & Hp).
  apply ends_step, ends_ret. intros before source destination ok behind Heq.
  assert (∀ (ss : list Paths.Paths.PathStep) (b : list FileStep), map PathDid ss ++ [Published p q (is_ok r)] = b ++ Published source destination ok :: behind →
    b = map PathDid ss ∧ p = source ∧ q = destination ∧ is_ok r = ok) as H.
  { intros ss. induction ss as [|x ss IH]; intros [|y b] H; cbn [map app] in H.
    - by injection H as -> -> ->.
    - injection H as _ H. by destruct b.
    - discriminate H.
    - injection H as <- H. destruct (IH b H) as (-> & ? & ? & ?). done. }
  destruct (H _ _ Heq) as (-> & <- & <- & <-). by exists [], steps, r.
Qed.

(** What holds of the deeds of a run, with its publications backed. *)
Lemma ends_backed {A : Type} (P : list FileStep → A → Prop) (m : fm A) :
  ends P m → backs m → ends (λ l a, P l a ∧ backed l) m.
Proof.
  intros HP HQ w. destruct (HP w) as (l & Hl & H1), (HQ w) as (l' & Hl' & H2).
  rewrite Hl in Hl'. apply app_inv_head in Hl' as <-. exists l. split; [done|]. intros a Ha. split; [by apply H1|by eapply H2].
Qed.

End Backs.

#[export] Hint Resolve backs_ret backs_starved backs_ask backs_timed_out backs_checkpoint backs_io_error backs_path_error
  backs_or_error backs_warn backs_stat backs_stat_handle backs_read backs_write backs_sync_all backs_flush backs_remove
  backs_write_all backs_open_directory backs_open_file backs_create backs_publish : cm.
#[export] Hint Extern 3 (backs (step _)) => apply backs_step; done : cm.
Ltac solve_backs := repeat (intros; first [solve [auto with cm] | case_match | apply backs_bind]).

(** ** Answers within a budget *)

(** The budget bounds how often a write is still interrupted; a read fills at most its
    buffer. *)
Class FileLaws (E : Type) {ops : FileOps E} (budget : E → nat) : Prop := {
  law_cancel : calm budget cancel_loaded;
  law_metadata p : calm budget (symlink_metadata p);
  law_follow p : calm budget (follow_metadata p);
  law_metadata_of h : calm budget (metadata_of h);
  law_read h n : calm budget (read_handle h n);
  law_read_length h n e b : (read_handle h n e).1 = Ok b → Z.of_nat (length b) ≤ Z.max 0 n;
  law_write h b e : (budget (write_handle h b e).2 ≤ budget e ∧
    ((write_handle h b e).1 = Err Interrupted → budget (write_handle h b e).2 < budget e))%nat;
  law_flush h : calm budget (flush_handle h);
  law_sync h : calm budget (sync_handle h);
  law_rewind h : calm budget (rewind_handle h);
  law_remove p : calm budget (remove_path p);
  law_rename_path p q : calm budget (rename_path p q);
  law_fresh : calm budget fresh_name
}.

#[export] Hint Resolve settles_call law_cancel law_metadata law_follow law_metadata_of law_read law_flush law_sync law_rewind
  law_remove law_rename_path law_fresh : cm.

Ltac settle := repeat (intros; first [solve [eauto with cm] | case_match | apply settles_then]).

Section Answers.
Context {E : Type} {clock : Clock E} {paths : Paths.Paths.PathOps E} {ops : FileOps E} {Txn Ctx : Type} {budget : E → nat}
  {elapsed : E → Z} {time : PathsSpec.PathsSpec.PathTime E elapsed} {path_laws : PathsSpec.PathsSpec.PathLaws E budget}
  {laws : FileLaws E budget}.
#[local] Notation fm := (fueled E FileStep).
#[local] Notation PluginContext := (PluginContext Txn Ctx).
#[local] Hint Resolve PathsSpec.PathsSpec.law_now : cm.

Lemma is_timed_out_settles n (context : PluginContext) : settles budget n (is_timed_out context).
Proof. unfold is_timed_out. settle. Qed.
#[local] Hint Resolve is_timed_out_settles : cm.
Lemma checkpoint_settles n (context : PluginContext) : settles budget n (checkpoint context).
Proof. unfold checkpoint. settle. Qed.
Lemma note_settles n (l : list FileStep) : settles budget n (fold_right (λ s (m : fm unit), _ ← step s; m) (mret tt) l).
Proof. induction l; [apply settles_answer|]. apply settles_then; [apply settles_emit|done]. Qed.
#[local] Hint Resolve note_settles : cm.
Lemma io_settles {A : Type} n (f : E → result IoError A * E) note : calm budget f → settles budget n (io f note).
Proof. intros Hf. unfold io. settle. Qed.
Lemma or_error_settles {e A : Type} n (text : e → string) prefix (m : fm (result e A)) :
  settles budget n m → settles budget n (or_error text prefix m).
Proof. intros Hm. unfold or_error. settle. Qed.
#[local] Hint Resolve io_settles : cm.

Lemma stat_settles n p : settles budget n (stat p).
Proof. unfold stat. settle. Qed.
Lemma stat_handle_settles n h : settles budget n (stat_handle h).
Proof. unfold stat_handle. settle. Qed.
Lemma sync_all_settles n h : settles budget n (sync_all h).
Proof. unfold sync_all. settle. Qed.
Lemma read_settles n h m : settles budget n (read h m).
Proof. apply io_settles, law_read. Qed.
Lemma flush_settles n h : settles budget n (flush h).
Proof. unfold flush. settle. Qed.
Lemma remove_settles n p : settles budget n (remove_file p).
Proof. unfold remove_file. settle. Qed.
Lemma rename_file_settles n p q : settles budget n (rename p q).
Proof. unfold rename. settle. Qed.
Lemma warn_settles n text : settles budget n (warn text : fm unit).
Proof. apply settles_emit. Qed.

(** The bytes of a read fit its buffer. *)
Lemma read_answers h n w :
  answers (λ r w', (budget (env w') ≤ budget (env w))%nat ∧ ∀ b, r = Ok b → Z.of_nat (length b) ≤ Z.max 0 n) (read h n) w.
Proof.
  unfold read, io. pose proof (law_read h n (env w)) as Hb. pose proof (law_read_length h n (env w)) as Hl.
  eapply (answers_bind (λ r w', r = (read_handle h n (env w)).1 ∧ (budget (env w') ≤ budget (env w))%nat)); [by apply answers_ask|].
  intros [b|error] w' [Hr Hw'].
  - eapply (answers_bind (λ _ w'', (budget (env w'') ≤ budget (env w))%nat)); [by apply answers_step|].
    intros [] w'' Hw''. apply answers_ret. split; [done|]. intros ? [= <-]. by apply Hl.
  - by apply answers_ret.
Qed.

Lemma write_answers h b w :
  answers (λ r w', (budget (env w') ≤ budget (env w))%nat ∧ (r = Err Interrupted → budget (env w') < budget (env w))%nat)
    (write h b) w.
Proof.
  unfold write, io. pose proof (law_write h b (env w)) as [Hb Hl].
  eapply (answers_bind (λ r w', r = (write_handle h b (env w)).1 ∧ env w' = (write_handle h b (env w)).2)); [by apply answers_ask|].
  intros [n|error] w' [Hr Hw'].
  - eapply (answers_bind (λ _ w'', env w'' = env w')); [by apply answers_step|].
    intros [] w'' Hw''. apply answers_ret. rewrite Hw'', Hw'. split; [done|]. done.
  - apply answers_ret. rewrite Hw'. split; [done|]. intros [= ->]. by apply Hl.
Qed.

(** Every turn of [write_all] takes a byte or was interrupted. *)
Lemma write_all_answers fuel h b w :
  (length b + budget (env w) < fuel)%nat →
  answers (λ _ w', budget (env w') ≤ budget (env w))%nat (write_all fuel h b) w.
Proof.
  revert b w. induction fuel as [|fuel IH]; intros b w Hw; [lia|]. cbn [write_all].
  case_decide as Hb; [by apply answers_ret|]. eapply answers_bind; [apply write_answers|].
  intros [n|error] w' [Hle Hlt].
  - case_decide as Hn; [by apply answers_ret|]. eapply answers_impl; [apply IH|simpl; intros; lia].
    rewrite length_drop. destruct b; [done|]. simpl in *. lia.
  - destruct error; try by apply answers_ret. specialize (Hlt eq_refl).
    eapply answers_impl; [apply IH|simpl; intros]; lia.
Qed.
Lemma write_all_settles n fuel h b : (length b + n ≤ fuel)%nat → settles budget n (write_all fuel h b).
Proof. intros Hn w Hw. apply write_all_answers. lia. Qed.

Context {fuel : nat} (Hfuel : Paths.Paths.PERMISSION_RACE_DEADLINE < Z.of_nat fuel).

Lemma open_private_directory_settles n p : (n ≤ fuel)%nat → settles budget n (open_private_directory fuel p).
Proof. intros Hn. apply settles_embed, (settles_less fuel); [done|]. by apply PathsSpec.PathsSpec.open_directory_settles. Qed.
Lemma ensure_directory_settles n p : (n ≤ fuel)%nat → settles budget n (ensure_private_directory fuel p).
Proof.
  intros Hn. apply settles_embed, (settles_less fuel); [done|]. apply settles_then; [by apply PathsSpec.PathsSpec.ensure_settles|].
  intros []; apply settles_answer.
Qed.
Lemma validate_settles n h p : (n ≤ fuel)%nat → settles budget n (validate_private_file fuel h p).
Proof. intros Hn. apply settles_embed, (settles_less fuel); [done|]. by apply PathsSpec.PathsSpec.private_settles. Qed.
Lemma open_private_file_settles n p : (n ≤ fuel)%nat → settles budget n (open_private_file fuel p).
Proof.
  intros Hn. apply settles_then; [|settle].
  apply settles_embed, (settles_less fuel); [done|]. by apply PathsSpec.PathsSpec.open_file_settles.
Qed.
Lemma create_private_file_settles n p : (n ≤ fuel)%nat → settles budget n (create_private_file fuel p).
Proof.
  intros Hn. apply settles_then; [|settle].
  apply settles_embed, (settles_less fuel); [done|]. by apply PathsSpec.PathsSpec.create_file_settles.
Qed.
Lemma publish_path_settles n p q : (n ≤ fuel)%nat → settles budget n (publish_private_path fuel p q).
Proof.
  intros Hn. apply settles_then; [|settle].
  apply settles_embed, (settles_less fuel); [done|]. by apply PathsPublish.PathsPublish.publish_settles.
Qed.

End Answers.

#[export] Hint Resolve checkpoint_settles is_timed_out_settles or_error_settles stat_settles stat_handle_settles read_settles
  sync_all_settles flush_settles remove_settles rename_file_settles warn_settles : cm.

End PluginFilesSpec.
