(* ===== verification/MoveToSent.v ===== *)
(** * Relocating finished reports (src/postprocessors/move_to_sent.rs)

    The move of a report file: a rename within a file system, or a copy that is published
    before the source is removed. *)

From stdpp Require Import pretty.
From S2P Require Import Prelude.
From S2P Require Import Traced.
From S2P Require Import Fueled.
From S2P Require Import PipelineTypes.
From S2P Require Import PluginRun.
From S2P Require Artifact.
From S2P Require Paths.
From S2P Require Import PluginFiles.
From S2P Require PathsSpec.

Module MoveToSent.
Export PluginFiles.
#[local] Open Scope Z_scope.

Definition MAX_MOVE_FILE_BYTES : Z := 576 * 1024 * 1024.
Definition STREAM_BUFFER_BYTES : Z := 64 * 1024.

Section Move.
Context {E : Type} {clock : Clock E} {paths : Paths.Paths.PathOps E} {ops : FileOps E} {Txn Ctx : Type}.
#[local] Notation fm := (fueled E FileStep).
#[local] Notation PluginContext := (PluginContext Txn Ctx).

Definition validate_regular_size (p : PathBuf) (m : Metadata) : result string unit :=
  if negb (is_file m) then Err ("source is not a regular file: " +:+ quoted p)%string
  else if decide (MAX_MOVE_FILE_BYTES < len m) then
    Err ("source " +:+ quoted p +:+ " exceeds move limit (" +:+ pretty (len m) +:+ " > " +:+ pretty MAX_MOVE_FILE_BYTES +:+ ")")%string
  else Ok tt.

Definition unchanged (a b : Metadata) : bool := same_file a b && bool_decide (len a = len b).

Definition move_tmp_path (dst : PathBuf) : fm (result string PathBuf) :=
  match file_name dst with
  | None => mret (Err ("destination has no valid filename: " +:+ quoted dst)%string)
  | Some name =>
      uuid ← ask fresh_name;
      mret (Ok (with_file_name dst ("." +:+ name +:+ ".move-" +:+ uuid +:+ ".tmp")%string))
  end.

Definition sync_parent_directory (fuel : nat) (p : PathBuf) (kind : string) : fm (result string unit) :=
  match parent p with
  | None => mret (Err (kind +:+ " path has no parent: " +:+ quoted p)%string)
  | Some directory =>
      h ←? open_private_directory fuel directory;
      io_error ("cannot sync " +:+ kind +:+ " directory " +:+ quoted directory)%string (sync_all h)
  end.

Definition warn_directory_sync (fuel : nat) (p : PathBuf) (kind : string) : fm unit :=
  r ← sync_parent_directory fuel p kind;
  match r with
  | Ok _ => mret tt
  | Err error =>
      warn ("[monitor] MoveToSent: " +:+ kind +:+ " " +:+ quoted p +:+
              " changed atomically but its parent directory could not be synced: " +:+ error)%string
  end.

(** ** Copies *)

(** The bytes that were copied when the source ends. *)
Fixpoint copy_loop (steps fuel : nat) (input output : Z) (src tmp : PathBuf) (context : PluginContext) (copied : Z)
    : fm (result string Z) :=
  match steps with
  | O => starved
  | S steps =>
      _ ←? checkpoint context;
      chunk ←? io_error ("copy read " +:+ quoted src)%string (read input STREAM_BUFFER_BYTES);
      if decide (chunk = []) then mret (Ok copied) else
      let copied := copied + Z.of_nat (length chunk) in
      if decide (2 ^ 64 ≤ copied) then mret (Err "copy size overflow"%string)
      else if decide (MAX_MOVE_FILE_BYTES < copied) then
        mret (Err ("source " +:+ quoted src +:+ " exceeded move limit while copying")%string)
      else
      _ ←? io_error ("copy write " +:+ quoted tmp)%string (write_all fuel output chunk);
      _ ←? checkpoint context;
      copy_loop steps fuel input output src tmp context copied
  end.

(** From the empty temporary file to the published destination; cancellation is observed
    up to the publication and not after it. *)
Definition copy_and_publish (fuel : nat) (input output : Z) (src tmp dst : PathBuf) (context : PluginContext)
    (source_metadata : Metadata) : fm (result string unit) :=
  copied ←? copy_loop fuel fuel input output src tmp context 0;
  if decide (copied ≠ len source_metadata) then
    mret (Err ("source " +:+ quoted src +:+ " changed size while copying (" +:+ pretty copied +:+ " != " +:+
                 pretty (len source_metadata) +:+ ")")%string)
  else
  _ ←? io_error "cannot flush move temporary file" (flush output);
  _ ←? io_error "cannot sync move temporary file" (sync_all output);
  current_metadata ←? io_error ("cannot re-inspect source " +:+ quoted src)%string (stat src);
  if negb (unchanged source_metadata current_metadata) then
    mret (Err ("source changed during copy: " +:+ quoted src)%string)
  else
  _ ←? checkpoint context;
  _ ←? path_error "publish copied file" (publish_private_path fuel tmp dst);
  _ ← warn_directory_sync fuel dst "destination";
  removed ← remove_file src;
  _ ← match removed with
      | Ok _ => warn_directory_sync fuel src "source"
      | Err error =>
          warn ("[monitor] MoveToSent: destination " +:+ quoted dst +:+ " is canonical but redundant source " +:+
                  quoted src +:+ " could not be removed: " +:+ io_text error)%string
      end;
  mret (Ok tt).

Definition copy_across_filesystems (fuel : nat) (src dst : PathBuf) (context : PluginContext) (initial_metadata : Metadata)
    : fm (result string unit) :=
  _ ←? checkpoint context;
  input ←? path_error ("cannot open source " +:+ quoted src)%string (open_private_file fuel src);
  source_metadata ←? io_error ("cannot inspect source " +:+ quoted src)%string (stat_handle input);
  _ ←? mret (validate_regular_size src source_metadata);
  if negb (unchanged initial_metadata source_metadata) then
    mret (Err ("source changed before copy: " +:+ quoted src)%string)
  else
  _ ←? checkpoint context;
  tmp ←? move_tmp_path dst;
  output ←? path_error ("cannot create move temporary file " +:+ quoted tmp)%string (create_private_file fuel tmp);
  copy_result ← copy_and_publish fuel input output src tmp dst context source_metadata;
  match copy_result with
  | Ok _ => mret (Ok tt)
  | Err error => _ ← remove_file tmp; mret (Err error)
  end.

(** ** Moves *)

Definition move_file_with (fuel : nat) (src dst : PathBuf) (context : PluginContext)
    (rename : PathBuf → PathBuf → fm (result IoError unit)) : fm (result string unit) :=
  _ ←? checkpoint context;
  match parent src, parent dst with
  | None, _ => mret (Err ("source has no parent: " +:+ quoted src)%string)
  | Some source_parent, destination_parent =>
      _ ←? path_error ("cannot safely open source directory " +:+ quoted source_parent)%string
             (open_private_directory fuel source_parent);
      match destination_parent with
      | None => mret (Err ("destination has no parent: " +:+ quoted dst)%string)
      | Some destination_parent =>
          _ ←? (if decide (destination_parent ≠ source_parent) then
                  path_error ("cannot safely open destination directory " +:+ quoted destination_parent)%string
                    (open_private_directory fuel destination_parent)
                else mret (Ok 0));
          metadata ←? io_error ("cannot inspect source " +:+ quoted src)%string (stat src);
          _ ←? mret (validate_regular_size src metadata);
          source ←? path_error ("cannot safely open source " +:+ quoted src)%string (open_private_file fuel src);
          opened_metadata ←? io_error ("cannot inspect source " +:+ quoted src)%string (stat_handle source);
          if negb (unchanged metadata opened_metadata) then
            mret (Err ("source changed before move: " +:+ quoted src)%string)
          else
          _ ←? checkpoint context;
          renamed ← rename src dst;
          match renamed with
          | Ok _ =>
              _ ← warn_directory_sync fuel dst "destination";
              _ ← (if decide (source_parent ≠ destination_parent) then warn_directory_sync fuel src "source" else mret tt);
              mret (Ok tt)
          | Err CrossDevice => copy_across_filesystems fuel src dst context metadata
          | Err error => mret (Err ("rename: " +:+ io_text error)%string)
          end
      end
  end.

(** The rename of [move_file]: only within a device. *)
Definition rename_within (fuel : nat) (source_device destination_device : Z) (source destination : PathBuf)
    : fm (result IoError unit) :=
  if decide (source_device ≠ destination_device) then mret (Err CrossDevice) else
  r ← publish_private_path fuel source destination;
  mret (map_err OtherError r).

Definition move_file (fuel : nat) (src dst : PathBuf) (context : PluginContext) : fm (result string unit) :=
  source ←? io_error ("cannot inspect source " +:+ quoted src)%string (stat src);
  match parent dst with
  | None => mret (Err ("destination has no parent: " +:+ quoted dst)%string)
  | Some destination_parent =>
      destination ←? io_error ("cannot inspect destination directory " +:+ quoted destination_parent)%string
                       (ask (follow_metadata destination_parent));
      move_file_with fuel src dst context
        (rename_within fuel (Paths.Paths.meta_dev (node source)) (Paths.Paths.meta_dev (node destination)))
  end.

(** ** The plugin *)

Context {transactions : TransactionOps E Txn}.

(** [data_dir_path] is the parsed data directory, [sent_dir_override] the directory of a
    test. *)
Definition resolve_sent_dir (fuel : nat) (data_dir_path : result string PathBuf) (sent_dir_override : option PathBuf)
    (pending : PathBuf) : fm (result string PathBuf) :=
  match sent_dir_override with
  | Some p => _ ←? path_error "create sent override" (ensure_private_directory fuel p); mret (Ok p)
  | None =>
      sent ← embed PathDid (Paths.Paths.sent_dir fuel data_dir_path);
      match sent with
      | Ok p => mret (Ok p)
      | Err _ =>
          let sibling := Paths.Paths.sent_dir_for parent pending in
          _ ←? path_error "create sent sibling" (ensure_private_directory fuel sibling);
          mret (Ok sibling)
      end
  end.

Definition resolve_transaction_sent_dir (fuel : nat) (sent_dir_override : option PathBuf) (output_root : PathBuf)
    : fm (result string PathBuf) :=
  match sent_dir_override with
  | Some p => _ ←? path_error "create sent override" (ensure_private_directory fuel p); mret (Ok p)
  | None =>
      let sibling := Paths.Paths.sent_dir_for parent output_root in
      _ ←? path_error "create sent sibling" (ensure_private_directory fuel sibling);
      mret (Ok sibling)
  end.

(** The first artifact that is the moved path. *)
Fixpoint relocate (l : list PathBuf) (p dest : PathBuf) : list PathBuf :=
  match l with [] => [] | x :: l => if decide (x = p) then dest :: l else x :: relocate l p dest end.

(** What a successful move changes in the result: [json] and [raw] are its paths before
    the first move. *)
Definition record_move (json : PathBuf) (raw : option PathBuf) (p dest : PathBuf) (r : ReportResult) : ReportResult :=
  mkReportResult (relocate (artifact_paths r) p dest)
    (if decide (raw = Some p) then Some dest else raw_path r)
    (if decide (p = json) then Some dest else json_path r)
    (result_session r).

Fixpoint move_all (fuel : nat) (sent_dir json : PathBuf) (raw : option PathBuf) (context : PluginContext)
    (l : list PathBuf) (r : ReportResult) : fm (result string unit * ReportResult) :=
  match l with
  | [] => checked ← checkpoint context; mret (checked, r)
  | p :: l =>
      checked ← checkpoint context;
      match checked with
      | Err error => mret (Err error, r)
      | Ok _ =>
          match file_name p with
          | None => move_all fuel sent_dir json raw context l r
          | Some name =>
              let dest := sent_dir ++ [name] in
              moved ← move_file fuel p dest context;
              match moved with
              | Err e =>
                  _ ← warn ("[monitor] MoveToSent: failed to move " +:+ Paths.Paths.shown p +:+ " → " +:+
                              Paths.Paths.shown dest +:+ ": " +:+ e)%string;
                  move_all fuel sent_dir json raw context l r
              | Ok _ => move_all fuel sent_dir json raw context l (record_move json raw p dest r)
              end
          end
      end
  end.

(** The paths of a result without explicit artifacts. *)
Definition named_paths (json : PathBuf) (r : ReportResult) : list PathBuf :=
  if decide (artifact_paths r = []) then json :: option_list (raw_path r) else artifact_paths r.

(** The result is returned as it was left. *)
Definition process (fuel : nat) (data_dir_path : result string PathBuf) (sent_dir_override : option PathBuf)
    (context : PluginContext) (r : ReportResult) : fm (result string unit * ReportResult) :=
  checked ← checkpoint context;
  match checked, json_path r with
  | Err error, _ => mret (Err error, r)
  | Ok _, None => mret (Ok tt, r)
  | Ok _, Some json =>
      match artifact_transaction context with
      | Some transaction =>
          done ← (sent_dir ←? resolve_transaction_sent_dir fuel sent_dir_override (transaction_output_root transaction);
                  _ ←? ask (transaction_set_destination_root transaction sent_dir);
                  checkpoint context);
          mret (done, r)
      | None =>
          match parent json with
          | None => mret (Err "json_path has no parent"%string, r)
          | Some pending_dir =>
              sent ← resolve_sent_dir fuel data_dir_path sent_dir_override pending_dir;
              match sent with
              | Err error => mret (Err error, r)
              | Ok sent_dir => move_all fuel sent_dir json (raw_path r) context (named_paths json r) r
              end
          end
      end
  end.

End Move.
End MoveToSent.

(** ** Reports survive their relocation

    [outcome src dst l r] are the deeds of a move with the answer [r]; the theorem is that
    every move answers with one of them, and that what it published was published, or was
    undone or contained, as Paths.v does it. *)

Module MoveToSentSpec.
Export MoveToSent.
Export PluginFilesSpec.
#[local] Open Scope Z_scope.

(** ** Outcomes *)

(** Nothing is created or removed, and a publication of the source failed. *)
Definition harmless (src dst : PathBuf) (s : FileStep) : Prop :=
  match s with
  | Checked _ | Opened _ _ | Statted _ _ | HandleStatted _ _ => True
  | Published p q ok => p = src ∧ q = dst ∧ ok = false
  | _ => False
  end.

Definition passed (s : FileStep) : Prop :=
  match s with Checked false | Opened _ _ | Statted _ (Ok _) | HandleStatted _ (Ok _) => True | _ => False end.
Definition synced (s : FileStep) : Prop := match s with FileSynced _ => True | _ => False end.

(** Between the creation of the copy and its publication. *)
Definition copying (hi ho : Z) (s : FileStep) : Prop :=
  match s with
  | Checked false => True
  | ReadFrom h _ => h = hi
  | WroteTo h _ => h = ho
  | _ => False
  end.

(** A copy that goes no further. *)
Definition interrupted (hi ho : Z) (tmp dst : PathBuf) (s : FileStep) : Prop :=
  match s with
  | Checked _ | Statted _ _ => True
  | ReadFrom h _ => h = hi
  | WroteTo h _ | FileSynced h => h = ho
  | Published p q ok => p = tmp ∧ q = dst ∧ ok = false
  | _ => False
  end.

Definition small_file (m : Metadata) : Prop := is_file m = true ∧ len m ≤ MAX_MOVE_FILE_BYTES.

Inductive outcome (src dst : PathBuf) : list FileStep → result string unit → Prop :=
| Refused l error : Forall (harmless src dst) l → outcome src dst l (Err error)
| RenamedInto before after :
    Forall passed before → Forall synced after →
    outcome src dst (before ++ Published src dst true :: after) (Ok tt)
| CopyFailed before tmp hi ho body removed error :
    Forall passed before → Forall (interrupted hi ho tmp dst) body →
    outcome src dst (before ++ Created tmp ho :: body ++ [Removed tmp removed]) (Err error)
| CopiedInto before tmp hi ho m m' body after1 removed after2 :
    Forall passed before → Opened src hi ∈ before → HandleStatted hi (Ok m) ∈ before → small_file m →
    Forall (copying hi ho) body → read_bytes body = written_bytes body → Z.of_nat (length (written_bytes body)) = len m →
    unchanged m m' = true →
    Forall synced after1 → Forall synced after2 →
    outcome src dst
      (before ++ Created tmp ho ::
       body ++ [FileSynced ho; Statted src (Ok m'); Checked false; Published tmp dst true] ++ after1 ++
       Removed src removed :: after2)
      (Ok tt).

Section Move.
Context {E : Type} {clock : Clock E} {paths : Paths.Paths.PathOps E} {ops : FileOps E} {Txn Ctx : Type}.
#[local] Notation fm := (fueled E FileStep).
#[local] Notation PluginContext := (PluginContext Txn Ctx).

Lemma only_warn_sync fuel p kind : only synced (warn_directory_sync fuel p kind).
Proof.
  unfold warn_directory_sync, sync_parent_directory. apply only_bind; [|solve_only].
  destruct (parent p); [|solve_only]. apply only_bind; [solve_only|]. intros [h|error]; [|solve_only].
  unfold io_error, or_error. apply only_bind; [|solve_only].
  eapply does_impl; [apply does_sync_all|]. intros l [] ->; repeat constructor.
Qed.

(** ** The copy *)

Lemma does_copy_loop steps fuel hi ho src tmp dst (context : PluginContext) copied :
  0 ≤ copied →
  does (λ l r, match r with
               | Ok n => Forall (copying hi ho) l ∧ read_bytes l = written_bytes l ∧ n = copied + Z.of_nat (length (written_bytes l))
               | Err _ => Forall (interrupted hi ho tmp dst) l
               end) (copy_loop steps fuel hi ho src tmp context copied).
Proof.
  revert copied. induction steps as [|steps IH]; intros copied Hcopied; [apply does_starved|]. cbn [copy_loop].
  apply does_checkpoint; [by repeat constructor|].
  eapply does_try_io; [apply does_read|intros l error error' ->; by repeat constructor|]. intros l chunk ->.
  case_decide as Hchunk; [subst; apply does_ret; split_and!; [by repeat constructor|done|cbn; lia]|].
  case_decide; [apply does_ret; by repeat constructor|]. case_decide; [apply does_ret; by repeat constructor|].
  assert (∀ l, Forall (writes_to ho) l → Forall (interrupted hi ho tmp dst) l ∧ Forall (copying hi ho) l) as Hw.
  { intros l Hl. split; (eapply Forall_impl; [exact Hl|]); by intros s [b ->]. }
  eapply does_try_io; [apply does_write_all| |].
  - intros l error error' (Hl & _). apply Hw in Hl as [Hl _]. cbn. by repeat constructor.
  - intros l [] (Hl & Hr & Hwr). specialize (Hwr eq_refl). apply Hw in Hl as [Hl1 Hl2]. apply does_checkpoint.
    + cbn. repeat (constructor; [done|]). apply Forall_app. split; [done|by repeat constructor].
    + eapply does_impl; [apply IH; lia|]. intros l' [n|error] Hrest.
      * destruct Hrest as (H1 & H2 & H3). split_and!.
        -- cbn. repeat (constructor; [done|]). apply Forall_app. split; [done|by constructor].
        -- bytes. by rewrite Hr, Hwr, H2.
        -- bytes. rewrite H3, Hwr, length_app. lia.
      * cbn. repeat (constructor; [done|]). apply Forall_app. split; [done|by constructor].
Qed.

(** The deeds from the created copy on. *)
Definition copy_outcome (src tmp dst : PathBuf) (hi ho : Z) (m : Metadata) (l : list FileStep) (r : result string unit) : Prop :=
  match r with
  | Err _ => Forall (interrupted hi ho tmp dst) l
  | Ok _ => ∃ m' body after1 removed after2,
      l = body ++ [FileSynced ho; Statted src (Ok m'); Checked false; Published tmp dst true] ++ after1 ++ Removed src removed :: after2 ∧
      Forall (copying hi ho) body ∧ read_bytes body = written_bytes body ∧ Z.of_nat (length (written_bytes body)) = len m ∧
      unchanged m m' = true ∧ Forall synced after1 ∧ Forall synced after2
  end.

Lemma does_copy_and_publish fuel hi ho src tmp dst (context : PluginContext) m :
  does (copy_outcome src tmp dst hi ho m) (copy_and_publish fuel hi ho src tmp dst context m).
Proof.
  unfold copy_and_publish. eapply does_try; [by apply (does_copy_loop _ _ _ _ _ _ dst)|done|]. intros body n (Hb & Hr & Hn).
  assert (Forall (interrupted hi ho tmp dst) body) as Hi.
  { eapply Forall_impl; [exact Hb|]. intros []; try done; by case_match. }
  case_decide as Hlen; [apply does_ret; cbn; by rewrite app_nil_r|].
  apply does_try_idle; [unfold io_error, or_error; solve_only|intros error; cbn; by rewrite app_nil_r|]. intros [].
  eapply does_try_io; [apply does_sync_all|intros l error error' ->; cbn; by rewrite app_nil_r|]. intros l [] ->.
  eapply does_try_io; [apply does_stat|intros l error error' ->; cbn|].
  { rewrite Forall_app. split; [done|by repeat constructor]. }
  intros l m' ->. destruct (unchanged m m') eqn:Hm; cbn [negb].
  2: { apply does_ret. cbn. rewrite Forall_app. split; [done|by repeat constructor]. }
  apply does_checkpoint; [cbn; rewrite Forall_app; split; [done|by repeat constructor]|].
  eapply does_try_io; [apply does_publish|intros l error error' ->; cbn|].
  { rewrite Forall_app. split; [done|by repeat constructor]. }
  intros l [] ->. eapply does_bind; [apply only_warn_sync|]. intros after1 [] H1.
  eapply does_bind; [apply does_remove|]. intros l r ->. apply (does_bind (λ l _, Forall synced l)).
  { destruct r; [apply only_warn_sync|apply only_idle, idle_warn]. }
  intros after2 [] H2. apply does_ret. cbn. exists m', body, after1, (is_ok r), after2.
  split_and!; try done; [|lia]. by rewrite app_nil_r, <-?app_assoc.
Qed.

(** Only checks so far. *)
Lemma passed_harmless src dst l : Forall passed l → Forall (harmless src dst) l.
Proof. intros H. eapply Forall_impl; [exact H|]. intros []; try done; by case_match. Qed.

(** Steps to come of an unfinished move. *)
Definition then_outcome (src dst : PathBuf) (before : list FileStep) (l : list FileStep) (r : result string unit) : Prop :=
  outcome src dst (before ++ l) r.

Lemma refuse src dst before l error :
  Forall passed before → Forall (harmless src dst) l → then_outcome src dst before l (Err error).
Proof. intros Hb Hl. apply Refused, Forall_app. split; [by apply passed_harmless|done]. Qed.

Lemma pass before s : Forall passed before → passed s → Forall passed (before ++ [s]).
Proof. intros H1 H2. apply Forall_app. by repeat constructor. Qed.

(** Checks of an unfinished move. *)
Lemma move_checkpoint src dst before (context : PluginContext) (f : unit → fm (result string unit)) :
  Forall passed before →
  (Forall passed (before ++ [Checked false]) → does (then_outcome src dst (before ++ [Checked false])) (f tt)) →
  does (then_outcome src dst before) (x ←? checkpoint context; f x).
Proof.
  intros Hb Hf. apply does_checkpoint; [apply refuse; [done|by repeat constructor]|].
  eapply does_impl; [by apply Hf, pass|]. intros l r H. unfold then_outcome in *. by rewrite <-app_assoc in H.
Qed.

Lemma move_idle {A : Type} src dst before (m : fm (result string A)) (f : A → fm (result string unit)) :
  Forall passed before → idle m → (∀ a, does (then_outcome src dst before) (f a)) →
  does (then_outcome src dst before) (x ←? m; f x).
Proof. intros Hb Hm Hf. apply does_try_idle; [done| |done]. intros error. by apply refuse. Qed.

Lemma move_step {e A : Type} src dst before (text : e → string) prefix (note : result e A → FileStep) (m : fm (result e A)) (f : A → fm (result string unit)) :
  Forall passed before → does (λ l r, l = [note r]) m → (∀ error, harmless src dst (note (Err error))) → (∀ a, passed (note (Ok a))) →
  (∀ a, Forall passed (before ++ [note (Ok a)]) → does (then_outcome src dst (before ++ [note (Ok a)])) (f a)) →
  does (then_outcome src dst before) (x ←? or_error text prefix m; f x).
Proof.
  intros Hb Hm He Hok Hf. eapply does_try_io; [exact Hm| |].
  - intros l error error' ->. apply refuse; [done|]. by repeat constructor.
  - intros l a ->. eapply does_impl; [by apply Hf, pass|]. intros l' r H. unfold then_outcome in *. by rewrite <-app_assoc in H.
Qed.

Lemma move_open src dst before fuel prefix p (f : Z → fm (result string unit)) :
  Forall passed before →
  (∀ h, Forall passed (before ++ [Opened p h]) → does (then_outcome src dst (before ++ [Opened p h])) (f h)) →
  does (then_outcome src dst before) (x ←? path_error prefix (open_private_file fuel p); f x).
Proof.
  intros Hb Hf. eapply does_try_io; [apply does_open_file|intros l error error' ->; by apply refuse|].
  intros l h ->. eapply does_impl; [by apply Hf, pass|]. intros l' r H. unfold then_outcome in *. by rewrite <-app_assoc in H.
Qed.

Lemma small p m : validate_regular_size p m = Ok tt → small_file m.
Proof. unfold validate_regular_size, small_file. destruct (is_file m); [|done]. cbn. case_decide; [done|]. split; [done|lia]. Qed.

Lemma does_copy_across fuel src dst (context : PluginContext) m before :
  Forall passed before → does (then_outcome src dst before) (copy_across_filesystems fuel src dst context m).
Proof.
  intros Hb. unfold copy_across_filesystems. apply move_checkpoint; [done|]. clear Hb. intros Hb.
  apply move_open; [done|]. clear Hb. intros hi Hb.
  apply (move_step _ _ _ _ _ (HandleStatted hi)); [done|apply does_stat_handle|done|done|]. clear Hb. intros m1 Hb.
  apply does_pure; [intros error _; by apply refuse|]. intros [] Hsmall%small.
  destruct (unchanged m m1); cbn [negb]; [|by apply does_ret, refuse].
  apply move_checkpoint; [done|]. clear Hb. intros Hb.
  set (all := (_ ++ [HandleStatted _ _]) ++ [Checked false]) in *.
  assert (HandleStatted hi (Ok m1) ∈ all) as Hin by (subst all; set_solver).
  assert (Opened src hi ∈ all) as Hopen by (subst all; set_solver).
  apply move_idle; [done|unfold move_tmp_path; solve_only|]. intros tmp.
  clearbody all. clear before.
  eapply does_try_io; [apply does_create|intros l error error' ->; by apply refuse|]. intros l ho ->.
  eapply does_bind; [apply does_copy_and_publish|]. intros l [[]|error] Hc.
  - apply does_ret. destruct Hc as (m' & body & after1 & removed & after2 & -> & H). unfold then_outcome. rewrite app_nil_r.
    destruct H as (H1 & H2 & H3 & H4 & H5 & H6). by apply (CopiedInto _ _ _ _ hi ho m1).
  - eapply does_bind; [apply does_remove|]. intros l' removed ->. apply does_ret. unfold then_outcome. rewrite app_nil_r.
    by apply (CopyFailed _ _ _ _ hi).
Qed.

(** ** The move *)

Lemma rename_answers fuel d d' src dst :
  does (λ l r, match r with Ok _ => l = [Published src dst true] | Err CrossDevice => l = [] | Err _ => Forall (harmless src dst) l end) (rename_within fuel d d' src dst).
Proof.
  unfold rename_within. case_decide; [by apply does_ret|]. eapply does_bind; [apply does_publish|].
  intros l r ->. apply does_ret. rewrite app_nil_r. destruct r; [done|]. by repeat constructor.
Qed.

Lemma does_move_file_with fuel src dst (context : PluginContext) d d' before :
  Forall passed before →
  does (then_outcome src dst before) (move_file_with fuel src dst context (rename_within fuel d d')).
Proof.
  intros Hb. unfold move_file_with. apply move_checkpoint; [done|]. clear Hb. intros Hb.
  destruct (parent src) as [sp|]; [|by apply does_ret, refuse].
  apply move_idle; [done|unfold path_error, or_error; solve_only|]. intros _.
  destruct (parent dst) as [dp|]; [|by apply does_ret, refuse].
  apply move_idle; [done|unfold path_error, or_error; solve_only|]. intros _.
  apply (move_step _ _ _ _ _ (Statted src)); [done|apply does_stat|done|done|]. clear Hb. intros m Hb.
  apply does_pure; [intros error _; by apply refuse|]. intros _ _.
  apply move_open; [done|]. clear Hb. intros h Hb.
  apply (move_step _ _ _ _ _ (HandleStatted h)); [done|apply does_stat_handle|done|done|]. clear Hb. intros m' Hb.
  destruct (unchanged m m'); cbn [negb]; [|by apply does_ret, refuse].
  apply move_checkpoint; [done|]. clear Hb. intros Hb. set (all := (_ ++ [HandleStatted _ _]) ++ [Checked false]) in *.
  clearbody all. clear before. eapply does_bind; [apply rename_answers|]. intros l [[]|error] Hl.
  - subst l. eapply does_bind; [apply only_warn_sync|]. intros after1 [] H1.
    apply (does_bind (λ l _, Forall synced l)); [case_decide; [apply only_warn_sync|apply only_ret]|].
    intros after2 [] H2. apply does_ret. apply (RenamedInto _ _ _ (after1 ++ after2 ++ [])); [done|].
    rewrite app_nil_r. by apply Forall_app.
  - assert (does (λ l' r, then_outcome src dst all (l ++ l') r)
      (mret (Err ("rename: " +:+ io_text error)%string) : fm (result string unit))) as Hrefuse.
    { apply does_ret. rewrite app_nil_r. apply refuse; [done|]. destruct error; try done. by subst. }
    destruct error; try exact Hrefuse. subst l. by apply does_copy_across.
Qed.

Lemma does_move_file fuel src dst (context : PluginContext) : does (outcome src dst) (move_file fuel src dst context).
Proof.
  change (does (then_outcome src dst []) (move_file fuel src dst context)). unfold move_file.
  apply (move_step _ _ _ _ _ (Statted src)); [done|apply does_stat|done|done|]. intros source Hb.
  destruct (parent dst); [|by apply does_ret, refuse].
  apply move_idle; [done|unfold io_error, or_error; solve_only|]. intros destination. by apply does_move_file_with.
Qed.

(** ** Publications *)

Lemma warn_sync_backs fuel p kind : backs (warn_directory_sync fuel p kind).
Proof. unfold warn_directory_sync, sync_parent_directory. solve_backs. Qed.
#[local] Hint Resolve warn_sync_backs : cm.
Lemma copy_loop_backs steps fuel hi ho src tmp (context : PluginContext) copied :
  backs (copy_loop steps fuel hi ho src tmp context copied).
Proof. revert copied. induction steps; intros; cbn [copy_loop]; solve_backs. Qed.
#[local] Hint Resolve copy_loop_backs : cm.
Lemma copy_and_publish_backs fuel hi ho src tmp dst (context : PluginContext) m :
  backs (copy_and_publish fuel hi ho src tmp dst context m).
Proof. unfold copy_and_publish. solve_backs. Qed.
#[local] Hint Resolve copy_and_publish_backs : cm.
Lemma copy_across_backs fuel src dst (context : PluginContext) m : backs (copy_across_filesystems fuel src dst context m).
Proof. unfold copy_across_filesystems, move_tmp_path. solve_backs. Qed.
#[local] Hint Resolve copy_across_backs : cm.
Lemma move_file_backs fuel src dst (context : PluginContext) : backs (move_file fuel src dst context).
Proof. unfold move_file, move_file_with, rename_within. solve_backs. Qed.

(** ** The result *)

(** The attempts of a plugin run: the path, its deeds and how it answered. *)
Definition Attempt : Type := PathBuf * list FileStep * result string unit.

Definition destination (sent_dir p : PathBuf) : PathBuf := sent_dir ++ option_list (file_name p).
Definition attempted (sent_dir : PathBuf) (a : Attempt) : Prop :=
  let '(p, l, r) := a in is_Some (file_name p) ∧ outcome p (destination sent_dir p) l r.
Definition record_attempt (sent_dir json : PathBuf) (raw : option PathBuf) (r : ReportResult) (a : Attempt) : ReportResult :=
  let '(p, _, answer) := a in if is_ok answer then record_move json raw p (destination sent_dir p) r else r.

Definition unchecked (l : list FileStep) : list FileStep :=
  filter (λ s, match s with Checked _ => false | _ => true end = true) l.
Lemma unchecked_app l l' : unchecked (l ++ l') = unchecked l ++ unchecked l'.
Proof. apply filter_app. Qed.

(** The deeds of a plugin run are those of its attempts, and the result has exactly the
    moves that were answered with success. *)
Lemma move_all_records fuel sent_dir json raw (context : PluginContext) paths_left r :
  does (λ l out, ∃ attempts, Forall (attempted sent_dir) attempts ∧
      sublist (map (λ a : Attempt, a.1.1) attempts) paths_left ∧
      unchecked l = unchecked (concat (map (λ a : Attempt, a.1.2) attempts)) ∧
      out.2 = foldl (record_attempt sent_dir json raw) r attempts)
    (move_all fuel sent_dir json raw context paths_left r).
Proof.
  revert r. induction paths_left as [|p paths_left IH]; intros r; cbn [move_all].
  { unfold checkpoint. apply (does_bind (λ l _, ∃ b, l = [Checked b])).
    - eapply does_bind; [apply does_checked|]. intros l b ->. apply does_ret. by exists b.
    - intros l c [b ->]. apply does_ret. by exists []. }
  unfold checkpoint. apply (does_bind (λ l _, ∃ b, l = [Checked b])).
  { eapply does_bind; [apply does_checked|]. intros l b ->. apply does_ret. by exists b. }
  intros l c [b ->]. destruct c as [[]|error]; [|apply does_ret; exists []; split_and!; [done|apply sublist_nil_l|done|done]].
  destruct (file_name p) as [name|] eqn:Hname.
  2: { eapply does_impl; [apply IH|]. intros l out (attempts & H1 & H2 & H3 & H4). exists attempts.
       split_and!; [done|by constructor|by rewrite unchecked_app, H3|done]. }
  eapply does_bind; [apply does_move_file|]. intros seg answer Hseg.
  assert (destination sent_dir p = sent_dir ++ [name]) as Hdest by (unfold destination; by rewrite Hname).
  apply (does_impl (λ l out, ∃ attempts, Forall (attempted sent_dir) attempts ∧
    sublist (map (λ a : Attempt, a.1.1) attempts) paths_left ∧
    unchecked l = unchecked (concat (map (λ a : Attempt, a.1.2) attempts)) ∧
    out.2 = foldl (record_attempt sent_dir json raw) (record_attempt sent_dir json raw r (p, seg, answer)) attempts)).
  - destruct answer as [[]|error]; cbn [record_attempt is_ok]; [rewrite Hdest; apply IH|].
    apply does_idle; [apply idle_warn|]. intros []. apply IH.
  - intros l out (attempts & H1 & H2 & H3 & H4). exists ((p, seg, answer) :: attempts). split_and!.
    + constructor; [|done]. cbn. rewrite Hdest. by split; [eexists|].
    + by apply sublist_skip.
    + cbn [map concat fst snd]. rewrite !unchecked_app, H3. done.
    + done.
Qed.

(** ** Answers *)

Context {budget : E → nat} {elapsed : E → Z} {time : PathsSpec.PathsSpec.PathTime E elapsed}
  {path_laws : PathsSpec.PathsSpec.PathLaws E budget} {laws : FileLaws E budget}.
Context {n fuel : nat} (Hfuel : MAX_MOVE_FILE_BYTES + STREAM_BUFFER_BYTES + Z.of_nat n < Z.of_nat fuel).

Lemma move_race_fuel : Paths.Paths.PERMISSION_RACE_DEADLINE < Z.of_nat fuel.
Proof. unfold Paths.Paths.PERMISSION_RACE_DEADLINE, NANOS_PER_MILLI, MAX_MOVE_FILE_BYTES, STREAM_BUFFER_BYTES in *. lia. Qed.
Lemma move_less_fuel : (n ≤ fuel)%nat.
Proof. unfold MAX_MOVE_FILE_BYTES, STREAM_BUFFER_BYTES in *. lia. Qed.
#[local] Hint Resolve move_race_fuel move_less_fuel open_private_directory_settles open_private_file_settles create_private_file_settles publish_path_settles : cm.

Lemma warn_sync_settles p kind : settles budget n (warn_directory_sync fuel p kind).
Proof. unfold warn_directory_sync, sync_parent_directory, io_error. settle. Qed.
#[local] Hint Resolve warn_sync_settles : cm.

(** Every turn of the copy takes a byte, and the limit ends it. *)
Lemma copy_loop_settles steps hi ho src tmp (context : PluginContext) copied :
  0 ≤ copied ≤ MAX_MOVE_FILE_BYTES → MAX_MOVE_FILE_BYTES - copied < Z.of_nat steps →
  settles budget n (copy_loop steps fuel hi ho src tmp context copied).
Proof.
  revert copied. induction steps as [|steps IH]; intros copied Hc Hs; [lia|]. cbn [copy_loop].
  apply settles_then; [eauto with cm|]. intros [[]|error]; [|apply settles_answer].
  intros w Hw. apply (answers_bind (λ r w', (budget (env w') ≤ budget (env w))%nat ∧
    ∀ b, r = Ok b → Z.of_nat (length b) ≤ STREAM_BUFFER_BYTES)).
  { eapply answers_bind; [apply read_answers|]. intros [b|error] w' [Hw' Hb]; apply answers_ret; (split; [done|]).
    - intros ? [= <-]. apply Hb. done.
    - done. }
  intros [chunk|error] w' [Hw' Hb]; [|by apply answers_ret]. specialize (Hb _ eq_refl).
  case_decide as Hnil; [by apply answers_ret|]. case_decide; [by apply answers_ret|]. case_decide; [by apply answers_ret|].
  assert (1 ≤ Z.of_nat (length chunk)) by (destruct chunk; [done|simpl; lia]).
  eapply answers_impl; [|simpl; intros ? w'' Hw''; exact (Nat.le_trans _ _ _ Hw'' Hw')].
  revert w' Hw' . enough (settles budget n (_ ←? io_error ("copy write " +:+ quoted tmp)%string (write_all fuel ho chunk);
    _ ←? checkpoint context; copy_loop steps fuel hi ho src tmp context (copied + Z.of_nat (length chunk)))) as Hset.
  { intros w' Hw'. apply Hset. lia. }
  apply settles_then.
  { apply or_error_settles, write_all_settles. unfold MAX_MOVE_FILE_BYTES, STREAM_BUFFER_BYTES in *. lia. }
  intros [[]|error]; [|apply settles_answer]. apply settles_then; [eauto with cm|].
  intros [[]|error]; [|apply settles_answer]. apply IH; lia.
Qed.

Lemma copy_and_publish_settles hi ho src tmp dst (context : PluginContext) m :
  settles budget n (copy_and_publish fuel hi ho src tmp dst context m).
Proof.
  unfold copy_and_publish, io_error, path_error. apply settles_then.
  { apply copy_loop_settles; unfold MAX_MOVE_FILE_BYTES, STREAM_BUFFER_BYTES in *; lia. }
  settle.
Qed.
#[local] Hint Resolve copy_and_publish_settles : cm.

Lemma copy_across_settles src dst (context : PluginContext) m :
  settles budget n (copy_across_filesystems fuel src dst context m).
Proof. unfold copy_across_filesystems, move_tmp_path, io_error, path_error. settle. Qed.
#[local] Hint Resolve copy_across_settles : cm.

Lemma move_file_settles src dst (context : PluginContext) : settles budget n (move_file fuel src dst context).
Proof. unfold move_file, move_file_with, rename_within, io_error, path_error. settle. Qed.

End Move.

(** C22. A move answers, whatever the environment does, and every publication in its trace has
    the steps and the answer of a [publication] of PathsPublish.v. A move that succeeds published under the destination either the source itself, or a copy that was
    complete: what was written to it is what was read from the handle that was opened for
    the source, up to its end, of the length that the source had when it was opened and
    still had at the end, within the limit and synced; only behind that publication was the
    removal of the source asked for. A move that fails removed nothing but the temporary
    file that it had created exclusively, whose removal it always asks for. So the source is
    still there, unless its own publication renamed it and could not be verified: then the
    entry was moved aside, unlinked or put back, or each of these was refused, as
    [publication] says. Cancellation is observed before the publication and not after it. *)
Theorem move_never_loses_report {E : Type} {clock : Clock E} {paths : Paths.Paths.PathOps E} {ops : FileOps E} {Txn Ctx : Type}
    {budget : E → nat} {elapsed : E → Z} {time : PathsSpec.PathsSpec.PathTime E elapsed}
    {path_laws : PathsSpec.PathsSpec.PathLaws E budget} {laws : FileLaws E budget}
    (fuel : nat) (src dst : PathBuf) (context : PluginContext Txn Ctx) (w : World E FileStep) :
  MAX_MOVE_FILE_BYTES + STREAM_BUFFER_BYTES + Z.of_nat (budget (env w)) + 1 < Z.of_nat fuel →
  ∃ r w' l, move_file fuel src dst context w = (Some r, w') ∧ trace w' = trace w ++ l ∧ outcome src dst (deeds l) r ∧ backed l.
Proof.
  intros Hfuel. apply (settled_ends (budget := budget) (S (budget (env w)))).
  - apply move_file_settles. lia.
  - apply ends_backed; [apply does_move_file|apply move_file_backs].
  - lia.
Qed.

(** A disk whose files have three bytes, and a destination on another device. *)
Module Example.
Import PathsSpec.PathsSpec.Example.

Definition contents : list Byte := [Init.Byte.x61; Init.Byte.x62; Init.Byte.x0a].
Definition report : Metadata := mkMetadata (Paths.Paths.mkMeta Paths.Paths.RegularNode 501 384 1 7) 3.
Definition elsewhere : Metadata := mkMetadata (Paths.Paths.mkMeta Paths.Paths.DirectoryNode 501 448 2 9) 64.

#[export] Instance file_ops : FileOps disk := {|
  io_text _ := "error"%string;
  cancel_loaded d := (false, d);
  symlink_metadata p d := (Ok report, d);
  follow_metadata p d := (Ok elsewhere, d);
  metadata_of h d := (Ok report, d);
  read_handle h n d := (Ok (if decide (ticks d = 0) then take (Z.to_nat n) contents else []), tick d);
  write_handle h b d := (Ok (Z.of_nat (length b)), d);
  flush_handle h d := (Ok tt, d);
  sync_handle h d := (Ok tt, d);
  rewind_handle h d := (Ok tt, d);
  remove_path p d := (Ok tt, mkDisk (ticks d) (nodes d) (without (default ""%string (file_name p)) d));
  rename_path p q d := (Ok tt, d);
  fresh_name d := ("1"%string, d)
|}.

#[export] Instance file_laws : FileLaws disk (λ _, 0%nat).
Proof.
  split; unfold calm; intros; try lia.
  - cbn in *. case_decide; simplify_eq; simpl; [|lia]. rewrite length_take. lia.
  - by split.
Qed.

Definition file : Paths.Paths.Meta := Paths.Paths.mkMeta Paths.Paths.RegularNode 501 384 1 7.
Definition w1 : World disk FileStep := mkWorld (mkDisk 0 [] [("dump.json"%string, file)]) [].
Definition src : PathBuf := ["/"; "Users"; "app"; "pending"; "dump.json"]%string.
Definition dst : PathBuf := ["/"; "Users"; "app"; "sent"; "dump-1.json"]%string.
Definition no_deadline : PluginContext unit unit := without_deadline.

Lemma move_enough_fuel : ∃ fuel, MAX_MOVE_FILE_BYTES + STREAM_BUFFER_BYTES + Z.of_nat 0 + 1 < Z.of_nat fuel.
Proof.
  exists (Z.to_nat (MAX_MOVE_FILE_BYTES + STREAM_BUFFER_BYTES + 2)).
  rewrite Z2Nat.id; unfold MAX_MOVE_FILE_BYTES, STREAM_BUFFER_BYTES; lia.
Qed.

End Example.
Import PathsSpec.PathsSpec.Example.
Import Example.

Lemma move_never_loses_report_witness :
  (move_file 9 src dst no_deadline w1).1 = Some (Ok tt) ∧
  written_bytes (trace (move_file 9 src dst no_deadline w1).2) = contents ∧
  ∃ fuel r w' l, move_file fuel src dst no_deadline w1 = (Some r, w') ∧ trace w' = trace w1 ++ l ∧ outcome src dst (deeds l) r ∧ backed l.
Proof.
  split; [vm_compute; reflexivity|]. split; [vm_compute; reflexivity|]. destruct move_enough_fuel as [fuel Hfuel]. exists fuel.
  apply (move_never_loses_report (budget := λ _, 0%nat) (elapsed := PathsSpec.PathsSpec.Example.ticks)). exact Hfuel.
Defined.

End MoveToSentSpec.
