(* ===== verification/SessionLog.v ===== *)
(** * The session log (src/postprocessors/session_recorder.rs, src/postprocessors/log_rotator.rs)

    [sessions.jsonl] under its lock: the record of a committed crash is appended, and the
    log is rotated to the newest half of its lines when it has outgrown its threshold. A
    handle is a number; the buffer of a [BufReader] is the bytes it has not given out. *)

From stdpp Require Import pretty.
From S2P Require Import Prelude.
From S2P Require Import Traced.
From S2P Require Import Fueled.
From S2P Require Import PipelineTypes.
From S2P Require Import PluginRun.
From S2P Require Finalize.
From S2P Require Artifact.
From S2P Require Paths.
From S2P Require Import PluginFiles.

Module SessionLog.
Export PluginFiles.
#[local] Open Scope Z_scope.

Definition MAX_SESSION_RECORD_BYTES : Z := 16 * 1024.
Definition MAX_SESSION_LOCK_BYTES : Z := 4 * 1024.
Definition SESSION_LOG_LOCK_FILE : string := ".sessions.lock".
Definition SESSION_LOG_LOCK_POLL : Z := 5 * NANOS_PER_MILLI.

Definition MAX_LOG_ROTATION_OVERAGE_BYTES : Z := 8 * 1024 * 1024.
Definition MAX_LOG_LINE_BYTES : Z := 64 * 1024.
Definition MAX_LOG_LINES : Z := 100000.
Definition LOG_IO_CHUNK_BYTES : Z := 16 * 1024.

Definition newline : Byte := Init.Byte.x0a.

(** [SessionRecord], the entry of a line. *)
Record SessionRecord := mkRecord {
  record_id : string;
  record_start : string;
  record_end : string;
  record_status : string;
  record_duration_s : Z;
  record_report_id : option string;
  record_report : option string;
  record_manifest : option string
}.

(** [Mutex::try_lock]: a poisoned lock is taken. *)
Inductive TryLock : Type := Acquired | Poisoned | Busy.

(** The flags of a raw open: all of them [O_NOFOLLOW] and [O_NONBLOCK]. *)
Inductive raw_mode : Type := ReadWrite | Append.

(** [flock_exclusive] does not block; [serialize] is [serde_json::to_string]. *)
Class LogOps (E : Type) := {
  try_process_lock : E → TryLock * E;
  flock_exclusive : Z → E → result IoError unit * E;
  thread_sleep : Z → E → E;
  open_raw : raw_mode → PathBuf → E → result IoError Z * E;
  local_now : E → string * E;
  serialize : SessionRecord → result string (list Byte);
  string_bytes : string → list Byte
}.

Section Log.
Context {E : Type} {clock : Clock E} {paths : Paths.Paths.PathOps E} {ops : FileOps E} {log_ops : LogOps E} {Txn Ctx : Type}
  {transactions : TransactionOps E Txn}.
#[local] Notation fm := (fueled E FileStep).
#[local] Notation PluginContext := (PluginContext Txn Ctx).

Definition sleep (d : Z) : fm unit := ask (λ e, (tt, thread_sleep d e)).

Definition sync_session_directory (fuel : nat) (p : PathBuf) : fm (result string unit) :=
  match parent p with
  | None => mret (Err ("session path has no parent: " +:+ quoted p)%string)
  | Some directory =>
      h ←? open_private_directory fuel directory;
      io_error ("cannot sync session directory " +:+ quoted directory)%string (sync_all h)
  end.

(** ** The lock *)

Definition raw_open (mode : raw_mode) (p : PathBuf) : fm (result IoError Z) := io (open_raw mode p) (λ h, [Opened p h]).

(** The lock file, and whether it was created. *)
Definition open_session_log_lock_file (fuel : nat) (p : PathBuf) : fm (result string (Z * bool)) :=
  existing ← raw_open ReadWrite p;
  '(file, created) ←? match existing with
    | Ok file => mret (Ok (file, false))
    | Err NotFound =>
        new ← create_private_file fuel p;
        match new with
        | Ok file => mret (Ok (file, true))
        | Err create_error =>
            file ←? io_error ("cannot create private session log lock " +:+ quoted p +:+ ": " +:+ create_error +:+
                                "; retry open failed")%string (raw_open ReadWrite p);
            mret (Ok (file, false))
        end
    | Err error => mret (Err ("cannot open session log lock " +:+ quoted p +:+ ": " +:+ io_text error)%string)
    end;
  _ ←? path_error ("cannot validate session log lock " +:+ quoted p)%string (validate_private_file fuel file p);
  mret (Ok (file, created)).

Fixpoint acquire_process_lock (steps : nat) (context : PluginContext) : fm (result string unit) :=
  match steps with
  | O => starved
  | S steps =>
      _ ←? checkpoint context;
      r ← ask try_process_lock;
      match r with
      | Acquired | Poisoned => mret (Ok tt)
      | Busy => _ ← sleep SESSION_LOG_LOCK_POLL; acquire_process_lock steps context
      end
  end.

Fixpoint acquire_file_lock (steps : nat) (file : Z) (lock_path : PathBuf) (context : PluginContext) : fm (result string unit) :=
  match steps with
  | O => starved
  | S steps =>
      _ ←? checkpoint context;
      r ← ask (flock_exclusive file);
      match r with
      | Ok _ => _ ← step (LogLocked file); mret (Ok tt)
      | Err WouldBlock => _ ← sleep SESSION_LOG_LOCK_POLL; acquire_file_lock steps file lock_path context
      | Err error => mret (Err ("cannot acquire session log lock " +:+ quoted lock_path +:+ ": " +:+ io_text error)%string)
      end
  end.

Definition acquire_session_log_lock (fuel : nat) (dir : PathBuf) (context : PluginContext) : fm (result string unit) :=
  _ ←? acquire_process_lock fuel context;
  let lock_path := dir ++ [SESSION_LOG_LOCK_FILE] in
  '(file, created) ←? open_session_log_lock_file fuel lock_path;
  _ ←? (if (created : bool) then sync_session_directory fuel lock_path else mret (Ok tt));
  acquire_file_lock fuel file lock_path context.

(** The body runs under the lock, which its guard gives back on every way out. *)
Definition under_session_log_lock {A : Type} (fuel : nat) (dir : PathBuf) (context : PluginContext)
    (body : fm (result string A)) : fm (result string A) :=
  _ ←? acquire_session_log_lock fuel dir context;
  r ← body;
  _ ← step LogUnlocked;
  mret r.

(** ** Appending *)

Definition open_private_session_log (fuel : nat) (p : PathBuf) : fm (result string (Z * bool)) :=
  let validate file := path_error ("cannot validate " +:+ quoted p)%string (validate_private_file fuel file p) in
  existing ← raw_open Append p;
  match existing with
  | Ok file => _ ←? validate file; mret (Ok (file, false))
  | Err NotFound =>
      new ← create_private_file fuel p;
      match new with
      | Ok _ =>
          file ←? io_error ("cannot reopen private session log " +:+ quoted p)%string (raw_open Append p);
          _ ←? path_error ("cannot validate private session log " +:+ quoted p)%string (validate_private_file fuel file p);
          _ ←? validate file;
          mret (Ok (file, true))
      | Err create_error =>
          file ←? io_error ("cannot create private session log " +:+ quoted p +:+ ": " +:+ create_error +:+
                              "; retry open failed")%string (raw_open Append p);
          _ ←? path_error ("cannot validate raced session log " +:+ quoted p)%string (validate_private_file fuel file p);
          mret (Ok (file, false))
      end
  | Err error => mret (Err ("cannot open " +:+ quoted p +:+ ": " +:+ io_text error)%string)
  end.

Definition append_session_record_locked (fuel : nat) (p : PathBuf) (json : list Byte) (context : PluginContext)
    : fm (result string unit) :=
  if decide (MAX_SESSION_RECORD_BYTES < Z.of_nat (length json)) then
    mret (Err ("session record exceeds " +:+ pretty MAX_SESSION_RECORD_BYTES +:+ " bytes")%string)
  else
  _ ←? checkpoint context;
  match parent p with
  | None => mret (Err ("session log has no parent: " +:+ quoted p)%string)
  | Some directory =>
      _ ←? path_error "cannot prepare private session directory" (open_private_directory fuel directory);
      '(file, created) ←? open_private_session_log fuel p;
      _ ←? checkpoint context;
      _ ←? io_error ("cannot append " +:+ quoted p)%string (write_all fuel file json ≫= λ written,
             match written with Ok _ => write_all fuel file [newline] | Err error => mret (Err error) end);
      _ ←? io_error ("cannot sync " +:+ quoted p)%string (sync_all file);
      _ ←? (if (created : bool) then sync_session_directory fuel p else mret (Ok tt));
      checkpoint context
  end.

(** ** The lock of the session *)

(** The first line, without its newline. *)
Fixpoint first_line (b : list Byte) : list Byte :=
  match b with [] => [] | x :: b => if decide (x = newline) then [] else x :: first_line b end.

(** [file.take(limit).read_to_end]: interrupted reads are repeated. *)
Fixpoint read_to_end (steps : nat) (h limit : Z) (bytes : list Byte) : fm (result IoError (list Byte)) :=
  match steps with
  | O => starved
  | S steps =>
      if decide (limit ≤ Z.of_nat (length bytes)) then mret (Ok bytes) else
      r ← read h (limit - Z.of_nat (length bytes));
      match r with
      | Ok [] => mret (Ok bytes)
      | Ok chunk => read_to_end steps h limit (bytes ++ chunk)
      | Err Interrupted => read_to_end steps h limit bytes
      | Err error => mret (Err error)
      end
  end.

Definition remove_owned_session_lock (fuel : nat) (p : PathBuf) (expected_owner : string) : fm (result string unit) :=
  named ← stat p;
  match named with
  | Err NotFound => mret (Ok tt)
  | Err error => mret (Err ("cannot inspect committed session lock " +:+ quoted p +:+ ": " +:+ io_text error)%string)
  | Ok named =>
      file ←? path_error ("cannot validate session lock " +:+ quoted p)%string (open_private_file fuel p);
      opened ←? io_error "cannot inspect opened session lock" (stat_handle file);
      if negb (same_file named opened) then
        mret (Err ("committed session lock changed before removal: " +:+ quoted p)%string)
      else if decide (MAX_SESSION_LOCK_BYTES < len opened) then
        mret (Err ("committed session lock exceeds " +:+ pretty MAX_SESSION_LOCK_BYTES +:+ " bytes: " +:+ quoted p)%string)
      else
      bytes ←? io_error "cannot read committed session lock" (read_to_end fuel file (MAX_SESSION_LOCK_BYTES + 1) []);
      if decide (MAX_SESSION_LOCK_BYTES < Z.of_nat (length bytes)) then
        mret (Err ("committed session lock grew beyond " +:+ pretty MAX_SESSION_LOCK_BYTES +:+ " bytes")%string)
      else if decide (first_line bytes ≠ string_bytes expected_owner) then mret (Ok tt)
      else
      _ ←? io_error ("cannot remove committed session lock " +:+ quoted p)%string (remove_file p);
      sync_session_directory fuel p
  end.

(** ** SessionRecorder *)

Definition record_crash_in_dir (fuel : nat) (session : SessionReport) (committed : Finalize.Finalize.CommittedReport)
    (report_relative_path : option string) (dir : PathBuf) (context : PluginContext) : fm (result string unit) :=
  _ ←? checkpoint context;
  _ ←? path_error "cannot prepare private session directory" (ensure_private_directory fuel dir);
  now ← ask local_now;
  let record := mkRecord (session_report_id session) (start session) now "crash" (duration_s session)
    (Some (Finalize.Finalize.committed_report_id committed)) report_relative_path
    (Some (Paths.Paths.shown (Finalize.Finalize.manifest_path committed))) in
  json ←? path_error "cannot serialize session record" (mret (serialize record));
  under_session_log_lock fuel dir context
    (_ ←? append_session_record_locked fuel (dir ++ ["sessions.jsonl"%string]) json context;
     _ ←? remove_owned_session_lock fuel (dir ++ ["session.lock"%string]) (session_report_id session);
     checkpoint context).

(** [session_data_dir] is [paths::data_dir]; a failure to find it is only told. *)
Definition record_crash (fuel : nat) (data_dir_path : result string PathBuf) (session : SessionReport)
    (committed : Finalize.Finalize.CommittedReport) (report_relative_path : option string) (context : PluginContext)
    : fm (result string unit) :=
  _ ←? checkpoint context;
  dir ← match artifact_transaction context with
        | Some transaction => mret (Ok (transaction_output_root transaction))
        | None => embed PathDid (Paths.Paths.data_dir fuel data_dir_path)
        end;
  match dir with
  | Ok dir => record_crash_in_dir fuel session committed report_relative_path dir context
  | Err e => _ ← warn ("[monitor] Failed to get data dir: " +:+ e)%string; mret (Ok tt)
  end.

Definition is_report_file (p : PathBuf) : bool :=
  match file_name p with Some name => bool_decide (name = "report.json" ∨ name = "report.zip")%string | None => false end.

Definition relative_report (committed : Finalize.Finalize.CommittedReport) (r : ReportResult) : option string :=
  let strip p := strip_prefix (Finalize.Finalize.report_dir committed) p in
  let relative := match json_path r ≫= strip with
                  | Some p => Some p
                  | None => head (filter (λ p, is_report_file p = true) (artifact_paths r)) ≫= strip
                  end in
  Paths.Paths.shown <$> relative.

Definition record_session (fuel : nat) (data_dir_path : result string PathBuf) (event : CrashEvent) (r : ReportResult)
    (context : PluginContext) : fm (result string unit) :=
  _ ←? checkpoint context;
  if negb (is_crash event) then mret (Ok tt) else
  _ ←? match result_session r with
       | None => mret (Ok tt)
       | Some session =>
           committed ← match artifact_transaction context with
                       | Some transaction => ask (transaction_committed transaction)
                       | None => mret None
                       end;
           match committed with
           | None => mret (Err "session record requires a committed report"%string)
           | Some committed => record_crash fuel data_dir_path session committed (relative_report committed r) context
           end
       end;
  checkpoint context.

(** ** Lines *)

Inductive BoundedLine : Type := Valid (b : list Byte) | Corrupt.

(** [BufRead::fill_buf]: the file is read when the buffer is empty. *)
Definition fill_buf (h : Z) (buf : list Byte) : fm (result IoError (list Byte)) :=
  if decide (buf = []) then read h LOG_IO_CHUNK_BYTES else mret (Ok buf).

(** The bytes up to and with the first newline, or all of them. *)
Fixpoint through_newline (b : list Byte) : nat :=
  match b with [] => 0 | x :: b => if decide (x = newline) then 1 else S (through_newline b) end%nat.
Definition ends_line (b : list Byte) : bool := bool_decide (last b = Some newline).

(** [bytes], [corrupt] and [saw_bytes] are the line so far; the buffer is answered too. *)
Fixpoint read_bounded_line (steps : nat) (h : Z) (context : PluginContext) (buf bytes : list Byte) (corrupt saw_bytes : bool)
    : fm (result string (option BoundedLine * list Byte)) :=
  match steps with
  | O => starved
  | S steps =>
      _ ←? checkpoint context;
      available ←? io_error "cannot read sessions.jsonl" (fill_buf h buf);
      if decide (available = []) then
        mret (Ok (if saw_bytes then Some (if corrupt then Corrupt else Valid bytes) else None, []))
      else
      let piece := take (through_newline available) available in
      let too_long := bool_decide (MAX_LOG_LINE_BYTES < Z.of_nat (length bytes + length piece)) in
      let '(bytes, corrupt) := if (corrupt : bool) then (bytes, true)
                               else if too_long then ([], true) else (bytes ++ piece, false) in
      let buf := drop (through_newline available) available in
      if ends_line piece then mret (Ok (Some (if corrupt then Corrupt else Valid bytes), buf))
      else read_bounded_line steps h context buf bytes corrupt true
  end.

Definition next_line (fuel : nat) (h : Z) (context : PluginContext) (buf : list Byte)
    : fm (result string (option BoundedLine * list Byte)) :=
  read_bounded_line fuel h context buf [] false false.

Fixpoint scan_valid_lines (steps fuel : nat) (h : Z) (context : PluginContext) (buf : list Byte) (valid observed : Z)
    : fm (result string Z) :=
  match steps with
  | O => starved
  | S steps =>
      _ ←? checkpoint context;
      '(line, buf) ←? next_line fuel h context buf;
      match line with
      | None => mret (Ok valid)
      | Some line =>
          if decide (observed = MAX_LOG_LINES) then
            mret (Err ("sessions.jsonl exceeds line-count limit (" +:+ pretty MAX_LOG_LINES +:+ ")")%string)
          else scan_valid_lines steps fuel h context buf
                 (match line with Valid _ => valid + 1 | Corrupt => valid end) (observed + 1)
      end
  end.

(** ** Rotation *)

(** [for chunk in bytes.chunks(LOG_IO_CHUNK_BYTES)]. *)
Fixpoint write_chunks (steps fuel : nat) (h : Z) (context : PluginContext) (b : list Byte) : fm (result string unit) :=
  match steps with
  | O => starved
  | S steps =>
      if decide (b = []) then mret (Ok tt) else
      _ ←? checkpoint context;
      _ ←? io_error "rotation write failed" (write_all fuel h (take (Z.to_nat LOG_IO_CHUNK_BYTES) b));
      write_chunks steps fuel h context (drop (Z.to_nat LOG_IO_CHUNK_BYTES) b)
  end.

Fixpoint keep_lines (steps fuel : nat) (h tmp : Z) (context : PluginContext) (buf : list Byte) (keep_from valid_index : Z)
    : fm (result string unit) :=
  match steps with
  | O => starved
  | S steps =>
      '(line, buf) ←? next_line fuel h context buf;
      match line with
      | None => mret (Ok tt)
      | Some Corrupt => keep_lines steps fuel h tmp context buf keep_from valid_index
      | Some (Valid bytes) =>
          _ ←? (if decide (keep_from ≤ valid_index) then write_chunks fuel fuel tmp context bytes else mret (Ok tt));
          keep_lines steps fuel h tmp context buf keep_from (valid_index + 1)
      end
  end.

Definition write_rotation (fuel : nat) (h tmp : Z) (context : PluginContext) (buf : list Byte) (keep_from : Z)
    : fm (result string unit) :=
  _ ←? keep_lines fuel fuel h tmp context buf keep_from 0;
  _ ←? io_error "rotation flush failed" (flush tmp);
  _ ←? io_error "rotation sync failed" (sync_all tmp);
  checkpoint context.

(** The reader is rewound, its buffer empty. *)
Definition replace_log_atomically (fuel : nat) (log_path : PathBuf) (h keep_from : Z) (context : PluginContext)
    : fm (result string unit) :=
  match file_name log_path with
  | None => mret (Err ("log path has no valid filename: " +:+ quoted log_path)%string)
  | Some name =>
      uuid ← ask fresh_name;
      let tmp_path := with_file_name log_path ("." +:+ name +:+ ".log-rotate-" +:+ uuid +:+ ".tmp")%string in
      _ ←? checkpoint context;
      tmp ←? path_error "cannot create rotation tmp" (create_private_file fuel tmp_path);
      write_result ← write_rotation fuel h tmp context [] keep_from;
      match write_result with
      | Err error => _ ← remove_file tmp_path; mret (Err error)
      | Ok _ =>
          renamed ← rename tmp_path log_path;
          match renamed with
          | Err error => _ ← remove_file tmp_path; mret (Err ("rotation rename failed: " +:+ io_text error)%string)
          | Ok _ =>
              match parent log_path with
              | None => mret (Err ("sessions.jsonl has no parent: " +:+ quoted log_path)%string)
              | Some directory =>
                  d ←? open_private_directory fuel directory;
                  io_error "session directory sync failed" (sync_all d)
              end
          end
      end
  end.

(** [LogRotator::new]. *)
Definition max_size_bytes (max_size_mb : Z) : Z := Z.min U64_MAX (max_size_mb * (1024 * 1024)).

Definition rotate_locked (fuel : nat) (max_size_bytes : Z) (log_path : PathBuf) (context : PluginContext)
    : fm (result string unit) :=
  named ← stat log_path;
  match named with
  | Err NotFound => mret (Ok tt)
  | Err error => mret (Err ("cannot inspect sessions.jsonl: " +:+ io_text error)%string)
  | Ok _ =>
      h ←? path_error "cannot safely open sessions.jsonl" (open_private_file fuel log_path);
      metadata ←? io_error "cannot stat sessions.jsonl" (stat_handle h);
      if negb (is_file metadata) then mret (Err "sessions.jsonl is not a regular file"%string)
      else if decide (len metadata ≤ max_size_bytes) then mret (Ok tt)
      else
      let max_rotation_bytes := Z.min U64_MAX (max_size_bytes + MAX_LOG_ROTATION_OVERAGE_BYTES) in
      if decide (max_rotation_bytes < len metadata) then
        mret (Err ("sessions.jsonl exceeds configured threshold plus rotation overage (" +:+ pretty max_rotation_bytes +:+
                     " bytes)")%string)
      else
      valid_lines ←? scan_valid_lines fuel fuel h context [] 0 0;
      if decide (valid_lines = 0) then mret (Err "sessions.jsonl contains no recoverable records"%string) else
      _ ←? io_error "cannot rewind sessions.jsonl" (rewind h);
      replace_log_atomically fuel log_path h (valid_lines / 2) context
  end.

Definition rotator_log_path (fuel : nat) (data_dir_path : result string PathBuf) (log_path_override : option PathBuf)
    (context : PluginContext) : fm (result string PathBuf) :=
  match log_path_override with
  | Some p => mret (Ok p)
  | None =>
      dir ←? match artifact_transaction context with
             | Some transaction => mret (Ok (transaction_output_root transaction))
             | None => path_error "data_dir" (embed PathDid (Paths.Paths.data_dir fuel data_dir_path))
             end;
      mret (Ok (dir ++ ["sessions.jsonl"%string]))
  end.

Definition rotate (fuel : nat) (data_dir_path : result string PathBuf) (log_path_override : option PathBuf)
    (max_size_bytes : Z) (context : PluginContext) : fm (result string unit) :=
  _ ←? checkpoint context;
  log_path ←? rotator_log_path fuel data_dir_path log_path_override context;
  match parent log_path with
  | None => mret (Err ("sessions.jsonl has no parent: " +:+ quoted log_path)%string)
  | Some log_dir =>
      _ ←? path_error "cannot prepare private session directory" (ensure_private_directory fuel log_dir);
      under_session_log_lock fuel log_dir context (rotate_locked fuel max_size_bytes log_path context)
  end.

End Log.
End SessionLog.
