(* ===== verification/SessionLogSpec.v ===== *)
(** * The session log is rotated to its newest lines

    [pass_lines] are the lines that a sequence of reads delivers, whatever the chunks; the
    theorem relates what a rotation writes to the lines of its two passes. *)

From S2P Require Import Prelude.
From S2P Require Import Traced.
From S2P Require Import Fueled.
From S2P Require Import PipelineTypes.
From S2P Require Import PluginRun.
From S2P Require Artifact.
From S2P Require Paths.
From S2P Require PathsSpec.
From S2P Require Import PluginFiles.
From S2P Require Import SessionLog.

Module SessionLogSpec.
Export SessionLog.
Export PluginFilesSpec.
#[local] Open Scope Z_scope.

(** ** Lines of a sequence of reads *)

(** The lines that [b] completes after [cur], and what is left of the last one. *)
Fixpoint feed (cur b : list Byte) : list (list Byte) * list Byte :=
  match b with
  | [] => ([], cur)
  | x :: b => if decide (x = newline) then let '(ls, rest) := feed [] b in ((cur ++ [x]) :: ls, rest)
              else feed (cur ++ [x]) b
  end.

(** The empty read is the end of the file, and ends a line that has no newline. *)
Fixpoint pass_lines (cur : list Byte) (reads : list (list Byte)) : list (list Byte) :=
  match reads with
  | [] => []
  | [] :: reads => (if decide (cur = []) then [] else [cur]) ++ pass_lines [] reads
  | chunk :: reads => let '(ls, rest) := feed cur chunk in ls ++ pass_lines rest reads
  end.

(** The lines to come, with [buf] read ahead. *)
Definition lines_ahead (cur buf : list Byte) (reads : list (list Byte)) : list (list Byte) :=
  let '(ls, rest) := feed cur buf in ls ++ pass_lines rest reads.

Definition reads_of (l : list FileStep) : list (list Byte) :=
  flat_map (λ s, match s with ReadFrom _ b => [b] | _ => [] end) l.

Definition classify (line : list Byte) : BoundedLine :=
  if decide (MAX_LOG_LINE_BYTES < Z.of_nat (length line)) then Corrupt else Valid line.
Definition valid_lines (ls : list (list Byte)) : list (list Byte) :=
  filter (λ line, Z.of_nat (length line) ≤ MAX_LOG_LINE_BYTES) ls.

(** The lines of whole contents: what comes out does not depend on the chunks. *)
Fixpoint split_lines (cur b : list Byte) : list (list Byte) :=
  match b with
  | [] => if decide (cur = []) then [] else [cur]
  | x :: b => if decide (x = newline) then (cur ++ [x]) :: split_lines [] b else split_lines (cur ++ [x]) b
  end.

Lemma reads_of_app l l' : reads_of (l ++ l') = reads_of l ++ reads_of l'.
Proof. apply flat_map_app. Qed.

Lemma lines_ahead_nil cur reads : lines_ahead cur [] reads = pass_lines cur reads.
Proof. done. Qed.

Lemma lines_ahead_chunk cur chunk reads : chunk ≠ [] → lines_ahead cur [] (chunk :: reads) = lines_ahead cur chunk reads.
Proof. by destruct chunk. Qed.

Lemma split_feed cur b : split_lines cur b = (feed cur b).1 ++ (if decide ((feed cur b).2 = []) then [] else [(feed cur b).2]).
Proof.
  revert cur. induction b as [|x b IH]; intros cur; cbn [split_lines feed]; [done|]. case_decide; [|apply IH].
  rewrite IH. by destruct (feed [] b).
Qed.
Lemma feed_app cur b b' :
  feed cur (b ++ b') = ((feed cur b).1 ++ (feed (feed cur b).2 b').1, (feed (feed cur b).2 b').2).
Proof.
  revert cur. induction b as [|x b IH]; intros cur; cbn [app feed]; [apply surjective_pairing|].
  case_decide; [|apply IH]. rewrite IH. by destruct (feed [] b).
Qed.

Lemma pass_lines_split cur chunks :
  Forall (λ c, c ≠ []) chunks → pass_lines cur (chunks ++ [[]]) = split_lines cur (concat chunks).
Proof.
  intros Hc. revert cur. induction Hc as [|c chunks Hne _ IH]; intros cur; cbn [app pass_lines concat].
  - apply app_nil_r.
  - rewrite split_feed, feed_app. destruct c as [|x c]; [done|]. destruct (feed cur (x :: c)) as [ls rest].
    rewrite IH, split_feed. cbn [fst snd]. by rewrite app_assoc.
Qed.

(** A piece of the buffer: a line, or everything. *)
Lemma feed_piece cur b :
  b ≠ [] →
  let piece := take (through_newline b) b in
  if ends_line piece then feed cur b = ((cur ++ piece) :: (feed [] (drop (through_newline b) b)).1, (feed [] (drop (through_newline b) b)).2)
  else piece = b ∧ feed cur b = ([], cur ++ b).
Proof.
  intros Hb. cbn zeta. revert cur. induction b as [|x b IH]; intros cur; [done|]. clear Hb.
  cbn [through_newline feed]. destruct (decide (x = newline)) as [-> | Hx].
  { change (ends_line (take 1 (newline :: b))) with true. cbn. rewrite drop_0. by destruct (feed [] b). }
  destruct b as [|y b]; [cbn; unfold ends_line; cbn; rewrite bool_decide_false by (by intros [= ->]); done|].
  specialize (IH ltac:(done) (cur ++ [x])). cbn [take drop]. set (piece := take (through_newline (y :: b)) (y :: b)) in *.
  assert (ends_line (x :: piece) = ends_line piece) as ->.
  { unfold ends_line. subst piece. cbn [through_newline]. case_decide; by cbn. }
  destruct (ends_line piece).
  - rewrite IH, <-app_assoc. done.
  - destruct IH as [-> ->]. by rewrite <-app_assoc.
Qed.

Lemma through_newline_pos b : b ≠ [] → (1 ≤ through_newline b ≤ length b)%nat.
Proof.
  induction b as [|x b IH]; [done|]. intros _. cbn. case_decide; [lia|]. destruct b; [cbn; lia|].
  specialize (IH ltac:(done)). cbn in *. lia.
Qed.

(** ** The reader *)

(** Observations of the log and of the context. *)
Definition looking (log : PathBuf) (s : FileStep) : Prop :=
  match s with
  | Checked _ | HandleStatted _ _ | ReadFrom _ _ | Rewound _ => True
  | Statted p _ | Opened p _ => p = log
  | _ => False
  end.

(** A pass over the log that is open as [hl]. *)
Definition reading (hl : Z) (s : FileStep) : Prop :=
  match s with Checked _ => True | ReadFrom h _ => h = hl | _ => False end.

(** A pass whose lines are written to [tmp]. *)
Definition copying (hl tmp : Z) (s : FileStep) : Prop :=
  match s with WroteTo h _ => h = tmp | _ => reading hl s end.

(** Steps of a replacement that leaves the log as it is. *)
Definition rotating (log tmp_path : PathBuf) (hl tmp : Z) (s : FileStep) : Prop :=
  match s with
  | FileSynced h => h = tmp
  | RenamedTo p q ok => p = tmp_path ∧ q = log ∧ ok = false
  | _ => copying hl tmp s
  end.

Definition syncing (s : FileStep) : Prop := match s with FileSynced _ => True | _ => False end.

(** Nothing is to be done: there is no log, or it is within its threshold. *)
Definition unneeded (log : PathBuf) (max_size : Z) (l : list FileStep) : Prop :=
  Statted log (Err NotFound) ∈ l ∨ ∃ h m, Opened log h ∈ l ∧ HandleStatted h (Ok m) ∈ l ∧ len m ≤ max_size.

(** What a rotation does under the lock: the log stays, or is replaced by a file next to it
    with the newest half of the lines that are within the bound, those of an odd number
    included. Both passes read the log up to its end. *)
Inductive rotation (log : PathBuf) (max_size : Z) : list FileStep → result string unit → Prop :=
| Kept l r : Forall (looking log) l → (r = Ok tt → unneeded log max_size l) → rotation log max_size l r
| Failed before name hl h body removed error :
    let tmp := with_file_name log name in
    Forall (looking log) before → Forall (rotating log tmp hl h) body →
    rotation log max_size (before ++ Created tmp h :: body ++ [Removed tmp removed]) (Err error)
| Rotated before hl m pass1 name h pass2 after r :
    let tmp := with_file_name log name in
    Forall (looking log) before → Opened log hl ∈ before → HandleStatted hl (Ok m) ∈ before →
    max_size < len m ≤ max_size + MAX_LOG_ROTATION_OVERAGE_BYTES →
    Forall (reading hl) pass1 → Forall (copying hl h) pass2 → Forall syncing after →
    last (reads_of pass1) = Some [] → last (reads_of pass2) = Some [] →
    let old := pass_lines [] (reads_of pass1) in
    let now := pass_lines [] (reads_of pass2) in
    Z.of_nat (length old) ≤ MAX_LOG_LINES → valid_lines old ≠ [] →
    written_bytes pass2 = concat (drop (length (valid_lines old) / 2) (valid_lines now)) →
    rotation log max_size
      (before ++ pass1 ++ [Rewound hl; Checked false; Created tmp h] ++ pass2 ++
       [FileSynced h; Checked false; RenamedTo tmp log true] ++ after) r.

Section Reader.
Context {E : Type} {clock : Clock E} {paths : Paths.Paths.PathOps E} {ops : FileOps E} {log_ops : LogOps E} {Txn Ctx : Type}
  {transactions : TransactionOps E Txn}.
#[local] Notation fm := (fueled E FileStep).
#[local] Notation PluginContext := (PluginContext Txn Ctx).

(** The state of a line after the bytes [cur]. *)
Definition line_state (cur bytes : list Byte) (corrupt saw_bytes : bool) : Prop :=
  corrupt = bool_decide (MAX_LOG_LINE_BYTES < Z.of_nat (length cur)) ∧ bytes = (if corrupt then [] else cur) ∧
  saw_bytes = negb (bool_decide (cur = [])).

Lemma line_state_classify cur bytes corrupt saw :
  line_state cur bytes corrupt saw → (if corrupt then Corrupt else Valid bytes) = classify cur.
Proof.
  intros (-> & -> & _). unfold classify. case_decide; [by rewrite bool_decide_true|by rewrite bool_decide_false].
Qed.

Lemma line_state_piece cur bytes corrupt saw piece :
  line_state cur bytes corrupt saw → piece ≠ [] →
  let '(bytes, corrupt) := if corrupt then (bytes, true)
    else if bool_decide (MAX_LOG_LINE_BYTES < Z.of_nat (length bytes + length piece)) then ([], true) else (bytes ++ piece, false) in
  line_state (cur ++ piece) bytes corrupt true.
Proof.
  intros (Hc & Hb & _) Hp. unfold line_state. rewrite length_app.
  rewrite (bool_decide_false (cur ++ piece = [])) by (by intros [_ ?]%app_eq_nil).
  destruct corrupt; symmetry in Hc; [apply bool_decide_eq_true in Hc|apply bool_decide_eq_false in Hc]; subst bytes.
  - rewrite bool_decide_true by lia. done.
  - case_bool_decide; done.
Qed.

Definition read_line_post (h : Z) (cur buf : list Byte) (l : list FileStep) (r : result string (option BoundedLine * list Byte)) : Prop :=
  Forall (reading h) l ∧
  match r with
  | Ok (Some x, buf') => ∃ line, x = classify line ∧
      ∀ reads, lines_ahead cur buf (reads_of l ++ reads) = line :: lines_ahead [] buf' reads
  | Ok (None, buf') => buf' = [] ∧ last (reads_of l) = Some [] ∧ ∀ reads, lines_ahead cur buf (reads_of l ++ reads) = lines_ahead [] [] reads
  | Err _ => True
  end.

Lemma does_fill_buf h buf :
  does (λ l r, Forall (reading h) l ∧ ∀ available, r = Ok available →
          (available = [] → l = [ReadFrom h []]) ∧
          ∀ cur reads, lines_ahead cur buf (reads_of l ++ reads) =
            if decide (available = []) then (if decide (cur = []) then [] else [cur]) ++ lines_ahead [] [] reads
            else lines_ahead cur available reads)
    (fill_buf h buf).
Proof.
  unfold fill_buf. case_decide as Hbuf; [subst buf|].
  - eapply does_impl; [apply does_read|]. intros l [b|error] ->; (split; [by repeat constructor|]); [|done].
    intros ? [= <-]. split; [by intros ->|]. intros cur reads. case_decide; [by subst|]. by apply lines_ahead_chunk.
  - apply does_ret. split; [done|]. intros ? [= <-]. split; [done|]. intros. by rewrite decide_False.
Qed.

Lemma does_read_line steps h (context : PluginContext) cur buf bytes corrupt saw :
  line_state cur bytes corrupt saw →
  does (read_line_post h cur buf) (read_bounded_line steps h context buf bytes corrupt saw).
Proof.
  revert cur buf bytes corrupt saw. induction steps as [|steps IH]; intros cur buf bytes corrupt saw Hst; [apply does_starved|].
  cbn [read_bounded_line]. apply does_checkpoint; [split; [by repeat constructor|done]|].
  eapply does_try_io; [apply does_fill_buf|intros l error error' [Hl _]; split; [by constructor|done]|].
  intros l available [Hl Hfill]. destruct (Hfill _ eq_refl) as [Hnil Hahead]. clear Hfill.
  case_decide as Hav.
  - apply does_ret. split; [rewrite app_nil_r; by constructor|]. pose proof (line_state_classify _ _ _ _ Hst) as Hcl.
    destruct Hst as (_ & _ & Hsaw). rewrite Hcl, Hsaw.
    assert (∀ reads, lines_ahead cur buf (reads_of (Checked false :: l ++ []) ++ reads) =
      (if decide (cur = []) then [] else [cur]) ++ lines_ahead [] [] reads) as Heq by (intros; rewrite app_nil_r; apply Hahead).
    case_bool_decide as Hcur; cbn [negb].
    + split; [done|]. split; [by rewrite (Hnil Hav)|]. intros. by rewrite Heq, decide_True.
    + exists cur. split; [done|]. intros. by rewrite Heq, decide_False.
  - set (piece := take (through_newline available) available). set (rest := drop (through_newline available) available).
    assert (piece ≠ []) as Hp.
    { intros Hp%(f_equal length). subst piece. rewrite length_take in Hp. pose proof (through_newline_pos available Hav). simpl in Hp. lia. }
    pose proof (line_state_piece _ _ _ _ piece Hst Hp) as Hst'. clear Hst.
    destruct (if corrupt then _ else _) as [bytes' corrupt']. pose proof (feed_piece cur available Hav) as Hfeed. cbn zeta in Hfeed.
    fold piece rest in Hfeed. destruct (ends_line piece).
    + apply does_ret. split; [rewrite app_nil_r; by constructor|]. exists (cur ++ piece). split; [by eapply line_state_classify|].
      intros reads. cbn [app reads_of flat_map]. fold (reads_of (l ++ [])). rewrite app_nil_r, Hahead. unfold lines_ahead. rewrite Hfeed. by destruct (feed [] rest).
    + destruct Hfeed as [Hpiece Hfeed]. assert (rest = []) as -> by (subst rest; apply nil_length_inv; rewrite length_drop;
        apply (f_equal length) in Hpiece; subst piece; rewrite length_take in Hpiece; lia).
      eapply does_impl; [by apply IH|]. intros l' r [Hl' Hr]. rewrite Hpiece in Hr.
      split; [constructor; [done|]; by apply Forall_app|].
      assert (∀ reads, lines_ahead cur buf (reads_of (Checked false :: l ++ l') ++ reads) =
        lines_ahead (cur ++ available) [] (reads_of l' ++ reads)) as Heq.
      { intros reads. cbn [app reads_of flat_map]. fold (reads_of (l ++ l')). rewrite reads_of_app, <-app_assoc, Hahead.
        unfold lines_ahead. by rewrite Hfeed. }
      destruct r as [[[x|] buf']|error]; [|destruct Hr as (-> & Hend & Hr)|done].
      * destruct Hr as (line & -> & Hr). exists line. split; [done|]. intros reads. by rewrite Heq, Hr.
      * split; [done|]. split; [|intros reads; by rewrite Heq, Hr].
        cbn [app reads_of flat_map]. fold (reads_of (l ++ l')). by rewrite reads_of_app, last_app, Hend.
Qed.

Lemma does_next_line fuel h (context : PluginContext) buf : does (read_line_post h [] buf) (next_line fuel h context buf).
Proof. by apply does_read_line. Qed.

(** ** The first pass *)

Lemma valid_classify line ls :
  valid_lines (line :: ls) = match classify line with Valid b => b :: valid_lines ls | Corrupt => valid_lines ls end.
Proof.
  unfold valid_lines, classify. destruct (decide (MAX_LOG_LINE_BYTES < Z.of_nat (length line))).
  - rewrite filter_cons_False by lia. done.
  - rewrite filter_cons_True by lia. done.
Qed.

Lemma does_scan steps fuel h (context : PluginContext) buf valid observed :
  does (λ l r, Forall (reading h) l ∧ ∀ n, r = Ok n → last (reads_of l) = Some [] ∧ ∃ ls,
      (∀ reads, lines_ahead [] buf (reads_of l ++ reads) = ls ++ lines_ahead [] [] reads) ∧
      n = valid + Z.of_nat (length (valid_lines ls)) ∧ (observed ≤ MAX_LOG_LINES → observed + Z.of_nat (length ls) ≤ MAX_LOG_LINES))
    (scan_valid_lines steps fuel h context buf valid observed).
Proof.
  revert buf valid observed. induction steps as [|steps IH]; intros buf valid observed; [apply does_starved|].
  cbn [scan_valid_lines]. apply does_checkpoint; [split; [by repeat constructor|done]|].
  eapply does_try; [apply does_next_line|intros l error [Hl _]; split; [by constructor|done]|].
  intros l [[x|] buf'] [Hl Hr].
  - destruct Hr as (line & -> & Hr). case_decide as Hobs; [apply does_ret; split; [rewrite app_nil_r; by constructor|done]|].
    eapply does_impl; [apply IH|]. intros l' r [Hl' Hrest]. split; [constructor; [done|]; by apply Forall_app|].
    intros n Hn. destruct (Hrest n Hn) as (Hend & ls & Hls & -> & Hcount).
    split; [cbn [app reads_of flat_map]; fold (reads_of (l ++ l')); by rewrite reads_of_app, last_app, Hend|]. exists (line :: ls). split_and!.
    + intros reads. cbn [app reads_of flat_map]. fold (reads_of (l ++ l')). rewrite reads_of_app, <-app_assoc, Hr, Hls. done.
    + rewrite valid_classify. destruct (classify line); simpl; lia.
    + intros Hle. simpl. specialize (Hcount ltac:(lia)). lia.
  - destruct Hr as (-> & Hend & Hr). apply does_ret. split; [rewrite app_nil_r; by constructor|]. intros n [= <-].
    split; [rewrite app_nil_r; exact Hend|]. exists [].
    split_and!; [|simpl; lia|simpl; lia]. intros reads. rewrite app_nil_r. apply Hr.
Qed.

(** ** The second pass *)

Lemma reading_copying hl l : Forall (reading hl) l → written_bytes l = [] ∧ ∀ tmp, Forall (copying hl tmp) l.
Proof.
  intros Hl. split.
  - induction Hl as [|s l Hs _ IH]; [done|]. rewrite written_bytes_cons, IH. by destruct s.
  - intros tmp. eapply Forall_impl; [exact Hl|]. by intros [].
Qed.

Lemma does_write_chunks steps fuel hl tmp (context : PluginContext) b :
  does (λ l r, Forall (copying hl tmp) l ∧ reads_of l = [] ∧ (r = Ok tt → written_bytes l = b))
    (write_chunks steps fuel tmp context b).
Proof.
  revert b. induction steps as [|steps IH]; intros b; [apply does_starved|]. cbn [write_chunks].
  case_decide as Hb; [subst; by apply does_ret|]. apply does_checkpoint; [split_and!; [by repeat constructor|done|done]|].
  assert (∀ l, Forall (writes_to tmp) l → Forall (copying hl tmp) l ∧ reads_of l = []) as Hw.
  { intros l Hl. split; [eapply Forall_impl; [exact Hl|]; by intros s [c ->]|].
    induction Hl as [|s l [c ->] _ IHl]; [done|]. exact IHl. }
  eapply does_try_io; [apply does_write_all| |].
  - intros l error error' (Hl & _). apply Hw in Hl as [H1 H2]. split_and!; [by constructor|done|done].
  - intros l [] (Hl & _ & Hb'). specialize (Hb' eq_refl). apply Hw in Hl as [H1 H2].
    eapply does_impl; [apply IH|]. intros l' r (H3 & H4 & H5). split_and!.
    + constructor; [done|]. by apply Forall_app.
    + cbn [app reads_of flat_map]. fold (reads_of (l ++ l')). by rewrite reads_of_app, H2, H4.
    + intros Hr. bytes. rewrite Hb', H5 by done. apply take_drop.
Qed.

Lemma does_keep_lines steps fuel h tmp (context : PluginContext) buf keep_from index :
  does (λ l r, Forall (copying h tmp) l ∧ (r = Ok tt → last (reads_of l) = Some [] ∧ ∃ ls,
      (∀ reads, lines_ahead [] buf (reads_of l ++ reads) = ls ++ lines_ahead [] [] reads) ∧
      written_bytes l = concat (drop (Z.to_nat (keep_from - index)) (valid_lines ls))))
    (keep_lines steps fuel h tmp context buf keep_from index).
Proof.
  revert buf index. induction steps as [|steps IH]; intros buf index; [apply does_starved|]. cbn [keep_lines].
  eapply does_try; [apply does_next_line|intros l error [Hl _]; split; [by apply reading_copying|done]|].
  intros l [[x|] buf'] [[Hwr Hrot]%reading_copying Hr].
  2: { destruct Hr as (-> & Hend & Hr). apply does_ret. rewrite app_nil_r. split; [apply Hrot|]. intros _. split; [done|].
       exists []. split; [apply Hr|]. rewrite Hwr. by destruct (Z.to_nat _). }
  destruct Hr as (line & -> & Hr). destruct (classify line) as [b|] eqn:Hcl.
  2: { eapply does_impl; [apply IH|]. intros l' r [Hl' Hrest]. split; [by apply Forall_app|]. intros Hok.
       destruct (Hrest Hok) as (Hend & ls & Hls & Hw). split; [by rewrite reads_of_app, last_app, Hend|]. exists (line :: ls). split.
       - intros reads. by rewrite reads_of_app, <-app_assoc, Hr, Hls.
       - by rewrite written_bytes_app, Hwr, Hw, valid_classify, Hcl. }
  apply (does_bind (λ l r, Forall (copying h tmp) l ∧ reads_of l = [] ∧
    (r = Ok tt → written_bytes l = if decide (keep_from ≤ index) then b else []))).
  { case_decide; [apply does_write_chunks|by apply does_ret]. }
  intros l1 [[]|error] (Hl1 & Hr1 & Hw1); [|apply does_ret; rewrite app_nil_r; split; [by apply Forall_app|done]].
  specialize (Hw1 eq_refl). eapply does_impl; [apply IH|]. intros l' r [Hl' Hrest]. split; [rewrite !Forall_app; done|].
  intros Hok. destruct (Hrest Hok) as (Hend & ls & Hls & Hw). split; [by rewrite !reads_of_app, !last_app, Hend|]. exists (line :: ls). split.
  - intros reads. rewrite !reads_of_app, Hr1. cbn [app]. by rewrite <-app_assoc, Hr, Hls.
  - rewrite !written_bytes_app, Hwr, Hw1, Hw, valid_classify, Hcl. case_decide.
    + replace (Z.to_nat (keep_from - (index + 1))) with 0%nat by lia. replace (Z.to_nat (keep_from - index)) with 0%nat by lia. done.
    + replace (Z.to_nat (keep_from - index)) with (S (Z.to_nat (keep_from - (index + 1)))) by lia. done.
Qed.

(** ** The rotation *)

Lemma copying_rotating log tmp_path hl tmp l : Forall (copying hl tmp) l → Forall (rotating log tmp_path hl tmp) l.
Proof. intros Hl. eapply Forall_impl; [exact Hl|]. by intros []. Qed.
Lemma reading_looking log hl l : Forall (reading hl) l → Forall (looking log) l.
Proof. intros Hl. eapply Forall_impl; [exact Hl|]. by intros []. Qed.

(** Steps to come of an unfinished rotation. *)
Definition then_rotation (log : PathBuf) (max_size : Z) (before l : list FileStep) (r : result string unit) : Prop :=
  rotation log max_size (before ++ l) r.

Lemma refused log max_size before l error :
  Forall (looking log) before → Forall (looking log) l → then_rotation log max_size before l (Err error).
Proof. intros H1 H2. apply Kept; [by apply Forall_app|done]. Qed.

(** The second pass and its publication. *)
Definition replacement (log tmp_path : PathBuf) (hl tmp keep_from : Z) (l : list FileStep) (r : result string unit) : Prop :=
  match r with
  | Err _ => Forall (rotating log tmp_path hl tmp) l
  | Ok _ => ∃ pass2, l = pass2 ++ [FileSynced tmp; Checked false] ∧ Forall (copying hl tmp) pass2 ∧ last (reads_of pass2) = Some [] ∧
      written_bytes pass2 = concat (drop (Z.to_nat keep_from) (valid_lines (pass_lines [] (reads_of pass2))))
  end.

Lemma does_write_rotation fuel h tmp (context : PluginContext) keep_from log tmp_path :
  does (replacement log tmp_path h tmp keep_from) (write_rotation fuel h tmp context [] keep_from).
Proof.
  unfold write_rotation. eapply does_try; [apply does_keep_lines|intros l error [Hl _]; by apply copying_rotating|].
  intros pass2 [] [Hl Hr]. destruct (Hr eq_refl) as (Hend & ls & Hls & Hw). clear Hr.
  pose proof (copying_rotating log tmp_path _ _ _ Hl) as Hrot.
  specialize (Hls []). rewrite app_nil_r in Hls. unfold lines_ahead in Hls. cbn in Hls. rewrite app_nil_r in Hls.
  rewrite Z.sub_0_r, <-Hls in Hw.
  apply does_try_idle; [unfold io_error, or_error; solve_only|intros error; cbn; by rewrite app_nil_r|]. intros [].
  eapply does_try_io; [apply does_sync_all|intros l error error' ->; cbn; by rewrite app_nil_r|]. intros l [] ->.
  unfold checkpoint. eapply does_bind; [apply does_checked|]. intros l b ->. apply does_ret. destruct b; cbn.
  - apply Forall_app. split; [done|by repeat constructor].
  - by exists pass2.
Qed.

Lemma does_replace fuel log h m keep_from (context : PluginContext) max_size before pass1 :
  let old := pass_lines [] (reads_of pass1) in
  Forall (looking log) before → Opened log h ∈ before → HandleStatted h (Ok m) ∈ before →
  max_size < len m ≤ max_size + MAX_LOG_ROTATION_OVERAGE_BYTES →
  Forall (reading h) pass1 → last (reads_of pass1) = Some [] → Z.of_nat (length old) ≤ MAX_LOG_LINES → valid_lines old ≠ [] →
  keep_from = Z.of_nat (length (valid_lines old)) / 2 →
  does (then_rotation log max_size (before ++ pass1 ++ [Rewound h])) (replace_log_atomically fuel log h keep_from context).
Proof.
  intros old Hb Ho Hm Hsize Hp Hend Hcount Hvalid Hkeep. unfold replace_log_atomically.
  assert (Forall (looking log) (before ++ pass1 ++ [Rewound h])) as Hall.
  { rewrite !Forall_app. split_and!; [done|by eapply reading_looking|by repeat constructor]. }
  destruct (file_name log) as [file|]; [|by apply does_ret, refused]. apply does_idle; [apply only_ask|]. intros uuid.
  set (name := ("." +:+ file +:+ _)%string). set (tmp_path := with_file_name log name).
  apply does_checkpoint; [apply refused; [done|by repeat constructor]|].
  eapply does_try_io; [apply does_create|intros l error error' ->; apply refused; [done|by repeat constructor]|].
  intros l tmp ->. eapply does_bind; [apply (does_write_rotation fuel h tmp context keep_from log tmp_path)|].
  intros l r Hr.
  assert (∀ body removed error, Forall (rotating log tmp_path h tmp) body → then_rotation log max_size (before ++ pass1 ++ [Rewound h])
    (Checked false :: [Created tmp_path tmp] ++ body ++ [Removed tmp_path removed]) (Err error)) as Hfailed.
  { intros body removed error Hbody. unfold then_rotation.
    replace (_ ++ _) with ((before ++ pass1 ++ [Rewound h] ++ [Checked false]) ++ Created tmp_path tmp :: body ++ [Removed tmp_path removed])
      by (by rewrite <-!app_assoc). apply (Failed _ _ _ name h); [|done]. rewrite !app_assoc. apply Forall_app.
    split; [by rewrite <-app_assoc|by repeat constructor]. }
  destruct r as [[]|error].
  2: { eapply does_bind; [apply does_remove|]. intros l' r' ->. apply does_ret. rewrite app_nil_r. by apply Hfailed. }
  destruct Hr as (pass2 & -> & Hp2 & Hend2 & Hw). eapply does_bind; [apply does_rename|]. intros l [[]|error] ->.
  2: { eapply does_bind; [apply does_remove|]. intros l' r' ->. apply does_ret. rewrite app_nil_r.
       replace ((_ ++ _) ++ _ ++ _) with ((pass2 ++ [FileSynced tmp; Checked false; RenamedTo tmp_path log (is_ok (Err error : result IoError unit))]) ++ [Removed tmp_path (is_ok r')])
         by (by rewrite <-!app_assoc).
       apply Hfailed. rewrite Forall_app. split; [by apply copying_rotating|by repeat constructor]. }
  assert (∀ after r, Forall syncing after → then_rotation log max_size (before ++ pass1 ++ [Rewound h])
    (Checked false :: [Created tmp_path tmp] ++ (pass2 ++ [FileSynced tmp; Checked false]) ++ [RenamedTo tmp_path log true] ++ after) r) as Hdone.
  { intros after r Ha. unfold then_rotation.
    replace (_ ++ _) with (before ++ pass1 ++ [Rewound h; Checked false; Created tmp_path tmp] ++ pass2 ++
       [FileSynced tmp; Checked false; RenamedTo tmp_path log true] ++ after) by (by rewrite <-!app_assoc).
    apply (Rotated _ _ _ _ m _ name); try done. fold old. rewrite Hw, Hkeep. f_equal. f_equal.
    rewrite Z2Nat.inj_div, Nat2Z.id by lia. done. }
  destruct (parent log); [|by apply does_ret, Hdone].
  apply does_try_idle; [apply idle_open_directory|intros error; by apply Hdone|]. intros d.
  unfold io_error, or_error. eapply does_bind; [apply does_sync_all|]. intros l r ->. apply does_ret. rewrite app_nil_r.
  apply Hdone. by destruct r; repeat constructor.
Qed.

Lemma does_rotate_locked fuel max_size log (context : PluginContext) :
  does (rotation log max_size) (rotate_locked fuel max_size log context).
Proof.
  unfold rotate_locked. eapply does_bind; [apply does_stat|]. intros l named ->.
  assert (∀ l (error : string), Forall (looking log) l → rotation log max_size l (Err error)) as K by (intros; by apply Kept).
  destruct named as [named|[]]; try (apply does_ret, K; by repeat constructor).
  2: { apply does_ret, Kept; [by repeat constructor|]. intros _. left. set_solver. }
  eapply does_try_io; [apply does_open_file|intros l error error' ->; apply K; by repeat constructor|]. intros l h ->.
  eapply does_try_io; [apply does_stat_handle|intros l error error' ->; apply K; by repeat constructor|]. intros l m ->.
  set (before := [Statted log (Ok named); Opened log h; HandleStatted h (Ok m)]).
  assert (Forall (looking log) before) as Hbefore by by repeat constructor.
  apply (does_impl (λ l r, then_rotation log max_size before l r)); [|done].
  assert (∀ l (error : string), Forall (looking log) l → then_rotation log max_size before l (Err error)) as K'
    by (intros; by apply refused).
  destruct (is_file m); cbn [negb]; [|by apply does_ret, K'].
  case_decide as Hsmall.
  { apply does_ret, Kept; [done|]. intros _. right. exists h, m. split_and!; [set_solver|set_solver|done]. }
  case_decide; [by apply does_ret, K'|].
  eapply does_try; [apply does_scan|intros l error [Hl _]; by eapply K', reading_looking|].
  intros pass1 n [Hp1 Hn]. destruct (Hn n eq_refl) as (Hend & ls & Hls & -> & Hcount). clear Hn.
  pose proof (reading_looking log _ _ Hp1) as Hlook.
  specialize (Hls []). rewrite app_nil_r in Hls. unfold lines_ahead in Hls. cbn in Hls. rewrite app_nil_r in Hls. subst ls.
  case_decide as Hzero; [apply does_ret, K'; by rewrite app_nil_r|].
  eapply does_try_io; [apply does_rewind|intros l error error' ->; apply K'; by rewrite app_nil_r|].
  intros l [] ->. eapply does_impl.
  - apply (does_replace fuel log h m _ context max_size before pass1); try done.
    + set_solver. + set_solver. + lia. + by apply Hcount. + intros Hnil. rewrite Hnil in Hzero. done.
  - intros l r Hrot. unfold then_rotation in *. by rewrite <-!app_assoc in *.
Qed.

(** ** The lock *)

(** Before the lock is held, only the lock file is opened or created. *)
Definition preparing (dir : PathBuf) (s : FileStep) : Prop :=
  match s with
  | Checked _ | FileSynced _ => True
  | Opened p _ | Created p _ => p = dir ++ [SESSION_LOG_LOCK_FILE]
  | _ => False
  end.

(** The handle is that of the lock file. *)
Definition lock_file (dir : PathBuf) (l : list FileStep) (h : Z) : Prop :=
  Opened (dir ++ [SESSION_LOG_LOCK_FILE]) h ∈ l ∨ Created (dir ++ [SESSION_LOG_LOCK_FILE]) h ∈ l.

(** What a body does is done under the lock on the lock file, which is given back behind it. *)
Definition under_lock {A : Type} (dir : PathBuf) (P : list FileStep → result string A → Prop)
    (l : list FileStep) (r : result string A) : Prop :=
  (Forall (preparing dir) l ∧ ∃ error, r = Err error) ∨
  ∃ before h body, l = before ++ LogLocked h :: body ++ [LogUnlocked] ∧ Forall (preparing dir) before ∧ lock_file dir before h ∧ P body r.

Lemma does_raw_open mode p : does (λ l r, l = match r with Ok h => [Opened p h] | Err _ => [] end) (raw_open mode p).
Proof. apply does_io. by repeat constructor. Qed.
Lemma only_raw_open P mode p : (∀ h, P (Opened p h)) → only P (raw_open mode p).
Proof. intros HP. eapply does_impl; [apply does_raw_open|]. intros l [] ->; by repeat constructor. Qed.
Lemma only_create P fuel p : (∀ h, P (Created p h)) → only P (create_private_file fuel p).
Proof. intros HP. eapply does_impl; [apply does_create|]. intros l [] ->; by repeat constructor. Qed.
Lemma only_sync_directory P fuel p : (∀ h, P (FileSynced h)) → only P (sync_session_directory fuel p).
Proof.
  intros HP. unfold sync_session_directory. destruct (parent p); [|solve_only]. apply only_bind; [solve_only|].
  intros [h|error]; [|solve_only]. unfold io_error, or_error. apply only_bind; [|solve_only].
  eapply does_impl; [apply does_sync_all|]. intros l [] ->; by repeat constructor.
Qed.
#[local] Hint Resolve only_checkpoint only_raw_open only_create only_sync_directory : cm.
#[local] Hint Extern 2 (preparing _ _) => first [exact I | reflexivity] : cm.

Lemma does_lock_file fuel dir :
  does (λ l r, Forall (preparing dir) l ∧ ∀ file created, r = Ok (file, created) → lock_file dir l file)
    (open_session_log_lock_file fuel (dir ++ [SESSION_LOG_LOCK_FILE])).
Proof.
  unfold open_session_log_lock_file, io_error, path_error.
  set (P := λ (l : list FileStep) (r : result string (Z * bool)), Forall (preparing dir) l ∧
    ∀ file created, r = Ok (file, created) → lock_file dir l file).
  assert (∀ (l : list FileStep) (error : string), Forall (preparing dir) l → P l (Err error)) as Fail by (intros; by split).
  eapply does_bind; [apply does_raw_open|]. intros l existing ->. eapply (does_try (λ l r, P (match existing with Ok h => [Opened (dir ++ [SESSION_LOG_LOCK_FILE]) h] | Err _ => [] end ++ l) r)).
  - destruct existing as [file|error].
    + apply does_ret. split; [by repeat constructor|]. intros ? ? [= <- <-]. left. by left.
    + destruct error; try (by apply does_ret, Fail). eapply does_bind; [apply does_create|]. intros l [file|text] ->.
      * apply does_ret. split; [by repeat constructor|]. intros ? ? [= <- <-]. right. by left.
      * eapply does_try_io; [apply does_raw_open|intros l error error' ->; by apply Fail|]. intros l file ->.
        apply does_ret. split; [by repeat constructor|]. intros ? ? [= <- <-]. left. by left.
  - intros l error [Hl _]. by apply Fail.
  - intros l [file created] [Hl Hf]. apply does_try_idle; [unfold or_error; solve_only|intros error; rewrite app_nil_r; by apply Fail|].
    intros []. apply does_ret. rewrite app_nil_r. split; [done|]. intros ? ? [= <- <-]. by eapply Hf.
Qed.
Lemma only_process_lock dir steps (context : PluginContext) : only (preparing dir) (acquire_process_lock steps context).
Proof. induction steps; cbn [acquire_process_lock]; unfold sleep; solve_only. Qed.
#[local] Hint Resolve only_process_lock : cm.

Lemma does_file_lock dir steps file p (context : PluginContext) :
  does (λ l r, (Forall (preparing dir) l ∧ ∃ error, r = Err error) ∨
               (∃ before, l = before ++ [LogLocked file] ∧ Forall (preparing dir) before ∧ r = Ok tt))
    (acquire_file_lock steps file p context).
Proof.
  induction steps as [|steps IH]; [apply does_starved|]. cbn [acquire_file_lock].
  apply does_checkpoint; [left; split; [by repeat constructor|by eexists]|].
  apply does_idle; [apply only_ask|]. intros [[]|error].
  - apply does_step; [done|]. apply does_ret. right. exists [Checked false]. split_and!; [done|by repeat constructor|done].
  - assert (∀ text : string, does (λ l r, (Forall (preparing dir) (Checked false :: l) ∧ ∃ error, r = Err error) ∨
      (∃ before, Checked false :: l = before ++ [LogLocked file] ∧ Forall (preparing dir) before ∧ r = Ok tt))
      (mret (Err text) : fm (result string unit))) as Hret.
    { intros text. apply does_ret. left. split; [by repeat constructor|by eexists]. }
    destruct error; try apply Hret. apply does_idle; [apply only_ask|]. intros [].
    eapply does_impl; [exact IH|]. intros l r [[Hl Hr] | (before & -> & Hb & Hr)].
    + left. split; [by constructor|done].
    + right. exists (Checked false :: before). split_and!; [done|by constructor|done].
Qed.

(** Whether the lock is held at the end. *)
Definition locking (dir : PathBuf) (l : list FileStep) (r : result string unit) : Prop :=
  (Forall (preparing dir) l ∧ ∃ error, r = Err error) ∨
  ∃ before h, l = before ++ [LogLocked h] ∧ Forall (preparing dir) before ∧ lock_file dir before h ∧ r = Ok tt.

Lemma does_acquire fuel dir (context : PluginContext) : does (locking dir) (acquire_session_log_lock fuel dir context).
Proof.
  unfold acquire_session_log_lock.
  assert (∀ (l : list FileStep) (error : string), Forall (preparing dir) l → locking dir l (Err error)) as Fail
    by (intros; left; split; [done|by eexists]).
  apply (does_try (λ l _, Forall (preparing dir) l)); [apply only_process_lock|intros l error Hl; by apply Fail|]. intros l [] Hl.
  eapply does_try; [apply does_lock_file|intros l1 error [Hl1 _]; apply Fail; by apply Forall_app|].
  intros l1 [file created] [Hl1 Hf]. specialize (Hf file created eq_refl).
  apply (does_try (λ l _, Forall (preparing dir) l)); [destruct created; [by apply only_sync_directory|apply only_ret]|intros l2 error Hl2; apply Fail; by rewrite !Forall_app|].
  intros l2 [] Hl2. eapply does_impl; [apply (does_file_lock dir)|]. intros l3 r [[Hl3 [error ->]] | (before & -> & Hb & ->)].
  - apply Fail. by rewrite !Forall_app.
  - right. exists (l ++ l1 ++ l2 ++ before), file. split_and!; [by rewrite <-!app_assoc|by rewrite !Forall_app| |done].
    destruct Hf as [Hf|Hf]; [left|right]; rewrite !elem_of_app; tauto.
Qed.

Lemma does_under_lock {A : Type} fuel dir (context : PluginContext) (P : list FileStep → result string A → Prop) body :
  does P body → does (under_lock dir P) (under_session_log_lock fuel dir context body).
Proof.
  intros Hbody. unfold under_session_log_lock. eapply does_try; [apply does_acquire| |].
  - intros l error [H | (before & h & _ & _ & _ & [=])]. left. destruct H as [H [error' [= ->]]]. split; [done|by eexists].
  - intros l [] [[_ [error [=]]] | (before & h & -> & Hb & Hf & _)].
    eapply does_bind; [exact Hbody|]. intros l r HP. apply does_step; [done|]. apply does_ret. right.
    exists before, h, l. split_and!; [by rewrite <-app_assoc|done|done|done].
Qed.

(** The session log: the one that is given, or that of the transaction's output directory,
    or that of the data directory. *)
Definition log_of (data_dir_path : result string PathBuf) (override : option PathBuf) (context : PluginContext) (log : PathBuf) : Prop :=
  match override, artifact_transaction context with
  | Some given, _ => log = given
  | None, Some transaction => log = transaction_output_root transaction ++ ["sessions.jsonl"%string]
  | None, None => ∃ data, data_dir_path = Ok data ∧ log = data ++ ["sessions.jsonl"%string]
  end.

(** What a whole rotation does: nothing, with an error, or everything under the lock in the
    directory of the log. *)
Definition rotated (data_dir_path : result string PathBuf) (override : option PathBuf) (max_size : Z) (context : PluginContext)
    (l : list FileStep) (r : result string unit) : Prop :=
  (Forall (λ s, ∃ b, s = Checked b) l ∧ ∃ error, r = Err error) ∨
  ∃ log dir body, l = Checked false :: body ∧ log_of data_dir_path override context log ∧ parent log = Some dir ∧
    under_lock dir (rotation log max_size) body r.

Lemma does_data_dir fuel data_dir_path :
  does (λ l r, l = [] ∧ ∀ data, r = Ok data → data_dir_path = Ok data) (embed PathDid (Paths.Paths.data_dir fuel data_dir_path) : fm _).
Proof.
  eapply ends_impl; [apply ends_embed; instantiate (1 := λ _ r, ∀ data, r = Ok data → data_dir_path = Ok data)|].
  - unfold Paths.Paths.data_dir, Paths.Paths.ensure_private_directory. destruct data_dir_path as [dir|error]; [|by apply ends_ret].
    apply (ends_bind (λ _ _, True)); [|intros l [[]|error] _; apply ends_ret; [|done]; by intros ? [= <-]].
    eapply ends_bind; [apply PathsSpec.PathsSpec.gives_ensure|]. intros l [h|error] _; by apply ends_ret.
  - intros l r (l' & -> & Hr). by rewrite deeds_paths.
Qed.

Lemma does_log_path fuel data_dir_path override (context : PluginContext) :
  does (λ l r, l = [] ∧ ∀ log, r = Ok log → log_of data_dir_path override context log)
    (rotator_log_path fuel data_dir_path override context).
Proof.
  unfold rotator_log_path, log_of. destruct override as [given|]; [apply does_ret; split; [done|]; by intros ? [= <-]|].
  destruct (artifact_transaction context) as [transaction|]; [apply does_ret; split; [done|]; by intros ? [= <-]|].
  eapply does_try_io; [apply does_data_dir|intros l error error' [-> _]; done|].
  intros l dir [-> Hr]. apply does_ret. split; [done|]. intros ? [= <-]. exists dir. auto.
Qed.

(** The plugin: the directory of the log is the one that is locked. *)
Lemma does_rotate fuel data_dir_path override max_size (context : PluginContext) :
  does (rotated data_dir_path override max_size context) (rotate fuel data_dir_path override max_size context).
Proof.
  unfold rotate. assert (∀ b (error : string), rotated data_dir_path override max_size context [Checked b] (Err error)) as Fail.
  { intros b error. left. split; [by repeat econstructor|by eexists]. }
  apply does_checkpoint; [apply Fail|].
  eapply does_try; [apply does_log_path|intros l error [-> _]; apply Fail|]. intros l log [-> Hlog]. specialize (Hlog log eq_refl).
  destruct (parent log) as [dir|] eqn:Hdir; [|apply does_ret, Fail].
  apply does_try_idle; [unfold path_error, or_error; solve_only|intros; apply Fail|]. intros [].
  eapply does_impl; [apply does_under_lock, does_rotate_locked|]. intros l r Hl. right. by exists log, dir, l.
Qed.

End Reader.

(** ** Answers within a budget *)

(** The budget is how often a lock is still busy, and how often the log still has bytes
    to read or a read is interrupted. *)
Class LogLaws (E : Type) {ops : FileOps E} {log_ops : LogOps E} (budget : E → nat) : Prop := {
  law_try e : (budget (try_process_lock e).2 ≤ budget e ∧ ((try_process_lock e).1 = Busy → budget (try_process_lock e).2 < budget e))%nat;
  law_flock h e : (budget (flock_exclusive h e).2 ≤ budget e ∧
    ((flock_exclusive h e).1 = Err WouldBlock → budget (flock_exclusive h e).2 < budget e))%nat;
  law_sleep d e : (budget (thread_sleep d e) ≤ budget e)%nat;
  law_open_raw mode p : calm budget (open_raw mode p);
  law_local_now : calm budget local_now;
  law_read_more h n e : (read_handle h n e).1 ≠ Ok [] → (∀ error, (read_handle h n e).1 = Err error → error = Interrupted) →
    (budget (read_handle h n e).2 < budget e)%nat
}.

Section Answers.
Context {E : Type} {clock : Clock E} {paths : Paths.Paths.PathOps E} {ops : FileOps E} {log_ops : LogOps E} {Txn Ctx : Type}
  {transactions : TransactionOps E Txn} {budget : E → nat} {elapsed : E → Z} {time : PathsSpec.PathsSpec.PathTime E elapsed}
  {path_laws : PathsSpec.PathsSpec.PathLaws E budget} {laws : FileLaws E budget} {log_laws : LogLaws E budget}.
#[local] Notation fm := (fueled E FileStep).
#[local] Notation PluginContext := (PluginContext Txn Ctx).
#[local] Hint Resolve PathsSpec.PathsSpec.law_now law_open_raw law_local_now io_settles : cm.

Context {n fuel : nat} (Hfuel : Paths.Paths.PERMISSION_RACE_DEADLINE + LOG_IO_CHUNK_BYTES * Z.of_nat n < Z.of_nat fuel).

Lemma log_race_fuel : Paths.Paths.PERMISSION_RACE_DEADLINE < Z.of_nat fuel.
Proof. unfold LOG_IO_CHUNK_BYTES in *. lia. Qed.
Lemma log_less_fuel : (n ≤ fuel)%nat.
Proof. unfold LOG_IO_CHUNK_BYTES, Paths.Paths.PERMISSION_RACE_DEADLINE, NANOS_PER_MILLI in *. lia. Qed.
#[local] Hint Resolve log_race_fuel log_less_fuel open_private_directory_settles ensure_directory_settles open_private_file_settles create_private_file_settles
  validate_settles : cm.

Lemma sleep_settles k d : settles budget k (sleep d : fm unit).
Proof. apply settles_call. intros e. apply law_sleep. Qed.
Lemma raw_open_settles k mode p : settles budget k (raw_open mode p : fm _).
Proof. unfold raw_open. eauto with cm. Qed.
#[local] Hint Resolve sleep_settles raw_open_settles : cm.

Lemma sync_directory_settles p : settles budget n (sync_session_directory fuel p).
Proof. unfold sync_session_directory, io_error. settle. Qed.
Lemma lock_file_settles p : settles budget n (open_session_log_lock_file fuel p).
Proof. unfold open_session_log_lock_file, io_error, path_error. settle. Qed.
#[local] Hint Resolve sync_directory_settles lock_file_settles : cm.

Lemma process_lock_settles steps (context : PluginContext) : settles budget steps (acquire_process_lock steps context).
Proof.
  induction steps as [|steps IH]; [intros w Hw; lia|]. cbn [acquire_process_lock].
  apply settles_then; [eauto with cm|]. intros [[]|error]; [|apply settles_answer].
  apply (settles_again steps _ (λ r, r = Busy)); [apply law_try| | |].
  - intros [] H; try done; apply settles_answer.
  - intros ? ->. apply settles_then; [eauto with cm|]. done.
  - intros []; [right|right|left]; done.
Qed.

Lemma file_lock_settles steps file p (context : PluginContext) : settles budget steps (acquire_file_lock steps file p context).
Proof.
  induction steps as [|steps IH]; [intros w Hw; lia|]. cbn [acquire_file_lock].
  apply settles_then; [eauto with cm|]. intros [[]|error]; [|apply settles_answer].
  apply (settles_again steps _ (λ r, r = Err WouldBlock)); [apply law_flock| | |].
  - intros [[]|[]] H; try done; settle.
  - intros ? ->. apply settles_then; [eauto with cm|]. done.
  - intros [|[]]; try (right; done). by left.
Qed.

Lemma acquire_settles dir (context : PluginContext) : settles budget n (acquire_session_log_lock fuel dir context).
Proof.
  unfold acquire_session_log_lock. apply settles_then; [eapply settles_less; [exact log_less_fuel|apply process_lock_settles]|].
  intros [[]|error]; [|apply settles_answer]. apply settles_then; [eauto with cm|].
  intros [[file created]|error]; [|apply settles_answer]. apply settles_then; [destruct created; eauto with cm|].
  intros [[]|error]; [|apply settles_answer]. eapply settles_less; [exact log_less_fuel|apply file_lock_settles].
Qed.
#[local] Hint Resolve acquire_settles : cm.

(** ** Lines *)

(** What is left to read: the buffer, and a buffer for every read that may still have
    bytes. *)
Definition unread (buf : list Byte) (w : World E FileStep) : Z :=
  Z.of_nat (length buf) + LOG_IO_CHUNK_BYTES * Z.of_nat (budget (env w)).

Lemma fill_buf_answers h buf w :
  answers (λ r w', (budget (env w') ≤ budget (env w))%nat ∧ ∀ available, r = Ok available → unread available w' ≤ unread buf w)
    (fill_buf h buf) w.
Proof.
  unfold fill_buf. case_decide as Hbuf; [subst|apply answers_ret; split; [done|]; by intros ? [= <-]].
  unfold read, io. pose proof (law_read h LOG_IO_CHUNK_BYTES (env w)) as Hb. pose proof (law_read_length h LOG_IO_CHUNK_BYTES (env w)) as Hl.
  pose proof (law_read_more h LOG_IO_CHUNK_BYTES (env w)) as Hmore.
  eapply (answers_bind (λ r w', r = (read_handle h LOG_IO_CHUNK_BYTES (env w)).1 ∧ env w' = (read_handle h LOG_IO_CHUNK_BYTES (env w)).2));
    [by apply answers_ask|].
  intros [b|error] w' [Hr Hw']; rewrite <-Hr in *.
  - eapply (answers_bind (λ _ w'', env w'' = env w')); [by apply answers_step|].
    intros [] w'' Hw''. apply answers_ret. rewrite Hw'', Hw'. split; [done|]. intros ? [= <-].
    unfold unread. rewrite Hw'', Hw'. specialize (Hl b eq_refl). unfold LOG_IO_CHUNK_BYTES in *. unfold calm in Hb. destruct b as [|x b]; [simpl; lia|].
    specialize (Hmore ltac:(done) ltac:(done)). lia.
  - apply answers_ret. by rewrite Hw'.
Qed.

(** An answer whose errors are given a text. *)
Lemma answers_ok {e A : Type} (P : World E FileStep → Prop) (Q : A → World E FileStep → Prop) (text : e → string) prefix
    (m : fm (result e A)) w :
  answers (λ r w', P w' ∧ ∀ a, r = Ok a → Q a w') m w → answers (λ r w', P w' ∧ ∀ a, r = Ok a → Q a w') (or_error text prefix m) w.
Proof.
  intros Hm. eapply answers_bind; [exact Hm|]. intros [a|error] w' [HP HQ]; apply answers_ret; (split; [done|]); [|done].
  intros ? [= <-]. by apply HQ.
Qed.

Definition fits (line : BoundedLine) : Prop :=
  match line with Valid b => Z.of_nat (length b) ≤ MAX_LOG_LINE_BYTES | Corrupt => True end.

Lemma read_line_answers steps h (context : PluginContext) buf bytes (corrupt saw : bool) w :
  unread buf w < Z.of_nat steps → Z.of_nat (length bytes) ≤ MAX_LOG_LINE_BYTES →
  answers (λ r w', (budget (env w') ≤ budget (env w))%nat ∧ ∀ (line : option BoundedLine) buf', r = Ok (line, buf') →
      unread buf' w' + (if line then if saw then 0 else 1 else 0) ≤ unread buf w ∧ (∀ x, line = Some x → fits x))
    (read_bounded_line steps h context buf bytes corrupt saw) w.
Proof.
  revert buf bytes corrupt saw w. induction steps as [|steps IH]; intros buf bytes corrupt saw w Hw Hbytes.
  { unfold unread, LOG_IO_CHUNK_BYTES in Hw. lia. }
  cbn [read_bounded_line]. eapply answers_bind; [apply (checkpoint_settles (S (budget (env w)))); lia|]. intros [[]|error] w1 Hw1; [|by apply answers_ret].
  assert (unread buf w1 ≤ unread buf w) as Hu1 by (unfold unread, LOG_IO_CHUNK_BYTES in *; lia).
  eapply answers_bind; [apply answers_ok, fill_buf_answers|]. intros [available|error] w2 [Hw2 Hu2]; [|apply answers_ret; split; [lia|done]].
  specialize (Hu2 _ eq_refl). case_decide as Hav.
  - apply answers_ret. split; [lia|]. intros line buf' [= <- <-]. subst available. split.
    + destruct saw; simpl; lia.
    + intros x Hx. destruct saw; [|done]. destruct corrupt; by simplify_eq/=.
  - pose proof (through_newline_pos available Hav). set (piece := take (through_newline available) available).
    set (rest := drop (through_newline available) available).
    assert (unread rest w2 + 1 ≤ unread buf w) as Hrest by (unfold unread in *; subst rest; rewrite length_drop; lia).
    set (next := if corrupt then (bytes, true) else _). assert (Z.of_nat (length next.1) ≤ MAX_LOG_LINE_BYTES) as Hnext.
    { subst next. destruct corrupt; [done|]. case_bool_decide; [done|]. cbn. rewrite length_app. lia. }
    destruct next as [bytes' corrupt']. cbn in Hnext. destruct (ends_line piece).
    + apply answers_ret. split; [lia|]. intros line buf' [= <- <-]. split; [destruct saw; lia|].
      intros x [= <-]. by destruct corrupt'.
    + eapply answers_impl; [apply IH; [lia|done]|]. intros r w' [Hw' Hr]. split; [lia|].
      intros line buf' Heq. destruct (Hr _ _ Heq) as [Hu Hx]. split; [|done]. destruct line, saw; lia.
Qed.

Lemma next_line_answers h (context : PluginContext) buf w :
  unread buf w < Z.of_nat fuel →
  answers (λ r w', (budget (env w') ≤ budget (env w))%nat ∧ ∀ (line : option BoundedLine) buf', r = Ok (line, buf') →
      unread buf' w' + (if line then 1 else 0) ≤ unread buf w ∧ (∀ x, line = Some x → fits x))
    (next_line fuel h context buf) w.
Proof. intros Hw. by apply read_line_answers. Qed.

Lemma scan_answers steps h (context : PluginContext) buf valid observed w :
  unread buf w < Z.of_nat steps → unread buf w < Z.of_nat fuel →
  answers (λ _ w', budget (env w') ≤ budget (env w))%nat (scan_valid_lines steps fuel h context buf valid observed) w.
Proof.
  revert buf valid observed w. induction steps as [|steps IH]; intros buf valid observed w Hw Hf.
  { unfold unread, LOG_IO_CHUNK_BYTES in Hw. lia. }
  cbn [scan_valid_lines]. eapply answers_bind; [apply (checkpoint_settles (S (budget (env w)))); lia|]. cbn beta.
  intros [[]|error] w1 Hw1; [|by apply answers_ret].
  assert (unread buf w1 ≤ unread buf w) as Hu1 by (unfold unread, LOG_IO_CHUNK_BYTES in *; lia).
  eapply answers_bind; [apply next_line_answers; lia|]. intros [[line buf']|error] w2 [Hw2 Hr]; [|apply answers_ret; lia].
  destruct (Hr _ _ eq_refl) as [Hu _]. destruct line as [line|]; [|apply answers_ret; lia].
  case_decide; [apply answers_ret; lia|]. eapply answers_impl; [apply IH; lia|]. simpl. intros. lia.
Qed.

Lemma write_chunks_settles steps tmp (context : PluginContext) b :
  (length b < steps)%nat → settles budget n (write_chunks steps fuel tmp context b).
Proof.
  revert b. induction steps as [|steps IH]; intros b Hb; [lia|]. cbn [write_chunks].
  case_decide as Hnil; [apply settles_answer|]. apply settles_then; [eauto with cm|]. intros [[]|error]; [|apply settles_answer].
  apply settles_then.
  { apply or_error_settles, write_all_settles. rewrite length_take.
    unfold Paths.Paths.PERMISSION_RACE_DEADLINE, NANOS_PER_MILLI, LOG_IO_CHUNK_BYTES in *. lia. }
  intros [[]|error]; [|apply settles_answer]. apply IH. rewrite length_drop. destruct b; [done|].
  unfold LOG_IO_CHUNK_BYTES. simpl in *. lia.
Qed.

Lemma keep_answers steps h tmp (context : PluginContext) buf keep_from index w :
  (budget (env w) < n)%nat → unread buf w < Z.of_nat steps → unread buf w < Z.of_nat fuel →
  answers (λ _ w', budget (env w') ≤ budget (env w))%nat (keep_lines steps fuel h tmp context buf keep_from index) w.
Proof.
  revert buf index w. induction steps as [|steps IH]; intros buf index w Hn Hw Hf.
  { unfold unread, LOG_IO_CHUNK_BYTES in Hw. lia. }
  cbn [keep_lines]. eapply answers_bind; [by apply next_line_answers|].
  intros [[line buf']|error] w1 [Hw1 Hr]; [|by apply answers_ret].
  destruct (Hr _ _ eq_refl) as [Hu Hx]. destruct line as [[b|]|]; [|eapply answers_impl; [apply IH; lia|]; simpl; intros; lia|by apply answers_ret].
  assert (settles budget n (if decide (keep_from ≤ index) then write_chunks fuel fuel tmp context b else mret (Ok tt))) as Hset.
  { case_decide; [|apply settles_answer]. apply write_chunks_settles. specialize (Hx _ eq_refl). simpl in Hx.
    unfold MAX_LOG_LINE_BYTES, Paths.Paths.PERMISSION_RACE_DEADLINE, NANOS_PER_MILLI, LOG_IO_CHUNK_BYTES in *. lia. }
  eapply answers_bind; [apply Hset; lia|].
  simpl. intros [[]|error] w2 Hw2; [|apply answers_ret; lia].
  assert (unread buf' w2 ≤ unread buf' w1) by (unfold unread, LOG_IO_CHUNK_BYTES in *; lia).
  eapply answers_impl; [apply IH; lia|]. simpl. intros. lia.
Qed.

Lemma unread_start w : (budget (env w) < n)%nat → unread [] w < Z.of_nat fuel.
Proof.
  intros Hw. unfold unread, Paths.Paths.PERMISSION_RACE_DEADLINE, NANOS_PER_MILLI, LOG_IO_CHUNK_BYTES in *. simpl. lia.
Qed.

Lemma scan_settles h (context : PluginContext) : settles budget n (scan_valid_lines fuel fuel h context [] 0 0).
Proof. intros w Hw. apply scan_answers; by apply unread_start. Qed.
Lemma keep_settles h tmp (context : PluginContext) keep_from :
  settles budget n (keep_lines fuel fuel h tmp context [] keep_from 0).
Proof. intros w Hw. apply keep_answers; [done| |]; by apply unread_start. Qed.
Lemma rewind_settles k h : settles budget k (rewind h).
Proof. unfold rewind. eauto with cm. Qed.
#[local] Hint Resolve scan_settles keep_settles rewind_settles : cm.

Lemma replace_settles log h keep_from (context : PluginContext) :
  settles budget n (replace_log_atomically fuel log h keep_from context).
Proof. unfold replace_log_atomically, write_rotation, io_error, path_error. settle. Qed.
#[local] Hint Resolve replace_settles : cm.

Lemma rotate_settles data_dir_path override max_size (context : PluginContext) :
  settles budget n (rotate fuel data_dir_path override max_size context).
Proof.
  unfold rotate, rotator_log_path, under_session_log_lock, rotate_locked, io_error, path_error.
  assert (settles budget n (embed PathDid (Paths.Paths.data_dir fuel data_dir_path) : fm _)) as Hdata.
  { apply settles_embed, (settles_less fuel); [exact log_less_fuel|]. unfold Paths.Paths.data_dir, Paths.Paths.ensure_private_directory.
    destruct data_dir_path; [|apply settles_answer]. repeat (apply settles_then; [|intros []; apply settles_answer]).
    apply PathsSpec.PathsSpec.ensure_settles, log_race_fuel. }
  settle.
Qed.

End Answers.

(** C37. The rotation of the session log answers, and touches the log only under the lock on
    the lock file of its directory; the log is the one that is given, or [sessions.jsonl] in
    the transaction's output directory or in the data directory. Either the log stays as it
    is, with success only when there is none or the opened one is within its threshold, and
    the removal of the temporary file that was created exclusively is asked for. Or it is
    replaced by one rename of a file next to it. Then the file that was opened as the log
    had outgrown its threshold by at most the allowed overage, it was read from its start to
    its end twice, and had at most 100 000 lines, one of them of at most 64 KiB. Lines that
    are longer are dropped: of the others, in their number in the first pass, the new file,
    synced before the rename, has exactly the newest half, byte for byte as the second pass
    read them and with the middle one of an odd number, whatever the chunks of the reads. *)
Theorem rotation_keeps_newest {E : Type} {clock : Clock E} {paths : Paths.Paths.PathOps E} {ops : FileOps E} {log_ops : LogOps E}
    {Txn Ctx : Type} {transactions : TransactionOps E Txn} {budget : E → nat} {elapsed : E → Z}
    {time : PathsSpec.PathsSpec.PathTime E elapsed} {path_laws : PathsSpec.PathsSpec.PathLaws E budget} {laws : FileLaws E budget}
    {log_laws : LogLaws E budget} (fuel : nat) (data_dir_path : result string PathBuf) (override : option PathBuf)
    (max_size : Z) (context : PluginContext Txn Ctx) (w : World E FileStep) :
  Paths.Paths.PERMISSION_RACE_DEADLINE + LOG_IO_CHUNK_BYTES * (Z.of_nat (budget (env w)) + 1) < Z.of_nat fuel →
  ∃ r w' l, rotate fuel data_dir_path override max_size context w = (Some r, w') ∧ trace w' = trace w ++ l ∧
    rotated data_dir_path override max_size context (deeds l) r.
Proof.
  intros Hfuel. apply (settled_ends (budget := budget) (S (budget (env w)))); [|apply does_rotate|lia].
  apply rotate_settles. lia.
Qed.

(** A log of three lines that is read twice, in two chunks each time. *)
Module Example.
Import PathsSpec.PathsSpec.Example.
Import Init.Byte.

Definition script : list (list Byte) := [[x61; x0a; x62]; [x0a; x63; x0a]; []; [x61; x0a; x62; x0a]; [x63; x0a]; []].
Definition log_meta : Metadata := mkMetadata (Paths.Paths.mkMeta Paths.Paths.RegularNode 501 384 1 9) 6.
Definition reads_left (d : disk) : nat := Z.to_nat (6 - ticks d).

#[export] Instance file_ops : FileOps disk := {|
  io_text _ := "error"%string;
  cancel_loaded d := (false, d);
  symlink_metadata p d := (Ok log_meta, d);
  follow_metadata p d := (Ok log_meta, d);
  metadata_of h d := (Ok log_meta, d);
  read_handle h n d := (Ok (if decide (ticks d < 6) then take (Z.to_nat n) (nth (Z.to_nat (ticks d)) script []) else []), tick d);
  write_handle h b d := (Ok (Z.of_nat (length b)), d);
  flush_handle h d := (Ok tt, d);
  sync_handle h d := (Ok tt, d);
  rewind_handle h d := (Ok tt, d);
  remove_path p d := (Ok tt, d);
  rename_path p q d := (Ok tt, d);
  fresh_name d := ("1"%string, d)
|}.

#[export] Instance log_ops : LogOps disk := {|
  try_process_lock d := (Acquired, d);
  flock_exclusive h d := (Ok tt, d);
  thread_sleep _ := tick;
  open_raw mode p d := match push (node log_meta) d with (Ok h, d) => (Ok h, d) | (Err _, d) => (Err NotFound, d) end;
  local_now d := (EmptyString, d);
  serialize _ := Ok [];
  string_bytes _ := []
|}.

#[export] Instance transaction_ops : TransactionOps disk unit := {|
  transaction_output_root _ := [];
  transaction_staging_dir _ := [];
  transaction_set_destination_root _ _ d := (Ok tt, d);
  transaction_committed _ d := (None, d);
  transaction_artifacts _ d := ([], d);
  transaction_register_file _ _ _ d := (Ok tt, d);
  transaction_unregister_file _ _ d := (Ok tt, d);
  transaction_record_durability_warning _ _ d := (tt, d)
|}.

#[export] Instance path_laws : PathsSpec.PathsSpec.PathLaws disk reads_left.
Proof.
  split; unfold calm, reads_left; intros; try (simpl; lia); try (split; [simpl; lia|by intros [? [=]]]).
  - destruct mode; cbn; [lia| |]; case_match; cbn; lia.
  - cbn. repeat case_match; cbn; lia.
Qed.

#[export] Instance file_laws : FileLaws disk reads_left.
Proof.
  split; unfold calm, reads_left; intros; try (simpl; lia).
  - cbn in *. case_decide; simplify_eq; [|simpl; lia]. rewrite length_take. lia.
  - split; [simpl; lia|done].
Qed.

#[export] Instance log_laws : LogLaws disk reads_left.
Proof.
  split; unfold calm, reads_left; intros; try (simpl; lia); try (split; [simpl; lia|done]).
  cbn in *. case_decide; [lia|done].
Qed.

Definition w1 : World disk FileStep := mkWorld (mkDisk 0 [] [("sessions.jsonl"%string, node log_meta)]) [].
Definition log : PathBuf := ["/"; "Users"; "app"; "data"; "sessions.jsonl"]%string.
Definition no_deadline : PluginContext unit unit := without_deadline.

Lemma log_enough_fuel : ∃ fuel, Paths.Paths.PERMISSION_RACE_DEADLINE + LOG_IO_CHUNK_BYTES * (Z.of_nat 6 + 1) < Z.of_nat fuel.
Proof.
  exists (Z.to_nat (Paths.Paths.PERMISSION_RACE_DEADLINE + LOG_IO_CHUNK_BYTES * (Z.of_nat 6 + 1) + 1)).
  rewrite Z2Nat.id; unfold Paths.Paths.PERMISSION_RACE_DEADLINE, NANOS_PER_MILLI, LOG_IO_CHUNK_BYTES; lia.
Qed.

End Example.
Import PathsSpec.PathsSpec.Example.
Import Example.

Lemma rotation_keeps_newest_witness :
  (rotate 20 (Err ""%string) (Some log) 4 no_deadline w1).1 = Some (Ok tt) ∧
  written_bytes (trace (rotate 20 (Err ""%string) (Some log) 4 no_deadline w1).2) =
    [Init.Byte.x62; Init.Byte.x0a; Init.Byte.x63; Init.Byte.x0a] ∧
  ∃ fuel r w' l, rotate fuel (Err ""%string) (Some log) 4 no_deadline w1 = (Some r, w') ∧ trace w' = trace w1 ++ l ∧
    rotated (Err EmptyString) (Some log) 4 no_deadline (deeds l) r.
Proof.
  split; [vm_compute; reflexivity|]. split; [vm_compute; reflexivity|]. destruct log_enough_fuel as [fuel Hfuel]. exists fuel.
  apply (rotation_keeps_newest (budget := reads_left) (elapsed := ticks)). exact Hfuel.
Defined.

End SessionLogSpec.
