(* ===== verification/SessionRecordSpec.v ===== *)
(** * A crash is recorded before its session is released

    The deeds of the session recorder under the lock of the session log. *)

From S2P Require Import Prelude.
From S2P Require Import Traced.
From S2P Require Import Fueled.
From S2P Require Import PipelineTypes.
From S2P Require Import PluginRun.
From S2P Require Finalize.
From S2P Require Artifact.
From S2P Require Paths.
From S2P Require PathsSpec.
From S2P Require Import PluginFiles.
From S2P Require Import SessionLog.
From S2P Require Import SessionLogSpec.

Module SessionRecordSpec.
Export SessionLogSpec.
#[local] Open Scope Z_scope.

(** Steps of the append, to the log [p]. *)
Definition appending (p : PathBuf) (s : FileStep) : Prop :=
  match s with
  | Checked _ | WroteTo _ _ | FileSynced _ => True
  | Opened q _ | Created q _ => q = p
  | _ => False
  end.

(** The record is on the disk: one whole line in the log, synced. *)
Definition appended (p : PathBuf) (json : list Byte) (l : list FileStep) : Prop :=
  ∃ before h writes after, l = before ++ writes ++ FileSynced h :: after ∧
    Forall (appending p) before ∧ Opened p h ∈ before ∧ written_bytes before = [] ∧ Forall (writes_to h) writes ∧
    written_bytes writes = json ++ [newline] ∧ Forall (appending p) after ∧ written_bytes after = [].

(** Observations of the session's lock file. *)
Definition observing (s : FileStep) : Prop :=
  match s with Checked _ | Opened _ _ | Statted _ _ | HandleStatted _ _ | ReadFrom _ _ | FileSynced _ => True | _ => False end.

(** The lock file stays, or is removed as the one whose first line names the session. *)
Inductive releasing (lock : PathBuf) (owner : list Byte) : list FileStep → Prop :=
| LockKept l : Forall observing l → releasing lock owner l
| LockRemoved named h opened before removed after :
    same_file named opened = true → len opened ≤ MAX_SESSION_LOCK_BYTES →
    Forall (reading h) before → Forall observing after →
    first_line (read_bytes before) = owner → Z.of_nat (length (read_bytes before)) ≤ MAX_SESSION_LOCK_BYTES →
    releasing lock owner
      (Statted lock (Ok named) :: Opened lock h :: HandleStatted h (Ok opened) :: before ++ Removed lock removed :: after).

Definition recording (log lock : PathBuf) (json owner : list Byte) (l : list FileStep) (r : result string unit) : Prop :=
  (Forall (appending log) l ∧ ∃ error, r = Err error) ∨
  ∃ record release, l = record ++ release ∧ appended log json record ∧ releasing lock owner release.

Section Record.
Context {E : Type} {clock : Clock E} {paths : Paths.Paths.PathOps E} {ops : FileOps E} {log_ops : LogOps E} {Txn Ctx : Type}
  {transactions : TransactionOps E Txn}.
#[local] Notation fm := (fueled E FileStep).
#[local] Notation PluginContext := (PluginContext Txn Ctx).
#[local] Hint Resolve only_checkpoint only_raw_open only_create only_sync_directory : cm.
#[local] Hint Extern 2 (appending _ _) => first [exact I | reflexivity] : cm.
#[local] Hint Extern 2 (observing _) => exact I : cm.

(** ** The append *)

Definition opening (p : PathBuf) (s : FileStep) : Prop := match s with Opened q _ | Created q _ => q = p | _ => False end.

Lemma does_open_log fuel p :
  does (λ l r, Forall (opening p) l ∧ ∀ file created, r = Ok (file, created) → Opened p file ∈ l) (open_private_session_log fuel p).
Proof.
  unfold open_private_session_log, io_error, path_error.
  set (P := λ (l : list FileStep) (r : result string (Z * bool)), Forall (opening p) l ∧ ∀ file created, r = Ok (file, created) → Opened p file ∈ l).
  assert (∀ (l : list FileStep) (error : string), Forall (opening p) l → P l (Err error)) as Fail by (intros; by split).
  assert (∀ (l : list FileStep) file created, Forall (opening p) l → Opened p file ∈ l → P l (Ok (file, created))) as Done.
  { intros l file created Hl Hin. split; [done|]. by intros ? ? [= <- <-]. }
  assert (∀ prefix file, idle (or_error (λ error : string, error) prefix (validate_private_file fuel file p))) as Hv
    by (intros; unfold or_error; solve_only).
  eapply does_bind; [apply does_raw_open|]. intros l [file|error] ->.
  { apply does_try_idle; [apply Hv|intros; apply Fail; by repeat constructor|]. intros []. apply does_ret, Done; [by repeat constructor|by left]. }
  destruct error; try (by apply does_ret, Fail). eapply does_bind; [apply does_create|]. intros l [new|text] ->.
  - eapply does_try_io; [apply does_raw_open|intros l error error' ->; apply Fail; by repeat constructor|]. intros l file ->.
    do 2 (apply does_try_idle; [apply Hv|intros; apply Fail; by repeat constructor|]; intros []).
    apply does_ret, Done; [by repeat constructor|right; by left].
  - eapply does_try_io; [apply does_raw_open|intros l error error' ->; apply Fail; by repeat constructor|]. intros l file ->.
    apply does_try_idle; [apply Hv|intros; apply Fail; by repeat constructor|]; intros [].
    apply does_ret, Done; [by repeat constructor|by left].
Qed.

Lemma does_record_bytes fuel h json :
  does (λ l r, Forall (writes_to h) l ∧ (r = Ok tt → written_bytes l = json ++ [newline]))
    (write_all fuel h json ≫= λ written,
       match written with Ok _ => write_all fuel h [newline] | Err error => mret (Err error) end).
Proof.
  eapply does_bind; [apply does_write_all|]. intros l [[]|error] (Hl & _ & Hw); [|apply does_ret; by rewrite app_nil_r].
  eapply does_impl; [apply does_write_all|]. intros l' r (Hl' & _ & Hw'). split; [by apply Forall_app|].
  intros Hr. by rewrite written_bytes_app, Hw, Hw'.
Qed.

(** No bytes are written by steps that are not writes. *)
Lemma record_silent_steps (P : FileStep → Prop) l : Forall P l → (∀ h b, ¬ P (WroteTo h b)) → written_bytes l = [].
Proof.
  intros Hl HP. induction Hl as [|s l Hs _ IH]; [done|]. rewrite written_bytes_cons, IH.
  destruct s; try done. by destruct (HP _ _ Hs).
Qed.

Lemma does_append fuel p json (context : PluginContext) :
  does (λ l r, (Forall (appending p) l ∧ ∃ error, r = Err error) ∨ appended p json l)
    (append_session_record_locked fuel p json context).
Proof.
  unfold append_session_record_locked.
  assert (∀ l (error : string) (r : result string unit), Forall (appending p) l → r = Err error → (Forall (appending p) l ∧ ∃ error, r = Err error) ∨ appended p json l)
    as Fail by (intros l error r Hl ->; left; split; [done|by eexists]).
  case_decide; [apply does_ret; by eapply Fail|].
  apply does_checkpoint; [eapply Fail; [by repeat constructor|done]|].
  destruct (parent p); [|apply does_ret; eapply Fail; [by repeat constructor|done]].
  apply does_try_idle; [unfold path_error, or_error; solve_only|intros error; eapply Fail; [by repeat constructor|done]|]. intros _.
  assert (∀ l, Forall (opening p) l → Forall (appending p) l) as Hcr.
  { intros l Hl. eapply Forall_impl; [exact Hl|]. by intros []. }
  eapply does_try; [apply does_open_log| |].
  { intros l error [Hl _]. eapply Fail; [|done]. constructor; [done|by apply Hcr]. }
  intros opened [file created] [Hopened Hin]. specialize (Hin file created eq_refl).
  pose proof (record_silent_steps _ _ Hopened ltac:(by intros ?? [])) as Hsil.
  apply Hcr in Hopened. apply does_checkpoint.
  { eapply Fail; [|done]. constructor; [done|]. apply Forall_app. split; [done|by repeat constructor]. }
  eapply does_try_io; [apply does_record_bytes| |].
  - intros l error error' [Hl _]. eapply Fail; [|done]. constructor; [done|]. rewrite Forall_app. split; [done|].
    constructor; [done|]. eapply Forall_impl; [exact Hl|]. by intros s [b ->].
  - intros writes [] [Hwrites Hbytes]. specialize (Hbytes eq_refl).
    assert (Forall (appending p) writes) as Hw' by (eapply Forall_impl; [exact Hwrites|]; by intros s [b ->]).
    eapply does_try_io; [apply does_sync_all| |].
    { intros l error error' ->. eapply Fail; [|done]. rewrite app_nil_r. constructor; [done|]. rewrite Forall_app. split; [done|]. by constructor. }
    intros l [] ->. apply (does_impl (λ l _, Forall (λ s, appending p s ∧ ∀ h b, s ≠ WroteTo h b) l)).
    + apply (only_bind (λ s, appending p s ∧ ∀ h b, s ≠ WroteTo h b)).
      * destruct created; [|apply only_ret]. apply only_sync_directory. intros h. done.
      * intros [[]|error]; [|apply only_ret]. apply only_checkpoint. intros b. done.
    + intros after r Ha. right. exists (Checked false :: opened ++ [Checked false]), file, writes, after.
      split_and!.
      * cbn. by rewrite <-!app_assoc.
      * constructor; [done|]. apply Forall_app. split; [done|by repeat constructor].
      * right. apply elem_of_app. by left.
      * bytes. by rewrite Hsil.
      * done.
      * done.
      * eapply Forall_impl; [exact Ha|]. by intros s [Hs _].
      * eapply record_silent_steps; [exact Ha|]. intros h b [_ Hne]. by eapply Hne.
Qed.

(** ** The release *)

Lemma does_read_to_end steps h limit bytes :
  does (λ l r, Forall (reading h) l ∧ ∀ b, r = Ok b → b = bytes ++ read_bytes l) (read_to_end steps h limit bytes).
Proof.
  revert bytes. induction steps as [|steps IH]; intros bytes; [apply does_starved|]. cbn [read_to_end].
  case_decide; [apply does_ret; split; [done|]; intros ? [= <-]; by rewrite app_nil_r|].
  eapply does_bind; [apply does_read|]. intros l [[|x chunk]|error] ->.
  - apply does_ret. split; [by repeat constructor|]. intros ? [= <-]. by rewrite app_nil_r.
  - eapply does_impl; [apply IH|]. intros l r [Hl Hr]. split; [by constructor|]. intros b Hb. rewrite (Hr b Hb).
    bytes. by rewrite <-app_assoc.
  - destruct error; try (apply does_ret; by split). apply IH.
Qed.

Lemma does_release fuel p owner : does (λ l _, releasing p (string_bytes owner) l) (remove_owned_session_lock fuel p owner).
Proof.
  unfold remove_owned_session_lock. eapply does_bind; [apply does_stat|]. intros l named ->.
  destruct named as [named|error].
  2: { destruct error; apply does_ret, LockKept; by repeat constructor. }
  assert (∀ (l : list FileStep), Forall observing l → releasing p (string_bytes owner) l) as K by (intros; by apply LockKept).
  eapply does_try_io; [apply does_open_file|intros l error error' ->; apply K; by repeat constructor|]. intros l h ->.
  eapply does_try_io; [apply does_stat_handle|intros l error error' ->; apply K; by repeat constructor|]. intros l opened ->.
  destruct (same_file named opened) eqn:Hsame; cbn [negb]; [|apply does_ret, K; by repeat constructor].
  case_decide; [apply does_ret, K; by repeat constructor|].
  assert (∀ l, Forall (reading h) l → Forall observing l) as Hobs by (intros l Hl; eapply Forall_impl; [exact Hl|]; by intros []).
  eapply does_try_io; [apply does_read_to_end|intros l error error' [Hl%Hobs _]; apply K; by repeat constructor|].
  intros before b [Hbefore Hb]. specialize (Hb b eq_refl). cbn in Hb. subst b. pose proof (Hobs _ Hbefore) as Hseen.
  case_decide; [apply does_ret, K; rewrite app_nil_r; by repeat constructor|].
  case_decide as Howner; [apply does_ret, K; rewrite app_nil_r; by repeat constructor|].
  assert (∀ removed after, Forall observing after → releasing p (string_bytes owner)
    ([Statted p (Ok named)] ++ [Opened p h] ++ [HandleStatted h (Ok opened)] ++ before ++ [Removed p removed] ++ after)) as R.
  { intros removed after Ha. apply LockRemoved; try done; lia. }
  eapply does_try_io; [apply does_remove| |].
  - intros l error error' ->. apply R. constructor.
  - intros l [] ->. apply (does_impl (λ l _, Forall observing l)); [apply only_sync_directory; done|].
    intros l r Hl. by apply R.
Qed.

Lemma releasing_checked p owner l b : releasing p owner l → releasing p owner (l ++ [Checked b]).
Proof.
  intros [l' Hl | named h opened before removed after H1 H2 H3 H4 H5 H6].
  - apply LockKept, Forall_app. by repeat constructor.
  - rewrite !app_comm_cons, <-app_assoc. apply LockRemoved; try done. apply Forall_app. by repeat constructor.
Qed.

Lemma does_recording fuel log lock json owner (context : PluginContext) :
  does (recording log lock json (string_bytes owner))
    (_ ←? append_session_record_locked fuel log json context;
     _ ←? remove_owned_session_lock fuel lock owner;
     checkpoint context).
Proof.
  eapply does_try; [apply does_append| |].
  { intros l error [H|H]; [by left|]. right. exists l, []. rewrite app_nil_r. split_and!; [done|done|by apply LockKept]. }
  intros record [] [[_ [? [=]]] | Hrecord].
  eapply does_try; [apply does_release|intros l error H; right; by exists record, l|].
  intros release [] Hrelease. unfold checkpoint. eapply does_bind; [apply does_checked|]. intros l b ->. apply does_ret.
  right. exists record, (release ++ [Checked b]). split_and!; [by rewrite app_nil_r|done|by apply releasing_checked].
Qed.

(** What a whole recording does: nothing before the lock is held. *)
Definition recorded (session : SessionReport) (dir : PathBuf) (l : list FileStep) (r : result string unit) : Prop :=
  ∃ before rest, l = before ++ rest ∧ Forall (λ s, ∃ b, s = Checked b) before ∧
    ((rest = [] ∧ is_ok r = false) ∨ ∃ json, under_lock dir
       (recording (dir ++ ["sessions.jsonl"%string]) (dir ++ ["session.lock"%string]) json
          (string_bytes (session_report_id session))) rest r).

Lemma does_record_crash fuel session committed relative dir (context : PluginContext) :
  does (recorded session dir)
    (record_crash_in_dir fuel session committed relative dir context).
Proof.
  unfold record_crash_in_dir. apply does_checkpoint; [exists [Checked true], []; split_and!; [done|by repeat econstructor|by left]|].
  assert (Forall (λ s, ∃ b, s = Checked b) [Checked false]) as Hc by (constructor; [by eexists|constructor]).
  apply does_try_idle; [unfold path_error, or_error; solve_only|intros error; exists [Checked false], []; split_and!; [done|done|by left]|].
  intros []. apply does_idle; [apply only_ask|]. intros now.
  apply does_try_idle; [unfold path_error, or_error; solve_only|intros error; exists [Checked false], []; split_and!; [done|done|by left]|].
  intros json. eapply does_impl.
  - apply (does_under_lock _ _ _ (recording (dir ++ ["sessions.jsonl"%string]) (dir ++ ["session.lock"%string]) json
            (string_bytes (session_report_id session)))), does_recording.
  - intros l r Hl. exists [Checked false], l. split_and!; [done|done|]. right. by exists json.
Qed.

(** ** Answers *)

Context {budget : E → nat} {elapsed : E → Z} {time : PathsSpec.PathsSpec.PathTime E elapsed}
  {path_laws : PathsSpec.PathsSpec.PathLaws E budget} {laws : FileLaws E budget} {log_laws : LogLaws E budget}.
Context {n fuel : nat} (Hfuel : Paths.Paths.PERMISSION_RACE_DEADLINE + LOG_IO_CHUNK_BYTES * Z.of_nat n < Z.of_nat fuel).
#[local] Hint Resolve log_race_fuel log_less_fuel open_private_directory_settles ensure_directory_settles open_private_file_settles create_private_file_settles
  validate_settles law_local_now io_settles raw_open_settles sync_directory_settles acquire_settles : cm.

Lemma read_more_answers h limit w :
  answers (λ r w', (budget (env w') ≤ budget (env w))%nat ∧
      (r ≠ Ok [] → (∀ error, r = Err error → error = Interrupted) → budget (env w') < budget (env w))%nat) (read h limit) w.
Proof.
  unfold read, io. pose proof (law_read h limit (env w)) as Hb. pose proof (law_read_more h limit (env w)) as Hmore.
  eapply (answers_bind (λ r w', r = (read_handle h limit (env w)).1 ∧ env w' = (read_handle h limit (env w)).2)); [by apply answers_ask|].
  intros [b|error] w' [Hr Hw']; rewrite <-Hr in Hmore.
  - eapply (answers_bind (λ _ w'', env w'' = env w')); [by apply answers_step|].
    intros [] w'' Hw''. apply answers_ret. by rewrite Hw'', Hw'.
  - apply answers_ret. by rewrite Hw'.
Qed.

Lemma read_to_end_settles steps h limit bytes : settles budget steps (read_to_end steps h limit bytes).
Proof.
  revert bytes. induction steps as [|steps IH]; intros bytes w Hw; [lia|]. cbn [read_to_end].
  case_decide; [by apply answers_ret|]. eapply answers_bind; [apply read_more_answers|].
  intros [[|x b]|error] w' [Hle Hlt].
  - by apply answers_ret.
  - specialize (Hlt ltac:(done) ltac:(done)). eapply answers_impl; [apply IH; lia|]. simpl. intros. lia.
  - destruct error; try by apply answers_ret. specialize (Hlt ltac:(done) ltac:(by intros ? [= <-])).
    eapply answers_impl; [apply IH; lia|]. simpl. intros. lia.
Qed.

Lemma open_log_settles p : settles budget n (open_private_session_log fuel p).
Proof. unfold open_private_session_log, io_error, path_error. settle. Qed.
#[local] Hint Resolve open_log_settles : cm.

Lemma append_settles p json (context : PluginContext) :
  Z.of_nat (length json) ≤ MAX_SESSION_RECORD_BYTES → settles budget n (append_session_record_locked fuel p json context).
Proof.
  intros Hjson. unfold append_session_record_locked, io_error, path_error.
  assert (∀ h b, Z.of_nat (length b) ≤ MAX_SESSION_RECORD_BYTES → settles budget n (write_all fuel h b)) as Hwrite.
  { intros h b Hb. apply write_all_settles.
    unfold MAX_SESSION_RECORD_BYTES, Paths.Paths.PERMISSION_RACE_DEADLINE, NANOS_PER_MILLI, LOG_IO_CHUNK_BYTES in *. lia. }
  assert (∀ h, settles budget n (write_all fuel h [newline])) by (intros; by apply Hwrite).
  settle.
Qed.

Lemma release_settles p owner : settles budget n (remove_owned_session_lock fuel p owner).
Proof.
  unfold remove_owned_session_lock, io_error, path_error.
  assert (∀ h limit bytes, settles budget n (read_to_end fuel h limit bytes)) by
    (intros; eapply settles_less; [by apply log_less_fuel|apply read_to_end_settles]).
  settle.
Qed.

Lemma record_crash_settles session committed relative dir (context : PluginContext) :
  settles budget n (record_crash_in_dir fuel session committed relative dir context).
Proof.
  unfold record_crash_in_dir, under_session_log_lock, path_error.
  assert (∀ json, settles budget n (append_session_record_locked fuel (dir ++ ["sessions.jsonl"%string]) json context)).
  { intros json. destruct (decide (MAX_SESSION_RECORD_BYTES < Z.of_nat (length json))) as [Hlong|Hshort].
    - unfold append_session_record_locked. rewrite decide_True by done. apply settles_answer.
    - apply append_settles. lia. }
  pose proof release_settles. settle.
Qed.

End Record.
(** The recording of a committed crash answers, and does everything to the session log
    and to the session's lock file under the lock of the session log. The lock file is
    removed only after the record had been appended as one whole line, ending in its
    newline, and synced; and only when the file that was opened is the one that has the
    name, is within its size limit and names this session in its first line. A recording
    that failed before that left the lock file. *)
Theorem session_released_after_record {E : Type} {clock : Clock E} {paths : Paths.Paths.PathOps E} {ops : FileOps E}
    {log_ops : LogOps E} {Txn Ctx : Type} {budget : E → nat} {elapsed : E → Z} {time : PathsSpec.PathsSpec.PathTime E elapsed}
    {path_laws : PathsSpec.PathsSpec.PathLaws E budget} {laws : FileLaws E budget} {log_laws : LogLaws E budget}
    (fuel : nat) (session : SessionReport) (committed : Finalize.Finalize.CommittedReport) (relative : option string)
    (dir : PathBuf) (context : PluginContext Txn Ctx) (w : World E FileStep) :
  Paths.Paths.PERMISSION_RACE_DEADLINE + LOG_IO_CHUNK_BYTES * (Z.of_nat (budget (env w)) + 1) < Z.of_nat fuel →
  ∃ r w' l, record_crash_in_dir fuel session committed relative dir context w = (Some r, w') ∧ trace w' = trace w ++ l ∧
    recorded session dir (deeds l) r.
Proof.
  intros Hfuel. apply (settled_ends (budget := budget) (S (budget (env w)))); [|apply does_record_crash|lia].
  apply record_crash_settles. lia.
Qed.

(** The lock file of a session whose identifier is one letter. *)
Module Example.
Import PathsSpec.PathsSpec.Example.
Import SessionLogSpec.Example.
Import Init.Byte.

#[export] Instance record_ops : LogOps disk := {|
  try_process_lock d := (Acquired, d);
  flock_exclusive h d := (Ok tt, d);
  thread_sleep _ := tick;
  open_raw mode p d := match push (node log_meta) d with (Ok h, d) => (Ok h, d) | (Err _, d) => (Err NotFound, d) end;
  local_now d := (EmptyString, d);
  serialize _ := Ok [x7b; x7d];
  string_bytes _ := [x61]
|}.

#[export] Instance record_laws : LogLaws disk reads_left.
Proof.
  split; unfold calm, reads_left; intros; try (simpl; lia); try (split; [simpl; lia|done]).
  cbn in *. case_decide; [lia|done].
Qed.

Definition session : SessionReport := mkSession "a" "" 0.
Definition committed : Finalize.Finalize.CommittedReport :=
  Finalize.Finalize.mkCommitted "id" ["/"; "reports"; "id"]%string ["/"; "reports"; "id"; "manifest.json"]%string [].
Definition dir : PathBuf := ["/"; "Users"; "app"; "data"]%string.
Definition w2 : World disk FileStep := mkWorld (mkDisk 0 [] [("session.lock"%string, node log_meta)]) [].

End Example.
Import PathsSpec.PathsSpec.Example.
Import SessionLogSpec.Example.
Import Example.

Lemma session_released_after_record_witness :
  (record_crash_in_dir 20 session committed None dir no_deadline w2).1 = Some (Ok tt) ∧
  filter (λ s, match s with Removed _ _ => true | _ => false end = true)
    (trace (record_crash_in_dir 20 session committed None dir no_deadline w2).2) = [Removed (dir ++ ["session.lock"%string]) true] ∧
  ∃ fuel r w' l, record_crash_in_dir fuel session committed None dir no_deadline w2 = (Some r, w') ∧
    trace w' = trace w2 ++ l ∧ recorded session dir (deeds l) r.
Proof.
  split; [vm_compute; reflexivity|]. split; [vm_compute; reflexivity|]. destruct log_enough_fuel as [fuel Hfuel]. exists fuel.
  exact (session_released_after_record (log_laws := record_laws) (elapsed := ticks) fuel session committed None dir no_deadline w2 Hfuel).
Defined.

End SessionRecordSpec.
