(* ===== verification/Terminal.v ===== *)
(** * Terminal output (src/crates/crash-report-core/src/lib.rs, src/utils/terminal.rs)

    [escape_terminal] on the UTF-8 bytes of a string: the control characters are the bytes
    below 0x20, 0x7f, and the pairs 0xc2 0x80 to 0xc2 0x9f. The branch for control
    characters above 0xff is left out: there are none. *)

From Stdlib Require Import Ascii String.
From S2P Require Import Prelude.

Module Terminal.
#[local] Open Scope string_scope.

Definition byte_of (c : ascii) : nat := nat_of_ascii c.

Definition hex_digit (n : nat) : ascii := ascii_of_nat (if (n <? 10)%nat then 48 + n else 87 + n).
(** [{:02x}]. *)
Definition hex02 (n : nat) : string := String (hex_digit (n / 16)) (String (hex_digit (n mod 16)) EmptyString).

Definition backslash : ascii := ascii_of_nat 92.
Definition ascii_control (n : nat) : bool := (n <? 32)%nat || (n =? 127)%nat.
Definition latin_control (n : nat) : bool := (128 <=? n)%nat && (n <? 160)%nat.

Definition escape_control (n : nat) : string :=
  if (n =? 10)%nat then String backslash "n"
  else if (n =? 13)%nat then String backslash "r"
  else if (n =? 9)%nat then String backslash "t"
  else String backslash (String "x"%char (hex02 n)).

Fixpoint escape_terminal (value : string) : string :=
  match value with
  | EmptyString => EmptyString
  | String c value =>
      if ascii_control (byte_of c) then escape_control (byte_of c) +:+ escape_terminal value
      else if (byte_of c =? 194)%nat then
        match value with
        | String d rest =>
            if latin_control (byte_of d) then escape_control (byte_of d) +:+ escape_terminal rest
            else String c (escape_terminal value)
        | EmptyString => String c EmptyString
        end
      else String c (escape_terminal value)
  end.

(** ** Nothing that a terminal obeys *)

Fixpoint printable (s : string) : bool :=
  match s with
  | EmptyString => true
  | String c s =>
      negb (ascii_control (byte_of c)) &&
      negb ((byte_of c =? 194)%nat && match s with String d _ => latin_control (byte_of d) | EmptyString => false end) &&
      printable s
  end.

Lemma printable_app s t :
  printable s = true → printable t = true → forallb (λ c, byte_of c <? 128)%nat (list_ascii_of_string s) = true →
  printable (s +:+ t) = true.
Proof.
  intros Hs Ht Hall. induction s as [|c s IH]; [done|]. change (printable (String c (s +:+ t)) = true).
  cbn [printable list_ascii_of_string forallb] in Hs, Hall |- *. apply andb_true_iff in Hall as [Hc Hall].
  apply andb_true_iff in Hs as [[H1 H2]%andb_true_iff H3]. rewrite H1, (IH H3 Hall). apply Nat.ltb_lt in Hc.
  replace (byte_of c =? 194)%nat with false by (symmetry; apply Nat.eqb_neq; lia). done.
Qed.

(** Escapes are plain ASCII, for every byte. *)
Definition good_escape (n : nat) : bool :=
  printable (escape_control n) && forallb (λ c, byte_of c <? 128)%nat (list_ascii_of_string (escape_control n)) &&
  match escape_control n with String d _ => negb (latin_control (byte_of d)) | EmptyString => false end.

Lemma escapes_good n : (n < 256)%nat → good_escape n = true.
Proof.
  intros Hn. assert (forallb good_escape (seq 0 256) = true) as H by (vm_compute; reflexivity).
  rewrite forallb_forall in H. apply H, in_seq. lia.
Qed.

Lemma byte_bound c : (byte_of c < 256)%nat.
Proof. apply nat_ascii_bounded. Qed.

Lemma printable_escape_control c t : printable t = true → printable (escape_control (byte_of c) +:+ t) = true.
Proof.
  intros Ht. pose proof (escapes_good (byte_of c) (byte_bound c)) as H.
  apply andb_true_iff in H as [[H1 H2]%andb_true_iff H3]. by apply printable_app.
Qed.

(** The first byte of an escaped string is not the second byte of a control character,
    unless it was there before. *)
Lemma escape_head value :
  match escape_terminal value with String d _ => latin_control (byte_of d) | EmptyString => false end = true →
  match value with String d _ => latin_control (byte_of d) | EmptyString => false end = true.
Proof.
  assert (∀ c t, match escape_control (byte_of c) +:+ t with String d _ => latin_control (byte_of d) | EmptyString => false end = false) as Hesc.
  { intros c t. pose proof (escapes_good (byte_of c) (byte_bound c)) as H. apply andb_true_iff in H as [_ H].
    destruct (escape_control (byte_of c)) as [|d s]; [done|]. cbn. by apply negb_true_iff. }
  destruct value as [|c value]; [done|]. cbn [escape_terminal]. destruct (ascii_control _); [by rewrite Hesc|].
  destruct (byte_of c =? 194)%nat; [|done]. destruct value as [|d rest]; [done|].
  destruct (latin_control (byte_of d)); [by rewrite Hesc|done].
Qed.

(** Escaped text has no control character. *)
Lemma escape_terminal_printable value : printable (escape_terminal value) = true.
Proof.
  induction value as [value IH] using (induction_ltof1 _ String.length). unfold ltof in IH.
  destruct value as [|c value]; [done|]. cbn [escape_terminal]. destruct (ascii_control (byte_of c)) eqn:Hc.
  { apply printable_escape_control, IH. cbn. lia. }
  destruct (byte_of c =? 194)%nat eqn:H194.
  - destruct value as [|d rest]; [by cbn [printable]; rewrite Hc, H194|]. destruct (latin_control (byte_of d)) eqn:Hd.
    + apply printable_escape_control, IH. cbn. lia.
    + cbn [printable]. rewrite Hc, H194, IH by (cbn; lia). rewrite andb_true_r. cbn [negb andb].
      apply negb_true_iff, not_true_is_false. intros H%escape_head. congruence.
  - cbn [printable]. rewrite Hc, H194, IH by (cbn; lia). done.
Qed.

(** Text without control characters is left as it is. *)
Lemma escape_terminal_id value : printable value = true → escape_terminal value = value.
Proof.
  induction value as [|c value IH]; [done|]. cbn. intros [[Hc H194]%andb_true_iff H]%andb_true_iff.
  apply negb_true_iff in Hc, H194. rewrite Hc, (IH H). destruct (byte_of c =? 194)%nat; [|done].
  destruct value as [|d rest]; [done|]. cbn in H194. by rewrite H194.
Qed.

End Terminal.
