(* ===== verification/TargetAccess.v ===== *)
(** * Access to the inspected task (src/platform/mod.rs, src/platform/macos/memory.rs, ffi/memory.rs)

    What the collectors read of a task: the Mach calls as operations of [TargetOps], the
    classification of short reads, the walk over the regions of its memory, and the
    helpers on bytes. The trace has every query and every read. *)

From stdpp Require Import pretty.
From S2P Require Import Prelude.
From S2P Require Import Traced.
From S2P Require Import Fueled.
From S2P Require Import ShmLayout.
From S2P Require Import ShmSnapshot.
From S2P Require Import ShmReader.
From S2P Require Import PipelineTypes.
From S2P Require Import PluginRun.
From S2P Require Import Terminal.

Module TargetAccess.
Export Types.
Export Fueled.
Export PluginRun.
#[local] Open Scope Z_scope.

(** [{:#x}] of a u64. *)
Fixpoint hex_digits (fuel : nat) (n : Z) (acc : string) : string :=
  match fuel with
  | O => acc
  | S fuel =>
      let acc := String (Terminal.hex_digit (Z.to_nat (n mod 16))) acc in
      if decide (n < 16) then acc else hex_digits fuel (n / 16) acc
  end.
Definition hex (n : Z) : string := ("0x" +:+ hex_digits 16 n "")%string.

(** Failure of an exact read. *)
Inductive VmReadError : Type :=
| PlatformError (error : string)
| Partial (requested : Z) (bytes : list Z).

Definition classify_vm_read (bytes : list Z) (requested : Z) : result VmReadError (list Z) :=
  if decide (Z.of_nat (length bytes) = requested) then Ok bytes else Err (Partial requested bytes).

Definition vm_read_error_text (e : VmReadError) : string :=
  match e with
  | PlatformError error => error
  | Partial requested bytes =>
      ("partial VM read: requested " +:+ pretty requested +:+ " bytes, received " +:+ pretty (length bytes))%string
  end.

Inductive TargetStep : Type :=
| Queried (address : Z) (r : result Z VmRegionInfo)
| MemoryRead (address size : Z) (r : result string (list Z))
| ThreadsListed (ports : list Z)
| PortReleased (port : Z)
| Logged (text : string).

(** [vm_bytes] is the buffer of a successful [mach_vm_read]; [vm_region] answers with the
    region or the kernel's return code, [info_words] with the words and the returned
    count; registers are the words of [thread_get_state]. *)
Class TargetOps (E : Type) := {
  host_vm_page_size : Z;
  flag_loaded : E → bool * E;
  vm_bytes : Z → Z → Z → E → result string (list Z) * E;
  vm_region : Z → Z → E → result Z VmRegionInfo * E;
  info_words : Z → Z → Z → E → result string (list Z * Z) * E;
  task_vm_info : Z → E → result string TaskVmSummary * E;
  task_threads : Z → E → result string (list Z) * E;
  thread_name_of : Z → E → result string (option string) * E;
  thread_identifier : Z → E → result string Z * E;
  thread_state_words : Z → E → result string (list Z) * E;
  release_port : Z → E → unit * E
}.

Section Access.
Context {E : Type} {clock : Clock E} {target : TargetOps E} {Txn Ctx : Type}.
#[local] Notation fm := (fueled E TargetStep).
#[local] Notation PluginContext := (PluginContext Txn Ctx).

(** ** Checkpoints and calls *)

Definition is_timed_out (context : PluginContext) : fm bool :=
  cancelled ← ask flag_loaded;
  if (cancelled : bool) then mret true else
  match deadline context with
  | None => mret false
  | Some d => t ← ask instant_now; mret (bool_decide (d ≤ t))
  end.

Definition checkpoint (context : PluginContext) : fm (result string unit) :=
  expired ← is_timed_out context;
  mret (if (expired : bool) then Err "plugin deadline reached"%string else Ok tt).

Definition log (text : string) : fm unit := step (Logged text).

Definition vm_read (task address size : Z) : fm (result VmReadError (list Z)) :=
  r ← ask (vm_bytes task address size);
  _ ← step (MemoryRead address size r);
  mret match r with
       | Err error => Err (PlatformError error)
       | Ok bytes => classify_vm_read bytes size
       end.

Definition vm_region_query (task address : Z) : fm (result Z VmRegionInfo) :=
  r ← ask (vm_region task address);
  _ ← step (Queried address r);
  mret r.

End Access.

(** ** Regions *)

Definition KERN_INVALID_ADDRESS : Z := 1.

Definition MAX_VM_REGIONS : Z := 2000.
Definition MAX_VM_REGION_QUERY_ATTEMPTS : Z := MAX_VM_REGIONS * 4.
Definition MAX_CONSECUTIVE_VM_REGION_FAILURES : Z := 64.

Inductive VmRegionEnumerationQuality : Type :=
| Complete
| RegionLimit
| QueryAttemptLimit
| ConsecutiveErrorLimit
| SkippedQueryErrors (count : Z)
| NoAddressProgress
| AddressOverflow
| CaptureDeadline.

Definition is_complete (q : VmRegionEnumerationQuality) : bool := match q with Complete => true | _ => false end.

Inductive VmEnumAction : Type :=
| AddRegion
| AddTerminalRegion (q : VmRegionEnumerationQuality)
| Done (q : VmRegionEnumerationQuality)
| SkipPage
| Stop (q : VmRegionEnumerationQuality).

Record VmEnumerationState := mkEnumeration {
  address : Z;
  query_attempts : Z;
  consecutive_failures : Z;
  total_query_failures : Z;
  found_regions : Z;
  page_size : Z
}.

Definition start_enumeration (page_size : Z) : VmEnumerationState := mkEnumeration 0 0 0 0 0 page_size.

Definition pre_query_stop (s : VmEnumerationState) : option VmRegionEnumerationQuality :=
  if decide (MAX_VM_REGIONS ≤ found_regions s) then Some RegionLimit
  else if decide (MAX_VM_REGION_QUERY_ATTEMPTS ≤ query_attempts s) then Some QueryAttemptLimit
  else None.

Definition usize_succ (n : Z) : Z := Z.min USIZE_MAX (n + 1).

Definition u64_checked_add (a b : Z) : option Z := if decide (a + b ≤ U64_MAX) then Some (a + b) else None.

(** The size and the address of a region, or the kernel's return code. *)
Definition process_query (s : VmEnumerationState) (query_result : result Z (Z * Z)) : VmEnumerationState * VmEnumAction :=
  let attempts := usize_succ (query_attempts s) in
  let at_address a consecutive total count := mkEnumeration a attempts consecutive total count (page_size s) in
  match query_result with
  | Ok (size, query_address) =>
      let terminal := (at_address U64_MAX 0 (total_query_failures s) (usize_succ (found_regions s)), AddTerminalRegion AddressOverflow) in
      match u64_checked_add query_address size with
      | None => terminal
      | Some next_address =>
          if decide (next_address = U64_MAX) then terminal
          else if decide (next_address ≤ address s) then
            (at_address (address s) 0 (total_query_failures s) (found_regions s), Stop NoAddressProgress)
          else (at_address next_address 0 (total_query_failures s) (usize_succ (found_regions s)), AddRegion)
      end
  | Err kr =>
      if decide (kr = KERN_INVALID_ADDRESS) then
        (at_address (address s) (consecutive_failures s) (total_query_failures s) (found_regions s),
         Done (if decide (total_query_failures s = 0) then Complete else SkippedQueryErrors (total_query_failures s)))
      else
        let consecutive := usize_succ (consecutive_failures s) in
        let total := usize_succ (total_query_failures s) in
        let failed a := at_address a consecutive total (found_regions s) in
        if decide (MAX_CONSECUTIVE_VM_REGION_FAILURES ≤ consecutive) then (failed (address s), Stop ConsecutiveErrorLimit)
        else
        match u64_checked_add (address s) (page_size s) with
        | None => (failed U64_MAX, Stop AddressOverflow)
        | Some next_address =>
            if decide (next_address = U64_MAX) then (failed U64_MAX, Stop AddressOverflow)
            else if decide (next_address ≤ address s) then (failed (address s), Stop NoAddressProgress)
            else (failed next_address, SkipPage)
        end
  end.

Section Regions.
Context {E : Type} {clock : Clock E} {target : TargetOps E} {Txn Ctx : Type}.
#[local] Notation fm := (fueled E TargetStep).
#[local] Notation PluginContext := (PluginContext Txn Ctx).

Definition region_extent (info : result Z VmRegionInfo) : result Z (Z * Z) :=
  match info with Ok i => Ok (region_size i, region_address i) | Err kr => Err kr end.
Definition add_region (regions : list VmRegionInfo) (info : result Z VmRegionInfo) : list VmRegionInfo :=
  match info with Ok i => regions ++ [i] | Err _ => regions end.

(** Every turn is one query; the limits end the walk. *)
Fixpoint enumerate (turns : nat) (context : PluginContext) (task : Z) (s : VmEnumerationState) (regions : list VmRegionInfo)
    : fm (list VmRegionInfo * VmRegionEnumerationQuality) :=
  match turns with
  | O => starved
  | S turns =>
      checked ← checkpoint context;
      match checked with
      | Err _ => mret (regions, CaptureDeadline)
      | Ok _ =>
          match pre_query_stop s with
          | Some quality => mret (regions, quality)
          | None =>
              info ← vm_region_query task (address s);
              let '(s, action) := process_query s (region_extent info) in
              match action with
              | AddRegion =>
                  checked ← checkpoint context;
                  match checked with
                  | Err _ => mret (add_region regions info, CaptureDeadline)
                  | Ok _ => enumerate turns context task s (add_region regions info)
                  end
              | AddTerminalRegion quality => mret (add_region regions info, quality)
              | Done quality => mret (regions, quality)
              | SkipPage =>
                  checked ← checkpoint context;
                  match checked with
                  | Err _ => mret (regions, CaptureDeadline)
                  | Ok _ => enumerate turns context task s regions
                  end
              | Stop quality => mret (regions, quality)
              end
          end
      end
  end.

Definition host_page_size : result string Z :=
  if decide (host_vm_page_size < 0 ∨ U64_MAX < host_vm_page_size) then Err "host VM page size does not fit in u64"%string
  else if decide (host_vm_page_size = 0) then Err "host VM page size is zero"%string
  else Ok host_vm_page_size.

Definition enumerate_vm_regions (turns : nat) (context : PluginContext) (task : Z)
    : fm (result string (list VmRegionInfo * VmRegionEnumerationQuality)) :=
  page_size ←? mret host_page_size;
  found ← enumerate turns context task (start_enumeration page_size) [];
  mret (Ok found).

End Regions.

(** ** Bytes *)

(** [bytes.get(offset..offset + n)], little endian. *)
Definition get_range (bytes : list Z) (offset n : Z) : option (list Z) :=
  if decide (0 ≤ offset ∧ offset + n ≤ Z.of_nat (length bytes)) then Some (take (Z.to_nat n) (drop (Z.to_nat offset) bytes)) else None.
Definition read_u32_le (bytes : list Z) (offset : Z) : option Z := from_ne_bytes <$> get_range bytes offset 4.
Definition read_u64_le (bytes : list Z) (offset : Z) : option Z := from_ne_bytes <$> get_range bytes offset 8.

Definition byte_string (bytes : list Z) : string :=
  String.string_of_list_ascii (map (λ b, Ascii.ascii_of_nat (Z.to_nat b)) bytes).

(** [String::from_utf8_lossy] on bytes: every maximal invalid prefix of a sequence becomes
    one U+FFFD. *)
Definition REPLACEMENT : list Z := [239; 191; 189].
Definition second_of_three (b c : Z) : bool :=
  if decide (b = 224) then in_range 160 192 c
  else if decide (b = 237) then in_range 128 160 c
  else in_range 224 240 b && is_continuation c.
Definition second_of_four (b c : Z) : bool :=
  if decide (b = 240) then in_range 144 192 c
  else if decide (b = 244) then in_range 128 144 c
  else in_range 241 244 b && is_continuation c.

Fixpoint utf8_lossy (l : list Z) : list Z :=
  match l with
  | [] => []
  | b :: l1 =>
      if decide (b < 128) then b :: utf8_lossy l1
      else if in_range 194 224 b then
        match l1 with
        | c :: l2 => if is_continuation c then b :: c :: utf8_lossy l2 else REPLACEMENT ++ utf8_lossy l1
        | [] => REPLACEMENT
        end
      else if in_range 224 240 b then
        match l1 with
        | c :: l2 =>
            if second_of_three b c then
              match l2 with
              | d :: l3 => if is_continuation d then b :: c :: d :: utf8_lossy l3 else REPLACEMENT ++ utf8_lossy l2
              | [] => REPLACEMENT
              end
            else REPLACEMENT ++ utf8_lossy l1
        | [] => REPLACEMENT
        end
      else if in_range 240 245 b then
        match l1 with
        | c :: l2 =>
            if second_of_four b c then
              match l2 with
              | d :: l3 =>
                  if is_continuation d then
                    match l3 with
                    | e :: l4 => if is_continuation e then b :: c :: d :: e :: utf8_lossy l4 else REPLACEMENT ++ utf8_lossy l3
                    | [] => REPLACEMENT
                    end
                  else REPLACEMENT ++ utf8_lossy l2
              | [] => REPLACEMENT
              end
            else REPLACEMENT ++ utf8_lossy l1
        | [] => REPLACEMENT
        end
      else REPLACEMENT ++ utf8_lossy l1
  end.


Definition lossy_string (bytes : list Z) : string := byte_string (utf8_lossy bytes).

End TargetAccess.

(** ** The walk over the regions of a task

    A task whose memory does not change while it is walked: [regions_of] are its regions,
    and the kernel finds the first one that ends above an address. *)

Module TargetAccessSpec.
Export TargetAccess.
#[local] Open Scope Z_scope.

Definition region_end (r : VmRegionInfo) : Z := region_address r + region_size r.

(** Regions in the order of their addresses that do not overlap. *)
Definition apart (r r' : VmRegionInfo) : Prop := region_end r ≤ region_address r'.
Definition well_formed (R : list VmRegionInfo) : Prop :=
  StronglySorted apart R ∧ Forall (λ r, 0 ≤ region_address r ∧ 0 < region_size r) R.

Definition ends_above (a : Z) (r : VmRegionInfo) : Prop := a < region_end r.
#[export] Instance ends_above_dec a r : Decision (ends_above a r).
Proof. unfold ends_above. apply _. Defined.
Definition first_at (R : list VmRegionInfo) (a : Z) : option VmRegionInfo := head (filter (ends_above a) R).
Definition below (R : list VmRegionInfo) (a : Z) : list VmRegionInfo := filter (λ r, ¬ ends_above a r) R.

(** What the kernel answers: the region at or above an address, that there is none, or any
    other error. *)
Class Mapped (E : Type) {target : TargetOps E} (R : list VmRegionInfo) : Prop := {
  mapped_regions : well_formed R;
  law_region task a e :
    match (vm_region task a e).1 with
    | Ok r => first_at R a = Some r
    | Err kr => kr = KERN_INVALID_ADDRESS → first_at R a = None
    end
}.

(** ** Lists of regions *)

Lemma below_all R a : first_at R a = None → below R a = R.
Proof.
  unfold first_at, below. induction R as [|r R IH]; [done|]. rewrite !filter_cons.
  destruct (decide (ends_above a r)) as [H|H]; [done|]. rewrite decide_True by done. intros Hf. by rewrite IH.
Qed.

Lemma regions_below_mono R a a' : a ≤ a' → sublist (below R a) (below R a').
Proof.
  intros Ha. unfold below, ends_above. induction R as [|r R IH]; [done|]. rewrite !filter_cons.
  destruct (decide (¬ a < region_end r)) as [H|H].
  - rewrite decide_True by lia. by constructor.
  - case_decide; [by constructor|exact IH].
Qed.

Lemma below_sublist R a : sublist (below R a) R.
Proof. unfold below. induction R as [|r R IH]; [done|]. rewrite filter_cons. case_decide; by constructor. Qed.

Lemma below_zero R : well_formed R → below R 0 = [].
Proof.
  intros [_ Hpos]. unfold below. induction Hpos as [|r R [H1 H2] _ IH]; [done|].
  rewrite filter_cons, decide_False; [done|]. intros Hn. apply Hn. unfold ends_above, region_end. lia.
Qed.

(** Behind the first region above an address everything is above its end. *)
Lemma below_next R a r : well_formed R → first_at R a = Some r → below R (region_end r) = below R a ++ [r] ∧ a < region_end r.
Proof.
  intros [Hsort Hpos] Hf. unfold first_at, below, ends_above in *.
  induction R as [|x R IH]; [done|]. apply StronglySorted_inv in Hsort as [Hsort Hx]. apply Forall_cons in Hpos as [Hx0 Hpos].
  rewrite filter_cons in Hf. rewrite !filter_cons. destruct (decide (a < region_end x)) as [Hax|Hax].
  - cbn in Hf. simplify_eq. rewrite decide_True by lia. rewrite (decide_False (P := ¬ a < region_end r)) by lia.
    assert (∀ b, b ≤ region_end r → filter (λ y, ¬ b < region_end y) R = []) as Hnone.
    { intros b Hb. clear IH. induction R as [|y R IH]; [done|]. apply Forall_cons in Hx as [Hy Hx].
      apply Forall_cons in Hpos as [Hy0 Hpos]. apply StronglySorted_inv in Hsort as [Hsort _].
      unfold apart, region_end in *. rewrite filter_cons, decide_False by lia. by apply IH. }
    rewrite (Hnone (region_end r)), (Hnone a) by lia. done.
  - destruct (IH Hsort Hpos Hf) as [H1 H2]. rewrite H1.
    assert (region_end x ≤ region_end r) as Hxr.
    { assert (r ∈ R) as Hin.
      { apply head_Some_elem_of in Hf. by apply list_elem_of_filter in Hf as [_ Hf]. }
      rewrite Forall_forall in Hx, Hpos. pose proof (Hx r Hin) as Hap. pose proof (Hpos r Hin). unfold apart, region_end in *. lia. }
    rewrite !decide_True by lia. done.
Qed.

Section Walk.
Context {E : Type} {clock : Clock E} {target : TargetOps E} {Txn Ctx : Type} {R : list VmRegionInfo} {mapped : Mapped E R}.
#[local] Notation fm := (fueled E TargetStep).
#[local] Notation PluginContext := (PluginContext Txn Ctx).

Definition is_failure (s : TargetStep) : bool :=
  match s with Queried _ (Err kr) => bool_decide (kr ≠ KERN_INVALID_ADDRESS) | _ => false end.
Definition failures (l : list TargetStep) : Z := Z.of_nat (length (filter (λ s, is_failure s = true) l)).
Definition is_query (s : TargetStep) : Prop := ∃ a r, s = Queried a r.

(** The account of a walk that has queried [l] and is at the address of its state. *)
Record walked (l : list TargetStep) (s : VmEnumerationState) (regions : list VmRegionInfo) : Prop := {
  walked_queries : Forall is_query l;
  walked_attempts : query_attempts s = Z.of_nat (length l);
  walked_failures : total_query_failures s = failures l;
  walked_found : found_regions s = Z.of_nat (length regions);
  walked_bounds : Z.of_nat (length l) ≤ MAX_VM_REGION_QUERY_ATTEMPTS ∧ Z.of_nat (length regions) ≤ MAX_VM_REGIONS;
  walked_page : 0 < page_size s;
  walked_at : 0 ≤ address s;
  walked_sublist : sublist regions (below R (address s));
  walked_exact : failures l = 0 → regions = below R (address s)
}.

(** What a walk ends with. *)
Definition finished (regions : list VmRegionInfo) (q : VmRegionEnumerationQuality) (l : list TargetStep) : Prop :=
  Forall is_query l ∧ Z.of_nat (length l) ≤ MAX_VM_REGION_QUERY_ATTEMPTS ∧
  sublist regions R ∧ Z.of_nat (length regions) ≤ MAX_VM_REGIONS ∧
  match q with
  | Complete => regions = R
  | RegionLimit => Z.of_nat (length regions) = MAX_VM_REGIONS
  | QueryAttemptLimit => Z.of_nat (length l) = MAX_VM_REGION_QUERY_ATTEMPTS
  | SkippedQueryErrors n => n = failures l ∧ 0 < n
  | NoAddressProgress => False
  | _ => True
  end.

Lemma quiet_checkpoint (context : PluginContext) : quiet (checkpoint context : fm _).
Proof.
  unfold checkpoint, is_timed_out. apply fueled_quiet_bind; [|done]. apply fueled_quiet_bind; [apply quiet_ask|].
  intros []; [done|]. case_match; [|done]. apply fueled_quiet_bind; [apply quiet_ask|done].
Qed.

(** ** One query *)

Lemma usize_succ_small n : n < USIZE_MAX → usize_succ n = n + 1.
Proof. unfold usize_succ. lia. Qed.

Lemma failures_snoc l s : failures (l ++ [s]) = failures l + (if is_failure s then 1 else 0).
Proof. unfold failures. rewrite filter_app, length_app, filter_cons, filter_nil. destruct (is_failure s); cbn [length app]; case_decide; cbn [length]; lia || done. Qed.
Lemma failures_nonneg l : 0 ≤ failures l.
Proof. unfold failures. lia. Qed.

(** The answer of the next query, and what the walk has then. *)
Definition outcome (l : list TargetStep) (regions : list VmRegionInfo) (s : VmEnumerationState)
    (info : result Z VmRegionInfo) (s' : VmEnumerationState) (action : VmEnumAction) : Prop :=
  let l' := l ++ [Queried (address s) info] in
  match action with
  | AddRegion => walked l' s' (add_region regions info)
  | SkipPage => walked l' s' regions
  | AddTerminalRegion q => finished (add_region regions info) q l'
  | Done q | Stop q => finished regions q l'
  end.

Lemma queried l s r : Forall is_query l → Forall is_query (l ++ [Queried (address s) r]).
Proof. intros H. apply Forall_app. split; [done|]. constructor; [by do 2 eexists|done]. Qed.

Lemma process_query_walks l regions s r :
  walked l s regions → pre_query_stop s = None →
  match r with Ok i => first_at R (address s) = Some i | Err kr => kr = KERN_INVALID_ADDRESS → first_at R (address s) = None end →
  let '(s', action) := process_query s (region_extent r) in outcome l regions s r s' action.
Proof.
  intros [Hq Ha Hf Hn _ Hp H0 Hs Hx] Hstop Hlaw. unfold pre_query_stop in Hstop. repeat case_decide; [done|done|].
  unfold MAX_VM_REGION_QUERY_ATTEMPTS, MAX_VM_REGIONS in *.
  assert (Z.of_nat (length l) < 8000 ∧ Z.of_nat (length regions) < 2000) as [Hl Hr] by lia.
  pose proof (queried l s r Hq) as Hq'. pose proof (failures_snoc l (Queried (address s) r)) as Hfs. pose proof (failures_nonneg l) as Hpos.
  assert (failures l ≤ Z.of_nat (length l)) as Hfl by (unfold failures; pose proof (length_filter (λ s, is_failure s = true) l); lia).
  assert (∀ n, n ≤ 8000 → usize_succ n = n + 1) as Hsucc by (intros; apply usize_succ_small; unfold USIZE_MAX; lia).
  pose proof (sublist_length _ _ (below_sublist R (address s))) as Hbl.
  assert (sublist regions R) as HR by (etrans; [exact Hs|apply below_sublist]).
  unfold process_query. destruct r as [i|kr]; cbn [region_extent].
  - destruct (below_next R (address s) i mapped_regions Hlaw) as [Hnext Hend].
    assert (sublist (regions ++ [i]) (below R (region_end i))) as Hsub by (rewrite Hnext; by apply sublist_app).
    assert (failures (l ++ [Queried (address s) (Ok i)]) = 0 → regions ++ [i] = below R (region_end i)) as Hex.
    { intros Hz. cbn in Hfs. rewrite Hnext, Hx; [done|lia]. }
    assert (finished (regions ++ [i]) AddressOverflow (l ++ [Queried (address s) (Ok i)])) as Hfin.
    { split_and!; [done|rewrite length_app; unfold MAX_VM_REGION_QUERY_ATTEMPTS, MAX_VM_REGIONS; cbn; lia
        |etrans; [exact Hsub|apply below_sublist]|rewrite length_app; unfold MAX_VM_REGIONS; cbn; lia|done]. }
    unfold u64_checked_add. rewrite (Z.add_comm (region_size i)) || idtac.
    case_decide as Hov; [|exact Hfin]. case_decide as Hmax; [exact Hfin|].
    unfold region_end in *. case_decide; [lia|]. cbn in Hfs.
    split; cbn [query_attempts total_query_failures found_regions page_size address add_region]; try done.
    + rewrite Hsucc, length_app by lia. cbn. lia.
    + lia.
    + rewrite Hsucc, length_app by lia. cbn. lia.
    + rewrite !length_app. unfold MAX_VM_REGION_QUERY_ATTEMPTS, MAX_VM_REGIONS. cbn. lia.
    + lia.
  - destruct (decide (kr = KERN_INVALID_ADDRESS)) as [Hkr|Hkr].
    + subst kr. unfold outcome. pose proof (eq_trans Hfs (Z.add_0_r _)) as Hfs0. pose proof (below_all R _ (Hlaw eq_refl)) as Hall.
      split_and!; [done|rewrite length_app; unfold MAX_VM_REGION_QUERY_ATTEMPTS, MAX_VM_REGIONS; cbn; lia|done|unfold MAX_VM_REGIONS; lia|].
      destruct (decide (total_query_failures s = 0)); [rewrite Hx by lia; exact Hall|split; lia].
    + assert (is_failure (Queried (address s) (Err kr)) = true) as Hfail by (cbn; by apply bool_decide_eq_true).
      rewrite Hfail in Hfs.
      assert (∀ q, match q with ConsecutiveErrorLimit | AddressOverflow => True | _ => False end →
        finished regions q (l ++ [Queried (address s) (Err kr)])) as Hfin.
      { intros q Hq0. split_and!; [done|rewrite length_app; unfold MAX_VM_REGION_QUERY_ATTEMPTS, MAX_VM_REGIONS; cbn; lia|done
          |unfold MAX_VM_REGIONS; lia|by destruct q]. }
      case_decide; [by apply Hfin|]. unfold u64_checked_add. case_decide; [|by apply Hfin]. case_decide; [by apply Hfin|].
      case_decide; [lia|].
      split; cbn [query_attempts total_query_failures found_regions page_size address]; try done.
      * rewrite Hsucc, length_app by lia. cbn. lia.
      * rewrite Hsucc by lia. lia.
      * rewrite length_app. unfold MAX_VM_REGION_QUERY_ATTEMPTS, MAX_VM_REGIONS. cbn. lia.
      * lia.
      * etrans; [exact Hs|]. apply regions_below_mono. lia.
      * lia.
Qed.

(** ** The walk *)

Definition queries (l : list TargetStep) : Prop := Forall is_query l.

Lemma ends_checkpoint {A : Type} (Q : list TargetStep → A → Prop) (context : PluginContext) (f : result string unit → fm A) :
  (∀ r, ends Q (f r)) → ends Q (checkpoint context ≫= f).
Proof. intros Hf. apply ends_quiet; [apply quiet_checkpoint|exact Hf]. Qed.

Lemma ends_query {A : Type} (Q : list TargetStep → A → Prop) task a (f : result Z VmRegionInfo → fm A) :
  (∀ r, match r with Ok i => first_at R a = Some i | Err kr => kr = KERN_INVALID_ADDRESS → first_at R a = None end →
    ends (λ l x, Q (Queried a r :: l) x) (f r)) →
  ends Q (vm_region_query task a ≫= f).
Proof.
  intros Hf. apply (ends_bind (λ l r, l = [Queried a r] ∧
    match r with Ok i => first_at R a = Some i | Err kr => kr = KERN_INVALID_ADDRESS → first_at R a = None end)).
  - intros w. pose proof (law_region task a (env w)) as Hlaw. unfold vm_region_query, ask, of_traced, lift, step, emit, mbind, fueled_bind, mret, fueled_ret.
    destruct (vm_region task a (env w)) as [r e]. cbn in *. exists [Queried a r]. split; [done|]. by intros ? [= <-].
  - intros l r [-> Hr]. by apply Hf.
Qed.

Lemma walked_finished l s regions q :
  walked l s regions → match q with ConsecutiveErrorLimit | AddressOverflow | CaptureDeadline => True | _ => False end → finished regions q l.
Proof.
  intros [Hq Ha Hf Hn [Hb1 Hb2] Hp H0 Hs Hx] Hc. split_and!; [done|done|etrans; [exact Hs|apply below_sublist]|done|by destruct q].
Qed.

Lemma walked_stop l s regions q : walked l s regions → pre_query_stop s = Some q → finished regions q l.
Proof.
  intros [Hq Ha Hf Hn [Hb1 Hb2] Hp H0 Hs Hx] Hstop. unfold pre_query_stop in Hstop.
  split_and!; [done|done|etrans; [exact Hs|apply below_sublist]|done|].
  repeat case_decide; simplify_eq; lia.
Qed.

Lemma ends_enumerate turns (context : PluginContext) task l s regions :
  walked l s regions → ends (λ l' found, finished found.1 found.2 (l ++ l')) (enumerate turns context task s regions).
Proof.
  revert l s regions. induction turns as [|turns IH]; intros l s regions Hw; [apply ends_starved|]. cbn [enumerate].
  apply ends_checkpoint. intros [_|error].
  2: { apply ends_ret. rewrite app_nil_r. by eapply walked_finished. }
  destruct (pre_query_stop s) as [q|] eqn:Hstop; [apply ends_ret; rewrite app_nil_r; by eapply walked_stop|].
  apply ends_query. intros r Hr. pose proof (process_query_walks l regions s r Hw Hstop Hr) as Hp.
  destruct (process_query s (region_extent r)) as [s' action]. unfold outcome in Hp.
  assert (∀ A (Q : list TargetStep → A → Prop) (m : fm A), ends (λ l' x, Q ((l ++ [Queried (address s) r]) ++ l') x) m →
    ends (λ l' x, Q (l ++ Queried (address s) r :: l') x) m) as Hshift.
  { intros A Q m Hm. eapply ends_impl; [exact Hm|]. intros l' x Hq. cbn beta in Hq. by rewrite <-app_assoc in Hq. }
  destruct action; apply (Hshift _ (λ l' found, finished found.1 found.2 l')).
  - apply ends_checkpoint. intros [_|error]; [by apply IH|]. apply ends_ret. rewrite app_nil_r. by eapply walked_finished.
  - apply ends_ret. by rewrite app_nil_r.
  - apply ends_ret. by rewrite app_nil_r.
  - apply ends_checkpoint. intros [_|error]; [by apply IH|]. apply ends_ret. rewrite app_nil_r. by eapply walked_finished.
  - apply ends_ret. by rewrite app_nil_r.
Qed.

Lemma process_query_attempts s r :
  query_attempts s < MAX_VM_REGION_QUERY_ATTEMPTS →
  let '(s', action) := process_query s r in match action with AddRegion | SkipPage => query_attempts s' = query_attempts s + 1 | _ => True end.
Proof.
  intros H. assert (usize_succ (query_attempts s) = query_attempts s + 1) as Hs.
  { apply usize_succ_small. unfold MAX_VM_REGION_QUERY_ATTEMPTS, MAX_VM_REGIONS, USIZE_MAX in *. lia. }
  unfold process_query. destruct r as [[]|]; repeat case_match; simplify_eq; done.
Qed.

End Walk.

(** ** Answers *)

Section Answers.
Context {E : Type} {clock : Clock E} {target : TargetOps E} {Txn Ctx : Type}.
#[local] Notation fm := (fueled E TargetStep).
#[local] Notation PluginContext := (PluginContext Txn Ctx).

Lemma total_ask_target {A : Type} (f : E → A * E) : total (ask f : fm A).
Proof. apply settles_call, calm_zero. Qed.
Lemma total_then_target {A B : Type} (m : fm A) (f : A → fm B) : total m → (∀ a, total (f a)) → total (m ≫= f).
Proof. apply settles_then. Qed.
Lemma total_ret_target {A : Type} (a : A) : total (mret a : fm A).
Proof. apply settles_answer. Qed.
Lemma total_step_target (s : TargetStep) : total (step s : fm unit).
Proof. apply settles_emit. Qed.
End Answers.

#[export] Hint Resolve total_ask_target total_ret_target total_step_target : cm.
Ltac answer := repeat (intros; first [solve [auto with cm] | case_match | apply total_then_target]).

Section WalkAnswers.
Context {E : Type} {clock : Clock E} {target : TargetOps E} {Txn Ctx : Type}.
#[local] Notation fm := (fueled E TargetStep).
#[local] Notation PluginContext := (PluginContext Txn Ctx).

Lemma total_timed_out (context : PluginContext) : total (is_timed_out context : fm _).
Proof. unfold is_timed_out. answer. Qed.
Lemma total_vm_read task a n : total (vm_read task a n).
Proof. unfold vm_read. answer. Qed.
Lemma total_checkpoint (context : PluginContext) : total (checkpoint context : fm _).
Proof. unfold checkpoint, is_timed_out. answer. Qed.
Lemma total_query task a : total (vm_region_query task a).
Proof. unfold vm_region_query. answer. Qed.
#[local] Hint Resolve total_checkpoint total_query : cm.

(** Every turn takes one of the attempts. *)
Lemma total_enumerate turns (context : PluginContext) task s regions :
  query_attempts s ≤ MAX_VM_REGION_QUERY_ATTEMPTS → MAX_VM_REGION_QUERY_ATTEMPTS - query_attempts s < Z.of_nat turns →
  total (enumerate turns context task s regions).
Proof.
  revert s regions. induction turns as [|turns IH]; intros s regions Hs Ht; cbn [enumerate]; [lia|].
  apply total_then_target; [apply total_checkpoint|]. intros [_|error]; [|apply total_ret_target].
  destruct (pre_query_stop s) as [q|] eqn:Hstop; [apply total_ret_target|].
  assert (query_attempts s < MAX_VM_REGION_QUERY_ATTEMPTS) as Hlt.
  { unfold pre_query_stop in Hstop. repeat case_decide; done || lia. }
  apply total_then_target; [apply total_query|]. intros info. pose proof (process_query_attempts s (region_extent info) Hlt) as Hp.
  destruct (process_query s (region_extent info)) as [s' action].
  destruct action; try apply total_ret_target; (apply total_then_target; [apply total_checkpoint|]; intros [_|error]; [|apply total_ret_target]);
    apply IH; lia.
Qed.

End WalkAnswers.

#[export] Hint Resolve total_timed_out total_checkpoint total_vm_read total_query : cm.

(** ** Reading *)

(** Steps that leave the ports alone. *)
Definition reading (s : TargetStep) : Prop :=
  match s with MemoryRead _ _ _ | Queried _ _ | Logged _ => True | _ => False end.

Section Reading.
Context {E : Type} {clock : Clock E} {target : TargetOps E} {Txn Ctx : Type}.
#[local] Notation fm := (fueled E TargetStep).
#[local] Notation PluginContext := (PluginContext Txn Ctx).

Definition inspects {A : Type} (P : A → Prop) (m : fm A) : Prop := ends (λ l a, Forall reading l ∧ P a) m.

Lemma inspects_ret {A : Type} (P : A → Prop) a : P a → inspects P (mret a).
Proof. intros H. by apply ends_ret. Qed.
Lemma inspects_bind {A B : Type} (P : A → Prop) (Q : B → Prop) (m : fm A) (f : A → fm B) :
  inspects P m → (∀ a, P a → inspects Q (f a)) → inspects Q (m ≫= f).
Proof.
  intros Hm Hf. eapply ends_bind; [exact Hm|]. intros l a [Hl Ha]. eapply ends_impl; [by apply Hf|].
  intros l' b [Hl' Hb]. split; [by apply Forall_app|done].
Qed.
Lemma inspects_impl {A : Type} (P Q : A → Prop) (m : fm A) : inspects P m → (∀ a, P a → Q a) → inspects Q m.
Proof. intros Hm H. eapply ends_impl; [exact Hm|]. intros l a [Hl Ha]. auto. Qed.
Lemma inspects_quiet {A : Type} (m : fm A) : quiet m → inspects (λ _, True) m.
Proof. intros H. apply quiet_ends; [done|]. by split. Qed.
Lemma inspects_ask {A : Type} (f : E → A * E) : inspects (λ _, True) (ask f).
Proof. apply inspects_quiet, quiet_ask. Qed.
Lemma inspects_step s : reading s → inspects (λ _, True) (step s).
Proof. intros H. apply ends_of_traced, emit_emits. by repeat constructor. Qed.
Lemma inspects_checkpoint (context : PluginContext) : inspects (λ _, True) (checkpoint context).
Proof. apply inspects_quiet, quiet_checkpoint. Qed.
Lemma inspects_timed_out (context : PluginContext) : inspects (λ _, True) (is_timed_out context).
Proof.
  apply inspects_quiet. unfold is_timed_out. apply fueled_quiet_bind; [apply quiet_ask|].
  intros []; [done|]. case_match; [|done]. apply fueled_quiet_bind; [apply quiet_ask|done].
Qed.

(** Without regard to the value. *)
Lemma inspects_any {A B : Type} (P : A → Prop) (Q : B → Prop) (m : fm A) (f : A → fm B) :
  inspects P m → (∀ a, inspects Q (f a)) → inspects Q (m ≫= f).
Proof. intros Hm Hf. by eapply inspects_bind. Qed.

(** [?]: the value of a success. *)
Lemma inspects_try {A B : Type} (P : A → Prop) (Q : B → Prop) (m : fm (result string A)) (f : A → fm (result string B)) :
  inspects (λ r, ∀ a, r = Ok a → P a) m → (∀ a, P a → inspects (λ r, ∀ b, r = Ok b → Q b) (f a)) →
  inspects (λ r, ∀ b, r = Ok b → Q b) (x ←? m; f x).
Proof.
  intros Hm Hf. eapply inspects_bind; [exact Hm|]. intros [a|error] Ha; [by apply Hf, Ha|]. by apply inspects_ret.
Qed.
Lemma inspects_check {B : Type} (Q : B → Prop) (context : PluginContext) (f : unit → fm (result string B)) :
  inspects (λ r, ∀ b, r = Ok b → Q b) (f tt) → inspects (λ r, ∀ b, r = Ok b → Q b) (x ←? checkpoint context; f x).
Proof. intros Hf. eapply inspects_any; [apply inspects_checkpoint|]. intros [[]|error]; [done|by apply inspects_ret]. Qed.

Lemma inspects_vm_read task a n :
  inspects (λ r, ∀ bytes, r = Ok bytes → Z.of_nat (length bytes) = n) (vm_read task a n).
Proof.
  unfold vm_read. eapply inspects_any; [apply inspects_ask|]. intros r. eapply inspects_any; [by apply inspects_step|]. intros _.
  apply inspects_ret. destruct r; [|done]. unfold classify_vm_read. case_decide; [|done]. by intros ? [= <-].
Qed.
Lemma inspects_query task a : inspects (λ _, True) (vm_region_query task a).
Proof.
  unfold vm_region_query. eapply inspects_any; [apply inspects_ask|]. intros r. eapply inspects_any; [by apply inspects_step|].
  intros _. by apply inspects_ret.
Qed.

End Reading.

(** The walk over the regions of a task answers after at most 8000 queries, with at most
    2000 regions. For a task whose regions do not change meanwhile, they are regions of the
    task in the order of their addresses, none of them twice; and they are all of them when
    the walk says that it was complete. Otherwise it names the limit that it reached, or
    how many queries it had to skip; it never stops for lack of progress. *)
Theorem region_walk_exact {E : Type} {clock : Clock E} {target : TargetOps E} {Txn Ctx : Type} {R : list VmRegionInfo}
    {mapped : Mapped E R} (turns : nat) (context : PluginContext Txn Ctx) (task : Z) (page : Z) (w : World E TargetStep) :
  host_page_size = Ok page → MAX_VM_REGION_QUERY_ATTEMPTS < Z.of_nat turns →
  ∃ regions quality w' l,
    enumerate_vm_regions turns context task w = (Some (Ok (regions, quality)), w') ∧ trace w' = trace w ++ l ∧
    finished (R := R) regions quality l.
Proof.
  intros Hpage Hturns. unfold enumerate_vm_regions. rewrite Hpage.
  assert (0 < page) as Hpos by (unfold host_page_size in Hpage; repeat case_decide; simplify_eq; lia).
  destruct (settled_ends (budget := λ _, 0%nat) 1 (λ l found, finished (R := R) found.1 found.2 l)
    (enumerate turns context task (start_enumeration page) []) w) as ([regions quality] & w' & l & Hm & Hl & HP).
  - apply total_enumerate; cbn; unfold MAX_VM_REGION_QUERY_ATTEMPTS, MAX_VM_REGIONS in *; lia.
  - apply (ends_enumerate (R := R) turns context task []). split; try done.
    + apply sublist_nil_l.
    + intros _. symmetry. apply below_zero, mapped_regions.
  - lia.
  - exists regions, quality, w', l. split_and!; [|done|done]. unfold mbind, fueled_bind, mret, fueled_ret in *. by rewrite Hm.
Qed.

(** Two regions, and a task that answers for nothing else. *)
Module Example.

Definition low : VmRegionInfo := mkVmRegion 4096 8192 5 1 0 2 0.
Definition high : VmRegionInfo := mkVmRegion 65536 4096 3 30 0 1 0.
Definition layout : list VmRegionInfo := [low; high].

#[export] Instance clock : Clock unit := λ e, (0, e).
#[export] Instance target : TargetOps unit := {|
  host_vm_page_size := 4096;
  flag_loaded e := (false, e);
  vm_bytes _ _ _ e := (Err "unreadable"%string, e);
  vm_region _ a e := (match first_at layout a with Some r => Ok r | None => Err KERN_INVALID_ADDRESS end, e);
  info_words _ _ _ e := (Err "unavailable"%string, e);
  task_vm_info _ e := (Err "unavailable"%string, e);
  task_threads _ e := (Ok [], e);
  thread_name_of _ e := (Ok None, e);
  thread_identifier _ e := (Ok 1, e);
  thread_state_words _ e := (Err "unavailable"%string, e);
  release_port _ e := (tt, e)
|}.

#[export] Instance mapped : Mapped unit layout.
Proof.
  split.
  - split; repeat constructor; unfold apart, region_end; cbn; lia.
  - intros task a e. cbn. by destruct (first_at layout a).
Qed.

Lemma enough_turns : ∃ turns, MAX_VM_REGION_QUERY_ATTEMPTS < Z.of_nat turns.
Proof. exists (Z.to_nat (MAX_VM_REGION_QUERY_ATTEMPTS + 1)). rewrite Z2Nat.id; unfold MAX_VM_REGION_QUERY_ATTEMPTS, MAX_VM_REGIONS; lia. Qed.

Definition idle : World unit TargetStep := mkWorld tt [].
Definition no_deadline : PluginContext unit unit := mkContext None None None None.

End Example.
Import Example.

Lemma region_walk_exact_witness :
  (enumerate_vm_regions 9 Example.no_deadline 7 Example.idle).1 = Some (Ok ([Example.low; Example.high], Complete)) ∧
  ∃ turns regions quality w' l,
    enumerate_vm_regions turns Example.no_deadline 7 Example.idle = (Some (Ok (regions, quality)), w') ∧ trace w' = [] ++ l ∧
    finished (R := Example.layout) regions quality l.
Proof.
  split; [vm_compute; reflexivity|]. destruct Example.enough_turns as [turns Ht]. exists turns.
  exact (region_walk_exact turns Example.no_deadline 7 4096 Example.idle eq_refl Ht).
Defined.

End TargetAccessSpec.
