(* ===== verification/Threads.v ===== *)
(** * Threads of a captured task (src/collectors/thread.rs)

    Registers, frame-pointer backtraces and bounded stack bytes of every thread. *)

From stdpp Require Import gmap strings pretty.
From stdpp Require Import gmap strings.
From S2P Require Import Prelude.
From S2P Require Import Traced.
From S2P Require Import Fueled.
From S2P Require Import ShmSnapshot.
From S2P Require Import PipelineTypes.
From S2P Require Import PluginRun.
From S2P Require Import TargetAccess.

Module Threads.
Export TargetAccess.
#[local] Open Scope Z_scope.

Definition MAX_CAPTURED_THREADS : nat := 512.
Definition MAX_TOTAL_STACK_BYTES : Z := 8 * 1024 * 1024.
Definition MAX_STACK_BYTES : Z := 64 * 1024.
Definition MAX_FRAMES : nat := 128.

Definition ARM64_GPR_NAMES : list string :=
  ["x0"; "x1"; "x2"; "x3"; "x4"; "x5"; "x6"; "x7"; "x8"; "x9"; "x10"; "x11"; "x12"; "x13"; "x14"; "x15"; "x16"; "x17"; "x18";
   "x19"; "x20"; "x21"; "x22"; "x23"; "x24"; "x25"; "x26"; "x27"; "x28"; "fp"; "lr"]%string.

(** ** Registers *)

Definition WORD_CAPACITY : nat := 68.
Definition MIN_CONSUMER_WORDS : nat := 67.

(** [ArmThreadState64::try_from_words]: missing padding is zero. *)
Definition try_from_words (words : list Z) : result string (list Z) :=
  if decide (length words < MIN_CONSUMER_WORDS ∨ WORD_CAPACITY < length words)%nat then
    Err ("ARM_THREAD_STATE64 returned " +:+ pretty (length words) +:+ " words; expected " +:+ pretty MIN_CONSUMER_WORDS +:+
           "..=" +:+ pretty WORD_CAPACITY)%string
  else Ok (words ++ replicate (WORD_CAPACITY - length words) 0).

Definition state_word (state : list Z) (i : nat) : Z := nth i state 0.
Definition wide_register (state : list Z) (i : nat) : Z :=
  Z.lor (state_word state (i * 2)) (Z.shiftl (state_word state (i * 2 + 1)) 32).

(** ** Memory *)

Definition CANONICAL_ADDRESS : Z := 2 ^ 48 - 1.

Section Threads.
Context {E : Type} {clock : Clock E} {target : TargetOps E} {Txn Ctx : Type}.
#[local] Notation fm := (fueled E TargetStep).
#[local] Notation PluginContext := (PluginContext Txn Ctx).

Definition get_thread_state (thread : Z) : fm (result string (list Z)) :=
  words ←? ask (thread_state_words thread);
  mret (try_from_words words).

Fixpoint general_registers (context : PluginContext) (state : list Z) (names : list (nat * string)) (regs : gmap string Z)
    : fm (result string (gmap string Z)) :=
  match names with
  | [] => mret (Ok regs)
  | (i, name) :: names =>
      _ ←? checkpoint context;
      general_registers context state names (<[name := wide_register state i]> regs)
  end.

Definition get_registers (thread : Z) (context : PluginContext) : fm (result string (gmap string Z)) :=
  _ ←? checkpoint context;
  state ←? get_thread_state thread;
  _ ←? checkpoint context;
  regs ←? general_registers context state (zip (seq 0 31) ARM64_GPR_NAMES) ∅;
  mret (Ok (<["cpsr"%string := state_word state 66]>
              (<["pc"%string := wide_register state 32]> (<["sp"%string := wide_register state 31]> regs)))).

(** An exact read has eight bytes. *)
Definition read_u64 (task address : Z) : fm (result VmReadError Z) :=
  r ← vm_read task address 8;
  mret match r with Ok bytes => Ok (from_ne_bytes (take 8 bytes)) | Err error => Err error end.

(** The return addresses of the frames from [fp] on. *)
Fixpoint walk_backtrace (depth : nat) (task fp : Z) (context : PluginContext) (frames : list Z) : fm (result string (list Z)) :=
  match depth with
  | O => mret (Ok frames)
  | S depth =>
      _ ←? checkpoint context;
      if decide (fp = 0 ∨ fp mod 8 ≠ 0) then mret (Ok frames) else
      match u64_checked_add fp 8 with
      | None => mret (Ok frames)
      | Some lr_address =>
          lr ← read_u64 task lr_address;
          match lr with
          | Err _ => mret (Ok frames)
          | Ok lr =>
              if decide (lr = 0) then mret (Ok frames) else
              let frames := frames ++ [Z.land lr CANONICAL_ADDRESS] in
              prev_fp ← read_u64 task fp;
              match prev_fp with
              | Err _ => mret (Ok frames)
              | Ok prev_fp =>
                  if decide (prev_fp ≤ fp) then mret (Ok frames) else walk_backtrace depth task prev_fp context frames
              end
          end
      end
  end.

Definition inspect_thread (task thread : Z) (context : PluginContext) : fm (result string (gmap string Z * list Z)) :=
  _ ←? checkpoint context;
  regs ←? get_registers thread context;
  let fp := default 0 (regs !! "fp"%string) in
  let pc := default 0 (regs !! "pc"%string) in
  frames ←? walk_backtrace MAX_FRAMES task fp context [];
  mret (Ok (regs, pc :: frames)).

(** ** Stacks *)

Definition compute_read_size (task sp : Z) : fm Z :=
  r ← vm_region_query task sp;
  mret match r with
       | Err _ => MAX_STACK_BYTES
       | Ok region =>
           let region_top := u64_saturating_add (region_address region) (region_size region) in
           if decide (sp < region_address region ∨ region_top ≤ sp) then MAX_STACK_BYTES
           else Z.min (region_top - sp) MAX_STACK_BYTES
       end.

Definition read_stack_memory (task sp max_bytes : Z) (context : PluginContext) : fm (result string (RawStackCapture * bool)) :=
  _ ←? checkpoint context;
  if decide (sp = 0) then mret (Err "SP is null"%string) else
  desired_size ← compute_read_size task sp;
  let read_size := Z.min desired_size max_bytes in
  if decide (read_size = 0) then mret (Err "stack byte budget exhausted"%string) else
  read ← vm_read task sp read_size;
  match read with
  | Err e => mret (Err ("stack read failed: " +:+ vm_read_error_text e)%string)
  | Ok bytes =>
      _ ←? checkpoint context;
      mret (Ok (mkStackCapture sp bytes (bool_decide (Z.of_nat (length bytes) < desired_size)), bool_decide (read_size < desired_size)))
  end.

(** The stack of one thread, the bytes that remain, and whether the budget ended it. *)
Definition capture_stack (capture_stack_memory : bool) (task : Z) (regs : gmap string Z) (remaining : Z) (exhausted : bool)
    (context : PluginContext) : fm (option RawStackCapture * Z * bool) :=
  match (if capture_stack_memory then regs !! "sp"%string else None) with
  | None => mret (None, remaining, exhausted)
  | Some sp =>
      if decide (remaining = 0) then mret (None, remaining, true) else
      outcome ← read_stack_memory task sp remaining context;
      mret match outcome with
           | Err _ => (None, remaining, exhausted)
           | Ok (capture, budget_limited) =>
               (Some capture, Z.max 0 (remaining - Z.of_nat (length (stack_bytes capture))), exhausted || budget_limited)
           end
  end.

(** ** All threads *)

(** [threads.swap(i, j)]; [rotate_right] of the elements up to an index. *)
Definition swap (l : list Z) (i j : nat) : list Z :=
  match l !! i, l !! j with Some x, Some y => <[i := y]> (<[j := x]> l) | _, _ => l end.
Definition position (thread : Z) (l : list Z) : option nat := fst <$> list_find (λ x, x = thread) l.
Definition crashed_first (crashed_thread : option Z) (l : list Z) : list Z :=
  match crashed_thread with
  | None => l
  | Some thread => match position thread l with Some i => thread :: take i l ++ drop (S i) l | None => l end
  end.
Definition keep_crashed (crashed_thread : option Z) (l : list Z) : list Z :=
  match crashed_thread with
  | None => l
  | Some thread =>
      match position thread l with
      | Some i => if decide (MAX_CAPTURED_THREADS ≤ i)%nat then swap l (MAX_CAPTURED_THREADS - 1) i else l
      | None => l
      end
  end.

Fixpoint release_ports (l : list Z) : fm unit :=
  match l with
  | [] => mret tt
  | thread :: l => _ ← ask (release_port thread); _ ← step (PortReleased thread); release_ports l
  end.

Definition bare_thread (thread thread_id : Z) (name : option string) (crashed : bool) : RawThreadData :=
  mkThreadData thread thread_id name crashed None [] None.

Record ThreadInspection := mkInspection { inspected_threads : list RawThreadData; budget_diagnostics : list string }.

(** One thread, the bytes that remain, and whether the budget ended a stack. *)
Definition inspect_one (task thread : Z) (crashed_thread : option Z) (capture_stack_memory : bool) (remaining : Z)
    (exhausted : bool) (context : PluginContext) : fm (RawThreadData * Z * bool) :=
  let crashed := bool_decide (crashed_thread = Some thread) in
  identifier ← ask (thread_identifier thread);
  let thread_id := match identifier with Ok n => n | Err _ => 0 end in
  expired ← is_timed_out context;
  if (expired : bool) then mret (bare_thread thread thread_id None crashed, remaining, exhausted) else
  named ← ask (thread_name_of thread);
  let name := match named with Ok name => name | Err _ => None end in
  inspection ← inspect_thread task thread context;
  expired ← is_timed_out context;
  if (expired : bool) then mret (bare_thread thread thread_id name crashed, remaining, exhausted) else
  match inspection with
  | Err _ => mret (bare_thread thread thread_id name crashed, remaining, exhausted)
  | Ok (regs, trace) =>
      '(capture, remaining, exhausted) ← capture_stack capture_stack_memory task regs remaining exhausted context;
      mret (mkThreadData thread thread_id name crashed (Some regs) trace capture, remaining, exhausted)
  end.

Fixpoint inspect_each (task : Z) (crashed_thread : option Z) (capture_stack_memory : bool) (context : PluginContext)
    (threads : list Z) (inspected : list RawThreadData) (remaining : Z) (exhausted : bool)
    : fm (list RawThreadData * bool) :=
  match threads with
  | [] => mret (inspected, exhausted)
  | thread :: threads =>
      '(data, remaining, exhausted) ← inspect_one task thread crashed_thread capture_stack_memory remaining exhausted context;
      inspect_each task crashed_thread capture_stack_memory context threads (inspected ++ [data]) remaining exhausted
  end.

Definition inspect_all_threads (task : Z) (crashed_thread : option Z) (capture_stack_memory : bool) (context : PluginContext)
    : fm ThreadInspection :=
  listed ← ask (task_threads task);
  match listed with
  | Err e => _ ← log ("[monitor] Failed to enumerate threads: " +:+ e)%string; mret (mkInspection [] [])
  | Ok threads =>
      _ ← step (ThreadsListed threads);
      '(threads, limited) ←
        (if decide (MAX_CAPTURED_THREADS < length threads)%nat then
           let threads := keep_crashed crashed_thread threads in
           _ ← release_ports (drop MAX_CAPTURED_THREADS threads);
           _ ← log ("[monitor] ThreadCollector: truncated thread list to " +:+ pretty MAX_CAPTURED_THREADS +:+ " entries")%string;
           mret (take MAX_CAPTURED_THREADS threads,
                 [("thread budget exceeded; retained " +:+ pretty MAX_CAPTURED_THREADS +:+ " threads")%string])
         else mret (threads, []));
      '(inspected, exhausted) ← inspect_each task crashed_thread capture_stack_memory context (crashed_first crashed_thread threads)
                                  [] MAX_TOTAL_STACK_BYTES false;
      mret (mkInspection inspected (limited ++
        if (exhausted : bool) then [("stack budget exceeded; retained at most " +:+ pretty MAX_TOTAL_STACK_BYTES +:+ " bytes")%string]
        else []))
  end.

(** The collector: the threads are kept also when the budget or the deadline ended it. *)
Definition join_with (separator : string) (l : list string) : string := String.concat separator l.
Definition collect_threads (event : CrashEvent) (task : Z) (capture_stack_memory : bool) (context : PluginContext)
    (previous : list RawThreadData) : fm (result string unit * list RawThreadData) :=
  checked ← checkpoint context;
  match checked with
  | Err error => mret (Err error, previous)
  | Ok _ =>
      inspection ← inspect_all_threads task (crashed_thread event) capture_stack_memory context;
      checked ← checkpoint context;
      mret (match checked with
            | Err error => Err error
            | Ok _ => if decide (budget_diagnostics inspection = []) then Ok tt
                      else Err (join_with "; " (budget_diagnostics inspection))
            end, inspected_threads inspection)
  end.

End Threads.
End Threads.

(** ** The account of captured threads

    Every thread port that the kernel listed is either released or in the capture, and the
    capture keeps within its budgets. *)

Module ThreadsSpec.
Export Threads.
Export TargetAccessSpec.
#[local] Open Scope Z_scope.

(** ** Ports and budgets *)

(** The ports that were released. *)
Definition released (l : list TargetStep) : list Z := omap (λ s, match s with PortReleased p => Some p | _ => None end) l.

Definition stack_length (d : RawThreadData) : Z :=
  match stack_capture d with Some c => Z.of_nat (length (stack_bytes c)) | None => 0 end.
Definition stack_total (l : list RawThreadData) : Z := foldr Z.add 0 (map stack_length l).

(** A stack of at most 64 KiB, and at most 128 frames behind the program counter, at
    addresses without authentication bits. *)
Definition bounded_thread (d : RawThreadData) : Prop :=
  0 ≤ stack_length d ≤ MAX_STACK_BYTES ∧ (length (backtrace d) ≤ S MAX_FRAMES)%nat ∧
  Forall (λ a, 0 ≤ a ≤ CANONICAL_ADDRESS) (drop 1 (backtrace d)) ∧
  (registers d = None → backtrace d = [] ∧ stack_capture d = None).

Definition accounted (crashed_thread : option Z) (l : list TargetStep) (threads : list RawThreadData) : Prop :=
  ∃ ports l', l = ThreadsListed ports :: l' ∧ (∀ ps, ThreadsListed ps ∉ l') ∧
    map thread_port threads ++ released l' ≡ₚ ports ∧
    (length threads = Nat.min MAX_CAPTURED_THREADS (length ports))%nat ∧
    (∀ t, crashed_thread = Some t → t ∈ ports → ∃ d ds, threads = d :: ds ∧ thread_port d = t) ∧
    Forall (λ d, crashed d = true ↔ crashed_thread = Some (thread_port d)) threads ∧
    Forall bounded_thread threads ∧ stack_total threads ≤ MAX_TOTAL_STACK_BYTES.

Section Spec.
Context {E : Type} {clock : Clock E} {target : TargetOps E} {Txn Ctx : Type}.
#[local] Notation fm := (fueled E TargetStep).
#[local] Notation PluginContext := (PluginContext Txn Ctx).

(** ** One thread *)

Lemma land_canonical a : 0 ≤ Z.land a CANONICAL_ADDRESS ≤ CANONICAL_ADDRESS.
Proof.
  unfold CANONICAL_ADDRESS. change (2 ^ 48 - 1) with (Z.ones 48). rewrite Z.land_ones by lia.
  pose proof (Z.mod_pos_bound a (2 ^ 48) eq_refl). change (Z.ones 48) with (2 ^ 48 - 1). lia.
Qed.

Lemma inspects_walk depth task fp (context : PluginContext) frames n :
  (length frames + depth ≤ n)%nat → Forall (λ a, 0 ≤ a ≤ CANONICAL_ADDRESS) frames →
  inspects (λ r, ∀ l, r = Ok l → (length l ≤ n)%nat ∧ Forall (λ a, 0 ≤ a ≤ CANONICAL_ADDRESS) l)
    (walk_backtrace depth task fp context frames).
Proof.
  revert fp frames. induction depth as [|depth IH]; intros fp frames Hn Hf; cbn [walk_backtrace].
  { apply inspects_ret. intros l [= <-]. split; [lia|done]. }
  assert (inspects (λ r : result string (list Z), ∀ l, r = Ok l → (length l ≤ n)%nat ∧ Forall (λ a, 0 ≤ a ≤ CANONICAL_ADDRESS) l) (mret (Ok frames) : fm _)) as Hstop.
  { apply inspects_ret. intros l [= <-]. split; [lia|done]. }
  apply inspects_check. case_decide; [done|]. case_match; [|done].
  assert (∀ a, inspects (λ _, True) (read_u64 task a)) as Hread.
  { intros a. unfold read_u64. eapply inspects_any; [apply inspects_vm_read|]. intros r. by apply inspects_ret. }
  eapply inspects_any; [apply Hread|]. intros [lr|]; [|done]. case_decide; [done|].
  assert (Forall (λ a, 0 ≤ a ≤ CANONICAL_ADDRESS) (frames ++ [Z.land lr CANONICAL_ADDRESS])) as Hf'.
  { apply Forall_app. split; [done|]. constructor; [apply land_canonical|done]. }
  assert (length (frames ++ [Z.land lr CANONICAL_ADDRESS]) + depth ≤ n)%nat as Hn' by (rewrite length_app; cbn; lia).
  assert (inspects (λ r : result string (list Z), ∀ l, r = Ok l → (length l ≤ n)%nat ∧ Forall (λ a, 0 ≤ a ≤ CANONICAL_ADDRESS) l)
    (mret (Ok (frames ++ [Z.land lr CANONICAL_ADDRESS])) : fm _)) as Hstop'.
  { apply inspects_ret. intros l [= <-]. split; [lia|done]. }
  eapply inspects_any; [apply Hread|]. intros [prev|]; [|done]. case_decide; [done|]. by apply IH.
Qed.

Lemma inspects_registers thread (context : PluginContext) : inspects (λ _, True) (get_registers thread context).
Proof.
  assert (∀ state names regs, inspects (λ r, ∀ m, r = Ok m → True) (general_registers context state names regs)) as Hgen.
  { intros state names. induction names as [|[i name] names IH]; intros regs; cbn [general_registers]; [by apply inspects_ret|].
    apply inspects_check. apply IH. }
  apply (inspects_impl (λ r, ∀ m, r = Ok m → True)); [|done]. unfold get_registers. apply inspects_check.
  apply (inspects_try (λ _, True)).
  { unfold get_thread_state. apply (inspects_try (λ _, True)); [|intros; by apply inspects_ret].
    eapply inspects_impl; [apply inspects_ask|done]. }
  intros state _. apply inspects_check. apply (inspects_try (λ _, True)); [apply Hgen|]. intros regs _. by apply inspects_ret.
Qed.

Lemma inspects_inspect task thread (context : PluginContext) :
  inspects (λ r, ∀ regs trace, r = Ok (regs, trace) →
    (length trace ≤ S MAX_FRAMES)%nat ∧ Forall (λ a, 0 ≤ a ≤ CANONICAL_ADDRESS) (drop 1 trace)) (inspect_thread task thread context).
Proof.
  apply (inspects_impl (λ r, ∀ b : gmap string Z * list Z, r = Ok b →
    (length b.2 ≤ S MAX_FRAMES)%nat ∧ Forall (λ a, 0 ≤ a ≤ CANONICAL_ADDRESS) (drop 1 b.2))).
  2: { intros r H regs trace Hr. exact (H _ Hr). }
  unfold inspect_thread. apply inspects_check.
  apply (inspects_try (λ _, True)); [eapply inspects_impl; [apply inspects_registers|done]|]. intros regs _.
  eapply (inspects_try (λ l, (length l ≤ MAX_FRAMES)%nat ∧ Forall (λ a, 0 ≤ a ≤ CANONICAL_ADDRESS) l)).
  - by apply inspects_walk.
  - intros l [Hl Hf]. apply inspects_ret. intros b [= <-]. cbn. split; [lia|done].
Qed.

(** ** Its stack *)

Definition stack_within (remaining : Z) (outcome : option RawStackCapture * Z * bool) : Prop :=
  let '(capture, remaining', _) := outcome in
  let n := match capture with Some c => Z.of_nat (length (stack_bytes c)) | None => 0 end in
  n ≤ MAX_STACK_BYTES ∧ n + remaining' = remaining ∧ 0 ≤ remaining'.

Lemma inspects_size task sp : inspects (λ n, 0 < n ≤ MAX_STACK_BYTES) (compute_read_size task sp).
Proof.
  unfold compute_read_size. eapply inspects_any; [apply inspects_query|]. intros [region|kr]; apply inspects_ret; [|unfold MAX_STACK_BYTES; lia].
  cbv zeta. case_decide; unfold MAX_STACK_BYTES; lia.
Qed.

Lemma inspects_stack task sp remaining (context : PluginContext) :
  0 ≤ remaining →
  inspects (λ r, ∀ b : RawStackCapture * bool, r = Ok b →
    Z.of_nat (length (stack_bytes b.1)) ≤ Z.min MAX_STACK_BYTES remaining) (read_stack_memory task sp remaining context).
Proof.
  intros Hr. unfold read_stack_memory. apply (inspects_check (λ b : RawStackCapture * bool, _)). case_decide; [by apply inspects_ret|].
  eapply inspects_bind; [apply inspects_size|]. intros desired Hd. case_decide; [by apply inspects_ret|].
  eapply inspects_bind; [apply inspects_vm_read|]. intros [bytes|e] Hb; [|by apply inspects_ret].
  apply (inspects_check (λ b : RawStackCapture * bool, _)). apply inspects_ret. intros b [= <-]. cbn [fst stack_bytes].
  cbn beta in *. rewrite (Hb bytes eq_refl). lia.
Qed.

Lemma inspects_capture flag task regs remaining exhausted (context : PluginContext) :
  0 ≤ remaining → inspects (stack_within remaining) (capture_stack flag task regs remaining exhausted context).
Proof.
  intros Hr. unfold capture_stack.
  assert (∀ b, stack_within remaining (None, remaining, b)) as Hnone by (intros b; unfold stack_within, MAX_STACK_BYTES; cbn; lia).
  case_match; [|by apply inspects_ret]. case_decide; [by apply inspects_ret|].
  eapply inspects_bind; [by apply inspects_stack|]. intros [[c limited]|e] Hc; apply inspects_ret; [|done].
  specialize (Hc (c, limited) eq_refl). unfold stack_within. cbn in *. lia.
Qed.

(** ** The list *)

Definition captured (thread : Z) (crashed_thread : option Z) (remaining : Z) (out : RawThreadData * Z * bool) : Prop :=
  let '(d, remaining', _) := out in
  thread_port d = thread ∧ (crashed d = true ↔ crashed_thread = Some thread) ∧ bounded_thread d ∧
  stack_length d + remaining' = remaining ∧ 0 ≤ remaining'.

Lemma captured_bare thread crashed_thread remaining n name exhausted :
  0 ≤ remaining →
  captured thread crashed_thread remaining (bare_thread thread n name (bool_decide (crashed_thread = Some thread)), remaining, exhausted).
Proof.
  intros Hr. split_and!; try done; cbn; [apply bool_decide_eq_true|unfold bounded_thread, stack_length, MAX_STACK_BYTES; cbn].
  split_and!; [lia|lia|lia|constructor|done].
Qed.

Lemma inspects_one task thread crashed_thread flag remaining exhausted (context : PluginContext) :
  0 ≤ remaining →
  inspects (captured thread crashed_thread remaining) (inspect_one task thread crashed_thread flag remaining exhausted context).
Proof.
  intros Hr. unfold inspect_one. eapply inspects_any; [apply inspects_ask|]. intros identifier.
  eapply inspects_any; [apply inspects_timed_out|]. intros []; [apply inspects_ret; by apply captured_bare|].
  eapply inspects_any; [apply inspects_ask|]. intros named. eapply inspects_bind; [apply inspects_inspect|]. intros inspection Hi.
  eapply inspects_any; [apply inspects_timed_out|]. intros []; [apply inspects_ret; by apply captured_bare|].
  destruct inspection as [[regs trace]|error]; [|apply inspects_ret; by apply captured_bare].
  eapply inspects_bind; [by apply inspects_capture|]. intros [[capture remaining'] exhausted'] (H1 & H2 & H3). apply inspects_ret.
  destruct (Hi regs trace eq_refl) as [Hl Hf].
  split_and!; try done; cbn; [apply bool_decide_eq_true|]. unfold bounded_thread, stack_length. cbn.
  split_and!; [destruct capture; lia|done|done|done|done].
Qed.

Lemma stack_total_app l l' : stack_total (l ++ l') = stack_total l + stack_total l'.
Proof. unfold stack_total. rewrite map_app, foldr_app. induction l as [|d l IH]; cbn; [done|]. rewrite IH. lia. Qed.

Lemma inspects_each task crashed_thread flag (context : PluginContext) l inspected remaining exhausted :
  0 ≤ remaining → stack_total inspected + remaining = MAX_TOTAL_STACK_BYTES →
  inspects (λ out : list RawThreadData * bool, ∃ new, out.1 = inspected ++ new ∧ map thread_port new = l ∧
      Forall (λ d, crashed d = true ↔ crashed_thread = Some (thread_port d)) new ∧ Forall bounded_thread new ∧
      stack_total (inspected ++ new) ≤ MAX_TOTAL_STACK_BYTES)
    (inspect_each task crashed_thread flag context l inspected remaining exhausted).
Proof.
  revert inspected remaining exhausted. induction l as [|thread l IH]; intros inspected remaining exhausted Hr Ht; cbn [inspect_each].
  { apply inspects_ret. exists []. rewrite app_nil_r. split_and!; try done. lia. }
  eapply inspects_bind; [by apply inspects_one|]. intros [[d remaining'] exhausted'] (H1 & H2 & H3 & H4 & H5).
  eapply inspects_impl; [apply (IH (inspected ++ [d])); [done|rewrite stack_total_app; unfold stack_total at 2; cbn; lia]|].
  intros [threads b] (new & -> & H6 & H7 & H8 & H9). exists (d :: new). rewrite <-app_assoc in H9 |- *. cbn in *.
  split_and!; [done|by rewrite H1, H6|constructor; [by rewrite H1|done]|by constructor|done].
Qed.

End Spec.

(** ** Orders *)

Lemma position_split thread l i : position thread l = Some i → l = take i l ++ thread :: drop (S i) l.
Proof.
  unfold position. destruct (list_find (λ x, x = thread) l) as [[j y]|] eqn:Hf; [|done]. intros [= <-].
  apply list_find_Some in Hf as (Hl & -> & _). cbn [fst]. symmetry. by apply take_drop_middle.
Qed.
Lemma position_none thread l : position thread l = None → thread ∉ l.
Proof.
  unfold position. destruct (list_find (λ x, x = thread) l) eqn:Hf; [done|]. intros _ Hin.
  apply list_find_None in Hf. rewrite Forall_forall in Hf. by apply (Hf thread).
Qed.

Lemma crashed_first_perm crashed_thread l : crashed_first crashed_thread l ≡ₚ l.
Proof.
  unfold crashed_first. destruct crashed_thread as [thread|]; [|done]. destruct (position thread l) as [i|] eqn:Hp; [|done].
  rewrite (position_split _ _ _ Hp) at 3. by rewrite Permutation_middle.
Qed.

Lemma delete_insert_same (l : list Z) i x : delete i (<[i := x]> l) = delete i l.
Proof. revert i. induction l as [|y l IH]; intros [|i]; [done..|]. cbn. by rewrite IH. Qed.

Lemma insert_perm (l : list Z) i x y : l !! i = Some y → <[i := x]> l ≡ₚ x :: delete i l.
Proof.
  intros Hi. rewrite (delete_Permutation (<[i := x]> l) i x) by (apply list_lookup_insert_eq; by eapply lookup_lt_Some).
  by rewrite delete_insert_same.
Qed.

Lemma swap_perm l i j : swap l i j ≡ₚ l.
Proof.
  unfold swap. destruct (l !! i) as [x|] eqn:Hi; [|done]. destruct (l !! j) as [y|] eqn:Hj; [|done].
  destruct (decide (i = j)) as [->|Hij].
  - simplify_eq. rewrite (list_insert_id l) by done. by rewrite list_insert_id.
  - assert (<[j := x]> l !! i = Some x) as Hm by by rewrite list_lookup_insert_ne.
    rewrite (insert_perm _ _ _ _ Hm). pose proof (insert_perm l j x y Hj) as H1.
    rewrite (delete_Permutation _ _ _ Hm) in H1. apply Permutation_cons_inv in H1. rewrite H1.
    by rewrite <-(delete_Permutation _ _ _ Hj).
Qed.

Lemma keep_crashed_perm crashed_thread l : keep_crashed crashed_thread l ≡ₚ l.
Proof. unfold keep_crashed. repeat case_match; try done. apply swap_perm. Qed.

(** The crashed thread survives the cut. *)
Lemma keep_crashed_kept thread l :
  thread ∈ l → thread ∈ take MAX_CAPTURED_THREADS (keep_crashed (Some thread) l).
Proof.
  intros Hin. unfold keep_crashed. destruct (position thread l) as [i|] eqn:Hp; [|by apply position_none in Hp].
  assert (l !! i = Some thread) as Hi.
  { unfold position in Hp. destruct (list_find (λ x, x = thread) l) as [[j y]|] eqn:Hf; [|done].
    apply list_find_Some in Hf as (Hl & -> & _). by injection Hp as <-. }
  case_decide as Hmax.
  - assert (is_Some (l !! (MAX_CAPTURED_THREADS - 1)%nat)) as [x Hx].
    { apply lookup_lt_is_Some. apply lookup_lt_Some in Hi. unfold MAX_CAPTURED_THREADS in *. lia. }
    unfold swap. rewrite Hx, Hi. apply (list_elem_of_lookup_2 _ (MAX_CAPTURED_THREADS - 1)).
    rewrite lookup_take_lt by (unfold MAX_CAPTURED_THREADS; lia). apply list_lookup_insert_eq.
    rewrite length_insert. by eapply lookup_lt_Some.
  - apply (list_elem_of_lookup_2 _ i). rewrite lookup_take_lt by lia. done.
Qed.

(** The crashed thread comes first. *)
Lemma crashed_first_head thread l : thread ∈ l → ∃ l', crashed_first (Some thread) l = thread :: l'.
Proof.
  intros Hin. unfold crashed_first. destruct (position thread l) as [i|] eqn:Hp; [by eexists|]. by apply position_none in Hp.
Qed.

(** ** All threads *)

Section All.
Context {E : Type} {clock : Clock E} {target : TargetOps E} {Txn Ctx : Type}.
#[local] Notation fm := (fueled E TargetStep).
#[local] Notation PluginContext := (PluginContext Txn Ctx).

Lemma reading_released l : Forall reading l → released l = [] ∧ ∀ ps, ThreadsListed ps ∉ l.
Proof.
  intros Hl. induction Hl as [|s l Hs _ [IH1 IH2]]; [split; [done|]; intros ps; apply not_elem_of_nil|].
  split; [by destruct s|]. intros ps [Heq|Hin]%elem_of_cons; [by subst|by eapply IH2].
Qed.

Lemma released_app l l' : released (l ++ l') = released l ++ released l'.
Proof. apply omap_app. Qed.

Lemma ends_release l : ends (λ t _, t = map PortReleased l) (release_ports l : fm unit).
Proof.
  induction l as [|thread l IH]; cbn [release_ports]; [by apply ends_ret|].
  apply ends_quiet; [apply quiet_ask|]. intros _. apply ends_step. eapply ends_impl; [exact IH|]. by intros t [] ->.
Qed.

Lemma ends_all task crashed_thread flag (context : PluginContext) :
  ends (λ l inspection, (Forall reading l ∧ inspected_threads inspection = []) ∨ accounted crashed_thread l (inspected_threads inspection))
    (inspect_all_threads task crashed_thread flag context).
Proof.
  unfold inspect_all_threads. apply ends_quiet; [apply quiet_ask|]. intros [ports|e].
  2: { unfold log. apply ends_step, ends_ret. left. by repeat constructor. }
  apply ends_step.
  apply (ends_bind (λ l out, (∀ ps, ThreadsListed ps ∉ l) ∧ out.1 ++ released l ≡ₚ ports ∧
    length out.1 = Nat.min MAX_CAPTURED_THREADS (length ports) ∧ (∀ t, crashed_thread = Some t → t ∈ ports → t ∈ out.1))).
  - case_decide as Hmax.
    + eapply ends_bind; [apply ends_release|]. intros l [] ->. unfold log. apply ends_step, ends_ret. cbn [fst].
      set (kept := keep_crashed crashed_thread ports).
      assert (kept ≡ₚ ports) as Hperm by apply keep_crashed_perm.
      assert (released (map PortReleased (drop MAX_CAPTURED_THREADS kept)) = drop MAX_CAPTURED_THREADS kept) as Hrel.
      { generalize (drop MAX_CAPTURED_THREADS kept). intros l. induction l as [|x l IH]; [done|]. cbn. by f_equal. }
      split_and!.
      * intros ps [Hin|Hin]%elem_of_app; [by apply list_elem_of_fmap in Hin as (? & ? & _)|set_solver].
      * rewrite released_app, Hrel, app_nil_r. by rewrite take_drop.
      * rewrite length_take. by rewrite Hperm.
      * intros t -> Hin. by apply keep_crashed_kept.
    + apply ends_ret. split_and!; [set_solver|by rewrite app_nil_r|cbn [fst]; lia|done].
  - intros l [threads limited] (Hl & Hp & Hlen & Hc). cbn [fst] in *.
    eapply ends_bind; [by apply inspects_each|].
    intros l' [inspected exhausted] [Hl' (new & Hnew & H1 & H2 & H3 & H4)]. cbn [fst app] in *. subst inspected. apply ends_ret. right.
    destruct (reading_released _ Hl') as [Hr1 Hr2]. cbn [inspected_threads].
    exists ports, (l ++ l' ++ []). rewrite app_nil_r. split_and!; try done.
    + intros ps [Hin|Hin]%elem_of_app; [by eapply Hl|by eapply Hr2].
    + rewrite released_app, Hr1, app_nil_r, H1. by rewrite crashed_first_perm.
    + rewrite <-(length_map thread_port), H1, <-Hlen. by rewrite crashed_first_perm.
    + intros t -> Hin. destruct (crashed_first_head t threads (Hc t eq_refl Hin)) as [rest Hrest]. rewrite Hrest in H1.
      destruct new as [|d ds]; [done|]. exists d, ds. by injection H1.
Qed.

(** ** Answers *)

Lemma total_registers thread (context : PluginContext) : total (get_registers thread context).
Proof.
  assert (∀ state names regs, total (general_registers context state names regs)) as Hgen.
  { intros state names. induction names as [|[i name] names IH]; intros regs; cbn [general_registers]; answer. }
  unfold get_registers, get_thread_state. answer.
Qed.
Lemma total_read_u64 task a : total (read_u64 task a).
Proof. unfold read_u64. answer. Qed.
#[local] Hint Resolve total_registers total_read_u64 : cm.
Lemma total_walk depth task fp (context : PluginContext) frames : total (walk_backtrace depth task fp context frames).
Proof. revert fp frames. induction depth; intros; cbn [walk_backtrace]; answer. Qed.
#[local] Hint Resolve total_walk : cm.
Lemma total_inspect task thread (context : PluginContext) : total (inspect_thread task thread context).
Proof. unfold inspect_thread. answer. Qed.
Lemma total_capture flag task regs remaining exhausted (context : PluginContext) :
  total (capture_stack flag task regs remaining exhausted context).
Proof. unfold capture_stack, read_stack_memory, compute_read_size. answer. Qed.
#[local] Hint Resolve total_inspect total_capture : cm.
Lemma total_one task thread crashed_thread flag remaining exhausted (context : PluginContext) :
  total (inspect_one task thread crashed_thread flag remaining exhausted context).
Proof. unfold inspect_one. answer. Qed.
#[local] Hint Resolve total_one : cm.
Lemma total_each task crashed_thread flag (context : PluginContext) l inspected remaining exhausted :
  total (inspect_each task crashed_thread flag context l inspected remaining exhausted).
Proof. revert inspected remaining exhausted. induction l; intros; cbn [inspect_each]; answer. Qed.
Lemma total_release l : total (release_ports l : fm unit).
Proof. induction l; cbn [release_ports]; answer. Qed.
#[local] Hint Resolve total_each total_release : cm.
Lemma total_all task crashed_thread flag (context : PluginContext) : total (inspect_all_threads task crashed_thread flag context).
Proof. unfold inspect_all_threads, log. answer. Qed.

End All.

(** C31. The capture of threads always answers. Every thread port that the kernel handed out
    is in the capture or was released, exactly once, whatever fails or expires in between;
    no more than 512 are kept, the crashed thread among them and first, and only it is
    marked as crashed. Each stack has at most 64 KiB and all of them at most 8 MiB, and a
    backtrace has at most the program counter and 128 return addresses, which are without
    authentication bits. When the kernel refuses the list, nothing is captured and nothing released. *)
Theorem thread_ports_accounted {E : Type} {clock : Clock E} {target : TargetOps E} {Txn Ctx : Type} (task : Z)
    (crashed_thread : option Z) (capture_stack_memory : bool) (context : PluginContext Txn Ctx) (w : World E TargetStep) :
  ∃ inspection w' l,
    inspect_all_threads task crashed_thread capture_stack_memory context w = (Some inspection, w') ∧ trace w' = trace w ++ l ∧
    (Forall reading l ∧ inspected_threads inspection = [] ∨ accounted crashed_thread l (inspected_threads inspection)).
Proof.
  apply (settled_ends (budget := λ _, 0%nat) 1); [apply total_all|apply ends_all|lia].
Qed.

End ThreadsSpec.
