(* ===== verification/Images.v ===== *)
(** * Loaded images of a captured task (src/collectors/dylib.rs)

    The list of dyld's images, their Mach-O headers with load commands, and the resolution
    of addresses. All bytes come from the captured task and are untrusted. *)

From Stdlib Require Import Ascii.
From stdpp Require Import strings pretty.
From stdpp Require Import strings.
From S2P Require Import Prelude.
From S2P Require Import Traced.
From S2P Require Import Fueled.
From S2P Require Import ShmReader.
From S2P Require Import PipelineTypes.
From S2P Require Import PluginRun.
From S2P Require Import TargetAccess.
From S2P Require Import Terminal.
From S2P Require Import ShmLayout.
From S2P Require Import ShmSnapshot.
From S2P Require Import ShmFacts.

Module Images.
Export TargetAccess.
#[local] Open Scope Z_scope.

Definition TASK_DYLD_INFO : Z := 17.
Definition TASK_DYLD_INFO_WORDS : Z := 5.
Definition ALL_IMAGE_INFOS_SIZE : Z := 16.
Definition IMAGE_INFO_SIZE : Z := 24.
Definition MAX_IMAGES : Z := 2000.
Definition MAX_PATH_BYTES : Z := 512.
Definition MAX_COMMAND_BYTES : Z := 1024 * 1024.

Definition MH_MAGIC_64 : Z := 4277009103.
Definition LC_SEGMENT_64 : Z := 25.
Definition LC_UUID : Z := 27.

(** ** Lists of images *)

Definition from_option {A : Type} (o : option A) (error : string) : result string A :=
  match o with Some a => Ok a | None => Err error end.

Definition parse_all_image_infos (bytes : list Z) : result string (Z * Z) :=
  if decide (Z.of_nat (length bytes) < 16) then
    Err ("DyldAllImageInfos64 buffer too small: " +:+ pretty (length bytes))%string
  else
    count ← from_option (read_u32_le bytes 4) "failed to parse info_array_count"%string;
    array ← from_option (read_u64_le bytes 8) "failed to parse info_array"%string;
    Ok (array, count).

Definition parse_image_info (bytes : list Z) (offset : Z) : result string (Z * Z) :=
  if decide (Z.of_nat (length bytes) < offset + 16) then
    Err ("DyldImageInfo64 at offset " +:+ pretty offset +:+ " exceeds buffer (len=" +:+ pretty (length bytes) +:+ ")")%string
  else
    load_addr ← from_option (read_u64_le bytes offset) "failed to parse image_load_address"%string;
    path_addr ← from_option (read_u64_le bytes (offset + 8)) "failed to parse image_file_path"%string;
    Ok (load_addr, path_addr).

(** ** Load commands *)

(** What the load commands tell: the last UUID, the complete segments in order, and the
    last text segment. *)
Record Commands := mkCommands {
  command_uuid : option string;
  parsed_segments : list (string * Z * Z);
  text_segment : option (Z * Z)
}.

Fixpoint format_uuid_from (index : nat) (bytes : list Z) : string :=
  match bytes with
  | [] => EmptyString
  | b :: bytes =>
      ((if bool_decide (index ∈ [4; 6; 8; 10]%nat) then "-" else "") +:+ Terminal.hex02 (Z.to_nat b) +:+
       format_uuid_from (S index) bytes)%string
  end.
Definition format_uuid (bytes : list Z) : string := format_uuid_from 0 bytes.

Definition command_range (command : list Z) (from to : nat) : list Z := take (to - from) (drop from command).
Definition until_nul (bytes : list Z) : list Z := default bytes (before_nul bytes).

(** One complete command. *)
Definition parse_command (command : list Z) (cmd cmdsize : Z) (c : Commands) : Commands :=
  if decide (cmd = LC_SEGMENT_64 ∧ 72 ≤ cmdsize) then
    let segname_bytes := until_nul (command_range command 8 24) in
    match utf8_decode segname_bytes with
    | None => c
    | Some _ =>
        let segname := byte_string segname_bytes in
        let vmaddr := default 0 (read_u64_le command 24) in
        let vmsize := default 0 (read_u64_le command 32) in
        mkCommands (command_uuid c) (parsed_segments c ++ [(segname, vmaddr, vmsize)])
          (if decide (segname = "__TEXT"%string) then Some (vmaddr, vmsize) else text_segment c)
    end
  else if decide (cmd = LC_UUID ∧ 24 ≤ cmdsize) then
    mkCommands (Some (format_uuid (command_range command 8 24))) (parsed_segments c) (text_segment c)
  else c.

(** The complete command at an offset, and the offset behind it. *)
Definition command_at (cmds : list Z) (offset : Z) : option (list Z * Z * Z) :=
  if decide (Z.of_nat (length cmds) < offset + 8) then None else
  cmd ← read_u32_le cmds offset;
  cmdsize ← read_u32_le cmds (offset + 4);
  if decide (cmdsize < 8) then None else
  command ← get_range cmds offset cmdsize;
  Some (command, cmd, cmdsize).

Definition architecture_name (cpu : Z) : string :=
  if decide (cpu = 16777228) then "arm64"%string
  else if decide (cpu = 16777223) then "x86_64"%string
  else ("cpu_" +:+ hex cpu)%string.

Definition u64_checked_sub (a b : Z) : option Z := if decide (b ≤ a) then Some (a - b) else None.

(** The runtime ranges of segments under a slide; empty and overflowing ones go. *)
Definition runtime_segments (slide : Z) (segments : list (string * Z * Z)) : list RawImageSegment :=
  omap (λ '(name, vmaddr, vmsize),
    start ← u64_checked_add vmaddr slide;
    fin ← u64_checked_add start vmsize;
    if decide (start < fin) then Some (mkImageSegment name start fin) else None) segments.

Definition with_uuid (u : option string) (image : RawImageData) : RawImageData :=
  mkImageData (image_path image) (base_address image) (slide image) (match u with Some _ => u | None => uuid image end)
    (architecture image) (text_start image) (text_end image) (segments image).
Definition with_architecture (a : option string) (image : RawImageData) : RawImageData :=
  mkImageData (image_path image) (base_address image) (slide image) (uuid image) a (text_start image) (text_end image) (segments image).

(** The slide and the ranges, when a text segment lies at or below the base. *)
Definition apply_commands (c : Commands) (image : RawImageData) : RawImageData :=
  match text_segment c with
  | None => image
  | Some (text_vmaddr, text_vmsize) =>
      match u64_checked_sub (base_address image) text_vmaddr with
      | None => image
      | Some slide =>
          let text_start := u64_checked_add text_vmaddr slide in
          mkImageData (image_path image) (base_address image) (Some slide) (uuid image) (architecture image) text_start
            (start ← text_start; u64_checked_add start text_vmsize) (runtime_segments slide (parsed_segments c))
      end
  end.

Section Images.
Context {E : Type} {clock : Clock E} {target : TargetOps E} {Txn Ctx : Type}.
#[local] Notation fm := (fueled E TargetStep).
#[local] Notation PluginContext := (PluginContext Txn Ctx).

(** ** Strings of the task *)

Fixpoint read_c_string_with (chunks : list Z) (task address max_len : Z) (context : PluginContext) (last_prefix : option string)
    : fm (result string string) :=
  match chunks with
  | [] =>
      mret match last_prefix with
           | Some prefix => Ok prefix
           | None => Err ("read_c_string at " +:+ hex address +:+ ": all progressive reads failed")%string
           end
  | chunk :: chunks =>
      _ ←? checkpoint context;
      let try_len := Z.min chunk max_len in
      r ← vm_read task address try_len;
      let candidate := match r with
                       | Ok bytes | Err (Partial _ bytes) => Some bytes
                       | Err (PlatformError _) => None
                       end in
      match candidate with
      | None => read_c_string_with chunks task address max_len context last_prefix
      | Some bytes =>
          _ ←? checkpoint context;
          match before_nul bytes with
          | Some text => mret (Ok (lossy_string text))
          | None =>
              let prefix := lossy_string bytes in
              if decide (max_len ≤ try_len) then mret (Ok prefix)
              else read_c_string_with chunks task address max_len context (Some prefix)
          end
      end
  end.

Definition read_c_string (task address max_len : Z) (context : PluginContext) : fm (result string string) :=
  read_c_string_with [128; 512; max_len] task address max_len context None.

(** ** The images *)

(** [map_err] with a text. *)
Definition or_text {e A : Type} (text : e → string) (m : fm (result e A)) : fm (result string A) :=
  r ← m; mret (map_err text r).

Definition new_image (path : string) (load_addr : Z) : RawImageData := mkImageData path load_addr None None None None None [].

Fixpoint read_images (indexes : list Z) (task : Z) (array_bytes : list Z) (context : PluginContext) (images : list RawImageData)
    : fm (result string (list RawImageData)) :=
  match indexes with
  | [] => mret (Ok images)
  | i :: indexes =>
      _ ←? checkpoint context;
      '(load_addr, path_addr) ←? mret (parse_image_info array_bytes (i * IMAGE_INFO_SIZE));
      read ← read_c_string task path_addr MAX_PATH_BYTES context;
      let path := match read with Ok path => path | Err _ => ("<unreadable@" +:+ hex path_addr +:+ ">")%string end in
      _ ←? checkpoint context;
      read_images indexes task array_bytes context (images ++ [new_image path load_addr])
  end.

Definition by_base (a b : RawImageData) : bool := bool_decide (base_address a ≤ base_address b).

(** The words of [task_info] as bytes. *)
Definition word_bytes (word : Z) : list Z :=
  [word mod 256; (word / 256) mod 256; (word / 65536) mod 256; (word / 16777216) mod 256].

Definition enumerate_loaded_images (task : Z) (context : PluginContext) : fm (result string (list RawImageData)) :=
  _ ←? checkpoint context;
  '(words, returned) ←? or_text (λ e, "task_info(TASK_DYLD_INFO) failed: " +:+ e)%string
                           (ask (info_words task TASK_DYLD_INFO TASK_DYLD_INFO_WORDS));
  if decide (returned ≠ TASK_DYLD_INFO_WORDS) then
    mret (Err ("task_info(TASK_DYLD_INFO) returned " +:+ pretty returned +:+ " words; expected " +:+
                 pretty TASK_DYLD_INFO_WORDS)%string)
  else
  _ ←? checkpoint context;
  infos_addr ←? mret (from_option (read_u64_le (concat (map word_bytes words)) 0) "failed to parse all_image_info_addr"%string);
  if decide (infos_addr = 0) then mret (Err "dyld_all_image_infos address is NULL"%string) else
  infos_bytes ←? or_text (λ e, "Failed to read dyld_all_image_infos: " +:+ vm_read_error_text e)%string
                   (vm_read task infos_addr ALL_IMAGE_INFOS_SIZE);
  _ ←? checkpoint context;
  '(info_array, info_count) ←? mret (parse_all_image_infos infos_bytes);
  if decide (info_array = 0 ∨ info_count = 0) then mret (Ok []) else
  let info_count := Z.min info_count MAX_IMAGES in
  array_bytes ←? or_text (λ e, "Failed to read image info array: " +:+ vm_read_error_text e)%string
                   (vm_read task info_array (info_count * IMAGE_INFO_SIZE));
  _ ←? checkpoint context;
  images ←? read_images (seqZ 0 info_count) task array_bytes context [];
  mret (Ok (stable_sort by_base images)).

(** ** Their headers *)

(** The load commands up to the first incomplete one, and whether the context let them end.
    A command has at least eight bytes. *)
Fixpoint parse_commands (steps : nat) (ncmds : Z) (cmds : list Z) (offset : Z) (context : PluginContext) (c : Commands)
    : fm (Commands * bool) :=
  match steps with
  | O => starved
  | S steps =>
      if decide (ncmds ≤ 0) then mret (c, true) else
      checked ← checkpoint context;
      match checked with
      | Err _ => mret (c, false)
      | Ok _ =>
          match command_at cmds offset with
          | None => mret (c, true)
          | Some (command, cmd, cmdsize) =>
              parse_commands steps (ncmds - 1) cmds (offset + cmdsize) context (parse_command command cmd cmdsize c)
          end
      end
  end.

(** Every [return] keeps what was found so far. *)
Definition compute_image_metadata (task : Z) (image : RawImageData) (context : PluginContext) : fm RawImageData :=
  checked ← checkpoint context;
  match checked with
  | Err _ => mret image
  | Ok _ =>
      read ← vm_read task (base_address image) 32;
      match read with
      | Err _ => mret image
      | Ok header =>
          checked ← checkpoint context;
          match checked, read_u32_le header 0 with
          | Err _, _ | Ok _, None => mret image
          | Ok _, Some magic =>
              if decide (magic ≠ MH_MAGIC_64) then mret image else
              let image := with_architecture (architecture_name <$> read_u32_le header 4) image in
              match read_u32_le header 16, read_u32_le header 20, u64_checked_add (base_address image) 32 with
              | Some ncmds, Some sizeofcmds, Some commands_address =>
                  if decide (MAX_COMMAND_BYTES < sizeofcmds) then mret image else
                  read ← vm_read task commands_address sizeofcmds;
                  match read with
                  | Err (PlatformError _) => mret image
                  | Ok cmds | Err (Partial _ cmds) =>
                      checked ← checkpoint context;
                      match checked with
                      | Err _ => mret image
                      | Ok _ =>
                          '(c, ended) ← parse_commands (S (length cmds)) ncmds cmds 0 context (mkCommands None [] None);
                          let image := with_uuid (command_uuid c) image in
                          mret (if (ended : bool) then apply_commands c image else image)
                      end
                  end
              | _, _, _ => mret image
              end
          end
      end
  end.

(** The images before a failed checkpoint stay changed. *)
Fixpoint compute_all_slides (task : Z) (images : list RawImageData) (context : PluginContext)
    : fm (result string unit * list RawImageData) :=
  match images with
  | [] => mret (Ok tt, [])
  | image :: images =>
      checked ← checkpoint context;
      match checked with
      | Err error => mret (Err error, image :: images)
      | Ok _ =>
          image ← compute_image_metadata task image context;
          checked ← checkpoint context;
          match checked with
          | Err error => mret (Err error, image :: images)
          | Ok _ => '(r, images) ← compute_all_slides task images context; mret (r, image :: images)
          end
      end
  end.

(** [DylibCollector::collect]: [previous] is what the event had before. *)
Definition collect_images (task : Z) (context : PluginContext) (previous : list RawImageData)
    : fm (result string unit * list RawImageData) :=
  checked ← checkpoint context;
  match checked with
  | Err error => mret (Err error, previous)
  | Ok _ =>
      enumerated ← or_text (λ error, "dylib image enumeration failed: " +:+ error)%string (enumerate_loaded_images task context);
      match enumerated with
      | Err error => mret (Err error, previous)
      | Ok images =>
          checked ← checkpoint context;
          match checked with
          | Err error => mret (Err error, images)
          | Ok _ => compute_all_slides task images context
          end
      end
  end.

End Images.

(** ** Resolution *)

Definition in_text (address : Z) (image : RawImageData) : bool :=
  match text_start image, text_end image with
  | Some start, Some fin => bool_decide (start ≤ address < fin)
  | _, _ => false
  end.

(** The name behind the last slash. *)
Fixpoint last_component_from (current : string) (path : string) : string :=
  match path with
  | EmptyString => current
  | String c path => if decide (c = "/"%char) then last_component_from path path else last_component_from current path
  end.
Definition last_component (path : string) : string := last_component_from path path.

Definition resolve_address (images : list RawImageData) (address : Z) : option string * option Z :=
  match head (filter (λ image, in_text address image = true) images) with
  | None => (None, None)
  | Some image => (Some (last_component (image_path image)), Some (address - default (base_address image) (text_start image)))
  end.

End Images.

(** ** Headers and addresses of loaded images

    What the load commands of a Mach-O header say, read completely or up to a short read,
    and the ranges in which addresses are resolved. *)

Module ImagesSpec.
Export Images.
Export TargetAccessSpec.
#[local] Open Scope Z_scope.

(** ** Load commands and their encoding *)

(** The rest of a segment are its file range, its protection and its sections. *)
Inductive LoadCommand : Type :=
| Segment (segname : list Z) (vmaddr vmsize : Z) (rest : list Z)
| Uuid (bytes : list Z)
| OtherCommand (cmd : Z) (payload : list Z).

Definition command_number (c : LoadCommand) : Z :=
  match c with Segment _ _ _ _ => LC_SEGMENT_64 | Uuid _ => LC_UUID | OtherCommand cmd _ => cmd end.
Definition padded (segname : list Z) : list Z := segname ++ replicate (16 - length segname) 0.
Definition payload_of (c : LoadCommand) : list Z :=
  match c with
  | Segment segname vmaddr vmsize rest => padded segname ++ to_ne_bytes 8 vmaddr ++ to_ne_bytes 8 vmsize ++ rest
  | Uuid bytes => bytes
  | OtherCommand _ payload => payload
  end.
Definition command_size (c : LoadCommand) : Z := 8 + Z.of_nat (length (payload_of c)).
Definition encode (c : LoadCommand) : list Z := to_ne_bytes 4 (command_number c) ++ to_ne_bytes 4 (command_size c) ++ payload_of c.

Definition valid (c : LoadCommand) : Prop :=
  command_size c < 2 ^ 32 ∧
  match c with
  | Segment segname vmaddr vmsize rest =>
      (length segname ≤ 16)%nat ∧ Forall (λ b, b ≠ 0) segname ∧ is_Some (utf8_decode segname) ∧
      0 ≤ vmaddr ≤ U64_MAX ∧ 0 ≤ vmsize ≤ U64_MAX ∧ (32 ≤ length rest)%nat
  | Uuid bytes => length bytes = 16%nat
  | OtherCommand cmd _ => 0 ≤ cmd < 2 ^ 32 ∧ cmd ≠ LC_SEGMENT_64 ∧ cmd ≠ LC_UUID
  end.

(** What they tell. *)
Definition segment_of (c : LoadCommand) : option (string * Z * Z) :=
  match c with Segment segname vmaddr vmsize _ => Some (byte_string segname, vmaddr, vmsize) | _ => None end.
Definition text_of (c : LoadCommand) : option (Z * Z) :=
  '(segname, vmaddr, vmsize) ← segment_of c; if decide (segname = "__TEXT"%string) then Some (vmaddr, vmsize) else None.
Definition uuid_of (c : LoadCommand) : option string :=
  match c with Uuid bytes => Some (format_uuid bytes) | _ => None end.
Definition summary (cs : list LoadCommand) : Commands :=
  mkCommands (last (omap uuid_of cs)) (omap segment_of cs) (last (omap text_of cs)).

(** The commands that fit into the first [n] bytes. *)
Fixpoint complete (n : nat) (cs : list LoadCommand) : list LoadCommand :=
  match cs with
  | [] => []
  | c :: cs => if decide (length (encode c) ≤ n)%nat then c :: complete (n - length (encode c)) cs else []
  end.

(** ** Bytes *)

Lemma get_range_app pre mid post n :
  n = Z.of_nat (length mid) → get_range (pre ++ mid ++ post) (Z.of_nat (length pre)) n = Some mid.
Proof.
  intros ->. unfold get_range. rewrite decide_True by (rewrite !length_app; lia).
  by rewrite !Nat2Z.id, drop_app_length, take_app_length.
Qed.

Lemma read_u32_app pre v post offset :
  offset = Z.of_nat (length pre) → 0 ≤ v < 2 ^ 32 → read_u32_le (pre ++ to_ne_bytes 4 v ++ post) offset = Some v.
Proof.
  intros -> Hv. unfold read_u32_le. rewrite get_range_app by (by rewrite length_to_ne_bytes). cbn [fmap option_fmap option_map].
  by rewrite from_to_ne_bytes, Z.mod_small by (cbn; lia).
Qed.
Lemma read_u64_app pre v post offset :
  offset = Z.of_nat (length pre) → 0 ≤ v ≤ U64_MAX → read_u64_le (pre ++ to_ne_bytes 8 v ++ post) offset = Some v.
Proof.
  intros -> Hv. unfold read_u64_le. rewrite get_range_app by (by rewrite length_to_ne_bytes). cbn [fmap option_fmap option_map].
  unfold U64_MAX in *. by rewrite from_to_ne_bytes, Z.mod_small by (cbn; lia).
Qed.

Lemma length_encode c : Z.of_nat (length (encode c)) = command_size c.
Proof. unfold encode, command_size. rewrite !length_app, !length_to_ne_bytes. lia. Qed.

Lemma command_number_range c : valid c → 0 ≤ command_number c < 2 ^ 32.
Proof. intros [_ H]. destruct c; [done|done|]. by destruct H as [H _]. Qed.

(** ** One command *)

Lemma command_at_whole pre c post :
  valid c →
  command_at (pre ++ encode c ++ post) (Z.of_nat (length pre)) = Some (encode c, command_number c, command_size c).
Proof.
  intros Hv. pose proof (command_number_range c Hv) as Hn. pose proof (length_encode c) as Hlen. destruct Hv as [Hs _].
  assert (8 ≤ command_size c) as H8 by (unfold command_size; lia).
  assert (read_u32_le (pre ++ encode c ++ post) (Z.of_nat (length pre)) = Some (command_number c)) as Hcmd.
  { unfold encode. rewrite <-!app_assoc. by apply read_u32_app. }
  assert (read_u32_le (pre ++ encode c ++ post) (Z.of_nat (length pre) + 4) = Some (command_size c)) as Hsize.
  { replace (pre ++ encode c ++ post) with ((pre ++ to_ne_bytes 4 (command_number c)) ++ to_ne_bytes 4 (command_size c) ++ payload_of c ++ post)
      by (unfold encode; by rewrite <-!app_assoc).
    apply read_u32_app; [rewrite length_app, length_to_ne_bytes; lia|lia]. }
  unfold command_at. rewrite decide_False by (rewrite !length_app; lia).
  rewrite Hcmd, Hsize. cbn [mbind option_bind]. rewrite decide_False by lia.
  by rewrite get_range_app.
Qed.

(** A command that is cut short. *)
Lemma command_at_cut pre c n :
  valid c → (n < length (encode c))%nat → command_at (pre ++ take n (encode c)) (Z.of_nat (length pre)) = None.
Proof.
  intros Hv Hlt. pose proof (command_number_range c Hv) as Hn. pose proof (length_encode c) as Hlen. destruct Hv as [Hs _].
  unfold command_at. rewrite length_app, length_take. case_decide as H8; [done|].
  assert (take n (encode c) = to_ne_bytes 4 (command_number c) ++ to_ne_bytes 4 (command_size c) ++ take (n - 8) (payload_of c)) as Ht.
  { unfold encode. rewrite !take_app, !take_ge by (rewrite ?length_to_ne_bytes; lia). rewrite !length_to_ne_bytes. by replace (n - 4 - 4)%nat with (n - 8)%nat by lia. }
  assert (read_u32_le (pre ++ take n (encode c)) (Z.of_nat (length pre)) = Some (command_number c)) as -> by (rewrite Ht; by apply read_u32_app).
  assert (read_u32_le (pre ++ take n (encode c)) (Z.of_nat (length pre) + 4) = Some (command_size c)) as ->.
  { rewrite Ht, app_assoc. apply read_u32_app; [rewrite length_app, length_to_ne_bytes; lia|unfold command_size in *; lia]. }
  cbn [mbind option_bind]. case_decide; [done|]. unfold get_range.
  rewrite decide_False; [done|]. rewrite length_app, length_take. lia.
Qed.

Lemma until_nul_padded segname : Forall (λ b, b ≠ 0) segname → until_nul (padded segname) = segname.
Proof.
  intros Hn. unfold until_nul, padded. destruct (16 - length segname)%nat as [|k] eqn:Hk.
  - cbn [replicate]. rewrite app_nil_r. destruct (before_nul segname) as [v|] eqn:Hb; [|done].
    apply before_nul_spec in Hb as [_ (rest & Hrest)]. rewrite Hrest in Hn. apply Forall_app in Hn as [_ Hn]. by inversion Hn.
  - rewrite (proj2 (before_nul_spec _ segname)); [done|]. split; [done|]. by eexists.
Qed.

Lemma last_snoc_omap {A B : Type} (f : A → option B) l x :
  last (omap f (l ++ [x])) = match f x with Some y => Some y | None => last (omap f l) end.
Proof. rewrite omap_app. cbn. destruct (f x); [by rewrite last_snoc|by rewrite app_nil_r]. Qed.

Lemma length_padded segname : (length segname ≤ 16)%nat → length (padded segname) = 16%nat.
Proof. intros. unfold padded. rewrite length_app, length_replicate. lia. Qed.

(** One more command. *)
Lemma parse_command_snoc cs c :
  valid c → parse_command (encode c) (command_number c) (command_size c) (summary cs) = summary (cs ++ [c]).
Proof.
  intros [Hs Hv]. unfold summary. rewrite !last_snoc_omap, omap_app. cbn [omap list_omap text_of segment_of uuid_of].
  unfold parse_command, command_range. destruct c as [segname vmaddr vmsize rest|bytes|cmd payload]; cbn [command_number].
  - destruct Hv as (Hl & Hnul & [cs' Hutf] & Ha & Hz & Hr). pose proof (length_padded segname Hl) as Hp.
    assert (72 ≤ command_size (Segment segname vmaddr vmsize rest)) as H72.
    { unfold command_size. cbn [payload_of]. rewrite !length_app, !length_to_ne_bytes. lia. }
    rewrite decide_True by done.
    assert (take (24 - 8) (drop 8 (encode (Segment segname vmaddr vmsize rest))) = padded segname) as ->.
    { unfold encode. rewrite app_assoc, drop_app_length' by (rewrite length_app, !length_to_ne_bytes; done). cbn [payload_of].
      by rewrite take_app_length' by (by rewrite Hp). }
    rewrite until_nul_padded by done. rewrite Hutf.
    assert (encode (Segment segname vmaddr vmsize rest) =
      (to_ne_bytes 4 LC_SEGMENT_64 ++ to_ne_bytes 4 (command_size (Segment segname vmaddr vmsize rest)) ++ padded segname) ++
      to_ne_bytes 8 vmaddr ++ to_ne_bytes 8 vmsize ++ rest) as Henc by (unfold encode; cbn [payload_of command_number]; by rewrite <-!app_assoc).
    rewrite Henc, read_u64_app by (rewrite ?length_app, ?length_to_ne_bytes, ?Hp; lia).
    rewrite (app_assoc _ (to_ne_bytes 8 vmaddr)), read_u64_app by (rewrite ?length_app, ?length_to_ne_bytes, ?Hp; lia).
    unfold text_of. cbn. by case_decide.
  - rewrite decide_False by (intros [? _]; done).
    assert (command_size (Uuid bytes) = 24) as Hsz by (unfold command_size; cbn [payload_of]; lia).
    rewrite decide_True by (rewrite Hsz; done).
    assert (take (24 - 8) (drop 8 (encode (Uuid bytes))) = bytes) as ->.
    { unfold encode. rewrite app_assoc, drop_app_length' by (rewrite length_app, !length_to_ne_bytes; done).
      cbn [payload_of]. by rewrite take_ge by lia. }
    unfold text_of. cbn. by rewrite app_nil_r.
  - destruct Hv as (_ & H1 & H2). rewrite !decide_False by (intros [? _]; done). unfold text_of. cbn. by rewrite app_nil_r.
Qed.

(** ** A header and its commands *)

Record MachImage := mkMach {
  cputype : Z;
  cpusubtype : Z;
  filetype : Z;
  header_flags : Z;
  reserved : Z;
  load_commands : list LoadCommand
}.

Definition encoded (cs : list LoadCommand) : list Z := concat (map encode cs).
Definition header_fields (m : MachImage) : list Z :=
  [MH_MAGIC_64; cputype m; cpusubtype m; filetype m; Z.of_nat (length (load_commands m));
   Z.of_nat (length (encoded (load_commands m))); header_flags m; reserved m].
Definition header (m : MachImage) : list Z := concat (map (to_ne_bytes 4) (header_fields m)).
Definition valid_image (m : MachImage) : Prop :=
  Forall valid (load_commands m) ∧ 0 ≤ cputype m < 2 ^ 32 ∧ Z.of_nat (length (encoded (load_commands m))) ≤ MAX_COMMAND_BYTES.

(** A segment at run time, if it has a range. *)
Definition runtime (slide : Z) (segment : string * Z * Z) : option RawImageSegment :=
  let '(name, vmaddr, vmsize) := segment in
  if decide (0 < vmsize ∧ vmaddr + slide + vmsize ≤ U64_MAX) then Some (mkImageSegment name (vmaddr + slide) (vmaddr + slide + vmsize)) else None.

(** The image with what [n] bytes of its commands say. *)
Definition described (m : MachImage) (n : nat) (image : RawImageData) : RawImageData :=
  let cs := complete n (load_commands m) in
  let base := base_address image in
  let named := last (omap uuid_of cs) in
  let uuid := match named with Some _ => named | None => uuid image end in
  let arch := Some (architecture_name (cputype m)) in
  match last (omap text_of cs) with
  | Some (vmaddr, vmsize) =>
      if decide (vmaddr ≤ base) then
        mkImageData (image_path image) base (Some (base - vmaddr)) uuid arch (Some base)
          (if decide (base + vmsize ≤ U64_MAX) then Some (base + vmsize) else None)
          (omap (runtime (base - vmaddr)) (omap segment_of cs))
      else mkImageData (image_path image) base (slide image) uuid arch (text_start image) (text_end image) (segments image)
  | None => mkImageData (image_path image) base (slide image) uuid arch (text_start image) (text_end image) (segments image)
  end.

Lemma runtime_segments_runtime slide l :
  0 ≤ slide → Forall (λ s : string * Z * Z, 0 ≤ s.2) l → runtime_segments slide l = omap (runtime slide) l.
Proof.
  intros Hs Hl. induction Hl as [|[[name vmaddr] vmsize] l Hz _ IH]; [done|]. unfold runtime_segments in *. cbn [snd] in *.
  assert (∀ x (l : list (string * Z * Z)) f, omap (B := RawImageSegment) f (x :: l) = match f x with Some y => y :: omap f l | None => omap f l end) as Hcons by done.
  rewrite !Hcons, IH. f_equal. unfold runtime, u64_checked_add. destruct (decide (vmaddr + slide ≤ U64_MAX)); cbn [mbind option_bind].
  - destruct (decide (vmaddr + slide + vmsize ≤ U64_MAX)); cbn [mbind option_bind]; repeat case_decide; done || lia.
  - rewrite decide_False by lia. done.
Qed.

Lemma complete_valid n cs : Forall valid cs → Forall valid (complete n cs).
Proof. intros H. revert n. induction H as [|c cs Hc _ IH]; intros n; cbn [complete]; [done|]. case_decide; by constructor. Qed.

Lemma segments_valid cs : Forall valid cs → Forall (λ s : string * Z * Z, 0 ≤ s.2) (omap segment_of cs).
Proof.
  intros H. induction H as [|c cs [_ Hc] _ IH]; [done|]. destruct c; cbn; try done. constructor; [|done]. cbn. lia.
Qed.

Section Exact.
Context {E : Type} {clock : Clock E} {target : TargetOps E} {Txn Ctx : Type}.
#[local] Notation fm := (fueled E TargetStep).
#[local] Notation PluginContext := (PluginContext Txn Ctx).

(** A context that lets the collector end. *)
Definition unhurried (context : PluginContext) : Prop := deadline context = None ∧ ∀ e, (flag_loaded e).1 = false.

(** The memory behind a base address, of which [n] bytes of commands can be read. *)
Definition holds (task base : Z) (m : MachImage) (n : nat) : Prop :=
  (∀ e, (vm_bytes task base 32 e).1 = Ok (header m)) ∧
  (∀ e, (vm_bytes task (base + 32) (Z.of_nat (length (encoded (load_commands m)))) e).1 = Ok (take n (encoded (load_commands m)))).

Lemma answers_checkpoint {A : Type} (Q : A → World E TargetStep → Prop) (context : PluginContext) (f : result string unit → fm A) w :
  unhurried context → (∀ w', answers Q (f (Ok tt)) w') → answers Q (checkpoint context ≫= f) w.
Proof.
  intros [Hd Hf] HQ. eapply (answers_bind (λ r _, r = Ok tt)); [|intros r w' ->; apply HQ].
  unfold checkpoint, is_timed_out. eapply (answers_bind (λ r _, r = false)); [|intros r w' ->; by apply answers_ret].
  eapply (answers_bind (λ r _, r = false)); [by apply answers_ask|]. intros r w' ->. rewrite Hd. by apply answers_ret.
Qed.

Lemma answers_vm_read {A : Type} (Q : A → World E TargetStep → Prop) task a n r (f : result VmReadError (list Z) → fm A) w :
  (∀ e, (vm_bytes task a n e).1 = r) →
  (∀ w', answers Q (f match r with Ok bytes => classify_vm_read bytes n | Err error => Err (PlatformError error) end) w') →
  answers Q (vm_read task a n ≫= f) w.
Proof.
  intros Hr HQ. eapply (answers_bind (λ r' _, r' = match r with Ok bytes => classify_vm_read bytes n | Err error => Err (PlatformError error) end)).
  - unfold vm_read. eapply (answers_bind (λ r' _, r' = r)); [apply answers_ask, Hr|]. intros r' w' ->.
    eapply answers_bind; [by apply (answers_step (λ _ _, True))|]. intros. by apply answers_ret.
  - intros r' w' ->. apply HQ.
Qed.

Lemma answers_commands steps (context : PluginContext) cs sofar pre n w :
  unhurried context → Forall valid cs → (length (take n (encoded cs)) < steps)%nat →
  answers (λ out _, out = (summary (sofar ++ complete n cs), true))
    (parse_commands steps (Z.of_nat (length cs)) (pre ++ take n (encoded cs)) (Z.of_nat (length pre)) context (summary sofar)) w.
Proof.
  intros Hu Hv. revert steps sofar pre n w. induction Hv as [|c cs Hc _ IH]; intros steps sofar pre n w Hsteps.
  { destruct steps as [|steps]; [lia|]. cbn. rewrite app_nil_r. by apply answers_ret. }
  destruct steps as [|steps]; [lia|]. cbn [parse_commands]. rewrite decide_False by (cbn; lia).
  apply answers_checkpoint; [done|]. intros w'. cbn [complete]. change (encoded (c :: cs)) with (encode c ++ encoded cs) in *.
  rewrite take_app in Hsteps |- *. pose proof (length_encode c) as Hlen. case_decide as Hn.
  - rewrite take_ge in Hsteps |- * by lia. rewrite command_at_whole by done. rewrite parse_command_snoc by done.
    replace (Z.of_nat (length (c :: cs)) - 1) with (Z.of_nat (length cs)) by (cbn [length]; lia).
    replace (Z.of_nat (length pre) + command_size c) with (Z.of_nat (length (pre ++ encode c))) by (rewrite length_app; lia).
    rewrite (app_assoc pre). eapply answers_impl.
    + apply (IH steps (sofar ++ [c]) (pre ++ encode c)). rewrite length_app in Hsteps. unfold command_size in *. lia.
    + intros out w'' ->. by rewrite <-app_assoc.
  - replace (n - length (encode c))%nat with 0%nat by lia. rewrite take_0, !app_nil_r, command_at_cut by (done || lia).
    by apply answers_ret.
Qed.

End Exact.

Lemma read_field fields i v :
  fields !! i = Some v → 0 ≤ v < 2 ^ 32 → read_u32_le (concat (map (to_ne_bytes 4) fields)) (4 * Z.of_nat i) = Some v.
Proof.
  intros Hi Hv. rewrite <-(take_drop_middle fields i v Hi), map_app, concat_app. cbn [map concat]. apply read_u32_app; [|done].
  assert (∀ l, length (concat (map (to_ne_bytes 4) l)) = (4 * length l)%nat) as Hl.
  { intros l. induction l as [|x l IH]; [done|]. cbn [map concat]. rewrite length_app, length_to_ne_bytes, IH. cbn [length]. lia. }
  rewrite Hl, length_take. apply lookup_lt_Some in Hi. lia.
Qed.

Lemma length_commands cs : (length cs ≤ length (encoded cs))%nat.
Proof.
  induction cs as [|c cs IH]; [done|]. change (encoded (c :: cs)) with (encode c ++ encoded cs). rewrite length_app. cbn [length].
  pose proof (length_encode c). unfold command_size in *. lia.
Qed.

(** C33. What a Mach-O image at the base address encodes is what the collector says of it:
    the architecture, the UUID, and, when its text segment lies at or below the base
    address, the slide with the run-time ranges of the text and of every segment that has
    one. When the read of the load commands is cut short, it says what the commands that
    were read completely tell, and nothing of the others. *)
Theorem image_metadata_exact {E : Type} {clock : Clock E} {target : TargetOps E} {Txn Ctx : Type} (m : MachImage) (n : nat)
    (task : Z) (image : RawImageData) (context : PluginContext Txn Ctx) (w : World E TargetStep) :
  valid_image m → 0 ≤ base_address image ≤ U64_MAX - 32 → unhurried context → holds task (base_address image) m n →
  ∃ w', compute_image_metadata task image context w = (Some (described m n image), w').
Proof.
  intros (Hv & Hcpu & Hsize) Hb Hu [Hheader Hbody].
  assert (answers (λ out _, out = described m n image) (compute_image_metadata task image context) w) as (a & w' & Ha & ->); [|by exists w'].
  pose proof (length_commands (load_commands m)) as Hcount. unfold MAX_COMMAND_BYTES in *.
  assert (∀ i offset v, header_fields m !! i = Some v → offset = 4 * Z.of_nat i → 0 ≤ v < 2 ^ 32 → read_u32_le (header m) offset = Some v)
    as Hfield by (intros i offset v Hi ->; by apply read_field).
  unfold compute_image_metadata. apply answers_checkpoint; [done|]. intros w1. eapply answers_vm_read; [exact Hheader|]. intros w2.
  cbn [classify_vm_read]. unfold classify_vm_read at 1. rewrite decide_True by done.
  apply answers_checkpoint; [done|]. intros w3.
  rewrite (Hfield 0%nat 0 MH_MAGIC_64 eq_refl eq_refl) by done. rewrite decide_False by (intros H; by apply H). cbv zeta.
  rewrite (Hfield 1%nat 4 (cputype m) eq_refl eq_refl) by done. rewrite (Hfield 4%nat 16 _ eq_refl eq_refl) by lia.
  rewrite (Hfield 5%nat 20 _ eq_refl eq_refl) by lia. cbn [base_address with_architecture].
  unfold u64_checked_add at 1. rewrite decide_True by lia. rewrite decide_False by (unfold MAX_COMMAND_BYTES; lia).
  eapply answers_vm_read; [exact Hbody|]. intros w4.
  assert (∀ (f : list Z → fueled E TargetStep RawImageData) e, answers (λ out _, out = described m n image) (f (take n (encoded (load_commands m)))) w4 →
    answers (λ out _, out = described m n image)
      match classify_vm_read (take n (encoded (load_commands m))) (Z.of_nat (length (encoded (load_commands m)))) with
      | Err (PlatformError _) => e | Ok cmds | Err (Partial _ cmds) => f cmds end w4) as Hread.
  { intros f e Hf. unfold classify_vm_read. by case_decide. }
  apply Hread. apply answers_checkpoint; [done|]. intros w5.
  eapply answers_bind; [apply (answers_commands _ context (load_commands m) [] [] n w5 Hu Hv); cbn [app]; lia|].
  intros out w6 ->. cbn [app]. apply answers_ret.
  pose proof (segments_valid _ (complete_valid n _ Hv)) as Hseg. unfold described, apply_commands, summary.
  cbn [command_uuid parsed_segments text_segment with_uuid with_architecture base_address uuid].
  destruct (last (omap text_of (complete n (load_commands m)))) as [[vmaddr vmsize]|]; [|done].
  unfold u64_checked_sub. case_decide as Hle; [|done]. cbn.
  rewrite runtime_segments_runtime by (done || lia). unfold u64_checked_add.
  replace (vmaddr + (base_address image - vmaddr)) with (base_address image) by lia.
  rewrite (decide_True (P := base_address image ≤ U64_MAX)) by lia. done.
Qed.

(** A task with one image, whose last command cannot be read completely. *)
Module Example.

Definition main_image : MachImage := mkMach 16777228 0 2 0 0
  [Segment [95; 95; 84; 69; 88; 84] 4294967296 16384 (replicate 32 0); Uuid (seqZ 1 16); OtherCommand 12 [1; 2; 3; 4];
   Segment [95; 95; 68; 65; 84; 65] 4294983680 8192 (replicate 32 0); Segment [95; 95; 76] 4294991872 4096 (replicate 32 0)].
Definition base : Z := 4311744512.

Definition memory : list (Z * list Z) :=
  [(8192, to_ne_bytes 4 17 ++ to_ne_bytes 4 1 ++ to_ne_bytes 8 12288);
   (12288, to_ne_bytes 8 base ++ to_ne_bytes 8 16384 ++ to_ne_bytes 8 0);
   (16384, [47; 98; 105; 110; 47; 97; 112; 112] ++ replicate 120 0);
   (base, header main_image);
   (base + 32, take 200 (encoded (load_commands main_image)))].

#[export] Instance clock : Clock unit := λ e, (0, e).
#[export] Instance target : TargetOps unit := {|
  host_vm_page_size := 4096;
  flag_loaded e := (false, e);
  vm_bytes _ a n e :=
    (match list_find (λ p, p.1 = a) memory with Some (_, (_, bytes)) => Ok (take (Z.to_nat n) bytes) | None => Err "unreadable"%string end, e);
  vm_region _ a e := (Err KERN_INVALID_ADDRESS, e);
  info_words _ _ _ e := (Ok ([8192; 0; 0; 0; 0], 5), e);
  task_vm_info _ e := (Err "unavailable"%string, e);
  task_threads _ e := (Ok [], e);
  thread_name_of _ e := (Ok None, e);
  thread_identifier _ e := (Ok 1, e);
  thread_state_words _ e := (Err "unavailable"%string, e);
  release_port _ e := (tt, e)
|}.

Definition idle : World unit TargetStep := mkWorld tt [].
Definition no_deadline : PluginContext unit unit := mkContext None None None None.

(** The image that this task has. *)
Definition app : RawImageData :=
  mkImageData "/bin/app" base (Some 16777216) (Some "01020304-0506-0708-090a-0b0c0d0e0f10"%string) (Some "arm64"%string)
    (Some base) (Some (base + 16384)) [mkImageSegment "__TEXT" base (base + 16384); mkImageSegment "__DATA" (base + 16384) (base + 24576)].

End Example.
Import Example.

Lemma image_metadata_exact_witness :
  described Example.main_image 200 (new_image "/bin/app" Example.base) = Example.app ∧
  ∃ w', compute_image_metadata 7 (new_image "/bin/app" Example.base) Example.no_deadline Example.idle =
    (Some (described Example.main_image 200 (new_image "/bin/app" Example.base)), w').
Proof.
  split; [vm_compute; reflexivity|]. apply (image_metadata_exact Example.main_image 200).
  - split; [|split; vm_compute; [split; [discriminate|reflexivity]|discriminate]]. unfold valid, command_size, U64_MAX.
    repeat (apply Forall_cons; split; [cbn; split_and!; try lia; try done; repeat (constructor; try lia)|]). constructor.
  - vm_compute. split; discriminate.
  - split; [reflexivity|]. intros e. reflexivity.
  - split; intros e; vm_compute; reflexivity.
Defined.

End ImagesSpec.
