(* ===== verification/ImageRanges.v ===== *)
(** * Ranges of loaded images

    The images that the collector leaves behind, from any bytes of the captured task, and the
    resolution of addresses among them. *)

From stdpp Require Import strings.
From S2P Require Import Prelude.
From S2P Require Import Traced.
From S2P Require Import Fueled.
From S2P Require Import ShmLayout.
From S2P Require Import ShmSnapshot.
From S2P Require Import ShmReader.
From S2P Require Import ShmFacts.
From S2P Require Import PipelineTypes.
From S2P Require Import PluginRun.
From S2P Require Import TargetAccess.
From S2P Require Import Images.

Module ImageRanges.
Export ImagesSpec.
#[local] Open Scope Z_scope.

Definition u64 (z : Z) : Prop := 0 ≤ z ≤ U64_MAX.
Definition is_bytes (bytes : list Z) : Prop := Forall (λ b, 0 ≤ b < 256) bytes.

(** An image before its header was read. *)
Definition plain (i : RawImageData) : Prop :=
  u64 (base_address i) ∧ slide i = None ∧ text_start i = None ∧ text_end i = None ∧ segments i = [].

(** The ranges of an image lie where its slide puts them, and the text begins at its base. *)
Definition sound (i : RawImageData) : Prop :=
  u64 (base_address i) ∧
  match slide i with
  | None => text_start i = None ∧ text_end i = None ∧ segments i = []
  | Some s =>
      0 ≤ s ≤ base_address i ∧ text_start i = Some (base_address i) ∧
      (∀ e, text_end i = Some e → base_address i ≤ e ≤ U64_MAX) ∧
      Forall (λ g, s ≤ segment_start g ∧ segment_start g < segment_end g ≤ U64_MAX) (segments i)
  end.

Definition sorted_images (l : list RawImageData) : Prop := StronglySorted (λ a b, base_address a ≤ base_address b) l.

(** The first image whose text holds the address, and the distance from its base. *)
Definition resolved (images : list RawImageData) (a : Z) (out : option string * option Z) : Prop :=
  (out = (None, None) ∧ Forall (λ i, in_text a i = false) images) ∨
  ∃ before i after offset, images = before ++ i :: after ∧ Forall (λ i, in_text a i = false) before ∧ in_text a i = true ∧
    out = (Some (last_component (image_path i)), Some offset) ∧ a = base_address i + offset ∧ 0 ≤ offset.

Lemma plain_sound i : plain i → sound i.
Proof. intros (H1 & H2 & H3 & H4 & H5). unfold sound. by rewrite H2. Qed.

Lemma resolve_sound images a : Forall sound images → resolved images a (resolve_address images a).
Proof.
  intros Hs. unfold resolve_address. induction Hs as [|i images Hi _ IH]; [by left|]. rewrite filter_cons.
  destruct (decide (in_text a i = true)) as [Ht|Ht].
  - right. cbn [head]. exists [], i, images. destruct Hi as [_ Hi]. unfold in_text in Ht.
    destruct (text_start i) as [start|] eqn:Hstart; [|done]. destruct (text_end i) as [fin|] eqn:Hend; [|done].
    apply bool_decide_eq_true in Ht as Hr. destruct (slide i) as [s|]; [|by destruct Hi].
    destruct Hi as (_ & Hb & _). injection Hb as ->. exists (a - base_address i). cbn [default from_option id].
    split_and!; try done; [|lia|lia]. unfold in_text. by rewrite Hstart, Hend.
  - apply not_true_is_false in Ht. destruct IH as [[-> Hall]|(before & j & after & offset & -> & Hb & Hj & H)].
    + left. split; [done|]. by constructor.
    + right. exists (i :: before), j, after, offset. split_and!; try done; [by constructor|by destruct H as (? & ? & ?)..].
Qed.

(** ** Values of bytes *)

Lemma read_u64_range bytes offset v : is_bytes bytes → read_u64_le bytes offset = Some v → u64 v.
Proof.
  intros Hb. unfold read_u64_le, get_range. case_decide as Hr; [|done]. cbn [fmap option_fmap option_map]. intros [= <-].
  set (l := take (Z.to_nat 8) (drop (Z.to_nat offset) bytes)).
  assert (is_bytes l) as Hl by (by apply Forall_take, Forall_drop).
  pose proof (from_ne_bytes_range l Hl) as Hv.
  assert (length l = 8%nat) as Hlen by (unfold l; rewrite length_take, length_drop; lia).
  rewrite Hlen in Hv. unfold u64, U64_MAX. change (256 ^ Z.of_nat 8) with 18446744073709551616 in Hv. lia.
Qed.

Lemma default_u64 bytes offset : is_bytes bytes → u64 (default 0 (read_u64_le bytes offset)).
Proof. intros Hb. destruct (read_u64_le bytes offset) eqn:H; [by eapply read_u64_range|]. cbn. unfold u64, U64_MAX. lia. Qed.

(** ** Commands *)

Definition commands_ok (c : Commands) : Prop :=
  Forall (λ s : string * Z * Z, u64 s.1.2 ∧ u64 s.2) (parsed_segments c) ∧
  (∀ a s, text_segment c = Some (a, s) → u64 a ∧ u64 s).

Lemma parse_command_ok command cmd cmdsize c : is_bytes command → commands_ok c → commands_ok (parse_command command cmd cmdsize c).
Proof.
  intros Hb [H1 H2]. unfold parse_command.
  pose proof (default_u64 command 24 Hb). pose proof (default_u64 command 32 Hb).
  repeat first [case_decide | case_match]; try done; (split; cbn [parsed_segments text_segment]; [apply Forall_app; split; [done|by constructor]|]);
    [by intros a s [= <- <-]|done].
Qed.

Lemma get_range_bytes bytes offset n l : is_bytes bytes → get_range bytes offset n = Some l → is_bytes l.
Proof. intros Hb. unfold get_range. case_decide; [|done]. intros [= <-]. by apply Forall_take, Forall_drop. Qed.

Lemma command_at_range cmds offset command cmd cmdsize :
  command_at cmds offset = Some (command, cmd, cmdsize) →
  get_range cmds offset cmdsize = Some command ∧ 8 ≤ cmdsize ∧ 0 ≤ offset ∧ offset + cmdsize ≤ Z.of_nat (length cmds).
Proof.
  unfold command_at. case_decide; [done|]. destruct (read_u32_le cmds offset); [|done]. cbn [mbind option_bind].
  destruct (read_u32_le cmds (offset + 4)); [|done]. cbn [mbind option_bind]. case_decide; [done|].
  destruct (get_range cmds offset z0) as [l|] eqn:Hr; [|done]. cbn [mbind option_bind]. intros [= <- <- <-].
  split; [done|]. unfold get_range in Hr. case_decide; [lia|done].
Qed.

Lemma apply_commands_sound c i : commands_ok c → plain i → sound (apply_commands c i).
Proof.
  intros [Hseg Htext] Hi. unfold apply_commands. destruct (text_segment c) as [[a s]|]; [|by apply plain_sound].
  destruct (Htext a s eq_refl) as [Ha Hs]. unfold u64_checked_sub. case_decide as Hle; [|by apply plain_sound].
  destruct Hi as (Hb & _). unfold u64_checked_add. replace (a + (base_address i - a)) with (base_address i) by lia.
  unfold u64 in *. rewrite decide_True by lia. unfold sound. cbn. split_and!; try done; try lia.
  - intros e. case_decide; [|done]. intros [= <-]. lia.
  - induction Hseg as [|[[name va] vs] l [Hva Hvs] _ IH]; [by constructor|]. cbn [fst snd] in *. unfold runtime_segments, u64_checked_add in *. cbn.
    case_decide; [|done]. cbn. case_decide; [|done]. cbn. case_decide; [|done]. constructor; [cbn; unfold u64 in *; lia|done].
Qed.

(** ** The computation *)

(** The memory of a task is made of bytes, and so are the words of its information. *)
Class ByteMemory (E : Type) {target : TargetOps E} : Prop := {
  law_bytes task a n e bytes : (vm_bytes task a n e).1 = Ok bytes → is_bytes bytes
}.

Section Ranges.
Context {E : Type} {clock : Clock E} {target : TargetOps E} {byte_memory : ByteMemory E} {Txn Ctx : Type}.
#[local] Notation fm := (fueled E TargetStep).
#[local] Notation PluginContext := (PluginContext Txn Ctx).

Definition bytes_of (r : result VmReadError (list Z)) : Prop :=
  match r with Ok bytes | Err (Partial _ bytes) => is_bytes bytes | Err (PlatformError _) => True end.

Lemma inspects_bytes task a n : inspects bytes_of (vm_read task a n).
Proof.
  unfold vm_read. eapply (inspects_bind (λ r, ∀ bytes, r = Ok bytes → is_bytes bytes)).
  - intros w. pose proof (law_bytes task a n (env w)) as Hlaw. unfold ask, of_traced, lift.
    destruct (vm_bytes task a n (env w)) as [r e]. cbn in *. exists []. rewrite app_nil_r. split; [done|].
    intros r' [= <-]. split; [done|]. exact Hlaw.
  - intros r Hr. cbn beta in Hr. eapply inspects_any; [by apply inspects_step|]. intros _. apply inspects_ret. destruct r; [|done].
    unfold classify_vm_read. case_decide; by apply Hr.
Qed.

(** *** The commands *)

Lemma inspects_commands steps ncmds cmds offset (context : PluginContext) c :
  is_bytes cmds → commands_ok c → inspects (λ out, commands_ok out.1) (parse_commands steps ncmds cmds offset context c).
Proof.
  intros Hb. revert ncmds offset c. induction steps as [|steps IH]; intros ncmds offset c Hc; [apply ends_starved|].
  cbn [parse_commands]. case_decide; [by apply inspects_ret|]. eapply inspects_any; [apply inspects_checkpoint|].
  intros [_|error]; [|by apply inspects_ret]. destruct (command_at cmds offset) as [[[command cmd] cmdsize]|] eqn:Hat; [|by apply inspects_ret].
  apply IH. apply command_at_range in Hat as [Hat _]. apply parse_command_ok; [by eapply get_range_bytes|done].
Qed.

(** Every command takes bytes of the buffer. *)
Lemma total_commands steps ncmds cmds offset (context : PluginContext) c :
  offset ≤ Z.of_nat (length cmds) < offset + Z.of_nat steps → total (parse_commands steps ncmds cmds offset context c).
Proof.
  revert ncmds offset c. induction steps as [|steps IH]; intros ncmds offset c Hs; cbn [parse_commands]; [lia|].
  case_decide; [apply total_ret_target|]. apply total_then_target; [apply total_checkpoint|]. intros [_|error]; [|apply total_ret_target].
  destruct (command_at cmds offset) as [[[command cmd] cmdsize]|] eqn:Hat; [|apply total_ret_target].
  apply command_at_range in Hat as (_ & H8 & H0 & Hle). apply IH. lia.
Qed.

(** *** One image *)

Lemma inspects_metadata task i (context : PluginContext) :
  plain i → inspects (λ out, sound out ∧ base_address out = base_address i) (compute_image_metadata task i context).
Proof.
  intros Hi. assert (∀ u a, plain (with_uuid u (with_architecture a i)) ∧ plain (with_architecture a i)) as Hplain by done.
  assert (∀ i', plain i' → base_address i' = base_address i → inspects (λ out, sound out ∧ base_address out = base_address i) (mret i' : fm _)) as Hret.
  { intros i' Hi' Hb. apply inspects_ret. split; [by apply plain_sound|done]. }
  unfold compute_image_metadata. eapply inspects_any; [apply inspects_checkpoint|]. intros [_|error]; [|by apply Hret].
  eapply inspects_any; [apply inspects_bytes|]. intros [hdr|e]; [|by apply Hret].
  eapply inspects_any; [apply inspects_checkpoint|]. intros checked. destruct checked as [_|error]; [|by apply Hret].
  destruct (read_u32_le hdr 0); [|by apply Hret]. case_decide; [by apply Hret|]. cbv zeta.
  set (a := architecture_name <$> read_u32_le hdr 4).
  destruct (read_u32_le hdr 16) as [ncmds|]; [|by apply Hret]. destruct (read_u32_le hdr 20) as [size|]; [|by apply Hret].
  case_match; [|by apply Hret]. case_decide; [by apply Hret|].
  eapply inspects_bind; [apply inspects_bytes|]. intros read Hread.
  assert (∀ cmds, is_bytes cmds → inspects (λ out, sound out ∧ base_address out = base_address i)
    (checked ← checkpoint context;
     match checked with
     | Err _ => mret (with_architecture a i)
     | Ok _ =>
         '(c, ended) ← parse_commands (S (length cmds)) ncmds cmds 0 context (mkCommands None [] None);
         mret (if (ended : bool) then apply_commands c (with_uuid (command_uuid c) (with_architecture a i))
               else with_uuid (command_uuid c) (with_architecture a i))
     end)) as Hcmds.
  { intros cmds Hb. eapply inspects_any; [apply inspects_checkpoint|]. intros [_|error]; [|by apply Hret].
    eapply inspects_bind; [apply inspects_commands; [done|]; split; [by constructor|done]|]. intros [c ended] Hc. apply inspects_ret.
    destruct (Hplain (command_uuid c) a) as [Hp _]. destruct ended; [|split; [by apply plain_sound|done]].
    split; [by apply apply_commands_sound|]. unfold apply_commands. by repeat case_match. }
  destruct read as [cmds|[error|requested cmds]]; [by apply Hcmds|by apply Hret|by apply Hcmds].
Qed.

Lemma inspects_slides task images (context : PluginContext) :
  Forall plain images →
  inspects (λ out, Forall sound out.2 ∧ map base_address out.2 = map base_address images) (compute_all_slides task images context).
Proof.
  intros Hi. assert (∀ l, Forall plain l → Forall sound l) as Hall by (intros l Hl; eapply Forall_impl; [exact Hl|apply plain_sound]).
  induction Hi as [|i images Hi Hp IH]; cbn [compute_all_slides]; [by apply inspects_ret|].
  eapply inspects_any; [apply inspects_checkpoint|]. intros [_|error]; [|apply inspects_ret; split; [apply Hall; by constructor|done]].
  eapply inspects_bind; [by apply inspects_metadata|]. intros i' [Hs Hb]. eapply inspects_any; [apply inspects_checkpoint|].
  intros [_|error]; [|apply inspects_ret; split; [constructor; [done|by apply Hall]|cbn; by rewrite Hb]].
  eapply inspects_bind; [exact IH|]. intros [r l] [H1 H2]. apply inspects_ret. split; [by constructor|]. cbn in *. by rewrite Hb, H2.
Qed.

(** *** The list *)

Lemma inspects_c_string chunks task a n (context : PluginContext) prefix :
  inspects (λ _, True) (read_c_string_with chunks task a n context prefix).
Proof.
  apply (inspects_impl (λ r, ∀ t : string, r = Ok t → True)); [|done].
  revert prefix. induction chunks as [|chunk chunks IH]; intros prefix; cbn [read_c_string_with]; [by apply inspects_ret|].
  apply inspects_check. eapply inspects_any; [apply inspects_vm_read|]. intros r. cbv zeta. destruct r as [bytes|[error|k bytes]]; [|apply IH|];
    (apply inspects_check; case_match; [by apply inspects_ret|]; case_decide; [by apply inspects_ret|apply IH]).
Qed.

Lemma parse_image_info_range bytes offset load path : is_bytes bytes → parse_image_info bytes offset = Ok (load, path) → u64 load.
Proof.
  intros Hb. unfold parse_image_info. case_decide; [done|]. destruct (read_u64_le bytes offset) eqn:Hr; [|done]. cbn.
  destruct (read_u64_le bytes (offset + 8)); [|done]. cbn. intros [= <- <-]. by eapply read_u64_range.
Qed.

Lemma inspects_images indexes task bytes (context : PluginContext) images :
  is_bytes bytes → Forall plain images →
  inspects (λ r, ∀ l, r = Ok l → Forall plain l ∧ (length l = length images + length indexes)%nat)
    (read_images indexes task bytes context images).
Proof.
  intros Hb. revert images. induction indexes as [|i indexes IH]; intros images Hi; cbn [read_images].
  { apply inspects_ret. intros l [= <-]. cbn. split; [done|lia]. }
  apply (inspects_check (λ l, Forall plain l ∧ _)). destruct (parse_image_info bytes (i * IMAGE_INFO_SIZE)) as [[load path]|error] eqn:Hp.
  - unfold mbind at 1, fueled_bind at 1, mret at 1, fueled_ret at 1. apply parse_image_info_range in Hp; [|done].
    change (inspects (λ r, ∀ l, r = Ok l → Forall plain l ∧ (length l = length images + length (i :: indexes))%nat)
      (read ← read_c_string task path MAX_PATH_BYTES context;
       _ ←? checkpoint context;
       read_images indexes task bytes context (images ++ [new_image match read with Ok path => path
         | Err _ => ("<unreadable@" +:+ hex path +:+ ">")%string end load]))).
    eapply inspects_any; [apply inspects_c_string|]. intros read. apply (inspects_check (λ l, Forall plain l ∧ _)).
    eapply inspects_impl; [apply IH|].
    + apply Forall_app. split; [done|]. by constructor.
    + intros r Hr l Hl. destruct (Hr l Hl) as [H1 H2]. split; [done|]. rewrite H2, length_app. cbn. lia.
  - by apply inspects_ret.
Qed.

Lemma by_base_sorted l : sorted_images (stable_sort by_base l).
Proof.
  assert (StronglySorted (λ a b, by_base a b = true) (stable_sort by_base l)) as Hs.
  { apply stable_sort_sorted; unfold by_base; intros; rewrite ?bool_decide_eq_true in *; lia. }
  induction Hs as [|a l' _ IH Ha]; constructor; [done|]. eapply Forall_impl; [exact Ha|]. intros b. cbn. apply bool_decide_eq_true.
Qed.

Lemma inspects_or_text {e A : Type} (P : result e A → Prop) (Q : A → Prop) (text : e → string) (m : fm (result e A)) :
  inspects P m → (∀ a, P (Ok a) → Q a) → inspects (λ r, ∀ a, r = Ok a → Q a) (or_text text m).
Proof. intros Hm H. unfold or_text. eapply inspects_bind; [exact Hm|]. intros [a|error] Ha; apply inspects_ret; [|done]. intros a' [= <-]. by apply H. Qed.

Definition enumerated_ok (l : list RawImageData) : Prop :=
  Forall plain l ∧ (length l ≤ 2000)%nat ∧ sorted_images l.

Lemma inspects_value {A B : Type} (Q : B → Prop) (r : result string A) (f : A → fm (result string B)) :
  (∀ a, r = Ok a → inspects (λ r, ∀ b, r = Ok b → Q b) (f a)) → inspects (λ r, ∀ b, r = Ok b → Q b) (x ←? mret r; f x).
Proof. intros H. eapply (inspects_bind (λ r', r' = r)); [by apply inspects_ret|]. intros r' ->. destruct r; [by apply H|by apply inspects_ret]. Qed.

Lemma inspects_enumerate task (context : PluginContext) :
  inspects (λ r, ∀ l, r = Ok l → enumerated_ok l) (enumerate_loaded_images task context).
Proof.
  assert (enumerated_ok []) as Hnil by (split_and!; [constructor|cbn; lia|constructor]).
  unfold enumerate_loaded_images. apply (inspects_check enumerated_ok). apply (inspects_try (λ _, True)).
  { eapply inspects_or_text; [apply inspects_ask|done]. }
  intros [words returned] _. case_decide; [by apply inspects_ret|]. apply (inspects_check enumerated_ok).
  apply inspects_value. intros a _. case_decide; [by apply inspects_ret|].
  apply (inspects_try is_bytes); [eapply inspects_or_text; [apply inspects_bytes|done]|]. intros bytes _. apply (inspects_check enumerated_ok).
  apply inspects_value. intros [array count] _. case_decide; [apply inspects_ret; by intros l [= <-]|]. cbv zeta.
  apply (inspects_try is_bytes); [eapply inspects_or_text; [apply inspects_bytes|done]|]. intros entries Hb. apply (inspects_check enumerated_ok).
  eapply (inspects_try (λ l, Forall plain l ∧ (length l = 0 + length (seqZ 0 (Z.min count MAX_IMAGES)))%nat)); [by apply inspects_images|].
  intros l [Hp Hl]. apply inspects_ret. intros l' [= <-]. split_and!.
  - eapply Permutation_Forall; [symmetry; apply stable_sort_perm|done].
  - rewrite stable_sort_perm, Hl, length_seqZ. unfold MAX_IMAGES. lia.
  - apply by_base_sorted.
Qed.

(** What the collector leaves in the event. *)
Definition collected (previous : list RawImageData) (out : result string unit * list RawImageData) : Prop :=
  (∃ error, out = (Err error, previous)) ∨
  Forall sound out.2 ∧ (length out.2 ≤ 2000)%nat ∧ sorted_images out.2 ∧ ∀ a, resolved out.2 a (resolve_address out.2 a).

Lemma sorted_bases l l' : map base_address l = map base_address l' → sorted_images l' → sorted_images l.
Proof.
  revert l'. induction l as [|a l IH]; intros [|a' l'] Heq Hs; try done. cbn in Heq. injection Heq as Ha Hl.
  apply StronglySorted_inv in Hs as [Hs Hf]. constructor; [by eapply IH|].
  assert (Forall (λ z, base_address a ≤ z) (map base_address l)) as H.
  { rewrite Hl, Ha. by apply Forall_fmap. }
  exact (proj1 (Forall_fmap base_address (λ z, base_address a ≤ z) l) H).
Qed.

Lemma enumerated_collected previous r l l' :
  enumerated_ok l → Forall sound l' → map base_address l' = map base_address l → collected previous (r, l').
Proof.
  intros (H1 & H2 & H3) Hs Hb. right. cbn [snd].
  split; [done|]. split; [|split; [by eapply sorted_bases|intros; by apply resolve_sound]].
  by rewrite <-(length_map base_address l'), Hb, length_map.
Qed.

Lemma inspects_collect task (context : PluginContext) previous : inspects (collected previous) (collect_images task context previous).
Proof.
  unfold collect_images. eapply inspects_any; [apply inspects_checkpoint|]. intros [_|error]; [|apply inspects_ret; left; by eexists].
  apply (inspects_bind (λ r, ∀ l, r = Ok l → enumerated_ok l)).
  { eapply inspects_or_text; [apply inspects_enumerate|]. intros l Hl. exact (Hl l eq_refl). }
  intros [l|error] Hok; [|apply inspects_ret; left; by eexists]. pose proof (Hok l eq_refl) as Hl.
  assert (Forall plain l) as Hp by apply Hl.
  eapply inspects_any; [apply inspects_checkpoint|]. intros [_|error].
  - eapply inspects_impl; [by apply inspects_slides|]. intros [r l'] [H1 H2]. by eapply enumerated_collected.
  - apply inspects_ret. eapply enumerated_collected; [done| |done]. eapply Forall_impl; [exact Hp|apply plain_sound].
Qed.

End Ranges.

(** ** Answers *)

Section Answers.
Context {E : Type} {clock : Clock E} {target : TargetOps E} {Txn Ctx : Type}.
#[local] Notation PluginContext := (PluginContext Txn Ctx).

Lemma total_c_string chunks task a n (context : PluginContext) prefix : total (read_c_string_with chunks task a n context prefix).
Proof. revert prefix. induction chunks; intros; cbn [read_c_string_with]; answer. Qed.
#[local] Hint Resolve total_c_string : cm.
Lemma total_read_images indexes task bytes (context : PluginContext) images : total (read_images indexes task bytes context images).
Proof. revert images. induction indexes; intros; cbn [read_images]; unfold read_c_string; answer. Qed.
#[local] Hint Resolve total_read_images : cm.
Lemma total_list task (context : PluginContext) : total (enumerate_loaded_images task context).
Proof. unfold enumerate_loaded_images, or_text. answer. Qed.
Lemma total_whole_commands ncmds cmds (context : PluginContext) c : total (parse_commands (S (length cmds)) ncmds cmds 0 context c).
Proof. apply total_commands. lia. Qed.
#[local] Hint Resolve total_list total_whole_commands : cm.
Lemma total_metadata task i (context : PluginContext) : total (compute_image_metadata task i context).
Proof. unfold compute_image_metadata. answer. Qed.
#[local] Hint Resolve total_metadata : cm.
Lemma total_slides task images (context : PluginContext) : total (compute_all_slides task images context).
Proof. induction images; cbn [compute_all_slides]; answer. Qed.
#[local] Hint Resolve total_slides : cm.
Lemma total_collect task (context : PluginContext) previous : total (collect_images task context previous).
Proof. unfold collect_images, or_text. answer. Qed.

End Answers.

(** C32. Whatever bytes the task has, the image collector answers and only reads. It either
    leaves the images of the event as they were and says why, or at most 2000 images in
    the order of their base addresses: none has a range without a slide, a slide puts the
    text at the base address and every segment, never empty, above the slide, and no
    address leaves 64 bits. Any address resolves to the first of them whose text holds it,
    with its distance from the base, or to nothing when none does. *)
Theorem images_collected_sound {E : Type} {clock : Clock E} {target : TargetOps E} {byte_memory : ByteMemory E} {Txn Ctx : Type}
    (task : Z) (context : PluginContext Txn Ctx) (previous : list RawImageData) (w : World E TargetStep) :
  ∃ out w' l, collect_images task context previous w = (Some out, w') ∧ trace w' = trace w ++ l ∧
    Forall reading l ∧ collected previous out.
Proof. apply (settled_ends (budget := λ _, 0%nat) 1); [apply total_collect|apply inspects_collect|lia]. Qed.

(** The memory of the example. *)
Module ExampleMemory.
Import Example.

Lemma memory_bytes : Forall (λ p : Z * list Z, is_bytes p.2) memory.
Proof.
  assert (forallb (λ p : Z * list Z, forallb (λ b, (0 <=? b) && (b <? 256)) p.2) memory = true) as H by (vm_compute; reflexivity).
  apply Forall_forall. intros p Hp. rewrite forallb_forall in H. specialize (H p (proj1 (list_elem_of_In _ _) Hp)).
  apply Forall_forall. intros b Hb. rewrite forallb_forall in H. specialize (H b (proj1 (list_elem_of_In _ _) Hb)). lia.
Qed.

#[export] Instance byte_memory : ByteMemory unit.
Proof.
  split. intros task a n e bytes. cbn [vm_bytes target fst].
  destruct (list_find (λ p, p.1 = a) memory) as [[i [k l]]|] eqn:Hf; [|done]. intros [= <-].
  apply list_find_Some in Hf as (Hi & _ & _). apply Forall_take.
  exact (proj1 (Forall_lookup _ _) memory_bytes i _ Hi).
Qed.

End ExampleMemory.
Import Example.
Import ExampleMemory.

Lemma images_collected_sound_witness :
  (collect_images 7 Example.no_deadline [] Example.idle).1 = Some (Ok tt, [Example.app]) ∧
  resolve_address [Example.app] (Example.base + 4096) = (Some "app"%string, Some 4096) ∧
  ∃ out w' l, collect_images 7 Example.no_deadline [] Example.idle = (Some out, w') ∧ trace w' = [] ++ l ∧
    Forall reading l ∧ collected [] out.
Proof.
  split_and!; [vm_compute; reflexivity|vm_compute; reflexivity|].
  exact (images_collected_sound 7 Example.no_deadline [] Example.idle).
Defined.

End ImageRanges.
