(* ===== verification/Memory.v ===== *)
(** * Memory map and heap of a captured task (src/collectors/memory.rs, src/utils/vm_tags.rs)

    The collector keeps the regions of the walk, and sums them up by their malloc tags. The
    u32 and u64 additions wrap. *)

From stdpp Require Import strings pretty.
From S2P Require Import Prelude.
From S2P Require Import Traced.
From S2P Require Import Fueled.
From S2P Require Import PipelineTypes.
From S2P Require Import PluginRun.
From S2P Require Import TargetAccess.

Module Memory.
Export TargetAccess.
Export TargetAccessSpec.
#[local] Open Scope Z_scope.

Definition user_tag_labels : list (Z * string) :=
  [(1, "malloc"); (2, "malloc_small"); (3, "malloc_large"); (4, "malloc_huge"); (5, "sbrk"); (6, "realloc"); (7, "malloc_tiny");
   (8, "malloc_large_reusable"); (9, "malloc_large_reused"); (10, "malloc_nano"); (11, "malloc_medium"); (30, "Stack"); (31, "Guard");
   (33, "shared_memory"); (35, "dylib"); (36, "objc_dispatchers"); (37, "unshared_pmap"); (40, "appkit"); (41, "foundation");
   (43, "coreservices"); (44, "carbon"); (45, "java"); (46, "coredata"); (47, "coredata_objectids"); (50, "iokit");
   (51, "libdispatch"); (73, "libdispatch"); (52, "accelerate"); (53, "coreui"); (55, "dyld"); (56, "dyld_malloc"); (60, "sqlite");
   (61, "javascript_core"); (62, "javascript_jit_executable_allocator"); (63, "javascript_jit_register_file"); (64, "glsl");
   (65, "opencl"); (66, "coreimage"); (67, "webcore_purgeable_buffers"); (69, "imageio"); (70, "coreprofile"); (71, "assetsd");
   (72, "os_alloc_once"); (74, "neon"); (75, "iosurface"); (76, "libnetwork"); (77, "audio"); (78, "videobitstream"); (79, "atoms");
   (80, "cm_xpc"); (81, "cm_rpc"); (82, "cm_memorypool"); (83, "cm_readcache"); (85, "lowvm_object"); (86, "gpu_memory");
   (87, "cm_creadphotodatamodel")]%string.
Definition user_tag_label (tag : Z) : string :=
  match list_find (λ p, p.1 = tag) user_tag_labels with Some (_, (_, label)) => label | None => ""%string end.
Definition is_malloc_tag (tag : Z) : bool := bool_decide (1 ≤ tag ≤ 11 ∨ tag = 56).

Definition quality_text (q : VmRegionEnumerationQuality) : string :=
  match q with
  | Complete => "complete"
  | RegionLimit => "region limit reached"
  | QueryAttemptLimit => "query attempt limit reached"
  | ConsecutiveErrorLimit => "consecutive query error limit reached"
  | SkippedQueryErrors count => "completed with " +:+ pretty count +:+ " skipped query error(s)"
  | NoAddressProgress => "address made no forward progress"
  | AddressOverflow => "address overflow reached the terminal address"
  | CaptureDeadline => "capture deadline reached"
  end%string.

(** The regions, bytes and resident pages of a tag. *)
Definition group : Type := Z * Z * Z.
Definition add_to_group (region : VmRegionInfo) (g : group) : group :=
  let '(count, size, resident) := g in
  ((count + 1) mod 2 ^ 32, (size + region_size region) mod 2 ^ 64, (resident + pages_resident region) mod 2 ^ 32).

(** [BTreeMap::entry(tag).or_insert((0, 0, 0))], changed in place. *)
Fixpoint update_entry (tag : Z) (f : group → group) (groups : list (Z * group)) : list (Z * group) :=
  match groups with
  | [] => [(tag, f (0, 0, 0))]
  | (t, g) :: rest =>
      if decide (t = tag) then (t, f g) :: rest
      else if decide (tag < t) then (tag, f (0, 0, 0)) :: groups
      else (t, g) :: update_entry tag f rest
  end.

Definition zone_of_group (entry : Z * group) : RawMallocZone :=
  let '(tag, (count, size, resident)) := entry in mkMallocZone (user_tag_label tag) count size resident.

Section Memory.
Context {E : Type} {clock : Clock E} {target : TargetOps E} {Txn Ctx : Type}.
#[local] Notation fm := (fueled E TargetStep).
#[local] Notation PluginContext := (PluginContext Txn Ctx).

Definition collect_memory_map (turns : nat) (task : Z) (context : PluginContext)
    : fm (result string (list VmRegionInfo * VmRegionEnumerationQuality)) :=
  _ ←? checkpoint context;
  enumerate_vm_regions turns context task.

Fixpoint group_regions (regions : list VmRegionInfo) (context : PluginContext) (groups : list (Z * group))
    : fm (result string (list (Z * group))) :=
  match regions with
  | [] => mret (Ok groups)
  | region :: regions =>
      _ ←? checkpoint context;
      group_regions regions context
        (if is_malloc_tag (user_tag region) then update_entry (user_tag region) (add_to_group region) groups else groups)
  end.

Fixpoint zones_of_groups (groups : list (Z * group)) (context : PluginContext) (zones : list RawMallocZone)
    : fm (result string (list RawMallocZone)) :=
  match groups with
  | [] => mret (Ok zones)
  | entry :: groups => _ ←? checkpoint context; zones_of_groups groups context (zones ++ [zone_of_group entry])
  end.

Definition collect_heap_summary (task : Z) (regions : list VmRegionInfo) (context : PluginContext) : fm (result string RawHeapData) :=
  _ ←? checkpoint context;
  info ← ask (task_vm_info task);
  vm_summary ← match info with
               | Ok summary => mret (Some summary)
               | Err e => _ ← log ("[monitor] get_task_vm_info failed: " +:+ e)%string; mret None
               end;
  groups ←? group_regions regions context [];
  zones ←? zones_of_groups groups context [];
  mret (Ok (mkHeapData vm_summary zones)).

(** [MemoryCollector::collect] on the map and the heap that the event has. *)
Definition collect_memory (turns : nat) (task : Z) (context : PluginContext) (memory_map : list VmRegionInfo) (heap : RawHeapData)
    : fm (result string unit * list VmRegionInfo * RawHeapData) :=
  mapped ← (_ ←? checkpoint context; collect_memory_map turns task context);
  match mapped with
  | Err error => mret (Err error, memory_map, heap)
  | Ok (memory_map, quality) =>
      summed ← collect_heap_summary task memory_map context;
      match summed with
      | Err error => mret (Err error, memory_map, heap)
      | Ok heap =>
          checked ← checkpoint context;
          mret (match checked with
                | Err error => Err error
                | Ok _ => if is_complete quality then Ok tt
                          else Err ("VM region enumeration returned partial data: " +:+ quality_text quality)%string
                end, memory_map, heap)
      end
  end.

End Memory.

(** ** Sums by tag *)

Definition malloc_tags : list Z := [1; 2; 3; 4; 5; 6; 7; 8; 9; 10; 11; 56].
Definition with_tag (tag : Z) (regions : list VmRegionInfo) : list VmRegionInfo := filter (λ r, user_tag r = tag) regions.
Definition sum_of (f : VmRegionInfo → Z) (regions : list VmRegionInfo) : Z := foldr Z.add 0 (map f regions).

(** The zone of a tag that some region has. *)
Definition zone_with_tag (regions : list VmRegionInfo) (tag : Z) : option RawMallocZone :=
  match with_tag tag regions with
  | [] => None
  | tagged => Some (mkMallocZone (user_tag_label tag) (Z.of_nat (length tagged)) (sum_of region_size tagged) (sum_of pages_resident tagged))
  end.

(** The entries of a function on tags, in their order. *)
Definition entries (G : Z → option group) (tags : list Z) : list (Z * group) := omap (λ t, pair t <$> G t) tags.

Lemma entries_cons G t tags : entries G (t :: tags) = match G t with Some g => (t, g) :: entries G tags | None => entries G tags end.
Proof. unfold entries. cbn. by destruct (G t). Qed.

Lemma entries_ext G G' tags : (∀ t, t ∈ tags → G t = G' t) → entries G tags = entries G' tags.
Proof.
  induction tags as [|t tags IH]; intros H; [done|]. rewrite !entries_cons, (H t) by set_solver. rewrite IH; [done|]. intros. apply H. by right.
Qed.

Definition updated (tag : Z) (f : group → group) (G : Z → option group) (t : Z) : option group :=
  if decide (t = tag) then Some (f (default (0, 0, 0) (G tag))) else G t.

(** Behind an inserted tag everything is greater. *)
Lemma update_front tag f G tags :
  Forall (λ t, tag < t) tags → update_entry tag f (entries G tags) = (tag, f (0, 0, 0)) :: entries G tags.
Proof.
  intros Ht. induction Ht as [|t tags Ht _ IH]; [done|]. rewrite entries_cons. destruct (G t); [|done].
  cbn [update_entry]. rewrite decide_False, decide_True by lia. done.
Qed.

Lemma update_entries tag f G tags :
  StronglySorted Z.lt tags → tag ∈ tags → update_entry tag f (entries G tags) = entries (updated tag f G) tags.
Proof.
  intros Hs. induction Hs as [|t tags Hs IH Ht]; intros Hin; [by apply not_elem_of_nil in Hin|]. rewrite !entries_cons. unfold updated at 1.
  destruct (decide (t = tag)) as [->|Hne].
  - assert (entries (updated tag f G) tags = entries G tags) as ->.
    { apply entries_ext. intros t' Ht'. unfold updated. rewrite Forall_forall in Ht. specialize (Ht t' Ht'). by rewrite decide_False by lia. }
    destruct (G tag) as [g|]; [cbn [update_entry]; by rewrite decide_True|]. by apply update_front.
  - apply elem_of_cons in Hin as [->|Hin]; [done|]. rewrite <-IH by done. destruct (G t); [|done].
    cbn [update_entry]. rewrite decide_False by done. rewrite Forall_forall in Ht. specialize (Ht tag Hin). by rewrite decide_False by lia.
Qed.

(** What the regions make of the group of a tag. *)
Definition grouped (regions : list VmRegionInfo) (G : Z → option group) (t : Z) : option group :=
  fold_left (λ g r, Some (add_to_group r (default (0, 0, 0) g))) (with_tag t regions) (G t).

Lemma malloc_tag_in tag : is_malloc_tag tag = true → tag ∈ malloc_tags.
Proof. unfold is_malloc_tag, malloc_tags. rewrite bool_decide_eq_true. intros. rewrite !elem_of_cons. lia. Qed.
Lemma malloc_tags_sorted : StronglySorted Z.lt malloc_tags.
Proof. unfold malloc_tags. repeat constructor; lia. Qed.

Lemma with_tag_cons t r regions : with_tag t (r :: regions) = if decide (user_tag r = t) then r :: with_tag t regions else with_tag t regions.
Proof. unfold with_tag. by rewrite filter_cons. Qed.

Lemma sum_of_cons f r regions : sum_of f (r :: regions) = f r + sum_of f regions.
Proof. done. Qed.

(** *** Without overflow *)

Definition sums_fit (regions : list VmRegionInfo) (g : group) : Prop :=
  g.1.1 + Z.of_nat (length regions) < 2 ^ 32 ∧ g.1.2 + sum_of region_size regions < 2 ^ 64 ∧ g.2 + sum_of pages_resident regions < 2 ^ 32.

Definition counted (r : VmRegionInfo) : Prop := 0 ≤ region_size r ∧ 0 ≤ pages_resident r.

Lemma sum_nonneg f regions : Forall (λ r, 0 ≤ f r) regions → 0 ≤ sum_of f regions.
Proof. intros H. induction H; [done|]. rewrite sum_of_cons. lia. Qed.

Lemma fold_groups regions c s p :
  Forall counted regions → 0 ≤ c → 0 ≤ s → 0 ≤ p → sums_fit regions (c, s, p) →
  fold_left (λ g r, Some (add_to_group r (default (0, 0, 0) g))) regions (Some (c, s, p)) =
    Some (c + Z.of_nat (length regions), s + sum_of region_size regions, p + sum_of pages_resident regions).
Proof.
  intros H. revert c s p. induction H as [|r regions [H1 H2] H IH]; intros c s p Hc Hs Hp (F1 & F2 & F3); cbn [fold_left].
  { unfold sum_of. cbn. by rewrite !Z.add_0_r. }
  assert (0 ≤ sum_of region_size regions ∧ 0 ≤ sum_of pages_resident regions) as [N1 N2].
  { split; apply sum_nonneg; eapply Forall_impl; try exact H; intros ? []; done. }
  rewrite sum_of_cons in F2, F3. cbn [fst snd length] in *.
  assert (add_to_group r (default (0, 0, 0) (Some (c, s, p))) = (c + 1, s + region_size r, p + pages_resident r)) as ->.
  { change (add_to_group r (c, s, p) = (c + 1, s + region_size r, p + pages_resident r)). unfold add_to_group. cbv iota.
    by rewrite !Z.mod_small by lia. }
  rewrite IH; [|lia..|split_and!; cbn [fst snd]; lia].
  rewrite !sum_of_cons. cbn [length]. do 2 f_equal; [f_equal|]; lia.
Qed.

Lemma fold_groups_fresh regions :
  Forall counted regions → sums_fit regions (0, 0, 0) →
  fold_left (λ g r, Some (add_to_group r (default (0, 0, 0) g))) regions None =
    match regions with
    | [] => None
    | _ => Some (Z.of_nat (length regions), sum_of region_size regions, sum_of pages_resident regions)
    end.
Proof.
  intros H F. destruct regions as [|r regions]; [done|].
  pose proof (fold_groups (r :: regions) 0 0 0 H ltac:(lia) ltac:(lia) ltac:(lia) F) as Hf. cbn [fold_left default] in *. exact Hf.
Qed.

Lemma sum_of_sublist f regions regions' : Forall (λ r, 0 ≤ f r) regions' → sublist regions regions' → sum_of f regions ≤ sum_of f regions'.
Proof.
  intros H Hs. revert H. induction Hs as [|r l l' Hs IH|r l l' Hs IH]; intros H; [done|..];
    apply Forall_cons in H as [Hr H]; specialize (IH H); rewrite ?sum_of_cons; lia.
Qed.

(** Regions that do not overlap have fewer bytes than the address space. *)
Lemma sum_disjoint lo hi regions :
  StronglySorted apart regions → Forall (λ r, lo ≤ region_address r ∧ 0 < region_size r ∧ region_end r ≤ hi) regions → lo ≤ hi →
  sum_of region_size regions ≤ hi - lo.
Proof.
  revert lo. induction regions as [|r regions IH]; intros lo Hs H Hlo; [unfold sum_of; cbn; lia|].
  apply StronglySorted_inv in Hs as [Hs Ha]. apply Forall_cons in H as [(H1 & H2 & H3) H]. rewrite sum_of_cons.
  unfold region_end in *. assert (sum_of region_size regions ≤ hi - (region_address r + region_size r)); [|lia].
  apply IH; [done| |lia]. rewrite Forall_forall in H, Ha |- *. intros x Hx. specialize (H x Hx). specialize (Ha x Hx).
  unfold apart, region_end in Ha. lia.
Qed.

Lemma sublist_with_tag t regions : sublist (with_tag t regions) regions.
Proof. unfold with_tag. induction regions; [done|]. rewrite filter_cons. case_decide; by constructor. Qed.

(** *** The computation *)

(** A map whose sums fit: regions apart within 64 bits, and fewer than 2^32 resident pages. *)
Definition summable (regions : list VmRegionInfo) : Prop :=
  StronglySorted apart regions ∧ Forall (λ r, 0 ≤ region_address r ∧ 0 < region_size r ∧ region_end r ≤ U64_MAX ∧ 0 ≤ pages_resident r) regions ∧
  sum_of pages_resident regions < 2 ^ 32.

Lemma summable_fits regions t : summable regions → Z.of_nat (length regions) ≤ MAX_VM_REGIONS →
  Forall counted (with_tag t regions) ∧ sums_fit (with_tag t regions) (0, 0, 0).
Proof.
  intros (Hs & Hf & Hp) Hlen. pose proof (sublist_with_tag t regions) as Hsub.
  assert (Forall counted regions) as Hc by (eapply Forall_impl; [exact Hf|]; intros r; unfold counted; lia).
  split.
  - rewrite Forall_forall in Hc |- *. intros r Hr. apply Hc. by apply list_elem_of_filter in Hr as [_ Hr].
  - assert (sum_of region_size regions ≤ U64_MAX - 0).
    { apply sum_disjoint; [done| |unfold U64_MAX; lia]. eapply Forall_impl; [exact Hf|]. intros r. cbn. lia. }
    pose proof (sum_of_sublist region_size _ _ ltac:(eapply Forall_impl; [exact Hc|]; by intros ? []) Hsub).
    pose proof (sum_of_sublist pages_resident _ _ ltac:(eapply Forall_impl; [exact Hc|]; by intros ? []) Hsub).
    pose proof (sublist_length _ _ Hsub). unfold U64_MAX, MAX_VM_REGIONS in *. split_and!; cbn [fst snd]; lia.
Qed.

Section Spec.
Context {E : Type} {clock : Clock E} {target : TargetOps E} {Txn Ctx : Type}.
#[local] Notation fm := (fueled E TargetStep).
#[local] Notation PluginContext := (PluginContext Txn Ctx).

Lemma inspects_groups regions (context : PluginContext) G :
  inspects (λ r, ∀ out, r = Ok out → out = entries (grouped regions G) malloc_tags)
    (group_regions regions context (entries G malloc_tags)).
Proof.
  revert G. induction regions as [|r regions IH]; intros G; cbn [group_regions].
  { apply inspects_ret. intros out [= <-]. done. }
  apply (inspects_check (λ out, out = entries (grouped (r :: regions) G) malloc_tags)).
  destruct (is_malloc_tag (user_tag r)) eqn:Htag.
  - rewrite update_entries by (apply malloc_tags_sorted || by apply malloc_tag_in). eapply inspects_impl; [apply IH|].
    intros out Hout l Hl. rewrite (Hout l Hl). apply entries_ext. intros t Ht. unfold grouped, updated. rewrite with_tag_cons.
    destruct (decide (user_tag r = t)) as [<-|Hne]; [by rewrite decide_True|by rewrite decide_False].
  - eapply inspects_impl; [apply IH|]. intros out Hout l Hl. rewrite (Hout l Hl). apply entries_ext. intros t Ht. unfold grouped.
    rewrite with_tag_cons, decide_False; [done|]. intros <-. unfold malloc_tags in Ht. unfold is_malloc_tag in Htag.
    apply bool_decide_eq_false in Htag. apply Htag. rewrite !elem_of_cons in Ht.
    repeat (destruct Ht as [Ht|Ht]; [lia|]). by apply not_elem_of_nil in Ht.
Qed.

Lemma inspects_zones groups (context : PluginContext) zones :
  inspects (λ r, ∀ out, r = Ok out → out = zones ++ map zone_of_group groups) (zones_of_groups groups context zones).
Proof.
  revert zones. induction groups as [|g groups IH]; intros zones; cbn [zones_of_groups].
  { apply inspects_ret. intros out [= <-]. by rewrite app_nil_r. }
  apply (inspects_check (λ out, out = zones ++ map zone_of_group (g :: groups))). eapply inspects_impl; [apply IH|].
  intros out Hout l Hl. rewrite (Hout l Hl). by rewrite <-app_assoc.
Qed.

Lemma map_omap_pair {A : Type} (G : Z → option group) (f : Z * group → A) tags :
  map f (entries G tags) = omap (λ t, (λ g, f (t, g)) <$> G t) tags.
Proof. induction tags as [|t tags IH]; [done|]. rewrite entries_cons. cbn. destruct (G t); cbn; by rewrite IH. Qed.

Lemma inspects_heap task regions (context : PluginContext) :
  summable regions → Z.of_nat (length regions) ≤ MAX_VM_REGIONS →
  inspects (λ r, ∀ heap, r = Ok heap → malloc_zones heap = omap (zone_with_tag regions) malloc_tags)
    (collect_heap_summary task regions context).
Proof.
  intros Hs Hlen. set (P := λ heap, malloc_zones heap = omap (zone_with_tag regions) malloc_tags).
  unfold collect_heap_summary. apply (inspects_check P). eapply inspects_any; [apply inspects_ask|]. intros info.
  eapply inspects_any.
  { instantiate (1 := λ _, True). destruct info; [by apply inspects_ret|]. unfold log. eapply inspects_any; [by apply inspects_step|]. intros _. by apply inspects_ret. }
  intros vm. apply (inspects_try (λ groups, groups = entries (grouped regions (λ _, None)) malloc_tags)); [apply (inspects_groups regions context (λ _, None))|].
  intros groups ->. eapply inspects_try; [apply inspects_zones|]. intros zones ->. apply inspects_ret. intros heap [= <-].
  change (map zone_of_group (entries (grouped regions (λ _, None)) malloc_tags) = omap (zone_with_tag regions) malloc_tags). rewrite map_omap_pair. apply list_omap_ext, Forall_Forall2_diag, Forall_forall. intros t _. unfold grouped, zone_with_tag.
  destruct (summable_fits regions t Hs Hlen) as [Hc Hf]. rewrite fold_groups_fresh by done. by destruct (with_tag t regions).
Qed.

(** *** The collector *)

(** The walk as its own computation. *)
Lemma ends_walk {R : list VmRegionInfo} {mapped : Mapped E R} turns task (context : PluginContext) page :
  host_page_size = Ok page →
  ends (λ l r, ∃ regions quality, r = Ok (regions, quality) ∧ finished (R := R) regions quality l)
    (enumerate_vm_regions turns context task).
Proof.
  intros Hpage. unfold enumerate_vm_regions. rewrite Hpage.
  assert (0 < page) as Hpos by (unfold host_page_size in Hpage; repeat case_decide; simplify_eq; lia).
  eapply (ends_bind (λ l r, l = [] ∧ r = Ok page)); [by apply ends_ret|]. intros l r [-> ->].
  eapply ends_bind; [apply (ends_enumerate (R := R) turns context task [])|].
  - split; try done; [apply sublist_nil_l|]. intros _. symmetry. apply below_zero, mapped_regions.
  - intros l [regions quality] Hf. apply ends_ret. rewrite app_nil_r. by exists regions, quality.
Qed.

Lemma total_region_walk turns task (context : PluginContext) page :
  host_page_size = Ok page → MAX_VM_REGION_QUERY_ATTEMPTS < Z.of_nat turns → total (enumerate_vm_regions turns context task).
Proof.
  intros Hpage Hturns. unfold enumerate_vm_regions. rewrite Hpage. apply total_then_target; [apply total_ret_target|]. intros [p|e]; [|apply total_ret_target].
  apply total_then_target; [|intros; apply total_ret_target]. apply total_enumerate; cbn; unfold MAX_VM_REGION_QUERY_ATTEMPTS, MAX_VM_REGIONS in *; lia.
Qed.

Lemma total_groups regions (context : PluginContext) groups : total (group_regions regions context groups).
Proof. revert groups. induction regions; intros; cbn [group_regions]; answer. Qed.
Lemma total_zones groups (context : PluginContext) zones : total (zones_of_groups groups context zones).
Proof. revert zones. induction groups; intros; cbn [zones_of_groups]; answer. Qed.
#[local] Hint Resolve total_groups total_zones : cm.
Lemma total_heap task regions (context : PluginContext) : total (collect_heap_summary task regions context).
Proof. unfold collect_heap_summary, log. answer. Qed.

(** What the collector leaves in the event, which had [map0] and [heap0] before. *)
Definition memory_collected {R : list VmRegionInfo} (map0 : list VmRegionInfo) (heap0 : RawHeapData) (l : list TargetStep)
    (out : result string unit * list VmRegionInfo * RawHeapData) : Prop :=
  let '(r, memory_map, heap) := out in
  (∃ error, r = Err error ∧ memory_map = map0 ∧ heap = heap0) ∨
  ∃ quality l1 l2, l = l1 ++ l2 ∧ finished (R := R) memory_map quality l1 ∧ Forall reading l2 ∧
    (heap = heap0 ∧ is_ok r = false ∨ malloc_zones heap = omap (zone_with_tag memory_map) malloc_tags) ∧
    (r = Ok tt → quality = Complete ∧ memory_map = R).

Lemma summable_sublist regions R : sublist regions R → summable R → summable regions.
Proof.
  intros Hsub (Hs & Hf & Hp).
  assert (Forall (λ r, 0 ≤ pages_resident r) R) as Hpages by (eapply Forall_impl; [exact Hf|]; intros r; cbn; lia).
  pose proof (sum_of_sublist pages_resident _ _ Hpages Hsub) as Hsum.
  split_and!; [|rewrite Forall_forall in Hf |- *; intros r Hr; apply Hf; by eapply elem_of_sublist|lia]. clear Hf Hp Hpages Hsum.
  induction Hsub as [|r l l' Hsub IH|r l l' Hsub IH]; [done|..]; apply StronglySorted_inv in Hs as [Hs Ha]; [|by apply IH].
  constructor; [by apply IH|]. rewrite Forall_forall in Ha |- *. intros x Hx. apply Ha. by eapply elem_of_sublist.
Qed.

Lemma ends_memory {R : list VmRegionInfo} {mapped : Mapped E R} turns task (context : PluginContext) page map0 heap0 :
  host_page_size = Ok page → summable R →
  ends (memory_collected (R := R) map0 heap0) (collect_memory turns task context map0 heap0).
Proof.
  intros Hpage Hsum. unfold collect_memory.
  apply (ends_bind (λ l r, match r with Ok (regions, quality) => finished (R := R) regions quality l | Err _ => True end)).
  { apply ends_checkpoint. intros [[]|error]; [|by apply ends_ret]. unfold collect_memory_map. apply ends_checkpoint.
    intros [[]|error]; [|by apply ends_ret]. eapply ends_impl; [by eapply ends_walk|]. by intros l r (regions & quality & -> & Hf). }
  intros l [[regions quality]|error] Hf; [|apply ends_ret; left; by exists error].
  assert (summable regions ∧ Z.of_nat (length regions) ≤ MAX_VM_REGIONS) as [Hs Hlen].
  { destruct Hf as (_ & _ & Hsub & Hlen & _). split; [by eapply summable_sublist|done]. }
  eapply ends_bind; [apply (inspects_heap task regions context Hs Hlen)|].
  intros l2 [heap|error] [Hl2 Hheap].
  - apply ends_checkpoint. intros checked. apply ends_ret. right. exists quality, l, l2. rewrite app_nil_r. split_and!; try done.
    + right. by apply Hheap.
    + destruct checked; [|done]. destruct quality; try done. intros _. split; [done|]. by destruct Hf as (_ & _ & _ & _ & ->).
  - apply ends_ret. right. exists quality, l, l2. rewrite app_nil_r. split_and!; try done. by left.
Qed.

Lemma total_memory turns task (context : PluginContext) page map0 heap0 :
  host_page_size = Ok page → MAX_VM_REGION_QUERY_ATTEMPTS < Z.of_nat turns → total (collect_memory turns task context map0 heap0).
Proof.
  intros Hpage Hturns. assert (total (enumerate_vm_regions turns context task)) as Hwalk by (by eapply total_region_walk).
  pose proof (total_heap task) as Hheap. unfold collect_memory, collect_memory_map. answer.
Qed.

End Spec.

(** C34. The memory collector answers. For a task whose regions do not change meanwhile, it
    either leaves the event as it was and says why, or it leaves the regions of the walk,
    and in the heap one zone for every malloc tag among them, in the order of the tags, with
    the exact count, bytes and resident pages: nothing wraps, as long as the regions lie
    within 64 bits and have fewer than 2^32 resident pages. It succeeds only when the walk
    was complete, so that the map has all regions of the task. *)
Theorem memory_map_and_heap_exact {E : Type} {clock : Clock E} {target : TargetOps E} {Txn Ctx : Type} {R : list VmRegionInfo}
    {mapped : Mapped E R} (turns : nat) (task page : Z) (context : PluginContext Txn Ctx) (map0 : list VmRegionInfo)
    (heap0 : RawHeapData) (w : World E TargetStep) :
  host_page_size = Ok page → MAX_VM_REGION_QUERY_ATTEMPTS < Z.of_nat turns → summable R →
  ∃ out w' l, collect_memory turns task context map0 heap0 w = (Some out, w') ∧ trace w' = trace w ++ l ∧
    memory_collected (R := R) map0 heap0 l out.
Proof.
  intros Hpage Hturns Hsum. apply (settled_ends (budget := λ _, 0%nat) 1); [by eapply total_memory|by eapply ends_memory|lia].
Qed.

Import TargetAccessSpec.Example.

Lemma memory_map_and_heap_exact_witness :
  (collect_memory 9 7 no_deadline [] (mkHeapData None []) idle).1 =
    Some (Ok tt, [low; high], mkHeapData None [mkMallocZone "malloc" 1 8192 2]) ∧
  ∃ turns out w' l, collect_memory turns 7 no_deadline [] (mkHeapData None []) idle = (Some out, w') ∧ trace w' = [] ++ l ∧
    memory_collected (R := layout) [] (mkHeapData None []) l out.
Proof.
  split; [vm_compute; reflexivity|]. destruct enough_turns as [turns Ht]. exists turns.
  apply (memory_map_and_heap_exact (R := layout) turns 7 4096 no_deadline [] (mkHeapData None []) idle); [reflexivity|exact Ht|].
  split_and!; [repeat constructor; unfold apart, region_end; cbn; lia| |vm_compute; reflexivity].
  repeat constructor; unfold region_end, U64_MAX; cbn; lia.
Defined.

End Memory.
