(* ===== verification/Symbols.v ===== *)
(** * Symbols of backtraces (src/preprocessors/symbolicate.rs)

    The addresses of the captured backtraces are resolved from the symbol tables of the
    image files on disk. Files, headers and tables are untrusted: every size is bounded. *)

From stdpp Require Import gmap strings pretty.
From stdpp Require Import gmap strings.
From S2P Require Import Prelude.
From S2P Require Import Traced.
From S2P Require Import Fueled.
From S2P Require Import ShmReader.
From S2P Require Import PipelineTypes.
From S2P Require Import PluginRun.
From S2P Require Import PluginFiles.
From S2P Require TargetAccess.
From S2P Require Images.
From S2P Require Import ShmSnapshot.
From S2P Require PathsSpec.

Module Symbols.
Export PluginFiles.
#[local] Open Scope Z_scope.
Notation read_u32_le := TargetAccess.TargetAccess.read_u32_le (only parsing).
Notation read_u64_le := TargetAccess.TargetAccess.read_u64_le (only parsing).
Notation lossy_string := TargetAccess.TargetAccess.lossy_string (only parsing).

Definition MH_MAGIC_64 : Z := 4277009103.
Definition LC_SYMTAB : Z := 2.
Definition N_SECT : Z := 14.
Definition N_TYPE_MASK : Z := 14.

Definition MAX_THREADS_TO_SYMBOLICATE : nat := Z.to_nat 4096.
Definition MAX_BACKTRACE_FRAMES_TO_SYMBOLICATE : Z := 128 * 1024.
Definition MAX_UNIQUE_ADDRESSES_TO_SYMBOLICATE : Z := 64 * 1024.
Definition MAX_IMAGES_TO_SYMBOLICATE : nat := Z.to_nat 2000.

Definition MAX_FILE_SIZE : Z := 256 * 1024 * 1024.
Definition FILE_READ_BUFFER_SIZE : Z := 64 * 1024.
Definition MAX_FILE_READ_ATTEMPTS_PER_CHUNK : nat := Z.to_nat 1024.
Definition MAX_LOAD_COMMANDS : Z := 64 * 1024.
Definition MAX_COMMAND_BYTES : Z := 1024 * 1024.
Definition MAX_NLIST_ENTRIES : Z := 2000000.
Definition MAX_SYMBOL_NAME_BYTES : Z := 4096.
Definition MAX_TOTAL_SYMBOL_NAME_BYTES : Z := 64 * 1024 * 1024.
Definition MAX_FUNCTION_SYMBOLS : Z := 500000.
Definition MAX_SYMBOL_DISTANCE : Z := 1024 * 1024.

Record NlistEntry := mkNlist { nlist_address : Z; nlist_name : string }.
Record SymtabInfo := mkSymtab { sym_offset : Z; nsyms : Z; str_offset : Z; str_size : Z }.

(** [canonicalize] is [fs::canonicalize]; [open_final] opens without following the last link. *)
Class SymbolOps (E : Type) := {
  canonicalize : string → E → result IoError PathBuf * E;
  open_final : PathBuf → E → result IoError Z * E
}.

(** [?] on an option inside a computation. *)
Notation "x ←! m ; k" := (m ≫= λ o, match o with Some x => k | None => mret None end)
  (at level 20, m at level 100, k at level 200, only parsing) : stdpp_scope.

Definition value_of (b : Byte) : Z := Z.of_N (Strings.Byte.to_N b).
Definition ok {e A : Type} (r : result e A) : option A := match r with Ok a => Some a | Err _ => None end.

(** ** Tables *)

Definition without_underscore (name : string) : string :=
  match name with String c rest => if decide (c = Ascii.ascii_of_nat 95) then rest else name | EmptyString => name end.

(** One entry of a symbol table: [None] ends the table, [Some None] is not a function. *)
Definition nlist_entry (nlist strtab : list Z) (slide i : Z) : option (option NlistEntry) :=
  let off := i * 16 in
  n_strx ← read_u32_le nlist off;
  n_type ← nlist !! Z.to_nat (off + 4);
  n_value ← read_u64_le nlist (off + 8);
  if decide (Z.land n_type N_TYPE_MASK ≠ N_SECT ∨ n_value = 0) then Some None
  else if decide (Z.of_nat (length strtab) ≤ n_strx) then Some None
  else
    let name_bytes := drop (Z.to_nat n_strx) strtab in
    raw_name ← before_nul (take (Z.to_nat (MAX_SYMBOL_NAME_BYTES + 1)) name_bytes);
    if decide (MAX_SYMBOL_NAME_BYTES < Z.of_nat (length raw_name)) then Some None
    else Some (Some (mkNlist ((n_value + slide) mod 2 ^ 64) (without_underscore (lossy_string raw_name)))).

(** [partition_point] of a list whose addresses ascend. *)
Fixpoint partition_point (p : NlistEntry → bool) (l : list NlistEntry) : nat :=
  match l with [] => O | x :: l => if p x then S (partition_point p l) else O end.

Definition find_symbol (sorted_syms : list NlistEntry) (address : Z) : option string :=
  let idx := partition_point (λ s, bool_decide (nlist_address s ≤ address)) sorted_syms in
  match idx with
  | O => None
  | S idx =>
      sym ← sorted_syms !! idx;
      if decide (MAX_SYMBOL_DISTANCE < address - nlist_address sym) then None else Some (nlist_name sym)
  end.

Definition by_address (a b : NlistEntry) : bool := bool_decide (nlist_address a ≤ nlist_address b).

Section Symbols.
Context {E : Type} {clock : Clock E} {ops : FileOps E} {symbol_ops : SymbolOps E} {Txn Ctx : Type}.
#[local] Notation fm := (fueled E FileStep).
#[local] Notation PluginContext := (PluginContext Txn Ctx).

(** [context.checkpoint().ok()]. *)
Definition permitted (context : PluginContext) : fm (option unit) := r ← checkpoint context; mret (ok r).

(** ** Addresses *)

Fixpoint add_frames (frames : list Z) (max_frames max_unique : Z) (context : PluginContext) (seen : Z) (addresses : gset Z)
    : fm (result string (Z * gset Z * bool)) :=
  match frames with
  | [] => mret (Ok (seen, addresses, false))
  | address :: frames =>
      if decide (max_frames ≤ seen) then mret (Ok (seen, addresses, true)) else
      _ ←? checkpoint context;
      if decide (address = 0) then add_frames frames max_frames max_unique context (seen + 1) addresses else
      let addresses := addresses ∪ {[address]} in
      if decide (max_unique ≤ Z.of_nat (size addresses)) then mret (Ok (seen + 1, addresses, true))
      else add_frames frames max_frames max_unique context (seen + 1) addresses
  end.

Fixpoint add_threads (threads : list RawThreadData) (max_frames max_unique : Z) (context : PluginContext) (seen : Z)
    (addresses : gset Z) : fm (result string (gset Z)) :=
  match threads with
  | [] => mret (Ok addresses)
  | thread :: threads =>
      _ ←? checkpoint context;
      '(seen, addresses, full) ←? add_frames (backtrace thread) max_frames max_unique context seen addresses;
      if (full : bool) then mret (Ok addresses) else add_threads threads max_frames max_unique context seen addresses
  end.

(** The crashed threads come first. *)
Definition prioritized (threads : list RawThreadData) : list RawThreadData :=
  filter (λ t, crashed t = true) threads ++ filter (λ t, crashed t = false) threads.

Definition collect_symbolication_addresses (threads : list RawThreadData) (context : PluginContext) (max_threads : nat)
    (max_frames max_unique_addresses : Z) : fm (result string (list Z)) :=
  if decide (max_unique_addresses = 0) then mret (Ok []) else
  addresses ←? add_threads (take max_threads (prioritized threads)) max_frames max_unique_addresses context 0 ∅;
  mret (Ok (stable_sort Z.leb (elements addresses))).

(** ** Files *)

Fixpoint read_attempts (attempts : nat) (h n : Z) (context : PluginContext) : fm (option (list Byte)) :=
  _ ←! permitted context;
  match attempts with
  | O => mret None
  | S attempts =>
      r ← read h n;
      match r with
      | Ok b => mret (Some b)
      | Err Interrupted => read_attempts attempts h n context
      | Err _ => mret None
      end
  end.

(** [steps] bounds the chunks. *)
Fixpoint read_bounded (steps : nat) (h max_size : Z) (context : PluginContext) (data : list Byte) : fm (option (list Byte)) :=
  match steps with
  | O => starved
  | S steps =>
      _ ←! permitted context;
      let remaining_probe := max_size + 1 - Z.of_nat (length data) in
      if decide (remaining_probe < 0) then mret None else
      b ←! read_attempts MAX_FILE_READ_ATTEMPTS_PER_CHUNK h (Z.min remaining_probe FILE_READ_BUFFER_SIZE) context;
      _ ←! permitted context;
      if decide (b = []) then mret (Some data)
      else if decide (max_size < Z.of_nat (length data) + Z.of_nat (length b)) then mret None
      else read_bounded steps h max_size context (data ++ b)
  end.

Definition read_regular_file_bounded (fuel : nat) (path : string) (context : PluginContext) : fm (option (list Byte)) :=
  _ ←! permitted context;
  canonical ← io (canonicalize path) (λ canonical_path, [Resolved path canonical_path]);
  match canonical with
  | Err _ => mret None
  | Ok canonical_path =>
      _ ←! permitted context;
      opened ← io (open_final canonical_path) (λ h, [Opened canonical_path h]);
      match opened with
      | Err _ => mret None
      | Ok h =>
          _ ←! permitted context;
          metadata ← stat_handle h;
          match metadata with
          | Err _ => mret None
          | Ok metadata =>
              if negb (is_file metadata) || bool_decide (MAX_FILE_SIZE < len metadata) then mret None else
              _ ←! permitted context;
              read_bounded fuel h MAX_FILE_SIZE context []
          end
      end
  end.

(** ** Headers *)

Fixpoint find_symtab (commands : nat) (data : list Z) (load_commands_end offset : Z) (context : PluginContext)
    : fm (option SymtabInfo) :=
  match commands with
  | O => mret None
  | S commands =>
      _ ←! permitted context;
      if decide (load_commands_end < offset + 8) then mret None else
      match read_u32_le data offset, read_u32_le data (offset + 4) with
      | Some cmd, Some cmdsize =>
          let next_offset := offset + cmdsize in
          if decide (cmdsize < 8 ∨ load_commands_end < next_offset) then mret None
          else if decide (cmd = LC_SYMTAB ∧ 24 ≤ cmdsize) then
            mret (sym_offset ← read_u32_le data (offset + 8);
                  nsyms ← read_u32_le data (offset + 12);
                  str_offset ← read_u32_le data (offset + 16);
                  str_size ← read_u32_le data (offset + 20);
                  Some (mkSymtab sym_offset nsyms str_offset str_size))
          else find_symtab commands data load_commands_end next_offset context
      | _, _ => mret None
      end
  end.

Definition find_symtab_info (data : list Z) (context : PluginContext) : fm (option SymtabInfo) :=
  match (if decide (Z.of_nat (length data) < 32) then None else read_u32_le data 0), read_u32_le data 16, read_u32_le data 20 with
  | Some magic, Some ncmds, Some sizeofcmds =>
      let load_commands_end := 32 + sizeofcmds in
      if decide (magic ≠ MH_MAGIC_64 ∨ MAX_LOAD_COMMANDS < ncmds ∨ sizeofcmds < ncmds * 8 ∨ MAX_COMMAND_BYTES < sizeofcmds ∨
                 Z.of_nat (length data) < load_commands_end) then mret None
      else find_symtab (Z.to_nat ncmds) data load_commands_end 32 context
  | _, _, _ => mret None
  end.

(** ** Images *)

Fixpoint parse_nlist (indexes : list Z) (nlist strtab : list Z) (slide : Z) (context : PluginContext)
    (func_syms : list NlistEntry) (total_symbol_name_bytes : Z) : fm (option (list NlistEntry)) :=
  match indexes with
  | [] => mret (Some func_syms)
  | i :: indexes =>
      _ ←! permitted context;
      match nlist_entry nlist strtab slide i with
      | None => mret None
      | Some None => parse_nlist indexes nlist strtab slide context func_syms total_symbol_name_bytes
      | Some (Some entry) =>
          let total := total_symbol_name_bytes + Z.of_nat (String.length (nlist_name entry)) in
          if decide (MAX_TOTAL_SYMBOL_NAME_BYTES < total ∨ MAX_FUNCTION_SYMBOLS ≤ Z.of_nat (length func_syms)) then mret None
          else parse_nlist indexes nlist strtab slide context (func_syms ++ [entry]) total
      end
  end.

Fixpoint find_each (addresses : list Z) (syms : list NlistEntry) (context : PluginContext) (found : list (Z * string))
    : fm (option (list (Z * string))) :=
  match addresses with
  | [] => mret (Some found)
  | address :: addresses =>
      _ ←! permitted context;
      find_each addresses syms context
        match find_symbol syms address with Some sym => found ++ [(address, sym)] | None => found end
  end.

(** [bytes[start..end]]. *)
Definition slice (data : list Z) (start fin : Z) : list Z := take (Z.to_nat (fin - start)) (drop (Z.to_nat start) data).

Definition resolve_image_symbols_from_disk (fuel : nat) (img : RawImageData) (addresses : list Z) (context : PluginContext)
    : fm (option (list (Z * string))) :=
  _ ←! permitted context;
  file_data ←! read_regular_file_bounded fuel (image_path img) context;
  let data := map value_of file_data in
  symtab ←! find_symtab_info data context;
  if decide (MAX_NLIST_ENTRIES < nsyms symtab) then mret None else
  let sym_end := sym_offset symtab + nsyms symtab * 16 in
  let str_end := str_offset symtab + str_size symtab in
  if decide (Z.of_nat (length data) < sym_end ∨ Z.of_nat (length data) < str_end) then mret None else
  let strtab := slice data (str_offset symtab) str_end in
  let nlist_data := slice data (sym_offset symtab) sym_end in
  func_syms ←! parse_nlist (seqZ 0 (nsyms symtab)) nlist_data strtab (default 0 (slide img)) context [] 0;
  find_each addresses (stable_sort by_address func_syms) context [].

Definition extend (symbols : gmap Z string) (resolved : list (Z * string)) : gmap Z string :=
  fold_left (λ m '(a, s), <[a := s]> m) resolved symbols.

Fixpoint resolve_images (fuel : nat) (images : list RawImageData) (addresses : list Z) (context : PluginContext)
    (symbols : gmap Z string) : fm (result string (gmap Z string)) :=
  match images with
  | [] => mret (Ok symbols)
  | img :: images =>
      _ ←? checkpoint context;
      let img_addrs := filter (λ address, Images.Images.in_text address img = true) addresses in
      if decide (img_addrs = []) then resolve_images fuel images addresses context symbols else
      resolved ← resolve_image_symbols_from_disk fuel img img_addrs context;
      _ ←? checkpoint context;
      resolve_images fuel images addresses context (extend symbols (default [] resolved))
  end.

(** [SymbolResolver::process]: [previous] are the symbols that the event had before. *)
Definition resolve_symbols (fuel : nat) (threads : list RawThreadData) (images : list RawImageData) (context : PluginContext)
    (previous : gmap Z string) : fm (result string unit * gmap Z string) :=
  resolved ← (_ ←? checkpoint context;
              addresses ←? collect_symbolication_addresses threads context MAX_THREADS_TO_SYMBOLICATE
                             MAX_BACKTRACE_FRAMES_TO_SYMBOLICATE MAX_UNIQUE_ADDRESSES_TO_SYMBOLICATE;
              if decide (addresses = []) then mret (Ok None) else
              symbols ←? resolve_images fuel (take MAX_IMAGES_TO_SYMBOLICATE images) addresses context ∅;
              mret (Ok (Some symbols)));
  match resolved with
  | Err error => mret (Err error, previous)
  | Ok None => mret (Ok tt, previous)
  | Ok (Some symbols) =>
      _ ← (if decide (symbols = ∅) then mret tt else warn ("[monitor] SymbolResolver: resolved " +:+ pretty (size symbols) +:+ " symbols")%string);
      checked ← checkpoint context;
      mret (checked, symbols)
  end.

End Symbols.
End Symbols.

(** ** Where symbol names come from

    A resolved name is that of the nearest function at or below the address, in the symbol
    table of the image whose text holds it, read from a regular file. *)

Module SymbolsSpec.
Export Symbols.
Export PluginFilesSpec.
#[local] Open Scope Z_scope.

(** ** What a symbol table says *)

(** The offsets of the load commands. *)
Inductive at_command (data : list Z) : Z → Prop :=
| first_command : at_command data 32
| next_command o size : at_command data o → read_u32_le data (o + 4) = Some size → 8 ≤ size → at_command data (o + size).

Definition symtab_command (data : list Z) (info : SymtabInfo) : Prop :=
  ∃ o size, at_command data o ∧ read_u32_le data o = Some LC_SYMTAB ∧ read_u32_le data (o + 4) = Some size ∧ 24 ≤ size ∧
    read_u32_le data (o + 8) = Some (sym_offset info) ∧ read_u32_le data (o + 12) = Some (nsyms info) ∧
    read_u32_le data (o + 16) = Some (str_offset info) ∧ read_u32_le data (o + 20) = Some (str_size info).

(** A name as it is shown: without the underscore that C puts before it. *)
Definition plain (name : string) : string := match name with String c rest => if bool_decide (Ascii.nat_of_ascii c = 95%nat) then rest else name | EmptyString => name end.

(** The function that the entry at an index describes, if it describes one: its type is that
    of a symbol in a section, its value is not zero, and its name is a string of at most
    4096 bytes in the string table. *)
Definition function_at (nlist strtab : list Z) (slide i : Z) : option NlistEntry :=
  match read_u32_le nlist (16 * i), nlist !! Z.to_nat (16 * i + 4), read_u64_le nlist (16 * i + 8) with
  | Some n_strx, Some n_type, Some n_value =>
      if bool_decide (Z.land n_type 14 = 14) && negb (bool_decide (n_value = 0)) && bool_decide (n_strx < Z.of_nat (length strtab)) then
        match before_nul (drop (Z.to_nat n_strx) strtab) with
        | Some raw =>
            if bool_decide (Z.of_nat (length raw) ≤ 4096) then Some (mkNlist ((n_value + slide) mod 2 ^ 64) (plain (lossy_string raw))) else None
        | None => None
        end
      else None
  | _, _, _ => None
  end.

Definition name_bytes (table : list NlistEntry) : Z := foldr Z.add 0 (map (λ e, Z.of_nat (String.length (nlist_name e))) table).

(** The functions of a Mach-O file, at their run-time addresses. *)
Definition function_table (data : list Z) (slide : Z) (table : list NlistEntry) : Prop :=
  read_u32_le data 0 = Some MH_MAGIC_64 ∧
  ∃ info, symtab_command data info ∧
    sym_offset info + nsyms info * 16 ≤ Z.of_nat (length data) ∧ str_offset info + str_size info ≤ Z.of_nat (length data) ∧
    table = omap (function_at (slice data (sym_offset info) (sym_offset info + nsyms info * 16))
                    (slice data (str_offset info) (str_offset info + str_size info)) slide) (seqZ 0 (nsyms info)) ∧
    Z.of_nat (length table) ≤ MAX_FUNCTION_SYMBOLS ∧ name_bytes table ≤ MAX_TOTAL_SYMBOL_NAME_BYTES.

(** No function of the table lies between the named one and the address. *)
Definition nearest (table : list NlistEntry) (a : Z) (name : string) : Prop :=
  ∃ e, e ∈ table ∧ nlist_name e = name ∧ nlist_address e ≤ a ≤ nlist_address e + MAX_SYMBOL_DISTANCE ∧
    ∀ e', e' ∈ table → nlist_address e' ≤ a → nlist_address e' ≤ nlist_address e.

(** The reads of the regular file that the path was resolved to, up to its end. *)
Definition file_read (path : string) (l : list FileStep) (b : list Byte) : Prop :=
  ∃ q h m, Resolved path q ∈ l ∧ Opened q h ∈ l ∧ HandleStatted h (Ok m) ∈ l ∧ is_file m = true ∧ len m ≤ MAX_FILE_SIZE ∧
    (∀ h' b', ReadFrom h' b' ∈ l → h' = h) ∧ ReadFrom h [] ∈ l ∧ read_bytes l = b ∧ Z.of_nat (length b) ≤ MAX_FILE_SIZE.

(** Why an address has a name. *)
Definition explained (images : list RawImageData) (l : list FileStep) (a : Z) (name : string) : Prop :=
  ∃ img l1 l2 l3 b table, img ∈ images ∧ (∃ first past, text_start img = Some first ∧ text_end img = Some past ∧ first ≤ a < past) ∧ l = l1 ++ l2 ++ l3 ∧ file_read (image_path img) l2 b ∧
    function_table (map value_of b) (default 0 (slide img)) table ∧ nearest table a name.

(** ** Nearest functions *)

Lemma from_take {A : Type} n (l : list A) x : x ∈ take n l → x ∈ l.
Proof. intros H. rewrite <-(take_drop n l). apply elem_of_app. by left. Qed.

Lemma sorted_lookup {A : Type} (R : A → A → Prop) l i j x y :
  StronglySorted R l → (i < j)%nat → l !! i = Some x → l !! j = Some y → R x y.
Proof.
  intros Hs Hij Hx Hy. rewrite <-(take_drop j l) in Hs. eapply (StronglySorted_app_1_elem_of R _ _ _ _ Hs).
  - apply (list_elem_of_lookup_2 _ i). by rewrite lookup_take_lt.
  - apply (list_elem_of_lookup_2 _ 0). by rewrite lookup_drop, Nat.add_0_r.
Qed.

Lemma partition_point_split p l :
  Forall (λ x, p x = true) (take (partition_point p l) l) ∧ (∀ x, l !! partition_point p l = Some x → p x = false).
Proof.
  induction l as [|x l (H1 & H2)]; [done|]. cbn [partition_point]. destruct (p x) eqn:Hp.
  - split; [by constructor|done].
  - split; [constructor|by intros ? [= <-]].
Qed.

Lemma find_symbol_nearest table a name : find_symbol (stable_sort by_address table) a = Some name → nearest table a name.
Proof.
  assert (StronglySorted (λ x y, by_address x y = true) (stable_sort by_address table)) as Hs.
  { apply stable_sort_sorted; unfold by_address; intros; rewrite ?bool_decide_eq_true in *; lia. }
  pose proof (stable_sort_perm by_address table) as Hperm. revert Hs Hperm. generalize (stable_sort by_address table). intros l Hs Hperm.
  unfold find_symbol. set (p := λ s, bool_decide (nlist_address s ≤ a)). destruct (partition_point_split p l) as (Hbefore & Hbehind).
  destruct (partition_point p l) as [|idx]; [done|]. destruct (l !! idx) as [e|] eqn:He; [|done]. cbn [mbind option_bind].
  case_decide as Hd; [done|]. intros [= <-].
  assert (p e = true) as Hpe.
  { rewrite Forall_forall in Hbefore. apply Hbefore. apply (list_elem_of_lookup_2 _ idx). by rewrite lookup_take_lt by lia. }
  apply bool_decide_eq_true in Hpe. exists e. split_and!; [|done|done|lia|].
  - rewrite <-Hperm. by eapply list_elem_of_lookup_2.
  - intros e' He' Ha. rewrite <-Hperm in He'. apply list_elem_of_lookup in He' as [j Hj].
    assert (∀ i x y, (i < j)%nat → l !! i = Some x → l !! j = Some y → nlist_address x ≤ nlist_address y) as Hle.
    { intros i x y Hij Hx Hy. pose proof (sorted_lookup _ l i j x y Hs Hij Hx Hy) as Hb. by apply bool_decide_eq_true in Hb. }
    destruct (decide (j = idx)) as [->|Hne]; [by simplify_eq|]. destruct (decide (j < idx)%nat) as [Hji|Hji].
    + pose proof (sorted_lookup _ l j idx e' e Hs Hji Hj He) as Hb. by apply bool_decide_eq_true in Hb.
    + exfalso. assert (is_Some (l !! S idx)) as [x Hx] by (apply lookup_lt_is_Some; apply lookup_lt_Some in Hj; lia).
      pose proof (Hbehind x Hx) as Hpx. apply bool_decide_eq_false in Hpx.
      destruct (decide (j = S idx)) as [->|Hne']; [simplify_eq; lia|]. specialize (Hle (S idx) x e' ltac:(lia) Hx Hj). lia.
Qed.

(** The entries are read as their layout has it. *)
Lemma plain_underscore name : without_underscore name = plain name.
Proof.
  destruct name as [|c rest]; [done|]. cbn [without_underscore plain]. case_decide as Hc; [by subst|].
  rewrite bool_decide_eq_false_2; [done|]. intros Hn. apply Hc. by rewrite <-(Ascii.ascii_nat_embedding c), Hn.
Qed.

Lemma before_nul_window n l raw :
  before_nul (take n l) = Some raw → before_nul l = Some raw ∧ (length raw < n)%nat.
Proof.
  intros H. apply before_nul_spec in H as [H1 [rest Hrest]]. split.
  - apply before_nul_spec. split; [done|]. exists (rest ++ drop n l). rewrite <-(take_drop n l) at 1. rewrite Hrest. by rewrite <-app_assoc.
  - apply (f_equal length) in Hrest. rewrite length_take, length_app in Hrest. cbn in Hrest. lia.
Qed.

Lemma nlist_entry_function nlist strtab slide i entry :
  nlist_entry nlist strtab slide i = Some entry → function_at nlist strtab slide i = entry.
Proof.
  unfold nlist_entry, function_at. rewrite (Z.mul_comm 16 i).
  destruct (read_u32_le nlist (i * 16)) as [n_strx|]; [|done]. cbn [mbind option_bind].
  destruct (nlist !! Z.to_nat (i * 16 + 4)) as [n_type|]; [|done]. cbn [mbind option_bind].
  destruct (read_u64_le nlist (i * 16 + 8)) as [n_value|]; [|done]. cbn [mbind option_bind]. unfold N_TYPE_MASK, N_SECT.
  destruct (decide (Z.land n_type 14 ≠ 14 ∨ n_value = 0)) as [Hkind|Hkind].
  { intros [= <-]. destruct Hkind as [Hkind|Hkind]; [by rewrite (bool_decide_eq_false_2 _ Hkind)|].
    rewrite (bool_decide_eq_true_2 _ Hkind). by rewrite andb_false_r. }
  rewrite (bool_decide_eq_true_2 (Z.land n_type 14 = 14)) by (destruct (decide (Z.land n_type 14 = 14)); tauto).
  rewrite (bool_decide_eq_false_2 (n_value = 0)) by tauto. cbn [andb negb].
  case_decide as Hstr; [intros [= <-]; rewrite bool_decide_eq_false_2 by lia; done|]. rewrite bool_decide_eq_true_2 by lia.
  destruct (before_nul (take _ _)) as [raw|] eqn:Hraw; [|done]. cbn [mbind option_bind].
  apply before_nul_window in Hraw as [-> Hlen]. unfold MAX_SYMBOL_NAME_BYTES in *.
  rewrite decide_False by lia. rewrite bool_decide_eq_true_2 by lia. intros [= <-]. by rewrite plain_underscore.
Qed.

(** A function whose name has no end within the bound: the search window has one byte more
    than the longest name, so that a name in it is never too long, and the entry ends the
    whole table. *)
Lemma overlong_name_ends_table nlist strtab slide i n_strx n_type n_value :
  read_u32_le nlist (i * 16) = Some n_strx → nlist !! Z.to_nat (i * 16 + 4) = Some n_type → read_u64_le nlist (i * 16 + 8) = Some n_value →
  Z.land n_type N_TYPE_MASK = N_SECT → n_value ≠ 0 → n_strx < Z.of_nat (length strtab) →
  before_nul (take (Z.to_nat (MAX_SYMBOL_NAME_BYTES + 1)) (drop (Z.to_nat n_strx) strtab)) = None →
  nlist_entry nlist strtab slide i = None.
Proof.
  intros H1 H2 H3 H4 H5 H6 H7. unfold nlist_entry. rewrite H1. cbn [mbind option_bind]. rewrite H2. cbn [mbind option_bind].
  rewrite H3. cbn [mbind option_bind]. rewrite decide_False by tauto. rewrite decide_False by lia. by rewrite H7.
Qed.

(** ** Checks alone *)

Section Logic.
Context {E : Type} {clock : Clock E} {ops : FileOps E} {symbol_ops : SymbolOps E} {Txn Ctx : Type}.
#[local] Notation fm := (fueled E FileStep).
#[local] Notation PluginContext := (PluginContext Txn Ctx).

Lemma does_option {A B : Type} (P : list FileStep → option A → Prop) (Q : list FileStep → option B → Prop) (m : fm (option A))
    (f : A → fm (option B)) :
  does P m → (∀ l, P l None → Q l None) → (∀ l a, P l (Some a) → does (λ l' r, Q (l ++ l') r) (f a)) → does Q (x ←! m; f x).
Proof.
  intros Hm Hnone Hsome. eapply does_bind; [exact Hm|]. intros l [a|] H; [by apply Hsome|].
  apply does_ret. rewrite app_nil_r. by apply Hnone.
Qed.

Lemma does_permitted {B : Type} (Q : list FileStep → option B → Prop) (context : PluginContext) (f : unit → fm (option B)) :
  Q [Checked true] None → does (λ l r, Q (Checked false :: l) r) (f tt) → does Q (x ←! permitted context; f x).
Proof.
  intros Hno Hyes. apply (does_option (λ l r, (l = [Checked true] ∧ r = None) ∨ (l = [Checked false] ∧ r = Some tt))).
  - unfold permitted, checkpoint. eapply (does_bind (λ l r, (l = [Checked true] ∧ ok r = None) ∨ (l = [Checked false] ∧ ok r = Some tt))).
    + eapply does_bind; [apply does_checked|]. intros l b ->. apply does_ret. destruct b; auto.
    + intros l r H. apply does_ret. by rewrite app_nil_r.
  - by intros l [[-> _] | [_ [=]]].
  - intros l [] [[_ [=]] | [-> _]]. exact Hyes.
Qed.

(** Only checkpoints, and a value. *)
Definition is_check (s : FileStep) : Prop := match s with Checked _ => True | _ => False end.
Definition checks {A : Type} (P : A → Prop) (m : fm (option A)) : Prop :=
  does (λ l r, Forall is_check l ∧ ∀ a, r = Some a → P a) m.

Lemma checks_none {A : Type} (P : A → Prop) : checks P (mret None).
Proof. by apply does_ret. Qed.
Lemma checks_ret {A : Type} (P : A → Prop) (o : option A) : (∀ a, o = Some a → P a) → checks P (mret o).
Proof. intros H. by apply does_ret. Qed.
Lemma checks_permitted {A : Type} (P : A → Prop) (context : PluginContext) (f : unit → fm (option A)) :
  checks P (f tt) → checks P (x ←! permitted context; f x).
Proof.
  intros Hf. apply does_permitted; [split; [by repeat constructor|done]|].
  apply (does_impl (λ l r, Forall is_check l ∧ ∀ a, r = Some a → P a)); [exact Hf|].
  intros l r [Hl Hr]. split; [by constructor|done].
Qed.

Lemma checks_impl {A : Type} (P Q : A → Prop) (m : fm (option A)) : checks P m → (∀ a, P a → Q a) → checks Q m.
Proof.
  intros Hm H. apply (does_impl (λ l r, Forall is_check l ∧ ∀ a, r = Some a → P a)); [exact Hm|]. intros l r [Hl Hr]. auto.
Qed.

Lemma checks_symtab commands data fin o (context : PluginContext) :
  at_command data o → checks (symtab_command data) (find_symtab commands data fin o context).
Proof.
  revert o. induction commands as [|commands IH]; intros o Ho; cbn [find_symtab]; [apply checks_none|].
  apply checks_permitted. case_decide; [apply checks_none|]. destruct (TargetAccess.TargetAccess.read_u32_le data o) as [cmd|] eqn:Hcmd; [|apply checks_none].
  destruct (TargetAccess.TargetAccess.read_u32_le data (o + 4)) as [size|] eqn:Hsize; [|apply checks_none]. cbv zeta.
  case_decide; [apply checks_none|]. case_decide as Hs.
  - apply checks_ret. intros info Hinfo. destruct Hs as [-> H24]. exists o, size.
    destruct (TargetAccess.TargetAccess.read_u32_le data (o + 8)) eqn:H8; [|done]. destruct (TargetAccess.TargetAccess.read_u32_le data (o + 12)) eqn:H12; [|done].
    destruct (TargetAccess.TargetAccess.read_u32_le data (o + 16)) eqn:H16; [|done]. destruct (TargetAccess.TargetAccess.read_u32_le data (o + 20)) eqn:H20; [|done].
    cbn in Hinfo. injection Hinfo as <-. by split_and!.
  - apply IH. eapply next_command; [done|done|lia].
Qed.

Lemma name_bytes_app t t' : name_bytes (t ++ t') = name_bytes t + name_bytes t'.
Proof. unfold name_bytes. rewrite map_app, foldr_app. induction t as [|e t IH]; cbn; [done|]. rewrite IH. lia. Qed.

Lemma checks_nlist indexes nlist strtab slide (context : PluginContext) syms total :
  total = name_bytes syms → total ≤ MAX_TOTAL_SYMBOL_NAME_BYTES → Z.of_nat (length syms) ≤ MAX_FUNCTION_SYMBOLS →
  checks (λ table, table = syms ++ omap (function_at nlist strtab slide) indexes ∧
    Z.of_nat (length table) ≤ MAX_FUNCTION_SYMBOLS ∧ name_bytes table ≤ MAX_TOTAL_SYMBOL_NAME_BYTES)
    (parse_nlist indexes nlist strtab slide context syms total).
Proof.
  revert syms total. induction indexes as [|i indexes IH]; intros syms total Ht Hmax Hlen; cbn [parse_nlist].
  { apply checks_ret. intros table [= <-]. rewrite app_nil_r. split_and!; [done|done|lia]. }
  apply checks_permitted. cbn [omap list_omap].
  destruct (nlist_entry nlist strtab slide i) as [entry|] eqn:He; [|apply checks_none].
  rewrite (nlist_entry_function _ _ _ _ _ He). destruct entry as [e|]; [|by apply IH]. cbv zeta. case_decide; [apply checks_none|].
  eapply checks_impl; [apply (IH (syms ++ [e]))|].
  - rewrite name_bytes_app, Ht. unfold name_bytes at 3. cbn. lia.
  - lia.
  - rewrite length_app. cbn [length]. lia.
  - intros table [-> H']. by rewrite <-app_assoc in H' |- *.
Qed.

Lemma checks_find addresses syms (context : PluginContext) found :
  checks (λ out, ∀ a s, (a, s) ∈ out → (a, s) ∈ found ∨ (a ∈ addresses ∧ find_symbol syms a = Some s))
    (find_each addresses syms context found).
Proof.
  revert found. induction addresses as [|address addresses IH]; intros found; cbn [find_each].
  { apply checks_ret. intros out [= <-]. by left. }
  apply checks_permitted. eapply checks_impl; [apply IH|]. intros out Hout a s Hin.
  destruct (Hout a s Hin) as [Hf|[Ha Hs]]; [|right; split; [by right|done]].
  destruct (find_symbol syms address) as [sym|] eqn:Hsym; [|by left]. apply elem_of_app in Hf as [Hf|Hf]; [by left|].
  apply list_elem_of_singleton in Hf as [= -> ->]. right. split; [by left|done].
Qed.

(** ** Files *)

Definition from_handle (h : Z) (s : FileStep) : Prop := match s with Checked _ => True | ReadFrom h' _ => h' = h | _ => False end.

Lemma does_attempts attempts h n (context : PluginContext) :
  does (λ l r, Forall (from_handle h) l ∧ ∀ b, r = Some b → read_bytes l = b ∧ ReadFrom h b ∈ l) (read_attempts attempts h n context).
Proof.
  induction attempts as [|attempts IH]; cbn [read_attempts]; (apply does_permitted; [split; [by repeat constructor|done]|]).
  { apply does_ret. split; [by repeat constructor|done]. }
  eapply does_bind; [apply does_read|]. intros l [b|error] ->.
  - apply does_ret. split; [by repeat constructor|]. intros ? [= <-]. split; [by bytes|]. right. by left.
  - destruct error; try (apply does_ret; split; [by repeat constructor|done]).
    eapply does_impl; [exact IH|]. intros l r [Hl Hr]. split; [by constructor|]. intros b Hb. destruct (Hr b Hb) as [Hread Hin]. split; [by bytes|]. cbn [app]. by right.
Qed.

Lemma does_bounded steps h max_size (context : PluginContext) data :
  Z.of_nat (length data) ≤ max_size →
  does (λ l r, Forall (from_handle h) l ∧
      ∀ b, r = Some b → b = data ++ read_bytes l ∧ ReadFrom h [] ∈ l ∧ Z.of_nat (length b) ≤ max_size)
    (read_bounded steps h max_size context data).
Proof.
  revert data. induction steps as [|steps IH]; intros data Hmax; cbn [read_bounded]; [apply does_starved|].
  apply does_permitted; [split; [by repeat constructor|done]|]. cbv zeta. case_decide; [apply does_ret; split; [by repeat constructor|done]|].
  eapply does_option; [apply does_attempts|by intros l [Hl _]; split; [constructor|]|]. intros l b [Hl Hb]. destruct (Hb b eq_refl) as [Hread Hin].
  assert (∀ l', Forall (from_handle h) l' → Forall (from_handle h) (Checked false :: l ++ Checked false :: l')) as Hall.
  { intros l' Hl'. constructor; [done|]. apply Forall_app. split; [done|by constructor]. }
  apply does_permitted; [split; [|done]; constructor; [done|]; apply Forall_app; split; [done|by repeat constructor]|].
  case_decide as Hempty.
  { apply does_ret. split; [by apply Hall|]. intros b' [= <-].
    rewrite Hempty in *. split_and!; [bytes; by rewrite Hread, app_nil_r|right; apply elem_of_app; by left|lia]. }
  case_decide; [apply does_ret; split; [by apply Hall|done]|].
  eapply does_impl; [apply IH; rewrite length_app; lia|]. intros l' r [Hl' Hr]. split; [by apply Hall|].
  intros b' Hb'. destruct (Hr b' Hb') as (-> & Hend & Hlen). split_and!; [|right; apply elem_of_app; right; by right|done]. bytes. by rewrite Hread, app_assoc.
Qed.

Lemma file_read_around path l1 l l2 b :
  Forall is_check l1 → Forall is_check l2 → file_read path l b → file_read path (l1 ++ l ++ l2) b.
Proof.
  intros H1 H2 (q & h & m & Hq & Ho & Hm & Hf & Hlen & Hh & Hend & Hb & Hmax). exists q, h, m.
  assert (∀ l', Forall is_check l' → read_bytes l' = [] ∧ ∀ h' b', ReadFrom h' b' ∉ l') as Hc.
  { intros l' Hl'. induction Hl' as [|x l' Hx _ [IH1 IH2]]; [split; [done|set_solver]|]. destruct x; try done.
    split; [done|]. intros h' b' Hin. apply elem_of_cons in Hin as [[=]|Hin]. by eapply IH2. }
  destruct (Hc l1 H1) as [B1 N1]. destruct (Hc l2 H2) as [B2 N2].
  split_and!; try done; [set_solver|set_solver|set_solver| |set_solver|by bytes; rewrite B1, B2, Hb, app_nil_r].
  intros h' b' [Hin|[Hin|Hin]%elem_of_app]%elem_of_app; [by destruct (N1 h' b')|by eapply Hh|by destruct (N2 h' b')].
Qed.

Lemma does_file fuel path (context : PluginContext) :
  does (λ l r, ∀ b, r = Some b → file_read path l b) (read_regular_file_bounded fuel path context).
Proof.
  unfold read_regular_file_bounded. apply does_permitted; [done|].
  eapply does_bind; [apply does_io; by repeat constructor|]. intros l [q|error] ->; [|by apply does_ret].
  apply does_permitted; [done|].
  eapply does_bind; [apply does_io; by repeat constructor|]. intros l [h|error] ->; [|by apply does_ret].
  apply does_permitted; [done|]. eapply does_bind; [apply does_stat_handle|]. intros l [m|error] ->; [|by apply does_ret].
  destruct (negb (is_file m) || bool_decide (MAX_FILE_SIZE < len m)) eqn:Hm; [by apply does_ret|].
  apply orb_false_iff in Hm as [Hfile Hlen]. apply negb_false_iff in Hfile. apply bool_decide_eq_false in Hlen.
  apply does_permitted; [done|]. eapply does_impl; [apply does_bounded; unfold MAX_FILE_SIZE; cbn; lia|].
  intros l r [Hl Hr] b Hb. destruct (Hr b Hb) as (Heq & Hend & Hmax). cbn [app] in Heq. exists q, h, m.
  split_and!; [set_solver|set_solver|set_solver|done|lia| |set_solver|by bytes|done].
  intros h' b' Hin. rewrite Forall_forall in Hl. repeat (apply elem_of_cons in Hin as [[=]|Hin]). cbn [app] in Hin.
  repeat (apply elem_of_cons in Hin as [[=]|Hin]). exact (Hl _ Hin).
Qed.

(** ** Images *)

Lemma checks_info data (context : PluginContext) :
  checks (λ info, read_u32_le data 0 = Some MH_MAGIC_64 ∧ symtab_command data info) (find_symtab_info data context).
Proof.
  unfold find_symtab_info. case_decide; [apply checks_none|]. do 3 (case_match; [|apply checks_none]). cbv zeta.
  case_decide as Hbad; [apply checks_none|]. eapply checks_impl; [apply checks_symtab; constructor|].
  intros info Hinfo. split; [|done]. f_equal. destruct (decide (z = MH_MAGIC_64)); [done|tauto].
Qed.

Definition image_found (img : RawImageData) (addresses : list Z) (l : list FileStep) (found : list (Z * string)) : Prop :=
  ∃ b table, file_read (image_path img) l b ∧ function_table (map value_of b) (default 0 (slide img)) table ∧
    ∀ a s, (a, s) ∈ found → a ∈ addresses ∧ nearest table a s.

Lemma does_image fuel img addresses (context : PluginContext) :
  does (λ l r, ∀ found, r = Some found → image_found img addresses l found) (resolve_image_symbols_from_disk fuel img addresses context).
Proof.
  unfold resolve_image_symbols_from_disk. apply does_permitted; [done|]. eapply does_option; [apply does_file|done|].
  intros l b Hb. specialize (Hb b eq_refl). cbv zeta. eapply does_option; [apply checks_info|done|].
  intros l1 info [Hl1 Hinfo]. destruct (Hinfo info eq_refl) as [Hmagic Hcmd]. case_decide; [by apply does_ret|]. case_decide as Hsize; [by apply does_ret|].
  eapply does_option; [by apply checks_nlist|done|]. intros l2 table [Hl2 Htable]. destruct (Htable table eq_refl) as (Heq & Hlen & Hnames).
  eapply does_impl; [apply checks_find|]. intros l3 r [Hl3 Hr] found Hfound. exists b, table. split_and!.
  - change (Checked false :: l ++ l1 ++ l2 ++ l3) with ([Checked false] ++ l ++ (l1 ++ l2 ++ l3)). apply file_read_around; [by repeat constructor| |done].
    by repeat (apply Forall_app; split).
  - split; [done|]. exists info. split_and!; [done|lia|lia|exact Heq|done|done].
  - intros a s Hin. destruct (Hr found Hfound a s Hin) as [Hin'|[Ha Hs]]; [by apply not_elem_of_nil in Hin'|].
    split; [done|by apply find_symbol_nearest].
Qed.

Lemma extend_lookup symbols resolved a s : extend symbols resolved !! a = Some s → symbols !! a = Some s ∨ (a, s) ∈ resolved.
Proof.
  unfold extend. revert symbols. induction resolved as [|[a' s'] resolved IH]; intros symbols; cbn [fold_left]; [by left|].
  intros H. destruct (IH _ H) as [Hs|Hs]; [|right; by right]. destruct (decide (a' = a)) as [->|Hne].
  - rewrite lookup_insert_eq in Hs. simplify_eq. right. by left.
  - rewrite lookup_insert_ne in Hs by done. by left.
Qed.

Lemma explained_around images l0 l l1 a s : explained images l a s → explained images (l0 ++ l ++ l1) a s.
Proof.
  intros (img & p & q & r & b & table & H1 & H2 & -> & H3 & H4 & H5).
  exists img, (l0 ++ p), q, (r ++ l1), b, table. split_and!; try done. by rewrite <-!app_assoc.
Qed.

Lemma does_images fuel all images addresses (context : PluginContext) symbols :
  (∀ img, img ∈ images → img ∈ all) →
  does (λ l r, ∀ out, r = Ok out → ∀ a s, out !! a = Some s → symbols !! a = Some s ∨ (a ∈ addresses ∧ explained all l a s))
    (resolve_images fuel images addresses context symbols).
Proof.
  revert symbols. induction images as [|img images IH]; intros symbols Hall; cbn [resolve_images].
  { apply does_ret. intros out [= <-]. by left. }
  assert (∀ img', img' ∈ images → img' ∈ all) as Hall' by set_solver.
  apply does_checkpoint; [done|]. cbv zeta. case_decide.
  { eapply does_impl; [by apply IH|]. intros l r Hr out Hout a s Hs. destruct (Hr out Hout a s Hs) as [?|[Ha He]]; [by left|].
    right. split; [done|]. pose proof (explained_around all [Checked false] l [] a s He) as H'. by rewrite app_nil_r in H'. }
  eapply does_bind; [apply does_image|]. intros l resolved Hres. apply does_checkpoint; [done|].
  eapply does_impl; [by apply IH|]. intros l' r Hr out Hout a s Hs.
  destruct (Hr out Hout a s Hs) as [Hext|[Ha He]].
  - apply extend_lookup in Hext as [Hold|Hnew]; [by left|right]. destruct resolved as [found|]; [|by apply not_elem_of_nil in Hnew].
    destruct (Hres found eq_refl) as (b & table & Hf & Ht & Hn). destruct (Hn a s Hnew) as [Hin Hnear].
    apply list_elem_of_filter in Hin as [Htext Hin]. split; [done|].
    exists img, [Checked false], l, (Checked false :: l'), b, table. split_and!; try done; [apply Hall; by left|].
    unfold Images.Images.in_text in Htext. destruct (text_start img) as [first|]; [|done]. destruct (text_end img) as [past|]; [|done].
    apply bool_decide_eq_true in Htext. by exists first, past.
  - right. split; [done|]. pose proof (explained_around all (Checked false :: l ++ [Checked false]) l' [] a s He) as H'.
    rewrite app_nil_r in H'. cbn in H'. by rewrite <-app_assoc in H'.
Qed.

(** ** Addresses *)

Definition frames_of (threads : list RawThreadData) (addresses : gset Z) : Prop :=
  ∀ a, a ∈ addresses → a ≠ 0 ∧ ∃ t, t ∈ threads ∧ a ∈ backtrace t.

Definition within (threads : list RawThreadData) (max_unique : Z) (addresses : gset Z) : Prop :=
  frames_of threads addresses ∧ Z.of_nat (size addresses) ≤ max_unique.

Lemma does_add_frames threads t frames max_frames max_unique (context : PluginContext) seen addresses :
  t ∈ threads → (∀ a, a ∈ frames → a ∈ backtrace t) →
  frames_of threads addresses → Z.of_nat (size addresses) < max_unique →
  does (λ _ r, ∀ seen addresses full, r = Ok (seen, addresses, full) →
      within threads max_unique addresses ∧ (full = false → Z.of_nat (size addresses) < max_unique))
    (add_frames frames max_frames max_unique context seen addresses).
Proof.
  intros Ht. revert seen addresses. induction frames as [|a frames IH]; intros seen addresses Hin Hf Hsize; cbn [add_frames].
  { apply does_ret. intros ? ? ? [= <- <- <-]. split; [split; [done|lia]|done]. }
  assert (∀ a', a' ∈ frames → a' ∈ backtrace t) as Hin' by (intros a' H'; apply Hin; by right).
  case_decide; [apply does_ret; intros ? ? ? [= <- <- <-]; split; [split; [done|lia]|done]|].
  apply does_checkpoint; [done|]. case_decide as Ha; [eapply does_impl; [by apply IH|done]|]. cbv zeta.
  assert (frames_of threads (addresses ∪ {[a]})) as Hf'.
  { intros a' [H'|H']%elem_of_union; [by apply Hf|]. apply elem_of_singleton in H' as ->. split; [done|]. exists t. split; [done|]. apply Hin. by left. }
  assert (Z.of_nat (size (addresses ∪ {[a]})) ≤ max_unique) as Hsize'.
  { rewrite size_union_alt. pose proof (subseteq_size ({[a]} ∖ addresses) {[a]} (subseteq_difference_l _ _ _ (reflexivity _))) as Hs. rewrite size_singleton in Hs. lia. }
  case_decide; [apply does_ret; intros ? ? ? [= <- <- <-]; split; done|]. eapply does_impl; [apply IH; done || lia|done].
Qed.

Lemma does_add_threads all threads max_frames max_unique (context : PluginContext) seen addresses :
  (∀ t, t ∈ threads → t ∈ all) → frames_of all addresses → Z.of_nat (size addresses) < max_unique →
  does (λ _ r, ∀ out, r = Ok out → within all max_unique out) (add_threads threads max_frames max_unique context seen addresses).
Proof.
  revert seen addresses. induction threads as [|t threads IH]; intros seen addresses Hall Hf Hsize; cbn [add_threads].
  { apply does_ret. intros out [= <-]. split; [done|lia]. }
  apply does_checkpoint; [done|]. eapply does_try; [apply (does_add_frames all t); [apply Hall; by left|done|done|done]|done|].
  intros l [[seen' addresses'] full] H. destruct (H _ _ _ eq_refl) as [[H1 H2] H3]. destruct full.
  - apply does_ret. intros out [= <-]. by split.
  - eapply does_impl; [apply IH; [by intros t' H'; apply Hall; right|done|by apply H3]|done].
Qed.

Lemma does_addresses threads (context : PluginContext) max_threads max_frames max_unique :
  0 ≤ max_unique →
  does (λ _ r, ∀ out, r = Ok out → Z.of_nat (length out) ≤ max_unique ∧ StronglySorted (λ x y, Z.leb x y = true) out ∧
      ∀ a, a ∈ out → a ≠ 0 ∧ ∃ t, t ∈ threads ∧ a ∈ backtrace t)
    (collect_symbolication_addresses threads context max_threads max_frames max_unique).
Proof.
  intros Hpos. unfold collect_symbolication_addresses. case_decide as H0.
  { apply does_ret. intros out [= <-]. split_and!; [cbn; lia|constructor|set_solver]. }
  eapply does_try; [apply (does_add_threads threads); [|by intros a Ha; apply elem_of_empty in Ha|rewrite size_empty; lia]|done|].
  { intros t Ht. apply from_take in Ht. unfold prioritized in Ht.
    apply elem_of_app in Ht as [Ht|Ht]; by apply list_elem_of_filter in Ht as [_ Ht]. }
  intros l addresses H. destruct (H _ eq_refl) as [Hf Hs]. apply does_ret. intros out [= <-]. split_and!.
  - rewrite stable_sort_perm. exact Hs.
  - apply stable_sort_sorted; intros; lia.
  - intros a Ha. apply Hf. rewrite stable_sort_perm in Ha. by apply elem_of_elements.
Qed.

(** The symbols that the pre-processor leaves behind. *)
Definition symbolicated (threads : list RawThreadData) (images : list RawImageData) (previous : gmap Z string)
    (l : list FileStep) (out : result string unit * gmap Z string) : Prop :=
  out.2 = previous ∨
  ∀ a s, out.2 !! a = Some s → a ≠ 0 ∧ (∃ t, t ∈ threads ∧ a ∈ backtrace t) ∧ explained images l a s.

Lemma does_symbols fuel threads images (context : PluginContext) previous :
  does (symbolicated threads images previous) (resolve_symbols fuel threads images context previous).
Proof.
  unfold resolve_symbols.
  apply (does_bind (λ l r, ∀ symbols, r = Ok (Some symbols) → symbolicated threads images previous l (Ok tt, symbols))).
  - apply does_checkpoint; [done|]. eapply does_try; [by apply does_addresses|done|]. intros l addresses H.
    destruct (H _ eq_refl) as (_ & _ & Hin). case_decide; [by apply does_ret|].
    eapply does_try; [apply (does_images _ images)|done|].
    { intros img Himg. by eapply from_take. }
    intros l' symbols Hs. apply does_ret. intros ? [= <-]. right. intros a s Has. cbn [snd] in Has.
    destruct (Hs _ eq_refl a s Has) as [Hempty|[Ha He]]; [by rewrite lookup_empty in Hempty|]. destruct (Hin a Ha) as [H1 H2].
    split_and!; [done|done|]. pose proof (explained_around images (Checked false :: l) l' [] a s He) as H'. exact H'.
  - intros l [[symbols|]|error] H; [|apply does_ret; by left|apply does_ret; by left].
    apply does_idle; [case_decide; solve_only|]. intros _.
    eapply does_bind; [by apply (only_checkpoint is_check)|]. intros l' r Hl'. apply does_ret.
    destruct (H symbols eq_refl) as [Heq|He]; [by left|right]. intros a s Has. destruct (He a s Has) as (H1 & H2 & H3).
    split_and!; [done|done|]. exact (explained_around images [] l (l' ++ []) a s H3).
Qed.

End Logic.

(** ** Answers *)

Class SymbolLaws (E : Type) {symbol_ops : SymbolOps E} (budget : E → nat) : Prop := {
  law_canonicalize p : calm budget (canonicalize p);
  law_open_final p : calm budget (open_final p)
}.
#[export] Hint Resolve law_canonicalize law_open_final : cm.

Section Answers.
Context {E : Type} {clock : Clock E} {paths : Paths.Paths.PathOps E} {ops : FileOps E} {symbol_ops : SymbolOps E}
  {Txn Ctx : Type} {budget : E → nat} {elapsed : E → Z} {time : PathsSpec.PathsSpec.PathTime E elapsed}
  {path_laws : PathsSpec.PathsSpec.PathLaws E budget} {laws : FileLaws E budget} {symbol_laws : SymbolLaws E budget}.
#[local] Notation fm := (fueled E FileStep).
#[local] Notation PluginContext := (PluginContext Txn Ctx).
Context {n fuel : nat} (Hfuel : MAX_FILE_SIZE + 1 < Z.of_nat fuel).
#[local] Hint Resolve io_settles stat_handle_settles read_settles warn_settles : cm.

Lemma permitted_settles (context : PluginContext) : settles budget n (permitted context).
Proof. unfold permitted. settle. Qed.
Lemma checkpoint_passes (context : PluginContext) : settles budget n (checkpoint context).
Proof. apply checkpoint_settles. Qed.
#[local] Hint Resolve permitted_settles checkpoint_passes : cm.

Lemma add_frames_settles frames max_frames max_unique (context : PluginContext) seen addresses :
  settles budget n (add_frames frames max_frames max_unique context seen addresses).
Proof. revert seen addresses. induction frames; intros; cbn [add_frames]; settle. Qed.
#[local] Hint Resolve add_frames_settles : cm.
Lemma add_threads_settles threads max_frames max_unique (context : PluginContext) seen addresses :
  settles budget n (add_threads threads max_frames max_unique context seen addresses).
Proof. revert seen addresses. induction threads; intros; cbn [add_threads]; settle. Qed.
Lemma attempts_settles attempts h k (context : PluginContext) : settles budget n (read_attempts attempts h k context).
Proof. induction attempts; cbn [read_attempts]; settle. Qed.
#[local] Hint Resolve add_threads_settles attempts_settles : cm.

(** Every chunk has a byte, and the limit ends the reads. *)
Lemma read_bounded_settles steps h max_size (context : PluginContext) data :
  Z.of_nat (length data) ≤ max_size → max_size - Z.of_nat (length data) < Z.of_nat steps →
  settles budget n (read_bounded steps h max_size context data).
Proof.
  revert data. induction steps as [|steps IH]; intros data Hmax Hsteps; [lia|]. cbn [read_bounded].
  apply settles_then; [eauto with cm|]. intros [[]|]; [|apply settles_answer]. cbv zeta. case_decide; [apply settles_answer|].
  apply settles_then; [eauto with cm|]. intros [b|]; [|apply settles_answer].
  apply settles_then; [eauto with cm|]. intros [[]|]; [|apply settles_answer].
  case_decide as Hb; [apply settles_answer|]. case_decide; [apply settles_answer|].
  assert (1 ≤ Z.of_nat (length b)) by (destruct b; [done|cbn [length]; lia]). apply IH; rewrite length_app; lia.
Qed.

Lemma whole_file_settles h (context : PluginContext) : settles budget n (read_bounded fuel h MAX_FILE_SIZE context []).
Proof. apply read_bounded_settles; unfold MAX_FILE_SIZE in *; cbn [length]; lia. Qed.
Lemma symtab_settles commands data fin o (context : PluginContext) : settles budget n (find_symtab commands data fin o context).
Proof. revert o. induction commands; intros; cbn [find_symtab]; settle. Qed.
Lemma parse_nlist_settles indexes nlist strtab s (context : PluginContext) syms total :
  settles budget n (parse_nlist indexes nlist strtab s context syms total).
Proof. revert syms total. induction indexes; intros; cbn [parse_nlist]; settle. Qed.
Lemma find_each_settles addresses syms (context : PluginContext) found : settles budget n (find_each addresses syms context found).
Proof. revert found. induction addresses; intros; cbn [find_each]; settle. Qed.
#[local] Hint Resolve whole_file_settles symtab_settles parse_nlist_settles find_each_settles : cm.
Lemma image_settles img addresses (context : PluginContext) : settles budget n (resolve_image_symbols_from_disk fuel img addresses context).
Proof. unfold resolve_image_symbols_from_disk, read_regular_file_bounded, find_symtab_info. settle. Qed.
#[local] Hint Resolve image_settles : cm.
Lemma images_settles images addresses (context : PluginContext) symbols :
  settles budget n (resolve_images fuel images addresses context symbols).
Proof. revert symbols. induction images; intros; cbn [resolve_images]; settle. Qed.
#[local] Hint Resolve images_settles : cm.
Lemma symbols_settles threads images (context : PluginContext) previous :
  settles budget n (resolve_symbols fuel threads images context previous).
Proof. unfold resolve_symbols, collect_symbolication_addresses. settle. Qed.

End Answers.

(** C35. Symbolication answers. It either leaves the symbols of the event as they were, or
    every name that it gives is accounted for: the address is a frame of a captured thread
    and lies in the text of an image; the path of that image was resolved, and the regular
    file that was opened under the resolved path was read up to its end, at most 256 MiB; in
    the symbol table of exactly the bytes that were read, at the slide of the image, the
    name is that of a function at most 1 MiB below the address, and no function lies between
    them. No table has more than 500000 functions or 64 MiB of names. *)
Theorem symbols_accounted {E : Type} {clock : Clock E} {paths : Paths.Paths.PathOps E} {ops : FileOps E}
    {symbol_ops : SymbolOps E} {Txn Ctx : Type} {budget : E → nat} {elapsed : E → Z}
    {time : PathsSpec.PathsSpec.PathTime E elapsed} {path_laws : PathsSpec.PathsSpec.PathLaws E budget} {laws : FileLaws E budget} {symbol_laws : SymbolLaws E budget}
    (fuel : nat) (threads : list RawThreadData) (images : list RawImageData) (context : PluginContext Txn Ctx)
    (previous : gmap Z string) (w : World E FileStep) :
  MAX_FILE_SIZE + 1 < Z.of_nat fuel →
  ∃ out w' l, resolve_symbols fuel threads images context previous w = (Some out, w') ∧ trace w' = trace w ++ l ∧
    symbolicated threads images previous (deeds l) out.
Proof.
  intros Hfuel. apply (settled_ends (budget := budget) (S (budget (env w)))); [|apply does_symbols|lia].
  by apply symbols_settles.
Qed.

(** An image file with two functions and one undefined symbol. *)
Module Example.
Import PathsSpec.PathsSpec.Example.

Definition nlist (n_strx n_type n_value : Z) : list Z := to_ne_bytes 4 n_strx ++ [n_type; 0; 0; 0] ++ to_ne_bytes 8 n_value.
(** [\0_main\0_help\0und\0] *)
Definition strings : list Z := [0; 95; 109; 97; 105; 110; 0; 95; 104; 101; 108; 112; 0; 117; 110; 100; 0].
Definition mach_o : list Z :=
  concat (map (to_ne_bytes 4) [MH_MAGIC_64; 16777228; 0; 2; 1; 24; 0; 0; LC_SYMTAB; 24; 56; 3; 104; 17]) ++
  nlist 1 15 4096 ++ nlist 7 14 4128 ++ nlist 13 1 4100 ++ strings.
Definition contents : list Byte := map (λ z, default Init.Byte.x00 (Strings.Byte.of_N (Z.to_N z))) mach_o.
Definition file : Metadata := mkMetadata (Paths.Paths.mkMeta Paths.Paths.RegularNode 501 420 1 7) (Z.of_nat (length contents)).

#[export] Instance file_ops : FileOps disk := {|
  io_text _ := "error"%string;
  cancel_loaded d := (false, d);
  symlink_metadata p d := (Ok file, d);
  follow_metadata p d := (Ok file, d);
  metadata_of h d := (Ok file, d);
  read_handle h n d := (Ok (if decide (ticks d = 0) then take (Z.to_nat n) contents else []), tick d);
  write_handle h b d := (Ok (Z.of_nat (length b)), d);
  flush_handle h d := (Ok tt, d);
  sync_handle h d := (Ok tt, d);
  rewind_handle h d := (Ok tt, d);
  remove_path p d := (Ok tt, d);
  rename_path p q d := (Ok tt, d);
  fresh_name d := ("1"%string, d)
|}.

#[export] Instance symbol_ops : SymbolOps disk := {|
  canonicalize p d := (Ok ["/"; "bin"; "app"]%string, d);
  open_final p d := (Ok 3, d)
|}.

#[export] Instance file_laws : FileLaws disk (λ _, 0%nat).
Proof.
  split; unfold calm; intros; try lia.
  - cbn in *. case_decide; simplify_eq; simpl; [|lia]. rewrite length_take. lia.
  - by split.
Qed.
#[export] Instance symbol_laws : SymbolLaws disk (λ _, 0%nat).
Proof. split; unfold calm; intros; lia. Qed.

Definition w1 : World disk FileStep := mkWorld (mkDisk 0 [] []) [].
Definition image : RawImageData :=
  mkImageData "/bin/app" 69632 (Some 65536) None (Some "arm64"%string) (Some 69632) (Some 73728) [].
Definition thread : RawThreadData := mkThreadData 1 1 None true None [69668; 69640; 0; 5; 80000] None.
Definition no_deadline : PluginContext unit unit := mkContext None None None None.

Lemma symbol_fuel : ∃ fuel, MAX_FILE_SIZE + 1 < Z.of_nat fuel.
Proof. exists (Z.to_nat (MAX_FILE_SIZE + 2)). rewrite Z2Nat.id; unfold MAX_FILE_SIZE; lia. Qed.

End Example.
Import PathsSpec.PathsSpec.Example.
Import Example.

Lemma symbols_accounted_witness :
  (resolve_symbols 9 [Example.thread] [Example.image] Example.no_deadline ∅ Example.w1).1 =
    Some (Ok tt, {[69640 := "main"%string; 69668 := "help"%string]}) ∧
  ∃ fuel out w' l, resolve_symbols fuel [Example.thread] [Example.image] Example.no_deadline ∅ Example.w1 = (Some out, w') ∧
    trace w' = trace Example.w1 ++ l ∧ symbolicated [Example.thread] [Example.image] ∅ (deeds l) out.
Proof.
  split; [vm_compute; reflexivity|]. destruct Example.symbol_fuel as [fuel Hfuel]. exists fuel.
  exact (symbols_accounted (budget := λ _, 0%nat) (elapsed := ticks) fuel [Example.thread] [Example.image] Example.no_deadline ∅ Example.w1 Hfuel).
Defined.

End SymbolsSpec.
