(* ===== verification/Fingerprint.v ===== *)
(** * Crash fingerprints (src/preprocessors/fingerprint.rs)

    The identity of a crash: a hash of the application frames of the crashed thread. The hash
    function is a parameter; [Sha256::update] in parts is the hash of their concatenation. *)

From stdpp Require Import gmap strings.
From S2P Require Import Prelude.
From S2P Require Import Traced.
From S2P Require Import Fueled.
From S2P Require Import PipelineTypes.
From S2P Require Import PluginRun.
From S2P Require Import PluginFiles.
From S2P Require Import Terminal.
From S2P Require TargetAccess.
From S2P Require Images.
From S2P Require ImageRanges.
From S2P Require PathsSpec.
From S2P Require Symbols.

Module Fingerprint.
Export PluginFiles.
Export PluginFilesSpec.
#[local] Open Scope Z_scope.
Notation hex := TargetAccess.TargetAccess.hex (only parsing).
Notation resolve_address := Images.Images.resolve_address (only parsing).

Definition SYSTEM_PREFIXES : list string := ["/usr/lib/"; "/System/Library/"; "/Library/Apple/"; "/AppleInternal/"]%string.
Definition MAX_FINGERPRINT_FRAMES : nat := 256.

(** [Fingerprinter::new]. *)
Definition new (top_n : nat) : nat := Nat.min top_n MAX_FINGERPRINT_FRAMES.

(** The number of images that begin at or below an address. *)
Fixpoint images_below (addr : Z) (images : list RawImageData) : nat :=
  match images with
  | [] => O
  | img :: images => if decide (base_address img ≤ addr) then S (images_below addr images) else O
  end.

Definition system_path (path : string) : bool := existsb (λ p, String.prefix p path) SYSTEM_PREFIXES.

Definition is_system_image_name (images : list RawImageData) (addr : Z) : bool :=
  match images_below addr images with
  | O => false
  | S idx => match images !! idx with Some img => system_path (image_path img) | None => false end
  end.

(** The crashed thread, or else the first one. *)
Definition fingerprint_thread (threads : list RawThreadData) : option RawThreadData :=
  match head (filter (λ t, crashed t = true) threads) with Some t => Some t | None => head threads end.

Class Sha256 := sha256 : string → list Z.

Section Fingerprint.
Context {E : Type} {clock : Clock E} {ops : FileOps E} {hash : Sha256} {Txn Ctx : Type}.
#[local] Notation fm := (fueled E FileStep).
#[local] Notation PluginContext := (PluginContext Txn Ctx).

(** The identifier of a frame, unless it is skipped. *)
Definition frame_id (images : list RawImageData) (symbols : gmap Z string) (addr : Z) : option string :=
  let '(image_name, offset) := resolve_address images addr in
  match image_name with
  | None => None
  | Some img =>
      if is_system_image_name images addr then None
      else Some match symbols !! addr with Some sym => sym | None => (img +:+ "+" +:+ hex (default 0 offset))%string end
  end.

Fixpoint collect_frame_ids (backtrace : list Z) (top_n : nat) (images : list RawImageData) (symbols : gmap Z string)
    (context : PluginContext) (frame_ids : list string) : fm (result string (list string)) :=
  match backtrace with
  | [] => mret (Ok frame_ids)
  | addr :: backtrace =>
      _ ←? checkpoint context;
      if decide (addr = 0) then collect_frame_ids backtrace top_n images symbols context frame_ids
      else if decide (top_n ≤ length frame_ids)%nat then mret (Ok frame_ids)
      else collect_frame_ids backtrace top_n images symbols context
             match frame_id images symbols addr with Some id => frame_ids ++ [id] | None => frame_ids end
  end.

(** What has been hashed. *)
Fixpoint hashed (frame_ids : list string) (first : bool) (context : PluginContext) (text : string) : fm (result string string) :=
  match frame_ids with
  | [] => mret (Ok text)
  | id :: frame_ids =>
      _ ←? checkpoint context;
      hashed frame_ids false context (text +:+ (if first then "" else String (Ascii.ascii_of_nat 10) "") +:+ id)%string
  end.

Definition truncated_hash (hash : list Z) : string := String.concat "" (map (λ b, Terminal.hex02 (Z.to_nat b)) (take 8 hash)).

(** [Fingerprinter::process]: [previous] is the fingerprint that the event had before. *)
Definition fingerprint (top_n : nat) (threads : list RawThreadData) (images : list RawImageData) (symbols : gmap Z string)
    (context : PluginContext) (previous : option string) : fm (result string unit * option string) :=
  checked ← checkpoint context;
  match checked with
  | Err error => mret (Err error, previous)
  | Ok _ =>
      match fingerprint_thread threads with
      | None => mret (Ok tt, previous)
      | Some thread =>
          ids ← collect_frame_ids (backtrace thread) top_n images symbols context [];
          match ids with
          | Err error => mret (Err error, previous)
          | Ok [] => mret (Ok tt, None)
          | Ok ids =>
              text ← hashed ids true context "";
              match text with
              | Err error => mret (Err error, previous)
              | Ok text =>
                  checked ← checkpoint context;
                  mret (checked, Some (truncated_hash (sha256 text)))
              end
          end
      end
  end.

End Fingerprint.

(** ** The identity of a crash *)

(** The images of the system. *)
Definition system_image (path : string) : bool :=
  existsb (λ p, String.prefix p path) ["/usr/lib/"; "/System/Library/"; "/Library/Apple/"; "/AppleInternal/"]%string.

(** The identifier of an application frame: its symbol, or the offset in its image; frames in
    no image and frames of system images have none. *)
Definition application_frame (images : list RawImageData) (symbols : gmap Z string) (addr : Z) : option string :=
  if decide (addr = 0) then None else
  img ← head (filter (λ i, Images.Images.in_text addr i = true) images);
  if system_image (image_path img) then None
  else Some match symbols !! addr with
            | Some sym => sym
            | None => (Images.Images.last_component (image_path img) +:+ "+" +:+ hex (addr - base_address img))%string
            end.

Definition newline : string := String (Ascii.ascii_of_nat 10) "".
Definition identity {hash : Sha256} (top_n : nat) (images : list RawImageData) (symbols : gmap Z string) (frames : list Z) : option string :=
  match take top_n (omap (application_frame images symbols) frames) with
  | [] => None
  | ids => Some (String.concat "" (map (λ b, Terminal.hex02 (Z.to_nat b)) (take 8 (sha256 (String.concat newline ids)))))
  end.

(** The thread that identifies the crash: the first that is marked as crashed, or the first of
    all when none is. *)
Inductive identifies : list RawThreadData → option RawThreadData → Prop :=
| no_threads : identifies [] None
| crashed_thread before t behind :
    Forall (λ t, crashed t = false) before → crashed t = true → identifies (before ++ t :: behind) (Some t)
| first_thread t threads : Forall (λ t, crashed t = false) (t :: threads) → identifies (t :: threads) (Some t).

Lemma fingerprint_thread_identifies threads : identifies threads (fingerprint_thread threads).
Proof.
  assert (head (filter (λ t, crashed t = true) threads) = None ∧ Forall (λ t, crashed t = false) threads ∨
    ∃ before t behind, threads = before ++ t :: behind ∧ head (filter (λ t, crashed t = true) threads) = Some t ∧
      Forall (λ t, crashed t = false) before ∧ crashed t = true) as H.
  { induction threads as [|t threads IH]; [by left|]. rewrite filter_cons. destruct (decide (crashed t = true)) as [Ht|Ht].
    - right. by exists [], t, threads.
    - apply not_true_is_false in Ht. destruct IH as [[H1 H2]|(before & t' & behind & -> & H1 & H2 & H3)].
      + left. split; [done|by constructor].
      + right. exists (t :: before), t', behind. split_and!; [done|done|by constructor|done]. }
  unfold fingerprint_thread. destruct H as [[-> H]|(before & t & behind & -> & -> & H1 & H2)]; [|by constructor].
  destruct threads; by constructor.
Qed.

(** The text of every image ends before the next image begins. *)
Definition laid_out (images : list RawImageData) : Prop :=
  StronglySorted (λ x y, base_address x ≤ base_address y ∧ ∀ e, text_end x = Some e → e ≤ base_address y) images.

Lemma images_below_none addr images : Forall (λ y, addr < base_address y) images → images_below addr images = 0%nat.
Proof. intros H. destruct H; [done|]. cbn. by rewrite decide_False by lia. Qed.

(** The last image that begins at or below an address is the one that holds it. *)
Lemma system_lookup_agrees images addr img :
  Forall ImageRanges.ImageRanges.sound images → laid_out images →
  head (filter (λ i, Images.Images.in_text addr i = true) images) = Some img →
  is_system_image_name images addr = system_path (image_path img) ∧ text_start img = Some (base_address img).
Proof.
  unfold is_system_image_name. intros Hs Hl. induction Hs as [|i images Hi Hs IH]; [done|].
  apply StronglySorted_inv in Hl as [Hl Hf]. rewrite filter_cons. destruct (decide (Images.Images.in_text addr i = true)) as [Ht|Ht].
  - cbn [head]. intros [= <-]. unfold Images.Images.in_text in Ht. destruct Hi as [_ Hi].
    destruct (text_start i) as [start|] eqn:Hstart; [|done]. destruct (text_end i) as [fin|] eqn:Hend; [|done].
    apply bool_decide_eq_true in Ht. destruct (slide i); [|by destruct Hi]. destruct Hi as (_ & Hb & _). injection Hb as ->.
    cbn [images_below]. rewrite decide_True by lia. rewrite images_below_none; [done|].
    eapply Forall_impl; [exact Hf|]. intros y [_ Hy]. specialize (Hy fin eq_refl). lia.
  - intros Hh. destruct (IH Hl Hh) as [IH1 IH2]. split; [|done]. rewrite <-IH1.
    assert (img ∈ filter (λ i, Images.Images.in_text addr i = true) images) as Hin by (by apply head_Some_elem_of).
    apply list_elem_of_filter in Hin as [Hin Himg]. rewrite Forall_forall in Hf. destruct (Hf img Himg) as [Hle _].
    assert (base_address img ≤ addr) as Hle'.
    { unfold Images.Images.in_text in Hin. rewrite IH2 in Hin. destruct (text_end img); [|done]. apply bool_decide_eq_true in Hin. lia. }
    cbn [images_below]. rewrite decide_True by lia.
    assert (∃ k, images_below addr images = S k) as [k Hk]; [|by rewrite Hk].
    destruct images as [|j images]; [by apply not_elem_of_nil in Himg|]. cbn [images_below].
    rewrite decide_True; [by eexists|]. apply elem_of_cons in Himg as [->|Himg]; [done|].
    apply StronglySorted_inv in Hl as [_ Hj]. rewrite Forall_forall in Hj. destruct (Hj img Himg). lia.
Qed.

Lemma frame_id_application images symbols addr :
  Forall ImageRanges.ImageRanges.sound images → laid_out images → addr ≠ 0 →
  frame_id images symbols addr = application_frame images symbols addr.
Proof.
  intros Hs Hl Ha. unfold frame_id, application_frame, Images.Images.resolve_address. rewrite decide_False by done.
  destruct (head (filter (λ i, Images.Images.in_text addr i = true) images)) as [img|] eqn:Hh; [|done].
  destruct (system_lookup_agrees images addr img Hs Hl Hh) as [-> Hstart]. cbn [mbind option_bind]. by rewrite Hstart.
Qed.

Section Spec.
Context {E : Type} {clock : Clock E} {ops : FileOps E} {hash : Sha256} {Txn Ctx : Type}.
#[local] Notation fm := (fueled E FileStep).
#[local] Notation PluginContext := (PluginContext Txn Ctx).
Context (images : list RawImageData) (symbols : gmap Z string) (Hsound : Forall ImageRanges.ImageRanges.sound images)
  (Hlaid : laid_out images).

Lemma does_frame_ids frames top_n (context : PluginContext) ids :
  (length ids ≤ top_n)%nat →
  does (λ _ r, ∀ out, r = Ok out → out = take top_n (ids ++ omap (application_frame images symbols) frames))
    (collect_frame_ids frames top_n images symbols context ids).
Proof.
  revert ids. induction frames as [|a frames IH]; intros ids Hlen; cbn [collect_frame_ids].
  { apply does_ret. intros out [= <-]. cbn. rewrite app_nil_r, take_ge by lia. done. }
  apply does_checkpoint; [done|]. cbn [omap list_omap]. case_decide as Ha.
  { subst a. unfold application_frame at 1. cbn. eapply does_impl; [by apply IH|done]. }
  case_decide as Htop.
  { apply does_ret. intros out [= <-]. rewrite take_app_le by lia. by rewrite take_ge by lia. }
  rewrite frame_id_application by done. destruct (application_frame images symbols a) as [id|].
  - eapply does_impl; [apply IH; rewrite length_app; cbn [length]; lia|]. intros l r Hr out Hout. rewrite (Hr out Hout). by rewrite <-app_assoc.
  - eapply does_impl; [by apply IH|done].
Qed.

Lemma string_app_assoc (a b c : string) : ((a +:+ b) +:+ c = a +:+ b +:+ c)%string.
Proof. induction a as [|x a IH]; [done|]. exact (f_equal (String x) IH). Qed.

Lemma does_hashed ids (context : PluginContext) text :
  does (λ _ r, ∀ out, r = Ok out → out = fold_left (λ t id, t +:+ newline +:+ id)%string ids text) (hashed ids false context text).
Proof.
  revert text. induction ids as [|id ids IH]; intros text; cbn [hashed]; [apply does_ret; by intros out [= <-]|].
  apply does_checkpoint; [done|]. eapply does_impl; [apply IH|done].
Qed.

Lemma concat_fold id ids text : (text +:+ String.concat newline (id :: ids) = fold_left (λ t id, t +:+ newline +:+ id) ids (text +:+ id))%string.
Proof.
  revert id text. induction ids as [|id' ids IH]; intros id text; [done|].
  change (String.concat newline (id :: id' :: ids)) with (id +:+ newline +:+ String.concat newline (id' :: ids))%string.
  cbn [fold_left]. rewrite <-(string_app_assoc text), <-(string_app_assoc (text +:+ id) newline), (IH id'). by rewrite string_app_assoc.
Qed.

(** The fingerprint of the event, or the one it had before when a checkpoint ended it. *)
Definition fingerprinted (top_n : nat) (threads : list RawThreadData) (previous : option string)
    (out : result string unit * option string) : Prop :=
  ∃ chosen, identifies threads chosen ∧
    let after := match chosen with
                 | None => previous
                 | Some t => identity top_n images symbols (backtrace t)
                 end in
    (out.1 = Ok tt → out.2 = after) ∧ (out.2 = previous ∨ out.2 = after).

Lemma does_fingerprint top_n threads (context : PluginContext) previous :
  does (λ _ out, fingerprinted top_n threads previous out) (fingerprint top_n threads images symbols context previous).
Proof.
  pose proof (fingerprint_thread_identifies threads) as Hchosen.
  assert (∀ error, fingerprinted top_n threads previous (Err error, previous)) as Herr.
  { intros error. eexists. split; [exact Hchosen|]. split; [done|by left]. }
  unfold fingerprint. eapply does_bind; [by apply (only_checkpoint (λ _, True))|]. intros l0 [[]|error] _; [|by apply does_ret].
  eapply (does_impl (λ _ out, (out.1 = Ok tt → out.2 = _) ∧ (out.2 = previous ∨ out.2 = _)));
    [|intros l out H; eexists; split; [exact Hchosen|exact H]].
  clear Herr Hchosen. assert (∀ error after, ((Err error, previous) : result string unit * _).1 = Ok tt → previous = after) as Herr by done.
  destruct (fingerprint_thread threads) as [t|]; [|apply does_ret; split; [done|by left]].
  eapply does_bind; [apply does_frame_ids; cbn; lia|]. intros l ids Hids. destruct ids as [ids|error]; [|apply does_ret; split; [done|by left]].
  specialize (Hids ids eq_refl). cbn [app] in Hids. unfold identity in *. rewrite <-Hids in *.
  destruct ids as [|id ids]; [apply does_ret; split; [done|by right]|].
  eapply does_bind.
  { cbn [hashed]. apply (does_checkpoint (λ _ r, ∀ out, r = Ok out → out = String.concat newline (id :: ids))); [done|].
    eapply does_impl; [apply does_hashed|]. intros l2 r Hr out Hout. cbn beta in Hr. rewrite (Hr out Hout). symmetry. apply (concat_fold id ids ""). }
  intros l' [text|error] Htext; [|apply does_ret; split; [done|by left]]. specialize (Htext text eq_refl). subst text.
  eapply does_bind; [by apply (only_checkpoint (λ _, True))|]. intros. apply does_ret. split; [done|by right].
Qed.

End Spec.

(** ** Answers *)

Section Answers.
Context {E : Type} {clock : Clock E} {paths : Paths.Paths.PathOps E} {ops : FileOps E} {hash : Sha256} {Txn Ctx : Type}
  {budget : E → nat} {elapsed : E → Z} {time : PathsSpec.PathsSpec.PathTime E elapsed}
  {path_laws : PathsSpec.PathsSpec.PathLaws E budget} {laws : FileLaws E budget}.
#[local] Notation PluginContext := (PluginContext Txn Ctx).
Context {n : nat}.
#[local] Hint Resolve checkpoint_settles : cm.

Lemma frame_ids_settle frames top_n images symbols (context : PluginContext) ids :
  settles budget n (collect_frame_ids frames top_n images symbols context ids).
Proof. revert ids. induction frames; intros; cbn [collect_frame_ids]; settle. Qed.
Lemma hashed_settles ids first (context : PluginContext) text : settles budget n (hashed ids first context text).
Proof. revert first text. induction ids; intros; cbn [hashed]; settle. Qed.
#[local] Hint Resolve frame_ids_settle hashed_settles : cm.
Lemma fingerprint_settles top_n threads images symbols (context : PluginContext) previous :
  settles budget n (fingerprint top_n threads images symbols context previous).
Proof. unfold fingerprint. settle. Qed.

End Answers.

(** C36. When the ranges of the images do not overlap, the fingerprint of a crash is the first
    eight bytes of the hash of the first application frames, at most the configured number
    and never more than 256, of the first thread that is marked as crashed, or of the first
    thread when none is: each frame by its symbol, or else by the name of the image and the
    offset in it, without the frames of system images and those in no image. A thread
    without such frames has none, and when a deadline ends the computation, the event has
    the same fingerprint or still the previous one. *)
Theorem fingerprint_exact {E : Type} {clock : Clock E} {paths : Paths.Paths.PathOps E} {ops : FileOps E} {hash : Sha256}
    {Txn Ctx : Type} {budget : E → nat} {elapsed : E → Z} {time : PathsSpec.PathsSpec.PathTime E elapsed}
    {path_laws : PathsSpec.PathsSpec.PathLaws E budget} {laws : FileLaws E budget} (top_n : nat) (threads : list RawThreadData)
    (images : list RawImageData) (symbols : gmap Z string) (context : PluginContext Txn Ctx) (previous : option string)
    (w : World E FileStep) :
  Forall ImageRanges.ImageRanges.sound images → laid_out images →
  ∃ out w' l, fingerprint (new top_n) threads images symbols context previous w = (Some out, w') ∧ trace w' = trace w ++ l ∧
    fingerprinted images symbols (Nat.min top_n 256) threads previous out.
Proof.
  intros Hs Hl. apply (settled_ends (budget := budget) (S (budget (env w))) (λ _ out, fingerprinted images symbols (Nat.min top_n 256) threads previous out));
    [apply fingerprint_settles|by apply does_fingerprint|lia].
Qed.

(** A thread with a frame of a system image, one without a symbol and one with. *)
Module Example.

#[export] Instance hash : Sha256 := λ s, map (λ c, Z.of_nat (Ascii.nat_of_ascii c)) (String.list_ascii_of_string s).
Definition app : RawImageData := Symbols.SymbolsSpec.Example.image.
Definition system : RawImageData :=
  mkImageData "/usr/lib/libc.dylib" 131072 (Some 131072) None (Some "arm64"%string) (Some 131072) (Some 139264) [].
Definition thread : RawThreadData := mkThreadData 1 1 None true None [131080; 69668; 0; 69640; 5] None.
Definition symbols : gmap Z string := {[69640 := "main"%string]}.

Lemma sound_images : Forall ImageRanges.ImageRanges.sound [app; system].
Proof.
  repeat (apply Forall_cons; split); [..|constructor]; (split; [unfold ImageRanges.ImageRanges.u64, U64_MAX; cbn; lia|]);
    cbn; unfold U64_MAX; split_and!; try lia; try done; try (intros e [= <-]; lia); constructor.
Qed.
Lemma laid_out_images : laid_out [app; system].
Proof. repeat constructor; cbn; try lia; intros e [= <-]; lia. Qed.

(** An image whose header could not be read, inside the text of another one. *)
Definition unread : RawImageData := mkImageData "/usr/lib/unread.dylib" 69644 None None None None None [].

End Example.
Import PathsSpec.PathsSpec.Example.
Import Symbols.SymbolsSpec.Example.
Import Example.

(** The image that [resolve_address] finds is not the one of the system check. *)
Lemma system_lookup_differs :
  resolve_address [Example.app; Example.unread] 69668 = (Some "app"%string, Some 36) ∧
  system_path (image_path Example.app) = false ∧ is_system_image_name [Example.app; Example.unread] 69668 = true ∧
  ¬ laid_out [Example.app; Example.unread].
Proof.
  split_and!; [vm_compute; reflexivity..|]. intros Hl. apply StronglySorted_inv in Hl as [_ Hl]. inversion Hl as [|? ? [_ H] _]. subst.
  specialize (H 73728 eq_refl). cbn in H. lia.
Qed.

Lemma fingerprint_exact_witness :
  (fingerprint (new 8) [Example.thread] [Example.app; Example.system] Example.symbols no_deadline None w1).1 =
    Some (Ok tt, Some "6170702b30783234"%string) ∧
  ∃ out w' l, fingerprint (new 8) [Example.thread] [Example.app; Example.system] Example.symbols no_deadline None w1 = (Some out, w') ∧
    trace w' = trace w1 ++ l ∧ fingerprinted [Example.app; Example.system] Example.symbols (Nat.min 8 256) [Example.thread] None out.
Proof.
  split; [vm_compute; reflexivity|].
  exact (fingerprint_exact (budget := λ _, 0%nat) (elapsed := ticks) 8 [Example.thread] [Example.app; Example.system] Example.symbols
    no_deadline None w1 Example.sound_images Example.laid_out_images).
Defined.

End Fingerprint.
