(* ===== verification/Attachment.v ===== *)
(** * Attachments (src/collectors/attachment.rs)

    Registered files are copied during finalization: the source is opened below an allowed
    root through no-follow descriptors, and a bounded copy is published next to a temporary
    file that is removed unless it is published. *)

From stdpp Require Import pretty.
From S2P Require Import Prelude.
From S2P Require Import Traced.
From S2P Require Import Fueled.
From S2P Require Import ShmSnapshot.
From S2P Require Import ShmReader.
From S2P Require Import PipelineTypes.
From S2P Require Import PluginRun.
From S2P Require Artifact.
From S2P Require Sanitizer.
From S2P Require Paths.
From S2P Require Import Terminal.
From S2P Require Import PluginFiles.
From S2P Require PathsSpec.

Module Attachment.
Export PluginFiles.
#[local] Open Scope Z_scope.

Definition MAX_ATTACHMENT_SIZE : Z := 50 * 1024 * 1024.
Definition ATTACHMENT_COPY_BUFFER_SIZE : Z := 64 * 1024.
Definition MAX_WRITE_ATTEMPTS_PER_CHUNK : nat := Z.to_nat 1024.
Definition MAX_READ_ATTEMPTS_PER_CHUNK : nat := Z.to_nat 1024.

(** [open_root] is the open of a root without following links, [clone_handle] is
    [File::try_clone]. *)
Class AttachmentOps (E : Type) := {
  current_directory : E → result IoError PathBuf * E;
  open_root : PathBuf → E → result IoError Z * E;
  clone_handle : Z → E → result IoError Z * E
}.

Record AllowedSourceRoot := mkRoot { root_path : PathBuf; root_directory : Z }.

#[local] Existing Instance Paths.Paths.node_type_eq_dec.

Definition is_absolute (p : PathBuf) : bool := bool_decide (head p = Some "/"%string).
Definition is_dir (m : Metadata) : bool := bool_decide (Paths.Paths.meta_type (node m) = Paths.Paths.DirectoryNode).

(** [Component::Normal]. *)
Definition normal (component : string) : bool :=
  bool_decide (component ≠ "/" ∧ component ≠ "." ∧ component ≠ "..")%string.

(** ** Names *)

Definition is_ascii_alphanumeric (n : nat) : bool :=
  (((48 <=? n) && (n <=? 57)) || ((65 <=? n) && (n <=? 90)) || ((97 <=? n) && (n <=? 122)))%nat.

(** A character of a UTF-8 string by its first byte. *)
Definition chars (s : string) : list Ascii.ascii :=
  List.filter (λ c, negb ((128 <=? Ascii.nat_of_ascii c) && (Ascii.nat_of_ascii c <? 192))%nat) (String.list_ascii_of_string s).

Definition safe_character (allow_dot : bool) (c : Ascii.ascii) : bool :=
  let n := Ascii.nat_of_ascii c in
  is_ascii_alphanumeric n || (n =? 45)%nat || (n =? 95)%nat || (allow_dot && (n =? 46)%nat).

Definition underscore : Ascii.ascii := Ascii.ascii_of_nat 95.

Definition attachment_filename_component (value fallback : string) (max_len : nat) (allow_dot : bool) : string :=
  let sanitized := String.string_of_list_ascii
    (map (λ c, if safe_character allow_dot c then c else underscore) (take max_len (chars value))) in
  if decide (sanitized = EmptyString) then fallback else sanitized.

Definition dest_name (label ext uuid : string) : string := ("attachment-" +:+ label +:+ "-" +:+ uuid +:+ "." +:+ ext)%string.

Section Attachments.
Context {E : Type} {clock : Clock E} {paths : Paths.Paths.PathOps E} {ops : FileOps E} {attachment_ops : AttachmentOps E}
  {Txn Ctx : Type} {transactions : TransactionOps E Txn}.
#[local] Notation fm := (fueled E FileStep).
#[local] Notation PluginContext := (PluginContext Txn Ctx).

(** ** The collector *)

(** [AttachmentCollector::collect]: the registrations of the owned snapshot. *)
Definition collect_registrations (context : PluginContext) (registrations : list RawAttachment)
    : fm (result string unit * list RawAttachment) :=
  checked ← checkpoint context;
  match checked with
  | Err error => mret (Err error, registrations)
  | Ok _ =>
      match shm_snapshot context with
      | None => mret (Err "owned shared-memory snapshot unavailable"%string, registrations)
      | Some snapshot => checked ← checkpoint context; mret (checked, read_attachments snapshot)
      end
  end.

(** ** Sources *)

(** [AllowedSourceRoot::open]. *)
Definition open_source_root (p : PathBuf) : fm (result string AllowedSourceRoot) :=
  p ←? (if is_absolute p then mret (Ok p) else
        current ←? io_error "cannot resolve attachment root" (ask current_directory);
        mret (Ok (current ++ p)));
  directory ←? io_error ("cannot open attachment root " +:+ quoted p)%string (io (open_root p) (λ h, [Opened p h]));
  metadata ←? io_error ("cannot inspect attachment root " +:+ quoted p)%string (stat_handle directory);
  mret (if negb (is_dir metadata) then Err ("attachment root is not a directory: " +:+ quoted p)%string
        else Ok (mkRoot p directory)).

(** [AttachmentCopier::new]: the current directory, if it can be opened. *)
Definition default_roots : fm (list AllowedSourceRoot) :=
  current ← ask current_directory;
  match current with
  | Err _ => mret []
  | Ok p => root ← open_source_root p; mret match root with Ok root => [root] | Err _ => [] end
  end.

Definition openat (directory : Z) (name : string) (mode : Paths.Paths.open_mode) (what : string) : fm (result string Z) :=
  or_error Paths.Paths.errno_text what (embed PathDid (Paths.Paths.open_at directory name mode)).

Fixpoint descend (directory : Z) (parents : list string) : fm (result string Z) :=
  match parents with
  | [] => mret (Ok directory)
  | component :: parents =>
      next ←? openat directory component Paths.Paths.OpenDirectory "open attachment directory component failed";
      metadata ←? io_error "fstat attachment directory failed" (stat_handle next);
      if negb (is_dir metadata) then mret (Err "attachment path component is not a directory"%string)
      else descend next parents
  end.

Definition open_below (root : AllowedSourceRoot) (relative : PathBuf) : fm (result string Z) :=
  if negb (forallb normal relative) then mret (Err "attachment path contains a non-normal component"%string) else
  match last relative with
  | None => mret (Err "attachment path has no filename"%string)
  | Some name =>
      directory ←? io_error "clone attachment root descriptor failed"
                     (io (clone_handle (root_directory root)) (λ h, [Cloned (root_directory root) h]));
      directory ←? descend directory (removelast relative);
      openat directory name Paths.Paths.OpenExisting "open attachment file failed"
  end.

(** The first root that the path is below decides. *)
Fixpoint open_attachment_source (source : PathBuf) (roots : list AllowedSourceRoot) : fm (result string Z) :=
  match roots with
  | [] => mret (Err "attachment is outside every allowed source root"%string)
  | root :: roots =>
      if is_absolute source then
        match strip_prefix (root_path root) source with
        | Some relative => open_below root relative
        | None => open_attachment_source source roots
        end
      else open_below root source
  end.

(** ** Copies *)

Fixpoint write_attempts (attempts : nat) (h : Z) (b : list Byte) (context : PluginContext) : fm (result string unit) :=
  if decide (b = []) then mret (Ok tt) else
  _ ←? checkpoint context;
  match attempts with
  | O => mret (Err "too many attachment write attempts"%string)
  | S attempts =>
      r ← write h b;
      match r with
      | Ok written =>
          if decide (written = 0) then mret (Err "write temporary attachment made no progress"%string)
          else if decide (Z.of_nat (length b) < written) then mret (Err "attachment writer returned invalid length"%string)
          else write_attempts attempts h (drop (Z.to_nat written) b) context
      | Err Interrupted => write_attempts attempts h b context
      | Err error => mret (Err ("write temporary attachment failed: " +:+ io_text error)%string)
      end
  end.

Definition write_all_cooperative (h : Z) (b : list Byte) (context : PluginContext) : fm (result string unit) :=
  write_attempts MAX_WRITE_ATTEMPTS_PER_CHUNK h b context.

Fixpoint read_attempts (attempts : nat) (h n : Z) (context : PluginContext) : fm (result string (list Byte)) :=
  _ ←? checkpoint context;
  match attempts with
  | O => mret (Err "too many attachment read attempts"%string)
  | S attempts =>
      r ← read h n;
      match r with
      | Ok b => mret (Ok b)
      | Err Interrupted => read_attempts attempts h n context
      | Err error => mret (Err ("read attachment failed: " +:+ io_text error)%string)
      end
  end.

(** [steps] bounds the chunks; the sizes are [u64]. *)
Fixpoint copy_chunks (steps : nat) (source temporary max_size : Z) (context : PluginContext) (copied : Z)
    : fm (result string Z) :=
  match steps with
  | O => starved
  | S steps =>
      _ ←? checkpoint context;
      let remaining_probe := max_size + 1 - copied in
      if decide (remaining_probe < 0) then mret (Err "attachment exceeded size limit"%string) else
      b ←? read_attempts MAX_READ_ATTEMPTS_PER_CHUNK source (Z.min remaining_probe ATTACHMENT_COPY_BUFFER_SIZE) context;
      _ ←? checkpoint context;
      if decide (b = []) then mret (Ok copied) else
      let next_size := copied + Z.of_nat (length b) in
      if decide (U64_MAX < next_size) then mret (Err "attachment byte count overflow"%string)
      else if decide (max_size < next_size) then
        mret (Err ("attachment exceeds " +:+ pretty max_size +:+ "-byte size limit")%string)
      else
      _ ←? write_all_cooperative temporary b context;
      _ ←? checkpoint context;
      copy_chunks steps source temporary max_size context next_size
  end.

Definition copy_bounded (fuel : nat) (source temporary max_size : Z) (context : PluginContext) : fm (result string Z) :=
  if decide (U64_MAX < max_size + 1) then mret (Err "attachment size limit overflow"%string)
  else copy_chunks fuel source temporary max_size context 0.

(** [PendingAttachmentFile::create]. *)
Definition create_pending (fuel : nat) (p : PathBuf) : fm (result string Z) :=
  match parent p with
  | None => mret (Err ("temporary attachment has no parent: " +:+ quoted p)%string)
  | Some directory =>
      _ ←? path_error "prepare temporary attachment directory failed" (open_private_directory fuel directory);
      path_error "create temporary attachment failed" (create_private_file fuel p)
  end.

Definition sync_attachment_directory (fuel : nat) (p : PathBuf) : fm (result string unit) :=
  match parent p with
  | None => mret (Err ("attachment path has no parent: " +:+ quoted p)%string)
  | Some directory =>
      h ←? open_private_directory fuel directory;
      io_error "sync attachment directory failed" (sync_all h)
  end.

(** [PendingAttachmentFile::commit]; the warning of a directory that was not synced. *)
Definition commit (fuel : nat) (temporary : Z) (tmp destination : PathBuf) : fm (result string (option string)) :=
  _ ←? io_error "sync temporary attachment failed" (sync_all temporary);
  _ ←? path_error "commit temporary attachment failed" (publish_private_path fuel tmp destination);
  synced ← sync_attachment_directory fuel destination;
  mret (Ok match synced with
           | Ok _ => None
           | Err error => Some ("attachment " +:+ quoted destination +:+
                                  " was published but its directory could not be synced: " +:+ error)%string
           end).

(** The copy into the pending file, which is removed when it is dropped uncommitted. *)
Definition copy_pending (fuel : nat) (source temporary : Z) (tmp destination : PathBuf) (context : PluginContext)
    : fm (result string (Z * option string)) :=
  copied ←? copy_bounded fuel source temporary MAX_ATTACHMENT_SIZE context;
  _ ←? checkpoint context;
  warning ←? commit fuel temporary tmp destination;
  mret (Ok (copied, warning)).

Definition copy_registered_attachment (fuel : nat) (source_path : PathBuf) (roots : list AllowedSourceRoot)
    (destination tmp : PathBuf) (context : PluginContext) : fm (result string (Z * option string)) :=
  _ ←? checkpoint context;
  source ←? open_attachment_source source_path roots;
  _ ←? checkpoint context;
  metadata ←? io_error "fstat attachment failed" (stat_handle source);
  if negb (is_file metadata) then mret (Err "attachment is not a regular file"%string)
  else if decide (MAX_ATTACHMENT_SIZE < len metadata) then
    mret (Err ("attachment is too large (" +:+ pretty (len metadata) +:+ " bytes > " +:+ pretty MAX_ATTACHMENT_SIZE +:+ ")")%string)
  else
  _ ←? checkpoint context;
  temporary ←? create_pending fuel tmp;
  copied ← copy_pending fuel source temporary tmp destination context;
  match copied with
  | Ok copied => mret (Ok copied)
  | Err error => _ ← remove_file tmp; mret (Err error)
  end.

(** ** The plugin *)

Definition attachment_text (b : list Z) : string := Sanitizer.Sanitizer.to_string (Sanitizer.Sanitizer.of_bytes b).

(** The attachments of the event are returned as they are left. *)
Fixpoint copy_all (fuel : nat) (roots : list AllowedSourceRoot) (pending_dir : PathBuf) (context : PluginContext)
    (registered : list RawAttachment) (attachments : list RawCopiedAttachment)
    : fm (result string unit * list RawCopiedAttachment) :=
  match registered with
  | [] => checked ← checkpoint context; mret (checked, attachments)
  | att :: registered =>
      checked ← checkpoint context;
      match checked with
      | Err error => mret (Err error, attachments)
      | Ok _ =>
          let src_text := attachment_text (path att) in
          let src := Artifact.Artifact.components src_text in
          let label_bytes := label att in
          let label := attachment_filename_component (attachment_text label_bytes) "attachment" 64 true in
          let ext := attachment_filename_component (default "bin"%string (extension src)) "bin" 16 false in
          uuid ← ask fresh_name;
          tmp_uuid ← ask fresh_name;
          let dest := pending_dir ++ [dest_name label ext uuid] in
          let tmp := pending_dir ++ [("." +:+ dest_name label ext uuid +:+ "." +:+ tmp_uuid +:+ ".attachment.tmp")%string] in
          copied ← copy_registered_attachment fuel src roots dest tmp context;
          match copied with
          | Err error =>
              expired ← is_timed_out context;
              if (expired : bool) then mret (Err error, attachments) else
              _ ← warn ("[monitor] AttachmentCopier: copy rejected: " +:+ Terminal.escape_terminal src_text +:+ " → " +:+
                          Paths.Paths.shown dest +:+ " (label=" +:+ Terminal.escape_terminal (attachment_text label_bytes) +:+
                          "): " +:+ error)%string;
              copy_all fuel roots pending_dir context registered attachments
          | Ok (size, durability_warning) =>
              registered_file ← match artifact_transaction context with
                                | Some transaction => ask (transaction_register_file transaction dest Artifact.Artifact.Attachment)
                                | None => mret (Ok tt)
                                end;
              match registered_file with
              | Err error => mret (Err error, attachments)
              | Ok _ =>
                  _ ← match durability_warning, artifact_transaction context with
                      | Some warning, Some transaction => ask (transaction_record_durability_warning transaction warning)
                      | Some warning, None => warn ("[monitor] AttachmentCopier: " +:+ warning)%string
                      | None, _ => mret tt
                      end;
                  copy_all fuel roots pending_dir context registered
                    (attachments ++ [mkCopiedAttachment (attachment_text label_bytes) src_text dest size])
              end
          end
      end
  end.

(** [AttachmentCopier::process]. *)
Definition copy_attachments (fuel : nat) (data_dir_path : result string PathBuf) (output_dir : option PathBuf)
    (roots : list AllowedSourceRoot) (context : PluginContext) (registered : list RawAttachment)
    (attachments : list RawCopiedAttachment) : fm (result string unit * list RawCopiedAttachment) :=
  checked ← checkpoint context;
  match checked with
  | Err error => mret (Err error, attachments)
  | Ok _ =>
      if decide (registered = []) then mret (Ok tt, attachments) else
      dir ← match artifact_transaction context, output_dir with
            | Some transaction, _ => mret (Ok (transaction_staging_dir transaction))
            | None, Some dir => mret (Ok dir)
            | None, None => embed PathDid (Paths.Paths.pending_dir fuel data_dir_path)
            end;
      match dir with
      | Err error => mret (Err error, attachments)
      | Ok pending_dir => copy_all fuel roots pending_dir context registered attachments
      end
  end.

End Attachments.
End Attachment.

(** ** Attachments are contained, complete and bounded

    Where the source of a copy comes from, and what its destination has. *)

Module AttachmentSpec.
Export Attachment.
Export PluginFilesSpec.
#[local] Open Scope Z_scope.

(** ** Where the source comes from *)

(** [h'] was opened below [h], component by component, through directories. *)
Inductive below (l : list FileStep) : Z → list string → Z → Prop :=
| below_here h : below l h [] h
| below_step h name h1 m names h2 :
    PathDid (Paths.Paths.OpenedAt h name Paths.Paths.OpenDirectory h1) ∈ l → HandleStatted h1 (Ok m) ∈ l → is_dir m = true →
    below l h1 names h2 → below l h (name :: names) h2.

Definition contained (roots : list AllowedSourceRoot) (source : PathBuf) (l : list FileStep) (h : Z) : Prop :=
  ∃ root names name h0 h1,
    root ∈ roots ∧ source = (if is_absolute source then root_path root else []) ++ names ++ [name] ∧
    Forall (λ c, normal c = true) (names ++ [name]) ∧
    Cloned (root_directory root) h0 ∈ l ∧ below l h0 names h1 ∧
    PathDid (Paths.Paths.OpenedAt h1 name Paths.Paths.OpenExisting h) ∈ l.

Lemma below_mono l l' h names h' : l ⊆ l' → below l h names h' → below l' h names h'.
Proof. intros Hl. induction 1 as [|h name h1 m names h2 H1 H2 H3 _ IH]; [constructor|]. eapply below_step; [by apply Hl|by apply Hl|done|done]. Qed.
Lemma contained_mono roots source l l' h : l ⊆ l' → contained roots source l h → contained roots source l' h.
Proof.
  intros Hl (root & names & name & h0 & h1 & H1 & H2 & H3 & H4 & H5 & H6). exists root, names, name, h0, h1.
  split_and!; [done|done|done|by apply Hl|by eapply below_mono|by apply Hl].
Qed.

(** ** What is copied *)

Definition harmless (s : FileStep) : Prop := match s with Checked _ | HandleStatted _ _ | Cloned _ _ => True | _ => False end.
Definition synced (s : FileStep) : Prop := match s with FileSynced _ => True | _ => False end.

(** Between the creation of the temporary file and its publication. *)
Definition copying (hs h : Z) (s : FileStep) : Prop :=
  match s with Checked false => True | ReadFrom h' _ => h' = hs | WroteTo h' _ => h' = h | _ => False end.
Definition unfinished (hs h : Z) (tmp dst : PathBuf) (s : FileStep) : Prop :=
  match s with
  | Checked _ => True
  | ReadFrom h' _ => h' = hs
  | WroteTo h' _ | FileSynced h' => h' = h
  | Published p q ok => p = tmp ∧ q = dst ∧ ok = false
  | _ => False
  end.

Inductive copied (hs : Z) (tmp dst : PathBuf) : list FileStep → result string (Z * option string) → Prop :=
| CopyRefused l error : Forall harmless l → copied hs tmp dst l (Err error)
| CopyDropped before h body removed error :
    Forall harmless before → Forall (unfinished hs h tmp dst) body →
    copied hs tmp dst (before ++ Created tmp h :: body ++ [Removed tmp removed]) (Err error)
| CopyPublished before m h body after size warning :
    Forall harmless before → HandleStatted hs (Ok m) ∈ before → is_file m = true → len m ≤ MAX_ATTACHMENT_SIZE →
    Forall (copying hs h) body → read_bytes body = written_bytes body → ReadFrom hs [] ∈ body →
    size = Z.of_nat (length (written_bytes body)) → size ≤ MAX_ATTACHMENT_SIZE → Forall synced after →
    copied hs tmp dst (before ++ Created tmp h :: body ++ [FileSynced h; Published tmp dst true] ++ after) (Ok (size, warning)).

Section Attachments.
Context {E : Type} {clock : Clock E} {paths : Paths.Paths.PathOps E} {ops : FileOps E} {attachment_ops : AttachmentOps E}
  {Txn Ctx : Type} {transactions : TransactionOps E Txn}.
#[local] Notation fm := (fueled E FileStep).
#[local] Notation PluginContext := (PluginContext Txn Ctx).

(** ** The source *)

(** Evidence in the trace for an answer, with harmless deeds. *)
Definition shows {A : Type} (Q : list FileStep → A → Prop) (m : fm (result string A)) : Prop :=
  ends (λ l r, Forall harmless (deeds l) ∧ ∀ a, r = Ok a → Q l a) m.

Lemma shows_bind {A B : Type} (P : list FileStep → A → Prop) (Q : list FileStep → B → Prop)
    (m : fm (result string A)) (f : A → fm (result string B)) :
  shows P m → (∀ l a, P l a → shows (λ l' b, Q (l ++ l') b) (f a)) → shows Q (a ←? m; f a).
Proof.
  intros Hm Hf. eapply ends_bind; [exact Hm|]. intros l [a|error] [Hl HP].
  - eapply ends_impl; [by apply Hf, HP|]. intros l' r [Hl' HQ]. rewrite deeds_app. split; [by apply Forall_app|done].
  - apply ends_ret. rewrite app_nil_r. by split.
Qed.
Lemma shows_ok {A : Type} (Q : list FileStep → A → Prop) a : Q [] a → shows Q (mret (Ok a)).
Proof. intros H. apply ends_ret. split; [constructor|]. by intros ? [= <-]. Qed.
Lemma shows_err {A : Type} (Q : list FileStep → A → Prop) error : shows Q (mret (Err error)).
Proof. apply ends_ret. by split; [constructor|]. Qed.
Lemma shows_impl {A : Type} (P Q : list FileStep → A → Prop) (m : fm (result string A)) :
  shows P m → (∀ l a, P l a → Q l a) → shows Q m.
Proof. intros Hm H. eapply ends_impl; [exact Hm|]. intros l r [H1 H2]. auto. Qed.
Lemma shows_or_error {e A : Type} (P : list FileStep → A → Prop) (text : e → string) prefix (m : fm (result e A)) :
  ends (λ l r, Forall harmless (deeds l) ∧ ∀ a, r = Ok a → P l a) m → shows P (or_error text prefix m).
Proof.
  intros Hm. eapply ends_bind; [exact Hm|]. intros l r [H1 H2]. apply ends_ret. rewrite app_nil_r. split; [done|].
  intros a Ha. apply H2. destruct r; by simplify_eq/=.
Qed.

Lemma shows_openat directory name mode what :
  shows (λ l h, PathDid (Paths.Paths.OpenedAt directory name mode h) ∈ l) (openat directory name mode what).
Proof.
  apply shows_or_error. eapply ends_impl; [apply ends_embed, PathsSpec.PathsSpec.gives_open|].
  intros l r (l' & -> & H). split; [rewrite deeds_paths; constructor|]. intros h Hr. apply list_elem_of_fmap_2. auto.
Qed.
Lemma shows_stat_handle h what : shows (λ l m, HandleStatted h (Ok m) ∈ l) (io_error what (stat_handle h)).
Proof.
  apply shows_or_error. apply ends_quiet; [auto with cm|]. intros r. apply ends_step, ends_ret.
  split; [by repeat constructor|]. intros m ->. apply elem_of_cons. by left.
Qed.
Lemma shows_clone h what : shows (λ l h', Cloned h h' ∈ l) (io_error what (io (clone_handle h) (λ h', [Cloned h h']))).
Proof.
  apply shows_or_error. apply ends_quiet; [auto with cm|]. intros [h'|error]; [|apply ends_ret; by split; [constructor|]].
  cbn [fold_right]. apply (ends_bind (λ l _, l = [Cloned h h'])); [by apply ends_step, ends_ret|].
  intros l [] ->. apply ends_ret. split; [by repeat constructor|]. intros ? [= <-]. apply elem_of_cons. by left.
Qed.

Ltac in_trace := cbn beta; rewrite ?elem_of_app; tauto.

Lemma shows_descend directory parents : shows (λ l h, below l directory parents h) (descend directory parents).
Proof.
  revert directory. induction parents as [|component parents IH]; intros directory; [apply shows_ok; constructor|].
  cbn [descend]. eapply shows_bind; [apply shows_openat|]. intros l next Hnext.
  eapply shows_bind; [apply shows_stat_handle|]. intros l' m Hm. destruct (is_dir m) eqn:Hdir; cbn [negb]; [|apply shows_err].
  eapply shows_impl; [apply IH|]. intros l2 h Hb. apply (below_step _ _ _ next m); [in_trace|in_trace|done|].
  eapply below_mono; [|exact Hb]. intros s Hs. in_trace.
Qed.

Lemma last_split {A : Type} (l : list A) x : last l = Some x → l = removelast l ++ [x].
Proof. intros H. destruct (exists_last (l := l)) as (l' & y & ->); [by intros ->|]. rewrite last_snoc in H. simplify_eq. by rewrite removelast_last. Qed.

Lemma shows_open_below root relative :
  shows (λ l h, ∃ names name h0 h1, relative = names ++ [name] ∧ Forall (λ c, normal c = true) (names ++ [name]) ∧
      Cloned (root_directory root) h0 ∈ l ∧ below l h0 names h1 ∧
      PathDid (Paths.Paths.OpenedAt h1 name Paths.Paths.OpenExisting h) ∈ l) (open_below root relative).
Proof.
  unfold open_below. destruct (forallb normal relative) eqn:Hn; cbn [negb]; [|apply shows_err].
  destruct (last relative) as [name|] eqn:Hlast; [|apply shows_err]. apply last_split in Hlast.
  eapply shows_bind; [apply shows_clone|]. intros l h0 H0. eapply shows_bind; [apply shows_descend|]. intros l1 h1 H1.
  eapply shows_impl; [apply shows_openat|]. intros l2 h H2. exists (removelast relative), name, h0, h1.
  split_and!; [done| |in_trace| |in_trace].
  - rewrite <-Hlast. apply Forall_forall. intros c Hc. rewrite forallb_forall in Hn. apply Hn. by apply list_elem_of_In.
  - eapply below_mono; [|exact H1]. intros s Hs. in_trace.
Qed.

Lemma shows_source source roots : shows (contained roots source) (open_attachment_source source roots).
Proof.
  assert (∀ root roots', root ∈ roots' → ∀ relative, source = (if is_absolute source then root_path root else []) ++ relative →
    shows (contained roots' source) (open_below root relative)) as Hbelow.
  { intros root roots' Hin relative Hs. eapply shows_impl; [apply shows_open_below|].
    intros l h (names & name & h0 & h1 & -> & H). by exists root, names, name, h0, h1. }
  induction roots as [|root roots IH]; [apply shows_err|]. cbn [open_attachment_source].
  destruct (is_absolute source) eqn:Habs.
  - destruct (strip_prefix (root_path root) source) as [relative|] eqn:Hs.
    + apply Hbelow; [apply elem_of_cons; by left|]. by apply strip_prefix_app.
    + eapply shows_impl; [apply IH|]. intros l h (root' & names & name & h0 & h1 & Hin & H).
      exists root', names, name, h0, h1. split; [apply elem_of_cons; by right|done].
  - apply Hbelow; [apply elem_of_cons; by left|done].
Qed.

(** ** The copy *)

Lemma does_write_attempts attempts hs h tmp dst b (context : PluginContext) :
  does (λ l r, match r with
               | Ok _ => Forall (copying hs h) l ∧ read_bytes l = [] ∧ written_bytes l = b
               | Err _ => Forall (unfinished hs h tmp dst) l
               end) (write_attempts attempts h b context).
Proof.
  revert b. induction attempts as [|attempts IH]; intros b; cbn [write_attempts];
    (case_decide as Hb; [subst; by apply does_ret|]); (apply does_checkpoint; [by repeat constructor|]).
  - apply does_ret. by repeat constructor.
  - eapply does_bind; [apply does_write|]. intros l [n|error] ->.
    + case_decide; [apply does_ret; by repeat constructor|]. case_decide; [apply does_ret; by repeat constructor|].
      eapply does_impl; [apply IH|]. intros l [[]|error]; [|by repeat constructor]. intros (H1 & H2 & H3).
      split_and!; [by repeat constructor|by bytes|]. bytes. rewrite H3. apply take_drop.
    + destruct error; try (apply does_ret; by repeat constructor).
      eapply does_impl; [apply IH|]. intros l [[]|error]; [|by repeat constructor]. intros (H1 & H2 & H3).
      split_and!; [by repeat constructor|by bytes|by bytes].
Qed.

Lemma does_read_attempts attempts hs h tmp dst n (context : PluginContext) :
  does (λ l r, match r with
               | Ok b => Forall (copying hs h) l ∧ read_bytes l = b ∧ written_bytes l = [] ∧ (b = [] → ReadFrom hs [] ∈ l)
               | Err _ => Forall (unfinished hs h tmp dst) l
               end) (read_attempts attempts hs n context).
Proof.
  induction attempts as [|attempts IH]; cbn [read_attempts]; (apply does_checkpoint; [by repeat constructor|]).
  - apply does_ret. by repeat constructor.
  - eapply does_bind; [apply does_read|]. intros l [b|error] ->.
    + apply does_ret. split_and!; [by repeat constructor|by bytes|by bytes|]. intros ->. set_solver.
    + destruct error; try (apply does_ret; by repeat constructor).
      eapply does_impl; [apply IH|]. intros l [b|error]; [|by repeat constructor]. intros (H1 & H2 & H3 & H4).
      split_and!; [by repeat constructor|by bytes|by bytes|]. intros Hb. specialize (H4 Hb). set_solver.
Qed.

Lemma copying_unfinished hs h tmp dst l : Forall (copying hs h) l → Forall (unfinished hs h tmp dst) l.
Proof. intros Hl. eapply Forall_impl; [exact Hl|]. by intros []. Qed.

Definition copy_post (hs h : Z) (tmp dst : PathBuf) (copied_before max_size : Z) (l : list FileStep) (r : result string Z) : Prop :=
  match r with
  | Ok n => Forall (copying hs h) l ∧ read_bytes l = written_bytes l ∧ ReadFrom hs [] ∈ l ∧
      n = copied_before + Z.of_nat (length (written_bytes l)) ∧ n ≤ max_size
  | Err _ => Forall (unfinished hs h tmp dst) l
  end.

Lemma does_copy_chunks steps hs h tmp dst max_size (context : PluginContext) copied_before :
  copied_before ≤ max_size →
  does (copy_post hs h tmp dst copied_before max_size) (copy_chunks steps hs h max_size context copied_before).
Proof.
  revert copied_before. induction steps as [|steps IH]; intros copied_before Hmax; [apply does_starved|]. cbn [copy_chunks].
  apply does_checkpoint; [by repeat constructor|]. case_decide; [apply does_ret; by repeat constructor|].
  eapply does_try; [apply (does_read_attempts _ _ h tmp dst)|intros l error Hl; by constructor|].
  intros l b (H1 & H2 & H3 & H4). pose proof (copying_unfinished _ _ tmp dst _ H1) as Hu.
  assert (∀ l', Forall (unfinished hs h tmp dst) l' → Forall (unfinished hs h tmp dst) (Checked false :: l ++ l')) as Hfail.
  { intros l' Hl'. constructor; [done|]. by apply Forall_app. }
  apply does_checkpoint; [by apply Hfail; repeat constructor|].
  case_decide as Hb.
  { apply does_ret. specialize (H4 Hb). unfold copy_post. bytes. rewrite H2, H3, Hb. cbn [length]. split_and!; [|done|set_solver|simpl; lia|done].
    constructor; [done|]. apply Forall_app. split; [done|by repeat constructor]. }
  case_decide; [apply does_ret, Hfail; by repeat constructor|]. case_decide; [apply does_ret, Hfail; by repeat constructor|].
  eapply does_try; [apply (does_write_attempts _ hs h tmp dst)|intros l' error Hl'; apply Hfail; by constructor|].
  intros l' [] (W1 & W2 & W3). pose proof (copying_unfinished _ _ tmp dst _ W1) as Hu'.
  apply does_checkpoint; [apply Hfail; constructor; [done|]; apply Forall_app; split; [done|by repeat constructor]|].
  eapply does_impl; [apply IH; lia|]. intros l2 [n|error] Hr; unfold copy_post in *.
  - destruct Hr as (G1 & G2 & G3 & G4 & G5). bytes. rewrite H2, H3, W2, W3, <-G2.
    split_and!; [|by bytes|set_solver|rewrite G4, <-G2; bytes; rewrite length_app; lia|done].
    constructor; [done|]. apply Forall_app. split; [done|]. constructor; [done|]. apply Forall_app. split; [done|by constructor].
  - apply Hfail. constructor; [done|]. apply Forall_app. split; [done|by constructor].
Qed.

Lemma only_sync fuel p : only synced (sync_attachment_directory fuel p).
Proof.
  unfold sync_attachment_directory. destruct (parent p); [|solve_only]. apply only_bind; [solve_only|].
  intros [h|error]; [|solve_only]. unfold io_error, or_error. apply only_bind; [|solve_only].
  eapply does_impl; [apply does_sync_all|]. intros l [] ->; by repeat constructor.
Qed.

(** The deeds from the temporary file on. *)
Definition pending_post (hs h : Z) (tmp dst : PathBuf) (l : list FileStep) (r : result string (Z * option string)) : Prop :=
  match r with
  | Err _ => Forall (unfinished hs h tmp dst) l
  | Ok (size, _) => ∃ body after, l = body ++ [FileSynced h; Published tmp dst true] ++ after ∧
      Forall (copying hs h) body ∧ read_bytes body = written_bytes body ∧ ReadFrom hs [] ∈ body ∧
      size = Z.of_nat (length (written_bytes body)) ∧ size ≤ MAX_ATTACHMENT_SIZE ∧ Forall synced after
  end.

Lemma does_copy_pending fuel hs h tmp dst (context : PluginContext) :
  does (pending_post hs h tmp dst) (copy_pending fuel hs h tmp dst context).
Proof.
  unfold copy_pending. eapply does_try.
  { unfold copy_bounded. instantiate (1 := copy_post hs h tmp dst 0 MAX_ATTACHMENT_SIZE).
    case_decide; [by apply does_ret|]. by apply does_copy_chunks. }
  { intros l error Hl. exact Hl. }
  intros body size (H1 & H2 & H3 & H4 & H5). pose proof (copying_unfinished _ _ tmp dst _ H1) as Hu.
  apply does_checkpoint; [apply Forall_app; split; [done|by repeat constructor]|].
  assert (∀ l, Forall (unfinished hs h tmp dst) l → Forall (unfinished hs h tmp dst) (body ++ Checked false :: l)) as Hfail.
  { intros l Hl. apply Forall_app. split; [done|by constructor]. }
  eapply (does_try (λ l r, match r with
      | Err _ => Forall (unfinished hs h tmp dst) l
      | Ok _ => ∃ after, l = [FileSynced h; Published tmp dst true] ++ after ∧ Forall synced after end)).
  - unfold commit. eapply does_try_io; [apply does_sync_all|intros l error error' ->; constructor|]. intros l [] ->.
    eapply does_try_io; [apply does_publish|intros l error error' ->; by repeat constructor|]. intros l [] ->.
    eapply does_bind; [apply only_sync|]. intros after synced_result Ha. apply does_ret. exists after. by rewrite app_nil_r.
  - intros l error Hl. by apply Hfail.
  - intros l warning (after & -> & Ha). apply does_ret. exists (body ++ [Checked false]), after.
    bytes. split_and!; [by rewrite ?app_nil_r, <-?app_assoc| |by bytes|set_solver|lia|done|done].
    apply Forall_app. split; [done|by repeat constructor].
Qed.

Lemma idle_create_pending_parent fuel tmp :
  does (λ l r, l = match r with Ok h => [Created tmp h] | Err _ => [] end) (create_pending fuel tmp).
Proof.
  unfold create_pending. destruct (parent tmp); [|by apply does_ret].
  apply does_try_idle; [unfold path_error, or_error; solve_only|done|]. intros _.
  eapply does_impl; [apply does_or_error, does_create|]. by intros l r ([h|error] & -> & ->).
Qed.

(** From the opened source on. *)
Lemma does_copy fuel hs tmp dst (context : PluginContext) before :
  Forall harmless before →
  does (λ l r, copied hs tmp dst (before ++ l) r)
    (_ ←? checkpoint context;
     metadata ←? io_error "fstat attachment failed" (stat_handle hs);
     if negb (is_file metadata) then mret (Err "attachment is not a regular file"%string)
     else if decide (MAX_ATTACHMENT_SIZE < len metadata) then
       mret (Err ("attachment is too large (" +:+ pretty.pretty (len metadata) +:+ " bytes > " +:+ pretty.pretty MAX_ATTACHMENT_SIZE +:+ ")")%string)
     else
     _ ←? checkpoint context;
     temporary ←? create_pending fuel tmp;
     copied ← copy_pending fuel hs temporary tmp dst context;
     match copied with
     | Ok copied => mret (Ok copied)
     | Err error => _ ← remove_file tmp; mret (Err error)
     end).
Proof.
  intros Hb.
  assert (∀ l (error : string), Forall harmless l → copied hs tmp dst (before ++ l) (Err error)) as Refused.
  { intros l error Hl. by apply CopyRefused, Forall_app. }
  apply does_checkpoint; [by apply Refused; repeat constructor|].
  eapply does_try_io; [apply does_stat_handle|intros l error error' ->; apply Refused; by repeat constructor|]. intros l m ->.
  destruct (is_file m) eqn:Hfile; cbn [negb]; [|apply does_ret, Refused; by repeat constructor].
  case_decide; [apply does_ret, Refused; by repeat constructor|].
  apply does_checkpoint; [apply Refused; by repeat constructor|].
  eapply does_try; [apply idle_create_pending_parent|intros l error ->; apply Refused; by repeat constructor|]. intros l h ->.
  set (front := before ++ [Checked false; HandleStatted hs (Ok m); Checked false]).
  assert (Forall harmless front) as Hfront by (apply Forall_app; by repeat constructor).
  apply (does_impl (λ l r, copied hs tmp dst (front ++ Created tmp h :: l) r)).
  2: { intros l r H1. subst front. by rewrite <-app_assoc in H1. }
  eapply does_bind; [apply does_copy_pending|]. intros l [[size warning]|error] Hr.
  - apply does_ret. rewrite app_nil_r. destruct Hr as (body & after & -> & H1 & H2 & H3 & H4 & H5 & H6).
    apply (CopyPublished _ _ _ _ m); try done; [|lia]. subst front. set_solver.
  - eapply does_bind; [apply does_remove|]. intros l' removed ->. apply does_ret. rewrite app_nil_r. by apply CopyDropped.
Qed.

(** A copy, and the source that it has read. *)
Definition copied_from (roots : list AllowedSourceRoot) (source tmp dst : PathBuf) (l : list FileStep)
    (r : result string (Z * option string)) : Prop :=
  ∃ hs, copied hs tmp dst (deeds l) r ∧ (is_ok r = true → contained roots source l hs).

Lemma ends_copy fuel source roots tmp dst (context : PluginContext) :
  ends (copied_from roots source tmp dst) (copy_registered_attachment fuel source roots dst tmp context).
Proof.
  unfold copy_registered_attachment, copied_from. eapply ends_bind.
  { unfold checkpoint. eapply ends_bind; [apply does_checked|]. intros l b Hl. apply ends_ret. rewrite app_nil_r.
    instantiate (1 := λ l r, ∃ b, deeds l = [Checked b]). by exists b. }
  intros l0 [[]|error] [b0 H0].
  2: { apply ends_ret. exists 0. rewrite app_nil_r, H0. split; [apply CopyRefused; by repeat constructor|done]. }
  eapply ends_bind; [apply shows_source|]. intros l1 [hs|error] [H1 Hs].
  2: { apply ends_ret. exists 0. rewrite app_nil_r, deeds_app, H0. split; [apply CopyRefused; by repeat constructor|done]. }
  specialize (Hs hs eq_refl). eapply ends_impl.
  - apply (does_copy fuel hs tmp dst context (deeds l0 ++ deeds l1)). rewrite H0. by repeat constructor.
  - intros l r Hr. exists hs. rewrite !deeds_app, app_assoc. split; [exact Hr|]. intros _.
    eapply contained_mono; [|exact Hs]. intros s Hin. in_trace.
Qed.

(** ** Its publication *)

#[local] Hint Resolve backs_io : cm.
Lemma openat_backs directory name mode what : backs (openat directory name mode what).
Proof. apply backs_or_error, backs_embed. eexists. apply PathsSpec.PathsSpec.gives_open. Qed.
Lemma clone_backs h what : backs (io_error what (io (clone_handle h) (λ h', [Cloned h h']))).
Proof. apply backs_io_error, backs_io. by repeat constructor. Qed.
#[local] Hint Resolve openat_backs clone_backs : cm.
Lemma descend_backs directory parents : backs (descend directory parents).
Proof. revert directory. induction parents; intros; cbn [descend]; solve_backs. Qed.
#[local] Hint Resolve descend_backs : cm.
Lemma source_backs source roots : backs (open_attachment_source source roots).
Proof. induction roots; cbn [open_attachment_source]; unfold open_below; solve_backs. Qed.
Lemma write_attempts_backs attempts h b (context : PluginContext) : backs (write_attempts attempts h b context).
Proof. revert b. induction attempts; intros; cbn [write_attempts]; solve_backs. Qed.
Lemma read_attempts_backs attempts h n (context : PluginContext) : backs (read_attempts attempts h n context).
Proof. induction attempts; cbn [read_attempts]; solve_backs. Qed.
#[local] Hint Resolve source_backs write_attempts_backs read_attempts_backs : cm.
Lemma copy_chunks_backs steps hs h max_size (context : PluginContext) before :
  backs (copy_chunks steps hs h max_size context before).
Proof. revert before. induction steps; intros; cbn [copy_chunks]; unfold write_all_cooperative; solve_backs. Qed.
#[local] Hint Resolve copy_chunks_backs : cm.
Lemma copy_backs fuel source roots dst tmp (context : PluginContext) :
  backs (copy_registered_attachment fuel source roots dst tmp context).
Proof.
  unfold copy_registered_attachment, create_pending, copy_pending, copy_bounded, commit, sync_attachment_directory. solve_backs.
Qed.

(** ** The event's attachments *)

Definition published_as (l : list FileStep) (a : RawCopiedAttachment) : Prop :=
  ∃ tmp, Published tmp (copied_path a) true ∈ l.

Lemma published_mono l l' a : l ⊆ l' → published_as l a → published_as l' a.
Proof. intros Hl [tmp Htmp]. exists tmp. by apply Hl. Qed.

Lemma copied_published hs tmp dst l a : copied hs tmp dst l (Ok a) → Published tmp dst true ∈ l.
Proof.
  intros Hc. remember (Ok a) as r eqn:Hr. destruct Hc as [|before h body removed error|before m h body after size warning]; [done|done|].
  rewrite !elem_of_app, elem_of_cons, !elem_of_app, !elem_of_cons. tauto.
Qed.
Lemma deeds_in s l : s ∈ deeds l → s ∈ l.
Proof. by intros [_ H]%list_elem_of_filter. Qed.

#[local] Ltac stop := apply ends_ret; exists []; by rewrite app_nil_r.

(** Only copies that were published become attachments of the event. *)
Lemma copy_all_published fuel roots pending_dir (context : PluginContext) registered attachments :
  ends (λ l out, ∃ new, out.2 = attachments ++ new ∧ Forall (published_as l) new)
    (copy_all fuel roots pending_dir context registered attachments).
Proof.
  revert attachments. induction registered as [|att registered IH]; intros attachments; cbn [copy_all].
  { apply (ends_bind (λ _ _, True)); [|intros l r _; apply ends_ret; exists []; by rewrite app_nil_r].
    apply (ends_bind (λ _ _, True)); [eapply ends_impl; [apply does_checked|done]|]. intros; by apply ends_ret. }
  assert (∀ f attachments', (∀ l' : list FileStep, l' ⊆ f l') →
    (∃ new, attachments' = attachments ++ new ∧ Forall (λ a, ∀ l', published_as (f l') a) new) →
    ends (λ l' out, ∃ new, out.2 = attachments ++ new ∧ Forall (published_as (f l')) new)
      (copy_all fuel roots pending_dir context registered attachments')) as Hnext.
  { intros f attachments' Hf (new & -> & Hnew). eapply ends_impl; [apply IH|]. intros l' out (new' & -> & Hnew').
    exists (new ++ new'). rewrite app_assoc. split; [done|]. apply Forall_app.
    split; (eapply Forall_impl; [eassumption|]); intros a Ha; [apply Ha|]. by apply (published_mono l'). }
  apply (ends_bind (λ _ _, True)).
  { apply (ends_bind (λ _ _, True)); [eapply ends_impl; [apply does_checked|done]|]. intros; by apply ends_ret. }
  intros l0 [[]|error] _; [|stop].
  apply ends_quiet; [auto with cm|]. intros uuid. apply ends_quiet; [auto with cm|]. intros tmp_uuid.
  eapply ends_bind; [apply ends_copy|]. intros l [[size warning]|error] (hs & Hc & _).
  - apply ends_quiet; [case_match; auto with cm|]. intros [[]|error]; [|stop].
    eapply (ends_bind (λ _ _, True)).
    { repeat case_match; first [by apply ends_ret | by apply quiet_ends; [auto with cm|] | by apply ends_of_traced, emit_emits]. }
    intros l' [] _. apply (Hnext (λ l2, l0 ++ l ++ l' ++ l2)); [intros l2 x Hx; in_trace|].
    eexists [_]. split; [done|]. constructor; [|constructor]. intros l2.
    apply copied_published, deeds_in in Hc. eexists. rewrite !elem_of_app. right. left. exact Hc.
  - eapply ends_bind; [apply does_checked|]. intros l1 b _. destruct b; [stop|].
    apply (ends_bind (λ _ _, True)); [by apply ends_of_traced, emit_emits|]. intros l2 [] _.
    apply (Hnext (λ l3, l0 ++ l ++ l1 ++ l2 ++ l3)); [intros l3 x Hx; in_trace|]. exists []. by rewrite app_nil_r.
Qed.

End Attachments.

(** ** Names *)

Definition safe_name (s : string) : bool := forallb (safe_character true) (String.list_ascii_of_string s).

Lemma list_ascii_app s t : String.list_ascii_of_string (s +:+ t) = String.list_ascii_of_string s ++ String.list_ascii_of_string t.
Proof. induction s as [|c s IH]; [done|]. change (c :: String.list_ascii_of_string (s +:+ t) = c :: String.list_ascii_of_string s ++ String.list_ascii_of_string t). by rewrite IH. Qed.
Lemma safe_name_app s t : safe_name (s +:+ t) = safe_name s && safe_name t.
Proof. unfold safe_name. by rewrite list_ascii_app, forallb_app. Qed.

(** Whatever the registered label: letters, digits, [-], [_] and [.], and no separator. *)
Lemma component_safe value fallback max_len allow_dot :
  safe_name fallback = true → safe_name (attachment_filename_component value fallback max_len allow_dot) = true.
Proof.
  intros Hf. unfold attachment_filename_component. case_decide; [done|]. unfold safe_name.
  rewrite String.list_ascii_of_string_of_list_ascii. apply forallb_forall. intros c (c' & <- & _)%in_map_iff.
  destruct (safe_character allow_dot c') eqn:Hc; [|done]. unfold safe_character in *.
  apply orb_true_iff in Hc as [Hc|Hc]; [by rewrite Hc|]. apply andb_true_iff in Hc as [_ Hc]. rewrite Hc. by rewrite !orb_true_r.
Qed.

Lemma dest_name_safe value ext uuid :
  safe_name uuid = true →
  safe_name (dest_name (attachment_filename_component value "attachment" 64 true)
    (attachment_filename_component ext "bin" 16 false) uuid) = true.
Proof. intros Hu. unfold dest_name. rewrite !safe_name_app, Hu, !component_safe by done. done. Qed.

(** ** Answers *)

Class AttachmentLaws (E : Type) {attachment_ops : AttachmentOps E} (budget : E → nat) : Prop := {
  law_current : calm budget current_directory;
  law_open_root p : calm budget (open_root p);
  law_clone h : calm budget (clone_handle h)
}.

Section Answers.
Context {E : Type} {clock : Clock E} {paths : Paths.Paths.PathOps E} {ops : FileOps E} {attachment_ops : AttachmentOps E}
  {Txn Ctx : Type} {budget : E → nat} {elapsed : E → Z} {time : PathsSpec.PathsSpec.PathTime E elapsed}
  {path_laws : PathsSpec.PathsSpec.PathLaws E budget} {laws : FileLaws E budget} {attachment_laws : AttachmentLaws E budget}.
#[local] Notation fm := (fueled E FileStep).
#[local] Notation PluginContext := (PluginContext Txn Ctx).
Context {n fuel : nat} (Hfuel : MAX_ATTACHMENT_SIZE < Z.of_nat fuel) (Hn : (n ≤ fuel)%nat).

Lemma attachment_race_fuel : Paths.Paths.PERMISSION_RACE_DEADLINE < Z.of_nat fuel.
Proof. unfold Paths.Paths.PERMISSION_RACE_DEADLINE, NANOS_PER_MILLI, MAX_ATTACHMENT_SIZE in *. lia. Qed.
#[local] Hint Resolve attachment_race_fuel open_private_directory_settles create_private_file_settles publish_path_settles io_settles law_clone : cm.

Lemma write_settles k h b : settles budget k (write h b).
Proof. apply io_settles. intros e. apply law_write. Qed.
#[local] Hint Resolve write_settles : cm.

Lemma openat_settles directory name mode what : settles budget n (openat directory name mode what).
Proof.
  apply or_error_settles, settles_embed, (settles_less fuel); [done|].
  apply PathsSpec.PathsSpec.open_at_settles.
Qed.
#[local] Hint Resolve openat_settles : cm.
Lemma descend_settles directory parents : settles budget n (descend directory parents).
Proof. revert directory. induction parents; intros; cbn [descend]; unfold io_error; settle. Qed.
#[local] Hint Resolve descend_settles : cm.
Lemma attachment_source_settles source roots : settles budget n (open_attachment_source source roots).
Proof. induction roots; cbn [open_attachment_source]; unfold open_below, io_error; settle. Qed.
Lemma write_attempts_settles attempts h b (context : PluginContext) : settles budget n (write_attempts attempts h b context).
Proof. revert b. induction attempts; intros; cbn [write_attempts]; settle. Qed.
Lemma read_attempts_settles attempts h m (context : PluginContext) : settles budget n (read_attempts attempts h m context).
Proof. induction attempts; cbn [read_attempts]; settle. Qed.
#[local] Hint Resolve attachment_source_settles write_attempts_settles read_attempts_settles : cm.

(** Every chunk has a byte, and the limit ends the copy. *)
Lemma copy_chunks_settles steps hs h max_size (context : PluginContext) copied_before :
  copied_before ≤ max_size → max_size - copied_before < Z.of_nat steps →
  settles budget n (copy_chunks steps hs h max_size context copied_before).
Proof.
  revert copied_before. induction steps as [|steps IH]; intros copied_before Hc Hs; [lia|]. cbn [copy_chunks].
  apply settles_then; [eauto with cm|]. intros [[]|error]; [|apply settles_answer].
  case_decide; [apply settles_answer|]. apply settles_then; [eauto with cm|]. intros [b|error]; [|apply settles_answer].
  apply settles_then; [eauto with cm|]. intros [[]|error]; [|apply settles_answer].
  case_decide as Hb; [apply settles_answer|]. case_decide; [apply settles_answer|]. case_decide; [apply settles_answer|].
  apply settles_then; [apply write_attempts_settles|]. intros [[]|error]; [|apply settles_answer].
  apply settles_then; [eauto with cm|]. intros [[]|error]; [|apply settles_answer].
  assert (1 ≤ Z.of_nat (length b)) by (destruct b; [done|simpl; lia]). apply IH; lia.
Qed.

Lemma copy_settles source roots dst tmp (context : PluginContext) :
  settles budget n (copy_registered_attachment fuel source roots dst tmp context).
Proof.
  unfold copy_registered_attachment, create_pending, copy_pending, copy_bounded, commit, sync_attachment_directory, io_error, path_error.
  assert (∀ hs h, settles budget n (copy_chunks fuel hs h MAX_ATTACHMENT_SIZE context 0)).
  { intros hs h. apply copy_chunks_settles; unfold MAX_ATTACHMENT_SIZE in *; lia. }
  settle.
Qed.

End Answers.

(** C20. Copying a registered attachment answers, whatever the environment does. A copy that
    succeeds has read a file that was opened below one of the allowed roots: component by
    component, through directories and without following links, along a path of which no
    component is [..]. Its destination was published, without replacing anything, with
    exactly the bytes that were read up to the end of that regular file, at most 50 MiB,
    and synced before. A copy that fails has published nothing unless its publication
    renamed the temporary file and could not be verified, and it asked for the removal of
    the temporary file that it had created. Every publication in the trace has the steps
    and the answer of a [publication] of PathsPublish.v, which says what a failed one
    undid, moved aside or was refused. *)
Theorem attachments_contained {E : Type} {clock : Clock E} {paths : Paths.Paths.PathOps E} {ops : FileOps E}
    {attachment_ops : AttachmentOps E} {Txn Ctx : Type} {budget : E → nat} {elapsed : E → Z}
    {time : PathsSpec.PathsSpec.PathTime E elapsed} {path_laws : PathsSpec.PathsSpec.PathLaws E budget} {laws : FileLaws E budget}
    {attachment_laws : AttachmentLaws E budget} (fuel : nat) (source : PathBuf) (roots : list AllowedSourceRoot)
    (dst tmp : PathBuf) (context : PluginContext Txn Ctx) (w : World E FileStep) :
  MAX_ATTACHMENT_SIZE < Z.of_nat fuel → (budget (env w) < fuel)%nat →
  ∃ r w' l, copy_registered_attachment fuel source roots dst tmp context w = (Some r, w') ∧ trace w' = trace w ++ l ∧
    copied_from roots source tmp dst l r ∧ backed l.
Proof.
  intros Hfuel Hw. apply (settled_ends (budget := budget) (S (budget (env w)))); [|apply ends_backed; [apply ends_copy|apply copy_backs]|lia].
  apply copy_settles; [done|lia].
Qed.

(** A file of three bytes below the only root. *)
Module Example.
Import PathsSpec.PathsSpec.Example.
Import Init.Byte.

Definition contents : list Byte := [x61; x62; x0a].
Definition file : Metadata := mkMetadata (Paths.Paths.mkMeta Paths.Paths.RegularNode 501 384 1 7) 3.
Definition folder : Metadata := mkMetadata private_meta 64.
#[local] Existing Instance Paths.Paths.node_type_eq_dec.

#[export] Instance file_ops : FileOps disk := {|
  io_text _ := "error"%string;
  cancel_loaded d := (false, d);
  symlink_metadata p d := (Ok file, d);
  follow_metadata p d := (Ok file, d);
  metadata_of h d := (match nodes d !! Z.to_nat h with
                      | Some m => Ok (if decide (Paths.Paths.meta_type m = Paths.Paths.DirectoryNode) then folder else file)
                      | None => Err (OtherError "bad descriptor") end, d);
  read_handle h n d := (Ok (if decide (ticks d = 0) then take (Z.to_nat n) contents else []), tick d);
  write_handle h b d := (Ok (Z.of_nat (length b)), d);
  flush_handle h d := (Ok tt, d);
  sync_handle h d := (Ok tt, d);
  rewind_handle h d := (Ok tt, d);
  remove_path p d := (Ok tt, d);
  rename_path p q d := (Ok tt, d);
  fresh_name d := ("1"%string, d)
|}.

#[export] Instance attachment_ops : AttachmentOps disk := {|
  current_directory d := (Ok ["/"; "app"]%string, d);
  open_root p d := match push private_meta d with (Ok h, d) => (Ok h, d) | (Err _, d) => (Err NotFound, d) end;
  clone_handle h d := match push private_meta d with (Ok h, d) => (Ok h, d) | (Err _, d) => (Err NotFound, d) end
|}.

#[export] Instance file_laws : FileLaws disk (λ _, 0%nat).
Proof.
  split; unfold calm; intros; try lia.
  - cbn in *. case_decide; simplify_eq; simpl; [|lia]. rewrite length_take. lia.
  - by split.
Qed.

#[export] Instance attachment_laws : AttachmentLaws disk (λ _, 0%nat).
Proof. split; unfold calm; intros; lia. Qed.

Definition w1 : World disk FileStep :=
  mkWorld (mkDisk 0 [private_meta] [("app.log"%string, Paths.Paths.mkMeta Paths.Paths.RegularNode 501 384 1 8)]) [].
Definition roots : list AllowedSourceRoot := [mkRoot ["/"; "app"]%string 0].
Definition source : PathBuf := ["/"; "app"; "logs"; "app.log"]%string.
Definition tmp : PathBuf := ["/"; "staging"; ".attachment-1.log.tmp"]%string.
Definition dst : PathBuf := ["/"; "staging"; "attachment-1.log"]%string.
Definition no_deadline : PluginContext unit unit := without_deadline.

Lemma attachment_enough_fuel : ∃ fuel, MAX_ATTACHMENT_SIZE < Z.of_nat fuel ∧ (0 < fuel)%nat.
Proof. exists (Z.to_nat (MAX_ATTACHMENT_SIZE + 1)). rewrite Z2Nat.id; unfold MAX_ATTACHMENT_SIZE; lia. Qed.

End Example.
Import PathsSpec.PathsSpec.Example.
Import Example.

Lemma attachments_contained_witness :
  (copy_registered_attachment 9 source roots dst tmp no_deadline w1).1 = Some (Ok (3, None)) ∧
  written_bytes (trace (copy_registered_attachment 9 source roots dst tmp no_deadline w1).2) = contents ∧
  ∃ fuel r w' l, copy_registered_attachment fuel source roots dst tmp no_deadline w1 = (Some r, w') ∧ trace w' = trace w1 ++ l ∧
    copied_from roots source tmp dst l r ∧ backed l.
Proof.
  split; [vm_compute; reflexivity|]. split; [vm_compute; reflexivity|]. destruct attachment_enough_fuel as [fuel [Hfuel Hpos]]. exists fuel.
  exact (attachments_contained (budget := λ _, 0%nat) (elapsed := ticks) fuel source roots dst tmp no_deadline w1 Hfuel Hpos).
Defined.

End AttachmentSpec.
