(* ===== verification/Archive.v ===== *)
(** * Archives and raw files (src/postprocessors/zip_archiver.rs, src/postprocessors/raw_cleanup.rs)

    The files of a report are bundled into one archive that is published before they are
    removed, and raw files are removed behind a written report. The [zip] crate's writer is
    operations of [ZipOps]. *)

From Stdlib Require String.
From stdpp Require Import pretty.
From S2P Require Import Prelude.
From S2P Require Import Traced.
From S2P Require Import Fueled.
From S2P Require Import PipelineTypes.
From S2P Require Import PluginRun.
From S2P Require Artifact.
From S2P Require Paths.
From S2P Require Import PluginFiles.
From S2P Require PathsSpec.

Module Archive.
Export PluginFiles.
#[local] Open Scope Z_scope.

Definition MAX_ARCHIVE_ENTRIES : nat := 256.
Definition MAX_ARCHIVE_FILE_BYTES : Z := 256 * 1024 * 1024.
Definition MAX_ARCHIVE_TOTAL_BYTES : Z := 512 * 1024 * 1024.
Definition STREAM_BUFFER_BYTES : Z := 64 * 1024.

Record ArchiveEntry := mkEntry { entry_path : PathBuf; entry_size : Z }.

(** [Ord] of paths: component by component, the root first and names by their bytes. *)
Definition component_rank (c : string) : Z :=
  if decide (c = "/") then 0 else if decide (c = ".") then 1 else if decide (c = "..") then 2 else 3.
Fixpoint path_leb (p q : PathBuf) : bool :=
  match p, q with
  | [], _ => true
  | _ :: _, [] => false
  | c :: p, d :: q =>
      if decide (c = d) then path_leb p q
      else if decide (component_rank c = component_rank d) then String.leb c d
      else bool_decide (component_rank c < component_rank d)
  end.

(** The writer of an archive over a handle. *)
Class ZipOps (E : Type) := {
  zip_start_file : Z → string → E → result string unit * E;
  zip_write_all : Z → list Byte → E → result string unit * E;
  zip_finish : Z → E → result string unit * E
}.

Section Archive.
Context {E : Type} {clock : Clock E} {paths : Paths.Paths.PathOps E} {ops : FileOps E} {zip_ops : ZipOps E}
  {Txn Ctx : Type} {transactions : TransactionOps E Txn}.
#[local] Notation fm := (fueled E FileStep).
#[local] Notation PluginContext := (PluginContext Txn Ctx).

(** ** Inputs *)

Fixpoint inspect_files (context : PluginContext) (ps : list PathBuf) (files : list ArchiveEntry) (total_bytes : Z)
    : fm (result string (list ArchiveEntry)) :=
  match ps with
  | [] => mret (Ok (stable_sort (λ a b, path_leb (entry_path a) (entry_path b)) files))
  | p :: ps =>
      _ ←? checkpoint context;
      if decide (MAX_ARCHIVE_ENTRIES ≤ length files)%nat then
        mret (Err ("report manifest exceeds archive entry limit (" +:+ pretty MAX_ARCHIVE_ENTRIES +:+ ")")%string)
      else
      metadata ←? io_error ("cannot inspect " +:+ quoted p)%string (stat p);
      if negb (is_file metadata) then mret (Err ("manifest artifact is not a regular file: " +:+ quoted p)%string)
      else if decide (MAX_ARCHIVE_FILE_BYTES < len metadata) then
        mret (Err ("archive input " +:+ quoted p +:+ " exceeds per-file limit (" +:+ pretty (len metadata) +:+ " > " +:+
                     pretty MAX_ARCHIVE_FILE_BYTES +:+ ")")%string)
      else if decide (U64_MAX < total_bytes + len metadata) then mret (Err "archive input size overflow"%string)
      else if decide (MAX_ARCHIVE_TOTAL_BYTES < total_bytes + len metadata) then
        mret (Err ("report family exceeds total archive limit (" +:+ pretty (total_bytes + len metadata) +:+ " > " +:+
                     pretty MAX_ARCHIVE_TOTAL_BYTES +:+ ")")%string)
      else inspect_files context ps (files ++ [mkEntry p (len metadata)]) (total_bytes + len metadata)
  end.

Definition collect_report_files (r : ReportResult) (context : PluginContext) : fm (result string (list ArchiveEntry)) :=
  _ ←? checkpoint context;
  ps ← match artifact_transaction context with
       | Some transaction => artifacts ← ask (transaction_artifacts transaction); mret (map fst artifacts)
       | None =>
           mret (if decide (artifact_paths r = []) then option_list (json_path r) ++ option_list (raw_path r) else artifact_paths r)
       end;
  _ ← step (Listed ps);
  inspect_files context ps [] 0.

Definition open_regular_file (fuel : nat) (p : PathBuf) : fm (result string Z) :=
  file ←? path_error ("cannot safely open archive input " +:+ quoted p)%string (open_private_file fuel p);
  metadata ←? io_error ("cannot inspect " +:+ quoted p)%string (stat_handle file);
  mret (if negb (is_file metadata) then Err ("archive input is not a regular file: " +:+ quoted p)%string
        else if decide (MAX_ARCHIVE_FILE_BYTES < len metadata) then
          Err ("archive input " +:+ quoted p +:+ " exceeds per-file limit (" +:+ pretty (len metadata) +:+ " > " +:+
                 pretty MAX_ARCHIVE_FILE_BYTES +:+ ")")%string
        else Ok file).

(** ** The archive *)

Definition zip_call {A : Type} (what : string) (f : E → result string A * E) (note : A → FileStep) : fm (result string A) :=
  r ← ask f;
  match r with
  | Ok a => _ ← step (note a); mret (Ok a)
  | Err error => mret (Err (what +:+ ": " +:+ error)%string)
  end.

(** The bytes of the file, and of all files, that were written. *)
Fixpoint archive_chunks (steps : nat) (input output : Z) (p : PathBuf) (context : PluginContext) (file_written total_written : Z)
    : fm (result string (Z * Z)) :=
  match steps with
  | O => starved
  | S steps =>
      _ ←? checkpoint context;
      chunk ←? io_error ("cannot read " +:+ quoted p)%string (read input STREAM_BUFFER_BYTES);
      if decide (chunk = []) then mret (Ok (file_written, total_written)) else
      let count := Z.of_nat (length chunk) in
      let file_written := file_written + count in
      let total_written := total_written + count in
      if decide (U64_MAX < file_written) then mret (Err "archive file size overflow"%string)
      else if decide (MAX_ARCHIVE_FILE_BYTES < file_written) then
        mret (Err ("archive input " +:+ quoted p +:+ " exceeded per-file limit while reading")%string)
      else if decide (U64_MAX < total_written) then mret (Err "archive total size overflow"%string)
      else if decide (MAX_ARCHIVE_TOTAL_BYTES < total_written) then
        mret (Err "archive input exceeded total limit while reading"%string)
      else
      _ ←? zip_call "ZIP write failed" (zip_write_all output chunk) (λ _, ZipData chunk);
      _ ←? checkpoint context;
      archive_chunks steps input output p context file_written total_written
  end.

Definition archive_file (fuel : nat) (output : Z) (entry : ArchiveEntry) (context : PluginContext) (total_written : Z)
    : fm (result string Z) :=
  _ ←? checkpoint context;
  let p := entry_path entry in
  match file_name p with
  | None => mret (Err "invalid filename"%string)
  | Some name =>
      input ←? open_regular_file fuel p;
      metadata ←? io_error ("cannot inspect " +:+ quoted p)%string (stat_handle input);
      if decide (len metadata ≠ entry_size entry) then
        mret (Err ("archive input " +:+ quoted p +:+ " changed size (" +:+ pretty (entry_size entry) +:+ " -> " +:+
                     pretty (len metadata) +:+ ")")%string)
      else
      _ ←? zip_call "ZIP start_file failed" (zip_start_file output name) (λ _, ZipStarted name);
      '(file_written, total_written) ←? archive_chunks fuel input output p context 0 total_written;
      mret (if decide (file_written ≠ entry_size entry) then
              Err ("archive input " +:+ quoted p +:+ " changed size while reading (" +:+ pretty file_written +:+ " != " +:+
                     pretty (entry_size entry) +:+ ")")%string
            else Ok total_written)
  end.

Fixpoint archive_files (fuel : nat) (output : Z) (files : list ArchiveEntry) (context : PluginContext) (total_written : Z)
    : fm (result string unit) :=
  match files with
  | [] => mret (Ok tt)
  | entry :: files =>
      total_written ←? archive_file fuel output entry context total_written;
      archive_files fuel output files context total_written
  end.

Definition write_zip (fuel : nat) (output : Z) (files : list ArchiveEntry) (context : PluginContext) : fm (result string unit) :=
  _ ←? checkpoint context;
  _ ←? archive_files fuel output files context 0;
  _ ←? zip_call "ZIP finalize failed" (zip_finish output) (λ _, ZipFinished);
  io_error "ZIP sync failed" (sync_all output).

Definition sync_private_directory (fuel : nat) (p : PathBuf) : fm (result string unit) :=
  h ←? open_private_directory fuel p;
  io_error "ZIP directory sync failed" (sync_all h).

(** A finished and published archive, or the removal of the pending one. *)
Definition build_archive (fuel : nat) (tmp zip_path : PathBuf) (files : list ArchiveEntry) (context : PluginContext)
    : fm (result string unit) :=
  output ←? path_error "ZIP creation failed: cannot create ZIP file" (create_private_file fuel tmp);
  built ← (_ ←? path_error "ZIP creation failed" (write_zip fuel output files context);
           _ ←? checkpoint context;
           path_error "ZIP rename failed" (publish_private_path fuel tmp zip_path));
  match built with
  | Ok _ => mret (Ok tt)
  | Err error => _ ← remove_file tmp; mret (Err error)
  end.

(** ** The result *)

Definition unregister (context : PluginContext) (p : PathBuf) : fm (result string unit) :=
  match artifact_transaction context with
  | Some transaction => ask (transaction_unregister_file transaction p)
  | None => mret (Ok tt)
  end.

Definition without_artifact (p : PathBuf) (r : ReportResult) : ReportResult :=
  mkReportResult (filter (λ artifact, artifact ≠ p) (artifact_paths r)) (raw_path r) (json_path r) (result_session r).

Definition name_archive (zip_path : PathBuf) (raw_was_archived : bool) (r : ReportResult) : ReportResult :=
  mkReportResult (if decide (zip_path ∈ artifact_paths r) then artifact_paths r else artifact_paths r ++ [zip_path])
    (if raw_was_archived then None else raw_path r) (Some zip_path) (result_session r).

(** An input that is gone already counts as removed. *)
Fixpoint remove_inputs (context : PluginContext) (files : list ArchiveEntry) (r : ReportResult)
    : fm (result string unit * ReportResult) :=
  match files with
  | [] => checked ← checkpoint context; mret (checked, r)
  | entry :: files =>
      checked ← checkpoint context;
      match checked with
      | Err error => mret (Err error, r)
      | Ok _ =>
          removed ← remove_file (entry_path entry);
          match removed with
          | Ok _ | Err NotFound =>
              unregistered ← unregister context (entry_path entry);
              match unregistered with
              | Err error => mret (Err error, r)
              | Ok _ => remove_inputs context files (without_artifact (entry_path entry) r)
              end
          | Err error =>
              _ ← warn ("[monitor] ZIPArchiver: cannot remove archived input " +:+ quoted (entry_path entry) +:+ ": " +:+
                          io_text error)%string;
              remove_inputs context files r
          end
      end
  end.

(** Behind the publication: the durability warning and the registration. *)
Definition announce (fuel : nat) (dir zip_path : PathBuf) (context : PluginContext) : fm (result string unit) :=
  synced ← sync_private_directory fuel dir;
  _ ← match synced with
      | Ok _ => mret tt
      | Err error =>
          let warning := ("ZIP " +:+ quoted zip_path +:+ " was published but its directory could not be synced: " +:+ error)%string in
          match artifact_transaction context with
          | Some transaction => ask (transaction_record_durability_warning transaction warning)
          | None => warn ("[monitor] ZIPArchiver: " +:+ warning)%string
          end
      end;
  match artifact_transaction context with
  | Some transaction => ask (transaction_register_file transaction zip_path Artifact.Artifact.Archive)
  | None => mret (Ok tt)
  end.

(** From the inputs on. *)
Definition archive_and_remove (fuel : nat) (dir tmp zip_path : PathBuf) (files : list ArchiveEntry) (context : PluginContext)
    (r : ReportResult) : fm (result string unit * ReportResult) :=
  let raw_was_archived := match raw_path r with Some raw => bool_decide (raw ∈ map entry_path files) | None => false end in
  built ← build_archive fuel tmp zip_path files context;
  match built with
  | Err error => mret (Err error, r)
  | Ok _ =>
      announced ← announce fuel dir zip_path context;
      match announced with
      | Err error => mret (Err error, r)
      | Ok _ => remove_inputs context files (name_archive zip_path raw_was_archived r)
      end
  end.

(** [ZIPArchiver::process]. *)
Definition archive (fuel : nat) (context : PluginContext) (r : ReportResult) : fm (result string unit * ReportResult) :=
  checked ← checkpoint context;
  match checked, json_path r with
  | Err error, _ => mret (Err error, r)
  | Ok _, None => mret (Ok tt, r)
  | Ok _, Some json =>
      match parent json with
      | None => mret (Err "no parent directory"%string, r)
      | Some dir =>
          files ← (_ ←? open_private_directory fuel dir; collect_report_files r context);
          match files with
          | Err error => mret (Err error, r)
          | Ok [] => mret (Ok tt, r)
          | Ok files =>
              match (if artifact_transaction context then Some "report"%string else file_stem json) with
              | None => mret (Err "no report file stem"%string, r)
              | Some stem =>
                  uuid ← ask fresh_name;
                  archive_and_remove fuel dir (dir ++ [("." +:+ stem +:+ ".zip-" +:+ uuid +:+ ".tmp")%string])
                    (dir ++ [(stem +:+ ".zip")%string]) files context r
              end
          end
      end
  end.

(** ** RawCleanup *)

Definition is_raw (kind : Artifact.Artifact.ArtifactKind) : bool :=
  match kind with
  | Artifact.Artifact.ThreadRaw | Artifact.Artifact.BreadcrumbsRaw | Artifact.Artifact.ContextRaw => true
  | _ => false
  end.

Fixpoint remove_raw (context : PluginContext) (raws : list PathBuf) (r : ReportResult) : fm (result string unit * ReportResult) :=
  match raws with
  | [] =>
      let r := mkReportResult (artifact_paths r) None (json_path r) (result_session r) in
      checked ← checkpoint context; mret (checked, r)
  | raw :: raws =>
      removed ← remove_file raw;
      match removed with
      | Ok _ | Err NotFound =>
          unregistered ← unregister context raw;
          match unregistered with
          | Err error => mret (Err error, r)
          | Ok _ => remove_raw context raws (without_artifact raw r)
          end
      | Err error =>
          mret (Err ("RawCleanup failed to remove sensitive raw artifact " +:+ quoted raw +:+ ": " +:+ io_text error)%string, r)
      end
  end.

(** [RawCleanup::process]. *)
Definition raw_cleanup (context : PluginContext) (r : ReportResult) : fm (result string unit * ReportResult) :=
  checked ← checkpoint context;
  match checked, json_path r with
  | Err error, _ => mret (Err error, r)
  | Ok _, None => checked ← checkpoint context; mret (checked, r)
  | Ok _, Some _ =>
      raws ← match artifact_transaction context with
             | Some transaction =>
                 artifacts ← ask (transaction_artifacts transaction);
                 mret (map fst (filter (λ a, is_raw a.2 = true) artifacts))
             | None => mret (option_list (raw_path r))
             end;
      remove_raw context raws r
  end.

End Archive.
End Archive.

(** ** Inputs are removed behind a complete archive

    The deeds of the archiver: what a published archive has, and what is removed. *)

Module ArchiveSpec.
Export Archive.
Export PluginFilesSpec.
#[local] Open Scope Z_scope.

(** ** Contents *)

Definition inspecting (s : FileStep) : Prop := match s with Checked _ | Listed _ | Statted _ _ => True | _ => False end.
Definition probing (p : PathBuf) (s : FileStep) : Prop :=
  match s with Checked _ | HandleStatted _ _ => True | Opened q _ => q = p | _ => False end.

(** The bytes that went into the archive. *)
Definition zip_bytes (l : list FileStep) : list Byte := concat (map (λ s, match s with ZipData b => b | _ => [] end) l).

Lemma zip_bytes_app l l' : zip_bytes (l ++ l') = zip_bytes l ++ zip_bytes l'.
Proof. unfold zip_bytes. by rewrite map_app, concat_app. Qed.

Definition packing (h : Z) (s : FileStep) : Prop :=
  match s with Checked false | ZipData _ => True | ReadFrom h' _ => h' = h | _ => False end.

(** The member of one input: its name, and the bytes of the handle that was opened for its
    path, up to the end, of the size that it had when the inputs were inspected. *)
Definition member (e : ArchiveEntry) (l : list FileStep) : Prop :=
  ∃ before name h body, file_name (entry_path e) = Some name ∧ l = before ++ ZipStarted name :: body ∧
    Forall (probing (entry_path e)) before ∧ Opened (entry_path e) h ∈ before ∧ Forall (packing h) body ∧ zip_bytes body = read_bytes body ∧ ReadFrom h [] ∈ body ∧
    Z.of_nat (length (zip_bytes body)) = entry_size e.

(** Steps of an archive that is not published. *)
Definition unfinished (tmp zip_path : PathBuf) (s : FileStep) : Prop :=
  match s with
  | Checked _ | Opened _ _ | HandleStatted _ _ | ReadFrom _ _ | ZipStarted _ | ZipData _ | ZipFinished | FileSynced _ => True
  | Published p q ok => p = tmp ∧ q = zip_path ∧ ok = false
  | _ => False
  end.

Inductive built (tmp zip_path : PathBuf) (files : list ArchiveEntry) : list FileStep → result string unit → Prop :=
| NotCreated error : built tmp zip_path files [] (Err error)
| Dropped h body removed error :
    Forall (unfinished tmp zip_path) body → built tmp zip_path files (Created tmp h :: body ++ [Removed tmp removed]) (Err error)
| Built h members :
    Forall2 member files members →
    built tmp zip_path files
      (Created tmp h :: Checked false :: concat members ++ [ZipFinished; FileSynced h; Checked false; Published tmp zip_path true])
      (Ok tt).

(** Behind the publication only inputs of the archive are removed. *)
Definition cleaning (files : list ArchiveEntry) (s : FileStep) : Prop :=
  match s with
  | Checked _ => True
  | Removed p _ => p ∈ map entry_path files
  | _ => False
  end.
Definition synced (s : FileStep) : Prop := match s with FileSynced _ => True | _ => False end.

(** The inputs are the report's files: those of the transaction, or of the result itself. *)
Definition lists {Txn Ctx : Type} (context : PluginContext Txn Ctx) (r : ReportResult) (ps : list PathBuf) : Prop :=
  artifact_transaction context = None →
  ps = match artifact_paths r with [] => option_list (json_path r) ++ option_list (raw_path r) | explicit => explicit end.

Definition of_report {Txn Ctx : Type} (context : PluginContext Txn Ctx) (r : ReportResult) (l : list FileStep)
    (files : list ArchiveEntry) : Prop :=
  ∃ ps, Listed ps ∈ l ∧ lists context r ps ∧ map entry_path files ≡ₚ ps.

(** The inputs: regular files of an observed size, within the limits. *)
Definition observed (l : list FileStep) (e : ArchiveEntry) : Prop :=
  ∃ m, Statted (entry_path e) (Ok m) ∈ l ∧ is_file m = true ∧ len m = entry_size e ∧ entry_size e ≤ MAX_ARCHIVE_FILE_BYTES.
Definition sizes (files : list ArchiveEntry) : Z := foldr Z.add 0 (map entry_size files).
Definition admissible (l : list FileStep) (files : list ArchiveEntry) : Prop :=
  Forall (observed l) files ∧ (length files ≤ MAX_ARCHIVE_ENTRIES)%nat ∧ (files ≠ [] → sizes files ≤ MAX_ARCHIVE_TOTAL_BYTES).

(** The archive takes the place of its inputs in the result. *)
Definition renamed_to (zip_path : PathBuf) (files : list ArchiveEntry) (r r' : ReportResult) : Prop :=
  json_path r' = Some zip_path ∧ (raw_path r' = raw_path r ∨ raw_path r' = None ∧ ∃ p, raw_path r = Some p ∧ p ∈ map entry_path files) ∧
  result_session r' = result_session r ∧
  ∀ p, p ∉ map entry_path files → p ∈ artifact_paths r' ↔ p ∈ artifact_paths r ∨ p = zip_path.

(** The plugin: nothing but inspections and an unpublished archive while the result stays
    as it was, or a complete archive of its inputs and then their removal. *)
Inductive archived {Txn Ctx : Type} (context : PluginContext Txn Ctx) (r : ReportResult) :
    list FileStep → result string unit * ReportResult → Prop :=
| NotNeeded l answer :
    Forall inspecting l → (answer = Ok tt → json_path r = None ∨ of_report context r l []) → archived context r l (answer, r)
| NotArchived before tmp zip_path files l error :
    Forall inspecting before → of_report context r before files → built tmp zip_path files l (Err error) →
    archived context r (before ++ l) (Err error, r)
| NotAnnounced before tmp zip_path files l after error :
    Forall inspecting before → of_report context r before files → admissible before files →
    built tmp zip_path files l (Ok tt) → Forall synced after →
    archived context r (before ++ l ++ after) (Err error, r)
| ArchivedAll before json dir tmp zip_path files l after1 after2 answer r' :
    json_path r = Some json → parent json = Some dir → parent zip_path = Some dir → files ≠ [] →
    Forall inspecting before → of_report context r before files → admissible before files →
    built tmp zip_path files l (Ok tt) → Forall synced after1 → Forall (cleaning files) after2 →
    (answer = Ok tt → Forall (λ e, ∃ removed, Removed (entry_path e) removed ∈ after2) files) → renamed_to zip_path files r r' →
    archived context r (before ++ l ++ after1 ++ after2) (answer, r').

Section Archive.
Context {E : Type} {clock : Clock E} {paths : Paths.Paths.PathOps E} {ops : FileOps E} {zip_ops : ZipOps E}
  {Txn Ctx : Type} {transactions : TransactionOps E Txn}.
#[local] Notation fm := (fueled E FileStep).
#[local] Notation PluginContext := (PluginContext Txn Ctx).

Lemma only_stat P p : (∀ r, P (Statted p r)) → only P (stat p).
Proof. intros HP. eapply does_impl; [apply does_stat|]. intros l r ->. by repeat constructor. Qed.
Lemma only_stat_handle P h : (∀ r, P (HandleStatted h r)) → only P (stat_handle h).
Proof. intros HP. eapply does_impl; [apply does_stat_handle|]. intros l r ->. by repeat constructor. Qed.
#[local] Hint Resolve only_checkpoint only_stat only_stat_handle : cm.
#[local] Hint Extern 2 (inspecting _) => exact I : cm.

(** The inputs that were accepted so far, and those that are. *)
Lemma sizes_app files files' : sizes (files ++ files') = sizes files + sizes files'.
Proof. unfold sizes. rewrite map_app, foldr_app. induction files as [|e files IH]; cbn; [done|]. rewrite IH. lia. Qed.
Lemma sizes_perm files files' : files ≡ₚ files' → sizes files = sizes files'.
Proof. induction 1; unfold sizes in *; cbn; lia. Qed.

Lemma does_inspect (context : PluginContext) ps files total before :
  Forall (observed before) files → (length files ≤ MAX_ARCHIVE_ENTRIES)%nat → total = sizes files →
  (files ≠ [] → total ≤ MAX_ARCHIVE_TOTAL_BYTES) →
  does (λ l r, Forall inspecting l ∧ ∀ files', r = Ok files' →
      admissible (before ++ l) files' ∧ map entry_path files' ≡ₚ map entry_path files ++ ps) (inspect_files context ps files total).
Proof.
  revert files total before. induction ps as [|p ps IH]; intros files total before Hobs Hlen -> Hsize; cbn [inspect_files].
  { apply does_ret. split; [done|]. intros files' [= <-]. pose proof (stable_sort_perm (λ a b, path_leb (entry_path a) (entry_path b)) files) as Hp.
    rewrite app_nil_r. split; [|by rewrite app_nil_r, Hp]. split_and!; [by rewrite Hp|by rewrite Hp|].
    rewrite (sizes_perm _ _ Hp). intros Hne. apply Hsize. by intros ->. }
  apply does_checkpoint; [by split; [repeat constructor|]|].
  assert (∀ l (error : string), Forall inspecting l → Forall inspecting (Checked false :: l) ∧ ∀ files', Err error = Ok files' →
    admissible (before ++ Checked false :: l) files' ∧ map entry_path files' ≡ₚ map entry_path files ++ p :: ps) as Hfail.
  { intros l error Hl. split; [by constructor|done]. }
  case_decide; [by apply does_ret, Hfail|].
  eapply does_try_io; [apply does_stat|intros l error error' ->; apply Hfail; by repeat constructor|]. intros l m ->.
  destruct (is_file m) eqn:Hfile; cbn [negb]; [|apply does_ret, Hfail; by repeat constructor].
  do 3 (case_decide; [apply does_ret, Hfail; by repeat constructor|]).
  eapply does_impl; [apply (IH _ _ (before ++ [Checked false; Statted p (Ok m)]))|].
  - apply Forall_app. split; [|constructor; [|constructor]].
    + eapply Forall_impl; [exact Hobs|]. intros e (m' & Hin & He). exists m'. split; [|done]. apply elem_of_app. by left.
    + exists m. split_and!; [set_solver|done|done|cbn; lia].
  - rewrite length_app. cbn. lia.
  - rewrite sizes_app. unfold sizes at 3. cbn. lia.
  - lia.
  - intros l r [Hl Hr]. split; [by repeat constructor|]. intros files' Hf. specialize (Hr files' Hf) as [Ha Hn].
    rewrite <-app_assoc in Ha. split; [done|]. by rewrite map_app, <-app_assoc in Hn.
Qed.

Lemma does_collect r (context : PluginContext) :
  does (λ l res, Forall inspecting l ∧ ∀ files, res = Ok files → of_report context r l files ∧ admissible l files) (collect_report_files r context).
Proof.
  unfold collect_report_files. apply does_checkpoint; [by split; [repeat constructor|]|].
  apply (does_bind (λ l ps, l = [] ∧ lists context r ps)).
  { unfold lists. destruct (artifact_transaction context) as [t|].
    - apply does_idle; [solve_only|]. intros artifacts. by apply does_ret.
    - apply does_ret. split; [done|]. intros _. case_decide as Hp; [by rewrite Hp|]. by destruct (artifact_paths r). }
  intros l ps [-> Hps]. cbn [app]. apply does_step; [done|]. eapply does_impl.
  - apply (does_inspect context ps [] 0 [Checked false; Listed ps]); [constructor|cbn; lia|done|done].
  - intros l res [Hl Hr]. split; [by repeat constructor|]. intros files Hf. specialize (Hr files Hf) as [Ha Hn].
    split; [|exact Ha]. exists ps. split_and!; [set_solver|done|done].
Qed.

Lemma does_zip_call {A : Type} what (f : E → result string A * E) note :
  (∀ a, telling (note a) = true) →
  does (λ l r, l = match r with Ok a => [note a] | Err _ => [] end) (zip_call what f note).
Proof.
  intros Hn. apply does_idle; [apply only_ask|]. intros [a|error]; [|by apply does_ret].
  by apply does_step, does_ret.
Qed.

(** ** A member *)

Lemma packing_unfinished h tmp zip_path l : Forall (packing h) l → Forall (unfinished tmp zip_path) l.
Proof. intros Hl. eapply Forall_impl; [exact Hl|]. by intros []. Qed.
Lemma probing_unfinished p tmp zip_path l : Forall (probing p) l → Forall (unfinished tmp zip_path) l.
Proof. intros Hl. eapply Forall_impl; [exact Hl|]. by intros []. Qed.
Lemma member_unfinished tmp zip_path e l : member e l → Forall (unfinished tmp zip_path) l.
Proof.
  intros (before & name & h & body & _ & -> & Hb & _ & Hp & _). apply Forall_app. split; [by eapply probing_unfinished|].
  constructor; [done|]. by apply (packing_unfinished h).
Qed.
Lemma members_unfinished tmp zip_path files members : Forall2 member files members → Forall (unfinished tmp zip_path) (concat members).
Proof. induction 1; [constructor|]. apply Forall_app. split; [by eapply member_unfinished|done]. Qed.

Definition chunks_post (h : Z) (tmp zip_path : PathBuf) (file_before : Z) (l : list FileStep) (r : result string (Z * Z)) : Prop :=
  match r with
  | Ok (file_written, _) => Forall (packing h) l ∧ zip_bytes l = read_bytes l ∧ ReadFrom h [] ∈ l ∧
      file_written = file_before + Z.of_nat (length (zip_bytes l))
  | Err _ => Forall (unfinished tmp zip_path) l
  end.

Lemma does_chunks steps h output tmp zip_path p (context : PluginContext) file_before total :
  does (chunks_post h tmp zip_path file_before) (archive_chunks steps h output p context file_before total).
Proof.
  revert file_before total. induction steps as [|steps IH]; intros file_before total; [apply does_starved|]. cbn [archive_chunks].
  apply does_checkpoint; [by repeat constructor|].
  eapply does_try_io; [apply does_read|intros l error error' ->; by repeat constructor|]. intros l chunk ->.
  case_decide as Hnil.
  { subst. apply does_ret. split_and!; [by repeat constructor|done|set_solver|simpl; lia]. }
  do 4 (case_decide; [apply does_ret; by repeat constructor|]).
  eapply does_try; [by apply does_zip_call|intros l error ->; by repeat constructor|]. intros l [] ->.
  apply does_checkpoint; [by repeat constructor|].
  eapply does_impl; [apply IH|]. intros l [[file_written total']|error] Hr; [|by repeat constructor].
  destruct Hr as (G1 & G2 & G3 & G4). cbn [app]. split_and!; [by repeat constructor| |set_solver|].
  - change (chunk ++ zip_bytes l = chunk ++ read_bytes l). by rewrite G2.
  - change (file_written = file_before + Z.of_nat (length (chunk ++ zip_bytes l))). rewrite length_app. lia.
Qed.

Lemma does_open_regular fuel p :
  does (λ l r, Forall (probing p) l ∧ ∀ h, r = Ok h → Opened p h ∈ l) (open_regular_file fuel p).
Proof.
  unfold open_regular_file, path_error, io_error. eapply does_try_io; [apply does_open_file|intros l error error' ->; done|].
  intros l h ->. eapply does_try_io; [apply does_stat_handle|intros l error error' ->; by split; [repeat constructor|]|].
  intros l m ->. apply does_ret. split; [by repeat constructor|]. intros h' Heq. repeat case_match; simplify_eq. set_solver.
Qed.

Lemma does_archive_file fuel output tmp zip_path e (context : PluginContext) total :
  does (λ l r, match r with Ok _ => member e l | Err _ => Forall (unfinished tmp zip_path) l end) (archive_file fuel output e context total).
Proof.
  unfold archive_file. apply does_checkpoint; [by repeat constructor|].
  destruct (file_name (entry_path e)) as [name|] eqn:Hname; [|apply does_ret; by repeat constructor].
  eapply does_try; [apply does_open_regular| |].
  { intros l error [Hl _]. constructor; [done|]. by eapply probing_unfinished. }
  intros l h [Hl Ho]. specialize (Ho h eq_refl). pose proof (probing_unfinished _ tmp zip_path _ Hl) as Hu.
  assert (∀ l', Forall (unfinished tmp zip_path) l' → Forall (unfinished tmp zip_path) (Checked false :: l ++ l')) as Hfail.
  { intros l' Hl'. constructor; [done|]. by apply Forall_app. }
  eapply does_try_io; [apply does_stat_handle|intros l' error error' ->; apply Hfail; by repeat constructor|]. intros l' m ->.
  case_decide as Hlen; [apply does_ret, Hfail; by repeat constructor|].
  eapply does_try; [by apply does_zip_call|intros l' error ->; apply Hfail; by repeat constructor|]. intros l' [] ->.
  eapply does_try; [apply (does_chunks _ _ _ tmp zip_path)|intros l' error Hl'; apply Hfail; by repeat constructor|].
  intros body [file_written total'] (G1 & G2 & G3 & G4). apply does_ret. case_decide as Hsize.
  - apply Hfail. do 2 (constructor; [done|]). rewrite app_nil_r. by eapply packing_unfinished.
  - exists ((Checked false :: l) ++ [HandleStatted h (Ok m)]), name, h, body. rewrite app_nil_r.
    split_and!; [done|by rewrite <-!app_assoc| |set_solver|done|done|done|cbn in *; lia].
    apply Forall_app. split; [by constructor|by repeat constructor].
Qed.

Lemma does_archive_files fuel output tmp zip_path files (context : PluginContext) total :
  does (λ l r, match r with
               | Ok _ => ∃ members, Forall2 member files members ∧ l = concat members
               | Err _ => Forall (unfinished tmp zip_path) l
               end) (archive_files fuel output files context total).
Proof.
  revert total. induction files as [|e files IH]; intros total; cbn [archive_files]; [apply does_ret; by exists []|].
  eapply does_try; [apply (does_archive_file _ _ tmp zip_path)|done|]. intros l total' Hm. eapply does_impl; [apply IH|].
  intros l' [[]|error] Hr.
  - destruct Hr as (members & Hf & ->). exists (l :: members). split; [by constructor|done].
  - apply Forall_app. split; [exact (member_unfinished tmp zip_path _ _ Hm)|done].
Qed.

(** ** The archive *)

Lemma does_write_zip fuel output tmp zip_path files (context : PluginContext) :
  does (λ l r, match r with
               | Ok _ => ∃ members, Forall2 member files members ∧ l = Checked false :: concat members ++ [ZipFinished; FileSynced output]
               | Err _ => Forall (unfinished tmp zip_path) l
               end) (write_zip fuel output files context).
Proof.
  unfold write_zip. apply does_checkpoint; [by repeat constructor|].
  eapply does_try; [apply (does_archive_files _ _ tmp zip_path)|intros l error Hl; by constructor|]. intros l [] (members & Hf & ->).
  pose proof (members_unfinished tmp zip_path _ _ Hf) as Hu.
  eapply does_try; [by apply does_zip_call|intros l error ->; constructor; [done|]; by rewrite app_nil_r|]. intros l [] ->.
  eapply does_impl; [apply does_or_error, does_sync_all|]. intros l r ([[]|error] & -> & ->); cbn [map_err].
  - by exists members.
  - constructor; [done|]. apply Forall_app. split; [done|by repeat constructor].
Qed.

Lemma does_build fuel tmp zip_path files (context : PluginContext) :
  does (built tmp zip_path files) (build_archive fuel tmp zip_path files context).
Proof.
  unfold build_archive. eapply does_try_io; [apply does_create|intros l error error' ->; constructor|]. intros l h ->.
  apply (does_bind (λ l r, match r with
    | Ok _ => ∃ members, Forall2 member files members ∧
        l = Checked false :: concat members ++ [ZipFinished; FileSynced h; Checked false; Published tmp zip_path true]
    | Err _ => Forall (unfinished tmp zip_path) l end)).
  - eapply does_try_io; [apply (does_write_zip _ _ tmp zip_path)|done|]. intros l [] (members & Hf & ->).
    pose proof (members_unfinished tmp zip_path _ _ Hf) as Hu.
    assert (∀ l, Forall (unfinished tmp zip_path) l → Forall (unfinished tmp zip_path) ((Checked false :: concat members ++ [ZipFinished; FileSynced h]) ++ l)) as Hfail.
    { intros l Hl. apply Forall_app. split; [|done]. constructor; [done|]. apply Forall_app. split; [done|by repeat constructor]. }
    apply does_checkpoint; [apply Hfail; by repeat constructor|].
    eapply does_impl; [apply does_or_error, does_publish|]. intros l r (r' & -> & ->). destruct r' as [[]|error]; cbn [map_err].
    + exists members. split; [done|]. cbn. by rewrite <-app_assoc.
    + apply Hfail. by repeat constructor.
  - intros l [[]|error] Hl; cbn [app].
    + destruct Hl as (members & Hf & ->). apply does_ret. rewrite app_nil_r. by constructor.
    + eapply does_bind; [apply does_remove|]. intros l' removed ->. apply does_ret. rewrite app_nil_r. by constructor.
Qed.

Lemma only_announce fuel dir zip_path (context : PluginContext) : only synced (announce fuel dir zip_path context).
Proof.
  unfold announce, sync_private_directory. apply only_bind.
  - apply only_bind; [solve_only|]. intros [h|error]; [|solve_only]. unfold io_error, or_error. apply only_bind; [|solve_only].
    eapply does_impl; [apply does_sync_all|]. intros l [] ->; by repeat constructor.
  - intros. apply only_bind; [|solve_only]. case_match; [solve_only|]. case_match; solve_only.
Qed.

(** ** The inputs *)

Lemma renamed_without zip_path files r r' e :
  e ∈ files → renamed_to zip_path files r r' → renamed_to zip_path files r (without_artifact (entry_path e) r').
Proof.
  intros He (H1 & H2 & H3 & H4). split_and!; [done|done|done|]. intros p Hp. rewrite <-H4 by done. cbn.
  rewrite list_elem_of_filter. split; [tauto|]. intros Hin. split; [|done]. intros ->. apply Hp. apply list_elem_of_fmap. by exists e.
Qed.

Lemma renamed_name zip_path files r :
  renamed_to zip_path files r
    (name_archive zip_path match raw_path r with Some raw => bool_decide (raw ∈ map entry_path files) | None => false end r).
Proof.
  split_and!; [done| |done|].
  - cbn. destruct (raw_path r) as [raw|]; [|by left]. case_bool_decide; [right|by left]. split; [done|]. by exists raw.
  - intros p _. cbn. case_decide; [|set_solver]. split; [by left|]. intros [? | ->]; done.
Qed.

(** What the clean-up of the inputs that are left does. *)
Definition cleaned (files left : list ArchiveEntry) (zip_path : PathBuf) (r : ReportResult) (l : list FileStep)
    (out : result string unit * ReportResult) : Prop :=
  Forall (cleaning files) l ∧ renamed_to zip_path files r out.2 ∧
  (out.1 = Ok tt → Forall (λ e, ∃ removed, Removed (entry_path e) removed ∈ l) left).

Lemma does_remove_inputs files zip_path r (context : PluginContext) left r' :
  left ⊆ files → renamed_to zip_path files r r' → does (cleaned files left zip_path r) (remove_inputs context left r').
Proof.
  revert r'. induction left as [|e left IH]; intros r' Hin Hr; cbn [remove_inputs].
  { apply (does_bind (λ l _, Forall (cleaning files) l)); [by apply only_checkpoint|]. intros l c Hl. apply does_ret. by rewrite app_nil_r. }
  apply (does_bind (λ l _, Forall (cleaning files) l)); [by apply only_checkpoint|]. intros l [[]|error] Hl.
  2: { apply does_ret. by rewrite app_nil_r. }
  assert (entry_path e ∈ map entry_path files) as Hp by (apply list_elem_of_fmap; exists e; split; [done|apply Hin; by left]).
  assert (left ⊆ files) as Hleft by set_solver.
  eapply does_bind; [apply does_remove|]. intros l1 removed ->.
  assert (∀ b l', Forall (cleaning files) l' → Forall (cleaning files) (l ++ Removed (entry_path e) b :: l')) as Hall.
  { intros b l' Hl'. apply Forall_app. split; [done|by constructor]. }
  assert (∀ b r'', renamed_to zip_path files r r'' →
    does (λ l' out, cleaned files (e :: left) zip_path r (l ++ Removed (entry_path e) b :: l') out)
      (remove_inputs context left r'')) as Hnext.
  { intros b r'' Hr''. eapply does_impl; [by apply IH|]. intros l' out (H1 & H2 & H3). split_and!; [by apply Hall|done|].
    intros Hok. constructor; [exists b; set_solver|]. eapply Forall_impl; [by apply H3|]. intros e' [b' Hb']. exists b'. set_solver. }
  assert (∀ b, does (λ l' out, cleaned files (e :: left) zip_path r (l ++ Removed (entry_path e) b :: l') out)
    (unregistered ← unregister context (entry_path e);
     match unregistered with
     | Err error => mret (Err error, r')
     | Ok _ => remove_inputs context left (without_artifact (entry_path e) r')
     end)) as Hgone.
  { intros b. apply does_idle; [unfold unregister; solve_only|]. intros [[]|error].
    - apply Hnext. apply renamed_without; [set_solver|done].
    - apply does_ret. split_and!; [by apply Hall|done|done]. }
  destruct removed as [[]|error]; cbn [is_ok]; [exact (Hgone true)|].
  destruct error; try exact (Hgone false); (apply does_idle; [apply idle_warn|]; intros []; by apply Hnext).
Qed.

Lemma parent_named p name : name ≠ "/"%string → parent (p ++ [name]) = Some p.
Proof.
  intros Hn. unfold parent. rewrite <-(removelast_last p name) at 2.
  destruct p as [|c p]; cbn [app]; [|by destruct p, c as [|[]]; repeat case_match].
  repeat (case_match; try done).
Qed.
Lemma zip_name (stem : string) : (stem +:+ ".zip")%string ≠ "/"%string.
Proof. destruct stem as [|c [|c' stem]]; done. Qed.

Lemma of_report_after context r l l' files : of_report (Txn := Txn) (Ctx := Ctx) context r l' files → of_report context r (l ++ l') files.
Proof. intros (ps & Hin & H). exists ps. split; [set_solver|done]. Qed.
Lemma admissible_after l l' files : admissible l' files → admissible (l ++ l') files.
Proof.
  intros (H1 & H2 & H3). split_and!; [|done|done]. eapply Forall_impl; [exact H1|].
  intros e (m & Hin & He). exists m. split; [set_solver|done].
Qed.

Lemma does_archive fuel (context : PluginContext) r : does (archived context r) (archive fuel context r).
Proof.
  unfold archive. apply (does_bind (λ l _, Forall inspecting l)); [by apply only_checkpoint|]. intros l [[]|error] Hl.
  2: { apply does_ret. rewrite app_nil_r. by apply NotNeeded. }
  destruct (json_path r) as [json|] eqn:Hjson; [|apply does_ret; rewrite app_nil_r; apply NotNeeded; auto].
  destruct (parent json) as [dir|] eqn:Hdir; [|apply does_ret; rewrite app_nil_r; by apply NotNeeded].
  apply (does_bind (λ l' res, Forall inspecting l' ∧ ∀ files, res = Ok files → of_report context r l' files ∧ admissible l' files)).
  { apply does_try_idle; [auto with cm|done|]. intros _. apply does_collect. }
  intros l' [files|error] [Hl' Hf]; [|apply does_ret; rewrite app_nil_r; apply NotNeeded; [by apply Forall_app|done]].
  assert (Forall inspecting (l ++ l')) as Hi by by apply Forall_app.
  destruct (Hf files eq_refl) as [Hrep%(of_report_after _ _ l) Hadm%(admissible_after l)].
  apply (does_impl (λ l2 out, archived context r ((l ++ l') ++ l2) out)); [|intros l2 out H; by rewrite <-app_assoc in H].
  generalize dependent (l ++ l'). clear l l' Hl Hl' Hf. intros before Hi Hrep Hadm.
  destruct files as [|e files']; [apply does_ret; rewrite app_nil_r; apply NotNeeded; auto|].
  assert (e :: files' ≠ []) as Hne by done. set (files := e :: files') in *. clearbody files. clear e files'.
  case_match; [|apply does_ret; rewrite app_nil_r; by apply NotNeeded].
  apply does_idle; [apply only_ask|]. intros uuid. unfold archive_and_remove.
  eapply does_bind; [apply does_build|]. intros l [[]|error] Hb.
  2: { apply does_ret. rewrite app_nil_r. by eapply NotArchived. }
  eapply does_bind; [apply only_announce|]. intros l1 [[]|error] H1.
  2: { apply does_ret. rewrite app_nil_r. by eapply NotAnnounced. }
  eapply does_impl; [eapply (does_remove_inputs files _ r); [done|apply renamed_name]|].
  intros l2 [answer r'] (H2 & Hr & Hall).
  by eapply (ArchivedAll _ r before json dir _ (dir ++ [(s +:+ ".zip")%string])); try done; apply parent_named, zip_name.
Qed.

(** ** Publications *)

Lemma zip_call_backs {A : Type} what (f : E → result string A * E) note :
  (∀ a, unpublished (note a) = true) → backs (zip_call what f note).
Proof. intros Hn. apply backs_bind; [apply backs_ask|]. intros [a|error]; [|apply backs_ret]. apply backs_bind; [by apply backs_step|auto with cm]. Qed.
#[local] Hint Resolve zip_call_backs : cm.
Lemma inspect_backs (context : PluginContext) ps files total : backs (inspect_files context ps files total).
Proof. revert files total. induction ps; intros; cbn [inspect_files]; solve_backs. Qed.
#[local] Hint Resolve inspect_backs : cm.
Lemma chunks_backs steps h output p (context : PluginContext) written total : backs (archive_chunks steps h output p context written total).
Proof. revert written total. induction steps; intros; cbn [archive_chunks]; solve_backs. Qed.
#[local] Hint Resolve chunks_backs : cm.
Lemma archive_files_backs fuel output files (context : PluginContext) total : backs (archive_files fuel output files context total).
Proof. revert total. induction files; intros; cbn [archive_files]; unfold archive_file, open_regular_file; solve_backs. Qed.
#[local] Hint Resolve archive_files_backs : cm.
Lemma remove_inputs_backs (context : PluginContext) files r : backs (remove_inputs context files r).
Proof. revert r. induction files; intros; cbn [remove_inputs]; unfold unregister; solve_backs. Qed.
#[local] Hint Resolve remove_inputs_backs : cm.
Lemma archive_backs fuel (context : PluginContext) r : backs (archive fuel context r).
Proof.
  unfold archive, archive_and_remove, collect_report_files, build_archive, write_zip, announce, sync_private_directory. solve_backs.
Qed.

End Archive.

(** ** Answers *)

Class ArchiveLaws (E : Type) {zip_ops : ZipOps E} {Txn : Type} {transactions : TransactionOps E Txn} (budget : E → nat) : Prop := {
  law_start h name : calm budget (zip_start_file h name);
  law_data h b : calm budget (zip_write_all h b);
  law_finish h : calm budget (zip_finish h);
  law_artifacts (t : Txn) : calm budget (transaction_artifacts t);
  law_register (t : Txn) p kind : calm budget (transaction_register_file t p kind);
  law_unregister (t : Txn) p : calm budget (transaction_unregister_file t p);
  law_warning (t : Txn) text : calm budget (transaction_record_durability_warning t text)
}.

Section Answers.
Context {E : Type} {clock : Clock E} {paths : Paths.Paths.PathOps E} {ops : FileOps E} {zip_ops : ZipOps E}
  {Txn Ctx : Type} {transactions : TransactionOps E Txn} {budget : E → nat} {elapsed : E → Z}
  {time : PathsSpec.PathsSpec.PathTime E elapsed} {path_laws : PathsSpec.PathsSpec.PathLaws E budget}
  {laws : FileLaws E budget} {archive_laws : ArchiveLaws E budget}.
#[local] Notation fm := (fueled E FileStep).
#[local] Notation PluginContext := (PluginContext Txn Ctx).
Context {n fuel : nat} (Hfuel : MAX_ARCHIVE_FILE_BYTES + 1 < Z.of_nat fuel) (Hn : (n ≤ fuel)%nat).

Lemma archive_race_fuel : Paths.Paths.PERMISSION_RACE_DEADLINE < Z.of_nat fuel.
Proof. unfold Paths.Paths.PERMISSION_RACE_DEADLINE, NANOS_PER_MILLI, MAX_ARCHIVE_FILE_BYTES in *. lia. Qed.
#[local] Hint Resolve archive_race_fuel open_private_directory_settles open_private_file_settles create_private_file_settles publish_path_settles
  law_start law_data law_finish law_artifacts law_register law_unregister law_warning : cm.

Lemma zip_call_settles {A : Type} what (f : E → result string A * E) note : calm budget f → settles budget n (zip_call what f note).
Proof. intros Hf. unfold zip_call. settle. Qed.
#[local] Hint Resolve zip_call_settles : cm.

Lemma inspect_files_settles (context : PluginContext) ps files total : settles budget n (inspect_files context ps files total).
Proof. revert files total. induction ps; intros; cbn [inspect_files]; unfold io_error; settle. Qed.
#[local] Hint Resolve inspect_files_settles : cm.
Lemma collect_settles r (context : PluginContext) : settles budget n (collect_report_files r context).
Proof. unfold collect_report_files. settle. Qed.

(** Every chunk has a byte, and the limit ends the input. *)
Lemma chunks_settles steps h output p (context : PluginContext) file_before total :
  file_before ≤ MAX_ARCHIVE_FILE_BYTES → MAX_ARCHIVE_FILE_BYTES - file_before < Z.of_nat steps →
  settles budget n (archive_chunks steps h output p context file_before total).
Proof.
  revert file_before total. induction steps as [|steps IH]; intros file_before total Hc Hs; [lia|]. cbn [archive_chunks].
  apply settles_then; [eauto with cm|]. intros [[]|error]; [|apply settles_answer].
  apply settles_then; [unfold io_error; eauto with cm|]. intros [b|error]; [|apply settles_answer].
  case_decide as Hb; [apply settles_answer|]. do 4 (case_decide; [apply settles_answer|]).
  apply settles_then; [eauto with cm|]. intros [[]|error]; [|apply settles_answer].
  apply settles_then; [eauto with cm|]. intros [[]|error]; [|apply settles_answer].
  assert (1 ≤ Z.of_nat (length b)) by (destruct b; [done|simpl; lia]). apply IH; lia.
Qed.

Lemma archive_file_settles output e (context : PluginContext) total : settles budget n (archive_file fuel output e context total).
Proof.
  assert (∀ h p t, settles budget n (archive_chunks fuel h output p context 0 t)).
  { intros. apply chunks_settles; unfold MAX_ARCHIVE_FILE_BYTES in *; lia. }
  unfold archive_file, open_regular_file, path_error, io_error. settle.
Qed.
#[local] Hint Resolve archive_file_settles collect_settles : cm.
Lemma archive_files_settles output files (context : PluginContext) total : settles budget n (archive_files fuel output files context total).
Proof. revert total. induction files; intros; cbn [archive_files]; settle. Qed.
#[local] Hint Resolve archive_files_settles : cm.
Lemma build_settles tmp zip_path files (context : PluginContext) : settles budget n (build_archive fuel tmp zip_path files context).
Proof. unfold build_archive, write_zip, path_error, io_error. settle. Qed.
Lemma announce_settles dir zip_path (context : PluginContext) : settles budget n (announce fuel dir zip_path context).
Proof. unfold announce, sync_private_directory, io_error. settle. Qed.
Lemma remove_inputs_settles (context : PluginContext) files r : settles budget n (remove_inputs context files r).
Proof. revert r. induction files; intros; cbn [remove_inputs]; unfold unregister; settle. Qed.
#[local] Hint Resolve build_settles announce_settles remove_inputs_settles : cm.
Lemma archive_settles (context : PluginContext) r : settles budget n (archive fuel context r).
Proof. unfold archive, archive_and_remove. settle. Qed.

End Answers.


(** A report of one file. *)
Module Example.
Import PathsSpec.PathsSpec.Example.
Import Init.Byte.

Definition contents : list Byte := [x61; x62; x0a].
Definition report_meta : Paths.Paths.Meta := Paths.Paths.mkMeta Paths.Paths.RegularNode 501 384 1 8.
Definition report_file : Metadata := mkMetadata report_meta 3.

#[export] Instance file_ops : FileOps disk := {|
  io_text _ := "error"%string;
  cancel_loaded d := (false, d);
  symlink_metadata p d := (Ok report_file, d);
  follow_metadata p d := (Ok report_file, d);
  metadata_of h d := (Ok report_file, d);
  read_handle h n d := (Ok (if decide (ticks d = 0) then take (Z.to_nat n) contents else []), tick d);
  write_handle h b d := (Ok (Z.of_nat (length b)), d);
  flush_handle h d := (Ok tt, d);
  sync_handle h d := (Ok tt, d);
  rewind_handle h d := (Ok tt, d);
  remove_path p d := (Ok tt, d);
  rename_path p q d := (Ok tt, d);
  fresh_name d := ("1"%string, d)
|}.
#[export] Instance zip_ops : ZipOps disk := {|
  zip_start_file h name d := (Ok tt, d);
  zip_write_all h b d := (Ok tt, d);
  zip_finish h d := (Ok tt, d)
|}.
#[export] Instance transactions : TransactionOps disk unit := {|
  transaction_output_root t := [];
  transaction_staging_dir t := [];
  transaction_set_destination_root t p d := (Ok tt, d);
  transaction_committed t d := (None, d);
  transaction_artifacts t d := ([], d);
  transaction_register_file t p kind d := (Ok tt, d);
  transaction_unregister_file t p d := (Ok tt, d);
  transaction_record_durability_warning t text d := (tt, d)
|}.

#[export] Instance file_laws : FileLaws disk (λ _, 0%nat).
Proof.
  split; unfold calm; intros; try lia.
  - cbn in *. case_decide; simplify_eq; simpl; [|lia]. rewrite length_take. lia.
  - by split.
Qed.
#[export] Instance archive_laws : ArchiveLaws disk (λ _, 0%nat).
Proof. split; unfold calm; intros; lia. Qed.

Definition w1 : World disk FileStep := mkWorld (mkDisk 0 [] [("dump.json"%string, report_meta)]) [].
Definition json : PathBuf := ["/"; "Users"; "app"; "dump.json"]%string.
Definition zip : PathBuf := ["/"; "Users"; "app"; "dump.zip"]%string.
Definition report : ReportResult := mkReportResult [json] None (Some json) None.
Definition no_deadline : PluginContext unit unit := without_deadline.

Lemma archive_enough_fuel : ∃ fuel, MAX_ARCHIVE_FILE_BYTES + 1 < Z.of_nat fuel ∧ (0 < fuel)%nat.
Proof. exists (Z.to_nat (MAX_ARCHIVE_FILE_BYTES + 2)). rewrite Z2Nat.id; unfold MAX_ARCHIVE_FILE_BYTES; lia. Qed.

End Example.
Import PathsSpec.PathsSpec.Example.
Import Example.


End ArchiveSpec.
