(* ===== verification/Guardian.v ===== *)
(** * The parent-death guard (src/platform/macos/ffi/spawn.rs)

    [ParentDeathGuard]: its installation, whose descriptors are accounted for, and the
    guardian process against the monitor that disarms it or dies, in any interleaving.
    A read of the pipe answers with the disarm byte if there is one, with the end of
    the file if no process has the write end, and blocks otherwise; the helpers that
    the monitor forks have the write end until they [exec]. *)

From stdpp Require Import pretty.
From S2P Require Import Prelude.
From S2P Require Import Traced.
From S2P Require Import Fueled.
From S2P Require Import Startup.

Module Guardian.
Export Traced.
Export Fueled.

(** ** Installation *)

(** The parent's side of a [fork]. *)
Class GuardOps (E : Type) := {
  guard_pipe : E → result string (Z * Z) * E;
  guard_cloexec : Z → E → result string unit * E;
  fork : E → result string Z * E
}.

Inductive GuardStep : Type :=
| GuardOpened (fd : Z)
| GuardClosed (fd : Z)
| GuardForked (pid : Z).

Record ParentDeathGuard := mkGuard { write_fd : Z; guardian_pid : Z; guard_armed : bool }.

Section Install.
Context {E : Type} {ops : GuardOps E}.
#[local] Notation gd := (traced E GuardStep).

(** A failure of the installation closes both descriptors. *)
Definition fails {A : Type} (fds : Z * Z) (message : string) : gd (result string A) :=
  _ ← emit (GuardClosed fds.1);
  _ ← emit (GuardClosed fds.2);
  mret (Err message).

Definition install (process_group : Z) (shm_name : option string) : gd (result string ParentDeathGuard) :=
  if decide (process_group ≤ 1) then
    mret (Err ("parent-death guard requires a positive child PGID, got " +:+ pretty process_group)%string)
  else if bool_decide (is_Some shm_name) && Startup.contains_nul (default "" shm_name) then
    mret (Err "parent-death guard SHM name contains NUL"%string)
  else
  pipe_fds ← lift guard_pipe;
  match pipe_fds with
  | Err error => mret (Err ("parent-death guard pipe failed: " +:+ error)%string)
  | Ok fds =>
      _ ← emit (GuardOpened fds.1);
      _ ← emit (GuardOpened fds.2);
      first ← lift (guard_cloexec fds.1);
      second ← (match first with Ok _ => lift (guard_cloexec fds.2) | Err e => mret (Err e) end);
      match second with
      | Err error => fails fds ("parent-death guard CLOEXEC failed: " +:+ error)%string
      | Ok _ =>
          forked ← lift fork;
          match forked with
          | Err error => fails fds ("parent-death guard fork failed: " +:+ error)%string
          | Ok pid =>
              _ ← emit (GuardForked pid);
              _ ← emit (GuardClosed fds.1);
              mret (Ok (mkGuard fds.2 pid true))
          end
      end
  end.

End Install.

(** ** The two processes *)

Inductive guardian_pc : Type :=
| Starting
| Reading
| Killing (code : Z)
| Unlinking (code : Z)
| GuardianExited (code : Z).

(** The monitor has the guard armed, is between the steps of [disarm], is done or dead. *)
Inductive monitor_pc : Type :=
| Armed
| Writing
| Closing
| Waiting
| Disarmed
| MonitorDead.

Record State := mkState {
  guardian : guardian_pc;
  monitor : monitor_pc;
  byte : bool;
  written : bool;
  monitor_end : bool;
  guardian_end : bool;
  helper_ends : nat;
  read_failed : bool;
  group_killed : bool;
  shm_unlinked : bool
}.

Section Machine.
(** Whether the guard has the name of a mapping. *)
Context (has_shm : bool).

Definition at_guardian (s : State) (c : guardian_pc) (byte guardian_end failed killed unlinked : bool) : State :=
  mkState c (monitor s) byte (written s) (monitor_end s) guardian_end (helper_ends s) failed killed unlinked.

Definition at_end_of_file (s : State) : bool :=
  negb (byte s || monitor_end s || guardian_end s || negb (bool_decide (helper_ends s = 0%nat))).

Definition guardian_step (s : State) : option State :=
  match guardian s with
  | Starting => Some (at_guardian s Reading (byte s) false (read_failed s) (group_killed s) (shm_unlinked s))
  | Reading =>
      if byte s then Some (at_guardian s (GuardianExited 0) false (guardian_end s) (read_failed s) (group_killed s) (shm_unlinked s))
      else if at_end_of_file s then
        Some (at_guardian s (Killing 0) (byte s) (guardian_end s) (read_failed s) (group_killed s) (shm_unlinked s))
      else None
  | Killing code => Some (at_guardian s (Unlinking code) (byte s) (guardian_end s) (read_failed s) true (shm_unlinked s))
  | Unlinking code => Some (at_guardian s (GuardianExited code) (byte s) (guardian_end s) (read_failed s) (group_killed s) has_shm)
  | GuardianExited _ => None
  end.

(** A read that fails, other than by a signal, counts as the monitor's death. *)
Definition read_fails (s : State) : option State :=
  match guardian s with
  | Reading => Some (at_guardian s (Killing 1) (byte s) (guardian_end s) true (group_killed s) (shm_unlinked s))
  | _ => None
  end.

Definition guardian_gone (s : State) : bool := match guardian s with GuardianExited _ => true | _ => false end.

Definition at_monitor (s : State) (c : monitor_pc) (byte written monitor_end : bool) : State :=
  mkState (guardian s) c byte written monitor_end (guardian_end s) (helper_ends s) (read_failed s) (group_killed s)
    (shm_unlinked s).

(** [disarm]: the byte, which a guardian that is gone does not get, the close, the wait. *)
Definition monitor_step (s : State) : option State :=
  match monitor s with
  | Armed => Some (at_monitor s Writing (byte s) (written s) (monitor_end s))
  | Writing =>
      Some (if guardian_gone s then at_monitor s Closing (byte s) (written s) (monitor_end s)
            else at_monitor s Closing true true (monitor_end s))
  | Closing => Some (at_monitor s Waiting (byte s) (written s) false)
  | Waiting => if guardian_gone s then Some (at_monitor s Disarmed (byte s) (written s) (monitor_end s)) else None
  | Disarmed | MonitorDead => None
  end.

Definition monitor_dies (s : State) : option State :=
  match monitor s with
  | MonitorDead => None
  | _ => Some (at_monitor s MonitorDead (byte s) (written s) false)
  end.

Definition with_helpers (s : State) (n : nat) : State :=
  mkState (guardian s) (monitor s) (byte s) (written s) (monitor_end s) (guardian_end s) n (read_failed s)
    (group_killed s) (shm_unlinked s).

Definition helper_forks (s : State) : option State :=
  match monitor s with
  | MonitorDead => None
  | _ => if monitor_end s then Some (with_helpers s (S (helper_ends s))) else None
  end.

Definition helper_execs (s : State) : option State :=
  match helper_ends s with O => None | S n => Some (with_helpers s n) end.

Inductive move : Type := GuardianSteps | ReadFails | MonitorSteps | MonitorDies | HelperForks | HelperExecs.

Definition step (m : move) (s : State) : option State :=
  match m with
  | GuardianSteps => guardian_step s
  | ReadFails => read_fails s
  | MonitorSteps => monitor_step s
  | MonitorDies => monitor_dies s
  | HelperForks => helper_forks s
  | HelperExecs => helper_execs s
  end.

Fixpoint run (moves : list move) (s : State) : option State :=
  match moves with
  | [] => Some s
  | m :: moves => s ← step m s; run moves s
  end.

(** Behind the [fork] both processes have the write end. *)
Definition initial : State := mkState Starting Armed false false true true 0 false false false.

(** ** Invariant *)

Definition past_reading (c : guardian_pc) : bool :=
  match c with Killing _ | Unlinking _ => true | _ => false end.

Record sound (s : State) : Prop := {
  sound_byte : byte s = true → written s = true;
  sound_writes : written s = true → read_failed s = false →
    past_reading (guardian s) = false ∧ group_killed s = false ∧
    (guardian_gone s = false → byte s = true);
  sound_unwritten : written s = false → guardian s = GuardianExited 0 ∨ guardian s = GuardianExited 1 → group_killed s = true ∧ shm_unlinked s = has_shm;
  sound_end : past_reading (guardian s) = true ∨ group_killed s = true →
    read_failed s = true ∨ monitor s = MonitorDead ∧ written s = false;
  sound_guardian_end : guardian_end s = true → guardian s = Starting;
  sound_monitor_end : match monitor s with Armed | Writing | Closing => monitor_end s = true | _ => monitor_end s = false end;
  sound_waiting : match monitor s with Closing | Waiting => guardian_gone s = true ∨ written s = true | Disarmed => guardian_gone s = true | _ => True end;
  sound_killed : match guardian s with Unlinking _ => group_killed s = true | GuardianExited _ => True | _ => group_killed s = false end;
  sound_codes : match guardian s with GuardianExited c | Killing c | Unlinking c => c = 0 ∨ c = 1 | _ => read_failed s = false end
}.

Ltac finish :=
  split; unfold guardian_gone, at_guardian, at_monitor in *; simpl in *; intros; repeat case_match; simplify_eq/=;
  try done; try tauto; try (intuition congruence).

Lemma guardian_sound s s' : sound s → guardian_step s = Some s' → sound s'.
Proof.
  intros [H1 H2 H3 H4 H5 H6 H7 H8 H9] Hs. destruct s as [g mo b wr me ge he rf k u].
  unfold guardian_step, at_end_of_file in Hs. destruct g; simpl in *.
  - injection Hs as <-. finish.
  - destruct b; simpl in Hs; [injection Hs as <-; finish|].
    destruct me, ge, (bool_decide (he = 0%nat)); simplify_eq/=. destruct wr; finish.
  - injection Hs as <-. finish.
  - injection Hs as <-. finish.
  - done.
Qed.

Lemma monitor_sound s s' : sound s → monitor_step s = Some s' → sound s'.
Proof.
  intros [H1 H2 H3 H4 H5 H6 H7 H8 H9] Hs. destruct s as [g mo b wr me ge he rf k u].
  unfold monitor_step in Hs. destruct mo; simpl in *; try done.
  - injection Hs as <-. finish.
  - injection Hs as <-. destruct g; finish.
  - injection Hs as <-. destruct g; finish.
  - destruct g; simpl in Hs; simplify_eq/=. finish.
Qed.

Lemma other_sound m s s' :
  m = ReadFails ∨ m = MonitorDies ∨ m = HelperForks ∨ m = HelperExecs → sound s → step m s = Some s' → sound s'.
Proof.
  intros Hm [H1 H2 H3 H4 H5 H6 H7 H8 H9] Hs. destruct s as [g mo b wr me ge he rf k u].
  destruct Hm as [-> | [-> | [-> | ->]]]; simpl in *.
  - unfold read_fails in Hs. simpl in Hs. destruct g; simplify_eq/=. finish.
  - unfold monitor_dies in Hs. simpl in Hs. destruct mo; simplify_eq/=; destruct g; finish.
  - unfold helper_forks in Hs. simpl in Hs. destruct mo; simplify_eq/=; repeat case_match; simplify_eq/=; finish.
  - unfold helper_execs in Hs. simpl in Hs. destruct he; simplify_eq/=. finish.
Qed.

Lemma guard_run moves s s' : sound s → run moves s = Some s' → sound s'.
Proof.
  revert s. induction moves as [|m moves IH]; intros s Hs Hrun; simpl in Hrun; [by injection Hrun as <-|].
  destruct (step m s) as [s1|] eqn:Hstep; [|done]. apply (IH s1); [|done].
  destruct m; first [exact (guardian_sound s s1 Hs Hstep) | exact (monitor_sound s s1 Hs Hstep) | eapply (other_sound _ s s1); [|exact Hs|exact Hstep]; eauto].
Qed.

Lemma guard_initial : sound initial.
Proof. by finish. Qed.

(** C15. The parent-death guard, in every interleaving of the guardian, the monitor that
    disarms it or dies at any point, and helpers between their fork and their exec. The
    guardian kills the process group only if the monitor died without having written the
    disarm byte, or its own read failed; when the monitor is dead, undisarmed, and
    neither the guardian nor a helper can go on, the group has been killed and the
    mapping unlinked; [disarm] never waits for a guardian that cannot exit; and once it
    returned the guardian is gone, so no later kill can hit a reused process group. *)
Theorem guardian_kills_exactly_orphans moves s :
  run moves initial = Some s →
  (group_killed s = true → read_failed s = true ∨ monitor s = MonitorDead ∧ written s = false) ∧
  (monitor s = MonitorDead → guardian_step s = None → helper_execs s = None →
     guardian_gone s = true ∧ (written s = false → group_killed s = true ∧ shm_unlinked s = has_shm)) ∧
  (monitor s = Waiting → is_Some (guardian_step s) ∨ is_Some (monitor_step s)) ∧
  (monitor s = Disarmed → guardian_gone s = true).
Proof.
  intros Hrun. destruct (guard_run moves initial s guard_initial Hrun) as [H1 H2 H3 H4 H5 H6 H7 H8 H9].
  unfold guardian_step, helper_execs, monitor_step, at_end_of_file, guardian_gone in *.
  destruct s as [g mo b wr me ge he rf k u]. simpl in *. split_and!.
  - intros Hk. apply H4. by right.
  - intros -> Hstep Hhelp. destruct he; [|done]. destruct g; try done.
    + destruct b; [done|]. destruct me; [done|]. destruct ge; [by specialize (H5 eq_refl)|]. done.
    + split; [done|]. intros Hw. apply H3; [done|]. destruct H9 as [-> | ->]; auto.
  - intros ->. subst me. destruct g; simpl; eauto. destruct b; simpl; [eauto|]. exfalso. subst rf.
    destruct H7 as [|Hw]; [done|]. destruct (H2 Hw eq_refl) as (_ & _ & Hb). by specialize (Hb eq_refl).
  - by intros ->.
Qed.

End Machine.

(** The monitor dies while a helper still has the write end. *)
Definition example : list move :=
  [GuardianSteps; HelperForks; MonitorDies; HelperExecs; GuardianSteps; GuardianSteps; GuardianSteps].

Lemma guardian_kills_exactly_orphans_witness :
  ∃ s, run true example initial = Some s ∧ monitor s = MonitorDead ∧ guardian s = GuardianExited 0 ∧
    group_killed s = true ∧ (group_killed s = true → read_failed s = true ∨ monitor s = MonitorDead ∧ written s = false).
Proof.
  destruct (run true example initial) as [s|] eqn:Hrun; [|vm_compute in Hrun; discriminate Hrun].
  exists s. assert (monitor s = MonitorDead ∧ guardian s = GuardianExited 0 ∧ group_killed s = true) as (H1 & H2 & H3).
  { vm_compute in Hrun. injection Hrun as <-. vm_compute. repeat split. }
  split; [reflexivity|]. split; [exact H1|]. split; [exact H2|]. split; [exact H3|].
  exact (proj1 (guardian_kills_exactly_orphans true example s Hrun)).
Defined.

(** ** Descriptors of the installation *)

Section Accounts.
Context {E : Type} {ops : GuardOps E}.

Fixpoint open_ends (fd : Z) (l : list GuardStep) : Z :=
  match l with
  | [] => 0
  | GuardOpened x :: l => (if decide (fd = x) then 1 else 0) + open_ends fd l
  | GuardClosed x :: l => open_ends fd l - (if decide (fd = x) then 1 else 0)
  | GuardForked _ :: l => open_ends fd l
  end.

(** The write end is all that an installed guard keeps, and a failure keeps nothing. *)
Lemma install_accounts process_group shm_name :
  emits (λ l r, ∀ fd, open_ends fd l =
      match r with Ok g => if decide (fd = write_fd g) then 1 else 0 | Err _ => 0 end)
    (install process_group shm_name : traced E GuardStep (result string ParentDeathGuard)).
Proof.
  unfold install. case_decide; [by apply emits_ret|]. case_match; [by apply emits_ret|].
  eapply emits_silent; [apply silent_lift|]. intros [fds|]; [|by apply emits_ret].
  apply emits_step, emits_step. eapply emits_silent; [apply silent_lift|]. intros first.
  eapply emits_silent; [destruct first; [apply silent_lift|apply silent_ret]|]. intros [[]|].
  2: { apply emits_step, emits_step, emits_ret. intros fd. simpl. lia. }
  eapply emits_silent; [apply silent_lift|]. intros [pid|]; apply emits_step, emits_step, emits_ret; intros fd; simpl; lia.
Qed.

End Accounts.
End Guardian.
