(* ===== verification/Supervisor.v ===== *)
(** * The supervisor (src/main.rs)

    [run_monitor] from the entitlement check to the exit code: the preparation, the
    spawn, the acquisition of the task port, the event loop, and the conclusion
    with containment, reaping and fatal finalization. Owners that Rust drops are
    dropped here where their scope ends: the process group (terminate and reap) and
    the exception port (destroy). Log lines are left out.

    [fuel] bounds the events of the loop and the polls of a reap, [retries] the
    waits that a signal interrupts in a row. *)

From stdpp Require Import pretty.
From S2P Require Import Prelude.
From S2P Require Import Traced.
From S2P Require Import Fueled.
From S2P Require Import PluginGraph.
From S2P Require Import Config.
From S2P Require Import PipelineTypes.
From S2P Require Import TaskControl.
From S2P Require Import PluginRun.
From S2P Require Import Pipeline.
From S2P Require Import EventLoop.
From S2P Require Import ChildProcess.
From S2P Require Import Startup.
From S2P Require Import Artifact.

Module Supervisor.
Export ChildProcess.

(** The parts of the environment that only the start needs. [build_pipeline] is
    the factory; it answers with the reports the pipeline has enabled. *)
Class StartOps (E : Type) := {
  plist_from_reader : string → result string Startup.PlistValue;
  current_exe : E → result string string;
  codesign_verify : E → string → result string Startup.CodesignOutput;
  codesign_entitlements : E → string → result string Startup.CodesignOutput;
  load_config : E → result string CrashReporterConfig * E;
  setup_signal_pipe : E → result string unit * E;
  create_exception_port : E → result string unit * E;
  create_shared_memory : E → result string string * E;
  vars_os : E → list (string * string);
  env_var : E → string → option string;
  build_pipeline : ValidatedConfig → option string → E → result string (ReportType → bool) * E;
  recover_startup_artifacts : E → E;
  spawn_with_exception_port : string → list string → list string → E → result string Z * E;
  start_listener : E → E;
  new_event_source : Z → Z → E → result string unit * E
}.

Definition EXIT_MONITOR_INTERNAL : Z := EventLoop.EXIT_MONITOR_INTERNAL.

(** What exists when the child is spawned. *)
Record Prepared := mkPrepared {
  prepared_config : ValidatedConfig;
  prepared_shm : option string;
  prepared_env : list string;
  prepared_enabled : ReportType → bool
}.

Section Supervisor.
Context {E R C F : Type} {clock : Clock E} {pops : ProcessOps E} {sops : StartOps E} {lops : EventLoop.LoopOps E R C F}.
Context (fuel retries : nat).
#[local] Notation sup := (fueled E SupervisorStep).

(** The event loop's steps are steps of the supervisor. *)
Definition in_loop {A : Type} (m : traced E EventLoop.LoopStep A) : sup A := λ w,
  let '(a, w') := m (mkWorld (env w) []) in (Some a, mkWorld (env w') (trace w ++ (InLoop <$> trace w'))).

Definition destroy_port (live : bool) : sup unit :=
  if live then _ ← ask (λ e, (tt, destroy_exception_port e)); step PortDestroyed else mret tt.

(** ** Before the spawn *)

(** The entitlement, the configuration and the signal pipe; no port exists yet. *)
Definition preflight : sup (result string ValidatedConfig) :=
  _ ←? of_traced (look (λ e, map_err (λ _, "entitlement check failed"%string)
         (Startup.verify_self_entitlement plist_from_reader (current_exe e) (codesign_verify e) (codesign_entitlements e))));
  raw ←? ask load_config;
  match validate raw with
  | Err _ => mret (Err "invalid crash monitor configuration"%string)
  | Ok validated_config => _ ←? ask setup_signal_pipe; mret (Ok validated_config)
  end.

(** A mapping that cannot be created is not an error. *)
Definition shared_memory_for (c : ValidatedConfig) : sup (option string) :=
  if v_enabled c then
    r ← ask create_shared_memory;
    mret (match r with Ok name => Some name | Err _ => None end)
  else mret None.

Definition prepare (validated_config : ValidatedConfig) (app_path : string) (app_args : list string)
    : sup (result string Prepared) :=
  shm ← shared_memory_for validated_config;
  if Startup.contains_nul app_path then mret (Err "app_path contains null byte"%string) else
  if existsb Startup.contains_nul app_args then mret (Err "argument contains null byte"%string) else
  vars ← of_traced (look vars_os);
  match Startup.build_child_environment vars shm with
  | Err error => mret (Err error)
  | Ok environment =>
      enabled ←? ask (build_pipeline validated_config shm);
      _ ← ask (λ e, (tt, recover_startup_artifacts e));
      mret (Ok (mkPrepared validated_config shm environment enabled))
  end.

(** ** After the spawn *)

(** A child whose group could not be owned is killed and awaited for a while. *)
Definition kill_unowned (pid child_started_at : Z) : sup unit :=
  r ← ask (killpg pid SIGKILL);
  _ ← step (SentToGroup SIGKILL r);
  _ ← (match r with
       | None => mret tt
       | Some _ => r ← ask (kill pid SIGKILL); step (SentToPid SIGKILL r)
       end);
  _ ← reap_after_detected_crash_with fuel true (mkDeadlines 0 UNMONITORED_REAP_AFTER_KILL_DEADLINE)
        (poll_child_after_crash_once pid child_started_at) (mret (Ok tt));
  mret tt.

Definition process_name (app_path : string) : string :=
  default app_path (Artifact.file_name (Artifact.components app_path)).

(** [child_pid_raw as u32]. *)
Definition pid_u32 (pid : Z) : Z := pid `mod` 2 ^ 32.

Definition report_termination (p : Prepared) (pid : Z) (app_path : string) (reason : TerminationReason)
    : sup EventLoop.MonitorOutcome :=
  in_loop (EventLoop.handle_child_termination (prepared_enabled p) (pid_u32 pid) (process_name app_path) reason).

(** The watchdog, armed only when ANR reports are enabled. *)
Definition anr_config_for (p : Prepared) : sup (result string (option EventLoop.AnrConfig)) :=
  if prepared_enabled p Anr then
    var ← of_traced (look env_var);
    mret match Startup.watchdog_config_with_explicit_env_overrides var var (watchdog (config (prepared_config p))) with
         | Err _ => Err "invalid watchdog environment override"%string
         | Ok w =>
             Ok (Some (EventLoop.mkAnrConfig (warmup_ms w) (threshold_ms w) (check_interval_ms w) (cooldown_ms w)))
         end
  else mret (Ok None).

(** *** The conclusion *)

(** [nix::sys::signal::Signal::try_from] knows the signals 1 to 31. *)
Definition known_signal (signal : Z) : bool := bool_decide (1 ≤ signal ≤ 31).

(** The child terminated by itself, or the monitor was told to stop. *)
Definition settle_shutdown (g : ChildProcessGroup) (o : EventLoop.MonitorOutcome)
    : sup (ChildProcessGroup * EventLoop.MonitorOutcome) :=
  match o with
  | EventLoop.OutcomeChildTerminated _ => g ← mark_reaped g; mret (g, o)
  | EventLoop.ShutdownRequested signal _ =>
      if known_signal signal then
        '(g, r) ← terminate_and_reap fuel g signal;
        mret (g, match r with
                 | Ok reason => EventLoop.with_shutdown_termination o (Some reason)
                 | Err error => EventLoop.OutcomeMonitorFailure error
                 end)
      else mret (g, EventLoop.OutcomeMonitorFailure ("unsupported shutdown signal " +:+ pretty signal)%string)
  | _ => mret (g, o)
  end.

(** The SIGKILL of the supervisor itself; a failure counts as not sent. *)
Definition escalate (g : ChildProcessGroup) (required : bool) : sup bool :=
  if required then r ← group_signal g SIGKILL; mret (is_ok r) else mret false.

Definition complete_fatal (f : option F) (termination : option TerminationReason) : sup (option PathBuf) :=
  match f with
  | None => mret None
  | Some finalization =>
      d ← ask (EventLoop.complete_finalization finalization termination EventLoop.CRASH_FINALIZE_WAIT);
      _ ← step (FinalizationCompleted termination);
      mret (d ≫= report_path)
  end.

(** The fatal report is completed with what the reap found. *)
Definition contain_and_finalize (g : ChildProcessGroup) (sigkill_sent : bool) (f : option F) (o : EventLoop.MonitorOutcome)
    : sup (ChildProcessGroup * EventLoop.MonitorOutcome) :=
  '(g, r) ← reap_after_crash fuel g sigkill_sent;
  let termination := match r with Ok reason => Some reason | Err _ => None end in
  path ← complete_fatal f termination;
  mret (g, EventLoop.with_crash_result o termination path).

(** From the end of the event loop to the exit code; ends with the drop of the
    supervisor: its port, then its process group. *)
Definition conclude (g : ChildProcessGroup) (result : EventLoop.EventLoopResult F) : sup Z :=
  let listener_lost := EventLoop.listener_loss_containment_required result in
  '(g, outcome) ← settle_shutdown g (EventLoop.outcome result);
  failures ← of_traced (look EventLoop.health_failures);
  let containment := existsb TaskControl.prevents_continued_monitoring failures in
  let escalation := existsb TaskControl.requires_escalation failures in
  let must_reap_child := EventLoop.crash_cleanup_required result || containment || listener_lost in
  _ ← (if must_reap_child then
         _ ← destroy_port true;
         if listener_lost then mret tt else sleep (100 * NANOS_PER_MILLI)
       else mret tt);
  sigkill_sent ← escalate g (listener_lost || escalation);
  '(g, outcome) ← (if must_reap_child
                   then contain_and_finalize g sigkill_sent (EventLoop.crash_finalization result) outcome
                   else mret (g, outcome));
  _ ← destroy_port (negb must_reap_child);
  _ ← drop_group fuel g;
  mret (EventLoop.exit_code outcome).

(** *** The run *)

(** Leaving while the group is owned and the port is the caller's. *)
Definition leave (g : ChildProcessGroup) (code : Z) : sup Z :=
  _ ← drop_group fuel g;
  _ ← destroy_port true;
  mret code.

Definition monitor (p : Prepared) (g : ChildProcessGroup) (app_path : string) (task : mach_port_t) : sup Z :=
  _ ← ask (λ e, (tt, start_listener e));
  anr ← anr_config_for p;
  match anr with
  | Err _ => leave g EXIT_MONITOR_INTERNAL
  | Ok anr_config =>
      source ← ask (new_event_source (child_pid g) (started_at g));
      match source with
      | Err _ => leave g EXIT_MONITOR_INTERNAL
      | Ok _ =>
          flow ← in_loop (EventLoop.event_loop (prepared_enabled p) task (pid_u32 (child_pid g)) (process_name app_path)
                            (bool_decide (is_Some (prepared_shm p))) anr_config fuel);
          match flow with
          | EventLoop.Continue _ => starved
          | EventLoop.Return result => conclude g result
          end
      end
  end.

Definition supervise (p : Prepared) (g : ChildProcessGroup) (app_path : string) : sup Z :=
  acquisition ← acquire_task_port_or_termination fuel retries (child_pid g) (started_at g);
  match acquisition with
  | Ok (Acquired task) => monitor p g app_path task
  | Ok (AcquisitionChildTerminated reason) =>
      g ← mark_reaped g;
      o ← report_termination p (child_pid g) app_path reason;
      leave g (EventLoop.exit_code o)
  | Err _ =>
      '(g, r) ← terminate_and_reap fuel g SIGTERM;
      _ ← (match r with
           | Ok reason => _ ← report_termination p (child_pid g) app_path reason; mret tt
           | Err _ => mret tt
           end);
      leave g EXIT_MONITOR_INTERNAL
  end.

Definition spawn_and_supervise (p : Prepared) (app_path : string) (app_args : list string) : sup Z :=
  child_started_at ← now;
  spawned ← ask (spawn_with_exception_port app_path (app_path :: app_args) (prepared_env p));
  match spawned with
  | Err _ => _ ← destroy_port true; mret EXIT_MONITOR_INTERNAL
  | Ok pid =>
      _ ← step (ChildSpawned pid);
      owned ← group_new pid child_started_at (prepared_shm p);
      match owned with
      | Err _ => _ ← kill_unowned pid child_started_at; _ ← destroy_port true; mret EXIT_MONITOR_INTERNAL
      | Ok g => supervise p g app_path
      end
  end.

Definition run_monitor (app_path : string) (app_args : list string) : sup Z :=
  checked ← preflight;
  match checked with
  | Err _ => mret EXIT_MONITOR_INTERNAL
  | Ok validated_config =>
      port ← ask create_exception_port;
      match port with
      | Err _ => mret EXIT_MONITOR_INTERNAL
      | Ok _ =>
          prepared ← prepare validated_config app_path app_args;
          match prepared with
          | Err _ => _ ← destroy_port true; mret EXIT_MONITOR_INTERNAL
          | Ok p => spawn_and_supervise p app_path app_args
          end
      end
  end.

(** ** The command line *)

(** [Commands]; the offline commands answer with their exit code. *)
Inductive Commands : Type :=
| CaptureHelper (request_json : string)
| CheckConfig (path : option string)
| Run (app_path : string) (args : list string)
| Offline (run : E → Z * E).

(** The code handed to [std::process::exit]. *)
Definition main (run_capture_helper : string → E → result string unit * E)
    (check_config : option string → E → result string unit * E) (command : Commands) : sup Z :=
  match command with
  | CaptureHelper request_json => r ← ask (run_capture_helper request_json); mret (if is_ok r then 0 else 1)
  | CheckConfig path => r ← ask (check_config path); mret (if is_ok r then 0 else 2)
  | Run app_path args => run_monitor app_path args
  | Offline run => ask run
  end.

End Supervisor.
End Supervisor.
