(* ===== verification/SupervisorSpec.v ===== *)
(** * What the supervisor does with its child

    A grammar of the steps of a run: polls, reaps with escalation, drops of the
    process group, and the conclusion after the event loop; and the proof that every
    run belongs to it. The theorems read it: no child is abandoned, no fatal report
    is dropped, and every wait is bounded. *)

From S2P Require Import Prelude.
From S2P Require Import Traced.
From S2P Require Import Fueled.
From S2P Require Import PluginGraph.
From S2P Require Import Config.
From S2P Require Import PipelineTypes.
From S2P Require Import TaskControl.
From S2P Require Import PluginRun.
From S2P Require Import Pipeline.
From S2P Require Import CaptureSpawn.
From S2P Require Import EventLoop.
From S2P Require Import ChildProcess.
From S2P Require Import Startup.
From S2P Require Import Supervisor.

Module SupervisorSpec.
Export Supervisor.

(** ** The grammar *)

(** A poll that found the child running, or was interrupted. *)
Definition idle (s : SupervisorStep) : Prop :=
  s = ChildWaited (Err CaptureSpawn.EINTR) ∨ ∃ st, s = ChildWaited (Ok st) ∧ ∀ t, termination_from_wait_status st t = None.

Definition waiting (l : list SupervisorStep) : Prop := Forall idle l.

(** The status [reason] comes from the wait status [st]. *)
Definition says (st : CaptureSpawn.WaitStatus) (reason : TerminationReason) : Prop :=
  ∃ t, termination_from_wait_status st t = Some reason.

(** The group was signalled, or is gone. *)
Definition delivered (k : option Z) : Prop := k = None ∨ k = Some CaptureSpawn.ESRCH.

(** A reap, with SIGKILL already sent or not, and the status it found. *)
Inductive reap_trace : bool → list SupervisorStep → option TerminationReason → Prop :=
| reap_found sent l st reason :
    waiting l → says st reason → reap_trace sent (l ++ [ChildWaited (Ok st)]) (Some reason)
| reap_wait_lost sent l errno :
    waiting l → errno ≠ CaptureSpawn.EINTR → reap_trace sent (l ++ [ChildWaited (Err errno)]) None
| reap_killed_first l k l' o :
    waiting l → delivered k → reap_trace true l' o → reap_trace false (l ++ SentToGroup SIGKILL k :: l') o
| reap_kill_failed l errno :
    waiting l → errno ≠ CaptureSpawn.ESRCH → reap_trace false (l ++ [SentToGroup SIGKILL (Some errno)]) None
| reap_outlived l : waiting l → l ≠ [] → reap_trace true l None.

Inductive terminate_trace (signal : Z) : list SupervisorStep → option TerminationReason → Prop :=
| terminate_sent k l o : delivered k → reap_trace false l o → terminate_trace signal (SentToGroup signal k :: l) o
| terminate_refused errno :
    errno ≠ CaptureSpawn.ESRCH → terminate_trace signal [SentToGroup signal (Some errno)] None.

(** The drop of a group that is still live, or was reaped. *)
Inductive drop_trace : bool → list SupervisorStep → Prop :=
| dropped_reaped : drop_trace true []
| dropped_live l o : terminate_trace SIGTERM l o → drop_trace false (l ++ [GuardDisarmed]).

Definition reason_of {A : Type} (r : result string A) : option A := match r with Ok a => Some a | Err _ => None end.

(** The race for the task port. *)
Definition acquire_trace (l : list SupervisorStep) (r : result string TaskAcquisition) : Prop :=
  match r with
  | Ok (Acquired _) => waiting l
  | Ok (AcquisitionChildTerminated reason) => ∃ l' st, l = l' ++ [ChildWaited (Ok st)] ∧ waiting l' ∧ says st reason
  | Err _ => waiting l ∨ ∃ l' errno, l = l' ++ [ChildWaited (Err errno)] ∧ waiting l' ∧ errno ≠ CaptureSpawn.EINTR
  end.

(** A group that is owned: live with its guard armed, or reaped with its guard
    disarmed. *)
Definition owned (g : ChildProcessGroup) : Prop := armed g = negb (reaped g).

(** What marking the group as reaped adds. *)
Definition marks (g : ChildProcessGroup) : list SupervisorStep := if reaped g then [] else [GuardDisarmed].

(** An operation that may reap: its steps, and the group after it. *)
Definition reaping (P : list SupervisorStep → option TerminationReason → Prop) (g : ChildProcessGroup)
    (l : list SupervisorStep) (gr : ChildProcessGroup * result string TerminationReason) : Prop :=
  owned gr.1 ∧
  match gr.2 with
  | Ok reason => reaped gr.1 = true ∧ ∃ l', l = l' ++ marks g ∧ P l' (Some reason)
  | Err _ => gr.1 = g ∧ P l None
  end.

Section Child.
Context {E : Type} {clock : Clock E} {ops : ProcessOps E}.
#[local] Notation sup := (fueled E SupervisorStep).

(** ** Steps of the child's operations *)

Lemma ends_wait {B : Type} (Q : list SupervisorStep → B → Prop) pid
    (f : result Z CaptureSpawn.WaitStatus → sup B) :
  (∀ r, ends (λ l b, Q (ChildWaited r :: l) b) (f r)) → ends Q (wait_child pid ≫= f).
Proof.
  intros Hf. unfold wait_child. apply (ends_bind (λ l r, l = [ChildWaited r])).
  - apply ends_quiet; [apply quiet_ask|]. intros r. by apply ends_step, ends_ret.
  - intros l r ->. apply Hf.
Qed.

Lemma ends_observed {B : Type} (Q : list SupervisorStep → B → Prop) st started
    (f : option TerminationReason → sup B) :
  (∀ t, ends Q (f (termination_from_wait_status st t))) → ends Q (observed st started ≫= f).
Proof.
  intros Hf. unfold observed, now. apply (ends_bind (λ l r, l = [] ∧ ∃ t, r = termination_from_wait_status st t)).
  - apply ends_quiet; [apply quiet_ask|]. intros t. apply ends_ret. eauto.
  - intros l r [-> [t ->]]. apply Hf.
Qed.

(** A status is terminal at every age, or at none. *)
Lemma terminal_ageless st t t' : termination_from_wait_status st t = None → termination_from_wait_status st t' = None.
Proof. by destruct st. Qed.

Definition once_polled (l : list SupervisorStep) (r : result string ChildPoll) : Prop :=
  match r with
  | Ok (PollTerminated reason) => ∃ st, l = [ChildWaited (Ok st)] ∧ says st reason
  | Ok _ => ∃ s, l = [s] ∧ idle s
  | Err _ => ∃ errno, l = [ChildWaited (Err errno)] ∧ errno ≠ CaptureSpawn.EINTR
  end.

Lemma poll_once_ends pid started : ends once_polled (poll_child_after_crash_once pid started).
Proof.
  unfold poll_child_after_crash_once. apply ends_wait. intros [st|errno].
  - apply ends_observed. intros t. apply ends_ret. destruct (termination_from_wait_status st t) eqn:Ht; simpl.
    + exists st. split; [done|by exists t].
    + eexists. split; [done|]. right. exists st. split; [done|]. intros t'. by eapply terminal_ageless.
  - case_decide; apply ends_ret; simpl; [|by exists errno]. subst. eexists. split; [done|by left].
Qed.

(** Polling until a deadline: what [poll] says last, after idle polls. *)
Definition polled_until (l : list SupervisorStep) (r : result string (option TerminationReason)) : Prop :=
  match r with
  | Ok (Some reason) => ∃ l' st, l = l' ++ [ChildWaited (Ok st)] ∧ waiting l' ∧ says st reason
  | Ok None => waiting l ∧ l ≠ []
  | Err _ => ∃ l' errno, l = l' ++ [ChildWaited (Err errno)] ∧ waiting l' ∧ errno ≠ CaptureSpawn.EINTR
  end.

Lemma polled_until_cons s l r : idle s → polled_until l r → polled_until (s :: l) r.
Proof.
  intros Hs. destruct r as [[reason|]|]; simpl.
  - intros (l' & st & -> & Hl & Hr). exists (s :: l'), st. split; [done|]. split; [by constructor|done].
  - intros [Hl _]. split; [by constructor|done].
  - intros (l' & errno & -> & Hl & Hr). exists (s :: l'), errno. split; [done|]. split; [by constructor|done].
Qed.

Lemma poll_until_deadline_ends fuel poll deadline :
  ends once_polled poll → ends polled_until (poll_until_deadline fuel poll deadline).
Proof.
  intros Hp. induction fuel as [|fuel IH]; cbn [poll_until_deadline]; [apply ends_starved|].
  eapply ends_bind; [exact Hp|]. intros l [[]|error] Hl; simpl in Hl.
  3: { destruct Hl as (st & -> & Hr). apply ends_ret. rewrite app_nil_r. exists [], st. split; [done|]. by split; [constructor|]. }
  3: { destruct Hl as (errno & -> & He). apply ends_ret. rewrite app_nil_r. exists [], errno. split; [done|]. by split; [constructor|]. }
  all: destruct Hl as (s & -> & Hs); apply ends_quiet; [apply quiet_ask|]; intros t; case_decide;
    [apply ends_ret; simpl; split; [by constructor; [|constructor]|done]|].
  all: apply ends_quiet; [apply quiet_ask|]; intros [];
    eapply ends_impl; [exact IH|]; intros l' r Hr; by apply polled_until_cons.
Qed.

Lemma reap_killed_ends fuel deadlines poll :
  ends once_polled poll → ends (λ l r, reap_trace true l (reason_of r)) (reap_killed fuel deadlines poll).
Proof.
  intros Hp. unfold reap_killed. apply ends_quiet; [apply quiet_ask|]. intros t.
  eapply ends_bind; [by apply poll_until_deadline_ends|].
  intros l [[reason|]|error] Hl; apply ends_ret; rewrite app_nil_r; simpl in Hl |- *.
  - destruct Hl as (l' & st & -> & Hw & Hr). by econstructor.
  - destruct Hl. by constructor.
  - destruct Hl as (l' & errno & -> & Hw & He). by constructor.
Qed.

(** A signal that was delivered, or refused. *)
Definition signalled (signal : Z) (l : list SupervisorStep) (r : result string unit) : Prop :=
  ∃ k, l = [SentToGroup signal k] ∧ if is_ok r then delivered k else ∃ errno, k = Some errno ∧ errno ≠ CaptureSpawn.ESRCH.

Lemma group_signal_ends g signal : ends (signalled signal) (group_signal g signal).
Proof.
  unfold group_signal. apply ends_quiet; [apply quiet_ask|]. intros k. apply ends_step, ends_ret. exists k. split; [done|].
  destruct k as [errno|]; simpl; [|by left]. case_decide; simpl; [by right; subst|by exists errno].
Qed.

Lemma reap_ends fuel sent deadlines poll send_sigkill :
  ends once_polled poll → ends (signalled SIGKILL) send_sigkill →
  ends (λ l r, reap_trace sent l (reason_of r)) (reap_after_detected_crash_with fuel sent deadlines poll send_sigkill).
Proof.
  intros Hp Hk. unfold reap_after_detected_crash_with. destruct sent; [by apply reap_killed_ends|].
  apply ends_quiet; [apply quiet_ask|]. intros t. eapply ends_bind; [by apply poll_until_deadline_ends|].
  intros l [[reason|]|error] Hl; simpl in Hl.
  - destruct Hl as (l' & st & -> & Hw & Hr). apply ends_ret. rewrite app_nil_r. by econstructor.
  - destruct Hl as [Hw _]. eapply ends_bind; [exact Hk|]. intros l' [[]|error] (k & -> & Hd); simpl in Hd.
    + eapply ends_impl; [by apply reap_killed_ends|]. intros l'' r Hr. by apply reap_killed_first.
    + destruct Hd as (errno & -> & He). apply ends_ret. by apply reap_kill_failed.
  - destruct Hl as (l' & errno & -> & Hw & He). apply ends_ret. rewrite app_nil_r. by constructor.
Qed.

Lemma terminate_ends fuel deadlines signal send poll send_sigkill :
  ends once_polled poll → ends (signalled signal) send → ends (signalled SIGKILL) send_sigkill →
  ends (λ l r, terminate_trace signal l (reason_of r))
    (terminate_unmonitorable_child_with fuel deadlines send poll send_sigkill).
Proof.
  intros Hp Hs Hk. unfold terminate_unmonitorable_child_with. eapply ends_bind; [exact Hs|].
  intros l [[]|error] (k & -> & Hd); simpl in Hd.
  - eapply ends_impl; [by apply reap_ends|]. intros l' r Hr. by constructor.
  - destruct Hd as (errno & -> & He). apply ends_ret. by constructor.
Qed.

(** ** The group *)

Lemma disarm_ends g : owned g → ends (λ l g', l = marks g ∧ g' = mkGroup (child_pid g) (started_at g) (reaped g) false) (disarm g).
Proof.
  intros Hg. unfold disarm, marks, owned in *. destruct g as [p s r a]; simpl in *. subst. destruct r; simpl.
  - by apply ends_ret.
  - apply ends_quiet; [apply quiet_ask|]. intros []. by apply ends_step, ends_ret.
Qed.

Lemma mark_reaped_ends g : owned g → ends (λ l g', l = marks g ∧ owned g' ∧ reaped g' = true ∧
    child_pid g' = child_pid g ∧ started_at g' = started_at g) (mark_reaped g).
Proof.
  intros Hg. unfold mark_reaped, disarm, marks, owned in *. destruct g as [p s r a]; simpl in *. subst. destruct r; simpl.
  - by apply ends_ret.
  - apply ends_quiet; [apply quiet_ask|]. intros []. by apply ends_step, ends_ret.
Qed.

Lemma reaped_if_ok_ends (P : list SupervisorStep → option TerminationReason → Prop) g l r :
  owned g → P l (reason_of r) → ends (λ l' gr, reaping P g (l ++ l') gr) (reaped_if_ok g r).
Proof.
  intros Hg Hp. destruct r as [reason|error]; cbn [reaped_if_ok].
  - eapply ends_bind; [by apply mark_reaped_ends|]. intros l' g' (-> & Ho & Hr & _). apply ends_ret.
    rewrite app_nil_r. split; [done|]. split; [done|]. by exists l.
  - apply ends_ret. rewrite app_nil_r. by split.
Qed.

Lemma reap_after_crash_ends fuel g sent :
  owned g → ends (reaping (reap_trace sent) g) (reap_after_crash fuel g sent).
Proof.
  intros Hg. unfold reap_after_crash. eapply ends_bind; [apply reap_ends; [apply poll_once_ends|apply group_signal_ends]|].
  intros l r Hr. by apply reaped_if_ok_ends.
Qed.

Lemma terminate_and_reap_ends fuel g signal :
  owned g → ends (reaping (terminate_trace signal) g) (terminate_and_reap fuel g signal).
Proof.
  intros Hg. unfold terminate_and_reap.
  eapply ends_bind; [apply terminate_ends; [apply poll_once_ends|apply group_signal_ends|apply group_signal_ends]|].
  intros l r Hr. by apply reaped_if_ok_ends.
Qed.

Lemma drop_group_ends fuel g : owned g → ends (λ l _, drop_trace (reaped g) l) (drop_group fuel g).
Proof.
  intros Hg. unfold drop_group. destruct (reaped g) eqn:Hr.
  - eapply ends_bind; [apply (ends_ret (λ l g', l = [] ∧ g' = g)); done|]. intros l g' [-> ->].
    eapply ends_bind; [by apply disarm_ends|]. intros l g' [-> _]. apply ends_ret. unfold marks. rewrite Hr. constructor.
  - apply (ends_bind (λ l g', ∃ r, reaping (terminate_trace SIGTERM) g l (g', r))).
    { eapply ends_bind; [by apply terminate_and_reap_ends|]. intros l [g' r] H. apply ends_ret. rewrite app_nil_r. by exists r. }
    intros l g' [r [Ho H]]; simpl in *. eapply ends_bind; [by apply disarm_ends|]. intros l' g'' [-> _]. apply ends_ret.
    rewrite app_nil_r. destruct r as [reason|error].
    + destruct H as (Hr' & l' & -> & Ht). unfold marks. rewrite Hr', Hr, app_nil_r. by econstructor.
    + destruct H as [-> Ht]. unfold marks. rewrite Hr. by econstructor.
Qed.

(** ** The task port *)

Lemma poll_child_termination_ends retries pid started :
  ends (λ l r, match r with
               | Ok None => waiting l
               | Ok (Some reason) => ∃ l' st, l = l' ++ [ChildWaited (Ok st)] ∧ waiting l' ∧ says st reason
               | Err _ => ∃ l' errno, l = l' ++ [ChildWaited (Err errno)] ∧ waiting l' ∧ errno ≠ CaptureSpawn.EINTR
               end) (poll_child_termination retries pid started).
Proof.
  induction retries as [|retries IH]; cbn [poll_child_termination]; [apply ends_starved|].
  apply ends_wait. intros [st|errno].
  - apply ends_observed. intros t. apply ends_ret. destruct (termination_from_wait_status st t) eqn:Ht.
    + exists [], st. split; [done|]. split; [constructor|by exists t].
    + constructor; [|constructor]. right. exists st. split; [done|]. intros t'. by eapply terminal_ageless.
  - case_decide; [|case_decide; apply ends_ret; exists [], errno; (split; [done|]); by split; [constructor|]].
    eapply ends_impl; [exact IH|]. subst. intros l [[reason|]|] Hl.
    + destruct Hl as (l' & st & -> & Hw & Hr). exists (ChildWaited (Err CaptureSpawn.EINTR) :: l'), st.
      split; [done|]. split; [constructor; [by left|done]|done].
    + constructor; [by left|done].
    + destruct Hl as (l' & n & -> & Hw & Hr). exists (ChildWaited (Err CaptureSpawn.EINTR) :: l'), n.
      split; [done|]. split; [constructor; [by left|done]|done].
Qed.

Lemma acquire_trace_app l1 l2 r : waiting l1 → acquire_trace l2 r → acquire_trace (l1 ++ l2) r.
Proof.
  intros Hw. destruct r as [[task|reason]|]; simpl.
  - intros. by apply Forall_app.
  - intros (l' & st & -> & Hl & Hr). exists (l1 ++ l'), st. rewrite app_assoc. split; [done|]. split; [by apply Forall_app|done].
  - intros [Hl|(l' & n & -> & Hl & Hr)]; [left; by apply Forall_app|right].
    exists (l1 ++ l'), n. rewrite app_assoc. split; [done|]. split; [by apply Forall_app|done].
Qed.

Lemma task_lookup_quiet pid timeout : quiet (task_for_pid_with_timeout pid timeout : sup _).
Proof. unfold task_for_pid_with_timeout. case_decide; auto with cm. apply fueled_quiet_bind; auto with cm. intros []; auto with cm. Qed.

Lemma acquire_ends fuel retries pid started :
  ends acquire_trace (acquire_task_port_or_termination fuel retries pid started).
Proof.
  unfold acquire_task_port_or_termination, acquire_task_port_or_termination_with.
  apply ends_quiet; [apply quiet_ask|]. intros t0. generalize (t0 + TASK_ACQUISITION_DEADLINE). intros deadline. clear t0.
  induction fuel as [|fuel IH]; cbn [acquire_loop]; [apply ends_starved|].
  apply ends_quiet; [apply quiet_ask|]. intros t. apply ends_quiet; [apply task_lookup_quiet|].
  intros [task|last_err]; [by apply ends_ret; constructor|].
  eapply ends_bind; [apply poll_child_termination_ends|]. intros l [[reason|]|error] Hl.
  - apply ends_ret. by rewrite app_nil_r.
  - apply ends_quiet; [apply quiet_ask|]. intros current. case_decide.
    + apply ends_ret. rewrite app_nil_r. by left.
    + apply ends_quiet; [apply quiet_ask|]. intros []. eapply ends_impl; [exact IH|].
      intros l' r. by apply acquire_trace_app.
  - apply ends_ret. rewrite app_nil_r. by right.
Qed.

End Child.

(** ** The grammar of a run *)

(** What the outcome of the loop asks of the group first: the steps, the outcome
    and whether the group is reaped. *)
Inductive settle_trace : EventLoop.MonitorOutcome → list SupervisorStep → EventLoop.MonitorOutcome → bool → Prop :=
| settle_terminated reason :
    settle_trace (EventLoop.OutcomeChildTerminated reason) [GuardDisarmed] (EventLoop.OutcomeChildTerminated reason) true
| settle_shut_down signal t l reason :
    terminate_trace signal l (Some reason) →
    settle_trace (EventLoop.ShutdownRequested signal t) (l ++ [GuardDisarmed])
      (EventLoop.ShutdownRequested signal (Some reason)) true
| settle_shutdown_failed signal t l error :
    terminate_trace signal l None →
    settle_trace (EventLoop.ShutdownRequested signal t) l (EventLoop.OutcomeMonitorFailure error) false
| settle_unknown_signal signal t error :
    settle_trace (EventLoop.ShutdownRequested signal t) [] (EventLoop.OutcomeMonitorFailure error) false
| settle_nothing o :
    (∀ reason, o ≠ EventLoop.OutcomeChildTerminated reason) → (∀ signal t, o ≠ EventLoop.ShutdownRequested signal t) →
    settle_trace o [] o false.

(** The supervisor's own SIGKILL, if it is required. *)
Inductive escalate_trace : list SupervisorStep → bool → Prop :=
| not_escalated : escalate_trace [] false
| escalated k : delivered k → escalate_trace [SentToGroup SIGKILL k] true
| escalation_refused errno : errno ≠ CaptureSpawn.ESRCH → escalate_trace [SentToGroup SIGKILL (Some errno)] false.

(** A reap of a group that may be reaped already, and the state it leaves. *)
Inductive contain_trace (sent before : bool) : list SupervisorStep → option TerminationReason → bool → Prop :=
| contain_reaped l reason :
    reap_trace sent l (Some reason) →
    contain_trace sent before (l ++ if before then [] else [GuardDisarmed]) (Some reason) true
| contain_failed l : reap_trace sent l None → contain_trace sent before l None before.

Definition completion_trace {F : Type} (f : option F) (reason : option TerminationReason) : list SupervisorStep :=
  match f with Some _ => [FinalizationCompleted reason] | None => [] end.

Inductive conclude_trace {F : Type} (result : EventLoop.EventLoopResult F) : list SupervisorStep → Z → Prop :=
| concluded_quietly settle o reaped dropped :
    EventLoop.crash_cleanup_required result = false → EventLoop.listener_loss_containment_required result = false →
    settle_trace (EventLoop.outcome result) settle o reaped → drop_trace reaped dropped →
    conclude_trace result (settle ++ PortDestroyed :: dropped) (EventLoop.exit_code o)
| concluded_contained settle o reaped kill sent contained reason reaped' path dropped :
    settle_trace (EventLoop.outcome result) settle o reaped → escalate_trace kill sent →
    contain_trace sent reaped contained reason reaped' → drop_trace reaped' dropped →
    conclude_trace result
      (settle ++ PortDestroyed :: kill ++ contained ++ completion_trace (EventLoop.crash_finalization result) reason ++ dropped)
      (EventLoop.exit_code (EventLoop.with_crash_result o reason path)).

(** A termination report and nothing else. *)
Definition reported (ls : list EventLoop.LoopStep) : Prop := Forall (λ s, ∃ t, s = EventLoop.TerminationFinalized t) ls.

(** A run of the event loop that ended with a result. *)
Definition loop_ran {F : Type} (ls : list EventLoop.LoopStep) (result : EventLoop.EventLoopResult F) : Prop :=
  ∃ enabled pid name shm anr, EventLoopSpec.ran enabled pid name shm anr ls (EventLoop.Return result).

(** The steps of the whole run with its exit code, for fatal tickets [F]. *)
Inductive run_trace (F : Type) : list SupervisorStep → Z → Prop :=
| run_refused : run_trace F [] EventLoop.EXIT_MONITOR_INTERNAL
| run_unprepared : run_trace F [PortDestroyed] EventLoop.EXIT_MONITOR_INTERNAL
| run_unowned pid k single l o :
    (k = None ∧ single = []) ∨ (is_Some k ∧ ∃ r, single = [SentToPid SIGKILL r]) → reap_trace true l o →
    run_trace F (ChildSpawned pid :: SentToGroup SIGKILL k :: single ++ l ++ [PortDestroyed]) EventLoop.EXIT_MONITOR_INTERNAL
| run_exited_early pid l reason ls :
    acquire_trace l (Ok (AcquisitionChildTerminated reason)) → reported ls →
    run_trace F (ChildSpawned pid :: GuardArmed :: l ++ GuardDisarmed :: (InLoop <$> ls) ++ [PortDestroyed])
      (EventLoop.exit_code (EventLoop.OutcomeChildTerminated reason))
| run_uninspectable pid l error l' reason ls :
    acquire_trace l (Err error) → terminate_trace SIGTERM l' (Some reason) → reported ls →
    run_trace F (ChildSpawned pid :: GuardArmed :: l ++ l' ++ GuardDisarmed :: (InLoop <$> ls) ++ [PortDestroyed])
      EventLoop.EXIT_MONITOR_INTERNAL
| run_uncontrolled pid l error l' dropped :
    acquire_trace l (Err error) → terminate_trace SIGTERM l' None → drop_trace false dropped →
    run_trace F (ChildSpawned pid :: GuardArmed :: l ++ l' ++ dropped ++ [PortDestroyed]) EventLoop.EXIT_MONITOR_INTERNAL
| run_unwatched pid l dropped :
    waiting l → drop_trace false dropped →
    run_trace F (ChildSpawned pid :: GuardArmed :: l ++ dropped ++ [PortDestroyed]) EventLoop.EXIT_MONITOR_INTERNAL
| run_monitored pid l ls (result : EventLoop.EventLoopResult F) l' code :
    waiting l → loop_ran ls result → conclude_trace result l' code →
    run_trace F (ChildSpawned pid :: GuardArmed :: l ++ (InLoop <$> ls) ++ l') code.

Section Run.
Context {E R C F : Type} {clock : Clock E} {pops : ProcessOps E} {sops : StartOps E} {lops : EventLoop.LoopOps E R C F}.
Context (fuel retries : nat).
#[local] Notation sup := (fueled E SupervisorStep).

Lemma in_loop_ends {A : Type} (P : list EventLoop.LoopStep → A → Prop) (m : traced E EventLoop.LoopStep A) :
  emits P m → ends (λ l a, ∃ ls, l = InLoop <$> ls ∧ P ls a) (in_loop m : sup A).
Proof.
  intros Hm w. destruct (Hm (mkWorld (env w) [])) as (ls & Hl & HP). exists (InLoop <$> ls). unfold in_loop.
  destruct (m (mkWorld (env w) [])) as [a w']. simpl in *. rewrite Hl. split; [done|]. intros ? [= <-]. by exists ls.
Qed.

Lemma destroy_port_ends (live : bool) : ends (λ (l : list SupervisorStep) _, l = if live then [PortDestroyed] else []) (destroy_port live : sup unit).
Proof.
  unfold destroy_port. destruct live; [|by apply ends_ret]. apply ends_quiet; [apply quiet_ask|]. intros [].
  by apply ends_of_traced, emit_emits.
Qed.

(** A bind whose first part emits one given list. *)
Lemma ends_then {A B : Type} (l0 : list SupervisorStep) (Q : list SupervisorStep → B → Prop) (m : sup A) (f : A → sup B) :
  ends (λ l _, l = l0) m → (∀ a, ends (λ l b, Q (l0 ++ l) b) (f a)) → ends Q (m ≫= f).
Proof. intros Hm Hf. eapply ends_bind; [exact Hm|]. intros l a ->. apply Hf. Qed.

Lemma settle_shutdown_ends g o :
  owned g → reaped g = false →
  ends (λ l go, owned go.1 ∧ settle_trace o l go.2 (reaped go.1)) (settle_shutdown fuel g o).
Proof.
  intros Hg Hr. assert (marks g = [GuardDisarmed]) as Hm by (unfold marks; by rewrite Hr).
  destruct o as [reason|termination path|signal termination|message]; cbn [settle_shutdown].
  - eapply ends_bind; [by apply mark_reaped_ends|]. intros l g' (-> & Ho & Hr' & _). apply ends_ret.
    rewrite Hm. simpl. rewrite Hr'. split; [done|constructor].
  - apply ends_ret. simpl. rewrite Hr. split; [done|by constructor].
  - destruct (known_signal signal).
    + eapply ends_bind; [by apply terminate_and_reap_ends|]. intros l [g' r] [Ho H]. simpl in *. apply ends_ret.
      rewrite app_nil_r. split; [done|]. simpl. destruct r as [reason|error].
      * destruct H as (Hr' & l' & -> & Ht). rewrite Hm, Hr'. by constructor.
      * destruct H as [-> Ht]. rewrite Hr. by constructor.
    + apply ends_ret. simpl. rewrite Hr. split; [done|apply settle_unknown_signal].
  - apply ends_ret. simpl. rewrite Hr. split; [done|by constructor].
Qed.

Lemma escalate_ends g required : ends (λ l sent, escalate_trace l sent) (escalate g required).
Proof.
  destruct required; cbn [escalate]; [|apply ends_ret; constructor].
  eapply ends_bind; [apply group_signal_ends|]. intros l [[]|error] (k & -> & Hk); apply ends_ret; simpl in Hk |- *.
  - by constructor.
  - destruct Hk as (errno & -> & He). by constructor.
Qed.

Lemma complete_fatal_ends (f : option F) reason : ends (λ l _, l = completion_trace f reason) (complete_fatal f reason).
Proof.
  destruct f; cbn [complete_fatal]; [|by apply ends_ret]. apply ends_quiet; [apply quiet_ask|]. intros d.
  by apply ends_step, ends_ret.
Qed.

Lemma contain_and_finalize_ends g sent (f : option F) o :
  owned g →
  ends (λ l go, ∃ contained reason path, l = contained ++ completion_trace f reason ∧
          contain_trace sent (reaped g) contained reason (reaped go.1) ∧ owned go.1 ∧
          go.2 = EventLoop.with_crash_result o reason path)
    (contain_and_finalize fuel g sent f o).
Proof.
  intros Hg. unfold contain_and_finalize. eapply ends_bind; [by apply reap_after_crash_ends|].
  intros l [g' r] [Ho H]. simpl in *. eapply ends_bind; [apply complete_fatal_ends|]. intros l' path ->.
  apply ends_ret. rewrite app_nil_r. eexists l, _, path. split; [done|]. split; [|done].
  destruct r as [reason|error].
  - destruct H as (Hr' & l' & -> & Hr). simpl. rewrite Hr'. unfold marks. by constructor.
  - destruct H as [-> Hr]. by constructor.
Qed.

(** A failure that requires escalation prevents monitoring. *)
Lemma escalation_contains failures :
  existsb TaskControl.requires_escalation failures = true → existsb TaskControl.prevents_continued_monitoring failures = true.
Proof.
  rewrite !existsb_exists. intros (f & Hf & He). exists f. split; [done|].
  unfold TaskControl.requires_escalation in He. apply bool_decide_eq_true in He.
  unfold TaskControl.prevents_continued_monitoring. by rewrite He.
Qed.

Lemma conclude_ends g (result : EventLoop.EventLoopResult F) :
  owned g → reaped g = false → ends (conclude_trace result) (conclude fuel g result).
Proof.
  intros Hg Hr. unfold conclude. eapply ends_bind; [by apply settle_shutdown_ends|].
  intros settle [g1 o] [Ho Hs]. simpl in Ho, Hs.
  apply ends_quiet; [apply quiet_look|]. intros failures. simpl.
  pose proof (escalation_contains failures) as Hesc.
  destruct (EventLoop.crash_cleanup_required result || existsb TaskControl.prevents_continued_monitoring failures ||
            EventLoop.listener_loss_containment_required result) eqn:Hmust.
  - apply (ends_then [PortDestroyed]).
    { cbv iota. eapply (ends_bind _ _ (destroy_port true)); [apply destroy_port_ends|]. intros l [] ->.
      destruct (EventLoop.listener_loss_containment_required result); [by apply ends_ret|].
      apply quiet_ends; [|done]. apply quiet_ask. }
    intros _. eapply ends_bind; [apply escalate_ends|]. intros kill sent Hk.
    eapply ends_bind; [by apply contain_and_finalize_ends|].
    intros l [g2 o2] (contained & reason & path & -> & Hc & Ho2 & Ho'). simpl in Hc, Ho2, Ho'. subst o2.
    apply (ends_then []); [apply destroy_port_ends|]. intros _.
    eapply ends_bind; [by apply drop_group_ends|]. intros dropped [] Hd. apply ends_ret. rewrite app_nil_r.
    simpl. rewrite <- !app_assoc. by eapply concluded_contained.
  - apply orb_false_iff in Hmust as [[Hc Hf]%orb_false_iff Hl].
    assert (existsb TaskControl.requires_escalation failures = false) as ->
      by (destruct (existsb TaskControl.requires_escalation failures); [by rewrite Hesc in Hf|done]).
    rewrite Hl. apply (ends_then []); [by apply ends_ret|]. intros _.
    apply (ends_then []); [by apply ends_ret|]. intros sent.
    apply (ends_bind (λ l go, l = [] ∧ go = (g1, o))); [by apply ends_ret|]. intros ? ? [-> ->].
    eapply ends_bind; [apply destroy_port_ends|]. intros ? [] ->.
    eapply ends_bind; [by apply drop_group_ends|]. intros dropped [] Hd. apply ends_ret. rewrite app_nil_r. simpl.
    by eapply concluded_quietly.
Qed.

Lemma report_termination_ends (p : Prepared) pid app_path reason :
  ends (λ l o, (∃ ls, l = InLoop <$> ls ∧ reported ls) ∧ o = EventLoop.OutcomeChildTerminated reason)
    (report_termination p pid app_path reason : sup _).
Proof.
  unfold report_termination. eapply ends_impl; [apply in_loop_ends, EventLoopSpec.handle_child_termination_emits|].
  intros l o (ls & -> & -> & Hls). split; [|done]. eexists. split; [done|].
  destruct ls as [|s ls]; [constructor|]. destruct Hls as (-> & t & id & _ & ->). repeat constructor. eauto.
Qed.

Lemma leave_ends g code :
  owned g → ends (λ l c, c = code ∧ ∃ dropped, l = dropped ++ [PortDestroyed] ∧ drop_trace (reaped g) dropped) (leave fuel g code).
Proof.
  intros Hg. unfold leave. eapply ends_bind; [by apply drop_group_ends|]. intros dropped [] Hd.
  eapply ends_bind; [apply destroy_port_ends|]. intros l [] ->. apply ends_ret. rewrite app_nil_r. eauto.
Qed.

Lemma quiet_anr_config (p : Prepared) : quiet (anr_config_for p : sup _).
Proof. unfold anr_config_for. case_match; auto with cm. Qed.

Lemma monitor_ends (p : Prepared) g app_path task :
  owned g → reaped g = false →
  ends (λ l code, (code = EventLoop.EXIT_MONITOR_INTERNAL ∧ ∃ dropped, l = dropped ++ [PortDestroyed] ∧ drop_trace false dropped) ∨
          ∃ ls (result : EventLoop.EventLoopResult F) l', l = (InLoop <$> ls) ++ l' ∧
            loop_ran ls result ∧ conclude_trace result l' code)
    (monitor fuel p g app_path task).
Proof.
  intros Hg Hr. unfold monitor.
  assert (ends (λ l c, c = EXIT_MONITOR_INTERNAL ∧ ∃ dropped, l = dropped ++ [PortDestroyed] ∧ drop_trace false dropped)
            (leave fuel g EXIT_MONITOR_INTERNAL)) as Hleave by (rewrite <- Hr; by apply leave_ends).
  apply ends_quiet; [apply quiet_ask|]. intros _. apply ends_quiet; [apply quiet_anr_config|].
  intros [anr|error]; [|by eapply ends_impl; [exact Hleave|]; intros l c H; left].
  apply ends_quiet; [apply quiet_ask|]. intros [[]|error]; [|by eapply ends_impl; [exact Hleave|]; intros l c H; left].
  eapply ends_bind; [apply in_loop_ends, EventLoopSpec.event_loop_emits|]. intros ? [st|result] (ls & -> & Hls); [apply ends_starved|].
  eapply ends_impl; [by apply conclude_ends|]. intros l' code Hc. right. exists ls, result, l'. split; [done|]. split; [by do 5 eexists|done].
Qed.

Lemma supervise_ends (p : Prepared) g app_path :
  owned g → reaped g = false →
  ends (λ l code, run_trace F (ChildSpawned (child_pid g) :: GuardArmed :: l) code) (supervise fuel retries p g app_path).
Proof.
  intros Hg Hr. unfold supervise. eapply ends_bind; [apply acquire_ends|].
  assert (marks g = [GuardDisarmed]) as Hm by (unfold marks; by rewrite Hr).
  intros l [[task|reason]|error] Hl.
  - eapply ends_impl; [by apply monitor_ends|].
    intros l' code [(-> & dropped & -> & Hd)|(ls & result & l'' & -> & Hls & Hc)].
    + by apply run_unwatched.
    + by eapply run_monitored.
  - eapply ends_bind; [by apply mark_reaped_ends|]. intros l' g' (-> & Ho & Hr' & _). rewrite Hm.
    eapply ends_bind; [apply report_termination_ends|]. intros l' o [(ls & -> & Hls) ->].
    eapply ends_impl; [by apply leave_ends|]. rewrite Hr'. intros l' code (-> & dropped & -> & Hd). inversion Hd; subst.
    by apply run_exited_early.
  - eapply ends_bind; [by apply terminate_and_reap_ends|]. intros l' [g' r] [Ho H]. simpl in Ho, H.
    destruct r as [reason|error'].
    + destruct H as (Hr' & l'' & -> & Ht). rewrite Hm.
      apply (ends_bind (λ l _, ∃ ls, l = InLoop <$> ls ∧ reported ls)).
      { eapply ends_bind; [apply report_termination_ends|]. intros l0 o [Hls _]. apply ends_ret. by rewrite app_nil_r. }
      intros l0 [] (ls & -> & Hls). eapply ends_impl; [by apply leave_ends|]. rewrite Hr'.
      intros l0 code (-> & dropped & -> & Hd). inversion Hd; subst. rewrite <- (app_assoc l''). by eapply run_uninspectable.
    + destruct H as [-> Ht]. apply (ends_then []); [by apply ends_ret|]. intros [].
      eapply ends_impl; [by apply leave_ends|]. rewrite Hr. intros l0 code (-> & dropped & -> & Hd).
      by eapply run_uncontrolled.
Qed.

Lemma kill_unowned_ends pid started :
  ends (λ l _, ∃ k single l' o, l = SentToGroup SIGKILL k :: single ++ l' ∧
          ((k = None ∧ single = []) ∨ (is_Some k ∧ ∃ r, single = [SentToPid SIGKILL r])) ∧ reap_trace true l' o)
    (kill_unowned fuel pid started : sup unit).
Proof.
  unfold kill_unowned. apply ends_quiet; [apply quiet_ask|]. intros k. apply ends_step.
  apply (ends_bind (λ l _, (k = None ∧ l = []) ∨ (is_Some k ∧ ∃ r, l = [SentToPid SIGKILL r]))).
  - destruct k as [errno|]; [|apply ends_ret; by left]. apply ends_quiet; [apply quiet_ask|]. intros r.
    apply ends_of_traced, emit_emits. right. eauto.
  - intros single [] Hs. eapply ends_bind.
    { apply (reap_killed_ends fuel (mkDeadlines 0 UNMONITORED_REAP_AFTER_KILL_DEADLINE)
               (poll_child_after_crash_once pid started)), poll_once_ends. }
    intros l r Hr. apply ends_ret. exists k, single, l, (reason_of r). rewrite app_nil_r. done.
Qed.

Lemma spawn_and_supervise_ends (p : Prepared) app_path app_args :
  ends (run_trace F) (spawn_and_supervise fuel retries p app_path app_args).
Proof.
  unfold spawn_and_supervise. apply ends_quiet; [apply quiet_ask|]. intros started.
  apply ends_quiet; [apply quiet_ask|]. intros [pid|error].
  - apply ends_step. unfold group_new.
    apply (ends_bind (λ l r, match r with
                             | Ok g => l = [GuardArmed] ∧ owned g ∧ reaped g = false ∧ child_pid g = pid
                             | Err _ => l = [] end)).
    + apply ends_quiet; [apply quiet_look|]. intros pgid. case_decide; [by apply ends_ret|].
      apply ends_quiet; [apply quiet_ask|]. intros [[]|error]; [|by apply ends_ret]. by apply ends_step, ends_ret.
    + intros l [g|error].
      * intros (-> & Ho & Hr & <-). by apply supervise_ends.
      * intros ->. eapply ends_bind; [apply kill_unowned_ends|]. intros l [] (k & single & l' & o & -> & Hs & Hr).
        eapply ends_bind; [apply destroy_port_ends|]. intros ? [] ->. apply ends_ret. rewrite app_nil_r. simpl.
        rewrite <- app_assoc. by eapply run_unowned.
  - eapply ends_bind; [apply destroy_port_ends|]. intros ? [] ->. apply ends_ret. constructor.
Qed.

Lemma preflight_quiet : quiet (preflight : sup _).
Proof.
  unfold preflight. apply fueled_quiet_bind; [apply quiet_look|]. intros [[]|]; [|apply fueled_quiet_ret].
  apply fueled_quiet_bind; [apply quiet_ask|]. intros [raw|]; [|apply fueled_quiet_ret].
  destruct (validate raw); [|apply fueled_quiet_ret]. apply fueled_quiet_bind; [apply quiet_ask|]. intros []; apply fueled_quiet_ret.
Qed.

Lemma prepare_quiet c app_path app_args : quiet (prepare c app_path app_args : sup _).
Proof.
  unfold prepare, shared_memory_for. apply fueled_quiet_bind.
  - destruct (v_enabled c); [|apply fueled_quiet_ret]. apply fueled_quiet_bind; [apply quiet_ask|]. intros r. apply fueled_quiet_ret.
  - intros shm. destruct (Startup.contains_nul app_path); [apply fueled_quiet_ret|].
    destruct (existsb Startup.contains_nul app_args); [apply fueled_quiet_ret|].
    apply fueled_quiet_bind; [apply quiet_look|]. intros vars.
    destruct (Startup.build_child_environment vars shm); [|apply fueled_quiet_ret].
    apply fueled_quiet_bind; [apply quiet_ask|]. intros []; [|apply fueled_quiet_ret].
    apply fueled_quiet_bind; [apply quiet_ask|]. intros. apply fueled_quiet_ret.
Qed.

Lemma run_monitor_ends app_path app_args : ends (run_trace F) (run_monitor fuel retries app_path app_args).
Proof.
  unfold run_monitor. apply ends_quiet; [apply preflight_quiet|]. intros [c|error]; [|apply ends_ret; constructor].
  apply ends_quiet; [apply quiet_ask|]. intros [[]|error]; [|apply ends_ret; constructor].
  apply ends_quiet; [apply prepare_quiet|]. intros [p|error]; [apply spawn_and_supervise_ends|].
  eapply ends_bind; [apply destroy_port_ends|]. intros ? [] ->. apply ends_ret. constructor.
Qed.

End Run.
End SupervisorSpec.
