(* ===== verification/SupervisorSafety.v ===== *)
(** * No child is abandoned, no fatal report is dropped

    The theorems on whole runs of the supervisor, read off the grammar of
    [SupervisorSpec]. *)

From S2P Require Import Prelude.
From S2P Require Import Traced.
From S2P Require Import Fueled.
From S2P Require Import PipelineTypes.
From S2P Require Import Watchdog.
From S2P Require Import PluginRun.
From S2P Require Import Pipeline.
From S2P Require Import CaptureSpawn.
From S2P Require Import EventLoop.
From S2P Require Import ChildProcess.
From S2P Require Import Supervisor.
From S2P Require Import SupervisorSpec.

Module SupervisorSafety.
Export SupervisorSpec.

(** ** What counts as an end of the child *)

(** Its terminal status was waited for. *)
Definition end_seen (l : list SupervisorStep) : Prop :=
  ∃ st reason, ChildWaited (Ok st) ∈ l ∧ says st reason.

(** It could not be followed to its end: the wait was lost, a signal was refused,
    or SIGKILL was delivered and the end not seen in time. *)
Definition fought (l : list SupervisorStep) : Prop :=
  (∃ errno, errno ≠ CaptureSpawn.EINTR ∧ ChildWaited (Err errno) ∈ l) ∨
  (∃ signal errno, errno ≠ CaptureSpawn.ESRCH ∧ SentToGroup signal (Some errno) ∈ l) ∨
  (∃ k, delivered k ∧ SentToGroup SIGKILL k ∈ l).

(** The event loop, whose source owns the wait meanwhile, was told of it. *)
Definition ended_in_loop (l : list SupervisorStep) : Prop :=
  ∃ until reason, InLoop (EventLoop.Waited until (Some (EventLoop.ChildTerminated reason))) ∈ l.

Definition settled (l : list SupervisorStep) : Prop := end_seen l ∨ fought l ∨ ended_in_loop l.

Lemma end_seen_incl l l' : end_seen l → l ⊆ l' → end_seen l'.
Proof. intros (st & reason & Hin & Hs) H. exists st, reason. auto. Qed.
Lemma fought_incl l l' : fought l → l ⊆ l' → fought l'.
Proof.
  intros Hf Hin. destruct Hf as [(n & Hn & Hw)|[(s & n & Hn & Hw)|(k & Hk & Hw)]]; [left|right; left|right; right]; eauto.
Qed.

(** ** Lists of waits and signals *)

Definition body (s : SupervisorStep) : Prop :=
  match s with ChildWaited _ | SentToGroup _ _ => True | _ => False end.

Lemma waiting_body l : waiting l → Forall body l.
Proof. intros H. eapply Forall_impl; [exact H|]. by intros s [->|(st & -> & _)]. Qed.

Lemma reap_body sent l o : reap_trace sent l o → Forall body l.
Proof.
  induction 1; [..|by apply waiting_body];
    repeat first [apply Forall_app; split | apply Forall_cons; split | apply Forall_nil | by apply waiting_body | done].
Qed.

Lemma terminate_body signal l o : terminate_trace signal l o → Forall body l.
Proof. destruct 1; repeat constructor. by eapply reap_body. Qed.

Lemma acquire_body l r : acquire_trace l r → Forall body l.
Proof.
  destruct r as [[|]|]; simpl.
  - apply waiting_body.
  - intros (l' & st & -> & Hl & _). apply Forall_app. split; [by apply waiting_body|by repeat constructor].
  - intros [Hl|(l' & n & -> & Hl & _)]; [by apply waiting_body|].
    apply Forall_app. split; [by apply waiting_body|by repeat constructor].
Qed.

Lemma escalate_body l sent : escalate_trace l sent → Forall body l.
Proof. by destruct 1; repeat constructor. Qed.

Lemma reap_settled sent l o :
  reap_trace sent l o → match o with Some _ => end_seen l | None => sent = true ∨ fought l end.
Proof.
  induction 1 as [sent l st reason _ Hs|sent l n _ Hn|l k l' o _ Hk _ IH|l n _ Hn|l _ _].
  - exists st, reason. split; [set_solver|done].
  - right. left. exists n. split; [done|set_solver].
  - destruct o as [reason|]; [eapply end_seen_incl; [exact IH|set_solver]|].
    right. right. right. exists k. split; [done|set_solver].
  - right. right. left. exists SIGKILL, n. split; [done|set_solver].
  - by left.
Qed.

Lemma reap_status sent l reason : reap_trace sent l (Some reason) → ∃ st, ChildWaited (Ok st) ∈ l ∧ says st reason.
Proof.
  remember (Some reason) as o eqn:Ho. induction 1 as [sent l st r _ Hs| |l k l' o _ _ _ IH| |]; try done.
  - injection Ho as ->. exists st. split; [set_solver|done].
  - destruct (IH Ho) as (st & Hin & Hs). exists st. split; [set_solver|done].
Qed.

Lemma terminate_settled signal l o :
  terminate_trace signal l o → match o with Some _ => end_seen l | None => fought l end.
Proof.
  destruct 1 as [k l o _ Hr|n Hn].
  - apply reap_settled in Hr. destruct o; [eapply end_seen_incl; [exact Hr|set_solver]|].
    destruct Hr as [?|Hr]; [done|]. eapply fought_incl; [exact Hr|set_solver].
  - right. left. exists signal, n. split; [done|set_solver].
Qed.

Lemma acquire_found l reason : acquire_trace l (Ok (AcquisitionChildTerminated reason)) → end_seen l.
Proof. intros (l' & st & -> & _ & Hs). exists st, reason. split; [set_solver|done]. Qed.

(** A live group that is dropped: settled, then disarmed. *)
Lemma drop_live l : drop_trace false l → ∃ l', l = l' ++ [GuardDisarmed] ∧ Forall body l' ∧ (end_seen l' ∨ fought l').
Proof.
  inversion 1 as [|l' o Ht]; subst. exists l'. split; [done|]. split; [by eapply terminate_body|].
  apply terminate_settled in Ht. destruct o; auto.
Qed.

Lemma drop_reaped l : drop_trace true l → l = [].
Proof. by inversion 1. Qed.

(** Waits, signals and the guard's end: what happens to an owned group. *)
Definition group_step (s : SupervisorStep) : Prop :=
  match s with ChildWaited _ | SentToGroup _ _ | GuardDisarmed => True | _ => False end.

Lemma body_group l : Forall body l → Forall group_step l.
Proof. intros H. eapply Forall_impl; [exact H|]. by intros []. Qed.

Ltac group_steps := repeat first
  [ apply Forall_nil | apply Forall_cons; split; [done|] | apply Forall_app; split
  | apply body_group; by eauto using reap_body, terminate_body, escalate_body, acquire_body, waiting_body | done ].

Lemma drop_steps dead l : drop_trace dead l → Forall group_step l.
Proof. destruct 1; group_steps. Qed.

Lemma settle_steps o l o' dead : settle_trace o l o' dead → Forall group_step l.
Proof. destruct 1; group_steps. Qed.

Lemma contain_steps sent before l o dead : contain_trace sent before l o dead → Forall group_step l.
Proof. destruct 1; [destruct before|]; group_steps. Qed.

(** ** Steps that occur once *)

(** Exactly one step with [P], after a prefix that satisfies [Q]. *)
Definition once (P : SupervisorStep → Prop) (Q : list SupervisorStep → Prop) (l : list SupervisorStep) : Prop :=
  ∃ a x b, l = a ++ x :: b ∧ P x ∧ Forall (λ s, ¬ P s) a ∧ Forall (λ s, ¬ P s) b ∧ Q a.

Lemma once_elim P Q l a x b : once P Q l → l = a ++ x :: b → P x → Q a ∧ Forall (λ s, ¬ P s) (a ++ b).
Proof.
  intros (a' & x' & b' & Hl & _ & Ha & Hb & HQ) H HP. rewrite Hl in H.
  destruct (split_unique P _ _ _ _ _ _ Ha Hb HP H) as (-> & -> & ->). split; [done|]. by apply Forall_app.
Qed.

Lemma once_around P (Q Q' : list SupervisorStep → Prop) pre l post :
  Forall (λ s, ¬ P s) pre → Forall (λ s, ¬ P s) post → once P Q l → (∀ a, Q a → Q' (pre ++ a)) → once P Q' (pre ++ l ++ post).
Proof.
  intros Hpre Hpost (a & x & b & -> & HP & Ha & Hb & HQ) HQ'. exists (pre ++ a), x, (b ++ post).
  rewrite <- !app_assoc. repeat split; [done|by apply Forall_app|by apply Forall_app|auto].
Qed.

Lemma body_not (P : SupervisorStep → Prop) l : (∀ s, body s → ¬ P s) → Forall body l → Forall (λ s, ¬ P s) l.
Proof. intros H Hl. eapply Forall_impl; [exact Hl|done]. Qed.

Lemma loop_not (P : SupervisorStep → Prop) (ls : list EventLoop.LoopStep) :
  (∀ s, ¬ P (InLoop s)) → Forall (λ s, ¬ P s) (InLoop <$> ls).
Proof. intros H. apply Forall_fmap, Forall_true. apply H. Qed.

(** *** The guard *)

Definition is_disarm (s : SupervisorStep) : Prop := s = GuardDisarmed.

Lemma body_no_disarm l : Forall body l → Forall (λ s, ¬ is_disarm s) l.
Proof. apply body_not. by intros [] ? ?. Qed.

Definition settled_by {F : Type} (result : EventLoop.EventLoopResult F) (l : list SupervisorStep) : Prop :=
  (∃ reason, EventLoop.outcome result = EventLoop.OutcomeChildTerminated reason) ∨ end_seen l ∨ fought l.

Lemma settled_by_app {F : Type} (result : EventLoop.EventLoopResult F) l l' :
  end_seen l' ∨ fought l' → settled_by result (l ++ l').
Proof.
  intros [H|H]; right; [left; eapply end_seen_incl|right; eapply fought_incl]; try exact H; set_solver.
Qed.

(** What the group went through before the conclusion contains it. *)
Lemma settle_once {F : Type} (result : EventLoop.EventLoopResult F) l o (dead : bool) :
  settle_trace (EventLoop.outcome result) l o dead →
  if dead then once is_disarm (settled_by result) l else Forall (λ s, ¬ is_disarm s) l.
Proof.
  remember (EventLoop.outcome result) as oc eqn:Hoc.
  destruct 1 as [reason|signal t l reason Ht|signal t l error Ht|signal t error|]; [| | |by constructor..].
  - exists [], GuardDisarmed, []. repeat split; [constructor..|]. left. eauto.
  - exists l, GuardDisarmed, []. repeat split; [by eapply body_no_disarm, terminate_body|constructor|].
    right. left. by apply (terminate_settled _ _ _ Ht).
  - by eapply body_no_disarm, terminate_body.
Qed.

Ltac not_disarm := repeat first
  [ apply Forall_nil | apply Forall_cons; split; [by unfold is_disarm|] | apply Forall_app; split
  | apply body_no_disarm; by eauto using reap_body, terminate_body, escalate_body, acquire_body, waiting_body
  | apply loop_not; by unfold is_disarm | done ].

Lemma completion_not (P : SupervisorStep → Prop) {F : Type} (f : option F) reason :
  (∀ r, ¬ P (FinalizationCompleted r)) → Forall (λ s, ¬ P s) (completion_trace f reason).
Proof. intros H. destruct f; repeat constructor. apply H. Qed.

Lemma conclude_disarms {F : Type} (result : EventLoop.EventLoopResult F) l code :
  conclude_trace result l code → once is_disarm (settled_by result) l.
Proof.
  destruct 1 as [settle o dead dropped _ _ Hs Hd|settle o dead kill sent contained reason dead' path dropped Hs Hk Hc Hd].
  - apply settle_once in Hs. destruct dead.
    + apply drop_reaped in Hd as ->. apply (once_around _ (settled_by result) _ [] settle [PortDestroyed]); auto; not_disarm.
    + apply drop_live in Hd as (l' & -> & Hb & Hl). exists (settle ++ PortDestroyed :: l'), GuardDisarmed, [].
      rewrite <- app_assoc. repeat split; [not_disarm; by apply body_no_disarm|constructor|].
      apply settled_by_app. destruct Hl as [Hl|Hl]; [left; eapply end_seen_incl|right; eapply fought_incl]; try exact Hl; set_solver.
  - apply settle_once in Hs.
    assert (Forall (λ s, ¬ is_disarm s) (completion_trace (EventLoop.crash_finalization result) reason)) as Hf
      by (by apply completion_not).
    destruct Hc as [rt reason Hr|rt Hr].
    + apply drop_reaped in Hd as ->. rewrite app_nil_r. destruct dead.
      * rewrite app_nil_r. apply (once_around _ (settled_by result) _ [] settle); auto; not_disarm.
      * exists (settle ++ PortDestroyed :: kill ++ rt), GuardDisarmed,
          (completion_trace (EventLoop.crash_finalization result) (Some reason)).
        repeat split; [by rewrite <- !app_assoc; simpl; rewrite <- !app_assoc|not_disarm|done|].
        apply settled_by_app. left. eapply end_seen_incl; [exact (reap_settled _ _ _ Hr)|set_solver].
    + destruct dead.
      * apply drop_reaped in Hd as ->. rewrite app_nil_r. apply (once_around _ (settled_by result) _ [] settle); auto; not_disarm.
      * apply drop_live in Hd as (l' & -> & Hb & Hl).
        exists (settle ++ PortDestroyed :: kill ++ rt ++ completion_trace (EventLoop.crash_finalization result) None ++ l'),
          GuardDisarmed, [].
        repeat split; [by rewrite <- !app_assoc; simpl; rewrite <- !app_assoc|not_disarm; by apply body_no_disarm|constructor|].
        apply settled_by_app. destruct Hl as [Hl|Hl]; [left; eapply end_seen_incl|right; eapply fought_incl]; try exact Hl; set_solver.
Qed.

(** *** The exception port *)

Definition is_port (s : SupervisorStep) : Prop := s = PortDestroyed.

Lemma body_no_port l : Forall body l → Forall (λ s, ¬ is_port s) l.
Proof. apply body_not. by intros [] ? ?. Qed.

Ltac not_port := repeat first
  [ apply Forall_nil | apply Forall_cons; split; [by unfold is_port|] | apply Forall_app; split
  | apply body_no_port; by eauto using reap_body, terminate_body, escalate_body, acquire_body, waiting_body
  | apply completion_not; by unfold is_port | apply loop_not; by unfold is_port | done ].

Lemma group_not (P : SupervisorStep → Prop) l : (∀ s, group_step s → ¬ P s) → Forall group_step l → Forall (λ s, ¬ P s) l.
Proof. intros H Hl. eapply Forall_impl; [exact Hl|done]. Qed.

Lemma group_no_port l : Forall group_step l → Forall (λ s, ¬ is_port s) l.
Proof. apply group_not. by intros [] ? ?. Qed.

Lemma conclude_port {F : Type} (result : EventLoop.EventLoopResult F) l code :
  conclude_trace result l code → once is_port (λ _, True) l.
Proof.
  destruct 1 as [settle o dead dropped _ _ Hs Hd|settle o dead kill sent contained reason dead' path dropped Hs Hk Hc Hd].
  - exists settle, PortDestroyed, dropped. repeat split; apply group_no_port; eauto using settle_steps, drop_steps.
  - eexists settle, PortDestroyed, _. repeat split; [by eapply group_no_port, settle_steps|].
    not_port; apply group_no_port; eauto using contain_steps, drop_steps.
Qed.

(** ** Whole runs *)

(** The steps after the spawn. *)
Record supervised (post : list SupervisorStep) : Prop := mkSupervised {
  spawned_once : ∀ pid, ChildSpawned pid ∉ post;
  port_destroyed_once : once is_port (λ _, True) post;
  guard_disarmed_after : GuardArmed ∈ post → once is_disarm (settled) post;
  child_settled : settled post
}.

Definition quiet_step (s : SupervisorStep) : Prop := match s with ChildSpawned _ => False | _ => True end.

Lemma no_spawn l : Forall quiet_step l → ∀ pid, ChildSpawned pid ∉ l.
Proof. intros Hl pid Hin. by apply (proj1 (Forall_forall _ _) Hl _ Hin). Qed.

Lemma body_quiet l : Forall body l → Forall quiet_step l.
Proof. intros H. eapply Forall_impl; [exact H|]. by intros []. Qed.

Lemma loop_quiet (ls : list EventLoop.LoopStep) : Forall quiet_step (InLoop <$> ls).
Proof. by apply Forall_fmap, Forall_true. Qed.

Ltac quiet_steps := repeat first
  [ apply Forall_nil | apply Forall_cons; split; [done|] | apply Forall_app; split
  | apply body_quiet; by eauto using reap_body, terminate_body, escalate_body, acquire_body, waiting_body
  | apply loop_quiet | done ].

(** The conclusion spawns nothing and runs no loop. *)
Definition conclude_step (s : SupervisorStep) : Prop :=
  match s with PortDestroyed | FinalizationCompleted _ => True | _ => group_step s end.

Lemma conclude_steps {F : Type} (result : EventLoop.EventLoopResult F) l code :
  conclude_trace result l code → Forall conclude_step l.
Proof.
  assert (∀ l, Forall group_step l → Forall conclude_step l) as Hg
    by (intros l' H'; eapply Forall_impl; [exact H'|]; by intros []).
  destruct 1; repeat first [apply Forall_app; split | apply Forall_cons; split; [done|]];
    eauto using drop_steps, settle_steps, contain_steps, escalate_body, body_group.
  by destruct (EventLoop.crash_finalization result); repeat constructor.
Qed.

Lemma conclude_quiet {F : Type} (result : EventLoop.EventLoopResult F) l code :
  conclude_trace result l code → Forall quiet_step l.
Proof. intros H%conclude_steps. eapply Forall_impl; [exact H|]. by intros []. Qed.

(** A run in which the guard is disarmed once, after a settled prefix. *)
Lemma supervised_guarded post :
  Forall quiet_step post → once is_port (λ _, True) post → once is_disarm (settled) post → supervised post.
Proof.
  intros Hq Hp Hd. split; [by apply no_spawn|done|done|]. destruct Hd as (a & x & b & -> & _ & _ & _ & H).
  destruct H as [H|[H|(until & reason & H)]].
  - left. eapply end_seen_incl; [exact H|set_solver].
  - right. left. eapply fought_incl; [exact H|set_solver].
  - right. right. exists until, reason. apply elem_of_app. by left.
Qed.

Lemma once_here P (Q : list SupervisorStep → Prop) a x b :
  P x → Forall (λ s, ¬ P s) a → Forall (λ s, ¬ P s) b → Q a → once P Q (a ++ x :: b).
Proof. intros HP Ha Hb HQ. by exists a, x, b. Qed.

Lemma settled_incl l l' : end_seen l ∨ fought l → l ⊆ l' → settled l'.
Proof. intros [H|H] Hin; [left; by eapply end_seen_incl|right; left; by eapply fought_incl]. Qed.

Lemma unowned_supervised k single l o :
  (k = None ∧ single = []) ∨ (is_Some k ∧ ∃ r, single = [SentToPid SIGKILL r]) → reap_trace true l o →
  supervised (SentToGroup SIGKILL k :: single ++ l ++ [PortDestroyed]).
Proof.
  intros Hs Hr. pose proof (reap_body _ _ _ Hr) as Hb.
  assert (fought (SentToGroup SIGKILL k :: single ++ l ++ [PortDestroyed])) as Hf.
  { destruct k as [n|]; [destruct (decide (n = CaptureSpawn.ESRCH)) as [->|Hn]|].
    - right. right. exists (Some CaptureSpawn.ESRCH). split; [by right|left].
    - right. left. exists SIGKILL, n. split; [done|left].
    - right. right. exists None. split; [by left|left]. }
  split.
  - apply no_spawn. destruct Hs as [[_ ->]|[_ [r ->]]]; quiet_steps.
  - change (SentToGroup SIGKILL k :: single ++ l ++ [PortDestroyed]) with
      ((SentToGroup SIGKILL k :: single) ++ l ++ [PortDestroyed]). rewrite app_assoc.
    apply once_here; [done| |constructor|done]. destruct Hs as [[_ ->]|[_ [r ->]]]; not_port; by apply body_no_port.
  - intros Hg. exfalso. apply elem_of_cons in Hg as [?|Hg]; [done|]. rewrite !elem_of_app in Hg.
    destruct Hg as [Hg|[Hg|Hg]].
    + destruct Hs as [[_ ->]|[_ [r ->]]]; set_solver.
    + by destruct (proj1 (Forall_forall body l) Hb _ Hg).
    + set_solver.
  - right. by left.
Qed.

(** Waits and signals, the guard, a report, and the port. *)
Lemma guarded_supervised pre ls :
  Forall body pre → end_seen pre ∨ fought pre →
  supervised (GuardArmed :: pre ++ GuardDisarmed :: (InLoop <$> ls) ++ [PortDestroyed]).
Proof.
  intros Hb Hs. apply supervised_guarded; [quiet_steps| |].
  - exists (GuardArmed :: pre ++ GuardDisarmed :: (InLoop <$> ls)), PortDestroyed, [].
    simpl. rewrite <- app_assoc. repeat split; [not_port; by apply body_no_port|constructor].
  - exists (GuardArmed :: pre), GuardDisarmed, ((InLoop <$> ls) ++ [PortDestroyed]).
    repeat split; [not_disarm; by apply body_no_disarm|not_disarm|]. eapply settled_incl; [exact Hs|set_solver].
Qed.

Lemma fought_or_seen_app l l' : end_seen l' ∨ fought l' → end_seen (l ++ l') ∨ fought (l ++ l').
Proof. intros [H|H]; [left; eapply end_seen_incl|right; eapply fought_incl]; try exact H; set_solver. Qed.

Lemma monitored_supervised {F : Type} l ls (result : EventLoop.EventLoopResult F) l' code :
  waiting l → loop_ran ls result → conclude_trace result l' code →
  supervised (GuardArmed :: l ++ (InLoop <$> ls) ++ l').
Proof.
  intros Hw Hls Hc. pose proof (conclude_quiet _ _ _ Hc) as Hq.
  assert (GuardArmed :: l ++ (InLoop <$> ls) ++ l' = (GuardArmed :: l ++ (InLoop <$> ls)) ++ l' ++ []) as ->
    by (rewrite app_nil_r; simpl; by rewrite <- app_assoc).
  apply supervised_guarded; [quiet_steps| |].
  - eapply once_around; [not_port|constructor|by eapply conclude_port|done].
  - eapply once_around; [not_disarm|constructor|by eapply conclude_disarms|].
    intros a [[reason Ho]|Ha].
    + right. right. destruct Hls as (enabled & pid & name & shm & anr & s0 & start & ls' & -> & _ & Hls).
      destruct (EventLoopSpec.looped_child _ _ _ _ _ _ _ _ _ Hls Ho) as [until Hin]. exists until, reason.
      rewrite elem_of_app. left. rewrite elem_of_cons. right. rewrite elem_of_app. right. apply list_elem_of_fmap_2. by right.
    + eapply settled_incl; [exact Ha|set_solver].
Qed.

Lemma run_supervised F l code :
  run_trace F l code →
  ((∀ pid, ChildSpawned pid ∉ l) ∧ code = EventLoop.EXIT_MONITOR_INTERNAL) ∨
  ∃ pid post, l = ChildSpawned pid :: post ∧ supervised post.
Proof.
  destruct 1 as [| |pid k single l o Hs Hr|pid l reason ls Ha _|pid l error l' reason ls Ha Ht _|pid l error l' dropped Ha Ht Hd
    |pid l dropped Hw Hd|pid l ls result l' code Hw Hls Hc].
  1: left; split; [|done]; intros pid ?%not_elem_of_nil; done.
  1: left; split; [|done]; intros pid; set_solver.
  all: right; eexists pid, _; split; [done|].
  - by eapply unowned_supervised.
  - apply guarded_supervised; [by eapply acquire_body|]. left. by eapply acquire_found.
  - rewrite app_assoc. apply guarded_supervised.
    + apply Forall_app. split; [by eapply acquire_body|by eapply terminate_body].
    + apply fought_or_seen_app. left. apply (terminate_settled _ _ _ Ht).
  - apply drop_live in Hd as (l'' & -> & Hb & Hs).
    assert (l ++ l' ++ (l'' ++ [GuardDisarmed]) ++ [PortDestroyed] =
            (l ++ l' ++ l'') ++ GuardDisarmed :: (InLoop <$> []) ++ [PortDestroyed]) as -> by (by rewrite <- !app_assoc).
    apply guarded_supervised; [|by do 2 apply fought_or_seen_app].
    apply Forall_app. split; [by eapply acquire_body|]. apply Forall_app. split; [by eapply terminate_body|done].
  - apply drop_live in Hd as (l'' & -> & Hb & Hs).
    assert (l ++ (l'' ++ [GuardDisarmed]) ++ [PortDestroyed] =
            (l ++ l'') ++ GuardDisarmed :: (InLoop <$> []) ++ [PortDestroyed]) as -> by (by rewrite <- !app_assoc).
    apply guarded_supervised; [|by apply fought_or_seen_app]. apply Forall_app. split; [by apply waiting_body|done].
  - by eapply monitored_supervised.
Qed.


(** ** Fatal reports *)

Definition is_completion (s : SupervisorStep) : Prop := match s with FinalizationCompleted _ => True | _ => False end.

(** The one completion, after the port is gone, with the status that was found. *)
Definition completed_once (l : list SupervisorStep) : Prop :=
  ∃ a reason b, l = a ++ FinalizationCompleted reason :: b ∧
    Forall (λ s, ¬ is_completion s) a ∧ Forall (λ s, ¬ is_completion s) b ∧ PortDestroyed ∈ a ∧
    match reason with Some r => ∃ st, ChildWaited (Ok st) ∈ a ∧ says st r | None => fought a end.

Lemma body_no_completion l : Forall body l → Forall (λ s, ¬ is_completion s) l.
Proof. apply body_not. by intros [] ? ?. Qed.

Ltac not_completion := repeat first
  [ apply Forall_nil | apply Forall_cons; split; [by unfold is_completion; auto|] | apply Forall_app; split
  | apply body_no_completion; by eauto using reap_body, terminate_body, escalate_body, acquire_body, waiting_body
  | apply loop_not; by unfold is_completion; auto | done ].

Lemma group_no_completion l : Forall group_step l → Forall (λ s, ¬ is_completion s) l.
Proof. apply group_not. by intros [] ? ?. Qed.

(** A loop that hands over a ticket has started it, and demands the cleanup. *)
Definition ticketed {F : Type} (l : list EventLoop.LoopStep) (flow : EventLoop.Flow F) : Prop :=
  match flow with
  | EventLoop.Continue _ => EventLoop.FinalizationStarted ∉ l
  | EventLoop.Return result =>
      (is_Some (EventLoop.crash_finalization result) ↔ EventLoop.FinalizationStarted ∈ l) ∧
      (is_Some (EventLoop.crash_finalization result) → EventLoop.crash_cleanup_required result = true)
  end.

Lemma ticketed_before {F : Type} pre l (flow : EventLoop.Flow F) :
  EventLoop.FinalizationStarted ∉ pre → ticketed l flow → ticketed (pre ++ l) flow.
Proof. intros Hpre. destruct flow as [st|r]; simpl; rewrite elem_of_app; [tauto|]. intros [-> H]. split; [tauto|done]. Qed.

Lemma own_capture_ticket {F : Type} pid name shm st t hang started l (flow : EventLoop.Flow F) :
  EventLoopSpec.own_capture pid name shm st t hang started l flow → ticketed l flow.
Proof.
  destruct 1 as [id captured failures rebase st' _ Hr|id captured failures message _]; simpl.
  - assert (EventLoop.FinalizationStarted ∉ rebase) by (destruct Hr; set_solver). destruct captured; set_solver.
  - split; [|by intros [? ?]]. split; [by intros [? ?]|destruct captured; set_solver].
Qed.

Lemma iteration_ticket {F : Type} enabled pid name shm anr st event l (flow : EventLoop.Flow F) :
  EventLoopSpec.iteration enabled pid name shm anr st event l flow → ticketed l flow.
Proof.
  destruct 1 as [| |cfg state now e h s' last _ _ _ _ _ _|cfg state now e h s' d last l flow _ _ _ _ _ _ Hc| |started l flow He Hc| | |? ? ? ? ? ? before captured ok failures fin o _ Hb Hf _
    |reason t id Ht|reason _|signal|message|message]; try (simpl; set_solver);
    try (simpl; split; [|by intros [? ?]]; split; [by intros [? ?]|set_solver]).
  - apply ticketed_before; [set_solver|]. by eapply own_capture_ticket.
  - apply (ticketed_before [_]); [set_solver|]. by eapply own_capture_ticket.
  - simpl. split; [|done]. rewrite Hf. assert (EventLoop.FinalizationStarted ∉ before) as Hn by (destruct Hb; set_solver).
    destruct captured; set_solver.
Qed.

Lemma looped_ticket {F : Type} enabled pid name shm anr st l (flow : EventLoop.Flow F) :
  EventLoopSpec.looped enabled pid name shm anr st l flow → ticketed l flow.
Proof.
  induction 1 as [st|st event l st' l' flow Hi Hl IH|st event l r Hi]; [set_solver| |].
  - change (?s :: l ++ l') with ((s :: l) ++ l'). apply ticketed_before; [|done]. apply iteration_ticket in Hi. simpl in Hi. set_solver.
  - apply (ticketed_before [_]); [set_solver|]. by eapply iteration_ticket.
Qed.

Lemma ran_ticket {F : Type} ls (result : EventLoop.EventLoopResult F) : loop_ran ls result → ticketed ls (EventLoop.Return result).
Proof.
  intros (enabled & pid & name & shm & anr & s0 & start & l & -> & _ & Hl).
  apply (ticketed_before [_]); [set_solver|]. by eapply looped_ticket.
Qed.

Lemma conclude_completes {F : Type} (result : EventLoop.EventLoopResult F) l code :
  (is_Some (EventLoop.crash_finalization result) → EventLoop.crash_cleanup_required result = true) →
  conclude_trace result l code →
  match EventLoop.crash_finalization result with
  | Some _ => completed_once l
  | None => Forall (λ s, ¬ is_completion s) l
  end.
Proof.
  intros Hcl H. destruct H as [settle o dead dropped Hn _ Hs Hd|settle o dead kill sent contained reason dead' path dropped Hs Hk Hc Hd].
  - destruct (EventLoop.crash_finalization result) eqn:Hf; [by rewrite Hn in Hcl; discriminate Hcl; eauto|].
    not_completion; apply group_no_completion; eauto using settle_steps, drop_steps.
  - destruct (EventLoop.crash_finalization result) eqn:Hf; simpl.
    + exists (settle ++ PortDestroyed :: kill ++ contained), reason, dropped.
      repeat split.
      * rewrite <- !app_assoc. simpl. by rewrite <- !app_assoc.
      * not_completion; apply group_no_completion; eauto using settle_steps, contain_steps.
      * by eapply group_no_completion, drop_steps.
      * set_solver.
      * destruct Hc as [rt reason Hr|rt Hr].
        -- destruct (reap_status _ _ _ Hr) as (st & Hin & Hsay). exists st. split; [set_solver|done].
        -- apply reap_settled in Hr as [->|Hr]; [|eapply fought_incl; [exact Hr|set_solver]].
           inversion Hk; subst. right. right. eexists. split; [done|set_solver].
    + not_completion; apply group_no_completion; eauto using settle_steps, contain_steps, drop_steps.
Qed.

(** Steps around which no fatal report is begun or completed. *)
Definition silent_step (s : SupervisorStep) : Prop :=
  match s with FinalizationCompleted _ | InLoop EventLoop.FinalizationStarted => False | _ => True end.

Lemma silent_steps l :
  Forall silent_step l → InLoop EventLoop.FinalizationStarted ∉ l ∧ Forall (λ s, ¬ is_completion s) l.
Proof.
  intros Hl. split; [intros Hin; by apply (proj1 (Forall_forall _ _) Hl _ Hin)|].
  eapply Forall_impl; [exact Hl|]. by intros [] ? ?.
Qed.

Lemma group_silent l : Forall group_step l → Forall silent_step l.
Proof. intros H. eapply Forall_impl; [exact H|]. by intros []. Qed.

Lemma reported_silent ls : reported ls → Forall silent_step (InLoop <$> ls).
Proof. intros H. apply Forall_fmap. eapply Forall_impl; [exact H|]. by intros s [t ->]. Qed.

Ltac silents := repeat first
  [ apply Forall_nil | apply Forall_cons; split; [done|] | apply Forall_app; split
  | apply group_silent, body_group; by eauto using reap_body, terminate_body, escalate_body, acquire_body, waiting_body
  | by apply group_silent | by apply reported_silent | done ].

Lemma run_completes F l code :
  run_trace F l code →
  (InLoop EventLoop.FinalizationStarted ∈ l → completed_once l) ∧
  (InLoop EventLoop.FinalizationStarted ∉ l → Forall (λ s, ¬ is_completion s) l).
Proof.
  assert (∀ l0, InLoop EventLoop.FinalizationStarted ∉ l0 ∧ Forall (λ s, ¬ is_completion s) l0 →
    (InLoop EventLoop.FinalizationStarted ∈ l0 → completed_once l0) ∧
    (InLoop EventLoop.FinalizationStarted ∉ l0 → Forall (λ s, ¬ is_completion s) l0)) as Hnone by (intros l0 []; done).
  destruct 1 as [| |pid k single l o Hs Hr|pid l reason ls Ha Hls|pid l error l' reason ls Ha Ht Hls|pid l error l' dropped Ha Ht Hd
    |pid l dropped Hw Hd|pid l ls result l' code Hw Hls Hc].
  - apply Hnone, silent_steps. silents.
  - apply Hnone, silent_steps. silents.
  - apply Hnone, silent_steps. pose proof (reap_body _ _ _ Hr) as Hb. destruct Hs as [[_ ->]|[_ [r ->]]]; silents.
  - apply Hnone, silent_steps. silents.
  - apply Hnone, silent_steps. silents.
  - apply Hnone, silent_steps. apply drop_steps in Hd. silents.
  - apply Hnone, silent_steps. apply drop_steps in Hd. silents.
  - apply ran_ticket in Hls as [Hf Hcl]. pose proof (conclude_steps _ _ _ Hc) as Hsteps.
    apply conclude_completes in Hc; [|done].
    assert (InLoop EventLoop.FinalizationStarted ∈ ChildSpawned pid :: GuardArmed :: l ++ (InLoop <$> ls) ++ l' ↔
            EventLoop.FinalizationStarted ∈ ls) as ->.
    { split; [|set_solver]. intros Hin. do 2 (apply elem_of_cons in Hin as [?|Hin]; [done|]).
      rewrite !elem_of_app in Hin. destruct Hin as [Hin|[Hin|Hin]].
      - by destruct (proj1 (Forall_forall _ _) (waiting_body _ Hw) _ Hin).
      - by apply list_elem_of_fmap in Hin as (s & [= <-] & Hin).
      - by destruct (proj1 (Forall_forall _ _) Hsteps _ Hin). }
    rewrite <- Hf. destruct (EventLoop.crash_finalization result); split; try (by intros []); intros H; try done.
    + destruct Hc as (a & reason & b & -> & Hna & Hnb & Hp & Hr).
      exists (ChildSpawned pid :: GuardArmed :: l ++ (InLoop <$> ls) ++ a), reason, b. repeat split.
      * simpl. by rewrite <- !app_assoc.
      * not_completion.
      * done.
      * set_solver.
      * destruct reason; [destruct Hr as (st & Hin & Hs); exists st; split; [set_solver|done]|].
        eapply fought_incl; [exact Hr|set_solver].
    + not_completion.
Qed.

(** C16. A fatal report that the event loop began is completed exactly once, after
    the exception port is gone and the child was reaped or given up: with the
    status the reap found, or with none if it found none. Nothing else is ever
    completed. *)
Theorem fatal_report_completed {E R C F : Type} {clock : Clock E} {pops : ProcessOps E} {sops : StartOps E}
    {lops : EventLoop.LoopOps E R C F} (fuel retries : nat) (app_path : string) (app_args : list string)
    (w : World E SupervisorStep) :
  let '(o, w') := run_monitor fuel retries app_path app_args w in
  ∃ l, trace w' = trace w ++ l ∧ ∀ code, o = Some code →
    (InLoop EventLoop.FinalizationStarted ∈ l → completed_once l) ∧
    (InLoop EventLoop.FinalizationStarted ∉ l → Forall (λ s, ¬ is_completion s) l).
Proof.
  destruct (run_monitor_ends fuel retries app_path app_args w) as (l & Hl & Hr).
  destruct (run_monitor fuel retries app_path app_args w) as [o w'].
  exists l. split; [done|]. intros code ->. by eapply run_completes, Hr.
Qed.

End SupervisorSafety.
