(* ===== verification/SupervisorBounds.v ===== *)
(** * Every wait of the supervisor is bounded

    With a clock that sleeping advances, the only part of a run that may not answer
    is the event loop, which ends with an event. [total X m] says that [m] answers
    from every world, unless [X]. *)

From S2P Require Import Prelude.
From S2P Require Import Traced.
From S2P Require Import Fueled.
From S2P Require Import Config.
From S2P Require Import PipelineTypes.
From S2P Require Import TaskControl.
From S2P Require Import PluginRun.
From S2P Require Import Pipeline.
From S2P Require Import CaptureSpawn.
From S2P Require Import EventLoop.
From S2P Require Import ChildProcess.
From S2P Require Import Startup.
From S2P Require Import Supervisor.

Module SupervisorBounds.
Export Supervisor.

(** Time passes by no less than what is slept, and a wait is not interrupted
    [retries] times in a row: [waits_again] follows the interrupted ones. *)
Fixpoint interrupted {E : Type} {ops : ProcessOps E} (pid : Z) (n : nat) (e : E) : bool :=
  match n with
  | O => true
  | S n => match waitpid pid e with
           | (Err errno, e) => bool_decide (errno = CaptureSpawn.EINTR) && interrupted pid n e
           | _ => false
           end
  end.

Class SupervisorLaws (E : Type) {clock : Clock E} {ops : ProcessOps E} (elapsed : E → Z) (retries : nat) : Prop := {
  now_reads e : (instant_now e).1 = elapsed e;
  now_ages e : elapsed e ≤ elapsed (instant_now e).2;
  wait_ages pid e : elapsed e ≤ elapsed (waitpid pid e).2;
  sleep_ages d e : 0 ≤ d → elapsed e + d ≤ elapsed (thread_sleep d e);
  lookup_ages pid e : elapsed e ≤ elapsed (spawn_lookup pid e).2;
  await_ages timeout e : elapsed e ≤ elapsed (await_lookup timeout e).2;
  wait_settles pid e : interrupted pid retries e = false
}.

Section Total.
Context {S T : Type}.

Definition total {A : Type} (X : Prop) (m : fueled S T A) : Prop := ∀ w, (m w).1 = None → X.

Lemma total_ret {A : Type} X (a : A) : total X (mret a : fueled S T A).
Proof. by intros w. Qed.

Lemma total_bind {A B : Type} X (m : fueled S T A) (f : A → fueled S T B) :
  total X m → (∀ a, total X (f a)) → total X (m ≫= f).
Proof.
  intros Hm Hf w. unfold mbind, fueled_bind. specialize (Hm w). destruct (m w) as [[a|] w']; [apply Hf|]. intros _. by apply Hm.
Qed.

Lemma total_ask {A : Type} X (f : S → A * S) : total X (ask f : fueled S T A).
Proof. intros w. unfold ask, of_traced, lift. by destruct (f (env w)). Qed.

Lemma total_look {A : Type} X (f : S → A) : total X (of_traced (look f) : fueled S T A).
Proof. by intros w. Qed.

Lemma total_step X (s : T) : total X (step s : fueled S T unit).
Proof. by intros w. Qed.

Lemma answers_total {A : Type} X (m : fueled S T A) : (∀ w, answers (λ _ _, True) m w) → total X m.
Proof. intros H w. destruct (H w) as (a & w' & -> & _). done. Qed.

End Total.

#[export] Hint Resolve total_ret total_ask total_look total_step : cm.

(** The parts of a computation, one after the other. *)
Ltac solve_total := repeat (intros; first [solve [eauto with cm] | case_match | apply total_bind]).

Section Bounds.
Context {E R C F : Type} {clock : Clock E} {pops : ProcessOps E} {sops : StartOps E} {lops : EventLoop.LoopOps E R C F}.
Context (elapsed : E → Z) (retries : nat) {laws : SupervisorLaws E elapsed retries}.
#[local] Notation sup := (fueled E SupervisorStep).
#[local] Notation age w := (elapsed (env w)).

(** It answers, and time does not go back. *)
Definition ages {A : Type} (m : sup A) : Prop := ∀ w, answers (λ _ w', age w ≤ age w') m w.

Lemma ages_bind {A B : Type} (m : sup A) (f : A → sup B) : ages m → (∀ a, ages (f a)) → ages (m ≫= f).
Proof.
  intros Hm Hf w. eapply answers_bind; [apply Hm|]. intros a w' Hw. simpl in Hw.
  eapply answers_impl; [apply Hf|]. simpl. intros. lia.
Qed.

Lemma ages_ask {A : Type} (f : E → A * E) : (∀ e, elapsed e ≤ elapsed (f e).2) → ages (ask f).
Proof. intros H w. by apply answers_ask. Qed.

Lemma ages_ret {A : Type} (a : A) : ages (mret a).
Proof. intros w. by apply answers_ret. Qed.

Lemma ages_wait pid : ages (wait_child pid).
Proof.
  apply ages_bind; [apply ages_ask, wait_ages|]. intros r. apply ages_bind; [|intros; apply ages_ret].
  intros w. by apply answers_step.
Qed.

Lemma ages_observed st started : ages (observed st started).
Proof. apply ages_bind; [apply ages_ask, now_ages|]. intros. apply ages_ret. Qed.

Lemma ages_poll_once pid started : ages (poll_child_after_crash_once pid started).
Proof.
  apply ages_bind; [apply ages_wait|]. intros [st|errno].
  - apply ages_bind; [apply ages_observed|]. intros. apply ages_ret.
  - case_decide; apply ages_ret.
Qed.

(** *** Polls until a deadline *)

Lemma poll_until_answers (n fuel : nat) poll deadline w :
  ages poll → (n < fuel)%nat → deadline ≤ age w + Z.of_nat n * CRASH_REAP_POLL_INTERVAL →
  answers (λ _ _, True) (poll_until_deadline fuel poll deadline) w.
Proof.
  intros Hp. revert n w. induction fuel as [|fuel IH]; intros n w Hn Hd; [lia|]. cbn [poll_until_deadline].
  eapply answers_bind; [apply Hp|]. intros polled w1 H1. simpl in H1.
  assert (answers (λ (_ : result string (option TerminationReason)) _, True)
    (current ← now;
     if decide (deadline ≤ current) then mret (Ok None) else
     _ ← sleep (Z.min CRASH_REAP_POLL_INTERVAL (saturating_duration_since deadline current));
     poll_until_deadline fuel poll deadline) w1) as Hgo.
  { eapply (answers_bind (λ current w2, current = age w1 ∧ age w1 ≤ age w2)).
    { apply answers_ask. simpl. split; [apply now_reads|apply now_ages]. }
    intros current w2 [-> H2]. case_decide as Hlate; [by apply answers_ret|].
    eapply (answers_bind (λ _ w3, age w2 + Z.min CRASH_REAP_POLL_INTERVAL (deadline - age w1) ≤ age w3)).
    { apply answers_ask. simpl. unfold saturating_duration_since. rewrite Z.max_r by lia. apply sleep_ages.
      unfold CRASH_REAP_POLL_INTERVAL, NANOS_PER_MILLI. lia. }
    intros [] w3 H3. simpl in H3. destruct n as [|n]; [exfalso; lia|].
    apply (IH n); [lia|]. rewrite Nat2Z.inj_succ in Hd. unfold CRASH_REAP_POLL_INTERVAL, NANOS_PER_MILLI in *. lia. }
  destruct polled as [[]|error]; [exact Hgo|exact Hgo|by apply answers_ret|by apply answers_ret].
Qed.

(** Reading the clock for a deadline of [n] intervals, and polling until then. *)
Lemma poll_from_now_answers (n fuel : nat) poll d w :
  ages poll → (n < fuel)%nat → d ≤ Z.of_nat n * CRASH_REAP_POLL_INTERVAL →
  answers (λ _ _, True) (t ← now; poll_until_deadline fuel poll (t + d)) w.
Proof.
  intros Hp Hn Hd. eapply (answers_bind (λ t w', t = age w ∧ age w ≤ age w')).
  { apply answers_ask. split; [apply now_reads|apply now_ages]. }
  intros t w' [-> Hw]. apply (poll_until_answers n); [done|done|lia].
Qed.

Lemma poll_from_now_total X (n fuel : nat) poll d {A : Type} (k : result string (option TerminationReason) → sup A) :
  ages poll → (n < fuel)%nat → d ≤ Z.of_nat n * CRASH_REAP_POLL_INTERVAL → (∀ r, total X (k r)) →
  total X (t ← now; poll_until_deadline fuel poll (t + d) ≫= k).
Proof.
  intros Hp Hn Hd Hk w. rewrite bind_assoc. apply total_bind; [|done].
  apply answers_total. intros w'. by apply (poll_from_now_answers n).
Qed.

(** *** Reaping *)

Lemma reap_killed_total X fuel deadlines pid started :
  (10 < fuel)%nat → after_sigkill deadlines ≤ 10 * CRASH_REAP_POLL_INTERVAL →
  total X (reap_killed fuel deadlines (poll_child_after_crash_once pid started)).
Proof. intros Hn Hd. apply (poll_from_now_total X 10); [apply ages_poll_once|done|done|]. solve_total. Qed.

Lemma reap_total X fuel sent deadlines pid started send :
  (30 < fuel)%nat → before_sigkill deadlines ≤ 30 * CRASH_REAP_POLL_INTERVAL →
  after_sigkill deadlines ≤ 10 * CRASH_REAP_POLL_INTERVAL → total X send →
  total X (reap_after_detected_crash_with fuel sent deadlines (poll_child_after_crash_once pid started) send).
Proof.
  intros Hn Hb Ha Hs. pose proof (λ x, reap_killed_total x fuel deadlines pid started ltac:(lia) Ha) as Hk.
  destruct sent; [apply Hk|]. apply (poll_from_now_total X 30); [apply ages_poll_once|done|done|]. solve_total.
Qed.

Lemma signal_total X g signal : total X (group_signal g signal).
Proof. unfold group_signal. solve_total. Qed.

Lemma disarm_total X g : total X (disarm g).
Proof. unfold disarm. solve_total. Qed.
#[local] Hint Resolve signal_total disarm_total : cm.

Lemma reaped_total X g r : total X (reaped_if_ok g r).
Proof. unfold reaped_if_ok, mark_reaped. solve_total. Qed.
#[local] Hint Resolve reaped_total : cm.

Lemma terminate_total X fuel g signal : (30 < fuel)%nat → total X (terminate_and_reap fuel g signal).
Proof.
  intros Hn. apply total_bind; [|auto with cm]. apply total_bind; [auto with cm|].
  intros []; [|auto with cm]. by apply reap_total; auto with cm.
Qed.

Lemma reap_after_crash_total X fuel g sent : (30 < fuel)%nat → total X (reap_after_crash fuel g sent).
Proof. intros Hn. apply total_bind; [|auto with cm]. by apply reap_total; auto with cm. Qed.
#[local] Hint Resolve terminate_total reap_after_crash_total : cm.

Lemma drop_total X fuel g : (30 < fuel)%nat → total X (drop_group fuel g).
Proof. intros Hn. unfold drop_group. solve_total. Qed.
#[local] Hint Resolve drop_total : cm.

(** *** The task port *)

Lemma ages_poll_termination pid started : ages (poll_child_termination retries pid started).
Proof.
  intros w. pose proof (wait_settles pid (env w)) as Hs. revert w Hs.
  generalize retries as n. induction n as [|n IH]; intros w Hs; [done|]. simpl in Hs |- *.
  eapply (answers_bind (λ r w', r = (waitpid pid (env w)).1 ∧ env w' = (waitpid pid (env w)).2)).
  { eapply (answers_bind (λ r w', r = (waitpid pid (env w)).1 ∧ env w' = (waitpid pid (env w)).2)); [by apply answers_ask|].
    intros r w' Hr. apply (answers_bind (λ _ w', r = (waitpid pid (env w)).1 ∧ env w' = (waitpid pid (env w)).2)).
    - by apply answers_step.
    - intros [] w'' H. by apply answers_ret. }
  intros r w' [Hr Hw']. pose proof (wait_ages pid (env w)) as Hw. destruct (waitpid pid (env w)) as [r' e].
  simpl in Hr, Hw', Hw. subst r' e. destruct r as [st|errno].
  - eapply answers_impl; [apply (ages_bind _ _ (ages_observed st started)); intros; apply ages_ret|].
    simpl. intros ? ? ?. lia.
  - destruct (decide (errno = CaptureSpawn.EINTR)) as [He|He]; [|clear Hs; case_decide; by apply answers_ret]. rewrite bool_decide_eq_true_2 in Hs by done.
    eapply answers_impl; [by apply IH|]. simpl. intros ? ? ?. lia.
Qed.

Lemma ages_lookup pid timeout : ages (task_for_pid_with_timeout pid timeout).
Proof.
  unfold task_for_pid_with_timeout. case_decide; [apply ages_ret|].
  apply ages_bind; [apply ages_ask, lookup_ages|]. intros []; [|apply ages_ret].
  apply ages_bind; [apply ages_ask, await_ages|]. intros. apply ages_ret.
Qed.

Lemma acquire_loop_answers (n fuel : nat) after interval deadline acquire poll w :
  (∀ t, ages (acquire t)) → ages poll → 0 < interval → (n < fuel)%nat → deadline ≤ age w + Z.of_nat n * interval →
  answers (λ _ _, True) (acquire_loop fuel after interval deadline acquire poll) w.
Proof.
  intros Ha Hp Hi. revert n w. induction fuel as [|fuel IH]; intros n w Hn Hd; [lia|]. cbn [acquire_loop].
  eapply answers_bind; [apply ages_ask, now_ages|]. intros t w1 H1. simpl in H1.
  eapply answers_bind; [apply Ha|]. intros r w2 H2. simpl in H2. destruct r as [|last]; [by apply answers_ret|].
  eapply answers_bind; [apply Hp|]. intros terminated w3 H3. simpl in H3.
  destruct terminated as [[]|]; [by apply answers_ret| |by apply answers_ret].
  eapply (answers_bind (λ current w4, current = age w3 ∧ age w3 ≤ age w4)).
  { apply answers_ask. simpl. split; [apply now_reads|apply now_ages]. }
  intros current w4 [-> H4]. case_decide as Hlate; [by apply answers_ret|].
  eapply (answers_bind (λ _ w5, age w4 + Z.min interval (deadline - age w3) ≤ age w5)).
  { apply answers_ask. simpl. unfold saturating_duration_since. rewrite Z.max_r by lia. apply sleep_ages. lia. }
  intros [] w5 H5. simpl in H5. destruct n as [|n]; [exfalso; lia|].
  apply (IH n); [lia|]. rewrite Nat2Z.inj_succ in Hd. lia.
Qed.

Lemma acquisition_total X fuel pid started :
  (20 < fuel)%nat → total X (acquire_task_port_or_termination fuel retries pid started).
Proof.
  intros Hn. apply answers_total. intros w.
  eapply (answers_bind (λ t w', t = age w ∧ age w ≤ age w')).
  { apply answers_ask. split; [apply now_reads|apply now_ages]. }
  intros t w' [-> Hw]. apply (acquire_loop_answers 20); [apply ages_lookup|apply ages_poll_termination|done|done|].
  unfold TASK_ACQUISITION_DEADLINE, TASK_ACQUISITION_RETRY_INTERVAL, NANOS_PER_MILLI, Pipeline.NANOS_PER_SEC. lia.
Qed.

(** *** The run *)

Lemma total_in_loop {A : Type} X (m : traced E EventLoop.LoopStep A) : total X (in_loop m).
Proof. intros w. unfold in_loop. by destruct (m (mkWorld (env w) [])). Qed.

Lemma destroy_total X live : total X (destroy_port live).
Proof. unfold destroy_port. solve_total. Qed.
#[local] Hint Resolve total_in_loop destroy_total acquisition_total : cm.

Lemma leave_total X fuel g code : (30 < fuel)%nat → total X (leave fuel g code).
Proof. intros Hn. unfold leave. solve_total. Qed.
#[local] Hint Resolve leave_total : cm.

Lemma conclude_total X fuel g result : (30 < fuel)%nat → total X (conclude fuel g result).
Proof.
  intros Hn. unfold conclude, settle_shutdown, mark_reaped, escalate, contain_and_finalize, complete_fatal. solve_total.
Qed.
#[local] Hint Resolve conclude_total : cm.

(** The event loop went through its events and goes on. *)
Definition loop_continues (fuel : nat) : Prop :=
  ∃ enabled task pid name shm anr (w : World E EventLoop.LoopStep) st,
    (EventLoop.event_loop enabled task pid name shm anr fuel w).1 = EventLoop.Continue st.

Lemma monitor_total fuel p g app_path task :
  (30 < fuel)%nat → total (loop_continues fuel) (monitor fuel p g app_path task).
Proof.
  intros Hn. apply total_bind; [auto with cm|]. intros _. apply total_bind; [unfold anr_config_for; solve_total|].
  intros []; [|auto with cm]. apply total_bind; [auto with cm|]. intros []; [|auto with cm].
  intros w. unfold mbind, fueled_bind, in_loop at 1.
  destruct (EventLoop.event_loop _ _ _ _ _ _ _ _) as [flow w'] eqn:Hloop.
  destruct flow as [st|result]; [|by apply conclude_total].
  intros _. do 8 eexists. by rewrite Hloop.
Qed.
#[local] Hint Resolve monitor_total : cm.

Lemma supervise_total fuel p g app_path :
  (30 < fuel)%nat → total (loop_continues fuel) (supervise fuel retries p g app_path).
Proof.
  intros Hn. apply total_bind; [apply acquisition_total; lia|]. unfold report_termination, mark_reaped. solve_total.
Qed.
#[local] Hint Resolve supervise_total : cm.

Lemma spawn_total fuel p app_path app_args :
  (30 < fuel)%nat → total (loop_continues fuel) (spawn_and_supervise fuel retries p app_path app_args).
Proof.
  intros Hn. unfold spawn_and_supervise, now, group_new, kill_unowned.
  pose proof (λ X pid t, reap_total X fuel true (mkDeadlines 0 UNMONITORED_REAP_AFTER_KILL_DEADLINE) pid t
    (mret (Ok tt)) Hn ltac:(done) ltac:(done) (total_ret _ _)). solve_total.
Qed.
#[local] Hint Resolve spawn_total : cm.

(** From every world, the event loop ends within [fuel] events. *)
Definition loop_ends (fuel : nat) : Prop :=
  ∀ enabled task pid name shm anr (w : World E EventLoop.LoopStep),
    ∃ result, (EventLoop.event_loop enabled task pid name shm anr fuel w).1 = EventLoop.Return result.

(** C17. Every wait of the supervisor is bounded: on a clock that sleeping advances, and
    where a signal does not interrupt [retries] waits in a row, 31 polls are enough
    for the longest of them (3 s of 100 ms). [run_monitor] answers with an exit code
    as soon as the event loop ends within its [fuel] events: no child that ignores
    SIGTERM and SIGKILL, no signal that cannot be sent and no lookup that does not
    answer keeps it. *)
Theorem run_monitor_answers fuel app_path app_args w :
  (30 < fuel)%nat → loop_ends fuel → ∃ code, (run_monitor fuel retries app_path app_args w).1 = Some code.
Proof.
  intros Hn Hends. destruct (run_monitor fuel retries app_path app_args w).1 as [code|] eqn:Hnone; [by exists code|].
  assert (total (loop_continues fuel) (run_monitor fuel retries app_path app_args)) as Htotal.
  { unfold run_monitor, preflight, prepare, shared_memory_for. solve_total. }
  destruct (Htotal w Hnone) as (enabled & task & pid & name & shm & anr & w' & st & Hst).
  destruct (Hends enabled task pid name shm anr w') as [result Hresult]. by rewrite Hst in Hresult.
Qed.

End Bounds.

(** ** A child that nothing terminates *)

Module Example.

(** The environment is the time. Every wait finds the child alive whatever signal
    it was sent, and the first event is SIGTERM. *)
#[export] Instance stubborn_clock : Clock Z := λ e, (e, e).

#[export] Instance stubborn_child : ProcessOps Z := {|
  waitpid _ e := (Ok CaptureSpawn.WaitStillAlive, e);
  killpg _ _ e := (None, e);
  kill _ _ e := (None, e);
  getpgid pid _ := pid;
  thread_sleep d e := e + Z.max 0 d;
  errno_display _ := "errno"%string;
  signal_debug _ := "signal"%string;
  install_guard _ _ e := (Ok tt, e);
  disarm_guard e := e;
  spawn_lookup _ e := (Ok tt, e);
  await_lookup _ e := (Looked (Ok 7) true, e);
  destroy_exception_port e := e
|}.

#[export] Instance stubborn_start : StartOps Z := {|
  plist_from_reader _ := Ok (Startup.PlistDictionary [(Startup.DEBUGGER_ENTITLEMENT, Startup.PlistBoolean true)]);
  current_exe _ := Ok "/monitor"%string;
  codesign_verify _ _ := Ok (Startup.mkOutput true "" "");
  codesign_entitlements _ _ := Ok (Startup.mkOutput true "plist" "");
  load_config e := (Ok config_default, e);
  setup_signal_pipe e := (Ok tt, e);
  create_exception_port e := (Ok tt, e);
  create_shared_memory e := (Ok "shm"%string, e);
  vars_os _ := [("HOME", "/root")]%string;
  env_var _ _ := None;
  build_pipeline _ _ e := (Ok (λ _, true), e);
  recover_startup_artifacts e := e;
  spawn_with_exception_port _ _ _ e := (Ok 4242, e);
  start_listener e := e;
  new_event_source _ _ e := (Ok tt, e)
|}.

#[export] Instance stubborn_loop : EventLoop.LoopOps Z unit unit unit := {|
  EventLoop.wait_until _ e := (Some (EventLoop.ShutdownSignal SIGTERM), e);
  EventLoop.anr_now e := (e, e);
  EventLoop.system_now e := (e, e);
  EventLoop.read_live_anr_heartbeat e := (None, e);
  EventLoop.new_report_id e := ("id"%string, e);
  EventLoop.worker_capture _ _ _ e := (None, e);
  EventLoop.worker_detach e := e;
  EventLoop.worker_shutdown _ e := e;
  EventLoop.background_detach e := e;
  EventLoop.background_shutdown _ e := e;
  EventLoop.background_submit _ e := e;
  EventLoop.request_thread_port _ := 0;
  EventLoop.reply_fn r e := (Ok tt, r, e);
  EventLoop.drop_request _ e := e;
  EventLoop.health_failures _ := [];
  EventLoop.start_finalization _ e := (tt, e);
  EventLoop.complete_finalization _ _ _ e := (None, e);
  EventLoop.finalize_terminated_child _ _ e := (None, e)
|}.

#[export] Instance stubborn_laws : SupervisorLaws Z (λ e, e) 1.
Proof. split; intros; simpl; try lia. Qed.

Lemma stubborn_loop_ends fuel : (0 < fuel)%nat → loop_ends (E := Z) (R := unit) (C := unit) (F := unit) fuel.
Proof.
  intros Hn enabled task pid name shm anr w. destruct fuel as [|fuel]; [lia|]. unfold EventLoop.event_loop.
  unfold mbind, traced_bind. destruct (EventLoop.initial_state _ _ _ _) as [st w']. by eexists.
Qed.

End Example.
Import Example.

Lemma run_monitor_answers_witness :
  (run_monitor 40 1 "/app" [] (mkWorld 0 [])).1 = Some EXIT_MONITOR_INTERNAL ∧
  ∃ code, (run_monitor 40 1 "/app" [] (mkWorld 0 [])).1 = Some code.
Proof.
  split; [vm_compute; reflexivity|].
  apply (run_monitor_answers (λ e, e) 1 40 "/app" [] (mkWorld 0 [])); [lia|apply stubborn_loop_ends; lia].
Defined.

End SupervisorBounds.
